(* ===== verification/_CoqProject ===== *)
-Q . S2P
Prelude.v
GoStrings.v
GoText.v
KVKey.v
KVMemory.v
KVSpec.v
KVProps.v
KVPrefix.v
KVPrefixProps.v
KVIface.v
Triple.v
KVSets.v
CustomID.v
CircBuffer.v
BlockBuffer.v
RingBuffer.v
GrowBuffer.v
GoFloat.v
PDTypes.v
PDStore.v
PDTask.v
PDRetry.v
PDRegistry.v
PDProcessor.v
PDCodec.v
PDInv.v
PDOps.v
PDAttempt.v
PDProps.v
PDScan.v
PDList.v
PDAdmin.v
PDAdminProps.v
PDSafety.v
PDWitness.v
GoBytes.v
Encoding.v
EncodingProps.v
GizKeys.v
ApiKey.v
ApiKeyInv.v
ApiKeyOps.v
ApiKeyProps.v
Tunnel.v
MapCount.v
KeyedLock.v
WriteBudget.v
Trie.v
TrieProps.v
TunnelRouter.v
TunnelRouterProps.v
OggPage.v
OggCRC.v
OggPageProps.v
OggPacket.v
OggPacketProps.v
OggStream.v
OggWriterProps.v
SfuReorder.v
SfuReorderProps.v
SocialKeys.v
InviteToken.v
InviteTokenProps.v
RecoveryIndex.v
RecoverySafe.v
RecoveryPass.v
RecoveryExact.v
KVClient.v
Presence.v
PresenceFence.v
PresenceBatch.v
PresenceQueue.v
PresenceWitness.v
PeerRoute.v
PeerRouteProps.v
PeerQuota.v
PeerQuotaInv.v
PeerQuotaProps.v
PeerUsage.v
PeerUsageProps.v
