(* ===== verification/Prelude.v ===== *)
(** * GizClaw: a verification library for the server core

    The program is the Go server of this repository.  What is modelled is the part of
    it that keeps and moves state: the key-value store and its clients, the deletion
    machinery, the API keys, the social records that several servers share, the wire
    formats, and the data structures beneath them.  Every definition translates the
    source named in its file; paths below are relative to [src/pkgs].

    ** How code becomes definitions

    A Go function that can fail is a value of [Go E A] (a return, an error or a panic);
    a method that changes state is a call of type [ST S E A] on an explicit state [S]
    ([Prelude]).  Byte strings are Rocq strings, [[]byte] of the binary formats are lists
    of integers in [0, 256), machine words are integers kept in range by [u16], [u32] and
    the like, maps are [gmap]s.  Mutable objects that two parties point to are heap
    objects named by their address.  A method that waits is split at the points where
    other goroutines can run; an execution is any sequence of such steps.  Clock
    readings, random bytes, outcomes of contexts and locks, and the order in which a map
    is ranged over are arguments.

    What is not code of the repository is a class of operations with a class of laws:
    JSON, SHA-256, UUIDs and time layouts ([Codec] and [CodecLaws], [KeyCodec],
    [InviteCodec], [CursorCodec]), URLs ([URLParser], without laws), contexts ([CtxOps]),
    writers of [io].  Each class has an instance, and the witnesses run on it.

    ** The parts

    - The Go library: [GoStrings], [GoText], [GoBytes] (with readers of [io]), [GoFloat]
      (binary64), [MapCount] (numbers and sums of the elements of a map); [Triple], a
      program logic for [ST].
    - The store, [store/kv]: [KVKey] (kv.go, keys and their encoding), [KVMemory]
      (memory.go, sets_memory.go, ordered.go, batch_get.go: every method of the in-memory
      store), [KVSpec] and [KVProps] (the documented effect of a mutation on live records
      and collections; [Memory] implements it), [KVPrefix] and [KVPrefixProps] (prefix.go,
      consistent.go: views and what they can touch).  [KVIface] is the interface through
      which the services use a store (operations [KVOps], promises [KVLaws]), [KVSets]
      extends it by sets, limits and collection types, computes effects key by key and
      treats a store that other clients use at the same time, [KVClient] adds reads of
      many keys, conditional creation and replacement.  [Memory] satisfies all of these
      promises.
    - Deletion, [gizclaw/services/system/pendingdeletion]: [PDTypes] (types.go, task.go),
      [PDStore] (kv_store.go, kv_index.go), [PDTask] (kv_task.go), [PDRetry] (retry.go,
      recovery_backoff.go), [PDRegistry] (registry.go), [PDProcessor]
      (processor.go, recovery.go), [PDAdmin] (admin.go).  [PDCodec] holds the laws of the
      codec, [PDInv] the index invariant, [PDOps] the effect of every operation, [PDProps]
      executions, [PDScan] and [PDList] the two listings, [PDAttempt] attempts of the
      processor, [PDSafety] and [PDAdminProps] the main theorems, [PDWitness]
      concrete runs.
    - API keys, [gizclaw/services/system/apikey/server.go]: [ApiKey]; [ApiKeyInv] has an
      abstract registry of keys and the agreement of the three indexes of a key,
      [ApiKeyOps] the simulation, [ApiKeyProps] the theorems and runs.
    - Social records, [gizclaw/internal/socialutil]: [SocialKeys] and [InviteToken]
      (util.go), [RecoveryIndex] (recovery_index.go, recovery_index_repair.go), with
      [InviteTokenProps], [RecoverySafe], [RecoveryPass], [RecoveryExact].
    - Connection presence, [gizclaw/services/runtime/peerpresence]: [Presence]
      (presence.go, transitions.go); [PresenceFence] is the writer of one connection
      among others, [PresenceBatch] many mutations in one commit and the batched read,
      [PresenceQueue] the publication queue as a state machine, [PresenceWitness] runs.
    - Peer routes, [gizclaw/services/runtime/peerroute]: [PeerRoute] (server.go),
      [PeerRouteProps].
    - Quotas of peers, [gizclaw/services/runtime/peerquota]: [PeerQuota] (service.go,
      errors.go) is a state machine over callers, actors, fetches and contexts,
      [PeerQuotaInv] its invariant, [PeerQuotaProps] the theorems and runs.
    - Usage of providers, [gizclaw/services/runtime/peerusage]: [PeerUsage] (recorder.go,
      store.go and [gizclaw/internal/sqlmeta]'s times), the recorder in memory and its
      SQL table as a map of rows; [PeerUsageProps].
    - Identifiers and encodings: [CustomID] ([gizclaw/customid]), [Encoding] and
      [EncodingProps] ([encoding/base32], [encoding/base58]), [GizKeys] ([giznet/keys.go]).
    - Locks, buffers, routing: [KeyedLock] ([internal/keyedlock]), [CircBuffer],
      [BlockBuffer], [RingBuffer], [GrowBuffer] ([buffer]), [WriteBudget]
      ([giznet/write_budget.go]), [Trie] and [TrieProps] ([trie]), [Tunnel],
      [TunnelRouter], [TunnelRouterProps] ([giznet/giztunnel]).
    - Media: [OggPage], [OggCRC], [OggPageProps], [OggPacket], [OggPacketProps],
      [OggStream], [OggWriterProps] ([audio/codec/ogg]),
      [SfuReorder] and [SfuReorderProps]
      ([gizclaw/services/ai/workflow/agents/sfu/reorder.go]).

    The deletion source, the API key server, the invitation tokens, the recovery index,
    presence and routes call the store only through [KVOps], [KVSetOps] and the
    operations of [KVClient], and their theorems assume only [KVLaws],
    [KVSetLaws], [KVTypeLaws] and the laws of the latter; [KVIface], [KVSets] and
    [KVClient] prove these of [Memory].  The processor calls the deletion
    source through the interface [Source], which [PDAttempt] instantiates, and the
    operator service through [lister], which [PDAdminProps] does.

    ** What the theorems show

    - Store: [ApplyMutation] checks all conditions and applies the documented effect at
      once or changes nothing; views compose and cannot reach outside their prefix.
    - Deletion: the index invariant holds in every reachable store; a live lease excludes
      every other actor; a task follows its state machine within its retry budget;
      creation happens exactly once and finalization is all or nothing; scans and
      listings miss nothing and end; an attempt reports one outcome for its lease.
    - API keys: every sequence of calls refines the abstract registry; a credential is
      valid from its creation to its revocation; an owner that was cleaned up never
      authenticates again.
    - Social records, while other servers use the same store: each operation on
      invitations takes effect at one instant and tokens stay unique; a reconciliation
      pass never makes work unfindable and attempts none twice, and an undisturbed pass
      leaves an exact index.
    - Presence: under any interference, and when a commit that was reported as failed
      happens later, a replaced connection never overwrites its successor; a batch does
      what its mutations would do one by one; a batched read answers as single reads;
      the last transition published for a peer is the last one written.
    - Routes: an assignment takes effect at one instant and its server never changes.
    - Quotas, in every interleaving: each call that was allowed is counted by one actor
      until its release, is stopped only for a reason, and is stopped when the decision
      expires; a request is decided as its decision says; [Close] leaves nothing behind.
    - Usage, when commits fail or their outcome is lost: a row holds what was recorded,
      less what is pending, and nothing twice; an undisturbed [Flush] stores everything,
      and [Hourly] shows what is stored.
    - Locks, buffers, budgets and the router: exclusion, FIFO order and accounts in every
      interleaving; the trie finds the most specific pattern.
    - Formats: parsers accept exactly what printers produce, round trips, the checksum
      against its bit-serial definition, packets from arbitrarily cut bytes; the reorder
      buffer restores the order of a mildly reordered stream across the wraparound.

    ** Bounds

    Loops of the source that are bounded are recursions on that bound (8 attempts to
    create an API key, 16 for an invitation, 256 buckets, the shards of an index); loops
    over data are recursions on the data.  The other loops take fuel, each with a lemma
    that it is never used up: the decoders of [OggPage] and [OggPacket] and the cutting of
    packets take the number of bytes or segments, of which each round consumes at least
    one; a round of [writeLoop] fills the buffer or ends, so two suffice; the digits of a
    number are at most its bits.  Two rounds of [transitionLoop] and two attempts of
    [commitTransitions] are enough, by theorem; a call of [Assign] that has used [n]
    rounds has seen [n] changes of the assignment by others, and the source does not
    bound them either.  Counters that no execution can overflow (positions in
    a buffer, element identities) are unbounded integers, as their files say.  Times are
    one clock of nanoseconds, for wall and monotonic readings alike; the theorems on
    usage are for runs of fewer than 2^64 events, because a recorder counts its bucket
    revisions in 64 bits.

    ** Not modelled

    Backends of the store other than memory, SQL and object stores, HTTP and WebRTC
    transports, audio devices, model providers and bindings to C libraries are I/O.
    Generated API types and servers, command lines and process wiring carry no state of
    their own.  The services for peers, friends, groups, workspaces, workflows and devices
    are built on the store interface and are not modelled.  Left out are: of
    [pendingdeletion] the goroutines that call [scan] and [process], of the tunnel router
    the transport, of quotas the HTTP client, of usage the creation of the schema and the
    partitions of PostgreSQL.  Metrics and log lines are left out everywhere. *)

From stdpp Require Export base tactics option list gmap strings sorting.
From Stdlib Require Export ZArith Lia Ascii.

Open Scope Z_scope.

#[global] Arguments bool_decide _ {_} : simpl never.

(** Automation of the development: order facts on strings and list facts. *)
Create HintDb gostr.
Create HintDb gizclaw.

(** ** Outcome of a Go call

    A Go function that can return an [error] or panic is a value of [Go E A]:
    [Ret a] is the normal return, [Fail e] the non-nil error, [Panic] a run-time
    panic (index out of range, division by zero, explicit [panic(...)]). *)
Inductive Go (E A : Type) : Type :=
  | Ret (a : A)
  | Fail (e : E)
  | Panic.
Arguments Ret {E A} a.
Arguments Fail {E A} e.
Arguments Panic {E A}.

#[export] Instance Go_ret E : MRet (Go E) := fun A a => Ret a.
#[export] Instance Go_bind E : MBind (Go E) := fun A B f m =>
  match m with Ret a => f a | Fail e => Fail e | Panic => Panic end.
#[export] Instance Go_fmap E : FMap (Go E) := fun A B f m =>
  match m with Ret a => Ret (f a) | Fail e => Fail e | Panic => Panic end.

#[export] Instance Go_eq_dec {E A} `{EqDecision E, EqDecision A} : EqDecision (Go E A).
Proof. solve_decision. Defined.

(** [if err := check; err != nil { return err }]: the guard form of early returns. *)
Definition check {E} (bad : bool) (e : E) : Go E unit :=
  if bad then Fail e else Ret tt.

(** Loop over a slice with an early return: [for _, x := range xs { if err := f(x) ... }]. *)
Fixpoint each {E A} (f : A -> Go E unit) (xs : list A) : Go E unit :=
  match xs with
  | [] => Ret tt
  | x :: xs => _ ← f x; each f xs
  end.

(** Loop that threads an accumulator and may return early. *)
Fixpoint foldGo {E A B} (f : B -> A -> Go E B) (b : B) (xs : list A) : Go E B :=
  match xs with
  | [] => Ret b
  | x :: xs => b' ← f b x; foldGo f b' xs
  end.

(** Loop that maps a fallible function over a slice. *)
Fixpoint mapGo {E A B} (f : A -> Go E B) (xs : list A) : Go E (list B) :=
  match xs with
  | [] => Ret []
  | x :: xs => y ← f x; ys ← mapGo f xs; Ret (y :: ys)
  end.

(** ** Stateful calls

    [ST S E A] is a call that reads and writes a state [S] and returns like a Go
    function.  A failing call keeps the state it had reached. *)
Definition ST (S E A : Type) : Type := S -> S * Go E A.

#[export] Instance ST_ret S E : MRet (ST S E) := fun A a s => (s, Ret a).
#[export] Instance ST_bind S E : MBind (ST S E) := fun A B f m s =>
  match m s with
  | (s', Ret a) => f a s'
  | (s', Fail e) => (s', Fail e)
  | (s', Panic) => (s', Panic)
  end.

Definition lift {S E A} (g : Go E A) : ST S E A := fun s => (s, g).
Definition getST {S E} : ST S E S := fun s => (s, Ret s).
Definition putST {S E} (s' : S) : ST S E unit := fun _ => (s', Ret tt).
Definition failST {S E A} (e : E) : ST S E A := fun s => (s, Fail e).
Definition checkST {S E} (bad : bool) (e : E) : ST S E unit := lift (check bad e).

(** [m] with its error handled: the continuation sees [inl] the error or [inr] the
    value, as code that inspects [err] does. *)
Definition tryST {S E A} (m : ST S E A) : ST S E (E + A) := fun s =>
  match m s with
  | (s', Ret a) => (s', Ret (inr a))
  | (s', Fail e) => (s', Ret (inl e))
  | (s', Panic) => (s', Panic)
  end.

(** A call with the errors of a callee mapped into the caller's error type. *)
Definition mapErrST {S E E' A} (f : E -> E') (m : ST S E A) : ST S E' A := fun s =>
  match m s with
  | (s', Ret a) => (s', Ret a)
  | (s', Fail e) => (s', Fail (f e))
  | (s', Panic) => (s', Panic)
  end.

(** Loop over a slice with state, early error return and an accumulator. *)
Fixpoint foldST {S E A B} (f : B -> A -> ST S E B) (b : B) (xs : list A) : ST S E B :=
  match xs with
  | [] => mret b
  | x :: xs => b' ← f b x; foldST f b' xs
  end.

Lemma foldST_cons {S E A B} (f : B -> A -> ST S E B) b x xs s :
  foldST f b (x :: xs) s =
    match f b x s with
    | (s', Ret b') => foldST f b' xs s'
    | (s', Fail e) => (s', Fail e)
    | (s', Panic) => (s', Panic)
    end.
Proof. done. Qed.

Definition eachST {S E A} (f : A -> ST S E unit) (xs : list A) : ST S E unit :=
  foldST (fun _ => f) tt xs.

(** A call that never changes the state. *)
Definition readOnly {S E A} (m : ST S E A) : Prop := forall s, (m s).1 = s.

(** A call preserving a predicate of the state, whatever it returns. *)
Definition preserves {S E A} (P : S -> Prop) (m : ST S E A) : Prop :=
  forall s, P s -> P (m s).1.

Section preserves.
Context {S E : Type} (P : S -> Prop).

Lemma preserves_ret {A} (a : A) : preserves P (mret a : ST S E A).
Proof. by intros s Hs. Qed.

Lemma preserves_lift {A} (g : Go E A) : preserves P (lift g).
Proof. by intros s Hs. Qed.

Lemma preserves_fail {A} (e : E) : preserves P (failST e : ST S E A).
Proof. by intros s Hs. Qed.

Lemma preserves_get : preserves P (getST : ST S E S).
Proof. by intros s Hs. Qed.

Lemma preserves_bind {A B} (m : ST S E A) (f : A -> ST S E B) :
  preserves P m -> (forall a, preserves P (f a)) -> preserves P (m ≫= f).
Proof.
  intros Hm Hf s Hs. unfold mbind, ST_bind. specialize (Hm s Hs).
  destruct (m s) as [s' [a|e|]]; cbn in *; [by apply Hf|done..].
Qed.

Lemma preserves_try {A} (m : ST S E A) : preserves P m -> preserves P (tryST m).
Proof.
  intros Hm s Hs. unfold tryST. specialize (Hm s Hs). by destruct (m s) as [s' [a|e|]].
Qed.

Lemma preserves_foldST {A B} (f : B -> A -> ST S E B) b xs :
  (forall b x, preserves P (f b x)) -> preserves P (foldST f b xs).
Proof.
  intros Hf. revert b. induction xs as [|x xs IH]; intros b; cbn; [apply preserves_ret|].
  apply preserves_bind; auto.
Qed.
End preserves.

#[export] Hint Resolve preserves_ret preserves_lift preserves_fail preserves_get
  preserves_bind preserves_try preserves_foldST : gizclaw.

(** Inversion of a successful bind. *)
Lemma bind_Ret {E A B} (m : Go E A) (f : A -> Go E B) b :
  m ≫= f = Ret b <-> exists a, m = Ret a /\ f a = Ret b.
Proof. destruct m as [a|e|]; cbn; naive_solver. Qed.

Lemma check_Ret {E} bad (e : E) u : check bad e = Ret u <-> bad = false.
Proof. destruct bad, u; cbn; naive_solver. Qed.

Lemma ST_bind_inv {S E A B} (m : ST S E A) (f : A -> ST S E B) s s' b :
  (m ≫= f) s = (s', Ret b) <-> exists a s1, m s = (s1, Ret a) /\ f a s1 = (s', Ret b).
Proof. unfold mbind, ST_bind. destruct (m s) as [s1 [a|e|]]; naive_solver. Qed.

Lemma mapGo_elem {Er A B} (f : A -> Go Er B) xs ys :
  mapGo f xs = Ret ys -> length ys = length xs /\ (forall x y, x ∈ xs -> f x = Ret y -> y ∈ ys) /\ (forall y, y ∈ ys -> exists x, x ∈ xs /\ f x = Ret y).
Proof.
  revert ys. induction xs as [|x xs IH]; intros ys; cbn [mapGo].
  - intros [= <-]. split_and!; [done|by intros ? ? ?%not_elem_of_nil|by intros ? ?%not_elem_of_nil].
  - intros (y & Hy & (ys' & Hys & [= <-])%bind_Ret)%bind_Ret. destruct (IH _ Hys) as (HL & H1 & H2). split_and!.
    + cbn. by rewrite HL.
    + intros z y' [->|Hz]%elem_of_cons Hf; [rewrite Hy in Hf; injection Hf as <-; by left|right; eauto].
    + intros y' [->|Hy']%elem_of_cons; [exists x; split; [by left|done]|]. destruct (H2 y' Hy') as (z & Hz & Hf). exists z. split; [by right|done].
Qed.

(** Invariants of accumulator loops. *)
Lemma foldGo_inv {E A B} (P : B -> Prop) (f : B -> A -> Go E B) b xs b' :
  (forall b x b', x ∈ xs -> P b -> f b x = Ret b' -> P b') ->
  P b -> foldGo f b xs = Ret b' -> P b'.
Proof.
  revert b. induction xs as [|x xs IH]; intros b Hf Hb; cbn.
  - by intros [= <-].
  - destruct (f b x) as [b1|e|] eqn:E1; [|done..]. cbn. intros H.
    apply (IH b1); [|by eapply Hf; [left| |]|done].
    intros ??? Hin. apply Hf. by right.
Qed.

Lemma each_Ret {E A} (f : A -> Go E unit) xs :
  each f xs = Ret tt <-> Forall (fun x => f x = Ret tt) xs.
Proof.
  induction xs as [|x xs IH]; cbn.
  - split; [constructor|done].
  - rewrite Forall_cons, <-IH. destruct (f x) as [[]| |]; cbn; naive_solver.
Qed.

(** Loops whose accumulator grows along a preorder and records a fact per element. *)
Lemma foldGo_mono {E A B} (R : relation B) `{!PreOrder R} (P : A -> B -> Prop)
    (f : B -> A -> Go E B) b xs b' :
  (forall b x b', f b x = Ret b' -> R b b' /\ P x b') ->
  (forall x b b', R b b' -> P x b -> P x b') ->
  foldGo f b xs = Ret b' -> R b b' /\ forall x, x ∈ xs -> P x b'.
Proof.
  intros Hf HP. revert b. induction xs as [|x xs IH]; intros b; cbn.
  - intros [= <-]. split; [done|]. intros x Hx. by apply not_elem_of_nil in Hx.
  - destruct (f b x) as [b1|e|] eqn:E1; [|done..]. cbn. intros H.
    destruct (Hf _ _ _ E1) as [R1 P1]. destruct (IH _ H) as [R2 P2]. split; [by trans b1|].
    intros y [->|Hy]%elem_of_cons; eauto.
Qed.

(** ** Subsequences *)
Lemma sublist_Forall {A} (P : A -> Prop) (l1 l2 : list A) : l1 `sublist_of` l2 -> Forall P l2 -> Forall P l1.
Proof. rewrite !Forall_forall. intros Hs HF x Hx. apply HF. by eapply elem_of_submseteq, sublist_submseteq. Qed.

Lemma sublist_sorted {A} (R : relation A) (l1 l2 : list A) : l1 `sublist_of` l2 -> StronglySorted R l2 -> StronglySorted R l1.
Proof.
  induction 1 as [|x l1 l2 Hs IH|x l1 l2 Hs IH]; intros HS; [done|..]; apply StronglySorted_inv in HS as [HS Hx].
  - constructor; [auto|]. by eapply sublist_Forall.
  - auto.
Qed.

Lemma sublist_filter {A} (P : A -> Prop) `{!forall x, Decision (P x)} (l : list A) : filter P l `sublist_of` l.
Proof.
  induction l as [|x l IH]; [done|]. destruct (decide (P x)); [rewrite filter_cons_True by done; by constructor|].
  rewrite filter_cons_False by done. by constructor.
Qed.
