(* ===== verification/GoStrings.v ===== *)
(** * Go strings and byte slices

    Go [string]s and [[]byte]s are Rocq [string]s: sequences of bytes.  This file
    models the parts of Go's [strings], [bytes], [slices], [unicode/utf8],
    [encoding/hex] and [encoding/base64] packages that the modelled code calls,
    with the laws the components use. *)

From S2P Require Import Prelude.
From stdpp Require Import strings list sorting.

Open Scope Z_scope.

(** ** Single-byte search, cut, split and join *)

(** [strings.IndexByte(s, c) >= 0]. *)
Fixpoint containsByte (c : ascii) (s : string) : bool :=
  match s with
  | EmptyString => false
  | String a s' => bool_decide (a = c) || containsByte c s'
  end.

(** [strings.Cut(s, sep)] for a one-byte separator; [None] is [ok = false]. *)
Fixpoint cutByte (c : ascii) (s : string) : option (string * string) :=
  match s with
  | EmptyString => None
  | String a s' =>
      if bool_decide (a = c) then Some (EmptyString, s')
      else '(x, y) ← cutByte c s'; Some (String a x, y)
  end.

(** [bytes.Split(s, []byte{c})] / [strings.Split(s, string(c))]: never empty. *)
Fixpoint splitByte (c : ascii) (s : string) : list string :=
  match s with
  | EmptyString => [EmptyString]
  | String a s' =>
      if bool_decide (a = c) then EmptyString :: splitByte c s'
      else match splitByte c s' with
           | x :: xs => String a x :: xs
           | [] => [String a EmptyString]
           end
  end.

(** [strings.Join(l, string(c))]. *)
Fixpoint joinByte (c : ascii) (l : list string) : string :=
  match l with
  | [] => EmptyString
  | [x] => x
  | x :: l' => x +:+ String c (joinByte c l')
  end.

(** [strings.ReplaceAll(s, string(c), r)] for a one-byte pattern. *)
Fixpoint replaceByte (c : ascii) (r : string) (s : string) : string :=
  match s with
  | EmptyString => EmptyString
  | String a s' => (if bool_decide (a = c) then r else String a EmptyString) +:+ replaceByte c r s'
  end.

(** [s[:n]] for [n <= len(s)], and [s[n:]]. *)
Fixpoint takeStr (n : nat) (s : string) : string :=
  match n, s with
  | O, _ | _, EmptyString => EmptyString
  | S n', String a s' => String a (takeStr n' s')
  end.
Fixpoint dropStr (n : nat) (s : string) : string :=
  match n, s with
  | O, _ => s
  | _, EmptyString => EmptyString
  | S n', String _ s' => dropStr n' s'
  end.

(** [strings.HasPrefix(s, p)] and [strings.HasSuffix(s, p)]. *)
Fixpoint hasPrefix (p s : string) : bool :=
  match p, s with
  | EmptyString, _ => true
  | String a p', String b s' => bool_decide (a = b) && hasPrefix p' s'
  | _, _ => false
  end.

(** [len(s)] as a Go [int]. *)
Definition lenStr (s : string) : Z := Z.of_nat (String.length s).

(** Every byte satisfies [p]. *)
Fixpoint allBytes (p : ascii -> bool) (s : string) : bool :=
  match s with
  | EmptyString => true
  | String a s' => p a && allBytes p s'
  end.

Definition byteZ (a : ascii) : Z := Z.of_N (N_of_ascii a).
Definition between (lo hi : Z) (a : ascii) : bool := (lo <=? byteZ a) && (byteZ a <=? hi).

(** ** Append and length *)

Lemma app_nil_r_str s : s +:+ EmptyString = s.
Proof. induction s as [|a s IH]; [done|]. change (String a (s +:+ EmptyString) = String a s). by rewrite IH. Qed.

Lemma app_cons_str a s t : String a s +:+ t = String a (s +:+ t).
Proof. done. Qed.

Lemma app_empty_str t : EmptyString +:+ t = t.
Proof. done. Qed.

Ltac str_simpl := rewrite ?app_empty_str, ?app_cons_str; cbn.

Lemma app_assoc_str s t u : (s +:+ t) +:+ u = s +:+ (t +:+ u).
Proof. induction s as [|a s IH]; [done|]. by rewrite !app_cons_str, IH. Qed.

Lemma length_app_str s t : String.length (s +:+ t) = (String.length s + String.length t)%nat.
Proof. induction s as [|a s IH]; [done|]. rewrite app_cons_str. cbn. by rewrite IH. Qed.

Lemma app_inj_r_str s t u : s +:+ u = t +:+ u -> s = t.
Proof.
  intros E. assert (String.length s = String.length t) as L.
  { apply (f_equal String.length) in E. rewrite !length_app_str in E. lia. }
  revert t E L. induction s as [|a s IH]; intros [|b t] E L; try done; cbn in L.
  rewrite !app_cons_str in E. injection E as -> E. f_equal. apply IH; [done|lia].
Qed.

(** ** Search and split laws *)

Lemma containsByte_app c s t : containsByte c (s +:+ t) = containsByte c s || containsByte c t.
Proof. induction s as [|a s IH]; [done|]. rewrite app_cons_str. cbn. by rewrite IH, orb_assoc. Qed.

Lemma containsByte_allBytes c p s :
  p c = false -> allBytes p s = true -> containsByte c s = false.
Proof.
  intros Hc. induction s as [|a s IH]; [done|]. cbn. intros [Ha Hs]%andb_true_iff.
  rewrite IH by done. case_bool_decide; [congruence|done].
Qed.

Lemma allBytes_app p s t : allBytes p (s +:+ t) = allBytes p s && allBytes p t.
Proof. induction s as [|a s IH]; [done|]. rewrite app_cons_str. cbn. by rewrite IH, andb_assoc. Qed.

Lemma cutByte_app c s t :
  containsByte c s = false -> cutByte c (s +:+ String c t) = Some (s, t).
Proof.
  induction s as [|a s IH]; str_simpl; intros H.
  - by rewrite bool_decide_eq_true_2.
  - apply orb_false_iff in H as [Ha Hs]. rewrite Ha, IH by done. done.
Qed.

Lemma cutByte_Some c s x y :
  cutByte c s = Some (x, y) -> s = x +:+ String c y /\ containsByte c x = false.
Proof.
  revert x y. induction s as [|a s IH]; intros x y; cbn; [done|].
  case_bool_decide as Ha.
  - intros [= <- <-]. subst. done.
  - destruct (cutByte c s) as [[x' y']|] eqn:E; [|done]. intros [= <- <-].
    destruct (IH _ _ eq_refl) as [-> Hx]. split; [done|]. cbn. by rewrite bool_decide_eq_false_2.
Qed.

Lemma cutByte_None c s : cutByte c s = None <-> containsByte c s = false.
Proof.
  induction s as [|a s IH]; cbn; [done|]. case_bool_decide; [done|]. cbn. rewrite <-IH.
  destruct (cutByte c s) as [[??]|]; done.
Qed.

Lemma splitByte_nonempty c s : splitByte c s <> [].
Proof. destruct s; cbn; [done|]. case_bool_decide; [done|]. by destruct (splitByte c s). Qed.

Lemma splitByte_clean c s : containsByte c s = false -> splitByte c s = [s].
Proof.
  induction s as [|a s IH]; cbn; [done|]. intros [Ha Hs]%orb_false_iff.
  by rewrite Ha, IH.
Qed.

Lemma splitByte_app c s t :
  containsByte c s = false -> splitByte c (s +:+ String c t) = s :: splitByte c t.
Proof.
  induction s as [|a s IH]; str_simpl; intros H.
  - by rewrite bool_decide_eq_true_2.
  - apply orb_false_iff in H as [Ha Hs]. by rewrite Ha, IH.
Qed.

(** [Split] undoes [Join] exactly when no part contains the separator. *)
Lemma splitByte_joinByte c l :
  l <> [] -> Forall (fun s => containsByte c s = false) l -> splitByte c (joinByte c l) = l.
Proof.
  intros Hne HF. induction HF as [|x l Hx HF IH]; [done|]. destruct l as [|y l].
  - cbn. by apply splitByte_clean.
  - change (joinByte c (x :: y :: l)) with (x +:+ String c (joinByte c (y :: l))).
    rewrite splitByte_app by done. by rewrite IH.
Qed.

Lemma joinByte_splitByte c s : joinByte c (splitByte c s) = s.
Proof.
  induction s as [|a s IH]; cbn; [done|]. case_bool_decide as Ha.
  - subst. destruct (splitByte c s) as [|x xs] eqn:E; [by destruct (splitByte_nonempty c s)|].
    cbn [joinByte]. cbn [joinByte] in IH. by rewrite IH.
  - destruct (splitByte c s) as [|x xs] eqn:E; [by destruct (splitByte_nonempty c s)|].
    destruct xs as [|y ys]; cbn [joinByte] in *; by rewrite <-IH.
Qed.

(** ** Prefixes *)

Lemma length_takeStr n s : String.length (takeStr n s) = Nat.min n (String.length s).
Proof. revert s. induction n as [|n IH]; intros [|a s]; cbn; auto. Qed.

Lemma takeStr_all n s : (String.length s <= n)%nat -> takeStr n s = s.
Proof. revert s. induction n as [|n IH]; intros [|a s]; cbn; intros; try done; try lia. f_equal. apply IH. lia. Qed.

Lemma dropStr_app p s : dropStr (String.length p) (p +:+ s) = s.
Proof. induction p as [|a p IH]; [done|]. rewrite app_cons_str. cbn. exact IH. Qed.

Lemma hasPrefix_app p s : hasPrefix p (p +:+ s) = true.
Proof. induction p as [|a p IH]; [done|]. rewrite app_cons_str. cbn. by rewrite bool_decide_eq_true_2. Qed.

Lemma hasPrefix_spec p s : hasPrefix p s = true -> exists t, s = p +:+ t.
Proof.
  revert s. induction p as [|a p IH]; intros [|b s]; cbn; try done; eauto.
  intros [?%bool_decide_eq_true Hp]%andb_true_iff. subst. destruct (IH _ Hp) as [t ->]. by exists t.
Qed.

(** ** The bytewise order of Go strings

    Go compares strings bytewise; so does [String.compare].  stdpp's [String.le]
    is its boolean [<=]; [strLt] is [<]. *)
Definition strLt (s t : string) : Prop := String.le s t /\ s <> t.
#[export] Instance strLt_dec : RelDecision strLt.
Proof. intros s t. unfold strLt. apply _. Defined.

(** [s < t] and [s <= t] as Go evaluates them. *)
Definition ltStr (s t : string) : bool := bool_decide (strLt s t).
Definition leStr (s t : string) : bool := bool_decide (String.le s t).

Lemma strLt_irrefl s : ~ strLt s s.
Proof. by intros [_ ?]. Qed.

Lemma strLt_le_trans s t u : strLt s t -> String.le t u -> strLt s u.
Proof.
  intros [H1 N] H2. split; [by trans t|]. intros ->. apply N. by apply (anti_symm String.le).
Qed.

Lemma strLe_lt_trans s t u : String.le s t -> strLt t u -> strLt s u.
Proof.
  intros H1 [H2 N]. split; [by trans t|]. intros ->. apply N. by apply (anti_symm String.le).
Qed.

Lemma strLt_trans s t u : strLt s t -> strLt t u -> strLt s u.
Proof. intros H1 [H2 _]. by eapply strLt_le_trans. Qed.

Lemma strLe_or_lt s t : String.le s t \/ strLt t s.
Proof.
  destruct (total String.le s t) as [H|H]; [by left|].
  destruct (decide (s = t)) as [->|N]; [by left|]. right. split; [done|congruence].
Qed.

Lemma strLt_not_le s t : strLt s t -> ~ String.le t s.
Proof. intros [H N] H'. apply N. by apply (anti_symm String.le). Qed.

Lemma not_strLt_le s t : ~ strLt s t -> String.le t s.
Proof. destruct (strLe_or_lt t s); [done|]. tauto. Qed.

#[export] Hint Resolve strLt_irrefl strLt_trans strLt_le_trans strLe_lt_trans : gostr.

(** [slices.Sort] on strings. *)
Definition sortStrings (l : list string) : list string := merge_sort String.le l.

Lemma sortStrings_perm l : sortStrings l ≡ₚ l.
Proof. apply merge_sort_Permutation. Qed.

Lemma sortStrings_sorted l : StronglySorted String.le (sortStrings l).
Proof. apply StronglySorted_merge_sort; apply _. Qed.

(** Strictly increasing lists: what sorting a duplicate-free list gives. *)
Definition strictSorted (l : list string) : Prop := StronglySorted strLt l.

Lemma strictSorted_of_NoDup l : StronglySorted String.le l -> NoDup l -> strictSorted l.
Proof.
  induction 1 as [|x l HS IH HF]; intros HN; [constructor|].
  apply NoDup_cons in HN as [Hx HN]. constructor; [by apply IH|].
  rewrite Forall_forall in HF |- *. intros y Hy. split; [by apply HF|]. by intros ->.
Qed.

Lemma strictSorted_NoDup l : strictSorted l -> NoDup l.
Proof.
  induction 1 as [|x l HS IH HF]; [constructor|]. apply NoDup_cons; split; [|done].
  intros Hx. rewrite Forall_forall in HF. by apply (strLt_irrefl x), HF.
Qed.

Lemma sortStrings_strict l : NoDup l -> strictSorted (sortStrings l).
Proof.
  intros HN. apply strictSorted_of_NoDup; [apply sortStrings_sorted|].
  by rewrite sortStrings_perm.
Qed.

(** Two strictly sorted lists with the same elements are equal. *)
Lemma strictSorted_ext l k :
  strictSorted l -> strictSorted k -> (forall x, x ∈ l <-> x ∈ k) -> l = k.
Proof.
  intros Hl. revert k. induction Hl as [|x l HS IH HF]; intros k Hk E.
  - destruct k as [|y k]; [done|]. exfalso. by apply (not_elem_of_nil y), E, elem_of_cons; left.
  - destruct Hk as [|y k HSk HFk].
    { exfalso. apply (not_elem_of_nil x), E, elem_of_cons. by left. }
    rewrite Forall_forall in HF, HFk.
    assert (x = y) as <-.
    { destruct (decide (x = y)) as [|N]; [done|]. exfalso.
      assert (x ∈ k) as Hx. { assert (x ∈ y :: k) as [?|?]%elem_of_cons by (apply E, elem_of_cons; by left); done. }
      assert (y ∈ l) as Hy. { assert (y ∈ x :: l) as [?|?]%elem_of_cons by (apply E, elem_of_cons; by left); congruence. }
      apply (strLt_irrefl x). eapply strLt_trans; [by apply HF|by apply HFk]. }
    f_equal. apply IH; [done|]. intros z. specialize (E z). rewrite !elem_of_cons in E.
    split; intros Hz.
    + destruct (proj1 E (or_intror Hz)) as [->|?]; [|done]. exfalso. by apply (strLt_irrefl x), HF.
    + destruct (proj2 E (or_intror Hz)) as [->|?]; [|done]. exfalso. by apply (strLt_irrefl x), HFk.
Qed.

(** ** The order, byte by byte *)
Lemma strLe_compare s t : String.le s t <-> String.compare s t <> Gt.
Proof. unfold String.le, String.leb. destruct (String.compare s t); cbn; split; try done; by intros []. Qed.

Lemma strLt_compare s t : strLt s t <-> String.compare s t = Lt.
Proof.
  unfold strLt. rewrite strLe_compare. split.
  - intros [H N]. destruct (String.compare s t) eqn:E; [|done|done].
    destruct N. by apply String.compare_eq_iff.
  - intros E. rewrite E. split; [done|]. intros ->. clear -E. induction t as [|a t IH]; [done|]. cbn in E.
    unfold Ascii.compare in E. rewrite N.compare_refl in E. auto.
Qed.

Lemma strLt_cons a s b t :
  strLt (String a s) (String b t) <-> byteZ a < byteZ b \/ (a = b /\ strLt s t).
Proof.
  rewrite !strLt_compare. cbn. unfold Ascii.compare, byteZ.
  destruct (N.compare_spec (N_of_ascii a) (N_of_ascii b)) as [E|E|E].
  - assert (a = b) as -> by (rewrite <-(ascii_N_embedding a), <-(ascii_N_embedding b); congruence).
    split; [by right|]. intros [?|[_ ?]]; [lia|done].
  - split; [left; lia|done].
  - split; [done|]. intros [?|[-> _]]; lia.
Qed.

Lemma strLt_empty a s : strLt EmptyString (String a s).
Proof. by apply strLt_compare. Qed.

(** Equal-length strings decide the comparison of their extensions. *)
Lemma strLt_app_len s t u v :
  String.length s = String.length t -> strLt s t -> strLt (s +:+ u) (t +:+ v).
Proof.
  revert t. induction s as [|a s IH]; intros [|b t]; try done; intros HL H; cbn in HL.
  - by destruct (strLt_irrefl EmptyString).
  - rewrite !app_cons_str, !strLt_cons in *. destruct H as [?|[-> H]]; [by left|right]. split; [done|].
    apply IH; [lia|done].
Qed.

Lemma strLt_app_prefix s u v : strLt (s +:+ u) (s +:+ v) <-> strLt u v.
Proof.
  induction s as [|a s IH]; [done|]. rewrite !app_cons_str, strLt_cons, <-IH. split; [|by right].
  intros [?|[_ ?]]; [lia|done].
Qed.

Lemma strLt_app_eqlen s t u v :
  String.length s = String.length t -> strLt (s +:+ u) (t +:+ v) <-> strLt s t \/ (s = t /\ strLt u v).
Proof.
  revert t. induction s as [|a s IH]; intros [|b t]; try done; intros HL; cbn in HL.
  - rewrite !app_empty_str. split; [by right|]. intros [?%strLt_irrefl|[_ ?]]; done.
  - rewrite !app_cons_str, !strLt_cons, IH by lia. naive_solver.
Qed.

Lemma strLt_trichotomy s t : strLt s t \/ s = t \/ strLt t s.
Proof.
  destruct (decide (s = t)) as [->|Hne]; [by right; left|]. destruct (strLe_or_lt s t) as [H|H]; [left; by split|by right; right].
Qed.
