(* ===== verification/GoText.v ===== *)
(** * Go text encodings

    The parts of [unicode/utf8], [strings.TrimSpace], [encoding/hex],
    [encoding/base64] (the unpadded URL alphabet) and [net/url] path escaping that
    the modelled code calls, on byte strings, with their round trips. *)

From stdpp Require Import strings list.
From S2P Require Import Prelude GoStrings.

Open Scope Z_scope.

(** ** UTF-8 *)

Definition cont (a : ascii) : bool := between 128 191 a.

(** Well-formed encodings of two, three and four bytes: no overlong form, no
    surrogate, nothing above U+10FFFF. *)
Definition utf8_2 (a b : ascii) : bool := between 194 223 a && cont b.
Definition utf8_3 (a b c : ascii) : bool :=
  ((byteZ a =? 224) && between 160 191 b || between 225 236 a && cont b ||
   (byteZ a =? 237) && between 128 159 b || between 238 239 a && cont b) && cont c.
Definition utf8_4 (a b c d : ascii) : bool :=
  ((byteZ a =? 240) && between 144 191 b || between 241 243 a && cont b ||
   (byteZ a =? 244) && between 128 143 b) && cont c && cont d.

(** The runes of a string, as [range s] yields them: each with its bytes and
    whether they encode a code point ([false]: one byte, [utf8.RuneError]). *)
Fixpoint runes (s : string) : list (string * bool) :=
  match s with
  | EmptyString => []
  | String a s1 =>
      if byteZ a <? 128 then (String a EmptyString, true) :: runes s1
      else match s1 with
           | EmptyString => [(String a EmptyString, false)]
           | String b s2 =>
               if utf8_2 a b then (String a (String b EmptyString), true) :: runes s2
               else match s2 with
                    | EmptyString => (String a EmptyString, false) :: runes s1
                    | String c s3 =>
                        if utf8_3 a b c then (String a (String b (String c EmptyString)), true) :: runes s3
                        else match s3 with
                             | EmptyString => (String a EmptyString, false) :: runes s1
                             | String d s4 =>
                                 if utf8_4 a b c d
                                 then (String a (String b (String c (String d EmptyString))), true) :: runes s4
                                 else (String a EmptyString, false) :: runes s1
                             end
                    end
           end
  end.

Definition concatStr (l : list string) : string := foldr String.append EmptyString l.

(** [utf8.RuneCountInString(s)], [utf8.ValidString(s)]. *)
Definition runeCount (s : string) : Z := Z.of_nat (length (runes s)).
Definition validUTF8 (s : string) : bool := forallb snd (runes s).

Definition bytes (l : list Z) : string := foldr (fun z s => String (ascii_of_N (Z.to_N z)) s) EmptyString l.

(** U+FFFD, which [encoding/json] substitutes for every invalid byte. *)
Definition replacement : string := bytes [239; 191; 189].
Definition toValidUTF8 (s : string) : string :=
  concatStr (map (fun r => if r.2 : bool then r.1 else replacement) (runes s)).

(** ** [strings.TrimSpace] *)

(** The encodings of the code points with [unicode.IsSpace]. *)
Definition spaces : list string :=
  [bytes [9]; bytes [10]; bytes [11]; bytes [12]; bytes [13]; bytes [32]; bytes [194; 133]; bytes [194; 160];
   bytes [225; 154; 128]; bytes [226; 128; 168]; bytes [226; 128; 169]; bytes [226; 128; 175]; bytes [226; 129; 159];
   bytes [227; 128; 128]] ++ map (fun i => bytes [226; 128; 128 + Z.of_nat i]) (seq 0 11).

Definition isSpaceRune (r : string * bool) : bool := bool_decide (r.1 ∈ spaces).

Fixpoint dropWhile {A} (p : A -> bool) (l : list A) : list A :=
  match l with
  | [] => []
  | x :: l' => if p x then dropWhile p l' else l
  end.

Definition trimSpace (s : string) : string :=
  concatStr (map fst (rev (dropWhile isSpaceRune (rev (dropWhile isSpaceRune (runes s)))))).

(** ** Hexadecimal *)

(** The low-order bit comes first in [Ascii]. *)
Definition nibbleZ (b3 b2 b1 b0 : bool) : nat :=
  (8 * Nat.b2n b3 + 4 * Nat.b2n b2 + 2 * Nat.b2n b1 + Nat.b2n b0)%nat.
Definition lowerHex : string := "0123456789abcdef".
Definition upperHex : string := "0123456789ABCDEF".
Definition digitOf (alphabet : string) (n : nat) : ascii := default "?"%char (String.get n alphabet).

Definition hexByte (alphabet : string) (a : ascii) : string :=
  match a with
  | Ascii b0 b1 b2 b3 b4 b5 b6 b7 =>
      String (digitOf alphabet (nibbleZ b7 b6 b5 b4)) (String (digitOf alphabet (nibbleZ b3 b2 b1 b0)) EmptyString)
  end.

(** [hex.EncodeToString]. *)
Fixpoint hexEncode (s : string) : string :=
  match s with EmptyString => EmptyString | String a s => hexByte lowerHex a +:+ hexEncode s end.

(** The value of a hexadecimal digit of either case. *)
Definition unhex (a : ascii) : option Z :=
  let z := byteZ a in
  if between 48 57 a then Some (z - 48)
  else if between 97 102 a then Some (z - 87)
  else if between 65 70 a then Some (z - 55)
  else None.

Definition unhex2 (a b : ascii) : option ascii :=
  x ← unhex a; y ← unhex b; Some (ascii_of_N (Z.to_N (16 * x + y))).

(** [hex.DecodeString]; [None] is an error. *)
Fixpoint hexDecode (s : string) : option string :=
  match s with
  | EmptyString => Some EmptyString
  | String a (String b s) => c ← unhex2 a b; t ← hexDecode s; Some (String c t)
  | String _ EmptyString => None
  end.

(** ** Unpadded URL base64 *)
Definition b64Alphabet : string := "ABCDEFGHIJKLMNOPQRSTUVWXYZabcdefghijklmnopqrstuvwxyz0123456789-_".

Definition b64Digit (b5 b4 b3 b2 b1 b0 : bool) : ascii :=
  digitOf b64Alphabet (32 * Nat.b2n b5 + 16 * Nat.b2n b4 + nibbleZ b3 b2 b1 b0).

(** [base64.RawURLEncoding.EncodeToString]. *)
Fixpoint b64Encode (s : string) : string :=
  match s with
  | EmptyString => EmptyString
  | String (Ascii a0 a1 a2 a3 a4 a5 a6 a7) EmptyString =>
      String (b64Digit a7 a6 a5 a4 a3 a2) (String (b64Digit a1 a0 false false false false) EmptyString)
  | String (Ascii a0 a1 a2 a3 a4 a5 a6 a7) (String (Ascii b0 b1 b2 b3 b4 b5 b6 b7) EmptyString) =>
      String (b64Digit a7 a6 a5 a4 a3 a2)
        (String (b64Digit a1 a0 b7 b6 b5 b4) (String (b64Digit b3 b2 b1 b0 false false) EmptyString))
  | String (Ascii a0 a1 a2 a3 a4 a5 a6 a7)
      (String (Ascii b0 b1 b2 b3 b4 b5 b6 b7) (String (Ascii c0 c1 c2 c3 c4 c5 c6 c7) s)) =>
      String (b64Digit a7 a6 a5 a4 a3 a2)
        (String (b64Digit a1 a0 b7 b6 b5 b4)
          (String (b64Digit b3 b2 b1 b0 c7 c6)
            (String (b64Digit c5 c4 c3 c2 c1 c0) (b64Encode s))))
  end.

(** The six bits of a digit, high-order bit first. *)
Definition b64Value (a : ascii) : option nat :=
  let z := byteZ a in
  if between 65 90 a then Some (Z.to_nat (z - 65))
  else if between 97 122 a then Some (Z.to_nat (z - 71))
  else if between 48 57 a then Some (Z.to_nat (z + 4))
  else if z =? 45 then Some 62%nat
  else if z =? 95 then Some 63%nat
  else None.

Definition bit (n i : nat) : bool := Nat.testbit n i.

(** [base64.RawURLEncoding.DecodeString]: line breaks are skipped; unused trailing
    bits are not checked. *)
Fixpoint b64DecodeRaw (s : string) : option string :=
  match s with
  | EmptyString => Some EmptyString
  | String _ EmptyString => None
  | String w (String x EmptyString) =>
      w ← b64Value w; x ← b64Value x;
      Some (String (Ascii (bit x 4) (bit x 5) (bit w 0) (bit w 1) (bit w 2) (bit w 3) (bit w 4) (bit w 5)) EmptyString)
  | String w (String x (String y EmptyString)) =>
      w ← b64Value w; x ← b64Value x; y ← b64Value y;
      Some (String (Ascii (bit x 4) (bit x 5) (bit w 0) (bit w 1) (bit w 2) (bit w 3) (bit w 4) (bit w 5))
        (String (Ascii (bit y 2) (bit y 3) (bit y 4) (bit y 5) (bit x 0) (bit x 1) (bit x 2) (bit x 3)) EmptyString))
  | String w (String x (String y (String z s))) =>
      w ← b64Value w; x ← b64Value x; y ← b64Value y; z ← b64Value z; t ← b64DecodeRaw s;
      Some (String (Ascii (bit x 4) (bit x 5) (bit w 0) (bit w 1) (bit w 2) (bit w 3) (bit w 4) (bit w 5))
        (String (Ascii (bit y 2) (bit y 3) (bit y 4) (bit y 5) (bit x 0) (bit x 1) (bit x 2) (bit x 3))
          (String (Ascii (bit z 0) (bit z 1) (bit z 2) (bit z 3) (bit z 4) (bit z 5) (bit y 0) (bit y 1)) t)))
  end.

Fixpoint dropNewlines (s : string) : string :=
  match s with
  | EmptyString => EmptyString
  | String a s => if (byteZ a =? 10) || (byteZ a =? 13) then dropNewlines s else String a (dropNewlines s)
  end.

Definition b64Decode (s : string) : option string := b64DecodeRaw (dropNewlines s).

(** ** URL path escaping *)

(** Bytes that [url.PathEscape] leaves alone: letters, digits and [-_.~$&+:=@]. *)
Definition pathSafe (a : ascii) : bool :=
  between 65 90 a || between 97 122 a || between 48 57 a ||
  existsb (fun b => bool_decide (a = b)) ["-"; "_"; "."; "~"; "$"; "&"; "+"; ":"; "="; "@"]%char.

Fixpoint pathEscape (s : string) : string :=
  match s with
  | EmptyString => EmptyString
  | String a s => (if pathSafe a then String a EmptyString else String "%" (hexByte upperHex a)) +:+ pathEscape s
  end.

(** [url.PathUnescape]; [None] is an [EscapeError]. *)
Fixpoint pathUnescape (s : string) : option string :=
  match s with
  | EmptyString => Some EmptyString
  | String a s1 =>
      if bool_decide (a = "%"%char) then
        match s1 with
        | String b (String c s3) => x ← unhex2 b c; t ← pathUnescape s3; Some (String x t)
        | _ => None
        end
      else t ← pathUnescape s1; Some (String a t)
  end.

(** ** Laws *)

(** Facts about single bytes are checked on all 256. *)
Ltac byte_cases a := destruct a as [[] [] [] [] [] [] [] []]; vm_compute; try reflexivity.

Lemma unhex2_hexByte alphabet a :
  alphabet = lowerHex \/ alphabet = upperHex ->
  exists x y, hexByte alphabet a = String x (String y EmptyString) /\ unhex2 x y = Some a.
Proof.
  intros [->| ->]; destruct a as [b0 b1 b2 b3 b4 b5 b6 b7]; cbn [hexByte]; do 2 eexists; (split; [reflexivity|]);
    destruct b0, b1, b2, b3, b4, b5, b6, b7; vm_compute; reflexivity.
Qed.

Lemma hexDecode_hexEncode s : hexDecode (hexEncode s) = Some s.
Proof.
  induction s as [|a s IH]; [done|]. cbn [hexEncode].
  destruct (unhex2_hexByte lowerHex a) as (x & y & -> & E); [by left|].
  rewrite !app_cons_str, app_empty_str. cbn. by rewrite E, IH.
Qed.

Lemma hexEncode_length s : String.length (hexEncode s) = (2 * String.length s)%nat.
Proof.
  induction s as [|[] s IH]; [done|]. cbn [hexEncode hexByte]. rewrite !app_cons_str, app_empty_str. cbn. lia.
Qed.

(** Every byte of an encoding is in its alphabet. *)
Definition hexLower (a : ascii) : bool := between 48 57 a || between 97 102 a.

Lemma hexEncode_alphabet s : allBytes hexLower (hexEncode s) = true.
Proof.
  induction s as [|a s IH]; [done|]. cbn [hexEncode]. rewrite allBytes_app, IH.
  assert (allBytes hexLower (hexByte lowerHex a) = true) as -> by byte_cases a. done.
Qed.

Lemma b64Value_digit b5 b4 b3 b2 b1 b0 :
  b64Value (b64Digit b5 b4 b3 b2 b1 b0) = Some (32 * Nat.b2n b5 + 16 * Nat.b2n b4 + nibbleZ b3 b2 b1 b0)%nat.
Proof. by destruct b5, b4, b3, b2, b1, b0. Qed.

Lemma bit_digit b5 b4 b3 b2 b1 b0 i :
  (i < 6)%nat ->
  bit (32 * Nat.b2n b5 + 16 * Nat.b2n b4 + nibbleZ b3 b2 b1 b0)%nat i =
    match i with 0%nat => b0 | 1%nat => b1 | 2%nat => b2 | 3%nat => b3 | 4%nat => b4 | 5%nat => b5 | _ => false end.
Proof.
  intros Hi. do 6 (destruct i as [|i]; [by destruct b5, b4, b3, b2, b1, b0|]). lia.
Qed.

Definition b64Safe (a : ascii) : bool :=
  between 65 90 a || between 97 122 a || between 48 57 a || (byteZ a =? 45) || (byteZ a =? 95).

Lemma b64Digit_safe b5 b4 b3 b2 b1 b0 : b64Safe (b64Digit b5 b4 b3 b2 b1 b0) = true.
Proof. by destruct b5, b4, b3, b2, b1, b0. Qed.

(** Induction by blocks of three bytes. *)
Lemma string_ind3 (P : string -> Prop) :
  P EmptyString ->
  (forall a, P (String a EmptyString)) ->
  (forall a b, P (String a (String b EmptyString))) ->
  (forall a b c s, P s -> P (String a (String b (String c s)))) ->
  forall s, P s.
Proof.
  intros H0 H1 H2 H3. fix IH 1. intros [|a [|b [|c s]]]; [apply H0|apply H1|apply H2|apply H3, IH].
Qed.

Lemma b64Encode_safe s : allBytes b64Safe (b64Encode s) = true.
Proof.
  induction s as [|a|a b|a b c s IH] using string_ind3; [done|destruct a|destruct a, b|destruct a, b, c];
    cbn [b64Encode allBytes]; rewrite !b64Digit_safe; [done..|]. by rewrite IH.
Qed.

Lemma b64DecodeRaw_b64Encode s : b64DecodeRaw (b64Encode s) = Some s.
Proof.
  induction s as [|a|a b|a b c s IH] using string_ind3; [done|destruct a|destruct a, b|destruct a, b, c];
    cbn [b64Encode b64DecodeRaw]; rewrite !b64Value_digit; cbn [mbind option_bind]; rewrite ?IH; cbn [mbind option_bind];
    rewrite ?bit_digit by lia; done.
Qed.

Lemma b64Encode_inj s t : b64Encode s = b64Encode t -> s = t.
Proof. intros E. apply (f_equal b64DecodeRaw) in E. rewrite !b64DecodeRaw_b64Encode in E. by simplify_eq. Qed.

Lemma dropNewlines_safe s : allBytes b64Safe s = true -> dropNewlines s = s.
Proof.
  induction s as [|a s IH]; [done|]. cbn [allBytes dropNewlines]. intros [Ha Hs]%andb_true_iff.
  assert ((byteZ a =? 10) || (byteZ a =? 13) = false) as ->.
  { revert Ha. byte_cases a; done. }
  by rewrite IH.
Qed.

Lemma b64Decode_b64Encode s : b64Decode (b64Encode s) = Some s.
Proof. unfold b64Decode. rewrite dropNewlines_safe by apply b64Encode_safe. apply b64DecodeRaw_b64Encode. Qed.

(** Induction by blocks of four bytes. *)
Lemma string_ind4 (P : string -> Prop) :
  P EmptyString ->
  (forall a, P (String a EmptyString)) ->
  (forall a b, P (String a (String b EmptyString))) ->
  (forall a b c, P (String a (String b (String c EmptyString)))) ->
  (forall a b c d s, P s -> P (String a (String b (String c (String d s))))) ->
  forall s, P s.
Proof.
  intros H0 H1 H2 H3 H4. fix IH 1. intros [|a [|b [|c [|d s]]]]; [apply H0|apply H1|apply H2|apply H3|apply H4, IH].
Qed.

Lemma b64Value_safe a n : b64Value a = Some n -> b64Safe a = true.
Proof.
  unfold b64Value, b64Safe. destruct (between 65 90 a); [done|]. destruct (between 97 122 a); [done|]. destruct (between 48 57 a); [done|].
  destruct (byteZ a =? 45); [done|]. destruct (byteZ a =? 95); done.
Qed.

(** What decodes is made of digits, and four digits hold three bytes. *)
Lemma b64DecodeRaw_Some s t :
  b64DecodeRaw s = Some t -> allBytes b64Safe s = true /\ (4 * String.length t <= 3 * String.length s)%nat.
Proof.
  revert t. induction s as [|a|a b|a b c|a b c d s IH] using string_ind4; intros t; cbn [b64DecodeRaw allBytes String.length].
  - by intros [= <-].
  - done.
  - intros (w & ->%b64Value_safe & (x & ->%b64Value_safe & [= <-])%bind_Some)%bind_Some. split; [done|]. cbn [String.length]. lia.
  - intros (w & ->%b64Value_safe & (x & ->%b64Value_safe & (y & ->%b64Value_safe & [= <-])%bind_Some)%bind_Some)%bind_Some. split; [done|]. cbn [String.length]. lia.
  - intros (w & ->%b64Value_safe & (x & ->%b64Value_safe & (y & ->%b64Value_safe & (z & ->%b64Value_safe & (u & Hu & [= <-])%bind_Some)%bind_Some)%bind_Some)%bind_Some)%bind_Some.
    destruct (IH u Hu) as [-> HL]. split; [done|]. cbn [String.length]. lia.
Qed.

Lemma dropNewlines_length s : (String.length (dropNewlines s) <= String.length s)%nat /\ (String.length (dropNewlines s) = String.length s -> dropNewlines s = s).
Proof.
  induction s as [|a s [IH1 IH2]]; [done|]. cbn [dropNewlines]. destruct (_ || _); cbn [String.length]; split; try lia.
  intros [= HL]. by rewrite IH2.
Qed.

(** Base64 text of exactly the length that the decoded bytes need has only digits. *)
Lemma b64Decode_exact s t :
  b64Decode s = Some t -> (3 * String.length s < 4 * String.length t + 3)%nat -> allBytes b64Safe s = true.
Proof.
  unfold b64Decode. intros HD HL. destruct (b64DecodeRaw_Some _ _ HD) as [HS HB]. destruct (dropNewlines_length s) as [H1 H2].
  rewrite <-H2; [done|]. lia.
Qed.

Lemma b64Encode_length s : String.length (b64Encode s) = ((4 * String.length s + 2) / 3)%nat.
Proof.
  induction s as [|a|a b|a b c s IH] using string_ind3; [done|by destruct a|by destruct a, b|destruct a, b, c].
  cbn [b64Encode String.length]. rewrite IH. replace (4 * S (S (S (String.length s))) + 2)%nat with ((4 * String.length s + 2) + 4 * 3)%nat by lia.
  rewrite Nat.div_add by done. lia.
Qed.

Lemma pathUnescape_app_safe a s : a <> "%"%char -> pathUnescape (String a s) = t ← pathUnescape s; Some (String a t).
Proof. intros Ha. cbn [pathUnescape]. by rewrite bool_decide_eq_false_2. Qed.

Lemma pathUnescape_escaped alphabet a s :
  alphabet = lowerHex \/ alphabet = upperHex ->
  pathUnescape (String "%" (hexByte alphabet a +:+ s)) = t ← pathUnescape s; Some (String a t).
Proof.
  intros Hal. destruct (unhex2_hexByte alphabet a Hal) as (x & y & -> & E).
  rewrite !app_cons_str, app_empty_str. cbn [pathUnescape]. rewrite bool_decide_eq_true_2 by done. cbn. by rewrite E.
Qed.

Lemma pathUnescape_pathEscape s : pathUnescape (pathEscape s) = Some s.
Proof.
  induction s as [|a s IH]; [done|]. cbn [pathEscape]. destruct (pathSafe a) eqn:Ha.
  - rewrite app_cons_str, app_empty_str. rewrite pathUnescape_app_safe; [by rewrite IH|].
    intros ->. by vm_compute in Ha.
  - rewrite app_cons_str. rewrite pathUnescape_escaped by (by right). by rewrite IH.
Qed.

(** ** UTF-8 laws *)
Lemma runes_concat s : concatStr (map fst (runes s)) = s.
Proof.
  enough (forall n s, (String.length s <= n)%nat -> concatStr (map fst (runes s)) = s) as H by (by eapply H).
  induction n as [|n IH]; intros [|a s1] Hn; cbn in Hn; try done; try lia.
  assert (forall t, (String.length t <= n)%nat -> concatStr (map fst (runes t)) = t) as IH' by auto.
  cbn [runes]. destruct (byteZ a <? 128); [cbn; rewrite IH' by lia; done|].
  destruct s1 as [|b s2]; [done|]. cbn in Hn. destruct (utf8_2 a b); [cbn; rewrite IH' by lia; done|].
  destruct s2 as [|c s3]; [cbn -[runes]; rewrite IH' by (cbn; lia); done|]. cbn in Hn.
  destruct (utf8_3 a b c); [cbn; rewrite IH' by lia; done|].
  destruct s3 as [|d s4]; [cbn -[runes]; rewrite IH' by (cbn; lia); done|]. cbn in Hn.
  destruct (utf8_4 a b c d); [cbn; rewrite IH' by lia; done|].
  cbn -[runes]. rewrite IH' by (cbn; lia). done.
Qed.

Lemma toValidUTF8_valid s : validUTF8 s = true -> toValidUTF8 s = s.
Proof.
  unfold validUTF8, toValidUTF8. intros H. etransitivity; [|apply runes_concat]. f_equal.
  induction (runes s) as [|[r ok] l IH]; [done|]. cbn in *. apply andb_true_iff in H as [-> H]. by rewrite IH.
Qed.

Definition asciiOnly (s : string) : bool := allBytes (fun a => byteZ a <? 128) s.

Lemma asciiOnly_valid s : asciiOnly s = true -> validUTF8 s = true.
Proof.
  unfold asciiOnly, validUTF8. induction s as [|a s IH]; [done|]. cbn [allBytes runes].
  intros [Ha Hs]%andb_true_iff. rewrite Ha. cbn. auto.
Qed.

Lemma allBytes_impl (p q : ascii -> bool) s :
  (forall a, p a = true -> q a = true) -> allBytes p s = true -> allBytes q s = true.
Proof.
  intros Hpq. induction s as [|a s IH]; [done|]. cbn. intros [Ha Hs]%andb_true_iff. by rewrite Hpq, IH.
Qed.

(** ** Trimming is idempotent *)

(** The runes after the first are those of the rest of the string. *)
Lemma runes_tail s r l : runes s = r :: l -> exists t, runes t = l /\ s = r.1 +:+ t.
Proof.
  destruct s as [|a s1]; [done|]. assert (forall t, s1 = t -> exists t', runes t' = runes t /\ String a s1 = String a EmptyString +:+ t') as Hone by (intros t ->; by exists t).
  cbn [runes]. destruct (byteZ a <? 128); [intros [= <- <-]; by exists s1|].
  destruct s1 as [|b s2]; [intros [= <- <-]; by exists EmptyString|]. destruct (utf8_2 a b); [intros [= <- <-]; by exists s2|].
  destruct s2 as [|c s3]; [intros [= <- <-]; exact (Hone _ eq_refl)|]. destruct (utf8_3 a b c); [intros [= <- <-]; by exists s3|].
  destruct s3 as [|d s4]; [intros [= <- <-]; exact (Hone _ eq_refl)|]. destruct (utf8_4 a b c d); intros [= <- <-]; [by exists s4|exact (Hone _ eq_refl)].
Qed.

(** Bytes that do not start a rune do not start one in a shorter string, either; a
    rune is decoded from its own bytes. *)
Lemma runes_prefix r t u : (exists l, runes (r.1 +:+ t +:+ u) = r :: l) -> runes (r.1 +:+ t) = r :: runes t.
Proof.
  intros [l HR]. destruct r as [x ok]. cbn [fst] in *. pose proof HR as (t' & _ & Ht')%runes_tail. cbn in Ht'.
  destruct x as [|a x].
  { exfalso. change (runes (t +:+ u) = (EmptyString, ok) :: l) in HR. destruct (t +:+ u) as [|a s1]; [done|]. cbn [runes] in HR.
    repeat (case_match; try discriminate HR). }
  clear Ht' t'. rewrite ?app_cons_str, ?app_empty_str in *; cbn [runes] in HR |- *.
  destruct (byteZ a <? 128); [by simplify_eq|].
  destruct x as [|b x]; rewrite ?app_cons_str, ?app_empty_str in *; cbn [runes] in HR |- *.
  - destruct t as [|b [|c [|d t]]]; rewrite ?app_cons_str, ?app_empty_str in *; [repeat case_match; simplify_eq; done|..]; cbn [runes] in HR |- *;
      repeat (case_match; simplify_eq; try done).
  - destruct (utf8_2 a b); [by simplify_eq|].
    destruct x as [|c x]; rewrite ?app_cons_str, ?app_empty_str in *; cbn [runes] in HR |- *; [exfalso; repeat (case_match; simplify_eq; try done)|].
    destruct (utf8_3 a b c); [by simplify_eq|].
    destruct x as [|d x]; rewrite ?app_cons_str, ?app_empty_str in *; cbn [runes] in HR |- *; [exfalso; repeat (case_match; simplify_eq; try done)|].
    destruct (utf8_4 a b c d); [by simplify_eq|]. done.
Qed.

Lemma runes_take l1 l2 s : runes s = l1 ++ l2 -> runes (concatStr (map fst l1)) = l1.
Proof.
  revert s. induction l1 as [|r l1 IH]; intros s HR; [done|]. cbn [app map concatStr foldr] in *. fold (concatStr (map fst l1)).
  pose proof HR as (t & Ht & Hs)%runes_tail. rewrite <-(IH t Ht) at 2. apply (runes_prefix r _ (concatStr (map fst l2))). eexists. rewrite <-HR. f_equal. rewrite Hs. f_equal.
  rewrite <-(runes_concat t), Ht, map_app. clear. induction (map fst l1) as [|x xs IH]; [done|]. cbn [app concatStr foldr]. fold (concatStr xs) (concatStr (xs ++ map fst l2)). by rewrite <-IH, app_assoc_str.
Qed.

Lemma runes_drop l1 l2 s : runes s = l1 ++ l2 -> runes (concatStr (map fst l2)) = l2.
Proof.
  revert s. induction l1 as [|r l1 IH]; intros s HR; [cbn in HR; by rewrite <-HR, runes_concat|].
  apply runes_tail in HR as (t & Ht & _). by apply (IH t).
Qed.

Lemma dropWhile_suffix {A} (p : A -> bool) l : exists l1, l = l1 ++ dropWhile p l.
Proof. induction l as [|x l [l1 IH]]; [by exists []|]. cbn. destruct (p x); [exists (x :: l1); by rewrite IH at 1|by exists []]. Qed.

Lemma dropWhile_head {A} (p : A -> bool) l x l' : dropWhile p l = x :: l' -> p x = false.
Proof. induction l as [|y l IH]; [done|]. cbn. destruct (p y) eqn:Hy; [done|]. by intros [= <- _]. Qed.

Lemma dropWhile_id {A} (p : A -> bool) l : (forall x l', l = x :: l' -> p x = false) -> dropWhile p l = l.
Proof. destruct l as [|x l]; [done|]. intros Hp. cbn. by rewrite (Hp x l eq_refl). Qed.

(** Trimmed text has nothing more to trim. *)
Lemma trimSpace_idem s : trimSpace (trimSpace s) = trimSpace s.
Proof.
  unfold trimSpace at 2 3. set (u := dropWhile isSpaceRune (runes s)). set (v := rev (dropWhile isSpaceRune (rev u))).
  destruct (dropWhile_suffix isSpaceRune (runes s)) as [l1 H1]. destruct (dropWhile_suffix isSpaceRune (rev u)) as [l2 H2]. fold u in H1.
  assert (u = v ++ rev l2) as Hu. { rewrite <-(rev_involutive u), H2, rev_app_distr. done. }
  assert (runes (concatStr (map fst v)) = v) as Hv. { pose proof (runes_drop l1 u s H1) as Hd. rewrite Hu in Hd at 2. by apply runes_take in Hd. }
  unfold trimSpace. rewrite Hv, (dropWhile_id isSpaceRune v).
  - rewrite dropWhile_id; [by rewrite rev_involutive|]. unfold v. rewrite rev_involutive. intros x l'. apply dropWhile_head.
  - intros x l' Hx. rewrite Hx in Hu. by eapply dropWhile_head.
Qed.
