(* ===== verification/KVKey.v ===== *)
(** * kv: keys, entries, errors and the key encoding

    [src/pkgs/store/kv/kv.go], [sets.go] and [ordered.go]: the data of the
    key-value store contract and the separator encoding of hierarchical keys. *)

From S2P Require Import Prelude GoStrings.
From stdpp Require Import strings list.

Open Scope Z_scope.

(** ** Errors of the package *)
Inductive kvError :=
  | ErrNotFound
  | ErrInvalidDeadline
  | ErrCreateIfAbsentUnsupported
  | ErrCompareAndMutateUnsupported
  | ErrStoreClosed
  | ErrWrongType
  | ErrMemberLimit
  | ErrContext  (** [ctx.Err()]: canceled or past its deadline *)
  | ErrText (msg : string).  (** [errors.New(msg)] *)

#[export] Instance kvError_eq_dec : EqDecision kvError.
Proof. solve_decision. Defined.

(** ** Time

    A [time.Time] is its number of nanoseconds since the zero time (January 1,
    year 1, UTC), so [IsZero] is [= 0] and [Before]/[After] are [<]/[>]. *)
Abbreviation Time := Z.
Definition isZero (t : Time) : bool := t =? 0.

(** What one call observes of its surroundings: its [i]-th [ctx.Err()], its
    [i]-th [time.Now()], and whether its context asks for strong reads. *)
Record Env := MkEnv {
  ctxErr : nat -> option kvError;
  clock : nat -> Time;
  strong : bool
}.

(** An environment that is not canceled and whose clock stands still. *)
Definition envAt (now : Time) : Env :=
  {| ctxErr := fun _ => None; clock := fun _ => now; strong := false |}.

Definition checkCtx (e : Env) (i : nat) : Go kvError unit :=
  match ctxErr e i with Some err => Fail err | None => Ret tt end.

(** ** Keys, entries, mutations *)
Abbreviation Key := (list string).

Record Entry := MkEntry {
  entry_Key : Key;
  entry_Value : string;
  entry_Deadline : Time
}.

Record SetMembers := MkSetMembers {
  sm_Key : Key;
  sm_Members : list string;
  sm_MaxMembers : Z
}.

(** A nil [Expected] is [None]: the record must be absent. *)
Record Condition := MkCondition {
  cond_Key : Key;
  cond_Expected : option string
}.

Record Mutation := MkMutation {
  mut_Conditions : list Condition;
  mut_Entries : list Entry;
  mut_DeleteKeys : list Key;
  mut_AddMembers : list SetMembers;
  mut_RemoveMembers : list SetMembers;
  mut_AddOrderedMembers : list SetMembers;
  mut_RemoveOrderedMembers : list SetMembers
}.

Definition emptyMutation : Mutation := MkMutation [] [] [] [] [] [] [].

Record OrderedRange := MkOrderedRange {
  or_After : option string;
  or_Before : option string;
  or_Limit : Z
}.

Record GetResult := MkGetResult {
  gr_Value : string;
  gr_Err : option kvError
}.

#[export] Instance Entry_eq_dec : EqDecision Entry.
Proof. solve_decision. Defined.
#[export] Instance SetMembers_eq_dec : EqDecision SetMembers.
Proof. solve_decision. Defined.

(** ** Options and the key encoding *)
Record Options := MkOptions { opt_Separator : ascii }.

Definition DefaultSeparator : ascii := ":"%char.

(** [(o *Options) sep()]; [None] is the nil pointer. *)
Definition sep (o : option Options) : ascii :=
  match o with
  | Some o => if bool_decide (opt_Separator o = "000"%char) then DefaultSeparator else opt_Separator o
  | None => DefaultSeparator
  end.

(** The two loops of [encodeKey]: the buffer length, and the bytes written to it. *)
Fixpoint encodeLen (first : bool) (k : Key) : nat :=
  match k with
  | [] => 0%nat
  | seg :: k => ((if first then 0 else 1) + String.length seg + encodeLen false k)%nat
  end.
Fixpoint encodeFill (s : ascii) (first : bool) (k : Key) : string :=
  match k with
  | [] => EmptyString
  | seg :: k => (if first then EmptyString else String s EmptyString) +:+ seg +:+ encodeFill s false k
  end.

(** [(o *Options) encodeKey(k)]: panics when a segment contains the separator. *)
Definition encodeKey (o : option Options) (k : Key) : Go kvError string :=
  let s := sep o in
  if existsb (containsByte s) k then Panic else Ret (encodeFill s true k).

(** [(o *Options) decodeKey(b)]. *)
Definition decodeKey (o : option Options) (b : string) : Key := splitByte (sep o) b.

(** [Key.String()]. *)
Definition Key_String (k : Key) : string := joinByte ":" k.

(** ** Properties *)

(** A key every segment of which is free of the separator. *)
Definition cleanKey (o : option Options) (k : Key) : Prop :=
  Forall (fun seg => containsByte (sep o) seg = false) k.

#[export] Instance cleanKey_dec o k : Decision (cleanKey o k).
Proof. unfold cleanKey. apply _. Defined.

Lemma cleanKey_existsb o k : existsb (containsByte (sep o)) k = false <-> cleanKey o k.
Proof.
  unfold cleanKey. induction k as [|seg k IH]; cbn.
  - split; constructor.
  - rewrite orb_false_iff, IH, Forall_cons. done.
Qed.

Lemma encodeFill_join s k : encodeFill s true k = joinByte s k.
Proof.
  destruct k as [|x k]; [done|]. cbn. rewrite app_empty_str. revert x.
  induction k as [|y k IH]; intros x; cbn; [apply app_nil_r_str|].
  by rewrite app_cons_str, app_empty_str, IH.
Qed.

Lemma encodeKey_clean o k : cleanKey o k -> encodeKey o k = Ret (joinByte (sep o) k).
Proof. intros H%cleanKey_existsb. unfold encodeKey. by rewrite H, encodeFill_join. Qed.

Lemma encodeKey_not_clean o k : ~ cleanKey o k -> encodeKey o k = Panic.
Proof.
  intros H. unfold encodeKey. destruct (existsb _ k) eqn:E; [done|]. by destruct H; apply cleanKey_existsb.
Qed.

Lemma encodeKey_Ret o k s : encodeKey o k = Ret s <-> cleanKey o k /\ s = joinByte (sep o) k.
Proof.
  destruct (decide (cleanKey o k)) as [H|H].
  - rewrite encodeKey_clean by done. naive_solver.
  - rewrite encodeKey_not_clean by done. naive_solver.
Qed.

Lemma encodeKey_not_Fail o k e : encodeKey o k <> Fail e.
Proof. unfold encodeKey. by destruct (existsb _ k). Qed.

(** The buffer allocated by [encodeKey] is exactly the one it fills. *)
Lemma encodeFill_length s first k : String.length (encodeFill s first k) = encodeLen first k.
Proof.
  revert first. induction k as [|x k IH]; intros first; [done|]. cbn.
  rewrite !length_app_str, IH. destruct first; cbn; lia.
Qed.

Lemma decodeKey_join o k : cleanKey o k -> k <> [] -> decodeKey o (joinByte (sep o) k) = k.
Proof. intros H1 H2. by apply splitByte_joinByte. Qed.

(** Distinct non-empty clean keys have distinct encodings. *)
Lemma joinByte_inj o k1 k2 :
  cleanKey o k1 -> cleanKey o k2 -> k1 <> [] -> k2 <> [] ->
  joinByte (sep o) k1 = joinByte (sep o) k2 -> k1 = k2.
Proof.
  intros C1 C2 N1 N2 E. rewrite <-(decodeKey_join o k1), <-(decodeKey_join o k2) by done. by rewrite E.
Qed.

Lemma cleanKey_app o p k : cleanKey o (p ++ k) <-> cleanKey o p /\ cleanKey o k.
Proof. apply Forall_app. Qed.
