(* ===== verification/KVMemory.v ===== *)
(** * kv: the in-memory store

    [src/pkgs/store/kv/memory.go], [sets.go], [sets_memory.go], [ordered.go] and
    [batch_get.go].  A [Memory] is a map from encoded keys to entries; an entry is
    a record (a value and an optional deadline) or a collection (a set of members,
    ordinary or ordered).  Each method is a call of type [ST Memory kvError _]. *)

From S2P Require Import Prelude GoStrings KVKey.
From stdpp Require Import gmap strings list sorting.

Open Scope Z_scope.

(** ** Data *)
Record memoryEntry := MkMemoryEntry {
  me_members : option (gset string);  (** the nil map is [None] *)
  me_ordered : bool;
  me_value : string;
  me_expiresAt : Time
}.

Record Memory := MkMemory {
  mem_data : gmap string memoryEntry;
  mem_opts : option Options
}.

#[export] Instance memoryEntry_eq_dec : EqDecision memoryEntry.
Proof. solve_decision. Defined.

Definition NewMemory (opts : option Options) : Memory :=
  {| mem_data := ∅; mem_opts := opts |}.

(** A record entry as every writer builds it. *)
Definition recordEntry (value : string) (deadline : Time) : memoryEntry :=
  MkMemoryEntry None false value deadline.

Definition setData (m : Memory) (d : gmap string memoryEntry) : Memory :=
  {| mem_data := d; mem_opts := mem_opts m |}.

(** [memoryEntry.expired(now)]. *)
Definition expired (e : memoryEntry) (now : Time) : bool :=
  negb (isZero (me_expiresAt e)) && negb (now <? me_expiresAt e).

(** [!e.Deadline.IsZero() && !e.Deadline.After(now)]. *)
Definition badDeadline (deadline now : Time) : bool :=
  negb (isZero deadline) && negb (now <? deadline).

Definition encodeM (key : Key) : ST Memory kvError string :=
  m ← getST; lift (encodeKey (mem_opts m) key).

(** ** Point reads and writes *)

(** [Memory.Get].  The expired branch re-reads the entry and the clock under the
    write lock before removing it. *)
Definition Memory_Get (e : Env) (key : Key) : ST Memory kvError string :=
  _ ← lift (checkCtx e 0);
  k ← encodeM key;
  m ← getST;
  match mem_data m !! k with
  | None => failST ErrNotFound
  | Some entry =>
      if expired entry (clock e 0) then
        cur ← getST;
        _ ← match mem_data cur !! k with
            | Some current =>
                if expired current (clock e 1)
                then putST (setData cur (delete k (mem_data cur))) else mret tt
            | None => mret tt
            end;
        failST ErrNotFound
      else match me_members entry with
           | Some _ => failST ErrWrongType
           | None => mret (me_value entry)
           end
  end.

Definition Memory_Set (e : Env) (key : Key) (value : string) : ST Memory kvError unit :=
  _ ← lift (checkCtx e 0);
  k ← encodeM key;
  m ← getST;
  putST (setData m (<[k := recordEntry value 0]> (mem_data m))).

Definition Memory_Delete (e : Env) (key : Key) : ST Memory kvError unit :=
  _ ← lift (checkCtx e 0);
  k ← encodeM key;
  m ← getST;
  putST (setData m (delete k (mem_data m))).

(** ** Batches *)

(** The preparation loop shared by the batch writers: encodeKey every key and reject
    a deadline that is not in the future. *)
Definition prepare (opts : option Options) (now : Time) (es : list Entry)
    : Go kvError (list (string * memoryEntry)) :=
  mapGo (fun e => _ ← check (badDeadline (entry_Deadline e) now) ErrInvalidDeadline;
                  k ← encodeKey opts (entry_Key e);
                  Ret (k, recordEntry (entry_Value e) (entry_Deadline e))) es.

(** [for _, e := range prepared { m.data[e.key] = e.entry }]. *)
Definition insertAll (prepared : list (string * memoryEntry)) (d : gmap string memoryEntry)
    : gmap string memoryEntry :=
  foldl (fun d p => <[p.1 := p.2]> d) d prepared.

(** [for _, key := range keys { delete(m.data, key) }]. *)
Definition deleteAll (keys : list string) (d : gmap string memoryEntry) : gmap string memoryEntry :=
  foldl (fun d k => delete k d) d keys.

Definition Memory_BatchSet (e : Env) (entries : list Entry) : ST Memory kvError unit :=
  _ ← lift (checkCtx e 0);
  m ← getST;
  prepared ← lift (prepare (mem_opts m) (clock e 0) entries);
  putST (setData m (insertAll prepared (mem_data m))).

(** [Memory.BatchDelete] encodes inside the loop, under the lock: a key with a bad
    segment panics after the earlier keys are gone. *)
Definition Memory_BatchDelete (e : Env) (keys : list Key) : ST Memory kvError unit :=
  _ ← lift (checkCtx e 0);
  eachST (fun key => k ← encodeM key; m ← getST; putST (setData m (delete k (mem_data m)))) keys.

Definition Memory_BatchMutate (e : Env) (entries : list Entry) (keys : list Key) : ST Memory kvError unit :=
  _ ← lift (checkCtx e 0);
  m ← getST;
  prepared ← lift (prepare (mem_opts m) (clock e 0) entries);
  encodedDeletes ← lift (mapGo (encodeKey (mem_opts m)) keys);
  _ ← lift (checkCtx e 1);
  putST (setData m (deleteAll encodedDeletes (insertAll prepared (mem_data m)))).

(** ** Conditional writes *)

(** The guard loop of [CreateIfAllAbsent]: the first live guard, if any. *)
Fixpoint firstConflict (opts : option Options) (d : gmap string memoryEntry) (now : Time)
    (guards : list Entry) : Go kvError (option (Key * string)) :=
  match guards with
  | [] => Ret None
  | g :: guards =>
      k ← encodeKey opts (entry_Key g);
      match d !! k with
      | Some current =>
          if expired current now then firstConflict opts d now guards
          else Ret (Some (entry_Key g, me_value current))
      | None => firstConflict opts d now guards
      end
  end.

(** Result of a conditional create: [inl (conflict, existing)] or [inr tt] (created). *)
Definition Memory_CreateIfAllAbsent (e : Env) (guards entries : list Entry)
    : ST Memory kvError ((Key * string) + unit) :=
  _ ← lift (checkCtx e 0);
  _ ← checkST (bool_decide (guards = [])) (ErrText "kv: create-if-all-absent requires at least one guard");
  m ← getST;
  _ ← lift (checkCtx e 1);
  conflict ← lift (firstConflict (mem_opts m) (mem_data m) (clock e 0) guards);
  match conflict with
  | Some c => mret (inl c)
  | None =>
      prepared ← lift (prepare (mem_opts m) (clock e 0) (entries ++ guards));
      _ ← putST (setData m (insertAll prepared (mem_data m)));
      mret (inr tt)
  end.

(** [(existing, created)]. *)
Definition Memory_CreateIfAbsent (e : Env) (guard : Entry) (entries : list Entry)
    : ST Memory kvError (string * bool) :=
  r ← Memory_CreateIfAllAbsent e [guard] entries;
  mret match r with
       | inl (_, existing) => (existing, false)
       | inr _ => (EmptyString, true)
       end.

Definition Memory_CompareAndMutate (e : Env) (guard : Key) (expected : string)
    (entries : list Entry) (keys : list Key) : ST Memory kvError bool :=
  _ ← lift (checkCtx e 0);
  m ← getST;
  let now := clock e 0 in
  prepared ← lift (mapGo (fun x => k ← encodeKey (mem_opts m) (entry_Key x);
                            Ret (k, recordEntry (entry_Value x) (entry_Deadline x))) entries);
  encodedDeletes ← lift (mapGo (encodeKey (mem_opts m)) keys);
  guardKey ← lift (encodeKey (mem_opts m) guard);
  _ ← lift (checkCtx e 1);
  match mem_data m !! guardKey with
  | Some current =>
      if expired current now || negb (bool_decide (me_value current = expected)) then mret false
      else
        _ ← lift (each (fun p => check (badDeadline (me_expiresAt p.2) now) ErrInvalidDeadline) prepared);
        _ ← putST (setData m (deleteAll encodedDeletes (insertAll prepared (mem_data m))));
        mret true
  | None => mret false
  end.

(** ** Mutations over records and collections *)

(** The four member groups of a mutation with their phase: adds are even,
    removals odd; phases 2 and 3 address ordered collections. *)
Definition phases (mu : Mutation) : list (nat * SetMembers) :=
  ((fun g => (0%nat, g)) <$> mut_AddMembers mu) ++ ((fun g => (1%nat, g)) <$> mut_RemoveMembers mu) ++
  ((fun g => (2%nat, g)) <$> mut_AddOrderedMembers mu) ++ ((fun g => (3%nat, g)) <$> mut_RemoveOrderedMembers mu).

Definition phaseAdds (phase : nat) : bool := Nat.even phase.
Definition phaseOrdered (phase : nat) : bool := (2 <=? phase)%nat.

(** The record keys named by a mutation, encoded. *)
Definition validateRecords (opts : option Options) (now : Time) (mu : Mutation) : Go kvError (gset string) :=
  r1 ← foldGo (fun (r : gset string) c => k ← encodeKey opts (cond_Key c); Ret ({[k]} ∪ r)) ∅ (mut_Conditions mu);
  r2 ← foldGo (fun (r : gset string) en =>
          _ ← check (badDeadline (entry_Deadline en) now) ErrInvalidDeadline;
          k ← encodeKey opts (entry_Key en); Ret ({[k]} ∪ r)) r1 (mut_Entries mu);
  foldGo (fun (r : gset string) key => k ← encodeKey opts key; Ret ({[k]} ∪ r)) r2 (mut_DeleteKeys mu).

(** One iteration of the collection loop of [Mutation.validate]. *)
Definition validateGroup (opts : option Options) (records : gset string)
    (kinds : gmap string bool) (pg : nat * SetMembers) : Go kvError (gmap string bool) :=
  let '(phase, group) := pg in
  _ ← check ((sm_MaxMembers group <? 0) || (Nat.odd phase && negb (sm_MaxMembers group =? 0)))
        (ErrText "kv: member limit requires an addition and a non-negative maximum");
  key ← encodeKey opts (sm_Key group);
  _ ← check (match kinds !! key with
             | Some previous => negb (Bool.eqb previous (phaseOrdered phase))
             | None => false
             end) ErrWrongType;
  _ ← check (bool_decide (key ∈ records)) (ErrText "kv: record and collection keys overlap");
  Ret (<[key := phaseOrdered phase]> kinds).

Definition Mutation_validate (e : Env) (opts : option Options) (mu : Mutation) : Go kvError unit :=
  _ ← checkCtx e 0;
  records ← validateRecords opts (clock e 0) mu;
  _ ← foldGo (validateGroup opts records) ∅ (phases mu);
  Ret tt.

(** The condition loop: [Ret true] when every condition holds. *)
Fixpoint checkConditions (opts : option Options) (d : gmap string memoryEntry) (now : Time)
    (cs : list Condition) : Go kvError bool :=
  match cs with
  | [] => Ret true
  | c :: cs =>
      k ← encodeKey opts (cond_Key c);
      let live := match d !! k with
                  | Some entry => if expired entry now then None else Some entry
                  | None => None
                  end in
      match cond_Expected c, live with
      | None, Some _ => Ret false
      | None, None => checkConditions opts d now cs
      | Some expected, Some entry =>
          match me_members entry with
          | Some _ => Fail ErrWrongType
          | None => if bool_decide (me_value entry = expected)
                    then checkConditions opts d now cs else Ret false
          end
      | Some _, None => Ret false
      end
  end.

(** Staged writes and pending deletes of a mutation in progress. *)
Record Staging := MkStaging {
  stg_staged : gmap string memoryEntry;
  stg_deletes : gmap string bool
}.

(** [for _, member := range group.Members]: adding to a nil map panics. *)
Definition applyMembers (adds : bool) (members : option (gset string)) (ms : list string)
    : Go kvError (option (gset string)) :=
  match members with
  | Some s => Ret (Some (if adds then list_to_set ms ∪ s else s ∖ list_to_set ms))
  | None => if adds && negb (bool_decide (ms = [])) then Panic else Ret None
  end.

Definition memberCount (members : option (gset string)) : Z :=
  match members with Some s => Z.of_nat (size s) | None => 0 end.

(** One group of the staging loop of [Memory.ApplyMutation]. *)
Definition stageGroup (opts : option Options) (d : gmap string memoryEntry) (now : Time)
    (st : Staging) (pg : nat * SetMembers) : Go kvError Staging :=
  let '(phase, group) := pg in
  if bool_decide (sm_Members group = []) then Ret st else
  key ← encodeKey opts (sm_Key group);
  let fresh := MkMemoryEntry (Some ∅) (phaseOrdered phase) EmptyString 0 in
  entry ← match stg_staged st !! key with
          | Some entry => Ret entry
          | None =>
              match d !! key with
              | Some entry =>
                  if expired entry now then Ret fresh
                  else match me_members entry with
                       | None => Fail ErrWrongType
                       | Some _ => if Bool.eqb (me_ordered entry) (phaseOrdered phase)
                                   then Ret entry else Fail ErrWrongType
                       end
              | None => Ret fresh
              end
          end;
  let previousCount := memberCount (me_members entry) in
  members ← applyMembers (phaseAdds phase) (me_members entry) (sm_Members group);
  let count := memberCount members in
  _ ← check ((0 <? sm_MaxMembers group) && (sm_MaxMembers group <? count) && (previousCount <? count)) ErrMemberLimit;
  let entry' := MkMemoryEntry members (me_ordered entry) (me_value entry) (me_expiresAt entry) in
  Ret {| stg_staged := <[key := entry']> (stg_staged st);
         stg_deletes := <[key := count =? 0]> (stg_deletes st) |}.

(** [maps.Copy(m.data, staged)] followed by the delete loop. *)
Definition commit (st : Staging) (d : gmap string memoryEntry) : gmap string memoryEntry :=
  filter (fun p => stg_deletes st !! p.1 <> Some true) (stg_staged st ∪ d).

Definition stageRecords (opts : option Options) (now : Time) (mu : Mutation) : Go kvError Staging :=
  staged ← foldGo (fun (stg : gmap string memoryEntry) en =>
             _ ← check (badDeadline (entry_Deadline en) now) ErrInvalidDeadline;
             k ← encodeKey opts (entry_Key en);
             Ret (<[k := recordEntry (entry_Value en) (entry_Deadline en)]> stg)) ∅ (mut_Entries mu);
  deletes ← foldGo (fun (del : gmap string bool) key =>
             k ← encodeKey opts key; Ret (<[k := true]> del)) ∅ (mut_DeleteKeys mu);
  Ret {| stg_staged := staged; stg_deletes := deletes |}.

Definition Memory_ApplyMutation (e : Env) (mu : Mutation) : ST Memory kvError bool :=
  m ← getST;
  _ ← lift (Mutation_validate e (mem_opts m) mu);
  _ ← lift (checkCtx e 1);
  let now := clock e 1 in
  ok ← lift (checkConditions (mem_opts m) (mem_data m) now (mut_Conditions mu));
  if negb ok then mret false else
  st0 ← lift (stageRecords (mem_opts m) now mu);
  st ← lift (foldGo (stageGroup (mem_opts m) (mem_data m) now) st0 (phases mu));
  _ ← putST (setData m (commit st (mem_data m)));
  mret true.

(** ** Collections *)
Definition Memory_AddMembers (e : Env) (key : Key) (members : list string) : ST Memory kvError unit :=
  _ ← Memory_ApplyMutation e (MkMutation [] [] [] [MkSetMembers key members 0] [] [] []); mret tt.

Definition Memory_RemoveMembers (e : Env) (key : Key) (members : list string) : ST Memory kvError unit :=
  _ ← Memory_ApplyMutation e (MkMutation [] [] [] [] [MkSetMembers key members 0] [] []); mret tt.

(** The live collection under a key, of the given kind; [None] when absent. *)
Definition lookupCollection (ordered : bool) (now : Time) (key : Key)
    : ST Memory kvError (option (gset string)) :=
  k ← encodeM key;
  m ← getST;
  match mem_data m !! k with
  | None => mret None
  | Some entry =>
      if expired entry now then mret None
      else match me_members entry with
           | Some s => if Bool.eqb (me_ordered entry) ordered then mret (Some s) else failST ErrWrongType
           | None => failST ErrWrongType
           end
  end.

Definition Memory_HasMember (e : Env) (key : Key) (member : string) : ST Memory kvError bool :=
  _ ← lift (checkCtx e 0);
  s ← lookupCollection false (clock e 0) key;
  mret match s with Some s => bool_decide (member ∈ s) | None => false end.

(** Go iterates the map in any order; [elements] fixes one. *)
Definition Memory_ListMembers (e : Env) (key : Key) : ST Memory kvError (list string) :=
  _ ← lift (checkCtx e 0);
  s ← lookupCollection false (clock e 0) key;
  mret match s with Some s => elements s | None => [] end.

Definition OrderedRange_validate (e : Env) (q : OrderedRange) : Go kvError unit :=
  _ ← checkCtx e 0;
  check (or_Limit q <=? 0) (ErrText "kv: ordered range limit must be positive").

(** The members a range selects: strictly between its bounds. *)
Definition inRange (q : OrderedRange) (member : string) : bool :=
  match or_After q with Some a => negb (leStr member a) | None => true end &&
  match or_Before q with Some b => negb (leStr b member) | None => true end.

Definition Memory_RangeOrderedMembers (e : Env) (key : Key) (q : OrderedRange) : ST Memory kvError (list string) :=
  _ ← lift (OrderedRange_validate e q);
  s ← lookupCollection true (clock e 0) key;
  mret match s with
       | Some s => let members := sortStrings (filter (fun m => inRange q m = true) (elements s)) in
                   take (Z.to_nat (Z.min (Z.of_nat (length members)) (or_Limit q))) members
       | None => []
       end.

(** ** Batched reads *)

(** [batchGet]: [min(len(keys), 8)] workers share the keys; worker [w] reads the
    indexes [w], [w+workers], ....  [schedule] is the global order in which the
    reads happen to run; [stop i] is the worker's [ctx.Err()] before the read of
    index [i], and [envs i] what that read itself observes. *)
Definition batchGetConcurrency : nat := 8.

Definition batchGetStep {W} (get : Env -> Key -> ST W kvError string)
    (stop : nat -> option kvError) (envs : nat -> Env)
    (keys : list Key) (acc : W * list GetResult) (i : nat) : W * list GetResult :=
  let '(w, results) := acc in
  match keys !! i with
  | None => acc
  | Some key =>
      match stop i with
      | Some err => (w, <[i := MkGetResult EmptyString (Some err)]> results)
      | None =>
          let '(w', r) := get (envs i) key w in
          (w', match r with
               | Ret v => <[i := MkGetResult v None]> results
               | Fail ErrWrongType => <[i := MkGetResult EmptyString (Some ErrNotFound)]> results
               | Fail err => <[i := MkGetResult EmptyString (Some err)]> results
               | Panic => results
               end)
      end
  end.

Definition batchGet {W} (get : Env -> Key -> ST W kvError string)
    (stop : nat -> option kvError) (envs : nat -> Env) (schedule : list nat) (keys : list Key) (w : W) : W * list GetResult :=
  foldl (batchGetStep get stop envs keys) (w, replicate (length keys) (MkGetResult EmptyString None)) schedule.

Definition Memory_BatchGet (stop : nat -> option kvError) (envs : nat -> Env) (schedule : list nat)
    (keys : list Key) (m : Memory) : Memory * list GetResult :=
  batchGet Memory_Get stop envs schedule keys m.
