(* ===== verification/KVSpec.v ===== *)
(** * kv: the abstract store and the refinement of [Memory]

    The contract of [Store] talks about live records and collections.  [view]
    forgets expired entries and representation; [specMutation] is the documented
    effect of a mutation on that view, applied directly and in order, with no
    staging.  The in-memory store is shown to implement it, atomically, and to
    keep its representation invariant. *)

From S2P Require Import Prelude GoStrings KVKey KVMemory.
From stdpp Require Import gmap strings list sorting.

Open Scope Z_scope.

(** ** Abstract values and the view at an instant *)
Inductive aval :=
  | ARec (value : string) (deadline : Time)
  | ASet (ordered : bool) (members : gset string).

#[export] Instance aval_eq_dec : EqDecision aval.
Proof. solve_decision. Defined.

Definition absEntry (e : memoryEntry) : aval :=
  match me_members e with
  | Some s => ASet (me_ordered e) s
  | None => ARec (me_value e) (me_expiresAt e)
  end.

Definition view (now : Time) (d : gmap string memoryEntry) : gmap string aval :=
  absEntry <$> filter (fun p => expired p.2 now = false) d.

Lemma lookup_view now d k :
  view now d !! k =
    match d !! k with
    | Some e => if expired e now then None else Some (absEntry e)
    | None => None
    end.
Proof.
  unfold view. rewrite lookup_fmap, map_lookup_filter.
  destruct (d !! k) as [e|]; cbn; [|done]. destruct (expired e now) eqn:E; by simplify_option_eq.
Qed.

(** Two stores that no reader at [now] or later can tell apart. *)
Definition viewEq (now : Time) (d1 d2 : gmap string memoryEntry) : Prop := view now d1 = view now d2.

#[export] Instance viewEq_equiv now : Equivalence (viewEq now).
Proof. split; unfold viewEq; [by intros ?|by intros ??|by intros ??? ->]. Qed.

Lemma expired_mono e t1 t2 : t1 <= t2 -> expired e t1 = true -> expired e t2 = true.
Proof. unfold expired, isZero. lia. Qed.

(** ** Representation invariant

    A collection is non-empty, carries no value and no deadline; a record is not
    flagged ordered. *)
Definition wfEntry (e : memoryEntry) : Prop :=
  match me_members e with
  | Some s => s <> ∅ /\ me_value e = EmptyString /\ me_expiresAt e = 0
  | None => me_ordered e = false
  end.

Definition wfData (d : gmap string memoryEntry) : Prop := map_Forall (fun _ e => wfEntry e) d.
Definition wfMemory (m : Memory) : Prop := wfData (mem_data m).

#[export] Instance wfEntry_dec e : Decision (wfEntry e).
Proof. unfold wfEntry. destruct (me_members e); apply _. Defined.

Lemma wf_collection_live d k e s now :
  wfData d -> d !! k = Some e -> me_members e = Some s -> expired e now = false.
Proof.
  intros Hd Hk Hs. specialize (Hd k e Hk). unfold wfEntry in Hd. rewrite Hs in Hd.
  destruct Hd as (_ & _ & Hx). unfold expired. by rewrite Hx.
Qed.

Lemma recordEntry_wf v t : wfEntry (recordEntry v t).
Proof. done. Qed.

Lemma wfData_insert d k e : wfEntry e -> wfData d -> wfData (<[k := e]> d).
Proof. intros. by apply map_Forall_insert_2. Qed.

Lemma wfData_delete d k : wfData d -> wfData (delete k d).
Proof. intros. by apply map_Forall_delete. Qed.

Lemma wfData_insertAll l d :
  Forall (fun p => wfEntry p.2) l -> wfData d -> wfData (insertAll l d).
Proof.
  intros HF. revert d. induction HF as [|p l Hp HF IH]; intros d Hd; [done|].
  cbn. apply IH. by apply wfData_insert.
Qed.

Lemma wfData_deleteAll l d : wfData d -> wfData (deleteAll l d).
Proof. revert d. induction l as [|k l IH]; intros d Hd; [done|]. cbn. apply IH. by apply wfData_delete. Qed.

#[export] Hint Resolve recordEntry_wf wfData_insert wfData_delete wfData_insertAll wfData_deleteAll : gizclaw.

(** Equal views stay equal as time passes. *)
Lemma viewEq_mono d1 d2 t1 t2 :
  wfData d1 -> wfData d2 -> t1 <= t2 -> viewEq t1 d1 d2 -> viewEq t2 d1 d2.
Proof.
  unfold viewEq. intros W1 W2 Ht E. apply map_eq. intros k. pose proof (f_equal (.!! k) E) as Ek.
  cbn in Ek. rewrite !lookup_view in *.
  destruct (d1 !! k) as [e1|] eqn:E1, (d2 !! k) as [e2|] eqn:E2; try done.
  - destruct (expired e1 t1) eqn:X1, (expired e2 t1) eqn:X2; try done.
    { by rewrite (expired_mono e1 t1 t2), (expired_mono e2 t1 t2). }
    injection Ek as A. assert (expired e1 t2 = expired e2 t2) as ->; [|by rewrite A].
    unfold absEntry in A.
    destruct (me_members e1) eqn:M1, (me_members e2) eqn:M2; try done.
    + by rewrite (wf_collection_live d1 k e1 _ t2 W1 E1 M1), (wf_collection_live d2 k e2 _ t2 W2 E2 M2).
    + injection A as _ A. unfold expired. by rewrite A.
  - destruct (expired e1 t1) eqn:X1; [|done]. by rewrite (expired_mono e1 t1 t2).
  - destruct (expired e2 t1) eqn:X2; [|done]. by rewrite (expired_mono e2 t1 t2).
Qed.

(** ** The documented effect of a mutation *)

Definition encK (opts : option Options) (k : Key) : string := joinByte (sep opts) k.

Definition setOf (M : gmap string aval) (key : string) : gset string :=
  match M !! key with Some (ASet _ s) => s | _ => ∅ end.

(** Add or remove members of one collection; an emptied collection disappears. *)
Definition specGroup (opts : option Options) (M : gmap string aval) (pg : nat * SetMembers) : gmap string aval :=
  let key := encK opts (sm_Key pg.2) in
  let ms : gset string := list_to_set (sm_Members pg.2) in
  if bool_decide (sm_Members pg.2 = []) then M else
  let new := if phaseAdds pg.1 then ms ∪ setOf M key else setOf M key ∖ ms in
  if bool_decide (new = ∅) then delete key M
  else <[key := ASet (phaseOrdered pg.1) new]> M.

Definition specMutation (opts : option Options) (mu : Mutation) (M : gmap string aval) : gmap string aval :=
  let M1 := foldl (fun M en => <[encK opts (entry_Key en) := ARec (entry_Value en) (entry_Deadline en)]> M)
              M (mut_Entries mu) in
  let M2 := foldl (fun M k => delete (encK opts k) M) M1 (mut_DeleteKeys mu) in
  foldl (specGroup opts) M2 (phases mu).

(** A condition holds of a view. *)
Definition specCondition (opts : option Options) (M : gmap string aval) (c : Condition) : Prop :=
  match cond_Expected c with
  | None => M !! encK opts (cond_Key c) = None
  | Some v => exists deadline, M !! encK opts (cond_Key c) = Some (ARec v deadline)
  end.

(** ** Conditions *)
Lemma checkConditions_spec opts d now cs b :
  checkConditions opts d now cs = Ret b ->
  (b = true <-> Forall (specCondition opts (view now d)) cs).
Proof.
  induction cs as [|c cs IH]; cbn [checkConditions].
  - intros [= <-]. split; [constructor|done].
  - rewrite Forall_cons. destruct (encodeKey opts (cond_Key c)) as [k|e|] eqn:Ek; [|done..].
    apply encodeKey_Ret in Ek as [_ ->]. cbn.
    unfold specCondition at 1. unfold encK. rewrite lookup_view.
    destruct (d !! joinByte (sep opts) (cond_Key c)) as [entry|] eqn:Ed; cbn.
    + destruct (expired entry now) eqn:X, (cond_Expected c) as [v|] eqn:Ec.
      * intros [= <-]. naive_solver.
      * intros H. rewrite IH by done. naive_solver.
      * unfold absEntry. destruct (me_members entry) eqn:Em; [done|].
        case_bool_decide as Ev.
        -- intros H. rewrite IH by done. subst v. naive_solver.
        -- intros [= <-]. naive_solver.
      * intros [= <-]. naive_solver.
    + destruct (cond_Expected c) as [v|] eqn:Ec.
      * intros [= <-]. naive_solver.
      * intros H. rewrite IH by done. naive_solver.
Qed.

(** ** Staging refines direct application *)

Lemma lookup_view_commit now st d k :
  view now (commit st d) !! k =
    match stg_deletes st !! k with
    | Some true => None
    | _ => match stg_staged st !! k with
           | Some e => if expired e now then None else Some (absEntry e)
           | None => view now d !! k
           end
    end.
Proof.
  rewrite !lookup_view. unfold commit. rewrite map_lookup_filter, lookup_union.
  destruct (stg_deletes st !! k) as [[]|] eqn:Ed, (stg_staged st !! k) as [e|] eqn:Es, (d !! k) as [e'|] eqn:E';
    cbn; simplify_option_eq; try done; naive_solver.
Qed.

(** The staging state [st] stands for the view [M]; keys outside [records] are
    either untouched or hold a staged collection whose kind is recorded in [K]. *)
Definition simStaging (records : gset string) (K : gmap string bool) (now : Time)
    (d : gmap string memoryEntry) (st : Staging) (M : gmap string aval) : Prop :=
  view now (commit st d) = M /\
  (forall k, k ∉ records ->
     match stg_staged st !! k with
     | None => stg_deletes st !! k = None
     | Some e => exists s, me_members e = Some s /\ me_value e = EmptyString /\ me_expiresAt e = 0 /\
                   K !! k = Some (me_ordered e) /\ stg_deletes st !! k = Some (bool_decide (s = ∅))
     end) /\
  (forall k e, stg_staged st !! k = Some e -> stg_deletes st !! k <> Some true -> wfEntry e).

Lemma size_eqb_0 (s : gset string) : (Z.of_nat (size s) =? 0) = bool_decide (s = ∅).
Proof.
  case_bool_decide as H.
  - by rewrite H, size_empty.
  - apply Z.eqb_neq. intros E. apply H. apply leibniz_equiv, size_empty_inv. lia.
Qed.

(** The entry a group works on is the abstract collection. *)
Lemma stage_entry_spec records K now d st M key (ph : nat) entry :
  simStaging records K now d st M -> wfData d -> key ∉ records -> K !! key = Some (phaseOrdered ph) ->
  match stg_staged st !! key with
  | Some entry => Ret entry
  | None =>
      match d !! key with
      | Some entry =>
          if expired entry now then Ret (MkMemoryEntry (Some ∅) (phaseOrdered ph) EmptyString 0)
          else match me_members entry with
               | None => Fail ErrWrongType
               | Some _ => if Bool.eqb (me_ordered entry) (phaseOrdered ph)
                           then Ret entry else Fail ErrWrongType
               end
      | None => Ret (MkMemoryEntry (Some ∅) (phaseOrdered ph) EmptyString 0)
      end
  end = Ret entry ->
  entry = MkMemoryEntry (Some (setOf M key)) (phaseOrdered ph) EmptyString 0.
Proof.
  intros (HM & Hk & _) Hwf Hrec HK. specialize (Hk key Hrec). unfold setOf. rewrite <-HM, lookup_view_commit.
  destruct (stg_staged st !! key) as [e|] eqn:Es.
  - intros [= <-]. destruct Hk as (s & Hm & Hv & Hx & HK' & Hd). rewrite Hd.
    assert (expired e now = false) as -> by (unfold expired; by rewrite Hx).
    assert (e = MkMemoryEntry (Some s) (phaseOrdered ph) EmptyString 0) as ->.
    { rewrite HK in HK'. destruct e; cbn in *. by simplify_eq. }
    cbn. case_bool_decide as E; [by rewrite E|done].
  - rewrite Hk, lookup_view. destruct (d !! key) as [e|] eqn:Ed; [|by intros [= <-]].
    destruct (expired e now) eqn:X; [by intros [= <-]|].
    destruct (me_members e) as [s|] eqn:Em; [|done].
    destruct (Bool.eqb _ _) eqn:Eo; [|done]. intros [= <-]. apply eqb_prop in Eo.
    specialize (Hwf key e Ed). unfold wfEntry in Hwf. rewrite Em in Hwf. destruct Hwf as (_ & Hv & Hx).
    unfold absEntry. rewrite Em. destruct e; cbn in *; by simplify_eq.
Qed.

Lemma stageGroup_sim records K opts now d st M pg st' :
  simStaging records K now d st M -> wfData d ->
  encK opts (sm_Key pg.2) ∉ records -> K !! encK opts (sm_Key pg.2) = Some (phaseOrdered pg.1) ->
  stageGroup opts d now st pg = Ret st' ->
  simStaging records K now d st' (specGroup opts M pg).
Proof.
  destruct pg as [ph g]; cbn [fst snd]. intros HS Hwf Hrec HK. unfold stageGroup, specGroup. cbn [fst snd].
  case_bool_decide as Hms; [by intros [= <-]|].
  destruct (encodeKey opts (sm_Key g)) as [k|e|] eqn:Ek; [|done..].
  apply encodeKey_Ret in Ek as [_ Ek]. fold (encK opts (sm_Key g)) in Ek. rewrite <-Ek in *. clear Ek.
  cbn -[applyMembers]. intros H.
  apply bind_Ret in H as (entry & Hent & H).
  apply (stage_entry_spec records K now d st M) in Hent; [|done..]. subst entry. cbn in H.
  apply bind_Ret in H as ([] & _ & [= <-]). rewrite size_eqb_0.
  set (new := if phaseAdds ph then _ else _).
  destruct HS as (HM & Hk & Hw). split_and!.
  - apply map_eq. intros j. rewrite lookup_view_commit. cbn.
    destruct (decide (j = k)) as [->|Hj].
    + rewrite !lookup_insert_eq. case_bool_decide; [by rewrite lookup_delete_eq|].
      by rewrite lookup_insert_eq.
    + rewrite !lookup_insert_ne by done. case_bool_decide;
        [rewrite lookup_delete_ne by done|rewrite lookup_insert_ne by done];
        by rewrite <-HM, lookup_view_commit.
  - intros j Hj. cbn. destruct (decide (j = k)) as [->|Hne].
    + rewrite !lookup_insert_eq. by exists new.
    + rewrite !lookup_insert_ne by done. by apply Hk.
  - intros j e. cbn. destruct (decide (j = k)) as [->|Hne].
    + rewrite !lookup_insert_eq. intros [= <-] Hd. split_and!; try done. intros E. cbn in E.
      apply Hd. by rewrite bool_decide_eq_true_2.
    + rewrite !lookup_insert_ne by done. apply Hw.
Qed.

(** ** Validation facts *)

(** What a validated mutation guarantees: record keys are collected, and every
    group addresses a key outside them with one kind of collection. *)
Lemma validateGroup_step opts records kinds pg kinds' :
  validateGroup opts records kinds pg = Ret kinds' ->
  kinds ⊆ kinds' /\
  (encK opts (sm_Key pg.2) ∉ records /\ kinds' !! encK opts (sm_Key pg.2) = Some (phaseOrdered pg.1)).
Proof.
  destruct pg as [ph g]. unfold validateGroup. cbn [fst snd]. intros H.
  apply bind_Ret in H as ([] & _ & H). apply bind_Ret in H as (k & Ek & H).
  apply encodeKey_Ret in Ek as [_ Ek]. fold (encK opts (sm_Key g)) in Ek. rewrite <-Ek.
  apply bind_Ret in H as ([] & Hk & H). apply bind_Ret in H as ([] & Hr & [= <-]).
  apply check_Ret in Hk, Hr. apply bool_decide_eq_false in Hr. rewrite lookup_insert_eq. split; [|done].
  destruct (kinds !! k) as [b|] eqn:E.
  - apply negb_false_iff, eqb_prop in Hk as ->. by rewrite insert_id.
  - by apply insert_subseteq.
Qed.

Lemma validate_groups opts records mu K :
  foldGo (validateGroup opts records) ∅ (phases mu) = Ret K ->
  forall pg, pg ∈ phases mu ->
    encK opts (sm_Key pg.2) ∉ records /\ K !! encK opts (sm_Key pg.2) = Some (phaseOrdered pg.1).
Proof.
  intros H. eapply (foldGo_mono (B:=gmap string bool) (⊆)
    (fun pg kinds => encK opts (sm_Key pg.2) ∉ records /\ kinds !! encK opts (sm_Key pg.2) = Some (phaseOrdered pg.1)));
    [intros ???; apply validateGroup_step| |exact H].
  cbn. intros x b b' Hb [H1 H2]. split; [done|]. by eapply lookup_weaken.
Qed.

Lemma collect_step opts (r r' : gset string) (key : Key) :
  (k ← encodeKey opts key; Ret ({[k]} ∪ r)) = Ret r' -> r ⊆ r' /\ encK opts key ∈ r'.
Proof. intros (k & [_ ->]%encodeKey_Ret & [= <-])%bind_Ret. unfold encK. set_solver. Qed.

Lemma validateRecords_spec opts now mu records :
  validateRecords opts now mu = Ret records ->
  (forall en, en ∈ mut_Entries mu -> encK opts (entry_Key en) ∈ records) /\
  (forall k, k ∈ mut_DeleteKeys mu -> encK opts k ∈ records).
Proof.
  unfold validateRecords. intros (r1 & _ & H)%bind_Ret. apply bind_Ret in H as (r2 & H2 & H3).
  eapply (foldGo_mono (B:=gset string) (⊆) (fun en r => encK opts (entry_Key en) ∈ r)) in H2 as [_ H2];
    [|intros ??? (_ & _ & E)%bind_Ret; by apply collect_step|set_solver].
  eapply (foldGo_mono (B:=gset string) (⊆) (fun k r => encK opts k ∈ r)) in H3 as [H3' H3];
    [|intros ???; apply collect_step|set_solver].
  split; [intros en Hen; set_solver|done].
Qed.

(** ** Staging the records of a mutation *)
Lemma stageEntries_sim opts now d entries stg stg' M :
  foldGo (fun (stg : gmap string memoryEntry) en =>
     _ ← check (badDeadline (entry_Deadline en) now) ErrInvalidDeadline;
     k ← encodeKey opts (entry_Key en);
     Ret (<[k := recordEntry (entry_Value en) (entry_Deadline en)]> stg)) stg entries = Ret stg' ->
  view now (commit (MkStaging stg ∅) d) = M ->
  map_Forall (fun _ e => wfEntry e) stg ->
  view now (commit (MkStaging stg' ∅) d) =
    foldl (fun M en => <[encK opts (entry_Key en) := ARec (entry_Value en) (entry_Deadline en)]> M) M entries /\
  map_Forall (fun _ e => wfEntry e) stg' /\
  (forall k, is_Some (stg' !! k) -> is_Some (stg !! k) \/ exists en, en ∈ entries /\ k = encK opts (entry_Key en)).
Proof.
  revert stg M. induction entries as [|en entries IH]; intros stg M; cbn [foldGo foldl].
  - intros [= <-] HM Hw. eauto.
  - intros (stg1 & H1 & H)%bind_Ret HM Hw.
    apply bind_Ret in H1 as ([] & Hdl%check_Ret & (k & [_ ->]%encodeKey_Ret & [= <-])%bind_Ret).
    fold (encK opts (entry_Key en)) in H. set (k := encK opts (entry_Key en)) in *.
    destruct (IH _ (<[k := ARec (entry_Value en) (entry_Deadline en)]> M) H) as (H1 & H2 & H3).
    + apply map_eq. intros j. rewrite <-HM, lookup_view_commit. cbn. rewrite lookup_empty.
      destruct (decide (j = k)) as [->|Hj].
      * rewrite !lookup_insert_eq. assert (expired _ now = false) as -> by exact Hdl. done.
      * rewrite !lookup_insert_ne, lookup_view_commit by done. cbn. by rewrite lookup_empty.
    + by apply map_Forall_insert_2.
    + split_and!; [done..|]. intros j Hj. destruct (H3 j Hj) as [[e He]|(en' & Hen & ->)].
      * destruct (decide (j = k)) as [->|Hne]; [right; exists en; split; [by left|done]|].
        rewrite lookup_insert_ne in He by done. left. by exists e.
      * right. exists en'. split; [by right|done].
Qed.

Lemma stageDeletes_sim opts now d keys stg del del' M :
  foldGo (fun (del : gmap string bool) key => k ← encodeKey opts key; Ret (<[k := true]> del)) del keys = Ret del' ->
  view now (commit (MkStaging stg del) d) = M ->
  view now (commit (MkStaging stg del') d) = foldl (fun M k => delete (encK opts k) M) M keys /\
  (forall k, is_Some (del' !! k) -> is_Some (del !! k) \/ exists key, key ∈ keys /\ k = encK opts key).
Proof.
  revert del M. induction keys as [|key keys IH]; intros del M; cbn [foldGo foldl].
  - intros [= <-] HM. eauto.
  - intros (del1 & H1 & H)%bind_Ret HM.
    apply bind_Ret in H1 as (k & [_ ->]%encodeKey_Ret & [= <-]).
    fold (encK opts key) in H. set (k := encK opts key) in *.
    destruct (IH _ (delete k M) H) as (H1 & H2).
    + apply map_eq. intros j. rewrite <-HM, lookup_view_commit. cbn.
      destruct (decide (j = k)) as [->|Hj].
      * by rewrite lookup_insert_eq, lookup_delete_eq.
      * by rewrite lookup_insert_ne, lookup_delete_ne, lookup_view_commit by done.
    + split; [done|]. intros j Hj. destruct (H2 j Hj) as [[b Hb]|(key' & Hin & ->)].
      * destruct (decide (j = k)) as [->|Hne]; [right; exists key; split; [by left|done]|].
        rewrite lookup_insert_ne in Hb by done. left. by exists b.
      * right. exists key'. split; [by right|done].
Qed.

Lemma view_commit_empty now d : view now (commit (MkStaging ∅ ∅) d) = view now d.
Proof. apply map_eq. intros k. by rewrite lookup_view_commit; cbn; rewrite !lookup_empty. Qed.

Lemma stageRecords_sim opts now d mu st0 records K :
  validateRecords opts now mu = Ret records \/
    ((forall en, en ∈ mut_Entries mu -> encK opts (entry_Key en) ∈ records) /\
     (forall k, k ∈ mut_DeleteKeys mu -> encK opts k ∈ records)) ->
  stageRecords opts now mu = Ret st0 ->
  simStaging records K now d st0
    (foldl (fun M k => delete (encK opts k) M)
       (foldl (fun M en => <[encK opts (entry_Key en) := ARec (entry_Value en) (entry_Deadline en)]> M)
          (view now d) (mut_Entries mu)) (mut_DeleteKeys mu)).
Proof.
  intros HR (stg & Hs & (del & Hd & [= <-])%bind_Ret)%bind_Ret.
  assert ((forall en, en ∈ mut_Entries mu -> encK opts (entry_Key en) ∈ records) /\
          (forall k, k ∈ mut_DeleteKeys mu -> encK opts k ∈ records)) as [RE RD].
  { destruct HR as [HR|HR]; [by eapply validateRecords_spec|done]. }
  eapply stageEntries_sim in Hs as (V1 & W1 & D1); [|apply view_commit_empty|apply map_Forall_empty].
  eapply stageDeletes_sim in Hd as (V2 & D2); [|exact V1].
  split_and!; [done| |].
  - intros k Hk. cbn. destruct (stg !! k) as [e|] eqn:E.
    + exfalso. apply Hk. destruct (D1 k) as [[? H]|(en & Hen & ->)]; [by rewrite E|by rewrite lookup_empty in H|auto].
    + destruct (del !! k) as [b|] eqn:E'; [|done]. exfalso. apply Hk.
      destruct (D2 k) as [[? H]|(en & Hen & ->)]; [by rewrite E'|by rewrite lookup_empty in H|auto].
  - intros k e He _. by apply (W1 k).
Qed.

(** ** Refinement *)

(** The staging loop computes the documented mutation. *)
Lemma stageGroups_sim opts now d records K pgs st M st' :
  wfData d ->
  (forall pg, pg ∈ pgs ->
    encK opts (sm_Key pg.2) ∉ records /\ K !! encK opts (sm_Key pg.2) = Some (phaseOrdered pg.1)) ->
  simStaging records K now d st M ->
  foldGo (stageGroup opts d now) st pgs = Ret st' ->
  simStaging records K now d st' (foldl (specGroup opts) M pgs).
Proof.
  intros Hwf. revert st M. induction pgs as [|pg pgs IH]; intros st M HK HS; cbn [foldGo foldl].
  - by intros [= <-].
  - intros (st1 & H1 & H)%bind_Ret. destruct (HK pg) as [R1 K1]; [by left|].
    eapply IH; [|by eapply stageGroup_sim|done]. intros pg' Hin. apply HK. by right.
Qed.

Lemma commit_wf records K now d st M :
  wfData d -> simStaging records K now d st M -> wfData (commit st d).
Proof.
  intros Hwf (_ & _ & Hw) k e. unfold commit. rewrite map_lookup_filter, lookup_union.
  destruct (stg_staged st !! k) as [e'|] eqn:Es; intros H.
  - destruct (d !! k); cbn in H; simplify_option_eq; by apply (Hw k).
  - rewrite left_id_L in H by apply _. destruct (d !! k) as [e'|] eqn:Ed; [|done].
    simplify_option_eq. by apply (Hwf k).
Qed.

Lemma ApplyMutation_inv e mu m m' r :
  Memory_ApplyMutation e mu m = (m', r) ->
  (m' = m /\ r <> Ret true /\
    (r = Ret false -> checkConditions (mem_opts m) (mem_data m) (clock e 1) (mut_Conditions mu) = Ret false)) \/
  (r = Ret true /\ exists st0 st,
     Mutation_validate e (mem_opts m) mu = Ret tt /\
     checkConditions (mem_opts m) (mem_data m) (clock e 1) (mut_Conditions mu) = Ret true /\
     stageRecords (mem_opts m) (clock e 1) mu = Ret st0 /\
     foldGo (stageGroup (mem_opts m) (mem_data m) (clock e 1)) st0 (phases mu) = Ret st /\
     m' = setData m (commit st (mem_data m))).
Proof.
  unfold Memory_ApplyMutation, mbind, ST_bind, getST, lift. cbn.
  destruct (Mutation_validate e (mem_opts m) mu) as [[]|err|]; [|by intros [= <- <-]; left; split_and!..].
  destruct (checkCtx e 1) as [[]|err|]; [|by intros [= <- <-]; left; split_and!..].
  destruct (checkConditions _ _ _ _) as [[]|err|]; cbn; [|by intros [= <- <-]; left; split_and!..].
  destruct (stageRecords _ _ _) as [st0|err|]; [|by intros [= <- <-]; left; split_and!..].
  destruct (foldGo _ _ _) as [st|err|] eqn:E; [|by intros [= <- <-]; left; split_and!..].
  cbn. intros [= <- <-]. right. eauto 10.
Qed.

(** A mutation that returns [true] has exactly the documented effect on a
    well-formed store; otherwise nothing changed. *)
Lemma ApplyMutation_refines_lemma e mu m m' r :
  wfMemory m -> Memory_ApplyMutation e mu m = (m', r) ->
  let M := view (clock e 1) (mem_data m) in
  match r with
  | Ret true =>
      Forall (specCondition (mem_opts m) M) (mut_Conditions mu) /\
      view (clock e 1) (mem_data m') = specMutation (mem_opts m) mu M /\
      wfMemory m' /\ mem_opts m' = mem_opts m
  | Ret false => ~ Forall (specCondition (mem_opts m) M) (mut_Conditions mu) /\ m' = m
  | _ => m' = m
  end.
Proof.
  intros Hwf [(-> & Hr & Hc)|(-> & st0 & st & Hv & Hc & Hs & Hst & ->)]%ApplyMutation_inv; cbn zeta.
  - destruct r as [[]|err|]; try done. split; [|done].
    rewrite <-(checkConditions_spec _ _ _ _ _ (Hc eq_refl)). done.
  - unfold Mutation_validate in Hv. apply bind_Ret in Hv as ([] & _ & Hv).
    apply bind_Ret in Hv as (records & HR & Hv). apply bind_Ret in Hv as (K & HK & _).
    assert (simStaging records K (clock e 1) (mem_data m) st (specMutation (mem_opts m) mu (view (clock e 1) (mem_data m)))) as HS.
    { eapply stageGroups_sim; [done|by eapply validate_groups| |exact Hst].
      eapply stageRecords_sim; [right; by eapply validateRecords_spec|done]. }
    split_and!; cbn; [by apply (checkConditions_spec _ _ _ _ _ Hc)| |by eapply commit_wf|done].
    apply HS.
Qed.

(** ** Well-formedness of every operation *)
Lemma prepare_wf opts now es l : prepare opts now es = Ret l -> Forall (fun p => wfEntry p.2) l.
Proof.
  unfold prepare. revert l. induction es as [|en es IH]; intros l; cbn [mapGo].
  - intros [= <-]. constructor.
  - intros (p & Hp & (ps & Hps & [= <-])%bind_Ret)%bind_Ret.
    apply bind_Ret in Hp as (_ & _ & (k & _ & [= <-])%bind_Ret). constructor; [done|auto].
Qed.

Lemma mapRecords_wf opts es l :
  mapGo (fun x => k ← encodeKey opts (entry_Key x); Ret (k, recordEntry (entry_Value x) (entry_Deadline x))) es = Ret l ->
  Forall (fun p => wfEntry p.2) l.
Proof.
  revert l. induction es as [|en es IH]; intros l; cbn [mapGo].
  - intros [= <-]. constructor.
  - intros (p & (k & _ & [= <-])%bind_Ret & (ps & Hps & [= <-])%bind_Ret)%bind_Ret.
    constructor; [done|auto].
Qed.

(** Case analysis on the guards of a call, in order. *)
Ltac call_cases :=
  repeat match goal with
  | |- context [match ?x with _ => _ end] => destruct x eqn:?; cbn; try done
  end.

(** [Get] in closed form. *)
Lemma Get_eq e key m :
  Memory_Get e key m =
    match checkCtx e 0, encodeKey (mem_opts m) key with
    | Ret _, Ret k =>
        match mem_data m !! k with
        | None => (m, Fail ErrNotFound)
        | Some entry =>
            if expired entry (clock e 0)
            then (if expired entry (clock e 1) then setData m (delete k (mem_data m)) else m, Fail ErrNotFound)
            else (m, match me_members entry with Some _ => Fail ErrWrongType | None => Ret (me_value entry) end)
        end
    | Ret _, Fail err => (m, Fail err)
    | Ret _, Panic => (m, Panic)
    | Fail err, _ => (m, Fail err)
    | Panic, _ => (m, Panic)
    end.
Proof.
  unfold Memory_Get, encodeM, mbind, ST_bind, getST, lift, failST, putST, mret, ST_ret. cbn.
  destruct (checkCtx e 0); [|done..]. destruct (encodeKey _ _) as [k|?|]; [|done..].
  destruct (mem_data m !! k) as [entry|] eqn:Ek; [|done].
  destruct (expired entry (clock e 0)).
  - rewrite Ek. by destruct (expired entry (clock e 1)).
  - by destruct (me_members entry).
Qed.

Lemma Get_wf e key : preserves wfMemory (Memory_Get e key).
Proof.
  intros m Hm. rewrite Get_eq. call_cases. by apply wfData_delete.
Qed.
Lemma Set_wf e key v : preserves wfMemory (Memory_Set e key v).
Proof.
  intros m Hm. unfold Memory_Set, encodeM, mbind, ST_bind, getST, lift, putST. cbn.
  call_cases. simplify_eq. by apply wfData_insert.
Qed.
Lemma Delete_wf e key : preserves wfMemory (Memory_Delete e key).
Proof.
  intros m Hm. unfold Memory_Delete, encodeM, mbind, ST_bind, getST, lift, putST. cbn.
  call_cases. simplify_eq. by apply wfData_delete.
Qed.
Lemma BatchSet_wf e es : preserves wfMemory (Memory_BatchSet e es).
Proof.
  intros m Hm. unfold Memory_BatchSet, mbind, ST_bind, getST, lift, putST. cbn.
  call_cases. simplify_eq. apply wfData_insertAll; [by eapply prepare_wf|done].
Qed.
Lemma BatchDelete_wf e ks : preserves wfMemory (Memory_BatchDelete e ks).
Proof.
  unfold Memory_BatchDelete. apply preserves_bind; [apply preserves_lift|intros _].
  apply preserves_foldST. intros [] key m Hm.
  unfold encodeM, mbind, ST_bind, getST, lift, putST. cbn. call_cases. simplify_eq. by apply wfData_delete.
Qed.
Lemma BatchMutate_wf e es ks : preserves wfMemory (Memory_BatchMutate e es ks).
Proof.
  intros m Hm. unfold Memory_BatchMutate, mbind, ST_bind, getST, lift, putST. cbn.
  call_cases. simplify_eq. apply wfData_deleteAll, wfData_insertAll; [by eapply prepare_wf|done].
Qed.
Lemma CreateIfAllAbsent_wf e gs es : preserves wfMemory (Memory_CreateIfAllAbsent e gs es).
Proof.
  intros m Hm. unfold Memory_CreateIfAllAbsent, checkST, mbind, ST_bind, getST, lift, putST, mret, ST_ret. cbn.
  call_cases; simplify_eq; try done. apply wfData_insertAll; [by eapply prepare_wf|done].
Qed.
Lemma CompareAndMutate_wf e g x es ks : preserves wfMemory (Memory_CompareAndMutate e g x es ks).
Proof.
  intros m Hm. unfold Memory_CompareAndMutate, mbind, ST_bind, getST, lift, putST, mret, ST_ret. cbn.
  call_cases; simplify_eq; try done. apply wfData_deleteAll, wfData_insertAll; [by eapply mapRecords_wf|done].
Qed.
Lemma ApplyMutation_wf e mu : preserves wfMemory (Memory_ApplyMutation e mu).
Proof.
  intros m Hm. destruct (Memory_ApplyMutation e mu m) as [m' r] eqn:E. cbn.
  pose proof (ApplyMutation_refines_lemma _ _ _ _ _ Hm E) as H. destruct r as [[]|err|]; cbn in H; naive_solver.
Qed.
Lemma NewMemory_wf opts : wfMemory (NewMemory opts).
Proof. apply map_Forall_empty. Qed.
