(* ===== verification/KVProps.v ===== *)
(** * kv: the properties of keys and of the in-memory store

    The refinement theorem of [ApplyMutation], conditional writes ([CompareAndMutate],
    [CreateIfAbsent]) and their effect on the view, reads, ordered ranges, the encoding of
    keys, and the representation invariant in every reachable store. *)

From S2P Require Import Prelude GoStrings KVKey KVMemory KVSpec.
From stdpp Require Import gmap strings list sorting.

Open Scope Z_scope.

(** ** Conditional writes on the view *)

Lemma firstConflict_spec opts d now guards c :
  firstConflict opts d now guards = Ret c ->
  match c with
  | None => Forall (fun g => view now d !! encK opts (entry_Key g) = None) guards
  | Some (k, v) => exists pre g post entry, guards = pre ++ g :: post /\ k = entry_Key g /\
      Forall (fun g => view now d !! encK opts (entry_Key g) = None) pre /\
      d !! encK opts k = Some entry /\ expired entry now = false /\ v = me_value entry
  end.
Proof.
  induction guards as [|g guards IH]; cbn [firstConflict].
  - intros [= <-]. constructor.
  - intros (k & [_ ->]%encodeKey_Ret & H)%bind_Ret. fold (encK opts (entry_Key g)) in H. cbn in H.
    assert (view now d !! encK opts (entry_Key g) = None -> firstConflict opts d now guards = Ret c ->
      match c with
      | None => Forall (fun g => view now d !! encK opts (entry_Key g) = None) (g :: guards)
      | Some (k, v) => exists pre g' post entry, g :: guards = pre ++ g' :: post /\ k = entry_Key g' /\
          Forall (fun g => view now d !! encK opts (entry_Key g) = None) pre /\
          d !! encK opts k = Some entry /\ expired entry now = false /\ v = me_value entry
      end) as Hcons.
    { intros Hg Hrec. specialize (IH Hrec). destruct c as [[k v]|]; [|by constructor].
      destruct IH as (pre & g' & post & entry & -> & H1 & H2 & H3). exists (g :: pre), g', post, entry.
      split_and!; try done; try apply H3. by constructor. }
    rewrite lookup_view in Hcons.
    destruct (d !! encK opts (entry_Key g)) as [entry|] eqn:E; [|by apply Hcons].
    destruct (expired entry now) eqn:X; [by apply Hcons|]. injection H as <-.
    exists [], g, guards, entry. by split_and!.
Qed.

(** Writing prepared records: the effect on the view. *)
Lemma prepare_view opts now es l d M :
  prepare opts now es = Ret l -> view now d = M ->
  view now (insertAll l d) =
    foldl (fun M en => <[encK opts (entry_Key en) := ARec (entry_Value en) (entry_Deadline en)]> M) M es.
Proof.
  unfold prepare. revert l d M. induction es as [|en es IH]; intros l d M; cbn [mapGo foldl].
  - by intros [= <-].
  - intros (p & Hp & (ps & Hps & [= <-])%bind_Ret)%bind_Ret HM.
    apply bind_Ret in Hp as ([] & Hdl%check_Ret & (k & [_ ->]%encodeKey_Ret & [= <-])%bind_Ret).
    cbn. apply IH; [done|]. rewrite <-HM. apply map_eq. intros j.
    fold (encK opts (entry_Key en)). set (k := encK opts (entry_Key en)).
    destruct (decide (j = k)) as [->|Hj].
    + rewrite lookup_view, !lookup_insert_eq. assert (expired _ now = false) as -> by exact Hdl. done.
    + by rewrite lookup_view, !lookup_insert_ne, lookup_view by done.
Qed.

Lemma deleteAll_view opts now keys l d M :
  mapGo (encodeKey opts) keys = Ret l -> view now d = M ->
  view now (deleteAll l d) = foldl (fun M k => delete (encK opts k) M) M keys.
Proof.
  revert l d M. induction keys as [|key keys IH]; intros l d M; cbn [mapGo foldl].
  - by intros [= <-].
  - intros (p & [_ ->]%encodeKey_Ret & (ps & Hps & [= <-])%bind_Ret)%bind_Ret HM.
    cbn. apply IH; [done|]. rewrite <-HM. apply map_eq. intros j.
    destruct (decide (j = encK opts key)) as [->|Hj].
    + by rewrite lookup_view, !lookup_delete_eq.
    + by rewrite lookup_view, !lookup_delete_ne, lookup_view by done.
Qed.

(** ** The range query as a pure function of the collection *)
Definition rangeSelect (q : OrderedRange) (s : gset string) : list string :=
  take (Z.to_nat (or_Limit q)) (sortStrings (filter (fun m => inRange q m = true) (elements s))).

Lemma rangeSelect_min q (l : list string) :
  take (Z.to_nat (Z.min (Z.of_nat (length l)) (or_Limit q))) l = take (Z.to_nat (or_Limit q)) l.
Proof.
  destruct (Z.le_ge_cases (or_Limit q) (Z.of_nat (length l))) as [H|H].
  - by rewrite Z.min_r by done.
  - rewrite Z.min_l by done. rewrite !take_ge; [done| |]; lia.
Qed.

(** The sorted members in range, of which the query returns a prefix. *)
Definition rangeAll (q : OrderedRange) (s : gset string) : list string :=
  sortStrings (filter (fun m => inRange q m = true) (elements s)).

Lemma rangeAll_strict q s : strictSorted (rangeAll q s).
Proof. apply sortStrings_strict, NoDup_filter, NoDup_elements. Qed.

Lemma elem_of_rangeAll q s x : x ∈ rangeAll q s <-> x ∈ s /\ inRange q x = true.
Proof. unfold rangeAll. rewrite sortStrings_perm, list_elem_of_filter, elem_of_elements. tauto. Qed.

Lemma strictSorted_app l k :
  strictSorted (l ++ k) -> strictSorted l /\ strictSorted k /\ forall x y, x ∈ l -> y ∈ k -> strLt x y.
Proof.
  unfold strictSorted. induction l as [|a l IH]; cbn; intros H.
  - split_and!; [constructor|done|]. intros x y Hx. by apply not_elem_of_nil in Hx.
  - apply StronglySorted_inv in H as [H HF]. destruct (IH H) as (H1 & H2 & H3).
    rewrite Forall_app in HF. destruct HF as [F1 F2]. split_and!; [by constructor|done|].
    intros x y [->|Hx]%elem_of_cons Hy; [|by apply H3]. rewrite Forall_forall in F2. by apply F2.
Qed.

Lemma strictSorted_take n l : strictSorted l -> strictSorted (take n l).
Proof. intros H. apply (strictSorted_app _ (drop n l)). by rewrite take_drop. Qed.

(** ** Reachable in-memory stores *)

(** One completed call of any public method of a [Memory]. *)
Inductive memStep : Memory -> Memory -> Prop :=
  | step_Get e k m : memStep m (Memory_Get e k m).1
  | step_Set e k v m : memStep m (Memory_Set e k v m).1
  | step_Delete e k m : memStep m (Memory_Delete e k m).1
  | step_BatchSet e es m : memStep m (Memory_BatchSet e es m).1
  | step_BatchDelete e ks m : memStep m (Memory_BatchDelete e ks m).1
  | step_BatchMutate e es ks m : memStep m (Memory_BatchMutate e es ks m).1
  | step_CreateIfAbsent e g es m : memStep m (Memory_CreateIfAbsent e g es m).1
  | step_CreateIfAllAbsent e gs es m : memStep m (Memory_CreateIfAllAbsent e gs es m).1
  | step_CompareAndMutate e g x es ks m : memStep m (Memory_CompareAndMutate e g x es ks m).1
  | step_ApplyMutation e mu m : memStep m (Memory_ApplyMutation e mu m).1
  | step_AddMembers e k ms m : memStep m (Memory_AddMembers e k ms m).1
  | step_RemoveMembers e k ms m : memStep m (Memory_RemoveMembers e k ms m).1
  | step_HasMember e k x m : memStep m (Memory_HasMember e k x m).1
  | step_ListMembers e k m : memStep m (Memory_ListMembers e k m).1
  | step_RangeOrderedMembers e k q m : memStep m (Memory_RangeOrderedMembers e k q m).1.

Definition memReachable (opts : option Options) (m : Memory) : Prop := rtc memStep (NewMemory opts) m.

Lemma lookupCollection_readOnly ord now key : readOnly (lookupCollection ord now key).
Proof.
  intros m. unfold lookupCollection, encodeM, mbind, ST_bind, getST, lift, failST, mret, ST_ret. cbn. call_cases.
Qed.

Lemma bind_readOnly {S E A B} (m : ST S E A) (f : A -> ST S E B) :
  readOnly m -> (forall a, readOnly (f a)) -> readOnly (m ≫= f).
Proof.
  intros Hm Hf s. unfold mbind, ST_bind. specialize (Hm s).
  destruct (m s) as [s' [a|e|]]; cbn in *; subst; [apply Hf|done..].
Qed.

Lemma collection_read_readOnly {A} (g : Go kvError unit) ord now key (f : option (gset string) -> A) :
  readOnly (_ ← lift g; s ← lookupCollection ord now key; mret (f s) : ST Memory kvError A).
Proof.
  apply bind_readOnly; [by intros s|intros _]. apply bind_readOnly; [apply lookupCollection_readOnly|by intros o s].
Qed.

Lemma memStep_wf m m' : memStep m m' -> wfMemory m -> wfMemory m'.
Proof.
  destruct 1; intros Hm.
  - by apply Get_wf.
  - by apply Set_wf.
  - by apply Delete_wf.
  - by apply BatchSet_wf.
  - by apply BatchDelete_wf.
  - by apply BatchMutate_wf.
  - revert m Hm. apply preserves_bind; [apply CreateIfAllAbsent_wf|by intros r m Hm].
  - by apply CreateIfAllAbsent_wf.
  - by apply CompareAndMutate_wf.
  - by apply ApplyMutation_wf.
  - revert m Hm. apply preserves_bind; [apply ApplyMutation_wf|by intros r m Hm].
  - revert m Hm. apply preserves_bind; [apply ApplyMutation_wf|by intros r m Hm].
  - unfold Memory_HasMember. by rewrite collection_read_readOnly.
  - unfold Memory_ListMembers. by rewrite collection_read_readOnly.
  - unfold Memory_RangeOrderedMembers. by rewrite collection_read_readOnly.
Qed.

(** ** Reads through the view *)

Lemma Get_result e key m :
  (Memory_Get e key m).2 =
    (_ ← checkCtx e 0; k ← encodeKey (mem_opts m) key;
     match view (clock e 0) (mem_data m) !! k with
     | Some (ARec v _) => Ret v
     | Some (ASet _ _) => Fail ErrWrongType
     | None => Fail ErrNotFound
     end).
Proof.
  rewrite Get_eq. destruct (checkCtx e 0); [|done..]. destruct (encodeKey _ _) as [k|?|]; [|done..].
  cbn. rewrite lookup_view. unfold absEntry. call_cases.
Qed.

Lemma Get_state e key m t :
  clock e 1 <= t ->
  view t (mem_data (Memory_Get e key m).1) = view t (mem_data m) /\ mem_opts (Memory_Get e key m).1 = mem_opts m.
Proof.
  intros Ht. rewrite Get_eq. destruct (checkCtx e 0); [|done..].
  destruct (encodeKey _ _) as [k|?|]; [|done..]. destruct (mem_data m !! k) as [entry|] eqn:Ek; [|done].
  destruct (expired entry (clock e 0)), (expired entry (clock e 1)) eqn:X; try done. cbn. split; [|done].
  apply map_eq. intros j. rewrite !lookup_view. destruct (decide (j = k)) as [->|Hj].
  - rewrite lookup_delete_eq, Ek. by rewrite (expired_mono entry (clock e 1) t).
  - by rewrite lookup_delete_ne.
Qed.

(** The result of [Get] depends only on the view at the instant it looks. *)
Lemma Get_result_viewEq e key m1 m2 :
  mem_opts m1 = mem_opts m2 -> viewEq (clock e 0) (mem_data m1) (mem_data m2) ->
  (Memory_Get e key m1).2 = (Memory_Get e key m2).2.
Proof. intros Ho Hv. by rewrite !Get_result, Ho, Hv. Qed.

(** What [batchGet] stores for index [i]. *)
Definition batchResult (stop : nat -> option kvError) (r : Go kvError string) (i : nat) : GetResult :=
  match stop i with
  | Some err => MkGetResult EmptyString (Some err)
  | None => match r with
            | Ret v => MkGetResult v None
            | Fail ErrWrongType => MkGetResult EmptyString (Some ErrNotFound)
            | Fail err => MkGetResult EmptyString (Some err)
            | Panic => MkGetResult EmptyString None
            end
  end.

Lemma batchGetStep_eq stop envs keys w results i key :
  keys !! i = Some key -> cleanKey (mem_opts w) key ->
  let '(w', results') := batchGetStep Memory_Get stop envs keys (w, results) i in
  (w' = w \/ w' = (Memory_Get (envs i) key w).1) /\
  results' = <[i := batchResult stop (Memory_Get (envs i) key w).2 i]> results.
Proof.
  intros Hk Hc. unfold batchGetStep, batchResult. rewrite Hk. destruct (stop i) as [err|]; [by split; [left|]|].
  assert ((Memory_Get (envs i) key w).2 <> Panic) as Hp.
  { rewrite Get_result, encodeKey_clean by done. unfold checkCtx. destruct (ctxErr (envs i) 0); [done|].
    cbn. call_cases. }
  destruct (Memory_Get (envs i) key w) as [w' r]. cbn in *. split; [by right|].
  destruct r as [v|err|]; [done| |done]. by destruct err.
Qed.

Lemma batchGet_run stop envs keys m w results schedule :
  Forall (cleanKey (mem_opts m)) keys -> mem_opts w = mem_opts m -> NoDup schedule ->
  StronglySorted (fun j i => clock (envs j) 1 <= clock (envs i) 0) schedule ->
  Forall (fun i => (i < length keys)%nat /\ viewEq (clock (envs i) 0) (mem_data w) (mem_data m)) schedule ->
  length results = length keys ->
  let results' := (foldl (batchGetStep Memory_Get stop envs keys) (w, results) schedule).2 in
  length results' = length keys /\
  forall i, results' !! i =
    if bool_decide (i ∈ schedule)
    then key ← keys !! i; Some (batchResult stop (Memory_Get (envs i) key m).2 i)
    else results !! i.
Proof.
  intros HC. revert w results. induction schedule as [|j schedule IH]; intros w results Ho HN HS HF HL; [done|].
  apply NoDup_cons in HN as [Hj HN]. apply StronglySorted_inv in HS as [HS Hclk].
  apply Forall_cons in HF as [[Hlt Hv] HF]. cbn [foldl].
  destruct (lookup_lt_is_Some_2 keys j Hlt) as [key Hkey].
  pose proof (batchGetStep_eq stop envs keys w results j key Hkey) as Hstep.
  rewrite Ho in Hstep. specialize (Hstep (proj1 (Forall_lookup _ _) HC _ _ Hkey)).
  destruct (batchGetStep _ _ _ _ (w, results) j) as [w' results'].
  destruct Hstep as [Hw' ->].
  assert (mem_opts w' = mem_opts m /\ forall t, clock (envs j) 1 <= t -> view t (mem_data w') = view t (mem_data w)) as [Ho' Hv'].
  { destruct Hw' as [->| ->]; [done|]. split.
    - rewrite <-Ho. by apply (Get_state (envs j) key w (clock (envs j) 1)).
    - intros t Ht. by apply Get_state. }
  destruct (IH w' (<[j := batchResult stop (Memory_Get (envs j) key w).2 j]> results)) as [L1 L2]; try done.
  - rewrite !Forall_forall in *. intros i Hi. split; [by apply HF|]. unfold viewEq.
    rewrite Hv' by auto. by apply HF.
  - by rewrite length_insert.
  - cbn zeta. split; [done|]. intros i. rewrite L2.
    destruct (decide (i = j)) as [->|Hne].
    + rewrite bool_decide_eq_false_2 by done. rewrite bool_decide_eq_true_2 by (by left).
      rewrite list_lookup_insert_eq by lia. rewrite Hkey. cbn. by rewrite (Get_result_viewEq _ _ w m).
    + rewrite list_lookup_insert_ne by done.
      destruct (decide (i ∈ schedule)) as [Hi|Hi].
      * rewrite !bool_decide_eq_true_2; [done|by right|done].
      * rewrite !bool_decide_eq_false_2; [done| |done]. rewrite elem_of_cons. tauto.
Qed.

(** ** Properties *)

(** [Options.encode] panics exactly on keys with a segment that contains the
    separator; otherwise it fills a buffer of the precomputed length, [decode]
    restores every non-empty key, and distinct non-empty keys never collide. *)
Theorem key_encoding_correct (o : option Options) (k : Key) :
  (encodeKey o k = Panic <-> ~ cleanKey o k) /\
  (forall s, encodeKey o k = Ret s -> String.length s = encodeLen true k /\ (k <> [] -> decodeKey o s = k)) /\
  (forall k2 s, encodeKey o k = Ret s -> encodeKey o k2 = Ret s -> k <> [] -> k2 <> [] -> k = k2).
Proof.
  split_and!.
  - destruct (decide (cleanKey o k)) as [H|H].
    + rewrite encodeKey_clean by done. naive_solver.
    + rewrite encodeKey_not_clean by done. naive_solver.
  - intros s [Hc ->]%encodeKey_Ret. split; [|by apply decodeKey_join].
    by rewrite <-encodeFill_join, encodeFill_length.
  - intros k2 s [H1 ->]%encodeKey_Ret [H2 E]%encodeKey_Ret N1 N2.
    by apply (joinByte_inj o).
Qed.

(** C1: [Memory.ApplyMutation] implements the documented mutation: on a well-formed
    store it returns true exactly with every condition met on the live view, and
    then the new view is the old one with records written, keys deleted, members
    added and members removed, in that order; when it returns false a condition
    fails, and on false, error or panic the store is untouched. *)
Theorem ApplyMutation_refines (e : Env) (mu : Mutation) (m : Memory) (H : wfMemory m) :
  let '(m', r) := Memory_ApplyMutation e mu m in
  let M := view (clock e 1) (mem_data m) in
  match r with
  | Ret true =>
      Forall (specCondition (mem_opts m) M) (mut_Conditions mu) /\
      view (clock e 1) (mem_data m') = specMutation (mem_opts m) mu M /\
      wfMemory m' /\ mem_opts m' = mem_opts m
  | Ret false => ~ Forall (specCondition (mem_opts m) M) (mut_Conditions mu) /\ m' = m
  | _ => m' = m
  end.
Proof.
  destruct (Memory_ApplyMutation e mu m) as [m' r] eqn:E. by apply ApplyMutation_refines_lemma.
Qed.

(** A mutation that writes a record, moves a member between collections and is
    conditional on an absent key. *)
Definition exampleMutation : Mutation :=
  MkMutation [MkCondition ["user"; "1"] None]
    [MkEntry ["user"; "1"] "alice" 0] [["old"]]
    [MkSetMembers ["team"; "red"] ["1"; "2"] 5] [MkSetMembers ["team"; "red"] ["2"] 0]
    [MkSetMembers ["due"] ["2026/a"; "2025/b"] 0] [].

Lemma ApplyMutation_refines_witness :
  (Memory_ApplyMutation (envAt 10) exampleMutation (NewMemory None)).2 = Ret true /\
  wfMemory (Memory_ApplyMutation (envAt 10) exampleMutation (NewMemory None)).1.
Proof.
  split; [vm_compute; reflexivity|].
  pose proof (ApplyMutation_refines (envAt 10) exampleMutation (NewMemory None) (NewMemory_wf None)) as H.
  destruct (Memory_ApplyMutation (envAt 10) exampleMutation (NewMemory None)) as [m' r] eqn:E.
  assert (r = Ret true) as -> by (apply (f_equal snd) in E; vm_compute in E; by symmetry).
  apply H.
Defined.

(** Every store reachable from [NewMemory] by public calls (each completed with
    any outcome, under any clock and context) is well formed: collections are
    non-empty, carry no value and no deadline, and records are not flagged ordered. *)
Theorem memory_reachable_wf (opts : option Options) (m : Memory) (H : memReachable opts m) : wfMemory m.
Proof.
  unfold memReachable in H. apply rtc_ind_r with (P := wfMemory) in H; [done|apply NewMemory_wf|].
  intros m1 m2 _ Hs Hm. by eapply memStep_wf.
Qed.

Lemma memory_reachable_wf_witness :
  wfMemory (Memory_AddMembers (envAt 1) ["team"] ["a"] (NewMemory None)).1.
Proof.
  apply (memory_reachable_wf None). eapply rtc_l; [apply step_AddMembers|]. apply rtc_refl.
Defined.

(** [Memory.Get] returns what the live view holds at the instant it reads the
    clock (the value, [ErrWrongType] on a collection, [ErrNotFound] otherwise), and
    its removal of expired entries is invisible to every later reader. *)
Theorem Get_observes_live_view (e : Env) (key : Key) (m : Memory)
    (Hctx : ctxErr e 0 = None) (Hkey : cleanKey (mem_opts m) key) :
  let '(m', r) := Memory_Get e key m in
  r = match view (clock e 0) (mem_data m) !! encK (mem_opts m) key with
      | Some (ARec v _) => Ret v
      | Some (ASet _ _) => Fail ErrWrongType
      | None => Fail ErrNotFound
      end /\
  (forall t, clock e 1 <= t -> view t (mem_data m') = view t (mem_data m)) /\
  mem_opts m' = mem_opts m.
Proof.
  destruct (Memory_Get e key m) as [m' r] eqn:E. split_and!.
  - pose proof (Get_result e key m) as Hr. rewrite E in Hr. cbn in Hr. rewrite Hr.
    unfold checkCtx. rewrite Hctx, encodeKey_clean by done. done.
  - intros t Ht. by pose proof (proj1 (Get_state e key m t Ht)) as Hv; rewrite E in Hv.
  - by pose proof (proj2 (Get_state e key m (clock e 1) ltac:(lia))) as Hv; rewrite E in Hv.
Qed.

Lemma Get_observes_live_view_witness :
  let m := MkMemory {["k" := recordEntry "v" 5]} None in
  (Memory_Get (envAt 4) ["k"] m).2 = Ret "v" /\ (Memory_Get (envAt 5) ["k"] m).2 = Fail ErrNotFound.
Proof.
  intros m.
  pose proof (Get_observes_live_view (envAt 4) ["k"] m eq_refl ltac:(repeat constructor)) as H4.
  pose proof (Get_observes_live_view (envAt 5) ["k"] m eq_refl ltac:(repeat constructor)) as H5.
  destruct (Memory_Get (envAt 4) ["k"] m) as [m4 r4], (Memory_Get (envAt 5) ["k"] m) as [m5 r5].
  destruct H4 as [-> _], H5 as [-> _]. split; vm_compute; reflexivity.
Defined.

(** Restarting a range after a member of its answer gives the rest of the answer. *)
Lemma inRange_iff q x :
  inRange q x = true <->
  (forall a, or_After q = Some a -> strLt a x) /\ (forall b, or_Before q = Some b -> strLt x b).
Proof.
  unfold inRange, leStr. rewrite andb_true_iff. f_equiv.
  - destruct (or_After q) as [a|]; [|naive_solver]. rewrite negb_true_iff, bool_decide_eq_false.
    split; [intros H a' [= <-]; by destruct (strLe_or_lt x a)|intros H; by apply strLt_not_le, H].
  - destruct (or_Before q) as [b|]; [|naive_solver]. rewrite negb_true_iff, bool_decide_eq_false.
    split; [intros H b' [= <-]; by destruct (strLe_or_lt b x)|intros H; by apply strLt_not_le, H].
Qed.

Lemma rangeAll_after q s pre last rest :
  rangeAll q s = pre ++ last :: rest ->
  rangeAll (MkOrderedRange (Some last) (or_Before q) (or_Limit q)) s = rest.
Proof.
  intros E. pose proof (rangeAll_strict q s) as HS. rewrite E in HS.
  apply strictSorted_app in HS as (_ & HS & Hpre). apply StronglySorted_inv in HS as [HSr Hlast].
  rewrite Forall_forall in Hlast. apply strictSorted_ext; [apply rangeAll_strict|done|].
  intros x. assert (x ∈ rangeAll q s <-> x ∈ pre \/ x = last \/ x ∈ rest) as Hx by (rewrite E; set_solver).
  assert (last ∈ s /\ inRange q last = true) as [_ Hl] by (apply elem_of_rangeAll; rewrite E; set_solver).
  rewrite elem_of_rangeAll, inRange_iff in *. cbn. split.
  - intros (Hs & Ha & Hb). specialize (Ha _ eq_refl).
    assert (x ∈ pre \/ x = last \/ x ∈ rest) as [Hp|[->|?]]; [| |by destruct (strLt_irrefl last)|done].
    + apply Hx. split_and!; [done| |done]. intros a Haq. eapply strLt_trans; [|done]. by apply Hl.
    + destruct (strLt_irrefl x). eapply strLt_trans; [|exact Ha]. apply Hpre; [done|by left].
  - intros Hr. destruct (proj2 Hx) as (Hs & _ & Hb); [by right; right|]. split_and!; [done| |done].
    intros a [= <-]. by apply Hlast.
Qed.

Lemma Range_inv e key q m m' l :
  Memory_RangeOrderedMembers e key q m = (m', Ret l) ->
  m' = m /\ 0 < or_Limit q /\
  l = take (Z.to_nat (or_Limit q)) (rangeAll q (setOf (view (clock e 0) (mem_data m)) (encK (mem_opts m) key))).
Proof.
  unfold Memory_RangeOrderedMembers, OrderedRange_validate, lookupCollection, encodeM, mbind, ST_bind, getST, lift, failST, mret, ST_ret.
  cbn. destruct (checkCtx e 0); [|done..]. cbn. unfold check.
  destruct (or_Limit q <=? 0) eqn:HL; [done|]. apply Z.leb_gt in HL.
  destruct (encodeKey (mem_opts m) key) as [k|?|] eqn:Ek; [|done..]. apply encodeKey_Ret in Ek as [_ ->].
  fold (encK (mem_opts m) key). unfold setOf. rewrite lookup_view.
  assert (take (Z.to_nat (or_Limit q)) (rangeAll q ∅) = []) as Hnil by (unfold rangeAll; rewrite elements_empty; apply take_nil).
  destruct (mem_data m !! encK (mem_opts m) key) as [entry|]; [|intros [= <- <-]; by rewrite Hnil].
  destruct (expired entry (clock e 0)); [intros [= <- <-]; by rewrite Hnil|]. unfold absEntry.
  destruct (me_members entry) as [s|]; [|done]. destruct (Bool.eqb _ _); [|done].
  intros [= <- <-]. split_and!; [done..|]. apply rangeSelect_min.
Qed.

(** A successful [RangeOrderedMembers] returns the first [Limit] members of the
    live ordered collection that lie strictly between the bounds, in strictly
    increasing bytewise order; and the page that starts after its last member
    continues it without gap or repetition. *)
Theorem RangeOrderedMembers_correct (e : Env) (key : Key) (q : OrderedRange) (m m' : Memory) (l : list string)
    (H : Memory_RangeOrderedMembers e key q m = (m', Ret l)) :
  let s := setOf (view (clock e 0) (mem_data m)) (encK (mem_opts m) key) in
  m' = m /\ Z.of_nat (length l) <= or_Limit q /\
  strictSorted l /\
  (forall x, x ∈ l -> x ∈ s /\ inRange q x = true) /\
  (forall x y, x ∈ l -> y ∈ s -> inRange q y = true -> y ∉ l -> strLt x y) /\
  (forall y, y ∈ s -> inRange q y = true -> y ∉ l -> Z.of_nat (length l) = or_Limit q) /\
  (forall pre last n, l = pre ++ [last] ->
     l ++ take n (rangeAll (MkOrderedRange (Some last) (or_Before q) (or_Limit q)) s) =
     take (length l + n) (rangeAll q s)).
Proof.
  apply Range_inv in H as (-> & HL & ->). intros s. fold s.
  set (A := rangeAll q s). set (n := Z.to_nat (or_Limit q)).
  assert (strictSorted (take n A ++ drop n A)) as (HS1 & HS2 & Hlt)%strictSorted_app.
  { rewrite take_drop. apply rangeAll_strict. }
  assert (forall x, x ∈ A <-> x ∈ take n A \/ x ∈ drop n A) as HA.
  { intros x. by rewrite <-elem_of_app, take_drop. }
  split_and!; try done.
  - rewrite length_take. lia.
  - intros x Hx. apply elem_of_rangeAll, HA. by left.
  - intros x y Hx Hy Hr Hn. apply Hlt; [done|].
    destruct (proj1 (HA y)) as [?|?]; [by apply elem_of_rangeAll|done|done].
  - intros y Hy Hr Hn. rewrite length_take.
    assert (y ∈ drop n A) as Hd by (destruct (proj1 (HA y)); [by apply elem_of_rangeAll|done|done]).
    assert (length (drop n A) <> 0)%nat as Hz by (intros E; apply nil_length_inv in E; rewrite E in Hd; by apply not_elem_of_nil in Hd).
    rewrite length_drop in Hz. lia.
  - intros pre last k E.
    assert (A = pre ++ last :: drop n A) as EA.
    { rewrite <-(take_drop n A) at 1. rewrite E. by rewrite <-app_assoc. }
    unfold A in EA at 1. rewrite (rangeAll_after q s _ _ _ EA).
    rewrite <-take_app_add. by rewrite take_drop.
Qed.

Lemma RangeOrderedMembers_correct_witness :
  exists l, (Memory_RangeOrderedMembers (envAt 10) ["due"] (MkOrderedRange None None 1)
              (Memory_ApplyMutation (envAt 10) exampleMutation (NewMemory None)).1).2 = Ret l /\ strictSorted l /\ l = ["2025/b"].
Proof.
  set (m := (Memory_ApplyMutation (envAt 10) exampleMutation (NewMemory None)).1).
  exists ["2025/b"]. assert (Memory_RangeOrderedMembers (envAt 10) ["due"] (MkOrderedRange None None 1) m = (m, Ret ["2025/b"])) as H
    by (vm_compute; reflexivity).
  split_and!; [by rewrite H| |done]. by apply (RangeOrderedMembers_correct _ _ _ _ _ _ H).
Defined.

(** [CreateIfAllAbsent] creates only when no guard is live, then writes the
    entries and after them the guards (a guard wins over an entry with its key);
    on conflict it reports the first live guard in input order with the stored
    value, and without creation nothing changes.  [now] is the instant read under
    the lock. *)
Theorem CreateIfAllAbsent_correct (e : Env) (guards entries : list Entry) (m : Memory) (H : wfMemory m) :
  let '(m', r) := Memory_CreateIfAllAbsent e guards entries m in
  let now := clock e 0 in
  let M := view now (mem_data m) in
  let absent g := M !! encK (mem_opts m) (entry_Key g) = None in
  match r with
  | Ret (inr _) =>
      guards <> [] /\ Forall absent guards /\
      view now (mem_data m') =
        foldl (fun M en => <[encK (mem_opts m) (entry_Key en) := ARec (entry_Value en) (entry_Deadline en)]> M)
          M (entries ++ guards)
  | Ret (inl (k, v)) =>
      m' = m /\ exists pre g post a, guards = pre ++ g :: post /\ k = entry_Key g /\ Forall absent pre /\
        M !! encK (mem_opts m) k = Some a /\
        v = match a with ARec v _ => v | ASet _ _ => EmptyString end
  | _ => m' = m
  end.
Proof.
  unfold Memory_CreateIfAllAbsent, checkST, mbind, ST_bind, getST, lift, putST, mret, ST_ret, check. cbn.
  destruct (checkCtx e 0); [|done..]. case_bool_decide as HG; [done|].
  destruct (checkCtx e 1); [|done..].
  destruct (firstConflict _ _ _ _) as [c|?|] eqn:EC; [|done..]. apply firstConflict_spec in EC.
  destruct c as [[k v]|].
  - split; [done|]. destruct EC as (pre & g & post & entry & -> & -> & HP & HE & HX & ->).
    specialize (H _ _ HE). exists pre, g, post, (absEntry entry). split_and!; try done.
    + by rewrite lookup_view, HE, HX.
    + unfold absEntry, wfEntry in *. destruct (me_members entry); [apply H|done].
  - destruct (prepare _ _ _) as [l|?|] eqn:EP; [|done..]. cbn. split_and!; [done..|].
    by eapply prepare_view.
Qed.

Lemma CreateIfAllAbsent_correct_witness :
  let guard := MkEntry ["id"] "mine" 0 in
  let m := MkMemory {["id" := recordEntry "theirs" 0]} None in
  (Memory_CreateIfAllAbsent (envAt 1) [guard] [] m).2 = Ret (inl (["id"], "theirs")) /\
  (Memory_CreateIfAllAbsent (envAt 1) [guard] [] m).1 = m.
Proof.
  intros guard m. assert (wfMemory m) as W by (apply map_Forall_singleton; done).
  pose proof (CreateIfAllAbsent_correct (envAt 1) [guard] [] m W) as H.
  destruct (Memory_CreateIfAllAbsent (envAt 1) [guard] [] m) as [m' r] eqn:E.
  assert (r = Ret (inl (["id"], "theirs"))) as -> by (apply (f_equal snd) in E; vm_compute in E; by symmetry).
  split; [done|]. apply H.
Defined.

(** [CompareAndMutate] applies its writes and then its deletes only when the
    guard is live with the expected bytes; on mismatch, error or panic the store is
    unchanged, and a true result means the guard matched. *)
Theorem CompareAndMutate_correct (e : Env) (guard : Key) (expected : string) (entries : list Entry)
    (keys : list Key) (m : Memory) (H : wfMemory m) :
  let '(m', r) := Memory_CompareAndMutate e guard expected entries keys m in
  let now := clock e 0 in
  let M := view now (mem_data m) in
  let matches := match M !! encK (mem_opts m) guard with
                 | Some (ARec v _) => v = expected
                 | Some (ASet _ _) => expected = EmptyString
                 | None => False
                 end in
  match r with
  | Ret true =>
      matches /\
      view now (mem_data m') =
        foldl (fun M k => delete (encK (mem_opts m) k) M)
          (foldl (fun M en => <[encK (mem_opts m) (entry_Key en) := ARec (entry_Value en) (entry_Deadline en)]> M)
             M entries) keys
  | Ret false => ~ matches /\ m' = m
  | _ => m' = m
  end.
Proof.
  unfold Memory_CompareAndMutate, mbind, ST_bind, getST, lift, putST, mret, ST_ret. cbn.
  destruct (checkCtx e 0); [|done..].
  destruct (mapGo (fun x => _) entries) as [prepared|?|] eqn:EP; [|done..].
  destruct (mapGo (encodeKey (mem_opts m)) keys) as [dels|?|] eqn:ED; [|done..].
  destruct (encodeKey (mem_opts m) guard) as [k|?|] eqn:EG; [|done..]. apply encodeKey_Ret in EG as [_ ->].
  destruct (checkCtx e 1); [|done..]. fold (encK (mem_opts m) guard). rewrite lookup_view.
  destruct (mem_data m !! encK (mem_opts m) guard) as [current|] eqn:EM; [|by split; [intros ?|]].
  destruct (expired current (clock e 0)) eqn:EX; cbn; [by split; [intros ?|]|].
  specialize (H _ _ EM). unfold wfEntry, absEntry in *.
  case_bool_decide as EV; cbn; [|split; [|done]; destruct (me_members current); naive_solver].
  destruct (each _ prepared) as [[]|?|] eqn:EE; [|done..]. cbn.
  split; [destruct (me_members current); naive_solver|].
  eapply deleteAll_view; [done|]. eapply prepare_view; [|done].
  clear -EP EE. revert prepared EP EE. unfold prepare. induction entries as [|en es IH]; intros l; cbn [mapGo].
  - by intros [= <-].
  - intros (p & (k & Hk & [= <-])%bind_Ret & (ps & Hps & [= <-])%bind_Ret)%bind_Ret HE.
    apply each_Ret in HE. inversion_clear HE as [|?? Hc HE']. cbn in Hc. apply each_Ret in HE'.
    rewrite Hk, Hc. cbn. by rewrite (IH ps).
Qed.

Lemma CompareAndMutate_correct_witness :
  let m := MkMemory {["task" := recordEntry "v1" 0]} None in
  (Memory_CompareAndMutate (envAt 1) ["task"] "v1" [MkEntry ["task"] "v2" 0] [["x"]] m).2 = Ret true /\
  view 1 (mem_data (Memory_CompareAndMutate (envAt 1) ["task"] "v1" [MkEntry ["task"] "v2" 0] [["x"]] m).1)
    = {["task" := ARec "v2" 0]}.
Proof.
  intros m. assert (wfMemory m) as W by (apply map_Forall_singleton; done).
  pose proof (CompareAndMutate_correct (envAt 1) ["task"] "v1" [MkEntry ["task"] "v2" 0] [["x"]] m W) as H.
  destruct (Memory_CompareAndMutate _ _ _ _ _ m) as [m' r] eqn:E.
  assert (r = Ret true) as -> by (apply (f_equal snd) in E; vm_compute in E; by symmetry).
  split; [done|]. destruct H as [_ H]. etrans; [exact H|vm_compute; reflexivity].
Defined.

(** The workers of [BatchGet] may run in any order: for every schedule that
    reads each index once, under clocks that do not run backwards along it, the
    slot of index [i] holds the result that [Get] alone would have returned on the
    store before the batch (wrong type reported as not found, or the cancellation). *)
Theorem BatchGet_schedule_independent (stop : nat -> option kvError) (envs : nat -> Env)
    (schedule : list nat) (keys : list Key) (m : Memory)
    (Hkeys : Forall (cleanKey (mem_opts m)) keys)
    (Hsched : schedule ≡ₚ seq 0 (length keys))
    (Hclock : StronglySorted (fun j i => clock (envs j) 1 <= clock (envs i) 0) schedule) :
  let results := (Memory_BatchGet stop envs schedule keys m).2 in
  length results = length keys /\
  forall i key, keys !! i = Some key ->
    results !! i = Some (batchResult stop (Memory_Get (envs i) key m).2 i).
Proof.
  unfold Memory_BatchGet, batchGet.
  edestruct (batchGet_run stop envs keys m m (replicate (length keys) (MkGetResult EmptyString None)) schedule) as [L1 L2].
  - done.
  - done.
  - rewrite Hsched. apply NoDup_seq.
  - done.
  - rewrite Forall_forall. intros i Hi. rewrite Hsched in Hi. apply elem_of_seq in Hi. split; [lia|done].
  - by rewrite length_replicate.
  - split; [done|]. intros i key Hk. rewrite L2, bool_decide_eq_true_2, Hk; [done|].
    rewrite Hsched. apply elem_of_seq. apply lookup_lt_Some in Hk. lia.
Qed.

Lemma BatchGet_schedule_independent_witness :
  let m := MkMemory {["a" := recordEntry "1" 0]} None in
  (Memory_BatchGet (fun _ => None) (fun _ => envAt 3) [1%nat; 0%nat] [["a"]; ["b"]] m).2
    = [MkGetResult "1" None; MkGetResult EmptyString (Some ErrNotFound)].
Proof.
  intros m. destruct (BatchGet_schedule_independent (fun _ => None) (fun _ => envAt 3) [1%nat; 0%nat] [["a"]; ["b"]] m)
    as [L H].
  - repeat constructor.
  - apply perm_swap.
  - repeat constructor; cbn; lia.
  - destruct (Memory_BatchGet _ _ _ _ m).2 as [|r0 [|r1 [|r2 l]]] eqn:E; cbn in L; try lia.
    specialize (H 0%nat ["a"] eq_refl) as H0. specialize (H 1%nat ["b"] eq_refl) as H1.
    cbn in H0, H1. injection H0 as ->. injection H1 as ->. done.
Defined.
