(* ===== verification/KVPrefix.v ===== *)
(** * kv: store values, prefixed views and strong-read views

    [src/pkgs/store/kv/kv.go], [prefix.go], [sets_prefix.go] and [consistent.go].
    A [Store] value is a backend pointer, a prefixed view or a strong-read view of
    another store.  [Backend] is the interface a backend offers; the in-memory
    backend implements it over a heap of [Memory] objects, so several views can
    share one object. *)

From S2P Require Import Prelude GoStrings KVKey KVMemory.
From stdpp Require Import gmap strings list.

Open Scope Z_scope.

(** ** The backend interface

    The methods of [Store], and the three optional capabilities that the package
    discovers by type assertion ([None] when the backend lacks the method). *)
Class Backend (B W : Type) := {
  be_Get : B -> Env -> Key -> ST W kvError string;
  be_BatchGet : B -> Env -> list Key -> ST W kvError (list GetResult);
  be_Set : B -> Env -> Key -> string -> ST W kvError unit;
  be_Delete : B -> Env -> Key -> ST W kvError unit;
  be_BatchSet : B -> Env -> list Entry -> ST W kvError unit;
  be_BatchDelete : B -> Env -> list Key -> ST W kvError unit;
  be_BatchMutate : B -> Env -> list Entry -> list Key -> ST W kvError unit;
  be_AddMembers : B -> Env -> Key -> list string -> ST W kvError unit;
  be_RemoveMembers : B -> Env -> Key -> list string -> ST W kvError unit;
  be_HasMember : B -> Env -> Key -> string -> ST W kvError bool;
  be_ListMembers : B -> Env -> Key -> ST W kvError (list string);
  be_RangeOrderedMembers : B -> Env -> Key -> OrderedRange -> ST W kvError (list string);
  be_ApplyMutation : B -> Env -> Mutation -> ST W kvError bool;
  be_createIfAbsent : B -> option (Env -> Entry -> list Entry -> ST W kvError (string * bool));
  be_createIfAllAbsent : B -> option (Env -> list Entry -> list Entry -> ST W kvError ((Key * string) + unit));
  be_compareAndMutate : B -> option (Env -> Key -> string -> list Entry -> list Key -> ST W kvError bool);
  be_readDelay : B -> Z
}.

Inductive store (B : Type) :=
  | SBackend (b : B)
  | SPrefixed (base : store B) (prefix : Key)
  | SStrong (base : store B).
Arguments SBackend {B} b.
Arguments SPrefixed {B} base prefix.
Arguments SStrong {B} base.

(** [Prefixed(base, prefix)]. *)
Definition Prefixed {B} (base : store B) (prefix : Key) : store B := SPrefixed base prefix.

(** [prefixedStore.prefixedKey]. *)
Definition prefixedKey (prefix key : Key) : Key := prefix ++ key.

Definition prefixedEntry (prefix : Key) (e : Entry) : Entry :=
  MkEntry (prefixedKey prefix (entry_Key e)) (entry_Value e) (entry_Deadline e).

(** [prefixedStore.ApplyMutation]: every key of the mutation is scoped. *)
Definition scopeGroup (prefix : Key) (g : SetMembers) : SetMembers :=
  MkSetMembers (prefixedKey prefix (sm_Key g)) (sm_Members g) (sm_MaxMembers g).
Definition scopeMutation (prefix : Key) (mu : Mutation) : Mutation :=
  MkMutation
    ((fun c => MkCondition (prefixedKey prefix (cond_Key c)) (cond_Expected c)) <$> mut_Conditions mu)
    (prefixedEntry prefix <$> mut_Entries mu)
    (prefixedKey prefix <$> mut_DeleteKeys mu)
    (scopeGroup prefix <$> mut_AddMembers mu)
    (scopeGroup prefix <$> mut_RemoveMembers mu)
    (scopeGroup prefix <$> mut_AddOrderedMembers mu)
    (scopeGroup prefix <$> mut_RemoveOrderedMembers mu).

(** [strongReadContext(ctx)]. *)
Definition strongEnv (e : Env) : Env :=
  if strong e then e else {| ctxErr := ctxErr e; clock := clock e; strong := true |}.

(** [WithStrongReads(store)]: idempotent. *)
Definition WithStrongReads {B} (s : option (store B)) : option (store B) :=
  match s with
  | None => None
  | Some (SStrong base) => Some (SStrong base)
  | Some s => Some (SStrong s)
  end.

(** The conflict of [prefixedStore.CreateIfAllAbsent] translated back to the
    caller's key space; the nil key is [[]]. *)
Definition unprefixConflict (prefix : Key) (guards : list Entry) (r : (Key * string) + unit) : (Key * string) + unit :=
  match r with
  | inr u => inr u
  | inl (conflict, existing) =>
      if bool_decide (conflict = []) then inl ([], existing)
      else match list_find (fun g => prefixedKey prefix (entry_Key g) = conflict) guards with
           | Some (_, g) => inl (entry_Key g, existing)
           | None => inl (conflict, existing)
           end
  end.

Section store_methods.
Context {B W : Type} `{!Backend B W}.

Fixpoint Store_Get (s : store B) (e : Env) (key : Key) : ST W kvError string :=
  match s with
  | SBackend b => be_Get b e key
  | SPrefixed base p => Store_Get base e (prefixedKey p key)
  | SStrong base => Store_Get base (strongEnv e) key
  end.

Fixpoint Store_BatchGet (s : store B) (e : Env) (keys : list Key) : ST W kvError (list GetResult) :=
  match s with
  | SBackend b => be_BatchGet b e keys
  | SPrefixed base p => Store_BatchGet base e (prefixedKey p <$> keys)
  | SStrong base => Store_BatchGet base (strongEnv e) keys
  end.

Fixpoint Store_Set (s : store B) (e : Env) (key : Key) (value : string) : ST W kvError unit :=
  match s with
  | SBackend b => be_Set b e key value
  | SPrefixed base p => Store_Set base e (prefixedKey p key) value
  | SStrong base => Store_Set base e key value
  end.

Fixpoint Store_Delete (s : store B) (e : Env) (key : Key) : ST W kvError unit :=
  match s with
  | SBackend b => be_Delete b e key
  | SPrefixed base p => Store_Delete base e (prefixedKey p key)
  | SStrong base => Store_Delete base e key
  end.

Fixpoint Store_BatchSet (s : store B) (e : Env) (entries : list Entry) : ST W kvError unit :=
  match s with
  | SBackend b => be_BatchSet b e entries
  | SPrefixed base p => Store_BatchSet base e (prefixedEntry p <$> entries)
  | SStrong base => Store_BatchSet base e entries
  end.

Fixpoint Store_BatchDelete (s : store B) (e : Env) (keys : list Key) : ST W kvError unit :=
  match s with
  | SBackend b => be_BatchDelete b e keys
  | SPrefixed base p => Store_BatchDelete base e (prefixedKey p <$> keys)
  | SStrong base => Store_BatchDelete base e keys
  end.

Fixpoint Store_BatchMutate (s : store B) (e : Env) (entries : list Entry) (keys : list Key) : ST W kvError unit :=
  match s with
  | SBackend b => be_BatchMutate b e entries keys
  | SPrefixed base p => Store_BatchMutate base e (prefixedEntry p <$> entries) (prefixedKey p <$> keys)
  | SStrong base => Store_BatchMutate base e entries keys
  end.

Fixpoint Store_AddMembers (s : store B) (e : Env) (key : Key) (members : list string) : ST W kvError unit :=
  match s with
  | SBackend b => be_AddMembers b e key members
  | SPrefixed base p => Store_AddMembers base e (prefixedKey p key) members
  | SStrong base => Store_AddMembers base e key members
  end.

Fixpoint Store_RemoveMembers (s : store B) (e : Env) (key : Key) (members : list string) : ST W kvError unit :=
  match s with
  | SBackend b => be_RemoveMembers b e key members
  | SPrefixed base p => Store_RemoveMembers base e (prefixedKey p key) members
  | SStrong base => Store_RemoveMembers base e key members
  end.

Fixpoint Store_HasMember (s : store B) (e : Env) (key : Key) (member : string) : ST W kvError bool :=
  match s with
  | SBackend b => be_HasMember b e key member
  | SPrefixed base p => Store_HasMember base e (prefixedKey p key) member
  | SStrong base => Store_HasMember base (strongEnv e) key member
  end.

Fixpoint Store_ListMembers (s : store B) (e : Env) (key : Key) : ST W kvError (list string) :=
  match s with
  | SBackend b => be_ListMembers b e key
  | SPrefixed base p => Store_ListMembers base e (prefixedKey p key)
  | SStrong base => Store_ListMembers base (strongEnv e) key
  end.

Fixpoint Store_RangeOrderedMembers (s : store B) (e : Env) (key : Key) (q : OrderedRange) : ST W kvError (list string) :=
  match s with
  | SBackend b => be_RangeOrderedMembers b e key q
  | SPrefixed base p => Store_RangeOrderedMembers base e (prefixedKey p key) q
  | SStrong base => Store_RangeOrderedMembers base (strongEnv e) key q
  end.

Fixpoint Store_ApplyMutation (s : store B) (e : Env) (mu : Mutation) : ST W kvError bool :=
  match s with
  | SBackend b => be_ApplyMutation b e mu
  | SPrefixed base p => Store_ApplyMutation base e (scopeMutation p mu)
  | SStrong base => Store_ApplyMutation base e mu
  end.

(** [CreateIfAbsent(ctx, store, guard, entries)]: views always have the method
    and forward to their base; a backend may lack it. *)
Fixpoint CreateIfAbsent (s : store B) (e : Env) (guard : Entry) (entries : list Entry) : ST W kvError (string * bool) :=
  match s with
  | SBackend b => match be_createIfAbsent b with
                  | Some f => f e guard entries
                  | None => failST ErrCreateIfAbsentUnsupported
                  end
  | SPrefixed base p => CreateIfAbsent base e (prefixedEntry p guard) (prefixedEntry p <$> entries)
  | SStrong base => CreateIfAbsent base e guard entries
  end.

Fixpoint CreateIfAllAbsent (s : store B) (e : Env) (guards entries : list Entry) : ST W kvError ((Key * string) + unit) :=
  match s with
  | SBackend b =>
      match be_createIfAllAbsent b with
      | Some f =>
          _ ← checkST (bool_decide (guards = [])) (ErrText "kv: create-if-all-absent requires at least one guard");
          f e guards entries
      | None => failST ErrCreateIfAbsentUnsupported
      end
  | SPrefixed base p =>
      _ ← checkST (bool_decide (guards = [])) (ErrText "kv: create-if-all-absent requires at least one guard");
      r ← CreateIfAllAbsent base e (prefixedEntry p <$> guards) (prefixedEntry p <$> entries);
      mret (unprefixConflict p guards r)
  | SStrong base =>
      _ ← checkST (bool_decide (guards = [])) (ErrText "kv: create-if-all-absent requires at least one guard");
      CreateIfAllAbsent base e guards entries
  end.

Fixpoint CompareAndMutate (s : store B) (e : Env) (guard : Key) (expected : string)
    (entries : list Entry) (keys : list Key) : ST W kvError bool :=
  match s with
  | SBackend b => match be_compareAndMutate b with
                  | Some f => f e guard expected entries keys
                  | None => failST ErrCompareAndMutateUnsupported
                  end
  | SPrefixed base p =>
      CompareAndMutate base e (prefixedKey p guard) expected (prefixedEntry p <$> entries) (prefixedKey p <$> keys)
  | SStrong base => CompareAndMutate base e guard expected entries keys
  end.

(** [SupportsCompareAndMutate] and its siblings look through views. *)
Fixpoint SupportsCompareAndMutate (s : store B) : bool :=
  match s with
  | SBackend b => bool_decide (is_Some (be_compareAndMutate (W:=W) b))
  | SPrefixed base _ | SStrong base => SupportsCompareAndMutate base
  end.
Fixpoint SupportsCreateIfAbsent (s : store B) : bool :=
  match s with
  | SBackend b => bool_decide (is_Some (be_createIfAbsent (W:=W) b))
  | SPrefixed base _ | SStrong base => SupportsCreateIfAbsent base
  end.
Fixpoint SupportsCreateIfAllAbsent (s : store B) : bool :=
  match s with
  | SBackend b => bool_decide (is_Some (be_createIfAllAbsent (W:=W) b))
  | SPrefixed base _ | SStrong base => SupportsCreateIfAllAbsent base
  end.

(** [ReadDelay(store)]: zero through a strong view. *)
Fixpoint ReadDelay (s : store B) : Z :=
  match s with
  | SStrong _ => 0
  | SPrefixed base _ => ReadDelay base
  | SBackend b => be_readDelay (W:=W) b
  end.
End store_methods.

(** ** Transaction boundaries *)

(** [isStrongView(store)]. *)
Fixpoint isStrongView {B} (s : store B) : bool :=
  match s with
  | SStrong _ => true
  | SPrefixed base _ => isStrongView base
  | SBackend _ => false
  end.

(** [atomicStoreView(store)]: the backend under every view, and the path to it.
    [prefix] is the prefix accumulated by the loop so far. *)
Fixpoint atomicStoreViewLoop {B} (s : store B) (prefix : Key) : B * Key :=
  match s with
  | SStrong base => atomicStoreViewLoop base prefix
  | SPrefixed base p => atomicStoreViewLoop base (p ++ prefix)
  | SBackend b => (b, prefix)
  end.
Definition atomicStoreView {B} (s : store B) : B * Key := atomicStoreViewLoop s [].

(** [SharedAtomicStore(stores...)]; a nil store is [None].  Backends are pointers,
    compared by identity. *)
Definition SharedAtomicStore {B} `{EqDecision B} (stores : list (option (store B))) : option (store B * list Key) :=
  match mapM id stores with
  | None => None
  | Some [] => None
  | Some (s0 :: ss) =>
      let views := atomicStoreView <$> (s0 :: ss) in
      let root := (atomicStoreView s0).1 in
      if forallb (fun v => bool_decide (v.1 = root)) views then
        Some (if existsb isStrongView (s0 :: ss) then SStrong (SBackend root) else SBackend root, snd <$> views)
      else None
  end.

(** ** The in-memory backend: pointers into a heap of [Memory] objects *)
Abbreviation heap := (gmap positive Memory).

(** A method call through pointer [b]; a dangling pointer panics. *)
Definition onHeap {A} (b : positive) (m : ST Memory kvError A) : ST heap kvError A := fun h =>
  match h !! b with
  | Some mem => let '(mem', r) := m mem in (<[b := mem']> h, r)
  | None => (h, Panic)
  end.

(** [Memory.BatchGet] with its reads in index order. *)
Definition Memory_BatchGet_seq (e : Env) (keys : list Key) : ST Memory kvError (list GetResult) := fun m =>
  let '(m', r) := Memory_BatchGet (fun _ => ctxErr e 0) (fun _ => e) (seq 0 (length keys)) keys m in (m', Ret r).

#[export] Instance memoryBackend : Backend positive heap := {
  be_Get b e k := onHeap b (Memory_Get e k);
  be_BatchGet b e ks := onHeap b (Memory_BatchGet_seq e ks);
  be_Set b e k v := onHeap b (Memory_Set e k v);
  be_Delete b e k := onHeap b (Memory_Delete e k);
  be_BatchSet b e es := onHeap b (Memory_BatchSet e es);
  be_BatchDelete b e ks := onHeap b (Memory_BatchDelete e ks);
  be_BatchMutate b e es ks := onHeap b (Memory_BatchMutate e es ks);
  be_AddMembers b e k ms := onHeap b (Memory_AddMembers e k ms);
  be_RemoveMembers b e k ms := onHeap b (Memory_RemoveMembers e k ms);
  be_HasMember b e k x := onHeap b (Memory_HasMember e k x);
  be_ListMembers b e k := onHeap b (Memory_ListMembers e k);
  be_RangeOrderedMembers b e k q := onHeap b (Memory_RangeOrderedMembers e k q);
  be_ApplyMutation b e mu := onHeap b (Memory_ApplyMutation e mu);
  be_createIfAbsent b := Some (fun e g es => onHeap b (Memory_CreateIfAbsent e g es));
  be_createIfAllAbsent b := Some (fun e gs es => onHeap b (Memory_CreateIfAllAbsent e gs es));
  be_compareAndMutate b := Some (fun e g x es ks => onHeap b (Memory_CompareAndMutate e g x es ks));
  be_readDelay _ := 0
}.
