(* ===== verification/KVPrefixProps.v ===== *)
(** * kv: properties of prefixed and strong views

    A view of a view is a view of the concatenated prefixes, a prefixed view changes and
    reveals only keys under its prefix, and strong-read views answer as the store does. *)

From S2P Require Import Prelude GoStrings KVKey KVMemory KVSpec KVPrefix.
From stdpp Require Import gmap strings list.

Open Scope Z_scope.

(** ** Frames: which encoded keys a call can change *)

(** [m] changes at most the entries of [keys]. *)
Definition frames {A} (keys : list Key) (m : ST Memory kvError A) : Prop :=
  forall mem j, (forall k, k ∈ keys -> encodeKey (mem_opts mem) k <> Ret j) ->
    mem_data (m mem).1 !! j = mem_data mem !! j /\ mem_opts (m mem).1 = mem_opts mem.

Lemma insertAll_frame l d j : Forall (fun p => p.1 <> j) l -> insertAll l d !! j = d !! j.
Proof.
  intros HF. revert d. induction HF as [|p l Hp HF IH]; intros d; [done|].
  change (insertAll l (<[p.1 := p.2]> d) !! j = d !! j). rewrite IH. by rewrite lookup_insert_ne.
Qed.

Lemma deleteAll_frame l d j : Forall (fun k => k <> j) l -> deleteAll l d !! j = d !! j.
Proof.
  intros HF. revert d. induction HF as [|p l Hp HF IH]; intros d; [done|].
  change (deleteAll l (delete p d) !! j = d !! j). rewrite IH. by rewrite lookup_delete_ne.
Qed.

Lemma mapGo_Forall {E A B} (f : A -> Go E B) (P : B -> Prop) xs ys :
  mapGo f xs = Ret ys -> (forall x y, x ∈ xs -> f x = Ret y -> P y) -> Forall P ys.
Proof.
  revert ys. induction xs as [|x xs IH]; intros ys; cbn.
  - intros [= <-] _. constructor.
  - intros (y & Hy & (ys' & Hys & [= <-])%bind_Ret)%bind_Ret HP. constructor.
    + apply (HP x); [by left|done].
    + apply IH; [done|]. intros ?? Hx. apply HP. by right.
Qed.

Lemma prepare_frame opts now es l j :
  prepare opts now es = Ret l -> (forall k, k ∈ entry_Key <$> es -> encodeKey opts k <> Ret j) ->
  Forall (fun p => p.1 <> j) l.
Proof.
  intros H Hj. eapply mapGo_Forall; [exact H|]. intros en y Hen.
  intros ([] & _ & (k & Hk & [= <-])%bind_Ret)%bind_Ret. cbn. intros ->.
  apply (Hj (entry_Key en)); [|done]. apply list_elem_of_fmap. eauto.
Qed.

Lemma mapRecords_frame opts es l j :
  mapGo (fun x => k ← encodeKey opts (entry_Key x); Ret (k, recordEntry (entry_Value x) (entry_Deadline x))) es = Ret l ->
  (forall k, k ∈ entry_Key <$> es -> encodeKey opts k <> Ret j) -> Forall (fun p => p.1 <> j) l.
Proof.
  intros H Hj. eapply mapGo_Forall; [exact H|]. intros en y Hen.
  intros (k & Hk & [= <-])%bind_Ret. cbn. intros ->.
  apply (Hj (entry_Key en)); [|done]. apply list_elem_of_fmap. eauto.
Qed.

Lemma encodes_frame opts ks l j :
  mapGo (encodeKey opts) ks = Ret l -> (forall k, k ∈ ks -> encodeKey opts k <> Ret j) -> Forall (fun k => k <> j) l.
Proof. intros H Hj. eapply mapGo_Forall; [exact H|]. intros k y Hk Hy ->. by apply (Hj k). Qed.

(** The keys a mutation writes. *)
Definition mutationKeys (mu : Mutation) : list Key :=
  (entry_Key <$> mut_Entries mu) ++ mut_DeleteKeys mu ++ ((fun pg => sm_Key pg.2) <$> phases mu).

Lemma stageGroup_frame opts d now st pg st' j :
  stageGroup opts d now st pg = Ret st' -> encodeKey opts (sm_Key pg.2) <> Ret j ->
  stg_staged st !! j = None /\ stg_deletes st !! j = None ->
  stg_staged st' !! j = None /\ stg_deletes st' !! j = None.
Proof.
  destruct pg as [ph g]. unfold stageGroup. cbn [snd]. case_bool_decide; [by intros [= <-]|].
  intros (k & Hk & H')%bind_Ret Hj. apply bind_Ret in H' as (entry & _ & H').
  apply bind_Ret in H' as (ms & _ & H'). apply bind_Ret in H' as ([] & _ & [= <-]). cbn.
  intros [H1 H2]. assert (k <> j) by congruence. by rewrite !lookup_insert_ne.
Qed.

Lemma ApplyMutation_frames e mu : frames (mutationKeys mu) (Memory_ApplyMutation e mu).
Proof.
  intros m j Hj. destruct (Memory_ApplyMutation e mu m) as [m' r] eqn:E. cbn.
  apply ApplyMutation_inv in E as [(-> & _)|(_ & st0 & st & _ & _ & Hs & Hst & ->)]; [done|].
  split; [|done]. cbn. unfold mutationKeys in Hj.
  assert (stg_staged st !! j = None /\ stg_deletes st !! j = None) as [H1 H2].
  { eapply (foldGo_inv (fun st => stg_staged st !! j = None /\ stg_deletes st !! j = None)); [| |exact Hst].
    - intros b pg b' Hin Hb Hf. eapply stageGroup_frame; [exact Hf| |exact Hb].
      apply Hj. rewrite !elem_of_app. right. right. apply list_elem_of_fmap. eauto.
    - unfold stageRecords in Hs. apply bind_Ret in Hs as (stg & Hstg & (del & Hdel & [= <-])%bind_Ret). cbn.
      split.
      + eapply (foldGo_inv (fun stg : gmap string memoryEntry => stg !! j = None)); [|apply lookup_empty|exact Hstg].
        intros b en b' Hin Hb (_ & _ & (k & Hk & [= <-])%bind_Ret)%bind_Ret.
        rewrite lookup_insert_ne; [done|]. intros ->. apply (Hj (entry_Key en)); [|done].
        rewrite !elem_of_app. left. apply list_elem_of_fmap. eauto.
      + eapply (foldGo_inv (fun del : gmap string bool => del !! j = None)); [|apply lookup_empty|exact Hdel].
        intros b key b' Hin Hb (k & Hk & [= <-])%bind_Ret.
        rewrite lookup_insert_ne; [done|]. intros ->. apply (Hj key); [|done].
        rewrite !elem_of_app. right. by left. }
  unfold commit. rewrite map_lookup_filter, lookup_union, H1, left_id_L by apply _.
  destruct (mem_data m !! j); cbn; [|done]. by rewrite option_guard_True by (by rewrite H2).
Qed.

Lemma Set_frames e k v : frames [k] (Memory_Set e k v).
Proof.
  intros m j Hj. unfold Memory_Set, encodeM, mbind, ST_bind, getST, lift, putST. cbn.
  destruct (checkCtx e 0); [|done..]. destruct (encodeKey _ k) as [s|?|] eqn:E; [|done..]. cbn.
  rewrite lookup_insert_ne; [done|]. intros ->. by apply (Hj k); [left|].
Qed.

Lemma Delete_frames e k : frames [k] (Memory_Delete e k).
Proof.
  intros m j Hj. unfold Memory_Delete, encodeM, mbind, ST_bind, getST, lift, putST. cbn.
  destruct (checkCtx e 0); [|done..]. destruct (encodeKey _ k) as [s|?|] eqn:E; [|done..]. cbn.
  rewrite lookup_delete_ne; [done|]. intros ->. by apply (Hj k); [left|].
Qed.

Lemma Get_frames e k : frames [k] (Memory_Get e k).
Proof.
  intros m j Hj. rewrite Get_eq. destruct (checkCtx e 0); [|done..].
  destruct (encodeKey _ k) as [s|?|] eqn:E; [|done..]. destruct (mem_data m !! s) as [entry|]; [|done].
  destruct (expired entry (clock e 0)); [|done]. destruct (expired entry (clock e 1)); [|done]. cbn.
  rewrite lookup_delete_ne; [done|]. intros ->. by apply (Hj k); [left|].
Qed.

Lemma BatchMutate_frames e es ks : frames ((entry_Key <$> es) ++ ks) (Memory_BatchMutate e es ks).
Proof.
  intros m j Hj. setoid_rewrite elem_of_app in Hj.
  unfold Memory_BatchMutate, mbind, ST_bind, getST, lift, putST. cbn.
  destruct (checkCtx e 0); [|done..]. destruct (prepare _ _ _) as [l|?|] eqn:E1; [|done..].
  destruct (mapGo _ _) as [l2|?|] eqn:E2; [|done..]. destruct (checkCtx e 1); [|done..]. cbn.
  rewrite deleteAll_frame, insertAll_frame; [done| |].
  - eapply prepare_frame; [done|]. auto.
  - eapply encodes_frame; [done|]. auto.
Qed.

Lemma BatchSet_frames e es : frames (entry_Key <$> es) (Memory_BatchSet e es).
Proof.
  intros m j Hj. unfold Memory_BatchSet, mbind, ST_bind, getST, lift, putST. cbn.
  destruct (checkCtx e 0); [|done..]. destruct (prepare _ _ _) as [l|?|] eqn:E1; [|done..]. cbn.
  rewrite insertAll_frame; [done|]. by eapply prepare_frame.
Qed.

(** One iteration of the delete loop. *)
Lemma deleteStep_eq key m :
  (k ← encodeM key; m ← getST; putST (setData m (delete k (mem_data m))) : ST Memory kvError unit) m =
    match encodeKey (mem_opts m) key with
    | Ret s => (setData m (delete s (mem_data m)), Ret tt)
    | Fail err => (m, Fail err)
    | Panic => (m, Panic)
    end.
Proof. unfold encodeM, mbind, ST_bind, getST, lift, putST. cbn. by destruct (encodeKey _ _). Qed.

Lemma BatchDelete_frames e ks : frames ks (Memory_BatchDelete e ks).
Proof.
  intros m j Hj. unfold Memory_BatchDelete.
  assert (forall (g : ST Memory kvError unit), (_ ← lift (checkCtx e 0); g) m = 
    match checkCtx e 0 with Ret _ => g m | Fail err => (m, Fail err) | Panic => (m, Panic) end) as -> by done.
  destruct (checkCtx e 0); [|done..]. unfold eachST. revert m Hj.
  induction ks as [|k ks IH]; intros m Hj; [done|]. rewrite foldST_cons, deleteStep_eq.
  destruct (encodeKey (mem_opts m) k) as [s|?|] eqn:E; [|done..].
  edestruct (IH (setData m (delete s (mem_data m)))) as [H1 H2].
  - cbn. intros k' Hk'. apply Hj. by right.
  - rewrite H2. cbn in *. rewrite H1. rewrite lookup_delete_ne; [done|]. intros ->. by apply (Hj k); [left|].
Qed.

Lemma CreateIfAllAbsent_frames e gs es :
  frames ((entry_Key <$> es) ++ (entry_Key <$> gs)) (Memory_CreateIfAllAbsent e gs es).
Proof.
  intros m j Hj. rewrite <-fmap_app in Hj.
  unfold Memory_CreateIfAllAbsent, checkST, check, mbind, ST_bind, getST, lift, putST, mret, ST_ret. cbn.
  destruct (checkCtx e 0); [|done..]. case_bool_decide; [done|]. destruct (checkCtx e 1); [|done..].
  destruct (firstConflict _ _ _ _) as [[c|]|?|]; [done| |done..].
  destruct (prepare _ _ _) as [l|?|] eqn:E1; [|done..]. cbn.
  rewrite insertAll_frame; [done|]. by eapply prepare_frame.
Qed.

Lemma CompareAndMutate_frames e g x es ks :
  frames ((entry_Key <$> es) ++ ks) (Memory_CompareAndMutate e g x es ks).
Proof.
  intros m j Hj. setoid_rewrite elem_of_app in Hj.
  unfold Memory_CompareAndMutate, mbind, ST_bind, getST, lift, putST, mret, ST_ret. cbn.
  destruct (checkCtx e 0); [|done..].
  destruct (mapGo (fun x => _) es) as [l|?|] eqn:E1; [|done..].
  destruct (mapGo (encodeKey _) ks) as [l2|?|] eqn:E2; [|done..].
  destruct (encodeKey _ g); [|done..]. destruct (checkCtx e 1); [|done..].
  destruct (mem_data m !! _) as [cur|]; [|done]. destruct (_ || _); [done|].
  destruct (each _ _); [|done..]. cbn.
  rewrite deleteAll_frame, insertAll_frame; [done| |].
  - eapply mapRecords_frame; [done|]. auto.
  - eapply encodes_frame; [done|]. auto.
Qed.

(** ** Prefix isolation *)

(** A key outside a non-empty prefix never shares an encoding with one inside. *)
Lemma outside_prefix_encoding o p k q s :
  p <> [] -> q <> [] -> ~ p `prefix_of` q -> encodeKey o q = Ret s -> encodeKey o (prefixedKey p k) <> Ret s.
Proof.
  intros Hp Hq Hn [Hc ->]%encodeKey_Ret [Hc' E]%encodeKey_Ret. apply Hn.
  apply (joinByte_inj o) in E; [|done..|]; [subst; by exists k|]. destruct p; [done|]. by destruct k.
Qed.

(** What a call through the view [Prefixed(base, p)] of memory [b] may change. *)
Definition isolated {A} (p : Key) (b : positive) (m : ST heap kvError A) : Prop :=
  forall (h : heap) (mem : Memory), h !! b = Some mem ->
    (forall b', b' <> b -> (m h).1 !! b' = h !! b') /\
    exists mem', (m h).1 !! b = Some mem' /\
      forall q s, q <> [] -> ~ p `prefix_of` q -> encodeKey (mem_opts mem) q = Ret s ->
        mem_data mem' !! s = mem_data mem !! s.

Lemma frames_isolated {A} p b keys (m : ST Memory kvError A) :
  p <> [] -> frames (prefixedKey p <$> keys) m -> isolated p b (onHeap b m).
Proof.
  intros Hp HF h mem Hb. unfold onHeap. rewrite Hb. specialize (HF mem).
  destruct (m mem) as [mem' r] eqn:E. cbn in *. split.
  - intros b' Hne. by rewrite lookup_insert_ne.
  - exists mem'. split; [by rewrite lookup_insert_eq|]. intros q s Hq Hn Hs. apply HF.
    intros k (k' & -> & _)%list_elem_of_fmap. by eapply outside_prefix_encoding.
Qed.

Lemma isolated_bind_ret {A C} p b (m : ST heap kvError A) (f : A -> C) :
  isolated p b m -> isolated p b (r ← m; mret (f r)).
Proof.
  intros Hm h mem Hb. specialize (Hm h mem Hb). unfold mbind, ST_bind. by destruct (m h) as [h' [a|e|]].
Qed.

Lemma isolated_check {A} p b bad err (m : ST heap kvError A) :
  isolated p b m -> isolated p b (_ ← checkST bad err; m).
Proof.
  intros Hm h mem Hb. unfold mbind, ST_bind, checkST, lift, check. destruct bad; cbn; [|by apply Hm]. eauto.
Qed.

Lemma mutationKeys_scope p mu : mutationKeys (scopeMutation p mu) = prefixedKey p <$> mutationKeys mu.
Proof.
  unfold mutationKeys, phases. cbn. rewrite !fmap_app, <-!list_fmap_compose. done.
Qed.

Lemma entry_keys_prefixed p (es : list Entry) : entry_Key <$> (prefixedEntry p <$> es) = prefixedKey p <$> (entry_Key <$> es).
Proof. by rewrite <-!list_fmap_compose. Qed.

(** ** Composition of views *)
Section composition.
Context {B W : Type} `{!Backend B W}.

(** The context a view's reads run under. *)
Definition viewEnv (s : store B) (e : Env) : Env := if isStrongView s then strongEnv e else e.

Lemma strongEnv_idem e : strongEnv (strongEnv e) = strongEnv e.
Proof. unfold strongEnv. by destruct (strong e) eqn:E; rewrite ?E. Qed.

Lemma viewEnv_strong (s : store B) e : viewEnv s (strongEnv e) = strongEnv e.
Proof. unfold viewEnv. by destruct (isStrongView s); rewrite ?strongEnv_idem. Qed.

Lemma prefixedKey_assoc p q k : prefixedKey p (prefixedKey q k) = prefixedKey (p ++ q) k.
Proof. unfold prefixedKey. by rewrite app_assoc. Qed.

Lemma prefixedEntry_assoc p q e : prefixedEntry p (prefixedEntry q e) = prefixedEntry (p ++ q) e.
Proof. unfold prefixedEntry. cbn. by rewrite prefixedKey_assoc. Qed.

Lemma prefixedKeys_assoc p q (ks : list Key) : prefixedKey p <$> (prefixedKey q <$> ks) = prefixedKey (p ++ q) <$> ks.
Proof. rewrite <-list_fmap_compose. apply list_fmap_ext. intros i k _. apply prefixedKey_assoc. Qed.

Lemma prefixedEntries_assoc p q (es : list Entry) :
  prefixedEntry p <$> (prefixedEntry q <$> es) = prefixedEntry (p ++ q) <$> es.
Proof. rewrite <-list_fmap_compose. apply list_fmap_ext. intros i k _. apply prefixedEntry_assoc. Qed.

Lemma scopeGroups_assoc p q (gs : list SetMembers) : scopeGroup p <$> (scopeGroup q <$> gs) = scopeGroup (p ++ q) <$> gs.
Proof.
  rewrite <-list_fmap_compose. apply list_fmap_ext. intros i g _. unfold scopeGroup. cbn. by rewrite prefixedKey_assoc.
Qed.

Lemma scopeMutation_assoc p q mu : scopeMutation p (scopeMutation q mu) = scopeMutation (p ++ q) mu.
Proof.
  unfold scopeMutation. cbn. rewrite prefixedEntries_assoc, prefixedKeys_assoc, !scopeGroups_assoc. f_equal.
  rewrite <-list_fmap_compose. apply list_fmap_ext. intros i c _. cbn. by rewrite prefixedKey_assoc.
Qed.

Lemma list_fmap_same {A} (f : A -> A) (l : list A) : (forall x, f x = x) -> f <$> l = l.
Proof. intros Hf. induction l as [|x l IH]; [done|]. cbn. by rewrite Hf, IH. Qed.

Lemma scopeMutation_nil mu : scopeMutation [] mu = mu.
Proof. destruct mu. unfold scopeMutation. cbn. by rewrite !list_fmap_same by (by intros []). Qed.

Lemma atomicStoreViewLoop_prefix (s : store B) p :
  atomicStoreViewLoop s p = ((atomicStoreView s).1, (atomicStoreView s).2 ++ p).
Proof.
  unfold atomicStoreView. revert p. induction s as [b|base IH q|base IH]; intros p; cbn; [done| |apply IH].
  rewrite (IH (q ++ p)), (IH (q ++ [])). cbn. by rewrite app_nil_r, app_assoc.
Qed.

Lemma atomicStoreView_prefixed (s : store B) q :
  atomicStoreView (SPrefixed s q) = ((atomicStoreView s).1, (atomicStoreView s).2 ++ q).
Proof. unfold atomicStoreView at 1. cbn. by rewrite app_nil_r, atomicStoreViewLoop_prefix. Qed.

(** Mutations through a view are mutations of its root under the composed prefix. *)
Lemma Store_ApplyMutation_root (s : store B) e mu :
  Store_ApplyMutation s e mu =
    be_ApplyMutation (W:=W) (atomicStoreView s).1 e (scopeMutation (atomicStoreView s).2 mu).
Proof.
  revert mu. induction s as [b|base IH q|base IH]; intros mu.
  - cbn. by rewrite scopeMutation_nil.
  - rewrite atomicStoreView_prefixed. cbn. by rewrite IH, scopeMutation_assoc.
  - apply IH.
Qed.

Lemma Store_Get_root (s : store B) e k :
  Store_Get s e k = be_Get (W:=W) (atomicStoreView s).1 (viewEnv s e) (prefixedKey (atomicStoreView s).2 k).
Proof.
  revert e k. induction s as [b|base IH q|base IH]; intros e k; [done| |].
  - rewrite atomicStoreView_prefixed. cbn. by rewrite IH, prefixedKey_assoc.
  - cbn. rewrite IH. by rewrite viewEnv_strong.
Qed.

Lemma Store_Range_root (s : store B) e k q :
  Store_RangeOrderedMembers s e k q =
    be_RangeOrderedMembers (W:=W) (atomicStoreView s).1 (viewEnv s e) (prefixedKey (atomicStoreView s).2 k) q.
Proof.
  revert e k. induction s as [b|base IH q'|base IH]; intros e k; [done| |].
  - rewrite atomicStoreView_prefixed. cbn. by rewrite IH, prefixedKey_assoc.
  - cbn. rewrite IH. by rewrite viewEnv_strong.
Qed.

Lemma Store_BatchMutate_root (s : store B) e es ks :
  Store_BatchMutate s e es ks =
    be_BatchMutate (W:=W) (atomicStoreView s).1 e (prefixedEntry (atomicStoreView s).2 <$> es)
      (prefixedKey (atomicStoreView s).2 <$> ks).
Proof.
  revert es ks. induction s as [b|base IH q'|base IH]; intros es ks; [| |apply IH].
  - cbn. by rewrite !list_fmap_same by (by intros []).
  - rewrite atomicStoreView_prefixed. cbn. by rewrite IH, prefixedEntries_assoc, prefixedKeys_assoc.
Qed.
End composition.

Lemma mapM_id_lookup {A} (l : list (option A)) k i x :
  mapM id l = Some k -> l !! i = Some x -> exists y, x = Some y /\ k !! i = Some y.
Proof.
  intros H Hi. apply mapM_Some in H. apply Forall2_lookup_l with (i := i) (x := x) in H as (y & Hy & E); [|done].
  cbn in E. eauto.
Qed.

(** ** Properties *)


(** A prefixed view cannot touch anything outside its prefix: whatever a
    mutating call through [Prefixed(memory, p)] returns, other memories and every
    key that does not extend [p] keep their entries. *)
Theorem prefixed_isolation (p : Key) (b : positive) (e : Env) (Hp : p <> []) :
  let s := Prefixed (SBackend b) p in
  (forall k, isolated p b (Store_Get s e k)) /\
  (forall k v, isolated p b (Store_Set s e k v)) /\
  (forall k, isolated p b (Store_Delete s e k)) /\
  (forall es, isolated p b (Store_BatchSet s e es)) /\
  (forall ks, isolated p b (Store_BatchDelete s e ks)) /\
  (forall es ks, isolated p b (Store_BatchMutate s e es ks)) /\
  (forall mu, isolated p b (Store_ApplyMutation s e mu)) /\
  (forall gs es, isolated p b (CreateIfAllAbsent s e gs es)) /\
  (forall g x es ks, isolated p b (CompareAndMutate s e g x es ks)).
Proof.
  cbn. split_and!; intros.
  - apply (frames_isolated p b [k]); [done|apply Get_frames].
  - apply (frames_isolated p b [k]); [done|apply Set_frames].
  - apply (frames_isolated p b [k]); [done|apply Delete_frames].
  - apply (frames_isolated p b (entry_Key <$> es)); [done|]. rewrite <-entry_keys_prefixed. apply BatchSet_frames.
  - apply (frames_isolated p b ks); [done|apply BatchDelete_frames].
  - apply (frames_isolated p b ((entry_Key <$> es) ++ ks)); [done|].
    rewrite fmap_app, <-entry_keys_prefixed. apply BatchMutate_frames.
  - apply (frames_isolated p b (mutationKeys mu)); [done|]. rewrite <-mutationKeys_scope. apply ApplyMutation_frames.
  - apply isolated_check, isolated_bind_ret, isolated_check.
    apply (frames_isolated p b ((entry_Key <$> es) ++ (entry_Key <$> gs))); [done|].
    rewrite fmap_app, <-!entry_keys_prefixed. apply CreateIfAllAbsent_frames.
  - apply (frames_isolated p b ((entry_Key <$> es) ++ ks)); [done|].
    rewrite fmap_app, <-entry_keys_prefixed. apply CompareAndMutate_frames.
Qed.

Lemma prefixed_isolation_witness :
  isolated ["tenant"] 1%positive (Store_Set (W:=heap) (Prefixed (SBackend 1%positive) ["tenant"]) (envAt 0) ["k"] "v").
Proof. apply (prefixed_isolation ["tenant"] 1%positive (envAt 0)). done. Defined.

(** When [SharedAtomicStore] accepts a list of stores, they all live on the
    one backend it returns, none is nil, and a mutation of the [i]-th store is the
    mutation of the returned root scoped by the [i]-th returned prefix: mutations
    of several of the views can be merged into one atomic [ApplyMutation]. *)
Theorem SharedAtomicStore_sound {B W : Type} `{!EqDecision B} `{!Backend B W}
    (stores : list (option (store B))) (root : store B) (prefixes : list Key)
    (H : SharedAtomicStore stores = Some (root, prefixes)) :
  stores <> [] /\ length prefixes = length stores /\
  (isStrongView root = existsb (fun s => match s with Some s => isStrongView s | None => false end) stores) /\
  forall i s, stores !! i = Some s -> exists s' p, s = Some s' /\ prefixes !! i = Some p /\
    forall e mu, Store_ApplyMutation (W:=W) s' e mu = Store_ApplyMutation (W:=W) root e (scopeMutation p mu).
Proof.
  unfold SharedAtomicStore in H. destruct (mapM id stores) as [[|s0 ss]|] eqn:EM; [done| |done].
  destruct (forallb _ _) eqn:EF; [|done]. injection H as <- <-.
  pose proof (length_mapM _ _ _ EM) as HL. split_and!.
  - by intros ->.
  - rewrite HL. cbn. f_equal. etrans; [apply length_fmap|apply length_fmap].
  - assert (existsb (fun s => match s with Some s => isStrongView s | None => false end) stores = existsb isStrongView (s0 :: ss)) as ->.
    { clear -EM. revert EM. generalize (s0 :: ss). induction stores as [|[s|] stores IH]; intros l E.
      - by injection E as <-.
      - cbn in E. destruct (mapM id stores) as [l'|] eqn:E'; [|done]. injection E as <-. cbn. by rewrite (IH l').
      - done. }
    cbn. by destruct (isStrongView s0 || existsb isStrongView ss).
  - intros i s Hi. destruct (mapM_id_lookup _ _ _ _ EM Hi) as (s' & -> & Hs').
    exists s', (atomicStoreView s').2. split_and!; [done| |].
    + change ((snd <$> (atomicStoreView <$> s0 :: ss)) !! i = Some (atomicStoreView s').2).
      by rewrite !list_lookup_fmap, Hs'.
    + intros e mu.
      assert ((atomicStoreView s').1 = (atomicStoreView s0).1) as Hr.
      { rewrite forallb_forall in EF. apply (bool_decide_eq_true _), (EF (atomicStoreView s')).
        apply list_elem_of_In, list_elem_of_fmap. exists s'. split; [done|]. by eapply list_elem_of_lookup_2. }
      rewrite Store_ApplyMutation_root, Hr. by destruct (isStrongView s0 || existsb isStrongView ss).
Qed.

Lemma SharedAtomicStore_sound_witness :
  SharedAtomicStore [Some (SPrefixed (SBackend 1%positive) ["a"]); Some (SPrefixed (SPrefixed (SBackend 1%positive) ["b"]) ["c"])]
    = Some (SBackend 1%positive, [["a"]; ["b"; "c"]]) /\
  length [["a"]; ["b"; "c"]] = 2%nat.
Proof.
  set (stores := [Some _; Some _]).
  assert (SharedAtomicStore stores = Some (SBackend 1%positive, [["a"]; ["b"; "c"]])) as E by (vm_compute; reflexivity).
  split; [exact E|]. exact (proj1 (proj2 (SharedAtomicStore_sound (W:=heap) stores _ _ E))).
Defined.
