(* ===== verification/KVIface.v ===== *)
(** * kv: the store as its clients see it

    The [kv.Store] methods [Get], [ApplyMutation] and [RangeOrderedMembers] as a class, and the
    promises the clients' theorems rest on: a store is a map from encoded keys to
    live records and collections; reads answer from it and leave it unchanged;
    [ApplyMutation] compares all conditions and applies the documented effect in
    one step, or changes nothing.

    [Memory] implements the interface.  Its instance counts the calls, so that each
    call sees a context of its own; the store's clock, which only matters for record
    deadlines, stands at one instant. *)

From stdpp Require Import gmap strings list.
From S2P Require Import Prelude GoStrings KVKey KVMemory KVSpec KVProps.

Open Scope Z_scope.

Class KVOps (W : Type) := {
  kvGet : Key -> ST W kvError string;
  kvApply : Mutation -> ST W kvError bool;
  kvRange : Key -> OrderedRange -> ST W kvError (list string)
}.

(** Every key a mutation names. *)
Definition namedKeys (mu : Mutation) : list Key :=
  map cond_Key (mut_Conditions mu) ++ map entry_Key (mut_Entries mu) ++ mut_DeleteKeys mu ++ map (fun pg => sm_Key pg.2) (phases mu).

Class KVLaws (W : Type) `{KVOps W} := {
  kv_opts : option Options;
  kv_ok : W -> Prop;
  kv_db : W -> gmap string aval;
  kvGet_law w k w' r :
    kv_ok w -> kvGet k w = (w', r) ->
    kv_ok w' /\ kv_db w' = kv_db w /\
    match r with
    | Ret v => exists d, kv_db w !! encK kv_opts k = Some (ARec v d)
    | Fail ErrNotFound => kv_db w !! encK kv_opts k = None
    | Fail _ => True
    | Panic => ~ cleanKey kv_opts k
    end;
  kvApply_law w mu w' r :
    kv_ok w -> kvApply mu w = (w', r) ->
    kv_ok w' /\
    match r with
    | Ret true =>
        Forall (specCondition kv_opts (kv_db w)) (mut_Conditions mu) /\
        Forall (cleanKey kv_opts) (namedKeys mu) /\
        kv_db w' = specMutation kv_opts mu (kv_db w)
    | Ret false => ~ Forall (specCondition kv_opts (kv_db w)) (mut_Conditions mu) /\ kv_db w' = kv_db w
    | _ => kv_db w' = kv_db w
    end;
  kvRange_law w k q w' r :
    kv_ok w -> kvRange k q w = (w', r) ->
    kv_ok w' /\ kv_db w' = kv_db w /\
    match r with
    | Ret l => l = take (Z.to_nat (or_Limit q)) (rangeAll q (setOf (kv_db w) (encK kv_opts k)))
    | _ => True
    end
}.

(** ** The in-memory store *)

Lemma foldGo_Forall {E A B} (P : A -> Prop) (f : B -> A -> Go E B) b xs b' :
  (forall b x b', f b x = Ret b' -> P x) -> foldGo f b xs = Ret b' -> Forall P xs.
Proof.
  intros Hf. revert b. induction xs as [|x xs IH]; intros b; cbn; [constructor|].
  intros (b1 & H1 & H2)%bind_Ret. constructor; [by eapply Hf|by eapply IH].
Qed.

(** An accepted mutation names clean keys only. *)
Lemma validate_clean e opts mu : Mutation_validate e opts mu = Ret tt -> Forall (cleanKey opts) (namedKeys mu).
Proof.
  unfold Mutation_validate, validateRecords. intros ([] & _ & (records & HR & (K & HK & _)%bind_Ret)%bind_Ret)%bind_Ret.
  apply bind_Ret in HR as (r1 & H1 & (r2 & H2 & H3)%bind_Ret).
  apply (foldGo_Forall (fun c => cleanKey opts (cond_Key c))) in H1; [|by intros ??? (k & [? _]%encodeKey_Ret & _)%bind_Ret].
  apply (foldGo_Forall (fun en => cleanKey opts (entry_Key en))) in H2;
    [|by intros ??? (_ & _ & (k & [? _]%encodeKey_Ret & _)%bind_Ret)%bind_Ret].
  apply (foldGo_Forall (fun k => cleanKey opts k)) in H3; [|by intros ??? (k & [? _]%encodeKey_Ret & _)%bind_Ret].
  apply (foldGo_Forall (fun pg => cleanKey opts (sm_Key pg.2))) in HK.
  - unfold namedKeys. rewrite !Forall_app. split_and!; [by apply Forall_map|by apply Forall_map|done|by apply Forall_map].
  - intros b [ph g] b'. unfold validateGroup. by intros (_ & _ & (k & [? _]%encodeKey_Ret & _)%bind_Ret)%bind_Ret.
Qed.

Section memory.
Context (at_ : Time) (ctxs : nat -> nat -> option kvError) (opts : option Options).

Definition callEnv (n : nat) : Env := MkEnv (ctxs n) (fun _ => at_) false.

(** The next call on the store. *)
Definition call {A} (m : Env -> ST Memory kvError A) : ST (Memory * nat) kvError A := fun w =>
  let '(m', r) := m (callEnv w.2) w.1 in ((m', S w.2), r).

Definition memoryOps : KVOps (Memory * nat) := {|
  kvGet k := call (fun e => Memory_Get e k);
  kvApply mu := call (fun e => Memory_ApplyMutation e mu);
  kvRange k q := call (fun e => Memory_RangeOrderedMembers e k q)
|}.

Definition memoryOk (w : Memory * nat) : Prop := wfMemory w.1 /\ mem_opts w.1 = opts.

Lemma checkCtx_not_Panic e i : checkCtx e i <> Panic.
Proof. unfold checkCtx. by destruct (ctxErr e i). Qed.

Lemma Get_db n k m m' r :
  wfMemory m -> (forall i, ctxs n i <> Some ErrNotFound) ->
  Memory_Get (callEnv n) k m = (m', r) ->
  wfMemory m' /\ mem_opts m' = mem_opts m /\ view at_ (mem_data m') = view at_ (mem_data m) /\
  match r with
  | Ret v => exists d, view at_ (mem_data m) !! encK (mem_opts m) k = Some (ARec v d)
  | Fail ErrNotFound => view at_ (mem_data m) !! encK (mem_opts m) k = None
  | Fail _ => True
  | Panic => ~ cleanKey (mem_opts m) k
  end.
Proof.
  intros Hwf Hctx E. pose proof (Get_wf (callEnv n) k m Hwf) as Hwf'. rewrite E in Hwf'. split; [done|].
  rewrite Get_eq in E. unfold checkCtx in E. cbn [callEnv ctxErr clock] in E.
  destruct (ctxs n 0%nat) as [err|] eqn:Ec.
  { injection E as <- <-. specialize (Hctx 0%nat). rewrite Ec in Hctx. destruct err; try done. }
  destruct (encodeKey (mem_opts m) k) as [key|err|] eqn:Ek.
  - apply encodeKey_Ret in Ek as [_ ->]. fold (encK (mem_opts m) k) in E. rewrite lookup_view.
    destruct (mem_data m !! encK (mem_opts m) k) as [entry|] eqn:Ed; [|by injection E as <- <-].
    destruct (expired entry at_) eqn:X.
    + injection E as <- <-. split_and!; [done| |done]. cbn. apply map_eq. intros j.
      destruct (decide (j = encK (mem_opts m) k)) as [->|Hj].
      * by rewrite !lookup_view, lookup_delete_eq, Ed, X.
      * by rewrite !lookup_view, lookup_delete_ne.
    + injection E as <- <-. unfold absEntry. destruct (me_members entry); split_and!; eauto.
  - by apply encodeKey_not_Fail in Ek.
  - injection E as <- <-. split_and!; try done. intros Hc%encodeKey_clean. congruence.
Qed.

Definition memoryLaws (Hctx : forall n i, ctxs n i <> Some ErrNotFound) : @KVLaws (Memory * nat) memoryOps.
Proof.
  refine (@Build_KVLaws (Memory * nat) memoryOps opts memoryOk (fun w => view at_ (mem_data w.1)) _ _ _).
  - intros [m n] k w' r [Hwf Ho] E. cbn in E, Hwf, Ho. unfold call in E. cbn in E.
    destruct (Memory_Get (callEnv n) k m) as [m1 r1] eqn:E1. injection E as <- <-.
    destruct (Get_db _ _ _ _ _ Hwf (Hctx n) E1) as (H1 & H2 & H3 & H4). rewrite Ho in *. by split_and!.
  - intros [m n] mu w' r [Hwf Ho] E. cbn in E, Hwf, Ho. unfold call in E. cbn in E.
    destruct (Memory_ApplyMutation (callEnv n) mu m) as [m1 r1] eqn:E1. injection E as <- <-.
    pose proof (ApplyMutation_refines_lemma _ _ _ _ _ Hwf E1) as HA. cbn [clock callEnv] in HA. rewrite Ho in HA.
    cbn [fst]. destruct r1 as [[]|e|]; cbn zeta in HA.
    + destruct HA as (H1 & H2 & H3 & H4). split; [split; [done|by cbn; congruence]|]. split_and!; [done| |done].
      apply ApplyMutation_inv in E1 as [(_ & ? & _)|(_ & ? & ? & Hv & _)]; [done|].
      rewrite Ho in Hv. by eapply validate_clean.
    + destruct HA as (H1 & ->). by split_and!.
    + subst m1. by split_and!.
    + subst m1. by split_and!.
  - intros [m n] k q w' r [Hwf Ho] E. cbn in E, Hwf, Ho. unfold call in E. cbn in E.
    destruct (Memory_RangeOrderedMembers (callEnv n) k q m) as [m1 r1] eqn:E1. injection E as <- <-.
    cbn [fst]. assert (m1 = m) as ->.
    { assert (readOnly (Memory_RangeOrderedMembers (callEnv n) k q)) as Hro by apply collection_read_readOnly.
      specialize (Hro m). by rewrite E1 in Hro. }
    destruct r1 as [l|e|]; [|by split_and!..]. apply Range_inv in E1 as (_ & _ & ->). cbn [clock callEnv].
    rewrite Ho. by split_and!.
Defined.
End memory.
