(* ===== verification/Triple.v ===== *)
(** * Triples on the contents of a state

    A program logic for [ST]: what a call does to the part [db] of its state, from
    states that satisfy [ok].  [spec] is the form for calls that only read: the
    contents stay, and the result, error or panic satisfies a relation; [runs] for calls
    from given contents. *)

From S2P Require Import Prelude.

Section triple.
Context {S D E : Type} (ok : S -> Prop) (db : S -> D).

Definition gtriple {A} (P : D -> Prop) (m : ST S E A) (Q : D -> D -> Go E A -> Prop) : Prop :=
  forall w w' r, ok w -> P (db w) -> m w = (w', r) -> ok w' /\ Q (db w) (db w') r.

Definition spec {A} (P : D -> Prop) (m : ST S E A) (R : D -> Go E A -> Prop) : Prop :=
  gtriple P m (fun M M' r => M' = M /\ R M r).

Lemma gtriple_bind {A B} P (m : ST S E A) (f : A -> ST S E B) R Q :
  spec P m R ->
  (forall a, gtriple (fun M => P M /\ R M (Ret a)) (f a) Q) ->
  (forall M e, P M -> R M (Fail e) -> Q M M (Fail e)) -> (forall M, P M -> R M Panic -> Q M M Panic) ->
  gtriple P (m ≫= f) Q.
Proof.
  intros Hm Hf HF HP w w' r Hok HPw EQ. unfold mbind, ST_bind in EQ. destruct (m w) as [w1 r1] eqn:E1.
  destruct (Hm w w1 r1 Hok HPw E1) as (Hok1 & HD & HR).
  destruct r1 as [a|e|]; [|injection EQ as <- <-; rewrite HD; auto..].
  destruct (Hf a w1 w' r Hok1) as [Hok2 HQ]; [by rewrite HD|done|]. by rewrite HD in HQ.
Qed.

(** Sequencing after a call that may write. *)
Lemma gtriple_seq {A B} P (m : ST S E A) (f : A -> ST S E B) Q1 P2 Q :
  gtriple P m Q1 ->
  (forall M M1 a, P M -> Q1 M M1 (Ret a) -> P2 a M M1) ->
  (forall a M, P M -> gtriple (P2 a M) (f a) (fun _ M' r => Q M M' r)) ->
  (forall M M1 e, P M -> Q1 M M1 (Fail e) -> Q M M1 (Fail e)) -> (forall M M1, P M -> Q1 M M1 Panic -> Q M M1 Panic) ->
  gtriple P (m ≫= f) Q.
Proof.
  intros Hm H2 Hf HF HP w w' r Hok HPw EQ. unfold mbind, ST_bind in EQ. destruct (m w) as [w1 r1] eqn:E1.
  destruct (Hm w w1 r1 Hok HPw E1) as (Hok1 & HQ1).
  destruct r1 as [a|e|]; [|injection EQ as <- <-; auto..]. by apply (Hf a (db w) HPw w1 w' r Hok1); [apply H2|].
Qed.

Lemma spec_bind {A B} P (m : ST S E A) (f : A -> ST S E B) R R' :
  spec P m R ->
  (forall a, spec (fun M => P M /\ R M (Ret a)) (f a) R') ->
  (forall M e, P M -> R M (Fail e) -> R' M (Fail e)) -> (forall M, P M -> R M Panic -> R' M Panic) ->
  spec P (m ≫= f) R'.
Proof. intros Hm Hf HF HP. eapply gtriple_bind; [exact Hm|exact Hf|auto..]. Qed.

Lemma spec_lift {A} P (g : Go E A) (R : D -> Go E A -> Prop) : (forall M, P M -> R M g) -> spec P (lift g) R.
Proof. intros HR w w' r Hok HP [= <- <-]. auto. Qed.

Lemma spec_ret {A} P (a : A) (R : D -> Go E A -> Prop) : (forall M, P M -> R M (Ret a)) -> spec P (mret a) R.
Proof. intros HR w w' r Hok HP [= <- <-]. auto. Qed.

Lemma spec_fail {A} P e (R : D -> Go E A -> Prop) : (forall M, P M -> R M (Fail e)) -> spec P (failST e) R.
Proof. intros HR w w' r Hok HP [= <- <-]. auto. Qed.

Lemma spec_check P bad e (R : D -> Go E unit -> Prop) :
  (forall M, P M -> bad = false -> R M (Ret tt)) -> (forall M, P M -> bad = true -> R M (Fail e)) -> spec P (checkST bad e) R.
Proof. intros H1 H2. apply spec_lift. intros M HP. unfold check. destruct bad; auto. Qed.

Lemma spec_weaken {A} (P P' : D -> Prop) (m : ST S E A) (R R' : D -> Go E A -> Prop) :
  spec P' m R' -> (forall M, P M -> P' M) -> (forall M r, P M -> R' M r -> R M r) -> spec P m R.
Proof.
  intros Hm HP HR w w' r Hok HPw EQ. destruct (Hm w w' r Hok (HP _ HPw) EQ) as (H1 & H2 & H3). auto.
Qed.

Lemma spec_try {A} P (m : ST S E A) (R : D -> Go E A -> Prop) :
  spec P m R ->
  spec P (tryST m) (fun M r => match r with Ret (inr a) => R M (Ret a) | Ret (inl e) => R M (Fail e) | Fail _ => False | Panic => R M Panic end).
Proof.
  intros Hm w w' r Hok HP EQ. unfold tryST in EQ. destruct (m w) as [w1 r1] eqn:E1.
  destruct (Hm w w1 r1 Hok HP E1) as (H1 & H2 & H3). destruct r1 as [a|e|]; injection EQ as <- <-; auto.
Qed.

Lemma gtriple_try {A} P (m : ST S E A) (Q : D -> D -> Go E A -> Prop) :
  gtriple P m Q ->
  gtriple P (tryST m) (fun M M' r => match r with Ret (inr a) => Q M M' (Ret a) | Ret (inl e) => Q M M' (Fail e) | Fail _ => False | Panic => Q M M' Panic end).
Proof.
  intros Hm w w' r Hok HP EQ. unfold tryST in EQ. destruct (m w) as [w1 r1] eqn:E1.
  destruct (Hm w w1 r1 Hok HP E1) as (H1 & H2). destruct r1 as [a|e|]; injection EQ as <- <-; auto.
Qed.

Lemma gtriple_weaken {A} (P P' : D -> Prop) (m : ST S E A) (Q Q' : D -> D -> Go E A -> Prop) :
  gtriple P' m Q' -> (forall M, P M -> P' M) -> (forall M M' r, P M -> Q' M M' r -> Q M M' r) -> gtriple P m Q.
Proof. intros Hm HP HQ w w' r Hok HPw EQ. destruct (Hm w w' r Hok (HP _ HPw) EQ) as (H1 & H2). auto. Qed.

(** A fact that holds of the contents may be assumed of every instance. *)
Lemma gtriple_fact {A} (P : D -> Prop) (F : Prop) (m : ST S E A) Q :
  (forall M, P M -> F) -> (F -> gtriple P m Q) -> gtriple P m Q.
Proof. intros HF Hm w w' r Hok HP. apply Hm; [by eapply HF|done|done]. Qed.

(** ** Runs from known contents *)
Definition runs {A} (d : D) (m : ST S E A) (Q : D -> Go E A -> Prop) : Prop := gtriple (eq d) m (fun _ => Q).

Lemma runs_bind {A B} d (m : ST S E A) (f : A -> ST S E B) Q1 Q :
  runs d m Q1 -> (forall a d', Q1 d' (Ret a) -> runs d' (f a) Q) -> (forall d' e, Q1 d' (Fail e) -> Q d' (Fail e)) -> (forall d', Q1 d' Panic -> Q d' Panic) -> runs d (m ≫= f) Q.
Proof.
  intros Hm Hf HF HP w w' r Hok Hd. unfold mbind, ST_bind. destruct (m w) as [w1 r1] eqn:E1. destruct (Hm w w1 r1 Hok Hd E1) as [Hok1 H1].
  destruct r1 as [a|e|]; [|by intros [= <- <-]; auto..]. by apply (Hf a (db w1) H1 w1 w' r Hok1).
Qed.

Lemma runs_weaken {A} d (m : ST S E A) Q Q' : runs d m Q' -> (forall d' r, Q' d' r -> Q d' r) -> runs d m Q.
Proof. intros Hm HQ w w' r Hok Hd HE. destruct (Hm w w' r Hok Hd HE). auto. Qed.

Lemma runs_lift {A} d (g : Go E A) Q : Q d g -> runs d (lift g) Q.
Proof. intros HQ w w' r Hok Hd [= <- <-]. by subst d. Qed.

Lemma runs_try {A} d (m : ST S E A) Q :
  runs d m Q -> runs d (tryST m) (fun d' r => match r with Ret (inr a) => Q d' (Ret a) | Ret (inl e) => Q d' (Fail e) | Fail _ => False | Panic => Q d' Panic end).
Proof.
  intros Hm w w' r Hok Hd. unfold tryST. destruct (m w) as [w1 r1] eqn:E1. destruct (Hm w w1 r1 Hok Hd E1). destruct r1; by intros [= <- <-].
Qed.
End triple.
