(* ===== verification/KVSets.v ===== *)
(** * kv: sets, limits and shared stores as clients see them

    What the services need beyond [KVIface]: the effect of a mutation key by key; sets,
    limits and collection types with their laws; and a store that other clients use at
    the same time. *)

From stdpp Require Import gmap strings list.
From S2P Require Import Prelude GoStrings KVKey KVMemory KVSpec KVProps KVIface.

Open Scope Z_scope.

(** * kv: the effect of a mutation key by key

    What the documented effect of a mutation ([KVSpec]) does to one key: entries,
    deletions and groups change the keys they name and no other. *)

Section effects.
Context {opts : option Options}.
Implicit Types (M : gmap string aval).

Local Notation E := (encK opts).

Lemma encK_inj k1 k2 : cleanKey opts k1 -> cleanKey opts k2 -> k1 <> [] -> k2 <> [] -> E k1 = E k2 -> k1 = k2.
Proof. apply joinByte_inj. Qed.

Lemma specGroup_other M pg k : k <> E (sm_Key pg.2) -> specGroup opts M pg !! k = M !! k.
Proof.
  intros Hk. unfold specGroup. case_bool_decide; [done|]. case_bool_decide; [by rewrite lookup_delete_ne|by rewrite lookup_insert_ne].
Qed.

Lemma setOf_specGroup M pg k :
  setOf (specGroup opts M pg) k =
    if bool_decide (k = E (sm_Key pg.2)) then
      (if phaseAdds pg.1 then list_to_set (sm_Members pg.2) ∪ setOf M k else setOf M k ∖ list_to_set (sm_Members pg.2))
    else setOf M k.
Proof.
  case_bool_decide as Hk; [|unfold setOf; by rewrite specGroup_other].
  unfold specGroup. case_bool_decide as Hm.
  - rewrite Hm. cbn [list_to_set]. destruct (phaseAdds pg.1); set_solver.
  - subst k. case_bool_decide as Hn.
    + unfold setOf at 1. by rewrite lookup_delete_eq.
    + unfold setOf at 1. by rewrite lookup_insert_eq.
Qed.

Lemma groups_other M pgs k : (forall pg, pg ∈ pgs -> k <> E (sm_Key pg.2)) -> foldl (specGroup opts) M pgs !! k = M !! k.
Proof.
  revert M. induction pgs as [|pg pgs IH]; intros M Hk; [done|]. cbn. rewrite IH by (intros; apply Hk; by right).
  apply specGroup_other, Hk. by left.
Qed.

Lemma setOf_ext M M' k : M' !! k = M !! k -> setOf M' k = setOf M k.
Proof. unfold setOf. by intros ->. Qed.

Lemma entries_other M entries k :
  (forall en, en ∈ entries -> k <> E (entry_Key en)) ->
  foldl (fun M en => <[E (entry_Key en) := ARec (entry_Value en) (entry_Deadline en)]> M) M entries !! k = M !! k.
Proof.
  revert M. induction entries as [|en entries IH]; intros M Hk; [done|]. cbn. rewrite IH by (intros; apply Hk; by right).
  apply lookup_insert_ne, not_eq_sym, Hk. by left.
Qed.

Lemma deletes_lookup M keys k :
  foldl (fun M key => delete (E key) M) M keys !! k = if bool_decide (k ∈ E <$> keys) then None else M !! k.
Proof.
  revert M. induction keys as [|key keys IH]; intros M; [done|]. cbn [foldl fmap list_fmap]. rewrite IH.
  case_bool_decide as H1; case_bool_decide as H2; [done|set_solver| |].
  - assert (k = E key) as -> by set_solver. by rewrite lookup_delete_eq.
  - rewrite lookup_delete_ne; [done|]. set_solver.
Qed.
End effects.

(** * kv: plain sets and member limits as clients see them

    Extends the store interface of [KVIface] by the calls of clients that keep plain
    sets: [Set], [ListMembers], and the member limit of a mutation.  A mutation is
    applied only if every group with a limit leaves its collection within the limit or
    does not make it larger, and [ErrMemberLimit] is reported only when one would not.
    [KVTypeLaws] is the promise on collection types.  [Memory] keeps these promises too. *)

(** ** Limits of a mutation *)
Definition limitOk (opts : option Options) (M : gmap string aval) (pg : nat * SetMembers) : Prop :=
  let key := encK opts (sm_Key pg.2) in
  let after := Z.of_nat (size (setOf (specGroup opts M pg) key)) in
  0 < sm_MaxMembers pg.2 -> after <= sm_MaxMembers pg.2 \/ after <= Z.of_nat (size (setOf M key)).

(** The groups one after the other. *)
Fixpoint limitsOk (opts : option Options) (M : gmap string aval) (pgs : list (nat * SetMembers)) : Prop :=
  match pgs with
  | [] => True
  | pg :: pgs => limitOk opts M pg /\ limitsOk opts (specGroup opts M pg) pgs
  end.

(** The contents after the entries and deletions of a mutation. *)
Definition specRecords (opts : option Options) (mu : Mutation) (M : gmap string aval) : gmap string aval :=
  foldl (fun M k => delete (encK opts k) M)
    (foldl (fun M en => <[encK opts (entry_Key en) := ARec (entry_Value en) (entry_Deadline en)]> M) M (mut_Entries mu))
    (mut_DeleteKeys mu).

Definition withinLimits (opts : option Options) (mu : Mutation) (M : gmap string aval) : Prop :=
  limitsOk opts (specRecords opts mu M) (phases mu).

Class KVSetOps (W : Type) := {
  kvSet : Key -> string -> ST W kvError unit;
  kvMembers : Key -> ST W kvError (list string)
}.

Class KVSetLaws (W : Type) `{KVOps W, !KVLaws W, !KVSetOps W} := {
  kvSet_law w k v w' r :
    kv_ok w -> kvSet k v w = (w', r) ->
    kv_ok w' /\ match r with Ret _ => kv_db w' = <[encK kv_opts k := ARec v 0]> (kv_db w) | Fail _ => kv_db w' = kv_db w | Panic => kv_db w' = kv_db w /\ ~ cleanKey kv_opts k end;
  kvMembers_law w k w' r :
    kv_ok w -> kvMembers k w = (w', r) ->
    kv_ok w' /\ kv_db w' = kv_db w /\
    match r with Ret l => NoDup l /\ list_to_set l = setOf (kv_db w) (encK kv_opts k) | Fail _ => True | Panic => ~ cleanKey kv_opts k end;
  kvGet_clean w k w' r :
    kv_ok w -> kvGet k w = (w', r) -> (exists v, r = Ret v) \/ r = Fail ErrNotFound -> cleanKey kv_opts k;
  kvApply_limit w mu w' r :
    kv_ok w -> kvApply mu w = (w', r) ->
    (r = Ret true -> withinLimits kv_opts mu (kv_db w)) /\ (r = Fail ErrMemberLimit -> ~ withinLimits kv_opts mu (kv_db w)) /\
    (r = Panic -> ~ Forall (cleanKey kv_opts) (namedKeys mu))
}.

(** ** The in-memory store *)
Section limits.
Implicit Types (M : gmap string aval).

(** No limit error, and no panic when the keys are clean. *)
Definition noLimit {A} (clean : Prop) (g : Go kvError A) : Prop := g <> Fail ErrMemberLimit /\ (clean -> g <> Panic).

Lemma noLimit_bind {A B} clean (g : Go kvError A) (f : A -> Go kvError B) : noLimit clean g -> (forall a, noLimit clean (f a)) -> noLimit clean (g ≫= f).
Proof. unfold noLimit. destruct g; cbn; naive_solver. Qed.

Lemma noLimit_foldGo {A B} clean (f : B -> A -> Go kvError B) b xs : (forall b x, x ∈ xs -> noLimit clean (f b x)) -> noLimit clean (foldGo f b xs).
Proof.
  revert b. induction xs as [|x xs IH]; intros b Hf; cbn; [done|]. apply noLimit_bind; [apply Hf; by left|]. intros b'. apply IH. intros; apply Hf; by right.
Qed.

Lemma noLimit_check clean bad e : e <> ErrMemberLimit -> noLimit clean (check bad e).
Proof. unfold noLimit. destruct bad; cbn; naive_solver. Qed.

Lemma noLimit_encode (clean : Prop) opts k : (clean -> cleanKey opts k) -> noLimit clean (encodeKey opts k).
Proof.
  intros Hc. split; [intros HF; by apply encodeKey_not_Fail in HF|]. intros Hcl HP. apply Hc in Hcl. by rewrite encodeKey_clean in HP.
Qed.

Lemma noLimit_ret {A} clean (a : A) : noLimit clean (Ret a).
Proof. done. Qed.

Lemma noLimit_ctx clean e i : ctxErr e i <> Some ErrMemberLimit -> noLimit clean (checkCtx e i).
Proof. unfold noLimit, checkCtx. destruct (ctxErr e i); naive_solver. Qed.

Definition named (opts : option Options) (mu : Mutation) : Prop := Forall (cleanKey opts) (namedKeys mu).

Lemma named_condition opts mu c : named opts mu -> c ∈ mut_Conditions mu -> cleanKey opts (cond_Key c).
Proof. unfold named, namedKeys. rewrite !Forall_app, !Forall_map, !Forall_forall. naive_solver. Qed.
Lemma named_entry opts mu en : named opts mu -> en ∈ mut_Entries mu -> cleanKey opts (entry_Key en).
Proof. unfold named, namedKeys. rewrite !Forall_app, !Forall_map, !Forall_forall. naive_solver. Qed.
Lemma named_delete opts mu x : named opts mu -> x ∈ mut_DeleteKeys mu -> cleanKey opts x.
Proof. unfold named, namedKeys. rewrite !Forall_app, !Forall_map, !Forall_forall. naive_solver. Qed.
Lemma named_group opts mu pg : named opts mu -> pg ∈ phases mu -> cleanKey opts (sm_Key pg.2).
Proof. unfold named, namedKeys. rewrite !Forall_app, !Forall_map, !Forall_forall. naive_solver. Qed.
#[local] Hint Resolve named_condition named_entry named_delete named_group : core.

(** A computation made of checks, encodings and loops. *)
Ltac no_limit :=
  repeat first [apply noLimit_ret | apply noLimit_encode; by eauto | apply noLimit_check; discriminate | apply noLimit_foldGo | apply noLimit_bind
               | match goal with |- forall _, _ => intro end].

Lemma noLimit_validate e opts mu : ctxErr e 0 <> Some ErrMemberLimit -> noLimit (named opts mu) (Mutation_validate e opts mu).
Proof.
  intros Hc. unfold Mutation_validate, validateRecords. apply noLimit_bind; [by apply noLimit_ctx|]. intros [].
  apply noLimit_bind; [no_limit|intros records; apply noLimit_bind; [|no_limit]].
  apply noLimit_foldGo. intros b [ph g] Hin. unfold validateGroup. apply noLimit_bind; [no_limit|intros _].
  apply noLimit_bind; [apply noLimit_encode; intros Hn; by apply (named_group opts mu (ph, g))|]. no_limit.
Qed.

Lemma noLimit_records opts now mu : noLimit (named opts mu) (stageRecords opts now mu).
Proof.
  unfold stageRecords.
  no_limit.
Qed.

Lemma noLimit_conditions clean opts d now cs :
  (clean -> Forall (fun c => cleanKey opts (cond_Key c)) cs) -> noLimit clean (checkConditions opts d now cs).
Proof.
  induction cs as [|c cs IH]; cbn [checkConditions]; [done|]. setoid_rewrite Forall_cons. intros Hcl.
  apply noLimit_bind; [apply noLimit_encode; naive_solver|intros k]. assert (noLimit clean (checkConditions opts d now cs)) by naive_solver.
  destruct (d !! k) as [entry|], (cond_Expected c); repeat case_match; done.
Qed.

(** One group of the staging loop decides the limit of that group. *)
Lemma stageGroup_limit records K opts now d st M pg :
  simStaging records K now d st M -> wfData d ->
  encK opts (sm_Key pg.2) ∉ records -> K !! encK opts (sm_Key pg.2) = Some (phaseOrdered pg.1) ->
  (forall st', stageGroup opts d now st pg = Ret st' -> limitOk opts M pg) /\
  (stageGroup opts d now st pg = Fail ErrMemberLimit -> ~ limitOk opts M pg) /\
  (stageGroup opts d now st pg = Panic -> ~ cleanKey opts (sm_Key pg.2)).
Proof.
  destruct pg as [ph g]. cbn [fst snd]. intros HS Hwf Hrec HK. unfold stageGroup, limitOk. cbn [fst snd].
  destruct (bool_decide (sm_Members g = [])) eqn:Hms.
  { split; [|done]. intros st' _ _. right. unfold specGroup. cbn [fst snd]. by rewrite Hms. }
  assert (setOf (specGroup opts M (ph, g)) (encK opts (sm_Key g)) =
    if phaseAdds ph then list_to_set (sm_Members g) ∪ setOf M (encK opts (sm_Key g)) else setOf M (encK opts (sm_Key g)) ∖ list_to_set (sm_Members g)) as Hnew.
  { rewrite setOf_specGroup. by rewrite bool_decide_eq_true_2. }
  destruct (encodeKey opts (sm_Key g)) as [k|e|] eqn:Ek; [|by apply encodeKey_not_Fail in Ek|].
  2:{ split_and!; [done..|]. intros _ Hc%encodeKey_clean. congruence. }
  apply encodeKey_Ret in Ek as [_ Ek]. fold (encK opts (sm_Key g)) in Ek. rewrite <-Ek in *. clear Ek. cbn [mbind Go_bind].
  destruct (match stg_staged st !! k with Some _ => _ | None => _ end) as [entry|e|] eqn:Hent; cbn [mbind Go_bind].
  2:{ split_and!; [done| |done]. intros [= ->]. exfalso. revert Hent. repeat case_match; done. }
  2:{ exfalso. revert Hent. repeat case_match; done. }
  apply (stage_entry_spec records K now d st M) in Hent; [|done..]. subst entry.
  cbn [me_members applyMembers mbind Go_bind memberCount]. rewrite <-Hnew.
  set (after := Z.of_nat (size (setOf (specGroup opts M (ph, g)) k))). set (before := Z.of_nat (size (setOf M k))).
  destruct ((0 <? sm_MaxMembers g) && (sm_MaxMembers g <? after) && (before <? after)) eqn:Hc; cbn [check mbind Go_bind].
  - split_and!; [done| |done]. intros _ Hok. rewrite !andb_true_iff, !Z.ltb_lt in Hc. lia.
  - split_and!; [|done|done]. intros st' _ Hpos. rewrite !andb_false_iff, !Z.ltb_ge in Hc. lia.
Qed.

Lemma stageGroups_limit opts now d records K pgs st M :
  wfData d ->
  (forall pg, pg ∈ pgs -> encK opts (sm_Key pg.2) ∉ records /\ K !! encK opts (sm_Key pg.2) = Some (phaseOrdered pg.1)) ->
  simStaging records K now d st M ->
  (forall st', foldGo (stageGroup opts d now) st pgs = Ret st' -> limitsOk opts M pgs) /\
  (foldGo (stageGroup opts d now) st pgs = Fail ErrMemberLimit -> ~ limitsOk opts M pgs) /\
  (foldGo (stageGroup opts d now) st pgs = Panic -> ~ Forall (fun pg => cleanKey opts (sm_Key pg.2)) pgs).
Proof.
  intros Hwf. revert st M. induction pgs as [|pg pgs IH]; intros st M HK HS; cbn [foldGo limitsOk]; [done|]. rewrite Forall_cons.
  destruct (HK pg) as [R1 K1]; [by left|]. destruct (stageGroup_limit records K opts now d st M pg HS Hwf R1 K1) as (HL1 & HL2 & HL3).
  destruct (stageGroup opts d now st pg) as [st1|e|] eqn:E1; cbn [mbind Go_bind].
  - destruct (IH st1 (specGroup opts M pg)) as (I1 & I2 & I3); [intros pg' Hin; apply HK; by right|by eapply stageGroup_sim|].
    split_and!; [intros st' Hf; split; by eauto|intros Hf [_ Hl]; by apply I2|intros Hf [_ Hl]; by apply I3].
  - split_and!; [done| |done]. intros [= ->] [Hl _]. by apply HL2.
  - split_and!; [done|done|]. intros _ [Hc _]. by apply HL3.
Qed.

Lemma ApplyMutation_limit e mu m m' r :
  wfMemory m -> (forall i, ctxErr e i <> Some ErrMemberLimit) -> Memory_ApplyMutation e mu m = (m', r) ->
  let M := view (clock e 1) (mem_data m) in
  (r = Ret true -> withinLimits (mem_opts m) mu M) /\ (r = Fail ErrMemberLimit -> ~ withinLimits (mem_opts m) mu M) /\
  (r = Panic -> ~ named (mem_opts m) mu).
Proof.
  intros Hwf Hctx. unfold Memory_ApplyMutation, mbind, ST_bind, getST, lift. cbn.
  destruct (noLimit_validate e (mem_opts m) mu (Hctx 0%nat)) as [N1 P1].
  destruct (Mutation_validate e (mem_opts m) mu) as [[]|err|] eqn:Hv; [|intros [= <- <-]; split_and!; [done|congruence|naive_solver]..].
  destruct (noLimit_ctx (named (mem_opts m) mu) e 1 (Hctx 1%nat)) as [N2 P2].
  destruct (checkCtx e 1) as [[]|err|]; [|intros [= <- <-]; split_and!; [done|congruence|naive_solver]..].
  destruct (noLimit_conditions (named (mem_opts m) mu) (mem_opts m) (mem_data m) (clock e 1) (mut_Conditions mu)) as [N3 P3].
  { intros Hn. apply Forall_forall. eauto. }
  destruct (checkConditions _ _ _ _) as [[]|err|]; cbn; [|by intros [= <- <-]|intros [= <- <-]; split_and!; [done|congruence|naive_solver]..].
  destruct (noLimit_records (mem_opts m) (clock e 1) mu) as [N4 P4].
  destruct (stageRecords _ _ _) as [st0|err|] eqn:Hs; [|intros [= <- <-]; split_and!; [done|congruence|naive_solver]..].
  unfold Mutation_validate in Hv. apply bind_Ret in Hv as ([] & _ & Hv).
  apply bind_Ret in Hv as (records & HR & Hv). apply bind_Ret in Hv as (K & HK & _).
  destruct (stageGroups_limit (mem_opts m) (clock e 1) (mem_data m) records K (phases mu) st0
    (specRecords (mem_opts m) mu (view (clock e 1) (mem_data m))) Hwf) as (L1 & L2 & L3).
  { by eapply validate_groups. }
  { eapply stageRecords_sim; [right; by eapply validateRecords_spec|done]. }
  destruct (foldGo (stageGroup _ _ _) st0 _) as [st|err|] eqn:E; cbn; intros [= <- <-]; split_and!; try done.
  - intros _. by apply (L1 st).
  - intros [= ->]. by apply L2.
  - intros _ Hn. apply L3; [done|]. apply Forall_forall. eauto.
Qed.
End limits.

Section memory.
Context (at_ : Time) (ctxs : nat -> nat -> option kvError) (opts : option Options).
Context (Hctx : forall n i, ctxs n i <> Some ErrNotFound) (Hlim : forall n i, ctxs n i <> Some ErrMemberLimit).

Lemma checkCtx_no_panic e i : checkCtx e i <> Panic.
Proof. unfold checkCtx. by destruct (ctxErr e i). Qed.

Lemma encodeKey_Panic o k : encodeKey o k = Panic -> ~ cleanKey o k.
Proof. intros HP Hc%encodeKey_clean. congruence. Qed.

Definition memorySetOps : KVSetOps (Memory * nat) := {|
  kvSet k v := call at_ ctxs (fun e => Memory_Set e k v);
  kvMembers k := call at_ ctxs (fun e => Memory_ListMembers e k)
|}.

Lemma Set_db n k v m m' r :
  Memory_Set (callEnv at_ ctxs n) k v m = (m', r) ->
  match r with
  | Ret _ => view at_ (mem_data m') = <[encK (mem_opts m) k := ARec v 0]> (view at_ (mem_data m))
  | Fail _ => m' = m
  | Panic => m' = m /\ ~ cleanKey (mem_opts m) k
  end.
Proof.
  unfold Memory_Set, encodeM, mbind, ST_bind, getST, putST, lift. cbn. destruct (checkCtx _ 0) as [[]|e|] eqn:Hc; [|by intros [= <- <-]|by apply checkCtx_no_panic in Hc].
  destruct (encodeKey (mem_opts m) k) as [key|e|] eqn:Ek; cbn; [|by intros [= <- <-]|intros [= <- <-]; split; [done|]; by apply encodeKey_Panic]. intros [= <- <-]. cbn.
  apply encodeKey_Ret in Ek as [_ ->]. fold (encK (mem_opts m) k). apply map_eq. intros j. rewrite lookup_view.
  destruct (decide (j = encK (mem_opts m) k)) as [->|Hj]; [by rewrite !lookup_insert_eq|]. by rewrite !lookup_insert_ne, lookup_view by done.
Qed.

Lemma Members_db n k m m' r :
  Memory_ListMembers (callEnv at_ ctxs n) k m = (m', r) ->
  m' = m /\ match r with Ret l => NoDup l /\ list_to_set l = setOf (view at_ (mem_data m)) (encK (mem_opts m) k) | Fail _ => True | Panic => ~ cleanKey (mem_opts m) k end.
Proof.
  intros HE. split.
  { assert (readOnly (Memory_ListMembers (callEnv at_ ctxs n) k)) as Hro by apply collection_read_readOnly. specialize (Hro m). by rewrite HE in Hro. }
  revert HE. unfold Memory_ListMembers, lookupCollection, encodeM, mbind, ST_bind, getST, lift. cbn.
  destruct (checkCtx _ 0) as [[]|e|] eqn:Hc; [|by intros [= <- <-]|by apply checkCtx_no_panic in Hc].
  destruct (encodeKey (mem_opts m) k) as [key|e|] eqn:Ek; cbn; [|by intros [= <- <-]|intros [= <- <-]; by apply encodeKey_Panic].
  apply encodeKey_Ret in Ek as [_ Ek]. fold (encK (mem_opts m) k) in Ek. rewrite <-Ek. unfold setOf. rewrite lookup_view.
  destruct (mem_data m !! key) as [entry|]; cbn; [|intros [= <- <-]; by split; [constructor|]].
  destruct (expired entry at_); cbn; [intros [= <- <-]; by split; [constructor|]|]. unfold absEntry.
  destruct (me_members entry) as [s|]; cbn; [|by intros [= <- <-]].
  destruct (Bool.eqb _ _); cbn; intros [= <- <-]; [|done]. split; [apply NoDup_elements|]. by rewrite list_to_set_elements_L.
Qed.

Definition memorySetLaws :
  @KVSetLaws (Memory * nat) (memoryOps at_ ctxs) (memoryLaws at_ ctxs opts Hctx) memorySetOps.
Proof.
  refine (@Build_KVSetLaws (Memory * nat) (memoryOps at_ ctxs) (memoryLaws at_ ctxs opts Hctx) memorySetOps _ _ _ _).
  - intros [m n] k v w' r [Hwf Ho] E. cbn in E, Hwf, Ho. unfold call in E. cbn in E.
    destruct (Memory_Set (callEnv at_ ctxs n) k v m) as [m1 r1] eqn:E1. injection E as <- <-.
    pose proof (Set_wf (callEnv at_ ctxs n) k v m Hwf) as Hwf'. rewrite E1 in Hwf'.
    assert (mem_opts m1 = mem_opts m) as Hopts.
    { revert E1. unfold Memory_Set, encodeM, mbind, ST_bind, getST, putST, lift. cbn. destruct (checkCtx _ 0) as [[]|e|]; [|by intros [= <- <-]..].
      destruct (encodeKey (mem_opts m) k); cbn; by intros [= <- <-]. }
    apply Set_db in E1. cbn. rewrite Ho in *. split; [by split; cbn; [|congruence]|]. destruct r1; naive_solver.
  - intros [m n] k w' r [Hwf Ho] E. cbn in E, Hwf, Ho. unfold call in E. cbn in E.
    destruct (Memory_ListMembers (callEnv at_ ctxs n) k m) as [m1 r1] eqn:E1. injection E as <- <-.
    apply Members_db in E1 as [-> E1]. cbn. rewrite Ho in E1. by split_and!.
  - intros [m n] k w' r [Hwf Ho] E. cbn in E, Hwf, Ho. unfold call in E. cbn in E.
    destruct (Memory_Get (callEnv at_ ctxs n) k m) as [m1 r1] eqn:E1. injection E as <- <-. intros Hr.
    revert E1. unfold Memory_Get, encodeM, mbind, ST_bind, getST, lift. cbn. rewrite Ho.
    destruct (checkCtx _ 0) as [[]|e|] eqn:Hc; [|intros [= <- <-]..]; [|exfalso; destruct Hr as [[v Hr]|Hr]; [done|]; unfold checkCtx in Hc..|by destruct Hr as [[v ?]|?]].
    + destruct (encodeKey opts k) as [key|e|] eqn:Ek; [|by apply encodeKey_not_Fail in Ek|intros [= <- <-]; by destruct Hr as [[v ?]|?]].
      intros _. by apply encodeKey_Ret in Ek as [? _].
    + specialize (Hctx n 0%nat). cbn in Hc. destruct (ctxs n 0%nat); congruence.
  - intros [m n] mu w' r [Hwf Ho] E. cbn in E, Hwf, Ho. unfold call in E. cbn in E.
    destruct (Memory_ApplyMutation (callEnv at_ ctxs n) mu m) as [m1 r1] eqn:E1. injection E as <- <-.
    pose proof (ApplyMutation_limit (callEnv at_ ctxs n) _ _ _ _ Hwf (Hlim n) E1) as HL. cbn in HL. cbn. by rewrite Ho in HL.
Defined.

(** ** Collection types

    [ListMembers] reports [ErrWrongType] of anything but a plain set. *)
Lemma Members_type (Htype : forall n i, ctxs n i <> Some ErrWrongType) n k m m' r :
  Memory_ListMembers (callEnv at_ ctxs n) k m = (m', r) ->
  match r with
  | Ret _ => view at_ (mem_data m) !! encK (mem_opts m) k = None \/ exists s, view at_ (mem_data m) !! encK (mem_opts m) k = Some (ASet false s)
  | Fail ErrWrongType => forall s, view at_ (mem_data m) !! encK (mem_opts m) k <> Some (ASet false s)
  | _ => True
  end.
Proof.
  unfold Memory_ListMembers, lookupCollection, encodeM, mbind, ST_bind, getST, lift. cbn. unfold checkCtx at 1. cbn.
  specialize (Htype n 0%nat). destruct (ctxs n 0%nat) as [err|]; [intros [= <- <-]; by destruct err|].
  destruct (encodeKey (mem_opts m) k) as [key|e|] eqn:Ek; cbn; [|by apply encodeKey_not_Fail in Ek|by intros [= <- <-]].
  apply encodeKey_Ret in Ek as [_ Ek]. fold (encK (mem_opts m) k) in Ek. rewrite <-Ek, lookup_view.
  destruct (mem_data m !! key) as [entry|]; cbn; [|intros [= <- <-]; by left].
  destruct (expired entry at_); cbn; [intros [= <- <-]; by left|]. unfold absEntry.
  destruct (me_members entry) as [s|]; cbn; [|by intros [= <- <-]].
  destruct (me_ordered entry); cbn; intros [= <- <-]; [done|]. right. by eexists.
Qed.
End memory.

Class KVTypeLaws (W : Type) `{KVLaws W, !KVSetOps W} := {
  kvMembers_type w k w' r :
    kv_ok w -> kvMembers k w = (w', r) ->
    match r with
    | Ret _ => kv_db w !! encK kv_opts k = None \/ exists s, kv_db w !! encK kv_opts k = Some (ASet false s)
    | Fail ErrWrongType => forall s, kv_db w !! encK kv_opts k <> Some (ASet false s)
    | _ => True
    end
}.

Definition memoryTypeLaws (at_ : Time) (ctxs : nat -> nat -> option kvError) (opts : option Options) (Hctx : forall n i, ctxs n i <> Some ErrNotFound) (Htype : forall n i, ctxs n i <> Some ErrWrongType) :
  @KVTypeLaws (Memory * nat) (memoryOps at_ ctxs) (memoryLaws at_ ctxs opts Hctx) (memorySetOps at_ ctxs).
Proof.
  refine (@Build_KVTypeLaws (Memory * nat) (memoryOps at_ ctxs) (memoryLaws at_ ctxs opts Hctx) (memorySetOps at_ ctxs) _).
  intros [m n] k w' r [Hwf Ho] HE. cbn in HE, Hwf, Ho. unfold call in HE. cbn in HE.
  destruct (Memory_ListMembers (callEnv at_ ctxs n) k m) as [m1 r1] eqn:E1. injection HE as <- <-.
  apply (Members_type at_ ctxs Htype) in E1. cbn. by rewrite Ho in E1.
Defined.

(** * kv: a store shared with other clients

    [env n] is what the other clients of a store do before the [n]-th call of the one
    that is looked at; [sharedOps env] are the operations of a store on which this
    happens.  [logOps] carries a log beside the store that its calls leave alone. *)

Section shared.
Context {W : Type} (env : nat -> W -> W).

Definition sharedCall {E A} (m : ST W E A) : ST (W * nat) E A := fun w =>
  let '(w1, r) := m (env w.2 w.1) in ((w1, S w.2), r).

Definition sharedOps `{KVOps W} : KVOps (W * nat) := {|
  kvGet k := sharedCall (kvGet k); kvApply mu := sharedCall (kvApply mu); kvRange k q := sharedCall (kvRange k q)
|}.
Definition sharedSetOps `{KVSetOps W} : KVSetOps (W * nat) := {|
  kvSet k v := sharedCall (kvSet k v); kvMembers k := sharedCall (kvMembers k)
|}.
End shared.

Section log.
Context {W : Type}.

Definition logCall {E A} (m : ST W E A) : ST (W * list string) E A := fun x =>
  let '(w, r) := m x.1 in ((w, x.2), r).

Definition logOps `{KVOps W} : KVOps (W * list string) := {|
  kvGet k := logCall (kvGet k); kvApply mu := logCall (kvApply mu); kvRange k q := logCall (kvRange k q)
|}.
Definition logSetOps `{KVSetOps W} : KVSetOps (W * list string) := {|
  kvSet k v := logCall (kvSet k v); kvMembers k := logCall (kvMembers k)
|}.

(** Work that is entered in the log. *)
Definition logged {E A} (work : string -> ST W E A) (id : string) : ST (W * list string) E A := fun x =>
  let '(w, r) := work id x.1 in ((w, x.2 ++ [id]), r).
End log.
