(* ===== verification/CustomID.v ===== *)
(** * customid: resource identifiers

    [src/pkgs/gizclaw/customid]: validation of custom and resource identifiers
    ([id.go], [storage.go]), composite names ([compound.go]) and the escaping of
    opaque identifiers into storage key segments.  Errors carry their message
    without the wrapped cause.

    Theorems: the escapings are injective and separator-free, composite names split
    back and only canonical ones are accepted, [Validate] accepts exactly the
    documented pattern, and the FriendGroup bound leaves room for the member name. *)

From stdpp Require Import strings list.
From S2P Require Import Prelude GoStrings GoText.

Open Scope Z_scope.

Abbreviation Result := (Go string).

(** ** id.go *)
Definition MinLength : Z := 8.
Definition MaxLength : Z := 48.

Definition isLower (c : ascii) : bool := between 97 122 c.
Definition isDigit (c : ascii) : bool := between 48 57 c.

Definition midByte (c : ascii) : bool :=
  isLower c || isDigit c || bool_decide (c = "."%char) || bool_decide (c = "_"%char) || bool_decide (c = "-"%char).

(** [s[1:len(s)-1]], the bytes the loop of [Validate] visits, and [s[len(s)-1]]. *)
Definition inner (s : string) : string := takeStr (String.length s - 2) (dropStr 1 s).
Definition lastByte (s : string) : option ascii := String.get (String.length s - 1) s.

Definition Validate (id : string) : Result unit :=
  _ ← check (bool_decide (id = EmptyString)) "custom id is required";
  _ ← check (lenStr id <? MinLength) "custom id must be at least 8 characters";
  _ ← check (MaxLength <? lenStr id) "custom id must be at most 48 characters";
  match String.get 0 id, lastByte id with
  | Some first, Some last =>
      _ ← check (negb (isLower first)) "custom id must start with a lowercase ASCII letter";
      _ ← check (negb (isLower last) && negb (isDigit last)) "custom id must end with a lowercase ASCII letter or digit";
      check (negb (allBytes midByte (inner id)))
        "custom id may contain only lowercase ASCII letters, digits, '.', '_', and '-'"
  | _, _ => Panic
  end.

(** [fmt.Errorf("<context>: %w", err)]. *)
Definition wrapErr {A} (context : string) (r : Result A) : Result A :=
  match r with Fail e => Fail (context +:+ ": " +:+ e) | r => r end.

Definition ValidateField (field id : string) : Result unit := wrapErr field (Validate id).

Definition ValidateRegistrationTokenName (name : string) : Result unit :=
  if hasPrefix "app:" name then wrapErr "registration token app name" (Validate (dropStr 4 name))
  else Validate name.

(** ** storage.go *)
Definition MaxResourceIDCharacters : Z := 1024.
Definition MaxResourceIDBytes : Z := 4096.
Definition MaxFriendGroupIDCharacters : Z := 80.

Definition ValidateResourceID (value : string) : Result unit :=
  _ ← check (bool_decide (value = EmptyString)) "id is required";
  _ ← check (negb (bool_decide (trimSpace value = value))) "id must not contain surrounding whitespace";
  _ ← check ((MaxResourceIDCharacters <? runeCount value) || (MaxResourceIDBytes <? lenStr value))
        "id exceeds the 1024-character limit";
  check (bool_decide (value = ".") || bool_decide (value = "..")) "id must not be a URI dot segment".

Definition ValidateFriendGroupID (value : string) : Result unit :=
  _ ← ValidateResourceID value;
  check (MaxFriendGroupIDCharacters <? runeCount value) "id exceeds the 80-character FriendGroup limit".

Definition EscapeStoreSegment (value : string) : string :=
  replaceByte ":" "%3A" (replaceByte "%" "%25" value).

Definition UnescapeStoreSegment (value : string) : string := default value (pathUnescape value).

(** The digest function is a parameter. *)
Definition OpaquePathSegment (sha256 : string -> string) (value : string) : string :=
  "id-sha256-" +:+ hexEncode (sha256 value).

(** ** compound.go *)
Definition OwnerScopedName (owner id : string) : string := owner +:+ String ":" id.

Definition SplitOwnerScopedName (name : string) : Result (string * string) :=
  match cutByte ":" name with
  | Some (owner, id) =>
      _ ← check (bool_decide (owner = EmptyString) || bool_decide (id = EmptyString)) "resource id must be owner_public_key:id";
      _ ← ValidateField "id" id;
      Ret (owner, id)
  | None => Fail "resource id must be owner_public_key:id"
  end.

Definition escapeMembershipComponent (value : string) : string := replaceByte ":" "%3A" (pathEscape value).

Definition MembershipName (groupID memberID : string) : string :=
  escapeMembershipComponent groupID +:+ String ":" (escapeMembershipComponent memberID).

Definition ValidateMembershipName (groupID memberID : string) : Result unit :=
  _ ← wrapErr "friend group id" (ValidateFriendGroupID groupID);
  wrapErr "friend group member id" (ValidateResourceID (MembershipName groupID memberID)).

Definition SplitMembershipName (name : string) : Result (string * string) :=
  let bad := Fail "resource id must be friend_group_id:peer_public_key" in
  match cutByte ":" name with
  | None => bad
  | Some (groupSegment, memberSegment) =>
      if bool_decide (groupSegment = EmptyString) || bool_decide (memberSegment = EmptyString) || containsByte ":" memberSegment
      then bad
      else
        match pathUnescape groupSegment with
        | None => Fail "resource id has invalid friend_group_id escaping"
        | Some groupID =>
            match pathUnescape memberSegment with
            | None => Fail "resource id has invalid peer_public_key escaping"
            | Some memberID =>
                if bool_decide (groupID = EmptyString) || bool_decide (memberID = EmptyString) ||
                   negb (bool_decide (MembershipName groupID memberID = name))
                then bad else Ret (groupID, memberID)
            end
        end
  end.

(** ** Escaping *)

Lemma replaceByte_absent c r s :
  containsByte c r = false -> containsByte c (replaceByte c r s) = false.
Proof.
  intros Hr. induction s as [|a s IH]; [done|]. cbn [replaceByte]. rewrite containsByte_app, IH, orb_false_r.
  case_bool_decide as Ha; [done|]. cbn. by rewrite bool_decide_eq_false_2.
Qed.

Lemma replaceByte_app c r s t : replaceByte c r (s +:+ t) = replaceByte c r s +:+ replaceByte c r t.
Proof. induction s as [|a s IH]; [done|]. rewrite app_cons_str. cbn [replaceByte]. by rewrite IH, app_assoc_str. Qed.

Lemma replaceByte_cons c r a s :
  replaceByte c r (String a s) = (if bool_decide (a = c) then r else String a EmptyString) +:+ replaceByte c r s.
Proof. done. Qed.

(** Unescaping undoes the replacement of [:] after any escaping that undoes itself
    byte by byte. *)
Lemma unescape_store_step a s :
  pathUnescape (replaceByte ":" "%3A" (replaceByte "%" "%25" (String a s))) =
    t ← pathUnescape (replaceByte ":" "%3A" (replaceByte "%" "%25" s)); Some (String a t).
Proof.
  rewrite (replaceByte_cons "%"). rewrite replaceByte_app.
  case_bool_decide as H1; [subst a|].
  - exact (pathUnescape_escaped lowerHex "%" _ (or_introl eq_refl)).
  - rewrite (replaceByte_cons ":"). rewrite app_nil_r_str. case_bool_decide as H2; [subst a|].
    + exact (pathUnescape_escaped upperHex ":" _ (or_intror eq_refl)).
    + rewrite app_cons_str, app_empty_str. by apply pathUnescape_app_safe.
Qed.

Lemma escape_component_step a s :
  pathUnescape (escapeMembershipComponent (String a s)) =
    t ← pathUnescape (escapeMembershipComponent s); Some (String a t).
Proof.
  unfold escapeMembershipComponent. cbn [pathEscape]. rewrite replaceByte_app. destruct (pathSafe a) eqn:Ha.
  - rewrite (replaceByte_cons ":"). rewrite app_nil_r_str. case_bool_decide as H2; [subst a|].
    + exact (pathUnescape_escaped upperHex ":" _ (or_intror eq_refl)).
    + rewrite app_cons_str, app_empty_str. apply pathUnescape_app_safe. intros ->. by vm_compute in Ha.
  - assert (replaceByte ":" "%3A" (String "%" (hexByte upperHex a)) = String "%" (hexByte upperHex a)) as ->.
    { clear Ha. byte_cases a. }
    rewrite app_cons_str. apply pathUnescape_escaped. by right.
Qed.

Lemma unescape_component s : pathUnescape (escapeMembershipComponent s) = Some s.
Proof. induction s as [|a s IH]; [done|]. by rewrite escape_component_step, IH. Qed.

Lemma escape_component_clean s : containsByte ":" (escapeMembershipComponent s) = false.
Proof. by apply replaceByte_absent. Qed.

Lemma escape_component_empty s : escapeMembershipComponent s = EmptyString <-> s = EmptyString.
Proof.
  split; [|by intros ->]. intros H. pose proof (unescape_component s) as E. rewrite H in E. by simplify_eq/=.
Qed.

Lemma length_escape_component s : (String.length (escapeMembershipComponent s) <= 3 * String.length s)%nat.
Proof.
  unfold escapeMembershipComponent. induction s as [|a s IH]; [done|]. cbn [pathEscape].
  rewrite replaceByte_app, length_app_str. cbn [String.length].
  enough (String.length (replaceByte ":" "%3A" (if pathSafe a then String a "" else String "%" (hexByte upperHex a))) <= 3)%nat by lia.
  destruct (pathSafe a).
  - rewrite replaceByte_cons, app_nil_r_str. case_bool_decide; cbn; lia.
  - clear IH. byte_cases a; lia.
Qed.

(** ** Bytes of escaped names *)

(** Printable bytes that [url.PathEscape] emits. *)
Definition nameByte (a : ascii) : bool := pathSafe a || bool_decide (a = "%"%char).

Lemma escape_component_bytes s : allBytes nameByte (escapeMembershipComponent s) = true.
Proof.
  unfold escapeMembershipComponent. induction s as [|a s IH]; [done|]. cbn [pathEscape].
  rewrite replaceByte_app, allBytes_app, IH, andb_true_r.
  destruct (pathSafe a) eqn:Ha.
  - rewrite replaceByte_cons, app_nil_r_str. case_bool_decide; [done|]. cbn. unfold nameByte. by rewrite Ha.
  - clear Ha. byte_cases a.
Qed.

Lemma nameByte_ascii a : nameByte a = true -> byteZ a <? 128 = true.
Proof. byte_cases a; done. Qed.

Lemma nameByte_not_space a : nameByte a = true -> isSpaceRune (String a EmptyString, true) = false.
Proof. byte_cases a; done. Qed.

(** A name is one rune per byte. *)
Lemma runes_name s :
  allBytes nameByte s = true ->
  length (runes s) = String.length s /\ Forall (fun r => isSpaceRune r = false) (runes s).
Proof.
  induction s as [|a s IH]; [by split; [|constructor]|]. cbn [allBytes runes]. intros [Ha Hs]%andb_true_iff.
  rewrite (nameByte_ascii a Ha). destruct (IH Hs) as [HL HF]. cbn. split; [lia|].
  constructor; [by apply nameByte_not_space|done].
Qed.

Lemma dropWhile_none {A} (p : A -> bool) l : Forall (fun x => p x = false) l -> dropWhile p l = l.
Proof. by intros [|x l' Hx Hl]; cbn; [|rewrite Hx]. Qed.

Lemma trimSpace_name s : allBytes nameByte s = true -> trimSpace s = s.
Proof.
  intros Hs. destruct (runes_name s Hs) as [_ HF]. unfold trimSpace.
  rewrite (dropWhile_none _ (runes s)) by done.
  rewrite dropWhile_none; [rewrite rev_involutive; apply runes_concat|].
  by apply Forall_rev.
Qed.

(** A rune takes at most four bytes. *)
Lemma length_runes s : (String.length s <= 4 * length (runes s))%nat.
Proof.
  enough (forall n s, (String.length s <= n)%nat -> (String.length s <= 4 * length (runes s))%nat) as H by (by eapply H).
  clear s. induction n as [|n IH]; intros [|a s1] Hn; cbn in Hn; cbn [String.length length]; try lia.
  pose proof (IH s1 ltac:(lia)) as I1. cbn [runes].
  destruct (byteZ a <? 128); [cbn; lia|].
  destruct s1 as [|b s2]; [cbn; lia|]. cbn in Hn. pose proof (IH s2 ltac:(lia)) as I2.
  destruct (utf8_2 a b); [cbn; lia|].
  destruct s2 as [|c s3]; [cbn -[runes]; cbn [String.length] in *; lia|]. cbn in Hn. pose proof (IH s3 ltac:(lia)) as I3.
  destruct (utf8_3 a b c); [cbn; lia|].
  destruct s3 as [|d s4]; [cbn -[runes]; cbn [String.length] in *; lia|]. cbn in Hn. pose proof (IH s4 ltac:(lia)) as I4.
  destruct (utf8_4 a b c d); [cbn; lia|].
  cbn -[runes]. cbn [String.length] in *. lia.
Qed.

(** ** Theorems *)

Lemma wrapErr_Ret {A} context (r : Result A) x : wrapErr context r = Ret x <-> r = Ret x.
Proof. destruct r; naive_solver. Qed.

(** [EscapeStoreSegment] maps every opaque identifier to a segment that contains
    no key separator, and [UnescapeStoreSegment] recovers the identifier; so
    distinct identifiers never share a storage key segment. *)
Theorem EscapeStoreSegment_roundtrip (v w : string) :
  UnescapeStoreSegment (EscapeStoreSegment v) = v /\
  containsByte ":" (EscapeStoreSegment v) = false /\
  (EscapeStoreSegment v = EscapeStoreSegment w -> v = w).
Proof.
  assert (forall s, pathUnescape (EscapeStoreSegment s) = Some s) as H.
  { intros s. unfold EscapeStoreSegment. induction s as [|a s IH]; [done|]. by rewrite unescape_store_step, IH. }
  split_and!.
  - unfold UnescapeStoreSegment. by rewrite H.
  - by apply replaceByte_absent.
  - intros E. pose proof (H v) as Hv. rewrite E, H in Hv. by simplify_eq.
Qed.

(** composite membership names are a bijection: the name of two non-empty
    components splits back into them, and whatever [SplitMembershipName] accepts is
    the canonical name of its result, with non-empty components. *)
Theorem MembershipName_roundtrip (name groupID memberID : string) :
  SplitMembershipName name = Ret (groupID, memberID) <->
  name = MembershipName groupID memberID /\ groupID <> EmptyString /\ memberID <> EmptyString.
Proof.
  unfold SplitMembershipName. split.
  - destruct (cutByte ":" name) as [[g s]|] eqn:Ec; [|done]. destruct (_ || _) eqn:E1; [done|].
    destruct (pathUnescape g) as [g'|]; [|done]. destruct (pathUnescape s) as [s'|]; [|done].
    destruct (_ || _) eqn:E2 in |- *; [done|]. intros [= -> ->].
    rewrite !orb_false_iff, negb_false_iff, bool_decide_eq_true, !bool_decide_eq_false in E2. naive_solver.
  - intros (-> & Hg & Hm). unfold MembershipName. rewrite cutByte_app by apply escape_component_clean.
    rewrite escape_component_clean, !unescape_component.
    rewrite (bool_decide_eq_false_2 (escapeMembershipComponent groupID = _)) by (by rewrite escape_component_empty).
    rewrite (bool_decide_eq_false_2 (escapeMembershipComponent memberID = _)) by (by rewrite escape_component_empty).
    rewrite (bool_decide_eq_false_2 (groupID = _)), (bool_decide_eq_false_2 (memberID = _)) by done.
    fold (MembershipName groupID memberID). by rewrite bool_decide_eq_true_2.
Qed.

Lemma check_bind_Ret {E A} b (e : E) (m : Go E A) x : (_ ← check b e; m) = Ret x <-> b = false /\ m = Ret x.
Proof. destruct b; cbn; naive_solver. Qed.

Lemma snoc_parts a mid z :
  let id := String a (mid +:+ String z EmptyString) in
  String.length id = (String.length mid + 2)%nat /\ String.get 0 id = Some a /\ lastByte id = Some z /\ inner id = mid.
Proof.
  cbn. rewrite length_app_str. cbn. split_and!; [lia|done| |].
  - unfold lastByte. cbn. replace (String.length mid + 1 - 0)%nat with (S (String.length mid)) by lia. cbn. induction mid as [|b mid IH]; [done|]. rewrite app_cons_str. by cbn.
  - unfold inner. cbn. replace (String.length mid + 1 - 1)%nat with (String.length mid) by lia.
    induction mid as [|b mid IH]; [done|]. rewrite app_cons_str. cbn. by rewrite IH.
Qed.

Lemma string_snoc s : s <> EmptyString -> exists t z, s = t +:+ String z EmptyString.
Proof.
  induction s as [|b s IH]; [done|]. intros _. destruct s as [|c s]; [by exists EmptyString, b|].
  destruct IH as (t & z & ->); [done|]. by exists (String b t), z.
Qed.

Lemma string_parts s : (2 <= String.length s)%nat ->
  exists a mid z, s = String a (mid +:+ String z EmptyString).
Proof.
  destruct s as [|a s]; cbn; [lia|]. intros Hs. destruct (string_snoc s) as (mid & z & ->); [intros ->; cbn in Hs; lia|eauto].
Qed.

(** [Validate] accepts exactly the documented pattern
    [^[a-z][a-z0-9._-]{6,46}[a-z0-9]$], and never panics. *)
Theorem Validate_pattern (id : string) :
  (Validate id = Ret tt <->
   exists a mid z, id = String a (mid +:+ String z EmptyString) /\ isLower a = true /\
     (isLower z = true \/ isDigit z = true) /\ allBytes midByte mid = true /\ (6 <= String.length mid <= 46)%nat) /\
  Validate id <> Panic.
Proof.
  unfold Validate, lenStr, MinLength, MaxLength. split.
  - rewrite !check_bind_Ret. split.
    + intros (H1 & H2 & H3 & H). destruct (string_parts id) as (a & mid & z & ->); [lia|].
      destruct (snoc_parts a mid z) as (HL & Ea & Ez & Ei). rewrite Ea, Ez, Ei in H.
      rewrite !check_bind_Ret, check_Ret, !negb_false_iff in H. destruct H as (Ha & Hz & Hmid).
      exists a, mid, z. apply andb_false_iff in Hz. rewrite !negb_false_iff in Hz. split_and!; try done; lia.
    + intros (a & mid & z & -> & Ha & Hz & Hmid & Hl). destruct (snoc_parts a mid z) as (HL & -> & -> & ->).
      split_and!; [done|lia..|]. rewrite Ha, Hmid. cbn. by destruct Hz as [-> | ->]; rewrite ?andb_false_r.
  - destruct (bool_decide _); [done|]. destruct (Z.ltb_spec (Z.of_nat (String.length id)) 8); [done|].
    destruct (48 <? _); [done|]. destruct (string_parts id) as (a & mid & z & ->); [lia|].
    destruct (snoc_parts a mid z) as (_ & -> & -> & ->). cbn.
    destruct (isLower a), (isLower z), (isDigit z), (allBytes _ _); done.
Qed.

(** The 80-character FriendGroup limit leaves enough room for the derived member
    identifier: for every group identifier accepted by [ValidateFriendGroupID] and
    every member identifier made of at most 63 letters and digits (a peer public
    key has at most 44), the composite name is accepted as a resource identifier. *)
Lemma membership_leaves_room (groupID memberID : string) :
  ValidateFriendGroupID groupID = Ret tt ->
  allBytes (fun a => isLower a || isDigit a || between 65 90 a) memberID = true ->
  (String.length memberID <= 63)%nat ->
  ValidateMembershipName groupID memberID = Ret tt.
Proof.
  intros Hg Hm Hl. unfold ValidateMembershipName. rewrite Hg. cbn [wrapErr mbind Go_bind].
  unfold ValidateFriendGroupID in Hg. apply bind_Ret in Hg as ([] & Hg & Hc). rewrite check_Ret in Hc.
  unfold ValidateResourceID in Hg. rewrite !check_bind_Ret, check_Ret in Hg. destruct Hg as (He & _ & _ & _).
  apply bool_decide_eq_false in He. apply wrapErr_Ret.
  assert (escapeMembershipComponent memberID = memberID) as Em.
  { unfold escapeMembershipComponent. clear Hl. induction memberID as [|a s IH]; [done|]. cbn in Hm.
    apply andb_true_iff in Hm as [Ha Hs]. cbn [pathEscape].
    assert (pathSafe a = true) as -> by (unfold pathSafe; unfold isLower, isDigit in Ha; by destruct (between 97 122 a), (between 48 57 a), (between 65 90 a)).
    rewrite app_cons_str, app_empty_str, replaceByte_cons, IH by done. rewrite bool_decide_eq_false_2; [done|].
    intros ->. by vm_compute in Ha. }
  pose proof (length_escape_component groupID) as L1. pose proof (length_runes groupID) as L2.
  unfold runeCount, MaxFriendGroupIDCharacters in Hc. apply Z.ltb_ge in Hc.
  assert (escapeMembershipComponent groupID <> EmptyString) as Hne by (by rewrite escape_component_empty).
  assert (allBytes nameByte (MembershipName groupID memberID) = true) as HB.
  { unfold MembershipName. rewrite allBytes_app. cbn [allBytes]. by rewrite !escape_component_bytes. }
  assert (String.length (MembershipName groupID memberID) <= 1024)%nat as HL.
  { unfold MembershipName. rewrite length_app_str, Em. cbn. lia. }
  unfold ValidateResourceID. rewrite !check_bind_Ret, check_Ret. destruct (runes_name _ HB) as [HR _].
  split_and!.
  - apply bool_decide_eq_false. unfold MembershipName. by destruct (escapeMembershipComponent groupID).
  - rewrite trimSpace_name by done. by rewrite bool_decide_eq_true_2.
  - unfold runeCount, lenStr, MaxResourceIDCharacters, MaxResourceIDBytes. rewrite HR. lia.
  - apply orb_false_iff. split; apply bool_decide_eq_false; intros E; apply (f_equal (containsByte ":")) in E;
      unfold MembershipName in E; rewrite containsByte_app in E; cbn in E; by rewrite orb_true_r in E.
Qed.
