(* ===== verification/CircBuffer.v ===== *)
(** * buffer: the circular buffers

    [src/pkgs/buffer/block_buffer.go] and [ring_buffer.go].  Both keep a fixed
    slice and two counters: [head], the number of elements consumed, and [tail],
    the number produced; the element number [i] lives at index [i % len(buf)].
    The counters are Go [int64]s that only grow; they are unbounded here, as no
    execution produces 2^63 elements.

    This file holds what the two buffers share: the storage, the two-part copies of
    [Read] and [Write], [Bytes], and the abstraction [content] to the list of buffered
    elements. *)

From S2P Require Import Prelude.
From stdpp Require Import list.

Open Scope Z_scope.

(** ** Errors *)
Inductive bufError :=
  | EOF
  | ErrIteratorDone
  | ErrClosed (what : string) (cause : string).  (** [fmt.Errorf("buffer: <what> closed buffer: %w", cause)] *)

Definition ErrClosedPipe : string := "io: read/write on closed pipe".

#[export] Instance bufError_eq_dec : EqDecision bufError.
Proof. solve_decision. Defined.

(** What a method does under the lock until it returns ([Done]) or has to wait for
    another goroutine ([Wait]). *)
Inductive attempt (R : Type) :=
  | Done (r : Go bufError R)
  | Wait.
Arguments Done {R} _.
Arguments Wait {R}.

(** ** Circular storage *)
Record Circ (A : Type) := MkCirc {
  c_buf : list A;
  c_head : Z;
  c_tail : Z
}.
Arguments MkCirc {A} _ _ _.
Arguments c_buf {A} _.
Arguments c_head {A} _.
Arguments c_tail {A} _.

(** Split on every index comparison of the goal, discarding impossible cases. *)
Ltac ix_cases :=
  repeat match goal with
  | |- context [(?x <? ?y)%nat] => destruct (Nat.ltb_spec x y); cbn [andb]; try lia
  | |- context [(?x <=? ?y)%nat] => destruct (Nat.leb_spec x y); cbn [andb]; try lia
  end.

Section circ.
Context {A : Type}.
Implicit Types (c : Circ A) (p : list A).

Definition c_cap c : Z := Z.of_nat (length (c_buf c)).

(** [copy(dst[off:], src)]: overwrite from index [off], as much as fits. *)
Definition copyAt (off : nat) (src dst : list A) : list A :=
  list_inserts off (take (length dst - off) src) dst.

(** The copy of [Read]: the elements delivered to a slice of length [n]. *)
Definition circRead c (n : nat) : list A :=
  let len := length (c_buf c) in
  let avail := Z.to_nat (c_tail c - c_head c) in
  let head := Z.to_nat (c_head c `mod` c_cap c) in
  if (head + avail <=? len)%nat then take n (take avail (drop head (c_buf c)))
  else
    let first := take n (drop head (c_buf c)) in
    let n1 := length first in
    first ++ take (n - n1) (take (avail - n1) (c_buf c)).

(** The copy of one round of [Write] into the free space: the new storage and the
    number of elements copied. *)
Definition circFill c p : list A * nat :=
  let len := length (c_buf c) in
  let avail := Z.to_nat (c_cap c - (c_tail c - c_head c)) in
  let tail := Z.to_nat (c_tail c `mod` c_cap c) in
  if (tail + avail <=? len)%nat then
    let n := Nat.min avail (length p) in
    (copyAt tail (take n p) (c_buf c), n)
  else
    let n1 := Nat.min (len - tail) (length p) in
    let n2 := Nat.min (avail - n1) (length p - n1) in
    (copyAt 0 (take n2 (drop n1 p)) (copyAt tail (take n1 p) (c_buf c)), n1 + n2)%nat.

(** The elements buffered, oldest first. *)
Definition content c : list A :=
  take (Z.to_nat (c_tail c - c_head c)) (drop (Z.to_nat (c_head c `mod` c_cap c)) (c_buf c ++ c_buf c)).

Definition circInv c : Prop :=
  0 <= c_head c /\ c_head c <= c_tail c /\ c_tail c - c_head c <= c_cap c /\ 0 < c_cap c.

(** [Bytes()]. *)
Definition circBytes c : list A :=
  let h := Z.to_nat (c_head c `mod` c_cap c) in
  let t := Z.to_nat (c_tail c `mod` c_cap c) in
  if (h <? t)%nat then take (t - h) (drop h (c_buf c)) else drop h (c_buf c) ++ take t (c_buf c).

(** ** Index arithmetic *)

(** Position of element [i] of the content. *)
Definition wrapIx (len h i : nat) : nat := if (h + i <? len)%nat then (h + i)%nat else (h + i - len)%nat.

Lemma circ_mod_bounds c : circInv c -> (Z.to_nat (c_head c `mod` c_cap c) < length (c_buf c))%nat.
Proof.
  intros (H0 & H1 & H2 & H3). unfold c_cap in *.
  pose proof (Z.mod_pos_bound (c_head c) (Z.of_nat (length (c_buf c)))). lia.
Qed.

Lemma mod_wrapIx (h len : Z) (i : nat) :
  0 < len -> 0 <= h -> Z.of_nat i <= len ->
  Z.to_nat ((h + Z.of_nat i) `mod` len) =
    (if (Z.to_nat (h `mod` len) + i <? Z.to_nat len)%nat then (Z.to_nat (h `mod` len) + i)%nat
     else (Z.to_nat (h `mod` len) + i - Z.to_nat len)%nat).
Proof.
  intros Hl Hh Hi. pose proof (Z.mod_pos_bound h len Hl) as Hb.
  rewrite <-Zplus_mod_idemp_l. set (r := h `mod` len) in *.
  destruct (Nat.ltb_spec (Z.to_nat r + i) (Z.to_nat len)).
  - rewrite Z.mod_small by lia. lia.
  - replace (r + Z.of_nat i) with ((r + Z.of_nat i - len) + 1 * len) by lia.
    rewrite Z_mod_plus_full. rewrite Z.mod_small; [lia|].
    destruct (decide (r + Z.of_nat i - len < len)); [lia|]. lia.
Qed.

Lemma length_content c : circInv c -> length (content c) = Z.to_nat (c_tail c - c_head c).
Proof.
  intros HI. pose proof (circ_mod_bounds c HI). destruct HI as (H0 & H1 & H2 & H3). unfold content, c_cap in *.
  rewrite length_take, length_drop, length_app. lia.
Qed.

Lemma lookup_content c i :
  circInv c ->
  content c !! i =
    if (i <? Z.to_nat (c_tail c - c_head c))%nat
    then c_buf c !! wrapIx (length (c_buf c)) (Z.to_nat (c_head c `mod` c_cap c)) i
    else None.
Proof.
  intros HI. pose proof (circ_mod_bounds c HI) as Hm. destruct HI as (H0 & H1 & H2 & H3).
  unfold content, wrapIx. unfold c_cap in H2.
  destruct (Nat.ltb_spec i (Z.to_nat (c_tail c - c_head c))).
  - rewrite lookup_take_lt by done. rewrite lookup_drop.
    destruct (Nat.ltb_spec (Z.to_nat (c_head c `mod` c_cap c) + i) (length (c_buf c))).
    + by rewrite lookup_app_l.
    + by rewrite lookup_app_r.
  - by rewrite lookup_take_ge.
Qed.

Lemma lookup_copyAt off src dst j :
  (off <= length dst)%nat ->
  copyAt off src dst !! j =
    if ((off <=? j) && (j <? off + Nat.min (length src) (length dst - off)))%nat then src !! (j - off)%nat else dst !! j.
Proof.
  intros Ho. unfold copyAt. destruct (Nat.leb_spec off j), (Nat.ltb_spec j (off + Nat.min (length src) (length dst - off))); cbn.
  - rewrite list_lookup_inserts by (rewrite ?length_take; lia). by rewrite lookup_take_lt by lia.
  - rewrite list_lookup_inserts_ge; [done|rewrite length_take; lia].
  - rewrite list_lookup_inserts_lt; [done|lia].
  - rewrite list_lookup_inserts_lt; [done|lia].
Qed.

Lemma length_copyAt off src dst : length (copyAt off src dst) = length dst.
Proof. apply length_inserts. Qed.

(** ** Reading and filling, on the content *)

Lemma circRead_content c n : circInv c -> circRead c n = take n (content c).
Proof.
  intros HI. pose proof (circ_mod_bounds c HI) as Hm. destruct HI as (H0 & H1 & H2 & H3).
  unfold circRead, content. unfold c_cap in H2. set (h := Z.to_nat (c_head c `mod` c_cap c)) in *.
  set (k := Z.to_nat (c_tail c - c_head c)).
  assert (drop h (c_buf c ++ c_buf c) = drop h (c_buf c) ++ c_buf c) as -> by (rewrite drop_app_le by lia; done).
  destruct (Nat.leb_spec (h + k) (length (c_buf c))).
  - by rewrite (take_app_le _ _ k) by (rewrite length_drop; lia).
  - rewrite (take_app_ge _ _ k) by (rewrite length_drop; lia). rewrite length_take, length_drop.
    destruct (Nat.le_gt_cases (length (c_buf c) - h) n).
    + rewrite (take_ge (drop h (c_buf c)) n) by (rewrite length_drop; lia).
      rewrite take_app_ge by (rewrite length_drop; lia). rewrite length_drop.
      by rewrite Nat.min_r by lia.
    + rewrite take_app_le by (rewrite length_drop; lia).
      rewrite Nat.min_l by lia. by rewrite Nat.sub_diag, take_0, app_nil_r.
Qed.

Lemma lookup_take_if (l : list A) n i : take n l !! i = if (i <? n)%nat then l !! i else None.
Proof. destruct (Nat.ltb_spec i n); [by rewrite lookup_take_lt|by rewrite lookup_take_ge by lia]. Qed.

(** Storage [buf'] holding [q] right after the content represents the longer content. *)
Lemma content_extend c buf' (q : list A) :
  circInv c -> length buf' = length (c_buf c) ->
  Z.of_nat (length q) <= c_cap c - (c_tail c - c_head c) ->
  (forall i, (i < Z.to_nat (c_tail c - c_head c))%nat ->
     buf' !! wrapIx (length (c_buf c)) (Z.to_nat (c_head c `mod` c_cap c)) i =
     c_buf c !! wrapIx (length (c_buf c)) (Z.to_nat (c_head c `mod` c_cap c)) i) ->
  (forall j, (j < length q)%nat ->
     buf' !! wrapIx (length (c_buf c)) (Z.to_nat (c_head c `mod` c_cap c)) (Z.to_nat (c_tail c - c_head c) + j) = q !! j) ->
  let c' := MkCirc buf' (c_head c) (c_tail c + Z.of_nat (length q)) in
  circInv c' /\ content c' = content c ++ q.
Proof.
  intros HI HL Hq Hold Hnew c'.
  assert (circInv c') as HI'.
  { destruct HI as (H0 & H1 & H2 & H3). unfold circInv, c_cap in *. cbn. rewrite HL. lia. }
  split; [done|]. apply list_eq. intros i. rewrite lookup_content by done.
  rewrite lookup_app, length_content, lookup_content by done.
  assert (c_cap c' = c_cap c) as Hcap by (unfold c_cap; cbn; by rewrite HL).
  rewrite Hcap. unfold c'. cbn [c_buf c_head c_tail]. rewrite HL.
  set (k := Z.to_nat (c_tail c - c_head c)) in *.
  assert (Z.to_nat (c_tail c + Z.of_nat (length q) - c_head c) = (k + length q)%nat) as ->.
  { destruct HI as (H0 & H1 & H2 & H3). lia. }
  destruct (Nat.ltb_spec i k) as [Hik|Hik].
  - destruct (Nat.ltb_spec i (k + length q)); [|lia]. rewrite Hold by done.
    destruct HI as (H0 & H1 & H2 & H3).
    assert (is_Some (c_buf c !! wrapIx (length (c_buf c)) (Z.to_nat (c_head c `mod` c_cap c)) i)) as [x ->]; [|done].
    apply lookup_lt_is_Some_2. unfold wrapIx.
    pose proof (circ_mod_bounds c ltac:(by unfold circInv)). unfold c_cap in *. ix_cases.
  - destruct (Nat.ltb_spec i (k + length q)).
    + replace i with (k + (i - k))%nat at 1 by lia. rewrite Hnew by lia. done.
    + rewrite (lookup_ge_None_2 q) by lia. done.
Qed.

(** Where the free space of a circular buffer lies: the positions written by the
    two copies of [Write] never meet those of the content, and follow it. *)
Lemma wrap_old_free len h k j i :
  (h < len -> k + j < len -> i < k -> wrapIx len (wrapIx len h k) j <> wrapIx len h i)%nat.
Proof. unfold wrapIx. intros. ix_cases. Qed.

Lemma wrap_new len h k j :
  (h < len -> k + j < len -> wrapIx len h (k + j) = wrapIx len (wrapIx len h k) j)%nat.
Proof. unfold wrapIx. intros. ix_cases. Qed.

Lemma wrap_lt len h k : (h < len -> k <= len -> wrapIx len h k < len)%nat.
Proof. unfold wrapIx. intros. ix_cases. Qed.

(** The storage after the copies of [circFill], position by position: element [j]
    of the data goes to the [j]-th free position; other positions are untouched. *)
Lemma fill_lookup (buf p : list A) t free n :
  (t < length buf -> free <= length buf -> n = Nat.min free (length p) ->
  let buf' :=
    if t + free <=? length buf then copyAt t (take n p) buf
    else let n1 := Nat.min (length buf - t) (length p) in
         let n2 := Nat.min (free - n1) (length p - n1) in
         copyAt 0 (take n2 (drop n1 p)) (copyAt t (take n1 p) buf) in
  (forall j, j < n -> buf' !! wrapIx (length buf) t j = p !! j) /\
  (forall w, (forall j, j < free -> wrapIx (length buf) t j <> w) -> buf' !! w = buf !! w))%nat.
Proof.
  intros Ht Hf Hn. cbn zeta.
  destruct (Nat.leb_spec (t + free) (length buf)) as [Hc|Hc]; split.
  - intros j Hj. rewrite lookup_copyAt, length_take, lookup_take_if by lia. unfold wrapIx. ix_cases. f_equal; lia.
  - intros w Hw. rewrite lookup_copyAt, length_take by lia. ix_cases; try done.
    exfalso. apply (Hw (w - t)%nat); [lia|]. unfold wrapIx. ix_cases.
  - intros j Hj. rewrite lookup_copyAt, length_take, length_drop, length_copyAt by lia.
    rewrite lookup_copyAt, length_take by lia. rewrite !lookup_take_if, lookup_drop.
    unfold wrapIx. ix_cases; f_equal; lia.
  - intros w Hw. rewrite lookup_copyAt, length_take, length_drop, length_copyAt by lia.
    rewrite lookup_copyAt, length_take by lia.
    destruct (Nat.leb_spec 0 w), (Nat.ltb_spec w (0 + Nat.min (Nat.min (Nat.min (free - Nat.min (length buf - t) (length p)) (length p - Nat.min (length buf - t) (length p))) (length p - Nat.min (length buf - t) (length p))) (length buf - 0))); cbn [andb]; try lia.
    + exfalso. apply (Hw (length buf - t + w)%nat); [lia|]. unfold wrapIx. ix_cases.
    + destruct (Nat.leb_spec t w), (Nat.ltb_spec w (t + Nat.min (Nat.min (Nat.min (length buf - t) (length p)) (length p)) (length buf - t))); cbn [andb]; try done.
      exfalso. apply (Hw (w - t)%nat); [lia|]. unfold wrapIx. ix_cases.
Qed.

Lemma circFill_content c p :
  circInv c ->
  let '(buf', n) := circFill c p in
  n = Nat.min (Z.to_nat (c_cap c - (c_tail c - c_head c))) (length p) /\
  circInv (MkCirc buf' (c_head c) (c_tail c + Z.of_nat n)) /\
  content (MkCirc buf' (c_head c) (c_tail c + Z.of_nat n)) = content c ++ take n p /\
  length buf' = length (c_buf c).
Proof.
  intros HI. pose proof (circ_mod_bounds c HI) as Hm. pose proof HI as (H0 & H1 & H2 & H3).
  unfold circFill. unfold c_cap in H2, H3.
  assert (Z.to_nat (c_tail c `mod` c_cap c) = wrapIx (length (c_buf c)) (Z.to_nat (c_head c `mod` c_cap c)) (Z.to_nat (c_tail c - c_head c))) as Ht.
  { replace (c_tail c) with (c_head c + Z.of_nat (Z.to_nat (c_tail c - c_head c))) at 1 by lia.
    unfold c_cap. rewrite mod_wrapIx by lia. unfold wrapIx. by rewrite Nat2Z.id. }
  assert (Z.to_nat (c_cap c - (c_tail c - c_head c)) = length (c_buf c) - Z.to_nat (c_tail c - c_head c))%nat as Hfree
    by (unfold c_cap; lia).
  rewrite Ht, Hfree. unfold c_cap in Hm.
  set (h := Z.to_nat (c_head c `mod` _)) in *. set (k := Z.to_nat (c_tail c - c_head c)) in *.
  assert (k <= length (c_buf c))%nat as Hk by (unfold k; lia).
  set (free := (length (c_buf c) - k)%nat). set (n := Nat.min free (length p)).
  pose proof (wrap_lt (length (c_buf c)) h k Hm Hk) as Htl.
  destruct (fill_lookup (c_buf c) p (wrapIx (length (c_buf c)) h k) free n) as [F1 F2]; [done|unfold free; lia|done|].
  set (buf' := if (_ <=? _)%nat then _ else _) in F1, F2.
  assert (length (take n p) = n) as Hln by (rewrite length_take; unfold n; lia).
  assert (length buf' = length (c_buf c)) as Hlb.
  { unfold buf'. destruct (_ <=? _)%nat; by rewrite ?length_copyAt. }
  destruct (content_extend c buf' (take n p)) as [E1 E2]; [done|done| | | |].
  - rewrite Hln. unfold n, free, k, c_cap. lia.
  - intros i Hi. apply F2. intros j Hj. unfold c_cap. fold h k in Hi |- *.
    apply wrap_old_free; [done|unfold free in Hj; lia|done].
  - intros j Hj. rewrite Hln in Hj. unfold c_cap. fold h k.
    rewrite wrap_new by (unfold n, free in Hj; lia). rewrite F1 by done. by rewrite lookup_take_lt.
  - rewrite Hln in E1, E2. unfold buf' in *.
    destruct (Nat.leb_spec (wrapIx (length (c_buf c)) h k + free) (length (c_buf c))) as [_|Hgt]; [by split_and!|]. cbn zeta in *.
    assert (Nat.min (length (c_buf c) - wrapIx (length (c_buf c)) h k) (length p) +
      Nat.min (free - Nat.min (length (c_buf c) - wrapIx (length (c_buf c)) h k) (length p))
        (length p - Nat.min (length (c_buf c) - wrapIx (length (c_buf c)) h k) (length p)) = n)%nat as Hsum.
    { clear -Htl Hgt. subst n. assert (free <= length (c_buf c))%nat by (unfold free; lia). lia. }
    rewrite Hsum. by split_and!.
Qed.
End circ.
