(* ===== verification/BlockBuffer.v ===== *)
(** * buffer: BlockBuffer

    [src/pkgs/buffer/block_buffer.go]: the fixed-size buffer whose readers wait for
    data and whose writers wait for room.  Every method runs under the mutex; a
    method that calls [cond.Wait] is modelled by one attempt, the code from the
    entry (or from the return of [Wait]: the same checks of [closeErr] and
    [closeWrite] are made at both places) to the return or to the next [Wait].  An
    execution is a sequence of attempts of any number of goroutines.  [bb_wakes]
    counts the calls of [cond.Signal] and [cond.Broadcast].

    Theorems: the buffer is a FIFO channel that loses and invents nothing; a write
    is accepted up to the free room and waits exactly when data is left; a writer
    drained by any reader finishes. *)

From S2P Require Import Prelude CircBuffer.
From stdpp Require Import list.

Open Scope Z_scope.

Record BlockBuffer (A : Type) := MkBlock {
  bb_circ : Circ A;
  bb_closeWrite : bool;
  bb_closeErr : option string;
  bb_wakes : nat
}.
Arguments MkBlock {A} _ _ _ _.
Arguments bb_circ {A} _.
Arguments bb_closeWrite {A} _.
Arguments bb_closeErr {A} _.
Arguments bb_wakes {A} _.

Section blockBuffer.
Context {A : Type}.
Implicit Types (bb : BlockBuffer A) (p : list A).

Definition Block (buf : list A) : BlockBuffer A := MkBlock (MkCirc buf 0 0) false None 0.

Definition BlockN (zero : A) (size : nat) : BlockBuffer A := Block (replicate size zero).

(** Replace the storage and count a [Signal]. *)
Definition bbWith bb (c : Circ A) : BlockBuffer A :=
  MkBlock c (bb_closeWrite bb) (bb_closeErr bb) (bb_wakes bb).
Definition bbSignal bb : BlockBuffer A :=
  MkBlock (bb_circ bb) (bb_closeWrite bb) (bb_closeErr bb) (S (bb_wakes bb)).

Definition moveHead (c : Circ A) (n : Z) : Circ A := MkCirc (c_buf c) (c_head c + n) (c_tail c).

Definition isEmpty (c : Circ A) : bool := c_head c =? c_tail c.
Definition isFull (c : Circ A) : bool := c_tail c - c_head c =? c_cap c.

(** [n] is a count, never negative. *)
Definition BlockBuffer_Discard bb (n : nat) : BlockBuffer A * Go bufError unit :=
  match bb_closeErr bb with
  | Some e => (bb, Fail (ErrClosed "skip from" e))
  | None =>
      let c := bb_circ bb in
      if c_tail c - c_head c <? Z.of_nat n
      then (bbWith bb (MkCirc (c_buf c) (c_tail c) (c_tail c)), Ret tt)
      else (bbWith bb (moveHead c (Z.of_nat n)), Ret tt)
  end.

(** [n] is [len(p)]; the result is what is copied into [p]. *)
Definition BlockBuffer_Read bb (n : nat) : BlockBuffer A * attempt (list A) :=
  match bb_closeErr bb with
  | Some e => (bb, Done (Fail (ErrClosed "read from" e)))
  | None =>
      let c := bb_circ bb in
      if isEmpty c then
        if bb_closeWrite bb then (bb, Done (Fail EOF)) else (bb, Wait)
      else
        let out := circRead c n in
        (bbSignal (bbWith bb (moveHead c (Z.of_nat (length out)))), Done (Ret out))
  end.

(** The outer loop of [Write]: rounds of "wait while full, copy what fits, signal".
    The result is the state, the count written and the data left when it waits. *)
Fixpoint writeLoop (fuel : nat) bb p (wn : nat) : BlockBuffer A * nat * list A * attempt nat :=
  match p with
  | [] => (bb, wn, [], Done (Ret wn))
  | _ =>
      let c := bb_circ bb in
      match fuel with
      | O => (bb, wn, p, Wait)
      | S fuel =>
          if isFull c then (bb, wn, p, Wait)
          else
            let '(buf', n) := circFill c p in
            writeLoop fuel (bbSignal (bbWith bb (MkCirc buf' (c_head c) (c_tail c + Z.of_nat n))))
              (drop n p) (wn + n)%nat
      end
  end.

Definition BlockBuffer_Write_attempt bb p (wn : nat) : BlockBuffer A * nat * list A * attempt nat :=
  match bb_closeErr bb with
  | Some e => (bb, wn, p, Done (Fail (ErrClosed "write to" e)))
  | None =>
      if bb_closeWrite bb then (bb, wn, p, Done (Fail (ErrClosed "write to" ErrClosedPipe)))
      else writeLoop (S (length p)) bb p wn
  end.

(** [Write(p)] starts with nothing written. *)
Definition BlockBuffer_Write bb p := BlockBuffer_Write_attempt bb p 0.

Definition BlockBuffer_closeWithErrorLocked bb (err : string) : BlockBuffer A * Go bufError unit :=
  match bb_closeErr bb with
  | Some _ => (bb, Ret tt)
  | None => (bbSignal (MkBlock (bb_circ bb) true (Some err) (bb_wakes bb)), Ret tt)
  end.

(** [err = nil] is [None]. *)
Definition BlockBuffer_CloseWithError bb (err : option string) : BlockBuffer A * Go bufError unit :=
  BlockBuffer_closeWithErrorLocked bb (default ErrClosedPipe err).

Definition BlockBuffer_Error bb : option string := bb_closeErr bb.

Definition BlockBuffer_Close bb : BlockBuffer A * Go bufError unit := BlockBuffer_CloseWithError bb (Some ErrClosedPipe).

Definition BlockBuffer_CloseWrite bb : BlockBuffer A * Go bufError unit :=
  if bb_closeWrite bb then (bb, Ret tt)
  else (bbSignal (MkBlock (bb_circ bb) true (bb_closeErr bb) (bb_wakes bb)), Ret tt).

Definition BlockBuffer_Next bb : BlockBuffer A * attempt A :=
  match bb_closeErr bb with
  | Some e => (bb, Done (Fail (ErrClosed "read from" e)))
  | None =>
      let c := bb_circ bb in
      if isEmpty c then
        if bb_closeWrite bb then (bb, Done (Fail ErrIteratorDone)) else (bb, Wait)
      else
        match c_buf c !! Z.to_nat (c_head c `mod` c_cap c) with
        | None => (bb, Done Panic)
        | Some chunk => (bbSignal (bbWith bb (moveHead c 1)), Done (Ret chunk))
        end
  end.

Definition BlockBuffer_Add bb (t : A) : BlockBuffer A * attempt unit :=
  match bb_closeErr bb with
  | Some e => (bb, Done (Fail (ErrClosed "write to" e)))
  | None =>
      if bb_closeWrite bb then (bb, Done (Fail (ErrClosed "write to" ErrClosedPipe)))
      else
        let c := bb_circ bb in
        if isFull c then (bb, Wait)
        else
          let tail := Z.to_nat (c_tail c `mod` c_cap c) in
          (bbSignal (bbWith bb (MkCirc (<[tail := t]> (c_buf c)) (c_head c) (c_tail c + 1))), Done (Ret tt))
  end.

Definition BlockBuffer_Reset bb : BlockBuffer A := bbWith bb (MkCirc (c_buf (bb_circ bb)) 0 0).

Definition BlockBuffer_Len bb : Z := c_tail (bb_circ bb) - c_head (bb_circ bb).

(** [x % 0] panics. *)
Definition BlockBuffer_Bytes bb : Go bufError (list A) :=
  if c_cap (bb_circ bb) =? 0 then Panic else Ret (circBytes (bb_circ bb)).

(** ** Executions *)

(** An attempt of some goroutine.  The first attempt of [Write(p)] and each later
    one, on the data left, are [OWrite]s. *)
Inductive bbOp :=
  | ORead (n : nat)
  | OWrite (p : list A)
  | ONext
  | OAdd (t : A)
  | ODiscard (n : nat)
  | OCloseWithError (err : option string)
  | OCloseWrite
  | OReset.

(** One attempt: the state after, the elements taken in and the elements given out
    (those that [Discard] and [Reset] drop included). *)
Definition runOp bb (o : bbOp) : BlockBuffer A * list A * list A :=
  match o with
  | ORead n =>
      let '(bb', r) := BlockBuffer_Read bb n in (bb', [], match r with Done (Ret out) => out | _ => [] end)
  | OWrite p =>
      let '(bb', wn, _, _) := BlockBuffer_Write_attempt bb p 0 in (bb', take wn p, [])
  | ONext =>
      let '(bb', r) := BlockBuffer_Next bb in (bb', [], match r with Done (Ret x) => [x] | _ => [] end)
  | OAdd t =>
      let '(bb', r) := BlockBuffer_Add bb t in (bb', match r with Done (Ret _) => [t] | _ => [] end, [])
  | ODiscard n =>
      let '(bb', r) := BlockBuffer_Discard bb n in
      (bb', [], match r with Ret _ => take n (content (bb_circ bb)) | _ => [] end)
  | OCloseWithError e => let '(bb', _) := BlockBuffer_CloseWithError bb e in (bb', [], [])
  | OCloseWrite => let '(bb', _) := BlockBuffer_CloseWrite bb in (bb', [], [])
  | OReset => (BlockBuffer_Reset bb, [], content (bb_circ bb))
  end.

Fixpoint runOps bb (ops : list bbOp) : BlockBuffer A * list A * list A :=
  match ops with
  | [] => (bb, [], [])
  | o :: ops =>
      let '(bb1, in1, out1) := runOp bb o in
      let '(bb2, in2, out2) := runOps bb1 ops in
      (bb2, in1 ++ in2, out1 ++ out2)
  end.

(** ** Steps on the content *)

Definition bbInv bb : Prop := circInv (bb_circ bb).
Definition items bb : list A := content (bb_circ bb).
Definition room bb : nat := (length (c_buf (bb_circ bb)) - length (items bb))%nat.

Lemma content_moveHead (c : Circ A) (n : nat) :
  circInv c -> (n <= length (content c))%nat ->
  circInv (moveHead c (Z.of_nat n)) /\ content (moveHead c (Z.of_nat n)) = drop n (content c).
Proof.
  intros HI Hn. rewrite length_content in Hn by done.
  assert (circInv (moveHead c (Z.of_nat n))) as HI'.
  { destruct HI as (H0 & H1 & H2 & H3). unfold circInv, moveHead, c_cap in *. cbn. lia. }
  split; [done|]. apply list_eq. intros i. rewrite lookup_drop, !lookup_content by done.
  pose proof (circ_mod_bounds c HI) as Hm. destruct HI as (H0 & H1 & H2 & H3).
  unfold moveHead, c_cap in *. cbn [c_buf c_head c_tail].
  destruct (Nat.ltb_spec i (Z.to_nat (c_tail c - (c_head c + Z.of_nat n)))) as [Hi|Hi],
    (Nat.ltb_spec (n + i) (Z.to_nat (c_tail c - c_head c))); try lia; [|done].
  rewrite mod_wrapIx by lia. rewrite !Nat2Z.id. f_equal. unfold wrapIx.
  clear HI' H0 H1. ix_cases.
Qed.

Lemma content_empty (c : Circ A) : circInv c -> isEmpty c = true <-> content c = [].
Proof.
  intros HI. unfold isEmpty. rewrite Z.eqb_eq. rewrite <-length_zero_iff_nil, length_content by done.
  destruct HI as (H0 & H1 & H2 & H3). lia.
Qed.

Lemma content_same_counters (buf : list A) n : content (MkCirc buf n n) = [].
Proof. unfold content. cbn. by rewrite Z.sub_diag. Qed.

Lemma content_full (c : Circ A) :
  circInv c -> isFull c = true <-> length (content c) = length (c_buf c).
Proof.
  intros HI. unfold isFull. rewrite Z.eqb_eq, length_content by done.
  destruct HI as (H0 & H1 & H2 & H3). unfold c_cap in *. lia.
Qed.

Lemma items_le_cap bb : bbInv bb -> (length (items bb) <= length (c_buf (bb_circ bb)))%nat.
Proof.
  intros HI. unfold items. rewrite length_content by done.
  destruct HI as (H0 & H1 & H2 & H3). unfold c_cap in *. lia.
Qed.

(** ** The write loop *)
Lemma writeLoop_nil fuel bb wn : writeLoop fuel bb [] wn = (bb, wn, [], Done (Ret wn)).
Proof. by destruct fuel. Qed.

Lemma circFill_room bb p :
  bbInv bb ->
  exists buf', circFill (bb_circ bb) p = (buf', Nat.min (room bb) (length p)) /\
    let c' := MkCirc buf' (c_head (bb_circ bb)) (c_tail (bb_circ bb) + Z.of_nat (Nat.min (room bb) (length p))) in
    circInv c' /\ content c' = items bb ++ take (room bb) p /\ length buf' = length (c_buf (bb_circ bb)).
Proof.
  intros HI. pose proof (circFill_content (bb_circ bb) p HI) as HF.
  destruct (circFill _ _) as [buf' n]. destruct HF as (Hn & HI' & Hc & Hl).
  assert (n = Nat.min (room bb) (length p)) as ->.
  { rewrite Hn. unfold room, items. rewrite length_content by done. unfold c_cap.
    destruct HI as (H0 & H1 & H2 & H3). unfold c_cap in *. lia. }
  exists buf'. split; [done|]. cbn zeta. split_and!; [done| |done]. rewrite Hc. unfold items. f_equal.
  destruct (Nat.le_ge_cases (room bb) (length p)).
  - by rewrite Nat.min_l.
  - rewrite Nat.min_r by done. by rewrite !take_ge by lia.
Qed.

(** The write loop takes what fits, waits exactly when something is left, and its
    fuel never runs out: two rounds suffice. *)
Lemma writeLoop_spec fuel bb p wn :
  bbInv bb -> (2 <= fuel)%nat ->
  exists bb',
    writeLoop fuel bb p wn =
      (bb', wn + Nat.min (room bb) (length p), drop (room bb) p,
        if (length p <=? room bb) then Done (Ret (wn + length p)) else Wait)%nat /\
    bbInv bb' /\ items bb' = items bb ++ take (room bb) p /\
    length (c_buf (bb_circ bb')) = length (c_buf (bb_circ bb)) /\
    bb_closeErr bb' = bb_closeErr bb /\ bb_closeWrite bb' = bb_closeWrite bb /\
    (bb_wakes bb' = bb_wakes bb + (if decide (Nat.min (room bb) (length p) = 0) then 0 else 1))%nat.
Proof.
  intros HI Hf. destruct p as [|x p].
  { rewrite writeLoop_nil. exists bb. rewrite take_nil, drop_nil, app_nil_r. cbn [length]. rewrite Nat.min_0_r, !Nat.add_0_r.
    done. }
  destruct fuel as [|fuel]; [lia|]. cbn [writeLoop].
  pose proof (content_full (bb_circ bb) HI) as Hfull. pose proof (items_le_cap bb HI) as Hcap.
  destruct (isFull (bb_circ bb)) eqn:Hfl.
  - assert (room bb = 0%nat) as Hr by (unfold room, items in *; rewrite (proj1 Hfull eq_refl); lia).
    exists bb. rewrite Hr, Nat.min_0_l, Nat.add_0_r, take_0, app_nil_r, drop_0.
    split_and!; try done.
  - assert (0 < room bb)%nat as Hr.
    { unfold room, items in *. destruct (Nat.eq_dec (length (content (bb_circ bb))) (length (c_buf (bb_circ bb)))) as [E|]; [|lia].
      by apply Hfull in E. }
    destruct (circFill_room bb (x :: p) HI) as (buf' & -> & HI' & Hc & Hl). cbn zeta beta iota.
    set (n := Nat.min (room bb) (length (x :: p))) in *.
    assert (drop n (x :: p) = drop (room bb) (x :: p)) as Hdr.
    { unfold n. destruct (Nat.le_ge_cases (room bb) (length (x :: p))); [by rewrite Nat.min_l|].
      rewrite Nat.min_r by done. by rewrite !drop_ge by lia. }
    rewrite Hdr. set (bb1 := bbSignal _).
    assert (writeLoop fuel bb1 (drop (room bb) (x :: p)) (wn + n) =
      (bb1, wn + n, drop (room bb) (x :: p), if (length (x :: p) <=? room bb) then Done (Ret (wn + length (x :: p))) else Wait)%nat) as ->.
    { destruct (Nat.leb_spec (length (x :: p)) (room bb)).
      - rewrite drop_ge by done. rewrite writeLoop_nil. unfold n. by rewrite Nat.min_r by done.
      - destruct (drop (room bb) (x :: p)) as [|y q] eqn:Hd.
        { apply (f_equal length) in Hd. rewrite length_drop in Hd. cbn [length] in *. lia. }
        destruct fuel; [lia|]. cbn [writeLoop].
        assert (isFull (bb_circ bb1) = true) as ->; [|done].
        apply content_full; [done|]. unfold bb1. cbn [bbSignal bbWith bb_circ c_buf]. rewrite Hc, length_app, length_take, Hl.
        unfold room, items in *. lia. }
    exists bb1. split_and!; try done.
    unfold bb1. cbn [bbSignal bbWith bb_wakes]. destruct (decide _); [|lia].
    unfold n in *. cbn [length] in *. lia.
Qed.

(** ** One attempt on the content *)

Lemma Write_attempt_spec bb p wn :
  bbInv bb -> bb_closeErr bb = None -> bb_closeWrite bb = false ->
  exists bb',
    BlockBuffer_Write_attempt bb p wn =
      (bb', wn + Nat.min (room bb) (length p), drop (room bb) p,
        if (length p <=? room bb) then Done (Ret (wn + length p)) else Wait)%nat /\
    bbInv bb' /\ items bb' = items bb ++ take (room bb) p /\
    length (c_buf (bb_circ bb')) = length (c_buf (bb_circ bb)) /\
    bb_closeErr bb' = None /\ bb_closeWrite bb' = false /\
    (bb_wakes bb' = bb_wakes bb + (if decide (Nat.min (room bb) (length p) = 0) then 0 else 1))%nat.
Proof.
  intros HI He Hw. unfold BlockBuffer_Write_attempt. rewrite He, Hw.
  destruct p as [|x p].
  - exists bb. cbn [writeLoop length]. rewrite take_nil, drop_nil, app_nil_r, Nat.min_0_r, !Nat.add_0_r. by rewrite He, Hw.
  - destruct (writeLoop_spec (S (length (x :: p))) bb (x :: p) wn HI) as (bb' & E); [cbn; lia|].
    rewrite He, Hw in E. eauto.
Qed.

Lemma Read_spec bb n :
  bbInv bb -> bb_closeErr bb = None -> items bb <> [] ->
  BlockBuffer_Read bb n =
    (bbSignal (bbWith bb (moveHead (bb_circ bb) (Z.of_nat (Nat.min n (length (items bb)))))), Done (Ret (take n (items bb)))).
Proof.
  intros HI He Hne. unfold BlockBuffer_Read. rewrite He.
  destruct (isEmpty (bb_circ bb)) eqn:Hemp.
  { apply content_empty in Hemp; [done|done]. }
  by rewrite circRead_content, length_take by done.
Qed.

Lemma insert_tail_content (c : Circ A) t :
  circInv c -> (length (content c) < length (c_buf c))%nat ->
  let c' := MkCirc (<[Z.to_nat (c_tail c `mod` c_cap c) := t]> (c_buf c)) (c_head c) (c_tail c + 1) in
  circInv c' /\ content c' = content c ++ [t].
Proof.
  intros HI Hlt. pose proof (circ_mod_bounds c HI) as Hm. pose proof (length_content c HI) as HL.
  assert (Z.to_nat (c_tail c `mod` c_cap c) =
    wrapIx (length (c_buf c)) (Z.to_nat (c_head c `mod` c_cap c)) (length (content c))) as ->.
  { destruct HI as (H0 & H1 & H2 & H3). rewrite HL.
    replace (c_tail c) with (c_head c + Z.of_nat (Z.to_nat (c_tail c - c_head c))) at 1 by lia.
    unfold c_cap in *. rewrite mod_wrapIx by lia. unfold wrapIx. by rewrite Nat2Z.id. }
  apply (content_extend c _ [t]); [done|by rewrite length_insert| | |].
  - destruct HI as (H0 & H1 & H2 & H3). unfold c_cap in *. cbn. lia.
  - intros i Hi. rewrite list_lookup_insert_ne; [done|]. rewrite HL.
    clear -Hm Hi Hlt HL. unfold wrapIx. ix_cases.
  - intros j Hj. cbn in Hj. destruct j; [|lia]. rewrite Nat.add_0_r, HL.
    rewrite list_lookup_insert_eq; [done|]. apply wrap_lt; [done|]. lia.
Qed.

(** The single-attempt law: what was in, followed by what is taken in, is what is
    given out followed by what is left. *)
Definition fifoStep bb (r : BlockBuffer A * list A * list A) : Prop :=
  let '(bb', ins, outs) := r in
  bbInv bb' /\ items bb ++ ins = outs ++ items bb' /\ length (c_buf (bb_circ bb')) = length (c_buf (bb_circ bb)).

Lemma fifoStep_refl bb : bbInv bb -> fifoStep bb (bb, [], []).
Proof. intros HI. split_and!; [done| |done]. by rewrite app_nil_r. Qed.

Lemma Read_fifo bb n : bbInv bb -> fifoStep bb (runOp bb (ORead n)).
Proof.
  intros HI. cbn [runOp]. destruct (bb_closeErr bb) eqn:He.
  { unfold BlockBuffer_Read. rewrite He. by apply fifoStep_refl. }
  destruct (decide (items bb = [])) as [Hemp|Hne].
  - unfold BlockBuffer_Read. rewrite He. apply content_empty in Hemp as ->; [|done].
    destruct (bb_closeWrite bb); by apply fifoStep_refl.
  - rewrite Read_spec by done.
    destruct (content_moveHead (bb_circ bb) (Nat.min n (length (items bb))) HI) as [HI' Hc]; [unfold items; lia|].
    split_and!; [done| |done]. unfold items at 3. cbn [bbSignal bbWith bb_circ]. rewrite Hc, app_nil_r. fold (items bb).
    destruct (Nat.le_ge_cases n (length (items bb))).
    + rewrite Nat.min_l by done. by rewrite take_drop.
    + rewrite Nat.min_r by done. rewrite drop_all, app_nil_r. by rewrite take_ge.
Qed.

Lemma Write_fifo bb p : bbInv bb -> fifoStep bb (runOp bb (OWrite p)).
Proof.
  intros HI. cbn [runOp]. destruct (bb_closeErr bb) eqn:He.
  { unfold BlockBuffer_Write_attempt. rewrite He. by apply fifoStep_refl. }
  destruct (bb_closeWrite bb) eqn:Hw.
  { unfold BlockBuffer_Write_attempt. rewrite He, Hw. by apply fifoStep_refl. }
  destruct (Write_attempt_spec bb p 0 HI He Hw) as (bb' & -> & HI' & Hit & Hl & _).
  split_and!; [done| |done]. cbn [plus app]. rewrite Hit. f_equal.
  destruct (Nat.le_ge_cases (room bb) (length p)); [by rewrite Nat.min_l|].
  rewrite Nat.min_r by done. by rewrite !take_ge by lia.
Qed.

Lemma content_head (c : Circ A) x l :
  circInv c -> content c = x :: l -> c_buf c !! Z.to_nat (c_head c `mod` c_cap c) = Some x.
Proof.
  intros HI Hit. pose proof (lookup_content c 0 HI) as Hl. pose proof (length_content _ HI) as HL.
  rewrite Hit in Hl, HL. cbn in Hl, HL. rewrite <-HL in Hl. cbn in Hl. rewrite Hl. f_equal.
  unfold wrapIx. pose proof (circ_mod_bounds _ HI). rewrite Nat.add_0_r. ix_cases.
Qed.

Lemma Next_fifo bb : bbInv bb -> fifoStep bb (runOp bb ONext).
Proof.
  intros HI. cbn [runOp]. unfold BlockBuffer_Next.
  destruct (bb_closeErr bb) eqn:He; [by apply fifoStep_refl|].
  destruct (isEmpty (bb_circ bb)) eqn:Hemp; [destruct (bb_closeWrite bb); by apply fifoStep_refl|].
  assert (items bb <> []) as Hne by (intros H; apply content_empty in H; [by rewrite H in Hemp|done]).
  destruct (items bb) as [|x l] eqn:Hit; [done|]. rewrite (content_head _ x l) by done.
  destruct (content_moveHead (bb_circ bb) 1 HI) as [HI' Hc]; [unfold items in Hit; rewrite Hit; cbn; lia|].
  split_and!; [done| |done]. unfold items in *. cbn [bbSignal bbWith bb_circ]. rewrite app_nil_r, Hit.
  change (Z.of_nat 1) with 1 in Hc. by rewrite Hc, Hit.
Qed.

Lemma Add_fifo bb t : bbInv bb -> fifoStep bb (runOp bb (OAdd t)).
Proof.
  intros HI. cbn [runOp]. unfold BlockBuffer_Add.
  destruct (bb_closeErr bb) eqn:He; [by apply fifoStep_refl|].
  destruct (bb_closeWrite bb) eqn:Hw; [by apply fifoStep_refl|].
  destruct (isFull (bb_circ bb)) eqn:Hf; [by apply fifoStep_refl|].
  destruct (insert_tail_content (bb_circ bb) t HI) as [HI' Hc].
  { pose proof (items_le_cap bb HI). unfold items in *.
    destruct (Nat.eq_dec (length (content (bb_circ bb))) (length (c_buf (bb_circ bb)))) as [E|]; [|lia].
    apply content_full in E; [congruence|done]. }
  split_and!; [done| |cbn; by rewrite length_insert]. unfold items. cbn [app]. by rewrite <-Hc.
Qed.

Lemma Discard_fifo bb n : bbInv bb -> fifoStep bb (runOp bb (ODiscard n)).
Proof.
  intros HI. cbn [runOp]. unfold BlockBuffer_Discard.
  destruct (bb_closeErr bb) eqn:He; [by apply fifoStep_refl|].
  pose proof (length_content _ HI) as HL. pose proof HI as (H0 & H1 & H2 & H3).
  destruct (Z.ltb_spec (c_tail (bb_circ bb) - c_head (bb_circ bb)) (Z.of_nat n)).
  - split_and!; [unfold bbInv, circInv, c_cap in *; cbn; lia| |done]. unfold items. cbn [bbWith bb_circ].
    rewrite content_same_counters, !app_nil_r. rewrite take_ge by lia. done.
  - destruct (content_moveHead (bb_circ bb) n HI) as [HI' Hc]; [lia|].
    split_and!; [done| |done]. unfold items. cbn [bbWith bb_circ]. rewrite Hc, app_nil_r. by rewrite take_drop.
Qed.

Lemma runOp_fifo bb o : bbInv bb -> fifoStep bb (runOp bb o).
Proof.
  intros HI. destruct o.
  - by apply Read_fifo.
  - by apply Write_fifo.
  - by apply Next_fifo.
  - by apply Add_fifo.
  - by apply Discard_fifo.
  - cbn. unfold BlockBuffer_CloseWithError, BlockBuffer_closeWithErrorLocked.
    destruct (bb_closeErr bb); apply (fifoStep_refl bb HI).
  - cbn. unfold BlockBuffer_CloseWrite. destruct (bb_closeWrite bb); apply (fifoStep_refl bb HI).
  - split_and!; [| |done].
    + destruct HI as (H0 & H1 & H2 & H3). unfold bbInv, circInv, c_cap in *. cbn. lia.
    + unfold items. cbn [BlockBuffer_Reset bbWith bb_circ]. by rewrite content_same_counters.
Qed.

Lemma runOps_fifo ops bb : bbInv bb -> fifoStep bb (runOps bb ops).
Proof.
  revert bb. induction ops as [|o ops IH]; intros bb HI; [by apply fifoStep_refl|].
  cbn [runOps]. pose proof (runOp_fifo bb o HI) as H1. destruct (runOp bb o) as [[bb1 in1] out1].
  destruct H1 as (HI1 & E1 & L1). pose proof (IH bb1 HI1) as H2. destruct (runOps bb1 ops) as [[bb2 in2] out2].
  destruct H2 as (HI2 & E2 & L2). split_and!; [done| |congruence]. by rewrite app_assoc, E1, <-app_assoc, E2, app_assoc.
Qed.

(** ** A writer and a reader that takes turns with it *)

(** [Write(p)] runs; each time it waits, a reader with a slice of length [m] runs
    and the writer is woken.  Result: what was read, and the outcome of the write if
    it returned within [fuel] turns. *)
Fixpoint pump (fuel m : nat) bb p (wn : nat) : BlockBuffer A * list A * option (Go bufError nat) :=
  match fuel with
  | O => (bb, [], None)
  | S fuel =>
      match BlockBuffer_Write_attempt bb p wn with
      | (bb1, _, _, Done r) => (bb1, [], Some r)
      | (bb1, wn1, rest, Wait) =>
          match BlockBuffer_Read bb1 m with
          | (bb2, Done (Ret out)) =>
              let '(bb3, outs, r) := pump fuel m bb2 rest wn1 in (bb3, out ++ outs, r)
          | (bb2, _) => (bb2, [], None)
          end
      end
  end.

Lemma pump_spec fuel m bb p wn :
  bbInv bb -> bb_closeErr bb = None -> bb_closeWrite bb = false -> (0 < m)%nat ->
  (length p < fuel + room bb)%nat -> (0 < fuel)%nat ->
  exists bb' outs, pump fuel m bb p wn = (bb', outs, Some (Ret (wn + length p)%nat)) /\
    bbInv bb' /\ items bb ++ p = outs ++ items bb'.
Proof.
  revert bb p wn. induction fuel as [|fuel IH]; intros bb p wn HI He Hw Hm Hlen Hpos; [lia|]. cbn [pump].
  destruct (Write_attempt_spec bb p wn HI He Hw) as (bb1 & -> & HI1 & Hit1 & Hl1 & He1 & Hw1 & _).
  destruct (Nat.leb_spec (length p) (room bb)).
  - exists bb1, []. split; [done|]. split; [done|]. cbn [app]. rewrite Hit1. by rewrite take_ge by lia.
  - assert (length (items bb1) = length (c_buf (bb_circ bb1))) as Hfull1.
    { rewrite Hit1, length_app, length_take, Hl1. pose proof (items_le_cap bb HI). unfold room in *. lia. }
    assert (items bb1 <> []) as Hne.
    { intros E. rewrite E in Hfull1. destruct HI1 as (_ & _ & _ & Hc). unfold c_cap in Hc. cbn in Hfull1. lia. }
    pose proof (Read_fifo bb1 m HI1) as HR. cbn [runOp] in HR. rewrite Read_spec in HR |- * by done. cbn zeta beta iota in HR |- *.
    set (bb2 := bbSignal _) in *. destruct HR as (HI2 & HR & _). rewrite app_nil_r in HR.
    assert (1 <= room bb2)%nat as Hroom.
    { assert (c_buf (bb_circ bb2) = c_buf (bb_circ bb1)) as Hb by done. unfold room. rewrite Hb, <-Hfull1, HR, length_app, length_take.
      assert (length (items bb1) <> 0)%nat by (by intros ?%nil_length_inv). lia. }
    destruct (IH bb2 (drop (room bb) p) (wn + Nat.min (room bb) (length p))%nat) as (bb3 & outs & -> & HI3 & E3);
      [done..|rewrite length_drop; lia|lia|].
    exists bb3, (take m (items bb1) ++ outs). split; [|split; [done|]].
    + do 3 f_equal. rewrite length_drop. lia.
    + rewrite <-app_assoc, <-E3, app_assoc, <-HR, Hit1, <-app_assoc. by rewrite take_drop.
Qed.

(** ** [Bytes] *)
Lemma circBytes_nonempty (c : Circ A) : circInv c -> content c <> [] -> circBytes c = content c.
Proof.
  intros HI Hne. pose proof (circ_mod_bounds c HI) as Hm.
  assert (0 < Z.to_nat (c_tail c - c_head c))%nat as Hk.
  { rewrite <-length_content by done. destruct (content c); [done|cbn; lia]. }
  assert (Z.to_nat (c_tail c `mod` c_cap c) =
    wrapIx (length (c_buf c)) (Z.to_nat (c_head c `mod` c_cap c)) (Z.to_nat (c_tail c - c_head c))) as Ht.
  { destruct HI as (H0 & H1 & H2 & H3).
    replace (c_tail c) with (c_head c + Z.of_nat (Z.to_nat (c_tail c - c_head c))) at 1 by lia.
    unfold c_cap in *. rewrite mod_wrapIx by lia. unfold wrapIx. by rewrite Nat2Z.id. }
  unfold circBytes, content. rewrite Ht. destruct HI as (H0 & H1 & H2 & H3).
  unfold c_cap in H2. set (h := Z.to_nat (c_head c `mod` _)) in *. set (k := Z.to_nat (c_tail c - c_head c)) in *.
  assert (k <= length (c_buf c))%nat as Hkc by (unfold k; lia). clearbody h k. clear Ht H0 H1 H2 H3 Hne.
  rewrite drop_app_le by lia. unfold wrapIx. destruct (Nat.ltb_spec (h + k) (length (c_buf c))).
  - destruct (Nat.ltb_spec h (h + k)); [|lia]. replace (h + k - h)%nat with k by lia.
    by rewrite take_app_le by (rewrite length_drop; lia).
  - destruct (Nat.ltb_spec h (h + k - length (c_buf c))); [lia|].
    rewrite take_app_ge by (rewrite length_drop; lia). rewrite length_drop. f_equal. f_equal. lia.
Qed.

Lemma circBytes_empty (c : Circ A) :
  circInv c -> content c = [] ->
  circBytes c = drop (Z.to_nat (c_head c `mod` c_cap c)) (c_buf c) ++ take (Z.to_nat (c_head c `mod` c_cap c)) (c_buf c).
Proof.
  intros HI Hc. apply content_empty in Hc; [|done]. unfold isEmpty in Hc. apply Z.eqb_eq in Hc.
  unfold circBytes. rewrite <-Hc. by rewrite Nat.ltb_irrefl.
Qed.

End blockBuffer.

Lemma BlockN_inv {A} (zero : A) size : (0 < size)%nat -> bbInv (BlockN zero size) /\ items (BlockN zero size) = [].
Proof.
  intros Hs. split; [|apply content_same_counters]. unfold bbInv, circInv, c_cap. cbn.
  rewrite length_replicate. lia.
Qed.

(** C33: a BlockBuffer is a bounded FIFO channel under any interleaving of reads,
    writes, single-element operations, discards, resets and closes: everything ever
    accepted is, in order, everything ever delivered (or deliberately dropped)
    followed by what is still buffered, and the number buffered is [Len] and never
    exceeds the size. *)
Theorem BlockBuffer_fifo {A} (zero : A) (size : nat) (ops : list bbOp) :
  (0 < size)%nat ->
  let '(bb, accepted, delivered) := runOps (BlockN zero size) ops in
  accepted = delivered ++ items bb /\
  BlockBuffer_Len bb = Z.of_nat (length (items bb)) /\
  BlockBuffer_Len bb <= Z.of_nat size.
Proof.
  intros Hs. destruct (BlockN_inv zero size Hs) as [HI Hit].
  pose proof (runOps_fifo ops _ HI) as HF. destruct (runOps _ _) as [[bb ins] outs].
  destruct HF as (HI' & E & HL). rewrite Hit in E. cbn in E, HL. rewrite length_replicate in HL.
  pose proof (items_le_cap bb HI'). unfold BlockBuffer_Len, items in *.
  rewrite length_content in * by done. destruct HI' as (? & ? & ? & ?). split_and!; [done|lia..].
Qed.

Lemma BlockBuffer_fifo_witness :
  let '(bb, accepted, delivered) :=
    runOps (BlockN 0 3) [OWrite [1;2]; ORead 1; OWrite [3;4;5]; ONext; OCloseWrite; OAdd 9; ODiscard 1] in
  accepted = delivered ++ items bb /\
  BlockBuffer_Len bb = Z.of_nat (length (items bb)) /\ BlockBuffer_Len bb <= Z.of_nat 3.
Proof. apply (BlockBuffer_fifo 0 3). lia. Defined.

(** [Write] on an open buffer returns after everything is accepted provided some
    reader keeps reading: when each wait of the writer is answered by one [Read]
    into a slice of any positive length, the write finishes with the count [len(p)]
    and no error after at most [len(p) + 1] attempts, and the data comes out in
    order behind what was buffered. *)
Theorem BlockBuffer_Write_completes {A} (bb : BlockBuffer A) (p : list A) (m : nat) :
  bbInv bb -> bb_closeErr bb = None -> bb_closeWrite bb = false -> (0 < m)%nat ->
  exists bb' delivered,
    pump (S (length p)) m bb p 0 = (bb', delivered, Some (Ret (length p))) /\
    items bb ++ p = delivered ++ items bb'.
Proof.
  intros HI He Hw Hm. destruct (pump_spec (S (length p)) m bb p 0) as (bb' & outs & E & _ & E'); try done; [lia|lia|].
  eauto.
Qed.

Lemma BlockBuffer_Write_completes_witness :
  exists bb' delivered,
    pump 6 2 (BlockN 0 2) [1;2;3;4;5] 0 = (bb', delivered, Some (Ret 5%nat)) /\
    items (BlockN 0 2) ++ [1;2;3;4;5] = delivered ++ items bb'.
Proof. apply (BlockBuffer_Write_completes (BlockN 0 2) [1;2;3;4;5] 2); [apply BlockN_inv; lia|done..|lia]. Defined.

(** [Bytes] returns the buffered elements whenever there is one; on an empty
    buffer it returns the whole storage, [len(buf)] stale or zero elements, although
    [Len] is 0. *)
Theorem BlockBuffer_Bytes_branches {A} (bb : BlockBuffer A) :
  bbInv bb ->
  exists out, BlockBuffer_Bytes bb = Ret out /\
    (items bb <> [] -> out = items bb) /\
    (items bb = [] -> BlockBuffer_Len bb = 0 /\ out ≡ₚ c_buf (bb_circ bb) /\ out <> []).
Proof.
  intros HI. unfold BlockBuffer_Bytes. destruct (Z.eqb_spec (c_cap (bb_circ bb)) 0) as [E|_].
  { destruct HI as (_ & _ & _ & H). lia. }
  exists (circBytes (bb_circ bb)). split_and!; [done|by apply circBytes_nonempty|].
  intros Hit. rewrite circBytes_empty by done. split_and!.
  - apply content_empty in Hit; [|done]. apply Z.eqb_eq in Hit. unfold BlockBuffer_Len. lia.
  - rewrite Permutation_app_comm. by rewrite take_drop.
  - intros E. apply (f_equal length) in E. rewrite length_app, length_drop, length_take in E. cbn in E.
    destruct HI as (_ & _ & _ & Hp). unfold c_cap in Hp. lia.
Qed.

Lemma BlockBuffer_Bytes_branches_witness :
  exists out, BlockBuffer_Bytes (BlockN 0 2) = Ret out /\
    (items (BlockN 0 2) <> [] -> out = items (BlockN 0 2)) /\
    (items (BlockN 0 2) = [] -> BlockBuffer_Len (BlockN 0 2) = 0 /\ out ≡ₚ c_buf (bb_circ (BlockN 0 2)) /\ out <> []).
Proof. apply (BlockBuffer_Bytes_branches (BlockN 0 2)), BlockN_inv. lia. Defined.
