(* ===== verification/RingBuffer.v ===== *)
(** * buffer: RingBuffer

    [src/pkgs/buffer/ring_buffer.go]: the fixed-size buffer that overwrites its
    oldest elements.  As for [BlockBuffer], a method that waits is modelled by one
    attempt; [rb_notify] is the state of the one-slot channel [writeNotify]: whether
    it holds a token.  (It is closed exactly when [rb_closeWrite] is set, and then
    every receive returns at once.)

    Theorems: after any [Write] or [Add] the buffer holds the last [len(buf)]
    elements of what it held followed by the data; [Write] never leaves a token for
    a reader that waits. *)

From S2P Require Import Prelude CircBuffer BlockBuffer.
From stdpp Require Import list.

Open Scope Z_scope.

Record RingBuffer (A : Type) := MkRing {
  rb_circ : Circ A;
  rb_closeWrite : bool;
  rb_closeErr : option string;
  rb_notify : bool
}.
Arguments MkRing {A} _ _ _ _.
Arguments rb_circ {A} _.
Arguments rb_closeWrite {A} _.
Arguments rb_closeErr {A} _.
Arguments rb_notify {A} _.

Section ringBuffer.
Context {A : Type}.
Implicit Types (rb : RingBuffer A) (p : list A).

Definition RingN (zero : A) (size : nat) : RingBuffer A :=
  MkRing (MkCirc (replicate size zero) 0 0) false None false.

Definition rbWith rb (c : Circ A) : RingBuffer A :=
  MkRing c (rb_closeWrite rb) (rb_closeErr rb) (rb_notify rb).

Definition RingBuffer_Discard rb (n : nat) : RingBuffer A * Go bufError unit :=
  match rb_closeErr rb with
  | Some e => (rb, Fail (ErrClosed "skip from" e))
  | None =>
      let c := rb_circ rb in
      if c_tail c - c_head c <? Z.of_nat n
      then (rbWith rb (MkCirc (c_buf c) (c_tail c) (c_tail c)), Ret tt)
      else (rbWith rb (moveHead c (Z.of_nat n)), Ret tt)
  end.

Definition RingBuffer_Read rb (n : nat) : RingBuffer A * attempt (list A) :=
  match rb_closeErr rb with
  | Some e => (rb, Done (Fail (ErrClosed "read from" e)))
  | None =>
      let c := rb_circ rb in
      if isEmpty c then
        if rb_closeWrite rb then (rb, Done (Fail EOF)) else (rb, Wait)
      else
        let out := circRead c n in
        (rbWith rb (moveHead c (Z.of_nat (length out))), Done (Ret out))
  end.

(** A reader that waits receives from [writeNotify]: it goes on when there is a
    token, which it takes, or when the channel is closed. *)
Definition awaitNotify rb : option (RingBuffer A) :=
  if rb_closeWrite rb then Some rb
  else if rb_notify rb then Some (MkRing (rb_circ rb) (rb_closeWrite rb) (rb_closeErr rb) false)
  else None.

Definition RingBuffer_closeWithErrorLocked rb (err : string) : RingBuffer A * Go bufError unit :=
  match rb_closeErr rb with
  | Some _ => (rb, Ret tt)
  | None => (MkRing (rb_circ rb) true (Some err) (rb_notify rb), Ret tt)
  end.

Definition RingBuffer_CloseWithError rb (err : option string) : RingBuffer A * Go bufError unit :=
  RingBuffer_closeWithErrorLocked rb (default ErrClosedPipe err).

Definition RingBuffer_Error rb : option string := rb_closeErr rb.

Definition RingBuffer_Close rb : RingBuffer A * Go bufError unit :=
  RingBuffer_CloseWithError rb (Some ErrClosedPipe).

Definition RingBuffer_CloseWrite rb : RingBuffer A * Go bufError unit :=
  if rb_closeWrite rb then (rb, Ret tt)
  else (MkRing (rb_circ rb) true (rb_closeErr rb) (rb_notify rb), Ret tt).

(** The copies over the oldest elements: [cbuf] from index [head] on, [bbuf] after
    it, both going round the end of the storage. *)
Definition overwrite (buf : list A) (head : nat) (cbuf bbuf : list A) : list A :=
  let cp1 := Nat.min (length buf - head) (length cbuf) in
  let buf1 := copyAt head cbuf buf in
  if (cp1 <? length cbuf)%nat then
    let cp2 := Nat.min (length buf) (length cbuf - cp1) in
    copyAt cp2 bbuf (copyAt 0 (drop cp1 cbuf) buf1)
  else
    let bp1 := Nat.min (length buf - (head + cp1)) (length bbuf) in
    copyAt 0 (drop bp1 bbuf) (copyAt (head + cp1) bbuf buf1).

(** The part of [Write] that depends only on the storage: fill the free room, then
    overwrite with the tail of the data. *)
Definition ringWrite (c : Circ A) p : Circ A :=
  let '(buf1, wn) := if 0 <? c_cap c - (c_tail c - c_head c) then circFill c p else (c_buf c, 0%nat) in
  let tail1 := c_tail c + Z.of_nat wn in
  let leftn := (length p - wn)%nat in
  if (leftn =? 0)%nat then MkCirc buf1 (c_head c) tail1
  else
    let len := length (c_buf c) in
    let '(cbuf, bbuf) :=
      if (leftn <=? len)%nat then (drop (length p - leftn) p, [])
      else
        let cn := (leftn mod len)%nat in
        (drop (length p - cn) p, take (len - cn) (drop (length p - len) p)) in
    let head := Z.to_nat (c_head c `mod` c_cap c) in
    MkCirc (overwrite buf1 head cbuf bbuf)
      (c_head c + Z.of_nat (length cbuf)) (tail1 + Z.of_nat (length cbuf)).

(** [tail % 0] panics. *)
Definition RingBuffer_Write rb p : RingBuffer A * Go bufError nat :=
  match rb_closeErr rb with
  | Some e => (rb, Fail (ErrClosed "write to" e))
  | None =>
      if rb_closeWrite rb then (rb, Fail (ErrClosed "write to" ErrClosedPipe))
      else if c_cap (rb_circ rb) =? 0 then (rb, Panic)
      else (rbWith rb (ringWrite (rb_circ rb) p), Ret (length p))
  end.

Definition RingBuffer_Next rb : RingBuffer A * attempt A :=
  match rb_closeErr rb with
  | Some e => (rb, Done (Fail (ErrClosed "read from" e)))
  | None =>
      let c := rb_circ rb in
      if isEmpty c then
        if rb_closeWrite rb then (rb, Done (Fail ErrIteratorDone)) else (rb, Wait)
      else
        match c_buf c !! Z.to_nat (c_head c `mod` c_cap c) with
        | None => (rb, Done Panic)
        | Some chunk => (rbWith rb (moveHead c 1), Done (Ret chunk))
        end
  end.

Definition RingBuffer_Add rb (t : A) : RingBuffer A * Go bufError unit :=
  match rb_closeErr rb with
  | Some e => (rb, Fail (ErrClosed "write to" e))
  | None =>
      if rb_closeWrite rb then (rb, Fail (ErrClosed "write to" ErrClosedPipe))
      else
        let c := rb_circ rb in
        if c_cap c =? 0 then (rb, Panic)
        else
          let tail := Z.to_nat (c_tail c `mod` c_cap c) in
          let tail1 := c_tail c + 1 in
          let head1 := if c_cap c <? tail1 - c_head c then c_head c + 1 else c_head c in
          (MkRing (MkCirc (<[tail := t]> (c_buf c)) head1 tail1) (rb_closeWrite rb) (rb_closeErr rb) true, Ret tt)
  end.

Definition RingBuffer_Reset rb : RingBuffer A := rbWith rb (MkCirc (c_buf (rb_circ rb)) 0 0).

Definition RingBuffer_Len rb : Z := c_tail (rb_circ rb) - c_head (rb_circ rb).

Definition RingBuffer_Bytes rb : Go bufError (list A) :=
  if c_cap (rb_circ rb) =? 0 then Panic else Ret (circBytes (rb_circ rb)).

(** ** The last elements of a sequence *)
Definition lastn (n : nat) (l : list A) : list A := drop (length l - n) l.

Definition ringItems rb : list A := content (rb_circ rb).

Lemma lastn_short n l : (length l <= n)%nat -> lastn n l = l.
Proof. intros. unfold lastn. by replace (length l - n)%nat with 0%nat by lia. Qed.

Lemma lookup_lastn n (l : list A) i : (n <= length l)%nat -> lastn n l !! i = l !! (length l - n + i)%nat.
Proof. intros. unfold lastn. by rewrite lookup_drop. Qed.

(** ** The overwriting copies *)
Lemma overwrite_lookup (buf : list A) h cbuf bbuf j :
  (h < length buf -> length cbuf + length bbuf <= length buf -> j < length buf ->
   overwrite buf h cbuf bbuf !! wrapIx (length buf) h j =
     if j <? length cbuf then cbuf !! j
     else if j <? length cbuf + length bbuf then bbuf !! (j - length cbuf)
     else buf !! wrapIx (length buf) h j)%nat.
Proof.
  intros Hh Hs Hj. unfold overwrite.
  destruct (Nat.ltb_spec (Nat.min (length buf - h) (length cbuf)) (length cbuf)) as [H1|H1].
  - rewrite (Nat.min_l (length buf - h) (length cbuf)) in * by lia. rewrite Nat.min_r by lia.
    rewrite lookup_copyAt by (rewrite !length_copyAt; lia). rewrite !length_copyAt, Nat.min_l by lia.
    rewrite lookup_copyAt by lia. rewrite length_copyAt, length_drop, Nat.min_l by lia.
    rewrite lookup_copyAt, Nat.min_r by lia. rewrite lookup_drop. unfold wrapIx.
    destruct (Nat.ltb_spec (h + j) (length buf)); ix_cases; try done; f_equal; lia.
  - assert (length cbuf <= length buf - h)%nat as H2 by lia. clear H1.
    rewrite !(Nat.min_r (length buf - h) (length cbuf)) by lia.
    rewrite lookup_copyAt by lia. rewrite !length_copyAt, length_drop.
    rewrite lookup_copyAt by (rewrite length_copyAt; lia). rewrite length_copyAt.
    rewrite lookup_copyAt by lia. rewrite lookup_drop. unfold wrapIx.
    destruct (Nat.ltb_spec (h + j) (length buf)); ix_cases; try done; f_equal; lia.
Qed.

Lemma length_overwrite (buf : list A) h cbuf bbuf : length (overwrite buf h cbuf bbuf) = length buf.
Proof. unfold overwrite. destruct (_ <? _)%nat; by rewrite !length_copyAt. Qed.

Lemma wrap_wrap len h cn i :
  (h < len -> cn <= len -> i < len ->
   wrapIx len (wrapIx len h cn) i = wrapIx len h (if cn + i <? len then cn + i else cn + i - len))%nat.
Proof. intros. unfold wrapIx. ix_cases. Qed.

(** Overwriting a full buffer: the oldest elements give way to [cbuf] at the end,
    and [bbuf] replaces the oldest of those that stay. *)
Lemma overwrite_content (c : Circ A) cbuf bbuf :
  circInv c -> c_tail c - c_head c = c_cap c ->
  (length cbuf + length bbuf <= length (c_buf c))%nat ->
  let c' := MkCirc (overwrite (c_buf c) (Z.to_nat (c_head c `mod` c_cap c)) cbuf bbuf)
              (c_head c + Z.of_nat (length cbuf)) (c_tail c + Z.of_nat (length cbuf)) in
  circInv c' /\ content c' = bbuf ++ drop (length cbuf + length bbuf) (content c) ++ cbuf.
Proof.
  intros HI Hfull Hlen c'. pose proof (circ_mod_bounds c HI) as Hm.
  assert (c_cap c' = c_cap c) as Hcap by (unfold c_cap; cbn; by rewrite length_overwrite).
  assert (circInv c') as HI'.
  { destruct HI as (H0 & H1 & H2 & H3). unfold circInv. rewrite Hcap. cbn. lia. }
  split; [done|]. apply list_eq. intros i. rewrite lookup_content by done. rewrite Hcap.
  pose proof (length_content c HI) as HL. rewrite Hfull in HL. unfold c_cap in HL. rewrite Nat2Z.id in HL.
  destruct HI as (H0 & H1 & H2 & H3).
  rewrite !lookup_app, length_drop, HL, lookup_drop.
  replace (Z.to_nat (c_tail c' - c_head c')) with (length (c_buf c)) by (cbn; unfold c_cap in *; lia).
  cbn [c' c_buf c_head c_tail]. rewrite length_overwrite.
  destruct (Nat.ltb_spec i (length (c_buf c))) as [Hi|Hi].
  - assert (Z.to_nat ((c_head c + Z.of_nat (length cbuf)) `mod` c_cap c) =
      wrapIx (length (c_buf c)) (Z.to_nat (c_head c `mod` c_cap c)) (length cbuf)) as ->.
    { unfold c_cap in *. rewrite mod_wrapIx by lia. unfold wrapIx. by rewrite Nat2Z.id. }
    rewrite wrap_wrap by lia. rewrite overwrite_lookup by (first [lia | ix_cases]).
    rewrite (lookup_content c) by done. rewrite Hfull.
    replace (Z.to_nat (c_cap c)) with (length (c_buf c)) by (unfold c_cap; lia).
    destruct (Nat.ltb_spec (length cbuf + i) (length (c_buf c))).
    + destruct (Nat.ltb_spec (length cbuf + i) (length cbuf)); [lia|].
      destruct (Nat.ltb_spec (length cbuf + i) (length cbuf + length bbuf)).
      * replace (length cbuf + i - length cbuf)%nat with i by lia.
        by destruct (lookup_lt_is_Some_2 bbuf i ltac:(lia)) as [x ->].
      * rewrite (lookup_ge_None_2 bbuf) by lia.
        replace (length cbuf + length bbuf + (i - length bbuf))%nat with (length cbuf + i)%nat by lia.
        destruct (Nat.ltb_spec (length cbuf + i) (length (c_buf c))); [|lia].
        destruct (lookup_lt_is_Some_2 (c_buf c) (wrapIx (length (c_buf c)) (Z.to_nat (c_head c `mod` c_cap c)) (length cbuf + i))) as [x ->]; [|done].
        apply wrap_lt; lia.
    + destruct (Nat.ltb_spec (length cbuf + i - length (c_buf c)) (length cbuf)); [|lia].
      rewrite (lookup_ge_None_2 bbuf) by lia.
      destruct (Nat.ltb_spec (length cbuf + length bbuf + (i - length bbuf)) (length (c_buf c))); [lia|].
      f_equal. lia.
  - rewrite (lookup_ge_None_2 bbuf) by lia. rewrite (lookup_ge_None_2 cbuf) by lia.
    rewrite (lookup_ge_None_2 (content c)) by lia. done.
Qed.

(** [Write] keeps the newest elements. *)
Lemma ringWrite_content (c : Circ A) p :
  circInv c ->
  circInv (ringWrite c p) /\ content (ringWrite c p) = lastn (length (c_buf c)) (content c ++ p) /\
  length (c_buf (ringWrite c p)) = length (c_buf c).
Proof.
  intros HI. unfold ringWrite. pose proof HI as (H0 & H1 & H2 & H3).
  set (r := if 0 <? _ then _ else _).
  assert (exists buf1 wn, r = (buf1, wn) /\ wn = Nat.min (length (c_buf c) - length (content c)) (length p) /\
    circInv (MkCirc buf1 (c_head c) (c_tail c + Z.of_nat wn)) /\
    content (MkCirc buf1 (c_head c) (c_tail c + Z.of_nat wn)) = content c ++ take wn p /\
    length buf1 = length (c_buf c)) as (buf1 & wn & -> & Hwn & HI1 & Hc1 & Hl1).
  { rewrite length_content by done. unfold r. destruct (Z.ltb_spec 0 (c_cap c - (c_tail c - c_head c))).
    - pose proof (circFill_content c p HI) as HF. destruct (circFill c p) as [buf1 n].
      destruct HF as (Hn & HI1 & Hc1 & Hl1). exists buf1, n. split_and!; try done. rewrite Hn. unfold c_cap in *. lia.
    - exists (c_buf c), 0%nat. rewrite Z.add_0_r, take_0, app_nil_r. unfold c_cap in *. destruct c; cbn in *.
      split_and!; try done. lia. }
  pose proof (length_content _ HI) as HL. unfold c_cap in *.
  destruct (Nat.eqb_spec (length p - wn) 0) as [Hz|Hz].
  { split_and!; [done| |done]. rewrite Hc1. rewrite take_ge by lia. rewrite lastn_short; [done|].
    rewrite length_app. lia. }
  assert (length (content c ++ take wn p) = length (c_buf c)) as Hlc by (rewrite length_app, length_take; lia).
  assert (wn + (length p - wn) = length p)%nat as Hsplit by lia.
  set (c1 := MkCirc buf1 (c_head c) (c_tail c + Z.of_nat wn)) in *.
  assert (c_tail c1 - c_head c1 = c_cap c1) as Hfull1.
  { pose proof (length_content _ HI1) as HL1. rewrite Hc1, Hlc in HL1. destruct HI1 as (? & ? & ? & ?).
    unfold c_cap in *. cbn [c1 c_buf c_head c_tail] in *. lia. }
  destruct (Nat.leb_spec (length p - wn) (length (c_buf c))).
  - replace (length p - (length p - wn))%nat with wn by lia.
    destruct (overwrite_content c1 (drop wn p) [] HI1 Hfull1) as [HI2 Hc2]; [rewrite length_drop; cbn; lia|].
    unfold c_cap in *. cbn [c1 c_buf c_head c_tail] in *. rewrite Hl1 in *.
    split_and!; [done| |by rewrite length_overwrite]. rewrite Hc2, Hc1. cbn [app length].
    unfold lastn. replace (content c ++ p) with ((content c ++ take wn p) ++ drop wn p) by (by rewrite <-app_assoc, take_drop).
    rewrite length_app, Hlc, length_drop, Nat.add_0_r.
    rewrite (drop_app_le (content c ++ take wn p)) by (rewrite Hlc; lia). f_equal. f_equal. lia.
  - pose proof (Nat.mod_upper_bound (length p - wn) (length (c_buf c)) ltac:(lia)) as Hcn.
    set (cn := ((length p - wn) mod length (c_buf c))%nat) in *.
    destruct (overwrite_content c1 (drop (length p - cn) p) (take (length (c_buf c) - cn) (drop (length p - length (c_buf c)) p)) HI1 Hfull1)
      as [HI2 Hc2]; [rewrite length_take, !length_drop; cbn [c1 c_buf]; lia|].
    unfold c_cap in *. cbn [c1 c_buf c_head c_tail] in *. rewrite Hl1 in *.
    split_and!; [done| |by rewrite length_overwrite]. rewrite Hc2, Hc1.
    rewrite (drop_ge (content c ++ take wn p)) by (rewrite length_take, !length_drop; lia). cbn [app].
    replace (drop (length p - cn) p) with (drop (length (c_buf c) - cn) (drop (length p - length (c_buf c)) p))
      by (rewrite drop_drop; f_equal; lia).
    rewrite take_drop. unfold lastn. rewrite length_app. rewrite drop_app_ge by lia. f_equal. lia.
Qed.

Lemma Add_content rb t :
  circInv (rb_circ rb) -> rb_closeErr rb = None -> rb_closeWrite rb = false ->
  exists rb', RingBuffer_Add rb t = (rb', Ret tt) /\ circInv (rb_circ rb') /\
    ringItems rb' = lastn (length (c_buf (rb_circ rb))) (ringItems rb ++ [t]) /\
    length (c_buf (rb_circ rb')) = length (c_buf (rb_circ rb)) /\ rb_notify rb' = true.
Proof.
  intros HI He Hw. unfold RingBuffer_Add. rewrite He, Hw.
  destruct (Z.eqb_spec (c_cap (rb_circ rb)) 0) as [E|_]; [destruct HI as (_ & _ & _ & ?); lia|].
  eexists. split; [done|]. unfold ringItems. cbn [rb_circ rb_notify c_buf]. rewrite length_insert.
  set (c := rb_circ rb) in *. pose proof (length_content c HI) as HL. pose proof HI as (H0 & H1 & H2 & H3).
  destruct (Z.ltb_spec (c_cap c) (c_tail c + 1 - c_head c)) as [Hfull|Hfree].
  - assert (c_tail c - c_head c = c_cap c) as Hf by lia.
    destruct (overwrite_content c [t] [] HI Hf) as [HI2 Hc2]; [unfold c_cap in *; cbn; lia|].
    assert (overwrite (c_buf c) (Z.to_nat (c_head c `mod` c_cap c)) [t] [] = <[Z.to_nat (c_tail c `mod` c_cap c) := t]> (c_buf c)) as Ho.
    { replace (c_tail c) with (c_head c + 1 * c_cap c) by lia. rewrite Z_mod_plus_full.
      pose proof (circ_mod_bounds c HI) as Hm. apply list_eq. intros i. unfold overwrite. cbn [length].
      rewrite Nat.min_r by lia. cbn [Nat.ltb Nat.leb drop]. rewrite drop_nil.
      destruct (Nat.eq_dec i (Z.to_nat (c_head c `mod` c_cap c))) as [->|Hne].
      - rewrite list_lookup_insert_eq by done. rewrite !lookup_copyAt by (rewrite ?length_copyAt; lia).
        cbn [length]. rewrite !length_copyAt. ix_cases. by rewrite Nat.sub_diag.
      - rewrite list_lookup_insert_ne by done. rewrite !lookup_copyAt by (rewrite ?length_copyAt; lia).
        cbn [length]. rewrite !length_copyAt. ix_cases; done. }
    cbn [length] in HI2, Hc2. change (Z.of_nat 1) with 1 in *. rewrite Ho in *. split_and!; try done.
    rewrite Hc2. cbn [app]. unfold lastn. rewrite length_app, HL, Hf. cbn [length].
    unfold c_cap. rewrite Nat2Z.id. rewrite drop_app_le by (rewrite HL; unfold c_cap in *; lia). f_equal. f_equal. lia.
  - destruct (insert_tail_content c t HI) as [HI2 Hc2]; [unfold c_cap in *; lia|].
    split_and!; try done. rewrite Hc2. rewrite lastn_short; [done|]. rewrite length_app. cbn. unfold c_cap in *. lia.
Qed.

End ringBuffer.

(** ** The abstract ring *)
Section spec.
Context {A : Type}.

Inductive ringOp :=
  | RWrite (p : list A)
  | RAdd (t : A)
  | RRead (n : nat)
  | RNext
  | RDiscard (n : nat)
  | RReset.

(** One operation on an open buffer and what it delivers: [None] when it waits. *)
Definition runRing (rb : RingBuffer A) (o : ringOp) : RingBuffer A * option (list A) :=
  match o with
  | RWrite p => let '(rb', _) := RingBuffer_Write rb p in (rb', Some [])
  | RAdd t => let '(rb', _) := RingBuffer_Add rb t in (rb', Some [])
  | RRead n =>
      match RingBuffer_Read rb n with (rb', Done (Ret out)) => (rb', Some out) | (rb', _) => (rb', None) end
  | RNext =>
      match RingBuffer_Next rb with (rb', Done (Ret x)) => (rb', Some [x]) | (rb', _) => (rb', None) end
  | RDiscard n => let '(rb', _) := RingBuffer_Discard rb n in (rb', Some [])
  | RReset => (RingBuffer_Reset rb, Some [])
  end.

(** The same on the list of the elements held, oldest first. *)
Definition specRing (size : nat) (l : list A) (o : ringOp) : list A * option (list A) :=
  match o with
  | RWrite p => (lastn size (l ++ p), Some [])
  | RAdd t => (lastn size (l ++ [t]), Some [])
  | RRead n => match l with [] => ([], None) | _ => (drop n l, Some (take n l)) end
  | RNext => match l with [] => ([], None) | x :: l => (l, Some [x]) end
  | RDiscard n => (drop n l, Some [])
  | RReset => ([], Some [])
  end.

Fixpoint runRings {S} (step : S -> ringOp -> S * option (list A)) (s : S) (ops : list ringOp) : S * list (option (list A)) :=
  match ops with
  | [] => (s, [])
  | o :: ops => let '(s1, out) := step s o in let '(s2, outs) := runRings step s1 ops in (s2, out :: outs)
  end.

(** An open ring of [size] elements. *)
Definition ringOpen (size : nat) (rb : RingBuffer A) : Prop :=
  circInv (rb_circ rb) /\ length (c_buf (rb_circ rb)) = size /\ rb_closeErr rb = None /\ rb_closeWrite rb = false.

Definition ringSim (size : nat) (rb : RingBuffer A) (l : list A) : Prop := ringOpen size rb /\ ringItems rb = l.

(** Moving the head is the only change of a reading operation. *)
Lemma ringSim_moveHead size rb n :
  ringOpen size rb -> (n <= length (ringItems rb))%nat ->
  ringSim size (rbWith rb (moveHead (rb_circ rb) (Z.of_nat n))) (drop n (ringItems rb)).
Proof.
  intros (HI & Hl & He & Hw) Hn. destruct (content_moveHead (rb_circ rb) n HI Hn) as [HI' Hc].
  by split.
Qed.

Lemma runRing_sim size rb o :
  ringOpen size rb ->
  let '(rb', out) := runRing rb o in
  let '(l', out') := specRing size (ringItems rb) o in
  out = out' /\ ringSim size rb' l'.
Proof.
  intros HO. pose proof HO as (HI & Hl & He & Hw).
  assert (isEmpty (rb_circ rb) = match ringItems rb with [] => true | _ => false end) as Hemp.
  { pose proof (content_empty (rb_circ rb) HI) as H. unfold ringItems.
    destruct (isEmpty _), (content _); try done; [by discriminate (proj1 H)|by discriminate (proj2 H)]. }
  destruct o as [p|t|n| |n|]; cbn [runRing specRing].
  - unfold RingBuffer_Write. rewrite He, Hw. destruct (ringWrite_content (rb_circ rb) p HI) as (HI' & Hc & Hl').
    destruct (Z.eqb_spec (c_cap (rb_circ rb)) 0) as [E|_]; [destruct HI as (_ & _ & _ & ?); lia|].
    split; [done|]. rewrite Hl in Hc, Hl'. by split.
  - destruct (Add_content rb t HI He Hw) as (rb' & E & HI' & Hc & Hl' & _).
    unfold RingBuffer_Add in *. rewrite He, Hw in *.
    destruct (Z.eqb_spec (c_cap (rb_circ rb)) 0) as [E0|_]; [destruct HI as (_ & _ & _ & ?); lia|].
    injection E as <-. rewrite Hl in Hc, Hl'. by split.
  - unfold RingBuffer_Read. rewrite He, Hemp, Hw. destruct (ringItems rb) as [|x l] eqn:Hit; [done|].
    rewrite circRead_content by done. fold (ringItems rb). split; [by rewrite Hit|]. rewrite Hit, length_take.
    destruct (Nat.le_ge_cases n (length (x :: l))).
    + rewrite Nat.min_l by done. rewrite <-Hit. apply ringSim_moveHead; [done|by rewrite Hit].
    + rewrite Nat.min_r, drop_ge by done. rewrite <-Hit, <-(drop_all (ringItems rb)). by apply ringSim_moveHead.
  - unfold RingBuffer_Next. rewrite He, Hemp, Hw. destruct (ringItems rb) as [|x l] eqn:Hit; [done|].
    rewrite (content_head _ x l) by done. split; [done|].
    replace l with (drop 1 (ringItems rb)) by (by rewrite Hit). apply (ringSim_moveHead _ _ 1); [done|rewrite Hit; cbn; lia].
  - unfold RingBuffer_Discard. rewrite He. pose proof (length_content _ HI) as HL.
    destruct (Z.ltb_spec (c_tail (rb_circ rb) - c_head (rb_circ rb)) (Z.of_nat n)) as [Hlt|Hge].
    + split; [done|]. unfold ringItems. rewrite drop_ge by lia. split; [|apply content_same_counters].
      destruct HI as (? & ? & ? & ?). unfold ringOpen, circInv, c_cap in *. cbn. split_and!; try done; lia.
    + split; [done|]. apply ringSim_moveHead; [done|]. unfold ringItems. destruct HI as (? & ? & ? & ?). lia.
  - split; [done|]. split; [|apply content_same_counters].
    destruct HI as (? & ? & ? & ?). unfold ringOpen, circInv, c_cap in *. cbn. split_and!; try done; lia.
Qed.
End spec.

Lemma RingN_open {A} (zero : A) size : (0 < size)%nat -> ringSim size (RingN zero size) [].
Proof.
  intros Hs. split; [|apply content_same_counters]. unfold ringOpen, circInv, c_cap. cbn. rewrite length_replicate.
  split_and!; try done; lia.
Qed.



(** [RingBuffer.Write] does not notify a waiting reader: when a [Read] waits on
    the empty, open buffer and no token is pending, a [Write] of data succeeds and
    makes the data readable, but the receive the reader is blocked in still cannot
    proceed, while the same data added with [Add] wakes it. *)
Theorem RingBuffer_Write_leaves_reader_waiting {A} (rb : RingBuffer A) (x : A) (p : list A) (size n : nat) :
  ringOpen size rb -> ringItems rb = [] -> rb_notify rb = false ->
  RingBuffer_Read rb n = (rb, Wait) /\
  (let '(rb', r) := RingBuffer_Write rb (x :: p) in
   r = Ret (length (x :: p)) /\ ringItems rb' = lastn size (x :: p) /\ awaitNotify rb' = None) /\
  (let '(rb', r) := RingBuffer_Add rb x in r = Ret tt /\ is_Some (awaitNotify rb')).
Proof.
  intros HO Hit Hn. pose proof HO as (HI & Hl & He & Hw). split_and!.
  - unfold RingBuffer_Read. rewrite He, Hw. by apply content_empty in Hit as ->.
  - pose proof (runRing_sim size rb (RWrite (x :: p)) HO) as H. cbn [runRing specRing] in H.
    unfold RingBuffer_Write in *. rewrite He, Hw in *.
    destruct (Z.eqb_spec (c_cap (rb_circ rb)) 0) as [E|_]; [destruct HI as (_ & _ & _ & ?); lia|].
    destruct H as (_ & _ & H). rewrite Hit in H. split_and!; [done|done|].
    unfold awaitNotify. cbn [rbWith rb_closeWrite rb_notify]. by rewrite Hw, Hn.
  - destruct (Add_content rb x HI He Hw) as (rb' & -> & _ & _ & _ & Hno). split; [done|].
    unfold awaitNotify. rewrite Hno. destruct (rb_closeWrite rb'); eauto.
Qed.

Lemma RingBuffer_Write_leaves_reader_waiting_witness :
  RingBuffer_Read (RingN 0 2) 4 = (RingN 0 2, Wait) /\
  (let '(rb', r) := RingBuffer_Write (RingN 0 2) [5;6;7] in
   r = Ret 3%nat /\ ringItems rb' = lastn 2 [5;6;7] /\ awaitNotify rb' = None) /\
  (let '(rb', r) := RingBuffer_Add (RingN 0 2) 5 in r = Ret tt /\ is_Some (awaitNotify rb')).
Proof. apply (RingBuffer_Write_leaves_reader_waiting (RingN 0 2) 5 [6;7] 2 4); [apply RingN_open; lia|done..]. Defined.
