(* ===== verification/GrowBuffer.v ===== *)
(** * buffer: the growable Buffer

    [src/pkgs/buffer/buffer.go].  The slice [buf] of the elements and the parallel
    slice [ids] of their identities; [nextID] is a [uint64] that counts the elements
    ever added and is unbounded here.  As for the other buffers a method that waits is
    one attempt.  [RemoveIf] runs the predicate between two critical sections, so it
    is two operations, [removeSnapshot] and [removeMarked], between which any other
    operation may run.

    Theorem: [RemoveIf] removes exactly the elements that were buffered when it
    started, satisfied the predicate and were still there; elements added meanwhile
    survive, whatever the predicate says, and the order is kept. *)

From S2P Require Import Prelude CircBuffer.
From stdpp Require Import list gmap.

Open Scope Z_scope.

Record Buffer (A : Type) := MkBuffer {
  b_notify : bool;
  b_closeWrite : bool;
  b_closeErr : option string;
  b_buf : list A;
  b_ids : list Z;
  b_nextID : Z
}.
Arguments MkBuffer {A} _ _ _ _ _ _.
Arguments b_notify {A} _.
Arguments b_closeWrite {A} _.
Arguments b_closeErr {A} _.
Arguments b_buf {A} _.
Arguments b_ids {A} _.
Arguments b_nextID {A} _.

Section growBuffer.
Context {A : Type}.
Implicit Types (b : Buffer A) (p : list A).

(** [N(n)]: the capacity is no part of the behaviour. *)
Definition Buffer_N : Buffer A := MkBuffer false false None [] [] 0.

Definition bWith b (buf : list A) (ids : list Z) : Buffer A :=
  MkBuffer (b_notify b) (b_closeWrite b) (b_closeErr b) buf ids (b_nextID b).

(** The loop of [Write] over the new identities. *)
Fixpoint freshIDs (next : Z) (n : nat) : list Z :=
  match n with O => [] | S n => (next + 1) :: freshIDs (next + 1) n end.

Definition Buffer_Write b p : Buffer A * Go bufError nat :=
  match b_closeErr b with
  | Some e => (b, Fail (ErrClosed "write to" e))
  | None =>
      if b_closeWrite b then (b, Fail (ErrClosed "write to" ErrClosedPipe))
      else
        (MkBuffer true false None (b_buf b ++ p) (b_ids b ++ freshIDs (b_nextID b) (length p))
           (b_nextID b + Z.of_nat (length p)), Ret (length p))
  end.

Definition Buffer_Discard b (n : nat) : Buffer A * Go bufError unit :=
  match b_closeErr b with
  | Some e => (b, Fail (ErrClosed "skip from" e))
  | None =>
      if (length (b_buf b) <? n)%nat then (bWith b [] [], Ret tt)
      else (bWith b (drop n (b_buf b)) (drop n (b_ids b)), Ret tt)
  end.

Definition Buffer_Read b (n : nat) : Buffer A * attempt (list A) :=
  match b_closeErr b with
  | Some e => (b, Done (Fail (ErrClosed "read from" e)))
  | None =>
      match b_buf b with
      | [] => if b_closeWrite b then (b, Done (Fail EOF)) else (b, Wait)
      | buf =>
          let out := take n buf in
          (bWith b (drop (length out) buf) (drop (length out) (b_ids b)), Done (Ret out))
      end
  end.

Definition Buffer_closeWithErrorLocked b (err : string) : Buffer A * Go bufError unit :=
  match b_closeErr b with
  | Some _ => (b, Ret tt)
  | None => (MkBuffer (b_notify b) true (Some err) [] [] (b_nextID b), Ret tt)
  end.

Definition Buffer_CloseWithError b (err : option string) : Buffer A * Go bufError unit :=
  Buffer_closeWithErrorLocked b (default ErrClosedPipe err).

Definition Buffer_Error b : option string := b_closeErr b.

Definition Buffer_Close b : Buffer A * Go bufError unit := Buffer_CloseWithError b (Some ErrClosedPipe).

Definition Buffer_CloseWrite b : Buffer A * Go bufError unit :=
  if b_closeWrite b then (b, Ret tt)
  else (MkBuffer (b_notify b) true (b_closeErr b) (b_buf b) (b_ids b) (b_nextID b), Ret tt).

Definition Buffer_Next b : Buffer A * attempt A :=
  match b_closeErr b with
  | Some e => (b, Done (Fail (ErrClosed "read from" e)))
  | None =>
      match b_buf b with
      | [] => if b_closeWrite b then (b, Done (Fail ErrIteratorDone)) else (b, Wait)
      | t :: buf => (bWith b buf (drop 1 (b_ids b)), Done (Ret t))
      end
  end.

Definition Buffer_Add b (t : A) : Buffer A * Go bufError unit :=
  match b_closeErr b with
  | Some e => (b, Fail (ErrClosed "write to" e))
  | None =>
      if b_closeWrite b then (b, Fail (ErrClosed "write to" ErrClosedPipe))
      else
        let next := b_nextID b + 1 in
        (MkBuffer true false None (b_buf b ++ [t]) (b_ids b ++ [next]) next, Ret tt)
  end.

Definition Buffer_Reset b : Buffer A := bWith b [] [].

(** First critical section of [RemoveIf] and the predicate loop: the identities to
    remove. *)
Definition removeSnapshot b (predicate : A -> bool) : gset Z :=
  foldr (fun vi acc => if predicate (fst vi) then {[ snd vi ]} ∪ acc else acc) ∅ (zip (b_buf b) (b_ids b)).

(** Second critical section: the kept elements, compacted in place. *)
Definition removeMarked b (removeIDs : gset Z) : Buffer A * nat :=
  let kept := filter (fun vi => snd vi ∉ removeIDs) (zip (b_buf b) (b_ids b)) in
  (bWith b (fst <$> kept) (snd <$> kept), (length (b_buf b) - length kept)%nat).

(** [RemoveIf] with no other goroutine in between; a nil predicate removes nothing. *)
Definition Buffer_RemoveIf b (predicate : option (A -> bool)) : Buffer A * nat :=
  match predicate with
  | None => (b, 0%nat)
  | Some f => removeMarked b (removeSnapshot b f)
  end.

Definition Buffer_Len b : nat := length (b_buf b).

Definition Buffer_Bytes b : list A := b_buf b.

(** ** Executions *)
Inductive growOp :=
  | GWrite (p : list A)
  | GAdd (t : A)
  | GRead (n : nat)
  | GNext
  | GDiscard (n : nat)
  | GReset
  | GCloseWrite
  | GCloseWithError (err : option string)
  | GRemoveMarked (removeIDs : gset Z).

Definition runGrow b (o : growOp) : Buffer A :=
  match o with
  | GWrite p => fst (Buffer_Write b p)
  | GAdd t => fst (Buffer_Add b t)
  | GRead n => fst (Buffer_Read b n)
  | GNext => fst (Buffer_Next b)
  | GDiscard n => fst (Buffer_Discard b n)
  | GReset => Buffer_Reset b
  | GCloseWrite => fst (Buffer_CloseWrite b)
  | GCloseWithError e => fst (Buffer_CloseWithError b e)
  | GRemoveMarked ids => fst (removeMarked b ids)
  end.

Definition runGrows b (ops : list growOp) : Buffer A := fold_left runGrow ops b.

(** ** Invariant *)

(** The elements with their identities. *)
Definition tagged b : list (A * Z) := zip (b_buf b) (b_ids b).

Definition growInv b : Prop :=
  length (b_buf b) = length (b_ids b) /\ StronglySorted Z.lt (b_ids b) /\
  Forall (fun i => i <= b_nextID b) (b_ids b).

(** What one operation may do to the tagged elements: drop some, keep the order,
    append new ones with larger identities. *)
Definition evolves b b' : Prop :=
  growInv b' /\ b_nextID b <= b_nextID b' /\
  exists old new, tagged b' = old ++ new /\ old `sublist_of` tagged b /\ Forall (fun vi => b_nextID b < snd vi) new.

Lemma tagged_fst b : growInv b -> (tagged b).*1 = b_buf b.
Proof. intros (H & _). unfold tagged. by rewrite fst_zip by lia. Qed.

Lemma tagged_snd b : growInv b -> (tagged b).*2 = b_ids b.
Proof. intros (H & _). unfold tagged. by rewrite snd_zip by lia. Qed.

(** Keeping a subsequence of the elements preserves the invariant. *)
Lemma shrink_evolves b b' :
  growInv b -> tagged b' `sublist_of` tagged b -> length (b_buf b') = length (b_ids b') -> b_nextID b' = b_nextID b ->
  evolves b b'.
Proof.
  intros HI Hs HL Hn. assert (b_ids b' `sublist_of` b_ids b) as Hids.
  { rewrite <-(tagged_snd b HI). unfold tagged in Hs. apply (fmap_sublist snd) in Hs. by rewrite snd_zip in Hs by lia. }
  destruct HI as (_ & HS & HF). split_and!; [split_and!; [done| |]|lia|].
  - by eapply sublist_sorted.
  - rewrite Hn. by eapply sublist_Forall.
  - exists (tagged b'), []. by rewrite app_nil_r.
Qed.

Lemma freshIDs_spec next n :
  length (freshIDs next n) = n /\ StronglySorted Z.lt (freshIDs next n) /\
  Forall (fun i => next < i <= next + Z.of_nat n) (freshIDs next n).
Proof.
  revert next. induction n as [|n IH]; intros next; cbn; [by split_and!; constructor|].
  destruct (IH (next + 1)) as (HL & HS & HF). split_and!; [lia| |].
  - constructor; [done|]. eapply Forall_impl; [exact HF|]. cbn. lia.
  - constructor; [lia|]. eapply Forall_impl; [exact HF|]. cbn. lia.
Qed.

Lemma append_evolves b b' p :
  growInv b -> b_buf b' = b_buf b ++ p -> b_ids b' = b_ids b ++ freshIDs (b_nextID b) (length p) ->
  b_nextID b' = b_nextID b + Z.of_nat (length p) ->
  evolves b b'.
Proof.
  intros (HL & HS & HF) Hb Hi Hn. destruct (freshIDs_spec (b_nextID b) (length p)) as (FL & FS & FF).
  unfold evolves, growInv, tagged. rewrite Hb, Hi, Hn. split_and!; [rewrite !length_app; lia| | |lia|].
  - clear -HS HF FS FF. induction HS as [|x l HS IH Hx]; cbn; [done|].
    apply Forall_cons in HF as [Hxn HF]. constructor; [auto|]. apply Forall_app. split; [done|].
    eapply Forall_impl; [exact FF|]. cbn. lia.
  - apply Forall_app. split; [eapply Forall_impl; [exact HF|]|eapply Forall_impl; [exact FF|]]; cbn; lia.
  - exists (zip (b_buf b) (b_ids b)), (zip p (freshIDs (b_nextID b) (length p))).
    split_and!; [by rewrite zip_with_app|done|]. apply Forall_forall. intros [v i] Hin%elem_of_zip_r.
    rewrite Forall_forall in FF. cbn. specialize (FF i Hin). lia.
Qed.

Lemma drop_evolves b n : growInv b -> evolves b (bWith b (drop n (b_buf b)) (drop n (b_ids b))).
Proof.
  intros HI. apply shrink_evolves; [done| |cbn; rewrite !length_drop; by rewrite (proj1 HI)|done].
  unfold tagged. cbn. rewrite <-zip_with_drop. apply sublist_drop.
Qed.

Lemma clear_evolves b b' :
  growInv b -> b_buf b' = [] -> b_ids b' = [] -> b_nextID b' = b_nextID b -> evolves b b'.
Proof.
  intros HI Hb Hi Hn. apply shrink_evolves; [done| |by rewrite Hb, Hi|done].
  unfold tagged. rewrite Hb. apply sublist_nil_l.
Qed.

Lemma same_evolves b b' :
  growInv b -> b_buf b' = b_buf b -> b_ids b' = b_ids b -> b_nextID b' = b_nextID b -> evolves b b'.
Proof.
  intros HI Hb Hi Hn. apply shrink_evolves; [done| |rewrite Hb, Hi; apply HI|done].
  unfold tagged. by rewrite Hb, Hi.
Qed.

Lemma removeMarked_tagged b ids :
  growInv b -> tagged (fst (removeMarked b ids)) = filter (fun vi => snd vi ∉ ids) (tagged b).
Proof. intros HI. unfold removeMarked, tagged. cbn. by rewrite zip_fst_snd. Qed.

Lemma runGrow_evolves b o : growInv b -> evolves b (runGrow b o).
Proof.
  intros HI. destruct o as [p|t|n| |n| | |e|ids]; cbn [runGrow].
  - unfold Buffer_Write. destruct (b_closeErr b), (b_closeWrite b); cbn; try by apply same_evolves.
    by apply (append_evolves b _ p).
  - unfold Buffer_Add. destruct (b_closeErr b), (b_closeWrite b); cbn; try by apply same_evolves.
    by apply (append_evolves b _ [t]).
  - unfold Buffer_Read. destruct (b_closeErr b); [by apply same_evolves|].
    destruct (b_buf b) eqn:Hb; [destruct (b_closeWrite b); by apply same_evolves|].
    rewrite <-Hb. by apply drop_evolves.
  - unfold Buffer_Next. destruct (b_closeErr b); [by apply same_evolves|].
    destruct (b_buf b) as [|x l] eqn:Hb; [destruct (b_closeWrite b); by apply same_evolves|].
    replace l with (drop 1 (b_buf b)) by (by rewrite Hb). by apply drop_evolves.
  - unfold Buffer_Discard. destruct (b_closeErr b); [by apply same_evolves|].
    destruct (_ <? _)%nat; [by apply clear_evolves|by apply drop_evolves].
  - by apply clear_evolves.
  - unfold Buffer_CloseWrite. destruct (b_closeWrite b); by apply same_evolves.
  - unfold Buffer_CloseWithError, Buffer_closeWithErrorLocked. destruct (b_closeErr b); [by apply same_evolves|by apply clear_evolves].
  - apply shrink_evolves; [done| |unfold removeMarked; cbn; by rewrite !length_fmap|done].
    rewrite removeMarked_tagged by done. apply sublist_filter.
Qed.

Lemma evolves_trans b1 b2 b3 : growInv b1 -> evolves b1 b2 -> evolves b2 b3 -> evolves b1 b3.
Proof.
  intros HI (HI2 & Hn2 & o2 & w2 & E2 & S2 & F2) (HI3 & Hn3 & o3 & w3 & E3 & S3 & F3).
  split_and!; [done|lia|]. rewrite E2 in S3. apply sublist_app_r in S3 as (o & w & -> & So & Sw).
  exists o, (w ++ w3). split_and!; [by rewrite E3, app_assoc|by trans o2|].
  apply Forall_app. split; [by eapply sublist_Forall|]. eapply Forall_impl; [exact F3|]. cbn. lia.
Qed.

Lemma runGrows_evolves ops b : growInv b -> evolves b (runGrows b ops).
Proof.
  revert b. induction ops as [|o ops IH]; intros b HI; [by apply same_evolves|].
  cbn. pose proof (runGrow_evolves b o HI) as H1. apply (evolves_trans _ (runGrow b o)); [done|done|].
  apply IH. apply H1.
Qed.

(** ** RemoveIf *)
Lemma removeSnapshot_spec b f i :
  growInv b -> i ∈ removeSnapshot b f <-> exists v, (v, i) ∈ tagged b /\ f v = true.
Proof.
  intros _. unfold removeSnapshot, tagged. induction (zip (b_buf b) (b_ids b)) as [|[v j] l IH]; cbn.
  { split; [set_solver|]. intros (v & H & _). by apply elem_of_nil in H. }
  destruct (f v) eqn:Hf.
  - rewrite elem_of_union, elem_of_singleton, IH. split.
    + intros [->|(w & Hw & Hfw)]; [exists v|exists w]; split; try done; by constructor.
    + intros (w & [[= -> ->]|Hw]%elem_of_cons & Hfw); eauto.
  - rewrite IH. split.
    + intros (w & Hw & Hfw). exists w. split; [by constructor|done].
    + intros (w & [[= -> ->]|Hw]%elem_of_cons & Hfw); [congruence|eauto].
Qed.

Lemma tagged_unique b v w i : growInv b -> (v, i) ∈ tagged b -> (w, i) ∈ tagged b -> v = w.
Proof.
  intros (HL & HS & _) Hv Hw. apply elem_of_lookup_zip_with in Hv as (k & ? & ? & [= <- <-] & Hv1 & Hv2).
  apply elem_of_lookup_zip_with in Hw as (k' & ? & ? & [= <- ->] & Hw1 & Hw2).
  enough (k = k') as <- by congruence.
  assert (NoDup (b_ids b)) as Hnd.
  { clear -HS. induction HS as [|x l HS IH Hx]; constructor; [|done].
    intros Hin. rewrite Forall_forall in Hx. specialize (Hx x Hin). lia. }
  by eapply NoDup_lookup.
Qed.

Lemma filter_old_new b0 f old new :
  growInv b0 -> old `sublist_of` tagged b0 -> Forall (fun vi => b_nextID b0 < snd vi) new ->
  filter (fun vi => snd vi ∉ removeSnapshot b0 f) (old ++ new) = filter (fun vi => f (fst vi) = false) old ++ new.
Proof.
  intros HI Hold Hnew. rewrite filter_app. f_equal.
  - assert (forall vi, vi ∈ old -> vi ∈ tagged b0) as Hin.
    { intros vi Hvi. by eapply elem_of_submseteq, sublist_submseteq. }
    clear Hold. induction old as [|[v i] old IH]; [done|].
    assert (i ∉ removeSnapshot b0 f <-> f v = false) as Heq.
    { rewrite removeSnapshot_spec by done. assert ((v, i) ∈ tagged b0) as Hv by (apply Hin; constructor). split.
      - intros H. destruct (f v) eqn:Hf; [|done]. destruct H. eauto.
      - intros Hf (w & Hw & Hfw). rewrite (tagged_unique b0 v w i) in Hf by done. congruence. }
    rewrite !filter_cons. cbn [fst snd]. rewrite IH by (intros; apply Hin; by constructor).
    destruct (decide _) as [H|H], (decide _) as [H'|H']; try done; [by apply Heq in H|by apply Heq in H'].
  - induction Hnew as [|[v i] new Hi Hnew IH]; [done|]. rewrite filter_cons. cbn [snd] in *.
    destruct (decide _) as [H|H]; [by rewrite IH|]. destruct H. rewrite removeSnapshot_spec by done.
    intros (w & Hw & _). destruct HI as (_ & _ & HF). rewrite Forall_forall in HF.
    apply elem_of_zip_r in Hw. apply HF in Hw. lia.
Qed.

End growBuffer.

Lemma Buffer_N_inv {A} : growInv (@Buffer_N A).
Proof. split_and!; [done|constructor|constructor]. Qed.

(** [RemoveIf] interleaved with other goroutines.  Whatever operations run between
    its two critical sections (writes, reads, discards, resets, closes, other
    removals), the buffer it finds consists of some of the elements it had seen, in
    order, followed by elements added meanwhile; it removes exactly the former that
    satisfy the predicate, keeps all the latter, keeps the order, and returns the
    number removed. *)
Theorem RemoveIf_interleaved {A} (ops0 ops : list (@growOp A)) (f : A -> bool) :
  let b0 := runGrows Buffer_N ops0 in
  let b1 := runGrows b0 ops in
  let '(b2, removed) := removeMarked b1 (removeSnapshot b0 f) in
  exists old new : list A,
    Buffer_Bytes b1 = old ++ new /\ old `sublist_of` Buffer_Bytes b0 /\
    Buffer_Bytes b2 = filter (fun v => f v = false) old ++ new /\
    removed = length (filter (fun v => f v = true) old) /\
    (removed + Buffer_Len b2 = Buffer_Len b1)%nat.
Proof.
  intros b0 b1. destruct (runGrows_evolves ops0 _ Buffer_N_inv) as (HI0 & _). fold b0 in HI0.
  destruct (runGrows_evolves ops b0 HI0) as (HI1 & _ & old & new & E & Hold & Hnew). fold b1 in HI1, E.
  pose proof (tagged_fst b1 HI1) as HB1. rewrite E, fmap_app in HB1.
  unfold removeMarked. fold (tagged b1). rewrite E, (filter_old_new b0 f old new) by done.
  assert (length (b_buf b1) = length (tagged b1)) as HL by (by rewrite <-(tagged_fst b1 HI1), length_fmap).
  assert (forall l : list (A * Z), (filter (fun vi => f (fst vi) = false) l).*1 = filter (fun v => f v = false) l.*1) as Hff.
  { intros l. induction l as [|[v i] l IH]; [done|]. rewrite fmap_cons, !filter_cons. cbn [fst].
    destruct (decide _); cbn; by rewrite IH. }
  assert (forall l : list A, length (filter (fun v => f v = true) l) + length (filter (fun v => f v = false) l) = length l)%nat as Hcnt.
  { intros l. induction l as [|v l IH]; [done|]. rewrite !filter_cons.
    destruct (decide (f v = true)), (decide (f v = false)); cbn [length]; try lia; [congruence|by destruct (f v)]. }
  specialize (Hcnt old.*1). rewrite <-Hff, !length_fmap in Hcnt.
  exists old.*1, new.*1. unfold Buffer_Bytes, Buffer_Len. cbn [bWith b_buf]. rewrite fmap_app, Hff.
  rewrite <-(tagged_fst b0 HI0), HL, E, !length_app, <-Hff, !length_fmap.
  split_and!; [done|by apply fmap_sublist|done|lia|lia].
Qed.
