(* ===== verification/GoFloat.v ===== *)
(** * float64 arithmetic

    Go's [float64] on the positive values the program computes with, as IEEE 754
    binary64 operations of the Standard Library's [SpecFloat] (executable, with
    rounding to nearest even), and conversions from and to integers.  Lemmas: small
    integers and their products with powers of two are exact; a product with a
    factor in [3/4, 1] truncates to an integer between those bounds. *)

From stdpp Require Import tactics numbers.
From Stdlib Require Import ZArith Lia SpecFloat.

Open Scope Z_scope.

(** [m * 2^e] rounded, in particular [float64(m)] for [e = 0]. *)
Definition f64 (m e : Z) : spec_float := binary_normalize 53 1024 m e false.
Definition f64Mul : spec_float -> spec_float -> spec_float := SFmul 53 1024.
Definition f64Add : spec_float -> spec_float -> spec_float := SFadd 53 1024.
Definition f64Div : spec_float -> spec_float -> spec_float := SFdiv 53 1024.
Definition f64Gt (x y : spec_float) : bool := SFltb y x.

(** The conversion to an integer drops the fraction. *)
Definition f64Trunc (x : spec_float) : Z :=
  match x with
  | S754_finite s m e =>
      let v := if e <? 0 then Z.pos m / 2 ^ (- e) else Z.pos m * 2 ^ e in
      if s then - v else v
  | _ => 0
  end.

(** ** Digits and shifts *)
Lemma digits_log2 p : Zdigits2 (Z.pos p) = Z.log2 (Z.pos p) + 1.
Proof.
  change (Zdigits2 (Z.pos p)) with (Z.pos (digits2_pos p)). induction p as [p IH|p IH|]; [| |done]; cbn [digits2_pos]; rewrite Pos2Z.inj_succ, IH.
  - rewrite (Pos2Z.inj_xI p), Z.log2_succ_double by lia. lia.
  - rewrite (Pos2Z.inj_xO p), Z.log2_double by lia. lia.
Qed.

Lemma digits_unique m d : 0 < m -> 0 < d -> 2 ^ (d - 1) <= m < 2 ^ d -> Zdigits2 m = d.
Proof.
  intros Hm Hd Hb. destruct m as [|p|]; [lia| |lia]. rewrite digits_log2. rewrite (Z.log2_unique _ (d - 1)); [lia|lia|].
  by replace (Z.succ (d - 1)) with d by lia.
Qed.

Lemma digits_bounds m : 0 < m -> 0 < Zdigits2 m /\ 2 ^ (Zdigits2 m - 1) <= m < 2 ^ Zdigits2 m.
Proof.
  intros Hm. destruct m as [|p|]; [lia| |lia]. rewrite digits_log2. pose proof (Z.log2_nonneg (Z.pos p)).
  split; [lia|]. replace (Z.log2 (Z.pos p) + 1 - 1) with (Z.log2 (Z.pos p)) by lia.
  pose proof (Z.log2_spec (Z.pos p) Hm) as HL. replace (Z.succ (Z.log2 (Z.pos p))) with (Z.log2 (Z.pos p) + 1) in HL by lia. done.
Qed.

Lemma digits_small m : 0 < m < 2 ^ 53 -> Zdigits2 m <= 53.
Proof.
  intros Hm. destruct (digits_bounds m ltac:(lia)) as [Hp Hb]. destruct (Z.le_gt_cases (Zdigits2 m) 53); [done|]. exfalso.
  assert (2 ^ 53 <= 2 ^ (Zdigits2 m - 1)) by (apply Z.pow_le_mono_r; lia). lia.
Qed.

Lemma digits_mul_pow m k : 0 < m -> 0 <= k -> Zdigits2 (m * 2 ^ k) = Zdigits2 m + k.
Proof.
  intros Hm Hk. destruct (digits_bounds m Hm) as [Hd Hb]. pose proof (Z.pow_pos_nonneg 2 k ltac:(lia) Hk). apply digits_unique; [nia|lia|].
  replace (Zdigits2 m + k - 1) with (Zdigits2 m - 1 + k) by lia. rewrite !Z.pow_add_r by lia. nia.
Qed.

Lemma iter_pos_iter {A} (f : A -> A) n x : iter_pos f n x = Nat.iter (Pos.to_nat n) f x.
Proof.
  revert x. induction n as [n IH|n IH|]; intros x; cbn [iter_pos]; [| |done]; rewrite !IH.
  - rewrite Pos2Nat.inj_xI, <-Nat.iter_add. replace (S (2 * Pos.to_nat n)) with (Pos.to_nat n + Pos.to_nat n + 1)%nat by lia. by rewrite (Nat.iter_add _ 1).
  - rewrite Pos2Nat.inj_xO, <-Nat.iter_add. f_equal. lia.
Qed.

Lemma shr_1_spec m r s : 0 <= m -> shr_1 (Build_shr_record m r s) = Build_shr_record (m / 2) (Z.odd m) (r || s).
Proof.
  intros Hm. destruct m as [|p|p]; [done| |lia]. destruct p as [p|p|]; cbn -[Z.div]; [| |done]; f_equal.
  - rewrite (Pos2Z.inj_xI p). apply Z.div_unique with 1; lia.
  - rewrite (Pos2Z.inj_xO p). apply Z.div_unique with 0; lia.
Qed.

Lemma iter_shr k m : 0 <= m ->
  let x := Nat.iter k shr_1 (Build_shr_record m false false) in
  shr_m x = m / 2 ^ Z.of_nat k /\ (m mod 2 ^ Z.of_nat k = 0 -> shr_r x = false /\ shr_s x = false).
Proof.
  intros Hm. induction k as [|k [IH1 IH2]]; cbn zeta in *.
  - cbn. rewrite Z.div_1_r. done.
  - cbn [Nat.iter nat_rect]. change (nat_rect _ _ _ _) with (Nat.iter k shr_1 (Build_shr_record m false false)).
    destruct (Nat.iter k shr_1 _) as [mk rk sk]. cbn [shr_m shr_r shr_s] in IH1, IH2. subst mk.
    pose proof (Z.pow_pos_nonneg 2 (Z.of_nat k) ltac:(lia) ltac:(lia)) as Hp.
    rewrite shr_1_spec by (apply Z.div_pos; lia). cbn [shr_m shr_r shr_s].
    rewrite Nat2Z.inj_succ, Z.pow_succ_r, Z.mul_comm by lia. rewrite Z.div_div by lia. split; [done|]. intros Hz.
    apply Z.mod_divide in Hz as [c Hz]; [|lia]. destruct IH2 as [-> ->].
    + apply Z.mod_divide; [lia|]. exists (c * 2). lia.
    + split; [|done]. replace (m / 2 ^ Z.of_nat k) with (2 * c); [by rewrite Z.odd_mul|]. apply Z.div_unique with 0; lia.
Qed.

Lemma shr_spec m e n : 0 <= m -> 0 <= n ->
  let x := shr (Build_shr_record m false false) e n in
  x.2 = e + n /\ shr_m x.1 = m / 2 ^ n /\ (m mod 2 ^ n = 0 -> loc_of_shr_record x.1 = loc_Exact).
Proof.
  intros Hm Hn. destruct n as [|p|p]; [| |lia]; cbn zeta.
  - cbn. rewrite Z.div_1_r. split_and!; [lia|done|done].
  - cbn [shr fst snd]. rewrite iter_pos_iter. destruct (iter_shr (Pos.to_nat p) m Hm) as [H1 H2]. rewrite positive_nat_Z in H1, H2.
    split_and!; [done|done|]. intros Hz. destruct (H2 Hz) as [Hr Hs]. destruct (Nat.iter _ _ _) as [mk rk sk]. cbn in *. by subst.
Qed.

(** ** Rounding *)

(** A mantissa of 53 digits followed by zeros is kept. *)
Lemma round_exact m n e : 0 < m -> Zdigits2 m = 53 -> 0 <= n -> -1074 <= e + n <= 900 ->
  binary_round_aux 53 1024 false (m * 2 ^ n) e loc_Exact = S754_finite false (Z.to_pos m) (e + n).
Proof.
  intros Hm Hd Hn He. pose proof (Z.pow_pos_nonneg 2 n ltac:(lia) Hn) as Hp. unfold binary_round_aux, shr_fexp.
  rewrite digits_mul_pow, Hd by lia. unfold fexp, emin. cbn [shr_record_of_loc].
  replace (Z.max (53 + n + e - 53) (3 - 1024 - 53) - e) with n by lia.
  destruct (shr_spec (m * 2 ^ n) e n ltac:(nia) Hn) as (H1 & H2 & H3). destruct (shr _ e n) as [x ex]. cbn [fst snd] in *. subst ex.
  rewrite Z.div_mul in H2 by lia. rewrite H3 by (by apply Z.mod_mul; lia). cbn [round_nearest_even]. rewrite H2, Hd.
  replace (Z.max (53 + (e + n) - 53) (3 - 1024 - 53) - (e + n)) with 0 by lia. cbn [shr shr_m].
  destruct m as [|p|]; [lia| |lia]. by replace (e + n <=? 1024 - 53) with true by lia.
Qed.

(** In general the mantissa is cut to 53 digits, and rounded up only if digits are lost. *)
Lemma round_spec m e : 0 < m -> 53 <= Zdigits2 m -> -1000 <= Zdigits2 m + e <= 900 ->
  let n := Zdigits2 m - 53 in
  exists m' e' q, binary_round_aux 53 1024 false m e loc_Exact = S754_finite false m' e' /\
    e + n <= e' /\ Z.pos m' * 2 ^ (e' - (e + n)) = q /\ (q = m / 2 ^ n \/ q = m / 2 ^ n + 1 /\ m mod 2 ^ n <> 0).
Proof.
  intros Hm Hd He n. destruct (digits_bounds m Hm) as [_ Hb]. assert (0 <= n) as Hn by lia.
  pose proof (Z.pow_pos_nonneg 2 n ltac:(lia) Hn) as Hp. unfold binary_round_aux, shr_fexp, fexp, emin. cbn [shr_record_of_loc].
  replace (Z.max (Zdigits2 m + e - 53) (3 - 1024 - 53) - e) with n by lia.
  destruct (shr_spec m e n ltac:(lia) Hn) as (H1 & H2 & H3). destruct (shr _ e n) as [x ex]. cbn [fst snd] in *. subst ex.
  assert (2 ^ 52 <= m / 2 ^ n < 2 ^ 53) as Hq.
  { replace (Zdigits2 m - 1) with (52 + n) in Hb by lia. replace (Zdigits2 m) with (53 + n) in Hb by lia. rewrite !Z.pow_add_r in Hb by lia.
    split; [apply Z.div_le_lower_bound; lia|apply Z.div_lt_upper_bound; lia]. }
  set (q := round_nearest_even (shr_m x) (loc_of_shr_record x)).
  assert (q = m / 2 ^ n \/ q = m / 2 ^ n + 1 /\ m mod 2 ^ n <> 0) as Hcase.
  { unfold q. rewrite H2. destruct (loc_of_shr_record x) as [|[]] eqn:EL; cbn [round_nearest_even]; [by left| |by left|].
    - destruct (Z.even _); [by left|]. right. split; [done|]. intros Hz. by specialize (H3 Hz).
    - right. split; [done|]. intros Hz. by specialize (H3 Hz). }
  assert (2 ^ 52 <= q <= 2 ^ 53) as Hqb by lia. clearbody q. destruct (Z.eq_dec q (2 ^ 53)) as [Heq|Hne].
  - assert (Zdigits2 q = 54) as -> by (rewrite Heq; reflexivity). replace (Z.max (54 + (e + n) - 53) (3 - 1024 - 53) - (e + n)) with 1 by lia.
    destruct (shr_spec q (e + n) 1 ltac:(lia) ltac:(lia)) as (S1 & S2 & _). destruct (shr _ (e + n) 1) as [y ey]. cbn [fst snd] in *. subst ey.
    rewrite S2. replace (q / 2 ^ 1) with (2 ^ 52) by (by rewrite Heq). cbn -[Z.pow]. replace (e + n + 1 <=? 1024 - 53) with true by lia.
    exists (Z.to_pos (2 ^ 52)), (e + n + 1), q. split_and!; [done|lia| |done]. replace (e + n + 1 - (e + n)) with 1 by lia. rewrite Heq. done.
  - assert (Zdigits2 q = 53) as -> by (apply digits_unique; cbn; lia). replace (Z.max (53 + (e + n) - 53) (3 - 1024 - 53) - (e + n)) with 0 by lia. cbn [shr shr_m].
    destruct q as [|p|]; [lia| |lia]. replace (e + n <=? 1024 - 53) with true by lia.
    exists p, (e + n), (Z.pos p). split_and!; [done|lia| |done]. rewrite Z.sub_diag. lia.
Qed.

(** ** Small integers are exact *)
Lemma shl_align_spec m d : 0 <= d -> Z.pos (fst (shl_align m 0 (- d))) = Z.pos m * 2 ^ d /\ snd (shl_align m 0 (- d)) = - d.
Proof.
  intros Hd. unfold shl_align. rewrite Z.sub_0_r. destruct d as [|p|]; [split; [by rewrite Z.mul_1_r|done]| |lia]. change (- Z.pos p) with (Z.neg p). cbn [fst snd]. split; [|done].
  clear Hd. induction p as [|p IH] using Pos.peano_ind.
  - change (Pos.iter xO m 1) with (xO m). lia.
  - rewrite Pos.iter_succ, Pos2Z.inj_succ, Z.pow_succ_r by lia. rewrite (Pos2Z.inj_xO (Pos.iter xO m p)), IH. lia.
Qed.

Lemma f64_small d : 0 < d < 2 ^ 53 -> f64 d 0 = S754_finite false (Z.to_pos (d * 2 ^ (53 - Zdigits2 d))) (Zdigits2 d - 53).
Proof.
  intros Hd. destruct (digits_bounds d ltac:(lia)) as [Hp Hb].
  pose proof (digits_small d Hd) as Hle.
  unfold f64, binary_normalize. destruct d as [|p|]; [lia| |lia]. unfold binary_round, fexp, emin.
  change (Z.pos (digits2_pos p)) with (Zdigits2 (Z.pos p)).
  replace (Z.max (Zdigits2 (Z.pos p) + 0 - 53) (3 - 1024 - 53)) with (- (53 - Zdigits2 (Z.pos p))) by lia.
  destruct (shl_align_spec p (53 - Zdigits2 (Z.pos p)) ltac:(lia)) as [H1 H2]. destruct (shl_align p 0 _) as [mz ez]. cbn [fst snd] in *. subst ez.
  replace (Z.pos mz) with (Z.pos p * 2 ^ (53 - Zdigits2 (Z.pos p)) * 2 ^ 0) by lia. rewrite round_exact; [f_equal; lia|lia| |lia|lia].
  rewrite digits_mul_pow by lia. lia.
Qed.

(** Multiplying by a power of two only moves the exponent. *)
Lemma f64Mul_pow d p : 0 < d < 2 ^ 53 -> 0 <= p <= 52 ->
  f64Mul (f64 d 0) (f64 (2 ^ p) 0) = S754_finite false (Z.to_pos (d * 2 ^ (53 - Zdigits2 d))) (Zdigits2 d - 53 + p).
Proof.
  intros Hd Hp. pose proof (Z.pow_pos_nonneg 2 p ltac:(lia) ltac:(lia)) as Hpp.
  destruct (digits_bounds d ltac:(lia)) as [Hdp Hb].
  pose proof (digits_small d Hd) as Hle.
  assert (Zdigits2 (2 ^ p) = p + 1) as HD.
  { apply digits_unique; [lia|lia|]. replace (p + 1 - 1) with p by lia. split; [lia|]. apply Z.pow_lt_mono_r; lia. }
  rewrite !f64_small; [|split; [lia|apply Z.pow_lt_mono_r; lia]|done]. rewrite HD. unfold f64Mul, SFmul. cbn [xorb].
  set (M := d * 2 ^ (53 - Zdigits2 d)). assert (0 < M) as HM by (pose proof (Z.pow_pos_nonneg 2 (53 - Zdigits2 d)); nia).
  rewrite Pos2Z.inj_mul, !Z2Pos.id by (done || (pose proof (Z.pow_pos_nonneg 2 (53 - (p + 1))); nia)).
  rewrite <-Z.pow_add_r by lia. replace (p + (53 - (p + 1))) with 52 by lia. rewrite round_exact; [f_equal; lia|done| |lia|lia].
  unfold M. rewrite digits_mul_pow by lia. lia.
Qed.

(** Normalised mantissas compare as the numbers do. *)
Lemma f64Gt_norm m1 e1 m2 e2 K :
  Zdigits2 (Z.pos m1) = 53 -> Zdigits2 (Z.pos m2) = 53 -> 0 <= e1 + K -> 0 <= e2 + K ->
  f64Gt (S754_finite false m1 e1) (S754_finite false m2 e2) = (Z.pos m2 * 2 ^ (e2 + K) <? Z.pos m1 * 2 ^ (e1 + K)).
Proof.
  intros D1 D2 H1 H2. destruct (digits_bounds (Z.pos m1) ltac:(lia)) as [_ B1]. destruct (digits_bounds (Z.pos m2) ltac:(lia)) as [_ B2].
  rewrite D1 in B1. rewrite D2 in B2. replace (53 - 1) with 52 in * by lia.
  assert (forall a b e f, 2 ^ 52 <= b -> a < 2 ^ 53 -> 0 <= e -> e < f -> a * 2 ^ e < b * 2 ^ f) as Hlt.
  { intros a b e f Hb Ha He Hef. replace f with (e + 1 + (f - e - 1)) by lia. rewrite !Z.pow_add_r by lia.
    pose proof (Z.pow_pos_nonneg 2 e ltac:(lia) He) as HP. pose proof (Z.pow_pos_nonneg 2 (f - e - 1) ltac:(lia) ltac:(lia)) as HQ.
    set (P := 2 ^ e) in *. set (Q := 2 ^ (f - e - 1)) in *. rewrite Z.pow_1_r.
    assert (a * P < 2 ^ 53 * P) by (apply Z.mul_lt_mono_pos_r; lia).
    assert (2 ^ 52 * (P * 2) <= b * (P * 2)) by (apply Z.mul_le_mono_nonneg_r; lia).
    assert (b * (P * 2) * 1 <= b * (P * 2) * Q) by (apply Z.mul_le_mono_nonneg_l; lia). lia. }
  unfold f64Gt, SFltb, SFcompare. destruct (Z.compare_spec e2 e1) as [->|He|He].
  - pose proof (Z.pow_pos_nonneg 2 (e1 + K) ltac:(lia) H1). change (Pos.compare_cont Eq m2 m1) with (Pos.compare m2 m1).
    destruct (Pos.compare_spec m2 m1); symmetry; [apply Z.ltb_ge|apply Z.ltb_lt|apply Z.ltb_ge]; nia.
  - symmetry. apply Z.ltb_lt. apply Hlt; lia.
  - symmetry. apply Z.ltb_ge. apply Z.lt_le_incl, Hlt; lia.
Qed.

Lemma f64Trunc_scaled m' e' u q : u <= 0 -> u <= e' -> Z.pos m' * 2 ^ (e' - u) = q -> f64Trunc (S754_finite false m' e') = q / 2 ^ (- u).
Proof.
  intros Hu He <-. cbn [f64Trunc]. destruct (Z.ltb_spec e' 0) as [Hn|Hn].
  - replace (- u) with (- e' + (e' - u)) by lia. rewrite Z.pow_add_r by lia.
    rewrite Z.div_mul_cancel_r; [done| |]; apply Z.pow_nonzero; lia.
  - replace (e' - u) with (e' + - u) by lia. rewrite Z.pow_add_r, Z.mul_assoc by lia. rewrite Z.div_mul; [done|]. apply Z.pow_nonzero; lia.
Qed.

(** A float in [3/4, 1]. *)
Definition f64Factor (x : spec_float) : bool :=
  match x with
  | S754_finite false m e => (Zdigits2 (Z.pos m) =? 53) && (-53 <=? e) && (e <=? -52) && (3 * 2 ^ 51 <=? Z.pos m * 2 ^ (53 + e)) && (Z.pos m * 2 ^ (53 + e) <=? 2 ^ 53)
  | _ => false
  end.

Lemma f64Mul_factor d f : 0 < d < 2 ^ 53 -> f64Factor f = true -> 3 * d / 4 <= f64Trunc (f64Mul (f64 d 0) f) <= d.
Proof.
  intros Hd Hf. destruct f as [| | |[] mf ef]; try done. cbn [f64Factor] in Hf.
  rewrite !andb_true_iff, Z.eqb_eq, !Z.leb_le in Hf. destruct Hf as ((((DF & E1) & E2) & F1) & F2).
  rewrite f64_small by done. destruct (digits_bounds d ltac:(lia)) as [Hdp Hb].
  pose proof (digits_small d Hd) as Hle.
  set (ed := Zdigits2 d - 53). replace (53 - Zdigits2 d) with (- ed) by lia. pose proof (Z.pow_pos_nonneg 2 (- ed) ltac:(lia) ltac:(lia)) as Hped.
  unfold f64Mul, SFmul. cbn [xorb]. rewrite Pos2Z.inj_mul, Z2Pos.id by nia. set (m := d * 2 ^ (- ed) * Z.pos mf). set (e := ed + ef).
  assert (0 < m) as Hm by nia.
  assert (m * 2 ^ 53 = d * 2 ^ (- e) * (Z.pos mf * 2 ^ (53 + ef))) as Hval.
  { unfold m. replace (2 ^ 53) with (2 ^ (- ef) * 2 ^ (53 + ef)) by (rewrite <-Z.pow_add_r by lia; f_equal; lia).
    replace (2 ^ (- e)) with (2 ^ (- ed) * 2 ^ (- ef)) by (rewrite <-Z.pow_add_r by lia; f_equal; lia). ring. }
  assert (m <= d * 2 ^ (- e)) as Hup by (pose proof (Z.pow_pos_nonneg 2 (- e) ltac:(lia) ltac:(lia)); nia).
  assert (3 * (d * 2 ^ (- e)) <= 4 * m) as Hlo by (pose proof (Z.pow_pos_nonneg 2 (- e) ltac:(lia) ltac:(lia)); nia).
  clear Hval F1 F2. destruct (digits_bounds m Hm) as [HDm HBm].
  assert (53 <= Zdigits2 m <= 106) as HD.
  { destruct (digits_bounds (Z.pos mf) ltac:(lia)) as [_ B2]. rewrite DF in B2.
    assert (2 ^ 52 <= d * 2 ^ (- ed) < 2 ^ 53) as B1.
    { destruct (digits_bounds (d * 2 ^ (- ed)) ltac:(nia)) as [_ B1]. rewrite digits_mul_pow in B1 by lia.
      replace (Zdigits2 d + - ed) with 53 in B1 by lia. done. }
    split.
    - destruct (Z.le_gt_cases 53 (Zdigits2 m)); [done|]. exfalso. assert (2 ^ Zdigits2 m <= 2 ^ 53) by (apply Z.pow_le_mono_r; lia). nia.
    - destruct (Z.le_gt_cases (Zdigits2 m) 106); [done|]. exfalso. assert (2 ^ 106 <= 2 ^ (Zdigits2 m - 1)) by (apply Z.pow_le_mono_r; lia).
      replace (2 ^ 106) with (2 ^ 53 * 2 ^ 53) in * by done. nia. }
  destruct (round_spec m e Hm ltac:(lia) ltac:(lia)) as (m' & e' & q & -> & He' & Hq & Hcase).
  set (n := Zdigits2 m - 53) in *. set (u := e + n) in *.
  assert (u <= 0) as Hu.
  { destruct (Z.le_gt_cases u 0); [done|]. exfalso.
    assert (2 ^ (Zdigits2 m - 1) < 2 ^ 53 * 2 ^ (- e)) as Hbad.
    { apply Z.le_lt_trans with (d * 2 ^ (- e)); [lia|]. apply Z.mul_lt_mono_pos_r; [apply Z.pow_pos_nonneg; lia|lia]. }
    rewrite <-Z.pow_add_r in Hbad by lia. apply Z.pow_lt_mono_r_iff in Hbad; lia. }
  rewrite (f64Trunc_scaled m' e' u q Hu He' Hq).
  pose proof (Z.pow_pos_nonneg 2 (- u) ltac:(lia) ltac:(lia)) as HU. pose proof (Z.pow_pos_nonneg 2 n ltac:(lia) ltac:(lia)) as HN.
  assert (2 ^ (- e) = 2 ^ (- u) * 2 ^ n) as EU by (rewrite <-Z.pow_add_r by lia; f_equal; lia). rewrite EU in Hup, Hlo.
  set (U := 2 ^ (- u)) in *. set (N := 2 ^ n) in *. pose proof (Z.div_mod m N ltac:(lia)) as HDM. pose proof (Z.mod_pos_bound m N ltac:(lia)) as HMB.
  split.
  - apply Z.div_le_lower_bound; [lia|]. set (L := 3 * d / 4). assert (4 * L <= 3 * d) by (unfold L; pose proof (Z.mul_div_le (3 * d) 4); lia).
    assert (U * L <= m / N); [|lia]. apply Z.div_le_lower_bound; [lia|]. nia.
  - assert (q <= d * U); [|apply Z.div_le_upper_bound; lia]. assert (m / N <= d * U) by (apply Z.div_le_upper_bound; lia).
    destruct Hcase as [->|[-> Hne]]; [done|]. destruct (Z.eq_dec (m / N) (d * U)) as [Heq|]; [|lia]. exfalso. nia.
Qed.
