(* ===== verification/PDTypes.v ===== *)
(** * pendingdeletion: records, tasks, outcomes

    [src/pkgs/gizclaw/services/system/pendingdeletion/types.go] and [task.go]: the
    immutable deletion markers, the mutable cleanup tasks and their validation, and
    the outcomes of handlers.

    [Kind], [Reason], [Status] and [Phase] are string types in Go, and persisted
    values of them are arbitrary strings until validated, so they are strings here.
    The hash, UUID, JSON and time-layout functions are a parameter, the class
    [Codec]; what the code relies on of them is [CodecLaws] in [PDCodec]. *)

From stdpp Require Import strings list.
From S2P Require Import Prelude GoStrings GoText CustomID KVKey.

Open Scope Z_scope.

(** ** Errors *)
Inductive pdError :=
  | PDNotFound
  | PDConflict
  | PDNotLocal
  | PDInvalid (what : string)               (** [fmt.Errorf("%w: <what>", ErrInvalid)] *)
  | PDText (msg : string)
  | PDKV (e : kvError)                      (** an error of the store, unchanged *)
  | PDWrap (context : string) (e : pdError). (** [fmt.Errorf("<context>: %w", e)] *)

#[export] Instance pdError_eq_dec : EqDecision pdError.
Proof. solve_decision. Defined.

(** [errors.Is(err, kv.ErrNotFound)], [errors.Is(err, ErrNotFound)]. *)
Fixpoint isKVNotFound (e : pdError) : bool :=
  match e with PDKV ErrNotFound => true | PDWrap _ e => isKVNotFound e | _ => false end.
Fixpoint isPDNotFound (e : pdError) : bool :=
  match e with PDNotFound => true | PDWrap _ e => isPDNotFound e | _ => false end.

(** ** Kinds, reasons, statuses, phases *)
Abbreviation Kind := string.
Abbreviation Reason := string.
Abbreviation Status := string.
Abbreviation Phase := string.

Definition KindPeer : Kind := "peer".
Definition KindWorkspace : Kind := "workspace".
Definition KindFriendGroup : Kind := "friend_group".
Definition ReasonAdminDelete : Reason := "admin_delete".
Definition ReasonPeerDelete : Reason := "peer_delete".
Definition ReasonResourceDelete : Reason := "resource_delete".
Definition ReasonFriendRelationshipDelete : Reason := "friend_relationship_delete".
Definition ReasonFriendGroupDelete : Reason := "friend_group_delete".
Definition StatusQueued : Status := "queued".
Definition StatusRunning : Status := "running".
Definition StatusRetryWait : Status := "retry_wait".
Definition StatusFailed : Status := "failed".
Definition PhaseValidate : Phase := "validate".
Definition PhaseFinalize : Phase := "finalize".

Definition Kind_valid (k : Kind) : bool := bool_decide (k ∈ [KindPeer; KindWorkspace; KindFriendGroup]).

Definition Reason_valid (r : Reason) : bool :=
  bool_decide (r ∈ [ReasonAdminDelete; ReasonPeerDelete; ReasonResourceDelete;
                    ReasonFriendRelationshipDelete; ReasonFriendGroupDelete]).

Definition Status_valid (s : Status) : bool :=
  bool_decide (s ∈ [StatusQueued; StatusRunning; StatusRetryWait; StatusFailed]).

(** [^[a-z][a-z0-9_]{0,63}$], the pattern of phases and of source names. *)
Definition namePattern (s : string) : bool :=
  match s with
  | EmptyString => false
  | String a t =>
      isLower a && allBytes (fun c => isLower c || isDigit c || bool_decide (c = "_"%char)) t && (lenStr t <=? 63)
  end.

Definition ValidatePhase (phase : Phase) : Go pdError unit :=
  check (negb (namePattern phase)) (PDInvalid "invalid phase").

(** ** Markers *)
Definition DescriptorVersion : Z := 1.

Record Record_ := MkRecord {
  r_DeletionID : string;
  r_Kind : Kind;
  r_ResourceID : string;
  r_Reason : Reason;
  r_DeletedAt : Time;
  r_OwnerPublicKey : option string;
  r_DescriptorVersion : Z;
  r_Descriptor : string
}.

#[export] Instance Record_eq_dec : EqDecision Record_.
Proof. solve_decision. Defined.

Definition emptyRecord : Record_ := MkRecord "" "" "" "" 0 None 0 "".

Record Locator := MkLocator {
  l_Kind : Kind;
  l_ResourceID : string;
  l_OwnerPublicKey : option string
}.

(** ** The persisted state of a task *)
Record kvTaskState := MkTaskState {
  st_MarkerFingerprint : string;
  st_Status : Status;
  st_Phase : Phase;
  st_FailureCount : Z;
  st_NextAttemptAt : string;
  st_LeaseToken : string;
  st_LeaseDeadline : string;
  st_LastErrorCode : string;
  st_LastErrorMessage : string;
  st_UpdatedAt : string
}.

#[export] Instance kvTaskState_eq_dec : EqDecision kvTaskState.
Proof. solve_decision. Defined.

(** ** Functions outside the package

    [sha256.Sum256] (raw bytes), [uuid.Parse] (whether it accepts),
    [uuid.NewSHA1(deletionIDNamespace, .).String()], [json.Valid], the JSON of the
    persisted structures, and the two time layouts.  [marshalRecord] is [None] when
    [json.Marshal] fails (invalid descriptor, or a year above 9999). *)
Class Codec := {
  sha256 : string -> string;
  uuidParse : string -> bool;
  uuidSHA1 : string -> string;
  jsonValid : string -> bool;
  marshalRecord : Record_ -> option string;
  unmarshalRecord : string -> option Record_;
  marshalStoredRecord : Record_ -> string;
  marshalState : kvTaskState -> string;
  unmarshalState : string -> option kvTaskState;
  formatIndexTime : Time -> string;
  parseIndexTime : string -> option Time;
  formatNano : Time -> string;
  parseNano : string -> option Time
}.

(** ** Tasks *)
Record Task := MkTask {
  t_Source : string;
  t_Record : Record_;
  t_MarkerFingerprint : string;
  t_Status : Status;
  t_Phase : Phase;
  t_FailureCount : Z;
  t_NextAttemptAt : Time;
  t_LeaseToken : string;
  t_LeaseDeadline : Time;
  t_LastErrorCode : string;
  t_LastErrorMessage : string;
  t_UpdatedAt : Time
}.

#[export] Instance Task_eq_dec : EqDecision Task.
Proof. solve_decision. Defined.

Record Reference := MkReference {
  ref_Source : string;
  ref_DeletionID : string;
  ref_MarkerFingerprint : string
}.

(** [Claim] embeds [Task] and adds nothing. *)
Abbreviation Claim := Task.

(** The maps of the options are used as sets; a nil map is empty. *)
Record SourceListOptions := MkListOptions {
  o_Kinds : list Kind;
  o_Statuses : list Status;
  o_StartTime : option Time;
  o_EndTime : option Time;
  o_AfterCreatedAt : option Time;
  o_AfterSource : string;
  o_AfterDeletionID : string;
  o_Limit : Z
}.

Section pd.
Context `{Codec}.

(** ** Deletion identifiers *)
Definition deletionIDForLocator (kind : Kind) (resourceID : string) (ownerPublicKey : option string) : Go pdError string :=
  _ ← check (negb (Kind_valid kind)) (PDText "pending deletion: invalid kind");
  match ValidateResourceID resourceID with
  | Ret _ => Ret (uuidSHA1 (kind +:+ String "000" (b64Encode resourceID)))
  | Fail _ => Fail (PDText "pending deletion: invalid resource id")
  | Panic => Panic
  end.

Definition DeterministicDeletionID (locator : Locator) : Go pdError string :=
  deletionIDForLocator (l_Kind locator) (l_ResourceID locator) (l_OwnerPublicKey locator).

Definition IsDeterministic (record : Record_) : bool :=
  match DeterministicDeletionID (MkLocator (r_Kind record) (r_ResourceID record) (r_OwnerPublicKey record)) with
  | Ret expected => bool_decide (r_DeletionID record = expected)
  | _ => false
  end.

(** ** [Record.Validate] *)
Definition validateOwner (owner : option string) : Go pdError unit :=
  match owner with
  | None => Ret tt
  | Some key =>
      _ ← check (bool_decide (trimSpace key = EmptyString)) (PDText "pending deletion: empty owner public key");
      check (negb (bool_decide (trimSpace key = key))) (PDText "pending deletion: non-canonical owner public key")
  end.

Definition Record_Validate (r : Record_) : Go pdError unit :=
  _ ← check (negb (Kind_valid (r_Kind r))) (PDText "pending deletion: invalid kind");
  _ ← match ValidateResourceID (r_ResourceID r) with
      | Ret _ => Ret tt
      | Fail _ => Fail (PDText "pending deletion: invalid resource id")
      | Panic => Panic
      end;
  _ ← validateOwner (r_OwnerPublicKey r);
  expectedDeletionID ← deletionIDForLocator (r_Kind r) (r_ResourceID r) (r_OwnerPublicKey r);
  _ ← check (negb (bool_decide (r_DeletionID r = expectedDeletionID)) && negb (uuidParse (r_DeletionID r)))
        (PDText "pending deletion: invalid deletion id");
  _ ← check (negb (Reason_valid (r_Reason r))) (PDText "pending deletion: invalid reason");
  _ ← check (isZero (r_DeletedAt r)) (PDText "pending deletion: empty deleted_at");
  _ ← check (negb (r_DescriptorVersion r =? DescriptorVersion)) (PDText "pending deletion: unsupported descriptor version");
  check (bool_decide (r_Descriptor r = EmptyString) || negb (jsonValid (r_Descriptor r)))
    (PDText "pending deletion: invalid descriptor JSON").

(** [New]; [descriptor] is [json.Marshal(descriptor)] and [wallClock] what
    [time.Now()] returns. *)
Definition New (kind : Kind) (resourceID : string) (ownerPublicKey : option string) (reason : Reason)
    (descriptor : option string) (now wallClock : Time) : Go pdError Record_ :=
  _ ← check (negb (Kind_valid kind)) (PDText "pending deletion: invalid kind");
  _ ← match ValidateResourceID resourceID with
      | Ret _ => Ret tt
      | Fail _ => Fail (PDText "pending deletion: invalid resource id")
      | Panic => Panic
      end;
  _ ← check (bool_decide (reason = EmptyString)) (PDText "pending deletion: empty reason");
  match descriptor with
  | None => Fail (PDText "pending deletion: encode descriptor")
  | Some data =>
      let now := if isZero now then wallClock else now in
      deletionID ← deletionIDForLocator kind resourceID ownerPublicKey;
      let record := MkRecord deletionID kind resourceID reason now ownerPublicKey DescriptorVersion data in
      _ ← Record_Validate record;
      Ret record
  end.

(** ** Fingerprints *)

(** The marshalled anonymous struct has the fields and tags of [Record]. *)
Definition Fingerprint (record : Record_) : Go pdError string :=
  _ ← Record_Validate record;
  match marshalRecord record with
  | None => Fail (PDText "pending deletion: encode marker fingerprint")
  | Some data => Ret (hexEncode (sha256 data))
  end.

Definition StoredFingerprint (record : Record_) : Go pdError string :=
  match Fingerprint record with
  | Ret fingerprint => Ret fingerprint
  | Panic => Panic
  | Fail _ => Ret (hexEncode (sha256 (marshalStoredRecord record)))
  end.

(** ** Task validation *)
Definition validateTaskState (task : Task) : Go pdError unit :=
  _ ← check (negb (Status_valid (t_Status task))) (PDInvalid "invalid status");
  _ ← ValidatePhase (t_Phase task);
  _ ← check (t_FailureCount task <? 0) (PDInvalid "negative failure count");
  _ ← check (isZero (t_UpdatedAt task)) (PDInvalid "empty updated time");
  _ ← check ((64 <? lenStr (t_LastErrorCode task)) || (256 <? lenStr (t_LastErrorMessage task)))
        (PDInvalid "failure metadata exceeds bounds");
  _ ← (if bool_decide (t_Status task = StatusRunning)
       then check (bool_decide (t_LeaseToken task = EmptyString) || (128 <? lenStr (t_LeaseToken task)) || isZero (t_LeaseDeadline task))
              (PDInvalid "invalid running lease")
       else check (negb (bool_decide (t_LeaseToken task = EmptyString)) || negb (isZero (t_LeaseDeadline task)))
              (PDInvalid "inactive task has a lease"));
  check ((bool_decide (t_Status task = StatusQueued) || bool_decide (t_Status task = StatusRetryWait)) && isZero (t_NextAttemptAt task))
    (PDInvalid "due task has no next attempt time").

Definition validSource (source : string) : Go pdError unit :=
  check (bool_decide (trimSpace source = EmptyString) || negb (bool_decide (source = trimSpace source))) (PDInvalid "invalid source").

Definition ValidateTask (task : Task) : Go pdError unit :=
  _ ← validSource (t_Source task);
  _ ← match Record_Validate (t_Record task) with
      | Ret _ => Ret tt
      | Fail _ => Fail (PDInvalid "invalid record")
      | Panic => Panic
      end;
  _ ← match Fingerprint (t_Record task) with
      | Ret fingerprint =>
          check (negb (bool_decide (fingerprint = t_MarkerFingerprint task))) (PDInvalid "marker fingerprint mismatch")
      | Fail _ => Fail (PDInvalid "marker fingerprint mismatch")
      | Panic => Panic
      end;
  validateTaskState task.

Definition validateStoredTask (task : Task) : Go pdError unit :=
  _ ← validSource (t_Source task);
  _ ← match StoredFingerprint (t_Record task) with
      | Ret fingerprint =>
          check (negb (bool_decide (fingerprint = t_MarkerFingerprint task))) (PDInvalid "stored marker fingerprint mismatch")
      | Fail _ => Fail (PDInvalid "stored marker fingerprint mismatch")
      | Panic => Panic
      end;
  validateTaskState task.

End pd.

(** ** Outcomes *)
Abbreviation OutcomeClass := string.
Definition OutcomeDeferred : OutcomeClass := "deferred".
Definition OutcomeRetryable : OutcomeClass := "retryable".
Definition OutcomeTerminal : OutcomeClass := "terminal".

(** The wrapped error is kept by its message. *)
Record OutcomeError := MkOutcome {
  oe_Class : OutcomeClass;
  oe_Code : string;
  oe_Message : string;
  oe_After : Z;
  oe_Err : option string
}.

(** [None] is the nil pointer. *)
Definition OutcomeError_Error (e : option OutcomeError) : string :=
  match e with
  | None => "pending deletion outcome"
  | Some e => default (oe_Message e) (oe_Err e)
  end.

Definition OutcomeError_Unwrap (e : option OutcomeError) : option string :=
  match e with None => None | Some e => oe_Err e end.

Definition newOutcomeError (class : OutcomeClass) (code message : string) (after : Z) (err : option string) : OutcomeError :=
  let code := trimSpace code in
  let message := trimSpace message in
  let code := if bool_decide (code = EmptyString) then class else code in
  let code := if 64 <? lenStr code then takeStr 64 code else code in
  let message := if bool_decide (message = EmptyString) then code else message in
  let message := if 256 <? lenStr message then takeStr 256 message else message in
  MkOutcome class code message after err.

Definition Deferred (code message : string) (after : Z) : OutcomeError :=
  newOutcomeError OutcomeDeferred code message after None.
Definition Retryable (code message : string) (err : option string) : OutcomeError :=
  newOutcomeError OutcomeRetryable code message 0 err.
Definition Terminal (code message : string) (err : option string) : OutcomeError :=
  newOutcomeError OutcomeTerminal code message 0 err.

(** [normalizeOutcome] of processor.go. *)
Definition normalizeOutcome (outcome : option OutcomeError) : OutcomeError :=
  match outcome with
  | None => MkOutcome OutcomeRetryable "handler_error" "cleanup handler failed" 0 None
  | Some o =>
      if bool_decide (oe_Class o ∈ [OutcomeDeferred; OutcomeRetryable; OutcomeTerminal])
      then newOutcomeError (oe_Class o) (oe_Code o) (oe_Message o) (oe_After o) (oe_Err o)
      else MkOutcome OutcomeTerminal "invalid_outcome" "cleanup handler returned an invalid outcome" 0 (oe_Err o)
  end.
