(* ===== verification/PDStore.v ===== *)
(** * pendingdeletion: markers and indexes in a key-value store

    [src/pkgs/gizclaw/services/system/pendingdeletion/kv_store.go] and
    [kv_index.go].  A [KVSource] works on the store given by the class [KVOps]; a
    function that takes a [kv.Store] takes here whether that store is configured
    (non-nil).  Read-consistency requests ([WithPrimaryReads], [WithStrongReads]) do
    not change what a store that is a single map answers and are left out. *)

From stdpp Require Import gmap strings list pretty.
From S2P Require Import Prelude GoStrings GoText KVKey KVIface PDTypes.

Open Scope Z_scope.

Record KVSource := MkKVSource {
  s_Store : bool;  (** the store is configured *)
  s_SourceName : string;
  s_OwnedKinds : list Kind
}.

(** ** Keys *)
Definition root : Key := ["pending-deletion"%string].

Definition byIDKey (deletionID : string) : Key := root ++ ["by-id"; deletionID]%string.
Definition byLocatorKey (kind : Kind) (resourceID : string) : Key :=
  root ++ ["by-locator"; kind; b64Encode resourceID]%string.
Definition kvTaskKey (deletionID : string) : Key := root ++ ["task"; deletionID]%string.

Definition kvTaskIndexShards : Z := 16.

(** [fmt.Sprint(shard)]. *)
Definition sprint (n : Z) : string := pretty (Z.to_N n).

Definition kvDueIndexKey (kind : Kind) (shard : Z) : Key := ["pending-deletion"; "due-index"; kind; sprint shard]%string.
Definition kvCreatedIndexKey (kind : Kind) (status : Status) (shard : Z) : Key :=
  ["pending-deletion"; "created-index"; kind; status; sprint shard]%string.

Definition AbsentLocatorCondition (kind : Kind) (resourceID : string) : Condition :=
  MkCondition (byLocatorKey kind resourceID) None.

(** ** Index members *)
Section index.
Context `{Codec}.

Definition kvTaskShard (id : string) : Z :=
  match sha256 id with String a _ => byteZ a `mod` kvTaskIndexShards | EmptyString => 0 end.

Definition kvIndexMember (at_ : Time) (task : Task) : string :=
  formatIndexTime at_ +:+ String "/" (r_DeletionID (t_Record task) +:+ String "/" (t_MarkerFingerprint task)).

Definition parseKVIndexMember (member : string) : Go pdError (Time * string * string) :=
  match splitByte "/" member with
  | [p0; p1; p2] =>
      _ ← check (bool_decide (p1 = EmptyString)) (PDInvalid "invalid task index member");
      match parseIndexTime p0 with
      | None => Fail (PDInvalid "invalid task index time")
      | Some at_ =>
          _ ← check (negb (bool_decide (formatIndexTime at_ = p0))) (PDInvalid "invalid task index time");
          match hexDecode p2 with
          | None => Fail (PDInvalid "invalid task index fingerprint")
          | Some digest =>
              _ ← check (negb (lenStr digest =? 32) || negb (bool_decide (hexEncode digest = p2)))
                    (PDInvalid "invalid task index fingerprint");
              Ret (at_, p1, p2)
          end
      end
  | _ => Fail (PDInvalid "invalid task index member")
  end.

(** The instant at which a task is due, [0] when it never is. *)
Definition taskDueAt (task : Task) : Time :=
  if bool_decide (t_Status task = StatusQueued) || bool_decide (t_Status task = StatusRetryWait) then t_NextAttemptAt task
  else if bool_decide (t_Status task = StatusRunning) then t_LeaseDeadline task
  else 0.

Definition kvTaskIndexes (task : option Task) : list SetMembers :=
  match task with
  | None => []
  | Some t =>
      let shard := kvTaskShard (r_DeletionID (t_Record t)) in
      let kind := r_Kind (t_Record t) in
      let created := MkSetMembers (kvCreatedIndexKey kind (t_Status t) shard) [kvIndexMember (r_DeletedAt (t_Record t)) t] 0 in
      let due := taskDueAt t in
      created :: (if isZero due then [] else [MkSetMembers (kvDueIndexKey kind shard) [kvIndexMember due t] 0])
  end.

(** [contains]: same key and same first member. *)
Definition sameIndex (a b : SetMembers) : bool :=
  bool_decide (sm_Key a = sm_Key b) && bool_decide (head (sm_Members a) = head (sm_Members b)).
Definition containsIndex (indexes : list SetMembers) (candidate : SetMembers) : bool :=
  existsb (fun item => sameIndex item candidate) indexes.

Definition kvTaskIndexChanges (before after : option Task) : list SetMembers * list SetMembers :=
  let old := kvTaskIndexes before in
  let next := kvTaskIndexes after in
  (filter (fun item => containsIndex old item = false) next, filter (fun item => containsIndex next item = false) old).
End index.

(** ** Task state codec *)
Section codec.
Context `{Codec}.

Definition formatKVTaskTime (value : Time) : string := if isZero value then EmptyString else formatNano value.
Definition parseKVTaskTime (value : string) : Time := default 0 (parseNano value).

Definition encodeKVTaskState (task : Task) : string :=
  marshalState (MkTaskState (t_MarkerFingerprint task) (t_Status task) (t_Phase task) (t_FailureCount task)
    (formatKVTaskTime (t_NextAttemptAt task)) (t_LeaseToken task) (formatKVTaskTime (t_LeaseDeadline task))
    (t_LastErrorCode task) (t_LastErrorMessage task) (formatKVTaskTime (t_UpdatedAt task))).
End codec.

(** ** Markers *)
Section store.
Context {W : Type} `{Codec} `{KVOps W}.

(** An error of the store or of a callee passed on, or wrapped with a context. *)
Definition kvM {A} (m : ST W kvError A) : ST W pdError A := mapErrST PDKV m.
Definition wrapST {A} (context : string) (m : ST W pdError A) : ST W pdError A := mapErrST (PDWrap context) m.

Definition notConfigured : pdError := PDText "pending deletion: KV store not configured".

Definition KVEntries (record : Record_) : Go pdError (list Entry) :=
  _ ← Record_Validate record;
  match marshalRecord record with
  | None => Fail (PDText "pending deletion: encode record")
  | Some data => Ret [MkEntry (byIDKey (r_DeletionID record)) data 0]
  end.

Definition validateLocatorRecord (record : Record_) (kind : Kind) (resourceID : string) : Go pdError unit :=
  check (negb (bool_decide (r_Kind record = kind) && bool_decide (r_ResourceID record = resourceID)))
    (PDText "pending deletion: locator references another record").

Definition getStoredRecord (store : bool) (deletionID : string) : ST W pdError Record_ :=
  _ ← checkST (negb store) notConfigured;
  data ← kvM (kvGet (byIDKey deletionID));
  match unmarshalRecord data with
  | None => failST (PDText "pending deletion: decode record")
  | Some record =>
      _ ← checkST (negb (bool_decide (r_DeletionID record = deletionID))) (PDText "pending deletion: record key contains another deletion id");
      mret record
  end.

Definition Get (store : bool) (deletionID : string) : ST W pdError Record_ :=
  record ← getStoredRecord store deletionID;
  _ ← wrapST "pending deletion: validate" (lift (Record_Validate record));
  mret record.

(** What both lookups do with the identifier found under a locator. *)
Definition loadLocated (store : bool) (context : string) (kind : Kind) (resourceID deletionID : string) : ST W pdError Record_ :=
  _ ← checkST (bool_decide (deletionID = EmptyString)) (PDText "pending deletion: empty KV locator record");
  existing ← wrapST context (Get store deletionID);
  _ ← lift (validateLocatorRecord existing kind resourceID);
  mret existing.

Definition resolveExistingLocator (store : bool) (kind : Kind) (resourceID : string) : ST W pdError (option Record_) :=
  r ← tryST (kvM (kvGet (byLocatorKey kind resourceID)));
  match r with
  | inr fixedID =>
      existing ← loadLocated store "pending deletion: get existing locator record" kind resourceID fixedID;
      mret (Some existing)
  | inl e => if isKVNotFound e then mret None else failST e
  end.

Definition GetByLocator (store : bool) (kind : Kind) (resourceID : string) : ST W pdError Record_ :=
  _ ← checkST (negb store) notConfigured;
  found ← resolveExistingLocator store kind resourceID;
  match found with Some record => mret record | None => failST (PDKV ErrNotFound) end.

Definition HasLocator (store : bool) (kind : Kind) (resourceID : string) : ST W pdError bool :=
  _ ← checkST (negb store) notConfigured;
  r ← tryST (kvM (kvGet (byLocatorKey kind resourceID)));
  match r with
  | inr deletionID =>
      _ ← loadLocated store "pending deletion: get locator record" kind resourceID deletionID;
      mret true
  | inl e => if isKVNotFound e then mret false else failST e
  end.

(** The task persisted with a new marker: it has no source name. *)
Definition initialTask (record : Record_) (fingerprint : string) : Task :=
  MkTask "" record fingerprint StatusQueued PhaseValidate 0 (r_DeletedAt record) "" 0 "" "" (r_DeletedAt record).

Definition createMutation (record : Record_) (entries : list Entry) (task : Task) : Mutation :=
  let locatorKey := byLocatorKey (r_Kind record) (r_ResourceID record) in
  let id := r_DeletionID record in
  MkMutation [MkCondition locatorKey None; MkCondition (byIDKey id) None; MkCondition (kvTaskKey id) None]
    (entries ++ [MkEntry locatorKey id 0; MkEntry (kvTaskKey id) (encodeKVTaskState task) 0])
    [] [] [] (kvTaskIndexChanges None (Some task)).1 [].

Definition CreateOrGet (store : bool) (record : Record_) : ST W pdError (Record_ * bool) :=
  _ ← checkST (negb store) notConfigured;
  entries ← lift (KVEntries record);
  fingerprint ← lift (Fingerprint record);
  created ← kvM (kvApply (createMutation record entries (initialTask record fingerprint)));
  if created : bool then mret (record, true)
  else
    r ← tryST (kvM (kvGet (byLocatorKey (r_Kind record) (r_ResourceID record))));
    match r with
    | inl e => if isKVNotFound e then failST PDConflict else failST e
    | inr existingID =>
        existing ← loadLocated store "pending deletion: get existing locator record" (r_Kind record) (r_ResourceID record) existingID;
        mret (existing, false)
    end.

(** ** [KVSource] lookups *)
Definition KVSource_Get (s : KVSource) (deletionID : string) : ST W pdError Record_ :=
  _ ← checkST (negb (s_Store s)) notConfigured;
  Get (s_Store s) deletionID.

Definition KVSource_HasLocator (s : KVSource) (locator : Locator) : ST W pdError bool :=
  _ ← checkST (negb (s_Store s)) notConfigured;
  _ ← checkST (bool_decide (is_Some (l_OwnerPublicKey locator))) (PDText "pending deletion: KV locator owner filter is not supported");
  HasLocator (s_Store s) (l_Kind locator) (l_ResourceID locator).

(** ** Reading the indexes *)

(** [slices.Compact]: drop repeated neighbours. *)
Fixpoint compact (l : list string) : list string :=
  match l with
  | [] => []
  | x :: l' => match l' with
               | y :: _ => if bool_decide (x = y) then compact l' else x :: compact l'
               | [] => [x]
               end
  end.

(** The shard queries run concurrently and do not write; here they run in turn. *)
Definition readKVTaskIndexes (keys : list Key) (query : OrderedRange) : ST W pdError (list string) :=
  parts ← foldST (fun acc key => members ← kvM (kvRange key query); mret (acc ++ members)) [] keys;
  mret (compact (sortStrings parts)).

Definition validateTaskSource (s : KVSource) : Go pdError unit :=
  _ ← check (negb (s_Store s)) notConfigured;
  check (negb (namePattern (s_SourceName s)) || bool_decide (s_OwnedKinds s = [])) (PDText "pending deletion: invalid KV task source").

Definition shards : list Z := map Z.of_nat (seq 0 16).

Definition dueKeys (s : KVSource) : list Key :=
  kind ← s_OwnedKinds s; map (kvDueIndexKey kind) shards.

(** [now.Format(...) + "\xff"]. *)
Definition dueBound (now : Time) : string := formatIndexTime now +:+ String "255" EmptyString.

Definition refOf (s : KVSource) (member : string) : Go pdError Reference :=
  p ← parseKVIndexMember member;
  let '(_, id, fingerprint) := p in
  Ret (MkReference (s_SourceName s) id fingerprint).

Definition scanIndexedDue (s : KVSource) (now : Time) (limit : Z) (cursor : string) : ST W pdError (list Reference * string) :=
  _ ← lift (validateTaskSource s);
  _ ← checkST (limit <=? 0) (PDInvalid "scan limit must be positive");
  _ ← (if bool_decide (cursor = EmptyString) then mret tt else _ ← lift (parseKVIndexMember cursor); mret tt);
  let query := MkOrderedRange (if bool_decide (cursor = EmptyString) then None else Some cursor) (Some (dueBound now)) (limit + 1) in
  members ← readKVTaskIndexes (dueKeys s) query;
  let more := limit <? Z.of_nat (length members) in
  let page := if more then take (Z.to_nat limit) members else members in
  let next := if more then default EmptyString (last page) else EmptyString in
  refs ← lift (mapGo (refOf s) page);
  mret (refs, next).
End store.
