(* ===== verification/PDTask.v ===== *)
(** * pendingdeletion: the durable task source

    [src/pkgs/gizclaw/services/system/pendingdeletion/kv_task.go], with the listing
    of [kv_index.go] and the token of [retry.go]: claims, leases, transitions,
    requeueing and finalization, each one conditional mutation of the store.  A
    random source that a function reads is an argument of it. *)

From stdpp Require Import gmap strings list.
From S2P Require Import Prelude GoStrings GoText KVKey KVIface PDTypes PDStore.

Open Scope Z_scope.

(** ** Predicates on tasks *)
Definition KVSource_Name (s : KVSource) : string := s_SourceName s.
Definition KVSource_Kinds (s : KVSource) : list Kind := s_OwnedKinds s.
Definition owns (s : KVSource) (kind : Kind) : bool := bool_decide (kind ∈ s_OwnedKinds s).

(** [!x.After(now)] is [x <= now]. *)
Definition taskDue (task : Task) (now : Time) : bool :=
  if bool_decide (t_Status task = StatusQueued) || bool_decide (t_Status task = StatusRetryWait) then t_NextAttemptAt task <=? now
  else if bool_decide (t_Status task = StatusRunning) then t_LeaseDeadline task <=? now
  else false.

Definition taskMatches (task : Task) (o : SourceListOptions) : bool :=
  let deletedAt := r_DeletedAt (t_Record task) in
  if negb (bool_decide (o_Kinds o = [])) && negb (bool_decide (r_Kind (t_Record task) ∈ o_Kinds o)) then false
  else if negb (bool_decide (o_Statuses o = [])) && negb (bool_decide (t_Status task ∈ o_Statuses o)) then false
  else if match o_StartTime o with Some start => deletedAt <? start | None => false end then false
  else if match o_EndTime o with Some end_ => end_ <=? deletedAt | None => false end then false
  else match o_AfterCreatedAt o with
       | None => true
       | Some after =>
           if after <? deletedAt then true
           else if negb (deletedAt =? after) then false
           else if negb (bool_decide (t_Source task = o_AfterSource o)) then ltStr (o_AfterSource o) (t_Source task)
           else ltStr (o_AfterDeletionID o) (r_DeletionID (t_Record task))
       end.

Definition sameFailedObservation (current observed : Task) : bool :=
  bool_decide (t_Status current = StatusFailed) && bool_decide (t_Status observed = StatusFailed) &&
  bool_decide (t_Source current = t_Source observed) &&
  bool_decide (r_DeletionID (t_Record current) = r_DeletionID (t_Record observed)) &&
  bool_decide (t_MarkerFingerprint current = t_MarkerFingerprint observed) &&
  bool_decide (t_Phase current = t_Phase observed) && (t_FailureCount current =? t_FailureCount observed) &&
  (t_UpdatedAt current =? t_UpdatedAt observed) && bool_decide (t_LastErrorCode current = t_LastErrorCode observed) &&
  bool_decide (t_LastErrorMessage current = t_LastErrorMessage observed) &&
  (t_NextAttemptAt current =? t_NextAttemptAt observed) && bool_decide (t_LeaseToken current = t_LeaseToken observed) &&
  (t_LeaseDeadline current =? t_LeaseDeadline observed).

(** [newPendingDeletionToken]: [random] is the 16 bytes read, [None] a read error. *)
Definition newPendingDeletionToken (random : option string) : Go pdError string :=
  match random with
  | None => Fail (PDText "rand: read failed")
  | Some value => Ret (hexEncode value)
  end.
Definition newKVLeaseToken : option string -> Go pdError string := newPendingDeletionToken.

(** ** Changes of a task *)
Definition withLease (t : Task) (status : Status) (token : string) (deadline : Time) (now : Time) : Task :=
  MkTask (t_Source t) (t_Record t) (t_MarkerFingerprint t) status (t_Phase t) (t_FailureCount t) (t_NextAttemptAt t)
    token deadline (t_LastErrorCode t) (t_LastErrorMessage t) now.

Definition withUpdatedAt (t : Task) (now : Time) : Task :=
  withLease t (t_Status t) (t_LeaseToken t) (t_LeaseDeadline t) now.

(** The closures of [Renew], [Checkpoint], [Defer] and [Fail]. *)
Definition renewTask (deadline : Time) (t : Task) : Task :=
  withLease t (t_Status t) (t_LeaseToken t) deadline (t_UpdatedAt t).

Definition checkpointTask (phase : Phase) (t : Task) : Task :=
  MkTask (t_Source t) (t_Record t) (t_MarkerFingerprint t) (t_Status t) phase (t_FailureCount t) (t_NextAttemptAt t)
    (t_LeaseToken t) (t_LeaseDeadline t) (t_LastErrorCode t) (t_LastErrorMessage t) (t_UpdatedAt t).

Definition deferTask (code message : string) (nextAttempt : Time) (t : Task) : Task :=
  MkTask (t_Source t) (t_Record t) (t_MarkerFingerprint t) StatusRetryWait (t_Phase t) (t_FailureCount t) nextAttempt
    EmptyString 0 code message (t_UpdatedAt t).

Definition failTask (code message : string) (terminal : bool) (nextAttempt : Time) (maxAttempts : Z) (t : Task) : Task :=
  let failures := t_FailureCount t + 1 in
  let status := if terminal || (maxAttempts <=? failures) then StatusFailed else StatusRetryWait in
  MkTask (t_Source t) (t_Record t) (t_MarkerFingerprint t) status (t_Phase t) failures nextAttempt
    EmptyString 0 code message (t_UpdatedAt t).

(** The reset of [requeueFailed]. *)
Definition requeueTask (now : Time) (t : Task) : Task :=
  MkTask (t_Source t) (t_Record t) (t_MarkerFingerprint t) StatusQueued (t_Phase t) 0 now
    EmptyString 0 EmptyString EmptyString now.

(** ** Finalization keys *)

(** Two keys with the same JSON text; JSON replaces invalid UTF-8. *)
Definition kvKeyIdentity (key : Key) : Key := map toValidUTF8 key.

Definition validateFinalizeDomainKey (key : Key) : Go pdError unit :=
  _ ← check (bool_decide (key = [])) (PDText "pending deletion: empty KV finalization key");
  _ ← check (bool_decide (EmptyString ∈ key)) (PDText "pending deletion: empty KV finalization key segment");
  check ((length root <=? length key)%nat && bool_decide (take (length root) key = root))
    (PDText "pending deletion: domain finalization key enters the pending-deletion namespace").

(** The closure [appendKey]. *)
Definition appendKey (domain : bool) (acc : gset Key * list Key) (key : Key) : Go pdError (gset Key * list Key) :=
  let '(seen, keys) := acc in
  _ ← (if domain then validateFinalizeDomainKey key
       else check (bool_decide (key = [])) (PDText "pending deletion: empty KV finalization key"));
  _ ← check (bool_decide (kvKeyIdentity key ∈ seen)) (PDText "pending deletion: duplicate KV finalization key");
  Ret ({[ kvKeyIdentity key ]} ∪ seen, keys ++ [key]).

Definition commonKeys (record : Record_) : list Key :=
  [byIDKey (r_DeletionID record); byLocatorKey (r_Kind record) (r_ResourceID record); kvTaskKey (r_DeletionID record)].

Definition kvFinalizeDeleteKeys (record : Record_) (domainKeys : list Key) : Go pdError (list Key) :=
  acc ← foldGo (appendKey true) (∅, []) domainKeys;
  acc ← foldGo (appendKey false) acc (commonKeys record);
  Ret acc.2.

(** The loops of [FinalizeGuarded] over the entries and the collections. *)
Definition checkEntryKey (seen : gset Key) (entry : Entry) : Go pdError (gset Key) :=
  _ ← validateFinalizeDomainKey (entry_Key entry);
  _ ← check (bool_decide (kvKeyIdentity (entry_Key entry) ∈ seen)) (PDText "pending deletion: duplicate KV finalization key");
  Ret ({[ kvKeyIdentity (entry_Key entry) ]} ∪ seen).

Definition checkGroupKey (seen : gset Key) (group : SetMembers) : Go pdError unit :=
  _ ← validateFinalizeDomainKey (sm_Key group);
  check (bool_decide (kvKeyIdentity (sm_Key group) ∈ seen)) (PDText "pending deletion: overlapping collection key").

Definition checkFinalizeKeys (keys : list Key) (entries : list Entry) (removeMembers : list SetMembers) : Go pdError unit :=
  seen ← foldGo checkEntryKey (list_to_set (map kvKeyIdentity keys)) entries;
  each (checkGroupKey seen) removeMembers.

(** ** Operations *)
Section task.
Context {W : Type} `{Codec} `{KVOps W}.
Implicit Types (s : KVSource) (task : Task).

Definition decodeTask s (record : Record_) (raw : string) : Go pdError (Task * string) :=
  match unmarshalState raw with
  | None => Fail (PDText "pending deletion: decode KV task")
  | Some st =>
      let task := MkTask (s_SourceName s) record (st_MarkerFingerprint st) (st_Status st) (st_Phase st) (st_FailureCount st)
        (parseKVTaskTime (st_NextAttemptAt st)) (st_LeaseToken st) (parseKVTaskTime (st_LeaseDeadline st))
        (st_LastErrorCode st) (st_LastErrorMessage st) (parseKVTaskTime (st_UpdatedAt st)) in
      _ ← validateStoredTask task;
      Ret (task, raw)
  end.

Definition loadTask s (deletionID : string) : ST W pdError (Task * string) :=
  r ← tryST (getStoredRecord (s_Store s) deletionID);
  match r with
  | inl e => if isKVNotFound e then failST PDNotFound else failST e
  | inr record =>
      if negb (owns s (r_Kind record)) then failST PDNotFound
      else
        r ← tryST (kvM (kvGet (kvTaskKey deletionID)));
        match r with
        | inl e =>
            if isKVNotFound e then
              again ← tryST (getStoredRecord (s_Store s) deletionID);
              match again with
              | inl e => if isKVNotFound e then failST PDNotFound else failST e
              | inr _ => failST (PDInvalid "persisted KV task state is missing")
              end
            else failST e
        | inr raw => lift (decodeTask s record raw)
        end
  end.

Definition taskMutation (previous task : Task) (expected : string) : Mutation :=
  let '(add, remove) := kvTaskIndexChanges (Some previous) (Some task) in
  let key := kvTaskKey (r_DeletionID (t_Record task)) in
  MkMutation [MkCondition key (Some expected)] [MkEntry key (encodeKVTaskState task) 0] [] [] [] add remove.

Definition writeTask s task (expected : string) : ST W pdError bool :=
  prev ← lift (decodeTask s (t_Record task) expected);
  _ ← lift (validateStoredTask task);
  kvM (kvApply (taskMutation prev.1 task expected)).

(** The lease check shared by [transition] and [FinalizeGuarded]. *)
Definition leaseLost (task : Task) (claim : Claim) (now : Time) : bool :=
  negb (bool_decide (t_MarkerFingerprint task = t_MarkerFingerprint claim)) ||
  negb (bool_decide (t_Status task = StatusRunning)) ||
  negb (bool_decide (t_LeaseToken task = t_LeaseToken claim)) ||
  (t_LeaseDeadline task <=? now).

Definition transition s (claim : Claim) (now : Time) (mutate : Task -> Task) : ST W pdError unit :=
  loaded ← loadTask s (r_DeletionID (t_Record claim));
  let '(task, raw) := loaded in
  _ ← checkST (leaseLost task claim now) PDConflict;
  matched ← writeTask s (withUpdatedAt (mutate task) now) raw;
  checkST (negb matched) PDConflict.

(** [Claim]; the boolean of the result is [option]. *)
Definition KVSource_Claim s (ref : Reference) (now : Time) (leaseDuration : Z) (random : option string) : ST W pdError (option Claim) :=
  _ ← checkST (leaseDuration <=? 0) (PDInvalid "lease duration must be positive");
  _ ← lift (validateTaskSource s);
  _ ← checkST (negb (bool_decide (ref_Source ref = s_SourceName s))) (PDText "pending deletion: KV reference source mismatch");
  loaded ← loadTask s (ref_DeletionID ref);
  let '(task, raw) := loaded in
  if negb (bool_decide (t_MarkerFingerprint task = ref_MarkerFingerprint ref)) || negb (taskDue task now) then mret None
  else
    token ← lift (newKVLeaseToken random);
    let task' := withLease task StatusRunning token (now + leaseDuration) now in
    matched ← writeTask s task' raw;
    mret (if matched : bool then Some task' else None).

Definition KVSource_Renew s (claim : Claim) (now : Time) (leaseDuration : Z) : ST W pdError unit :=
  _ ← checkST (leaseDuration <=? 0) (PDInvalid "lease duration must be positive");
  transition s claim now (renewTask (now + leaseDuration)).

Definition KVSource_Checkpoint s (claim : Claim) (phase : Phase) (now : Time) : ST W pdError Claim :=
  _ ← lift (ValidatePhase phase);
  _ ← transition s claim now (checkpointTask phase);
  mret (withUpdatedAt (checkpointTask phase claim) now).

Definition KVSource_Defer s (claim : Claim) (code message : string) (nextAttempt now : Time) : ST W pdError unit :=
  transition s claim now (deferTask code message nextAttempt).

Definition KVSource_Fail s (claim : Claim) (code message : string) (terminal : bool) (nextAttempt now : Time) (maxAttempts : Z) : ST W pdError unit :=
  transition s claim now (failTask code message terminal nextAttempt maxAttempts).

Definition KVSource_GetTask s (deletionID : string) : ST W pdError Task :=
  loaded ← loadTask s deletionID; mret loaded.1.

Definition requeueFailed s task (raw : string) (now : Time) : ST W pdError Task :=
  matched ← writeTask s (requeueTask now task) raw;
  _ ← checkST (negb matched) PDConflict;
  mret (requeueTask now task).

Definition KVSource_Retry s (deletionID : string) (now : Time) : ST W pdError Task :=
  loaded ← loadTask s deletionID;
  let '(task, raw) := loaded in
  _ ← checkST (negb (bool_decide (t_Status task = StatusFailed))) PDConflict;
  requeueFailed s task raw now.

Definition KVSource_RetryFailed s (observed : Task) (now : Time) : ST W pdError Task :=
  _ ← lift (ValidateTask observed);
  _ ← checkST (negb (bool_decide (t_Source observed = s_SourceName s))) PDConflict;
  loaded ← loadTask s (r_DeletionID (t_Record observed));
  let '(current, raw) := loaded in
  _ ← checkST (negb (sameFailedObservation current observed)) PDConflict;
  requeueFailed s current raw now.

Definition finalizeMutation (claim : Claim) (task : Task) (raw : string) (conditions : list Condition) (entries : list Entry)
    (keys : list Key) (removeMembers : list SetMembers) : Mutation :=
  MkMutation (conditions ++ [MkCondition (kvTaskKey (r_DeletionID (t_Record claim))) (Some raw)])
    entries keys [] removeMembers [] (kvTaskIndexChanges (Some task) None).2.

Definition KVSource_FinalizeGuarded s (claim : Claim) (now : Time) (conditions : list Condition) (entries : list Entry)
    (deleteKeys : list Key) (removeMembers : list SetMembers) : ST W pdError unit :=
  _ ← lift (each (fun c => validateFinalizeDomainKey (cond_Key c)) conditions);
  _ ← lift (validateTaskSource s);
  _ ← lift (ValidateTask claim);
  _ ← checkST (negb (bool_decide (t_Source claim = s_SourceName s)) || negb (owns s (r_Kind (t_Record claim)))) PDConflict;
  loaded ← mapErrST (fun e => if isPDNotFound e then PDConflict else e) (loadTask s (r_DeletionID (t_Record claim)));
  let '(task, raw) := loaded in
  _ ← checkST (leaseLost task claim now) PDConflict;
  locatorRecord ← mapErrST (fun e => if isKVNotFound e then PDConflict else e)
                    (GetByLocator (s_Store s) (r_Kind (t_Record claim)) (r_ResourceID (t_Record claim)));
  _ ← checkST (negb (bool_decide (r_DeletionID locatorRecord = r_DeletionID (t_Record claim)))) PDConflict;
  fingerprint ← lift (StoredFingerprint locatorRecord);
  _ ← checkST (negb (bool_decide (fingerprint = t_MarkerFingerprint claim))) PDConflict;
  keys ← lift (kvFinalizeDeleteKeys (t_Record claim) deleteKeys);
  _ ← lift (checkFinalizeKeys keys entries removeMembers);
  matched ← kvM (kvApply (finalizeMutation claim task raw conditions entries keys removeMembers));
  checkST (negb matched) PDConflict.

Definition KVSource_FinalizeWithEntries s claim now entries deleteKeys removeMembers : ST W pdError unit :=
  KVSource_FinalizeGuarded s claim now [] entries deleteKeys removeMembers.

Definition KVSource_Finalize s claim now deleteKeys : ST W pdError unit :=
  KVSource_FinalizeWithEntries s claim now [] deleteKeys [].

Definition KVSource_ScanDue s (now : Time) (limit : Z) (cursor : string) : ST W pdError (list Reference * string) :=
  scanIndexedDue s now limit cursor.

Definition KVSource_Validate s : Go pdError unit := validateTaskSource s.

(** ** Listing *)

(** The lower bound of the range query. *)
Definition listAfter s (o : SourceListOptions) : option string :=
  let start := formatIndexTime <$> o_StartTime o in
  match o_AfterCreatedAt o with
  | None => start
  | Some created =>
      let base := formatIndexTime created in
      let after :=
        if ltStr (s_SourceName s) (o_AfterSource o) then base +:+ String "255" EmptyString
        else if bool_decide (s_SourceName s = o_AfterSource o)
             then base +:+ String "/" (o_AfterDeletionID o +:+ String "/" (String "255" EmptyString))
             else base in
      match start with
      | Some q => if ltStr q after then Some after else Some q
      | None => Some after
      end
  end.

Definition createdKeys s (o : SourceListOptions) : list Key :=
  kind ← filter (fun k => o_Kinds o = [] \/ k ∈ o_Kinds o) (s_OwnedKinds s);
  status ← filter (fun x => o_Statuses o = [] \/ x ∈ o_Statuses o) [StatusQueued; StatusRunning; StatusRetryWait; StatusFailed];
  map (kvCreatedIndexKey kind status) shards.

(** The loop over the members: skip vanished or non-matching tasks, stop at the limit. *)
Fixpoint listLoop s (o : SourceListOptions) (members : list string) (tasks : list Task) : ST W pdError (list Task) :=
  match members with
  | [] => mret tasks
  | member :: rest =>
      p ← lift (parseKVIndexMember member);
      let '(_, id, fingerprint) := p in
      r ← tryST (loadTask s id);
      match r with
      | inl e => if isPDNotFound e then listLoop s o rest tasks else failST e
      | inr (task, _) =>
          if negb (bool_decide (t_MarkerFingerprint task = fingerprint)) || negb (taskMatches task o) then listLoop s o rest tasks
          else
            let tasks := tasks ++ [task] in
            if Z.of_nat (length tasks) =? o_Limit o then mret tasks else listLoop s o rest tasks
      end
  end.

Definition listIndexedTasks s (o : SourceListOptions) : ST W pdError (list Task) :=
  _ ← lift (validateTaskSource s);
  _ ← checkST (o_Limit o <=? 0) (PDInvalid "list limit must be positive");
  let query := MkOrderedRange (listAfter s o) (formatIndexTime <$> o_EndTime o) (o_Limit o + 1) in
  members ← readKVTaskIndexes (createdKeys s o) query;
  listLoop s o members [].

Definition KVSource_ListTasks s (o : SourceListOptions) : ST W pdError (list Task) := listIndexedTasks s o.
End task.
