(* ===== verification/PDRetry.v ===== *)
(** * pendingdeletion: retry delays and recovery backoff

    The delays of retries, and the bounded cache of recovery probes.

    [retryDelay] of [src/pkgs/gizclaw/services/system/pendingdeletion/retry.go], in
    binary64 arithmetic as the source computes it.  Durations are nanoseconds. *)

From stdpp Require Import tactics numbers list gmap strings.
From Stdlib Require Import SpecFloat.
From S2P Require Import Prelude GoStrings KVKey GoFloat PDTypes PDTask.

Open Scope Z_scope.

(** [random] is the 64-bit word read, [None] a read error. *)
Definition retryFactor (random : option Z) : spec_float :=
  match random with
  | None => f64 1 0
  | Some word => f64Add (f64 3 (-2)) (f64Div (f64 (word mod 2501) 0) (f64 10000 0))
  end.

Definition retryDelay (initial maximum failures : Z) (random : option Z) : Z :=
  let failures := if failures <? 1 then 1 else failures in
  let power := Z.min (failures - 1) 30 in
  let delay := f64Mul (f64 initial 0) (f64 (2 ^ power) 0) in
  let delay := if f64Gt delay (f64 maximum 0) then f64 maximum 0 else delay in
  f64Trunc (f64Mul delay (retryFactor random)).

(** ** Bounds *)
Lemma factors_checked : forallb (fun k => f64Factor (retryFactor (Some (Z.of_nat k)))) (seq 0 2501) = true.
Proof. vm_compute. reflexivity. Qed.

Lemma retryFactor_range random : f64Factor (retryFactor random) = true.
Proof.
  destruct random as [word|]; [|reflexivity]. pose proof (Z.mod_pos_bound word 2501 ltac:(lia)) as Hb.
  pose proof factors_checked as HF. rewrite forallb_forall in HF. specialize (HF (Z.to_nat (word mod 2501))).
  rewrite in_seq in HF. specialize (HF ltac:(lia)). unfold retryFactor in *. rewrite Z2Nat.id in HF by lia. by rewrite Z.mod_mod in HF.
Qed.

(** The delay before jitter. *)
Definition backoffDelay (initial maximum failures : Z) : Z :=
  Z.min (initial * 2 ^ Z.min (Z.max failures 1 - 1) 30) maximum.

Lemma delay_exact initial maximum p :
  0 < initial < 2 ^ 53 -> 0 < maximum < 2 ^ 53 -> 0 <= p <= 30 ->
  (let delay := f64Mul (f64 initial 0) (f64 (2 ^ p) 0) in if f64Gt delay (f64 maximum 0) then f64 maximum 0 else delay) =
  f64 (Z.min (initial * 2 ^ p) maximum) 0.
Proof.
  intros Hi Hm Hp. cbn zeta. rewrite f64Mul_pow by lia. rewrite (f64_small maximum) at 1 by done.
  pose proof (digits_small _ Hi) as Di. pose proof (digits_small _ Hm) as Dm.
  destruct (digits_bounds initial ltac:(lia)) as [Pi _]. destruct (digits_bounds maximum ltac:(lia)) as [Pm _].
  assert (forall x, 0 < x < 2 ^ 53 -> Z.pos (Z.to_pos (x * 2 ^ (53 - Zdigits2 x))) = x * 2 ^ (53 - Zdigits2 x)) as HP.
  { intros x Hx. pose proof (digits_small _ Hx). rewrite Z2Pos.id; [done|]. pose proof (Z.pow_pos_nonneg 2 (53 - Zdigits2 x)). nia. }
  rewrite (f64Gt_norm _ _ _ _ 53); [|by rewrite HP, digits_mul_pow by lia; lia..|lia|lia]. rewrite !HP by done.
  assert (forall x k, 0 < x < 2 ^ 53 -> 0 <= k -> x * 2 ^ (53 - Zdigits2 x) * 2 ^ (Zdigits2 x - 53 + k + 53) = x * 2 ^ k * 2 ^ 53) as HV.
  { intros x k Hx Hk. pose proof (digits_small _ Hx). destruct (digits_bounds x ltac:(lia)) as [Px _].
    rewrite <-!Z.mul_assoc, <-!Z.pow_add_r by lia. do 2 f_equal. lia. }
  rewrite (HV initial p) by lia. replace (Zdigits2 maximum - 53 + 53) with (Zdigits2 maximum - 53 + 0 + 53) by lia. rewrite (HV maximum 0) by lia.
  rewrite Z.pow_0_r, Z.mul_1_r.
  destruct (Z.ltb_spec (maximum * 2 ^ 53) (initial * 2 ^ p * 2 ^ 53)) as [Hlt|Hge].
  - rewrite Z.min_r by lia. done.
  - rewrite Z.min_l by lia. pose proof (Z.pow_pos_nonneg 2 p ltac:(lia) ltac:(lia)). rewrite f64_small by nia.
    assert (Zdigits2 (initial * 2 ^ p) <= 53) as HD by (apply digits_small; nia). rewrite digits_mul_pow in HD by lia.
    rewrite digits_mul_pow by lia. f_equal; [|lia]. f_equal. rewrite <-Z.mul_assoc, <-Z.pow_add_r by lia. do 2 f_equal. lia.
Qed.

Lemma retryDelay_range initial maximum failures random :
  0 < initial < 2 ^ 53 -> 0 < maximum < 2 ^ 53 ->
  3 * backoffDelay initial maximum failures / 4 <= retryDelay initial maximum failures random <= backoffDelay initial maximum failures /\
  backoffDelay initial maximum failures <= maximum.
Proof.
  intros Hi Hm. split; [|unfold backoffDelay; lia]. unfold retryDelay.
  replace (if failures <? 1 then 1 else failures) with (Z.max failures 1) by (destruct (Z.ltb_spec failures 1); lia).
  pose proof (delay_exact initial maximum (Z.min (Z.max failures 1 - 1) 30) Hi Hm ltac:(lia)) as HD. cbn zeta in HD |- *. rewrite HD. fold (backoffDelay initial maximum failures).
  apply f64Mul_factor; [|apply retryFactor_range]. unfold backoffDelay.
  pose proof (Z.pow_pos_nonneg 2 (Z.min (Z.max failures 1 - 1) 30) ltac:(lia) ltac:(lia)). nia.
Qed.

(** For positive durations below 104 days the delay is the initial one doubled
    with every failure (at most 30 times), cut at the maximum, times a factor
    between 3/4 and 1: retries back off exponentially and never exceed the maximum,
    whatever the random word and despite floating-point rounding. *)
Theorem retryDelay_bounds initial maximum failures random :
  0 < initial < 2 ^ 53 -> 0 < maximum < 2 ^ 53 ->
  3 * backoffDelay initial maximum failures / 4 <= retryDelay initial maximum failures random <= backoffDelay initial maximum failures /\
  backoffDelay initial maximum failures <= maximum.
Proof. apply retryDelay_range. Qed.

Lemma retryDelay_bounds_witness :
  retryDelay 5000000000 1800000000000 4 (Some 12345) = 39364000000 /\
  30000000000 <= retryDelay 5000000000 1800000000000 4 (Some 12345) <= 40000000000.
Proof.
  split; [vm_compute; reflexivity|]. apply (retryDelay_bounds 5000000000 1800000000000 4 (Some 12345)); lia.
Defined.

(** * pendingdeletion: the bounded cache of recovery probes

    [src/pkgs/gizclaw/services/system/pendingdeletion/recovery_backoff.go].  A probe
    is an object that the caller keeps a pointer to while its domain check runs, so
    probes live in a heap and are named by their address; the entry map and the
    recency list hold addresses.  A list element carries exactly one probe, and is
    named by it.  Each method runs under the mutex.

    Theorems: the cache never exceeds its capacity, the map and the recency list hold
    the same probes, a probe in flight is never evicted or handed out again, and a
    retained observation is not probed before its delay has passed. *)

Definition failedRecoveryCacheCapacity : Z := 4096.
Definition failedRecoveryRetryInitial : Z := 30 * 1000000000.
Definition failedRecoveryRetryMax : Z := 30 * 60 * 1000000000.

(** The source and the deletion identifier. *)
Abbreviation failedRecoveryKey := (string * string)%type.

Record failedRecoveryProbe := MkProbe {
  p_key : failedRecoveryKey;
  p_observed : Task;
  p_next : Time;
  p_failures : Z;
  p_inFlight : bool;
  p_warned : bool;
  p_lastCode : string
}.

Record failedRecoveryBackoff := MkBackoff {
  b_probes : gmap nat failedRecoveryProbe;  (** every probe allocated so far *)
  b_entries : gmap failedRecoveryKey nat;
  b_order : list nat;  (** most recently used first *)
  b_capacity : Z
}.

Definition emptyBackoff (capacity : Z) : failedRecoveryBackoff := MkBackoff ∅ ∅ [] capacity.

(** ** Methods *)
Definition removeProbe (addr : nat) (probe : failedRecoveryProbe) (b : failedRecoveryBackoff) : failedRecoveryBackoff :=
  MkBackoff (b_probes b) (delete (p_key probe) (b_entries b)) (filter (fun x => x <> addr) (b_order b)) (b_capacity b).

Definition moveToFront (addr : nat) (order : list nat) : list nat := addr :: filter (fun x => x <> addr) order.

Definition setProbe (addr : nat) (probe : failedRecoveryProbe) (b : failedRecoveryBackoff) : failedRecoveryBackoff :=
  MkBackoff (<[addr := probe]> (b_probes b)) (b_entries b) (b_order b) (b_capacity b).

(** The probe without its payload: only the deletion identifier of the record is kept. *)
Definition observedOf (task : Task) : Task :=
  let r := MkRecord (r_DeletionID (t_Record task)) "" "" "" 0 None 0 "" in
  MkTask (t_Source task) r (t_MarkerFingerprint task) (t_Status task) (t_Phase task) (t_FailureCount task) (t_NextAttemptAt task)
    (t_LeaseToken task) (t_LeaseDeadline task) (t_LastErrorCode task) (t_LastErrorMessage task) (t_UpdatedAt task).

Definition setInFlight (inFlight : bool) (p : failedRecoveryProbe) : failedRecoveryProbe :=
  MkProbe (p_key p) (p_observed p) (p_next p) (p_failures p) inFlight (p_warned p) (p_lastCode p).

Definition capacityOf (b : failedRecoveryBackoff) : Z :=
  if b_capacity b <=? 0 then failedRecoveryCacheCapacity else b_capacity b.

Definition isIdle (b : failedRecoveryBackoff) (addr : nat) : Prop :=
  match b_probes b !! addr with Some p => p_inFlight p = false | None => False end.
#[export] Instance isIdle_dec b addr : Decision (isIdle b addr).
Proof. unfold isIdle. destruct (b_probes b !! addr); apply _. Defined.

(** The search from the back of the recency list for a probe that is not in flight. *)
Definition findEvicted (b : failedRecoveryBackoff) : option nat := head (filter (isIdle b) (reverse (b_order b))).

(** The part of [begin] after the old entry of the key is gone. *)
Definition insertProbe (key : failedRecoveryKey) (task : Task) (b : failedRecoveryBackoff) : failedRecoveryBackoff * option nat :=
  let room :=
    if capacityOf b <=? Z.of_nat (size (b_entries b)) then
      match findEvicted b with
      | Some addr => match b_probes b !! addr with Some p => Some (removeProbe addr p b) | None => None end
      | None => None
      end
    else Some b in
  match room with
  | None => (b, None)
  | Some b =>
      let addr := fresh (dom (b_probes b)) in
      let probe := MkProbe key (observedOf task) 0 0 true false "" in
      (MkBackoff (<[addr := probe]> (b_probes b)) (<[key := addr]> (b_entries b)) (addr :: b_order b) (b_capacity b), Some addr)
  end.

Definition begin (task : Task) (now : Time) (b : failedRecoveryBackoff) : failedRecoveryBackoff * option nat :=
  let key := (t_Source task, r_DeletionID (t_Record task)) in
  match b_entries b !! key with
  | Some addr =>
      match b_probes b !! addr with
      | Some previous =>
          if p_inFlight previous then (b, None)
          else if sameFailedObservation (p_observed previous) task then
            let b := MkBackoff (b_probes b) (b_entries b) (moveToFront addr (b_order b)) (b_capacity b) in
            if now <? p_next previous then (b, None) else (setProbe addr (setInFlight true previous) b, Some addr)
          else insertProbe key task (removeProbe addr previous b)
      | None => insertProbe key task b
      end
  | None => insertProbe key task b
  end.

Definition shouldWarn (addr : nat) (code : string) (b : failedRecoveryBackoff) : failedRecoveryBackoff * bool :=
  match b_probes b !! addr with
  | None => (b, false)
  | Some probe =>
      if negb (bool_decide (b_entries b !! p_key probe = Some addr)) || (p_warned probe && bool_decide (p_lastCode probe = code)) then (b, false)
      else (setProbe addr (MkProbe (p_key probe) (p_observed probe) (p_next probe) (p_failures probe) (p_inFlight probe) true code) b, true)
  end.

(** [end]; [random] is the word read for the jitter. *)
Definition end_ (addr : nat) (now : Time) (retained : bool) (random : option Z) (b : failedRecoveryBackoff) : failedRecoveryBackoff :=
  match b_probes b !! addr with
  | None => b
  | Some probe =>
      let delay := if retained then retryDelay failedRecoveryRetryInitial failedRecoveryRetryMax (p_failures probe + 1) random else 0 in
      if negb (bool_decide (b_entries b !! p_key probe = Some addr)) then b
      else if negb retained then removeProbe addr probe b
      else setProbe addr (MkProbe (p_key probe) (p_observed probe) (now + delay) (Z.min (p_failures probe + 1) 31) false (p_warned probe) (p_lastCode probe)) b
  end.

(** ** Invariant *)
Record cacheInv (b : failedRecoveryBackoff) : Prop := {
  ci_probe key addr : b_entries b !! key = Some addr -> exists p, b_probes b !! addr = Some p /\ p_key p = key;
  ci_order addr : addr ∈ b_order b <-> exists key, b_entries b !! key = Some addr;
  ci_nodup : NoDup (b_order b);
  ci_size : Z.of_nat (size (b_entries b)) <= capacityOf b
}.

(** The probe is reserved: in the cache and in flight. *)
Definition reserved (b : failedRecoveryBackoff) (addr : nat) : Prop :=
  exists p, b_probes b !! addr = Some p /\ b_entries b !! p_key p = Some addr /\ p_inFlight p = true.

Lemma emptyBackoff_inv capacity : cacheInv (emptyBackoff capacity).
Proof.
  split; cbn; [done| |constructor|].
  - intros addr. split; [by intros ?%not_elem_of_nil|by intros (? & ?)].
  - rewrite map_size_empty. unfold capacityOf, failedRecoveryCacheCapacity. cbn. destruct (Z.leb_spec capacity 0); lia.
Qed.

Lemma removeProbe_inv b addr p :
  cacheInv b -> b_probes b !! addr = Some p -> b_entries b !! p_key p = Some addr -> cacheInv (removeProbe addr p b).
Proof.
  intros HI Hp He. split; cbn.
  - intros key a [Hne Ha]%lookup_delete_Some. by apply (ci_probe b HI).
  - intros a. rewrite list_elem_of_filter, (ci_order b HI). split.
    + intros [Hne (key & Hk)]. exists key. apply lookup_delete_Some. split; [|done]. intros EQ. congruence.
    + intros (key & [Hne Hk]%lookup_delete_Some). split; [|by exists key]. intros ->. apply Hne.
      destruct (ci_probe b HI _ _ Hk) as (q & Hq & <-). congruence.
  - apply NoDup_filter, HI.
  - change (capacityOf (removeProbe addr p b)) with (capacityOf b). pose proof (ci_size b HI). rewrite map_size_delete, He. cbn. lia.
Qed.

(** Removing one probe keeps the reservations of the others. *)
Lemma removeProbe_reserved b addr p a :
  b_probes b !! addr = Some p -> b_entries b !! p_key p = Some addr -> a <> addr -> reserved b a -> reserved (removeProbe addr p b) a.
Proof.
  intros Hp He Hne (q & Hq & Hk & Hf). exists q. cbn. split_and!; [done| |done]. apply lookup_delete_Some. split; [|done]. intros EQ. congruence.
Qed.

Lemma findEvicted_spec b addr :
  cacheInv b -> findEvicted b = Some addr ->
  exists p, b_probes b !! addr = Some p /\ b_entries b !! p_key p = Some addr /\ p_inFlight p = false.
Proof.
  intros HI Hf. unfold findEvicted in Hf. apply head_Some_elem_of, list_elem_of_filter in Hf as [Hid Hin].
  rewrite elem_of_reverse in Hin. apply (ci_order b HI) in Hin as (key & Hk). destruct (ci_probe b HI _ _ Hk) as (p & Hp & <-).
  exists p. split_and!; [done|done|]. unfold isIdle in Hid. by rewrite Hp in Hid.
Qed.

(** What [begin] promises about a cache that satisfies the invariant. *)
Definition beginOk (b b' : failedRecoveryBackoff) (r : option nat) : Prop :=
  cacheInv b' /\ b_capacity b' = b_capacity b /\
  (forall a, reserved b a -> reserved b' a) /\
  (forall a, r = Some a -> reserved b' a /\ ~ reserved b a) /\
  (forall a, reserved b' a -> reserved b a \/ r = Some a).

Lemma beginOk_same b : cacheInv b -> beginOk b b None.
Proof. intros HI. split_and!; auto. done. Qed.

Lemma capacityOf_pos b : 0 < capacityOf b.
Proof. unfold capacityOf, failedRecoveryCacheCapacity. destruct (Z.leb_spec (b_capacity b) 0); lia. Qed.

(** Adding a probe for an absent key when there is room. *)
Lemma push_ok b key task :
  cacheInv b -> b_entries b !! key = None -> Z.of_nat (size (b_entries b)) < capacityOf b ->
  let addr := fresh (dom (b_probes b)) in
  let probe := MkProbe key (observedOf task) 0 0 true false "" in
  beginOk b (MkBackoff (<[addr := probe]> (b_probes b)) (<[key := addr]> (b_entries b)) (addr :: b_order b) (b_capacity b)) (Some addr).
Proof.
  intros HI Hkey Hroom addr probe. assert (b_probes b !! addr = None) as Hfresh.
  { apply not_elem_of_dom. apply is_fresh. }
  assert (forall k, b_entries b !! k <> Some addr) as Hnone.
  { intros k Hk. destruct (ci_probe b HI _ _ Hk) as (p & Hp & _). congruence. }
  assert (addr ∉ b_order b) as Hord by (rewrite (ci_order b HI); by intros (k & ?%Hnone)).
  split_and!.
  - split; cbn.
    + intros k a. destruct (decide (k = key)) as [->|Hne].
      * rewrite lookup_insert_eq. intros [= <-]. exists probe. by rewrite lookup_insert_eq.
      * rewrite lookup_insert_ne by done. intros Ha. rewrite lookup_insert_ne by (intros ->; by eapply Hnone). by apply (ci_probe b HI).
    + intros a. rewrite elem_of_cons, (ci_order b HI). split.
      * intros [->|(k & Hk)]; [exists key; by rewrite lookup_insert_eq|]. exists k. rewrite lookup_insert_ne; [done|]. intros ->. congruence.
      * intros (k & Hk). destruct (decide (k = key)) as [->|Hne]; [rewrite lookup_insert_eq in Hk; left; congruence|].
        rewrite lookup_insert_ne in Hk by done. right. by exists k.
    + constructor; [done|apply HI].
    + change (capacityOf (MkBackoff _ _ _ (b_capacity b))) with (capacityOf b). rewrite map_size_insert, Hkey. lia.
  - done.
  - intros a (p & Hp & Hk & Hf). exists p. cbn. rewrite lookup_insert_ne by congruence. rewrite lookup_insert_ne; [done|]. intros ->. congruence.
  - intros a [= <-]. split; [exists probe; cbn; by rewrite !lookup_insert_eq|]. intros (p & Hp & _). congruence.
  - intros a (p & Hp & Hk & Hf). cbn in Hp, Hk. destruct (decide (a = addr)) as [->|Hne]; [by right|left].
    rewrite lookup_insert_ne in Hp by done. exists p. split_and!; [done| |done]. destruct (decide (p_key p = key)) as [EQ|Hnk].
    + rewrite EQ, lookup_insert_eq in Hk. congruence.
    + by rewrite lookup_insert_ne in Hk.
Qed.

Lemma removeProbe_unreserved b addr p a : reserved (removeProbe addr p b) a -> reserved b a.
Proof. intros (q & Hq & Hk & Hf). cbn in Hk. apply lookup_delete_Some in Hk as [_ Hk]. by exists q. Qed.

Lemma beginOk_idle b addr p b' r :
  b_probes b !! addr = Some p -> b_entries b !! p_key p = Some addr -> p_inFlight p = false ->
  beginOk (removeProbe addr p b) b' r -> beginOk b b' r.
Proof.
  intros Hp He Hf (H1 & H2 & H3 & H4 & H5). assert (~ reserved b addr) as Hnr by (intros (q & Hq & _ & Hfq); congruence).
  assert (forall a, reserved b a -> reserved (removeProbe addr p b) a) as Hkeep.
  { intros a Ha. apply removeProbe_reserved; [done|done| |done]. by intros ->. }
  split_and!; [done|done|auto| |].
  - intros a Ha. destruct (H4 a Ha) as [Hr Hn]. split; [done|]. intros Hb. by apply Hn, Hkeep.
  - intros a Ha. destruct (H5 a Ha) as [Hr|Hr]; [left; by eapply removeProbe_unreserved|by right].
Qed.

Lemma insertProbe_ok key task b b' r :
  cacheInv b -> b_entries b !! key = None -> insertProbe key task b = (b', r) -> beginOk b b' r.
Proof.
  intros HI Hkey EQ. unfold insertProbe in EQ. destruct (Z.leb_spec (capacityOf b) (Z.of_nat (size (b_entries b)))) as [Hfull|Hroom].
  - destruct (findEvicted b) as [addr|] eqn:Hf; [|injection EQ as <- <-; by apply beginOk_same].
    destruct (findEvicted_spec b addr HI Hf) as (p & Hp & He & Hidle). rewrite Hp in EQ. injection EQ as <- <-.
    apply (beginOk_idle b addr p); [done..|]. apply (push_ok (removeProbe addr p b) key task); [by apply removeProbe_inv|cbn; rewrite lookup_delete_None; auto|].
    change (capacityOf (removeProbe addr p b)) with (capacityOf b). cbn. rewrite map_size_delete, He. pose proof (ci_size b HI). pose proof (capacityOf_pos b). cbn. lia.
  - injection EQ as <- <-. by apply push_ok.
Qed.

(** Changing a probe in place keeps the structure of the cache. *)
Lemma setProbe_inv b addr p q : cacheInv b -> b_probes b !! addr = Some p -> p_key q = p_key p -> cacheInv (setProbe addr q b).
Proof.
  intros HI Hp Hk. split; cbn; [|apply HI..]. intros key a Ha. destruct (ci_probe b HI _ _ Ha) as (p0 & Hp0 & <-).
  destruct (decide (a = addr)) as [->|Hne]; [|by exists p0; rewrite lookup_insert_ne].
  exists q. rewrite lookup_insert_eq. split; [done|]. congruence.
Qed.

Lemma setProbe_reserved b addr p q a :
  b_probes b !! addr = Some p -> p_key q = p_key p -> a <> addr \/ p_inFlight q = true -> reserved b a -> reserved (setProbe addr q b) a.
Proof.
  intros Hp Hk Ha (p0 & Hp0 & He & Hf). destruct (decide (a = addr)) as [->|Hne].
  - rewrite Hp in Hp0. injection Hp0 as <-. exists q. cbn. rewrite lookup_insert_eq, Hk. destruct Ha; [done|]. done.
  - exists p0. cbn. by rewrite lookup_insert_ne.
Qed.

Lemma setProbe_unreserved b addr p q a :
  b_probes b !! addr = Some p -> p_key q = p_key p -> reserved (setProbe addr q b) a -> reserved b a \/ a = addr.
Proof.
  intros Hp Hk (p0 & Hp0 & He & Hf). cbn in Hp0, He. destruct (decide (a = addr)) as [->|Hne]; [by right|left].
  rewrite lookup_insert_ne in Hp0 by done. by exists p0.
Qed.

Lemma moveToFront_inv b addr key :
  cacheInv b -> b_entries b !! key = Some addr ->
  cacheInv (MkBackoff (b_probes b) (b_entries b) (moveToFront addr (b_order b)) (b_capacity b)).
Proof.
  intros HI Hk. split; cbn; [apply HI| | |apply HI].
  - intros a. unfold moveToFront. rewrite elem_of_cons, list_elem_of_filter, (ci_order b HI). split.
    + intros [->|[_ ?]]; [by exists key|done].
    + intros Ha. destruct (decide (a = addr)); auto.
  - constructor; [rewrite list_elem_of_filter; tauto|apply NoDup_filter, HI].
Qed.

Lemma begin_ok task now b b' r : cacheInv b -> begin task now b = (b', r) -> beginOk b b' r.
Proof.
  intros HI EQ. unfold begin in EQ. set (key := (t_Source task, r_DeletionID (t_Record task))) in *.
  destruct (b_entries b !! key) as [addr|] eqn:Hk; [|by eapply insertProbe_ok].
  destruct (ci_probe b HI _ _ Hk) as (p & Hp & Hpk). rewrite Hp in EQ. rewrite <-Hpk in Hk.
  destruct (p_inFlight p) eqn:Hf; [injection EQ as <- <-; by apply beginOk_same|].
  destruct (sameFailedObservation (p_observed p) task).
  - set (b1 := MkBackoff _ _ _ _) in *. assert (cacheInv b1) as HI1 by (by eapply moveToFront_inv).
    destruct (now <? p_next p); injection EQ as <- <-.
    + split_and!; [done|done|auto|done|auto].
    + split_and!; [by eapply setProbe_inv|done| | |].
      * intros a Ha. apply (setProbe_reserved b1 addr p); auto.
      * intros a [= <-]. split; [exists (setInFlight true p); cbn; by rewrite lookup_insert_eq|]. intros (q & Hq & _ & Hfq). congruence.
      * intros a Ha. apply (setProbe_unreserved b1 addr p) in Ha as [Ha| ->]; [by left|by right|done|done].
  - apply (beginOk_idle b addr p); [done..|]. eapply insertProbe_ok; [by apply removeProbe_inv| |exact EQ].
    cbn. rewrite <-Hpk. apply lookup_delete_None. by left.
Qed.

(** ** Executions *)
Inductive cacheCall :=
  | CBegin (task : Task) (now : Time)
  | CWarn (addr : nat) (code : string)
  | CEnd (addr : nat) (now : Time) (retained : bool) (random : option Z).

Definition cacheStep (b : failedRecoveryBackoff) (c : cacheCall) : failedRecoveryBackoff :=
  match c with
  | CBegin task now => (begin task now b).1
  | CWarn addr code => (shouldWarn addr code b).1
  | CEnd addr now retained random => end_ addr now retained random b
  end.

Definition isEndOf (c : cacheCall) (a : nat) : Prop := match c with CEnd addr _ _ _ => addr = a | _ => False end.

Lemma cacheStep_ok b c :
  cacheInv b -> cacheInv (cacheStep b c) /\ b_capacity (cacheStep b c) = b_capacity b /\
  (forall a, reserved b a -> ~ isEndOf c a -> reserved (cacheStep b c) a).
Proof.
  intros HI. destruct c as [task now|addr code|addr now retained random]; cbn [cacheStep isEndOf].
  - destruct (begin task now b) as [b' r] eqn:EQ. destruct (begin_ok _ _ _ _ _ HI EQ) as (H1 & H2 & H3 & _). split_and!; auto.
  - unfold shouldWarn. destruct (b_probes b !! addr) as [p|] eqn:Hp; [|by split_and!]. destruct (_ || _); [by split_and!|]. cbn [fst].
    split_and!; [by eapply setProbe_inv|done|]. intros a Ha _. eapply setProbe_reserved; [done|done| |done].
    destruct (decide (a = addr)) as [->|]; [right|by left]. destruct Ha as (q & Hq & _ & Hf). cbn. congruence.
  - unfold end_. destruct (b_probes b !! addr) as [p|] eqn:Hp; [|by split_and!].
    destruct (bool_decide (b_entries b !! p_key p = Some addr)) eqn:He; cbn [negb]; [|by split_and!]. apply bool_decide_eq_true in He.
    destruct retained; cbn [negb].
    + split_and!; [by eapply setProbe_inv|done|]. intros a Ha Hne. eapply setProbe_reserved; [done|done| |done]. left. by intros ->.
    + split_and!; [by apply removeProbe_inv|done|]. intros a Ha Hne. apply removeProbe_reserved; [done|done| |done]. by intros ->.
Qed.

(** Whatever sequence of calls is made on a new cache: the number of entries
    never exceeds the capacity, the recency list holds exactly the cached probes,
    each once, and a probe in flight stays cached and in flight until its own [end]:
    it is neither evicted nor handed out again. *)
Theorem Backoff_reservations capacity calls c :
  let b := foldl cacheStep (emptyBackoff capacity) calls in
  cacheInv b /\ Z.of_nat (size (b_entries b)) <= (if capacity <=? 0 then 4096 else capacity) /\
  (forall a, reserved b a -> ~ isEndOf c a -> reserved (cacheStep b c) a) /\
  (forall task now a, (begin task now b).2 = Some a -> ~ reserved b a /\ reserved (begin task now b).1 a).
Proof.
  intros b. assert (cacheInv b /\ b_capacity b = capacity) as [HI HC].
  { unfold b. clear b. induction calls as [|x calls IH] using rev_ind; [split; [apply emptyBackoff_inv|done]|].
    rewrite foldl_app. destruct IH as [IH1 IH2]. destruct (cacheStep_ok _ x IH1) as (H1 & H2 & _). cbn. split; [done|congruence]. }
  split_and!; [done| | |].
  - pose proof (ci_size b HI) as HS. unfold capacityOf in HS. by rewrite HC in HS.
  - apply cacheStep_ok, HI.
  - intros task now a Ha. destruct (begin task now b) as [b' r] eqn:EQ. destruct (begin_ok _ _ _ _ _ HI EQ) as (_ & _ & _ & H4 & _).
    cbn in Ha. destruct (H4 a Ha). done.
Qed.

(** After a rejected probe is returned, the same observation is not probed
    again before three quarters of its backoff delay (30 s doubled per failure, at
    most 30 min) have passed, and is probed again from the full delay on. *)
Theorem Backoff_waits b addr p task t now random :
  cacheInv b -> b_probes b !! addr = Some p -> b_entries b !! p_key p = Some addr ->
  p_key p = (t_Source task, r_DeletionID (t_Record task)) -> sameFailedObservation (p_observed p) task = true ->
  let delay := backoffDelay failedRecoveryRetryInitial failedRecoveryRetryMax (p_failures p + 1) in
  let r := (begin task now (end_ addr t true random b)).2 in
  (now < t + 3 * delay / 4 -> r = None) /\ (t + delay <= now -> r = Some addr).
Proof.
  intros HI Hp He Hk Hobs delay r. subst r. unfold end_. rewrite Hp, He, bool_decide_eq_true_2 by done. cbn [negb].
  set (d := retryDelay _ _ _ _). assert (3 * delay / 4 <= d <= delay) as Hd.
  { apply (retryDelay_range failedRecoveryRetryInitial failedRecoveryRetryMax); done. }
  unfold begin. cbn [setProbe b_entries b_probes]. rewrite <-Hk, He, lookup_insert_eq. cbn [p_inFlight p_observed p_next]. rewrite Hobs.
  split; intros Hnow; destruct (Z.ltb_spec now (t + d)); [done|lia|lia|done].
Qed.

(** A failed task probed once at instant 100. *)
Definition exFailed : Task :=
  MkTask "peers" (MkRecord "id-1" KindPeer "device-1" ReasonAdminDelete 10 None 1 "{}") "fp" StatusFailed PhaseFinalize 3 90 "" 0 "code" "message" 90.
Definition exProbed : failedRecoveryBackoff := (begin exFailed 100 (emptyBackoff 2)).1.

Lemma Backoff_waits_witness :
  (begin exFailed 100 (emptyBackoff 2)).2 = Some 0%nat /\
  (begin exFailed 1000 (end_ 0 100 true (Some 7) exProbed)).2 = None /\
  (begin exFailed 40000000000 (end_ 0 100 true (Some 7) exProbed)).2 = Some 0%nat.
Proof.
  assert (cacheInv exProbed) as HI.
  { unfold exProbed. destruct (begin exFailed 100 (emptyBackoff 2)) as [b r] eqn:EQ. by apply (begin_ok _ _ _ _ _ (emptyBackoff_inv 2)) in EQ as [? _]. }
  split; [reflexivity|]. split.
  - apply (Backoff_waits exProbed 0 (MkProbe ("peers", "id-1")%string (observedOf exFailed) 0 0 true false "") exFailed 100 1000 (Some 7)); [exact HI|reflexivity..].
  - apply (Backoff_waits exProbed 0 (MkProbe ("peers", "id-1")%string (observedOf exFailed) 0 0 true false "") exFailed 100 40000000000 (Some 7));
      [exact HI|reflexivity..|]. vm_compute. discriminate.
Defined.
