(* ===== verification/PDRegistry.v ===== *)
(** * pendingdeletion: sources, handlers and their registry

    [src/pkgs/gizclaw/services/system/pendingdeletion/registry.go] and the interfaces
    [Source], [Handler], [TaskAdmission], [FailedRecovery], [FailedRecoverySource] of
    task.go.  An interface value is the record of its methods; an interface that a
    value may or may not implement is an [option].  A source works on a world [W];
    the random bytes a claim draws are an argument of it.

    Theorem: whatever is registered, every registered source has a well-formed unique
    name and exactly one handler for each of its kinds, so lookups for its tasks
    succeed. *)

From stdpp Require Import gmap strings list.
From S2P Require Import Prelude GoStrings GoText KVKey PDTypes PDTask.

Open Scope Z_scope.

(** What [errors.Is] and [errors.As] answer about an error of a handler. *)
Record handlerError := MkHandlerError {
  he_Text : string;
  he_NotLocal : bool;              (** [errors.Is(err, ErrNotLocal)] *)
  he_Canceled : bool;              (** it is a cancellation or a deadline *)
  he_Outcome : option OutcomeError (** [errors.As(err, *OutcomeError)] *)
}.

Record Source (W : Type) := MkSource {
  src_Nil : bool;
  src_Name : string;
  src_Kinds : list Kind;
  src_Validate : option (Go pdError unit);
  src_ScanDue : Time -> Z -> string -> ST W pdError (list Reference * string);
  src_Claim : option string -> Reference -> Time -> Z -> ST W pdError (option Claim);
  src_Renew : Claim -> Time -> Z -> ST W pdError unit;
  src_Defer : Claim -> string -> string -> Time -> Time -> ST W pdError unit;
  src_Fail : Claim -> string -> string -> bool -> Time -> Time -> Z -> ST W pdError unit;
  src_GetTask : string -> ST W pdError Task;
  src_ListTasks : SourceListOptions -> ST W pdError (list Task);
  src_Retry : string -> Time -> ST W pdError Task;
  src_RetryFailed : option (Task -> Time -> ST W pdError Task)
}.

Record Handler (W : Type) := MkHandler {
  h_Nil : bool;
  h_Kind : Kind;
  h_CheckTask : option (Task -> W -> option handlerError);
  h_CanRecoverFailed : option (Task -> W -> Go handlerError bool)
}.

Arguments src_Nil {W} _.
Arguments src_Name {W} _.
Arguments src_Kinds {W} _.
Arguments src_Validate {W} _.
Arguments src_ScanDue {W} _.
Arguments src_Claim {W} _.
Arguments src_Renew {W} _.
Arguments src_Defer {W} _.
Arguments src_Fail {W} _.
Arguments src_GetTask {W} _.
Arguments src_ListTasks {W} _.
Arguments src_Retry {W} _.
Arguments src_RetryFailed {W} _.
Arguments h_Nil {W} _.
Arguments h_Kind {W} _.
Arguments h_CheckTask {W} _.
Arguments h_CanRecoverFailed {W} _.

Section registry.
Context {W : Type}.

Record registration := MkRegistration {
  reg_source : Source W;
  reg_handlers : gmap Kind (Handler W)
}.

Local Abbreviation Registry := (gmap string registration).
Definition NewRegistry : Registry := ∅.

(** The loop over the advertised kinds. *)
Definition addKind (owned : gset Kind) (kind : Kind) : Go pdError (gset Kind) :=
  _ ← check (negb (Kind_valid kind) || bool_decide (kind ∈ owned)) (PDText "pending deletion: source has invalid or duplicate kind");
  Ret ({[ kind ]} ∪ owned).

(** The loop over the handlers. *)
Definition addHandler (source : Source W) (owned : gset Kind) (byKind : gmap Kind (Handler W)) (handler : Handler W) : Go pdError (gmap Kind (Handler W)) :=
  _ ← check (h_Nil handler) (PDText "pending deletion: source has nil handler");
  _ ← check (bool_decide (is_Some (h_CanRecoverFailed handler)) && negb (bool_decide (is_Some (src_RetryFailed source))))
        (PDText "pending deletion: source lacks conditional failed recovery");
  _ ← check (bool_decide (h_Kind handler ∉ owned)) (PDText "pending deletion: source handler owns unadvertised kind");
  _ ← check (bool_decide (is_Some (byKind !! h_Kind handler))) (PDText "pending deletion: source has duplicate handler");
  Ret (<[h_Kind handler := handler]> byKind).

(** A nil registry is [None]; the map is updated under the lock at the end. *)
Definition Register (source : Source W) (handlers : list (Handler W)) (registry : option Registry) : Go pdError Registry :=
  match registry with
  | None => Fail (PDText "pending deletion: nil registry")
  | Some r =>
      _ ← check (src_Nil source) (PDText "pending deletion: nil source");
      _ ← match src_Validate source with
          | Some (Fail e) => Fail (PDWrap "pending deletion: validate source" e)
          | Some Panic => Panic
          | _ => Ret tt
          end;
      let name := src_Name source in
      _ ← check (negb (namePattern name) || negb (bool_decide (name = trimSpace name))) (PDText "pending deletion: invalid source name");
      owned ← foldGo addKind ∅ (src_Kinds source);
      _ ← check (bool_decide (owned = ∅)) (PDText "pending deletion: source has no kinds");
      byKind ← foldGo (addHandler source owned) ∅ handlers;
      _ ← check (negb (forallb (fun kind => bool_decide (is_Some (byKind !! kind))) (elements owned))) (PDText "pending deletion: source has no handler");
      _ ← check (bool_decide (is_Some (r !! name))) (PDText "pending deletion: duplicate source");
      Ret (<[name := MkRegistration source byKind]> r)
  end.

(** The source and, when there is one for the kind, the handler. *)
Definition lookupHandler (registry : option Registry) (source : string) (kind : Kind) : option (Source W * Handler W) :=
  r ← registry;
  entry ← r !! source;
  handler ← reg_handlers entry !! kind;
  Some (reg_source entry, handler).

Definition registrySources (registry : option Registry) : list (Source W) :=
  match registry with
  | None => []
  | Some r => omap (fun name => reg_source <$> r !! name) (sortStrings (elements (dom r)))
  end.

Definition registrySource (registry : option Registry) (name : string) : option (Source W) :=
  r ← registry; reg_source <$> r !! name.

(** ** What registration guarantees *)
Inductive registered : Registry -> Prop :=
  | registered_new : registered NewRegistry
  | registered_add source handlers r r' : registered r -> Register source handlers (Some r) = Ret r' -> registered r'.

Definition goodRegistration (name : string) (g : registration) : Prop :=
  src_Name (reg_source g) = name /\ namePattern name = true /\
  src_Kinds (reg_source g) <> [] /\ NoDup (src_Kinds (reg_source g)) /\ Forall (fun k => Kind_valid k = true) (src_Kinds (reg_source g)) /\
  (forall kind, kind ∈ src_Kinds (reg_source g) <-> is_Some (reg_handlers g !! kind)) /\
  (forall kind h, reg_handlers g !! kind = Some h ->
     h_Kind h = kind /\ h_Nil h = false /\ (is_Some (h_CanRecoverFailed h) -> is_Some (src_RetryFailed (reg_source g)))).

Lemma addKinds_spec ks owned owned' :
  foldGo addKind owned ks = Ret owned' ->
  NoDup ks /\ Forall (fun k => Kind_valid k = true) ks /\ (forall k, k ∈ ks -> k ∉ owned) /\ (forall k, k ∈ owned' <-> k ∈ ks \/ k ∈ owned).
Proof.
  revert owned. induction ks as [|k ks IH]; intros owned; cbn [foldGo].
  - intros [= <-]. split_and!; [constructor|constructor|by intros ? ?%not_elem_of_nil|]. intros k. rewrite elem_of_nil. tauto.
  - intros (o1 & H1 & H2)%bind_Ret. unfold addKind in H1.
    apply bind_Ret in H1 as ([] & [Hv%negb_false_iff Hn%bool_decide_eq_false]%check_Ret%orb_false_iff & [= <-]).
    apply IH in H2 as (I1 & I2 & I3 & I4). split_and!.
    + constructor; [|done]. intros Hin. specialize (I3 k Hin). set_solver.
    + by constructor.
    + intros x [->|Hx]%elem_of_cons; [done|]. specialize (I3 x Hx). set_solver.
    + intros x. rewrite I4, elem_of_cons. set_solver.
Qed.

Lemma addHandlers_spec source owned hs m m' :
  foldGo (addHandler source owned) m hs = Ret m' ->
  (forall kind h, m !! kind = Some h -> kind ∈ owned /\ h_Kind h = kind /\ h_Nil h = false /\ (is_Some (h_CanRecoverFailed h) -> is_Some (src_RetryFailed source))) ->
  forall kind h, m' !! kind = Some h -> kind ∈ owned /\ h_Kind h = kind /\ h_Nil h = false /\ (is_Some (h_CanRecoverFailed h) -> is_Some (src_RetryFailed source)).
Proof.
  revert m. induction hs as [|h hs IH]; intros m; cbn [foldGo]; [by intros [= <-]|].
  intros (m1 & H1 & H2)%bind_Ret HM. apply (IH m1 H2). unfold addHandler in H1.
  apply bind_Ret in H1 as ([] & Hnil%check_Ret & H1). apply bind_Ret in H1 as ([] & Hrec%check_Ret & H1).
  apply bind_Ret in H1 as ([] & Hown%check_Ret%bool_decide_eq_false & H1). apply bind_Ret in H1 as ([] & _ & [= <-]).
  intros kind x. destruct (decide (kind = h_Kind h)) as [->|Hne].
  - rewrite lookup_insert_eq. intros [= <-]. split_and!; [by apply dec_stable|done|done|]. intros Hs.
    apply andb_false_iff in Hrec as [Hrec%bool_decide_eq_false|Hrec%negb_false_iff%bool_decide_eq_true]; done.
  - rewrite lookup_insert_ne by done. apply HM.
Qed.

Lemma Register_good source handlers r r' :
  Register source handlers (Some r) = Ret r' ->
  exists g, r' = <[src_Name source := g]> r /\ r !! src_Name source = None /\ reg_source g = source /\ goodRegistration (src_Name source) g.
Proof.
  unfold Register. intros H. apply bind_Ret in H as ([] & _ & H). apply bind_Ret in H as ([] & _ & H).
  apply bind_Ret in H as ([] & [Hname%negb_false_iff _]%check_Ret%orb_false_iff & H).
  apply bind_Ret in H as (owned & Hk & H). apply bind_Ret in H as ([] & Hne%check_Ret%bool_decide_eq_false & H).
  apply bind_Ret in H as (byKind & Hh & H). apply bind_Ret in H as ([] & Hall%check_Ret%negb_false_iff & H).
  apply bind_Ret in H as ([] & Hdup%check_Ret%bool_decide_eq_false & [= <-]).
  apply addKinds_spec in Hk as (K1 & K2 & _ & K4). pose proof (addHandlers_spec _ _ _ _ _ Hh ltac:(done)) as HM.
  exists (MkRegistration source byKind). split_and!; [done|by apply eq_None_not_Some|done|]. split_and!; cbn; try done.
  - intros EQ. apply Hne, set_eq. intros k. rewrite K4, EQ, elem_of_nil. set_solver.
  - intros kind. split.
    + intros Hin. rewrite forallb_forall in Hall. specialize (Hall kind). rewrite <-list_elem_of_In, elem_of_elements, K4 in Hall.
      specialize (Hall (or_introl Hin)). by apply bool_decide_eq_true in Hall.
    + intros [h Hx]. destruct (HM kind h Hx) as [Hin _]. apply K4 in Hin. set_solver.
  - intros kind h Hx. by destruct (HM kind h Hx) as (_ & ? & ? & ?).
Qed.

Lemma registered_props r :
  registered r ->
  (forall name g, r !! name = Some g -> goodRegistration name g) /\
  (forall name kind, is_Some (lookupHandler (Some r) name kind) <-> exists src, registrySource (Some r) name = Some src /\ kind ∈ src_Kinds src) /\
  strictSorted (map src_Name (registrySources (Some r))) /\
  (forall src, src ∈ registrySources (Some r) <-> registrySource (Some r) (src_Name src) = Some src).
Proof.
  intros HR. assert (forall name g, r !! name = Some g -> goodRegistration name g) as HG.
  { induction HR as [|source handlers r r' HR IH HReg]; [done|]. destruct (Register_good _ _ _ _ HReg) as (g & -> & Hnone & Hsrc & Hg).
    intros name g'. destruct (decide (name = src_Name source)) as [->|Hne]; [rewrite lookup_insert_eq; by intros [= <-]|].
    rewrite lookup_insert_ne by done. apply IH. }
  clear HR. set (names := sortStrings (elements (dom r))).
  assert (forall name, name ∈ names <-> is_Some (r !! name)) as Hnames.
  { intros name. unfold names. rewrite sortStrings_perm, elem_of_elements, elem_of_dom. done. }
  assert (map src_Name (registrySources (Some r)) = names) as Hmap.
  { cbn. fold names. assert (forall name, name ∈ names -> is_Some (r !! name)) as Hin by (intros; by apply Hnames). clear Hnames.
    induction names as [|n ns IH]; [done|]. destruct (Hin n ltac:(by left)) as [g Hg]. cbn. rewrite Hg. cbn.
    destruct (HG n g Hg) as [-> _]. f_equal. apply IH. intros m Hm. apply Hin. by right. }
  split_and!; [done| | |].
  - intros name kind. unfold lookupHandler, registrySource. cbn. destruct (r !! name) as [g|] eqn:Hg; cbn.
    + destruct (HG name g Hg) as (_ & _ & _ & _ & _ & HK & _). split.
      * intros [x Hx]. exists (reg_source g). split; [done|]. apply HK. destruct (reg_handlers g !! kind); [done|by cbn in Hx].
      * intros (src & [= <-] & Hk). apply HK in Hk as [h Hh]. rewrite Hh. by eexists.
    + split; [by intros [? ?]|by intros (? & ? & _)].
  - rewrite Hmap. apply sortStrings_strict, NoDup_elements.
  - intros src. unfold registrySource. cbn. fold names. rewrite list_elem_of_omap. split.
    + intros (n & Hn & Hs). destruct (r !! n) as [g|] eqn:Hg; [|done]. injection Hs as <-. destruct (HG n g Hg) as [-> _]. by rewrite Hg.
    + intros Hs. exists (src_Name src). split; [|done]. apply Hnames. destruct (r !! src_Name src); [done|done].
Qed.

(** In a registry built by [Register], every entry is named by its source, has
    distinct valid kinds, exactly one non-nil handler per kind and none for other
    kinds, and recovering handlers only on sources with conditional recovery.  So a
    lookup succeeds exactly for the kinds of a registered source; and [sources] lists
    each registered source once, in the order of the names. *)
Theorem Register_sound r :
  registered r ->
  (forall name g, r !! name = Some g -> goodRegistration name g) /\
  (forall name kind, is_Some (lookupHandler (Some r) name kind) <-> exists src, registrySource (Some r) name = Some src /\ kind ∈ src_Kinds src) /\
  strictSorted (map src_Name (registrySources (Some r))) /\
  (forall src, src ∈ registrySources (Some r) <-> registrySource (Some r) (src_Name src) = Some src).
Proof. apply registered_props. Qed.

End registry.
