(* ===== verification/PDProcessor.v ===== *)
(** * pendingdeletion: the processor

    [src/pkgs/gizclaw/services/system/pendingdeletion/processor.go] and recovery.go:
    the configuration, one scan, one attempt and one recovery probe.

    Each function is a call on the world [W] of its sources.  What the runtime decides
    is an argument: the clock readings, whether a send on the dispatch channel
    succeeds, the random bytes, and for an attempt the interleaving of lease renewals
    with the actions of the handler and how the handler returned.  Metrics and log
    lines are left out, and so are the goroutines of [run], which call [scan] on a
    timer and [process] for each item. *)

From stdpp Require Import gmap strings list.
From S2P Require Import Prelude GoStrings GoText KVKey PDRetry PDTypes PDTask PDRegistry.

Open Scope Z_scope.

(** ** Configuration *)
Record Config := MkConfig {
  c_ScanInterval : Z;
  c_PageSize : Z;
  c_DispatchCapacity : Z;
  c_Workers : Z;
  c_LeaseDuration : Z;
  c_AttemptTimeout : Z;
  c_RetryInitial : Z;
  c_RetryMax : Z;
  c_MaxAttempts : Z
}.

Definition second : Z := 1000000000.

Definition DefaultConfig : Config :=
  MkConfig (30 * second) 100 256 4 (2 * 60 * second) (90 * second) (5 * second) (30 * 60 * second) 10.

Definition Config_Validate (c : Config) : Go pdError unit :=
  _ ← check ((c_ScanInterval c <=? 0) || (c_LeaseDuration c <=? 0) || (c_AttemptTimeout c <=? 0) || (c_RetryInitial c <=? 0) || (c_RetryMax c <=? 0))
        (PDText "pending deletion: durations must be positive");
  _ ← check ((c_PageSize c <=? 0) || (1000 <? c_PageSize c) || (c_DispatchCapacity c <=? 0) || (10000 <? c_DispatchCapacity c) ||
             (c_Workers c <=? 0) || (256 <? c_Workers c) || (c_MaxAttempts c <=? 0) || (1000 <? c_MaxAttempts c))
        (PDText "pending deletion: counts are outside supported bounds");
  _ ← check (c_LeaseDuration c <=? c_AttemptTimeout c) (PDText "pending deletion: attempt timeout must be shorter than lease duration");
  check (c_RetryMax c <? c_RetryInitial c) (PDText "pending deletion: retry initial exceeds retry max").

Section processor.
Context {W : Type}.

Record dispatchItem := MkItem {
  di_source : Source W;
  di_ref : Reference;
  di_failed : option Task
}.

Record Processor := MkProcessor {
  pr_registry : option (gmap string (@registration W));
  pr_config : Config;
  pr_started : bool;
  pr_scanStart : Z;
  pr_scanCursors : gmap string string;
  pr_failedCursors : gmap string (Time * string);
  pr_failedProbes : failedRecoveryBackoff
}.

Definition NewProcessor (registry : option (gmap string (@registration W))) (config : Config) : Go pdError Processor :=
  _ ← check (bool_decide (registry = None)) (PDText "pending deletion: registry is required");
  _ ← Config_Validate config;
  Ret (MkProcessor registry config false 0 ∅ ∅ (emptyBackoff 0)).

(** The state [Start] leaves; the boolean says whether goroutines were started. *)
Definition Processor_Start (p : Processor) : Processor * bool :=
  if pr_started p || bool_decide (length (registrySources (pr_registry p)) = 0%nat) then (p, false)
  else (MkProcessor (pr_registry p) (pr_config p) true 0 ∅ ∅ (pr_failedProbes p), true).

(** ** One scan *)

(** What happens to a send on the dispatch channel. *)
Inductive sendResult := Sent | CtxDone | QueueFull.

(** [sv_now] is the clock for each source, [sv_send n] the fate of the send after [n] items. *)
Record scanEnv := MkScanEnv {
  sv_now : string -> Time;
  sv_send : nat -> sendResult
}.

Fixpoint sendRefs (send : nat -> sendResult) (source : Source W) (refs : list Reference) (out : list dispatchItem) : list dispatchItem * sendResult :=
  match refs with
  | [] => (out, Sent)
  | ref :: rest =>
      match send (length out) with
      | Sent => sendRefs send source rest (out ++ [MkItem source ref None])
      | r => (out, r)
      end
  end.

Definition setScanStart (start : Z) (p : Processor) : Processor :=
  MkProcessor (pr_registry p) (pr_config p) (pr_started p) start (pr_scanCursors p) (pr_failedCursors p) (pr_failedProbes p).
Definition setScanCursor (name next : string) (p : Processor) : Processor :=
  MkProcessor (pr_registry p) (pr_config p) (pr_started p) (pr_scanStart p)
    (if bool_decide (next = EmptyString) then delete name (pr_scanCursors p) else <[name := next]> (pr_scanCursors p))
    (pr_failedCursors p) (pr_failedProbes p).
Definition setFailedCursor (name : string) (cursor : option (Time * string)) (p : Processor) : Processor :=
  MkProcessor (pr_registry p) (pr_config p) (pr_started p) (pr_scanStart p) (pr_scanCursors p)
    (match cursor with Some c => <[name := c]> (pr_failedCursors p) | None => delete name (pr_failedCursors p) end) (pr_failedProbes p).
Definition setProbes (b : failedRecoveryBackoff) (p : Processor) : Processor :=
  MkProcessor (pr_registry p) (pr_config p) (pr_started p) (pr_scanStart p) (pr_scanCursors p) (pr_failedCursors p) b.

(** The kinds of a source whose handlers recover failed tasks. *)
Definition recoveryKinds (p : Processor) (source : Source W) : list Kind :=
  filter (fun kind => match lookupHandler (pr_registry p) (src_Name source) kind with
                      | Some (_, h) => bool_decide (is_Some (h_CanRecoverFailed h))
                      | None => false
                      end = true) (src_Kinds source).

Context `{Codec}.

(** The loop over a page of failed tasks; [None] is the return on an invalid task. *)
Fixpoint sendFailed (send : nat -> sendResult) (source : Source W) (kinds : list Kind) (tasks : list Task) (p : Processor)
    (out : list dispatchItem) : Processor * list dispatchItem * option sendResult :=
  match tasks with
  | [] => (p, out, Some Sent)
  | task :: rest =>
      if match ValidateTask task with Ret _ => false | _ => true end || negb (bool_decide (t_Source task = src_Name source)) ||
         negb (bool_decide (t_Status task = StatusFailed)) || negb (bool_decide (r_Kind (t_Record task) ∈ kinds))
      then (p, out, None)
      else
        match send (length out) with
        | Sent =>
            sendFailed send source kinds rest
              (setFailedCursor (src_Name source) (Some (r_DeletedAt (t_Record task), r_DeletionID (t_Record task))) p)
              (out ++ [MkItem source (MkReference (t_Source task) (r_DeletionID (t_Record task)) (t_MarkerFingerprint task)) (Some task)])
        | r => (p, out, Some r)
        end
  end.

Definition failedOptions (p : Processor) (source : Source W) (kinds : list Kind) : SourceListOptions :=
  match pr_failedCursors p !! src_Name source with
  | Some (createdAt, id) => MkListOptions kinds [StatusFailed] None None (Some createdAt) (src_Name source) id (c_PageSize (pr_config p))
  | None => MkListOptions kinds [StatusFailed] None None None EmptyString EmptyString (c_PageSize (pr_config p))
  end.

(** The boolean says whether the scan has to stop. *)
Definition scanFailedRecovery (env : scanEnv) (source : Source W) (p : Processor) (out : list dispatchItem)
    : ST W pdError (Processor * list dispatchItem * bool) :=
  match src_RetryFailed source with
  | None => mret (p, out, false)
  | Some _ =>
      let kinds := recoveryKinds p source in
      if bool_decide (kinds = []) then mret (p, out, false)
      else
        r ← tryST (src_ListTasks source (failedOptions p source kinds));
        match r with
        | inl _ => mret (p, out, false)
        | inr tasks =>
            if c_PageSize (pr_config p) <? Z.of_nat (length tasks) then mret (p, out, false)
            else
              let '(p, out, r) := sendFailed (sv_send env) source kinds tasks p out in
              match r with
              | None => mret (p, out, false)
              | Some Sent =>
                  mret (if Z.of_nat (length tasks) <? c_PageSize (pr_config p) then setFailedCursor (src_Name source) None p else p, out, false)
              | Some _ => mret (p, out, true)
              end
        end
  end.

(** The body of the loop for the source at index [i] of [n]; the boolean says whether to go on. *)
Definition scanSource (env : scanEnv) (i n : Z) (source : Source W) (p : Processor) (out : list dispatchItem)
    : ST W pdError (Processor * list dispatchItem * bool) :=
  let name := src_Name source in
  let cursor := default EmptyString (pr_scanCursors p !! name) in
  r ← tryST (src_ScanDue source (sv_now env name) (c_PageSize (pr_config p)) cursor);
  match r with
  | inl _ => mret (p, out, true)
  | inr (refs, next) =>
      match sendRefs (sv_send env) source refs out with
      | (out, CtxDone) => mret (p, out, false)
      | (out, QueueFull) => mret (setScanStart ((i + 1) mod n) p, out, false)
      | (out, Sent) =>
          '(p, out, stop) ← scanFailedRecovery env source (setScanCursor name next p) out;
          mret (if stop : bool then (setScanStart ((i + 1) mod n) p, out, false) else (p, out, true))
      end
  end.

Fixpoint scanLoop (env : scanEnv) (srcs : list (Source W)) (start : Z) (offsets : list nat) (p : Processor) (out : list dispatchItem)
    : ST W pdError (Processor * list dispatchItem) :=
  match offsets with
  | [] => mret (p, out)
  | offset :: rest =>
      let n := Z.of_nat (length srcs) in
      let i := (start + Z.of_nat offset) mod n in
      match srcs !! Z.to_nat i with
      | None => mret (p, out)
      | Some source =>
          '(p, out, go) ← scanSource env i n source p out;
          if go : bool then scanLoop env srcs start rest p out else mret (p, out)
      end
  end.

Definition scan (env : scanEnv) (p : Processor) : ST W pdError (Processor * list dispatchItem) :=
  let srcs := registrySources (pr_registry p) in
  if bool_decide (length srcs = 0%nat) then mret (p, [])
  else
    let n := Z.of_nat (length srcs) in
    let start := pr_scanStart p mod n in
    scanLoop env srcs start (seq 0 (length srcs)) (setScanStart ((start + 1) mod n) p) [].

(** ** One recovery probe *)

(** An [*OutcomeError] as an error value. *)
Definition outcomeAsError (o : OutcomeError) : handlerError := MkHandlerError (OutcomeError_Error (Some o)) false false (Some o).

(** A panic of the probe becomes a terminal outcome. *)
Definition callFailedRecovery (policy : Task -> W -> Go handlerError bool) (task : Task) (w : W) : bool + handlerError :=
  match policy task w with
  | Ret eligible => inl eligible
  | Fail e => inr e
  | Panic => inr (outcomeAsError (Terminal "recovery_probe_panic" "Deletion recovery probe panicked" (Some "panic")))
  end.

(** The clock readings of [begin], [RetryFailed] and [end], and the word read for the jitter. *)
Record probeEnv := MkProbeEnv {
  pv_begin : Time;
  pv_retry : Time;
  pv_end : Time;
  pv_random : option Z
}.

(** The log line of a rejected probe changes the probe's warning state. *)
Definition warnRejected (addr : nat) (e : handlerError) (b : failedRecoveryBackoff) : failedRecoveryBackoff :=
  if he_NotLocal e then b
  else
    let code := match he_Outcome e with Some o => oe_Code (normalizeOutcome (Some o)) | None => "recovery_probe_failed"%string end in
    (shouldWarn addr code b).1.

Definition recoverFailed (env : probeEnv) (item : dispatchItem) (observed : Task) (p : Processor) : ST W pdError (Processor * option Task) :=
  match src_RetryFailed (di_source item) with
  | None => mret (p, None)
  | Some retryFailed =>
      r ← tryST (src_GetTask (di_source item) (ref_DeletionID (di_ref item)));
      match r with
      | inl _ => mret (p, None)
      | inr current =>
          if negb (sameFailedObservation current observed) then mret (p, None)
          else
            match lookupHandler (pr_registry p) (src_Name (di_source item)) (r_Kind (t_Record current)) with
            | Some (_, handler) =>
                match h_CanRecoverFailed handler with
                | None => mret (p, None)
                | Some policy =>
                    match begin current (pv_begin env) (pr_failedProbes p) with
                    | (b, None) => mret (setProbes b p, None)
                    | (b, Some addr) =>
                        w ← getST;
                        match callFailedRecovery policy current w with
                        | inr e => mret (setProbes (end_ addr (pv_end env) true (pv_random env) (warnRejected addr e b)) p, None)
                        | inl false => mret (setProbes (end_ addr (pv_end env) true (pv_random env) b) p, None)
                        | inl true =>
                            r ← tryST (retryFailed current (pv_retry env));
                            match r with
                            | inl _ => mret (setProbes (end_ addr (pv_end env) true (pv_random env) b) p, None)
                            | inr retried => mret (setProbes (end_ addr (pv_end env) false (pv_random env) b) p, Some retried)
                            end
                        end
                    end
                end
            | None => mret (p, None)
            end
      end
  end.

(** ** One attempt *)

(** While the handler runs, it acts on the world and the renewal goroutine ticks;
    [cancelled] is what [ctx.Err() != nil] answers if that renewal fails. *)
Inductive attemptEvent :=
  | Act (f : W -> W)
  | Tick (now : Time) (cancelled : bool).

Inductive handled := Returned (e : option handlerError) | Panicked (text : string).

Record attemptEnv := MkAttemptEnv {
  av_claimNow : Time;
  av_token : option string;
  av_events : list attemptEvent;
  av_handled : handled;
  av_ctxDone : bool;       (** [ctx.Err() != nil] after the handler *)
  av_attemptDone : bool;   (** [attemptCtx.Err() != nil] when it returned *)
  av_outcomeNow : Time;
  av_random : option Z
}.

(** The goroutine [renew] next to the handler: the first failing renewal ends it, and
    is reported unless the context was cancelled. *)
Fixpoint renewLoop (source : Source W) (claim : Claim) (lease : Z) (events : list attemptEvent) (running : bool) (err : option pdError)
    : ST W pdError (option pdError) :=
  match events with
  | [] => mret err
  | Act f :: rest => w ← getST; _ ← putST (f w); renewLoop source claim lease rest running err
  | Tick now cancelled :: rest =>
      if running then
        r ← tryST (src_Renew source claim now lease);
        match r with
        | inr _ => renewLoop source claim lease rest true err
        | inl e => renewLoop source claim lease rest false (if cancelled then err else Some e)
        end
      else renewLoop source claim lease rest false err
  end.

Definition callHandler (h : handled) : option handlerError :=
  match h with
  | Returned e => e
  | Panicked text => Some (outcomeAsError (Terminal "handler_panic" "cleanup handler panicked" (Some ("panic: " +:+ text))))
  end.

Definition deadlineExceeded : handlerError := MkHandlerError "context deadline exceeded" false true None.

(** The outcome of a failed attempt. *)
Definition outcomeOf (e : handlerError) : OutcomeError :=
  normalizeOutcome (Some (
    if he_Canceled e then Retryable "attempt_timeout" "cleanup attempt timed out" (Some (he_Text e))
    else match he_Outcome e with
         | Some o => o
         | None => MkOutcome OutcomeRetryable "handler_error" "cleanup handler failed" 0 (Some (he_Text e))
         end)).

(** The transition that reports an outcome. *)
Definition reportOutcome (config : Config) (source : Source W) (claim : Claim) (o : OutcomeError) (now : Time) (random : option Z) : ST W pdError unit :=
  if bool_decide (oe_Class o = OutcomeDeferred) then
    let delay := if oe_After o <=? 0 then c_ScanInterval config else oe_After o in
    src_Defer source claim (oe_Code o) (oe_Message o) (now + delay) now
  else if bool_decide (oe_Class o = OutcomeTerminal) then
    src_Fail source claim (oe_Code o) (oe_Message o) true now now (c_MaxAttempts config)
  else
    let next := now + retryDelay (c_RetryInitial config) (c_RetryMax config) (t_FailureCount claim + 1) random in
    src_Fail source claim (oe_Code o) (oe_Message o) false next now (c_MaxAttempts config).

(** The attempt after a claim was granted; the result is [attemptOutcome]. *)
Definition runAttempt (config : Config) (env : attemptEnv) (source : Source W) (claim : Claim) : ST W pdError string :=
  renewErr ← renewLoop source claim (c_LeaseDuration config) (av_events env) true None;
  if av_ctxDone env then mret "shutdown"%string
  else if bool_decide (is_Some renewErr) then mret "lease_lost"%string
  else
    match (if av_attemptDone env then Some deadlineExceeded else callHandler (av_handled env)) with
    | None => mret "completed"%string
    | Some e =>
        let o := outcomeOf e in
        r ← tryST (reportOutcome config source claim o (av_outcomeNow env) (av_random env));
        match r with
        | inl _ => mret "transition_error"%string
        | inr _ => mret (oe_Class o)
        end
    end.

(** The admission check before a claim. *)
Definition notAdmitted (p : Processor) (source : Source W) (task : Task) (w : W) : bool :=
  match lookupHandler (pr_registry p) (src_Name source) (r_Kind (t_Record task)) with
  | Some (_, handler) =>
      match h_CheckTask handler with
      | Some checkTask => match checkTask task w with Some e => he_NotLocal e | None => false end
      | None => false
      end
  | None => false
  end.

(** [process] of an item without a failed observation; [None] when no attempt was made. *)
Definition processRef (env : attemptEnv) (source : Source W) (ref : Reference) (p : Processor) : ST W pdError (option string) :=
  r ← tryST (src_GetTask source (ref_DeletionID ref));
  match r with
  | inl _ => mret None
  | inr task =>
      if negb (bool_decide (t_MarkerFingerprint task = ref_MarkerFingerprint ref)) then mret None
      else
        w ← getST;
        if notAdmitted p source task w then mret None
        else
          r ← tryST (src_Claim source (av_token env) ref (av_claimNow env) (c_LeaseDuration (pr_config p)));
          match r with
          | inr (Some claim) =>
              match lookupHandler (pr_registry p) (src_Name source) (r_Kind (t_Record claim)) with
              | None =>
                  _ ← tryST (src_Fail source claim "handler_missing" "registered handler is missing" true (av_claimNow env) (av_claimNow env)
                               (c_MaxAttempts (pr_config p)));
                  mret None
              | Some _ => outcome ← runAttempt (pr_config p) env source claim; mret (Some outcome)
              end
          | _ => mret None
          end
  end.

Definition process (probe : probeEnv) (env : attemptEnv) (item : dispatchItem) (p : Processor) : ST W pdError (Processor * option string) :=
  match di_failed item with
  | Some observed =>
      '(p, recovered) ← recoverFailed probe item observed p;
      match recovered with
      | None => mret (p, None)
      | Some task =>
          outcome ← processRef env (di_source item) (MkReference (t_Source task) (r_DeletionID (t_Record task)) (t_MarkerFingerprint task)) p;
          mret (p, outcome)
      end
  | None => outcome ← processRef env (di_source item) (di_ref item) p; mret (p, outcome)
  end.

End processor.

(** ** Scans lose no work *)
Section scan_props.
Context {W : Type} `{Codec}.
Implicit Types (p : @Processor W) (out : list (@dispatchItem W)) (source : Source W).

(** What a scan did to the cursor of a source: nothing, or a whole page was
    dispatched and the cursor is the one returned with it. *)
Definition cursorKept (env : scanEnv) source p p' out : Prop :=
  let name := src_Name source in
  let cursor := default EmptyString (pr_scanCursors p !! name) in
  pr_scanCursors p' !! name = pr_scanCursors p !! name \/
  exists refs next w1 w2, src_ScanDue source (sv_now env name) (c_PageSize (pr_config p)) cursor w1 = (w2, Ret (refs, next)) /\
    (forall ref, ref ∈ refs -> MkItem source ref None ∈ out) /\
    pr_scanCursors p' !! name = (if bool_decide (next = EmptyString) then None else Some next).

Lemma sendRefs_spec send source refs out out' r :
  sendRefs send source refs out = (out', r) ->
  (exists ext, out' = out ++ ext) /\ (r = Sent -> forall ref, ref ∈ refs -> MkItem source ref None ∈ out').
Proof.
  revert out. induction refs as [|ref refs IH]; intros out; cbn [sendRefs].
  - intros [= <- <-]. split; [exists []; by rewrite app_nil_r|]. by intros _ ref ?%not_elem_of_nil.
  - destruct (send (length out)).
    + intros HE. apply IH in HE as [(ext & ->) Hin]. split; [exists ([MkItem source ref None] ++ ext); by rewrite app_assoc|].
      intros Hr ref' [->|Hx]%elem_of_cons; [|by apply Hin]. apply elem_of_app. left. apply elem_of_app. right. by left.
    + intros [= <- <-]. split; [exists []; by rewrite app_nil_r|done].
    + intros [= <- <-]. split; [exists []; by rewrite app_nil_r|done].
Qed.

(** The parts of a processor a recovery scan leaves alone. *)
Definition sameCursors p p' out out' : Prop :=
  pr_scanCursors p' = pr_scanCursors p /\ pr_config p' = pr_config p /\ exists ext, out' = out ++ ext.

Lemma sameCursors_refl p out : sameCursors p p out out.
Proof. split_and!; [done|done|]. exists []. by rewrite app_nil_r. Qed.

Lemma sendFailed_spec send source kinds tasks p out p' out' r :
  sendFailed send source kinds tasks p out = (p', out', r) -> sameCursors p p' out out'.
Proof.
  revert p out. induction tasks as [|t tasks IH]; intros p out; cbn [sendFailed]; [intros [= <- <- <-]; apply sameCursors_refl|].
  destruct (_ || _); [intros [= <- <- <-]; apply sameCursors_refl|].
  destruct (send (length out)); [|intros [= <- <- <-]; apply sameCursors_refl..].
  intros (H1 & H2 & ext & ->)%IH. split_and!; [done|done|]. eexists. by rewrite <-app_assoc.
Qed.

Lemma tryST_inv {E A} (m : ST W E A) w w' r :
  tryST m w = (w', Ret r) -> m w = (w', match r with inl e => Fail e | inr a => Ret a end).
Proof. unfold tryST. destruct (m w) as [w1 [a|e|]]; by intros [= <- <-]. Qed.

Lemma bindST_inv {E A B} (m : ST W E A) (f : A -> ST W E B) w w' b :
  (m ≫= f) w = (w', Ret b) -> exists w1 a, m w = (w1, Ret a) /\ f a w1 = (w', Ret b).
Proof. unfold mbind, ST_bind. destruct (m w) as [w1 [a|e|]]; [by eauto|done..]. Qed.

Lemma scanFailed_spec env source p out w w' p' out' stop :
  scanFailedRecovery env source p out w = (w', Ret (p', out', stop)) -> sameCursors p p' out out'.
Proof.
  unfold scanFailedRecovery. destruct (src_RetryFailed source); [|by intros [= <- <- <- <-]; apply sameCursors_refl].
  case_bool_decide; [by intros [= <- <- <- <-]; apply sameCursors_refl|].
  intros (w1 & [e|tasks] & _ & HE)%bindST_inv; [by injection HE as <- <- <- <-; apply sameCursors_refl|].
  destruct (_ <? _); [by injection HE as <- <- <- <-; apply sameCursors_refl|].
  destruct (sendFailed _ _ _ _ _ _) as [[p1 out1] r] eqn:HS. apply sendFailed_spec in HS as (H1 & H2 & H3).
  destruct r as [[]|]; injection HE as <- <- <- <-; try done. by destruct (_ <? _).
Qed.

Lemma scanSource_spec env i n source p out w w' p' out' go :
  scanSource env i n source p out w = (w', Ret (p', out', go)) ->
  cursorKept env source p p' out' /\ pr_config p' = pr_config p /\ (exists ext, out' = out ++ ext) /\
  (forall name, name <> src_Name source -> pr_scanCursors p' !! name = pr_scanCursors p !! name).
Proof.
  unfold scanSource. intros (w1 & r & HT%tryST_inv & HE)%bindST_inv. destruct r as [e|[refs next]].
  { injection HE as <- <- <- <-. split_and!; [by left|done|exists []; by rewrite app_nil_r|done]. }
  destruct (sendRefs _ _ _ _) as [out1 r] eqn:HS. apply sendRefs_spec in HS as [Hext Hin].
  destruct r; [|injection HE as <- <- <- <-; by split_and!; [left|..]..].
  apply bindST_inv in HE as (w2 & [[p1 out2] stop] & (H1 & H2 & ext & ->)%scanFailed_spec & HE).
  assert (pr_scanCursors p' = pr_scanCursors (setScanCursor (src_Name source) next p) /\ pr_config p' = pr_config p /\ out' = out1 ++ ext) as (Hc & Hcfg & ->).
  { destruct stop; injection HE as <- <- <- <-; by split_and!. }
  split_and!; [|done|destruct Hext as [ext0 ->]; eexists; by rewrite <-app_assoc|].
  - right. exists refs, next, w, w1. split_and!; [done|intros ref Hr; apply elem_of_app; left; by apply Hin|].
    rewrite Hc. cbn. case_bool_decide; [by rewrite lookup_delete_eq|by rewrite lookup_insert_eq].
  - intros name Hne. rewrite Hc. cbn. case_bool_decide; [by rewrite lookup_delete_ne|by rewrite lookup_insert_ne].
Qed.

(** The sources a loop visits. *)
Definition visited (srcs : list (Source W)) (start : Z) (offsets : list nat) : list (Source W) :=
  omap (fun offset => srcs !! Z.to_nat ((start + Z.of_nat offset) mod Z.of_nat (length srcs))) offsets.

Lemma scanLoop_spec env srcs start offsets p out w w' p' out' :
  NoDup (map src_Name (visited srcs start offsets)) -> scanLoop env srcs start offsets p out w = (w', Ret (p', out')) ->
  (exists ext, out' = out ++ ext) /\
  (forall name, name ∉ map src_Name (visited srcs start offsets) -> pr_scanCursors p' !! name = pr_scanCursors p !! name) /\
  (forall src, src ∈ visited srcs start offsets -> cursorKept env src p p' out').
Proof.
  revert p out w. induction offsets as [|o offsets IH]; intros p out w HN; cbn [scanLoop visited omap list_omap].
  { intros [= <- <- <-]. split_and!; [exists []; by rewrite app_nil_r|done|by intros src ?%not_elem_of_nil]. }
  cbn [visited omap list_omap] in HN. destruct (srcs !! _) as [source|] eqn:Hs; cbn [map] in HN |- *.
  2:{ intros [= <- <- <-]. split_and!; [exists []; by rewrite app_nil_r|done|]. intros src _. by left. }
  apply NoDup_cons in HN as [Hfresh HN].
  intros (w1 & [[p1 out1] go] & (HK & HC & (ext & ->) & HO)%scanSource_spec & HE)%bindST_inv.
  destruct go.
  - destruct (IH _ _ _ HN HE) as ((ext2 & ->) & HU & HV). fold (visited srcs start offsets) in *. split_and!.
    + eexists. by rewrite <-app_assoc.
    + intros name [Hne Hn]%not_elem_of_cons. rewrite HU by done. by apply HO.
    + intros src [->|Hin]%elem_of_cons.
      * destruct HK as [HK|(refs & next & w2 & w3 & Hscan & Hin & Hcur)]; [left; by rewrite HU|right].
        exists refs, next, w2, w3. split_and!; [done| |by rewrite HU]. intros ref Hr. apply elem_of_app. left. by apply Hin.
      * assert (src_Name src <> src_Name source) as Hne by (intros EQ; apply Hfresh; rewrite <-EQ; by apply list_elem_of_fmap_2).
        specialize (HV src Hin). unfold cursorKept in *. rewrite HC, (HO _ Hne) in HV. done.
  - injection HE as <- <- <-. split_and!; [by exists ext|intros name [Hne _]%not_elem_of_cons; by apply HO|].
    intros src [->|Hin]%elem_of_cons; [done|]. left. apply HO. intros EQ. apply Hfresh. rewrite <-EQ. by apply list_elem_of_fmap_2.
Qed.
Lemma rotation_inj start n o o' :
  0 < n -> 0 <= o < n -> 0 <= o' < n -> (start + o) mod n = (start + o') mod n -> o = o'.
Proof.
  intros Hn Ho Ho' HE. pose proof (Z.div_mod (start + o) n ltac:(lia)) as E1. pose proof (Z.div_mod (start + o') n ltac:(lia)) as E2.
  rewrite HE in E1. assert (o - o' = n * ((start + o) / n - (start + o') / n)) as E3 by lia.
  destruct (Z.eq_dec ((start + o) / n) ((start + o') / n)) as [E4|E4]; [rewrite E4, Z.sub_diag in E3; lia|nia].
Qed.

Lemma visited_NoDup (srcs : list (Source W)) start offsets :
  NoDup (map src_Name srcs) -> NoDup offsets -> (forall o, o ∈ offsets -> (o < length srcs)%nat) ->
  NoDup (map src_Name (visited srcs start offsets)).
Proof.
  intros HN. induction 1 as [|o offsets Hfresh HD IH]; intros Hlt; [constructor|].
  assert (o < length srcs)%nat as Ho by (apply Hlt; by left). cbn [visited omap list_omap].
  destruct (srcs !! _) as [source|] eqn:Hs; [|apply IH; intros; apply Hlt; by right]. cbn [map]. constructor; [|apply IH; intros; apply Hlt; by right].
  intros (src & EQ & Hin)%list_elem_of_fmap. unfold visited in Hin. apply list_elem_of_omap in Hin as (o' & Ho' & Hs').
  assert (o' < length srcs)%nat as Hlt' by (apply Hlt; by right). set (n := Z.of_nat (length srcs)) in *.
  assert (Z.to_nat ((start + Z.of_nat o) mod n) = Z.to_nat ((start + Z.of_nat o') mod n)) as Hi.
  { eapply (NoDup_lookup (map src_Name srcs)); [done| |]; rewrite list_lookup_fmap; [by rewrite Hs|by rewrite Hs'; cbn; rewrite EQ]. }
  pose proof (Z.mod_pos_bound (start + Z.of_nat o) n ltac:(lia)). pose proof (Z.mod_pos_bound (start + Z.of_nat o') n ltac:(lia)).
  assert (Z.of_nat o = Z.of_nat o') as Heq by (apply (rotation_inj start n); lia). apply Hfresh. by replace o with o' by lia.
Qed.

Lemma visited_all (srcs : list (Source W)) start src : src ∈ srcs -> src ∈ visited srcs start (seq 0 (length srcs)).
Proof.
  intros (j & Hj)%list_elem_of_lookup_1. pose proof (lookup_lt_Some _ _ _ Hj) as Hlt. set (n := Z.of_nat (length srcs)).
  apply list_elem_of_omap. exists (Z.to_nat ((Z.of_nat j - start) mod n)). pose proof (Z.mod_pos_bound (Z.of_nat j - start) n ltac:(lia)) as Hb.
  split; [apply elem_of_seq; lia|]. fold n. rewrite Z2Nat.id by lia. rewrite Zplus_mod_idemp_r.
  replace (start + (Z.of_nat j - start)) with (Z.of_nat j) by lia. rewrite Z.mod_small by lia. by rewrite Nat2Z.id.
Qed.

(** C26: A scan never loses due work: for every registered source it leaves the
    source's cursor as it was, or it has dispatched every reference of the page read
    at that cursor, and the cursor is then the one returned with the page (none at
    the end).  This holds when sources fail, when the dispatch queue fills up in the
    middle of a page and when the scan is cancelled. *)
Theorem scan_loses_nothing r env p w w' p' out :
  registered r -> pr_registry p = Some r -> scan env p w = (w', Ret (p', out)) ->
  forall src, src ∈ registrySources (Some r) -> cursorKept env src p p' out.
Proof.
  intros HR Hp HE src Hsrc. destruct (registered_props r HR) as (_ & _ & HS & _). unfold scan in HE. rewrite Hp in HE.
  case_bool_decide as Hlen; [injection HE as <- <- <-; by left|].
  set (srcs := registrySources (Some r)) in *. set (start := pr_scanStart p mod Z.of_nat (length srcs)) in *.
  assert (NoDup (map src_Name srcs)) as HN by (by apply strictSorted_NoDup).
  apply scanLoop_spec in HE as (_ & _ & HV).
  - specialize (HV src (visited_all srcs start src Hsrc)). done.
  - apply visited_NoDup; [done|apply NoDup_seq|]. intros o Ho%elem_of_seq. lia.
Qed.

End scan_props.
