(* ===== verification/PDCodec.v ===== *)
(** * pendingdeletion: what is relied on of hashing, UUIDs, JSON and time layouts

    [CodecLaws] states the documented behaviour of the functions of the class
    [Codec]: digests have 32 bytes; derived UUIDs are written with hexadecimal
    digits and dashes, and parse; JSON round-trips a structure up to the replacement of invalid
    UTF-8 (and the white space inside a raw descriptor); both time layouts
    round-trip, and the fixed-width one orders as time does.

    [textCodec] is one instance of the class and its laws. *)

From stdpp Require Import strings list countable.
From S2P Require Import Prelude GoStrings GoText KVKey PDTypes.

Open Scope Z_scope.

(** Instants before the year 10000, where the layouts have fixed width. *)
Definition timeOk (t : Time) : Prop := 0 <= t < 315537897600 * 1000000000.

(** The bytes of a canonical UUID. *)
Definition uuidByte (a : ascii) : bool := hexLower a || bool_decide (a = "-"%char).

(** A deletion identifier that can be a key segment and an index member part. *)
Definition idOk (id : string) : Prop := id <> EmptyString /\ allBytes uuidByte id = true.

(** What JSON makes of the strings of a structure. *)
Definition sanitizeState (s : kvTaskState) : kvTaskState :=
  MkTaskState (toValidUTF8 (st_MarkerFingerprint s)) (toValidUTF8 (st_Status s)) (toValidUTF8 (st_Phase s))
    (st_FailureCount s) (toValidUTF8 (st_NextAttemptAt s)) (toValidUTF8 (st_LeaseToken s))
    (toValidUTF8 (st_LeaseDeadline s)) (toValidUTF8 (st_LastErrorCode s)) (toValidUTF8 (st_LastErrorMessage s))
    (toValidUTF8 (st_UpdatedAt s)).

Definition withDescriptor (r : Record_) (d : string) : Record_ :=
  MkRecord (r_DeletionID r) (r_Kind r) (r_ResourceID r) (r_Reason r) (r_DeletedAt r) (r_OwnerPublicKey r)
    (r_DescriptorVersion r) d.

(** A record whose strings are valid UTF-8 and whose instant is before year 10000. *)
Definition recordText (r : Record_) : Prop :=
  validUTF8 (r_DeletionID r) = true /\ validUTF8 (r_Kind r) = true /\ validUTF8 (r_ResourceID r) = true /\
  validUTF8 (r_Reason r) = true /\ match r_OwnerPublicKey r with Some k => validUTF8 k = true | None => True end /\
  timeOk (r_DeletedAt r).

Class CodecLaws `{Codec} := {
  compactJSON : string -> string;  (** the white space of a raw value removed *)
  sha256_length s : String.length (sha256 s) = 32%nat;
  uuidSHA1_ok s : idOk (uuidSHA1 s);
  uuidSHA1_parse s : uuidParse (uuidSHA1 s) = true;
  state_roundtrip st : unmarshalState (marshalState st) = Some (sanitizeState st);
  record_roundtrip r d :
    recordText r -> marshalRecord r = Some d -> unmarshalRecord d = Some (withDescriptor r (compactJSON (r_Descriptor r)));
  marshal_compact r :
    marshalRecord (withDescriptor r (compactJSON (r_Descriptor r))) = marshalRecord r;
  compact_valid d :
    jsonValid d = true -> d <> EmptyString -> jsonValid (compactJSON d) = true /\ compactJSON d <> EmptyString;
  indexTime_roundtrip t : timeOk t -> parseIndexTime (formatIndexTime t) = Some t;
  indexTime_length t : timeOk t -> String.length (formatIndexTime t) = 30%nat;
  indexTime_mono t u : timeOk t -> timeOk u -> t < u -> strLt (formatIndexTime t) (formatIndexTime u);
  indexTime_slash t : timeOk t -> containsByte "/" (formatIndexTime t) = false;
  nano_roundtrip t : timeOk t -> parseNano (formatNano t) = Some t;
  nano_ascii t : timeOk t -> asciiOnly (formatNano t) = true;
  nano_empty : parseNano EmptyString = None
}.

(** ** An instance *)

(** Fixed-width decimal numbers. *)
Definition decDigit (z : Z) : ascii := ascii_of_N (Z.to_N (48 + z)).
Fixpoint dec (n : nat) (t : Z) : string :=
  match n with O => EmptyString | S n => dec n (t / 10) +:+ String (decDigit (t mod 10)) EmptyString end.
Fixpoint undec (acc : Z) (s : string) : Z :=
  match s with EmptyString => acc | String a s => undec (10 * acc + (byteZ a - 48)) s end.

Lemma byteZ_decDigit z : 0 <= z < 10 -> byteZ (decDigit z) = 48 + z.
Proof.
  intros Hz. unfold byteZ, decDigit. rewrite N_ascii_embedding by lia. lia.
Qed.

Lemma length_dec n t : String.length (dec n t) = n.
Proof. revert t. induction n as [|n IH]; intros t; [done|]. cbn. rewrite length_app_str, IH. cbn. lia. Qed.

Lemma undec_app acc s t : undec acc (s +:+ t) = undec (undec acc s) t.
Proof. revert acc. induction s as [|a s IH]; intros acc; [done|]. rewrite app_cons_str. cbn. apply IH. Qed.

Lemma undec_dec n t : 0 <= t < 10 ^ Z.of_nat n -> undec 0 (dec n t) = t.
Proof.
  revert t. induction n as [|n IH]; intros t Ht; [cbn in *; lia|].
  cbn [dec]. rewrite undec_app. cbn [undec]. rewrite IH, byteZ_decDigit.
  - pose proof (Z.div_mod t 10). lia.
  - apply Z.mod_pos_bound. lia.
  - rewrite Nat2Z.inj_succ, Z.pow_succ_r in Ht by lia. split; [apply Z.div_pos; lia|]. apply Z.div_lt_upper_bound; lia.
Qed.

Lemma dec_mono n t u : 0 <= t -> t < u -> u < 10 ^ Z.of_nat n -> strLt (dec n t) (dec n u).
Proof.
  revert t u. induction n as [|n IH]; intros t u Ht Hlt Hu; [cbn in Hu; lia|]. cbn [dec].
  rewrite Nat2Z.inj_succ, Z.pow_succ_r in Hu by lia.
  pose proof (Z.div_mod t 10 ltac:(lia)). pose proof (Z.div_mod u 10 ltac:(lia)).
  pose proof (Z.mod_pos_bound t 10 ltac:(lia)). pose proof (Z.mod_pos_bound u 10 ltac:(lia)).
  destruct (Z.lt_trichotomy (t / 10) (u / 10)) as [Hd|[Hd|Hd]]; [| |lia].
  - apply strLt_app_len; [by rewrite !length_dec|]. apply IH; [apply Z.div_pos; lia|done|]. apply Z.div_lt_upper_bound; lia.
  - rewrite Hd. apply strLt_app_prefix, strLt_cons. left. rewrite !byteZ_decDigit by lia. lia.
Qed.

Lemma dec_digits n t : 0 <= t -> allBytes (between 48 57) (dec n t) = true.
Proof.
  revert t. induction n as [|n IH]; intros t Ht; [done|]. cbn [dec]. rewrite allBytes_app, IH by (apply Z.div_pos; lia).
  cbn. pose proof (Z.mod_pos_bound t 10 ltac:(lia)). unfold between. rewrite byteZ_decDigit by lia.
  rewrite andb_true_r. apply andb_true_iff. lia.
Qed.

(** Positive numbers as strings of binary digits. *)
Fixpoint posBits (p : positive) : string :=
  match p with xH => "1" | xO p => String "0" (posBits p) | xI p => String "1" (posBits p) end.
Fixpoint bitsPos (s : string) : positive :=
  match s with
  | String a EmptyString => xH
  | String a s => if bool_decide (a = "0"%char) then xO (bitsPos s) else xI (bitsPos s)
  | EmptyString => xH
  end.

Lemma bitsPos_posBits p : bitsPos (posBits p) = p.
Proof.
  induction p as [p IH|p IH|]; [| |done].
  - cbn [posBits bitsPos]. destruct (posBits p) eqn:E; [by destruct p|]. by rewrite IH.
  - cbn [posBits bitsPos]. destruct (posBits p) eqn:E; [by destruct p|]. by rewrite IH.
Qed.

Definition text {A} `{Countable A} (x : A) : string := posBits (encode x).
Definition untext {A} `{Countable A} (s : string) : option A := decode (bitsPos s).

Lemma untext_text {A} `{Countable A} (x : A) : untext (text x) = Some x.
Proof. unfold untext, text. by rewrite bitsPos_posBits, decode_encode. Qed.

(** Lists of strings as comma-separated hexadecimal fields. *)
Definition pack (l : list string) : string := joinByte "," (map hexEncode l).
Definition unpack (s : string) : option (list string) := mapM hexDecode (splitByte "," s).

Lemma unpack_pack l : l <> [] -> unpack (pack l) = Some l.
Proof.
  intros Hl. unfold unpack, pack. rewrite splitByte_joinByte.
  - clear Hl. induction l as [|x l IH]; [done|]. cbn. rewrite hexDecode_hexEncode. cbn. by rewrite IH.
  - by destruct l.
  - apply Forall_map, Forall_true. intros x. apply (containsByte_allBytes _ hexLower); [done|apply hexEncode_alphabet].
Qed.

Definition packOwner (o : option string) : string := match o with Some k => String "s" k | None => EmptyString end.
Definition unpackOwner (s : string) : option string := match s with String _ k => Some k | EmptyString => None end.

Definition packRecord (r : Record_) : string :=
  pack [r_DeletionID r; r_Kind r; r_ResourceID r; r_Reason r; text (r_DeletedAt r); packOwner (r_OwnerPublicKey r);
        text (r_DescriptorVersion r); r_Descriptor r].
Definition unpackRecord (s : string) : option Record_ :=
  match unpack s with
  | Some [a; b; c; d; e; f; g; h] => e ← untext e; g ← untext g; Some (MkRecord a b c d e (unpackOwner f) g h)
  | _ => None
  end.

Lemma unpackRecord_packRecord r : unpackRecord (packRecord r) = Some r.
Proof.
  unfold unpackRecord, packRecord. rewrite unpack_pack by done. rewrite !untext_text. cbn. destruct r as [????? [] ??]; done.
Qed.

Definition packState (s : kvTaskState) : string :=
  pack [st_MarkerFingerprint s; st_Status s; st_Phase s; text (st_FailureCount s); st_NextAttemptAt s; st_LeaseToken s;
        st_LeaseDeadline s; st_LastErrorCode s; st_LastErrorMessage s; st_UpdatedAt s].
Definition unpackState (s : string) : option kvTaskState :=
  match unpack s with
  | Some [a; b; c; d; e; f; g; h; i; j] => d ← untext d; Some (MkTaskState a b c d e f g h i j)
  | _ => None
  end.

Lemma unpackState_packState s : unpackState (packState s) = Some s.
Proof. unfold unpackState, packState. rewrite unpack_pack by done. rewrite untext_text. by destruct s. Qed.

Fixpoint zeros (n : nat) : string := match n with O => EmptyString | S n => String "000" (zeros n) end.

Definition textCodec : Codec := {|
  sha256 s := takeStr 32 (s +:+ zeros 32);
  uuidParse s := allBytes uuidByte s;
  uuidSHA1 s := String "0" (hexEncode s);
  jsonValid s := negb (bool_decide (s = EmptyString));
  marshalRecord r := Some (packRecord r);
  unmarshalRecord := unpackRecord;
  marshalStoredRecord r := packRecord r;
  marshalState s := packState (sanitizeState s);
  unmarshalState := unpackState;
  formatIndexTime := dec 30;
  parseIndexTime s := Some (undec 0 s);
  formatNano := dec 30;
  parseNano s := if bool_decide (s = EmptyString) then None else Some (undec 0 s)
|}.

Lemma timeOk_dec t : timeOk t -> 0 <= t < 10 ^ Z.of_nat 30.
Proof. unfold timeOk. change (10 ^ Z.of_nat 30) with 1000000000000000000000000000000. lia. Qed.

Definition textCodecLaws : @CodecLaws textCodec.
Proof.
  refine (@Build_CodecLaws textCodec (fun d => d) _ _ _ _ _ _ _ _ _ _ _ _ _ _);
    cbn -[takeStr dec String.append hexEncode zeros undec packRecord unpackRecord packState unpackState].
  - intros s. rewrite length_takeStr, length_app_str. change (String.length (zeros 32)) with 32%nat. lia.
  - intros s. split; [done|]. cbn [allBytes]. apply andb_true_iff. split; [done|].
    eapply allBytes_impl; [|apply hexEncode_alphabet]. intros a Ha. unfold uuidByte. by rewrite Ha.
  - intros s. cbn [allBytes]. apply andb_true_iff. split; [done|].
    eapply allBytes_impl; [|apply hexEncode_alphabet]. intros a Ha. unfold uuidByte. by rewrite Ha.
  - intros st. apply unpackState_packState.
  - intros r d _ [= <-]. rewrite unpackRecord_packRecord. by destruct r.
  - intros r. by destruct r.
  - done.
  - intros t Ht. by rewrite undec_dec by (by apply timeOk_dec).
  - intros t _. apply length_dec.
  - intros t u Ht Hu Hlt. apply timeOk_dec in Ht, Hu. apply dec_mono; lia.
  - intros t Ht. apply timeOk_dec in Ht. eapply containsByte_allBytes; [|apply dec_digits; lia]. done.
  - intros t Ht. apply timeOk_dec in Ht. rewrite bool_decide_eq_false_2; [by rewrite undec_dec|].
    intros E. apply (f_equal String.length) in E. by rewrite length_dec in E.
  - intros t Ht. apply timeOk_dec in Ht. unfold asciiOnly. eapply allBytes_impl; [|apply (dec_digits 30); lia].
    intros a. byte_cases a; done.
  - done.
Defined.
