(* ===== verification/PDInv.v ===== *)
(** * pendingdeletion: the index invariant, on the contents of the store

    What the records and collections of the pending-deletion namespace mean
    together: every marker has a task and conversely, the locator of a resource
    points to its one task, and the due and creation indexes hold exactly the
    members of the stored tasks.  This file states the invariant on the abstract
    contents of a store and shows that the three kinds of mutation of the source,
    creation, transition and finalization, preserve it. *)

From stdpp Require Import gmap strings list.
From S2P Require Import Prelude GoStrings GoText CustomID KVKey KVMemory KVSpec KVIface KVSets PDTypes PDStore PDTask PDCodec.

Open Scope Z_scope.

(** ** The keys of the indexes *)
Definition kinds : list Kind := [KindPeer; KindWorkspace; KindFriendGroup].
Definition statuses : list Status := [StatusQueued; StatusRunning; StatusRetryWait; StatusFailed].

Definition idxKeys : list Key :=
  (kind ← kinds; map (kvDueIndexKey kind) shards) ++
  (kind ← kinds; status ← statuses; map (kvCreatedIndexKey kind status) shards).

Lemma idxKeys_due kind shard : Kind_valid kind = true -> shard ∈ shards -> kvDueIndexKey kind shard ∈ idxKeys.
Proof.
  intros Hk%bool_decide_eq_true Hs. apply elem_of_app. left. apply list_elem_of_bind. exists kind. split; [|done].
  by apply list_elem_of_fmap_2.
Qed.

Lemma idxKeys_created kind status shard :
  Kind_valid kind = true -> Status_valid status = true -> shard ∈ shards -> kvCreatedIndexKey kind status shard ∈ idxKeys.
Proof.
  intros Hk%bool_decide_eq_true Ht%bool_decide_eq_true Hs. apply elem_of_app. right. apply list_elem_of_bind. exists kind.
  split; [|done]. apply list_elem_of_bind. exists status. split; [|done]. by apply list_elem_of_fmap_2.
Qed.

(** Every index key is in the namespace, in neither of the record families, and
    free of the default separator. *)
Definition idxKeyShape (k : Key) : bool :=
  match k with
  | a :: b :: _ => bool_decide (a = "pending-deletion"%string) && (bool_decide (b = "due-index"%string) || bool_decide (b = "created-index"%string))
  | _ => false
  end && forallb (fun seg => negb (containsByte ":" seg)) k.

Lemma idxKeys_shape : forallb idxKeyShape idxKeys = true.
Proof. vm_compute. reflexivity. Qed.

Lemma idxKeys_spec k :
  k ∈ idxKeys -> exists b rest, k = "pending-deletion"%string :: b :: rest /\ (b = "due-index"%string \/ b = "created-index"%string) /\
    Forall (fun seg => containsByte ":" seg = false) k.
Proof.
  intros Hk. pose proof idxKeys_shape as HS. rewrite forallb_forall in HS.
  specialize (HS k (proj1 (list_elem_of_In _ _) Hk)). unfold idxKeyShape in HS.
  destruct k as [|a [|b rest]]; [done|done|]. apply andb_true_iff in HS as [H1 H2].
  apply andb_true_iff in H1 as [->%bool_decide_eq_true Hb]. exists b, rest. split_and!; [done| |].
  - apply orb_true_iff in Hb as [->%bool_decide_eq_true| ->%bool_decide_eq_true]; auto.
  - rewrite forallb_forall in H2. apply Forall_forall. intros seg Hseg.
    apply negb_true_iff, H2. by apply list_elem_of_In.
Qed.

Section inv.
Context {CD : Codec} {CL : CodecLaws} (opts : option Options) (Hsep : sep opts = ":"%char).
Implicit Types (M : gmap string aval) (t : Task).

Local Notation E := (encK opts).

(** ** Injectivity of the keys *)
Lemma idOk_clean id : idOk id -> containsByte ":" id = false.
Proof. intros [_ Hid]. by apply (containsByte_allBytes _ uuidByte). Qed.

Lemma idOk_slash id : idOk id -> containsByte "/" id = false.
Proof. intros [_ Hid]. by apply (containsByte_allBytes _ uuidByte). Qed.

Lemma idOk_utf8 id : idOk id -> validUTF8 id = true.
Proof.
  intros [_ Hid]. apply asciiOnly_valid. eapply allBytes_impl; [|exact Hid]. intros a. byte_cases a; done.
Qed.

Lemma kind_clean kind : Kind_valid kind = true -> containsByte ":" kind = false.
Proof.
  intros Hk%bool_decide_eq_true. rewrite !elem_of_cons in Hk.
  destruct Hk as [->|[->|[->|Hk]]]; [done..|by apply not_elem_of_nil in Hk].
Qed.

Lemma clean_segments k : Forall (fun seg => containsByte ":" seg = false) k -> cleanKey opts k.
Proof. unfold cleanKey. by rewrite Hsep. Qed.

Lemma byIDKey_clean id : idOk id -> cleanKey opts (byIDKey id).
Proof. intros H%idOk_clean. apply clean_segments. by repeat constructor. Qed.
Lemma taskKey_clean id : idOk id -> cleanKey opts (kvTaskKey id).
Proof. intros H%idOk_clean. apply clean_segments. by repeat constructor. Qed.
Lemma locatorKey_clean kind rid : Kind_valid kind = true -> cleanKey opts (byLocatorKey kind rid).
Proof.
  intros Hk%kind_clean. apply clean_segments. repeat constructor; [done|].
  apply (containsByte_allBytes _ b64Safe); [done|apply b64Encode_safe].
Qed.
Lemma idxKey_clean k : k ∈ idxKeys -> cleanKey opts k.
Proof. intros (? & ? & _ & _ & ?)%idxKeys_spec. by apply clean_segments. Qed.

(** The keys of the namespace. *)
Inductive pdKey : Key -> Prop :=
  | pd_byID id : idOk id -> pdKey (byIDKey id)
  | pd_task id : idOk id -> pdKey (kvTaskKey id)
  | pd_locator kind rid : Kind_valid kind = true -> pdKey (byLocatorKey kind rid)
  | pd_index k : k ∈ idxKeys -> pdKey k.

Lemma pdKey_clean k : pdKey k -> cleanKey opts k.
Proof. intros []; [by apply byIDKey_clean|by apply taskKey_clean|by apply locatorKey_clean|by apply idxKey_clean]. Qed.

Lemma pdKey_root k : pdKey k -> exists rest, k = "pending-deletion"%string :: rest.
Proof.
  intros [id _|id _|kind rid _|k' Hk]; [by eexists..|]. apply idxKeys_spec in Hk as (b & rest & -> & _). eauto.
Qed.

Lemma pdKey_inj k1 k2 : pdKey k1 -> pdKey k2 -> E k1 = E k2 -> k1 = k2.
Proof.
  intros H1 H2. destruct (pdKey_root k1 H1) as [r1 E1], (pdKey_root k2 H2) as [r2 E2].
  apply encK_inj; [by apply pdKey_clean..|by rewrite E1|by rewrite E2].
Qed.

(** A key checked by [validateFinalizeDomainKey] is outside the namespace. *)
Lemma domain_ne k d : pdKey k -> cleanKey opts d -> validateFinalizeDomainKey d = Ret tt -> E k <> E d.
Proof.
  intros Hk Hd Hv. unfold validateFinalizeDomainKey in Hv. rewrite !check_bind_Ret, check_Ret in Hv.
  destruct Hv as (Hne & _ & Hroot). apply bool_decide_eq_false in Hne. destruct (pdKey_root k Hk) as [rest ->].
  intros EQ. apply encK_inj in EQ; [|by apply pdKey_clean|done..]. subst d. cbn in Hroot.
  by rewrite bool_decide_eq_true_2 in Hroot.
Qed.

(** ** Effects of a mutation *)
Definition hasMember (gs : list SetMembers) (K : Key) (m : string) : Prop :=
  exists g, g ∈ gs /\ sm_Key g = K /\ sm_Members g = [m].

(** Adding single members, then removing others. *)
Lemma adds_mem M gs k m :
  (forall g, g ∈ gs -> exists x, sm_Members g = [x]) ->
  m ∈ setOf (foldl (specGroup opts) M ((fun g => (2%nat, g)) <$> gs)) k <->
  m ∈ setOf M k \/ exists g, g ∈ gs /\ k = E (sm_Key g) /\ sm_Members g = [m].
Proof.
  revert M. induction gs as [|g gs IH]; intros M Hg; cbn [fmap list_fmap foldl].
  { split; [by left|]. intros [?|(g & Hin & _)]; [done|by apply not_elem_of_nil in Hin]. }
  rewrite IH by (intros; apply Hg; by right). destruct (Hg g ltac:(by left)) as [x Hx].
  rewrite setOf_specGroup. cbn [fst snd phaseAdds Nat.even]. rewrite Hx. case_bool_decide as Hk; cbn [list_to_set].
  - split.
    + intros [Hm|(g' & Hin & HH)]; [|right; exists g'; set_solver].
      assert (m = x \/ m ∈ setOf M k) as [->|?] by set_solver; [right; exists g; set_solver|by left].
    + intros [Hm|(g' & [->|Hin]%elem_of_cons & -> & Hm)]; [left; set_solver| |right; eauto].
      left. rewrite Hx in Hm. injection Hm as ->. set_solver.
  - split.
    + intros [Hm|(g' & Hin & HH)]; [by left|right; exists g'; set_solver].
    + intros [Hm|(g' & [->|Hin]%elem_of_cons & HK & Hm)]; [by left|done|right; eauto].
Qed.

Lemma removes_mem M gs k m :
  (forall g, g ∈ gs -> exists x, sm_Members g = [x]) ->
  m ∈ setOf (foldl (specGroup opts) M ((fun g => (3%nat, g)) <$> gs)) k <->
  m ∈ setOf M k /\ ~ exists g, g ∈ gs /\ k = E (sm_Key g) /\ sm_Members g = [m].
Proof.
  revert M. induction gs as [|g gs IH]; intros M Hg; cbn [fmap list_fmap foldl].
  { split; [|by intros []]. intros ?. split; [done|]. intros (g & Hin & _). by apply not_elem_of_nil in Hin. }
  rewrite IH by (intros; apply Hg; by right). destruct (Hg g ltac:(by left)) as [x Hx].
  rewrite setOf_specGroup. cbn [fst snd phaseAdds Nat.even]. rewrite Hx. case_bool_decide as Hk; cbn [list_to_set].
  - split.
    + intros [Hm Hn]. split; [set_solver|]. intros (g' & [->|Hin]%elem_of_cons & HK & Hm'); [|by eauto].
      rewrite Hx in Hm'. injection Hm' as ->. set_solver.
    + intros [Hm Hn]. split; [|intros (g' & Hin & HH); apply Hn; exists g'; set_solver].
      assert (m <> x); [|set_solver]. intros ->. apply Hn. exists g. set_solver.
  - split.
    + intros [Hm Hn]. split; [done|]. intros (g' & [->|Hin]%elem_of_cons & HK & Hm'); [done|]. by eauto.
    + intros [Hm Hn]. split; [done|]. intros (g' & Hin & HH). apply Hn. exists g'. set_solver.
Qed.

(** ** Stored tasks *)
Definition recAt M (k : Key) : option string :=
  match M !! E k with Some (ARec v _) => Some v | _ => None end.

(** What [loadTask] finds. *)
Definition taskAt (s : KVSource) M (id : string) : option (Task * string) :=
  match recAt M (byIDKey id) with
  | Some data =>
      match unmarshalRecord data with
      | Some r =>
          if bool_decide (r_DeletionID r = id) && owns s (r_Kind r) then
            match recAt M (kvTaskKey id) with
            | Some raw => match decodeTask s r raw with Ret x => Some x | _ => None end
            | None => None
            end
          else None
      | None => None
      end
  | None => None
  end.

Lemma taskAt_ext s M M' id :
  M' !! E (byIDKey id) = M !! E (byIDKey id) -> M' !! E (kvTaskKey id) = M !! E (kvTaskKey id) ->
  taskAt s M' id = taskAt s M id.
Proof. intros H1 H2. unfold taskAt, recAt. by rewrite H1, H2. Qed.

(** The index memberships of a task. *)
Definition idx t : list (Key * string) :=
  map (fun g => (sm_Key g, default EmptyString (head (sm_Members g)))) (kvTaskIndexes (Some t)).

(** Strings that JSON keeps and times that the layouts keep. *)
Definition taskText t : Prop :=
  validUTF8 (t_LeaseToken t) = true /\ validUTF8 (t_LastErrorCode t) = true /\ validUTF8 (t_LastErrorMessage t) = true /\
  timeOk (t_NextAttemptAt t) /\ timeOk (t_LeaseDeadline t) /\ timeOk (t_UpdatedAt t).

Definition goodTask (s : KVSource) t : Prop :=
  taskText t /\ Kind_valid (r_Kind (t_Record t)) = true /\ timeOk (r_DeletedAt (t_Record t)) /\
  validateStoredTask t = Ret tt /\ t_Source t = s_SourceName s.

Record Inv (s : KVSource) M : Prop := {
  inv_task id : idOk id -> M !! E (kvTaskKey id) <> None -> exists t raw, taskAt s M id = Some (t, raw) /\ goodTask s t;
  inv_marker id : idOk id -> M !! E (byIDKey id) <> None -> M !! E (kvTaskKey id) <> None;
  inv_index K m : K ∈ idxKeys ->
    m ∈ setOf M (E K) <-> exists id t raw, idOk id /\ taskAt s M id = Some (t, raw) /\ (K, m) ∈ idx t;
  inv_locator kind rid id : Kind_valid kind = true ->
    recAt M (byLocatorKey kind rid) = Some id <->
    idOk id /\ exists t raw, taskAt s M id = Some (t, raw) /\ r_Kind (t_Record t) = kind /\ r_ResourceID (t_Record t) = rid
}.

(** ** Index memberships *)
Lemma shard_in_shards id : kvTaskShard id ∈ shards.
Proof.
  assert (0 <= kvTaskShard id < 16) as Hb.
  { unfold kvTaskShard, kvTaskIndexShards. destruct (sha256 id); [lia|]. apply Z.mod_pos_bound. lia. }
  unfold shards. replace (kvTaskShard id) with (Z.of_nat (Z.to_nat (kvTaskShard id))) by lia.
  apply list_elem_of_fmap_2, elem_of_seq. lia.
Qed.

Lemma stored_status t : validateStoredTask t = Ret tt -> Status_valid (t_Status t) = true.
Proof.
  unfold validateStoredTask. intros ([] & _ & H)%bind_Ret. apply bind_Ret in H as ([] & _ & H).
  unfold validateTaskState in H. apply bind_Ret in H as ([] & H & _). by apply check_Ret, negb_false_iff in H.
Qed.

(** Each membership is a creation or a due entry of the task. *)
Lemma idx_spec s t K m :
  goodTask s t -> (K, m) ∈ idx t ->
  K ∈ idxKeys /\ exists at_, timeOk at_ /\ m = kvIndexMember at_ t.
Proof.
  intros ((_ & _ & _ & Hn & Hl & _) & Hk & Hd & Hv & _). apply stored_status in Hv. unfold idx, kvTaskIndexes. cbn [map].
  intros [[= -> ->]|Hin]%elem_of_cons.
  - split; [apply idxKeys_created; [done|done|apply shard_in_shards]|eauto].
  - destruct (isZero _); [by apply not_elem_of_nil in Hin|]. apply list_elem_of_singleton in Hin. injection Hin as -> ->.
    split; [apply idxKeys_due; [done|apply shard_in_shards]|]. exists (taskDueAt t). split; [|done].
    unfold taskDueAt. destruct (_ || _); [done|]. case_bool_decide; [done|]. unfold timeOk. lia.
Qed.

Lemma kvIndexMember_id a b t u :
  timeOk a -> timeOk b -> idOk (r_DeletionID (t_Record t)) -> idOk (r_DeletionID (t_Record u)) ->
  kvIndexMember a t = kvIndexMember b u -> r_DeletionID (t_Record t) = r_DeletionID (t_Record u).
Proof.
  intros Ha Hb Ht Hu EQ. unfold kvIndexMember in EQ. apply (f_equal (cutByte "/")) in EQ.
  rewrite !cutByte_app in EQ by (by apply indexTime_slash). injection EQ as _ EQ.
  apply (f_equal (cutByte "/")) in EQ. rewrite !cutByte_app in EQ by (by apply idOk_slash). by injection EQ.
Qed.

Definition idxO (o : option Task) : list (Key * string) := match o with Some t => idx t | None => [] end.

Lemma indexes_single o g :
  g ∈ kvTaskIndexes o -> exists m, g = MkSetMembers (sm_Key g) [m] 0.
Proof.
  destruct o as [t|]; [|by intros ?%not_elem_of_nil]. cbn [kvTaskIndexes].
  intros [->|Hin]%elem_of_cons; [by eexists|]. destruct (isZero _); [by apply not_elem_of_nil in Hin|].
  apply list_elem_of_singleton in Hin as ->. by eexists.
Qed.

Lemma idxO_member o K m : (K, m) ∈ idxO o <-> MkSetMembers K [m] 0 ∈ kvTaskIndexes o.
Proof.
  assert ((K, m) ∈ idxO o <-> (K, m) ∈ map (fun g => (sm_Key g, default EmptyString (head (sm_Members g)))) (kvTaskIndexes o)) as ->.
  { by destruct o. }
  split.
  - intros (g & EQ & Hg)%list_elem_of_fmap. destruct (indexes_single o g Hg) as [x Hx]. rewrite Hx in EQ, Hg. cbn in EQ.
    by injection EQ as -> ->.
  - intros Hg. apply list_elem_of_fmap. by exists (MkSetMembers K [m] 0).
Qed.

Lemma containsIndex_spec o K m : containsIndex (kvTaskIndexes o) (MkSetMembers K [m] 0) = true <-> (K, m) ∈ idxO o.
Proof.
  unfold containsIndex. rewrite existsb_exists, idxO_member. split.
  - intros (g & Hg%list_elem_of_In & Hs). destruct (indexes_single o g Hg) as [x Hx]. rewrite Hx in Hs, Hg.
    unfold sameIndex in Hs. cbn in Hs. apply andb_true_iff in Hs as [<-%bool_decide_eq_true H2%bool_decide_eq_true].
    by injection H2 as ->.
  - intros Hg. exists (MkSetMembers K [m] 0). split; [by apply list_elem_of_In|]. unfold sameIndex.
    by rewrite !bool_decide_eq_true_2.
Qed.

Lemma changes_add before after K m :
  hasMember (kvTaskIndexChanges before after).1 K m <-> (K, m) ∈ idxO after /\ (K, m) ∉ idxO before.
Proof.
  unfold hasMember, kvTaskIndexChanges. cbn [fst]. rewrite <-(containsIndex_spec before), idxO_member. split.
  - intros (g & [Hc Hg]%list_elem_of_filter & <- & Hm). destruct (indexes_single after g Hg) as [x Hx].
    rewrite Hx in Hm. cbn in Hm. injection Hm as ->. rewrite Hx in Hc, Hg. cbn in *. by rewrite Hc.
  - intros [Hg Hc]. exists (MkSetMembers K [m] 0). split_and!; [|done..]. apply list_elem_of_filter. split; [|done].
    by apply not_true_is_false.
Qed.

Lemma changes_remove before after K m :
  hasMember (kvTaskIndexChanges before after).2 K m <-> (K, m) ∈ idxO before /\ (K, m) ∉ idxO after.
Proof. apply (changes_add after before). Qed.

Lemma changes_keys s before after g :
  (forall t, before = Some t -> goodTask s t) -> (forall t, after = Some t -> goodTask s t) ->
  g ∈ (kvTaskIndexChanges before after).1 \/ g ∈ (kvTaskIndexChanges before after).2 ->
  sm_Key g ∈ idxKeys /\ exists x, sm_Members g = [x].
Proof.
  intros Hb Ha Hg. assert (exists o, (o = before \/ o = after) /\ g ∈ kvTaskIndexes o) as (o & Ho & Hin).
  { destruct Hg as [[_ Hg]%list_elem_of_filter|[_ Hg]%list_elem_of_filter]; eauto. }
  destruct (indexes_single o g Hin) as [x Hx]. split; [|rewrite Hx; by exists x].
  rewrite Hx in Hin. apply idxO_member in Hin. destruct o as [t|]; [|by apply not_elem_of_nil in Hin].
  eapply idx_spec; [|exact Hin]. destruct Ho as [<-|<-]; auto.
Qed.

(** The index part of a transition's mutation. *)
Lemma changes_mem s M before after K m :
  (forall t, before = Some t -> goodTask s t) -> (forall t, after = Some t -> goodTask s t) ->
  K ∈ idxKeys ->
  m ∈ setOf (foldl (specGroup opts) M (((fun g => (2%nat, g)) <$> (kvTaskIndexChanges before after).1) ++
       ((fun g => (3%nat, g)) <$> (kvTaskIndexChanges before after).2))) (E K) <->
  (m ∈ setOf M (E K) \/ ((K, m) ∈ idxO after /\ (K, m) ∉ idxO before)) /\ ~ ((K, m) ∈ idxO before /\ (K, m) ∉ idxO after).
Proof.
  intros Hb Ha HK. rewrite <-changes_add, <-changes_remove. rewrite foldl_app.
  pose proof (fun g Hg => changes_keys s before after g Hb Ha (or_introl Hg)) as H1.
  pose proof (fun g Hg => changes_keys s before after g Hb Ha (or_intror Hg)) as H2.
  rewrite removes_mem by (intros g Hg; by apply H2). rewrite adds_mem by (intros g Hg; by apply H1).
  assert (forall gs, (forall g, g ∈ gs -> sm_Key g ∈ idxKeys) ->
    (exists g, g ∈ gs /\ E K = E (sm_Key g) /\ sm_Members g = [m]) <-> hasMember gs K m) as Heq.
  { intros gs Hgs. split; intros (g & Hg & EQ & Hm); exists g; split_and!; try done; [|by rewrite EQ].
    symmetry. apply pdKey_inj; [by apply pd_index|by apply pd_index, Hgs|done]. }
  rewrite (Heq _ (fun g Hg => proj1 (H1 g Hg))), (Heq _ (fun g Hg => proj1 (H2 g Hg))). done.
Qed.

(** ** Consequences of the invariant *)
Lemma taskAt_inv s M id t raw :
  taskAt s M id = Some (t, raw) ->
  exists data, recAt M (byIDKey id) = Some data /\ unmarshalRecord data = Some (t_Record t) /\
    r_DeletionID (t_Record t) = id /\ owns s (r_Kind (t_Record t)) = true /\ recAt M (kvTaskKey id) = Some raw /\
    decodeTask s (t_Record t) raw = Ret (t, raw).
Proof.
  unfold taskAt. destruct (recAt M (byIDKey id)) as [data|]; [|done].
  destruct (unmarshalRecord data) as [r|] eqn:Hu; [|done]. destruct (_ && _) eqn:Hb; [|done].
  apply andb_true_iff in Hb as [Hid%bool_decide_eq_true Ho].
  destruct (recAt M (kvTaskKey id)) as [raw'|]; [|done]. destruct (decodeTask s r raw') as [x|?|] eqn:Hd; [|done..].
  intros [= ->]. unfold decodeTask in Hd. destruct (unmarshalState raw') as [st|] eqn:Hst; [|done].
  apply bind_Ret in Hd as ([] & Hv & [= EQ ->]). exists data. rewrite <-EQ. cbn. split_and!; try done.
  unfold decodeTask. rewrite Hst. cbn zeta. by rewrite Hv.
Qed.

Lemma recAt_Some M k v : recAt M k = Some v -> M !! E k <> None.
Proof. unfold recAt. by destruct (M !! E k). Qed.

Lemma taskAt_good s M id t raw : Inv s M -> idOk id -> taskAt s M id = Some (t, raw) -> goodTask s t.
Proof.
  intros HI Hid Ht. pose proof (taskAt_inv _ _ _ _ _ Ht) as (data & _ & _ & _ & _ & Hraw & _).
  destruct (inv_task s M HI id Hid (recAt_Some _ _ _ Hraw)) as (t' & raw' & Ht' & Hg). by simplify_eq.
Qed.

(** Distinct tasks have distinct index members. *)
Lemma idx_disjoint s M id id' t raw t' K m :
  Inv s M -> idOk id -> idOk id' -> taskAt s M id = Some (t, raw) -> goodTask s t' -> r_DeletionID (t_Record t') = id' ->
  (K, m) ∈ idx t -> (K, m) ∈ idx t' -> id = id'.
Proof.
  intros HI Hid Hid' Ht Hg' Hr' H1 H2. pose proof (taskAt_good _ _ _ _ _ HI Hid Ht) as Hg.
  apply taskAt_inv in Ht as (? & _ & _ & Hr & _). destruct (idx_spec _ _ _ _ Hg H1) as (_ & a & Ha & ->).
  destruct (idx_spec _ _ _ _ Hg' H2) as (_ & b & Hb & EQ).
  apply kvIndexMember_id in EQ; [congruence|done|done|by rewrite Hr|by rewrite Hr'].
Qed.

(** ** The task codec *)
Lemma hexEncode_utf8 x : validUTF8 (hexEncode x) = true.
Proof.
  apply asciiOnly_valid. eapply allBytes_impl; [|apply hexEncode_alphabet]. intros a. byte_cases a; done.
Qed.

Lemma fingerprint_hex r fp : StoredFingerprint r = Ret fp -> exists d, fp = hexEncode (sha256 d).
Proof.
  unfold StoredFingerprint, Fingerprint. destruct (Record_Validate r) as [[]|e|]; cbn; [|by intros [= <-]; eauto|done].
  destruct (marshalRecord r); cbn; intros [= <-]; eauto.
Qed.

Lemma namePattern_utf8 x : namePattern x = true -> validUTF8 x = true.
Proof.
  intros Hx. apply asciiOnly_valid. destruct x as [|a x]; [done|]. cbn in Hx.
  apply andb_true_iff in Hx as [[Ha Hx]%andb_true_iff _]. unfold asciiOnly. cbn [allBytes]. apply andb_true_iff. split.
  - revert Ha. byte_cases a; done.
  - eapply allBytes_impl; [|exact Hx]. intros c. byte_cases c; done.
Qed.

Lemma status_utf8 x : Status_valid x = true -> validUTF8 x = true.
Proof.
  intros Hx%bool_decide_eq_true. rewrite !elem_of_cons in Hx.
  destruct Hx as [->|[->|[->|[->|Hx]]]]; [done..|by apply not_elem_of_nil in Hx].
Qed.

Lemma stored_text t :
  validateStoredTask t = Ret tt ->
  validUTF8 (t_MarkerFingerprint t) = true /\ validUTF8 (t_Status t) = true /\ validUTF8 (t_Phase t) = true.
Proof.
  intros Hv. split_and!.
  - unfold validateStoredTask in Hv. apply bind_Ret in Hv as ([] & _ & Hv). apply bind_Ret in Hv as ([] & Hf & _).
    destruct (StoredFingerprint (t_Record t)) as [fp|?|] eqn:HF; [|done..].
    apply check_Ret, negb_false_iff, bool_decide_eq_true in Hf as <-. apply fingerprint_hex in HF as [d ->]. apply hexEncode_utf8.
  - by apply status_utf8, stored_status.
  - unfold validateStoredTask in Hv. apply bind_Ret in Hv as ([] & _ & Hv). apply bind_Ret in Hv as ([] & _ & Hv).
    unfold validateTaskState in Hv. apply bind_Ret in Hv as ([] & _ & Hv). apply bind_Ret in Hv as ([] & Hp & _).
    unfold ValidatePhase in Hp. by apply check_Ret, negb_false_iff, namePattern_utf8 in Hp.
Qed.

Lemma taskTime_roundtrip x : timeOk x -> parseKVTaskTime (toValidUTF8 (formatKVTaskTime x)) = x.
Proof.
  intros Hx. unfold formatKVTaskTime, isZero, parseKVTaskTime. destruct (Z.eqb_spec x 0) as [->|Hne].
  - cbn. by rewrite nano_empty.
  - rewrite toValidUTF8_valid by (by apply asciiOnly_valid, nano_ascii). by rewrite nano_roundtrip.
Qed.

Lemma decode_encode s t : goodTask s t -> decodeTask s (t_Record t) (encodeKVTaskState t) = Ret (t, encodeKVTaskState t).
Proof.
  intros ((Htok & Hcode & Hmsg & Hn & Hl & Hu) & _ & _ & Hv & Hs). destruct (stored_text t Hv) as (Hfp & Hst & Hph).
  unfold decodeTask, encodeKVTaskState. rewrite state_roundtrip. unfold sanitizeState.
  cbn [st_MarkerFingerprint st_Status st_Phase st_FailureCount st_NextAttemptAt st_LeaseToken st_LeaseDeadline
       st_LastErrorCode st_LastErrorMessage st_UpdatedAt].
  rewrite !taskTime_roundtrip by done. rewrite !toValidUTF8_valid by done. rewrite <-Hs.
  destruct t; cbn in *. by rewrite Hv.
Qed.

(** ** Updating the indexes *)

(** A mutation that changes at most the task [id], and the index collections by the
    difference of its memberships, keeps the indexes exact. *)
Lemma index_update s M M' id K m :
  Inv s M -> idOk id ->
  (forall t raw, taskAt s M' id = Some (t, raw) -> goodTask s t /\ r_DeletionID (t_Record t) = id) ->
  (forall id', idOk id' -> id' <> id -> taskAt s M' id' = taskAt s M id') ->
  K ∈ idxKeys ->
  (m ∈ setOf M' (E K) <->
   let before := fst <$> taskAt s M id in let after := fst <$> taskAt s M' id in
   (m ∈ setOf M (E K) \/ ((K, m) ∈ idxO after /\ (K, m) ∉ idxO before)) /\ ~ ((K, m) ∈ idxO before /\ (K, m) ∉ idxO after)) ->
  m ∈ setOf M' (E K) <-> exists id t raw, idOk id /\ taskAt s M' id = Some (t, raw) /\ (K, m) ∈ idx t.
Proof.
  intros HI Hid Hgood Hother HK ->. cbn zeta. rewrite (inv_index s M HI K m HK). split.
  - intros [[(id0 & t0 & raw0 & Hid0 & Ht0 & Hm)|[Hm _]] Hrem].
    + destruct (decide (id0 = id)) as [->|Hne].
      * rewrite Ht0 in Hrem. cbn in Hrem. destruct (taskAt s M' id) as [[t' raw']|] eqn:Ht'; cbn in Hrem.
        -- destruct (decide ((K, m) ∈ idx t')) as [Hin|Hin]; [by exists id, t', raw'|]. by destruct Hrem.
        -- destruct Hrem. split; [done|]. by apply not_elem_of_nil.
      * exists id0, t0, raw0. rewrite Hother by done. done.
    + destruct (taskAt s M' id) as [[t' raw']|] eqn:Ht'; cbn in Hm; [|by apply not_elem_of_nil in Hm]. by exists id, t', raw'.
  - intros (id0 & t0 & raw0 & Hid0 & Ht0 & Hm). destruct (decide (id0 = id)) as [->|Hne].
    + rewrite Ht0. cbn. split; [|tauto]. destruct (taskAt s M id) as [[t raw]|] eqn:Ht; cbn.
      * destruct (decide ((K, m) ∈ idx t)); [left; by exists id, t, raw|by right].
      * right. split; [done|]. by apply not_elem_of_nil.
    + rewrite Hother in Ht0 by done. split; [left; by exists id0, t0, raw0|]. intros [Hb _].
      destruct (taskAt s M id) as [[t raw]|] eqn:Ht; cbn in Hb; [|by apply not_elem_of_nil in Hb].
      apply Hne. symmetry. pose proof (taskAt_good _ _ _ _ _ HI Hid0 Ht0) as Hg0.
      apply (idx_disjoint s M id id0 t raw t0 K m HI Hid Hid0 Ht Hg0); [|done..].
      by apply taskAt_inv in Ht0 as (? & _ & _ & ? & _).
Qed.

(** ** Transitions preserve the invariant *)
Lemma key_ne k1 k2 : pdKey k1 -> pdKey k2 -> k1 <> k2 -> E k1 <> E k2.
Proof. intros H1 H2 Hne EQ. by apply Hne, pdKey_inj. Qed.

Lemma idx_not_task K id : K ∈ idxKeys -> K <> kvTaskKey id.
Proof. intros (b & rest & -> & [-> | ->] & _)%idxKeys_spec; done. Qed.
Lemma idx_not_byID K id : K ∈ idxKeys -> K <> byIDKey id.
Proof. intros (b & rest & -> & [-> | ->] & _)%idxKeys_spec; done. Qed.
Lemma idx_not_locator K kind rid : K ∈ idxKeys -> K <> byLocatorKey kind rid.
Proof. intros (b & rest & -> & [-> | ->] & _)%idxKeys_spec; done. Qed.

Lemma recAt_ext M M' k : M' !! E k = M !! E k -> recAt M' k = recAt M k.
Proof. unfold recAt. by intros ->. Qed.

(** A key of a record of the namespace, as opposed to an index collection. *)
Definition recKey (k : Key) : Prop := pdKey k /\ forall K, K ∈ idxKeys -> k <> K.

Lemma rec_byID id : idOk id -> recKey (byIDKey id).
Proof. intros Hid. split; [by apply pd_byID|]. intros K HK. by apply not_eq_sym, idx_not_byID. Qed.
Lemma rec_task id : idOk id -> recKey (kvTaskKey id).
Proof. intros Hid. split; [by apply pd_task|]. intros K HK. by apply not_eq_sym, idx_not_task. Qed.
Lemma rec_locator kind rid : Kind_valid kind = true -> recKey (byLocatorKey kind rid).
Proof. intros Hk. split; [by apply pd_locator|]. intros K HK. by apply not_eq_sym, idx_not_locator. Qed.

(** The store after the index groups of a change from [before] to [after]. *)
Definition indexed (before after : option Task) (M : gmap string aval) : gmap string aval :=
  foldl (specGroup opts) M (((fun g => (2%nat, g)) <$> (kvTaskIndexChanges before after).1) ++
    ((fun g => (3%nat, g)) <$> (kvTaskIndexChanges before after).2)).

(** The index groups leave every other key of the namespace alone. *)
Lemma indexed_record s M before after k :
  (forall t, before = Some t -> goodTask s t) -> (forall t, after = Some t -> goodTask s t) ->
  recKey k -> indexed before after M !! E k = M !! E k.
Proof.
  intros Hb Ha [Hk Hne]. apply groups_other. intros pg Hpg.
  assert (sm_Key pg.2 ∈ idxKeys) as HK.
  { apply elem_of_app in Hpg as [(g & -> & Hg)%list_elem_of_fmap|(g & -> & Hg)%list_elem_of_fmap]; cbn;
      apply (changes_keys s before after g Hb Ha); auto. }
  apply key_ne; [done|by apply pd_index|by apply Hne].
Qed.

(** What a mutation has to do to the keys of one identifier, to the indexes and to
    the locators to keep the invariant. *)
Lemma Inv_update s M M' id :
  Inv s M -> idOk id ->
  (forall id', idOk id' -> id' <> id ->
    M' !! E (byIDKey id') = M !! E (byIDKey id') /\ M' !! E (kvTaskKey id') = M !! E (kvTaskKey id')) ->
  (exists t raw, taskAt s M' id = Some (t, raw) /\ goodTask s t) \/
    (M' !! E (byIDKey id) = None /\ M' !! E (kvTaskKey id) = None) ->
  (forall K m, K ∈ idxKeys ->
    m ∈ setOf M' (E K) <->
    let before := fst <$> taskAt s M id in let after := fst <$> taskAt s M' id in
    (m ∈ setOf M (E K) \/ ((K, m) ∈ idxO after /\ (K, m) ∉ idxO before)) /\ ~ ((K, m) ∈ idxO before /\ (K, m) ∉ idxO after)) ->
  (forall kind rid id', Kind_valid kind = true ->
    recAt M' (byLocatorKey kind rid) = Some id' <->
    (id' <> id /\ recAt M (byLocatorKey kind rid) = Some id') \/
    (id' = id /\ exists t raw, taskAt s M' id = Some (t, raw) /\ r_Kind (t_Record t) = kind /\ r_ResourceID (t_Record t) = rid)) ->
  Inv s M'.
Proof.
  intros HI Hid Hkeys Htask Hidx Hloc.
  assert (forall id', idOk id' -> id' <> id -> taskAt s M' id' = taskAt s M id') as Hoth.
  { intros id' Hid' Hne. destruct (Hkeys id' Hid' Hne). by apply taskAt_ext. }
  split.
  - intros id' Hid' Hp. destruct (decide (id' = id)) as [->|Hne].
    + destruct Htask as [?|[_ H2]]; [done|]. by rewrite H2 in Hp.
    + rewrite (proj2 (Hkeys id' Hid' Hne)) in Hp. rewrite Hoth by done. by apply (inv_task s M HI).
  - intros id' Hid' Hp. destruct (decide (id' = id)) as [->|Hne].
    + destruct Htask as [(t & raw & Ht & _)|[H1 _]]; [|by rewrite H1 in Hp].
      apply taskAt_inv in Ht as (? & _ & _ & _ & _ & Hraw & _). by eapply recAt_Some.
    + destruct (Hkeys id' Hid' Hne) as [H1 H2]. rewrite H1 in Hp. rewrite H2. by apply (inv_marker s M HI).
  - intros K m HK. apply (index_update s M M' id K m); [done|done| |done|done|by apply Hidx].
    intros t raw Ht. split; [|by apply taskAt_inv in Ht as (? & _ & _ & ? & _)].
    destruct Htask as [(t' & raw' & Ht' & Hg)|[H1 _]]; [by simplify_eq|].
    apply taskAt_inv in Ht as (? & Hd & _). unfold recAt in Hd. by rewrite H1 in Hd.
  - intros kind rid id' Hk. rewrite Hloc by done. destruct (decide (id' = id)) as [->|Hne].
    + split; [|intros [_ ?]; by right]. intros [[? _]|[_ ?]]; [done|by split].
    + rewrite (inv_locator s M HI kind rid id' Hk). split.
      * intros [[_ [Hi (t & raw & Ht & HH)]]|[? _]]; [|done]. split; [done|]. exists t, raw. by rewrite Hoth.
      * intros [Hi (t & raw & Ht & HH)]. left. split; [done|]. split; [done|]. exists t, raw. by rewrite Hoth in Ht.
Qed.

(** A mutation of one identifier: a base [M1] that changes at most the marker, the
    task and locators, followed by the index changes. *)
Definition keepsOthers (id : string) (M M1 : gmap string aval) : Prop :=
  forall k, pdKey k -> k <> byIDKey id -> k <> kvTaskKey id -> (forall kind rid, k <> byLocatorKey kind rid) -> M1 !! E k = M !! E k.

Lemma Inv_indexed s M M1 id before after :
  Inv s M -> idOk id -> keepsOthers id M M1 ->
  fst <$> taskAt s M id = before -> (forall t, after = Some t -> goodTask s t) ->
  let M' := indexed before after M1 in
  fst <$> taskAt s M' id = after ->
  (after = None -> M1 !! E (byIDKey id) = None /\ M1 !! E (kvTaskKey id) = None) ->
  (forall kind rid id', Kind_valid kind = true ->
    recAt M1 (byLocatorKey kind rid) = Some id' <->
    (id' <> id /\ recAt M (byLocatorKey kind rid) = Some id') \/
    (id' = id /\ exists t, after = Some t /\ r_Kind (t_Record t) = kind /\ r_ResourceID (t_Record t) = rid)) ->
  Inv s M' /\ (forall id', idOk id' -> id' <> id -> taskAt s M' id' = taskAt s M id').
Proof.
  intros HI Hid Hkeep Hb Ga M' Ha Hnone Hloc.
  assert (forall t, before = Some t -> goodTask s t) as Gb.
  { intros t Ht. rewrite Ht in Hb. destruct (taskAt s M id) as [[t0 raw]|] eqn:E0; cbn in Hb; [|done].
    injection Hb as ->. by eapply taskAt_good. }
  assert (forall k, recKey k -> M' !! E k = M1 !! E k) as Hrecs by (intros; by eapply indexed_record).
  assert (forall id', idOk id' -> id' <> id ->
    M' !! E (byIDKey id') = M !! E (byIDKey id') /\ M' !! E (kvTaskKey id') = M !! E (kvTaskKey id')) as Hkeys.
  { intros id' Hid' Hne. rewrite !Hrecs by (by apply rec_byID || by apply rec_task).
    split; apply Hkeep; try done; [by apply pd_byID|by intros [= EQ]|by apply pd_task|by intros [= EQ]]. }
  split; [|intros id' Hid' Hne; destruct (Hkeys id' Hid' Hne); by apply taskAt_ext].
  apply (Inv_update s M M' id); [done..| | |].
  - destruct (taskAt s M' id) as [[t raw]|] eqn:Ht; cbn in Ha; [left; eauto|]. right. rewrite !Hrecs by (by apply rec_byID || by apply rec_task). auto.
  - intros K m HK. cbn zeta. rewrite Hb, Ha. unfold M' at 1, indexed. rewrite (changes_mem s _ _ _ _ _ Gb Ga HK).
    rewrite (setOf_ext M M1); [done|]. apply Hkeep; [by apply pd_index|by apply idx_not_byID|by apply idx_not_task|intros; by apply idx_not_locator].
  - intros kind rid id' Hk. rewrite (recAt_ext M1 M') by (by apply Hrecs, rec_locator). rewrite Hloc by done.
    destruct (taskAt s M' id) as [[t raw]|] eqn:Ht; cbn in Ha; rewrite <-Ha; naive_solver.
Qed.

(** Reading back a task whose record and state were written by an encoder. *)
Lemma taskAt_written s M id data t :
  recAt M (byIDKey id) = Some data -> unmarshalRecord data = Some (t_Record t) -> r_DeletionID (t_Record t) = id ->
  owns s (r_Kind (t_Record t)) = true -> M !! E (kvTaskKey id) = Some (ARec (encodeKVTaskState t) 0) -> goodTask s t ->
  taskAt s M id = Some (t, encodeKVTaskState t).
Proof.
  intros HB Hun Hid Hown HT Hg. unfold taskAt. rewrite HB, Hun, bool_decide_eq_true_2, Hown by done. cbn [andb].
  unfold recAt. rewrite HT. by rewrite decode_encode.
Qed.

Lemma transition_inv s M id t raw t' :
  Inv s M -> idOk id -> taskAt s M id = Some (t, raw) ->
  goodTask s t' -> t_Record t' = t_Record t ->
  let M' := specMutation opts (taskMutation t t' raw) M in
  Inv s M' /\ taskAt s M' id = Some (t', encodeKVTaskState t') /\
  (forall id', idOk id' -> id' <> id -> taskAt s M' id' = taskAt s M id').
Proof.
  intros HI Hid Ht Hg' Hrec M'. pose proof (taskAt_good _ _ _ _ _ HI Hid Ht) as Hg.
  pose proof (taskAt_inv _ _ _ _ _ Ht) as (data & Hdata & Hun & Hrid & Hown & Hraw & Hdec).
  set (M1 := <[E (kvTaskKey id) := ARec (encodeKVTaskState t') 0]> M).
  assert (M' = indexed (Some t) (Some t') M1) as ->.
  { unfold M', indexed, taskMutation, specMutation, phases. rewrite (surjective_pairing (kvTaskIndexChanges _ _)). cbn.
    by rewrite Hrec, Hrid. }
  assert (forall k, pdKey k -> k <> kvTaskKey id -> M1 !! E k = M !! E k) as Hsame.
  { intros k Hk Hne. apply lookup_insert_ne, not_eq_sym, key_ne; [done|by apply pd_task|done]. }
  assert (forall k, recKey k -> indexed (Some t) (Some t') M1 !! E k = M1 !! E k) as Hrecs.
  { intros k Hk. apply (indexed_record s); [by intros ? [= <-]..|done]. }
  assert (taskAt s (indexed (Some t) (Some t') M1) id = Some (t', encodeKVTaskState t')) as Ht'.
  { apply (taskAt_written s _ id data); rewrite ?Hrec; try done.
    - rewrite (recAt_ext M); [done|]. rewrite Hrecs by (by apply rec_byID). apply Hsame; [by apply pd_byID|done].
    - rewrite Hrecs by (by apply rec_task). apply lookup_insert_eq. }
  destruct (Inv_indexed s M M1 id (Some t) (Some t')) as [HI' Hoth]; try done.
  - intros k Hk _ Hne _. by apply Hsame.
  - by rewrite Ht.
  - by intros ? [= <-].
  - by rewrite Ht'.
  - intros kind rid id' Hk. rewrite (recAt_ext M M1) by (apply Hsame; [by apply pd_locator|done]).
    rewrite (inv_locator s M HI kind rid id' Hk). destruct (decide (id' = id)) as [->|Hne]; [rewrite Ht|naive_solver]. split.
    + intros [_ (u & r & [= <- <-] & HK & HR)]. right. split; [done|]. exists t'. by rewrite Hrec.
    + intros [[? _]|[_ (u & [= <-] & HK & HR)]]; [done|]. split; [done|]. exists t, raw. by rewrite <-Hrec.
Qed.

(** ** Creation preserves the invariant *)
Lemma validate_compact r :
  Record_Validate r = Ret tt -> Record_Validate (withDescriptor r (compactJSON (r_Descriptor r))) = Ret tt.
Proof.
  unfold Record_Validate, withDescriptor. cbn [r_Kind r_ResourceID r_OwnerPublicKey r_DeletionID r_Reason r_DeletedAt r_DescriptorVersion r_Descriptor].
  intros HH. repeat (apply bind_Ret in HH as (? & -> & HH); cbn [mbind Go_bind]).
  apply check_Ret, orb_false_iff in HH as [Hd Hj]. apply bool_decide_eq_false in Hd. apply negb_false_iff in Hj.
  destruct (compact_valid (r_Descriptor r) Hj Hd) as [Hj' Hd']. rewrite Hj', bool_decide_eq_false_2 by done. done.
Qed.

Lemma fingerprint_compact r fp :
  Fingerprint r = Ret fp -> StoredFingerprint (withDescriptor r (compactJSON (r_Descriptor r))) = Ret fp.
Proof.
  unfold Fingerprint. intros ([] & Hv & HH)%bind_Ret. unfold StoredFingerprint, Fingerprint.
  rewrite (validate_compact r Hv). cbn [mbind Go_bind]. rewrite marshal_compact. destruct (marshalRecord r); [|done].
  by injection HH as <-.
Qed.

Lemma sourceName_valid name : namePattern name = true -> validSource name = Ret tt.
Proof.
  intros Hn. assert (allBytes nameByte name = true) as HB.
  { destruct name as [|a x]; [done|]. cbn in Hn. apply andb_true_iff in Hn as [[Ha Hx]%andb_true_iff _]. cbn [allBytes].
    apply andb_true_iff. split; [revert Ha; byte_cases a; done|].
    eapply allBytes_impl; [|exact Hx]. intros c. byte_cases c; done. }
  unfold validSource. rewrite trimSpace_name by done. rewrite bool_decide_eq_false_2 by (by intros ->).
  by rewrite bool_decide_eq_true_2.
Qed.

(** The task a creation stores, as the source [s] reads it. *)
Definition createdTask (s : KVSource) (record : Record_) (fp : string) : Task :=
  let t := initialTask (withDescriptor record (compactJSON (r_Descriptor record))) fp in
  MkTask (s_SourceName s) (t_Record t) fp (t_Status t) (t_Phase t) 0 (t_NextAttemptAt t) EmptyString 0 EmptyString EmptyString (t_UpdatedAt t).

Lemma createdTask_good s record fp :
  namePattern (s_SourceName s) = true -> recordText record -> Fingerprint record = Ret fp -> goodTask s (createdTask s record fp).
Proof.
  intros Hs (_ & _ & _ & _ & _ & Ht) HF. pose proof HF as HF'. unfold Fingerprint in HF'. apply bind_Ret in HF' as ([] & Hv & _).
  unfold Record_Validate in Hv. apply bind_Ret in Hv as ([] & Hk%check_Ret%negb_false_iff & Hv).
  repeat (apply bind_Ret in Hv as (? & ?Hx & Hv)). 
  assert (isZero (r_DeletedAt record) = false) as Hz.
  { match goal with HH : check (isZero _) _ = Ret _ |- _ => by apply check_Ret in HH end. }
  split_and!; try done.
  unfold validateStoredTask. cbn [createdTask t_Source t_Record initialTask]. rewrite sourceName_valid by done. cbn [mbind Go_bind].
  rewrite (fingerprint_compact record fp HF). cbn [t_MarkerFingerprint createdTask]. rewrite bool_decide_eq_true_2 by done. cbn [negb check mbind Go_bind].
  unfold validateTaskState. cbn. rewrite Hz. done.
Qed.

Lemma locatorKey_inj kind rid kind' rid' : byLocatorKey kind rid = byLocatorKey kind' rid' -> kind = kind' /\ rid = rid'.
Proof. intros EQ. unfold byLocatorKey in EQ. injection EQ as -> EQ. split; [done|]. by apply b64Encode_inj. Qed.

(** The records a creation writes, and where the store stays as it was. *)
Definition createBase M (record : Record_) (data state : string) : gmap string aval :=
  let id := r_DeletionID record in
  <[E (kvTaskKey id) := ARec state 0]> (<[E (byLocatorKey (r_Kind record) (r_ResourceID record)) := ARec id 0]>
    (<[E (byIDKey id) := ARec data 0]> M)).

Lemma created_base M record data state :
  idOk (r_DeletionID record) -> Kind_valid (r_Kind record) = true ->
  let id := r_DeletionID record in let loc := byLocatorKey (r_Kind record) (r_ResourceID record) in
  let M1 := createBase M record data state in
  M1 !! E (byIDKey id) = Some (ARec data 0) /\ M1 !! E (kvTaskKey id) = Some (ARec state 0) /\ M1 !! E loc = Some (ARec id 0) /\
  forall k, pdKey k -> k <> byIDKey id -> k <> kvTaskKey id -> k <> loc -> M1 !! E k = M !! E k.
Proof.
  intros Hid Hk id loc M1. pose proof (pd_byID id Hid) as P1. pose proof (pd_task id Hid) as P2.
  pose proof (pd_locator (r_Kind record) (r_ResourceID record) Hk) as P3. unfold M1, createBase. fold id loc. split_and!.
  - rewrite lookup_insert_ne by (by apply key_ne). rewrite lookup_insert_ne by (by apply key_ne). apply lookup_insert_eq.
  - apply lookup_insert_eq.
  - rewrite lookup_insert_ne by (by apply key_ne). apply lookup_insert_eq.
  - intros k Hk' N1 N2 N3. rewrite !lookup_insert_ne; [done|..]; apply not_eq_sym; by apply key_ne.
Qed.

Lemma created_locator s M record data state t kind rid id' :
  Inv s M -> idOk (r_DeletionID record) -> Kind_valid (r_Kind record) = true -> Kind_valid kind = true ->
  M !! E (byLocatorKey (r_Kind record) (r_ResourceID record)) = None -> taskAt s M (r_DeletionID record) = None ->
  r_Kind (t_Record t) = r_Kind record -> r_ResourceID (t_Record t) = r_ResourceID record ->
  let id := r_DeletionID record in
  recAt (createBase M record data state) (byLocatorKey kind rid) = Some id' <->
  (id' <> id /\ recAt M (byLocatorKey kind rid) = Some id') \/
  (id' = id /\ exists u, Some t = Some u /\ r_Kind (t_Record u) = kind /\ r_ResourceID (t_Record u) = rid).
Proof.
  intros HI Hid Hk Hkind C1 Hnone EK ER id. destruct (created_base M record data state Hid Hk) as (_ & _ & HL & Hsame).
  destruct (decide (byLocatorKey kind rid = byLocatorKey (r_Kind record) (r_ResourceID record))) as [EQ|Hne].
  - unfold recAt. rewrite EQ, HL, C1. apply locatorKey_inj in EQ as [-> ->]. naive_solver.
  - rewrite (recAt_ext M) by (apply Hsame; [by apply pd_locator|done..]). split.
    + intros Hr. left. split; [|done]. intros ->. apply (inv_locator s M HI kind rid id Hkind) in Hr as [_ (u & r & Hu & _)]. unfold id in Hu. congruence.
    + intros [[_ ?]|[-> (u & [= <-] & EK' & ER')]]; [done|]. destruct Hne. congruence.
Qed.

Lemma create_inv s M record data fp :
  Inv s M -> namePattern (s_SourceName s) = true -> recordText record -> idOk (r_DeletionID record) ->
  owns s (r_Kind record) = true -> Fingerprint record = Ret fp -> marshalRecord record = Some data ->
  let id := r_DeletionID record in
  let mu := createMutation record [MkEntry (byIDKey id) data 0] (initialTask record fp) in
  Forall (specCondition opts M) (mut_Conditions mu) ->
  let M' := specMutation opts mu M in
  Inv s M' /\ taskAt s M' id = Some (createdTask s record fp, encodeKVTaskState (createdTask s record fp)) /\
  (forall id', idOk id' -> id' <> id -> taskAt s M' id' = taskAt s M id') /\
  recAt M' (byLocatorKey (r_Kind record) (r_ResourceID record)) = Some id.
Proof.
  intros HI Hname Htext Hid Hown HF Hdata id mu Hcond M'.
  pose proof (createdTask_good s record fp Hname Htext HF) as Hg. pose proof Hg as (_ & Hk & _).
  change (r_Kind (t_Record (createdTask s record fp))) with (r_Kind record) in Hk.
  set (loc := byLocatorKey (r_Kind record) (r_ResourceID record)).
  apply Forall_cons in Hcond as [C1 Hcond]. apply Forall_cons in Hcond as [C2 _].
  unfold specCondition in C1, C2. cbn [cond_Expected cond_Key] in C1, C2. fold loc id in C1, C2.
  assert (taskAt s M id = None) as Hnone by (unfold taskAt, recAt; by rewrite C2).
  set (t := createdTask s record fp) in *.
  destruct (created_base M record data (encodeKVTaskState t) Hid Hk) as (HB & HT & HL & Hsame). fold id loc in HB, HT, HL, Hsame.
  change M' with (indexed None (Some t) (createBase M record data (encodeKVTaskState t))).
  set (M1 := createBase M record data (encodeKVTaskState t)) in *.
  assert (forall k, recKey k -> indexed None (Some t) M1 !! E k = M1 !! E k) as Hrecs.
  { intros k Hk'. apply (indexed_record s); [done|by intros ? [= <-]|done]. }
  assert (taskAt s (indexed None (Some t) M1) id = Some (t, encodeKVTaskState t)) as Ht.
  { apply (taskAt_written s _ id data); try done.
    - unfold recAt. rewrite Hrecs, HB; [done|by apply rec_byID].
    - by apply record_roundtrip.
    - by rewrite Hrecs, HT by (by apply rec_task). }
  destruct (Inv_indexed s M M1 id None (Some t)) as [HI' Hoth]; try done.
  - intros k Hk' N1 N2 N3. apply Hsame; [done..|apply N3].
  - by rewrite Hnone.
  - by intros ? [= <-].
  - by rewrite Ht.
  - intros kind rid id' Hkind. by apply (created_locator s).
  - split_and!; [done..|]. unfold recAt. rewrite Hrecs, HL; [done|by apply rec_locator].
Qed.

(** ** Finalization preserves the invariant *)
Lemma appendKeys domain ks acc acc' :
  foldGo (appendKey domain) acc ks = Ret acc' ->
  acc'.2 = acc.2 ++ ks /\ (domain = true -> Forall (fun k => validateFinalizeDomainKey k = Ret tt) ks).
Proof.
  revert acc. induction ks as [|k ks IH]; intros acc; cbn [foldGo].
  - intros [= <-]. rewrite app_nil_r. by split; [|constructor].
  - intros (acc1 & H1 & H2)%bind_Ret. destruct acc as [seen keys]. unfold appendKey in H1.
    apply bind_Ret in H1 as ([] & Hv & H1). apply bind_Ret in H1 as (_ & _ & [= <-]).
    destruct (IH _ H2) as [E2 F2]. cbn in E2. split; [by rewrite E2, <-app_assoc|]. intros ->. constructor; auto.
Qed.

Lemma finalizeKeys record domainKeys keys :
  kvFinalizeDeleteKeys record domainKeys = Ret keys ->
  keys = domainKeys ++ commonKeys record /\ Forall (fun k => validateFinalizeDomainKey k = Ret tt) domainKeys.
Proof.
  unfold kvFinalizeDeleteKeys. intros (acc1 & H1 & (acc2 & H2 & [= <-])%bind_Ret)%bind_Ret.
  apply appendKeys in H1 as [E1 F1], H2 as [E2 _]. rewrite E2, E1. split; [done|by apply F1].
Qed.

Lemma checkFinalize_domain keys entries groups :
  checkFinalizeKeys keys entries groups = Ret tt ->
  Forall (fun en => validateFinalizeDomainKey (entry_Key en) = Ret tt) entries /\
  Forall (fun g => validateFinalizeDomainKey (sm_Key g) = Ret tt) groups.
Proof.
  unfold checkFinalizeKeys. intros (seen & H1 & H2)%bind_Ret. split.
  - eapply foldGo_Forall; [|exact H1]. intros b en b'. unfold checkEntryKey. by intros ([] & Hv & _)%bind_Ret.
  - apply each_Ret in H2. eapply Forall_impl; [exact H2|]. cbn. intros g. unfold checkGroupKey. by intros ([] & Hv & _)%bind_Ret.
Qed.

(** The store after the entries, deletions and domain collections of a finalization. *)
Definition finalBase M (claim : Claim) (entries : list Entry) (deleteKeys : list Key) (groups : list SetMembers) : gmap string aval :=
  foldl (specGroup opts)
    (foldl (fun M key => delete (E key) M)
      (foldl (fun M en => <[E (entry_Key en) := ARec (entry_Value en) (entry_Deadline en)]> M) M entries)
      (deleteKeys ++ commonKeys (t_Record claim)))
    ((fun g => (1%nat, g)) <$> groups).

Lemma finalize_split M t raw claim conditions entries deleteKeys groups :
  specMutation opts (finalizeMutation claim t raw conditions entries (deleteKeys ++ commonKeys (t_Record claim)) groups) M =
  indexed (Some t) None (finalBase M claim entries deleteKeys groups).
Proof.
  unfold indexed, specMutation, phases, finalBase.
  cbn [finalizeMutation mut_AddMembers mut_RemoveMembers mut_AddOrderedMembers mut_RemoveOrderedMembers mut_Entries mut_DeleteKeys].
  cbn [fmap list_fmap app kvTaskIndexChanges fst snd filter]. by rewrite foldl_app.
Qed.

Lemma commonKeys_pd claim k :
  idOk (r_DeletionID (t_Record claim)) -> Kind_valid (r_Kind (t_Record claim)) = true -> k ∈ commonKeys (t_Record claim) -> pdKey k.
Proof.
  intros Hid Hk Hd. unfold commonKeys in Hd. rewrite !elem_of_cons in Hd.
  destruct Hd as [->|[->|[->|Hd]]]; [by apply pd_byID|by apply pd_locator|by apply pd_task|by apply not_elem_of_nil in Hd].
Qed.

(** A key outside the namespace that the store accepts. *)
Definition domainKey (k : Key) : Prop := cleanKey opts k /\ validateFinalizeDomainKey k = Ret tt.

Lemma domainKey_inj k1 k2 : domainKey k1 -> domainKey k2 -> E k1 = E k2 -> k1 = k2.
Proof.
  intros [C1 V1] [C2 V2]. apply encK_inj; [done|done|by intros ->|by intros ->].
Qed.

Lemma finalize_domain claim t raw conditions entries deleteKeys keys groups :
  kvFinalizeDeleteKeys (t_Record claim) deleteKeys = Ret keys -> checkFinalizeKeys keys entries groups = Ret tt ->
  Forall (cleanKey opts) (namedKeys (finalizeMutation claim t raw conditions entries keys groups)) ->
  keys = deleteKeys ++ commonKeys (t_Record claim) /\
  (forall en, en ∈ entries -> domainKey (entry_Key en)) /\ (forall k, k ∈ deleteKeys -> domainKey k) /\
  (forall g, g ∈ groups -> domainKey (sm_Key g)).
Proof.
  intros HK HE Hclean. apply finalizeKeys in HK as [-> HD]. apply checkFinalize_domain in HE as [HEn HGr].
  unfold namedKeys in Hclean. rewrite !Forall_app in Hclean. destruct Hclean as (_ & CE & CDl & CG).
  cbn [finalizeMutation mut_Entries mut_DeleteKeys] in CE, CDl. rewrite Forall_app in CDl. destruct CDl as [CDl _].
  rewrite Forall_map, Forall_forall in CE. rewrite Forall_map, Forall_forall in CG.
  rewrite Forall_forall in HD. rewrite Forall_forall in HEn. rewrite Forall_forall in HGr. rewrite Forall_forall in CDl.
  split; [done|]. unfold domainKey. split_and!; [intros; split; auto..|]. intros g Hg. split; [|auto].
  apply (CG (1%nat, g)). unfold phases. cbn. apply elem_of_app. left. by apply list_elem_of_fmap_2.
Qed.

Lemma finalBase_lookup M claim entries deleteKeys groups k :
  idOk (r_DeletionID (t_Record claim)) -> Kind_valid (r_Kind (t_Record claim)) = true ->
  (forall en, en ∈ entries -> domainKey (entry_Key en)) -> (forall k, k ∈ deleteKeys -> domainKey k) ->
  (forall g, g ∈ groups -> domainKey (sm_Key g)) -> pdKey k ->
  finalBase M claim entries deleteKeys groups !! E k = if bool_decide (k ∈ commonKeys (t_Record claim)) then None else M !! E k.
Proof.
  intros Hid Hkind HEn HD HGr Hk. unfold finalBase. rewrite groups_other.
  2:{ intros pg (g & -> & Hin)%list_elem_of_fmap. cbn. destruct (HGr g Hin). by apply domain_ne. }
  rewrite deletes_lookup, entries_other by (intros en Hin; destruct (HEn en Hin); by apply domain_ne).
  rewrite fmap_app. case_bool_decide as H1; case_bool_decide as H2; try done.
  - exfalso. apply elem_of_app in H1 as [(d & EQ & Hd)%list_elem_of_fmap|(d & EQ & Hd)%list_elem_of_fmap].
    + destruct (HD d Hd). revert EQ. by apply domain_ne.
    + apply H2. rewrite (pdKey_inj k d Hk); [done|by eapply commonKeys_pd|done].
  - exfalso. apply H1, elem_of_app. right. by apply list_elem_of_fmap_2.
Qed.

Lemma final_base M claim entries deleteKeys groups :
  let id := r_DeletionID (t_Record claim) in
  let loc := byLocatorKey (r_Kind (t_Record claim)) (r_ResourceID (t_Record claim)) in
  idOk id -> Kind_valid (r_Kind (t_Record claim)) = true ->
  (forall en, en ∈ entries -> domainKey (entry_Key en)) -> (forall k, k ∈ deleteKeys -> domainKey k) ->
  (forall g, g ∈ groups -> domainKey (sm_Key g)) ->
  let M3 := finalBase M claim entries deleteKeys groups in
  M3 !! E (byIDKey id) = None /\ M3 !! E (kvTaskKey id) = None /\ M3 !! E loc = None /\
  forall k, pdKey k -> k <> byIDKey id -> k <> kvTaskKey id -> k <> loc -> M3 !! E k = M !! E k.
Proof.
  intros id loc Hid Hkind HEn HD HGr M3.
  pose proof (fun k => finalBase_lookup M claim entries deleteKeys groups k Hid Hkind HEn HD HGr) as H3.
  assert (forall k, k ∈ commonKeys (t_Record claim) <-> k = byIDKey id \/ k = loc \/ k = kvTaskKey id) as Hcommon.
  { intros k. unfold commonKeys. fold id loc. rewrite !elem_of_cons. pose proof (not_elem_of_nil k). tauto. }
  split_and!.
  - unfold M3. rewrite H3 by (by apply pd_byID). rewrite bool_decide_eq_true_2; [done|]. apply Hcommon. auto.
  - unfold M3. rewrite H3 by (by apply pd_task). rewrite bool_decide_eq_true_2; [done|]. apply Hcommon. auto.
  - unfold M3. rewrite H3 by (by apply pd_locator). rewrite bool_decide_eq_true_2; [done|]. apply Hcommon. auto.
  - intros k Hk N1 N2 N3. unfold M3. rewrite H3 by done. rewrite bool_decide_eq_false_2; [done|]. rewrite Hcommon. tauto.
Qed.

Lemma finalized_locator s M M3 id t raw loc kind rid id' :
  Inv s M -> idOk id -> taskAt s M id = Some (t, raw) -> Kind_valid (r_Kind (t_Record t)) = true -> Kind_valid kind = true ->
  loc = byLocatorKey (r_Kind (t_Record t)) (r_ResourceID (t_Record t)) -> M3 !! E loc = None ->
  (forall k, pdKey k -> k <> byIDKey id -> k <> kvTaskKey id -> k <> loc -> M3 !! E k = M !! E k) ->
  recAt M3 (byLocatorKey kind rid) = Some id' <->
  (id' <> id /\ recAt M (byLocatorKey kind rid) = Some id') \/
  (id' = id /\ exists u, None = Some u /\ r_Kind (t_Record u) = kind /\ r_ResourceID (t_Record u) = rid).
Proof.
  intros HI Hid Ht Hkt Hk -> HL Hkept.
  destruct (decide (byLocatorKey kind rid = byLocatorKey (r_Kind (t_Record t)) (r_ResourceID (t_Record t)))) as [EQ|Hne].
  - assert (recAt M (byLocatorKey kind rid) = Some id) as Hr.
    { rewrite EQ. apply (inv_locator s M HI); [done|]. split; [done|]. by exists t, raw. }
    unfold recAt at 1. rewrite EQ, HL, <-EQ, Hr. naive_solver.
  - rewrite (recAt_ext M) by (apply Hkept; [by apply pd_locator|done..]).
    split; [|naive_solver]. intros Hr. left. split; [|done]. intros ->.
    apply (inv_locator s M HI kind rid id Hk) in Hr as [_ (u & r & Hu & EK' & ER')]. rewrite Ht in Hu. injection Hu as <- _. congruence.
Qed.

Lemma finalize_inv s M t raw claim conditions entries deleteKeys keys groups :
  let id := r_DeletionID (t_Record claim) in
  Inv s M -> idOk id -> taskAt s M id = Some (t, raw) ->
  r_Kind (t_Record t) = r_Kind (t_Record claim) -> r_ResourceID (t_Record t) = r_ResourceID (t_Record claim) ->
  kvFinalizeDeleteKeys (t_Record claim) deleteKeys = Ret keys -> checkFinalizeKeys keys entries groups = Ret tt ->
  let mu := finalizeMutation claim t raw conditions entries keys groups in
  Forall (cleanKey opts) (namedKeys mu) ->
  let M' := specMutation opts mu M in
  Inv s M' /\ M' !! E (byIDKey id) = None /\ M' !! E (kvTaskKey id) = None /\
  M' !! E (byLocatorKey (r_Kind (t_Record claim)) (r_ResourceID (t_Record claim))) = None /\
  (forall id', idOk id' -> id' <> id -> taskAt s M' id' = taskAt s M id').
Proof.
  intros id HI Hid Ht EK ER HK HE mu Hclean M'. pose proof (taskAt_good _ _ _ _ _ HI Hid Ht) as Hg.
  assert (Kind_valid (r_Kind (t_Record claim)) = true) as Hkind by (rewrite <-EK; apply Hg).
  set (loc := byLocatorKey (r_Kind (t_Record claim)) (r_ResourceID (t_Record claim))).
  destruct (finalize_domain _ _ _ _ _ _ _ _ HK HE Hclean) as (-> & HEn & HD & HGr).
  pose proof (finalize_split M t raw claim conditions entries deleteKeys groups) as EM'. fold mu M' in EM'.
  destruct (final_base M claim entries deleteKeys groups Hid Hkind HEn HD HGr) as (HB & HT & HL & Hkept). fold id loc in HB, HT, HL, Hkept.
  set (M3 := finalBase M claim entries deleteKeys groups) in *.
  assert (forall k, recKey k -> M' !! E k = M3 !! E k) as Hrecs.
  { intros k Hk. rewrite EM'. apply (indexed_record s); [by intros ? [= <-]|done|done]. }
  assert (M' !! E (byIDKey id) = None) as HB' by (rewrite Hrecs; [done|by apply rec_byID]).
  assert (taskAt s M' id = None) as Hnone by (unfold taskAt, recAt; by rewrite HB').
  destruct (Inv_indexed s M M3 id (Some t) None) as [HI' Hoth]; try done.
  - intros k Hk N1 N2 N3. apply Hkept; [done..|apply N3].
  - by rewrite Ht.
  - by rewrite <-EM', Hnone.
  - intros kind rid id' Hk. apply (finalized_locator s M M3 id t raw loc); try done; [apply Hg|]. unfold loc. congruence.
  - rewrite <-EM' in HI', Hoth. split_and!; [done|done| | |done]; rewrite Hrecs; try done; [by apply rec_task|by apply rec_locator].
Qed.

(** ** The domain part of a finalization *)
Lemma checkEntries_spec seen entries seen' :
  foldGo checkEntryKey seen entries = Ret seen' ->
  NoDup (entry_Key <$> entries) /\ (forall en, en ∈ entries -> kvKeyIdentity (entry_Key en) ∉ seen) /\
  (forall x, x ∈ seen' <-> x ∈ seen \/ x ∈ (kvKeyIdentity ∘ entry_Key <$> entries)).
Proof.
  revert seen. induction entries as [|en entries IH]; intros seen; cbn [foldGo].
  - intros [= <-]. split_and!; [constructor|by intros ? ?%not_elem_of_nil|]. intros x. cbn. rewrite elem_of_nil. tauto.
  - intros (s1 & H1 & H2)%bind_Ret. unfold checkEntryKey in H1. apply bind_Ret in H1 as ([] & _ & H1).
    apply bind_Ret in H1 as ([] & Hn%check_Ret%bool_decide_eq_false & [= <-]).
    apply IH in H2 as (HN & HF & Hx). cbn. split_and!.
    + apply NoDup_cons. split; [|done]. intros (e2 & EQ & Hin)%list_elem_of_fmap. apply (HF e2 Hin). rewrite <-EQ. set_solver.
    + intros e2 [->|Hin]%elem_of_cons; [done|]. specialize (HF e2 Hin). set_solver.
    + intros x. rewrite Hx, elem_of_cons. set_solver.
Qed.

Lemma entries_lookup M entries en :
  NoDup (entry_Key <$> entries) -> (forall en, en ∈ entries -> domainKey (entry_Key en)) -> en ∈ entries ->
  foldl (fun M en => <[E (entry_Key en) := ARec (entry_Value en) (entry_Deadline en)]> M) M entries !! E (entry_Key en) =
  Some (ARec (entry_Value en) (entry_Deadline en)).
Proof.
  intros HN HD Hin. induction entries as [|e2 entries IH] using rev_ind; [by apply not_elem_of_nil in Hin|].
  rewrite fmap_app in HN. apply NoDup_app in HN as (HN & Hdis & _). rewrite foldl_app. cbn [foldl].
  apply elem_of_app in Hin as [Hin|Hin%list_elem_of_singleton].
  - rewrite lookup_insert_ne.
    + apply IH; [done| |done]. intros e He. apply HD, elem_of_app. by left.
    + intros EQ. apply (Hdis (entry_Key en)); [by apply list_elem_of_fmap_2|]. apply list_elem_of_singleton, eq_sym, domainKey_inj; [..|done].
      * apply HD, elem_of_app. right. by apply list_elem_of_singleton.
      * apply HD, elem_of_app. by left.
  - subst e2. by rewrite lookup_insert_eq.
Qed.

Lemma removed_members M gs k m :
  m ∈ setOf (foldl (specGroup opts) M ((fun g => (1%nat, g)) <$> gs)) k ->
  m ∈ setOf M k /\ forall g, g ∈ gs -> k = E (sm_Key g) -> m ∉ sm_Members g.
Proof.
  revert M. induction gs as [|g gs IH]; intros M Hm; [split; [done|by intros ? ?%not_elem_of_nil]|]. cbn in Hm.
  apply IH in Hm as [Hm Hgs]. rewrite setOf_specGroup in Hm. cbn in Hm. case_bool_decide as Hk.
  - apply elem_of_difference in Hm as [Hm Hn]. split; [done|]. intros g' [->|Hin]%elem_of_cons; [|auto].
    intros _ Hin. apply Hn. by apply elem_of_list_to_set.
  - split; [done|]. intros g' [->|Hin]%elem_of_cons; [done|auto].
Qed.

(** What a finalization does outside the namespace. *)
Lemma finalize_effect s M t raw claim conditions entries deleteKeys keys groups :
  Inv s M -> idOk (r_DeletionID (t_Record claim)) -> taskAt s M (r_DeletionID (t_Record claim)) = Some (t, raw) ->
  r_Kind (t_Record t) = r_Kind (t_Record claim) ->
  kvFinalizeDeleteKeys (t_Record claim) deleteKeys = Ret keys -> checkFinalizeKeys keys entries groups = Ret tt ->
  let mu := finalizeMutation claim t raw conditions entries keys groups in
  Forall (cleanKey opts) (namedKeys mu) ->
  let M' := specMutation opts mu M in
  (forall en, en ∈ entries -> M' !! E (entry_Key en) = Some (ARec (entry_Value en) (entry_Deadline en))) /\
  (forall k, k ∈ deleteKeys -> M' !! E k = None) /\
  (forall g m, g ∈ groups -> m ∈ sm_Members g -> m ∉ setOf M' (E (sm_Key g))) /\
  (forall d, domainKey d -> d ∉ entry_Key <$> entries -> d ∉ deleteKeys -> d ∉ sm_Key <$> groups -> M' !! E d = M !! E d).
Proof.
  intros HI Hid Ht EK HK HE mu Hclean M'. pose proof (taskAt_good _ _ _ _ _ HI Hid Ht) as Hg.
  assert (Kind_valid (r_Kind (t_Record claim)) = true) as Hkind by (rewrite <-EK; apply Hg).
  destruct (finalize_domain _ _ _ _ _ _ _ _ HK HE Hclean) as (-> & HEn & HD & HGr).
  apply bind_Ret in HE as (seen & Hseen & Hgroups). apply checkEntries_spec in Hseen as (HN & HF & Hx).
  rewrite each_Ret, Forall_forall in Hgroups. setoid_rewrite elem_of_list_to_set in HF. setoid_rewrite elem_of_list_to_set in Hx.
  assert (forall d, domainKey d -> M' !! E d = finalBase M claim entries deleteKeys groups !! E d) as HB.
  { intros d [Hc Hd]. unfold M', mu. rewrite finalize_split. apply groups_other. intros pg Hpg.
    apply not_eq_sym, domain_ne; [|done|done]. apply pd_index.
    apply elem_of_app in Hpg as [(g & -> & Hin)%list_elem_of_fmap|(g & -> & Hin)%list_elem_of_fmap]; cbn;
      apply (changes_keys s (Some t) None g); try (by intros ? [= <-]); auto. }
  assert (forall d, domainKey d -> E d ∉ E <$> commonKeys (t_Record claim)) as HC.
  { intros d [Hc Hd] (k & EQ & Hk)%list_elem_of_fmap. revert EQ. apply not_eq_sym, domain_ne; [by eapply commonKeys_pd|done|done]. }
  assert (forall d, domainKey d -> d ∉ deleteKeys -> E d ∉ E <$> (deleteKeys ++ commonKeys (t_Record claim))) as HC'.
  { intros d Hd Hn. rewrite fmap_app, elem_of_app. intros [(k & EQ & Hk)%list_elem_of_fmap|Hin]; [|by apply (HC d)].
    apply Hn. by rewrite (domainKey_inj d k Hd (HD k Hk) EQ). }
  assert (forall g d, g ∈ groups -> domainKey d -> kvKeyIdentity d ∈ seen -> E d <> E (sm_Key g)) as HG.
  { intros g d Hin Hd Hs EQ. specialize (Hgroups g Hin). unfold checkGroupKey in Hgroups.
    apply bind_Ret in Hgroups as ([] & _ & Hn%check_Ret%bool_decide_eq_false). apply Hn.
    by rewrite <-(domainKey_inj d (sm_Key g) Hd (HGr g Hin) EQ). }
  split_and!.
  - intros en Hin. rewrite HB by auto. unfold finalBase. rewrite groups_other.
    2:{ intros pg (g & -> & Hg')%list_elem_of_fmap. cbn. apply HG; [done|auto|]. apply Hx. right. apply list_elem_of_fmap. eauto. }
    rewrite deletes_lookup, bool_decide_eq_false_2; [by apply entries_lookup|]. apply HC'; [auto|]. intros Hd.
    apply (HF en Hin). apply list_elem_of_fmap_2, elem_of_app. by left.
  - intros k Hk. rewrite HB by auto. unfold finalBase. rewrite groups_other.
    2:{ intros pg (g & -> & Hg')%list_elem_of_fmap. cbn. apply HG; [done|auto|]. apply Hx. left. apply list_elem_of_fmap_2, elem_of_app. by left. }
    rewrite deletes_lookup, bool_decide_eq_true_2; [done|]. apply list_elem_of_fmap_2, elem_of_app. by left.
  - intros g m Hin Hm. rewrite (setOf_ext (finalBase M claim entries deleteKeys groups)) by auto. unfold finalBase.
    intros [_ Hn]%removed_members. by apply (Hn g Hin).
  - intros d Hd H1 H2 H3. rewrite HB by done. unfold finalBase. rewrite groups_other.
    2:{ intros pg (g & -> & Hg')%list_elem_of_fmap. cbn. intros EQ. apply H3. rewrite (domainKey_inj _ _ Hd (HGr g Hg') EQ). by apply list_elem_of_fmap_2. }
    rewrite deletes_lookup, bool_decide_eq_false_2 by (by apply HC'). apply entries_other. intros en Hin EQ. apply H1.
    rewrite (domainKey_inj _ _ Hd (HEn en Hin) EQ). by apply list_elem_of_fmap_2.
Qed.

End inv.
