(* ===== verification/PDOps.v ===== *)
(** * pendingdeletion: the operations of the source on the contents of the store

    Every operation of the durable task source, run on any store that keeps the
    promises of [KVLaws], is related to the contents of the store before and after:
    either nothing changed, or exactly one of the three mutations of [PDInv] was
    applied, under the condition the operation checks. *)

From stdpp Require Import gmap strings list.
From S2P Require Import Prelude Triple GoStrings GoText CustomID KVKey KVMemory KVSpec KVIface PDTypes PDStore PDTask PDCodec PDInv.

Open Scope Z_scope.

Section ops.
Context {W : Type} {CD : Codec} {CL : CodecLaws} {KO : KVOps W} {KL : KVLaws W}.
Context (Hsep : sep kv_opts = ":"%char).
Implicit Types (M : gmap string aval) (s : KVSource) (w : W).

Local Notation E := (encK kv_opts).
Local Notation taskAt := (taskAt kv_opts).
Local Notation recAt := (recAt kv_opts).

(** ** Triples on contents *)
Definition triple {A} (P : gmap string aval -> Prop) (m : ST W pdError A)
    (Q : gmap string aval -> gmap string aval -> Go pdError A -> Prop) : Prop := gtriple kv_ok kv_db P m Q.

(** A call that leaves the contents alone and whose results satisfy [Q]. *)
Definition reads {A} (P : gmap string aval -> Prop) (m : ST W pdError A) (Q : gmap string aval -> A -> Prop) : Prop :=
  spec kv_ok kv_db P m (fun M r => forall a, r = Ret a -> Q M a).

Lemma ST_bind_eq {A B} (m : ST W pdError A) (f : A -> ST W pdError B) w :
  (m ≫= f) w = match m w with (w', Ret a) => f a w' | (w', Fail e) => (w', Fail e) | (w', Panic) => (w', Panic) end.
Proof. done. Qed.

Lemma triple_bind {A B} P (m : ST W pdError A) (f : A -> ST W pdError B) Q R :
  reads P m Q ->
  (forall a, triple (fun M => P M /\ Q M a) (f a) R) ->
  (forall M e, R M M (Fail e)) -> (forall M, R M M Panic) ->
  triple P (m ≫= f) R.
Proof.
  intros Hm Hf HF HP. eapply gtriple_bind; [exact Hm| |auto..]. cbn. intros a. eapply gtriple_weaken; [apply (Hf a)| |done].
  intros M [HM HQ]. auto.
Qed.

Lemma reads_bind {A B} P (m : ST W pdError A) (f : A -> ST W pdError B) Q R :
  reads P m Q -> (forall a, reads (fun M => P M /\ Q M a) (f a) R) -> reads P (m ≫= f) R.
Proof. intros Hm Hf. eapply triple_bind; [exact Hm|exact Hf|by split|by split]. Qed.

Lemma reads_ret {A} P (a : A) (Q : gmap string aval -> A -> Prop) : (forall M, P M -> Q M a) -> reads P (mret a) Q.
Proof. intros HQ. apply spec_ret. intros M HP b [= <-]. auto. Qed.

Lemma reads_lift {A} P (g : Go pdError A) (Q : gmap string aval -> A -> Prop) :
  (forall M a, P M -> g = Ret a -> Q M a) -> reads P (lift g) Q.
Proof. intros HQ. apply spec_lift. eauto. Qed.

Lemma reads_fail {A} P e (Q : gmap string aval -> A -> Prop) : reads P (failST e) Q.
Proof. by apply spec_fail. Qed.

Lemma reads_check P bad e (Q : gmap string aval -> unit -> Prop) :
  (forall M, P M -> bad = false -> Q M tt) -> reads P (checkST bad e) Q.
Proof. intros HQ. apply spec_check; [|done]. intros M HP Hb [] _. auto. Qed.

Lemma reads_weaken {A} (P P' : gmap string aval -> Prop) (m : ST W pdError A) (Q Q' : gmap string aval -> A -> Prop) :
  reads P' m Q' -> (forall M, P M -> P' M) -> (forall M a, P M -> Q' M a -> Q M a) -> reads P m Q.
Proof. intros Hm HP HQ. eapply spec_weaken; [exact Hm|done|]. cbn. intros M r HM HR a Ha. auto. Qed.

Lemma reads_try {A} P (m : ST W pdError A) (Q : gmap string aval -> A -> Prop) :
  reads P m Q -> reads P (tryST m) (fun M r => match r with inr a => Q M a | inl _ => True end).
Proof. intros Hm. eapply spec_weaken; [apply spec_try, Hm|done|]. cbn. intros M r _ HR a ->. destruct a; auto. Qed.

Lemma reads_mapErr {A} P f (m : ST W pdError A) (Q : gmap string aval -> A -> Prop) :
  reads P m Q -> reads P (mapErrST f m) Q.
Proof.
  intros Hm w w' r Hok HP EQ. unfold mapErrST in EQ. destruct (m w) as [w1 r1] eqn:E1.
  destruct (Hm w w1 r1 Hok HP E1) as (H1 & H2 & H3).
  destruct r1 as [a|e|]; injection EQ as <- <-; by split_and!.
Qed.

Lemma triple_pre {A} (P P' : gmap string aval -> Prop) (m : ST W pdError A) Q :
  triple P' m Q -> (forall M, P M -> P' M) -> triple P m Q.
Proof. intros Hm HP. by eapply gtriple_weaken; [exact Hm|exact HP|]. Qed.

(** ** Reads of the source *)
Lemma kvGet_reads P k : reads P (kvM (kvGet k)) (fun M v => recAt M k = Some v).
Proof.
  intros w w' r Hok _ EQ. unfold kvM, mapErrST in EQ. destruct (kvGet k w) as [w1 r1] eqn:E1.
  destruct (kvGet_law w k w1 r1 Hok E1) as (H1 & H2 & H3).
  destruct r1 as [v|e|]; injection EQ as <- <-; split_and!; try done. intros a [= <-].
  destruct H3 as [d Hd]. unfold PDInv.recAt. by rewrite Hd.
Qed.

Lemma getStoredRecord_reads st id :
  reads (fun _ => True) (getStoredRecord st id)
    (fun M r => exists data, recAt M (byIDKey id) = Some data /\ unmarshalRecord data = Some r /\ r_DeletionID r = id).
Proof.
  unfold getStoredRecord. eapply reads_bind; [by apply (reads_check _ _ _ (fun _ _ => True))|intros []].
  eapply reads_bind; [apply kvGet_reads|intros data]. destruct (unmarshalRecord data) as [r|] eqn:Hu; [|apply reads_fail].
  eapply reads_bind; [apply (reads_check _ _ _ (fun M _ => r_DeletionID r = id)); intros M HPM Hc|intros []].
  - by apply negb_false_iff, bool_decide_eq_true in Hc.
  - apply reads_ret. intros M ((_ & Hd) & Hid). eauto.
Qed.

Lemma loadTask_reads s id : reads (fun _ => True) (loadTask s id) (fun M x => taskAt s M id = Some x).
Proof.
  unfold loadTask. eapply reads_bind; [apply reads_try, getStoredRecord_reads|intros [e|record]].
  { destruct (isKVNotFound e); apply reads_fail. }
  destruct (owns s (r_Kind record)) eqn:Ho; cbn [negb]; [|apply reads_fail].
  eapply reads_bind; [apply reads_try, kvGet_reads|intros [e|raw]].
  - destruct (isKVNotFound e); [|apply reads_fail].
    eapply reads_bind; [eapply reads_weaken; [apply reads_try, getStoredRecord_reads|done|done]|intros [e'|r']].
    + destruct (isKVNotFound e'); apply reads_fail.
    + apply reads_fail.
  - apply reads_lift. intros M [t raw'] ((_ & (data & Hd & Hu & Hid)) & Hraw) HD.
    unfold PDInv.taskAt. rewrite Hd, Hu. rewrite bool_decide_eq_true_2, Ho by done. cbn [andb]. by rewrite Hraw, HD.
Qed.

(** ** Writes *)
Lemma kvApply_triple P mu :
  triple P (kvM (kvApply mu)) (fun M M' r =>
    match r with
    | Ret true => Forall (specCondition kv_opts M) (mut_Conditions mu) /\ Forall (cleanKey kv_opts) (namedKeys mu) /\
                  M' = specMutation kv_opts mu M
    | _ => M' = M
    end).
Proof.
  intros w w' r Hok _ EQ. unfold kvM, mapErrST in EQ. destruct (kvApply mu w) as [w1 r1] eqn:E1.
  destruct (kvApply_law w mu w1 r1 Hok E1) as (H1 & H2).
  destruct r1 as [[]|e|]; injection EQ as <- <-; split; try done; try apply H2.
Qed.

(** The effect of a transition of the task [id] from [t] to [t']. *)
Definition wrote s (id : string) (t t' : Task) (raw : string) M M' : Prop :=
  taskAt s M id = Some (t, raw) /\ validateStoredTask t' = Ret tt /\ M' = specMutation kv_opts (taskMutation t t' raw) M.

Lemma writeTask_triple s id t raw t' :
  t_Record t' = t_Record t ->
  triple (fun M => taskAt s M id = Some (t, raw)) (writeTask s t' raw) (fun M M' r =>
    match r with Ret true => wrote s id t t' raw M M' | _ => M' = M end).
Proof.
  intros Hrec. unfold writeTask.
  eapply triple_bind; [apply (reads_lift _ _ (fun M p => p.1 = t))| |done|done].
  { intros M [t1 raw1] Ht HD. apply taskAt_inv in Ht as (_ & _ & _ & _ & _ & _ & HD'). rewrite Hrec, HD' in HD. by injection HD as <-. }
  intros [prev raw1]. cbn [fst].
  eapply triple_bind; [apply (reads_lift _ _ (fun _ _ => validateStoredTask t' = Ret tt)); by intros M [] _ ?| |done|done].
  intros [] w w' r Hok ((Ht & ->) & Hv) EQ. destruct (kvApply_triple (fun _ => True) _ w w' r Hok I EQ) as [Hok' HQ].
  split; [done|]. destruct r as [[]|e|]; try done. destruct HQ as (_ & _ & ->). by split_and!.
Qed.

Lemma lease_check t claim now : leaseLost t claim now = false ->
  t_MarkerFingerprint t = t_MarkerFingerprint claim /\ t_Status t = StatusRunning /\ t_LeaseToken t = t_LeaseToken claim /\ now < t_LeaseDeadline t.
Proof.
  unfold leaseLost. rewrite !orb_false_iff, !negb_false_iff, !bool_decide_eq_true, Z.leb_gt. tauto.
Qed.

(** [transition]: on success the stored task held the claim's live lease and was
    replaced; otherwise nothing changed. *)
Lemma transition_triple s claim now mutate :
  (forall t, t_Record (mutate t) = t_Record t) ->
  triple (fun _ => True) (transition s claim now mutate) (fun M M' r =>
    match r with
    | Ret _ => exists t raw, leaseLost t claim now = false /\
                 wrote s (r_DeletionID (t_Record claim)) t (withUpdatedAt (mutate t) now) raw M M'
    | _ => M' = M
    end).
Proof.
  intros Hmut. unfold transition. eapply triple_bind; [apply loadTask_reads| |done|done]. intros [t raw].
  eapply triple_bind; [apply (reads_check _ _ _ (fun _ _ => leaseLost t claim now = false)); by intros| |done|done]. intros [].
  intros w w' r Hok ((_ & Ht) & Hl) EQ. unfold mbind, ST_bind in EQ.
  destruct (writeTask s (withUpdatedAt (mutate t) now) raw w) as [w1 r1] eqn:E1.
  destruct (writeTask_triple s (r_DeletionID (t_Record claim)) t raw (withUpdatedAt (mutate t) now) (Hmut t) w w1 r1 Hok Ht E1) as [Hok1 HQ].
  destruct r1 as [[]|e|]; injection EQ as <- <-; (split; [done|]); [|done..]. exists t, raw. by split.
Qed.

Lemma Claim_triple s ref now lease random :
  triple (fun _ => True) (KVSource_Claim s ref now lease random) (fun M M' r =>
    match r with
    | Ret (Some c) => exists t raw token, newKVLeaseToken random = Ret token /\ 0 < lease /\ taskDue t now = true /\
        t_MarkerFingerprint t = ref_MarkerFingerprint ref /\ c = withLease t StatusRunning token (now + lease) now /\
        wrote s (ref_DeletionID ref) t c raw M M'
    | _ => M' = M
    end).
Proof.
  unfold KVSource_Claim.
  eapply triple_bind; [apply (reads_check _ _ _ (fun _ _ => 0 < lease)); intros M HPM ?; by apply Z.leb_gt| |done|done]. intros [].
  eapply triple_bind; [apply (reads_lift _ _ (fun _ _ => True)); done| |done|done]. intros [].
  eapply triple_bind; [apply (reads_check _ _ _ (fun _ _ => True)); done| |done|done]. intros [].
  eapply triple_bind; [eapply reads_weaken; [apply loadTask_reads|done|intros M a _ Q; exact Q]| |done|done]. intros [t raw].
  destruct (negb _ || _) eqn:Hd.
  { intros w w' r Hok _ [= <- <-]. done. }
  rewrite orb_false_iff, !negb_false_iff, bool_decide_eq_true in Hd. destruct Hd as [Hfp Hdue].
  eapply triple_bind; [apply (reads_lift _ _ (fun _ token => newKVLeaseToken random = Ret token)); by intros| |done|done]. intros token.
  intros w w' r Hok HP EQ. destruct HP as (((((_ & Hlease) & _) & _) & Ht) & Htok). unfold mbind, ST_bind in EQ.
  destruct (writeTask s (withLease t StatusRunning token (now + lease) now) raw w) as [w1 r1] eqn:E1.
  destruct (writeTask_triple s (ref_DeletionID ref) t raw (withLease t StatusRunning token (now + lease) now) eq_refl w w1 r1 Hok Ht E1) as [Hok1 HQ].
  destruct r1 as [[]|e|]; injection EQ as <- <-; (split; [done|]); [|done..].
  exists t, raw, token. by split_and!.
Qed.

Lemma requeue_triple s id t raw now :
  triple (fun M => taskAt s M id = Some (t, raw)) (requeueFailed s t raw now) (fun M M' r =>
    match r with
    | Ret t' => t' = requeueTask now t /\ wrote s id t t' raw M M'
    | _ => M' = M
    end).
Proof.
  intros w w' r Hok Ht EQ. unfold requeueFailed, mbind, ST_bind in EQ.
  destruct (writeTask s (requeueTask now t) raw w) as [w1 r1] eqn:E1.
  destruct (writeTask_triple s id t raw (requeueTask now t) eq_refl w w1 r1 Hok Ht E1) as [Hok1 HQ].
  destruct r1 as [[]|e|]; injection EQ as <- <-; (split; [done|]); [|done..]. by split.
Qed.

(** Both retries: on success the stored task had failed and was requeued. *)
Definition requeued s (id : string) (now : Time) M M' (r : Go pdError Task) : Prop :=
  match r with
  | Ret t' => exists t raw, t_Status t = StatusFailed /\ t' = requeueTask now t /\ wrote s id t t' raw M M'
  | _ => M' = M
  end.

Lemma Retry_triple s id now : triple (fun _ => True) (KVSource_Retry s id now) (requeued s id now).
Proof.
  unfold KVSource_Retry. eapply triple_bind; [apply loadTask_reads| |done|done]. intros [t raw].
  eapply triple_bind; [apply (reads_check _ _ _ (fun _ _ => t_Status t = StatusFailed)); intros M HPM ?; by eapply bool_decide_eq_true, negb_false_iff| |done|done].
  intros [] w w' r Hok ((_ & Ht) & Hs) EQ. destruct (requeue_triple s id t raw now w w' r Hok Ht EQ) as [Hok' HQ].
  split; [done|]. destruct r as [t'|e|]; try done. destruct HQ as [-> HQ]. by exists t, raw.
Qed.

Lemma RetryFailed_triple s observed now :
  triple (fun _ => True) (KVSource_RetryFailed s observed now) (requeued s (r_DeletionID (t_Record observed)) now).
Proof.
  unfold KVSource_RetryFailed. eapply triple_bind; [apply (reads_lift _ _ (fun _ _ => True)); done| |done|done]. intros [].
  eapply triple_bind; [apply (reads_check _ _ _ (fun _ _ => True)); done| |done|done]. intros [].
  eapply triple_bind; [eapply reads_weaken; [apply loadTask_reads|done|intros M a _ Q; exact Q]| |done|done]. intros [t raw].
  eapply triple_bind; [apply (reads_check _ _ _ (fun _ _ => t_Status t = StatusFailed)); intros M HPM Hc| |done|done].
  { apply negb_false_iff in Hc. unfold sameFailedObservation in Hc. rewrite !andb_true_iff in Hc.
    destruct Hc as [[[[[[[[[[[[Hs _] _] _] _] _] _] _] _] _] _] _] _]. by apply bool_decide_eq_true in Hs. }
  intros [] w w' r Hok HP EQ. destruct HP as ((_ & Ht) & Hs).
  destruct (requeue_triple s _ t raw now w w' r Hok Ht EQ) as [Hok' HQ].
  split; [done|]. destruct r as [t'|e|]; try done. destruct HQ as [-> HQ]. by exists t, raw.
Qed.

(** ** Locators *)

(** The record under [id], valid and belonging to the locator. *)
Definition located (kind : Kind) (resourceID id : string) M (r : Record_) : Prop :=
  exists data, recAt M (byIDKey id) = Some data /\ unmarshalRecord data = Some r /\ r_DeletionID r = id /\
    Record_Validate r = Ret tt /\ r_Kind r = kind /\ r_ResourceID r = resourceID.

Lemma Get_reads st id :
  reads (fun _ => True) (Get st id) (fun M r =>
    exists data, recAt M (byIDKey id) = Some data /\ unmarshalRecord data = Some r /\ r_DeletionID r = id /\ Record_Validate r = Ret tt).
Proof.
  unfold Get. eapply reads_bind; [apply getStoredRecord_reads|intros r].
  eapply reads_bind; [apply reads_mapErr, (reads_lift _ _ (fun _ _ => Record_Validate r = Ret tt)); by intros M [] _ ?|intros []].
  apply reads_ret. intros M ((_ & (data & H1 & H2 & H3)) & H4). by exists data.
Qed.

Lemma loadLocated_reads st ctx kind rid id : reads (fun _ => True) (loadLocated st ctx kind rid id) (located kind rid id).
Proof.
  unfold loadLocated. eapply reads_bind; [by apply (reads_check _ _ _ (fun _ _ => True))|intros []].
  eapply reads_bind; [eapply reads_weaken; [apply reads_mapErr, Get_reads|done|intros M a _ Q; exact Q]|intros r].
  eapply reads_bind; [apply (reads_lift _ _ (fun _ _ => r_Kind r = kind /\ r_ResourceID r = rid))|intros []].
  - intros M [] _ Hc%check_Ret%negb_false_iff%andb_true_iff. by rewrite !bool_decide_eq_true in Hc.
  - apply reads_ret. intros M ((_ & (data & H1 & H2 & H3 & H4)) & H5 & H6). by exists data.
Qed.

Lemma GetByLocator_reads st kind rid :
  reads (fun _ => True) (GetByLocator st kind rid) (fun M r =>
    exists id, recAt M (byLocatorKey kind rid) = Some id /\ located kind rid id M r).
Proof.
  unfold GetByLocator. eapply reads_bind; [by apply (reads_check _ _ _ (fun _ _ => True))|intros []].
  eapply (reads_bind _ _ _ (fun M o => match o with Some r =>
    exists id, recAt M (byLocatorKey kind rid) = Some id /\ located kind rid id M r | None => True end)).
  - unfold resolveExistingLocator. eapply reads_bind; [apply reads_try, kvGet_reads|intros [e|id]].
    + destruct (isKVNotFound e); [by apply reads_ret|apply reads_fail].
    + eapply reads_bind; [eapply reads_weaken; [apply loadLocated_reads|done|intros M a _ Q; exact Q]|intros r].
      apply reads_ret. intros M ((_ & HI) & HL). eauto.
  - intros [r|]; [|apply reads_fail]. apply reads_ret. by intros M [_ HH].
Qed.

(** ** Creation *)
Lemma CreateOrGet_triple record :
  triple (fun _ => True) (CreateOrGet true record) (fun M M' r =>
    match r with
    | Ret (rec, true) => rec = record /\ exists data fp,
        marshalRecord record = Some data /\ Fingerprint record = Ret fp /\
        let mu := createMutation record [MkEntry (byIDKey (r_DeletionID record)) data 0] (initialTask record fp) in
        Forall (specCondition kv_opts M) (mut_Conditions mu) /\ M' = specMutation kv_opts mu M
    | Ret (rec, false) => M' = M /\
        exists id, recAt M (byLocatorKey (r_Kind record) (r_ResourceID record)) = Some id /\
          located (r_Kind record) (r_ResourceID record) id M rec
    | _ => M' = M
    end).
Proof.
  unfold CreateOrGet. cbn [negb].
  eapply triple_bind; [by apply (reads_check _ _ _ (fun _ _ => True))| |done|done]. intros [].
  eapply triple_bind; [apply (reads_lift _ _ (fun _ es => exists data, marshalRecord record = Some data /\
    es = [MkEntry (byIDKey (r_DeletionID record)) data 0]))| |done|done].
  { intros M es _ HH. unfold KVEntries in HH. apply bind_Ret in HH as ([] & _ & HH). destruct (marshalRecord record); [|done].
    injection HH as <-. eauto. }
  intros entries. eapply triple_bind; [apply (reads_lift _ _ (fun _ fp => Fingerprint record = Ret fp)); by intros| |done|done].
  intros fp w w' r Hok (((_ & _) & (data & Hdata & ->)) & HF) EQ. rewrite ST_bind_eq in EQ.
  destruct (kvM _ w) as [w1 r1] eqn:E1. destruct (kvApply_triple (fun _ => True) _ w w1 r1 Hok I E1) as [Hok1 HQ].
  destruct r1 as [[]|e|]; [|..|by injection EQ as <- <-|by injection EQ as <- <-].
  - injection EQ as <- <-. split; [done|]. split; [done|]. exists data, fp. destruct HQ as (H1 & _ & ->). done.
  - rewrite <-HQ. revert EQ.
    match goal with |- ?f w1 = _ -> _ => assert (reads (fun _ => True) f (fun M x => x.2 = false /\
      exists id, recAt M (byLocatorKey (r_Kind record) (r_ResourceID record)) = Some id /\
          located (r_Kind record) (r_ResourceID record) id M x.1)) as HR end.
    { eapply reads_bind; [apply reads_try, kvGet_reads|intros [e|id]].
      - destruct (isKVNotFound e); apply reads_fail.
      - eapply reads_bind; [eapply reads_weaken; [apply loadLocated_reads|done|intros M a _ Q; exact Q]|intros r'].
        apply reads_ret. intros M ((_ & HI) & HL). eauto. }
    intros EQ. destruct (HR w1 w' r Hok1 I EQ) as (H1 & H2 & H3). split; [done|].
    destruct r as [[rec []]|e|]; [by destruct (H3 _ eq_refl)| |done|done]. split; [done|]. apply (H3 _ eq_refl).
Qed.

(** ** Finalization *)
Definition finalized s claim now conditions entries deleteKeys groups M M' : Prop :=
  exists t raw keys,
    taskAt s M (r_DeletionID (t_Record claim)) = Some (t, raw) /\ leaseLost t claim now = false /\
    r_Kind (t_Record t) = r_Kind (t_Record claim) /\ r_ResourceID (t_Record t) = r_ResourceID (t_Record claim) /\
    kvFinalizeDeleteKeys (t_Record claim) deleteKeys = Ret keys /\ checkFinalizeKeys keys entries groups = Ret tt /\
    let mu := finalizeMutation claim t raw conditions entries keys groups in
    Forall (specCondition kv_opts M) (mut_Conditions mu) /\ Forall (cleanKey kv_opts) (namedKeys mu) /\
    M' = specMutation kv_opts mu M.

Lemma Finalize_triple s claim now conditions entries deleteKeys groups :
  triple (fun _ => True) (KVSource_FinalizeGuarded s claim now conditions entries deleteKeys groups) (fun M M' r =>
    match r with Ret _ => finalized s claim now conditions entries deleteKeys groups M M' | _ => M' = M end).
Proof.
  unfold KVSource_FinalizeGuarded.
  eapply triple_bind; [by apply (reads_lift _ _ (fun _ _ => True))| |done|done]. intros [].
  eapply triple_bind; [by apply (reads_lift _ _ (fun _ _ => True))| |done|done]. intros [].
  eapply triple_bind; [by apply (reads_lift _ _ (fun _ _ => True))| |done|done]. intros [].
  eapply triple_bind; [by apply (reads_check _ _ _ (fun _ _ => True))| |done|done]. intros [].
  eapply triple_bind; [eapply reads_weaken; [apply reads_mapErr, loadTask_reads|done|intros M a _ Q; exact Q]| |done|done]. intros [t raw].
  eapply triple_bind; [apply (reads_check _ _ _ (fun _ _ => leaseLost t claim now = false)); by intros| |done|done]. intros [].
  eapply triple_bind; [eapply reads_weaken; [apply reads_mapErr, GetByLocator_reads|done|intros M a _ Q; exact Q]| |done|done]. intros lr.
  eapply triple_bind; [apply (reads_check _ _ _ (fun _ _ => r_DeletionID lr = r_DeletionID (t_Record claim))); intros M HPM Hc;
    by eapply bool_decide_eq_true, negb_false_iff| |done|done]. intros [].
  eapply triple_bind; [by apply (reads_lift _ _ (fun _ _ => True))| |done|done]. intros fp.
  eapply triple_bind; [by apply (reads_check _ _ _ (fun _ _ => True))| |done|done]. intros [].
  eapply triple_bind; [apply (reads_lift _ _ (fun _ keys => kvFinalizeDeleteKeys (t_Record claim) deleteKeys = Ret keys)); by intros| |done|done]. intros keys.
  eapply triple_bind; [apply (reads_lift _ _ (fun _ _ => checkFinalizeKeys keys entries groups = Ret tt)); by intros M [] _ ?| |done|done]. intros [].
  intros w w' r Hok HP EQ. destruct HP as ((((((((_ & Ht) & Hl) & (id & Hloc & (data & HB & Hu & Hid & _ & HK & HR))) & Heq) & _) & _) & Hkeys) & Hchk).
  unfold mbind, ST_bind in EQ. destruct (kvM _ w) as [w1 r1] eqn:E1.
  destruct (kvApply_triple (fun _ => True) _ w w1 r1 Hok I E1) as [Hok1 HQ].
  destruct r1 as [[]|e|]; injection EQ as <- <-; (split; [done|]); [|done..].
  destruct HQ as (H1 & H2 & H3). exists t, raw, keys.
  assert (t_Record t = lr) as <-.
  { apply taskAt_inv in Ht as (data' & HB' & Hu' & _). rewrite Hid in Heq. subst id. congruence. }
  by split_and!.
Qed.

End ops.
