(* ===== verification/PDProps.v ===== *)
(** * pendingdeletion: executions of the durable task source

    An execution is a sequence of calls on one store, each a whole operation of the
    source with its reads and its one conditional mutation.  What a step can do to the
    contents of the store: the invariant it keeps, the edges of the state machine of a
    task, and what a live lease forbids.  The theorems on executions are in [PDSafety]. *)

From stdpp Require Import gmap strings list.
From S2P Require Import Prelude GoStrings GoText CustomID KVKey KVMemory KVSpec KVIface PDTypes PDStore PDTask PDCodec PDInv PDOps.

Open Scope Z_scope.

(** ** Calls *)
Inductive pdOp :=
  | PdCreate (record : Record_)
  | PdClaim (ref : Reference) (now : Time) (lease : Z) (random : option string)
  | PdRenew (claim : Claim) (now : Time) (lease : Z)
  | PdCheckpoint (claim : Claim) (phase : Phase) (now : Time)
  | PdDefer (claim : Claim) (code message : string) (nextAttempt now : Time)
  | PdFail (claim : Claim) (code message : string) (terminal : bool) (nextAttempt now : Time) (maxAttempts : Z)
  | PdRetry (id : string) (now : Time)
  | PdRetryFailed (observed : Task) (now : Time)
  | PdFinalize (claim : Claim) (now : Time) (conditions : list Condition) (entries : list Entry)
      (deleteKeys : list Key) (groups : list SetMembers).

(** The task a call addresses. *)
Definition opID (o : pdOp) : string :=
  match o with
  | PdCreate r => r_DeletionID r
  | PdClaim ref _ _ _ => ref_DeletionID ref
  | PdRenew c _ _ | PdCheckpoint c _ _ | PdDefer c _ _ _ _ | PdFail c _ _ _ _ _ _ | PdFinalize c _ _ _ _ _ => r_DeletionID (t_Record c)
  | PdRetry id _ => id
  | PdRetryFailed t _ => r_DeletionID (t_Record t)
  end.

(** The claim a call presents, with its clock. *)
Definition opClaim (o : pdOp) : option (Claim * Time) :=
  match o with
  | PdRenew c now _ | PdCheckpoint c _ now | PdDefer c _ _ _ now | PdFail c _ _ _ _ now _ | PdFinalize c now _ _ _ _ => Some (c, now)
  | _ => None
  end.

(** What a task must satisfy for the call to act on it, and what it becomes. *)
Definition opGuard (o : pdOp) (t : Task) : Prop :=
  match o with
  | PdCreate _ => False
  | PdClaim ref now lease _ => taskDue t now = true /\ t_MarkerFingerprint t = ref_MarkerFingerprint ref /\ 0 < lease
  | PdRetry _ _ | PdRetryFailed _ _ => t_Status t = StatusFailed
  | _ => match opClaim o with Some (c, now) => leaseLost t c now = false | None => False end
  end.

Definition opNext (o : pdOp) (t : Task) : option Task :=
  match o with
  | PdCreate _ => None
  | PdClaim _ now lease random =>
      match newKVLeaseToken random with Ret token => Some (withLease t StatusRunning token (now + lease) now) | _ => None end
  | PdRenew _ now lease => Some (withUpdatedAt (renewTask (now + lease) t) now)
  | PdCheckpoint _ phase now => Some (withUpdatedAt (checkpointTask phase t) now)
  | PdDefer _ code message next now => Some (withUpdatedAt (deferTask code message next t) now)
  | PdFail _ code message terminal next now maxAttempts => Some (withUpdatedAt (failTask code message terminal next maxAttempts t) now)
  | PdRetry _ now | PdRetryFailed _ now => Some (requeueTask now t)
  | PdFinalize _ _ _ _ _ _ => None
  end.

Section exec.
Context {W : Type} {CD : Codec} {CL : CodecLaws} {KO : KVOps W} {KL : KVLaws W}.
Context (Hsep : sep kv_opts = ":"%char).
Implicit Types (M : gmap string aval) (s : KVSource) (w : W).

Local Notation E := (encK kv_opts).
Local Notation taskAt := (taskAt kv_opts).
Local Notation recAt := (recAt kv_opts).
Local Notation Inv := (Inv kv_opts).

(** The store after a call, whatever it returned. *)
Definition exec s (o : pdOp) w : W :=
  match o with
  | PdCreate r => (CreateOrGet true r w).1
  | PdClaim ref now lease random => (KVSource_Claim s ref now lease random w).1
  | PdRenew c now lease => (KVSource_Renew s c now lease w).1
  | PdCheckpoint c phase now => (KVSource_Checkpoint s c phase now w).1
  | PdDefer c code message next now => (KVSource_Defer s c code message next now w).1
  | PdFail c code message terminal next now maxAttempts => (KVSource_Fail s c code message terminal next now maxAttempts w).1
  | PdRetry id now => (KVSource_Retry s id now w).1
  | PdRetryFailed t now => (KVSource_RetryFailed s t now w).1
  | PdFinalize c now conds entries keys groups => (KVSource_FinalizeGuarded s c now conds entries keys groups w).1
  end.

Definition run s (ops : list pdOp) w : W := fold_left (fun w o => exec s o w) ops w.

(** Arguments the layouts and JSON can represent: identifiers that are key
    segments, instants before year 10000, valid UTF-8 messages. *)
Definition opOk s (o : pdOp) : Prop :=
  idOk (opID o) /\
  match o with
  | PdCreate r => recordText r /\ owns s (r_Kind r) = true
  | PdClaim _ now lease _ => timeOk now /\ timeOk (now + lease)
  | PdRenew _ now lease => timeOk now /\ timeOk (now + lease)
  | PdCheckpoint _ _ now => timeOk now
  | PdDefer _ code message next now => validUTF8 code = true /\ validUTF8 message = true /\ timeOk next /\ timeOk now
  | PdFail _ code message _ next now _ => validUTF8 code = true /\ validUTF8 message = true /\ timeOk next /\ timeOk now
  | PdRetry _ now => timeOk now
  | PdRetryFailed _ now => timeOk now
  | PdFinalize _ _ _ _ _ _ => True
  end.

(** What one call did to the contents. *)
Inductive change s (o : pdOp) M M' : Prop :=
  | ch_same : M' = M -> change s o M M'
  | ch_write t t' raw :
      taskAt s M (opID o) = Some (t, raw) -> opGuard o t -> opNext o t = Some t' ->
      taskAt s M' (opID o) = Some (t', encodeKVTaskState t') -> change s o M M'
  | ch_create record fp :
      o = PdCreate record -> taskAt s M (opID o) = None -> Fingerprint record = Ret fp ->
      recAt M (byLocatorKey (r_Kind record) (r_ResourceID record)) = None ->
      recAt M' (byLocatorKey (r_Kind record) (r_ResourceID record)) = Some (opID o) ->
      taskAt s M' (opID o) = Some (createdTask s record fp, encodeKVTaskState (createdTask s record fp)) -> change s o M M'
  | ch_final claim now conds entries keys groups t raw :
      o = PdFinalize claim now conds entries keys groups ->
      taskAt s M (opID o) = Some (t, raw) -> opGuard o t ->
      M' !! E (byIDKey (opID o)) = None -> M' !! E (kvTaskKey (opID o)) = None ->
      M' !! E (byLocatorKey (r_Kind (t_Record t)) (r_ResourceID (t_Record t))) = None -> change s o M M'.

Lemma good_next s o t t' :
  goodTask s t -> opOk s o -> opGuard o t -> opNext o t = Some t' -> validateStoredTask t' = Ret tt -> goodTask s t'.
Proof.
  intros ((T1 & T2 & T3 & T4 & T5 & T6) & HK & HD & _ & HS) [Hid Hok] Hg Hn Hv.
  assert (timeOk 0) as T0 by done. assert (validUTF8 EmptyString = true) as V0 by done.
  destruct o; cbn in Hn; try done.
  - unfold newKVLeaseToken, newPendingDeletionToken in Hn. destruct random as [bs|]; [|done]. injection Hn as <-.
    destruct Hok as [? ?]. unfold goodTask, taskText. split_and!; try done. apply hexEncode_utf8.
  - injection Hn as <-. destruct Hok as [? ?]. by split_and!.
  - injection Hn as <-. by split_and!.
  - injection Hn as <-. destruct Hok as (? & ? & ? & ?). by split_and!.
  - injection Hn as <-. destruct Hok as (? & ? & ? & ?). by split_and!.
  - injection Hn as <-. by split_and!.
  - injection Hn as <-. by split_and!.
Qed.

Lemma next_record o t t' : opNext o t = Some t' -> t_Record t' = t_Record t.
Proof. destruct o; cbn; try done; try (by intros [= <-]). destruct (newKVLeaseToken random); [by intros [= <-]|done..]. Qed.

(** A write that satisfies the guard keeps the invariant and is a [change]. *)
Lemma wrote_change s o M M' t t' raw :
  Inv s M -> opOk s o -> opGuard o t -> opNext o t = Some t' -> wrote s (opID o) t t' raw M M' ->
  Inv s M' /\ change s o M M' /\ (forall id, idOk id -> id <> opID o -> taskAt s M' id = taskAt s M id).
Proof.
  intros HI Hok Hg Hn (Ht & Hv & ->). pose proof (proj1 Hok) as Hid.
  pose proof (good_next s o t t' (taskAt_good kv_opts s M _ t raw HI Hid Ht) Hok Hg Hn Hv) as Hg'.
  destruct (transition_inv kv_opts Hsep s M (opID o) t raw t' HI Hid Ht Hg' (next_record o t t' Hn)) as (HI' & Ht' & Hoth).
  split_and!; [done| |done]. by eapply ch_write.
Qed.

Lemma same_change s o M M' : Inv s M -> M' = M ->
  Inv s M' /\ change s o M M' /\ (forall id, idOk id -> id <> opID o -> taskAt s M' id = taskAt s M id).
Proof. intros HI ->. split_and!; [done|by apply ch_same|done]. Qed.

(** One claim-carrying call. *)
Lemma claim_change s o claim now mutate w w' (r : Go pdError unit) :
  kv_ok w -> Inv s (kv_db w) -> opOk s o -> opClaim o = Some (claim, now) -> opID o = r_DeletionID (t_Record claim) ->
  (forall t, opGuard o t <-> leaseLost t claim now = false) -> (forall t, opNext o t = Some (withUpdatedAt (mutate t) now)) ->
  (forall t, t_Record (mutate t) = t_Record t) ->
  transition s claim now mutate w = (w', r) ->
  kv_ok w' /\ Inv s (kv_db w') /\ change s o (kv_db w) (kv_db w') /\
  (forall id, idOk id -> id <> opID o -> taskAt s (kv_db w') id = taskAt s (kv_db w) id).
Proof.
  intros Hw HI Hok Hc Hid Hg Hn Hm EQ. destruct (transition_triple s claim now mutate Hm w w' r Hw I EQ) as [Hw' HQ].
  split; [done|]. destruct r as [u|e|]; [|by apply same_change..]. destruct HQ as (t & raw & Hl & HW). rewrite <-Hid in HW.
  eapply wrote_change; [done|done|by apply Hg|apply Hn|done].
Qed.

Lemma fst_bind_ret {A B} (m : ST W pdError A) (f : A -> B) w : ((a ← m; mret (f a)) w).1 = (m w).1.
Proof. unfold mbind, ST_bind. by destruct (m w) as [w' [a|e|]]. Qed.

Lemma exec_change s o w :
  kv_ok w -> Inv s (kv_db w) -> namePattern (s_SourceName s) = true -> opOk s o ->
  kv_ok (exec s o w) /\ Inv s (kv_db (exec s o w)) /\ change s o (kv_db w) (kv_db (exec s o w)) /\
  (forall id, idOk id -> id <> opID o -> taskAt s (kv_db (exec s o w)) id = taskAt s (kv_db w) id).
Proof.
  intros Hw HI Hname Hok. destruct o as [record|ref now lease random|c now lease|c phase now|c code msg next now|c code msg term next now mx|id now|t0 now|c now conds entries keys groups]; cbn [exec].
  - destruct (CreateOrGet true record w) as [w' r] eqn:EQ. cbn [fst].
    destruct (CreateOrGet_triple record w w' r Hw I EQ) as [Hw' HQ]. split; [done|].
    destruct r as [[rec [|]]|e|]; [|apply same_change; [done|apply HQ]|by apply same_change..].
    destruct HQ as (-> & data & fp & Hdata & HF & Hcond & HM). destruct Hok as [Hid [Htext Hown]].
    destruct (create_inv kv_opts Hsep s (kv_db w) record data fp HI Hname Htext Hid Hown HF Hdata Hcond) as (H1 & H2 & H3 & H4).
    rewrite <-HM in H1, H2, H3, H4. split_and!; [done| |done].
    apply Forall_cons in Hcond as [C1 Hcond]. apply Forall_cons in Hcond as [C2 _]. unfold specCondition in C1, C2.
    cbn [cond_Expected cond_Key] in C1, C2. eapply ch_create; [done| |done| |done|done].
    + unfold PDInv.taskAt, PDInv.recAt. cbn [opID]. by rewrite C2.
    + unfold PDInv.recAt. by rewrite C1.
  - destruct (KVSource_Claim s ref now lease random w) as [w' r] eqn:EQ. cbn [fst].
    destruct (Claim_triple s ref now lease random w w' r Hw I EQ) as [Hw' HQ]. split; [done|].
    destruct r as [[c|]|e|]; [|by apply same_change..]. destruct HQ as (t & raw & token & Htok & Hl & Hdue & Hfp & -> & HW).
    eapply (wrote_change s (PdClaim ref now lease random)); [done|done|done| |exact HW]. cbn. by rewrite Htok.
  - unfold KVSource_Renew, checkST, check. destruct (lease <=? 0) eqn:Hl; [split; [done|by apply same_change]|].
    change ((lift (Ret tt) ≫= (fun _ : unit => transition s c now (renewTask (now + lease)))) w) with (transition s c now (renewTask (now + lease)) w).
    destruct (transition _ _ _ _ w) as [w' r] eqn:EQ. by eapply claim_change.
  - unfold KVSource_Checkpoint. rewrite ST_bind_eq. unfold lift. destruct (ValidatePhase phase) as [[]|e|]; [|by split; [|apply same_change]..].
    rewrite fst_bind_ret. destruct (transition _ _ _ _ w) as [w' r] eqn:EQ. by eapply claim_change.
  - unfold KVSource_Defer. destruct (transition _ _ _ _ w) as [w' r] eqn:EQ. by eapply claim_change.
  - unfold KVSource_Fail. destruct (transition _ _ _ _ w) as [w' r] eqn:EQ. by eapply claim_change.
  - destruct (KVSource_Retry s id now w) as [w' r] eqn:EQ. destruct (Retry_triple s id now w w' r Hw I EQ) as [Hw' HQ].
    split; [done|]. destruct r as [t'|e|]; [|by apply same_change..]. destruct HQ as (t & raw & Hs & -> & HW).
    by eapply (wrote_change s (PdRetry id now)).
  - destruct (KVSource_RetryFailed s t0 now w) as [w' r] eqn:EQ. destruct (RetryFailed_triple s t0 now w w' r Hw I EQ) as [Hw' HQ].
    split; [done|]. destruct r as [t'|e|]; [|by apply same_change..]. destruct HQ as (t & raw & Hs & -> & HW).
    by eapply (wrote_change s (PdRetryFailed t0 now)).
  - destruct (KVSource_FinalizeGuarded s c now conds entries keys groups w) as [w' r] eqn:EQ.
    destruct (Finalize_triple s c now conds entries keys groups w w' r Hw I EQ) as [Hw' HQ]. split; [done|].
    destruct r as [u|e|]; [|by apply same_change..].
    destruct HQ as (t & raw & ks & Ht & Hl & EK & ER & HKeys & Hchk & Hcond & Hclean & HM).
    destruct (finalize_inv kv_opts Hsep s (kv_db w) t raw c conds entries keys ks groups HI (proj1 Hok) Ht EK ER HKeys Hchk Hclean) as (H1 & H2 & H3 & H4 & H5).
    cbn [fst]. rewrite HM. split_and!; [done| |done]. eapply ch_final; [done|exact Ht|exact Hl|done|done|]. by rewrite EK, ER.
Qed.

Lemma run_inv s ops w :
  kv_ok w -> Inv s (kv_db w) -> namePattern (s_SourceName s) = true -> Forall (opOk s) ops ->
  kv_ok (run s ops w) /\ Inv s (kv_db (run s ops w)).
Proof.
  intros Hw HI Hname HF. revert w Hw HI. induction HF as [|o ops Ho HF IH]; intros w Hw HI; [done|]. cbn.
  destruct (exec_change s o w Hw HI Hname Ho) as (H1 & H2 & _). by apply IH.
Qed.

Lemma Inv_empty s : Inv s ∅.
Proof.
  assert (forall id, taskAt s ∅ id = None) as HN.
  { intros id. unfold PDInv.taskAt, PDInv.recAt. by rewrite lookup_empty. }
  split.
  - intros id _ Hc. by rewrite lookup_empty in Hc.
  - intros id _ Hc. by rewrite lookup_empty in Hc.
  - intros K m _. unfold setOf. rewrite lookup_empty. split; [set_solver|]. intros (id & t & raw & _ & Ht & _). by rewrite HN in Ht.
  - intros kind rid id _. unfold PDInv.recAt. rewrite lookup_empty. split; [done|]. intros [_ (t & raw & Ht & _)]. by rewrite HN in Ht.
Qed.

End exec.
