(* ===== verification/PDScan.v ===== *)
(** * pendingdeletion: scanning the due index

    [scanIndexedDue] reads at most [limit + 1] members of each of the shards, merges
    them and returns the first [limit].  Under the index invariant a page holds only
    due tasks, and the pages of a scan together hold all of them. *)

From stdpp Require Import gmap strings list.
From S2P Require Import Prelude GoStrings GoText CustomID KVKey KVMemory KVSpec KVProps KVIface PDTypes PDStore PDTask PDCodec PDInv PDOps.

Open Scope Z_scope.

(** ** Merged pages *)
Lemma elem_of_compact l x : x ∈ compact l <-> x ∈ l.
Proof.
  induction l as [|y l IH]; [done|]. cbn. destruct l as [|z l]; [done|]. case_bool_decide as H; [|by rewrite !(elem_of_cons _ _ y), IH].
  subst. rewrite IH, !elem_of_cons. tauto.
Qed.

Lemma compact_strict l : StronglySorted String.le l -> strictSorted (compact l).
Proof.
  unfold strictSorted. induction 1 as [|x l HS IH HF]; [constructor|]. cbn. destruct l as [|y l]; [repeat constructor|].
  case_bool_decide as H; [done|]. constructor; [done|]. apply Forall_forall. intros z Hz. rewrite elem_of_compact in Hz.
  rewrite Forall_forall in HF. split; [by apply HF|]. intros ->.
  apply elem_of_cons in Hz as [->|Hz]; [done|]. apply StronglySorted_inv in HS as [_ HF']. rewrite Forall_forall in HF'.
  apply H. assert (String.le z y) by (apply HF; by left). assert (String.le y z) by (by apply HF'). by apply (anti_symm String.le).
Qed.

(** The first [n] of the merged prefixes hold every member up to their last one. *)
Lemma merged_page (parts : list (list string)) (n : nat) members part m :
  strictSorted members -> (forall p, p ∈ parts -> strictSorted p) ->
  (forall x, x ∈ members <-> exists p, p ∈ parts /\ x ∈ take (S n) p) ->
  part ∈ parts -> m ∈ part ->
  (length members <= n)%nat \/ (exists e, last (take n members) = Some e /\ String.le m e) ->
  m ∈ take n members.
Proof.
  intros HS HP Hmem Hpart Hm Hpage.
  assert (forall x e, last (take n members) = Some e -> x ∈ members -> String.le x e -> x ∈ take n members) as Hle.
  { intros x e He Hx Hxe. rewrite <-(take_drop n members) in Hx. apply elem_of_app in Hx as [Hx|Hx]; [done|]. exfalso.
    rewrite <-(take_drop n members) in HS. apply strictSorted_app in HS as (_ & _ & Hlt).
    apply last_Some in He as [l' He]. apply (strLt_not_le e x); [|done]. apply Hlt; [|done]. rewrite He. apply elem_of_app. right. by left. }
  rewrite <-(take_drop (S n) part) in Hm. apply elem_of_app in Hm as [Hm|Hm].
  - assert (m ∈ members) as Hin by (apply Hmem; eauto). destruct Hpage as [Hlen|(e & He & Hme)]; [by rewrite take_ge|by eapply Hle].
  - exfalso. pose proof (HP _ Hpart) as HSp. rewrite <-(take_drop (S n) part) in HSp.
    apply strictSorted_app in HSp as (HSp & _ & Hlt).
    assert (length (take (S n) part) = S n) as Hlen.
    { rewrite length_take. destruct (Nat.le_gt_cases (S n) (length part)); [lia|]. rewrite drop_ge in Hm by lia. by apply not_elem_of_nil in Hm. }
    assert (take (S n) part ⊆+ take n members \/ take (S n) part ⊆+ members /\ (length members <= n)%nat) as [Hsub|[Hsub Hl]].
    + destruct Hpage as [Hl|(e & He & Hme)].
      * right. split; [|done]. apply NoDup_submseteq; [by apply strictSorted_NoDup|]. intros x Hx. apply Hmem. eauto.
      * left. apply NoDup_submseteq; [by apply strictSorted_NoDup|]. intros x Hx. apply (Hle x e He); [apply Hmem; eauto|].
        destruct (Hlt x m Hx Hm) as [? _]. by etrans.
    + apply submseteq_length in Hsub. rewrite Hlen, length_take in Hsub. lia.
    + apply submseteq_length in Hsub. lia.
Qed.

Section scan.
Context {W : Type} {CD : Codec} {CL : CodecLaws} {KO : KVOps W} {KL : KVLaws W}.
Implicit Types (M : gmap string aval) (s : KVSource) (w : W).

Local Notation E := (encK kv_opts).
Local Notation taskAt := (taskAt kv_opts).
Local Notation Inv := (Inv kv_opts).

Lemma kvRange_reads P k q :
  reads P (kvM (kvRange k q)) (fun M l => l = take (Z.to_nat (or_Limit q)) (rangeAll q (setOf M (E k)))).
Proof.
  intros w w' r Hok _ EQ. unfold kvM, mapErrST in EQ. destruct (kvRange k q w) as [w1 r1] eqn:E1.
  destruct (kvRange_law w k q w1 r1 Hok E1) as (H1 & H2 & H3).
  destruct r1 as [v|e|]; injection EQ as <- <-; split_and!; try done. by intros a [= <-].
Qed.

Lemma readParts q keys acc :
  reads (fun _ => True) (foldST (fun acc key => members ← kvM (kvRange key q); mret (acc ++ members)) acc keys)
    (fun M l => l = acc ++ concat (map (fun k => take (Z.to_nat (or_Limit q)) (rangeAll q (setOf M (E k)))) keys)).
Proof.
  revert acc. induction keys as [|k keys IH]; intros acc; cbn [foldST map concat].
  - apply reads_ret. intros M _. by rewrite app_nil_r.
  - eapply reads_bind.
    + eapply reads_bind; [apply kvRange_reads|]. intros members.
      apply (reads_ret _ _ (fun M x => x = acc ++ take (Z.to_nat (or_Limit q)) (rangeAll q (setOf M (E k))))). by intros M [_ ->].
    + intros acc'. eapply reads_weaken; [apply IH|done|]. intros M l [_ ->] ->. by rewrite <-app_assoc.
Qed.

Lemma readIndexes_reads keys q :
  reads (fun _ => True) (readKVTaskIndexes keys q) (fun M l => strictSorted l /\
    forall x, x ∈ l <-> exists k, k ∈ keys /\ x ∈ take (Z.to_nat (or_Limit q)) (rangeAll q (setOf M (E k)))).
Proof.
  unfold readKVTaskIndexes. eapply reads_bind; [apply readParts|]. intros parts. apply reads_ret. intros M [_ ->]. split.
  - apply compact_strict, sortStrings_sorted.
  - intros x. rewrite elem_of_compact, sortStrings_perm. cbn [app]. rewrite list_elem_of_In, in_concat. split.
    + intros (l & (k & <- & Hk)%in_map_iff & Hx). exists k. rewrite !list_elem_of_In. done.
    + intros (k & Hk & Hx). eexists. split; [|apply list_elem_of_In, Hx]. apply in_map_iff. exists k. by rewrite <-list_elem_of_In.
Qed.

(** ** Index members *)

(** The digest inside a stored task's fingerprint. *)
Lemma stored_fingerprint t : validateStoredTask t = Ret tt -> exists d, t_MarkerFingerprint t = hexEncode (sha256 d).
Proof.
  intros Hv. unfold validateStoredTask in Hv. apply bind_Ret in Hv as ([] & _ & Hv). apply bind_Ret in Hv as ([] & Hf & _).
  destruct (StoredFingerprint (t_Record t)) as [fp|e|] eqn:HF; [|done..].
  apply check_Ret, negb_false_iff, bool_decide_eq_true in Hf as <-. by apply fingerprint_hex in HF.
Qed.

Lemma parse_member s t at_ :
  timeOk at_ -> idOk (r_DeletionID (t_Record t)) -> goodTask s t ->
  parseKVIndexMember (kvIndexMember at_ t) = Ret (at_, r_DeletionID (t_Record t), t_MarkerFingerprint t).
Proof.
  intros Hat Hid (_ & _ & _ & Hv & _). apply stored_fingerprint in Hv as [d Hfp]. unfold parseKVIndexMember.
  change (kvIndexMember at_ t) with (joinByte "/" [formatIndexTime at_; r_DeletionID (t_Record t); t_MarkerFingerprint t]).
  rewrite splitByte_joinByte; [|done|].
  2:{ repeat constructor; [by apply indexTime_slash|by apply idOk_slash|]. rewrite Hfp.
      apply (containsByte_allBytes _ hexLower); [done|apply hexEncode_alphabet]. }
  rewrite bool_decide_eq_false_2 by apply Hid. cbn [check mbind Go_bind]. rewrite indexTime_roundtrip by done.
  rewrite bool_decide_eq_true_2 by done. rewrite Hfp, hexDecode_hexEncode. unfold lenStr. rewrite sha256_length.
  by rewrite bool_decide_eq_true_2 by done.
Qed.

(** The time, identifier and fingerprint written into an index member are read
    back from it. *)
Theorem IndexMember_roundtrip s t at_ :
  timeOk at_ -> idOk (r_DeletionID (t_Record t)) -> goodTask s t ->
  parseKVIndexMember (kvIndexMember at_ t) = Ret (at_, r_DeletionID (t_Record t), t_MarkerFingerprint t).
Proof. apply parse_member. Qed.

Lemma dueBound_spec a now t : timeOk a -> timeOk now -> strLt (kvIndexMember a t) (dueBound now) <-> a <= now.
Proof.
  intros Ha Hn. unfold kvIndexMember, dueBound.
  assert (String.length (formatIndexTime a) = String.length (formatIndexTime now)) as HL by (by rewrite !indexTime_length).
  destruct (Z.lt_trichotomy a now) as [Hlt|[->|Hlt]].
  - split; [lia|]. intros _. apply strLt_app_len; [done|]. by apply indexTime_mono.
  - split; [lia|]. intros _. apply strLt_app_prefix, strLt_cons. by left.
  - split; [|lia]. intros [Hle _]. exfalso. revert Hle. apply strLt_not_le. apply strLt_app_len; [done|]. by apply indexTime_mono.
Qed.

(** A stored task is due exactly when it has a due instant that is not after now. *)
Lemma taskDue_spec t now : validateStoredTask t = Ret tt -> taskDue t now = true <-> taskDueAt t <> 0 /\ taskDueAt t <= now.
Proof.
  intros Hv. unfold validateStoredTask in Hv. apply bind_Ret in Hv as ([] & _ & Hv). apply bind_Ret in Hv as ([] & _ & Hv).
  unfold validateTaskState in Hv. repeat (apply bind_Ret in Hv as ([] & ?H & Hv)). apply check_Ret in Hv.
  unfold taskDue, taskDueAt. clear H H0 H1 H2 H3. destruct (bool_decide (t_Status t = StatusQueued) || _) eqn:Hq.
  - cbn [andb] in Hv. unfold isZero in Hv. rewrite Z.leb_le. split; [|tauto]. intros ?. split; [lia|done].
  - destruct (bool_decide (t_Status t = StatusRunning)); [|split; [done|tauto]]. rewrite Z.leb_le. apply check_Ret, orb_false_iff in H4 as [_ Hz].
    unfold isZero in Hz. split; [|tauto]. intros ?. split; [lia|done].
Qed.

Lemma taskDueAt_ok t : taskText t -> timeOk (taskDueAt t).
Proof. intros (_ & _ & _ & Hn & Hl & _). unfold taskDueAt. destruct (_ || _); [done|]. case_bool_decide; [done|]. unfold timeOk. lia. Qed.

(** Membership in a due index. *)
Lemma idx_due t kind shard m :
  (kvDueIndexKey kind shard, m) ∈ idx t <->
  taskDueAt t <> 0 /\ kvDueIndexKey kind shard = kvDueIndexKey (r_Kind (t_Record t)) (kvTaskShard (r_DeletionID (t_Record t))) /\
  m = kvIndexMember (taskDueAt t) t.
Proof.
  unfold idx, kvTaskIndexes. cbn [map]. rewrite elem_of_cons. unfold isZero. destruct (Z.eqb_spec (taskDueAt t) 0) as [->|Hz].
  - split; [|tauto]. intros [[=]|Hin%not_elem_of_nil]; done.
  - cbn [map]. rewrite list_elem_of_singleton. cbn. split.
    + intros [[=]|[EK ->]%pair_equal_spec]. done.
    + intros (_ & EK & ->). right. by rewrite EK.
Qed.

(** ** The scan *)
Definition dueQuery (now : Time) (limit : Z) (cursor : string) : OrderedRange :=
  MkOrderedRange (if bool_decide (cursor = EmptyString) then None else Some cursor) (Some (dueBound now)) (limit + 1).

Lemma scan_reads s now limit cursor :
  reads (fun _ => True) (scanIndexedDue s now limit cursor) (fun M x => 0 < limit /\ exists members, strictSorted members /\
    (forall m, m ∈ members <-> exists p, p ∈ map (fun k => rangeAll (dueQuery now limit cursor) (setOf M (E k))) (dueKeys s) /\ m ∈ take (S (Z.to_nat limit)) p) /\
    x.2 = (if limit <? Z.of_nat (length members) then default EmptyString (last (take (Z.to_nat limit) members)) else EmptyString) /\
    mapGo (refOf s) (take (Z.to_nat limit) members) = Ret x.1).
Proof.
  unfold scanIndexedDue. eapply reads_bind; [by apply (reads_lift _ _ (fun _ _ => True))|intros []].
  eapply reads_bind; [apply (reads_check _ _ _ (fun _ _ => 0 < limit)); intros; lia|intros []].
  eapply reads_bind; [|intros []].
  { instantiate (1 := fun _ _ => True). case_bool_decide; [by apply reads_ret|].
    eapply reads_bind; [by apply (reads_lift _ _ (fun _ _ => True))|intros ?]. by apply reads_ret. }
  eapply reads_bind; [eapply reads_weaken; [apply readIndexes_reads|done|intros M members ((_ & Hlim) & _) HQ; exact (conj Hlim HQ)]|intros members].
  set (page := if limit <? Z.of_nat (length members) then take (Z.to_nat limit) members else members). cbn zeta.
  eapply reads_bind; [apply (reads_lift _ _ (fun _ refs => mapGo (refOf s) page = Ret refs)); by intros|intros refs].
  apply reads_ret. intros M ((_ & Hlim & HS & Hmem) & Hrefs). split; [done|]. exists members.
  assert (page = take (Z.to_nat limit) members) as Hpage.
  { unfold page. destruct (Z.ltb_spec limit (Z.of_nat (length members))); [done|]. rewrite take_ge; [done|lia]. }
  split_and!; [done| |cbn; by rewrite Hpage|cbn; by rewrite <-Hpage].
  intros m. rewrite Hmem. cbn [or_Limit]. replace (Z.to_nat (limit + 1)) with (S (Z.to_nat limit)) by lia. split.
  - intros (k & Hk & Hm). eexists. split; [by apply (list_elem_of_fmap_2 (fun k => rangeAll (dueQuery now limit cursor) (setOf M (E k))))|done].
  - intros (p & (k & -> & Hk)%list_elem_of_fmap & Hm). eauto.
Qed.

(** The range of one shard, in terms of the stored tasks. *)
Lemma shard_range s M now limit cursor K m :
  Inv s M -> timeOk now -> Forall (fun k => Kind_valid k = true) (s_OwnedKinds s) -> K ∈ dueKeys s ->
  m ∈ rangeAll (dueQuery now limit cursor) (setOf M (E K)) <->
  exists id t raw, idOk id /\ taskAt s M id = Some (t, raw) /\ taskDue t now = true /\
    K = kvDueIndexKey (r_Kind (t_Record t)) (kvTaskShard id) /\ m = kvIndexMember (taskDueAt t) t /\ (cursor = EmptyString \/ strLt cursor m).
Proof.
  intros HI Hn Hkinds HK. unfold dueKeys in HK. apply list_elem_of_bind in HK as (kind & HK & Hkind).
  apply list_elem_of_fmap in HK as (shard & -> & Hsh). rewrite Forall_forall in Hkinds.
  rewrite elem_of_rangeAll, (inv_index kv_opts s M HI) by (apply idxKeys_due; auto). rewrite inRange_iff. cbn. split.
  - intros ((id & t & raw & Hid & Ht & (Hz & EK & ->)%idx_due) & Ha & Hb). pose proof (taskAt_good _ _ _ _ _ _ HI Hid Ht) as Hg.
    exists id, t, raw. destruct (taskAt_inv _ _ _ _ _ _ Ht) as (_ & _ & _ & Hrid & _).
    split_and!; [done|done| |by rewrite <-Hrid|done|].
    + apply taskDue_spec; [apply Hg|]. split; [done|]. apply (dueBound_spec _ now t); [apply taskDueAt_ok, Hg|done|]. by apply Hb.
    + case_bool_decide; [by left|right]. by apply Ha.
  - intros (id & t & raw & Hid & Ht & Hdue & EK & -> & Hc). pose proof (taskAt_good _ _ _ _ _ _ HI Hid Ht) as Hg.
    destruct (taskAt_inv _ _ _ _ _ _ Ht) as (_ & _ & _ & Hrid & _). apply taskDue_spec in Hdue as [Hz Hle]; [|apply Hg]. split_and!.
    + exists id, t, raw. split_and!; [done|done|]. apply idx_due. by rewrite Hrid.
    + case_bool_decide as Hcur; [done|]. intros a [= <-]. by destruct Hc.
    + intros b [= <-]. apply dueBound_spec; [apply taskDueAt_ok, Hg|done|done].
Qed.

Lemma taskAt_dueKey s M id t raw :
  taskAt s M id = Some (t, raw) -> kvDueIndexKey (r_Kind (t_Record t)) (kvTaskShard id) ∈ dueKeys s.
Proof.
  intros (data & _ & _ & _ & Hown & _)%taskAt_inv. unfold dueKeys. apply list_elem_of_bind. exists (r_Kind (t_Record t)).
  apply bool_decide_eq_true in Hown. split; [|done]. apply list_elem_of_fmap_2. by apply shard_in_shards.
Qed.

(** The reference a scan returns for a task. *)
Definition refTo s (t : Task) : Reference := MkReference (s_SourceName s) (r_DeletionID (t_Record t)) (t_MarkerFingerprint t).

(** C21: A page of a due scan has at most [limit] references, each to a stored task
    that is due; and it misses none: every due task whose index member lies after
    the cursor, and not after the cursor returned for the next page (when there is
    one), is on the page.  So the pages of a scan, followed until no cursor is
    returned, hold exactly the due tasks. *)
Theorem ScanDue_pages s now limit cursor w :
  kv_ok w -> Inv s (kv_db w) -> timeOk now -> Forall (fun k => Kind_valid k = true) (s_OwnedKinds s) ->
  let M := kv_db w in
  kv_db (KVSource_ScanDue s now limit cursor w).1 = M /\
  forall refs next, (KVSource_ScanDue s now limit cursor w).2 = Ret (refs, next) ->
    Z.of_nat (length refs) <= limit /\
    (forall ref, ref ∈ refs -> exists t raw, taskAt s M (ref_DeletionID ref) = Some (t, raw) /\ taskDue t now = true /\ ref = refTo s t) /\
    (forall id t raw, idOk id -> taskAt s M id = Some (t, raw) -> taskDue t now = true ->
       let m := kvIndexMember (taskDueAt t) t in
       cursor = EmptyString \/ strLt cursor m -> next = EmptyString \/ String.le m next -> refTo s t ∈ refs).
Proof.
  intros Hw HI Hn Hkinds M. unfold KVSource_ScanDue. destruct (scanIndexedDue s now limit cursor w) as [w' r] eqn:EQ. cbn [fst snd].
  destruct (scan_reads s now limit cursor w w' r Hw I EQ) as (_ & -> & HQ). split; [done|]. intros refs next ->.
  destruct (HQ _ eq_refl) as (Hlim & members & HS & Hmem & Hnext & Hrefs). cbn [fst snd] in Hnext, Hrefs. fold M in Hmem.
  apply mapGo_elem in Hrefs as (HL & Hin & Hout).
  assert (forall id t raw, idOk id -> taskAt s M id = Some (t, raw) -> refOf s (kvIndexMember (taskDueAt t) t) = Ret (refTo s t)) as Href.
  { intros id t raw Hid Ht. pose proof (taskAt_good _ _ _ _ _ _ HI Hid Ht) as Hg. destruct (taskAt_inv _ _ _ _ _ _ Ht) as (_ & _ & _ & Hrid & _).
    unfold refOf. rewrite (parse_member s); [done|apply taskDueAt_ok, Hg|by rewrite Hrid|done]. }
  split_and!.
  - rewrite HL, length_take. lia.
  - intros ref (m & Hm & Hf)%Hout. apply elem_of_take in Hm as (i & Hi & _). apply list_elem_of_lookup_2 in Hi.
    apply Hmem in Hi as (p & (K & -> & HK)%list_elem_of_fmap & Hp). apply elem_of_take in Hp as (j & Hp & _). apply list_elem_of_lookup_2 in Hp.
    apply (shard_range s M) in Hp as (id & t & raw & Hid & Ht & Hdue & _ & -> & _); [|done..].
    rewrite (Href id t raw Hid Ht) in Hf. injection Hf as <-. exists t, raw. cbn [refTo ref_DeletionID].
    destruct (taskAt_inv _ _ _ _ _ _ Ht) as (_ & _ & _ & Hrid & _). by rewrite Hrid.
  - intros id t raw Hid Ht Hdue Hcur Hnx. set (m := kvIndexMember (taskDueAt t) t) in *. apply (Hin m); [|by eapply Href].
    set (K := kvDueIndexKey (r_Kind (t_Record t)) (kvTaskShard id)).
    apply (merged_page (map (fun k => rangeAll (dueQuery now limit cursor) (setOf M (E k))) (dueKeys s)) _ members
             (rangeAll (dueQuery now limit cursor) (setOf M (E K)))); [done| |done| | |].
    + intros p (k & -> & _)%list_elem_of_fmap. apply rangeAll_strict.
    + apply (list_elem_of_fmap_2 (fun k => rangeAll (dueQuery now limit cursor) (setOf M (E k)))). by eapply taskAt_dueKey.
    + apply (shard_range s M); [done..|by eapply taskAt_dueKey|]. exists id, t, raw. by split_and!.
    + destruct (Z.ltb_spec limit (Z.of_nat (length members))) as [Hlt|]; [right|left; lia].
      destruct (last (take (Z.to_nat limit) members)) as [e|] eqn:Hl.
      * exists e. split; [done|]. cbn in Hnext. subst next. destruct Hnx as [->|?]; [|done]. exfalso.
        apply last_Some in Hl as [l' Hl]. assert (EmptyString ∈ members) as He.
        { rewrite <-(take_drop (Z.to_nat limit) members), Hl. apply elem_of_app. left. apply elem_of_app. right. by left. }
        apply Hmem in He as (p & (K' & -> & HK')%list_elem_of_fmap & Hp). apply elem_of_take in Hp as (j & Hp & _). apply list_elem_of_lookup_2 in Hp.
        apply (shard_range s M) in Hp as (id' & t' & raw' & _ & _ & _ & _ & Hbad & _); [|done..].
        unfold kvIndexMember in Hbad. apply (f_equal String.length) in Hbad. rewrite length_app_str in Hbad. cbn in Hbad. lia.
      * exfalso. apply last_None, (f_equal length) in Hl. rewrite length_take in Hl. cbn in Hl. lia.
Qed.

End scan.
