(* ===== verification/PDList.v ===== *)
(** * pendingdeletion: listing tasks

    The order in which [src/pkgs/gizclaw/services/system/pendingdeletion/admin.go]
    lists tasks ([taskLess]), what a page of a listing is, and the listing of the
    durable source ([listIndexedTasks] of kv_index.go): under the index invariant it
    returns the first [Limit] stored tasks that match the options, in order, and
    misses none.  The bounds of the range query ([listAfter]) are shown to select
    exactly the tasks that [taskMatches] accepts. *)

From stdpp Require Import gmap strings list sorting.
From S2P Require Import Prelude GoStrings GoText CustomID KVKey KVMemory KVSpec KVProps KVIface PDTypes PDStore PDTask PDCodec PDInv PDOps PDScan.

Open Scope Z_scope.

(** ** The order of tasks *)
Definition taskLess (a b : Task) : bool :=
  let da := r_DeletedAt (t_Record a) in let db := r_DeletedAt (t_Record b) in
  if negb (da =? db) then da <? db
  else if negb (bool_decide (t_Source a = t_Source b)) then ltStr (t_Source a) (t_Source b)
  else ltStr (r_DeletionID (t_Record a)) (r_DeletionID (t_Record b)).

Definition taskBefore (a b : Task) : Prop := taskLess a b = true.
#[export] Instance taskBefore_dec a b : Decision (taskBefore a b) := decide (taskLess a b = true).

(** The place of a task in the order. *)
Definition position : Type := Time * string * string.
Definition positionOf (t : Task) : position := (r_DeletedAt (t_Record t), t_Source t, r_DeletionID (t_Record t)).
Definition positionLt (p q : position) : Prop :=
  p.1.1 < q.1.1 \/ p.1.1 = q.1.1 /\ (strLt p.1.2 q.1.2 \/ p.1.2 = q.1.2 /\ strLt p.2 q.2).

Lemma taskBefore_iff a b : taskBefore a b <-> positionLt (positionOf a) (positionOf b).
Proof.
  unfold taskBefore, taskLess, positionLt, positionOf. cbn. destruct (Z.eqb_spec (r_DeletedAt (t_Record a)) (r_DeletedAt (t_Record b))) as [E|E]; cbn.
  - case_bool_decide as Hs; cbn; unfold ltStr; rewrite bool_decide_eq_true.
    + split; [by right; split; [|right]|]. intros [?|[_ [[_ ?]|[_ ?]]]]; [lia|done|done].
    + split; [by right; split; [|left]|]. intros [?|[_ [?|[? _]]]]; [lia|done|done].
  - rewrite Z.ltb_lt. split; [by left|]. intros [?|[? _]]; [done|lia].
Qed.

Lemma positionLt_irrefl p : ~ positionLt p p.
Proof. intros [?|[_ [?%strLt_irrefl|[_ ?%strLt_irrefl]]]]; [lia|done|done]. Qed.

Lemma positionLt_trans p q r : positionLt p q -> positionLt q r -> positionLt p r.
Proof.
  intros [H|[E H]] [H'|[E' H']]; [left; lia|left; lia|left; lia|right]. split; [congruence|].
  destruct H as [H|[F H]], H' as [H'|[F' H']]; [left; by eapply strLt_trans|left; by rewrite <-F'|left; by rewrite F|].
  right. split; [congruence|by eapply strLt_trans].
Qed.

Lemma positionLt_total p q : positionLt p q \/ p = q \/ positionLt q p.
Proof.
  destruct p as [[a s] i], q as [[b u] j]. unfold positionLt. cbn.
  destruct (Z.lt_trichotomy a b) as [?|[->|?]]; [by left; left| |by right; right; left].
  destruct (strLt_trichotomy s u) as [?|[->|?]]; [left; right; by split; [|left]| |right; right; right; by split; [|left]].
  destruct (strLt_trichotomy i j) as [?|[->|?]]; [left; right; by split; [|right]|by right; left|right; right; right; by split; [|right]].
Qed.

#[export] Instance taskBefore_trans : Transitive taskBefore.
Proof. intros a b c. rewrite !taskBefore_iff. apply positionLt_trans. Qed.
Lemma taskBefore_irrefl a : ~ taskBefore a a.
Proof. rewrite taskBefore_iff. apply positionLt_irrefl. Qed.

(** ** Pages *)

(** The first [limit] of the tasks in [P]. *)
Definition isPage (P : Task -> Prop) (limit : Z) (tasks : list Task) : Prop :=
  StronglySorted taskBefore tasks /\ (forall t, t ∈ tasks -> P t) /\ Z.of_nat (length tasks) <= limit /\
  (forall t, P t -> t ∈ tasks \/ (Z.of_nat (length tasks) = limit /\ forall u, u ∈ tasks -> taskBefore u t)).

(** Tasks are told apart by their place. *)
Definition distinctPlaces (P : Task -> Prop) : Prop := forall t u, P t -> P u -> positionOf t = positionOf u -> t = u.

Lemma StronglySorted_app_inv {A} (R : relation A) l k :
  StronglySorted R (l ++ k) -> StronglySorted R l /\ StronglySorted R k /\ forall x y, x ∈ l -> y ∈ k -> R x y.
Proof.
  induction l as [|a l IH]; cbn; intros H.
  - split_and!; [constructor|done|]. intros x y Hx. by apply not_elem_of_nil in Hx.
  - apply StronglySorted_inv in H as [H HF]. destruct (IH H) as (H1 & H2 & H3). rewrite Forall_forall in HF. split_and!; [|done|].
    + constructor; [done|]. apply Forall_forall. intros x Hx. apply HF, elem_of_app. by left.
    + intros x y [->|Hx]%elem_of_cons Hy; [apply HF, elem_of_app; by right|by apply H3].
Qed.

Lemma sorted_NoDup l : StronglySorted taskBefore l -> NoDup l.
Proof.
  induction 1 as [|x l _ IH HF]; [constructor|]. constructor; [|done]. rewrite Forall_forall in HF.
  intros Hin. by apply (taskBefore_irrefl x), HF.
Qed.

(** A sorted list of all the tasks of [P] has the page as its beginning. *)
Lemma isPage_take P limit all :
  0 <= limit -> StronglySorted taskBefore all -> (forall t, t ∈ all <-> P t) -> isPage P limit (take (Z.to_nat limit) all).
Proof.
  intros Hl HS HP. pose proof HS as HS'. rewrite <-(take_drop (Z.to_nat limit) all) in HS'. apply StronglySorted_app_inv in HS' as (H1 & H2 & H3).
  split_and!; [done| | |].
  - intros t Ht. apply HP. rewrite <-(take_drop (Z.to_nat limit) all). apply elem_of_app. by left.
  - rewrite length_take. lia.
  - intros t Ht%HP. rewrite <-(take_drop (Z.to_nat limit) all) in Ht. apply elem_of_app in Ht as [Ht|Ht]; [by left|right]. split; [|auto].
    rewrite length_take. destruct (Nat.le_gt_cases (Z.to_nat limit) (length all)); [lia|]. rewrite drop_ge in Ht by lia. by apply not_elem_of_nil in Ht.
Qed.

(** An incomplete page is everything. *)
Lemma isPage_all P limit tasks t : isPage P limit tasks -> Z.of_nat (length tasks) < limit -> t ∈ tasks <-> P t.
Proof. intros (_ & H1 & _ & H2) Hl. split; [auto|]. intros [?|[? _]]%H2; [done|lia]. Qed.

(** ** The listing of the durable source *)
Section listing.
Context {W : Type} {CD : Codec} {CL : CodecLaws} {KO : KVOps W} {KL : KVLaws W}.
Implicit Types (M : gmap string aval) (s : KVSource) (w : W).

Local Notation E := (encK kv_opts).
Local Notation taskAt := (taskAt kv_opts).
Local Notation Inv := (Inv kv_opts).

(** The tasks that a store holds for the source. *)
Definition stored s M (t : Task) : Prop :=
  idOk (r_DeletionID (t_Record t)) /\ exists raw, taskAt s M (r_DeletionID (t_Record t)) = Some (t, raw).

(** Identifiers of one length, as canonical UUIDs have. *)
Definition idsOfLength (n : nat) s M : Prop := forall t, stored s M t -> String.length (r_DeletionID (t_Record t)) = n.

(** Options with times before year 10000 and, after a cursor, its identifier. *)
Definition optionsOk (n : nat) (o : SourceListOptions) : Prop :=
  from_option timeOk True (o_StartTime o) /\ from_option timeOk True (o_EndTime o) /\
  match o_AfterCreatedAt o with Some a => timeOk a /\ String.length (o_AfterDeletionID o) = n | None => True end.

(** The member of a task in the creation index. *)
Definition createdMember (t : Task) : string := kvIndexMember (r_DeletedAt (t_Record t)) t.

Lemma indexTime_lt a b x y :
  timeOk a -> timeOk b -> strLt (formatIndexTime a +:+ x) (formatIndexTime b +:+ y) <-> a < b \/ (a = b /\ strLt x y).
Proof.
  intros Ha Hb. rewrite strLt_app_eqlen by (by rewrite !indexTime_length). split.
  - intros [Hlt|[EQ Hxy]].
    + left. destruct (Z.lt_trichotomy a b) as [?|[->|Hgt]]; [done|by apply strLt_irrefl in Hlt|].
      exfalso. apply (strLt_irrefl (formatIndexTime a)). eapply strLt_trans; [done|]. by apply indexTime_mono.
    + right. split; [|done]. apply (f_equal parseIndexTime) in EQ. rewrite !indexTime_roundtrip in EQ by done. by injection EQ.
  - intros [Hlt|[-> Hxy]]; [left; by apply indexTime_mono|by right].
Qed.

Lemma goodTask_created s t : goodTask s t -> timeOk (r_DeletedAt (t_Record t)).
Proof. by intros (_ & _ & ? & _). Qed.

Lemma stored_good s M t : Inv s M -> stored s M t -> goodTask s t.
Proof. intros HI [Hid [raw Ht]]. by eapply taskAt_good. Qed.

(** The index orders the tasks of a source as [taskLess] does. *)
Lemma createdMember_order s t u n :
  goodTask s t -> goodTask s u -> String.length (r_DeletionID (t_Record t)) = n -> String.length (r_DeletionID (t_Record u)) = n ->
  r_DeletionID (t_Record t) <> r_DeletionID (t_Record u) ->
  strLt (createdMember t) (createdMember u) <-> taskBefore t u.
Proof.
  intros Ht Hu Lt Lu Hne. unfold createdMember, kvIndexMember. rewrite indexTime_lt by (by eapply goodTask_created).
  rewrite strLt_cons, strLt_app_eqlen by congruence. rewrite taskBefore_iff. unfold positionLt, positionOf. cbn.
  assert (t_Source t = t_Source u) as Hs by (destruct Ht as (_ & _ & _ & _ & ->), Hu as (_ & _ & _ & _ & ->); done).
  split.
  - intros [?|[? [?|[_ [?|[? _]]]]]]; [by left|lia|right|done]. split; [done|]. by right.
  - intros [?|[? [?|[_ ?]]]]; [by left| |right; split; [done|]; right; split; [done|]; by left]. rewrite Hs in *. by destruct (strLt_irrefl (t_Source u)).
Qed.

(** *** The bounds of the query *)
Lemma bound_start a t : timeOk a -> timeOk (r_DeletedAt (t_Record t)) -> strLt (formatIndexTime a) (createdMember t) <-> a <= r_DeletedAt (t_Record t).
Proof.
  intros Ha Ht. rewrite <-(app_nil_r_str (formatIndexTime a)). unfold createdMember, kvIndexMember. rewrite indexTime_lt by done.
  split; [lia|]. intros ?. destruct (Z.eq_dec a (r_DeletedAt (t_Record t))); [right; split; [done|apply strLt_empty]|left; lia].
Qed.

Lemma bound_end a t : timeOk a -> timeOk (r_DeletedAt (t_Record t)) -> strLt (createdMember t) (formatIndexTime a) <-> r_DeletedAt (t_Record t) < a.
Proof.
  intros Ha Ht. rewrite <-(app_nil_r_str (formatIndexTime a)). unfold createdMember, kvIndexMember. rewrite indexTime_lt by done.
  split; [|by left]. intros [?|[_ [Hle Hne]]]; [done|]. exfalso. apply (strLt_not_le EmptyString (String "/" (r_DeletionID (t_Record t) +:+ String "/" (t_MarkerFingerprint t)))); [apply strLt_empty|done].
Qed.

Lemma bound_past a t : timeOk a -> timeOk (r_DeletedAt (t_Record t)) ->
  strLt (formatIndexTime a +:+ String "255" EmptyString) (createdMember t) <-> a < r_DeletedAt (t_Record t).
Proof.
  intros Ha Ht. unfold createdMember, kvIndexMember. rewrite indexTime_lt by done. split; [|by left].
  intros [?|[_ Hlt]]; [done|]. rewrite strLt_cons in Hlt. destruct Hlt as [Hlt|[? _]]; [by vm_compute in Hlt|done].
Qed.

Lemma bound_id s a id t : timeOk a -> goodTask s t -> String.length id = String.length (r_DeletionID (t_Record t)) ->
  strLt (formatIndexTime a +:+ String "/" (id +:+ String "/" (String "255" EmptyString))) (createdMember t) <->
  a < r_DeletedAt (t_Record t) \/ (a = r_DeletedAt (t_Record t) /\ strLt id (r_DeletionID (t_Record t))).
Proof.
  intros Ha Hg HL. unfold createdMember, kvIndexMember. rewrite indexTime_lt by (done || by eapply goodTask_created).
  rewrite strLt_cons, strLt_app_eqlen by done. split; [|intros [?|[? ?]]; [by left|right; split; [done|]; right; split; [done|]; by left]].
  intros [?|[? [?|[_ [?|[_ Hfp]]]]]]; [by left|lia|by right|]. exfalso.
  destruct Hg as (_ & _ & _ & Hv & _). apply stored_fingerprint in Hv as [d Hd]. rewrite Hd in Hfp.
  rewrite strLt_cons in Hfp. destruct Hfp as [?|[_ Hfp]]; [lia|]. pose proof (hexEncode_alphabet (sha256 d)) as Hx.
  destruct (hexEncode (sha256 d)) as [|c x]; [|].
  - destruct Hfp as [Hle _]. revert Hle. apply strLt_not_le, strLt_empty.
  - rewrite strLt_cons in Hfp. cbn [allBytes] in Hx. apply andb_true_iff in Hx as [Hc _].
    assert (byteZ c < 255) as Hb by (revert Hc; byte_cases c; done). change (byteZ "255") with 255 in Hfp. destruct Hfp as [?|[<- _]]; [lia|].
    by vm_compute in Hb.
Qed.

(** The lower bound selects the tasks not before the start and after the cursor. *)
Lemma listAfter_spec n s o t :
  optionsOk n o -> goodTask s t -> String.length (r_DeletionID (t_Record t)) = n ->
  (forall a, listAfter s o = Some a -> strLt a (createdMember t)) <->
  (forall x, o_StartTime o = Some x -> x <= r_DeletedAt (t_Record t)) /\
  (forall a, o_AfterCreatedAt o = Some a -> positionLt (a, o_AfterSource o, o_AfterDeletionID o) (positionOf t)).
Proof.
  intros (Hstart & _ & Hafter) Hg HL. pose proof (goodTask_created _ _ Hg) as Hc.
  assert (t_Source t = s_SourceName s) as Hs by apply Hg. unfold listAfter.
  assert (forall x, o_StartTime o = Some x -> strLt (formatIndexTime x) (createdMember t) <-> x <= r_DeletedAt (t_Record t)) as HS.
  { intros x Hx. rewrite Hx in Hstart. by apply bound_start. }
  destruct (o_AfterCreatedAt o) as [a|].
  2:{ destruct (o_StartTime o) as [x|]; cbn [fmap option_fmap option_map]; [|by split; [split|]].
      specialize (HS x eq_refl). split; [intros HH; split; [intros ? [= <-]; by apply HS, HH|done]|intros [HH _] ? [= <-]; by apply HS, HH]. }
  destruct Hafter as [Ha HLa]. cbn zeta. set (after := if ltStr _ _ then _ else _).
  assert (strLt after (createdMember t) <-> positionLt (a, o_AfterSource o, o_AfterDeletionID o) (positionOf t)) as HA.
  { unfold after, positionLt, positionOf, ltStr. cbn [fst snd]. rewrite Hs. case_bool_decide as Hlt.
    - rewrite bound_past by done. split; [by left|]. intros [?|[_ [Hx|[Hx _]]]]; [done| |].
      + exfalso. apply (strLt_irrefl (s_SourceName s)). by eapply strLt_trans.
      + exfalso. rewrite Hx in Hlt. by apply strLt_irrefl in Hlt.
    - case_bool_decide as Heq.
      + rewrite (bound_id s) by (done || congruence). rewrite Heq. split.
        * intros [?|[? ?]]; [by left|right]. split; [done|by right].
        * intros [?|[? [?%strLt_irrefl|[_ ?]]]]; [by left|done|by right].
      + rewrite bound_start by done. split.
        * intros Hle. destruct (Z.eq_dec a (r_DeletedAt (t_Record t))); [right|left; lia]. split; [done|]. left.
          destruct (strLt_trichotomy (s_SourceName s) (o_AfterSource o)) as [?|[?|?]]; done.
        * intros [?|[? _]]; lia. }
  assert (forall q, o_StartTime o = Some q -> (strLt (if ltStr (formatIndexTime q) after then after else formatIndexTime q) (createdMember t) <->
      strLt (formatIndexTime q) (createdMember t) /\ strLt after (createdMember t))) as Hmax.
  { intros q _. unfold ltStr. case_bool_decide as Hlt; split; [|tauto| |tauto].
    - intros ?. split; [by eapply strLt_trans|done].
    - intros ?. split; [done|]. eapply strLe_lt_trans; [|done]. by apply not_strLt_le. }
  destruct (o_StartTime o) as [q|]; cbn [fmap option_fmap option_map].
  - specialize (HS q eq_refl). specialize (Hmax q eq_refl). split.
    + intros HH. assert (strLt (formatIndexTime q) (createdMember t) /\ strLt after (createdMember t)) as [H1 H2].
      { apply Hmax. destruct (ltStr (formatIndexTime q) after); by apply HH. }
      split; [intros ? [= <-]; by apply HS|intros ? [= <-]; by apply HA].
    + intros [H1 H2] b Hb. assert (strLt (if ltStr (formatIndexTime q) after then after else formatIndexTime q) (createdMember t)) as HH.
      { apply Hmax. split; [by apply HS, H1|by apply HA, H2]. }
      by destruct (ltStr (formatIndexTime q) after); injection Hb as <-.
  - split; [intros HH; split; [done|intros ? [= <-]; by apply HA, HH]|intros [_ HH] ? [= <-]; by apply HA, HH].
Qed.
(** *** Reads whose errors mean something *)
Definition readsE {A} (P : gmap string aval -> Prop) (m : ST W pdError A)
    (Q : gmap string aval -> A -> Prop) (F : gmap string aval -> pdError -> Prop) : Prop :=
  triple P m (fun M M' r => M' = M /\ match r with Ret a => Q M a | Fail e => F M e | Panic => True end).

Lemma readsE_bind {A B} P (m : ST W pdError A) (f : A -> ST W pdError B) Q F R G :
  readsE P m Q F -> (forall a, readsE (fun M => P M /\ Q M a) (f a) R G) -> (forall M e, F M e -> G M e) -> readsE P (m ≫= f) R G.
Proof.
  intros Hm Hf HF w w' r Hok HP EQ. rewrite ST_bind_eq in EQ. destruct (m w) as [w1 r1] eqn:E1.
  destruct (Hm w w1 r1 Hok HP E1) as (Hok1 & HD & HQ). destruct r1 as [a|e|].
  - destruct (Hf a w1 w' r Hok1) as [Hok2 HR]; [by rewrite HD|done|]. rewrite HD in HR. done.
  - injection EQ as <- <-. split_and!; auto.
  - injection EQ as <- <-. by split_and!.
Qed.

Lemma readsE_try {A} P (m : ST W pdError A) Q F G :
  readsE P m Q F -> readsE P (tryST m) (fun M r => match r with inr a => Q M a | inl e => F M e end) G.
Proof.
  intros Hm w w' r Hok HP EQ. unfold tryST in EQ. destruct (m w) as [w1 r1] eqn:E1.
  destruct (Hm w w1 r1 Hok HP E1) as (H1 & H2 & H3). destruct r1 as [a|e|]; injection EQ as <- <-; by split_and!.
Qed.

Lemma readsE_fail {A} (P : gmap string aval -> Prop) e (Q : gmap string aval -> A -> Prop) F : (forall M, P M -> F M e) -> readsE P (failST e) Q F.
Proof. intros HF w w' r Hok HP [= <- <-]. split_and!; auto. Qed.

Lemma readsE_lift {A} (P : gmap string aval -> Prop) (g : Go pdError A) (Q : gmap string aval -> A -> Prop) F :
  (forall M a, P M -> g = Ret a -> Q M a) -> (forall M e, P M -> g = Fail e -> F M e) -> readsE P (lift g) Q F.
Proof. intros HQ HF w w' r Hok HP [= <- <-]. split_and!; [done|done|]. destruct g; eauto. Qed.

Lemma readsE_ret {A} P (a : A) (Q : gmap string aval -> A -> Prop) F : (forall M, P M -> Q M a) -> readsE P (mret a) Q F.
Proof. intros HQ w w' r Hok HP [= <- <-]. split_and!; auto. Qed.

Lemma readsE_weaken {A} (P P' : gmap string aval -> Prop) (m : ST W pdError A) (Q Q' : gmap string aval -> A -> Prop) (F F' : gmap string aval -> pdError -> Prop) :
  readsE P' m Q' F' -> (forall M, P M -> P' M) -> (forall M a, P M -> Q' M a -> Q M a) -> (forall M e, P M -> F' M e -> F M e) -> readsE P m Q F.
Proof.
  intros Hm HP HQ HF w w' r Hok HPw EQ. destruct (Hm w w' r Hok (HP _ HPw) EQ) as (H1 & H2 & H3).
  split_and!; try done. destruct r; auto.
Qed.

Lemma readsE_reads {A} P (m : ST W pdError A) Q F : readsE P m Q F -> reads P m Q.
Proof. intros Hm w w' r Hok HP EQ. destruct (Hm w w' r Hok HP EQ) as (H1 & H2 & H3). split_and!; [done|done|]. by intros a ->. Qed.

Lemma reads_readsE {A} P (m : ST W pdError A) Q : reads P m Q -> readsE P m Q (fun _ _ => True).
Proof. intros Hm w w' r Hok HP EQ. destruct (Hm w w' r Hok HP EQ) as (H1 & H2 & H3). split_and!; [done|done|]. destruct r; auto. Qed.

Lemma kvGet_readsE P k : readsE P (kvM (kvGet k)) (fun M v => recAt kv_opts M k = Some v) (fun M e => isPDNotFound e = false /\ (isKVNotFound e = true -> recAt kv_opts M k = None)).
Proof.
  intros w w' r Hok _ EQ. unfold kvM, mapErrST in EQ. destruct (kvGet k w) as [w1 r1] eqn:E1.
  destruct (kvGet_law w k w1 r1 Hok E1) as (H1 & H2 & H3).
  destruct r1 as [v|e|]; injection EQ as <- <-; split_and!; try done; [destruct H3 as [d Hd]; unfold recAt; by rewrite Hd|].
  cbn. destruct e; try done. intros _. unfold recAt. by rewrite H3.
Qed.

Lemma getStoredRecord_readsE st id :
  readsE (fun _ => True) (getStoredRecord st id)
    (fun M r => exists data, recAt kv_opts M (byIDKey id) = Some data /\ unmarshalRecord data = Some r /\ r_DeletionID r = id)
    (fun M e => isPDNotFound e = false /\ (isKVNotFound e = true -> recAt kv_opts M (byIDKey id) = None)).
Proof.
  unfold getStoredRecord, checkST. eapply (readsE_bind _ _ _ (fun _ _ => True)); [apply readsE_lift; [done|]|intros []|].
  { intros M e _ He. unfold check in He. destruct (negb st); [injection He as <-|done]. instantiate (1 := fun _ e => e = notConfigured). done. }
  2:{ by intros M e ->. }
  eapply readsE_bind; [apply kvGet_readsE|intros data|done]. destruct (unmarshalRecord data) as [r|] eqn:Hu; [|by apply readsE_fail].
  eapply (readsE_bind _ _ _ (fun _ _ => r_DeletionID r = id) (fun _ e => isPDNotFound e = false /\ isKVNotFound e = false)).
  - apply readsE_lift; [intros M a _ Hc%check_Ret; by apply negb_false_iff, bool_decide_eq_true in Hc|].
    intros M e _ He. unfold check in He. by case_match; [injection He as <-|].
  - intros []. apply readsE_ret. intros M ((_ & Hd) & Hid). eauto.
  - intros M e [-> ->]. done.
Qed.

(** [loadTask] answers [ErrNotFound] only when there is no task. *)
Lemma loadTask_readsE s id :
  readsE (fun _ => True) (loadTask s id) (fun M x => taskAt s M id = Some x) (fun M e => isPDNotFound e = true -> taskAt s M id = None).
Proof.
  unfold loadTask. eapply readsE_bind; [eapply readsE_try, getStoredRecord_readsE| |by intros M e HF; exact HF]. intros [e|record].
  { destruct (isKVNotFound e) eqn:He; apply readsE_fail.
    - intros M (_ & _ & Hn) _. unfold PDInv.taskAt. by rewrite Hn.
    - by intros M (_ & -> & _). }
  destruct (owns s (r_Kind record)) eqn:Ho; cbn [negb].
  2:{ apply readsE_fail. intros M (_ & data & Hd & Hu & Hid) _. unfold PDInv.taskAt. rewrite Hd, Hu, Ho. by rewrite andb_false_r. }
  eapply readsE_bind; [eapply readsE_try, kvGet_readsE| |by intros M e HF; exact HF]. intros [e|raw].
  - destruct (isKVNotFound e) eqn:He; [|by apply readsE_fail; intros M (_ & -> & _)].
    eapply readsE_bind; [eapply readsE_weaken; [eapply readsE_try, getStoredRecord_readsE|done|done|by intros M e' _ HF; exact HF]| |by intros M e' HF; exact HF].
    intros [e'|r']; [|by apply readsE_fail].
    destruct (isKVNotFound e') eqn:He'; apply readsE_fail; [intros M (_ & _ & Hn) _; unfold PDInv.taskAt; by rewrite Hn|by intros M (_ & -> & _)].
  - apply readsE_lift.
    + intros M [t raw'] ((_ & data & Hd & Hu & Hid) & Hraw) HD. unfold PDInv.taskAt. rewrite Hd, Hu, bool_decide_eq_true_2, Ho by done. cbn [andb]. by rewrite Hraw, HD.
    + intros M e ((_ & data & Hd & Hu & Hid) & Hraw) HD _. unfold PDInv.taskAt. rewrite Hd, Hu, bool_decide_eq_true_2, Ho by done. cbn [andb]. by rewrite Hraw, HD.
Qed.

(** *** The range and the loop *)
Lemma matches_spec t o :
  taskMatches t o = true <->
  (o_Kinds o = [] \/ r_Kind (t_Record t) ∈ o_Kinds o) /\ (o_Statuses o = [] \/ t_Status t ∈ o_Statuses o) /\
  (forall x, o_StartTime o = Some x -> x <= r_DeletedAt (t_Record t)) /\ (forall x, o_EndTime o = Some x -> r_DeletedAt (t_Record t) < x) /\
  (forall a, o_AfterCreatedAt o = Some a -> positionLt (a, o_AfterSource o, o_AfterDeletionID o) (positionOf t)).
Proof.
  assert (forall a, o_AfterCreatedAt o = Some a ->
    (if a <? r_DeletedAt (t_Record t) then true else if negb (r_DeletedAt (t_Record t) =? a) then false
     else if negb (bool_decide (t_Source t = o_AfterSource o)) then ltStr (o_AfterSource o) (t_Source t)
     else ltStr (o_AfterDeletionID o) (r_DeletionID (t_Record t))) = true <->
    positionLt (a, o_AfterSource o, o_AfterDeletionID o) (positionOf t)) as HA.
  { intros a _. unfold positionLt, positionOf, ltStr. cbn [fst snd]. destruct (Z.ltb_spec a (r_DeletedAt (t_Record t))); [by split; [left|]|].
    destruct (Z.eqb_spec (r_DeletedAt (t_Record t)) a) as [Ea|Ea]; cbn [negb]; [|split; [done|]; intros [?|[? _]]; lia].
    case_bool_decide as Hs; cbn [negb]; rewrite bool_decide_eq_true; rewrite <-?Hs.
    - split; [intros; right; split; [done|by right]|]. intros [?|[_ [?%strLt_irrefl|[_ ?]]]]; [lia|done|done].
    - split; [intros; right; split; [done|by left]|]. intros [?|[_ [?|[? _]]]]; [lia|done|done]. }
  unfold taskMatches. cbn zeta.
  destruct (negb (bool_decide (o_Kinds o = [])) && _) eqn:HK.
  { split; [done|]. intros ([?|?] & _); apply andb_true_iff in HK as [H1%negb_true_iff%bool_decide_eq_false H2%negb_true_iff%bool_decide_eq_false]; done. }
  destruct (negb (bool_decide (o_Statuses o = [])) && _) eqn:HS.
  { split; [done|]. intros (_ & [?|?] & _); apply andb_true_iff in HS as [H1%negb_true_iff%bool_decide_eq_false H2%negb_true_iff%bool_decide_eq_false]; done. }
  assert (o_Kinds o = [] \/ r_Kind (t_Record t) ∈ o_Kinds o) as HK'.
  { apply andb_false_iff in HK as [?%negb_false_iff%bool_decide_eq_true|?%negb_false_iff%bool_decide_eq_true]; auto. }
  assert (o_Statuses o = [] \/ t_Status t ∈ o_Statuses o) as HS'.
  { apply andb_false_iff in HS as [?%negb_false_iff%bool_decide_eq_true|?%negb_false_iff%bool_decide_eq_true]; auto. }
  clear HK HS. destruct (o_StartTime o) as [x|].
  - destruct (Z.ltb_spec (r_DeletedAt (t_Record t)) x); [split; [done|]; intros (_ & _ & HH & _); specialize (HH x eq_refl); lia|].
    destruct (o_EndTime o) as [y|]; [destruct (Z.leb_spec y (r_DeletedAt (t_Record t))); [split; [done|]; intros (_ & _ & _ & HH & _); specialize (HH y eq_refl); lia|]|];
      destruct (o_AfterCreatedAt o) as [a|]; rewrite ?(HA a eq_refl); naive_solver.
  - destruct (o_EndTime o) as [y|]; [destruct (Z.leb_spec y (r_DeletedAt (t_Record t))); [split; [done|]; intros (_ & _ & _ & HH & _); specialize (HH y eq_refl); lia|]|];
      destruct (o_AfterCreatedAt o) as [a|]; rewrite ?(HA a eq_refl); naive_solver.
Qed.

Lemma idx_created t kind status shard m :
  (kvCreatedIndexKey kind status shard, m) ∈ idx t <->
  kvCreatedIndexKey kind status shard = kvCreatedIndexKey (r_Kind (t_Record t)) (t_Status t) (kvTaskShard (r_DeletionID (t_Record t))) /\
  m = createdMember t.
Proof.
  unfold idx, kvTaskIndexes. cbn [map]. rewrite elem_of_cons. split.
  - intros [[= -> -> EK ->]|Hin]; [unfold kvCreatedIndexKey; by rewrite EK|]. destruct (isZero _); [by apply not_elem_of_nil in Hin|]. cbn in Hin. apply list_elem_of_singleton in Hin. by injection Hin.
  - intros [EK ->]. left. cbn. by rewrite EK.
Qed.

Definition listQuery s (o : SourceListOptions) : OrderedRange :=
  MkOrderedRange (listAfter s o) (formatIndexTime <$> o_EndTime o) (o_Limit o + 1).

Definition ownsValidKinds s : Prop := Forall (fun k => Kind_valid k = true) (s_OwnedKinds s).

(** The range of one shard, in terms of the stored tasks. *)
Lemma created_range n s M o K m :
  Inv s M -> idsOfLength n s M -> optionsOk n o -> ownsValidKinds s -> K ∈ createdKeys s o ->
  m ∈ rangeAll (listQuery s o) (setOf M (E K)) <->
  exists t, stored s M t /\ taskMatches t o = true /\ m = createdMember t /\
    K = kvCreatedIndexKey (r_Kind (t_Record t)) (t_Status t) (kvTaskShard (r_DeletionID (t_Record t))).
Proof.
  intros HI HL Ho Hkinds HK. unfold createdKeys in HK.
  apply list_elem_of_bind in HK as (kind & HK & [Hkf Hkind]%list_elem_of_filter).
  apply list_elem_of_bind in HK as (status & HK & [Hsf Hst]%list_elem_of_filter).
  apply list_elem_of_fmap in HK as (shard & -> & Hsh). unfold ownsValidKinds in Hkinds. rewrite Forall_forall in Hkinds.
  assert (Status_valid status = true) as Hsv by (by apply bool_decide_eq_true_2).
  rewrite elem_of_rangeAll, (inv_index kv_opts s M HI) by (apply idxKeys_created; auto). rewrite inRange_iff. cbn [listQuery or_After or_Before].
  assert (forall t, goodTask s t -> (forall b, formatIndexTime <$> o_EndTime o = Some b -> strLt (createdMember t) b) <-> (forall x, o_EndTime o = Some x -> r_DeletedAt (t_Record t) < x)) as HE.
  { intros t Hg. destruct Ho as (_ & He & _). pose proof (goodTask_created _ _ Hg). destruct (o_EndTime o) as [x|]; cbn [fmap option_fmap option_map]; [|done].
    split; [intros HH ? [= <-]; by apply bound_end, HH|intros HH ? [= <-]; by apply bound_end, HH]. }
  split.
  - intros ((id & t & raw & Hid & Ht & (EK & ->)%idx_created) & Ha & Hb).
    destruct (taskAt_inv _ _ _ _ _ _ Ht) as (_ & _ & _ & Hrid & _). subst id.
    assert (stored s M t) as Hs by (split; eauto). pose proof (stored_good _ _ _ HI Hs) as Hg. exists t. split_and!; [done| |done|done].
    injection EK as -> -> _. apply matches_spec. pose proof (proj1 (HE t Hg) Hb) as Hb'. destruct (proj1 (listAfter_spec n s o t Ho Hg (HL t Hs)) Ha) as [H1 H2]. done.
  - intros (t & Hs & (H1 & H2 & H3 & H4 & H5)%matches_spec & -> & EK). pose proof (stored_good _ _ _ HI Hs) as Hg. split_and!.
    + destruct Hs as [Hid [raw Ht]]. exists (r_DeletionID (t_Record t)), t, raw. split_and!; [done|done|]. by apply idx_created.
    + apply (listAfter_spec n s o t Ho Hg (HL t Hs)). done.
    + by apply HE.
Qed.

Lemma matches_createdKey s M o t :
  Inv s M -> stored s M t -> taskMatches t o = true ->
  kvCreatedIndexKey (r_Kind (t_Record t)) (t_Status t) (kvTaskShard (r_DeletionID (t_Record t))) ∈ createdKeys s o.
Proof.
  intros HI Hs (H1 & H2 & _)%matches_spec. pose proof (stored_good _ _ _ HI Hs) as (_ & _ & _ & Hv%stored_status%bool_decide_eq_true & _).
  destruct Hs as [_ [raw Ht]]. apply taskAt_inv in Ht as (_ & _ & _ & _ & Ho & _). apply bool_decide_eq_true in Ho.
  unfold createdKeys. apply list_elem_of_bind. exists (r_Kind (t_Record t)). split; [|by apply list_elem_of_filter].
  apply list_elem_of_bind. exists (t_Status t). split; [|by apply list_elem_of_filter]. apply list_elem_of_fmap_2, shard_in_shards.
Qed.

(** What the loop makes of members of matching tasks. *)
Definition memberOf s M (o : SourceListOptions) (m : string) (t : Task) : Prop :=
  stored s M t /\ taskMatches t o = true /\ m = createdMember t.

Lemma listLoop_reads s o members ts tasks :
  Z.of_nat (length tasks) < o_Limit o ->
  reads (fun M => Inv s M /\ Forall2 (memberOf s M o) members ts) (listLoop s o members tasks)
    (fun M l => l = take (Z.to_nat (o_Limit o)) (tasks ++ ts)).
Proof.
  revert ts tasks. induction members as [|m members IH]; intros ts tasks Hlen; cbn [listLoop].
  { apply reads_ret. intros M [_ HF]. apply Forall2_nil_inv_l in HF as ->. rewrite app_nil_r, take_ge; [done|lia]. }
  destruct ts as [|t ts]; [intros w w' r _ [_ HF]; by apply Forall2_cons_nil_inv in HF|].
  eapply (reads_bind _ _ _ (fun M p => p = (r_DeletedAt (t_Record t), r_DeletionID (t_Record t), t_MarkerFingerprint t) /\ Forall2 (memberOf s M o) (m :: members) (t :: ts))).
  { apply reads_lift. intros M [[x id] fp] [HI HF] Hp. split; [|done]. apply Forall2_cons_1 in HF as [(Hs & _ & ->) _].
    pose proof (stored_good _ _ _ HI Hs) as Hg. unfold createdMember in Hp. rewrite (parse_member s) in Hp; [|by eapply goodTask_created|apply Hs|done]. by injection Hp as <- <- <-. }
  intros [[x id] fp]. eapply readsE_reads. eapply (readsE_bind _ _ _ _ (fun _ _ => True) _ (fun _ _ => True)); [eapply readsE_try, readsE_weaken; [apply loadTask_readsE|done|intros M a _ HQ; exact HQ|intros M e _ HF; exact HF]| |done].
  assert (forall M, Forall2 (memberOf s M o) (m :: members) (t :: ts) -> exists raw, taskAt s M (r_DeletionID (t_Record t)) = Some (t, raw)) as Hst.
  { intros M [([_ ?] & _) _]%Forall2_cons_1. done. }
  intros [e|[task raw]].
  - destruct (isPDNotFound e) eqn:He; [|by apply readsE_fail]. intros w w' r _ [[_ [EP HF]] Hnone]. injection EP as -> -> ->.
    destruct (Hst _ HF) as [raw Hr]. intros _. exfalso. by rewrite Hnone in Hr.
  - intros w w' r Hok ((HI & [= -> -> ->] & HF) & Ht). destruct (Hst _ HF) as [raw' Hr]. rewrite Hr in Ht. injection Ht as <- <-.
    apply Forall2_cons_1 in HF as [(Hs & Hm & _) HF]. rewrite bool_decide_eq_true_2, Hm by done. cbn [negb orb].
    replace (tasks ++ t :: ts) with ((tasks ++ [t]) ++ ts) by (by rewrite <-app_assoc).
    destruct (Z.eqb_spec (Z.of_nat (length (tasks ++ [t]))) (o_Limit o)) as [El|El].
    + intros [= <- <-]. split_and!; [done|done|]. rewrite <-El, Nat2Z.id. by rewrite take_app_length.
    + intros EQ. assert (Z.of_nat (length (tasks ++ [t])) < o_Limit o) as Hlt by (rewrite length_app in *; cbn in *; lia).
      exact (reads_readsE _ _ _ (IH ts (tasks ++ [t]) Hlt) w w' r Hok (conj (proj1 HI) HF) EQ).
Qed.

Lemma memberOf_functional s M o m t u : Inv s M -> memberOf s M o m t -> memberOf s M o m u -> t = u.
Proof.
  intros HI (Ht & _ & ->) (Hu & _ & EQ). apply kvIndexMember_id in EQ; [|eapply goodTask_created, stored_good; eauto..|apply Ht|apply Hu].
  destruct Ht as [_ [r1 H1]], Hu as [_ [r2 H2]]. rewrite EQ, H2 in H1. by injection H1.
Qed.

Lemma members_order n s M o m1 m2 t1 t2 :
  Inv s M -> idsOfLength n s M -> memberOf s M o m1 t1 -> memberOf s M o m2 t2 -> strLt m1 m2 -> taskBefore t1 t2.
Proof.
  intros HI HL H1 H2 Hlt. destruct (decide (r_DeletionID (t_Record t1) = r_DeletionID (t_Record t2))) as [EQ|Hne].
  - exfalso. destruct H1 as ([_ [r1 H1]] & _ & ->), H2 as ([_ [r2 H2]] & _ & ->). rewrite EQ, H2 in H1. injection H1 as -> ->. by apply strLt_irrefl in Hlt.
  - destruct H1 as (S1 & _ & ->), H2 as (S2 & _ & ->). by apply (createdMember_order s t1 t2 n); eauto using stored_good.
Qed.

Lemma members_sorted n s M o members ts :
  Inv s M -> idsOfLength n s M -> strictSorted members -> Forall2 (memberOf s M o) members ts -> StronglySorted taskBefore ts.
Proof.
  intros HI HL HS HF. induction HF as [|m t members ts Hm HF IH]; [constructor|]. apply StronglySorted_inv in HS as [HS Hlt].
  constructor; [by apply IH|]. rewrite Forall_forall in Hlt. apply Forall_forall. intros u Hu.
  apply list_elem_of_lookup_1 in Hu as [i Hi]. destruct (Forall2_lookup_r _ _ _ _ _ HF Hi) as (m' & Hm' & Hmu).
  eapply members_order; [done|done|exact Hm|exact Hmu|]. apply Hlt. by eapply list_elem_of_lookup_2.
Qed.

Lemma members_elem s M o members ts m t :
  Inv s M -> Forall2 (memberOf s M o) members ts -> m ∈ members -> memberOf s M o m t -> t ∈ ts.
Proof.
  intros HI HF [i Hi]%list_elem_of_lookup_1 Ht. destruct (Forall2_lookup_l _ _ _ _ _ HF Hi) as (u & Hu & Hmu).
  rewrite (memberOf_functional _ _ _ _ _ _ HI Ht Hmu). by eapply list_elem_of_lookup_2.
Qed.

(** The merged and cut ranges are a page of the matching tasks. *)
Lemma members_page n s M o members ts :
  Inv s M -> idsOfLength n s M -> optionsOk n o -> ownsValidKinds s -> 0 < o_Limit o -> strictSorted members ->
  (forall x, x ∈ members <-> exists k, k ∈ createdKeys s o /\ x ∈ take (Z.to_nat (o_Limit o + 1)) (rangeAll (listQuery s o) (setOf M (E k)))) ->
  Forall2 (memberOf s M o) members ts ->
  isPage (fun t => stored s M t /\ taskMatches t o = true) (o_Limit o) (take (Z.to_nat (o_Limit o)) ts).
Proof.
  intros HI HL Ho Hk Hlim HS Hmem HF. pose proof (Forall2_length _ _ _ HF) as HLen. set (limit := Z.to_nat (o_Limit o)) in *.
  pose proof (members_sorted n s M o _ _ HI HL HS HF) as HS'. pose proof HS' as HS2. rewrite <-(take_drop limit ts) in HS2. apply StronglySorted_app_inv in HS2 as (HS2 & _ & _).
  assert (Forall2 (memberOf s M o) (take limit members) (take limit ts)) as HFt by (by apply Forall2_take).
  split_and!; [done| |rewrite length_take; lia|].
  - intros t [i Hi]%list_elem_of_lookup_1. destruct (Forall2_lookup_r _ _ _ _ _ HFt Hi) as (m & _ & Hs & Hm & _). done.
  - intros t [Hs Hm]. assert (memberOf s M o (createdMember t) t) as Hmt by done.
    set (K := kvCreatedIndexKey (r_Kind (t_Record t)) (t_Status t) (kvTaskShard (r_DeletionID (t_Record t)))).
    pose proof (matches_createdKey s M o t HI Hs Hm) as HK. fold K in HK.
    pose proof (merged_page (map (fun k => rangeAll (listQuery s o) (setOf M (E k))) (createdKeys s o)) limit members
      (rangeAll (listQuery s o) (setOf M (E K))) (createdMember t) HS) as HP.
    assert (length members <= limit \/ (exists e, last (take limit members) = Some e /\ String.le (createdMember t) e) -> t ∈ take limit ts)%nat as Hin.
    { intros HH. eapply members_elem; [done|exact HFt|apply HP|exact Hmt]; [| | | |exact HH].
      - intros p (k & -> & _)%list_elem_of_fmap. apply rangeAll_strict.
      - intros x. rewrite Hmem. replace (Z.to_nat (o_Limit o + 1)) with (S limit) by lia. split.
        + intros (k & Hk' & Hx). eexists. split; [by apply (list_elem_of_fmap_2 (fun k => rangeAll (listQuery s o) (setOf M (E k))))|done].
        + intros (p & (k & -> & Hk')%list_elem_of_fmap & Hx). eauto.
      - by apply (list_elem_of_fmap_2 (fun k => rangeAll (listQuery s o) (setOf M (E k)))).
      - apply (created_range n s M o K); [done..|]. exists t. done. }
    destruct (Nat.le_gt_cases (length members) limit) as [Hle|Hgt]; [left; auto|].
    destruct (last (take limit members)) as [e|] eqn:Hlast; [|apply last_None, (f_equal length) in Hlast; rewrite length_take in Hlast; cbn in Hlast; lia].
    destruct (strLe_or_lt (createdMember t) e) as [Hle|Hlt]; [left; eauto|right]. split; [rewrite length_take; lia|].
    intros u [i Hi]%list_elem_of_lookup_1. destruct (Forall2_lookup_r _ _ _ _ _ HFt Hi) as (m & Hmi & Hmu).
    eapply members_order; [done|done|exact Hmu|exact Hmt|]. eapply strLe_lt_trans; [|exact Hlt].
    apply last_Some in Hlast as [l' Hl']. rewrite <-(take_drop limit members), Hl' in HS. apply strictSorted_app in HS as (HSl & _).
    apply strictSorted_app in HSl as (_ & _ & Hbef). rewrite Hl' in Hmi. apply list_elem_of_lookup_2, elem_of_app in Hmi as [Hmi| ->%list_elem_of_singleton]; [|done].
    apply Hbef; [done|by left].
Qed.

Lemma members_tasks n s M o members :
  Inv s M -> idsOfLength n s M -> optionsOk n o -> ownsValidKinds s ->
  (forall x, x ∈ members -> exists k, k ∈ createdKeys s o /\ x ∈ take (Z.to_nat (o_Limit o + 1)) (rangeAll (listQuery s o) (setOf M (E k)))) ->
  exists ts, Forall2 (memberOf s M o) members ts.
Proof.
  intros HI HL Ho Hk. induction members as [|m members IH]; intros Hmem; [by exists []|].
  destruct IH as [ts HF]; [intros x Hx; apply Hmem; by right|]. destruct (Hmem m ltac:(by left)) as (K & HK & [i [Hi _]]%elem_of_take).
  apply list_elem_of_lookup_2, (created_range n s M o K) in Hi as (t & Hs & Hm & -> & _); [|done..]. exists (t :: ts). by constructor.
Qed.

Lemma listIndexed_reads n s o :
  reads (fun M => Inv s M /\ idsOfLength n s M /\ optionsOk n o /\ ownsValidKinds s) (listIndexedTasks s o)
    (fun M tasks => isPage (fun t => stored s M t /\ taskMatches t o = true) (o_Limit o) tasks).
Proof.
  unfold listIndexedTasks. eapply reads_bind; [by apply (reads_lift _ _ (fun _ _ => True))|intros []].
  eapply reads_bind; [apply (reads_check _ _ _ (fun _ _ => 0 < o_Limit o)); intros; lia|intros []].
  fold (listQuery s o). eapply reads_bind; [eapply reads_weaken; [apply readIndexes_reads|done|intros M a _ HQ; exact HQ]|intros members].
  intros w w' r Hok ((((HI & HL & Ho & Hk) & _) & Hlim) & HS & Hmem) EQ.
  destruct (members_tasks n s (kv_db w) o members HI HL Ho Hk (fun x Hx => proj1 (Hmem x) Hx)) as [ts HF].
  destruct (listLoop_reads s o members ts [] Hlim w w' r Hok (conj HI HF) EQ) as (H1 & H2 & H3).
  split_and!; [done|done|]. intros tasks ->. rewrite (H3 _ eq_refl). by apply (members_page n s (kv_db w) o members ts).
Qed.

(** All the stored tasks, read off the indexes. *)
Definition storedTasks s M : list Task :=
  K ← idxKeys; m ← elements (setOf M (E K));
  match parseKVIndexMember m with
  | Ret (_, id, _) => match taskAt s M id with Some (t, _) => [t] | None => [] end
  | _ => []
  end.

Lemma stored_listed s M t : Inv s M -> stored s M t -> t ∈ storedTasks s M.
Proof.
  intros HI Hs. pose proof (stored_good _ _ _ HI Hs) as Hg. destruct Hs as [Hid [raw Ht]].
  set (K := kvCreatedIndexKey (r_Kind (t_Record t)) (t_Status t) (kvTaskShard (r_DeletionID (t_Record t)))).
  assert (K ∈ idxKeys) as HK by (apply idxKeys_created; [apply Hg|eapply stored_status; apply Hg|apply shard_in_shards]).
  unfold storedTasks. apply list_elem_of_bind. exists K. split; [|done]. apply list_elem_of_bind. exists (createdMember t).
  unfold createdMember. rewrite (parse_member s) by (done || by eapply goodTask_created). rewrite Ht. split; [by apply list_elem_of_singleton|].
  apply elem_of_elements, (inv_index kv_opts s M HI K _ HK). exists (r_DeletionID (t_Record t)), t, raw. split_and!; [done|done|by apply idx_created].
Qed.

(** [ListTasks] of the durable source leaves the store alone and, when it returns,
    returns the first [Limit] stored tasks that the options select, in the order
    (creation time, source, identifier): every returned task is stored and matches,
    and every other match comes after all of a full page.  So the bounds of the
    ordered range query, the limit per shard and the filter of the loop lose nothing. *)
Theorem ListTasks_page n s o w :
  kv_ok w -> Inv s (kv_db w) -> idsOfLength n s (kv_db w) -> optionsOk n o -> ownsValidKinds s ->
  kv_db (KVSource_ListTasks s o w).1 = kv_db w /\
  forall tasks, (KVSource_ListTasks s o w).2 = Ret tasks ->
    isPage (fun t => stored s (kv_db w) t /\ taskMatches t o = true) (o_Limit o) tasks.
Proof.
  intros Hw HI HL Ho Hk. unfold KVSource_ListTasks. destruct (listIndexedTasks s o w) as [w' r] eqn:EQ. cbn [fst snd].
  destruct (listIndexed_reads n s o w w' r Hw) as (_ & -> & HQ); [by split_and!|done|]. split; [done|]. intros tasks ->. by apply HQ.
Qed.
End listing.
