(* ===== verification/PDAdmin.v ===== *)
(** * pendingdeletion: the operator service

    [src/pkgs/gizclaw/services/system/pendingdeletion/admin.go]: listing the active
    tasks of all registered sources page by page, reading one task, and requeueing a
    failed one.  The JSON of a cursor is a parameter ([CursorCodec]); its base64 is
    [GoText]'s.  [sort.Slice] is the merge sort by [taskLess]: the order of equal
    elements is not specified by Go, and the tasks of a listing have distinct places. *)

From stdpp Require Import gmap strings list sorting.
From S2P Require Import Prelude GoStrings GoText CustomID KVKey KVMemory KVSpec KVIface PDTypes PDStore PDTask PDRegistry PDCodec PDInv PDOps PDScan PDList.

Open Scope Z_scope.

Definition defaultListLimit : Z := 100.
Definition maxListLimit : Z := 500.

Record ListRequest := MkListRequest {
  lr_Source : string;
  lr_Kind : Kind;
  lr_Status : Status;
  lr_StartTime : option Time;
  lr_EndTime : option Time;
  lr_Limit : Z;
  lr_Cursor : string
}.

Record ListResult := MkListResult {
  res_Tasks : list Task;
  res_NextCursor : string
}.

Record listCursor := MkListCursor {
  lc_Source : string;
  lc_Kind : Kind;
  lc_Status : Status;
  lc_Start : string;
  lc_End : string;
  lc_CreatedAt : string;
  lc_LastSource : string;
  lc_DeletionID : string
}.

#[export] Instance listCursor_eq_dec : EqDecision listCursor.
Proof. solve_decision. Defined.

(** [json.Marshal] and [json.Unmarshal] of a cursor; marshalling a structure of
    strings does not fail. *)
Class CursorCodec := {
  marshalCursor : listCursor -> string;
  unmarshalCursor : string -> option listCursor
}.

(** [sort.Slice(all, ...taskLess...)]. *)
Definition taskNotAfter (a b : Task) : Prop := taskLess b a = false.
#[export] Instance taskNotAfter_dec : RelDecision taskNotAfter := fun a b => decide (taskLess b a = false).
Definition sortTasks (all : list Task) : list Task := merge_sort taskNotAfter all.

Section codec.
Context `{Codec} `{CursorCodec}.

Definition formatOptionalTime (value : option Time) : string :=
  match value with None => EmptyString | Some t => formatNano t end.

Definition validDeletionID (value : string) : bool :=
  if bool_decide (value = EmptyString) || negb (bool_decide (value = trimSpace value)) then false else uuidParse value.

Definition encodeListCursor (request : ListRequest) (task : Task) : string :=
  b64Encode (marshalCursor (MkListCursor (lr_Source request) (lr_Kind request) (lr_Status request)
    (formatOptionalTime (lr_StartTime request)) (formatOptionalTime (lr_EndTime request))
    (formatNano (r_DeletedAt (t_Record task))) (t_Source task) (r_DeletionID (t_Record task)))).

Definition decodeListCursor (request : ListRequest) : Go pdError (option listCursor) :=
  if bool_decide (lr_Cursor request = EmptyString) then Ret None
  else
    _ ← check (negb (bool_decide (lr_Cursor request = trimSpace (lr_Cursor request)))) (PDInvalid "invalid cursor");
    match b64Decode (lr_Cursor request) with
    | None => Fail (PDInvalid "invalid cursor")
    | Some data =>
        match unmarshalCursor data with
        | None => Fail (PDInvalid "invalid cursor")
        | Some cursor =>
            _ ← check (negb (bool_decide (lc_Source cursor = lr_Source request)) || negb (bool_decide (lc_Kind cursor = lr_Kind request)) ||
                       negb (bool_decide (lc_Status cursor = lr_Status request)) ||
                       negb (bool_decide (lc_Start cursor = formatOptionalTime (lr_StartTime request))) ||
                       negb (bool_decide (lc_End cursor = formatOptionalTime (lr_EndTime request))))
                  (PDInvalid "cursor filters do not match");
            _ ← check (bool_decide (lc_CreatedAt cursor = EmptyString) || negb (namePattern (lc_LastSource cursor)) ||
                       negb (validDeletionID (lc_DeletionID cursor)))
                  (PDInvalid "incomplete cursor");
            Ret (Some cursor)
        end
    end.

(** The request checks of [List], with the default limit filled in. *)
Definition checkRequest (request : ListRequest) : Go pdError ListRequest :=
  let request := MkListRequest (lr_Source request) (lr_Kind request) (lr_Status request) (lr_StartTime request) (lr_EndTime request)
                   (if lr_Limit request =? 0 then defaultListLimit else lr_Limit request) (lr_Cursor request) in
  _ ← check ((lr_Limit request <? 1) || (maxListLimit <? lr_Limit request)) (PDInvalid "invalid limit");
  _ ← check (match lr_StartTime request, lr_EndTime request with Some start, Some end_ => negb (start <? end_) | _, _ => false end)
        (PDInvalid "end time must be after start time");
  _ ← check (negb (bool_decide (lr_Kind request = EmptyString)) && negb (Kind_valid (lr_Kind request))) (PDInvalid "invalid kind");
  _ ← check (negb (bool_decide (lr_Status request = EmptyString)) && negb (Status_valid (lr_Status request))) (PDInvalid "invalid status");
  Ret request.

(** The options passed to every source. *)
Definition listOptions (request : ListRequest) (cursor : option listCursor) : Go pdError SourceListOptions :=
  let kinds := if bool_decide (lr_Kind request = EmptyString) then [] else [lr_Kind request] in
  let statuses := if bool_decide (lr_Status request = EmptyString) then [] else [lr_Status request] in
  match cursor with
  | None => Ret (MkListOptions kinds statuses (lr_StartTime request) (lr_EndTime request) None EmptyString EmptyString (lr_Limit request + 1))
  | Some c =>
      match parseNano (lc_CreatedAt c) with
      | None => Fail (PDInvalid "invalid cursor timestamp")
      | Some createdAt =>
          Ret (MkListOptions kinds statuses (lr_StartTime request) (lr_EndTime request) (Some createdAt) (lc_LastSource c) (lc_DeletionID c)
                 (lr_Limit request + 1))
      end
  end.
End codec.

(** An error of the service: one of the package, or the one a handler's admission
    check returned. *)
Inductive adminError :=
  | AdminPD (e : pdError)
  | AdminHandler (e : handlerError).

Section admin.
Context {W : Type} `{Codec} `{CursorCodec}.

Local Abbreviation Registry := (gmap string (@registration W)).

(** [now] is an argument of the operations that read it; [wake] acts on the world. *)
Record Admin := MkAdmin {
  ad_registry : option Registry;
  ad_wake : option (W -> W)
}.

Definition NewAdmin (registry : option Registry) (wake : option (W -> W)) : Admin := MkAdmin registry wake.

Definition requireSource (a : Admin) (name : string) : Go pdError (Source W) :=
  let trimmed := trimSpace name in
  _ ← check (bool_decide (trimmed = EmptyString) || negb (bool_decide (name = trimmed))) (PDInvalid "source is required");
  match registrySource (ad_registry a) trimmed with
  | None => Fail (PDInvalid "unknown source")
  | Some source => Ret source
  end.

Definition selectedSources (a : Admin) (name : string) : Go pdError (list (Source W)) :=
  if bool_decide (name = EmptyString) then Ret (registrySources (ad_registry a))
  else source ← requireSource a name; Ret [source].

(** [ValidateTask] of a task that a source returned. *)
Definition checkReturned (context : string) (task : Task) : Go pdError unit :=
  match ValidateTask task with Ret _ => Ret tt | Fail _ => Fail (PDText context) | Panic => Panic end.

(** The body of the loop over the sources. *)
Definition listSource (options : SourceListOptions) (all : list Task) (source : Source W) : ST W pdError (list Task) :=
  tasks ← src_ListTasks source options;
  _ ← lift (each (checkReturned "pending deletion: source returned invalid task") tasks);
  mret (all ++ tasks).

(** The sorted tasks cut to a page. *)
Definition cutPage (request : ListRequest) (all : list Task) : ListResult :=
  if lr_Limit request <? Z.of_nat (length all) then
    let page := take (Z.to_nat (lr_Limit request)) all in
    MkListResult page (match last page with Some t => encodeListCursor request t | None => EmptyString end)
  else MkListResult all EmptyString.

(** A nil [Admin] or registry is an error here and a nil dereference in the methods
    below, except that a nil registry has no sources. *)
Definition Admin_List (a : option Admin) (request : ListRequest) : ST W pdError ListResult :=
  match a with
  | Some (MkAdmin (Some _) _ as a) =>
      request ← lift (checkRequest request);
      cursor ← lift (decodeListCursor request);
      sources ← lift (selectedSources a (lr_Source request));
      options ← lift (listOptions request cursor);
      all ← foldST (listSource options) [] sources;
      mret (cutPage request (sortTasks all))
  | _ => failST (PDText "pending deletion: admin is not configured")
  end.

Definition Admin_Get (a : option Admin) (sourceName deletionID : string) : ST W pdError Task :=
  match a with
  | None => lift Panic
  | Some a =>
      source ← lift (requireSource a sourceName);
      _ ← checkST (negb (validDeletionID deletionID)) (PDInvalid "invalid deletion ID");
      task ← src_GetTask source deletionID;
      _ ← lift (checkReturned "pending deletion: source returned invalid task" task);
      mret task
  end.

(** The handler's admission check; a value without one, or no handler, admits. *)
Definition checkAdmission (a : Admin) (sourceName : string) (current : Task) : ST W adminError unit := fun w =>
  match lookupHandler (ad_registry a) sourceName (r_Kind (t_Record current)) with
  | Some (_, handler) =>
      match h_CheckTask handler with
      | Some checkTask => match checkTask current w with Some err => (w, Fail (AdminHandler err)) | None => (w, Ret tt) end
      | None => (w, Ret tt)
      end
  | None => (w, Ret tt)
  end.

Definition wakeST (a : Admin) : ST W adminError unit := fun w =>
  (match ad_wake a with Some wake => wake w | None => w end, Ret tt).

Definition Admin_Retry (a : option Admin) (sourceName deletionID : string) (now : Time) : ST W adminError Task :=
  match a with
  | None => lift Panic
  | Some a =>
      source ← mapErrST AdminPD (lift (requireSource a sourceName));
      _ ← checkST (negb (validDeletionID deletionID)) (AdminPD (PDInvalid "invalid deletion ID"));
      current ← mapErrST AdminPD (src_GetTask source deletionID);
      _ ← mapErrST AdminPD (lift (ValidateTask current));
      _ ← checkST (negb (bool_decide (t_Status current = StatusFailed))) (AdminPD PDConflict);
      _ ← checkAdmission a sourceName current;
      task ← mapErrST AdminPD (src_Retry source deletionID now);
      _ ← mapErrST AdminPD (lift (checkReturned "pending deletion: source returned invalid retried task" task));
      _ ← wakeST a;
      mret task
  end.
End admin.
