(* ===== verification/PDAdminProps.v ===== *)
(** * pendingdeletion: what the operator service promises

    A listing of sources that list pages ([lister]) is a page of all their tasks
    together; a cursor written into a page is read back as its place; following the
    cursors ends and visits every selected task once, in order.  A retry requeues
    exactly a failed task that its handler admits.  [kv_lister] discharges [lister]
    for the durable source. *)

From stdpp Require Import gmap strings list sorting.
From S2P Require Import Prelude GoStrings GoText CustomID KVKey KVMemory KVSpec KVIface PDTypes PDStore PDTask PDRegistry PDProcessor PDCodec PDInv PDOps PDAttempt PDScan PDList PDAdmin.

Open Scope Z_scope.

(** ** Sources that list pages *)

(** What a listing relies on of a source: while the world satisfies [ok], the source
    holds the tasks of [held] and its listings are pages of them. *)
Record lister {W} (n : nat) (ok : W -> Prop) (src : Source W) (held : Task -> Prop) : Prop := {
  lister_page o w w' r : ok w -> optionsOk n o -> src_ListTasks src o w = (w', r) ->
    ok w' /\ forall tasks, r = Ret tasks -> isPage (fun t => held t /\ taskMatches t o = true) (o_Limit o) tasks;
  lister_task t : held t ->
    t_Source t = src_Name src /\ idOk (r_DeletionID (t_Record t)) /\ String.length (r_DeletionID (t_Record t)) = n /\ timeOk (r_DeletedAt (t_Record t));
  lister_unique t u : held t -> held u -> r_DeletionID (t_Record t) = r_DeletionID (t_Record u) -> t = u
}.

(** ** Sorting and merging pages *)
Lemma taskNotAfter_iff a b : taskNotAfter a b <-> ~ taskBefore b a.
Proof. unfold taskNotAfter, taskBefore. by destruct (taskLess b a). Qed.

#[export] Instance taskNotAfter_total : Total taskNotAfter.
Proof.
  intros a b. rewrite !taskNotAfter_iff, !taskBefore_iff. destruct (positionLt_total (positionOf a) (positionOf b)) as [Hp|[->|Hp]].
  - left. intros Hq. eapply positionLt_irrefl, positionLt_trans; done.
  - left. apply positionLt_irrefl.
  - right. intros Hq. eapply positionLt_irrefl, positionLt_trans; done.
Qed.

#[export] Instance taskNotAfter_trans : Transitive taskNotAfter.
Proof.
  intros a b c. rewrite !taskNotAfter_iff, !taskBefore_iff. intros H1 H2 H3.
  destruct (positionLt_total (positionOf a) (positionOf b)) as [Hp|[Hp|Hp]]; [|by rewrite Hp in *|done].
  apply H2. by eapply positionLt_trans.
Qed.

Lemma sortTasks_perm l : sortTasks l ≡ₚ l.
Proof. apply merge_sort_Permutation. Qed.

(** Tasks with distinct places are sorted strictly. *)
Lemma sortTasks_sorted P l : distinctPlaces P -> (forall t, t ∈ l -> P t) -> NoDup l -> StronglySorted taskBefore (sortTasks l).
Proof.
  intros HD HP HN. assert (StronglySorted taskNotAfter (sortTasks l)) as HS by (apply StronglySorted_merge_sort; apply _).
  assert (forall t, t ∈ sortTasks l -> P t) as HP' by (intros t; rewrite sortTasks_perm; auto).
  rewrite <-(sortTasks_perm l) in HN. induction HS as [|x k HS IH HF]; [constructor|]. apply NoDup_cons in HN as [Hx HN].
  constructor; [apply IH; [done|intros t Ht; apply HP'; by right]|]. rewrite Forall_forall in HF. apply Forall_forall. intros y Hy.
  specialize (HF y Hy). apply taskNotAfter_iff in HF. rewrite taskBefore_iff in *.
  destruct (positionLt_total (positionOf x) (positionOf y)) as [?|[EQ|?]]; [done| |done]. exfalso.
  apply Hx. rewrite (HD x y); [done|apply HP'; by left|apply HP'; by right|done].
Qed.

Section merge.
Context {A : Type} (P : A -> Task -> Prop) (limit : nat) (xs : list A) (pages : list (list Task)).
Context (HD : distinctPlaces (fun t => exists x, x ∈ xs /\ P x t)).
Context (HP : Forall2 (fun x page => isPage (P x) (Z.of_nat (S limit)) page) xs pages).
Context (HN : NoDup (concat pages)).

Local Abbreviation total := (fun t => exists x, x ∈ xs /\ P x t).
Local Abbreviation sorted := (sortTasks (concat pages)).

Lemma merge_elem t : t ∈ sorted <-> exists page, page ∈ pages /\ t ∈ page.
Proof.
  rewrite sortTasks_perm, list_elem_of_In, in_concat. split; intros (l & H1 & H2); exists l.
  - by rewrite !list_elem_of_In.
  - by rewrite <-!list_elem_of_In.
Qed.

Lemma merge_sound t : t ∈ sorted -> total t.
Proof.
  intros (page & Hp & Ht)%merge_elem. apply list_elem_of_lookup_1 in Hp as [i Hi]. destruct (Forall2_lookup_r _ _ _ _ _ HP Hi) as (x & Hx & _ & Hpg & _).
  exists x. split; [by eapply list_elem_of_lookup_2|auto].
Qed.

Lemma merge_sorted : StronglySorted taskBefore sorted.
Proof. apply (sortTasks_sorted total); [done| |done]. intros t Ht. apply merge_sound. by rewrite sortTasks_perm. Qed.

(** A task that no page holds has a full page before it. *)
Lemma merge_missing t : total t -> t ∈ sorted \/ exists page, page ⊆ sorted /\ length page = S limit /\ NoDup page /\ forall u, u ∈ page -> taskBefore u t.
Proof.
  intros (x & Hx & Ht). apply list_elem_of_lookup_1 in Hx as [i Hi]. destruct (Forall2_lookup_l _ _ _ _ _ HP Hi) as (page & Hp & HS & _ & _ & Hall).
  apply list_elem_of_lookup_2 in Hp. destruct (Hall t Ht) as [Hin|[Hlen Hbef]]; [left; apply merge_elem; eauto|right].
  exists page. split_and!; [intros u Hu; apply merge_elem; eauto|lia|by apply sorted_NoDup|done].
Qed.

Lemma merge_complete t : (length sorted <= limit)%nat -> total t <-> t ∈ sorted.
Proof.
  intros Hlen. split; [|apply merge_sound]. intros [?|(page & Hsub & Hl & Hnd & _)]%merge_missing; [done|]. exfalso.
  assert (page ⊆+ sorted) as Hs%submseteq_length by (by apply NoDup_submseteq). lia.
Qed.

Lemma merge_page : isPage total (Z.of_nat limit) (take limit sorted).
Proof.
  pose proof merge_sorted as HS. pose proof HS as HS'. rewrite <-(take_drop limit sorted) in HS'. apply StronglySorted_app_inv in HS' as (H1 & _ & H3).
  split_and!; [done| |rewrite length_take; lia|].
  - intros t Ht. apply merge_sound. rewrite <-(take_drop limit sorted). apply elem_of_app. by left.
  - intros t [Hin|(page & Hsub & Hl & Hnd & Hbef)]%merge_missing.
    + rewrite <-(take_drop limit sorted) in Hin. apply elem_of_app in Hin as [?|Hin]; [by left|right]. split; [|auto].
      rewrite length_take. destruct (Nat.le_gt_cases limit (length sorted)); [lia|]. rewrite drop_ge in Hin by lia. by apply not_elem_of_nil in Hin.
    + right. assert (page ⊆+ sorted) as Hlen%submseteq_length by (by apply NoDup_submseteq). split; [rewrite length_take; lia|].
      intros u Hu. destruct (decide (Exists (taskNotAfter u) page)) as [(v & Hv & Huv)%Exists_exists|Hno].
      * specialize (Hbef v Hv). apply taskNotAfter_iff in Huv. rewrite taskBefore_iff in *.
        destruct (positionLt_total (positionOf u) (positionOf v)) as [Hp|[->|Hp]]; [by eapply positionLt_trans|done|done].
      * exfalso. assert (page ⊆+ take limit sorted) as Hs%submseteq_length; [|rewrite length_take in Hs; lia].
        apply NoDup_submseteq; [done|]. intros v Hv. specialize (Hsub v Hv). rewrite <-(take_drop limit sorted) in Hsub.
        apply elem_of_app in Hsub as [?|Hd]; [done|]. exfalso. apply Hno, Exists_exists. exists v. split; [done|]. apply taskNotAfter_iff.
        specialize (H3 u v Hu Hd). intros H4. by apply (taskBefore_irrefl u), (taskBefore_trans u v u).
Qed.
End merge.

(** ** Cursors *)
Definition sanitizeCursor (c : listCursor) : listCursor :=
  MkListCursor (toValidUTF8 (lc_Source c)) (toValidUTF8 (lc_Kind c)) (toValidUTF8 (lc_Status c)) (toValidUTF8 (lc_Start c))
    (toValidUTF8 (lc_End c)) (toValidUTF8 (lc_CreatedAt c)) (toValidUTF8 (lc_LastSource c)) (toValidUTF8 (lc_DeletionID c)).

(** JSON round-trips a cursor up to the replacement of invalid UTF-8, and no text is
    the empty one. *)
Class CursorLaws `{CursorCodec} := {
  cursor_json c : unmarshalCursor (marshalCursor c) = Some (sanitizeCursor c);
  cursor_empty : unmarshalCursor EmptyString = None
}.

Section cursors.
Context {CD : Codec} {CL : CodecLaws} {CC : CursorCodec} {CCL : CursorLaws}.

(** The request with the cursor of a place: of the last task of a page, or none. *)
Definition withCursor (request : ListRequest) (p : option Task) : ListRequest :=
  MkListRequest (lr_Source request) (lr_Kind request) (lr_Status request) (lr_StartTime request) (lr_EndTime request) (lr_Limit request)
    match p with Some t => encodeListCursor request t | None => EmptyString end.

Definition optionalTimeOk (x : option Time) : Prop := from_option timeOk True x.

(** Filters that survive JSON: known names, times before year 10000. *)
Definition filtersOk (request : ListRequest) : Prop :=
  validUTF8 (lr_Source request) = true /\ (lr_Kind request = EmptyString \/ Kind_valid (lr_Kind request) = true) /\
  (lr_Status request = EmptyString \/ Status_valid (lr_Status request) = true) /\
  optionalTimeOk (lr_StartTime request) /\ optionalTimeOk (lr_EndTime request).

(** A task that a cursor can stand for. *)
Definition placeOk (n : nat) (t : Task) : Prop :=
  namePattern (t_Source t) = true /\ idOk (r_DeletionID (t_Record t)) /\ String.length (r_DeletionID (t_Record t)) = n /\
  timeOk (r_DeletedAt (t_Record t)) /\ uuidParse (r_DeletionID (t_Record t)) = true.

Lemma b64_trim x : trimSpace (b64Encode x) = b64Encode x.
Proof. apply trimSpace_name. eapply allBytes_impl; [|apply b64Encode_safe]. intros a. byte_cases a; done. Qed.

Lemma idOk_trim id : idOk id -> trimSpace id = id.
Proof. intros [_ Hid]. apply trimSpace_name. eapply allBytes_impl; [|exact Hid]. intros a. byte_cases a; done. Qed.

Lemma nano_nonempty t : timeOk t -> formatNano t <> EmptyString.
Proof. intros Ht EQ. pose proof (nano_roundtrip t Ht) as HR. by rewrite EQ, nano_empty in HR. Qed.

Lemma optionalTime_utf8 x : optionalTimeOk x -> toValidUTF8 (formatOptionalTime x) = formatOptionalTime x.
Proof. destruct x as [t|]; [|done]. intros Ht. by apply toValidUTF8_valid, asciiOnly_valid, nano_ascii. Qed.

Lemma kind_utf8 k : Kind_valid k = true -> validUTF8 k = true.
Proof.
  intros Hk%bool_decide_eq_true. rewrite !elem_of_cons in Hk. destruct Hk as [->|[->|[->|Hk]]]; [done..|by apply not_elem_of_nil in Hk].
Qed.

Lemma toValidUTF8_opt (valid : string -> bool) x : (forall y, valid y = true -> validUTF8 y = true) -> x = EmptyString \/ valid x = true -> toValidUTF8 x = x.
Proof. intros Hv [->|Hx]; [done|]. by apply toValidUTF8_valid, Hv. Qed.

Lemma encodeCursor_nonempty request t : encodeListCursor request t <> EmptyString.
Proof.
  intros EQ. apply (b64Encode_inj _ EmptyString), (f_equal unmarshalCursor) in EQ. by rewrite cursor_json, cursor_empty in EQ.
Qed.

(** The cursor of a page is accepted with the same filters and selects the tasks after it. *)
Lemma decode_cursor n request t :
  filtersOk request -> placeOk n t ->
  decodeListCursor (withCursor request (Some t)) =
    Ret (Some (MkListCursor (lr_Source request) (lr_Kind request) (lr_Status request) (formatOptionalTime (lr_StartTime request))
                 (formatOptionalTime (lr_EndTime request)) (formatNano (r_DeletedAt (t_Record t))) (t_Source t) (r_DeletionID (t_Record t)))).
Proof.
  intros HF (Hs & Hid & _ & Ht & Hu). pose proof HF as (F1 & F2 & F3 & F4 & F5). unfold decodeListCursor. cbn [withCursor lr_Cursor].
  rewrite bool_decide_eq_false_2 by (by apply encodeCursor_nonempty). unfold encodeListCursor.
  rewrite b64_trim, bool_decide_eq_true_2 by done. cbn [negb check mbind Go_bind]. rewrite b64Decode_b64Encode, cursor_json. unfold sanitizeCursor.
  cbn [lc_Source lc_Kind lc_Status lc_Start lc_End lc_CreatedAt lc_LastSource lc_DeletionID withCursor lr_Source lr_Kind lr_Status lr_StartTime lr_EndTime].
  rewrite (toValidUTF8_valid (lr_Source request)) by done. rewrite (toValidUTF8_opt Kind_valid (lr_Kind request)) by (done || apply kind_utf8).
  rewrite (toValidUTF8_opt Status_valid (lr_Status request)) by (done || apply status_utf8). rewrite !optionalTime_utf8 by done.
  rewrite (toValidUTF8_valid (formatNano _)) by (by apply asciiOnly_valid, nano_ascii).
  rewrite (toValidUTF8_valid (t_Source t)) by (by apply namePattern_utf8). rewrite (toValidUTF8_valid (r_DeletionID _)) by (by apply idOk_utf8).
  rewrite (bool_decide_eq_true_2 (lr_Source request = _)), (bool_decide_eq_true_2 (lr_Kind request = _)), (bool_decide_eq_true_2 (lr_Status request = _)) by done.
  rewrite !(bool_decide_eq_true_2 (formatOptionalTime _ = _)) by done. cbn [negb orb check mbind Go_bind]. rewrite bool_decide_eq_false_2 by (by apply nano_nonempty). rewrite Hs.
  unfold validDeletionID. rewrite idOk_trim by done. rewrite bool_decide_eq_false_2 by apply Hid. by rewrite bool_decide_eq_true_2, Hu.
Qed.
End cursors.

(** ** Listing *)
Definition requestMatches (request : ListRequest) (t : Task) : Prop :=
  (lr_Kind request = EmptyString \/ r_Kind (t_Record t) = lr_Kind request) /\
  (lr_Status request = EmptyString \/ t_Status t = lr_Status request) /\
  (forall x, lr_StartTime request = Some x -> x <= r_DeletedAt (t_Record t)) /\
  (forall x, lr_EndTime request = Some x -> r_DeletedAt (t_Record t) < x).

(** The tasks after a place. *)
Definition afterPlace (p : option Task) (t : Task) : Prop := forall u, p = Some u -> taskBefore u t.

Definition requestLimit (request : ListRequest) : Z := if lr_Limit request =? 0 then defaultListLimit else lr_Limit request.

Section list.
Context {W : Type} {CD : Codec} {CL : CodecLaws} {CC : CursorCodec} {CCL : CursorLaws}.
Context (n : nat) (ok : W -> Prop) (r : gmap string (@registration W)) (wake : option (W -> W)) (held : string -> Task -> Prop).
Context (Hreg : registered r).
Context (Hlist : forall src, src ∈ registrySources (Some r) -> lister n ok src (held (src_Name src))).
Implicit Types (request : ListRequest) (p : option Task).

Definition service : option Admin := Some (MkAdmin (Some r) wake).

(** The tasks that a request selects. *)
Definition selected request (t : Task) : Prop :=
  requestMatches request t /\
  exists src, src ∈ registrySources (Some r) /\ (lr_Source request = EmptyString \/ src_Name src = lr_Source request) /\ held (src_Name src) t.

Lemma selectedSources_spec a request srcs :
  ad_registry a = Some r -> selectedSources a (lr_Source request) = Ret srcs ->
  validUTF8 (lr_Source request) = true /\ NoDup (map src_Name srcs) /\
  forall src, src ∈ srcs <-> src ∈ registrySources (Some r) /\ (lr_Source request = EmptyString \/ src_Name src = lr_Source request).
Proof.
  intros Ha HS. destruct (registered_props r Hreg) as (HG & _ & HN & Hsrc). unfold selectedSources in HS. case_bool_decide as He.
  - injection HS as <-. rewrite Ha, He. split_and!; [done|by apply strictSorted_NoDup|]. intros src. tauto.
  - apply bind_Ret in HS as (source & HS & [= <-]). unfold requireSource in HS. apply bind_Ret in HS as ([] & [_ Ht%negb_false_iff%bool_decide_eq_true]%check_Ret%orb_false_iff & HS).
    rewrite Ha, <-Ht in HS. destruct (registrySource (Some r) (lr_Source request)) as [src|] eqn:Hs; [|done]. injection HS as ->.
    assert (src_Name source = lr_Source request) as Hname.
    { unfold registrySource in Hs. cbn in Hs. destruct (r !! lr_Source request) as [g|] eqn:Hg; [|done]. injection Hs as <-. by destruct (HG _ _ Hg). }
    split_and!; [| |].
    + unfold registrySource in Hs. cbn in Hs. destruct (r !! lr_Source request) as [g|] eqn:Hg; [|done]. destruct (HG _ _ Hg) as (_ & Hp & _). by apply namePattern_utf8.
    + cbn. apply NoDup_singleton.
    + intros src. rewrite list_elem_of_singleton. split.
      * intros ->. split; [apply Hsrc; by rewrite Hname|by right].
      * intros [Hin [?|Hn]]; [done|]. apply Hsrc in Hin. rewrite Hn, Hs in Hin. by injection Hin.
Qed.

(** The loop over the sources collects a page of each. *)
Lemma listSources_spec o srcs acc w w' res :
  ok w -> optionsOk n o -> (forall src, src ∈ srcs -> src ∈ registrySources (Some r)) ->
  foldST (listSource o) acc srcs w = (w', res) ->
  ok w' /\ forall all, res = Ret all -> exists pages, all = acc ++ concat pages /\
    Forall2 (fun src page => isPage (fun t => held (src_Name src) t /\ taskMatches t o = true) (o_Limit o) page) srcs pages /\
    Forall (fun t => ValidateTask t = Ret tt) (concat pages).
Proof.
  revert acc w. induction srcs as [|src srcs IH]; intros acc w Hok Ho Hin.
  { intros [= <- <-]. split; [done|]. intros all [= <-]. exists []. by rewrite app_nil_r. }
  rewrite foldST_cons. unfold listSource at 1. unfold mbind, ST_bind. destruct (src_ListTasks src o w) as [w1 r1] eqn:E1.
  destruct (lister_page _ _ _ _ (Hlist src ltac:(apply Hin; by left)) o w w1 r1 Hok Ho E1) as [Hok1 Hpage].
  destruct r1 as [tasks|e|]; cbn; [|by intros [= <- <-]..]. specialize (Hpage _ eq_refl).
  destruct (each _ tasks) as [[]|e|] eqn:Hv; cbn; [|by intros [= <- <-]..]. intros EQ.
  destruct (IH _ _ Hok1 Ho (fun s Hs => Hin s (list_elem_of_further _ _ _ Hs)) EQ) as [Hok' HQ]. split; [done|].
  intros all Hall. destruct (HQ all Hall) as (pages & -> & HF & HV). exists (tasks :: pages). split_and!; [by rewrite <-app_assoc|by constructor|].
  cbn. apply Forall_app. split; [|done]. apply each_Ret in Hv. eapply Forall_impl; [exact Hv|]. intros t. unfold checkReturned.
  by destruct (ValidateTask t) as [[]|e|].
Qed.

Lemma validTask_parse t : ValidateTask t = Ret tt -> uuidParse (r_DeletionID (t_Record t)) = true.
Proof.
  unfold ValidateTask. intros ([] & _ & HH)%bind_Ret. apply bind_Ret in HH as ([] & HH & _).
  destruct (Record_Validate (t_Record t)) as [[]|e|] eqn:Hv; [|done..]. unfold Record_Validate in Hv.
  apply bind_Ret in Hv as ([] & _ & Hv). apply bind_Ret in Hv as ([] & _ & Hv). apply bind_Ret in Hv as ([] & _ & Hv).
  apply bind_Ret in Hv as (expected & Hexp & Hv). apply bind_Ret in Hv as ([] & Hc%check_Ret & _).
  apply andb_false_iff in Hc as [->%negb_false_iff%bool_decide_eq_true|?%negb_false_iff]; [|done].
  unfold deletionIDForLocator in Hexp. apply bind_Ret in Hexp as ([] & _ & Hexp). destruct (ValidateResourceID _); [|done..].
  injection Hexp as <-. apply uuidSHA1_parse.
Qed.

(** The options of a page select what the request does, after the place. *)
Lemma listOptions_spec request p cursor o :
  optionalTimeOk (lr_StartTime request) -> optionalTimeOk (lr_EndTime request) ->
  (forall u, p = Some u -> placeOk n u /\ filtersOk request) ->
  decodeListCursor (withCursor request p) = Ret cursor -> listOptions (withCursor request p) cursor = Ret o ->
  optionsOk n o /\ o_Limit o = lr_Limit request + 1 /\ forall t, taskMatches t o = true <-> requestMatches request t /\ afterPlace p t.
Proof.
  intros Hst Hen Hp Hc Ho.
  assert (forall (x y : string) , (if bool_decide (x = EmptyString) then [] else [x]) = [] \/ y ∈ (if bool_decide (x = EmptyString) then [] else [x]) <-> x = EmptyString \/ y = x) as Hfil.
  { intros x y. case_bool_decide; [by split; left|]. rewrite list_elem_of_singleton. split; [intros [?|?]; [done|by right]|intros [?|?]; [done|by right]]. }
  destruct p as [u|].
  - destruct (Hp u eq_refl) as [Hu HF]. rewrite (decode_cursor n) in Hc by done. injection Hc as <-. unfold listOptions in Ho. cbn [lc_CreatedAt lc_LastSource lc_DeletionID] in Ho.
    destruct Hu as (_ & Hid & Hlen & Ht & _). rewrite nano_roundtrip in Ho by done. injection Ho as <-. split_and!; [by split_and!|done|].
    intros t. rewrite matches_spec. cbn [o_Kinds o_Statuses o_StartTime o_EndTime o_AfterCreatedAt o_AfterSource o_AfterDeletionID withCursor lr_Kind lr_Status lr_StartTime lr_EndTime].
    rewrite !Hfil. unfold requestMatches, afterPlace. split.
    + intros (H1 & H2 & H3 & H4 & H5). split; [done|]. intros u' [= <-]. apply taskBefore_iff. by apply H5.
    + intros ((H1 & H2 & H3 & H4) & H5). split_and!; try done. intros a [= <-]. by apply taskBefore_iff, H5.
  - cbn in Hc. injection Hc as <-. cbn in Ho. injection Ho as <-. split_and!; [by split_and!|done|].
    intros t. rewrite matches_spec. cbn [o_Kinds o_Statuses o_StartTime o_EndTime o_AfterCreatedAt].
    rewrite !Hfil. unfold requestMatches, afterPlace. naive_solver.
Qed.

Lemma checkRequest_spec request request' :
  checkRequest request = Ret request' ->
  request' = MkListRequest (lr_Source request) (lr_Kind request) (lr_Status request) (lr_StartTime request) (lr_EndTime request) (requestLimit request) (lr_Cursor request) /\
  1 <= requestLimit request <= maxListLimit /\ (lr_Kind request = EmptyString \/ Kind_valid (lr_Kind request) = true) /\
  (lr_Status request = EmptyString \/ Status_valid (lr_Status request) = true).
Proof.
  unfold checkRequest. cbn zeta. cbn [lr_Limit lr_Source lr_Kind lr_Status lr_StartTime lr_EndTime lr_Cursor]. fold (requestLimit request).
  intros ([] & Hl%check_Ret & HH)%bind_Ret. apply bind_Ret in HH as ([] & _ & HH). apply bind_Ret in HH as ([] & Hk%check_Ret & HH).
  apply bind_Ret in HH as ([] & Hs%check_Ret & [= <-]). split_and!; [done|lia|lia| |].
  - apply andb_false_iff in Hk as [?%negb_false_iff%bool_decide_eq_true|?%negb_false_iff]; auto.
  - apply andb_false_iff in Hs as [?%negb_false_iff%bool_decide_eq_true|?%negb_false_iff]; auto.
Qed.

Lemma held_source src t : src ∈ registrySources (Some r) -> held (src_Name src) t -> t_Source t = src_Name src.
Proof. intros Hin Hh. by destruct (lister_task _ _ _ _ (Hlist src Hin) t Hh). Qed.

Lemma registered_name src : src ∈ registrySources (Some r) -> namePattern (src_Name src) = true.
Proof.
  intros Hin. destruct (registered_props r Hreg) as (HG & _ & _ & Hsrc). apply Hsrc in Hin. unfold registrySource in Hin. cbn in Hin.
  destruct (r !! src_Name src) as [g|] eqn:Hg; [|done]. by destruct (HG _ _ Hg) as (_ & ? & _).
Qed.

(** Distinct tasks of the registered sources have distinct places. *)
Lemma held_distinct srcs Q :
  (forall src, src ∈ srcs -> src ∈ registrySources (Some r)) -> NoDup (map src_Name srcs) ->
  distinctPlaces (fun t => exists src, src ∈ srcs /\ held (src_Name src) t /\ Q t).
Proof.
  intros Hin HN t u (s1 & I1 & H1 & _) (s2 & I2 & H2 & _) EQ. unfold positionOf in EQ. injection EQ as _ ES EI.
  rewrite (held_source s1 t), (held_source s2 u) in ES by auto.
  assert (s1 = s2) as ->.
  { destruct (registered_props r Hreg) as (_ & _ & _ & Hsrc). pose proof (proj1 (Hsrc s1) (Hin _ I1)) as E1. pose proof (proj1 (Hsrc s2) (Hin _ I2)) as E2. congruence. }
  by apply (lister_unique _ _ _ _ (Hlist s2 (Hin _ I2))).
Qed.

Lemma pages_NoDup srcs (pages : list (list Task)) (Q : Task -> Prop) lim :
  (forall src, src ∈ srcs -> src ∈ registrySources (Some r)) -> NoDup (map src_Name srcs) ->
  Forall2 (fun src page => isPage (fun t => held (src_Name src) t /\ Q t) lim page) srcs pages -> NoDup (concat pages).
Proof.
  intros Hin HN HF. induction HF as [|src page srcs pages (HS & Hp & _) HF IH]; [constructor|]. cbn in HN. apply NoDup_cons in HN as [Hnot HN].
  cbn. apply NoDup_app. split_and!; [by apply sorted_NoDup| |apply IH; [intros; apply Hin; by right|done]].
  intros t Ht Hc. rewrite list_elem_of_In, in_concat in Hc. destruct Hc as (page' & Hpage' & Ht'). apply list_elem_of_In in Hpage'. apply list_elem_of_In in Ht'.
  apply list_elem_of_lookup_1 in Hpage' as [i Hi]. destruct (Forall2_lookup_r _ _ _ _ _ HF Hi) as (src' & Hs' & _ & Hp' & _).
  apply list_elem_of_lookup_2 in Hs'. apply Hnot. rewrite <-(held_source src t), (held_source src' t); [by apply list_elem_of_fmap_2| | | |].
  - apply Hin. by right.
  - by apply Hp'.
  - apply Hin. by left.
  - by apply Hp.
Qed.

(** One page. *)
Lemma List_lemma request p w w' res :
  ok w -> optionalTimeOk (lr_StartTime request) -> optionalTimeOk (lr_EndTime request) ->
  (forall u, p = Some u -> placeOk n u /\ filtersOk request) ->
  Admin_List service (withCursor request p) w = (w', res) ->
  ok w' /\ forall x, res = Ret x ->
    filtersOk request /\ 0 < requestLimit request /\
    let P t := selected request t /\ afterPlace p t in
    isPage P (requestLimit request) (res_Tasks x) /\
    (res_NextCursor x = EmptyString -> forall t, P t -> t ∈ res_Tasks x) /\
    (res_NextCursor x <> EmptyString -> exists u, last (res_Tasks x) = Some u /\ placeOk n u /\ res_NextCursor x = encodeListCursor request u).
Proof.
  intros Hok Hst Hen Hp EQ. unfold Admin_List, service in EQ. unfold mbind, ST_bind, lift in EQ.
  destruct (checkRequest (withCursor request p)) as [req|e|] eqn:Hreq; [|by injection EQ as <- <-..].
  destruct (checkRequest_spec _ _ Hreq) as (-> & Hlim & HK & HS). clear Hreq. change (requestLimit (withCursor request p)) with (requestLimit request) in *.
  set (req := MkListRequest _ _ _ _ _ _ _) in EQ.
  set (base := MkListRequest (lr_Source request) (lr_Kind request) (lr_Status request) (lr_StartTime request) (lr_EndTime request) (requestLimit request) EmptyString).
  assert (req = withCursor base p) as Ereq by (unfold req, base; destruct p; done). rewrite Ereq in EQ. clear Ereq req.
  destruct (decodeListCursor (withCursor base p)) as [cursor|e|] eqn:Hc; [|by injection EQ as <- <-..].
  destruct (selectedSources _ _) as [srcs|e|] eqn:Hsel; [|by injection EQ as <- <-..].
  apply (selectedSources_spec _ base) in Hsel as (HU & HN & Hsrcs); [|done].
  destruct (listOptions _ _) as [o|e|] eqn:Ho; [|by injection EQ as <- <-..].
  destruct (listOptions_spec base p cursor o Hst Hen Hp Hc Ho) as (Hopt & HL & Hmatch).
  destruct (foldST (listSource o) [] srcs w) as [w1 r1] eqn:Hf.
  assert (forall src, src ∈ srcs -> src ∈ registrySources (Some r)) as Hin by (intros src Hsrc; by apply Hsrcs).
  destruct (listSources_spec o srcs [] w w1 r1 Hok Hopt Hin Hf) as [Hok1 HQ].
  destruct r1 as [all|e|]; [|by injection EQ as <- <-..]. injection EQ as <- <-. split; [done|]. intros x [= <-].
  destruct (HQ all eq_refl) as (pages & -> & HF & HV). cbn [app] in *. clear HQ Hf.
  split; [by split_and!|]. split; [lia|]. cbn zeta.
  assert (forall t, (exists src, src ∈ srcs /\ held (src_Name src) t /\ taskMatches t o = true) <-> selected request t /\ afterPlace p t) as HP.
  { intros t. split.
    - intros (src & [Hs1 Hs2]%Hsrcs & Hh & [Hm Ha]%Hmatch). split; [|done]. split; [done|]. by exists src.
    - intros [[Hm (src & Hs1 & Hs2 & Hh)] Ha]. exists src. split_and!; [by apply Hsrcs|done|by apply Hmatch]. }
  pose proof (held_distinct srcs (fun t => taskMatches t o = true) Hin HN) as HD. pose proof (pages_NoDup srcs pages _ _ Hin HN HF) as HND.
  set (lim := Z.to_nat (requestLimit request)).
  assert (Forall2 (fun src page => isPage (fun t => held (src_Name src) t /\ taskMatches t o = true) (Z.of_nat (S lim)) page) srcs pages) as HF'.
  { eapply Forall2_impl; [exact HF|]. intros src page. rewrite HL. unfold base. cbn [lr_Limit]. by replace (requestLimit request + 1) with (Z.of_nat (S lim)) by lia. }
  pose proof (merge_page _ lim srcs pages HD HF' HND) as Hpage. pose proof (merge_complete _ lim srcs pages HF') as Hcomp.
  assert (forall t, t ∈ sortTasks (concat pages) -> placeOk n t) as Hplace.
  { intros t Ht. pose proof Ht as Hv. rewrite sortTasks_perm in Hv. rewrite Forall_forall in HV. specialize (HV t Hv).
    destruct (merge_sound _ lim srcs pages HF' t Ht) as (src & Hsrc & Hh & _).
    destruct (lister_task _ _ _ _ (Hlist src (Hin _ Hsrc)) t Hh) as (E1 & E2 & E3 & E4). split_and!; try done; [rewrite E1; by apply registered_name, Hin|by apply validTask_parse]. }
  assert (forall tasks, isPage (fun t => exists src, src ∈ srcs /\ held (src_Name src) t /\ taskMatches t o = true) (Z.of_nat lim) tasks ->
    isPage (fun t => selected request t /\ afterPlace p t) (requestLimit request) tasks) as Hconv.
  { intros tasks (I1 & I2 & I3 & I4). replace (Z.of_nat lim) with (requestLimit request) in * by lia. split_and!; [done|intros t Ht; by apply HP, I2|done|].
    intros t Ht. apply I4. by apply HP. }
  unfold cutPage, base. cbn [lr_Limit withCursor]. destruct (Z.ltb_spec (requestLimit request) (Z.of_nat (length (sortTasks (concat pages))))) as [Hlt|Hge]; cbn [res_Tasks res_NextCursor].
  - fold lim. split; [by apply Hconv|]. destruct (last (take lim (sortTasks (concat pages)))) as [u|] eqn:Hu.
    2:{ exfalso. apply last_None, (f_equal length) in Hu. rewrite length_take in Hu. cbn in Hu. lia. }
    split; [intros HE; by apply encodeCursor_nonempty in HE|]. intros _. exists u. split_and!; [done| |done].
    apply Hplace. apply last_Some in Hu as [l' Hu]. rewrite <-(take_drop lim (sortTasks _)), Hu. apply elem_of_app. left. apply elem_of_app. right. by left.
  - rewrite (take_ge (sortTasks (concat pages)) lim) in Hpage by lia. split; [by apply Hconv|]. split; [|done].
    intros _ t Ht. apply Hcomp; [lia|]. by apply HP.
Qed.

(** ** Following the cursors *)

(** What a client does that wants every page. *)
Fixpoint listAll (fuel : nat) request : ST W pdError (option (list Task)) :=
  match fuel with
  | O => mret None
  | S fuel =>
      page ← Admin_List service request;
      if bool_decide (res_NextCursor page = EmptyString) then mret (Some (res_Tasks page))
      else
        let next := MkListRequest (lr_Source request) (lr_Kind request) (lr_Status request) (lr_StartTime request) (lr_EndTime request)
                      (lr_Limit request) (res_NextCursor page) in
        rest ← listAll fuel next;
        mret (app (res_Tasks page) <$> rest)
  end.

Lemma listAll_lemma fuel request p l w w' res :
  ok w -> optionalTimeOk (lr_StartTime request) -> optionalTimeOk (lr_EndTime request) ->
  (forall u, p = Some u -> placeOk n u /\ filtersOk request) ->
  (forall t, selected request t -> afterPlace p t -> t ∈ l) -> (length l < fuel)%nat ->
  listAll fuel (withCursor request p) w = (w', res) ->
  ok w' /\ forall x, res = Ret x -> exists all, x = Some all /\ StronglySorted taskBefore all /\
    forall t, t ∈ all <-> selected request t /\ afterPlace p t.
Proof.
  revert p l w w' res. induction fuel as [|fuel IH]; intros p l w w' res Hok Hst Hen Hp Hl Hfuel; [lia|]. cbn [listAll]. unfold mbind, ST_bind.
  destruct (Admin_List service (withCursor request p) w) as [w1 r1] eqn:E1.
  destruct (List_lemma request p w w1 r1 Hok Hst Hen Hp E1) as [Hok1 HQ]. destruct r1 as [page|e|]; [|by intros [= <- <-]..].
  destruct (HQ page eq_refl) as (HF & Hlim & Hpage & Hend & Hmore). cbn zeta in *. clear HQ. case_bool_decide as Hnext.
  - intros [= <- <-]. split; [done|]. intros x [= <-]. exists (res_Tasks page). split_and!; [done|apply Hpage|]. intros t. split; [apply Hpage|by apply Hend].
  - destruct (Hmore Hnext) as (u & Hu & Hplace & EQn). rewrite EQn. change (MkListRequest _ _ _ _ _ _ _) with (withCursor request (Some u)).
    destruct (listAll fuel (withCursor request (Some u)) w1) as [w2 r2] eqn:E2. destruct Hpage as (PS & PP & PL & PA).
    apply last_Some in Hu as [pre Hu]. assert (u ∈ res_Tasks page) as Hin by (rewrite Hu; apply elem_of_app; right; by left).
    destruct (PP u Hin) as [Hsel Haft]. specialize (Hl u Hsel Haft) as Hul.
    assert (forall t, t ∈ res_Tasks page -> t = u \/ taskBefore t u) as Hlast.
    { intros t Ht. rewrite Hu in PS, Ht. apply StronglySorted_app_inv in PS as (_ & _ & Hbef).
      apply elem_of_app in Ht as [Ht|Ht%list_elem_of_singleton]; [right; apply Hbef; [done|by left]|by left]. }
    destruct (IH (Some u) (filter (fun t => t <> u) l) w1 w2 r2 Hok1 Hst Hen) as [Hok2 HQ]; [by intros ? [= <-]| | |exact E2|].
    + intros t Ht Hta. specialize (Hta u eq_refl). apply list_elem_of_filter. split; [intros ->; by apply taskBefore_irrefl in Hta|].
      apply Hl; [done|]. intros v Hv. eapply taskBefore_trans; [by apply Haft|done].
    + assert (length (filter (fun t => t <> u) l) < length l)%nat; [|lia]. apply length_filter_lt with (x := u); [done|tauto].
    + destruct r2 as [rest|e|]; intros [= <- <-]; (split; [done|]); [|done..]. intros x [= <-].
      destruct (HQ rest eq_refl) as (all & -> & HS & Hall). exists (res_Tasks page ++ all). split_and!; [done| |].
      * clear -PS HS Hall Hlast. induction PS as [|a k PS IHk HFa]; [done|]. cbn. constructor; [apply IHk; intros t Ht; apply Hlast; by right|].
        apply Forall_app. split; [done|]. apply Forall_forall. intros t [_ Hta]%Hall. specialize (Hta u eq_refl).
        destruct (Hlast a ltac:(by left)) as [->|Hau]; [done|by eapply taskBefore_trans].
      * intros t. rewrite elem_of_app, Hall. split.
        -- intros [Ht|[Ht Hta]]; [by apply PP|]. split; [done|]. intros v Hv. eapply taskBefore_trans; [by apply Haft|by apply Hta].
        -- intros [Ht Hta]. destruct (PA t (conj Ht Hta)) as [?|[_ Hb]]; [by left|right]. split; [done|]. intros v [= <-]. by apply Hb.
Qed.

(** C22: Listing all tasks terminates and is exact: a client that follows the cursors of
    [List], with any filters and page size, ends after at most as many pages as there
    are tasks, and has then seen every task that the request selects, of every
    selected source, exactly once and in the order (creation time, source,
    identifier). *)
Theorem List_walk request l fuel w :
  ok w -> lr_Cursor request = EmptyString -> optionalTimeOk (lr_StartTime request) -> optionalTimeOk (lr_EndTime request) ->
  (forall t, selected request t -> t ∈ l) -> (length l < fuel)%nat ->
  forall x, (listAll fuel request w).2 = Ret x ->
    exists all, x = Some all /\ StronglySorted taskBefore all /\ NoDup all /\ forall t, t ∈ all <-> selected request t.
Proof.
  intros Hok Hcur Hst Hen Hl Hfuel x Hx. destruct (listAll fuel request w) as [w' res] eqn:EQ. cbn in Hx.
  assert (request = withCursor request None) as Ereq by (destruct request; cbn in *; by subst). rewrite Ereq in EQ.
  destruct (listAll_lemma fuel request None l w w' res) as [_ HQ]; [done..|by intros t Ht _; apply Hl|done|done|].
  destruct (HQ x Hx) as (all & -> & HS & Hall). exists all. split_and!; [done|done|by apply sorted_NoDup|].
  intros t. rewrite Hall. split; [by intros []|]. intros Ht. by split.
Qed.

(** A cursor that [List] writes into a page is accepted by [List] with the same
    filters and stands for the last task of that page; with any other filter it is
    rejected. *)
Theorem cursor_roundtrip request t :
  filtersOk request -> placeOk n t ->
  (exists c o, decodeListCursor (withCursor request (Some t)) = Ret (Some c) /\ listOptions (withCursor request (Some t)) (Some c) = Ret o /\
     o_AfterCreatedAt o = Some (r_DeletedAt (t_Record t)) /\ o_AfterSource o = t_Source t /\ o_AfterDeletionID o = r_DeletionID (t_Record t)) /\
  forall other, lr_Cursor other = encodeListCursor request t ->
    (lr_Source other, lr_Kind other, lr_Status other, formatOptionalTime (lr_StartTime other), formatOptionalTime (lr_EndTime other)) <>
    (lr_Source request, lr_Kind request, lr_Status request, formatOptionalTime (lr_StartTime request), formatOptionalTime (lr_EndTime request)) ->
    decodeListCursor other = Fail (PDInvalid "cursor filters do not match").
Proof.
  intros HF Hp. split.
  - eexists _, _. split; [by apply (decode_cursor n)|]. unfold listOptions. cbn [lc_CreatedAt lc_LastSource lc_DeletionID].
    destruct Hp as (_ & _ & _ & Ht & _). rewrite nano_roundtrip by done. by split_and!.
  - intros other Hc Hne. pose proof (decode_cursor n request t HF Hp) as HD. unfold decodeListCursor in HD |- *. rewrite Hc. cbn [withCursor lr_Cursor] in HD.
    destruct (bool_decide (encodeListCursor request t = EmptyString)); [done|]. destruct (negb (bool_decide (_ = trimSpace _))); [done|]. cbn [check mbind Go_bind] in HD |- *.
    destruct (b64Decode _); [|done]. destruct (unmarshalCursor _) as [c|]; [|done]. apply bind_Ret in HD as ([] & _ & HD). apply bind_Ret in HD as ([] & _ & [= ->]).
    cbn [lc_Source lc_Kind lc_Status lc_Start lc_End]. destruct (negb _ || negb _ || negb _ || negb _ || negb _) eqn:Hb; [done|]. exfalso. apply Hne.
    rewrite !orb_false_iff, !negb_false_iff, !bool_decide_eq_true in Hb. destruct Hb as ((((-> & ->) & ->) & ->) & ->). done.
Qed.
End list.

(** ** The durable source *)
Section durable.
Context {W : Type} {CD : Codec} {CL : CodecLaws} {KO : KVOps W} {KL : KVLaws W}.
Context (Hsep : sep kv_opts = ":"%char).
Implicit Types (M : gmap string aval) (s : KVSource) (w : W).

Local Notation taskAt := (taskAt kv_opts).
Local Notation Inv := (Inv kv_opts).

(** While its store has the contents [M], the durable source lists pages of the tasks
    stored in [M]. *)
Lemma kv_lister n s M :
  Inv s M -> idsOfLength n s M -> ownsValidKinds s ->
  lister n (fun w => kv_ok w /\ kv_db w = M) (kvAsSource s) (stored s M).
Proof.
  intros HI HL Hk. split.
  - intros o w w' r [Hok HM] Ho EQ. cbn in EQ. destruct (listIndexed_reads n s o w w' r Hok) as (H1 & H2 & H3); [by rewrite HM|done|].
    split; [by rewrite H2|]. intros tasks Ht. specialize (H3 tasks Ht). by rewrite HM in H3.
  - intros t Hs. pose proof (stored_good _ _ _ HI Hs) as (_ & _ & Ht & _ & Hsrc). split_and!; [done|apply Hs|by apply HL|done].
  - intros t u [_ [r1 H1]] [_ [r2 H2]] EQ. rewrite EQ, H2 in H1. by injection H1.
Qed.

(** A stored state that is valid stays valid with its marker. *)
Lemma ValidateTask_requeued t t' :
  ValidateTask t = Ret tt -> validateStoredTask t' = Ret tt -> t_Record t' = t_Record t -> t_Source t' = t_Source t ->
  t_MarkerFingerprint t' = t_MarkerFingerprint t -> ValidateTask t' = Ret tt.
Proof.
  intros HV HS ER ES EF. unfold ValidateTask in HV |- *. rewrite ER, ES, EF.
  apply bind_Ret in HV as ([] & H1 & HV). apply bind_Ret in HV as ([] & H2 & HV). apply bind_Ret in HV as ([] & H3 & _).
  rewrite H1. cbn [mbind Go_bind]. rewrite H2. cbn [mbind Go_bind]. rewrite H3. cbn [mbind Go_bind].
  unfold validateStoredTask in HS. apply bind_Ret in HS as ([] & _ & HS). by apply bind_Ret in HS as ([] & _ & HS).
Qed.

(** Whether the handler registered for the task admits it. *)
Definition admitted (r : gmap string (@registration W)) (name : string) (t : Task) w : Prop :=
  forall src h f, lookupHandler (Some r) name (r_Kind (t_Record t)) = Some (src, h) -> h_CheckTask h = Some f -> f t w = None.

Lemma checkAdmission_spec r wake name t w w' res :
  checkAdmission (MkAdmin (Some r) wake) name t w = (w', res) -> w' = w /\ (res = Ret tt -> admitted r name t w) /\ res <> Panic.
Proof.
  unfold checkAdmission, admitted. cbn [ad_registry]. destruct (lookupHandler _ _ _) as [[src h]|].
  2:{ intros [= <- <-]. by split_and!. }
  destruct (h_CheckTask h) as [f|] eqn:Hf.
  - destruct (f t w) as [err|] eqn:Hft; intros [= <- <-]; split_and!; try done. intros _ ? ? ? [= <- <-]. rewrite Hf. by intros [= <-].
  - intros [= <- <-]. split_and!; try done. intros _ ? ? ? [= <- <-]. by rewrite Hf.
Qed.

(** What a retry does to the contents. *)
Definition retried r s name id now w M' (res : Go adminError Task) : Prop :=
  match res with
  | Ret t' => exists t raw, taskAt s (kv_db w) id = Some (t, raw) /\ t_Status t = StatusFailed /\ t' = requeueTask now t /\
      (exists w1, kv_db w1 = kv_db w /\ admitted r name t w1) /\ wrote s id t t' raw (kv_db w) M'
  | _ => M' = kv_db w
  end.

Lemma Retry_lemma r wake s g name id now w w' res :
  kv_ok w -> r !! name = Some g -> reg_source g = kvAsSource s ->
  (forall f w, wake = Some f -> kv_ok w -> kv_ok (f w) /\ kv_db (f w) = kv_db w) ->
  Admin_Retry (Some (MkAdmin (Some r) wake)) name id now w = (w', res) ->
  kv_ok w' /\ retried r s name id now w (kv_db w') res.
Proof.
  intros Hok Hg Hsrc Hwake EQ. unfold Admin_Retry, mbind, ST_bind, mapErrST, checkST, lift, check in EQ.
  destruct (requireSource _ name) as [src|e|] eqn:Hreq; [|by injection EQ as <- <-..].
  assert (src = kvAsSource s) as ->.
  { unfold requireSource in Hreq. apply bind_Ret in Hreq as ([] & [_ Ht%negb_false_iff%bool_decide_eq_true]%check_Ret%orb_false_iff & Hreq).
    rewrite <-Ht in Hreq. unfold registrySource in Hreq. cbn in Hreq. rewrite Hg in Hreq. cbn in Hreq. injection Hreq as <-. done. }
  destruct (negb (validDeletionID id)); [by injection EQ as <- <-|]. cbn [kvAsSource src_GetTask src_Retry] in EQ.
  unfold KVSource_GetTask, mbind, ST_bind in EQ. destruct (loadTask s id w) as [w1 r1] eqn:E1.
  destruct (loadTask_reads s id w w1 r1 Hok I E1) as (Hok1 & HD1 & HQ1).
  destruct r1 as [[t raw]|e|]; [|injection EQ as <- <-; split; [done|exact HD1]..]. specialize (HQ1 _ eq_refl). cbn [fst mret ST_ret] in EQ.
  destruct (ValidateTask t) as [[]|e|] eqn:HV; [|injection EQ as <- <-; split; [done|exact HD1]..].
  case_bool_decide as Hst; cbn [negb] in EQ; [|injection EQ as <- <-; split; [done|exact HD1]].
  destruct (checkAdmission _ name t w1) as [w2 r2] eqn:E2. apply checkAdmission_spec in E2 as (-> & Hadm & _).
  destruct r2 as [[]|e|]; [|injection EQ as <- <-; split; [done|exact HD1]..]. specialize (Hadm eq_refl).
  destruct (KVSource_Retry s id now w1) as [w3 r3] eqn:E3. destruct (Retry_triple s id now w1 w3 r3 Hok1 I E3) as [Hok3 HQ3].
  destruct r3 as [t'|e|]; [|cbn in HQ3; injection EQ as <- <-; split; [done|]; cbn; congruence..].
  destruct HQ3 as (t0 & raw0 & _ & -> & Hw). pose proof Hw as (Ht0 & Hv0 & _). rewrite HD1 in Ht0. rewrite HQ1 in Ht0. injection Ht0 as <- <-.
  assert (ValidateTask (requeueTask now t) = Ret tt) as HV' by (by apply (ValidateTask_requeued t)).
  unfold checkReturned in EQ. rewrite HV' in EQ. unfold wakeST in EQ. cbn [ad_wake] in EQ. injection EQ as <- <-.
  assert (forall w', w' = match wake with Some f => f w3 | None => w3 end -> kv_ok w' /\ kv_db w' = kv_db w3) as Hwk.
  { intros w' ->. destruct wake as [f|]; [by apply Hwake|done]. }
  destruct (Hwk _ eq_refl) as [Hok4 HD4]. split; [done|]. rewrite HD4. exists t, raw. split_and!; [done|done|done|by exists w1|by rewrite <-HD1].
Qed.

(** [Retry] of the operator service requeues exactly a failed task that the
    handler of its kind admits: on success the stored task is queued again, due now,
    with its failure count and error cleared, its phase and marker kept, and every
    other task and the index invariant are untouched; on any error, also one of the
    handler, the store is unchanged. *)
Theorem Retry_requeues r wake s g name id now w :
  kv_ok w -> Inv s (kv_db w) -> idOk id -> timeOk now -> r !! name = Some g -> reg_source g = kvAsSource s ->
  (forall f w, wake = Some f -> kv_ok w -> kv_ok (f w) /\ kv_db (f w) = kv_db w) ->
  let M := kv_db w in let M' := kv_db (Admin_Retry (Some (MkAdmin (Some r) wake)) name id now w).1 in
  match (Admin_Retry (Some (MkAdmin (Some r) wake)) name id now w).2 with
  | Ret t' => exists t raw, taskAt s M id = Some (t, raw) /\ t_Status t = StatusFailed /\
      (exists w1, kv_db w1 = M /\ admitted r name t w1) /\
      t_Status t' = StatusQueued /\ t_FailureCount t' = 0 /\ t_NextAttemptAt t' = now /\ t_LastErrorCode t' = EmptyString /\
      t_Phase t' = t_Phase t /\ t_Record t' = t_Record t /\
      (exists raw', taskAt s M' id = Some (t', raw')) /\ (forall id', idOk id' -> id' <> id -> taskAt s M' id' = taskAt s M id') /\ Inv s M'
  | _ => M' = M
  end.
Proof.
  intros Hok HI Hid Hnow Hg Hsrc Hwake M. destruct (Admin_Retry _ name id now w) as [w' res] eqn:EQ. cbn [fst snd].
  destruct (Retry_lemma r wake s g name id now w w' res Hok Hg Hsrc Hwake EQ) as [_ HR]. destruct res as [t'|e|]; [|done..].
  destruct HR as (t & raw & Ht & Hst & -> & Hadm & (_ & Hv & HM')). pose proof (taskAt_good _ _ _ _ _ _ HI Hid Ht) as (Htext & Hk & Hd & _ & Hs).
  assert (goodTask s (requeueTask now t)) as Hg'.
  { by split_and!. }
  destruct (transition_inv kv_opts Hsep s M id t raw (requeueTask now t) HI Hid Ht Hg' eq_refl) as (HI' & Ht' & Hoth). rewrite HM'.
  exists t, raw. split_and!; try done; by eexists.
Qed.
End durable.
