(* ===== verification/PDSafety.v ===== *)
(** * pendingdeletion: safety of the durable task source

    Theorems over executions of the source: the index invariant in every reachable
    store, exclusion by a live lease, rejection of stale claims, the state machine
    of a task, the retry budget, creation exactly once and atomic finalization.
    Each is stated for any store that keeps the promises of [KVLaws] and applied to
    the in-memory store in its witness. *)

From stdpp Require Import gmap strings list.
From S2P Require Import Prelude GoStrings GoText CustomID KVKey KVMemory KVSpec KVIface PDTypes PDStore PDTask PDCodec PDInv PDOps PDProps.

Open Scope Z_scope.

(** A call by somebody who does not hold the lease of [t]: a claim attempt before
    the deadline, or a call with another lease token. *)
Definition outsider (t : Task) (o : pdOp) : Prop :=
  match o with
  | PdClaim _ now _ _ => now < t_LeaseDeadline t
  | _ => match opClaim o with Some (c, _) => t_LeaseToken c <> t_LeaseToken t | None => True end
  end.

(** The edges of the state machine of a task; [None] is the absence of the task. *)
Inductive statusEdge : pdOp -> option Status -> option Status -> Prop :=
  | edge_create r : statusEdge (PdCreate r) None (Some StatusQueued)
  | edge_claim ref now lease random st :
      st <> StatusFailed -> statusEdge (PdClaim ref now lease random) (Some st) (Some StatusRunning)
  | edge_renew c now lease : statusEdge (PdRenew c now lease) (Some StatusRunning) (Some StatusRunning)
  | edge_checkpoint c phase now : statusEdge (PdCheckpoint c phase now) (Some StatusRunning) (Some StatusRunning)
  | edge_defer c code msg next now : statusEdge (PdDefer c code msg next now) (Some StatusRunning) (Some StatusRetryWait)
  | edge_fail c code msg term next now mx st :
      st = StatusRetryWait \/ st = StatusFailed -> statusEdge (PdFail c code msg term next now mx) (Some StatusRunning) (Some st)
  | edge_retry id now : statusEdge (PdRetry id now) (Some StatusFailed) (Some StatusQueued)
  | edge_retryFailed t now : statusEdge (PdRetryFailed t now) (Some StatusFailed) (Some StatusQueued)
  | edge_finalize c now conds entries keys groups :
      statusEdge (PdFinalize c now conds entries keys groups) (Some StatusRunning) None.

(** The attempts bound a call uses. *)
Definition opMax (o : pdOp) : option Z := match o with PdFail _ _ _ _ _ _ mx => Some mx | _ => None end.

(** The failures a task may have counted when [mx] attempts are allowed. *)
Definition withinBudget (mx : Z) (t : Task) : Prop :=
  t_FailureCount t <= mx /\ (t_Status t <> StatusFailed -> t_FailureCount t < mx).

Section safety.
Context {W : Type} {CD : Codec} {CL : CodecLaws} {KO : KVOps W} {KL : KVLaws W}.
Context (Hsep : sep kv_opts = ":"%char).
Implicit Types (M : gmap string aval) (s : KVSource) (w : W).

Local Notation E := (encK kv_opts).
Local Notation taskAt := (taskAt kv_opts).
Local Notation recAt := (recAt kv_opts).
Local Notation Inv := (Inv kv_opts).

Definition statusAt s M (id : string) : option Status := t_Status ∘ fst <$> taskAt s M id.

(** A property of single tasks that every call keeps holds of every stored task. *)
Lemma run_task_invariant (P : Task -> Prop) (okOp : pdOp -> Prop) s ops w :
  (forall o t t', okOp o -> P t -> opGuard o t -> opNext o t = Some t' -> P t') ->
  (forall record fp, P (createdTask s record fp)) ->
  kv_ok w -> Inv s (kv_db w) -> namePattern (s_SourceName s) = true -> Forall (fun o => opOk s o /\ okOp o) ops ->
  (forall id t raw, idOk id -> taskAt s (kv_db w) id = Some (t, raw) -> P t) ->
  forall id t raw, idOk id -> taskAt s (kv_db (run s ops w)) id = Some (t, raw) -> P t.
Proof.
  intros Hstep Hcreate Hw HI Hname HF. revert w Hw HI. induction HF as [|o ops [Ho Hok] HF IH]; intros w Hw HI HP; [done|]. cbn.
  destruct (exec_change Hsep s o w Hw HI Hname Ho) as (H1 & H2 & Hch & Hoth). apply IH; [done|done|].
  intros id t raw Hid. destruct (decide (id = opID o)) as [->|Hne]; [|rewrite (Hoth id Hid Hne); by apply HP].
  destruct Hch as [->|t0 t' raw0 Ht Hg Hn Ht'|record fp -> _ _ _ _ Ht'|claim now conds entries keys groups t0 raw0 -> Ht Hg HM _ _].
  - by apply HP.
  - rewrite Ht'. intros [= <- <-]. eapply Hstep; [done|by eapply HP|done|done].
  - rewrite Ht'. intros [= <- <-]. apply Hcreate.
  - unfold PDInv.taskAt, PDInv.recAt. by rewrite HM.
Qed.

Lemma taskDue_running t now : t_Status t = StatusRunning -> taskDue t now = (t_LeaseDeadline t <=? now).
Proof. unfold taskDue. by intros ->. Qed.

Lemma outsider_same s o w id t raw :
  kv_ok w -> Inv s (kv_db w) -> namePattern (s_SourceName s) = true -> opOk s o -> outsider t o -> idOk id ->
  taskAt s (kv_db w) id = Some (t, raw) -> t_Status t = StatusRunning ->
  taskAt s (kv_db (exec s o w)) id = Some (t, raw).
Proof.
  intros Hw HI Hname Ho Hout Hid Ht Hrun. destruct (exec_change Hsep s o w Hw HI Hname Ho) as (_ & _ & Hch & Hoth).
  destruct (decide (id = opID o)) as [->|Hne]; [|by rewrite Hoth].
  assert (forall c now, opClaim o = Some (c, now) -> leaseLost t c now = false -> False) as Hno.
  { intros c now Hc (_ & _ & Htok & _)%lease_check. unfold outsider in Hout. destruct o; try done; cbn in Hc, Hout; congruence. }
  destruct Hch as [->|t0 t' raw0 Ht0 Hg Hn Ht'|record fp -> Ht0 _ _ _ _|claim now conds entries keys groups t0 raw0 -> Ht0 Hg HM _ _].
  - done.
  - rewrite Ht in Ht0. injection Ht0 as <- <-. exfalso. destruct o; cbn in Hg; try (eapply Hno; [reflexivity|exact Hg]); try done.
    + destruct Hg as (Hdue & _). rewrite taskDue_running in Hdue by done. unfold outsider in Hout. lia.
    + by rewrite Hrun in Hg.
    + by rewrite Hrun in Hg.
  - by rewrite Ht in Ht0.
  - rewrite Ht in Ht0. injection Ht0 as <- <-. exfalso. eapply Hno; [reflexivity|exact Hg].
Qed.

(** The claim attached to a call and its result. *)
Definition answer s (o : pdOp) w : Go pdError unit :=
  let ok {A} (x : W * Go pdError A) := a ← x.2; Ret tt in
  match o with
  | PdCreate r => ok (CreateOrGet true r w)
  | PdClaim ref now lease random => ok (KVSource_Claim s ref now lease random w)
  | PdRenew c now lease => ok (KVSource_Renew s c now lease w)
  | PdCheckpoint c phase now => ok (KVSource_Checkpoint s c phase now w)
  | PdDefer c code message next now => ok (KVSource_Defer s c code message next now w)
  | PdFail c code message terminal next now maxAttempts => ok (KVSource_Fail s c code message terminal next now maxAttempts w)
  | PdRetry id now => ok (KVSource_Retry s id now w)
  | PdRetryFailed t now => ok (KVSource_RetryFailed s t now w)
  | PdFinalize c now conds entries keys groups => ok (KVSource_FinalizeGuarded s c now conds entries keys groups w)
  end.

(** ** Reachable stores *)



Lemma change_edge s o M M' :
  change s o M M' -> statusAt s M' (opID o) = statusAt s M (opID o) \/ statusEdge o (statusAt s M (opID o)) (statusAt s M' (opID o)).
Proof.
  unfold statusAt.
  intros [->|t t' raw Ht Hg Hn Ht'|record fp -> Ht _ _ _ Ht'|claim now conds entries keys groups t raw -> Ht Hg HM _ _]; [by left|right..].
  - rewrite Ht, Ht'. cbn. destruct o; cbn in Hg, Hn; try done.
    + destruct Hg as (Hdue & _). destruct (newKVLeaseToken random); [|done..]. injection Hn as <-. constructor.
      intros Hf. unfold taskDue in Hdue. by rewrite Hf in Hdue.
    + injection Hn as <-. apply lease_check in Hg as (_ & Hs & _). cbn. rewrite !Hs. constructor.
    + injection Hn as <-. apply lease_check in Hg as (_ & Hs & _). cbn. rewrite !Hs. constructor.
    + injection Hn as <-. apply lease_check in Hg as (_ & Hs & _). cbn. rewrite !Hs. constructor.
    + injection Hn as <-. apply lease_check in Hg as (_ & Hs & _). cbn. rewrite !Hs. constructor. cbn. destruct (_ || _); auto.
    + injection Hn as <-. rewrite Hg. constructor.
    + injection Hn as <-. rewrite Hg. constructor.
  - rewrite Ht, Ht'. constructor.
  - rewrite Ht. cbn in Hg. apply lease_check in Hg as (_ & Hs & _). replace (taskAt s M' _) with (@None (Task * string)).
    + cbn. rewrite Hs. constructor.
    + unfold PDInv.taskAt, PDInv.recAt. by rewrite HM.
Qed.


(** If every failure is recorded with the bound [mx] > 0, then in every store
    reached from an empty one a task has counted at most [mx] failures, and fewer
    than [mx] unless it is failed: no task is attempted again once its budget is
    used up, except by an explicit retry. *)
Theorem retry_budget s ops w mx id t raw :
  kv_ok w -> kv_db w = ∅ -> namePattern (s_SourceName s) = true -> 0 < mx ->
  Forall (fun o => opOk s o /\ (forall n, opMax o = Some n -> n = mx)) ops -> idOk id ->
  taskAt s (kv_db (run s ops w)) id = Some (t, raw) -> withinBudget mx t.
Proof.
  intros Hw HE Hname Hmx HF Hid Ht.
  eapply (run_task_invariant (withinBudget mx)); [| |exact Hw| |done|exact HF| |exact Hid|exact Ht].
  - unfold withinBudget. intros o u u' Hm [H1 H2] Hg Hn. destruct o; cbn in Hg, Hn; try done.
    + destruct Hg as (Hdue & _). destruct (newKVLeaseToken random); [|done..]. injection Hn as <-. cbn. split; [done|].
      intros _. apply H2. intros Hf. unfold taskDue in Hdue. by rewrite Hf in Hdue.
    + by injection Hn as <-.
    + by injection Hn as <-.
    + injection Hn as <-. apply lease_check in Hg as (_ & Hr & _). cbn. rewrite Hr in H2. split; [done|]. intros _. by apply H2.
    + injection Hn as <-. apply lease_check in Hg as (_ & Hr & _). rewrite Hr in H2. specialize (H2 ltac:(done)).
      rewrite (Hm maxAttempts eq_refl). cbn. destruct terminal; cbn; [split; [lia|done]|]. destruct (Z.leb_spec mx (t_FailureCount u + 1)); split; try lia. done.
    + injection Hn as <-. cbn. lia.
    + injection Hn as <-. cbn. lia.
  - intros record fp. unfold withinBudget. cbn. lia.
  - rewrite HE. apply (Inv_empty Hsep).
  - rewrite HE. intros id' t' raw' _. unfold PDInv.taskAt, PDInv.recAt. by rewrite lookup_empty.
Qed.

(** ** Answers *)

Lemma wrote_exact s o M M' t t' raw :
  Inv s M -> opOk s o -> opGuard o t -> opNext o t = Some t' -> wrote s (opID o) t t' raw M M' ->
  taskAt s M (opID o) = Some (t, raw) /\ taskAt s M' (opID o) = Some (t', encodeKVTaskState t').
Proof.
  intros HI Hok Hg Hn (Ht & Hv & ->). split; [done|]. pose proof (proj1 Hok) as Hid.
  pose proof (good_next s o t t' (taskAt_good kv_opts s M _ t raw HI Hid Ht) Hok Hg Hn Hv) as Hg'.
  by apply (transition_inv kv_opts Hsep s M (opID o) t raw t' HI Hid Ht Hg' (next_record o t t' Hn)).
Qed.

Lemma transition_call s claim now mutate w :
  (forall t, t_Record (mutate t) = t_Record t) -> kv_ok w ->
  match (transition s claim now mutate w).2 with
  | Ret _ => exists t raw, leaseLost t claim now = false /\
      wrote s (r_DeletionID (t_Record claim)) t (withUpdatedAt (mutate t) now) raw (kv_db w) (kv_db (transition s claim now mutate w).1)
  | _ => kv_db (transition s claim now mutate w).1 = kv_db w
  end.
Proof.
  intros Hm Hw. destruct (transition s claim now mutate w) as [w' r] eqn:EQ. cbn.
  apply (transition_triple s claim now mutate Hm w w' r Hw I EQ).
Qed.

(** A call with a claim is refused, or finds the claim's live lease. *)
Lemma claim_call s o c now w :
  opClaim o = Some (c, now) -> kv_ok w ->
  match answer s o w with
  | Ret _ => exists t raw, taskAt s (kv_db w) (opID o) = Some (t, raw) /\ leaseLost t c now = false
  | _ => kv_db (exec s o w) = kv_db w
  end.
Proof.
  intros Hc Hw.
  assert (forall mutate, (forall t, t_Record (mutate t) = t_Record t) ->
    match (transition s c now mutate w).2 with
    | Ret _ => exists t raw, taskAt s (kv_db w) (r_DeletionID (t_Record c)) = Some (t, raw) /\ leaseLost t c now = false
    | _ => kv_db (transition s c now mutate w).1 = kv_db w
    end) as HT.
  { intros mutate Hm. pose proof (transition_call s c now mutate w Hm Hw) as H1.
    destruct (transition s c now mutate w) as [w' [u|e|]]; [|done..]. destruct H1 as (t & raw & Hl & Ht & _). by exists t, raw. }
  destruct o; cbn in Hc; try done; injection Hc as -> ->; cbn [answer exec opID].
  - unfold KVSource_Renew. rewrite ST_bind_eq. unfold checkST, lift, check. destruct (lease <=? 0); [done|].
    specialize (HT (renewTask (now + lease)) ltac:(done)). by destruct (transition _ _ _ _ w) as [w' [u|e|]].
  - unfold KVSource_Checkpoint. rewrite ST_bind_eq. unfold lift. destruct (ValidatePhase phase) as [[]|e|]; [|done..].
    rewrite ST_bind_eq. specialize (HT (checkpointTask phase) ltac:(done)). by destruct (transition _ _ _ _ w) as [w' [u|e|]].
  - specialize (HT (deferTask code message nextAttempt) ltac:(done)). unfold KVSource_Defer. by destruct (transition _ _ _ _ w) as [w' [u|e|]].
  - specialize (HT (failTask code message terminal nextAttempt maxAttempts) ltac:(done)). unfold KVSource_Fail.
    by destruct (transition _ _ _ _ w) as [w' [u|e|]].
  - destruct (KVSource_FinalizeGuarded _ _ _ _ _ _ _ w) as [w' r] eqn:EQ. cbn.
    destruct (Finalize_triple _ _ _ _ _ _ _ w w' r Hw I EQ) as [_ HQ]. destruct r as [u|e|]; [|done..].
    destruct HQ as (t & raw & ks & Ht & Hl & _). by exists t, raw.
Qed.

(** A call that presents a claim whose task is no longer running, was claimed
    again under another token, has another marker, or whose lease has expired is
    refused, and changes nothing. *)
Theorem stale_claim_rejected s o c now w t raw :
  kv_ok w -> opClaim o = Some (c, now) -> taskAt s (kv_db w) (opID o) = Some (t, raw) ->
  t_Status t <> StatusRunning \/ t_LeaseToken t <> t_LeaseToken c \/ t_LeaseDeadline t <= now \/
    t_MarkerFingerprint t <> t_MarkerFingerprint c ->
  answer s o w <> Ret tt /\ kv_db (exec s o w) = kv_db w.
Proof.
  intros Hw Hc Ht Hst. pose proof (claim_call s o c now w Hc Hw) as HA.
  destruct (answer s o w) as [[]|e|]; [|done..]. destruct HA as (t' & raw' & Ht' & Hl). rewrite Ht in Ht'. injection Ht' as <- <-.
  apply lease_check in Hl as (? & ? & ? & ?). exfalso. destruct Hst as [|[|[|]]]; [done|done|lia|done].
Qed.

(** A granted claim is the task that is stored from then on: running, with the
    token drawn for this claim and the deadline [now + lease]; the task before it
    was due, had the marker of the reference, and was not failed.  A claim that is
    not granted changes nothing. *)
Theorem Claim_grants s ref now lease random w :
  kv_ok w -> Inv s (kv_db w) -> opOk s (PdClaim ref now lease random) ->
  let M := kv_db w in
  let M' := kv_db (KVSource_Claim s ref now lease random w).1 in
  match (KVSource_Claim s ref now lease random w).2 with
  | Ret (Some c) => exists t raw token,
      taskAt s M (ref_DeletionID ref) = Some (t, raw) /\ taskDue t now = true /\ t_Status t <> StatusFailed /\
      t_MarkerFingerprint t = ref_MarkerFingerprint ref /\
      taskAt s M' (ref_DeletionID ref) = Some (c, encodeKVTaskState c) /\
      random = Some token /\ t_LeaseToken c = hexEncode token /\ t_Status c = StatusRunning /\
      t_LeaseDeadline c = now + lease /\ now < t_LeaseDeadline c /\
      t_Record c = t_Record t /\ t_Phase c = t_Phase t /\ t_FailureCount c = t_FailureCount t
  | _ => M' = M
  end.
Proof.
  intros Hw HI Hok M M'. subst M M'. destruct (KVSource_Claim s ref now lease random w) as [w' r] eqn:EQ. cbn [fst snd].
  destruct (Claim_triple s ref now lease random w w' r Hw I EQ) as [Hw' HQ]. destruct r as [[c|]|e|]; [|done..].
  destruct HQ as (t & raw & token & Htok & Hl & Hdue & Hfp & -> & HW).
  destruct (wrote_exact s (PdClaim ref now lease random) _ _ _ _ _ HI Hok (conj Hdue (conj Hfp Hl)) ltac:(cbn; by rewrite Htok) HW) as [H1 H2].
  unfold newKVLeaseToken, newPendingDeletionToken in Htok. destruct random as [bs|]; [|done]. injection Htok as <-.
  exists t, raw, bs. split_and!; try done; [|cbn; lia]. intros Hf. unfold taskDue in Hdue. by rewrite Hf in Hdue.
Qed.

(** An accepted failure report counts one failure, gives up the lease, records
    the error and, if the failure is terminal or the count has reached the bound,
    parks the task as failed, otherwise schedules the next attempt; a refused one
    changes nothing. *)
Theorem Fail_effect s c code msg term next now mx w :
  kv_ok w -> Inv s (kv_db w) -> opOk s (PdFail c code msg term next now mx) ->
  let id := r_DeletionID (t_Record c) in
  let M' := kv_db (KVSource_Fail s c code msg term next now mx w).1 in
  match (KVSource_Fail s c code msg term next now mx w).2 with
  | Ret _ => exists t raw t',
      taskAt s (kv_db w) id = Some (t, raw) /\ taskAt s M' id = Some (t', encodeKVTaskState t') /\
      t_FailureCount t' = t_FailureCount t + 1 /\
      (t_Status t' = StatusFailed <-> term = true \/ mx <= t_FailureCount t + 1) /\
      (t_Status t' <> StatusFailed -> t_Status t' = StatusRetryWait) /\ t_NextAttemptAt t' = next /\
      t_LeaseToken t' = EmptyString /\ t_LeaseDeadline t' = 0 /\ t_LastErrorCode t' = code /\ t_LastErrorMessage t' = msg /\
      t_Record t' = t_Record t /\ t_Phase t' = t_Phase t
  | _ => M' = kv_db w
  end.
Proof.
  intros Hw HI Hok id M'. subst id M'. unfold KVSource_Fail.
  pose proof (transition_call s c now (failTask code msg term next mx) w ltac:(done) Hw) as HT.
  destruct (transition _ _ _ _ w) as [w' [u|e|]]; cbn [fst snd] in *; [|done..]. destruct HT as (t & raw & Hl & HW).
  destruct (wrote_exact s (PdFail c code msg term next now mx) _ _ _ _ _ HI Hok Hl eq_refl HW) as [H1 H2].
  eexists t, raw, _. split_and!; [exact H1|exact H2|done| | |done..].
  - cbn. destruct term; cbn; [split; auto|]. destruct (Z.leb_spec mx (t_FailureCount t + 1)); split; auto; try done. intros [|]; [done|lia].
  - cbn. by destruct (_ || _).
Qed.

(** ** Creation and finalization *)

(** C24: [CreateOrGet] reports a creation only when the resource had no pending
    deletion, and then it has one, queued, under the record's identifier; when it
    reports an existing deletion nothing changed and the record is the stored one of
    the same resource.  With a pending deletion present a creation is never
    reported. *)
Theorem CreateOrGet_exactly_once s record w :
  kv_ok w -> Inv s (kv_db w) -> namePattern (s_SourceName s) = true -> opOk s (PdCreate record) ->
  let M := kv_db w in
  let M' := kv_db (CreateOrGet true record w).1 in
  let locator := byLocatorKey (r_Kind record) (r_ResourceID record) in
  match (CreateOrGet true record w).2 with
  | Ret (rec, true) =>
      rec = record /\ recAt M locator = None /\ recAt M' locator = Some (r_DeletionID record) /\
      statusAt s M (r_DeletionID record) = None /\ statusAt s M' (r_DeletionID record) = Some StatusQueued
  | Ret (rec, false) =>
      M' = M /\ recAt M locator = Some (r_DeletionID rec) /\ r_Kind rec = r_Kind record /\ r_ResourceID rec = r_ResourceID record /\
      exists t raw, taskAt s M (r_DeletionID rec) = Some (t, raw) /\ t_Record t = rec
  | _ => M' = M
  end.
Proof.
  intros Hw HI Hname [Hid [Htext Hown]] M M' locator. subst M M' locator. destruct (CreateOrGet true record w) as [w' r] eqn:EQ. cbn [fst snd].
  destruct (CreateOrGet_triple record w w' r Hw I EQ) as [Hw' HQ]. destruct r as [[rec [|]]|e|]; [| |done..].
  - destruct HQ as (-> & data & fp & Hdata & HF & Hcond & HM).
    destruct (create_inv kv_opts Hsep s (kv_db w) record data fp HI Hname Htext Hid Hown HF Hdata Hcond) as (H1 & H2 & H3 & H4).
    rewrite <-HM in H1, H2, H3, H4. apply Forall_cons in Hcond as [C1 Hcond]. apply Forall_cons in Hcond as [C2 _].
    unfold specCondition in C1, C2. cbn [cond_Expected cond_Key] in C1, C2. unfold statusAt. split_and!; [done| |done| |by rewrite H2].
    + unfold PDInv.recAt. by rewrite C1.
    + unfold PDInv.taskAt, PDInv.recAt. by rewrite C2.
  - destruct HQ as (HM & id & Hl & data & Hd & Hu & Hrid & Hv & HK & HR). subst id.
    assert (Kind_valid (r_Kind record) = true) as Hkind.
    { rewrite <-HK. unfold Record_Validate in Hv. by apply bind_Ret in Hv as ([] & ?%check_Ret%negb_false_iff & _). }
    split_and!; [done|done|done|done|]. apply (inv_locator kv_opts s _ HI _ _ _ Hkind) in Hl as [Hid' (t & raw & Ht & _)].
    exists t, raw. split; [done|]. apply taskAt_inv in Ht as (data' & Hd' & Hu' & _). rewrite Hd in Hd'. injection Hd' as <-. congruence.
Qed.

(** C23: An accepted finalization is one step: the claim's live lease and every
    extra condition held, and afterwards the marker, the task, the locator and the
    keys to delete are gone, every domain entry is written and every listed
    collection member removed, while all other domain keys and all other tasks are
    as before.  A refused one changes nothing. *)
Theorem Finalize_atomic s c now conds entries deleteKeys groups w :
  kv_ok w -> Inv s (kv_db w) -> idOk (r_DeletionID (t_Record c)) ->
  let id := r_DeletionID (t_Record c) in
  let M := kv_db w in
  let M' := kv_db (KVSource_FinalizeGuarded s c now conds entries deleteKeys groups w).1 in
  match (KVSource_FinalizeGuarded s c now conds entries deleteKeys groups w).2 with
  | Ret _ =>
      (exists t raw, taskAt s M id = Some (t, raw) /\ t_Status t = StatusRunning /\ t_LeaseToken t = t_LeaseToken c /\ now < t_LeaseDeadline t) /\
      Forall (specCondition kv_opts M) conds /\
      M' !! E (byIDKey id) = None /\ M' !! E (kvTaskKey id) = None /\
      M' !! E (byLocatorKey (r_Kind (t_Record c)) (r_ResourceID (t_Record c))) = None /\
      (forall k, k ∈ deleteKeys -> M' !! E k = None) /\
      (forall en, en ∈ entries -> M' !! E (entry_Key en) = Some (ARec (entry_Value en) (entry_Deadline en))) /\
      (forall g m, g ∈ groups -> m ∈ sm_Members g -> m ∉ setOf M' (E (sm_Key g))) /\
      (forall d, domainKey kv_opts d -> d ∉ entry_Key <$> entries -> d ∉ deleteKeys -> d ∉ sm_Key <$> groups -> M' !! E d = M !! E d) /\
      (forall id', idOk id' -> id' <> id -> taskAt s M' id' = taskAt s M id')
  | _ => M' = M
  end.
Proof.
  intros Hw HI Hid id M M'. subst id M M'. destruct (KVSource_FinalizeGuarded _ _ _ _ _ _ _ w) as [w' r] eqn:EQ. cbn [fst snd].
  destruct (Finalize_triple _ _ _ _ _ _ _ w w' r Hw I EQ) as [_ HQ]. destruct r as [u|e|]; [|done..].
  destruct HQ as (t & raw & ks & Ht & Hl & EK & ER & HKeys & Hchk & Hcond & Hclean & HM).
  destruct (finalize_inv kv_opts Hsep s _ t raw c conds entries deleteKeys ks groups HI Hid Ht EK ER HKeys Hchk Hclean) as (H1 & H2 & H3 & H4 & H5).
  destruct (finalize_effect kv_opts Hsep s _ t raw c conds entries deleteKeys ks groups HI Hid Ht EK HKeys Hchk Hclean) as (F1 & F2 & F3 & F4).
  rewrite HM. apply lease_check in Hl as (_ & L1 & L2 & L3). cbn in Hcond. apply Forall_app in Hcond as [Hcond _].
  split_and!; try done. by exists t, raw.
Qed.

End safety.

(** ** Task states *)
Section states.
Context {CD : Codec} {CL : CodecLaws}.

(** The stored form of a valid task reads back as the same task, with its
    fingerprint, lease and times. *)
Theorem TaskState_roundtrip s t :
  goodTask s t -> decodeTask s (t_Record t) (encodeKVTaskState t) = Ret (t, encodeKVTaskState t).
Proof. apply decode_encode. Qed.

Lemma validState_parts t :
  validateStoredTask t = Ret tt -> namePattern (t_Phase t) = true /\ 0 <= t_FailureCount t.
Proof.
  intros Hv. unfold validateStoredTask in Hv. apply bind_Ret in Hv as ([] & _ & Hv). apply bind_Ret in Hv as ([] & _ & Hv).
  unfold validateTaskState, ValidatePhase in Hv. apply bind_Ret in Hv as ([] & _ & Hv).
  apply bind_Ret in Hv as ([] & H1%check_Ret%negb_false_iff & Hv). apply bind_Ret in Hv as ([] & H2%check_Ret & _). split; [done|lia].
Qed.

(** What [validateStoredTask] checks outside the state depends on source, record and fingerprint only. *)
Lemma validateStored_transfer t u :
  validateStoredTask t = Ret tt -> t_Source u = t_Source t -> t_Record u = t_Record t -> t_MarkerFingerprint u = t_MarkerFingerprint t ->
  validateStoredTask u = validateTaskState u.
Proof.
  intros Hv E1 E2 E3. unfold validateStoredTask in *. rewrite E1, E2, E3. apply bind_Ret in Hv as ([] & -> & Hv). by apply bind_Ret in Hv as ([] & -> & _).
Qed.

(** A failure message of 257 bytes: 255 letters and one two-byte character. *)
Definition longMessage : string := String.string_of_list_ascii (replicate 255 "a"%char) +:+ String "195" (String "169" EmptyString).

(** [newOutcomeError] cuts a message at byte 256, possibly inside a character.
    The task with such a message passes validation and is written, but its JSON
    replaces the cut character by three bytes, so that every later load of the task
    is refused: no claim, retry or finalization can reach it again. *)
Theorem truncated_message_unreadable s t next now mx :
  goodTask s t -> timeOk next -> timeOk now -> next <> 0 -> now <> 0 ->
  let o := Retryable "cleanup_failed" longMessage None in
  let t' := withUpdatedAt (failTask (oe_Code o) (oe_Message o) false next mx t) now in
  validateStoredTask t' = Ret tt /\
  decodeTask s (t_Record t) (encodeKVTaskState t') = Fail (PDInvalid "failure metadata exceeds bounds").
Proof.
  intros ((Htok & Hcode & Hmsg & Hn & Hl & Hu) & _ & _ & Hv & Hs) Hnext Hnow Hnext0 Hnow0 o t'.
  destruct (validState_parts t Hv) as [Hph Hf]. destruct (stored_text t Hv) as (Hfp & Hst & Hphu).
  assert (oe_Code o = "cleanup_failed"%string) as Ec by (by vm_compute).
  assert (lenStr (oe_Message o) = 256 /\ lenStr (toValidUTF8 (oe_Message o)) = 258) as [Em Em'] by (by vm_compute).
  assert (Status_valid (t_Status t') = true /\ t_Status t' <> StatusRunning) as [Hst' Hnr].
  { unfold t'. cbn [withUpdatedAt withLease failTask t_Status orb]. by destruct (mx <=? _). }
  assert (isZero now = false /\ isZero next = false /\ (t_FailureCount t' <? 0) = false) as (Z1 & Z2 & Z3).
  { unfold t', isZero. cbn. lia. }
  split.
  - rewrite (validateStored_transfer t t') by done. unfold validateTaskState, ValidatePhase. rewrite Hst', Z3.
    unfold t'. cbn [withUpdatedAt withLease failTask t_Phase t_UpdatedAt t_LastErrorCode t_LastErrorMessage t_LeaseToken t_LeaseDeadline t_NextAttemptAt].
    rewrite Hph, Z1, Ec, Em, Z2, andb_false_r. unfold t' in Hnr. cbn in Hnr. cbn -[bool_decide]. by rewrite bool_decide_eq_false_2.
  - unfold decodeTask, encodeKVTaskState. rewrite state_roundtrip. unfold sanitizeState.
    cbn [st_MarkerFingerprint st_Status st_Phase st_FailureCount st_NextAttemptAt st_LeaseToken st_LeaseDeadline
         st_LastErrorCode st_LastErrorMessage st_UpdatedAt].
    rewrite (toValidUTF8_valid (t_Status t')) by (by apply status_utf8). rewrite !taskTime_roundtrip by done.
    change (t_MarkerFingerprint t') with (t_MarkerFingerprint t). change (t_Phase t') with (t_Phase t).
    rewrite (toValidUTF8_valid (t_MarkerFingerprint t)), (toValidUTF8_valid (t_Phase t)) by done.
    set (u := MkTask _ _ _ _ _ _ _ _ _ _ _ _). rewrite (validateStored_transfer t u) by done.
    unfold validateTaskState, ValidatePhase, u.
    cbn [t_Status t_Phase t_FailureCount t_UpdatedAt t_LastErrorCode t_LastErrorMessage].
    change (t_LastErrorMessage t') with (oe_Message o). change (t_UpdatedAt t') with now. change (t_LastErrorCode t') with (oe_Code o).
    rewrite Hst', Hph, Z3, Z1, Em', Ec. done.
Qed.

End states.
