(* ===== verification/PDWitness.v ===== *)
(** * pendingdeletion: concrete executions

    The theorems of [PDScan] and [PDSafety] applied to the in-memory store and the
    text codec: a peer deletion is created, claimed, failed, retried and finalized; and
    those of [PDRegistry], [PDProcessor] and [PDAttempt] to a processor with one source.
    Each lemma shows that the hypotheses of the theorem it applies can be met. *)

From stdpp Require Import gmap strings list.
From S2P Require Import Prelude GoStrings GoText KVKey KVMemory KVSpec KVProps KVIface CustomID PDRetry PDTypes PDStore PDTask PDRegistry PDProcessor PDCodec PDInv PDOps PDAttempt PDProps PDScan PDList PDAdmin PDAdminProps PDSafety.

Open Scope Z_scope.

#[local] Existing Instance textCodec.
#[local] Existing Instance textCodecLaws.

(** No call is cancelled and the clock of the store stands still. *)
Definition liveContexts (n i : nat) : option kvError := None.
Lemma liveContexts_ok n i : liveContexts n i <> Some ErrNotFound.
Proof. done. Qed.

#[export] Instance exOps : KVOps (Memory * nat) := memoryOps 1 liveContexts.
#[export] Instance exLaws : KVLaws (Memory * nat) := memoryLaws 1 liveContexts None liveContexts_ok.

Definition exSource : KVSource := MkKVSource true "peers" ["peer"%string].
Definition exStore : Memory * nat := (NewMemory None, 0%nat).

Definition exRecord : Record_ :=
  Eval vm_compute in match New KindPeer "device-1" None ReasonAdminDelete (Some "{}"%string) 1000 0 with Ret r => r | _ => emptyRecord end.
Definition exRecord2 : Record_ :=
  Eval vm_compute in match New KindPeer "device-2" None ReasonPeerDelete (Some "{}"%string) 1500 0 with Ret r => r | _ => emptyRecord end.

Definition exID : string := r_DeletionID exRecord.

(** The task as the source sees it in a store. *)
Definition exTask (w : Memory * nat) : Task :=
  match (KVSource_GetTask exSource exID w).2 with Ret t => t | _ => initialTask exRecord "" end.

Definition exCreate : pdOp := PdCreate exRecord.
Definition exRef : Reference :=
  Eval vm_compute in refTo exSource (exTask (run exSource [exCreate] exStore)).
Definition exClaimOp : pdOp := PdClaim exRef 2000 500 (Some "0123456789abcdef"%string).
Definition exClaim : Task := Eval vm_compute in exTask (run exSource [exCreate; exClaimOp] exStore).
Definition exFailOp : pdOp := PdFail exClaim "timeout" "peer unreachable" false 4000 2100 3.
Definition exStale : pdOp := PdRenew (withLease exClaim StatusRunning "another" 2500 2000) 2100 500.

Definition exFinal : pdOp :=
  PdFinalize exClaim 2200 [MkCondition ["peers"; "device-1"; "lock"]%string None]
    [MkEntry ["peers"; "tombstone"; "device-1"]%string "gone" 0] [["peers"; "by-id"; "device-1"]%string]
    [MkSetMembers ["peers"; "all"]%string ["device-1"%string] 0].

Lemma exSep : sep (@kv_opts _ _ exLaws) = ":"%char.
Proof. reflexivity. Defined.

Lemma exStore_ok : kv_ok exStore.
Proof. split; [apply NewMemory_wf|done]. Defined.

Lemma exStore_empty : kv_db exStore = ∅.
Proof. reflexivity. Defined.

Ltac ok_field := first [ by vm_compute | unfold timeOk; cbn; lia ].
Ltac ok_op := split; [split; [by vm_compute|by vm_compute]|]; cbn [opID exCreate exClaimOp exFailOp exStale exFinal]; split_and?; ok_field.

Lemma exCreate_ok : opOk exSource exCreate.
Proof. ok_op. Qed.
Lemma exCreate2_ok : opOk exSource (PdCreate exRecord2).
Proof. ok_op. Qed.
Lemma exClaimOp_ok : opOk exSource exClaimOp.
Proof. ok_op. Qed.
Lemma exFailOp_ok : opOk exSource exFailOp.
Proof. ok_op. Qed.
Lemma exStale_ok : opOk exSource exStale.
Proof. ok_op. Qed.
Lemma exFinal_ok : opOk exSource exFinal.
Proof. ok_op. Qed.

Lemma exName : namePattern (s_SourceName exSource) = true.
Proof. reflexivity. Defined.

Lemma exRun ops :
  Forall (opOk exSource) ops -> kv_ok (run exSource ops exStore) /\ Inv kv_opts exSource (kv_db (run exSource ops exStore)).
Proof.
  intros HF. apply (run_inv exSep); [apply exStore_ok| |apply exName|done]. rewrite exStore_empty. apply (Inv_empty exSep).
Qed.

Lemma exCreated_ok : kv_ok (run exSource [exCreate] exStore) /\ Inv kv_opts exSource (kv_db (run exSource [exCreate] exStore)).
Proof. apply exRun. constructor; [apply exCreate_ok|constructor]. Qed.

Lemma exClaimed_ok :
  kv_ok (run exSource [exCreate; exClaimOp] exStore) /\ Inv kv_opts exSource (kv_db (run exSource [exCreate; exClaimOp] exStore)).
Proof. apply exRun. constructor; [apply exCreate_ok|]. constructor; [apply exClaimOp_ok|constructor]. Qed.

Lemma exClaim_at :
  taskAt kv_opts exSource (kv_db (run exSource [exCreate; exClaimOp] exStore)) exID = Some (exClaim, encodeKVTaskState exClaim).
Proof. vm_compute. reflexivity. Qed.




Lemma retry_budget_witness :
  exists t raw, taskAt kv_opts exSource (kv_db (run exSource [exCreate; exClaimOp; exFailOp] exStore)) exID = Some (t, raw) /\
    t_FailureCount t = 1 /\ withinBudget 3 t.
Proof.
  eexists _, _. split; [vm_compute; reflexivity|]. split; [reflexivity|].
  eapply (retry_budget exSep exSource [exCreate; exClaimOp; exFailOp] exStore 3 exID).
  - apply exStore_ok.
  - apply exStore_empty.
  - apply exName.
  - lia.
  - constructor; [split; [apply exCreate_ok|done]|]. constructor; [split; [apply exClaimOp_ok|done]|].
    constructor; [split; [apply exFailOp_ok|by intros n [= <-]]|constructor].
  - split; by vm_compute.
  - vm_compute; reflexivity.
Defined.

Lemma stale_claim_rejected_witness :
  answer exSource exStale (run exSource [exCreate; exClaimOp] exStore) <> Ret tt /\
  kv_db (exec exSource exStale (run exSource [exCreate; exClaimOp] exStore)) = kv_db (run exSource [exCreate; exClaimOp] exStore).
Proof.
  eapply (stale_claim_rejected exSource exStale).
  - apply exClaimed_ok.
  - reflexivity.
  - apply exClaim_at.
  - right. left. vm_compute. discriminate.
Defined.

Lemma Claim_grants_witness :
  (KVSource_Claim exSource exRef 2000 500 (Some "0123456789abcdef"%string) (run exSource [exCreate] exStore)).2 = Ret (Some exClaim) /\
  t_Status exClaim = StatusRunning /\ t_LeaseDeadline exClaim = 2500.
Proof.
  assert ((KVSource_Claim exSource exRef 2000 500 (Some "0123456789abcdef"%string) (run exSource [exCreate] exStore)).2 = Ret (Some exClaim)) as H
    by (vm_compute; reflexivity).
  split; [exact H|]. pose proof (Claim_grants exSep exSource exRef 2000 500 (Some "0123456789abcdef"%string) (run exSource [exCreate] exStore)
    (proj1 exCreated_ok) (proj2 exCreated_ok) exClaimOp_ok) as HC. cbv zeta in HC. rewrite H in HC.
  destruct HC as (t & raw & token & _ & _ & _ & _ & _ & _ & _ & HS & HD & _). split; [exact HS|exact HD].
Defined.

Lemma Fail_effect_witness :
  exists t' raw, taskAt kv_opts exSource (kv_db (run exSource [exCreate; exClaimOp; exFailOp] exStore)) exID = Some (t', raw) /\
    t_FailureCount t' = t_FailureCount exClaim + 1 /\ t_LeaseToken t' = EmptyString.
Proof.
  pose proof (Fail_effect exSep exSource exClaim "timeout" "peer unreachable" false 4000 2100 3 (run exSource [exCreate; exClaimOp] exStore)
    (proj1 exClaimed_ok) (proj2 exClaimed_ok) exFailOp_ok) as HC. cbv zeta in HC.
  assert ((KVSource_Fail exSource exClaim "timeout" "peer unreachable" false 4000 2100 3 (run exSource [exCreate; exClaimOp] exStore)).2 = Ret tt) as H
    by (vm_compute; reflexivity).
  rewrite H in HC. destruct HC as (t & raw & t' & Ht & Ht' & HN & _ & _ & _ & HL & _).
  pose proof (f_equal (option_map (fun x => t_FailureCount x.1)) (eq_trans (eq_sym Ht) exClaim_at)) as HF. injection HF as HF.
  exists t', (encodeKVTaskState t'). split; [exact Ht'|]. split; [rewrite HN, HF; reflexivity|exact HL].
Defined.

Lemma CreateOrGet_exactly_once_witness :
  (CreateOrGet true exRecord exStore).2 = Ret (exRecord, true) /\
  (CreateOrGet true exRecord (run exSource [exCreate] exStore)).2 = Ret (exRecord, false) /\
  recAt kv_opts (kv_db (run exSource [exCreate] exStore)) (byLocatorKey KindPeer "device-1") = Some exID.
Proof.
  assert ((CreateOrGet true exRecord (run exSource [exCreate] exStore)).2 = Ret (exRecord, false)) as H by (vm_compute; reflexivity).
  split; [vm_compute; reflexivity|]. split; [exact H|].
  pose proof (CreateOrGet_exactly_once exSep exSource exRecord (run exSource [exCreate] exStore)
    (proj1 exCreated_ok) (proj2 exCreated_ok) exName exCreate_ok) as HC. cbv zeta in HC. rewrite H in HC. exact (proj1 (proj2 HC)).
Defined.

Lemma Finalize_atomic_witness :
  answer exSource exFinal (run exSource [exCreate; exClaimOp] exStore) = Ret tt /\
  kv_db (run exSource [exCreate; exClaimOp; exFinal] exStore) !! encK kv_opts (byIDKey exID) = None /\
  kv_db (run exSource [exCreate; exClaimOp; exFinal] exStore) !! encK kv_opts ["peers"; "tombstone"; "device-1"]%string = Some (ARec "gone" 0).
Proof.
  split; [vm_compute; reflexivity|].
  pose proof (Finalize_atomic exSep exSource exClaim 2200 [MkCondition ["peers"; "device-1"; "lock"]%string None]
    [MkEntry ["peers"; "tombstone"; "device-1"]%string "gone" 0] [["peers"; "by-id"; "device-1"]%string]
    [MkSetMembers ["peers"; "all"]%string ["device-1"%string] 0] (run exSource [exCreate; exClaimOp] exStore)
    (proj1 exClaimed_ok) (proj2 exClaimed_ok) (proj1 exFinal_ok)) as HC. cbv zeta in HC.
  assert ((KVSource_FinalizeGuarded exSource exClaim 2200 [MkCondition ["peers"; "device-1"; "lock"]%string None]
    [MkEntry ["peers"; "tombstone"; "device-1"]%string "gone" 0] [["peers"; "by-id"; "device-1"]%string]
    [MkSetMembers ["peers"; "all"]%string ["device-1"%string] 0] (run exSource [exCreate; exClaimOp] exStore)).2 = Ret tt) as H
    by (vm_compute; reflexivity).
  rewrite H in HC. destruct HC as (_ & _ & H1 & _ & _ & _ & H2 & _). split; [exact H1|].
  exact (H2 (MkEntry ["peers"; "tombstone"; "device-1"]%string "gone" 0) ltac:(left)).
Defined.

(** Two due tasks read one per page. *)
Lemma ScanDue_pages_witness :
  exists next, (KVSource_ScanDue exSource 2000 1 "" (run exSource [exCreate; PdCreate exRecord2] exStore)).2 = Ret ([exRef], next) /\
    next <> EmptyString /\
    (forall ref, ref ∈ [exRef] -> exists t raw,
       taskAt kv_opts exSource (kv_db (run exSource [exCreate; PdCreate exRecord2] exStore)) (ref_DeletionID ref) = Some (t, raw) /\
       taskDue t 2000 = true /\ ref = refTo exSource t).
Proof.
  assert (exists next, (KVSource_ScanDue exSource 2000 1 "" (run exSource [exCreate; PdCreate exRecord2] exStore)).2 = Ret ([exRef], next) /\
    next <> EmptyString) as (next & H & Hne) by (eexists; split; [vm_compute; reflexivity|discriminate]).
  exists next. split; [exact H|]. split; [exact Hne|].
  assert (Forall (opOk exSource) [exCreate; PdCreate exRecord2]) as HF.
  { constructor; [apply exCreate_ok|]. constructor; [apply exCreate2_ok|constructor]. }
  destruct (ScanDue_pages exSource 2000 1 "" (run exSource [exCreate; PdCreate exRecord2] exStore)
    (proj1 (exRun _ HF)) (proj2 (exRun _ HF))) as [_ HC].
  - unfold timeOk. lia.
  - repeat constructor.
  - exact (proj1 (proj2 (HC [exRef] next H))).
Defined.

Lemma exClaim_good : goodTask exSource exClaim.
Proof.
  apply (taskAt_good kv_opts exSource _ exID exClaim (encodeKVTaskState exClaim) (proj2 exClaimed_ok)); [split; by vm_compute|apply exClaim_at].
Qed.

Lemma IndexMember_roundtrip_witness :
  parseKVIndexMember (kvIndexMember 2500 exClaim) = Ret (2500, exID, ref_MarkerFingerprint exRef).
Proof.
  apply (IndexMember_roundtrip exSource exClaim 2500); [unfold timeOk; lia|split; by vm_compute|apply exClaim_good].
Defined.

Lemma TaskState_roundtrip_witness : decodeTask exSource exRecord (encodeKVTaskState exClaim) = Ret (exClaim, encodeKVTaskState exClaim).
Proof. apply (TaskState_roundtrip exSource exClaim). apply exClaim_good. Defined.

Lemma truncated_message_unreadable_witness :
  decodeTask exSource exRecord (encodeKVTaskState (withUpdatedAt
    (failTask "cleanup_failed" (oe_Message (Retryable "cleanup_failed" longMessage None)) false 4000 3 exClaim) 2100)) =
  Fail (PDInvalid "failure metadata exceeds bounds").
Proof.
  apply (truncated_message_unreadable exSource exClaim 4000 2100 3); [apply exClaim_good|unfold timeOk; lia|unfold timeOk; lia|lia|lia].
Defined.

(** ** The processor on the durable source *)
Definition exHandler : Handler (Memory * nat) := MkHandler _ false KindPeer None None.
Definition exRegistry : gmap string (@registration (Memory * nat)) :=
  match Register (kvAsSource exSource) [exHandler] (Some NewRegistry) with Ret r => r | _ => NewRegistry end.

Lemma exRegister : Register (kvAsSource exSource) [exHandler] (Some NewRegistry) = Ret exRegistry.
Proof. reflexivity. Qed.

Lemma Register_sound_witness :
  registered exRegistry /\ is_Some (lookupHandler (Some exRegistry) "peers" KindPeer) /\ lookupHandler (Some exRegistry) "peers" KindWorkspace = None.
Proof.
  assert (registered exRegistry) as HR by (eapply registered_add; [apply registered_new|exact exRegister]).
  split; [exact HR|]. split; [|reflexivity]. apply (Register_sound exRegistry HR). exists (kvAsSource exSource). split; [reflexivity|].
  apply list_elem_of_singleton. reflexivity.
Defined.

Definition exProcessor : @Processor (Memory * nat) := MkProcessor (Some exRegistry) DefaultConfig true 0 ∅ ∅ (emptyBackoff 0).
Definition exScanEnv : scanEnv := MkScanEnv (fun _ => 2000) (fun _ => Sent).

Lemma scan_loses_nothing_witness :
  exists w' p' out, scan exScanEnv exProcessor (run exSource [exCreate] exStore) = (w', Ret (p', out)) /\ length out = 1%nat /\
    cursorKept exScanEnv (kvAsSource exSource) exProcessor p' out.
Proof.
  assert (registered exRegistry) as HR by (eapply registered_add; [apply registered_new|exact exRegister]).
  assert (match (scan exScanEnv exProcessor (run exSource [exCreate] exStore)).2 with Ret (_, out) => length out | _ => 0%nat end = 1%nat) as HL
    by (vm_compute; reflexivity).
  destruct (scan exScanEnv exProcessor (run exSource [exCreate] exStore)) as [w' r] eqn:HE. cbn [snd] in HL.
  destruct r as [[p' out]|e|]; [|discriminate HL|discriminate HL]. exists w', p', out. split; [reflexivity|]. split; [exact HL|].
  apply (scan_loses_nothing exRegistry exScanEnv exProcessor (run exSource [exCreate] exStore) w' p' out HR eq_refl HE).
  apply list_elem_of_singleton. reflexivity.
Defined.

(** The handler fails with a plain error after one renewal. *)
Definition exAttempt : @attemptEnv (Memory * nat) :=
  MkAttemptEnv 2000 (Some "0123456789abcdef"%string) [Tick 2100 false] (Returned (Some (MkHandlerError "boom" false false None)))
    false false 2200 (Some 0).


(** * pendingdeletion: the operator service on the durable source

    The theorems of [PDList] and [PDAdminProps] applied to the in-memory store, the
    text codec and a registry with one source: two peer deletions are listed one per
    page, and a failed one is retried. *)

#[local] Existing Instance textCodec.
#[local] Existing Instance textCodecLaws.
#[local] Existing Instance exOps.
#[local] Existing Instance exLaws.

(** Cursors as text. *)
Definition packCursor (c : listCursor) : string :=
  pack [lc_Source c; lc_Kind c; lc_Status c; lc_Start c; lc_End c; lc_CreatedAt c; lc_LastSource c; lc_DeletionID c].
Definition unpackCursor (s : string) : option listCursor :=
  match unpack s with Some [a; b; c; d; e; f; g; h] => Some (MkListCursor a b c d e f g h) | _ => None end.

#[local] Instance textCursor : CursorCodec := {| marshalCursor c := packCursor (sanitizeCursor c); unmarshalCursor := unpackCursor |}.
#[local] Instance textCursorLaws : CursorLaws.
Proof.
  split; [|reflexivity]. intros c. cbn [unmarshalCursor marshalCursor textCursor]. unfold unpackCursor, packCursor. by rewrite unpack_pack.
Defined.

(** Two stored deletions. *)
Definition exTwo : Memory * nat := run exSource [exCreate; PdCreate exRecord2] exStore.

Lemma exTwo_ok : kv_ok exTwo /\ Inv kv_opts exSource (kv_db exTwo).
Proof. apply exRun. constructor; [apply exCreate_ok|]. constructor; [apply exCreate2_ok|constructor]. Qed.

Lemma exTwo_ids : idsOfLength (String.length exID) exSource (kv_db exTwo).
Proof.
  intros t Ht. apply (stored_listed _ _ _ (proj2 exTwo_ok)) in Ht.
  assert (map (fun t => String.length (r_DeletionID (t_Record t))) (storedTasks exSource (kv_db exTwo)) = repeat (String.length exID) 4) as HL by (vm_compute; reflexivity).
  apply (list_elem_of_fmap_2 (fun t => String.length (r_DeletionID (t_Record t)))) in Ht. unfold fmap, list_fmap in Ht.
  change (String.length (r_DeletionID (t_Record t)) ∈ map (fun t => String.length (r_DeletionID (t_Record t))) (storedTasks exSource (kv_db exTwo))) in Ht.
  rewrite HL in Ht. cbn [repeat] in Ht. rewrite !elem_of_cons, elem_of_nil in Ht. tauto.
Qed.

Lemma exKinds : ownsValidKinds exSource.
Proof. repeat constructor. Qed.

Definition exOptions : SourceListOptions := MkListOptions ["peer"%string] [] (Some 900) None None "" "" 1.

Lemma ListTasks_page_witness :
  exists t, (KVSource_ListTasks exSource exOptions exTwo).2 = Ret [t] /\ t_Record t = exRecord /\
    forall u, stored exSource (kv_db exTwo) u -> taskMatches u exOptions = true -> u = t \/ taskBefore t u.
Proof.
  destruct (ListTasks_page (String.length exID) exSource exOptions exTwo) as [_ HP].
  - apply exTwo_ok.
  - apply exTwo_ok.
  - apply exTwo_ids.
  - split_and!; [unfold timeOk; cbn; lia|done|done].
  - apply exKinds.
  - assert (exists t, (KVSource_ListTasks exSource exOptions exTwo).2 = Ret [t] /\ t_Record t = exRecord) as (t & HR & Hrec)
      by (eexists; split; [vm_compute; reflexivity|vm_compute; reflexivity]).
    exists t. split; [exact HR|]. split; [exact Hrec|]. destruct (HP [t] HR) as (_ & _ & _ & HA). intros u Hu Hm.
    destruct (HA u (conj Hu Hm)) as [Hin|[_ HB]]; [left; apply list_elem_of_singleton; exact Hin|right; apply HB; left].
Defined.

Definition exHeld (name : string) (t : Task) : Prop := stored exSource (kv_db exTwo) t.

Lemma exRegistered : registered exRegistry.
Proof. eapply registered_add; [apply registered_new|exact exRegister]. Qed.

Lemma exListers src :
  src ∈ registrySources (Some exRegistry) ->
  lister (String.length exID) (fun w => kv_ok w /\ kv_db w = kv_db exTwo) src (exHeld (src_Name src)).
Proof.
  intros Hs. assert (registrySources (Some exRegistry) = [kvAsSource exSource]) as EQ by reflexivity. rewrite EQ in Hs.
  apply list_elem_of_singleton in Hs as ->. apply kv_lister; [apply exTwo_ok|apply exTwo_ids|apply exKinds].
Qed.

Definition exRequest : ListRequest := MkListRequest "" "" "queued" None None 1 "".

Lemma List_walk_witness :
  exists all, (listAll exRegistry None 5 exRequest exTwo).2 = Ret (Some all) /\ map t_Record all = [exRecord; exRecord2] /\
    forall t, t ∈ all <-> selected exRegistry exHeld exRequest t.
Proof.
  assert (match (listAll exRegistry None 5 exRequest exTwo).2 with Ret (Some all) => map t_Record all | _ => [] end = [exRecord; exRecord2]) as HL by (vm_compute; reflexivity).
  pose proof (List_walk (String.length exID) (fun w => kv_ok w /\ kv_db w = kv_db exTwo) exRegistry None exHeld exRegistered exListers exRequest
    (storedTasks exSource (kv_db exTwo)) 5 exTwo) as HW.
  destruct (listAll exRegistry None 5 exRequest exTwo).2 as [[all|]|e|]; [|discriminate HL..]. exists all. split; [reflexivity|]. split; [exact HL|].
  destruct (HW (conj (proj1 exTwo_ok) eq_refl) eq_refl I I) with (x := Some all) as (all' & EQ & _ & _ & HA).
  - intros t (_ & src & _ & _ & Ht). apply stored_listed; [apply exTwo_ok|exact Ht].
  - assert (length (storedTasks exSource (kv_db exTwo)) = 4%nat) as HE by (vm_compute; reflexivity). rewrite HE. lia.
  - reflexivity.
  - injection EQ as <-. exact HA.
Defined.

Lemma cursor_roundtrip_witness :
  decodeListCursor (MkListRequest "peers" "" "queued" None None 1 (encodeListCursor exRequest exClaim)) = Fail (PDInvalid "cursor filters do not match").
Proof.
  apply (cursor_roundtrip (String.length exID) exRequest exClaim).
  - split_and!; [reflexivity|left; reflexivity|right; reflexivity|exact I|exact I].
  - split_and!; [reflexivity|split; [discriminate|vm_compute; reflexivity]|reflexivity|unfold timeOk; cbn; lia|vm_compute; reflexivity].
  - reflexivity.
  - discriminate.
Defined.

(** The claimed deletion fails for good and is retried. *)
Definition exFailed : Memory * nat := run exSource [exCreate; exClaimOp; PdFail exClaim "timeout" "peer unreachable" true 4000 2100 3] exStore.

Lemma exFailed_ok : kv_ok exFailed /\ Inv kv_opts exSource (kv_db exFailed).
Proof.
  apply exRun. constructor; [apply exCreate_ok|]. constructor; [apply exClaimOp_ok|]. constructor; [|constructor]. ok_op.
Qed.

Lemma Retry_requeues_witness :
  exists t', (Admin_Retry (Some (MkAdmin (Some exRegistry) None)) "peers" exID 5000 exFailed).2 = Ret t' /\
    t_Status t' = StatusQueued /\ t_NextAttemptAt t' = 5000 /\ t_Phase t' = PhaseValidate.
Proof.
  assert (match (Admin_Retry (Some (MkAdmin (Some exRegistry) None)) "peers" exID 5000 exFailed).2 with Ret t => t_Phase t = PhaseValidate | _ => False end) as HL by (vm_compute; reflexivity).
  pose proof (Retry_requeues exSep exRegistry None exSource (default (MkRegistration (kvAsSource exSource) ∅) (exRegistry !! "peers")) "peers" exID 5000 exFailed) as HR.
  cbv zeta in HR. destruct (Admin_Retry _ _ _ _ _).2 as [t'|e|]; [|destruct HL..]. exists t'. split; [reflexivity|].
  destruct HR as (t & raw & _ & _ & _ & H1 & _ & H2 & _).
  - apply exFailed_ok.
  - apply exFailed_ok.
  - split; [discriminate|vm_compute; reflexivity].
  - unfold timeOk. lia.
  - reflexivity.
  - reflexivity.
  - discriminate.
  - split; [exact H1|]. split; [exact H2|exact HL].
Defined.
