(* ===== verification/GoBytes.v ===== *)
(** * Go: byte slices and fixed-width integers

    A [[]byte] is a list of integers in [0, 256) ([bytesOk]); slicing and indexing
    out of range is a run-time panic.  Little-endian encodings as [encoding/binary]
    writes and reads them, and unsigned words with their wrap-around; readers of [io]. *)

From stdpp Require Import list.
From S2P Require Import Prelude.

Open Scope Z_scope.

Abbreviation Bytes := (list Z).

Definition isByte (b : Z) : Prop := 0 <= b < 256.
Definition bytesOk (l : Bytes) : Prop := Forall isByte l.

#[export] Instance isByte_dec b : Decision (isByte b).
Proof. unfold isByte. apply _. Defined.

(** Words of [w] bits. *)
Definition wrap (w : Z) (x : Z) : Z := x `mod` 2 ^ w.
Definition uintOk (w : Z) (x : Z) : Prop := 0 <= x < 2 ^ w.

(** [s[i]] and [s[lo:hi]]; the code slices within the length, never up to the capacity. *)
Definition index {E} (l : Bytes) (i : nat) : Go E Z :=
  match l !! i with Some b => Ret b | None => Panic end.
Definition slice {E} (l : Bytes) (lo hi : nat) : Go E Bytes :=
  if (lo <=? hi)%nat && (hi <=? length l)%nat then Ret (take (hi - lo) (drop lo l)) else Panic.

(** The loop [for _, seg := range segs { n += int(seg) }]. *)
Definition sumBytes (l : Bytes) : nat := foldl (fun n b => n + Z.to_nat b)%nat 0%nat l.

(** ** Little-endian *)
Fixpoint putLE (n : nat) (v : Z) : Bytes :=
  match n with O => [] | S n => v `mod` 256 :: putLE n (v / 256) end.
Fixpoint getLE (l : Bytes) : Z :=
  match l with [] => 0 | b :: l => b + 256 * getLE l end.

Lemma length_putLE n v : length (putLE n v) = n.
Proof. revert v. induction n as [|n IH]; intros v; cbn; [done|by rewrite IH]. Qed.

Lemma putLE_ok n v : bytesOk (putLE n v).
Proof. revert v. induction n as [|n IH]; intros v; cbn; constructor; [apply Z.mod_pos_bound; lia|apply IH]. Qed.

Lemma getLE_putLE n v : getLE (putLE n v) = v `mod` 256 ^ Z.of_nat n.
Proof.
  revert v. induction n as [|n IH]; intros v; [by rewrite Z.mod_1_r|]. cbn [putLE getLE]. rewrite IH, Nat2Z.inj_succ, Z.pow_succ_r by lia.
  assert (0 < 256 ^ Z.of_nat n) by (apply Z.pow_pos_nonneg; lia). rewrite Z.rem_mul_r by lia. done.
Qed.

Lemma putLE_getLE l : bytesOk l -> putLE (length l) (getLE l) = l.
Proof.
  induction 1 as [|b l Hb _ IH]; [done|]. cbn [length putLE getLE]. unfold isByte in Hb.
  replace ((b + 256 * getLE l) `mod` 256) with b by (rewrite Z.mul_comm, Z_mod_plus_full, Z.mod_small; lia).
  replace ((b + 256 * getLE l) / 256) with (getLE l) by (rewrite Z.mul_comm, Z.div_add, Z.div_small; lia). by rewrite IH.
Qed.

Lemma getLE_bound l : bytesOk l -> 0 <= getLE l < 256 ^ Z.of_nat (length l).
Proof.
  induction 1 as [|b l Hb _ IH]; cbn [getLE length]; [done|]. unfold isByte in Hb. rewrite Nat2Z.inj_succ, Z.pow_succ_r by lia. lia.
Qed.

Lemma getLE_inj l k : bytesOk l -> bytesOk k -> length l = length k -> getLE l = getLE k -> l = k.
Proof. intros Hl Hk HL E. rewrite <-(putLE_getLE l), <-(putLE_getLE k) by done. by rewrite HL, E. Qed.

(** A guard does not panic. *)
Lemma check_not_Panic {E A} (b : bool) (e : E) (f : unit -> Go E A) : f tt <> Panic -> (check b e ≫= f) <> Panic.
Proof. by destruct b. Qed.

(** ** Slices *)
Lemma slice_Ret {E} l lo hi x : slice (E := E) l lo hi = Ret x <-> (lo <= hi <= length l)%nat /\ x = take (hi - lo) (drop lo l).
Proof.
  unfold slice. destruct (Nat.leb_spec lo hi), (Nat.leb_spec hi (length l)); cbn; split; try (by intros []; lia); try by intros [= <-]; try (by intros []; lia).
  by intros [_ ->].
Qed.

Lemma slice_ok {E} l lo hi : (lo <= hi <= length l)%nat -> slice (E := E) l lo hi = Ret (take (hi - lo) (drop lo l)).
Proof. intros H. by apply slice_Ret. Qed.

Lemma slice_app {E} l k m : slice (E := E) (l ++ k ++ m) (length l) (length l + length k) = Ret k.
Proof.
  rewrite slice_ok by (rewrite !length_app; lia). rewrite drop_app_length. replace (length l + length k - length l)%nat with (length k) by lia.
  by rewrite take_app_length.
Qed.

Lemma index_ok {E} l i : (i < length l)%nat -> exists b, index (E := E) l i = Ret b /\ l !! i = Some b.
Proof. intros H. unfold index. destruct (lookup_lt_is_Some_2 l i H) as [b ->]. eauto. Qed.

Lemma sumBytes_acc l n : foldl (fun n b => n + Z.to_nat b)%nat n l = (n + sumBytes l)%nat.
Proof.
  unfold sumBytes. revert n. induction l as [|b l IH]; intros n; cbn [foldl]; [lia|]. rewrite IH, (IH (0 + Z.to_nat b)%nat). lia.
Qed.

Lemma sumBytes_cons b l : sumBytes (b :: l) = (Z.to_nat b + sumBytes l)%nat.
Proof. unfold sumBytes at 1. cbn [foldl]. rewrite sumBytes_acc. lia. Qed.

Lemma sumBytes_app l k : sumBytes (l ++ k) = (sumBytes l + sumBytes k)%nat.
Proof. induction l as [|b l IH]; [done|]. cbn [app]. rewrite !sumBytes_cons, IH. lia. Qed.

Lemma bytesOk_take n l : bytesOk l -> bytesOk (take n l).
Proof. apply Forall_take. Qed.
Lemma bytesOk_drop n l : bytesOk l -> bytesOk (drop n l).
Proof. apply Forall_drop. Qed.
#[export] Hint Resolve bytesOk_take bytesOk_drop putLE_ok : gizclaw.

(** * Go: input streams

    An [io.Reader] is the bytes it still has and the error it returns after them;
    [readFull] is [io.ReadFull], which collects reads of any size until it has the
    whole buffer. *)

Inductive ioError :=
  | IoEOF
  | IoUnexpectedEOF
  | IoOther (text : string).

#[export] Instance ioError_eq_dec : EqDecision ioError.
Proof. solve_decision. Defined.

Record Reader := MkReader {
  rd_data : Bytes;
  rd_end : ioError
}.

Definition readFull (n : nat) : ST Reader ioError Bytes := fun r =>
  if (n =? 0)%nat then (r, Ret [])
  else if (n <=? length (rd_data r))%nat then (MkReader (drop n (rd_data r)) (rd_end r), Ret (take n (rd_data r)))
  else (MkReader [] (rd_end r),
        Fail (if bool_decide (rd_end r = IoEOF) && negb (length (rd_data r) =? 0)%nat then IoUnexpectedEOF else rd_end r)).

Lemma readFull_app l rest e : readFull (length l) (MkReader (l ++ rest) e) = (MkReader rest e, Ret l).
Proof.
  unfold readFull. destruct (Nat.eqb_spec (length l) 0) as [Hz|Hz]; [by apply nil_length_inv in Hz as ->|]. cbn [rd_data rd_end].
  rewrite (proj2 (Nat.leb_le _ _)) by (rewrite length_app; lia). by rewrite drop_app_length, take_app_length.
Qed.

Lemma readFull_sound n r r' l : readFull n r = (r', Ret l) -> rd_data r = l ++ rd_data r' /\ length l = n /\ rd_end r' = rd_end r.
Proof.
  unfold readFull. destruct (Nat.eqb_spec n 0) as [->|Hz]; [by intros [= <- <-]|]. destruct (Nat.leb_spec n (length (rd_data r))); [|done].
  intros [= <- <-]. cbn. by rewrite take_drop, length_take, Nat.min_l.
Qed.
