(* ===== verification/Encoding.v ===== *)
(** * Text encodings of byte strings

    [src/pkgs/encoding/base58/base58.go] (Bitcoin base58, with and without the
    multibase prefix) and [src/pkgs/encoding/base32/base32.go] (Crockford base32).  A
    [math/big] integer is a [Z]. *)

From Stdlib Require Import String Ascii.
From stdpp Require Import strings list.
From S2P Require Import Prelude GoStrings GoText GoBytes.

Open Scope Z_scope.

(** ** Byte slices and strings: [string(b)] and [[]byte(s)] *)
Definition strOf (l : Bytes) : string := bytes l.
Fixpoint bytesOf (s : string) : Bytes :=
  match s with EmptyString => [] | String a s => byteZ a :: bytesOf s end.

(** ** Positional numbers *)

(** [new(big.Int).SetBytes] for base 256. *)
Definition valBE (b : Z) (l : list Z) : Z := foldl (fun acc d => acc * b + d) 0 l.

(** [for value > 0 { value, mod = value / base, value % base; append mod }], lowest
    digit first; a number has at most as many digits as bits. *)
Fixpoint digitsLoop (fuel : nat) (b value : Z) : list Z :=
  match fuel with
  | O => []
  | S fuel => if 0 <? value then value mod b :: digitsLoop fuel b (value / b) else []
  end.
Definition digitsLE (b value : Z) : list Z := digitsLoop (Z.to_nat (Z.log2 value + 1)) b value.

(** [big.Int.Bytes]: big-endian, without leading zeros. *)
Definition bigBytes (value : Z) : Bytes := rev (digitsLE 256 value).

(** [for n < len(l) && l[n] == x { n++ }]. *)
Fixpoint leading {A} `{EqDecision A} (x : A) (l : list A) : nat :=
  match l with [] => 0 | y :: l => if decide (y = x) then S (leading x l) else 0 end.

Definition alphabetByte (alphabet : string) (d : Z) : ascii := digitOf alphabet (Z.to_nat d).

Inductive encodingError :=
  | ErrInvalidEncoding
  | ErrInvalidByte (b : ascii) (offset : nat).

#[export] Instance encodingError_eq_dec : EqDecision encodingError.
Proof. solve_decision. Defined.

(** ** base58 *)
Definition btcAlphabet : string := "123456789ABCDEFGHJKLMNPQRSTUVWXYZabcdefghijkmnopqrstuvwxyz".
Definition multibasePrefix : ascii := "z"%char.

Definition buildDecodeTable : list Z :=
  foldl (fun table i => <[Z.to_nat (byteZ (alphabetByte btcAlphabet (Z.of_nat i))) := Z.of_nat i]> table) (repeat (-1) 256) (seq 0 (String.length btcAlphabet)).
Definition decodeTable : list Z := Eval vm_compute in buildDecodeTable.

Definition base58_EncodeToString (data : Bytes) : string :=
  if (length data =? 0)%nat then EmptyString
  else
    let leadingZeros := leading 0 data in
    let encoded := map (alphabetByte btcAlphabet) (digitsLE 58 (valBE 256 data)) in
    string_of_list_ascii (repeat (alphabetByte btcAlphabet 0) leadingZeros ++ rev encoded).

Fixpoint base58_decodeLoop (i : nat) (value : list ascii) (acc : Z) : Go encodingError Z :=
  match value with
  | [] => Ret acc
  | c :: value =>
      let digit := default 0 (decodeTable !! Z.to_nat (byteZ c)) in
      if digit <? 0 then Fail (ErrInvalidByte c i) else base58_decodeLoop (S i) value (acc * 58 + digit)
  end.

Definition base58_DecodeString (value : string) : Go encodingError Bytes :=
  if (String.length value =? 0)%nat then Ret []
  else
    let leadingZeros := leading (alphabetByte btcAlphabet 0) (list_ascii_of_string value) in
    acc ← base58_decodeLoop 0 (list_ascii_of_string value) 0;
    Ret (repeat 0 leadingZeros ++ bigBytes acc).

Definition EncodeMultibaseToString (data : Bytes) : string := String multibasePrefix (base58_EncodeToString data).
Definition DecodeMultibaseString (value : string) : Go encodingError Bytes :=
  match value with
  | EmptyString => Fail ErrInvalidEncoding
  | String c rest => _ ← check (negb (bool_decide (c = multibasePrefix))) ErrInvalidEncoding; base58_DecodeString rest
  end.

(** ** base32 *)
Definition crockfordAlphabet : string := "0123456789ABCDEFGHJKMNPQRSTVWXYZ".

(** The inner loop of both directions: while there are [v] bits, move the highest [v]
    of them out ([& 31] when encoding, [byte(...)] when decoding). *)
Fixpoint emit (fuel : nat) (v buffer bits : Z) (out : list Z) : list Z * Z * Z :=
  match fuel with
  | O => (out, buffer, bits)
  | S fuel =>
      if v <=? bits then
        let out := out ++ [Z.land (Z.shiftr buffer (bits - v)) (Z.ones v)] in
        let bits := bits - v in
        emit fuel v (if bits =? 0 then 0 else Z.land buffer (Z.shiftl 1 bits - 1)) bits out
      else (out, buffer, bits)
  end.

(** One round: [buffer = buffer << w | x; bits += w] and the inner loop. *)
Definition feedBits (w v : Z) (st : list Z * Z * Z) (x : Z) : list Z * Z * Z :=
  let '(out, buffer, bits) := st in
  emit (Z.to_nat (bits + w)) v (Z.lor (Z.shiftl buffer w) x) (bits + w) out.

Definition base32_EncodeToString (data : Bytes) : string :=
  let '(out, buffer, bits) := foldl (feedBits 8 5) ([], 0, 0) data in
  let out := if 0 <? bits then out ++ [Z.land (Z.shiftl buffer (5 - bits)) 31] else out in
  string_of_list_ascii (map (alphabetByte crockfordAlphabet) out).

Inductive decoded := Skip | Value (v : Z) | Invalid.

(** [for i := range len(crockfordAlphabet) { if crockfordAlphabet[i] == ch ... }]. *)
Fixpoint indexOf (ch : ascii) (alphabet : list ascii) (i : Z) : decoded :=
  match alphabet with
  | [] => Invalid
  | a :: alphabet => if bool_decide (a = ch) then Value i else indexOf ch alphabet (i + 1)
  end.

Definition decodeValue (ch : ascii) : decoded :=
  let z := byteZ ch in
  if bool_decide (ch = "-"%char) then Skip
  else if bool_decide (ch = "O"%char) || bool_decide (ch = "o"%char) then Value 0
  else if bool_decide (ch = "I"%char) || bool_decide (ch = "i"%char) || bool_decide (ch = "L"%char) || bool_decide (ch = "l"%char) then Value 1
  else if between 48 57 ch then Value (z - 48)
  else
    let ch := if between 97 122 ch then ascii_of_N (Z.to_N (z - (97 - 65))) else ch in
    indexOf ch (list_ascii_of_string crockfordAlphabet) 0.

Fixpoint base32_decodeLoop (i : nat) (value : list ascii) (st : list Z * Z * Z) : Go encodingError (list Z * Z * Z) :=
  match value with
  | [] => Ret st
  | c :: value =>
      match decodeValue c with
      | Skip => base32_decodeLoop (S i) value st
      | Invalid => Fail (ErrInvalidByte c i)
      | Value v => base32_decodeLoop (S i) value (feedBits 5 8 st v)
      end
  end.

Definition base32_DecodeString (value : string) : Go encodingError Bytes :=
  st ← base32_decodeLoop 0 (list_ascii_of_string value) ([], 0, 0);
  let '(out, buffer, bits) := st in
  _ ← check ((5 <=? bits) || negb (buffer =? 0)) ErrInvalidEncoding;
  Ret out.
