(* ===== verification/EncodingProps.v ===== *)
(** * Text encodings: round trips

    base58 is a bijection between byte strings and the strings over its alphabet;
    base32 decodes what it encodes, and accepts besides its own output only the
    spellings that its documentation lists. *)

From Stdlib Require Import String Ascii.
From stdpp Require Import strings list.
From S2P Require Import Prelude GoStrings GoText GoBytes Encoding.

Open Scope Z_scope.

(** ** Bytes and strings *)
Lemma byteZ_bound a : 0 <= byteZ a < 256.
Proof. unfold byteZ. pose proof (N_ascii_bounded a). lia. Qed.

Lemma ascii_byteZ a : ascii_of_N (Z.to_N (byteZ a)) = a.
Proof. unfold byteZ. by rewrite N2Z.id, ascii_N_embedding. Qed.

Lemma byteZ_ascii z : isByte z -> byteZ (ascii_of_N (Z.to_N z)) = z.
Proof. intros Hz. unfold isByte in Hz. unfold byteZ. rewrite N_ascii_embedding by lia. lia. Qed.

Lemma bytesOf_ok s : bytesOk (bytesOf s).
Proof. induction s; constructor; [apply byteZ_bound|done]. Qed.

Lemma strOf_bytesOf s : strOf (bytesOf s) = s.
Proof. induction s as [|a s IH]; [done|]. cbn. rewrite ascii_byteZ. f_equal. exact IH. Qed.

Lemma bytesOf_strOf l : bytesOk l -> bytesOf (strOf l) = l.
Proof. induction 1 as [|b l Hb _ IH]; [done|]. cbn. rewrite byteZ_ascii by done. f_equal. exact IH. Qed.

Lemma length_strOf l : String.length (strOf l) = length l.
Proof. induction l as [|b l IH]; [done|]. cbn. f_equal. exact IH. Qed.

Lemma length_bytesOf s : length (bytesOf s) = String.length s.
Proof. induction s as [|a s IH]; [done|]. cbn. by f_equal. Qed.

Lemma strOf_inj l k : bytesOk l -> bytesOk k -> strOf l = strOf k -> l = k.
Proof. intros Hl Hk E. by rewrite <-(bytesOf_strOf l), <-(bytesOf_strOf k), E. Qed.

Lemma list_of_string l : list_ascii_of_string (string_of_list_ascii l) = l.
Proof. apply list_ascii_of_string_of_list_ascii. Qed.

Lemma length_list_ascii s : length (list_ascii_of_string s) = String.length s.
Proof. induction s as [|a s IH]; [done|]. cbn. by f_equal. Qed.

(** ** Positional numbers *)
Section digits.
Context (b : Z) (Hb : 2 <= b).

Definition digit (d : Z) : Prop := 0 <= d < b.

Lemma valBE_snoc l d : valBE b (l ++ [d]) = valBE b l * b + d.
Proof. unfold valBE. by rewrite foldl_app. Qed.

Lemma valBE_acc l acc : foldl (fun acc d => acc * b + d) acc l = acc * b ^ Z.of_nat (length l) + valBE b l.
Proof.
  revert acc. induction l as [|d l IH]; intros acc; [cbn; lia|]. cbn [foldl length]. rewrite IH. unfold valBE. cbn [foldl]. rewrite (IH (0 * b + d)).
  rewrite Nat2Z.inj_succ, Z.pow_succ_r by lia. unfold valBE. lia.
Qed.

Lemma valBE_cons d l : valBE b (d :: l) = d * b ^ Z.of_nat (length l) + valBE b l.
Proof. unfold valBE at 1. cbn [foldl]. rewrite valBE_acc. lia. Qed.

Lemma valBE_zeros n l : valBE b (repeat 0 n ++ l) = valBE b l.
Proof. induction n as [|n IH]; [done|]. cbn [repeat app]. rewrite valBE_cons, IH. lia. Qed.

Lemma valBE_bound l : Forall digit l -> 0 <= valBE b l < b ^ Z.of_nat (length l).
Proof.
  induction 1 as [|d l Hd _ IH]; [cbn; lia|]. rewrite valBE_cons. cbn [length]. rewrite Nat2Z.inj_succ, Z.pow_succ_r by lia. unfold digit in Hd. nia.
Qed.

(** Digit strings of one length are determined by their value. *)
Lemma valBE_inj l k : Forall digit l -> Forall digit k -> length l = length k -> valBE b l = valBE b k -> l = k.
Proof.
  intros Hl. revert k. induction Hl as [|d l Hd Hl IH]; intros [|e k] Hk HL HV; try done. apply Forall_cons in Hk as [He Hk]. injection HL as HL.
  rewrite !valBE_cons, <-HL in HV. pose proof (valBE_bound l Hl) as H1. pose proof (valBE_bound k Hk) as H2. rewrite <-HL in H2. unfold digit in *.
  set (P := b ^ Z.of_nat (length l)) in *. assert (d = e) as -> by nia. f_equal. apply IH; [done|done|lia].
Qed.

(** Fuel for as many digits as the number has bits is enough. *)
Lemma div_halves v n : 0 <= v < 2 ^ Z.of_nat (S n) -> 0 <= v / b < 2 ^ Z.of_nat n.
Proof.
  intros Hv. rewrite Nat2Z.inj_succ, Z.pow_succ_r in Hv by lia. split; [apply Z.div_pos; lia|]. apply Z.div_lt_upper_bound; [lia|].
  assert (0 < 2 ^ Z.of_nat n) by (apply Z.pow_pos_nonneg; lia). nia.
Qed.

Lemma digitsLoop_stable n m v : 0 <= v < 2 ^ Z.of_nat n -> v < 2 ^ Z.of_nat m -> digitsLoop n b v = digitsLoop m b v.
Proof.
  revert m v. induction n as [|n IH]; intros m v Hn Hm.
  - assert (v = 0) as -> by (cbn in Hn; lia). by destruct m.
  - destruct m as [|m]; [assert (v = 0) as -> by (cbn in Hm; lia); done|]. cbn [digitsLoop]. destruct (Z.ltb_spec 0 v); [|done]. f_equal.
    apply IH; [by apply div_halves|]. apply (div_halves v m). lia.
Qed.

Lemma log2_fuel v : 0 <= v -> v < 2 ^ Z.of_nat (Z.to_nat (Z.log2 v + 1)).
Proof.
  intros Hv. pose proof (Z.log2_nonneg v). rewrite Z2Nat.id by lia. destruct (Z.eq_dec v 0) as [->|]; [done|]. apply Z.log2_spec. lia.
Qed.

Lemma digitsLE_0 : digitsLE b 0 = [].
Proof. done. Qed.

Lemma digitsLE_pos v : 0 < v -> digitsLE b v = v mod b :: digitsLE b (v / b).
Proof.
  intros Hv. pose proof (log2_fuel v ltac:(lia)) as Hf. unfold digitsLE at 1. rewrite (digitsLoop_stable _ (S (Z.to_nat (Z.log2 v + 1))) v); [|lia|rewrite Nat2Z.inj_succ, Z.pow_succ_r by lia; lia].
  cbn [digitsLoop]. rewrite (proj2 (Z.ltb_lt 0 v)) by done. f_equal. assert (0 <= v / b) by (apply Z.div_pos; lia).
  apply digitsLoop_stable; [|by apply log2_fuel]. split; [done|]. apply Z.le_lt_trans with v; [|done]. apply Z.div_le_upper_bound; [lia|]. nia.
Qed.

Definition digitsBE (v : Z) : list Z := rev (digitsLE b v).

Lemma digitsBE_pos v : 0 < v -> digitsBE v = digitsBE (v / b) ++ [v mod b].
Proof. intros Hv. unfold digitsBE. by rewrite digitsLE_pos. Qed.

(** Induction on the digits of a number. *)
Lemma number_ind (P : Z -> Prop) : P 0 -> (forall v, 0 < v -> P (v / b) -> P v) -> forall v, 0 <= v -> P v.
Proof.
  intros H0 HS v Hv. induction v as [v IH] using (well_founded_induction (Z.lt_wf 0)). destruct (Z.eq_dec v 0) as [->|]; [done|].
  apply HS; [lia|]. assert (0 <= v / b) by (apply Z.div_pos; lia). apply IH; [split; [done|apply Z.div_lt; lia]|done].
Qed.

Lemma digitsBE_ok v : 0 <= v -> Forall digit (digitsBE v).
Proof.
  revert v. apply number_ind; [constructor|]. intros v Hv IH. rewrite digitsBE_pos by done. apply Forall_app. split; [done|].
  constructor; [|constructor]. apply Z.mod_pos_bound. lia.
Qed.

Lemma valBE_digitsBE v : 0 <= v -> valBE b (digitsBE v) = v.
Proof.
  revert v. apply number_ind; [done|]. intros v Hv IH. rewrite digitsBE_pos, valBE_snoc, IH by done. pose proof (Z.div_mod v b ltac:(lia)). lia.
Qed.

(** No leading zeros. *)
Lemma leading_digitsBE n v : 0 <= v -> leading 0 (repeat 0 n ++ digitsBE v) = n.
Proof.
  intros Hv. assert (leading 0 (digitsBE v) = 0%nat) as HL.
  { revert v Hv. apply number_ind; [done|]. intros v Hv IH. rewrite digitsBE_pos by done. destruct (digitsBE (v / b)) as [|d l] eqn:E.
    - cbn. rewrite decide_False; [done|]. assert (v / b = 0) as Hz by (rewrite <-(valBE_digitsBE (v / b)), E; [done|apply Z.div_pos; lia]).
      pose proof (Z.div_mod v b ltac:(lia)). lia.
    - cbn in *. by destruct (decide (d = 0)). }
  induction n as [|n IH]; [done|]. cbn [repeat app leading]. by rewrite decide_True, IH.
Qed.

(** A digit string is its leading zeros and the digits of its value. *)
Lemma digits_split l : Forall digit l -> l = repeat 0 (leading 0 l) ++ digitsBE (valBE b l).
Proof.
  intros Hl. assert (forall l, Forall digit l -> leading 0 l = 0%nat -> l = digitsBE (valBE b l)) as Hclean.
  { clear l Hl. intros l. induction l as [|d l IH] using rev_ind; intros Hl HL; [done|]. apply Forall_app in Hl as [Hl Hd]. apply Forall_cons in Hd as [Hd _]. unfold digit in Hd.
    rewrite valBE_snoc. assert (leading 0 l = 0%nat) as HL' by (destruct l as [|e l]; [done|]; cbn in *; by destruct (decide (e = 0))).
    specialize (IH Hl HL'). pose proof (valBE_bound l Hl) as HB. assert (0 < valBE b l * b + d) as Hpos.
    { destruct (Z.eq_dec (valBE b l) 0) as [Hz|]; [|nia]. rewrite Hz in IH. change (digitsBE 0) with (@nil Z) in IH. subst l. cbn in *. destruct (decide (d = 0)); [done|lia]. }
    rewrite digitsBE_pos by done. rewrite Z.div_add_l, (Z.div_small d b), Z.add_0_r by lia. rewrite <-IH. do 2 f_equal.
    rewrite Z.add_comm, Z_mod_plus_full, Z.mod_small; lia. }
  induction Hl as [|d l Hd Hl IH]; [done|]. cbn [leading]. destruct (decide (d = 0)) as [->|Hne].
  - cbn [repeat app]. rewrite valBE_cons, Z.mul_0_l, Z.add_0_l. by rewrite <-IH.
  - apply Hclean; [by constructor|]. cbn. by rewrite decide_False.
Qed.
End digits.

Lemma length_digitsBE b v n : 2 <= b -> 0 <= v < b ^ Z.of_nat n -> (length (digitsBE b v) <= n)%nat.
Proof.
  intros Hb. revert v. induction n as [|n IH]; intros v Hv; [assert (v = 0) as -> by (cbn in Hv; lia); reflexivity|].
  destruct (Z.eq_dec v 0) as [->|]; [change (digitsBE b 0) with (@nil Z); cbn; lia|]. rewrite digitsBE_pos, length_app by lia. cbn [length]. rewrite Nat2Z.inj_succ, Z.pow_succ_r in Hv by lia.
  specialize (IH (v / b)). assert (0 <= v / b) by (apply Z.div_pos; lia). assert (v / b < b ^ Z.of_nat n) by (apply Z.div_lt_upper_bound; lia). lia.
Qed.

(** ** base58 *)
Lemma table_digit d : 0 <= d < 58 -> decodeTable !! Z.to_nat (byteZ (alphabetByte btcAlphabet d)) = Some d.
Proof.
  intros Hd. assert (forallb (fun i => bool_decide (decodeTable !! Z.to_nat (byteZ (alphabetByte btcAlphabet (Z.of_nat i))) = Some (Z.of_nat i))) (seq 0 58) = true) as HA by (vm_compute; reflexivity).
  rewrite forallb_forall in HA. specialize (HA (Z.to_nat d)). rewrite Z2Nat.id in HA by lia. eapply bool_decide_eq_true_1, HA. apply in_seq. lia.
Qed.

Lemma table_sound c d : decodeTable !! Z.to_nat (byteZ c) = Some d -> 0 <= d -> 0 <= d < 58 /\ alphabetByte btcAlphabet d = c.
Proof.
  assert (match decodeTable !! Z.to_nat (byteZ c) with Some d => (d <? 0) || (d <? 58) && bool_decide (alphabetByte btcAlphabet d = c) | None => false end = true) as HA by byte_cases c.
  intros HT Hd. rewrite HT in HA. rewrite (proj2 (Z.ltb_ge d 0)) in HA by done. apply andb_true_iff in HA as [H1%Z.ltb_lt H2%bool_decide_eq_true_1]. done.
Qed.

Lemma table_total c : exists d, decodeTable !! Z.to_nat (byteZ c) = Some d.
Proof. pose proof (byteZ_bound c). apply lookup_lt_is_Some_2. change (length decodeTable) with 256%nat. lia. Qed.

Lemma alphabetByte_58_inj d e : 0 <= d < 58 -> 0 <= e < 58 -> alphabetByte btcAlphabet d = alphabetByte btcAlphabet e -> d = e.
Proof. intros Hd He E. pose proof (table_digit d Hd) as H1. rewrite E, table_digit in H1 by done. congruence. Qed.

Local Notation alpha := (alphabetByte btcAlphabet).

(** The decoding loop computes the value of the digits, or stops at the first byte that
    is none. *)
Lemma base58_decodeLoop_spec i value acc :
  match base58_decodeLoop i value acc with
  | Ret v => exists ds, Forall (digit 58) ds /\ value = map alpha ds /\ v = foldl (fun acc d => acc * 58 + d) acc ds
  | Fail e => exists ds c rest, Forall (digit 58) ds /\ value = map alpha ds ++ c :: rest /\ (forall d, digit 58 d -> alpha d <> c) /\ e = ErrInvalidByte c (i + length ds)
  | Panic => False
  end.
Proof.
  revert i acc. induction value as [|c value IH]; intros i acc; cbn [base58_decodeLoop]; [by exists []|]. destruct (table_total c) as [d Hd]. rewrite Hd. cbn [from_option]; unfold id.
  destruct (Z.ltb_spec d 0) as [Hneg|Hpos].
  - exists [], c, value. split_and!; [constructor|done| |f_equal; cbn; lia]. intros e He HE. unfold digit in He. rewrite <-HE, table_digit in Hd by done. injection Hd as ->. lia.
  - destruct (table_sound c d Hd Hpos) as [Hr HA]. specialize (IH (S i) (acc * 58 + d)). destruct (base58_decodeLoop (S i) value (acc * 58 + d)) as [v|e|]; [| |done].
    + destruct IH as (ds & HF & -> & ->). exists (d :: ds). split_and!; [by constructor|cbn [map app]; by rewrite HA|done].
    + destruct IH as (ds & c' & rest & HF & -> & Hno & ->). exists (d :: ds), c', rest. split_and!; [by constructor|cbn [map app]; by rewrite HA|done|f_equal; cbn; lia].
Qed.

Lemma base58_decodeLoop_digits i ds acc : Forall (digit 58) ds -> base58_decodeLoop i (map alpha ds) acc = Ret (foldl (fun acc d => acc * 58 + d) acc ds).
Proof.
  intros HF. revert i acc. induction HF as [|d ds Hd HF IH]; intros i acc; [done|]. cbn [map base58_decodeLoop foldl]. unfold digit in Hd.
  rewrite table_digit by done. cbn [from_option]; unfold id. rewrite (proj2 (Z.ltb_ge d 0)) by lia. apply IH.
Qed.

Lemma leading_alpha ds : Forall (digit 58) ds -> leading (alpha 0) (map alpha ds) = leading 0 ds.
Proof.
  induction 1 as [|d ds Hd _ IH]; [done|]. cbn [map leading]. destruct (decide (d = 0)) as [->|Hne]; [by rewrite decide_True, IH|].
  rewrite decide_False; [done|]. intros E. apply Hne. apply alphabetByte_58_inj; [exact Hd|lia|done].
Qed.

(** What both functions compute on digit strings. *)
Lemma base58_Encode_eq data :
  base58_EncodeToString data = string_of_list_ascii (map alpha (repeat 0 (leading 0 data) ++ digitsBE 58 (valBE 256 data))).
Proof.
  unfold base58_EncodeToString. destruct (Nat.eqb_spec (length data) 0) as [Hz|Hz]; [by apply nil_length_inv in Hz as ->|].
  rewrite map_app, map_repeat. unfold digitsBE. by rewrite map_rev.
Qed.

Lemma base58_Decode_eq ds : Forall (digit 58) ds ->
  base58_DecodeString (string_of_list_ascii (map alpha ds)) = Ret (repeat 0 (leading 0 ds) ++ digitsBE 256 (valBE 58 ds)).
Proof.
  intros HF. unfold base58_DecodeString. rewrite list_of_string. rewrite <-length_list_ascii, list_of_string, length_map.
  destruct (Nat.eqb_spec (length ds) 0) as [Hz|Hz]; [by apply nil_length_inv in Hz as ->|].
  rewrite base58_decodeLoop_digits, leading_alpha by done. done.
Qed.

Lemma bytesOk_digit l : bytesOk l <-> Forall (digit 256) l.
Proof. done. Qed.

Lemma zeros_digits b n : 0 < b -> Forall (digit b) (repeat 0 n).
Proof. intros Hb. induction n; constructor; [by split|done]. Qed.

Lemma encoded_digits data : bytesOk data -> Forall (digit 58) (repeat 0 (leading 0 data) ++ digitsBE 58 (valBE 256 data)).
Proof.
  intros Hok. pose proof (valBE_bound 256 ltac:(lia) data Hok). apply Forall_app. split; [by apply zeros_digits|].
  apply digitsBE_ok; lia.
Qed.

Lemma base58_decode_encode data : bytesOk data -> base58_DecodeString (base58_EncodeToString data) = Ret data.
Proof.
  intros Hok. pose proof (valBE_bound 256 ltac:(lia) data Hok). rewrite base58_Encode_eq, base58_Decode_eq by (by apply encoded_digits).
  rewrite leading_digitsBE, valBE_zeros, valBE_digitsBE by lia. by rewrite <-(digits_split 256 ltac:(lia) data Hok).
Qed.

Lemma base58_decode_inv s data : base58_DecodeString s = Ret data -> bytesOk data /\ base58_EncodeToString data = s.
Proof.
  assert (exists x, string_of_list_ascii x = s) as [x <-] by (exists (list_ascii_of_string s); apply string_of_list_ascii_of_string).
  destruct (decide (x = [])) as [->|Hne]; [intros [= <-]; split; [constructor|done]|]. unfold base58_DecodeString at 1. rewrite list_of_string, <-length_list_ascii, list_of_string.
  rewrite (proj2 (Nat.eqb_neq _ _)) by (by destruct x). pose proof (base58_decodeLoop_spec 0 x 0) as HS. destruct (base58_decodeLoop 0 x 0) as [v|e|] eqn:E; cbn [mbind Go_bind]; [|done..].
  destruct HS as (ds & HF & -> & ->). intros [= <-]. rewrite leading_alpha by done. fold (valBE 58 ds). change (bigBytes (valBE 58 ds)) with (digitsBE 256 (valBE 58 ds)). pose proof (valBE_bound 58 ltac:(lia) ds HF).
  split. { apply Forall_app. split; [by apply zeros_digits|apply digitsBE_ok; lia]. }
  rewrite base58_Encode_eq, leading_digitsBE, valBE_zeros, valBE_digitsBE by lia. by rewrite <-(digits_split 58 ltac:(lia) ds HF).
Qed.

(** base58 is a bijection between byte strings and the strings over its alphabet:
    [DecodeString] recovers every byte string from its encoding; a string it accepts is
    the encoding of the result, so no two strings decode alike; and it refuses a string
    exactly for its first byte outside the alphabet.  The multibase form adds its
    prefix. *)
Theorem base58_bijection :
  (forall data, bytesOk data -> base58_DecodeString (base58_EncodeToString data) = Ret data /\
                                DecodeMultibaseString (EncodeMultibaseToString data) = Ret data) /\
  (forall s data, base58_DecodeString s = Ret data -> bytesOk data /\ base58_EncodeToString data = s) /\
  (forall s e, base58_DecodeString s = Fail e ->
     exists good c rest, s = good +:+ String c rest /\ e = ErrInvalidByte c (String.length good) /\
       containsByte c btcAlphabet = false /\ allBytes (fun a => containsByte a btcAlphabet) good = true).
Proof.
  split_and!; [|apply base58_decode_inv|].
  - intros data Hok. pose proof (base58_decode_encode data Hok) as HD. split; [done|]. cbn. exact HD.
  - intros s e. assert (exists x, string_of_list_ascii x = s) as [x <-] by (exists (list_ascii_of_string s); apply string_of_list_ascii_of_string).
    unfold base58_DecodeString. destruct (_ =? _)%nat; [done|]. rewrite list_of_string. pose proof (base58_decodeLoop_spec 0 x 0) as HS.
    destruct (base58_decodeLoop 0 x 0) as [v|e'|]; cbn [mbind Go_bind]; [done| |done]. intros [= <-]. destruct HS as (ds & c & rest & HF & -> & Hno & ->).
    exists (string_of_list_ascii (map alpha ds)), c, (string_of_list_ascii rest). split_and!.
    + clear HF Hno. induction ds as [|d ds IH]; [done|]. cbn [map app string_of_list_ascii]. rewrite app_cons_str. by f_equal.
    + rewrite <-length_list_ascii, list_of_string, length_map. done.
    + assert (containsByte c btcAlphabet = existsb (fun i => bool_decide (alpha (Z.of_nat i) = c)) (seq 0 58)) as -> by (clear; byte_cases c).
      apply not_true_iff_false. intros (i & Hi%in_seq & Hc%bool_decide_eq_true)%existsb_exists. apply (Hno (Z.of_nat i)); [unfold digit; lia|done].
    + clear Hno. induction HF as [|d ds Hd HF IH]; [done|]. cbn [map string_of_list_ascii allBytes]. rewrite IH, andb_true_r. unfold digit in Hd.
      assert (forallb (fun i => containsByte (alpha (Z.of_nat i)) btcAlphabet) (seq 0 58) = true) as HA by (vm_compute; reflexivity).
      rewrite forallb_forall in HA. specialize (HA (Z.to_nat d)). rewrite Z2Nat.id in HA by lia. apply HA, in_seq. lia.
Qed.

(** A 32-byte key has at most 44 base58 digits. *)
Lemma base58_length data k n : bytesOk data -> length data = k ->
  forallb (fun z => 256 ^ Z.of_nat (k - z) <=? 58 ^ Z.of_nat (n - z)) (seq 0 (S k)) = true -> (k <= n)%nat ->
  (String.length (base58_EncodeToString data) <= n)%nat.
Proof.
  intros Hok HL HA Hkn. rewrite base58_Encode_eq, <-length_list_ascii, list_of_string, length_map, length_app, repeat_length. set (z := leading 0 data).
  pose proof (digits_split 256 ltac:(lia) data Hok) as HS. fold z in HS. pose proof (valBE_bound 256 ltac:(lia) data Hok) as HB.
  set (v := valBE 256 data) in *.
  assert (z + length (digitsBE 256 v) = k)%nat as Hz by (rewrite <-HL; apply (f_equal length) in HS; rewrite length_app, repeat_length in HS; lia).
  assert (v < 256 ^ Z.of_nat (k - z)) as Hv.
  { assert (bytesOk (digitsBE 256 v)) as HD by (apply digitsBE_ok; lia). pose proof (valBE_bound 256 ltac:(lia) _ HD) as HB'. rewrite valBE_digitsBE in HB' by lia.
    assert (length (digitsBE 256 v) = k - z)%nat as <- by lia. lia. }
  rewrite forallb_forall in HA. specialize (HA z ltac:(apply in_seq; lia)). apply Z.leb_le in HA.
  pose proof (length_digitsBE 58 v (n - z) ltac:(lia) ltac:(lia)). lia.
Qed.

(** ** base32 *)
Lemma lor_shift a w x : 0 < w -> 0 <= x < 2 ^ w -> Z.lor (Z.shiftl a w) x = a * 2 ^ w + x.
Proof.
  intros Hw Hx. rewrite <-Z.shiftl_mul_pow2 by lia. symmetry. apply Z.add_nocarry_lor. apply Z.bits_inj'. intros n Hn. rewrite Z.land_spec, Z.bits_0.
  destruct (Z.lt_ge_cases n w).
  - by rewrite Z.shiftl_spec_low.
  - rewrite (Z.bits_above_log2 x n), andb_false_r; [done|lia|]. destruct (Z.eq_dec x 0) as [->|]; [cbn; lia|]. apply Z.log2_lt_pow2; [lia|].
    apply Z.lt_le_trans with (2 ^ w); [lia|]. apply Z.pow_le_mono_r; lia.
Qed.

Lemma quotient_unique a c r p : 0 <= r < p -> a * p + r = c * p -> a = c /\ r = 0.
Proof. intros Hr E. destruct (Z.lt_trichotomy a c) as [H|[H|H]]; [nia|subst; lia|nia]. Qed.

(** What the loops maintain: the digits moved out and the rest of the buffer are the
    bits that came in. *)
Definition bitState (w v : Z) (consumed : list Z) (st : list Z * Z * Z) : Prop :=
  let '(out, buffer, bits) := st in
  0 <= bits < v /\ 0 <= buffer < 2 ^ bits /\ Forall (digit (2 ^ v)) out /\
  valBE (2 ^ v) out * 2 ^ bits + buffer = valBE (2 ^ w) consumed /\ w * Z.of_nat (length consumed) = v * Z.of_nat (length out) + bits.

Lemma emit_spec fuel v buffer bits out :
  0 < v -> 0 <= bits <= Z.of_nat fuel -> 0 <= buffer < 2 ^ bits -> Forall (digit (2 ^ v)) out ->
  let '(out', buffer', bits') := emit fuel v buffer bits out in
  0 <= bits' < v /\ 0 <= buffer' < 2 ^ bits' /\ Forall (digit (2 ^ v)) out' /\
  valBE (2 ^ v) out' * 2 ^ bits' + buffer' = valBE (2 ^ v) out * 2 ^ bits + buffer /\ v * Z.of_nat (length out') + bits' = v * Z.of_nat (length out) + bits.
Proof.
  intros Hv. revert buffer bits out. induction fuel as [|fuel IH]; intros buffer bits out Hbits Hbuf Hout; cbn [emit]; [split_and!; lia || done|].
  destruct (Z.leb_spec v bits) as [Hge|Hlt]; [|split_and!; lia || done]. remember (bits - v) as m eqn:Em. assert (bits = m + v) as -> by lia. clear Em. rewrite Z.pow_add_r in Hbuf by lia.
  assert (0 < 2 ^ m) as Hm by (apply Z.pow_pos_nonneg; lia).
  assert (Z.land (Z.shiftr buffer m) (Z.ones v) = buffer / 2 ^ m) as ->.
  { rewrite Z.land_ones, Z.shiftr_div_pow2 by lia. apply Z.mod_small. split; [apply Z.div_pos; lia|]. apply Z.div_lt_upper_bound; lia. }
  assert ((if m =? 0 then 0 else Z.land buffer (Z.shiftl 1 m - 1)) = buffer mod 2 ^ m) as ->.
  { destruct (Z.eqb_spec m 0) as [->|]; [by rewrite Z.mod_1_r|]. rewrite Z.shiftl_1_l, Z.sub_1_r, <-Z.ones_equiv. apply Z.land_ones. lia. }
  pose proof (Z.mod_pos_bound buffer (2 ^ m) Hm) as HM. pose proof (Z.div_mod buffer (2 ^ m) ltac:(lia)) as HD.
  specialize (IH (buffer mod 2 ^ m) m (out ++ [buffer / 2 ^ m]) ltac:(lia) HM). destruct (emit fuel v (buffer mod 2 ^ m) m (out ++ [buffer / 2 ^ m])) as [[out' buffer'] bits'].
  destruct IH as (H1 & H2 & H3 & H4 & H5).
  { apply Forall_app. split; [done|]. constructor; [|constructor]. split; [apply Z.div_pos; lia|apply Z.div_lt_upper_bound; lia]. }
  rewrite valBE_snoc in H4. rewrite length_app in H5. cbn [length] in H5. split_and!; [lia|lia|lia|lia|done| |lia]. rewrite H4, Z.pow_add_r by lia. lia.
Qed.

Lemma feedBits_spec w v consumed st x : 0 < v -> 0 < w -> 0 <= x < 2 ^ w -> bitState w v consumed st -> bitState w v (consumed ++ [x]) (feedBits w v st x).
Proof.
  intros Hv Hw Hx. destruct st as [[out buffer] bits]. intros (H1 & H2 & H3 & H4 & H5). unfold feedBits. rewrite lor_shift by lia.
  pose proof (emit_spec (Z.to_nat (bits + w)) v (buffer * 2 ^ w + x) (bits + w) out Hv ltac:(lia)) as HE. destruct (emit _ _ _ _ _) as [[out' buffer'] bits'].
  rewrite Z.pow_add_r in HE by lia. destruct HE as (E1 & E2 & E3 & E4 & E5); [nia|done|]. unfold bitState. rewrite valBE_snoc, length_app. cbn [length].
  split_and!; [lia|lia|lia|lia|done| |lia]. rewrite E4. nia.
Qed.

Lemma feedAll_spec w v consumed st xs : 0 < v -> 0 < w -> Forall (digit (2 ^ w)) xs -> bitState w v consumed st -> bitState w v (consumed ++ xs) (foldl (feedBits w v) st xs).
Proof.
  intros Hv Hw HF. revert consumed st. induction HF as [|x xs Hx HF IH]; intros consumed st Hst; [by rewrite app_nil_r|]. cbn [foldl].
  change (x :: xs) with ([x] ++ xs). rewrite app_assoc. apply IH. by apply feedBits_spec.
Qed.

(** The digits of an encoding. *)
Definition base32_digits (data : Bytes) : list Z :=
  let '(out, buffer, bits) := foldl (feedBits 8 5) ([], 0, 0) data in
  if 0 <? bits then out ++ [Z.land (Z.shiftl buffer (5 - bits)) 31] else out.

Lemma base32_Encode_eq data : base32_EncodeToString data = string_of_list_ascii (map (alphabetByte crockfordAlphabet) (base32_digits data)).
Proof. unfold base32_EncodeToString, base32_digits. by destruct (foldl _ _ _) as [[out buffer] bits]. Qed.

(** The encoding is the number of the data shifted by the padding. *)
Lemma base32_digits_spec data : bytesOk data ->
  exists pad, 0 <= pad < 5 /\ Forall (digit 32) (base32_digits data) /\ valBE 32 (base32_digits data) = valBE 256 data * 2 ^ pad /\
    5 * Z.of_nat (length (base32_digits data)) = 8 * Z.of_nat (length data) + pad.
Proof.
  intros Hok. assert (bitState 8 5 ([] ++ data) (foldl (feedBits 8 5) ([], 0, 0) data)) as HS by (apply feedAll_spec; [lia|lia|exact Hok|split_and!; done]).
  unfold base32_digits. destruct (foldl _ _ _) as [[out buffer] bits]. destruct HS as (H1 & H2 & H3 & H4 & H5). cbn [app] in *.
  change (2 ^ 5) with 32 in *. change (2 ^ 8) with 256 in *. destruct (Z.ltb_spec 0 bits) as [Hpos|Hz].
  - assert (0 < 2 ^ (5 - bits)) by (apply Z.pow_pos_nonneg; lia). assert (2 ^ bits * 2 ^ (5 - bits) = 32) as HP by (rewrite <-Z.pow_add_r by lia; by replace (bits + (5 - bits)) with 5 by lia).
    assert (Z.land (Z.shiftl buffer (5 - bits)) 31 = buffer * 2 ^ (5 - bits)) as ->.
    { change 31 with (Z.ones 5). rewrite Z.land_ones, Z.shiftl_mul_pow2 by lia. apply Z.mod_small. change (2 ^ 5) with 32. nia. }
    exists (5 - bits). rewrite valBE_snoc, length_app. cbn [length]. split_and!; [lia|lia| | |lia].
    + apply Forall_app. split; [done|]. constructor; [|constructor]. unfold digit. nia.
    + rewrite <-H4, Z.mul_add_distr_r, <-Z.mul_assoc, HP. lia.
  - assert (bits = 0) as -> by lia. assert (buffer = 0) as -> by (cbn in H2; lia). exists 0. cbn in H4. split_and!; [lia|lia|done|lia|lia].
Qed.

(** ** Reading base32 *)

(** The value of a spelling, and the canonical spelling. *)
Definition base32_canon (s : string) : list Z :=
  omap (fun c => match decodeValue c with Value v => Some v | _ => None end) (list_ascii_of_string s).

Lemma decodeValue_digit d : 0 <= d < 32 -> decodeValue (alphabetByte crockfordAlphabet d) = Value d.
Proof.
  intros Hd. assert (forallb (fun i => match decodeValue (alphabetByte crockfordAlphabet (Z.of_nat i)) with Value v => v =? Z.of_nat i | _ => false end) (seq 0 32) = true) as HA by (vm_compute; reflexivity).
  rewrite forallb_forall in HA. specialize (HA (Z.to_nat d) ltac:(apply in_seq; lia)). rewrite Z2Nat.id in HA by lia. destruct (decodeValue _); [done|f_equal; lia|done].
Qed.

Lemma decodeValue_range c v : decodeValue c = Value v -> 0 <= v < 32.
Proof.
  intros HD. assert (match decodeValue c with Value v => (0 <=? v) && (v <? 32) | _ => true end = true) as HA by byte_cases c. rewrite HD in HA. lia.
Qed.

Lemma base32_decodeLoop_spec i l st :
  match base32_decodeLoop i l st with
  | Ret st' => Forall (fun c => decodeValue c <> Invalid) l /\ st' = foldl (feedBits 5 8) st (omap (fun c => match decodeValue c with Value v => Some v | _ => None end) l)
  | Fail e => exists good c rest, l = good ++ c :: rest /\ Forall (fun c => decodeValue c <> Invalid) good /\ decodeValue c = Invalid /\ e = ErrInvalidByte c (i + length good)
  | Panic => False
  end.
Proof.
  revert i st. induction l as [|c l IH]; intros i st; cbn [base32_decodeLoop]; [by split|].
  assert (forall st', decodeValue c <> Invalid -> match base32_decodeLoop (S i) l st' with
    | Ret st'' => Forall (fun c => decodeValue c <> Invalid) (c :: l) /\ st'' = foldl (feedBits 5 8) st' (omap (fun c => match decodeValue c with Value v => Some v | _ => None end) l)
    | Fail e => exists good c' rest, c :: l = good ++ c' :: rest /\ Forall (fun c => decodeValue c <> Invalid) good /\ decodeValue c' = Invalid /\ e = ErrInvalidByte c' (i + length good)
    | Panic => False end) as Hnext.
  { intros st' Hc. specialize (IH (S i) st'). destruct (base32_decodeLoop (S i) l st') as [st''|e|]; [destruct IH as [HF ->]; split; [by constructor|done]| |done].
    destruct IH as (good & c' & rest & -> & HF & Hc' & ->). exists (c :: good), c', rest. split_and!; [done|by constructor|done|f_equal; cbn; lia]. }
  cbn [omap list_omap]. destruct (decodeValue c) eqn:Hc; [apply Hnext; done|apply Hnext; done|].
  exists [], c, l. split_and!; [done|constructor|done|f_equal; cbn; lia].
Qed.

Lemma canon_digits s : Forall (digit 32) (base32_canon s).
Proof.
  unfold base32_canon. induction (list_ascii_of_string s) as [|c l IH]; cbn [omap list_omap]; [constructor|].
  destruct (decodeValue c) eqn:Hc; [done|constructor; [by eapply decodeValue_range|done]|done].
Qed.

Lemma canon_state s : bitState 5 8 (base32_canon s) (foldl (feedBits 5 8) ([], 0, 0) (base32_canon s)).
Proof. apply (feedAll_spec 5 8 [] ([], 0, 0) (base32_canon s)); [lia|lia|apply canon_digits|split_and!; done]. Qed.

(** base32 is lossless and strict up to its documented spellings: every byte string
    is decoded from its encoding; and a string that [DecodeString] accepts is the
    encoding of the result once hyphens are dropped, lower case is raised and [O], [I]
    and [L] are read as digits, so unused trailing bits are never accepted. *)
Theorem base32_roundtrip :
  (forall data, bytesOk data -> base32_DecodeString (base32_EncodeToString data) = Ret data) /\
  (forall s data, base32_DecodeString s = Ret data ->
     bytesOk data /\ base32_EncodeToString data = string_of_list_ascii (map (alphabetByte crockfordAlphabet) (base32_canon s))).
Proof.
  split.
  - intros data Hok. destruct (base32_digits_spec data Hok) as (pad & Hpad & HF & HV & HL). rewrite base32_Encode_eq. unfold base32_DecodeString. rewrite list_of_string.
    assert (base32_canon (string_of_list_ascii (map (alphabetByte crockfordAlphabet) (base32_digits data))) = base32_digits data) as HC.
    { unfold base32_canon. rewrite list_of_string. clear HV HL. induction HF as [|d l Hd HF IH]; [done|]. cbn [map omap list_omap]. rewrite decodeValue_digit by exact Hd. by f_equal. }
    pose proof (canon_state (string_of_list_ascii (map (alphabetByte crockfordAlphabet) (base32_digits data)))) as HS.
    pose proof (base32_decodeLoop_spec 0 (map (alphabetByte crockfordAlphabet) (base32_digits data)) ([], 0, 0)) as HD. unfold base32_canon in HC, HS. rewrite list_of_string in HC, HS. rewrite HC in HS.
    destruct (base32_decodeLoop 0 _ _) as [st|e|]; [| |done].
    + destruct HD as [_ ->]. rewrite HC. cbn [mbind Go_bind]. destruct (foldl _ _ _) as [[out buffer] bits]. destruct HS as (H1 & H2 & H3 & H4 & H5).
      change (2 ^ 5) with 32 in *. change (2 ^ 8) with 256 in *. rewrite HV in H4. assert (length out = length data /\ bits = pad) as [HLo ->] by lia.
      destruct (quotient_unique _ _ _ _ H2 H4) as [HVo ->]. rewrite (proj2 (Z.leb_gt _ _)) by lia. cbn. f_equal. by apply (valBE_inj 256).
    + exfalso. destruct HD as (good & c & rest & HE & _ & Hc & _). assert (c ∈ map (alphabetByte crockfordAlphabet) (base32_digits data)) as Hin by (rewrite HE; set_solver).
      apply list_elem_of_fmap in Hin as (d & -> & Hd). rewrite Forall_forall in HF. rewrite decodeValue_digit in Hc by (by apply HF). done.
  - intros s data. unfold base32_DecodeString. pose proof (base32_decodeLoop_spec 0 (list_ascii_of_string s) ([], 0, 0)) as HD. pose proof (canon_state s) as HS.
    destruct (base32_decodeLoop 0 _ _) as [st|e|]; cbn [mbind Go_bind]; [|done..]. destruct HD as [_ ->]. fold (base32_canon s).
    destruct (foldl (feedBits 5 8) ([], 0, 0) (base32_canon s)) as [[out buffer] bits]. intros ([] & [Hb%Z.leb_gt Hz%negb_false_iff%Z.eqb_eq]%check_Ret%orb_false_iff & [= <-])%bind_Ret.
    subst buffer. destruct HS as (H1 & H2 & H3 & H4 & H5). change (2 ^ 5) with 32 in *. change (2 ^ 8) with 256 in *. split; [exact H3|].
    rewrite base32_Encode_eq. do 2 f_equal. destruct (base32_digits_spec out H3) as (pad & Hpad & HF & HV & HL).
    assert (length (base32_digits out) = length (base32_canon s) /\ bits = pad) as [HLe ->] by lia. apply (valBE_inj 32); [lia|done|apply canon_digits|done|lia].
Qed.
