(* ===== verification/GizKeys.v ===== *)
(** * giznet: keys

    [src/pkgs/giznet/keys.go].  A [Key] is 32 bytes.  X25519 is not part of the
    program: it is the parameter [X25519], which takes a scalar and a point and
    returns 32 bytes or an error. *)

From Stdlib Require Import String Ascii.
From stdpp Require Import strings list.
From S2P Require Import Prelude GoStrings GoText GoBytes Encoding EncodingProps CustomID.

Open Scope Z_scope.

Definition KeySize : nat := 32.
Definition zeroKey : Bytes := repeat 0 KeySize.
Definition keyOk (k : Bytes) : Prop := bytesOk k /\ length k = KeySize.

Definition keyError := string.

Definition KeyFromHex (s : string) : Go keyError Bytes :=
  match hexDecode s with
  | None => Fail "giznet: invalid hex string"%string
  | Some b =>
      _ ← check (negb (String.length b =? KeySize)%nat) "giznet: invalid key length"%string;
      Ret (bytesOf b)
  end.

Definition Key_IsZero (k : Bytes) : bool := bool_decide (k = zeroKey).
Definition Key_MarshalText (k : Bytes) : string := base58_EncodeToString k.
Definition GizKey_String (k : Bytes) : string := Key_MarshalText k.
Definition Key_ShortString (k : Bytes) : string := hexEncode (strOf (take 4 k)).

Definition decodeKeyText (text : string) : Go keyError Bytes :=
  let value := trimSpace text in
  _ ← check (bool_decide (value = EmptyString)) "giznet: empty key"%string;
  match base58_DecodeString value with
  | Ret decoded => _ ← check (negb (length decoded =? KeySize)%nat) "giznet: invalid key text"%string; Ret decoded
  | Fail _ => Fail "giznet: invalid key text"%string
  | Panic => Panic
  end.

(** The new value of [*k]; [None] is a nil receiver. *)
Definition Key_UnmarshalText (k : option Bytes) (text : string) : Go keyError Bytes :=
  match k with
  | None => Fail "giznet: nil key"%string
  | Some _ => decodeKeyText text
  end.

(** The loop of [Equal] runs over all bytes, whatever it finds. *)
Definition Key_Equal (k other : Bytes) : bool :=
  foldl Z.lor 0 (zip_with Z.lxor k other) =? 0.

(** ** Key pairs *)
Record KeyPair := MkKeyPair {
  kp_Private : Bytes;
  kp_Public : Bytes
}.

(** [priv[0] &= 248; priv[31] &= 127; priv[31] |= 64]. *)
Definition clamp (private : Bytes) : Bytes :=
  alter (fun b => Z.lor (Z.land b 127) 64) 31%nat (alter (fun b => Z.land b 248) 0%nat private).

Section X25519.
Context (X25519 : Bytes -> Bytes -> option Bytes) (Basepoint : Bytes).

Definition NewKeyPair (private : Bytes) : Go keyError KeyPair :=
  let priv := clamp private in
  match X25519 priv Basepoint with
  | Some pub => Ret (MkKeyPair priv pub)
  | None => Fail "giznet: failed to derive public key"%string
  end.

Definition GenerateKeyPairFrom : ST Reader keyError KeyPair :=
  priv ← mapErrST (fun _ => "giznet: failed to generate random key"%string) (readFull KeySize);
  lift (NewKeyPair priv).

Definition DH (kp : option KeyPair) (peerPublic : Bytes) : Go keyError Bytes :=
  match kp with
  | None => Fail "giznet: nil key pair"%string
  | Some kp =>
      match X25519 (kp_Private kp) peerPublic with
      | None => Fail "giznet: DH failed: giznet: invalid public key"%string
      | Some shared => _ ← check (Key_IsZero shared) "giznet: invalid public key"%string; Ret shared
      end
  end.
End X25519.

(** ** The text of a key *)
Lemma base58_alphabet data : bytesOk data -> allBytes (fun a => containsByte a btcAlphabet) (base58_EncodeToString data) = true.
Proof.
  intros Hok. rewrite base58_Encode_eq. induction (encoded_digits data Hok) as [|d l Hd _ IH]; [done|]. cbn [map string_of_list_ascii allBytes]. rewrite IH, andb_true_r.
  pose proof (table_digit d Hd) as HT. revert HT. generalize (alphabetByte btcAlphabet d) as c. intros c.
  assert (match decodeTable !! Z.to_nat (byteZ c) with Some d => (d <? 0) || containsByte c btcAlphabet | None => true end = true) as HA by byte_cases c.
  intros HT. rewrite HT in HA. unfold digit in Hd. by rewrite (proj2 (Z.ltb_ge d 0)) in HA by lia.
Qed.

Lemma base58_trimmed data : bytesOk data -> trimSpace (base58_EncodeToString data) = base58_EncodeToString data.
Proof.
  intros Hok. apply trimSpace_name. eapply allBytes_impl; [|apply (base58_alphabet data Hok)]. intros a. byte_cases a; done.
Qed.

Lemma length_key_text k : keyOk k -> (String.length (GizKey_String k) <= 44)%nat.
Proof. intros [Hok HL]. apply (base58_length k 32); [done|done|vm_compute; reflexivity|lia]. Qed.

Lemma key_text_nonempty k : keyOk k -> GizKey_String k <> EmptyString.
Proof.
  intros [Hok HL] E. pose proof (base58_decode_encode k Hok) as HD. unfold GizKey_String, Key_MarshalText in E. rewrite E in HD. injection HD as <-. done.
Qed.

Lemma decodeKeyText_String k : keyOk k -> decodeKeyText (GizKey_String k) = Ret k.
Proof.
  intros Hk. pose proof (key_text_nonempty k Hk) as Hne. destruct Hk as [Hok HL]. unfold decodeKeyText, GizKey_String, Key_MarshalText in *. rewrite base58_trimmed by done.
  rewrite bool_decide_eq_false_2 by done. cbn [check mbind Go_bind]. rewrite base58_decode_encode, HL by done. done.
Qed.

Lemma decodeKeyText_total text : decodeKeyText text <> Panic.
Proof.
  unfold decodeKeyText. cbn zeta. destruct (check (bool_decide _) _) as [[]|e|] eqn:Hc; [|done|by unfold check in Hc; case_match].
  cbn [mbind Go_bind]. unfold base58_DecodeString. destruct (_ =? 0)%nat; [by cbn|]. pose proof (base58_decodeLoop_spec 0 (list_ascii_of_string (trimSpace text)) 0) as HS.
  destruct (base58_decodeLoop 0 _ 0); cbn; [|done|done]. by destruct (negb _).
Qed.

Lemma decodeKeyText_inv text k : decodeKeyText text = Ret k -> keyOk k /\ GizKey_String k = trimSpace text.
Proof.
  unfold decodeKeyText. intros ([] & _ & HD)%bind_Ret. destruct (base58_DecodeString (trimSpace text)) as [d|e|] eqn:E; [|done..].
  apply bind_Ret in HD as ([] & HL%check_Ret%negb_false_iff%Nat.eqb_eq & [= <-]). apply base58_decode_inv in E as [Hok HE]. by split; [split|].
Qed.

Lemma lor_fold_0 l acc : Forall (fun x => 0 <= x) l -> 0 <= acc -> foldl Z.lor acc l = 0 <-> acc = 0 /\ Forall (fun x => x = 0) l.
Proof.
  intros HF. revert acc. induction HF as [|x l Hx HF IH]; intros acc Hacc; cbn [foldl]; [split; [by intros ->|by intros []]|]. rewrite IH by (apply Z.lor_nonneg; lia).
  rewrite Forall_cons. split; [intros [E ?]; apply Z.lor_eq_0_iff in E as [-> ->]; done|]. by intros [-> [-> ?]].
Qed.

Lemma lxor_bytes l k : bytesOk l -> bytesOk k -> Forall (fun x => 0 <= x) (zip_with Z.lxor l k).
Proof.
  intros Hl. revert k. induction Hl as [|x l Hx Hl IH]; intros [|y k] Hk; cbn [zip_with]; try constructor; apply Forall_cons in Hk as [Hy Hk].
  - unfold isByte in Hx, Hy. apply Z.lxor_nonneg; lia.
  - by apply IH.
Qed.

Lemma lxor_zero l k : length l = length k -> Forall (fun x => x = 0) (zip_with Z.lxor l k) <-> l = k.
Proof.
  revert k. induction l as [|x l IH]; intros [|y k] HL; cbn [zip_with]; try done. injection HL as HL.
  rewrite Forall_cons, IH, Z.lxor_eq_0_iff by done. naive_solver.
Qed.

(** The text of a key stands for exactly that key: [UnmarshalText] reads back what
    [String] prints, and the text it accepts is, up to surrounding white space, the
    text [String] prints for the result; the text has at most 44 bytes, so as the
    member of a friend group it always makes a valid membership name; and the
    constant-time [Equal] is equality. *)
Theorem Key_text_faithful k :
  keyOk k ->
  Key_UnmarshalText (Some zeroKey) (GizKey_String k) = Ret k /\
  (forall text k', Key_UnmarshalText (Some zeroKey) text = Ret k' -> keyOk k' /\ trimSpace text = GizKey_String k') /\
  (forall groupID, ValidateFriendGroupID groupID = Ret tt -> ValidateMembershipName groupID (GizKey_String k) = Ret tt) /\
  (forall other, keyOk other -> Key_Equal k other = true <-> k = other).
Proof.
  intros Hk. split_and!; [by apply decodeKeyText_String|by intros text k' [? ?]%decodeKeyText_inv| |].
  - intros groupID Hg. apply membership_leaves_room; [done| |pose proof (length_key_text k Hk); lia].
    eapply allBytes_impl; [|apply (base58_alphabet k), Hk]. intros a. byte_cases a; done.
  - intros other [Ho HLo]. destruct Hk as [Hok HL]. unfold Key_Equal. rewrite Z.eqb_eq, lor_fold_0; [|by apply lxor_bytes|done].
    rewrite <-(lxor_zero k other) by congruence. naive_solver.
Qed.

(** ** Key pairs *)

(** Facts about a byte, checked on all of them. *)
Lemma byte_forall (P : Z -> bool) : forallb P (seqZ 0 256) = true -> forall b, isByte b -> P b = true.
Proof. intros HA b Hb. rewrite forallb_forall in HA. apply HA. apply list_elem_of_In, elem_of_seqZ. exact Hb. Qed.

Definition low (b : Z) : Z := Z.land b 248.
Definition high (b : Z) : Z := Z.lor (Z.land b 127) 64.

Lemma low_spec b : isByte b -> isByte (low b) /\ low b mod 8 = 0 /\ low (low b) = low b.
Proof.
  intros Hb. assert ((0 <=? low b) && (low b <? 256) && (low b mod 8 =? 0) && (low (low b) =? low b) = true) as HA.
  { exact (byte_forall (fun b => (0 <=? low b) && (low b <? 256) && (low b mod 8 =? 0) && (low (low b) =? low b)) ltac:(vm_compute; reflexivity) b Hb). }
  unfold isByte. lia.
Qed.

Lemma high_spec b : isByte b -> 64 <= high b < 128 /\ high (high b) = high b.
Proof.
  intros Hb. assert ((64 <=? high b) && (high b <? 128) && (high (high b) =? high b) = true) as HA.
  { exact (byte_forall (fun b => (64 <=? high b) && (high b <? 128) && (high (high b) =? high b)) ltac:(vm_compute; reflexivity) b Hb). }
  lia.
Qed.

Lemma clamp_spec k : keyOk k -> exists b0 mid b31, isByte b0 /\ isByte b31 /\ bytesOk mid /\ length mid = 30%nat /\
  k = b0 :: mid ++ [b31] /\ clamp k = low b0 :: mid ++ [high b31].
Proof.
  intros [Hok HL]. destruct k as [|b0 k]; [done|]. apply Forall_cons in Hok as [H0 Hok]. injection HL as HL.
  destruct (drop 30 k) as [|b31 rest] eqn:ED; [apply (f_equal length) in ED; rewrite length_drop, HL in ED; done|].
  assert (rest = []) as -> by (apply (f_equal length) in ED; rewrite length_drop, HL in ED; cbn in ED; destruct rest; done).
  set (mid := take 30 k). assert (length mid = 30%nat) as HM by (unfold mid; rewrite length_take; lia).
  assert (k = mid ++ [b31]) as Ek by (by rewrite <-ED; unfold mid; rewrite take_drop). clearbody mid. subst k. apply Forall_app in Hok as [Hmid Hlast]. apply Forall_cons in Hlast as [H31 _].
  exists b0, mid, b31. split_and!; try done. unfold clamp. change (alter (fun b => Z.land b 248) 0%nat (b0 :: mid ++ [b31])) with (low b0 :: mid ++ [b31]).
  change (alter ?f 31%nat (low b0 :: ?l)) with (low b0 :: alter f 30%nat l). f_equal. replace 30%nat with (length mid + 0)%nat by lia. by rewrite alter_app_r.
Qed.

(** The private key of a pair is a clamped scalar, whatever bytes it was made from:
    the low three bits and the top bit are clear, the bit below it is set, and
    clamping again changes nothing; [GenerateKeyPairFrom] takes exactly 32 bytes from
    its source or fails; and a shared secret of [DH] is never all zeros. *)
Theorem keypair_clamped (X25519 : Bytes -> Bytes -> option Bytes) (Basepoint : Bytes) :
  (forall private kp, keyOk private -> NewKeyPair X25519 Basepoint private = Ret kp ->
     exists b0 b31, kp_Private kp !! 0%nat = Some b0 /\ kp_Private kp !! 31%nat = Some b31 /\
       b0 mod 8 = 0 /\ 64 <= b31 < 128 /\ keyOk (kp_Private kp) /\ clamp (kp_Private kp) = kp_Private kp /\
       X25519 (kp_Private kp) Basepoint = Some (kp_Public kp)) /\
  (forall r r' kp, GenerateKeyPairFrom X25519 Basepoint r = (r', Ret kp) ->
     exists seed, length seed = KeySize /\ rd_data r = seed ++ rd_data r' /\ NewKeyPair X25519 Basepoint seed = Ret kp) /\
  (forall kp peer shared, DH X25519 kp peer = Ret shared -> Key_IsZero shared = false).
Proof.
  split_and!.
  - intros private kp Hk. unfold NewKeyPair. destruct (X25519 (clamp private) Basepoint) as [pub|] eqn:E; [|done]. intros [= <-]. cbn [kp_Private kp_Public].
    destruct (clamp_spec private Hk) as (b0 & mid & b31 & H0 & H31 & Hmid & HL & -> & HC). rewrite HC in *. destruct (low_spec b0 H0) as (L1 & L2 & L3), (high_spec b31 H31) as (U1 & U2).
    assert (keyOk (low b0 :: mid ++ [high b31])) as Hk'.
    { split; [constructor; [done|]; apply Forall_app; split; [done|]; constructor; [unfold isByte; lia|constructor]|cbn [length]; rewrite length_app, HL; done]. }
    exists (low b0), (high b31). split_and!; try done.
    + change ((mid ++ [high b31]) !! 30%nat = Some (high b31)). by rewrite lookup_app_r, HL by lia.
    + lia.
    + lia.
    + destruct (clamp_spec _ Hk') as (c0 & mid' & c31 & _ & _ & _ & HL' & E' & ->). injection E' as <- E'. apply app_inj_tail in E' as [<- <-]. by rewrite L3, U2.
  - intros r r' kp. unfold GenerateKeyPairFrom, mapErrST, mbind, ST_bind, lift. destruct (readFull KeySize r) as [r1 [seed|e|]] eqn:E; [|done..]. intros [= <- HN].
    apply readFull_sound in E as (HD & HL & _). exists seed. done.
  - intros [kp|] peer shared; cbn [DH]; [|done]. destruct (X25519 _ _) as [x|]; [|done]. by intros ([] & HZ%check_Ret & [= <-])%bind_Ret.
Qed.

(** ** Examples *)
Definition exKey : Bytes := 0 :: 1 :: repeat 171 30.

Lemma exKey_ok : keyOk exKey.
Proof. split; [apply (bool_decide_eq_true (Forall _ _)); vm_compute; reflexivity|reflexivity]. Qed.

Lemma Key_text_faithful_witness : Key_UnmarshalText (Some zeroKey) (GizKey_String exKey) = Ret exKey /\ Key_Equal exKey exKey = true.
Proof. pose proof (Key_text_faithful exKey exKey_ok) as (H1 & _ & _ & H4). split; [exact H1|]. apply (H4 exKey exKey_ok). reflexivity. Defined.

Lemma base58_bijection_witness : base58_DecodeString (base58_EncodeToString [0; 0; 1; 2; 255]) = Ret [0; 0; 1; 2; 255].
Proof. apply (proj1 base58_bijection [0; 0; 1; 2; 255]). apply (bool_decide_eq_true (Forall _ _)). vm_compute. reflexivity. Defined.

Lemma base32_roundtrip_witness : bytesOk [255; 1; 17] /\ base32_EncodeToString [255; 1; 17] = "ZW0H2"%string.
Proof. apply (proj2 base32_roundtrip "zw-0h2"%string [255; 1; 17]). vm_compute. reflexivity. Defined.

(** With the identity in place of the curve. *)
Lemma keypair_clamped_witness : exists kp, NewKeyPair (fun k _ => Some k) [] exKey = Ret kp /\ clamp (kp_Private kp) = kp_Private kp.
Proof.
  exists (MkKeyPair (clamp exKey) (clamp exKey)). split; [reflexivity|].
  destruct (proj1 (keypair_clamped (fun k _ => Some k) []) exKey (MkKeyPair (clamp exKey) (clamp exKey)) exKey_ok eq_refl) as (b0 & b31 & _ & _ & _ & _ & _ & HC & _).
  exact HC.
Defined.
