(* ===== verification/ApiKey.v ===== *)
(** * apikey: device-bound API keys in a key-value store

    Models [src/pkgs/gizclaw/services/system/apikey/server.go].  The server works on a
    store ([KVOps], [KVSetOps]) and a source of random bytes; both are the state of its
    calls.  The JSON encoding of a key is the class [KeyCodec].  Every call that takes
    the lock of an owner ([keyedlock], modelled in [KeyedLock]) gets the outcome of
    [Acquire] as an argument: [Some e] when the context was cancelled first.  Requests
    for strong reads do not change what a single map answers and are left out. *)

From stdpp Require Import gmap strings list.
From S2P Require Import Prelude GoStrings GoText GoBytes Encoding GizKeys KVKey KVMemory KVIface KVSets.

Open Scope Z_scope.

Definition PeerAPIKeyLimit : Z := 10.
Definition secretPrefix : string := "gizclaw_sk_v1_".
Definition namePrefix : string := "key_".
Definition maxDisplayNameSize : Z := 80.
Definition keyListLimit : Z := 50.
Definition keyListMax : Z := 100.

Inductive akError :=
  | ErrInvalidAPIKey
  | ErrInvalidOwner
  | ErrInvalidDisplayName
  | ErrInvalidCursor
  | ErrInvalidName
  | ErrOwnerRetired
  | ErrPeerAPIKeyLimit
  | ErrForbidden
  | ErrKeyNotFound
  | AKStore (e : kvError)
  | AKRandom (e : ioError)
  | AKLock (e : string)
  | AKText (msg : string).

Record apiKey := MkApiKey {
  ak_Name : string;
  ak_DisplayName : string;
  ak_Prefix : string;
  ak_APIKey : string;
  ak_ManageAPIKeys : bool;
  ak_CreatedAt : Time;
  ak_Owner : string
}.

Record Created := MkCreated { cr_Key : apiKey; cr_Secret : string }.

(** A [Principal] is the key that authenticated it. *)
Definition Principal : Type := apiKey.

Record keyPage := MkKeyPage { kp_Items : list apiKey; kp_NextCursor : string }.

Class KeyCodec := {
  marshalKey : apiKey -> option string;
  unmarshalKey : string -> option apiKey
}.

(** ** Names, secrets and store keys *)
Definition validToken (prefix : string) (digits : nat) (size : Z) (value : string) : bool :=
  (String.length value =? String.length prefix + digits)%nat && hasPrefix prefix value &&
  match b64Decode (dropStr (String.length prefix) value) with
  | Some decoded => lenStr decoded =? size
  | None => false
  end.

Definition validSecret (secret : string) : bool := validToken secretPrefix 43 32 secret.
Definition validName (name : string) : bool := validToken namePrefix 22 16 name.

Definition recordKey (name : string) : Key := ["records"; name]%string.
Definition secretKey (secret : string) : Key := ["secrets"; secret]%string.
Definition ownerPrefix (owner : string) : Key := ["owners"; owner]%string.
Definition retiredKey (owner : string) : Key := ["retired"; owner]%string.

Definition Key_validateOwner (owner : string) : Go akError unit :=
  match Key_UnmarshalText (Some zeroKey) owner with
  | Ret publicKey => check (Key_IsZero publicKey || negb (bool_decide (GizKey_String publicKey = owner))) ErrInvalidOwner
  | Fail _ => Fail ErrInvalidOwner
  | Panic => Panic
  end.

Definition normalizeDisplayName (value : string) : Go akError string :=
  let value := trimSpace value in
  _ ← check (bool_decide (value = EmptyString) || negb (validUTF8 value) || (maxDisplayNameSize <? lenStr value)) ErrInvalidDisplayName;
  Ret value.

(** [s[:n]], which panics when the string is shorter. *)
Definition sliceTo {E} (n : nat) (s : string) : Go E string :=
  if (String.length s <? n)%nat then Panic else Ret (takeStr n s).

Section server.
Context {W : Type} {KO : KVOps W} {SO : KVSetOps W} {KC : KeyCodec}.

(** The store and the random bytes. *)
Abbreviation world := (W * Reader)%type.

Definition kvL {A} (m : ST W kvError A) : ST world akError A := fun w =>
  let '(s, r) := m w.1 in ((s, w.2), match r with Ret a => Ret a | Fail e => Fail (AKStore e) | Panic => Panic end).

Definition randomText (size : nat) : ST world akError string := fun w =>
  let '(rd, r) := readFull size w.2 in
  ((w.1, rd), match r with Ret data => Ret (b64Encode (strOf data)) | Fail e => Fail (AKRandom e) | Panic => Panic end).

Definition randomParts : ST world akError (string * string) :=
  name ← randomText 16; secret ← randomText 32; mret (name, secret).

(** A read that distinguishes [kv.ErrNotFound] from other errors. *)
Definition getOptional (k : Key) : ST world akError (option string) :=
  r ← tryST (kvL (kvGet k));
  match r with
  | inr v => mret (Some v)
  | inl (AKStore ErrNotFound) => mret None
  | inl e => failST e
  end.

Definition checkRetired (owner : string) : ST world akError unit :=
  r ← getOptional (retiredKey owner);
  match r with Some _ => failST ErrOwnerRetired | None => mret tt end.

Definition load (name : string) : ST world akError apiKey :=
  data ← getOptional (recordKey name);
  match data with
  | None => failST ErrKeyNotFound
  | Some data =>
      match unmarshalKey data with
      | None => failST (AKText "api key: malformed record")
      | Some item =>
          _ ← checkST (negb (bool_decide (ak_Name item = name)) || bool_decide (ak_Owner item = EmptyString) || negb (validSecret (ak_APIKey item)))
                (AKText "api key: malformed record");
          mret item
      end
  end.

(** [s.ownerLocks.Acquire(ctx, owner)]. *)
Definition acquireOwner (lock : option string) : ST world akError unit :=
  match lock with Some e => failST (AKLock e) | None => mret tt end.

(** A nil server or store. *)
Definition checkStore (configured : bool) : ST world akError unit :=
  checkST (negb configured) (AKText "api key: store is not configured").
Definition needStore (configured : bool) : ST world akError unit :=
  lift (if configured then Ret tt else Panic).

(** ** Create *)
Definition keyMutation (item : apiKey) (data : string) : Mutation :=
  MkMutation [MkCondition (recordKey (ak_Name item)) None; MkCondition (secretKey (ak_APIKey item)) None; MkCondition (retiredKey (ak_Owner item)) None]
    [MkEntry (recordKey (ak_Name item)) data 0; MkEntry (secretKey (ak_APIKey item)) (ak_Name item) 0] []
    [MkSetMembers (ownerPrefix (ak_Owner item)) [ak_Name item] PeerAPIKeyLimit] [] [] [].

(** One iteration: [Some] when the key was created. *)
Definition createAttempt (owner displayName : string) (manageAPIKeys : bool) (now : Time) : ST world akError (option Created) :=
  parts ← randomParts;
  let secret := secretPrefix +:+ parts.2 in
  shown ← lift (sliceTo 8 parts.2);
  let item := MkApiKey (namePrefix +:+ parts.1) displayName (secretPrefix +:+ shown +:+ "…"%string) secret manageAPIKeys now owner in
  match marshalKey item with
  | None => failST (AKText "json")
  | Some data =>
      r ← tryST (kvL (kvApply (keyMutation item data)));
      match r with
      | inl (AKStore ErrMemberLimit) => failST ErrPeerAPIKeyLimit
      | inl e => failST e
      | inr true => mret (Some (MkCreated item secret))
      | inr false => _ ← checkRetired owner; mret None
      end
  end.

(** [for range n]; [now i] is the clock at the [i]-th iteration. *)
Fixpoint createLoop (n : nat) (owner displayName : string) (manageAPIKeys : bool) (now : nat -> Time) : ST world akError Created :=
  match n with
  | O => failST (AKText "api key: random identifier collision limit reached")
  | S n => r ← createAttempt owner displayName manageAPIKeys (now O);
           match r with
           | Some c => mret c
           | None => createLoop n owner displayName manageAPIKeys (fun i => now (S i))
           end
  end.

Definition Key_Create (configured : bool) (lock : option string) (now : nat -> Time) (owner displayName : string) (manageAPIKeys : bool) : ST world akError Created :=
  _ ← checkStore configured;
  _ ← lift (Key_validateOwner owner);
  displayName ← lift (normalizeDisplayName displayName);
  _ ← acquireOwner lock;
  _ ← checkRetired owner;
  createLoop 8 owner displayName manageAPIKeys now.

(** ** Authenticate *)
Definition Authenticate (configured : bool) (secret : string) : ST world akError Principal :=
  _ ← checkST (negb configured || negb (validSecret secret)) ErrInvalidAPIKey;
  name ← getOptional (secretKey secret);
  match name with
  | None => failST ErrInvalidAPIKey
  | Some name =>
      r ← tryST (load name);
      match r with
      | inl ErrKeyNotFound => failST ErrInvalidAPIKey
      | inl e => failST e
      | inr item => _ ← checkST (negb (bool_decide (ak_APIKey item = secret))) ErrInvalidAPIKey; mret item
      end
  end.

(** ** Listing *)

(** The loop over the sorted names; it breaks when it has more than [limit] keys. *)
Fixpoint keyListLoop (owner cursor : string) (limit : Z) (names : list string) (items : list apiKey) : ST world akError (list apiKey) :=
  match names with
  | [] => mret items
  | name :: names =>
      if leStr name cursor then keyListLoop owner cursor limit names items
      else
        r ← tryST (load name);
        match r with
        | inl ErrKeyNotFound => keyListLoop owner cursor limit names items
        | inl e => failST e
        | inr item =>
            _ ← checkST (negb (bool_decide (ak_Owner item = owner))) (AKText "api key: cross-owned index member");
            let items := items ++ [item] in
            if limit <? Z.of_nat (length items) then mret items else keyListLoop owner cursor limit names items
        end
  end.

(** [sort.Slice(items, ...)]. *)
Definition nameLe (a b : apiKey) : Prop := String.le (ak_Name a) (ak_Name b).
#[local] Instance nameLe_dec : RelDecision nameLe := fun a b => decide (String.le (ak_Name a) (ak_Name b)).
Definition sortKeys (items : list apiKey) : list apiKey := merge_sort nameLe items.

Definition cutKeys (limit : Z) (items : list apiKey) : keyPage :=
  if limit <? Z.of_nat (length items) then
    let items := take (Z.to_nat limit) items in
    MkKeyPage items (match last items with Some k => ak_Name k | None => EmptyString end)
  else MkKeyPage items EmptyString.

Definition pageLimit (limit : Z) : Z :=
  let limit := if limit <=? 0 then keyListLimit else limit in
  if keyListMax <? limit then keyListMax else limit.

Definition ListOwner (configured : bool) (lock : option string) (owner cursor : string) (limit : Z) : ST world akError keyPage :=
  _ ← checkStore configured;
  _ ← lift (Key_validateOwner owner);
  _ ← checkST (negb (bool_decide (cursor = EmptyString)) && negb (validName cursor)) ErrInvalidCursor;
  let limit := pageLimit limit in
  _ ← acquireOwner lock;
  names ← kvL (kvMembers (ownerPrefix owner));
  items ← keyListLoop owner cursor limit (sortStrings names) [];
  mret (cutKeys limit (sortKeys items)).

Definition Key_List (configured : bool) (lock : option string) (principal : Principal) (cursor : string) (limit : Z) : ST world akError keyPage :=
  _ ← checkST (negb (ak_ManageAPIKeys principal)) ErrForbidden;
  ListOwner configured lock (ak_Owner principal) cursor limit.

(** ** Get and revoke *)
Definition GetSelf (principal : Principal) : apiKey := principal.

Definition Key_Get (configured : bool) (principal : Principal) (name : string) : ST world akError apiKey :=
  _ ← checkST (negb (ak_ManageAPIKeys principal)) ErrForbidden;
  _ ← needStore configured;
  item ← load name;
  _ ← checkST (negb (bool_decide (ak_Owner item = ak_Owner principal))) ErrKeyNotFound;
  mret item.

Definition revokeMutation (owner name : string) (item : apiKey) : Mutation :=
  MkMutation [] [] [recordKey name; secretKey (ak_APIKey item)] [] [MkSetMembers (ownerPrefix owner) [name] 0] [] [].

Definition revoke (configured : bool) (lock : option string) (owner name : string) : ST world akError unit :=
  _ ← acquireOwner lock;
  _ ← needStore configured;
  item ← load name;
  _ ← checkST (negb (bool_decide (ak_Owner item = owner))) ErrKeyNotFound;
  _ ← kvL (kvApply (revokeMutation owner name item));
  mret tt.

Definition RevokeSelf (configured : bool) (lock : option string) (principal : Principal) : ST world akError unit :=
  revoke configured lock (ak_Owner principal) (ak_Name principal).

Definition Revoke (configured : bool) (lock : option string) (principal : Principal) (name : string) : ST world akError unit :=
  _ ← checkST (negb (ak_ManageAPIKeys principal)) ErrForbidden;
  revoke configured lock (ak_Owner principal) name.

Definition RevokeOwner (configured : bool) (lock : option string) (owner name : string) : ST world akError unit :=
  _ ← checkStore configured;
  _ ← lift (Key_validateOwner owner);
  _ ← checkST (negb (validName name)) ErrInvalidName;
  revoke configured lock owner name.

(** ** Cleanup of a retired owner *)
Definition cleanupStep (owner : string) (deletes : list Key) (name : string) : ST world akError (list Key) :=
  r ← tryST (load name);
  match r with
  | inl ErrKeyNotFound => mret deletes
  | inl e => failST e
  | inr item =>
      _ ← checkST (negb (bool_decide (ak_Owner item = owner))) (AKText "api key: cross-owned index member");
      mret (deletes ++ [recordKey (ak_Name item); secretKey (ak_APIKey item)])
  end.

Definition cleanupMutation (owner : string) (deletes : list Key) (names : list string) : Mutation :=
  MkMutation [] [] deletes [] [MkSetMembers (ownerPrefix owner) names 0] [] [].

Definition CleanupPeer (configured : bool) (lock : option string) (owner : string) : ST world akError unit :=
  _ ← lift (Key_validateOwner owner);
  _ ← acquireOwner lock;
  _ ← needStore configured;
  _ ← kvL (kvSet (retiredKey owner) "retired"%string);
  names ← kvL (kvMembers (ownerPrefix owner));
  deletes ← foldST (cleanupStep owner) [] names;
  _ ← kvL (kvApply (cleanupMutation owner deletes names));
  mret tt.
End server.
