(* ===== verification/ApiKeyInv.v ===== *)
(** * apikey: the abstract registry and the invariant of the indexes

    What a registry of keys is, without storage, and how the three indexes of a stored
    key agree with it. *)

From stdpp Require Import gmap strings list.
From S2P Require Import Prelude GoStrings GoText KVKey KVMemory KVSpec KVProps KVIface Triple KVSets PDCodec GoBytes Encoding EncodingProps GizKeys ApiKey.

Open Scope Z_scope.

(** * apikey: what a client of the server may rely on

    The abstract registry of keys and, for every call of the server, the changes and
    answers it may have: on every branch, errors included.  [ApiKeyProps] shows that
    the server on a store implements it. *)

(** ** Well-formed texts *)
Definition nameOk (s : string) : Prop := validName s = true.
Definition secretOk (s : string) : Prop := validSecret s = true.
Definition ownerOk (s : string) : Prop := Key_validateOwner s = Ret tt.
Definition goodKey (k : apiKey) : Prop := nameOk (ak_Name k) /\ secretOk (ak_APIKey k) /\ ownerOk (ak_Owner k).

#[export] Instance apiKey_eq_dec : EqDecision apiKey.
Proof. solve_decision. Defined.

(** ** The registry a client sees

    The keys in force by name, and the owners that were cleaned up.  [runCall] is a call
    of a server with a store; [akSpec] is what it may do to the registry and answer. *)
Record Registry := MkRegistry { rg_keys : gmap string apiKey; rg_retired : gset string }.

Definition emptyRegistry : Registry := MkRegistry ∅ ∅.
Definition ownerKeys (s : Registry) (owner : string) : gmap string apiKey := filter (fun p => ak_Owner p.2 = owner) (rg_keys s).

Inductive akCall :=
  | CCreate (lock : option string) (now : nat -> Time) (owner displayName : string) (manage : bool)
  | CAuthenticate (secret : string)
  | CListOwner (lock : option string) (owner cursor : string) (limit : Z)
  | CList (lock : option string) (principal : Principal) (cursor : string) (limit : Z)
  | CGet (principal : Principal) (name : string)
  | CRevokeSelf (lock : option string) (principal : Principal)
  | CRevoke (lock : option string) (principal : Principal) (name : string)
  | CRevokeOwner (lock : option string) (owner name : string)
  | CCleanup (lock : option string) (owner : string).

Inductive akResult := RCreated (c : Created) | RKey (k : apiKey) | RPage (p : keyPage) | RUnit.

Definition mapGoR {E A B} (f : A -> B) (r : Go E A) : Go E B := match r with Ret a => Ret (f a) | Fail e => Fail e | Panic => Panic end.
Definition akAnswer {S E A B} (f : A -> B) (m : ST S E A) : ST S E B := fun w => let '(w', r) := m w in (w', mapGoR f r).

Definition runCall {W} `{KVOps W, KVSetOps W, KeyCodec} (c : akCall) : ST (W * Reader) akError akResult :=
  match c with
  | CCreate lock now owner displayName manage => akAnswer RCreated (Key_Create true lock now owner displayName manage)
  | CAuthenticate secret => akAnswer RKey (Authenticate true secret)
  | CListOwner lock owner cursor limit => akAnswer RPage (ListOwner true lock owner cursor limit)
  | CList lock principal cursor limit => akAnswer RPage (Key_List true lock principal cursor limit)
  | CGet principal name => akAnswer RKey (Key_Get true principal name)
  | CRevokeSelf lock principal => akAnswer (fun _ => RUnit) (RevokeSelf true lock principal)
  | CRevoke lock principal name => akAnswer (fun _ => RUnit) (Revoke true lock principal name)
  | CRevokeOwner lock owner name => akAnswer (fun _ => RUnit) (RevokeOwner true lock owner name)
  | CCleanup lock owner => akAnswer (fun _ => RUnit) (CleanupPeer true lock owner)
  end.

Definition createSpec (owner displayName : string) (manage : bool) (s s' : Registry) (r : Go akError Created) : Prop :=
  match r with
  | Ret c =>
      let k := cr_Key c in
      ownerOk owner /\ owner ∉ rg_retired s /\ (size (ownerKeys s owner) < 10)%nat /\
      goodKey k /\ ak_Owner k = owner /\ normalizeDisplayName displayName = Ret (ak_DisplayName k) /\
      ak_ManageAPIKeys k = manage /\ cr_Secret c = ak_APIKey k /\
      rg_keys s !! ak_Name k = None /\ (forall n k', rg_keys s !! n = Some k' -> ak_APIKey k' <> ak_APIKey k) /\
      s' = MkRegistry (<[ak_Name k := k]> (rg_keys s)) (rg_retired s)
  | Fail e =>
      s' = s /\
      match e with
      | ErrInvalidOwner => ~ ownerOk owner
      | ErrInvalidDisplayName => normalizeDisplayName displayName = Fail ErrInvalidDisplayName
      | ErrOwnerRetired => owner ∈ rg_retired s
      | ErrPeerAPIKeyLimit => size (ownerKeys s owner) = 10%nat
      | AKStore _ | AKRandom _ | AKLock _ => True
      | AKText msg => msg = "json"%string \/ msg = "api key: random identifier collision limit reached"%string /\ rg_keys s <> ∅
      | _ => False
      end
  | Panic => False
  end.

Definition authenticateSpec (secret : string) (s s' : Registry) (r : Go akError apiKey) : Prop :=
  s' = s /\
  match r with
  | Ret k => rg_keys s !! ak_Name k = Some k /\ ak_APIKey k = secret
  | Fail ErrInvalidAPIKey => forall n k, rg_keys s !! n = Some k -> ak_APIKey k <> secret
  | Fail (AKStore _) => True
  | _ => False
  end.

(** The keys of the owner after the cursor, in name order. *)
Definition keysAfter (s : Registry) (owner cursor : string) (l : list apiKey) : Prop :=
  strictSorted (ak_Name <$> l) /\ forall k, k ∈ l <-> rg_keys s !! ak_Name k = Some k /\ ak_Owner k = owner /\ strLt cursor (ak_Name k).

Definition listSpec (owner cursor : string) (limit : Z) (s s' : Registry) (r : Go akError keyPage) : Prop :=
  s' = s /\
  match r with
  | Ret p => exists all, keysAfter s owner cursor all /\ kp_Items p = take (Z.to_nat (pageLimit limit)) all /\
      kp_NextCursor p = if pageLimit limit <? Z.of_nat (length all) then default EmptyString (ak_Name <$> last (kp_Items p)) else EmptyString
  | Fail ErrInvalidOwner => ~ ownerOk owner
  | Fail ErrInvalidCursor => cursor <> EmptyString /\ ~ nameOk cursor
  | Fail (AKStore _) | Fail (AKLock _) => True
  | _ => False
  end.

Definition noKey (s : Registry) (owner name : string) : Prop := forall k, rg_keys s !! name = Some k -> ak_Owner k <> owner.

Definition getSpec (owner name : string) (s s' : Registry) (r : Go akError apiKey) : Prop :=
  s' = s /\
  match r with
  | Ret k => rg_keys s !! name = Some k /\ ak_Owner k = owner
  | Fail ErrKeyNotFound => noKey s owner name
  | Fail (AKStore _) => True
  | Panic => containsByte ":" name = true
  | _ => False
  end.

Definition revokeSpec (owner name : string) (s s' : Registry) (r : Go akError unit) : Prop :=
  match r with
  | Ret _ => ~ noKey s owner name /\ s' = MkRegistry (delete name (rg_keys s)) (rg_retired s)
  | Fail ErrKeyNotFound => s' = s /\ noKey s owner name
  | Fail (AKStore _) | Fail (AKLock _) => s' = s
  | Panic => s' = s /\ containsByte ":" name = true
  | _ => False
  end.

Definition retire (s : Registry) (owner : string) : Registry := MkRegistry (rg_keys s) ({[owner]} ∪ rg_retired s).

Definition cleanupSpec (owner : string) (s s' : Registry) (r : Go akError unit) : Prop :=
  match r with
  | Ret _ => ownerOk owner /\ s' = MkRegistry (filter (fun p => ak_Owner p.2 <> owner) (rg_keys s)) ({[owner]} ∪ rg_retired s)
  | Fail ErrInvalidOwner => s' = s /\ ~ ownerOk owner
  | Fail (AKLock _) => s' = s
  | Fail (AKStore _) => s' = s \/ s' = retire s owner
  | _ => False
  end.

(** A call by a principal, which needs the permission to manage keys. *)
Definition managed {A} (principal : Principal) (f : Registry -> Registry -> Go akError A -> Prop) (s s' : Registry) (r : Go akError A) : Prop :=
  if ak_ManageAPIKeys principal then f s s' r else s' = s /\ r = Fail ErrForbidden.

Definition answered {A B} (f : A -> B) (spec : Registry -> Registry -> Go akError A -> Prop) (s s' : Registry) (r : Go akError B) : Prop :=
  exists r0, r = mapGoR f r0 /\ spec s s' r0.

Definition akSpec (c : akCall) : Registry -> Registry -> Go akError akResult -> Prop :=
  match c with
  | CCreate _ _ owner displayName manage => answered RCreated (createSpec owner displayName manage)
  | CAuthenticate secret => answered RKey (authenticateSpec secret)
  | CListOwner _ owner cursor limit => answered RPage (listSpec owner cursor limit)
  | CList _ principal cursor limit => answered RPage (managed principal (listSpec (ak_Owner principal) cursor limit))
  | CGet principal name => answered RKey (managed principal (getSpec (ak_Owner principal) name))
  | CRevokeSelf _ principal => answered (fun _ => RUnit) (revokeSpec (ak_Owner principal) (ak_Name principal))
  | CRevoke _ principal name => answered (fun _ => RUnit) (managed principal (revokeSpec (ak_Owner principal) name))
  | CRevokeOwner _ owner name => answered (fun _ => RUnit) (fun s s' r =>
      match r with
      | Fail ErrInvalidOwner => s' = s /\ ~ ownerOk owner
      | Fail ErrInvalidName => s' = s /\ ~ nameOk name
      | Panic => False
      | _ => revokeSpec owner name s s' r
      end)
  | CCleanup _ owner => answered (fun _ => RUnit) (cleanupSpec owner)
  end.

(** The clock stays before the year 10000. *)
Definition akCallOk (c : akCall) : Prop := match c with CCreate _ now _ _ _ => forall i, timeOk (now i) | _ => True end.

(** * apikey: the three indexes of a key agree

    What is relied on of the JSON encoding of a key, the text of names, secrets and
    owners, and the invariant of the store: a key's record, the index of its secret and
    the set of its owner name the same keys, and owners stay within their limit.
    Issuing a key and dropping keys preserve it. *)

(** ** What is relied on of JSON *)
Definition keyText (k : apiKey) : Prop :=
  Forall (fun s => validUTF8 s = true) [ak_Name k; ak_DisplayName k; ak_Prefix k; ak_APIKey k; ak_Owner k] /\ timeOk (ak_CreatedAt k).

Class KeyCodecLaws `{KeyCodec} := {
  key_roundtrip k data : marshalKey k = Some data -> keyText k -> unmarshalKey data = Some k
}.

(** ** Text of names, secrets and owners *)
Lemma validToken_inv prefix digits size value :
  validToken prefix digits size value = true -> (3 * Z.of_nat digits < 4 * size + 3) ->
  exists t, value = prefix +:+ t /\ String.length t = digits /\ allBytes b64Safe t = true.
Proof.
  unfold validToken. intros HV HS. rewrite !andb_true_iff in HV. destruct HV as [[HL%Nat.eqb_eq HP] HD].
  apply hasPrefix_spec in HP as [t ->]. exists t. rewrite length_app_str in HL. rewrite dropStr_app in HD. split_and!; [done|lia|].
  destruct (b64Decode t) as [d|] eqn:E; [|done]. apply Z.eqb_eq in HD. unfold lenStr in HD. apply (b64Decode_exact t d E). lia.
Qed.

Lemma validToken_encode prefix data :
  validToken prefix ((4 * String.length data + 2) / 3) (lenStr data) (prefix +:+ b64Encode data) = true.
Proof.
  unfold validToken. rewrite length_app_str, b64Encode_length, Nat.eqb_refl, hasPrefix_app, dropStr_app, b64Decode_b64Encode. cbn. apply Z.eqb_refl.
Qed.

Lemma safe_clean t : allBytes b64Safe t = true -> containsByte ":" t = false.
Proof. intros HS. by apply (containsByte_allBytes _ b64Safe). Qed.

Lemma nameOk_clean s : nameOk s -> containsByte ":" s = false.
Proof. intros (t & -> & _ & HS)%validToken_inv; [|lia]. rewrite containsByte_app, (safe_clean t HS). done. Qed.
Lemma secretOk_clean s : secretOk s -> containsByte ":" s = false.
Proof. intros (t & -> & _ & HS)%validToken_inv; [|lia]. rewrite containsByte_app, (safe_clean t HS). done. Qed.

Lemma ownerOk_inv s : ownerOk s -> exists k, keyOk k /\ s = GizKey_String k.
Proof.
  unfold ownerOk, Key_validateOwner. destruct (Key_UnmarshalText (Some zeroKey) s) as [k|e|] eqn:E; [|done..].
  intros HC%check_Ret. apply orb_false_iff in HC as [_ HC%negb_false_iff%bool_decide_eq_true]. exists k. split; [|done].
  by apply decodeKeyText_inv in E as [? _].
Qed.

Lemma ownerOk_clean s : ownerOk s -> containsByte ":" s = false.
Proof.
  intros (k & [Hok _] & ->)%ownerOk_inv. apply (containsByte_allBytes _ (fun a => containsByte a btcAlphabet)); [done|]. apply base58_alphabet, Hok.
Qed.

Section keys.
Context {W : Type} {KO : KVOps W} {KL : KVLaws W} {SO : KVSetOps W} {SL : KVSetLaws W} {KC : KeyCodec} {KCL : KeyCodecLaws}.
Context (Hsep : sep kv_opts = ":"%char).
Implicit Types (M : gmap string aval) (k : apiKey).

Local Notation E := (encK kv_opts).

(** ** The keys of the store *)
Inductive akKey : Key -> Prop :=
  | key_record n : containsByte ":" n = false -> akKey (recordKey n)
  | key_secret s : secretOk s -> akKey (secretKey s)
  | key_owner o : ownerOk o -> akKey (ownerPrefix o)
  | key_retired o : ownerOk o -> akKey (retiredKey o).
#[local] Hint Constructors akKey : core.
#[local] Hint Resolve nameOk_clean : core.

Lemma akKey_clean x : akKey x -> cleanKey kv_opts x.
Proof.
  unfold cleanKey. rewrite Hsep. destruct 1 as [n Hn|s Hs|o Ho|o Ho]; unfold recordKey, secretKey, ownerPrefix, retiredKey;
    (constructor; [done|constructor; [|constructor]]); [done|by apply secretOk_clean|by apply ownerOk_clean..].
Qed.

Lemma akKey_inj x y : akKey x -> akKey y -> E x = E y -> x = y.
Proof. intros Hx Hy. apply encK_inj; [by apply akKey_clean..|by destruct Hx|by destruct Hy]. Qed.

Lemma akKey_ne x y : akKey x -> akKey y -> x <> y -> E x <> E y.
Proof. intros Hx Hy Hne EQ. by apply Hne, akKey_inj. Qed.

Ltac ak_ne := cbn [snd sm_Key]; apply akKey_ne; [by auto..|first [done|by auto|by intros [= ?]]].

(** ** Issued keys *)
Definition recVal M (x : Key) : option string := match M !! E x with Some (ARec v _) => Some v | _ => None end.
Definition keyAt M (name : string) : option apiKey := v ← recVal M (recordKey name); unmarshalKey v.
Definition members M (owner : string) : gset string := setOf M (E (ownerPrefix owner)).
Definition retired M (owner : string) : Prop := is_Some (M !! E (retiredKey owner)).

Definition issued M k : Prop := goodKey k /\ keyAt M (ak_Name k) = Some k.

Record AKInv M : Prop := {
  ai_record n : containsByte ":" n = false -> is_Some (M !! E (recordKey n)) -> exists k, issued M k /\ ak_Name k = n;
  ai_secret s : secretOk s -> is_Some (M !! E (secretKey s)) -> exists k, issued M k /\ ak_APIKey k = s;
  ai_index k : issued M k -> recVal M (secretKey (ak_APIKey k)) = Some (ak_Name k);
  ai_owner o n : ownerOk o -> n ∈ members M o <-> exists k, issued M k /\ ak_Name k = n /\ ak_Owner k = o;
  ai_limit o : ownerOk o -> Z.of_nat (size (members M o)) <= PeerAPIKeyLimit;
}.

Lemma issued_name M k1 k2 : issued M k1 -> issued M k2 -> ak_Name k1 = ak_Name k2 -> k1 = k2.
Proof. intros [_ H1] [_ H2] EQ. rewrite EQ in H1. congruence. Qed.

Lemma issued_secret M k1 k2 : AKInv M -> issued M k1 -> issued M k2 -> ak_APIKey k1 = ak_APIKey k2 -> k1 = k2.
Proof.
  intros HI H1 H2 EQ. pose proof (ai_index M HI k1 H1) as I1. pose proof (ai_index M HI k2 H2) as I2. rewrite EQ in I1.
  apply (issued_name M); [done..|congruence].
Qed.

Lemma recVal_Some M x v : recVal M x = Some v -> is_Some (M !! E x).
Proof. unfold recVal. destruct (M !! E x); [done|done]. Qed.

Lemma issued_Some M k : issued M k -> is_Some (M !! E (recordKey (ak_Name k))).
Proof. intros [_ (v & Hv & _)%bind_Some]. by eapply recVal_Some. Qed.

Lemma keyAt_ext M M' n : M' !! E (recordKey n) = M !! E (recordKey n) -> keyAt M' n = keyAt M n.
Proof. unfold keyAt, recVal. by intros ->. Qed.

Lemma empty_inv : AKInv ∅.
Proof.
  assert (forall k, ~ issued ∅ k) as Hno. { intros k (? & HS)%issued_Some. by rewrite lookup_empty in HS. }
  split.
  - intros n _ [? HS]. by rewrite lookup_empty in HS.
  - intros s _ [? HS]. by rewrite lookup_empty in HS.
  - intros k Hk. by destruct (Hno k).
  - intros o n _. unfold members, setOf. rewrite lookup_empty. split; [set_solver|]. intros (k & Hk & _). by destruct (Hno k).
  - intros o _. unfold members, setOf. rewrite lookup_empty, size_empty. done.
Qed.

(** Two stores that agree on a family of keys. *)
Lemma issued_ext M M' k : M' !! E (recordKey (ak_Name k)) = M !! E (recordKey (ak_Name k)) -> issued M' k <-> issued M k.
Proof. intros EQ. unfold issued. by rewrite (keyAt_ext M M'). Qed.

(** ** Issuing a key *)
Lemma create_effect M item data x :
  goodKey item -> akKey x ->
  specMutation kv_opts (keyMutation item data) M !! E x =
    if decide (x = recordKey (ak_Name item)) then Some (ARec data 0)
    else if decide (x = secretKey (ak_APIKey item)) then Some (ARec (ak_Name item) 0)
    else if decide (x = ownerPrefix (ak_Owner item)) then Some (ASet false ({[ak_Name item]} ∪ members M (ak_Owner item)))
    else M !! E x.
Proof.
  intros (Hn & Hs & Ho) Hx. unfold specMutation, keyMutation, phases. cbn [mut_Entries mut_DeleteKeys mut_AddMembers mut_RemoveMembers mut_AddOrderedMembers mut_RemoveOrderedMembers fmap list_fmap app foldl entry_Key entry_Value entry_Deadline].
  set (M1 := <[E (secretKey (ak_APIKey item)) := _]> _).
  assert (setOf M1 (E (ownerPrefix (ak_Owner item))) = members M (ak_Owner item)) as HM1.
  { unfold members, setOf, M1. rewrite !lookup_insert_ne; [done|ak_ne..]. }
  destruct (decide (x = ownerPrefix (ak_Owner item))) as [->|Hno].
  - rewrite !decide_False by done. unfold specGroup. cbn [fst snd sm_Members sm_Key]. rewrite bool_decide_eq_false_2 by done.
    cbn zeta. rewrite HM1. cbn [phaseAdds Nat.even list_to_set]. rewrite union_empty_r_L, bool_decide_eq_false_2 by set_solver. apply lookup_insert_eq.
  - rewrite specGroup_other by ak_ne. unfold M1.
    destruct (decide (x = recordKey (ak_Name item))) as [->|H1].
    + rewrite lookup_insert_ne by ak_ne. apply lookup_insert_eq.
    + destruct (decide (x = secretKey (ak_APIKey item))) as [->|H2]; [apply lookup_insert_eq|]. by rewrite !lookup_insert_ne by ak_ne.
Qed.

Lemma issue_inv M item data :
  AKInv M -> goodKey item -> unmarshalKey data = Some item ->
  M !! E (recordKey (ak_Name item)) = None -> M !! E (secretKey (ak_APIKey item)) = None ->
  Z.of_nat (size ({[ak_Name item]} ∪ members M (ak_Owner item))) <= PeerAPIKeyLimit ->
  let M' := specMutation kv_opts (keyMutation item data) M in
  AKInv M' /\ (forall k, issued M' k <-> issued M k \/ k = item).
Proof.
  intros HI Hg Hun Hrec Hsec Hlim M'. pose proof Hg as (Hn & Hs & Ho).
  pose proof (fun x => create_effect M item data x Hg) as Heff. fold M' in Heff.
  assert (forall k, issued M' k <-> issued M k \/ k = item) as Hiss.
  { intros k. destruct (decide (ak_Name k = ak_Name item)) as [EQ|Hne].
    - split.
      + intros [Hk Hat]. right. unfold keyAt, recVal in Hat. rewrite EQ, Heff in Hat by auto. rewrite decide_True in Hat by done. cbn in Hat. congruence.
      + intros [Hk| ->].
        * apply issued_Some in Hk as [? Hk]. rewrite EQ in Hk. congruence.
        * split; [done|]. unfold keyAt, recVal. rewrite Heff by auto. by rewrite decide_True.
    - split; [intros [Hk Hat]; left|intros [[Hk Hat]| ->]; [|done]]; split; try done; revert Hat; unfold keyAt, recVal;
        (rewrite Heff by (destruct Hk; auto)); rewrite !decide_False by (try done; by intros [= ?]); done. }
  split; [|done]. split.
  - intros n Hn'. rewrite Heff by auto. setoid_rewrite Hiss. destruct (decide (n = ak_Name item)) as [->|Hne]; [intros _; exists item; auto|].
    rewrite !decide_False by (by intros [= ?]). intros HS. destruct (ai_record M HI n Hn' HS) as (k & Hk & <-). eauto.
  - intros s Hs'. rewrite Heff by auto. setoid_rewrite Hiss. destruct (decide (s = ak_APIKey item)) as [->|Hne]; [intros _; exists item; auto|].
    rewrite !decide_False by (by intros [= ?]). intros HS. destruct (ai_secret M HI s Hs' HS) as (k & Hk & <-). eauto.
  - intros k [Hk| ->]%Hiss; unfold recVal; rewrite Heff by (auto; by destruct Hk as [(? & ? & ?) _]; auto).
    + pose proof (ai_index M HI k Hk) as Hix. rewrite !decide_False; [exact Hix|done| |done].
      intros [= EQ]. apply recVal_Some in Hix as [? Hix]. rewrite EQ in Hix. congruence.
    + rewrite decide_False, decide_True by done. done.
  - intros o n Ho'. unfold members, setOf. rewrite Heff by auto. setoid_rewrite Hiss. rewrite (decide_False (P := ownerPrefix o = recordKey _)), (decide_False (P := ownerPrefix o = secretKey _)) by done.
    destruct (decide (ownerPrefix o = ownerPrefix (ak_Owner item))) as [[= ->]|Hne].
    + rewrite elem_of_union, elem_of_singleton. rewrite (ai_owner M HI (ak_Owner item) n Ho). split.
      * intros [->|(k & Hk & HH)]; [exists item; auto|exists k; auto].
      * intros (k & [Hk| ->] & <- & EQ); [right; eauto|by left].
    + fold (setOf M (E (ownerPrefix o))). fold (members M o). rewrite (ai_owner M HI o n Ho'). split; [intros (k & Hk & HH); eauto|].
      intros (k & [Hk| ->] & HN & <-); [eauto|done].
  - intros o Ho'. unfold members, setOf. rewrite Heff by auto. rewrite !decide_False by done.
    destruct (decide (ownerPrefix o = ownerPrefix (ak_Owner item))) as [[= ->]|Hne]; [done|]. by apply (ai_limit M HI).
Qed.

(** ** Dropping keys *)
Definition keysOf (ks : list apiKey) : list Key := k ← ks; [recordKey (ak_Name k); secretKey (ak_APIKey k)].

Lemma keysOf_snoc ks k : keysOf (ks ++ [k]) = keysOf ks ++ [recordKey (ak_Name k); secretKey (ak_APIKey k)].
Proof. unfold keysOf. rewrite bind_app. done. Qed.

Lemma elem_of_keysOf ks x : x ∈ keysOf ks <-> exists k, k ∈ ks /\ (x = recordKey (ak_Name k) \/ x = secretKey (ak_APIKey k)).
Proof.
  unfold keysOf. rewrite list_elem_of_bind. setoid_rewrite elem_of_cons. setoid_rewrite list_elem_of_singleton. naive_solver.
Qed.

Lemma drop_effect M owner ks names x :
  ownerOk owner -> Forall goodKey ks -> akKey x -> x <> ownerPrefix owner ->
  specMutation kv_opts (cleanupMutation owner (keysOf ks) names) M !! E x = if decide (x ∈ keysOf ks) then None else M !! E x.
Proof.
  intros Ho Hks Hx Hne. unfold specMutation, cleanupMutation, phases. cbn [mut_Entries mut_DeleteKeys mut_AddMembers mut_RemoveMembers mut_AddOrderedMembers mut_RemoveOrderedMembers fmap list_fmap app foldl].
  rewrite specGroup_other by ak_ne. rewrite deletes_lookup. case_bool_decide as H1; case_decide as H2; try done.
  - apply list_elem_of_fmap in H1 as (y & EQ & Hy). destruct H2. apply akKey_inj in EQ as ->; [done|done|].
    apply elem_of_keysOf in Hy as (k & Hk & Hy). rewrite Forall_forall in Hks. destruct (Hks k Hk) as (? & ? & ?). destruct Hy as [->| ->]; auto.
  - destruct H1. by apply list_elem_of_fmap_2.
Qed.

Lemma drop_members M owner ks names o :
  ownerOk owner -> ownerOk o -> Forall goodKey ks ->
  members (specMutation kv_opts (cleanupMutation owner (keysOf ks) names) M) o =
    if decide (o = owner) then members M o ∖ list_to_set names else members M o.
Proof.
  intros Ho Ho' Hks. case_decide as EQ.
  - subst o. unfold members, specMutation, cleanupMutation, phases. cbn [mut_Entries mut_DeleteKeys mut_AddMembers mut_RemoveMembers mut_AddOrderedMembers mut_RemoveOrderedMembers fmap list_fmap app foldl].
    rewrite setOf_specGroup. cbn [fst snd sm_Key sm_Members phaseAdds Nat.even]. rewrite bool_decide_eq_true_2 by done. f_equal. apply setOf_ext.
    rewrite deletes_lookup, bool_decide_eq_false_2; [done|]. intros (y & HE & Hy)%list_elem_of_fmap. revert HE.
    apply elem_of_keysOf in Hy as (k & Hk & Hy). rewrite Forall_forall in Hks. destruct (Hks k Hk) as (? & ? & ?). destruct Hy as [->| ->]; ak_ne.
  - unfold members. apply setOf_ext. rewrite drop_effect by (auto; by intros [= ?]). rewrite decide_False; [done|].
    intros (k & _ & [?|?])%elem_of_keysOf; done.
Qed.

Lemma drop_inv M owner ks names :
  AKInv M -> ownerOk owner -> Forall (fun k => issued M k /\ ak_Owner k = owner) ks -> (forall n, n ∈ names <-> n ∈ ak_Name <$> ks) ->
  let M' := specMutation kv_opts (cleanupMutation owner (keysOf ks) names) M in
  AKInv M' /\ (forall k, issued M' k <-> issued M k /\ k ∉ ks) /\ (forall o, ownerOk o -> M' !! E (retiredKey o) = M !! E (retiredKey o)).
Proof.
  intros HI Ho Hks Hnames M'. assert (Forall goodKey ks) as Hgood by (eapply Forall_impl; [exact Hks|]; by intros k [[? _] _]).
  pose proof (fun x => drop_effect M owner ks names x Ho Hgood) as Heff. fold M' in Heff.
  pose proof (fun o => drop_members M owner ks names o Ho) as Hmem. fold M' in Hmem. rewrite Forall_forall in Hks.
  assert (forall k, issued M k -> k ∉ ks -> recordKey (ak_Name k) ∉ keysOf ks) as Hkeep.
  { intros k Hk Hn (k' & Hk' & [[= EQ]|EQ])%elem_of_keysOf; [|done]. destruct (Hks k' Hk') as [Hi _]. apply Hn. by rewrite (issued_name M k k'). }
  assert (forall k, issued M k -> k ∉ ks -> secretKey (ak_APIKey k) ∉ keysOf ks) as Hkeep'.
  { intros k Hk Hn (k' & Hk' & [EQ|[= EQ]])%elem_of_keysOf; [done|]. destruct (Hks k' Hk') as [Hi _]. apply Hn. by rewrite (issued_secret M k k'). }
  assert (forall k, issued M' k <-> issued M k /\ k ∉ ks) as Hiss.
  { intros k. split.
    - intros Hk. pose proof Hk as [(Hn & _) _]. pose proof (issued_Some M' k Hk) as [a Ha]. rewrite Heff in Ha by (auto; done).
      case_decide as HK; [done|]. split; [|intros Hin; apply HK, elem_of_keysOf; eauto]. apply (issued_ext M M'); [|done].
      rewrite Heff by (auto; done). by rewrite decide_False.
    - intros [Hk Hn]. pose proof Hk as [(Hn' & _) _]. apply (issued_ext M M'); [|done]. rewrite Heff by (auto; done). by rewrite decide_False by auto. }
  split; [|split; [done|]]. 1: split.
  - intros n Hn. rewrite Heff by (auto; done). case_decide as HK; [by intros []|]. intros (k & Hk & <-)%(ai_record M HI n Hn).
    exists k. split; [|done]. apply Hiss. split; [done|]. intros Hin. apply HK, elem_of_keysOf. eauto.
  - intros s Hs. rewrite Heff by (auto; done). case_decide as HK; [by intros []|]. intros (k & Hk & <-)%(ai_secret M HI s Hs).
    exists k. split; [|done]. apply Hiss. split; [done|]. intros Hin. apply HK, elem_of_keysOf. eauto.
  - intros k [Hk Hn]%Hiss. pose proof Hk as [(_ & Hs & _) _]. unfold recVal. rewrite Heff by (auto; done). rewrite decide_False by auto. by apply (ai_index M HI).
  - intros o n Ho'. rewrite Hmem by done. setoid_rewrite Hiss. case_decide as EQ.
    + subst o. rewrite elem_of_difference, elem_of_list_to_set, Hnames, (ai_owner M HI owner n Ho). split.
      * intros [(k & Hk & <- & HO) Hn]. exists k. split_and!; try done. intros Hin. by apply Hn, list_elem_of_fmap_2.
      * intros (k & [Hk Hn] & <- & HO). split; [eauto|]. intros (k' & EQ & Hk')%list_elem_of_fmap. apply Hn.
        destruct (Hks k' Hk') as [Hi _]. by rewrite (issued_name M k k').
    + rewrite (ai_owner M HI o n Ho'). split; [|naive_solver]. intros (k & Hk & <- & HO). exists k. split_and!; try done.
      intros Hin. destruct (Hks k Hin) as [_ HO']. congruence.
  - intros o Ho'. rewrite Hmem by done. pose proof (ai_limit M HI o Ho'). case_decide; [|done].
    assert (size (members M o ∖ list_to_set names) <= size (members M o))%nat by (apply subseteq_size; set_solver). lia.
  - intros o Ho'. rewrite Heff by (auto; done). rewrite decide_False; [done|]. intros (k & _ & [?|?])%elem_of_keysOf; done.
Qed.

End keys.
