(* ===== verification/ApiKeyOps.v ===== *)
(** * apikey: every call does what its specification allows

    A simulation for each operation of [ApiKey] on a store that keeps the promises of
    [KVLaws] and [KVSetLaws]: from contents that represent a registry, the call leaves
    contents that represent a registry its specification allows, with an answer it
    allows.  [runCall_sim] collects them. *)

From stdpp Require Import gmap strings list.
From S2P Require Import Prelude Triple GoStrings GoText GoBytes Encoding EncodingProps GizKeys KVKey KVMemory KVSpec KVProps KVIface KVSets PDCodec ApiKey ApiKeyInv.

Open Scope Z_scope.

(** ** Text of a fresh key *)
Lemma validUTF8_ascii_app s t : asciiOnly s = true -> validUTF8 (s +:+ t) = validUTF8 t.
Proof.
  unfold asciiOnly, validUTF8. induction s as [|a s IH]; [done|]. rewrite app_cons_str. cbn [allBytes runes].
  intros [Ha Hs]%andb_true_iff. rewrite Ha. cbn. auto.
Qed.

Lemma asciiOnly_app s t : asciiOnly s = true -> asciiOnly t = true -> asciiOnly (s +:+ t) = true.
Proof. unfold asciiOnly. rewrite allBytes_app. by intros -> ->. Qed.

Lemma asciiOnly_b64 s : allBytes b64Safe s = true -> asciiOnly s = true.
Proof. apply allBytes_impl. intros a. byte_cases a; done. Qed.

Lemma allBytes_takeStr p n s : allBytes p s = true -> allBytes p (takeStr n s) = true.
Proof. revert s. induction n as [|n IH]; intros [|a s]; try done. cbn. intros [-> Hs]%andb_true_iff. by rewrite IH. Qed.

Lemma ownerOk_ascii s : ownerOk s -> asciiOnly s = true.
Proof.
  intros (k & [Hok _] & ->)%ownerOk_inv. eapply allBytes_impl; [|apply base58_alphabet, Hok]. intros a. byte_cases a; done.
Qed.

Lemma ownerOk_nonempty s : ownerOk s -> s <> EmptyString.
Proof. intros (k & Hok & ->)%ownerOk_inv. by apply key_text_nonempty. Qed.

Section ops.
Context {W : Type} {KO : KVOps W} {KL : KVLaws W} {SO : KVSetOps W} {SL : KVSetLaws W} {KC : KeyCodec} {KCL : KeyCodecLaws}.
Context (Hsep : sep kv_opts = ":"%char).
Implicit Types (M : gmap string aval) (k : apiKey) (w : W * Reader).

Local Notation E := (encK kv_opts).
Local Notation okW := (fun w : W * Reader => kv_ok w.1).
Local Notation dbW := (fun w : W * Reader => kv_db w.1).
Local Notation aspec := (spec (E := akError) okW dbW).
Local Notation atriple := (gtriple (E := akError) okW dbW).

#[local] Arguments encK : simpl never.

(** ** Calls on the store *)
Lemma kvL_spec {A} P (m : ST W kvError A) (R : gmap string aval -> Go kvError A -> Prop) :
  (forall s s' r, kv_ok s -> m s = (s', r) -> kv_ok s' /\ kv_db s' = kv_db s /\ R (kv_db s) r) ->
  aspec P (kvL m) (fun M r => match r with Ret a => R M (Ret a) | Fail e => exists e', e = AKStore e' /\ R M (Fail e') | Panic => R M Panic end).
Proof.
  intros Hm [s rd] w' r Hok HP. unfold kvL. cbn. destruct (m s) as [s1 r1] eqn:E1. intros [= <- <-]. cbn.
  destruct (Hm s s1 r1 Hok E1) as (H1 & H2 & H3). split_and!; [done..|]. destruct r1; eauto.
Qed.

Definition gotRecord M (x : Key) (r : Go akError (option string)) : Prop :=
  match r with
  | Ret (Some v) => cleanKey kv_opts x /\ recVal M x = Some v
  | Ret None => cleanKey kv_opts x /\ M !! E x = None
  | Fail e => exists e', e = AKStore e'
  | Panic => ~ cleanKey kv_opts x
  end.

Lemma getOptional_spec P x : aspec P (getOptional x) (fun M r => gotRecord M x r).
Proof.
  intros [s rd] w' r Hok HP. cbn in Hok. unfold getOptional, tryST, kvL, mbind, ST_bind. cbn. destruct (kvGet x s) as [s1 r1] eqn:E1.
  pose proof (kvGet_law s x s1 r1 Hok E1) as (H1 & H2 & H3). pose proof (kvGet_clean s x s1 r1 Hok E1) as HC.
  assert (forall r', gotRecord (kv_db s) x r' -> kv_ok (s1, rd).1 /\ kv_db (s1, rd).1 = kv_db (s, rd).1 /\ gotRecord (kv_db (s, rd).1) x r') as HR by done.
  destruct r1 as [v|e|].
  - intros [= <- <-]. apply HR. destruct H3 as [d H3]. split; [by eauto|]. unfold recVal. by rewrite H3.
  - destruct e; intros [= <- <-]; apply HR; [|by eexists..]. split; [by eauto|done].
  - intros [= <- <-]. by apply HR.
Qed.

Lemma clean_record n : cleanKey kv_opts (recordKey n) <-> containsByte ":" n = false.
Proof. unfold cleanKey, recordKey. rewrite Hsep, !Forall_cons. naive_solver. Qed.

(** What [load] finds. *)
Definition loaded M (n : string) (r : Go akError apiKey) : Prop :=
  match r with
  | Ret k => issued M k /\ ak_Name k = n
  | Fail ErrKeyNotFound => M !! E (recordKey n) = None
  | Fail e => exists e', e = AKStore e'
  | Panic => containsByte ":" n = true
  end.

Lemma load_spec n : aspec AKInv (load n) (fun M r => loaded M n r).
Proof.
  unfold load. eapply spec_bind; [apply getOptional_spec|..].
  - cbn. intros [data|]; [|apply spec_fail; by intros M (_ & _ & ?)].
    apply gtriple_fact with (F := containsByte ":" n = false); [by intros M (_ & ?%clean_record & _)|intros Hn].
    assert (forall M, AKInv M /\ cleanKey kv_opts (recordKey n) /\ recVal M (recordKey n) = Some data ->
      exists k, issued M k /\ ak_Name k = n /\ unmarshalKey data = Some k) as Hk.
    { intros M (HI & _ & HR). destruct (ai_record M HI n Hn) as (k & Hk & <-); [by eapply recVal_Some|]. exists k. split_and!; [done..|].
      destruct Hk as [_ Hat]. unfold keyAt in Hat. by rewrite HR in Hat. }
    destruct (unmarshalKey data) as [item|] eqn:Hu.
    + eapply spec_bind; [apply (spec_check _ _ _ _ _ (fun M r => match r with Ret _ => issued M item /\ ak_Name item = n | _ => False end))|..].
      * intros M (k & Hi & HN & [= ->])%Hk _. done.
      * intros M (k & Hi & HN & [= ->])%Hk HB. destruct Hi as [(_ & Hs & Ho) _]. rewrite !orb_true_iff in HB.
        destruct HB as [[HB%negb_true_iff%bool_decide_eq_false|HB%bool_decide_eq_true]|HB%negb_true_iff]; [done|by apply ownerOk_nonempty in Ho|].
        unfold secretOk in Hs. congruence.
      * intros []. apply spec_ret. by intros M [_ ?].
      * done.
      * done.
    + apply spec_fail. by intros M (k & _ & _ & ?)%Hk.
  - cbn. intros M e _ [e' ->]. eauto.
  - intros M _ HC. unfold gotRecord in HC. rewrite clean_record in HC. unfold loaded. by destruct (containsByte ":" n).
Qed.
(** ** The store and the registry *)
Record reps M (s : Registry) : Prop := {
  rp_inv : AKInv M;
  rp_keys n k : rg_keys s !! n = Some k <-> issued M k /\ ak_Name k = n;
  rp_retired o : ownerOk o -> o ∈ rg_retired s <-> retired M o
}.

Lemma reps_empty : reps ∅ emptyRegistry.
Proof.
  split; [by apply empty_inv| |].
  - intros n k. cbn. rewrite lookup_empty. split; [done|]. intros [(? & HS)%issued_Some _]. by rewrite lookup_empty in HS.
  - intros o _. cbn. unfold retired. rewrite lookup_empty. split; [set_solver|by intros []].
Qed.

Lemma members_ownerKeys M s o : reps M s -> ownerOk o -> members M o = dom (ownerKeys s o).
Proof.
  intros [HI HK _] Ho. apply set_eq. intros n. rewrite (ai_owner M HI o n Ho), elem_of_dom. unfold ownerKeys, is_Some.
  setoid_rewrite map_lookup_filter_Some. cbn. setoid_rewrite HK. naive_solver.
Qed.

Lemma size_ownerKeys M s o : reps M s -> ownerOk o -> size (ownerKeys s o) = size (members M o).
Proof. intros HR Ho. by rewrite (members_ownerKeys M s o HR Ho), size_dom. Qed.

Lemma no_record M s n : reps M s -> containsByte ":" n = false -> M !! E (recordKey n) = None <-> rg_keys s !! n = None.
Proof.
  intros [HI HK _] Hn. rewrite !eq_None_not_Some. split; intros Hno HS; apply Hno.
  - destruct HS as [k (Hk & <-)%HK]. by apply issued_Some.
  - destruct (ai_record M HI n Hn HS) as (k & Hk & HN). exists k. by apply HK.
Qed.

(** A call does what its specification allows. *)
Definition sim {A} (m : ST (W * Reader) akError A) (f : Registry -> Registry -> Go akError A -> Prop) : Prop :=
  forall s, atriple (fun M => reps M s) m (fun _ M' r => exists s', f s s' r /\ reps M' s').

Lemma sim_read {A} (m : ST (W * Reader) akError A) f :
  (forall s, aspec (fun M => reps M s) m (fun M r => f s s r)) -> sim m f.
Proof. intros Hm s. eapply gtriple_weaken; [apply (Hm s)|done|]. cbn. intros M M' r HR [-> Hf]. eauto. Qed.

Lemma load_reps s n :
  aspec (fun M => reps M s) (load n) (fun _ r =>
    match r with
    | Ret k => rg_keys s !! n = Some k
    | Fail ErrKeyNotFound => rg_keys s !! n = None
    | Fail e => exists e', e = AKStore e'
    | Panic => containsByte ":" n = true
    end).
Proof.
  eapply spec_weaken; [apply load_spec|intros M HR; apply HR|]. intros M [k|e|] HR HL; unfold loaded in HL; [by apply HR| |done].
  destruct e; try done. destruct (rg_keys s !! n) as [k|] eqn:Hk; [|done]. apply HR in Hk as [(? & HS)%issued_Some <-]. by rewrite HL in HS.
Qed.

(** ** Reading *)
Lemma Authenticate_sim secret : sim (Authenticate true secret) (authenticateSpec secret).
Proof.
  apply sim_read. intros s. unfold Authenticate. cbn [negb orb].
  assert (forall k n, rg_keys s !! n = Some k -> (exists M, reps M s) -> secretOk (ak_APIKey k)) as Hgood.
  { intros k n Hk (M & HR). destruct (proj1 (rp_keys M s HR n k) Hk) as [[Hgood _] _]. apply Hgood. }
  eapply spec_bind; [apply (spec_check _ _ _ _ _ (fun M r => match r with Ret _ => secretOk secret | Fail e => e = ErrInvalidAPIKey /\ ~ secretOk secret | Panic => False end))|..].
  { intros M _ HB. by apply negb_false_iff in HB. }
  { intros M _ HB. split; [done|]. unfold secretOk. by rewrite (negb_true_iff _) in HB; rewrite HB. }
  2:{ cbn. intros M e HR [-> HN]. split; [done|]. intros n k Hk <-. apply HN. eauto. }
  2:{ done. }
  intros []. eapply spec_bind; [apply getOptional_spec|..].
  2:{ cbn. intros M e _ [e' ->]. done. }
  2:{ cbn. intros M [_ Hs] HC. destruct HC. by apply (akKey_clean Hsep), key_secret. }
  intros [name|].
  2:{ apply spec_fail. cbn. intros M ((HR & _) & _ & HN). split; [done|]. intros n k [Hk <-]%HR <-.
      apply (ai_index M (rp_inv M s HR)), recVal_Some in Hk as [? Hk]. congruence. }
  apply gtriple_fact with (F := exists k, rg_keys s !! name = Some k /\ ak_APIKey k = secret /\ ak_Name k = name).
  { intros M ((HR & Hs) & _ & HV). destruct (ai_secret M (rp_inv M s HR) secret Hs) as (k & Hk & HK); [by eapply recVal_Some|].
    pose proof (ai_index M (rp_inv M s HR) k Hk) as Hix. cbn in HV. rewrite HK, HV in Hix. injection Hix as ->. exists k. split_and!; [|done..]. by apply HR. }
  intros (k & Hk & HK & HN). eapply spec_bind; [apply spec_try; eapply spec_weaken; [apply (load_reps s name)|by intros M ((? & _) & _)|done]|..]; cbn.
  2:{ done. }
  2:{ intros M ((HR & _) & _) Hc. apply HR in Hk as [[(Hok & _) _] <-]. apply nameOk_clean in Hok. congruence. }
  intros [e|item].
  - destruct e; try (apply spec_fail; cbn; by intros M (_ & e' & ?)); apply spec_fail; cbn; intros M (_ & ?); congruence.
  - eapply spec_bind; [apply (spec_check _ _ _ _ _ (fun M r => match r with Ret _ => item = k | _ => False end))|..]; cbn; [| | |done|done].
    + intros M [_ Hi] _. congruence.
    + intros M [_ Hi] HB%negb_true_iff%bool_decide_eq_false. congruence.
    + intros []. apply spec_ret. intros M [_ ->]. split; [done|]. split; [by rewrite HN|done].
Qed.

(** ** Guards *)
Lemma sim_guard {A} bad e (m : ST (W * Reader) akError A) f :
  (bad = true -> forall s, f s s (Fail e)) -> (bad = false -> sim m f) -> sim (checkST bad e ≫= fun _ => m) f.
Proof.
  intros Hb Hm. destruct bad; [|by apply Hm]. intros s w w' r Hok HR [= <- <-]. split; [done|]. exists s. auto.
Qed.

Lemma sim_lift {A B} (g : Go akError B) (m : B -> ST (W * Reader) akError A) f :
  (forall e, g = Fail e -> forall s, f s s (Fail e)) -> g <> Panic -> (forall b, g = Ret b -> sim (m b) f) -> sim (lift g ≫= m) f.
Proof.
  intros Hg Hp Hm. destruct g as [b|e|]; [by apply Hm| |done]. intros s w w' r Hok HR [= <- <-]. split; [done|]. exists s. auto.
Qed.

Lemma sim_acquire {A} lock (m : ST (W * Reader) akError A) f :
  (forall e s, f s s (Fail (AKLock e))) -> sim m f -> sim (acquireOwner lock ≫= fun _ => m) f.
Proof.
  intros Hl Hm. destruct lock as [e|]; [|done]. intros s w w' r Hok HR [= <- <-]. split; [done|]. exists s. auto.
Qed.

Lemma Key_validateOwner_total owner : Key_validateOwner owner <> Panic /\ forall e, Key_validateOwner owner = Fail e -> e = ErrInvalidOwner.
Proof.
  unfold Key_validateOwner, Key_UnmarshalText. destruct (decodeKeyText owner) eqn:Hd; cbn; [destruct (_ || _); cbn; naive_solver|naive_solver|].
  by apply decodeKeyText_total in Hd.
Qed.

Lemma sim_owner {A} owner (m : ST (W * Reader) akError A) f :
  (~ ownerOk owner -> forall s, f s s (Fail ErrInvalidOwner)) -> (ownerOk owner -> sim m f) -> sim (lift (Key_validateOwner owner) ≫= fun _ => m) f.
Proof.
  intros Hno Hm. destruct (Key_validateOwner_total owner) as [Hp He]. apply sim_lift; [|done|intros []; by apply Hm].
  intros e HF. rewrite (He e HF). apply Hno. unfold ownerOk. by rewrite HF.
Qed.

Lemma Get_sim principal name : sim (Key_Get true principal name) (managed principal (getSpec (ak_Owner principal) name)).
Proof.
  unfold Key_Get, managed. apply sim_guard; intros HB; [apply negb_true_iff in HB|apply negb_false_iff in HB]; rewrite HB; [done|].
  apply sim_read. intros s. eapply spec_bind; [by apply (spec_ret _ _ _ tt (fun _ r => r = Ret tt))| |done|done]. intros [].
  eapply spec_bind; [eapply spec_weaken; [apply load_reps|by intros M [? _]|done]|..]; cbn.
  - intros item. eapply spec_bind; [apply (spec_check _ _ _ _ _ (fun M r => match r with Ret _ => ak_Owner item = ak_Owner principal | Fail e => e = ErrKeyNotFound /\ ak_Owner item <> ak_Owner principal | Panic => False end))|..]; cbn.
    + by intros M _ HC%negb_false_iff%bool_decide_eq_true.
    + by intros M _ HC%negb_true_iff%bool_decide_eq_false.
    + intros []. apply spec_ret. intros M ((_ & ?) & ?). by split_and!.
    + intros M e (_ & Hi) [-> HO]. split; [done|]. intros k. rewrite Hi. by intros [= <-].
    + done.
  - intros M e _ HL. split; [done|]. destruct e; try done; try (by destruct HL as [? ?]). intros k. by rewrite HL.
  - done.
Qed.

(** ** Writing *)
Lemma apply_triple P mu :
  atriple P (kvL (kvApply mu)) (fun M M' r =>
    match r with
    | Ret true => Forall (specCondition kv_opts M) (mut_Conditions mu) /\ withinLimits kv_opts mu M /\ M' = specMutation kv_opts mu M
    | Ret false => M' = M /\ ~ Forall (specCondition kv_opts M) (mut_Conditions mu)
    | Fail e => M' = M /\ exists e', e = AKStore e' /\ (e' = ErrMemberLimit -> ~ withinLimits kv_opts mu M)
    | Panic => M' = M /\ ~ Forall (cleanKey kv_opts) (namedKeys mu)
    end).
Proof.
  intros [st rd] w' r Hok HP. unfold kvL. cbn in *. destruct (kvApply mu st) as [st1 r1] eqn:E1. intros [= <- <-]. cbn.
  destruct (kvApply_law st mu st1 r1 Hok E1) as [H1 H2]. destruct (kvApply_limit st mu st1 r1 Hok E1) as (L1 & L2 & L3).
  split; [done|]. destruct r1 as [[]|e|].
  - destruct H2 as (? & _ & ?). auto.
  - by destruct H2.
  - split; [done|]. exists e. split; [done|]. intros ->. by apply L2.
  - split; [done|]. by apply L3.
Qed.

Lemma gtriple_unit {A} P (m : ST (W * Reader) akError A) Q :
  atriple P m (fun M M' r => Q M M' (mapGoR (fun _ => tt) r)) -> atriple P (m ≫= fun _ => mret tt) Q.
Proof.
  intros Hm w w' r Hok HP. unfold mbind, ST_bind. destruct (m w) as [w1 r1] eqn:E1. destruct (Hm w w1 r1 Hok HP E1) as [H1 H2].
  destruct r1; intros [= <- <-]; by split.
Qed.

Lemma drop_reps M s owner ks names :
  reps M s -> ownerOk owner -> Forall (fun k => rg_keys s !! ak_Name k = Some k /\ ak_Owner k = owner) ks ->
  (forall n, n ∈ names <-> n ∈ ak_Name <$> ks) ->
  reps (specMutation kv_opts (cleanupMutation owner (keysOf ks) names) M)
       (MkRegistry (filter (fun p => p.2 ∉ ks) (rg_keys s)) (rg_retired s)).
Proof.
  intros [HI HK HR] Ho Hks Hnames. destruct (drop_inv Hsep M owner ks names HI Ho) as (HI' & Hiss & Hret); [|done|].
  { eapply Forall_impl; [exact Hks|]. intros k [[Hk _]%HK HO]. by split. }
  split; [done| |].
  - intros n k. cbn. rewrite map_lookup_filter_Some, Hiss, HK. naive_solver.
  - intros o Ho'. cbn. rewrite HR by done. unfold retired. by rewrite Hret.
Qed.

Lemma drop_clean s M owner ks names :
  reps M s -> ownerOk owner -> Forall (fun k => rg_keys s !! ak_Name k = Some k /\ ak_Owner k = owner) ks ->
  Forall (cleanKey kv_opts) (namedKeys (cleanupMutation owner (keysOf ks) names)).
Proof.
  intros HR Ho Hks. unfold namedKeys, cleanupMutation, phases. cbn. rewrite Forall_app. split; [|apply Forall_singleton; by apply (akKey_clean Hsep), key_owner].
  apply Forall_forall. intros x (k & Hk & Hx)%elem_of_keysOf. rewrite Forall_forall in Hks. destruct (Hks k Hk) as [[Hi _]%HR _].
  destruct Hi as [(Hn & Hs & _) _]. apply (akKey_clean Hsep). destruct Hx as [->| ->]; constructor; [by apply nameOk_clean|done].
Qed.

Lemma revoke_sim lock owner name : sim (revoke true lock owner name) (revokeSpec owner name).
Proof.
  unfold revoke. apply sim_acquire; [done|]. intros s. eapply gtriple_bind; [by apply (spec_ret _ _ _ tt (fun _ r => r = Ret tt))| |done|done]. intros [].
  eapply gtriple_bind; [eapply spec_weaken; [apply load_reps|by intros M [? _]|done]|..]; cbn.
  2:{ intros M e [HR _] HL. exists s. split; [|done]. destruct e; try done; try (by destruct HL as [? ?]). split; [done|]. intros k. by rewrite HL. }
  2:{ intros M [HR _] HC. exists s. by split_and!. }
  intros item. eapply gtriple_bind; [apply (spec_check _ _ _ _ _ (fun M r => match r with Ret _ => ak_Owner item = owner | Fail e => e = ErrKeyNotFound /\ ak_Owner item <> owner | Panic => False end))|..]; cbn.
  { by intros M _ HC%negb_false_iff%bool_decide_eq_true. }
  { by intros M _ HC%negb_true_iff%bool_decide_eq_false. }
  2:{ intros M e ((HR & _) & Hi) [-> HO]. exists s. split; [|done]. split; [done|]. intros k. rewrite Hi. by intros [= <-]. }
  2:{ done. }
  intros []. apply gtriple_unit. eapply gtriple_weaken; [apply (apply_triple (fun _ => True))|done|].
  intros M M' r (((HR & _) & Hi) & HO) HA. pose proof (proj1 (rp_keys M s HR name item) Hi) as [[(_ & _ & Ho) _] HN]. rewrite HO in Ho.
  assert (revokeMutation owner name item = cleanupMutation owner (keysOf [item]) [name]) as Hmu by (unfold keysOf; cbn; by rewrite HN).
  assert (Forall (fun k => rg_keys s !! ak_Name k = Some k /\ ak_Owner k = owner) [item]) as Hks by (constructor; [by rewrite HN|done]).
  rewrite Hmu in HA. destruct r as [[]|e|]; cbn [mapGoR].
  - destruct HA as (_ & _ & ->). eexists. split; [split; [|reflexivity]|].
    + intros Hno. by apply (Hno item).
    + pose proof (drop_reps M s owner [item] [name] HR Ho Hks) as HD.
      replace (delete name (rg_keys s)) with (filter (fun p => p.2 ∉ [item]) (rg_keys s)); [apply HD; intros n; cbn; by rewrite HN|].
      apply map_eq. intros n. apply option_eq. intros k. rewrite map_lookup_filter_Some, lookup_delete_Some. cbn. rewrite list_elem_of_singleton.
      split; intros [H1 H2]; (split; [|done] || split); try done; intros EQ; subst; [congruence|].
      apply H1. pose proof (proj1 (rp_keys M s HR _ _) H2) as [_ HN']. congruence.
  - destruct HA as (_ & HF). by destruct HF.
  - destruct HA as (-> & e' & -> & _). exists s. by split.
  - destruct HA as (_ & HC). destruct HC. by apply (drop_clean s M).
Qed.

Lemma Revoke_sim lock principal name : sim (Revoke true lock principal name) (managed principal (revokeSpec (ak_Owner principal) name)).
Proof.
  unfold Revoke, managed. apply sim_guard; intros HB; [apply negb_true_iff in HB|apply negb_false_iff in HB]; rewrite HB; [done|]. apply revoke_sim.
Qed.

Lemma sim_impl {A} (m : ST (W * Reader) akError A) (f g : Registry -> Registry -> Go akError A -> Prop) :
  sim m f -> (forall s s' r, f s s' r -> g s s' r) -> sim m g.
Proof. intros Hm HI s. eapply gtriple_weaken; [apply (Hm s)|done|]. cbn. intros M M' r _ (s' & Hf & HR). eauto. Qed.

Lemma RevokeOwner_sim lock owner name :
  sim (RevokeOwner true lock owner name) (fun s s' r =>
    match r with
    | Fail ErrInvalidOwner => s' = s /\ ~ ownerOk owner
    | Fail ErrInvalidName => s' = s /\ ~ nameOk name
    | Panic => False
    | _ => revokeSpec owner name s s' r
    end).
Proof.
  unfold RevokeOwner. apply sim_guard; intros HB; [done|]. apply sim_owner; [by intros|]. intros Ho.
  apply sim_guard; intros HN; [apply negb_true_iff in HN; intros s; split; [done|]; unfold nameOk; by rewrite HN|apply negb_false_iff in HN].
  eapply sim_impl; [apply revoke_sim|]. cbn. intros s s' r HS. destruct r as [[]|e|]; [done|by destruct e|]. cbn in HS. destruct HS as [_ HC].
  apply nameOk_clean in HN. congruence.
Qed.

(** ** Cleanup *)
Lemma retire_reps M s owner v : reps M s -> ownerOk owner -> reps (<[E (retiredKey owner) := ARec v 0]> M) (retire s owner).
Proof.
  intros [HI HK HR] Ho.
  assert (forall x, akKey x -> x <> retiredKey owner -> <[E (retiredKey owner) := ARec v 0]> M !! E x = M !! E x) as Heff.
  { intros x Hx Hne. apply lookup_insert_ne. apply (akKey_ne Hsep); [by constructor|done|by intros <-]. }
  assert (forall k, issued (<[E (retiredKey owner) := ARec v 0]> M) k <-> issued M k) as Hiss.
  { intros k. split; intros Hk; pose proof Hk as [(Hn & _) _]; apply nameOk_clean in Hn; revert Hk; apply issued_ext; [symmetry|]; apply Heff; by try constructor. }
  split; [|intros n k; cbn; by rewrite HK, Hiss|].
  - split.
    + intros n Hn. rewrite Heff by (done || by constructor). setoid_rewrite Hiss. by apply HI.
    + intros x Hx. rewrite Heff by (done || by constructor). setoid_rewrite Hiss. by apply HI.
    + intros k Hk%Hiss. unfold recVal. pose proof Hk as [(_ & Hs & _) _]. rewrite Heff by (done || by constructor). by apply (ai_index M HI).
    + intros o n Ho'. unfold members, setOf. rewrite Heff by (done || by constructor). setoid_rewrite Hiss. by apply HI.
    + intros o Ho'. unfold members, setOf. rewrite Heff by (done || by constructor). by apply HI.
  - intros o Ho'. cbn. rewrite elem_of_union, elem_of_singleton, HR by done. unfold retired. destruct (decide (o = owner)) as [->|Hne].
    + rewrite lookup_insert_eq. split; [eauto|by left].
    + rewrite Heff; [naive_solver|by constructor|by intros [= ?]].
Qed.

Lemma cleanup_loop s owner names ks0 :
  Forall (fun n => exists k, rg_keys s !! n = Some k /\ ak_Owner k = owner) names ->
  aspec (fun M => reps M s) (foldST (cleanupStep owner) (keysOf ks0) names) (fun _ r =>
    match r with
    | Ret d => exists ks, d = keysOf (ks0 ++ ks) /\ ak_Name <$> ks = names /\ Forall (fun k => rg_keys s !! ak_Name k = Some k /\ ak_Owner k = owner) ks
    | Fail e => exists e', e = AKStore e'
    | Panic => False
    end).
Proof.
  intros HF. revert ks0. induction HF as [|n names (k & Hk & HO) HF IH]; intros ks0; cbn [foldST].
  { apply spec_ret. intros M _. exists []. by rewrite app_nil_r. }
  eapply spec_bind with (R := fun M r => match r with Ret d => d = keysOf (ks0 ++ [k]) /\ ak_Name k = n | Fail e => exists e', e = AKStore e' | Panic => False end); [|..].
  - unfold cleanupStep. eapply spec_bind; [apply spec_try, load_reps|..]; cbn; [|done|].
    + intros [e|item].
      * destruct e; try (apply spec_fail; by intros M (_ & ?)). apply spec_ret. intros M [_ ?]. congruence.
      * eapply spec_bind; [apply (spec_check _ _ _ _ _ (fun M r => match r with Ret _ => item = k /\ ak_Name k = n | _ => False end))|..]; cbn; [| | |done|done].
        -- intros M [HR Hi] _. split; [congruence|]. by apply (rp_keys M s HR n k).
        -- intros M [_ Hi] HB%negb_true_iff%bool_decide_eq_false. congruence.
        -- intros []. apply spec_ret. intros M (_ & -> & HN). split; [|done]. symmetry. apply keysOf_snoc.
    + intros M HR HC. apply HR in Hk as [[(Hok & _) _] <-]. apply nameOk_clean in Hok. congruence.
  - intros d. apply gtriple_fact with (F := d = keysOf (ks0 ++ [k]) /\ ak_Name k = n); [by intros M [_ ?]|]. intros [-> HN].
    eapply spec_weaken; [apply (IH (ks0 ++ [k]))|by intros M [? _]|]. intros M [d|e|] _; [|done|done].
    intros (ks & -> & Hn & Hall). exists (k :: ks). split_and!; [by rewrite <-app_assoc|cbn; by rewrite HN, Hn|]. constructor; [|done]. by rewrite HN.
  - done.
  - done.
Qed.

Lemma set_triple P x v :
  atriple P (kvL (kvSet x v)) (fun M M' r =>
    match r with Ret _ => M' = <[E x := ARec v 0]> M | Fail e => M' = M /\ exists e', e = AKStore e' | Panic => M' = M /\ ~ cleanKey kv_opts x end).
Proof.
  intros [st rd] w' r Hok HP. unfold kvL. cbn in *. destruct (kvSet x v st) as [st1 r1] eqn:E1. intros [= <- <-]. cbn.
  destruct (kvSet_law st x v st1 r1 Hok E1) as [H1 H2]. split; [done|]. destruct r1; eauto.
Qed.

Lemma members_spec s owner :
  ownerOk owner ->
  aspec (fun M => reps M s) (kvL (kvMembers (ownerPrefix owner))) (fun _ r =>
    match r with
    | Ret names => NoDup names /\ forall n, n ∈ names <-> exists k, rg_keys s !! n = Some k /\ ak_Owner k = owner
    | Fail e => exists e', e = AKStore e'
    | Panic => False
    end).
Proof.
  intros Ho. eapply spec_weaken; [apply (kvL_spec (fun M => reps M s) _ (fun M r => match r with Ret l => NoDup l /\ list_to_set l = setOf M (E (ownerPrefix owner)) | Fail _ => True | Panic => ~ cleanKey kv_opts (ownerPrefix owner) end))|done|].
  - intros st st' r Hok HE. apply (kvMembers_law st _ st' r Hok HE).
  - cbn. intros M [names|e|] HR; [|naive_solver|].
    + intros [Hnd HL]. split; [done|]. intros n. rewrite <-(elem_of_list_to_set (C := gset string)), HL. fold (members M owner).
      rewrite (members_ownerKeys M s owner HR Ho), elem_of_dom. unfold ownerKeys, is_Some. setoid_rewrite map_lookup_filter_Some. done.
    + intros HC. destruct HC. by apply (akKey_clean Hsep), key_owner.
Qed.

Lemma filter_owner M s owner ks :
  reps M s -> Forall (fun k => rg_keys s !! ak_Name k = Some k /\ ak_Owner k = owner) ks ->
  (forall n, n ∈ ak_Name <$> ks <-> exists k, rg_keys s !! n = Some k /\ ak_Owner k = owner) ->
  filter (fun p => p.2 ∉ ks) (rg_keys s) = filter (fun p => ak_Owner p.2 <> owner) (rg_keys s).
Proof.
  intros HR Hks Hn. apply map_filter_ext. intros n k Hk. cbn. rewrite Forall_forall in Hks. split; intros H1 H2; apply H1.
  - pose proof (proj2 (Hn n) (ex_intro _ k (conj Hk H2))) as (k' & -> & Hk')%list_elem_of_fmap. destruct (Hks k' Hk') as [HE _]. congruence.
  - by apply Hks.
Qed.

Lemma CleanupPeer_sim lock owner : sim (CleanupPeer true lock owner) (cleanupSpec owner).
Proof.
  unfold CleanupPeer. apply sim_owner; [done|]. intros Ho. apply sim_acquire; [done|]. intros s.
  eapply gtriple_bind; [by apply (spec_ret _ _ _ tt (fun _ r => r = Ret tt))| |done|done]. intros [].
  eapply gtriple_seq; [apply set_triple| | |..].
  4:{ cbn. intros M M1 [HR _] [_ HC]. destruct HC. by apply (akKey_clean Hsep), key_retired. }
  3:{ cbn. intros M M1 e [HR _] (-> & e' & ->). exists s. split; [by left|done]. }
  { intros M M1 a [HR _] ->. instantiate (1 := fun _ _ M1 => reps M1 (retire s owner)). by apply retire_reps. }
  intros [] M _. cbn beta. set (s1 := retire s owner).
  assert (forall M1 e, reps M1 s1 -> (exists e', e = AKStore e') -> exists s', cleanupSpec owner s s' (Fail e) /\ reps M1 s') as Hfail.
  { intros M1 e HR [e' ->]. exists s1. split; [by right|done]. }
  eapply gtriple_bind; [by apply members_spec| |by auto|done]. intros names.
  apply gtriple_fact with (F := NoDup names /\ forall n, n ∈ names <-> exists k, rg_keys s1 !! n = Some k /\ ak_Owner k = owner); [by intros M1 [_ ?]|].
  intros [Hnd Hnames]. eapply gtriple_bind; [eapply spec_weaken; [apply (cleanup_loop s1 owner names [])|by intros M1 [? _]|done]| |naive_solver|done].
  { apply Forall_forall. intros n Hn. by apply Hnames. }
  intros deletes. cbn beta iota. apply gtriple_unit. eapply gtriple_weaken; [apply (apply_triple (fun _ => True))|done|].
  intros M1 M' r ((HR & _) & ks & -> & Hn & Hks) HA. rewrite app_nil_l in HA.
  destruct r as [[]|e|]; cbn [mapGoR].
  - destruct HA as (_ & _ & ->). eexists. split; [split; [done|reflexivity]|].
    assert (forall n, n ∈ names <-> n ∈ ak_Name <$> ks) as Hnn by (by rewrite Hn).
    pose proof (drop_reps M1 s1 owner ks names HR Ho Hks Hnn) as HD. rewrite (filter_owner M1 s1 owner ks HR Hks) in HD; [exact HD|].
    intros n. by rewrite <-Hnames, Hn.
  - destruct HA as (_ & HF). by destruct HF.
  - destruct HA as (-> & e' & -> & _). apply Hfail; eauto.
  - destruct HA as (_ & HC). destruct HC. by apply (drop_clean s1 M1).
Qed.

(** ** Listing *)
Definition ownedBy (s : Registry) (owner : string) (k : apiKey) : Prop := rg_keys s !! ak_Name k = Some k /\ ak_Owner k = owner.

Lemma list_loop s owner cursor limit ks items :
  Forall (ownedBy s owner) ks -> Z.of_nat (length items) <= limit ->
  aspec (fun M => reps M s) (keyListLoop owner cursor limit (ak_Name <$> ks) items) (fun _ r =>
    match r with
    | Ret l => l = take (S (Z.to_nat limit)) (items ++ filter (fun k => strLt cursor (ak_Name k)) ks)
    | Fail e => exists e', e = AKStore e'
    | Panic => False
    end).
Proof.
  intros HF. revert items. induction HF as [|k ks [Hk HO] HF IH]; intros items Hlen; cbn [fmap list_fmap keyListLoop].
  { apply spec_ret. intros M _. rewrite filter_nil, app_nil_r, take_ge by lia. done. }
  unfold leStr. case_bool_decide as Hc.
  { rewrite filter_cons_False by (by intros ?%strLt_not_le). by apply IH. }
  rewrite filter_cons_True by (by destruct (strLe_or_lt (ak_Name k) cursor)).
  eapply spec_bind; [apply spec_try, load_reps|..]; cbn; [|done|].
  2:{ intros M HR HC. apply HR in Hk as [[(Hok & _) _] _]. apply nameOk_clean in Hok. congruence. }
  intros [e|item].
  - destruct e; try (apply spec_fail; by intros M (_ & ?)). apply gtriple_fact with (F := False); [|done]. intros M [_ ?]. congruence.
  - apply gtriple_fact with (F := item = k); [intros M [_ ?]; congruence|]. intros ->.
    eapply spec_bind; [apply (spec_check _ _ _ _ _ (fun M r => match r with Ret _ => True | _ => False end))|..]; cbn; [done| | |done|done].
    + by intros M _ HB%negb_true_iff%bool_decide_eq_false.
    + intros []. destruct (Z.ltb_spec limit (Z.of_nat (length (items ++ [k])))) as [Hover|Hfit].
      * apply spec_ret. intros M _. rewrite length_app in Hover. cbn in Hover.
        rewrite (cons_middle k items (filter _ ks)), (app_assoc items [k]), (take_app_le (items ++ [k])), take_ge; [done|rewrite length_app; cbn; lia..].
      * eapply spec_weaken; [apply (IH (items ++ [k])); lia|by intros M ((? & _) & _)|]. cbn. intros M [l|e|] _; [|done|done].
        by rewrite <-app_assoc.
Qed.

Lemma sortKeys_sorted l : strictSorted (ak_Name <$> l) -> sortKeys l = l.
Proof.
  intros HS. unfold sortKeys. symmetry.
  assert (StronglySorted nameLe l) as Hl.
  { induction l as [|k l IH]; [constructor|]. rewrite fmap_cons in HS. apply StronglySorted_inv in HS as [HS HF]. constructor; [by apply IH|].
    rewrite Forall_fmap in HF. eapply Forall_impl; [exact HF|]. by intros x [? _]. }
  apply (StronglySorted_unique_strong nameLe); [|done|apply StronglySorted_merge_sort; [intros x y z; unfold nameLe; apply (transitivity (R := String.le))|]|by rewrite merge_sort_Permutation].
  - intros x y Hx Hy Hxy Hyx. rewrite merge_sort_Permutation in Hy. assert (ak_Name x = ak_Name y) as HN by (by apply (anti_symm String.le)).
    apply strictSorted_NoDup in HS. apply list_elem_of_lookup in Hx as [i Hx], Hy as [j Hy].
    assert (i = j) as ->; [|congruence]. eapply NoDup_lookup; [exact HS|by rewrite list_lookup_fmap, Hx|by rewrite list_lookup_fmap, Hy, HN].
  - intros x y. destruct (total String.le (ak_Name x) (ak_Name y)); auto.
Qed.

Lemma owner_list s owner names :
  Forall (fun n => exists k, ownedBy s owner k /\ ak_Name k = n) names -> (forall k, ownedBy s owner k -> ak_Name k ∈ names) ->
  exists ks, ak_Name <$> ks = names /\ Forall (ownedBy s owner) ks /\ forall k, ownedBy s owner k -> k ∈ ks.
Proof.
  intros HF Hin. assert (exists ks, ak_Name <$> ks = names /\ Forall (ownedBy s owner) ks) as (ks & Hks & Hall).
  { clear Hin. induction HF as [|n names (k & Hk & <-) HF (ks & <- & Hall)]; [by exists []|]. exists (k :: ks). by split; [|constructor]. }
  exists ks. split_and!; [done..|]. intros k Hk. pose proof (Hin k Hk) as HI. rewrite <-Hks in HI. apply list_elem_of_fmap in HI as (k' & HN & Hk').
  rewrite Forall_forall in Hall. destruct Hk as [Hk _], (Hall k' Hk') as [Hk2 _]. congruence.
Qed.

Lemma page_spec s owner cursor limit ks :
  0 <= limit -> strictSorted (ak_Name <$> ks) -> Forall (ownedBy s owner) ks -> (forall k, ownedBy s owner k -> k ∈ ks) ->
  let p := cutKeys limit (sortKeys (take (S (Z.to_nat limit)) (filter (fun k => strLt cursor (ak_Name k)) ks))) in
  exists all, keysAfter s owner cursor all /\ kp_Items p = take (Z.to_nat limit) all /\
    kp_NextCursor p = if limit <? Z.of_nat (length all) then default EmptyString (ak_Name <$> last (kp_Items p)) else EmptyString.
Proof.
  intros Hpos HS Hall Hin. set (all := filter _ ks).
  assert (strictSorted (ak_Name <$> all)) as HSa by (eapply sublist_sorted; [apply fmap_sublist, sublist_filter|done]).
  rewrite sortKeys_sorted; [|eapply sublist_sorted; [apply fmap_sublist, sublist_take|exact HSa]]. exists all. split; [split; [done|]|].
  { intros k. unfold all. rewrite list_elem_of_filter. rewrite Forall_forall in Hall. split; [intros [? [? ?]%Hall]; done|].
    intros (H1 & H2 & H3). split; [done|]. apply Hin. by split. }
  unfold cutKeys. rewrite length_take.
  destruct (Z.ltb_spec limit (Z.of_nat (length all))).
  - rewrite (proj2 (Z.ltb_lt _ _)) by lia. cbn [kp_Items kp_NextCursor]. rewrite take_take, Nat.min_l by lia. split; [done|]. by destruct (last _).
  - rewrite (proj2 (Z.ltb_ge _ _)) by lia. cbn [kp_Items kp_NextCursor]. by rewrite !take_ge by lia.
Qed.

Lemma ListOwner_sim lock owner cursor limit : sim (ListOwner true lock owner cursor limit) (listSpec owner cursor limit).
Proof.
  unfold ListOwner. apply sim_guard; intros HB; [done|]. apply sim_owner; [done|]. intros Ho. apply sim_guard; intros HC.
  { apply andb_true_iff in HC as [HC1%negb_true_iff%bool_decide_eq_false HC2%negb_true_iff]. intros s. split_and!; [done..|]. unfold nameOk. by rewrite HC2. }
  apply sim_acquire; [done|]. apply sim_read. intros s. eapply spec_bind; [by apply members_spec| | |done].
  2:{ cbn. intros M e _ [e' ->]. done. }
  intros names. apply gtriple_fact with (F := NoDup names /\ exists ks, ak_Name <$> ks = sortStrings names /\ Forall (ownedBy s owner) ks /\ forall k, ownedBy s owner k -> k ∈ ks).
  { intros M (HR & Hnd & Hn). split; [done|]. apply owner_list.
    - apply Forall_forall. intros n. rewrite sortStrings_perm, Hn. intros (k & Hk & HO). pose proof (proj1 (rp_keys M s HR n k) Hk) as [_ <-]. exists k. done.
    - intros k [Hk HO]. rewrite sortStrings_perm, Hn. eauto. }
  intros (Hnd & ks & Hks & Hall & Hin). rewrite <-Hks. pose proof (sortStrings_strict names Hnd) as HS. rewrite <-Hks in HS.
  assert (0 <= pageLimit limit) as Hpos. { unfold pageLimit, keyListMax, keyListLimit. repeat case_match; lia. }
  eapply spec_bind; [eapply spec_weaken; [by apply (list_loop s owner cursor (pageLimit limit) ks [])|by intros M [? _]|done]|..]; [| |done].
  2:{ cbn. intros M e _ [e' ->]. done. }
  intros items. apply spec_ret. cbn beta iota. intros M (_ & ->). split; [done|]. rewrite app_nil_l. by apply page_spec.
Qed.

Lemma List_sim lock principal cursor limit :
  sim (Key_List true lock principal cursor limit) (managed principal (listSpec (ak_Owner principal) cursor limit)).
Proof.
  unfold Key_List, managed. apply sim_guard; intros HB; [apply negb_true_iff in HB|apply negb_false_iff in HB]; rewrite HB; [done|]. apply ListOwner_sim.
Qed.

(** ** Create *)
Lemma randomText_spec P size :
  aspec P (randomText size) (fun _ r =>
    match r with Ret t => exists d, String.length d = size /\ t = b64Encode d | Fail e => exists e', e = AKRandom e' | Panic => False end).
Proof.
  intros [st rd] w' r Hok HP. unfold randomText. cbn. destruct (readFull size rd) as [rd' r1] eqn:E1. intros [= <- <-]. cbn. split_and!; [done..|].
  destruct r1 as [d|e|]; [|by eauto|].
  - apply readFull_sound in E1 as (_ & HL & _). exists (strOf d). by rewrite length_strOf.
  - revert E1. unfold readFull. by repeat case_match.
Qed.

Lemma randomParts_spec P :
  aspec P randomParts (fun _ r =>
    match r with
    | Ret p => exists dn ds, String.length dn = 16%nat /\ String.length ds = 32%nat /\ p = (b64Encode dn, b64Encode ds)
    | Fail e => exists e', e = AKRandom e'
    | Panic => False
    end).
Proof.
  unfold randomParts. eapply spec_bind; [apply randomText_spec|intros n|done|done]. eapply spec_bind; [apply randomText_spec|intros x|done|done].
  apply spec_ret. intros M ((_ & dn & Hn & ->) & ds & Hs & ->). eauto.
Qed.

(** The key made of random parts is well formed and survives the encoding. *)
Lemma fresh_good owner displayName manage now dn ds :
  ownerOk owner -> validUTF8 displayName = true -> timeOk now -> String.length dn = 16%nat -> String.length ds = 32%nat ->
  let k := MkApiKey (namePrefix +:+ b64Encode dn) displayName (secretPrefix +:+ takeStr 8 (b64Encode ds) +:+ "…"%string) (secretPrefix +:+ b64Encode ds) manage now owner in
  goodKey k /\ keyText k.
Proof.
  intros Ho Hd Ht Hn Hs k. split.
  - split_and!; [..|exact Ho].
    + unfold nameOk, validName. cbn [ak_Name k]. pose proof (validToken_encode namePrefix dn) as HV. unfold lenStr in HV. rewrite Hn in HV. exact HV.
    + unfold secretOk, validSecret. cbn [ak_APIKey k]. pose proof (validToken_encode secretPrefix ds) as HV. unfold lenStr in HV. rewrite Hs in HV. exact HV.
  - split; [|done]. cbn [k ak_Name ak_DisplayName ak_Prefix ak_APIKey ak_Owner].
    pose proof (asciiOnly_b64 _ (b64Encode_safe dn)) as An. pose proof (asciiOnly_b64 _ (b64Encode_safe ds)) as As.
    pose proof (asciiOnly_b64 _ (allBytes_takeStr b64Safe 8 _ (b64Encode_safe ds))) as Ap.
    repeat apply Forall_cons_2; [..|constructor].
    + apply asciiOnly_valid, asciiOnly_app; [done|exact An].
    + done.
    + rewrite !validUTF8_ascii_app by done. reflexivity.
    + apply asciiOnly_valid, asciiOnly_app; [done|exact As].
    + by apply asciiOnly_valid, ownerOk_ascii.
Qed.

Lemma checkRetired_spec s owner :
  ownerOk owner ->
  aspec (fun M => reps M s) (checkRetired owner) (fun _ r =>
    match r with Ret _ => owner ∉ rg_retired s | Fail e => e = ErrOwnerRetired /\ owner ∈ rg_retired s \/ exists e', e = AKStore e' | Panic => False end).
Proof.
  intros Ho. unfold checkRetired. eapply spec_bind; [apply getOptional_spec|..].
  - cbn beta iota. intros [v|]; [apply spec_fail|apply spec_ret]; intros M (HR & _ & HV).
    + left. split; [done|]. apply (rp_retired M s HR); [done|]. by eapply recVal_Some.
    + rewrite (rp_retired M s HR) by done. unfold retired. rewrite HV. by intros [].
  - cbn. eauto.
  - cbn. intros M HR HC. destruct HC. by apply (akKey_clean Hsep), key_retired.
Qed.

Lemma create_conditions M item data :
  Forall (specCondition kv_opts M) (mut_Conditions (keyMutation item data)) <->
  M !! E (recordKey (ak_Name item)) = None /\ M !! E (secretKey (ak_APIKey item)) = None /\ M !! E (retiredKey (ak_Owner item)) = None.
Proof. cbn [keyMutation mut_Conditions]. rewrite !Forall_cons, Forall_nil. unfold specCondition. cbn [cond_Key cond_Expected]. naive_solver. Qed.

Lemma create_limit M item data :
  goodKey item ->
  let before := members M (ak_Owner item) in let after := {[ak_Name item]} ∪ before in
  withinLimits kv_opts (keyMutation item data) M <-> Z.of_nat (size after) <= PeerAPIKeyLimit \/ (size after <= size before)%nat.
Proof.
  intros (Hn & Hs & Ho) before after. unfold withinLimits, keyMutation, phases, specRecords. cbn [mut_Entries mut_DeleteKeys mut_AddMembers mut_RemoveMembers mut_AddOrderedMembers mut_RemoveOrderedMembers fmap list_fmap app foldl entry_Key entry_Value entry_Deadline limitsOk].
  set (M1 := <[E (secretKey (ak_APIKey item)) := _]> _).
  assert (setOf M1 (E (ownerPrefix (ak_Owner item))) = before) as HM1.
  { unfold before, members, setOf, M1. apply nameOk_clean in Hn. rewrite !lookup_insert_ne; [done|apply (akKey_ne Hsep); by try constructor..]. }
  unfold limitOk. rewrite setOf_specGroup. cbn [fst snd sm_Key sm_Members sm_MaxMembers phaseAdds Nat.even list_to_set].
  rewrite bool_decide_eq_true_2, HM1, union_empty_r_L by done. fold after. unfold PeerAPIKeyLimit. split; [intros [HL _]|intros HL; split; [|done]; intros _]; lia.
Qed.

Lemma nonempty_reps M s x : reps M s -> (exists n, x = recordKey n /\ containsByte ":" n = false) \/ (exists t, x = secretKey t /\ secretOk t) ->
  is_Some (M !! E x) -> rg_keys s <> ∅.
Proof.
  intros HR Hx HS HE. assert (exists k, issued M k) as [k Hk].
  { destruct Hx as [(n & -> & Hn)|(t & -> & Ht)]; [destruct (ai_record M (rp_inv M s HR) n Hn HS) as (k & ? & _)|destruct (ai_secret M (rp_inv M s HR) t Ht HS) as (k & ? & _)]; eauto. }
  assert (rg_keys s !! ak_Name k = Some k) as HK by (by apply (rp_keys M s HR)). by rewrite HE, lookup_empty in HK.
Qed.

Lemma create_reps M s item data :
  reps M s -> goodKey item -> unmarshalKey data = Some item -> Forall (specCondition kv_opts M) (mut_Conditions (keyMutation item data)) ->
  withinLimits kv_opts (keyMutation item data) M ->
  reps (specMutation kv_opts (keyMutation item data) M) (MkRegistry (<[ak_Name item := item]> (rg_keys s)) (rg_retired s)) /\
  rg_keys s !! ak_Name item = None /\ (forall n k, rg_keys s !! n = Some k -> ak_APIKey k <> ak_APIKey item) /\
  ak_Owner item ∉ rg_retired s /\ (size (ownerKeys s (ak_Owner item)) < 10)%nat.
Proof.
  intros HR Hg Hun (C1 & C2 & C3)%create_conditions HW. pose proof Hg as (Hn & Hs & Ho). apply nameOk_clean in Hn as Hc.
  assert (rg_keys s !! ak_Name item = None) as Hfresh by (by apply (no_record M s)).
  assert (ak_Name item ∉ members M (ak_Owner item)) as Hnm.
  { rewrite (members_ownerKeys M s) by done. rewrite elem_of_dom. unfold ownerKeys. intros [k [Hk _]%map_lookup_filter_Some]. congruence. }
  apply create_limit in HW; [|done]. rewrite size_union, size_singleton in HW by set_solver.
  destruct (issue_inv Hsep M item data (rp_inv M s HR) Hg Hun C1 C2) as [HI' Hiss]; [rewrite size_union, size_singleton by set_solver; lia|].
  split_and!.
  - split; [done| |].
    + intros n k. cbn [rg_keys]. rewrite Hiss, lookup_insert_Some, (rp_keys M s HR). split; [naive_solver|]. intros [[Hk| ->] HN]; [|by left].
      right. split; [|done]. intros EQ. rewrite <-EQ in HN. apply issued_Some in Hk as [? Hk]. rewrite HN in Hk. congruence.
    + intros o Ho'. cbn [rg_retired]. rewrite (rp_retired M s HR) by done. unfold retired. rewrite (create_effect Hsep) by (done || by constructor).
      by rewrite !decide_False by done.
  - done.
  - intros n k [Hk _]%(rp_keys M s HR) EQ. apply (ai_index M (rp_inv M s HR)), recVal_Some in Hk as [? Hk]. rewrite EQ in Hk. congruence.
  - rewrite (rp_retired M s HR) by done. unfold retired. rewrite C3. by intros [].
  - rewrite (size_ownerKeys M s) by done. unfold PeerAPIKeyLimit in HW. lia.
Qed.

(** What an attempt with this key may do. *)
Definition attempted (owner dn0 : string) (manage : bool) (s : Registry) M M' (r : Go akError (option Created)) : Prop :=
  match r with
  | Ret None => M' = M /\ rg_keys s <> ∅
  | Ret (Some c) => exists s', createSpec owner dn0 manage s s' (Ret c) /\ reps M' s'
  | Fail e => M' = M /\ createSpec owner dn0 manage s s (Fail e)
  | Panic => False
  end.

Lemma create_limited M s item data :
  reps M s -> goodKey item -> ~ withinLimits kv_opts (keyMutation item data) M -> size (ownerKeys s (ak_Owner item)) = 10%nat.
Proof.
  intros HR Hg HW. pose proof Hg as (_ & _ & Ho). rewrite (size_ownerKeys M s) by done. rewrite create_limit in HW by done.
  pose proof (ai_limit M (rp_inv M s HR) (ak_Owner item) Ho) as HL. unfold PeerAPIKeyLimit in *.
  destruct (decide (ak_Name item ∈ members M (ak_Owner item))).
  - destruct HW. right. apply subseteq_size. set_solver.
  - rewrite size_union, size_singleton in HW by set_solver. lia.
Qed.

Lemma create_apply s item data dn0 :
  goodKey item -> unmarshalKey data = Some item -> normalizeDisplayName dn0 = Ret (ak_DisplayName item) ->
  atriple (fun M => reps M s)
    (r ← tryST (kvL (kvApply (keyMutation item data)));
     match r with
     | inl (AKStore ErrMemberLimit) => failST ErrPeerAPIKeyLimit
     | inl e => failST e
     | inr true => mret (Some (MkCreated item (ak_APIKey item)))
     | inr false => _ ← checkRetired (ak_Owner item); mret None
     end)
    (attempted (ak_Owner item) dn0 (ak_ManageAPIKeys item) s).
Proof.
  intros Hg Hun Hd. pose proof Hg as (Hn & Hs & Ho). apply nameOk_clean in Hn as Hc.
  intros w w' r Hok HR. unfold mbind at 1, ST_bind at 1, tryST. destruct (kvL (kvApply (keyMutation item data)) w) as [w1 r1] eqn:E1.
  destruct (apply_triple (fun _ => True) _ w w1 r1 Hok I E1) as [Hok1 HA]. destruct r1 as [[]|e|].
  - intros [= <- <-]. split; [done|]. destruct HA as (HC & HW & ->).
    destruct (create_reps _ s item data HR Hg Hun HC HW) as (HR' & H1 & H2 & H3 & H4). eexists. split; [|exact HR']. by split_and!.
  - destruct HA as [HM HF]. intros E2. rewrite create_conditions in HF.
    assert (owner_free : ak_Owner item ∉ rg_retired s -> rg_keys s <> ∅).
    { intros Hno. rewrite (rp_retired _ s HR) in Hno by done.
      destruct (kv_db w.1 !! E (recordKey (ak_Name item))) eqn:R1; [eapply nonempty_reps; [exact HR|left; by eauto|by rewrite R1]|].
      destruct (kv_db w.1 !! E (secretKey (ak_APIKey item))) eqn:R2; [eapply nonempty_reps; [exact HR|right; by eauto|by rewrite R2]|].
      destruct HF. split_and!; [done..|]. by apply eq_None_not_Some. }
    unfold mbind, ST_bind in E2. destruct (checkRetired (ak_Owner item) w1) as [w2 r2] eqn:E3.
    destruct (checkRetired_spec s (ak_Owner item) Ho w1 w2 r2 Hok1) as (Hok2 & HM2 & HR2); [by rewrite HM|done|].
    destruct r2 as [[]|e|]; injection E2 as <- <-; (split; [done|]); cbn [attempted]; [split; [congruence|auto]| |done].
    split; [congruence|]. split; [done|]. destruct HR2 as [[-> ?]|[e' ->]]; done.
  - destruct HA as (HM & e' & -> & HL). intros E2. assert (w' = w1 /\ r = Fail (if decide (e' = ErrMemberLimit) then ErrPeerAPIKeyLimit else AKStore e')) as [-> ->].
    { destruct e'; injection E2 as <- <-; by case_decide. }
    split; [done|]. split; [done|]. split; [done|]. case_decide as Hl; [|done]. by eapply create_limited; [exact HR|done|apply HL].
  - destruct HA as (_ & HC). destruct HC. unfold namedKeys, keyMutation, phases. apply Forall_forall. cbn.
    intros x Hx. apply (akKey_clean Hsep). rewrite !elem_of_cons, elem_of_nil in Hx. destruct_or! Hx; subst; by constructor.
Qed.

Lemma createAttempt_triple s owner dn0 displayName manage now :
  ownerOk owner -> normalizeDisplayName dn0 = Ret displayName -> validUTF8 displayName = true -> timeOk now ->
  atriple (fun M => reps M s) (createAttempt owner displayName manage now) (attempted owner dn0 manage s).
Proof.
  intros Ho Hd HU Ht. unfold createAttempt. eapply gtriple_bind; [apply randomParts_spec| |by intros M e _ [e' ->]|done].
  intros parts. apply gtriple_fact with (F := exists dn ds, String.length dn = 16%nat /\ String.length ds = 32%nat /\ parts = (b64Encode dn, b64Encode ds)); [by intros M [_ ?]|].
  intros (dn & ds & Hn & Hs & ->). cbn [fst snd].
  eapply gtriple_bind; [apply (spec_lift _ _ _ _ (fun _ r => r = Ret (takeStr 8 (b64Encode ds))))| |by intros|by intros].
  { intros M _. unfold sliceTo. by rewrite b64Encode_length, Hs. }
  intros shown. apply gtriple_fact with (F := shown = takeStr 8 (b64Encode ds)); [by intros M [_ [= ->]]|]. intros ->.
  destruct (fresh_good owner displayName manage now dn ds Ho HU Ht Hn Hs) as [Hg Htext].
  set (item := MkApiKey _ _ _ _ _ _ _) in *. destruct (marshalKey item) as [data|] eqn:Hm.
  2:{ eapply gtriple_weaken; [by apply (spec_fail _ _ (fun _ => True) _ (fun _ r => r = Fail (AKText "json")))|done|]. intros M M' r _ [-> ->]. split; [done|]. split; [done|by left]. }
  pose proof (key_roundtrip item data Hm Htext) as Hun.
  eapply gtriple_weaken; [apply (create_apply s item data dn0 Hg Hun Hd)|by intros M ((? & _) & _)|done].
Qed.

Lemma createLoop_sim n owner dn0 displayName manage now :
  ownerOk owner -> normalizeDisplayName dn0 = Ret displayName -> validUTF8 displayName = true -> (forall i, timeOk (now i)) ->
  (0 < n)%nat -> sim (createLoop n owner displayName manage now) (createSpec owner dn0 manage).
Proof.
  intros Ho Hd HU. revert now. induction n as [|n IH]; intros now Ht Hpos; [lia|]. intros s. cbn [createLoop].
  intros w w' r Hok HR. unfold mbind, ST_bind. destruct (createAttempt owner displayName manage (now 0%nat) w) as [w1 r1] eqn:E1.
  destruct (createAttempt_triple s owner dn0 displayName manage (now 0%nat) Ho Hd HU (Ht 0%nat) w w1 r1 Hok HR E1) as [Hok1 HA].
  destruct r1 as [[c|]|e|].
  - intros [= <- <-]. by split.
  - destruct HA as [HM Hne]. destruct n as [|n].
    + intros [= <- <-]. split; [done|]. exists s. rewrite HM. split; [|done]. split; [done|by right].
    + intros E2. destruct (IH (fun i => now (S i)) (fun i => Ht (S i)) ltac:(lia) s w1 w' r Hok1) as [Hok2 HS]; [by rewrite HM|done|done].
  - intros [= <- <-]. destruct HA as [HM HS]. split; [done|]. exists s. by rewrite HM.
  - done.
Qed.

Lemma Create_sim lock now owner displayName manage :
  (forall i, timeOk (now i)) -> sim (Key_Create true lock now owner displayName manage) (createSpec owner displayName manage).
Proof.
  intros Ht. unfold Key_Create. apply sim_guard; intros HB; [done|]. apply sim_owner; [done|]. intros Ho.
  apply sim_lift.
  - intros e HF s. split; [done|]. unfold normalizeDisplayName, check in HF. cbn zeta in HF. case_match; [|done]. injection HF as <-. cbn.
    unfold normalizeDisplayName, check. cbn zeta. case_match; [done|congruence].
  - unfold normalizeDisplayName, check. cbn zeta. by case_match.
  - intros dn Hd. apply sim_acquire; [done|]. intros s.
    eapply gtriple_bind; [by apply checkRetired_spec| |..].
    + intros []. eapply gtriple_weaken; [apply (createLoop_sim 8 owner displayName dn manage now Ho Hd)|by intros M [? _]|by intros M M' r _ HH]; [|done|lia].
      unfold normalizeDisplayName, check in Hd. cbn zeta in Hd. case_match eqn:HC; [done|]. injection Hd as <-. rewrite !orb_false_iff in HC. by destruct HC as [[_ ?%negb_false_iff] _].
    + cbn. intros M e HR HE. exists s. split; [|done]. split; [done|]. destruct HE as [[-> ?]|[e' ->]]; done.
    + done.
Qed.

Lemma sim_answer {A B} (g : A -> B) (m : ST (W * Reader) akError A) f : sim m f -> sim (akAnswer g m) (answered g f).
Proof.
  intros Hm s w w' r Hok HR. unfold akAnswer. destruct (m w) as [w1 r1] eqn:E1. intros [= <- <-].
  destruct (Hm s w w1 r1 Hok HR E1) as (Hok1 & s' & Hf & HR'). split; [done|]. exists s'. split; [|done]. by exists r1.
Qed.

Lemma runCall_sim c : akCallOk c -> sim (runCall c) (akSpec c).
Proof.
  destruct c; intros Hc; apply sim_answer; auto using Create_sim, Authenticate_sim, ListOwner_sim, List_sim, Get_sim, Revoke_sim, RevokeOwner_sim, CleanupPeer_sim.
  apply revoke_sim.
Qed.

Lemma reps_limit M s o : reps M s -> ownerOk o -> (size (ownerKeys s o) <= 10)%nat.
Proof. intros HR Ho. rewrite (size_ownerKeys M s o HR Ho). pose proof (ai_limit M (rp_inv M s HR) o Ho) as HL. unfold PeerAPIKeyLimit in HL. lia. Qed.
End ops.
