(* ===== verification/ApiKeyProps.v ===== *)
(** * apikey: issued keys authenticate, revoked and retired ones never again

    The server on any store that keeps the promises of [KVLaws] and [KVSetLaws], for
    every sequence of calls from an empty store: it refines the registry of
    [ApiKeyInv]; a credential is valid from its creation until it is revoked or its
    owner is cleaned up; and an owner that was cleaned up never has a key again.
    At the end the theorems are applied to the in-memory store. *)

From stdpp Require Import gmap strings list.
From S2P Require Import Prelude GoStrings GoText KVKey KVMemory KVSpec KVProps KVIface Triple KVSets PDCodec GoBytes Encoding EncodingProps GizKeys ApiKey ApiKeyInv ApiKeyOps.

Open Scope Z_scope.

(** ** Sequences of calls *)
Fixpoint runCalls {W} `{KVOps W, KVSetOps W, KeyCodec} (cs : list akCall) (w : W * Reader) : (W * Reader) * list (Go akError akResult) :=
  match cs with
  | [] => (w, [])
  | c :: cs => let '(w1, r) := runCall c w in let '(w2, rs) := runCalls cs w1 in (w2, r :: rs)
  end.

Inductive specRuns : Registry -> list akCall -> list (Go akError akResult) -> Registry -> Prop :=
  | runs_nil s : specRuns s [] [] s
  | runs_cons s c r s1 cs rs s2 : akSpec c s s1 r -> specRuns s1 cs rs s2 -> specRuns s (c :: cs) (r :: rs) s2.

(** Calls that do not take a key away. *)
Definition spares (k : apiKey) (c : akCall) : Prop :=
  match c with
  | CRevokeSelf _ p => ak_Name p <> ak_Name k
  | CRevoke _ _ name | CRevokeOwner _ _ name => name <> ak_Name k
  | CCleanup _ owner => owner <> ak_Owner k
  | _ => True
  end.

(** ** Facts of the registry *)
Lemma answered_managed {A B} (g : A -> B) p f s s' r (P : Registry -> Prop) :
  answered g (managed p f) s s' r -> P s -> (forall r, f s s' r -> P s') -> P s'.
Proof. intros (r0 & _ & HM) HP Hf. unfold managed in HM. destruct (ak_ManageAPIKeys p); [by eapply Hf|]. by destruct HM as [-> _]. Qed.

(** A property of the registry that creation, revocation and cleanup preserve. *)
Lemma akSpec_preserves (P : Registry -> Prop) c s s' r :
  P s -> akSpec c s s' r ->
  (forall lock now owner dn m c', c = CCreate lock now owner dn m -> createSpec owner dn m s s' (Ret c') -> P s') ->
  (forall owner name u, (exists lock p, c = CRevokeSelf lock p /\ name = ak_Name p) \/ (exists lock p, c = CRevoke lock p name) \/ (exists lock, c = CRevokeOwner lock owner name) ->
     revokeSpec owner name s s' (Ret u) -> P s') ->
  (forall lock owner u, c = CCleanup lock owner -> cleanupSpec owner s s' (Ret u) \/ s' = retire s owner -> P s') -> P s'.
Proof.
  intros HP HS H1 H2 H3.
  assert (forall owner name r, (exists lock p, c = CRevokeSelf lock p /\ name = ak_Name p) \/ (exists lock p, c = CRevoke lock p name) \/ (exists lock, c = CRevokeOwner lock owner name) ->
     revokeSpec owner name s s' r -> P s') as Hrev.
  { intros owner name r' Hc Hr. destruct r' as [u|e|]; [by eapply H2|destruct e; cbn in Hr; try done; try (by subst); by destruct Hr as [-> _]|by destruct Hr as [-> _]]. }
  destruct c; cbn in HS.
  - destruct HS as (r0 & _ & HS). destruct r0 as [c'|e|]; [by eapply H1|by destruct HS as [-> _]|done].
  - by destruct HS as (r0 & _ & -> & _).
  - by destruct HS as (r0 & _ & -> & _).
  - by eapply answered_managed; [exact HS|done|intros ? [-> _]].
  - by eapply answered_managed; [exact HS|done|intros ? [-> _]].
  - destruct HS as (r0 & _ & HS). eapply Hrev; [|exact HS]. left. eauto.
  - eapply answered_managed; [exact HS|done|]. intros r1 Hr. eapply Hrev; [|exact Hr]. right. left. eauto.
  - destruct HS as (r0 & _ & HS). destruct r0 as [u|e|]; [|destruct e|done].
    all: try (by destruct HS as [-> _]); (eapply Hrev; [|exact HS]); right; right; eauto.
  - destruct HS as (r0 & _ & HS). destruct r0 as [u|e|]; [eapply H3; by eauto| |done].
    destruct e; cbn in HS; try done; try (by destruct HS as [-> _]); try (by subst). destruct HS as [->| ->]; [done|]. eapply (H3 _ _ tt); [done|by right].
Qed.

Lemma runs_preserves (P : Registry -> Prop) (Q : akCall -> Prop) s cs rs s' :
  (forall c s s' r, Q c -> P s -> akSpec c s s' r -> P s') -> Forall Q cs -> P s -> specRuns s cs rs s' -> P s'.
Proof. intros Hstep HQ HP HR. induction HR as [|s c r s1 cs rs s2 HS HR IH]; [done|]. inversion HQ; subst. eauto. Qed.

(** An owner that was cleaned up has no key and stays retired. *)
Definition gone (owner : string) (s : Registry) : Prop := owner ∈ rg_retired s /\ forall n k, rg_keys s !! n = Some k -> ak_Owner k <> owner.

Lemma gone_step owner c s s' r : gone owner s -> akSpec c s s' r -> gone owner s'.
Proof.
  intros [HR HK] HS. eapply (akSpec_preserves (gone owner)); [by split|exact HS|..].
  - intros _ _ o _ _ c' _ (_ & Hno & _ & _ & HO & _ & _ & _ & _ & _ & ->). split; [done|]. cbn.
    intros n k [[_ <-]|[_ Hk]]%lookup_insert_Some; [congruence|by eapply HK].
  - intros o name u _ [_ ->]. split; [done|]. cbn. intros n k [_ Hk]%lookup_delete_Some. by eapply HK.
  - intros _ o u _ [[_ ->]| ->]; (split; cbn; [set_solver|]); [|done]. intros n k [Hk _]%map_lookup_filter_Some. by eapply HK.
Qed.

(** A key stays in force under calls that spare it. *)
Lemma spared_step k c s s' r : spares k c -> rg_keys s !! ak_Name k = Some k -> akSpec c s s' r -> rg_keys s' !! ak_Name k = Some k.
Proof.
  intros Hsp Hk HS. eapply (akSpec_preserves (fun s => rg_keys s !! ak_Name k = Some k)); [done|exact HS|..].
  - intros _ _ o _ _ c' _ (_ & _ & _ & _ & _ & _ & _ & _ & Hfresh & _ & ->). cbn. rewrite lookup_insert_ne; [done|]. intros EQ. congruence.
  - intros o name u Hc [_ ->]. cbn. rewrite lookup_delete_ne; [done|]. intros ->.
    destruct Hc as [(? & ? & -> & ?)|[(? & ? & ->)|(? & ->)]]; cbn in Hsp; congruence.
  - intros lock o u -> HC. cbn in Hsp. destruct HC as [[_ ->]| ->]; cbn; [|done]. by apply map_lookup_filter_Some_2.
Qed.

Section theorems.
Context {W : Type} {KO : KVOps W} {KL : KVLaws W} {SO : KVSetOps W} {SL : KVSetLaws W} {KC : KeyCodec} {KCL : KeyCodecLaws}.
Context (Hsep : sep kv_opts = ":"%char).

Lemma runCalls_sim cs : Forall akCallOk cs -> forall (w : W * Reader) s w' rs,
  kv_ok w.1 -> reps (kv_db w.1) s -> runCalls cs w = (w', rs) -> exists s', specRuns s cs rs s' /\ kv_ok w'.1 /\ reps (kv_db w'.1) s'.
Proof.
  induction 1 as [|c cs Hc Hcs IH]; intros w s w' rs Hok HR; cbn [runCalls].
  - intros [= <- <-]. exists s. split; [constructor|done].
  - destruct (runCall c w) as [w1 r] eqn:E1, (runCalls cs w1) as [w2 rs2] eqn:E2. intros [= <- <-].
    destruct (runCall_sim Hsep c Hc s w w1 r Hok HR E1) as (Hok1 & s1 & HS & HR1).
    destruct (IH w1 s1 w2 rs2 Hok1 HR1 E2) as (s2 & HS2 & Hok2 & HR2). exists s2. split; [by econstructor|done].
Qed.

(** C4: every sequence of calls of the API key server on a store that was empty does to
    the keys and answers exactly what the registry of keys allows: keys are issued with
    fresh names and credentials to owners that are not retired and have fewer than ten,
    a credential authenticates as the key that has it, listings are pages of the
    owner's keys in name order, revoking removes one key of the owner and cleanup all of
    them, errors and panics change nothing but for the retirement a failing cleanup has
    recorded; no owner ever has more than ten keys. *)
Theorem apikey_refines (cs : list akCall) (w w' : W * Reader) rs :
  kv_ok w.1 -> kv_db w.1 = ∅ -> Forall akCallOk cs -> runCalls cs w = (w', rs) ->
  exists s, specRuns emptyRegistry cs rs s /\ forall owner, ownerOk owner -> (size (ownerKeys s owner) <= 10)%nat.
Proof.
  intros Hok Hdb Hcs HR. destruct (runCalls_sim cs Hcs w emptyRegistry w' rs Hok) as (s & HS & _ & Hrep); [rewrite Hdb; by apply reps_empty|done|].
  exists s. split; [done|]. intros owner Ho. by eapply reps_limit.
Qed.

(** C5: once [CleanupPeer] has succeeded for an owner, whatever calls follow, no
    credential authenticates as a key of that owner, its listing is empty, and [Create]
    for it returns no key. *)
Theorem CleanupPeer_final (before after : list akCall) (lock : option string) (owner : string) (w w1 w2 w3 : W * Reader) rs rs' :
  kv_ok w.1 -> kv_db w.1 = ∅ -> Forall akCallOk before -> Forall akCallOk after ->
  runCalls before w = (w1, rs) -> CleanupPeer true lock owner w1 = (w2, Ret tt) -> runCalls after w2 = (w3, rs') ->
  (forall secret w4 k, Authenticate true secret w3 = (w4, Ret k) -> ak_Owner k <> owner) /\
  (forall l cursor limit w4 p, ListOwner true l owner cursor limit w3 = (w4, Ret p) -> p = MkKeyPage [] EmptyString) /\
  (forall l now dn m w4 c, (forall i, timeOk (now i)) -> Key_Create true l now owner dn m w3 <> (w4, Ret c)).
Proof.
  intros Hok Hdb Hb Ha H1 H2 H3.
  destruct (runCalls_sim before Hb w emptyRegistry w1 rs Hok) as (s1 & _ & Hok1 & HR1); [rewrite Hdb; by apply reps_empty|done|].
  destruct (CleanupPeer_sim Hsep lock owner s1 w1 w2 (Ret tt) Hok1 HR1 H2) as (Hok2 & s2 & [_ Hs2] & HR2).
  destruct (runCalls_sim after Ha w2 s2 w3 rs' Hok2 HR2 H3) as (s3 & HS3 & Hok3 & HR3).
  assert (gone owner s3) as [Hret Hno].
  { eapply (runs_preserves (gone owner) (fun _ => True)); [intros; by eapply gone_step|by apply Forall_true| |exact HS3].
    subst s2. split; cbn; [set_solver|]. by intros n k [_ ?]%map_lookup_filter_Some. }
  split_and!.
  - intros secret w4 k HE. destruct (Authenticate_sim Hsep secret s3 w3 w4 _ Hok3 HR3 HE) as (_ & s4 & [_ [Hk _]] & _). by eapply Hno.
  - intros l cursor limit w4 p HE. destruct (ListOwner_sim Hsep l owner cursor limit s3 w3 w4 _ Hok3 HR3 HE) as (_ & s4 & [_ (all & [_ Hall] & Hi & Hn)] & _).
    assert (all = []) as ->. { destruct all as [|k all]; [done|]. destruct (proj1 (Hall k)) as (Hk & HO & _); [by left|]. by destruct (Hno _ _ Hk). }
    destruct p as [items next]. cbn in Hi, Hn. rewrite take_nil in Hi. subst items. f_equal. rewrite Hn. by destruct (_ <? _).
  - intros l now dn m w4 c Ht HE. destruct (Create_sim Hsep l now owner dn m Ht s3 w3 w4 _ Hok3 HR3 HE) as (_ & s4 & (_ & Hn & _) & _). done.
Qed.

(** a credential [Create] has returned authenticates as its key after any calls that
    neither revoke that key nor clean up its owner; only an error of the store can
    answer otherwise. *)
Theorem credential_valid (before after : list akCall) (lock : option string) now owner dn manage (w w1 w2 w3 w4 : W * Reader) rs rs' c r :
  kv_ok w.1 -> kv_db w.1 = ∅ -> Forall akCallOk before -> Forall akCallOk after -> (forall i, timeOk (now i)) ->
  runCalls before w = (w1, rs) -> Key_Create true lock now owner dn manage w1 = (w2, Ret c) ->
  runCalls after w2 = (w3, rs') -> Forall (spares (cr_Key c)) after ->
  Authenticate true (cr_Secret c) w3 = (w4, r) ->
  ak_Owner (cr_Key c) = owner /\ (r = Ret (cr_Key c) \/ exists e, r = Fail (AKStore e)).
Proof.
  intros Hok Hdb Hb Ha Ht H1 H2 H3 Hsp H4.
  destruct (runCalls_sim before Hb w emptyRegistry w1 rs Hok) as (s1 & _ & Hok1 & HR1); [rewrite Hdb; by apply reps_empty|done|].
  destruct (Create_sim Hsep lock now owner dn manage Ht s1 w1 w2 _ Hok1 HR1 H2) as (Hok2 & s2 & HC & HR2).
  destruct (runCalls_sim after Ha w2 s2 w3 rs' Hok2 HR2 H3) as (s3 & HS3 & Hok3 & HR3).
  destruct HC as (_ & _ & _ & _ & HO & _ & _ & HSec & _ & _ & Hs2). split; [done|].
  assert (rg_keys s3 !! ak_Name (cr_Key c) = Some (cr_Key c)) as Hk.
  { eapply (runs_preserves (fun s => rg_keys s !! ak_Name (cr_Key c) = Some (cr_Key c)) (spares (cr_Key c))); [intros; by eapply spared_step|done| |exact HS3].
    subst s2. cbn. apply lookup_insert_eq. }
  destruct (Authenticate_sim Hsep (cr_Secret c) s3 w3 w4 r Hok3 HR3 H4) as (_ & s4 & [_ Hr] & _).
  destruct r as [k|e|]; [left|destruct e; try done; [|by right; eauto]|done].
  - destruct Hr as [Hk' HE]. f_equal. rewrite HSec in HE.
    apply (issued_secret (kv_db w3.1)); [by apply HR3|by apply HR3 in Hk' as [? _]|by apply HR3 in Hk as [? _]|done].
  - by destruct (Hr _ _ Hk).
Qed.
End theorems.

(** * apikey: a server on the in-memory store

    Runs of the API key server on [Memory]: the hypotheses of the theorems of
    [ApiKeyProps] hold there, and a name with a separator makes [Get] panic. *)

(** ** The instances *)
Definition packKey (k : apiKey) : string :=
  pack [ak_Name k; ak_DisplayName k; ak_Prefix k; ak_APIKey k; text (ak_ManageAPIKeys k); text (ak_CreatedAt k); ak_Owner k].
Definition unpackKey (s : string) : option apiKey :=
  match unpack s with
  | Some [a; b; c; d; e; f; g] => e ← untext e; f ← untext f; Some (MkApiKey a b c d e f g)
  | _ => None
  end.

Lemma unpackKey_packKey k : unpackKey (packKey k) = Some k.
Proof. unfold unpackKey, packKey. rewrite unpack_pack by done. rewrite !untext_text. by destruct k. Qed.

#[export] Instance packCodec : KeyCodec := {| marshalKey k := Some (packKey k); unmarshalKey := unpackKey |}.
#[export] Instance packCodecLaws : KeyCodecLaws.
Proof.
  refine (Build_KeyCodecLaws _ _). intros k data [= <-] _. apply unpackKey_packKey.
Qed.

Definition akContexts : nat -> nat -> option kvError := fun _ _ => None.
#[export] Instance akOps : KVOps (Memory * nat) := memoryOps 1 akContexts.
#[export] Instance akLaws : KVLaws (Memory * nat) := memoryLaws 1 akContexts None (fun _ _ => ltac:(discriminate)).
#[export] Instance akSetOps : KVSetOps (Memory * nat) := memorySetOps 1 akContexts.
#[export] Instance akSetLaws : KVSetLaws (Memory * nat) := memorySetLaws 1 akContexts None (fun _ _ => ltac:(discriminate)) (fun _ _ => ltac:(discriminate)).

(** ** A run *)
Definition akOwner : string := GizKey_String exKey.
Definition akWorld : Memory * nat * Reader := (NewMemory None, 0%nat, MkReader (Z.of_nat <$> seq 0 200) IoEOF).
Definition akCreate : akCall := CCreate None (fun _ => 1000) akOwner " phone " true.
Definition akCalls : list akCall := [akCreate; akCreate; CListOwner None akOwner EmptyString 1; CRevokeOwner None akOwner "key_AAECAwQFBgcICQoLDA0ODw"; CListOwner None akOwner EmptyString 1].

(** What a call shows of the keys it answers. *)
Definition shownKeys (r : Go akError akResult) : list (string * string) :=
  match r with
  | Ret (RCreated c) => [(ak_Name (cr_Key c), cr_Secret c)]
  | Ret (RKey k) => [(ak_Name k, ak_APIKey k)]
  | Ret (RPage p) => (fun k => (ak_Name k, ak_APIKey k)) <$> kp_Items p
  | _ => []
  end.

Definition akName1 : string := "key_AAECAwQFBgcICQoLDA0ODw".
Definition akName2 : string := "key_MDEyMzQ1Njc4OTo7PD0-Pw".
Definition akSecret2 : string := "gizclaw_sk_v1_QEFCQ0RFRkdISUpLTE1OT1BRUlNUVVZXWFlaW1xdXl8".

Lemma akWorld_ok : kv_ok akWorld.1 /\ kv_db akWorld.1 = ∅.
Proof. split; [|vm_compute; reflexivity]. split; [|done]. apply NewMemory_wf. Qed.

Lemma akCalls_ok : Forall akCallOk akCalls.
Proof. repeat constructor; cbn; unfold timeOk; lia. Qed.

(** Two keys are created, a page lists the first, the first is revoked and the next
    page lists the second. *)
Lemma apikey_refines_witness :
  map fst <$> (shownKeys <$> (runCalls akCalls akWorld).2) = [[akName1]; [akName2]; [akName1]; []; [akName2]] /\
  exists s, specRuns emptyRegistry akCalls (runCalls akCalls akWorld).2 s /\ forall owner, ownerOk owner -> (size (ownerKeys s owner) <= 10)%nat.
Proof.
  split; [vm_compute; reflexivity|]. destruct akWorld_ok as [H1 H2]. destruct (runCalls akCalls akWorld) as [w' rs] eqn:HE.
  exact (apikey_refines eq_refl akCalls akWorld w' rs H1 H2 akCalls_ok HE).
Defined.

(** The owner is cleaned up; the credential of its second key and a new one are refused. *)
Lemma CleanupPeer_final_witness :
  exists w2, CleanupPeer true None akOwner (runCalls akCalls akWorld).1 = (w2, Ret tt) /\
    (Authenticate true akSecret2 (runCalls [akCreate] w2).1).2 = Fail ErrInvalidAPIKey /\
    shownKeys <$> (runCalls [akCreate] w2).2 = [[]] /\
    forall secret w4 k, Authenticate true secret (runCalls [akCreate] w2).1 = (w4, Ret k) -> ak_Owner k <> akOwner.
Proof.
  destruct (CleanupPeer true None akOwner (runCalls akCalls akWorld).1) as [w2 r] eqn:HE. exists w2.
  assert ((CleanupPeer true None akOwner (runCalls akCalls akWorld).1).2 = Ret tt) as Hr by (vm_compute; reflexivity).
  rewrite HE in Hr. cbn in Hr. subst r. split; [done|].
  assert (w2 = (CleanupPeer true None akOwner (runCalls akCalls akWorld).1).1) as Hw2 by (by rewrite HE).
  split; [rewrite Hw2; vm_compute; reflexivity|]. split; [rewrite Hw2; vm_compute; reflexivity|]. clear Hw2.
  destruct akWorld_ok as [H1 H2]. destruct (runCalls akCalls akWorld) as [w1 rs] eqn:HB. destruct (runCalls [akCreate] w2) as [w3 rs'] eqn:HA.
  assert (Forall akCallOk [akCreate]) as Hok by (repeat constructor; cbn; unfold timeOk; lia).
  exact (proj1 (CleanupPeer_final eq_refl akCalls [akCreate] None akOwner akWorld w1 w2 w3 rs rs' H1 H2 akCalls_ok Hok HB HE HA)).
Defined.

(** The second key, created after the first and spared by the revocation of the first. *)
Definition akBefore : (Memory * nat * Reader) * list (Go akError akResult) := runCalls [akCreate] akWorld.
Definition akCreated : (Memory * nat * Reader) * Go akError Created := Key_Create true None (fun _ => 1000) akOwner " phone " true akBefore.1.
Definition akSpare : list akCall := [CRevokeOwner None akOwner akName1].
Definition akAfter : (Memory * nat * Reader) * list (Go akError akResult) := runCalls akSpare akCreated.1.

Lemma credential_valid_witness :
  shownKeys (runCall (CAuthenticate akSecret2) akAfter.1).2 = [(akName2, akSecret2)] /\
  exists c, akCreated.2 = Ret c /\ ak_Owner (cr_Key c) = akOwner /\
    let r := (Authenticate true (cr_Secret c) akAfter.1).2 in r = Ret (cr_Key c) \/ exists e, r = Fail (AKStore e).
Proof.
  split; [vm_compute; reflexivity|].
  assert (exists c, akCreated.2 = Ret c /\ ak_Name (cr_Key c) = akName2) as (c & Hc & HN) by (vm_compute; eauto).
  exists c. split; [exact Hc|]. destruct akWorld_ok as [H1 H2].
  assert (Forall akCallOk [akCreate]) as Hok by (constructor; [cbn; unfold timeOk; lia|constructor]).
  assert (Forall akCallOk akSpare) as Hok' by (constructor; [exact I|constructor]).
  assert (Forall (spares (cr_Key c)) akSpare) as Hsp by (constructor; [cbn; rewrite HN; discriminate|constructor]).
  refine (credential_valid eq_refl [akCreate] akSpare None (fun _ => 1000) akOwner " phone " true akWorld akBefore.1 akCreated.1 akAfter.1
    (Authenticate true (cr_Secret c) akAfter.1).1 akBefore.2 akAfter.2 c (Authenticate true (cr_Secret c) akAfter.1).2 H1 H2 Hok Hok' _ _ _ _ Hsp _);
    [intros i; unfold timeOk; lia|apply surjective_pairing|rewrite <-Hc; apply surjective_pairing|apply surjective_pairing|apply surjective_pairing].
Defined.

(** [Get] with a name that contains the separator of keys panics instead of reporting
    that there is no such key; [RevokeOwner], which checks the name, does not. *)
Lemma Get_separator_panics principal :
  ak_ManageAPIKeys principal = true ->
  (Key_Get true principal "a:b" akWorld).2 = Panic /\ (Revoke true None principal "a:b" akWorld).2 = Panic /\
  (RevokeOwner true None akOwner "a:b" akWorld).2 = Fail ErrInvalidName.
Proof. intros HM. unfold Key_Get, Revoke, revoke. rewrite HM. split_and!; vm_compute; reflexivity. Qed.
