(* ===== verification/Tunnel.v ===== *)
(** * giztunnel: labels and frames

    [src/pkgs/giznet/giztunnel/protocol.go] and the codec of [packet.go], then the theorems on them.  A
    [SessionID] is 16 bytes, a public key 32 bytes. *)

From Stdlib Require Import String Ascii.
From stdpp Require Import strings list.
From S2P Require Import Prelude GoStrings GoText CustomID GoBytes Encoding EncodingProps GizKeys.

Open Scope Z_scope.

Definition Version : Z := 2.
Definition LabelPrefix : string := "giznet/v2/tunnel/".
Definition maxLabelSize : nat := 512.
Definition maxRemoteAddrSize : nat := 256.
Definition maxRejectReasonSize : nat := 256.
Definition sessionResultHeaderSize : nat := 7.

Inductive tunnelError :=
  | ErrInvalidFrame
  | ErrFrameTooLarge
  | ErrPacketTooLarge.

#[export] Instance tunnelError_eq_dec : EqDecision tunnelError.
Proof. solve_decision. Defined.

Definition sessionResultMagic : Bytes := [71; 90; 84; 50].

Inductive labelKind := labelControl | labelPacket | labelService.

(** [sessionResultStatus] is a byte with two values in use. *)
Definition sessionAccepted : Z := 0.
Definition sessionRejected : Z := 1.

Definition SessionIDSize : nat := 16.
Definition zeroSession : Bytes := repeat 0 SessionIDSize.
Definition sessionOk (id : Bytes) : Prop := bytesOk id /\ length id = SessionIDSize.

(** [NewSessionID] from a source of random bytes. *)
Definition NewSessionID : ST Reader ioError Bytes := readFull SessionIDSize.

Definition Session_IsZero (id : Bytes) : bool := bool_decide (id = zeroSession).
Definition Session_String (id : Bytes) : string := hexEncode (strOf id).

Record SessionDeclaration := MkDeclaration {
  sd_SessionID : Bytes;
  sd_ClientPublicKey : Bytes;
  sd_RemoteAddr : string
}.

Record parsedLabel := MkLabel {
  pl_kind : labelKind;
  pl_session : Bytes;
  pl_client : Bytes;
  pl_remote : string;
  pl_service : Z;
  pl_channelID : Z
}.

(** ** Decimal numbers: [strconv.FormatUint(v, 10)] and [ParseUint(s, 10, 64)] *)
Definition decimalDigit (d : Z) : ascii := ascii_of_N (Z.to_N (48 + d)).
Definition FormatUint (v : Z) : string :=
  match digitsLE 10 v with
  | [] => "0"
  | ds => string_of_list_ascii (map decimalDigit (rev ds))
  end.
Definition ParseUint (s : string) : option Z :=
  if (String.length s =? 0)%nat then None
  else if allBytes (between 48 57) s then
    let v := valBE 10 (map (fun c => byteZ c - 48) (list_ascii_of_string s)) in
    if v <? 2 ^ 64 then Some v else None
  else None.

(** ** Printing labels *)
Definition controlLabel (declaration : SessionDeclaration) : Go tunnelError string :=
  _ ← check (Session_IsZero (sd_SessionID declaration) || Key_IsZero (sd_ClientPublicKey declaration) ||
             (maxRemoteAddrSize <? String.length (sd_RemoteAddr declaration))%nat) ErrInvalidFrame;
  let remote := if bool_decide (sd_RemoteAddr declaration = EmptyString) then "-"%string else b64Encode (sd_RemoteAddr declaration) in
  let label := LabelPrefix +:+ Session_String (sd_SessionID declaration) +:+ "/control/" +:+ GizKey_String (sd_ClientPublicKey declaration) +:+ "/" +:+ remote in
  _ ← check (maxLabelSize <? String.length label)%nat ErrFrameTooLarge;
  Ret label.

Definition packetLabel (id : Bytes) : Go tunnelError string :=
  _ ← check (Session_IsZero id) ErrInvalidFrame;
  Ret (LabelPrefix +:+ Session_String id +:+ "/packet").

Definition serviceLabel (id : Bytes) (service channelID : Z) : Go tunnelError string :=
  _ ← check (Session_IsZero id || (channelID =? 0)) ErrInvalidFrame;
  Ret (LabelPrefix +:+ Session_String id +:+ "/service/" +:+ FormatUint service +:+ "/" +:+ FormatUint channelID).

(** ** Parsing labels *)

(** [strings.ToLower] on the bytes it changes in ASCII text; other text is refused by
    the hexadecimal decoder that follows, with the same error. *)
Definition lowerByte (a : ascii) : ascii := if between 65 90 a then ascii_of_N (Z.to_N (byteZ a + 32)) else a.
Fixpoint toLower (s : string) : string :=
  match s with EmptyString => EmptyString | String a s => String (lowerByte a) (toLower s) end.

Definition parseSessionID (value : string) : Go tunnelError Bytes :=
  _ ← check (negb (String.length value =? 2 * SessionIDSize)%nat || negb (bool_decide (toLower value = value))) ErrInvalidFrame;
  match hexDecode value with
  | None => Fail ErrInvalidFrame
  | Some raw =>
      _ ← check (negb (String.length raw =? SessionIDSize)%nat) ErrInvalidFrame;
      let id := bytesOf raw in
      _ ← check (Session_IsZero id) ErrInvalidFrame;
      Ret id
  end.

Definition firstByteIs (c : ascii) (s : string) : bool :=
  match s with EmptyString => false | String a _ => bool_decide (a = c) end.

Definition parseCanonicalUint (value : string) (allowZero : bool) : Go tunnelError Z :=
  _ ← check ((String.length value =? 0)%nat || (20 <? String.length value)%nat || (1 <? String.length value)%nat && firstByteIs "0" value) ErrInvalidFrame;
  match ParseUint value with
  | None => Fail ErrInvalidFrame
  | Some parsed =>
      _ ← check (negb allowZero && (parsed =? 0) || negb (bool_decide (FormatUint parsed = value))) ErrInvalidFrame;
      Ret parsed
  end.

(** [base64.RawURLEncoding.EncodedLen]. *)
Definition b64EncodedLen (n : nat) : nat := (n / 3 * 4 + (n mod 3 * 8 + 5) / 6)%nat.

Definition decodeRemoteAddr (value : string) : Go tunnelError string :=
  if bool_decide (value = "-"%string) then Ret EmptyString
  else
    _ ← check (bool_decide (value = EmptyString) || (b64EncodedLen maxRemoteAddrSize <? String.length value)%nat) ErrInvalidFrame;
    match b64Decode value with
    | None => Fail ErrInvalidFrame
    | Some raw =>
        _ ← check ((maxRemoteAddrSize <? String.length raw)%nat || negb (bool_decide (b64Encode raw = value))) ErrInvalidFrame;
        Ret raw
    end.

Definition parseLabel (label : string) : Go tunnelError parsedLabel :=
  _ ← check ((String.length label =? 0)%nat || (maxLabelSize <? String.length label)%nat || negb (hasPrefix LabelPrefix label)) ErrInvalidFrame;
  match splitByte "/" (dropStr (String.length LabelPrefix) label) with
  | first :: second :: rest =>
      id ← parseSessionID first;
      if bool_decide (second = "control"%string) then
        match rest with
        | [key; addr] =>
            match Key_UnmarshalText (Some zeroKey) key with
            | Ret client =>
                _ ← check (Key_IsZero client || negb (bool_decide (GizKey_String client = key))) ErrInvalidFrame;
                remote ← decodeRemoteAddr addr;
                Ret (MkLabel labelControl id client remote 0 0)
            | _ => Fail ErrInvalidFrame
            end
        | _ => Fail ErrInvalidFrame
        end
      else if bool_decide (second = "packet"%string) then
        match rest with
        | [] => Ret (MkLabel labelPacket id zeroKey EmptyString 0 0)
        | _ => Fail ErrInvalidFrame
        end
      else if bool_decide (second = "service"%string) then
        match rest with
        | [svc; ch] =>
            service ← parseCanonicalUint svc true;
            channelID ← parseCanonicalUint ch false;
            Ret (MkLabel labelService id zeroKey EmptyString service channelID)
        | _ => Fail ErrInvalidFrame
        end
      else Fail ErrInvalidFrame
  | _ => Fail ErrInvalidFrame
  end.

(** ** The session result *)
Definition putBE16 (v : Z) : Bytes := [v / 256 mod 256; v mod 256].

Definition encodeSessionResult (status : Z) (reason : string) : Go tunnelError Bytes :=
  _ ← check ((status =? sessionAccepted) && negb (bool_decide (reason = EmptyString)) || negb (status =? sessionAccepted) && negb (status =? sessionRejected) ||
             (maxRejectReasonSize <? String.length reason)%nat || negb (validUTF8 reason)) ErrInvalidFrame;
  Ret (sessionResultMagic ++ [status] ++ putBE16 (wrap 16 (Z.of_nat (String.length reason))) ++ bytesOf reason).

(** [binary.BigEndian.Uint16]. *)
Definition getBE16 {E} (l : Bytes) : Go E Z := hi ← index l 0; lo ← index l 1; Ret (hi * 256 + lo).

Definition decodeSessionResult (payload : Bytes) : Go tunnelError (Z * string) :=
  _ ← check ((length payload <? sessionResultHeaderSize)%nat || (sessionResultHeaderSize + maxRejectReasonSize <? length payload)%nat ||
             negb (bool_decide (take 4 payload = sessionResultMagic))) ErrInvalidFrame;
  status ← index payload 4;
  size ← slice payload 5 7;
  reasonSize ← getBE16 size;
  tail ← slice payload 7 (length payload);
  _ ← check (negb (reasonSize =? Z.of_nat (length payload) - 7) || negb (validUTF8 (strOf tail))) ErrInvalidFrame;
  let reason := strOf tail in
  _ ← check ((status =? sessionAccepted) && negb (bool_decide (reason = EmptyString)) || negb (status =? sessionAccepted) && negb (status =? sessionRejected)) ErrInvalidFrame;
  Ret (status, reason).

(** The error of a read, or of the frame. *)
Definition resultError : Type := ioError + tunnelError.

Definition readSessionResult : ST Reader resultError (Z * string) :=
  header ← mapErrST inl (readFull sessionResultHeaderSize);
  size ← lift (slice header 5 7);
  reasonSize ← lift (getBE16 size);
  _ ← checkST (negb (bool_decide (take 4 header = sessionResultMagic)) || (Z.of_nat maxRejectReasonSize <? reasonSize)) (inr ErrInvalidFrame);
  reason ← mapErrST inl (readFull (Z.to_nat reasonSize));
  match decodeSessionResult (header ++ reason) with
  | Ret r => mret r
  | Fail e => failST (inr e)
  | Panic => lift Panic
  end.

(** ** Opus packets *)
Definition opusHeaderSize : nat := 17.
Definition maxOpusPayloadSize : nat := Z.to_nat (64 * 1024 - 17).

Definition encodeOpusPacket (id payload : Bytes) : Go tunnelError Bytes :=
  _ ← check (Session_IsZero id || (length payload =? 0)%nat) ErrInvalidFrame;
  _ ← check (maxOpusPayloadSize <? length payload)%nat ErrPacketTooLarge;
  Ret ([Version] ++ id ++ payload).

Definition decodeOpusPacket (frame : Bytes) : Go tunnelError (Bytes * Bytes) :=
  _ ← check (length frame <=? opusHeaderSize)%nat ErrInvalidFrame;
  v ← index frame 0;
  _ ← check (negb (v =? Version)) ErrInvalidFrame;
  id ← slice frame 1 opusHeaderSize;
  _ ← check (Session_IsZero id) ErrInvalidFrame;
  payload ← slice frame opusHeaderSize (length frame);
  Ret (id, payload).

(** * giztunnel: labels and frames are unambiguous

    Each parser accepts exactly what the printer of the same part produces, so a label
    has one spelling and one meaning; and the frames are read off a byte stream
    without losing what follows. *)

(** ** Session identifiers *)
Lemma string_ind2 (P : string -> Prop) :
  P EmptyString -> (forall a, P (String a EmptyString)) -> (forall a b s, P s -> P (String a (String b s))) -> forall s, P s.
Proof. intros H0 H1 H2. fix IH 1. intros [|a [|b s]]; [apply H0|apply H1|apply H2, IH]. Qed.

Lemma unhex_lower a x : unhex a = Some x -> lowerByte a = a -> 0 <= x < 16 /\ a = digitOf lowerHex (Z.to_nat x).
Proof.
  intros Hu Hl. assert (match unhex a with Some x => negb (bool_decide (lowerByte a = a)) || (0 <=? x) && (x <? 16) && bool_decide (a = digitOf lowerHex (Z.to_nat x)) | None => true end = true) as HA by byte_cases a.
  rewrite Hu, bool_decide_eq_true_2 in HA by done. cbn [negb orb] in HA. apply andb_true_iff in HA as [HA HB%bool_decide_eq_true_1]. split; [lia|done].
Qed.

Lemma hexByte_digits x y : 0 <= x < 16 -> 0 <= y < 16 ->
  hexByte lowerHex (ascii_of_N (Z.to_N (16 * x + y))) = String (digitOf lowerHex (Z.to_nat x)) (String (digitOf lowerHex (Z.to_nat y)) EmptyString).
Proof.
  intros Hx Hy. assert (forallb (fun b => bool_decide (hexByte lowerHex (ascii_of_N (Z.to_N b)) = String (digitOf lowerHex (Z.to_nat (b / 16))) (String (digitOf lowerHex (Z.to_nat (b mod 16))) EmptyString))) (seqZ 0 256) = true) as HA by (vm_compute; reflexivity).
  pose proof (byte_forall _ HA (16 * x + y) ltac:(unfold isByte; lia)) as HB%bool_decide_eq_true_1. rewrite HB. repeat f_equal; [|].
  - rewrite Z.mul_comm, Z.div_add_l, Z.div_small by lia. lia.
  - rewrite Z.add_comm, Z.mul_comm, Z_mod_plus_full, Z.mod_small; lia.
Qed.

Lemma hex_canonical s t : hexDecode s = Some t -> toLower s = s -> hexEncode t = s.
Proof.
  revert t. induction s as [|a|a b s IH] using string_ind2; intros t; [by intros [= <-]|done|]. cbn [hexDecode toLower]. unfold unhex2.
  destruct (unhex a) as [x|] eqn:Ea; cbn [mbind option_bind]; [|done]. destruct (unhex b) as [y|] eqn:Eb; cbn [mbind option_bind]; [|done].
  destruct (hexDecode s) as [u|]; cbn [mbind option_bind]; [|done]. intros [= <-] [= Ha Hb Hs]. destruct (unhex_lower a x Ea Ha) as [Hx ->], (unhex_lower b y Eb Hb) as [Hy ->].
  cbn [hexEncode]. rewrite hexByte_digits, !app_cons_str, app_empty_str by done. do 2 f_equal. by apply IH.
Qed.

Lemma toLower_hexEncode s : toLower (hexEncode s) = hexEncode s.
Proof.
  pose proof (hexEncode_alphabet s) as HA. induction (hexEncode s) as [|a h IH]; [done|]. cbn in HA |- *. apply andb_true_iff in HA as [Ha Hh]. rewrite IH by done.
  f_equal. revert Ha. byte_cases a; done.
Qed.

Lemma hexDecode_length s t : hexDecode s = Some t -> String.length s = (2 * String.length t)%nat.
Proof.
  revert t. induction s as [|a|a b s IH] using string_ind2; intros t; [by intros [= <-]|done|]. cbn [hexDecode].
  destruct (unhex2 a b) as [c|]; cbn [mbind option_bind]; [|done]. destruct (hexDecode s) as [u|]; cbn [mbind option_bind]; [|done]. intros [= <-]. cbn. rewrite (IH u) by done. lia.
Qed.

Lemma parseSessionID_iff value id : parseSessionID value = Ret id <-> sessionOk id /\ Session_IsZero id = false /\ value = Session_String id.
Proof.
  unfold parseSessionID, Session_String. split.
  - intros ([] & [HL%negb_false_iff%Nat.eqb_eq HC%negb_false_iff%bool_decide_eq_true_1]%check_Ret%orb_false_iff & HP)%bind_Ret.
    destruct (hexDecode value) as [raw|] eqn:HD; [|done]. apply bind_Ret in HP as ([] & HR%check_Ret%negb_false_iff%Nat.eqb_eq & HP).
    apply bind_Ret in HP as ([] & HZ%check_Ret & [= <-]). split_and!; [split; [apply bytesOf_ok|by rewrite length_bytesOf]|done|]. rewrite strOf_bytesOf. symmetry. by apply hex_canonical.
  - intros ([Hok HL] & HZ & ->). rewrite hexEncode_length, length_strOf, HL, toLower_hexEncode, bool_decide_eq_true_2 by done. cbn [Nat.eqb negb orb check mbind Go_bind].
    rewrite hexDecode_hexEncode, length_strOf, HL, bytesOf_strOf, HZ by done. done.
Qed.

(** ** Decimal numbers *)
Lemma byteZ_decimal d : 0 <= d < 10 -> byteZ (decimalDigit d) = 48 + d.
Proof. intros Hd. unfold decimalDigit. apply byteZ_ascii. unfold isByte. lia. Qed.

Lemma FormatUint_eq v : 0 <= v -> FormatUint v = if v =? 0 then "0"%string else string_of_list_ascii (map decimalDigit (digitsBE 10 v)).
Proof.
  intros Hv. unfold FormatUint, digitsBE. destruct (Z.eqb_spec v 0) as [->|Hne]; [done|]. rewrite (digitsLE_pos 10) by lia. done.
Qed.

Lemma decimal_values ds : Forall (digit 10) ds -> map (fun c => byteZ c - 48) (map decimalDigit ds) = ds /\ allBytes (between 48 57) (string_of_list_ascii (map decimalDigit ds)) = true.
Proof.
  induction 1 as [|d ds Hd _ [IH1 IH2]]; [done|]. cbn [map string_of_list_ascii allBytes]. unfold digit in Hd. unfold between at 1. rewrite IH1, IH2, byteZ_decimal by done. split; [f_equal; lia|]. lia.
Qed.

Lemma length_digits_pos v : 0 < v -> exists d l, digitsBE 10 v = d :: l /\ d <> 0.
Proof.
  intros Hv. pose proof (leading_digitsBE 10 ltac:(lia) 0 v ltac:(lia)) as HL. cbn [repeat app] in HL. pose proof (digitsBE_pos 10 ltac:(lia) v Hv) as HE.
  destruct (digitsBE 10 v) as [|d l]; [by destruct (digitsBE 10 (v / 10))|]. exists d, l. split; [done|]. intros ->. cbn in HL. done.
Qed.

Lemma FormatUint_spec v : uintOk 64 v ->
  ParseUint (FormatUint v) = Some v /\ (0 < String.length (FormatUint v) <= 20)%nat /\
  (1 <? String.length (FormatUint v))%nat && firstByteIs "0" (FormatUint v) = false /\ allBytes (between 48 57) (FormatUint v) = true.
Proof.
  intros [H0 H1]. rewrite FormatUint_eq by done. destruct (Z.eqb_spec v 0) as [->|Hne]; [split_and!; vm_compute; (reflexivity || lia)|].
  pose proof (digitsBE_ok 10 ltac:(lia) v H0) as HF. destruct (decimal_values _ HF) as [HV HA]. destruct (length_digits_pos v ltac:(lia)) as (d & l & HE & Hd).
  assert (length (digitsBE 10 v) <= 20)%nat as HL by (apply length_digitsBE; [lia|]; split; [done|]; apply Z.lt_trans with (2 ^ 64); [done|reflexivity]).
  assert (String.length (string_of_list_ascii (map decimalDigit (digitsBE 10 v))) = length (digitsBE 10 v)) as HS by (by rewrite <-length_list_ascii, list_of_string, length_map).
  split_and!; [|rewrite HS, HE; cbn; lia|lia| |done].
  - unfold ParseUint. rewrite HS, HA, list_of_string, HV, valBE_digitsBE by lia. rewrite HE at 1. cbn [length Nat.eqb]. by rewrite (proj2 (Z.ltb_lt _ _)).
  - rewrite HE. cbn [map string_of_list_ascii firstByteIs]. rewrite bool_decide_eq_false_2, andb_false_r; [done|]. rewrite HE in HF. apply Forall_cons in HF as [Hd' _]. unfold digit in Hd'.
    intros E. apply (f_equal byteZ) in E. rewrite byteZ_decimal in E by done. change (byteZ "0") with 48 in E. lia.
Qed.

Lemma ParseUint_range s v : ParseUint s = Some v -> uintOk 64 v.
Proof.
  unfold ParseUint. destruct (_ =? _)%nat; [done|]. destruct (allBytes (between 48 57) s) eqn:HA; [|done].
  assert (0 <= valBE 10 (map (fun c => byteZ c - 48) (list_ascii_of_string s))) as H0.
  { apply (valBE_bound 10 ltac:(lia)). clear -HA. induction s as [|a s IH]; cbn in *; [constructor|]. apply andb_true_iff in HA as [Ha Hs]. unfold between in Ha. constructor; [unfold digit; lia|by apply IH]. }
  destruct (Z.ltb_spec (valBE 10 (map (fun c => byteZ c - 48) (list_ascii_of_string s))) (2 ^ 64)); [|done]. intros [= <-]. by split.
Qed.

Lemma parseCanonicalUint_iff value allowZero n : parseCanonicalUint value allowZero = Ret n <-> uintOk 64 n /\ (allowZero = true \/ n <> 0) /\ value = FormatUint n.
Proof.
  unfold parseCanonicalUint. split.
  - intros ([] & _ & HP)%bind_Ret. destruct (ParseUint value) as [v|] eqn:HV; [|done]. apply bind_Ret in HP as ([] & HC%check_Ret & [= <-]).
    apply orb_false_iff in HC as [HZ HF%negb_false_iff%bool_decide_eq_true_1]. split_and!; [by eapply ParseUint_range| |done]. destruct allowZero; [by left|right]. cbn in HZ. lia.
  - intros (Hn & HZ & ->). destruct (FormatUint_spec n Hn) as (HP & HL & HF & _). rewrite HP, HF, (proj2 (Nat.eqb_neq _ 0)), (proj2 (Nat.ltb_ge 20 _)) by lia.
    cbn [orb check mbind Go_bind]. rewrite bool_decide_eq_true_2 by done. destruct HZ as [->|HZ]; [done|]. rewrite (proj2 (Z.eqb_neq _ _)) by done. by destruct allowZero.
Qed.

(** ** The remote address *)
Lemma b64EncodedLen_3 n : b64EncodedLen (S (S (S n))) = (4 + b64EncodedLen n)%nat.
Proof.
  unfold b64EncodedLen. replace (S (S (S n))) with (n + 1 * 3)%nat by lia. rewrite Nat.div_add, Nat.Div0.mod_add by lia. lia.
Qed.

Lemma length_b64Encode s : String.length (b64Encode s) = b64EncodedLen (String.length s).
Proof.
  induction s as [|a|a b|a b c s IH] using string_ind3; [done|by destruct a|by destruct a, b|destruct a, b, c]. cbn [b64Encode String.length]. by rewrite IH, b64EncodedLen_3.
Qed.

Lemma b64EncodedLen_bounds n : (n <= 256 -> b64EncodedLen n <= 342)%nat /\ (0 < n -> 2 <= b64EncodedLen n)%nat.
Proof.
  unfold b64EncodedLen. pose proof (Nat.div_mod n 3 ltac:(lia)). pose proof (Nat.mod_upper_bound n 3 ltac:(lia)) as HM.
  destruct (n mod 3)%nat as [|[|[|]]]; [..|lia]; [change ((0 * 8 + 5) / 6)%nat with 0%nat|change ((1 * 8 + 5) / 6)%nat with 2%nat|change ((2 * 8 + 5) / 6)%nat with 3%nat]; lia.
Qed.

(** The spelling of an address in a control label. *)
Definition remoteText (addr : string) : string := if bool_decide (addr = EmptyString) then "-"%string else b64Encode addr.

Lemma remoteText_length addr : (String.length addr <= maxRemoteAddrSize)%nat -> (String.length (remoteText addr) <= 342)%nat.
Proof.
  intros HL. unfold remoteText. case_bool_decide; [cbn; lia|]. rewrite length_b64Encode. unfold maxRemoteAddrSize in HL. by apply b64EncodedLen_bounds.
Qed.

Lemma decodeRemoteAddr_iff value addr : decodeRemoteAddr value = Ret addr <-> (String.length addr <= maxRemoteAddrSize)%nat /\ value = remoteText addr.
Proof.
  unfold decodeRemoteAddr, remoteText. split.
  - case_bool_decide as Hd; [intros [= <-]; split; [cbn; lia|done]|]. intros ([] & [Hne%bool_decide_eq_false_1 _]%check_Ret%orb_false_iff & HP)%bind_Ret.
    destruct (b64Decode value) as [raw|]; [|done]. apply bind_Ret in HP as ([] & HC%check_Ret & [= <-]). apply orb_false_iff in HC as [HL%Nat.ltb_ge HE%negb_false_iff%bool_decide_eq_true_1].
    split; [done|]. case_bool_decide; [|done]. subst. done.
  - intros [HL ->]. destruct (decide (addr = EmptyString)) as [->|He]; [done|]. rewrite !(bool_decide_eq_false_2 (addr = EmptyString)) by done. assert (0 < String.length addr)%nat as Hpos by (destruct addr; [done|cbn; lia]).
    pose proof (length_b64Encode addr) as HE. destruct (b64EncodedLen_bounds (String.length addr)) as [HU HB]. unfold maxRemoteAddrSize in *. specialize (HU HL). specialize (HB Hpos).
    rewrite <-HE in HU, HB. rewrite bool_decide_eq_false_2 by (intros E; rewrite E in HB; cbn [String.length] in HB; lia). rewrite bool_decide_eq_false_2 by (intros E; rewrite E in HB; cbn [String.length] in HB; lia).
    replace (b64EncodedLen 256 <? String.length (b64Encode addr))%nat with false by (symmetry; apply Nat.ltb_ge; change (b64EncodedLen 256) with 342%nat; done).
    cbn [orb check mbind Go_bind]. rewrite b64Decode_b64Encode, bool_decide_eq_true_2 by done. rewrite (proj2 (Nat.ltb_ge _ _)) by done. done.
Qed.

(** ** Labels *)
Definition noSlash (s : string) : Prop := containsByte "/" s = false.

Lemma noSlash_by p s : p "/"%char = false -> allBytes p s = true -> noSlash s.
Proof. apply containsByte_allBytes. Qed.

Lemma noSlash_session id : noSlash (Session_String id).
Proof. apply (noSlash_by hexLower); [done|apply hexEncode_alphabet]. Qed.

Lemma noSlash_key k : keyOk k -> noSlash (GizKey_String k).
Proof. intros [Hok _]. by apply (noSlash_by (fun a => containsByte a btcAlphabet)), base58_alphabet. Qed.

Lemma noSlash_remote addr : noSlash (remoteText addr).
Proof. unfold remoteText. case_bool_decide; [done|]. apply (noSlash_by b64Safe); [done|apply b64Encode_safe]. Qed.

Lemma noSlash_uint v : uintOk 64 v -> noSlash (FormatUint v).
Proof. intros Hv. by apply (noSlash_by (between 48 57)), FormatUint_spec. Qed.

(** The parts of a label. *)
Definition labelOf (parts : list string) : string := LabelPrefix +:+ joinByte "/" parts.

Lemma split_labelOf parts : parts <> [] -> Forall noSlash parts -> splitByte "/" (dropStr (String.length LabelPrefix) (labelOf parts)) = parts.
Proof. intros Hne HF. unfold labelOf. rewrite dropStr_app. by apply splitByte_joinByte. Qed.

(** The printer for a parsed label, and the labels there are. *)
Definition printLabel (p : parsedLabel) : Go tunnelError string :=
  match pl_kind p with
  | labelControl => controlLabel (MkDeclaration (pl_session p) (pl_client p) (pl_remote p))
  | labelPacket => packetLabel (pl_session p)
  | labelService => serviceLabel (pl_session p) (pl_service p) (pl_channelID p)
  end.

Definition labelOk (p : parsedLabel) : Prop :=
  sessionOk (pl_session p) /\
  match pl_kind p with
  | labelControl => keyOk (pl_client p) /\ pl_service p = 0 /\ pl_channelID p = 0
  | labelPacket => pl_client p = zeroKey /\ pl_remote p = EmptyString /\ pl_service p = 0 /\ pl_channelID p = 0
  | labelService => pl_client p = zeroKey /\ pl_remote p = EmptyString /\ uintOk 64 (pl_service p) /\ uintOk 64 (pl_channelID p)
  end.

Lemma Session_String_length id : sessionOk id -> String.length (Session_String id) = 32%nat.
Proof. intros [_ HL]. unfold Session_String. by rewrite hexEncode_length, length_strOf, HL. Qed.

(** Every printer in the same form: the parts of the label, of which none has a slash. *)
Definition partsOf (p : parsedLabel) : list string :=
  match pl_kind p with
  | labelControl => [Session_String (pl_session p); "control"%string; GizKey_String (pl_client p); remoteText (pl_remote p)]
  | labelPacket => [Session_String (pl_session p); "packet"%string]
  | labelService => [Session_String (pl_session p); "service"%string; FormatUint (pl_service p); FormatUint (pl_channelID p)]
  end.
Definition printable (p : parsedLabel) : Prop :=
  Session_IsZero (pl_session p) = false /\
  match pl_kind p with
  | labelControl => Key_IsZero (pl_client p) = false /\ (String.length (pl_remote p) <= maxRemoteAddrSize)%nat
  | labelPacket => True
  | labelService => pl_channelID p <> 0
  end.

Lemma partsOf_ok p : labelOk p -> Forall noSlash (partsOf p) /\ partsOf p <> [].
Proof.
  intros [Hs HK]. unfold partsOf. split; [|by destruct (pl_kind p)]. pose proof (noSlash_session (pl_session p)).
  destruct (pl_kind p); repeat (apply Forall_cons; split); try apply Forall_nil; try done.
  - apply noSlash_key, HK.
  - apply noSlash_remote.
  - apply noSlash_uint. tauto.
  - apply noSlash_uint. tauto.
Qed.

(** No label comes near the limit of 512 bytes. *)
Lemma parts_length p : labelOk p -> printable p -> (String.length (labelOf (partsOf p)) <= 445)%nat.
Proof.
  intros [Hs HK] [_ HP]. unfold labelOf, partsOf. pose proof (Session_String_length _ Hs) as H32. destruct (pl_kind p); cbn [joinByte]; str_simpl; repeat (rewrite length_app_str || cbn [String.length]); rewrite ?H32; change (String.length LabelPrefix) with 17%nat.
  - pose proof (length_key_text _ (proj1 HK)). pose proof (remoteText_length _ (proj2 HP)). lia.
  - lia.
  - destruct HK as (_ & _ & H1 & H2), (FormatUint_spec _ H1) as (_ & L1 & _), (FormatUint_spec _ H2) as (_ & L2 & _). lia.
Qed.

Lemma printLabel_iff p l : labelOk p -> printLabel p = Ret l <-> printable p /\ l = labelOf (partsOf p).
Proof.
  intros Hok. pose proof (parts_length p Hok) as HL. revert HL. unfold printLabel, printable, partsOf. destruct (pl_kind p).
  - unfold controlLabel. cbn [sd_SessionID sd_ClientPublicKey sd_RemoteAddr]. fold (remoteText (pl_remote p)). set (label := LabelPrefix +:+ _).
    set (parts := [_; _; _; _]). assert (label = labelOf parts) as -> by (unfold label, labelOf, parts; cbn [joinByte]; by str_simpl). intros HL. split.
    + intros ([] & [[HZ HK]%orb_false_iff HA%Nat.ltb_ge]%check_Ret%orb_false_iff & HP)%bind_Ret. by apply bind_Ret in HP as ([] & _ & [= <-]).
    + intros ((HZ & HK & HA) & ->). specialize (HL ltac:(done)). rewrite HZ, HK, (proj2 (Nat.ltb_ge maxRemoteAddrSize _) HA). cbn [orb check mbind Go_bind].
      rewrite (proj2 (Nat.ltb_ge maxLabelSize _)); [done|unfold maxLabelSize; lia].
  - unfold packetLabel. set (label := LabelPrefix +:+ _). set (parts := [_; _]). assert (label = labelOf parts) as -> by (unfold label, labelOf, parts; cbn [joinByte]; by str_simpl).
    intros _. split; [intros ([] & HC%check_Ret & [= <-])%bind_Ret; done|]. intros ([-> _] & ->). done.
  - unfold serviceLabel. set (label := LabelPrefix +:+ _). set (parts := [_; _; _; _]). assert (label = labelOf parts) as -> by (unfold label, labelOf, parts; cbn [joinByte]; by str_simpl).
    intros _. split; [intros ([] & [HZ HN%Z.eqb_neq]%check_Ret%orb_false_iff & [= <-])%bind_Ret; done|]. intros ([-> HN] & ->). by rewrite (proj2 (Z.eqb_neq _ _)).
Qed.

(** What the parser makes of the parts. *)
Lemma parseLabel_parts p : labelOk p -> printable p -> parseLabel (labelOf (partsOf p)) = Ret p.
Proof.
  intros Hok HP. pose proof (parts_length p Hok HP) as HL. destruct (partsOf_ok p Hok) as [HF Hne]. unfold parseLabel. rewrite split_labelOf by done.
  replace (hasPrefix LabelPrefix (labelOf (partsOf p))) with true by (symmetry; apply hasPrefix_app).
  rewrite (proj2 (Nat.eqb_neq _ 0)) by (unfold labelOf; rewrite length_app_str; cbn; lia). rewrite (proj2 (Nat.ltb_ge maxLabelSize _)) by (unfold maxLabelSize; lia).
  cbn [negb orb check mbind Go_bind]. destruct Hok as [Hs HK], HP as [HZ HP]. destruct p as [kind id client remote service channel]. unfold partsOf. cbn [pl_kind pl_session pl_client pl_remote pl_service pl_channelID] in *.
  assert (parseSessionID (Session_String id) = Ret id) as HI by (by apply parseSessionID_iff).
  destruct kind; rewrite HI; cbn [mbind Go_bind].
  - destruct HK as (Hk & -> & ->), HP as [HKz HA]. rewrite bool_decide_eq_true_2 by done. cbn [Key_UnmarshalText]. rewrite decodeKeyText_String, HKz, bool_decide_eq_true_2 by done.
    cbn [orb negb check mbind Go_bind]. rewrite (proj2 (decodeRemoteAddr_iff (remoteText remote) remote)) by done. done.
  - destruct HK as (-> & -> & -> & ->). rewrite bool_decide_eq_false_2, bool_decide_eq_true_2 by done. done.
  - destruct HK as (-> & -> & H1 & H2). rewrite !bool_decide_eq_false_2, bool_decide_eq_true_2 by done.
    rewrite (proj2 (parseCanonicalUint_iff (FormatUint service) true service)) by auto. cbn [mbind Go_bind].
    rewrite (proj2 (parseCanonicalUint_iff (FormatUint channel) false channel)) by auto. done.
Qed.

Lemma parseLabel_inv l p : parseLabel l = Ret p -> labelOk p /\ printable p /\ l = labelOf (partsOf p).
Proof.
  unfold parseLabel. intros ([] & [_ HH%negb_false_iff]%check_Ret%orb_false_iff & HP)%bind_Ret. destruct (hasPrefix_spec _ _ HH) as [t ->]. rewrite dropStr_app in HP.
  pose proof (joinByte_splitByte "/" t) as HJ. destruct (splitByte "/" t) as [|first [|second rest]]; [done|done|].
  apply bind_Ret in HP as (id & (Hs & HZ & ->)%parseSessionID_iff & HP). unfold labelOf. rewrite <-HJ.
  destruct (decide (second = "control"%string)) as [->|N1]; [rewrite bool_decide_eq_true_2 in HP by done|rewrite bool_decide_eq_false_2 in HP by done].
  { destruct rest as [|key [|addr [|]]]; try done. cbn [Key_UnmarshalText] in HP. destruct (decodeKeyText key) as [client|e|] eqn:HK; [|done..].
    apply bind_Ret in HP as ([] & [HKz HE%negb_false_iff%bool_decide_eq_true_1]%check_Ret%orb_false_iff & HP). apply bind_Ret in HP as (remote & [HA ->]%decodeRemoteAddr_iff & [= <-]).
    apply decodeKeyText_inv in HK as [HK _]. rewrite <-HE. by split_and!. }
  destruct (decide (second = "packet"%string)) as [->|N2]; [rewrite bool_decide_eq_true_2 in HP by done|rewrite bool_decide_eq_false_2 in HP by done].
  { destruct rest; [|done]. injection HP as <-. by split_and!. }
  destruct (decide (second = "service"%string)) as [->|N3]; [rewrite bool_decide_eq_true_2 in HP by done|by rewrite bool_decide_eq_false_2 in HP].
  destruct rest as [|svc [|ch [|]]]; try done. apply bind_Ret in HP as (service & (H1 & _ & ->)%parseCanonicalUint_iff & HP).
  apply bind_Ret in HP as (channel & (H2 & [|H3] & ->)%parseCanonicalUint_iff & [= <-]); [done|]. by split_and!.
Qed.

(** Channel labels are unambiguous: [parseLabel] accepts exactly the labels that
    [controlLabel], [packetLabel] and [serviceLabel] print, and returns what they were
    printed from.  A label has one spelling and one meaning, and nothing outside the
    range of the printers is accepted. *)
Theorem parseLabel_iff l p : parseLabel l = Ret p <-> labelOk p /\ printLabel p = Ret l.
Proof.
  split.
  - intros (Hok & Hpr & ->)%parseLabel_inv. split; [done|]. by apply printLabel_iff.
  - intros [Hok HP]. apply printLabel_iff in HP as [Hpr ->]; [|done]. by apply parseLabel_parts.
Qed.

(** A declaration is refused only for what it declares: [controlLabel] returns a
    label exactly for a nonzero session, a nonzero client key and an address of at most
    256 bytes, and refuses anything else as an invalid frame; the limit of 512 bytes on
    labels is never the reason. *)
Theorem controlLabel_total d :
  sessionOk (sd_SessionID d) -> keyOk (sd_ClientPublicKey d) ->
  if Session_IsZero (sd_SessionID d) || Key_IsZero (sd_ClientPublicKey d) || (maxRemoteAddrSize <? String.length (sd_RemoteAddr d))%nat
  then controlLabel d = Fail ErrInvalidFrame
  else exists l, controlLabel d = Ret l /\ (String.length l <= 445)%nat.
Proof.
  intros Hs Hk. destruct (_ || _) eqn:HC; [unfold controlLabel; by rewrite HC|]. apply orb_false_iff in HC as [[HZ HK]%orb_false_iff HA%Nat.ltb_ge].
  set (p := MkLabel labelControl (sd_SessionID d) (sd_ClientPublicKey d) (sd_RemoteAddr d) 0 0). assert (labelOk p) as Hok by (by split_and!). assert (printable p) as Hpr by (by split_and!).
  exists (labelOf (partsOf p)). split; [|by apply parts_length]. assert (printLabel p = Ret (labelOf (partsOf p))) as HP by (by apply printLabel_iff). by destruct d.
Qed.

(** ** The session result *)
Definition resultOk (status : Z) (reason : string) : Prop :=
  (status = sessionAccepted /\ reason = EmptyString \/ status = sessionRejected) /\ (String.length reason <= maxRejectReasonSize)%nat /\ validUTF8 reason = true.

Definition resultFrame (status : Z) (reason : string) : Bytes :=
  sessionResultMagic ++ [status] ++ putBE16 (Z.of_nat (String.length reason)) ++ bytesOf reason.

Lemma wrap16 n : (n <= maxRejectReasonSize)%nat -> wrap 16 (Z.of_nat n) = Z.of_nat n.
Proof. unfold maxRejectReasonSize, wrap. intros Hn. apply Z.mod_small. lia. Qed.

Lemma encodeSessionResult_iff status reason frame : encodeSessionResult status reason = Ret frame <-> resultOk status reason /\ frame = resultFrame status reason.
Proof.
  unfold encodeSessionResult, resultOk, resultFrame, sessionAccepted, sessionRejected. split.
  - intros ([] & HC%check_Ret & [= <-])%bind_Ret. apply orb_false_iff in HC as [[[HC1 HC2]%orb_false_iff HL%Nat.ltb_ge]%orb_false_iff HU%negb_false_iff].
    split; [|by rewrite wrap16]. split_and!; [|done|done].
    destruct (Z.eqb_spec status 0); cbn in HC1; [left; by apply negb_false_iff, bool_decide_eq_true in HC1|]. right. cbn in HC2. destruct (Z.eqb_spec status 1); done.
  - intros [(Hor & HL & HU) ->]. rewrite HU, (proj2 (Nat.ltb_ge _ _)) by done. cbn [negb orb]. rewrite !orb_false_r.
    assert ((status =? 0) && negb (bool_decide (reason = EmptyString)) || negb (status =? 0) && negb (status =? 1) = false) as ->.
    { destruct Hor as [[-> ->]| ->]; [done|]. done. }
    cbn [check mbind Go_bind]. by rewrite wrap16.
Qed.

Lemma BE16 n : (n <= maxRejectReasonSize)%nat -> Z.of_nat n / 256 mod 256 * 256 + Z.of_nat n mod 256 = Z.of_nat n.
Proof.
  unfold maxRejectReasonSize. intros Hn. pose proof (Z.div_mod (Z.of_nat n) 256 ltac:(lia)). assert (Z.of_nat n / 256 < 256) by (apply Z.div_lt_upper_bound; lia).
  assert (0 <= Z.of_nat n / 256) by (apply Z.div_pos; lia). rewrite (Z.mod_small (Z.of_nat n / 256)) by lia. lia.
Qed.

Lemma getBE16_put {E} n : (n <= maxRejectReasonSize)%nat -> getBE16 (E := E) (putBE16 (Z.of_nat n)) = Ret (Z.of_nat n).
Proof. intros Hn. unfold getBE16, putBE16, index. cbn [lookup list_lookup mbind Go_bind]. by rewrite BE16. Qed.

Lemma decode_resultFrame status reason : resultOk status reason -> decodeSessionResult (resultFrame status reason) = Ret (status, reason).
Proof.
  intros (Hor & HL & HU). unfold decodeSessionResult. assert (length (resultFrame status reason) = 7 + String.length reason)%nat as HF by (cbn; by rewrite length_bytesOf).
  rewrite (proj2 (Nat.ltb_ge _ _)) by (rewrite HF; unfold sessionResultHeaderSize; lia). rewrite (proj2 (Nat.ltb_ge _ _)) by (rewrite HF; unfold sessionResultHeaderSize; lia).
  rewrite bool_decide_eq_true_2 by done. cbn [negb orb check mbind Go_bind]. change (index (resultFrame status reason) 4) with (Ret (E := tunnelError) status). cbn [mbind Go_bind].
  rewrite (slice_ok _ 5 7) by lia. change (take (7 - 5) (drop 5 (resultFrame status reason))) with (putBE16 (Z.of_nat (String.length reason))). cbn [mbind Go_bind].
  rewrite getBE16_put by done. cbn [mbind Go_bind]. rewrite slice_ok by lia. change (drop 7 (resultFrame status reason)) with (bytesOf reason).
  rewrite take_ge by (rewrite length_bytesOf; lia). cbn [mbind Go_bind]. rewrite strOf_bytesOf, HU, HF. replace (Z.of_nat (7 + String.length reason) - 7) with (Z.of_nat (String.length reason)) by lia.
  rewrite Z.eqb_refl. cbn [negb orb check mbind Go_bind]. destruct Hor as [[-> ->]| ->]; done.
Qed.

Lemma putBE16_get hi lo : isByte hi -> isByte lo -> putBE16 (hi * 256 + lo) = [hi; lo].
Proof.
  unfold isByte, putBE16. intros Hh Hl. rewrite Z.div_add_l, (Z.div_small lo 256), Z.add_0_r, (Z.mod_small hi) by lia.
  by rewrite Z.add_comm, Z_mod_plus_full, Z.mod_small by lia.
Qed.

Lemma decode_inv payload status reason : bytesOk payload -> decodeSessionResult payload = Ret (status, reason) -> resultOk status reason /\ payload = resultFrame status reason.
Proof.
  intros Hok. unfold decodeSessionResult. intros ([] & HC%check_Ret & HD)%bind_Ret. apply orb_false_iff in HC as [[HL1%Nat.ltb_ge HL2%Nat.ltb_ge]%orb_false_iff HM%negb_false_iff%bool_decide_eq_true_1].
  unfold sessionResultHeaderSize, maxRejectReasonSize in HL1, HL2. destruct payload as [|m0 [|m1 [|m2 [|m3 [|st [|hi [|lo payload]]]]]]]; try (cbn in HL1; lia). unfold bytesOk in Hok. rewrite !Forall_cons in Hok.
  destruct Hok as (_ & _ & _ & _ & _ & Hhi & Hlo & Hok). cbn [take] in HM. injection HM as -> -> -> ->. cbn [index mbind Go_bind lookup list_lookup] in HD.
  rewrite (slice_ok _ 5 7) in HD by (cbn [length]; lia). cbn [drop take Nat.sub mbind Go_bind getBE16 index lookup list_lookup] in HD. rewrite (slice_ok _ 7) in HD by (cbn [length]; lia). cbn [drop mbind Go_bind] in HD.
  rewrite drop_0, take_ge in HD by (cbn [length]; lia). apply bind_Ret in HD as ([] & [HS%negb_false_iff%Z.eqb_eq HU%negb_false_iff]%check_Ret%orb_false_iff & HD).
  apply bind_Ret in HD as ([] & HC%check_Ret & [= <- <-]). apply orb_false_iff in HC as [HC1 HC2]. cbn [length] in *.
  assert (String.length (strOf payload) = length payload) as HSL by apply length_strOf. split.
  - split_and!; [|unfold maxRejectReasonSize; lia|done]. unfold sessionAccepted, sessionRejected in *.
    destruct (Z.eqb_spec st 0) as [->|]; cbn in HC1, HC2; [left; split; [done|]; by apply negb_false_iff, bool_decide_eq_true in HC1|].
    right. apply negb_false_iff, Z.eqb_eq in HC2. done.
  - unfold resultFrame. rewrite HSL, bytesOf_strOf by done. replace (Z.of_nat (length payload)) with (hi * 256 + lo) by lia. by rewrite putBE16_get.
Qed.

Lemma resultFrame_split status reason : resultFrame status reason = (sessionResultMagic ++ [status] ++ putBE16 (Z.of_nat (String.length reason))) ++ bytesOf reason.
Proof. done. Qed.

Lemma read_resultFrame status reason rest e : resultOk status reason ->
  readSessionResult (MkReader (resultFrame status reason ++ rest) e) = (MkReader rest e, Ret (status, reason)).
Proof.
  intros HR. pose proof (decode_resultFrame status reason HR) as HD. destruct HR as (_ & HL & _). rewrite resultFrame_split in HD |- *. set (header := sessionResultMagic ++ _) in *.
  unfold readSessionResult, mbind, ST_bind, mapErrST, lift, checkST. change sessionResultHeaderSize with (length header). rewrite <-app_assoc, readFull_app.
  change (slice header 5 7) with (Ret (E := resultError) (putBE16 (Z.of_nat (String.length reason)))). cbn iota. rewrite getBE16_put by done. unfold lift.
  change (take 4 header) with sessionResultMagic. rewrite bool_decide_eq_true_2 by done. rewrite (proj2 (Z.ltb_ge _ _)) by lia. cbn [negb orb check]. rewrite Nat2Z.id, <-length_bytesOf, readFull_app.
  rewrite HD. done.
Qed.

Lemma readFull_short n data : (length data < n)%nat -> exists r e, readFull n (MkReader data IoEOF) = (r, Fail e) /\ (e = IoEOF \/ e = IoUnexpectedEOF).
Proof.
  intros HL. unfold readFull. cbn [rd_data rd_end]. rewrite (proj2 (Nat.eqb_neq _ _)), (proj2 (Nat.leb_gt _ _)) by lia.
  eexists _, _. split; [done|]. rewrite bool_decide_eq_true_2 by done. destruct (length data =? 0)%nat; cbn; auto.
Qed.

(** The session result survives any stream: [readSessionResult] reads the frame that
    [encodeSessionResult] wrote back to its status and reason and leaves what follows
    it; whatever it accepts is such a frame; and a frame cut short is an error of the
    stream, never a result. *)
Theorem sessionResult_stream status reason frame rest e :
  encodeSessionResult status reason = Ret frame ->
  readSessionResult (MkReader (frame ++ rest) e) = (MkReader rest e, Ret (status, reason)) /\
  (forall r r' x, bytesOk (rd_data r) -> readSessionResult r = (r', Ret x) ->
     exists frame', encodeSessionResult x.1 x.2 = Ret frame' /\ rd_data r = frame' ++ rd_data r') /\
  (forall n, (n < length frame)%nat -> exists r e, readSessionResult (MkReader (take n frame) IoEOF) = (r, Fail (inl e)) /\ (e = IoEOF \/ e = IoUnexpectedEOF)).
Proof.
  intros [HR ->]%encodeSessionResult_iff. split_and!; [by apply read_resultFrame| |].
  - intros r r' [status' reason'] Hok. unfold readSessionResult, mbind, ST_bind, mapErrST, lift, checkST.
    destruct (readFull sessionResultHeaderSize r) as [r1 [header|x|]] eqn:E1; [|done..]. destruct (slice header 5 7) as [size|x|]; [|done..]. destruct (getBE16 size) as [n|x|]; [|done..].
    unfold lift. destruct (check _ _) as [[]|x|]; [|done..]. destruct (readFull (Z.to_nat n) r1) as [r2 [tail|x|]] eqn:E2; [|done..].
    destruct (decodeSessionResult (header ++ tail)) as [y|x|] eqn:HD; [|done..]. intros [= <- ->]. apply readFull_sound in E1 as (H1 & _), E2 as (H2 & _). rewrite H2, app_assoc in H1.
    apply decode_inv in HD as [HR' HF]; [|rewrite H1 in Hok; by apply Forall_app in Hok as [? _]]. exists (header ++ tail). split; [|done]. cbn [fst snd]. apply encodeSessionResult_iff. done.
  - intros n Hn. destruct HR as (_ & HL & _). rewrite resultFrame_split in *. set (header := sessionResultMagic ++ _) in *. assert (length header = 7%nat) as H7 by done.
    rewrite length_app, H7, length_bytesOf in Hn. unfold readSessionResult, mbind, ST_bind, mapErrST, lift, checkST. destruct (Nat.lt_ge_cases n 7) as [Hlt|Hge].
    + destruct (readFull_short sessionResultHeaderSize (take n (header ++ bytesOf reason))) as (r & x & -> & Hx); [rewrite length_take; unfold sessionResultHeaderSize; lia|]. by exists r, x.
    + rewrite take_app_ge, H7 by lia. change sessionResultHeaderSize with (length header). rewrite readFull_app.
      change (slice header 5 7) with (Ret (E := resultError) (putBE16 (Z.of_nat (String.length reason)))). cbn iota. rewrite getBE16_put by done. unfold lift.
      change (take 4 header) with sessionResultMagic. rewrite bool_decide_eq_true_2 by done. rewrite (proj2 (Z.ltb_ge _ _)) by lia. cbn [negb orb check]. rewrite Nat2Z.id.
      destruct (readFull_short (String.length reason) (take (n - 7) (bytesOf reason))) as (r & x & -> & Hx); [rewrite length_take, length_bytesOf; lia|]. by exists r, x.
Qed.

(** ** Opus packets *)

(** An opus packet carries its session and its payload unchanged within 64 KiB:
    [encodeOpusPacket] accepts exactly nonzero sessions with payloads of 1 to 65519
    bytes, its frame has at most 65536 bytes, and [decodeOpusPacket] returns the session
    and the payload of the frames that carry the version, a nonzero session and at least
    one byte, and refuses every other frame without a panic. *)
Theorem opus_roundtrip id payload :
  sessionOk id ->
  (if Session_IsZero id || (length payload =? 0)%nat then encodeOpusPacket id payload = Fail ErrInvalidFrame
   else if (maxOpusPayloadSize <? length payload)%nat then encodeOpusPacket id payload = Fail ErrPacketTooLarge
   else exists frame, encodeOpusPacket id payload = Ret frame /\ Z.of_nat (length frame) <= 65536 /\ decodeOpusPacket frame = Ret (id, payload)) /\
  (forall frame, decodeOpusPacket frame = Fail ErrInvalidFrame \/
     exists id' payload', decodeOpusPacket frame = Ret (id', payload') /\ frame = Version :: id' ++ payload' /\
       length id' = SessionIDSize /\ Session_IsZero id' = false /\ payload' <> []).
Proof.
  intros [Hok HL]. split.
  - unfold encodeOpusPacket. destruct (Session_IsZero id || (length payload =? 0)%nat) eqn:HC; [done|]. apply orb_false_iff in HC as [HZ Hne%Nat.eqb_neq]. cbn [check mbind Go_bind].
    destruct (Nat.ltb_spec maxOpusPayloadSize (length payload)) as [Hbig|Hfit]; [done|]. cbn [check mbind Go_bind]. eexists. split; [done|].
    assert (Z.of_nat (length payload) <= 65519) as HP by (unfold maxOpusPayloadSize in Hfit; lia). unfold SessionIDSize in HL.
    split; [cbn [app length]; rewrite length_app; lia|]. unfold decodeOpusPacket. rewrite (proj2 (Nat.leb_gt _ _)) by (cbn [app length]; rewrite length_app; unfold opusHeaderSize; lia).
    cbn [app check mbind Go_bind index lookup list_lookup]. rewrite Z.eqb_refl. cbn [negb check mbind Go_bind].
    rewrite (slice_ok _ 1 opusHeaderSize) by (cbn [length]; rewrite length_app; unfold opusHeaderSize; lia). change (drop 1 (Version :: id ++ payload)) with (id ++ payload).
    replace (opusHeaderSize - 1)%nat with (length id) by (by rewrite HL). rewrite take_app_length. cbn [mbind Go_bind]. rewrite HZ. cbn [check mbind Go_bind].
    rewrite slice_ok by (cbn [length]; rewrite length_app; unfold opusHeaderSize; lia). change (drop opusHeaderSize (Version :: id ++ payload)) with (drop 16 (id ++ payload)).
    replace 16%nat with (length id) by done. rewrite drop_app_length, take_ge by (cbn [length]; rewrite length_app; unfold opusHeaderSize; lia). done.
  - intros frame. unfold decodeOpusPacket. destruct (Nat.leb_spec (length frame) opusHeaderSize) as [Hs|Hl]; [by left|]. cbn [check mbind Go_bind]. unfold opusHeaderSize in *.
    destruct frame as [|v frame]; [cbn in Hl; lia|]. cbn [index lookup list_lookup mbind Go_bind]. destruct (Z.eqb_spec v Version) as [->|]; [|by left]. cbn [negb check mbind Go_bind].
    rewrite (slice_ok _ 1 17) by lia. change (take (17 - 1) (drop 1 (Version :: frame))) with (take 16 frame). cbn [mbind Go_bind]. destruct (Session_IsZero (take 16 frame)) eqn:HZ; [by left|]. right.
    cbn [check mbind Go_bind]. rewrite slice_ok by lia. change (drop 17 (Version :: frame)) with (drop 16 frame). cbn [length] in *. rewrite (take_ge (drop 16 frame)) by (rewrite length_drop; lia). cbn [mbind Go_bind].
    exists (take 16 frame), (drop 16 frame). split_and!; [done|by rewrite take_drop|rewrite length_take; unfold SessionIDSize; lia|done|]. intros E. apply (f_equal length) in E. rewrite length_drop in E. cbn in E. lia.
Qed.

(** ** Examples *)
Definition exSession : Bytes := 1 :: repeat 0 15.

Lemma exSession_ok : sessionOk exSession.
Proof. split; [apply (bool_decide_eq_true (Forall _ _)); vm_compute; reflexivity|reflexivity]. Qed.

Lemma controlLabel_total_witness :
  exists l, controlLabel (MkDeclaration exSession exKey "10.0.0.7:51820") = Ret l /\ (String.length l <= 445)%nat.
Proof. exact (controlLabel_total (MkDeclaration exSession exKey "10.0.0.7:51820") exSession_ok exKey_ok). Defined.

Definition exFrame : Bytes := resultFrame sessionRejected "busy".

Lemma sessionResult_stream_witness :
  readSessionResult (MkReader (exFrame ++ [1; 2; 3]) IoEOF) = (MkReader [1; 2; 3] IoEOF, Ret (sessionRejected, "busy"%string)) /\
  exists r e, readSessionResult (MkReader (take 9 exFrame) IoEOF) = (r, Fail (inl e)) /\ (e = IoEOF \/ e = IoUnexpectedEOF).
Proof.
  destruct (sessionResult_stream sessionRejected "busy" exFrame [1; 2; 3] IoEOF) as (H1 & _ & H3); [vm_compute; reflexivity|].
  split; [exact H1|]. apply (H3 9%nat). vm_compute. lia.
Defined.

Lemma opus_roundtrip_witness : exists frame, encodeOpusPacket exSession [7; 8] = Ret frame /\ Z.of_nat (length frame) <= 65536 /\ decodeOpusPacket frame = Ret (exSession, [7; 8]).
Proof. exact (proj1 (opus_roundtrip exSession [7; 8] exSession_ok)). Defined.
