(* ===== verification/MapCount.v ===== *)
(** * Counting and summing the entries of a map

    Shared by the components that keep a counter next to a map: the number of entries
    that satisfy a test, and the sum of their values, under insertion, deletion and update. *)

From stdpp Require Import gmap.
From S2P Require Import Prelude.

Open Scope Z_scope.

Section count.
Context `{Countable K} {A : Type} (p : A -> bool).

Definition cnt (m : gmap K A) : nat := size (filter (fun kv => p kv.2 = true) m).

Lemma cnt_insert_new m k v : m !! k = None -> cnt (<[k := v]> m) = ((if p v then 1 else 0) + cnt m)%nat.
Proof.
  intros Hk. unfold cnt. destruct (p v) eqn:Hp.
  - rewrite map_filter_insert_True by done. rewrite map_size_insert_None; [done|]. apply map_lookup_filter_None. by left.
  - rewrite map_filter_insert_False by (cbn; congruence). by rewrite delete_id.
Qed.

Lemma cnt_delete m k v : m !! k = Some v -> cnt m = ((if p v then 1 else 0) + cnt (delete k m))%nat.
Proof.
  intros Hk. rewrite <-(cnt_insert_new (delete k m) k v) by apply lookup_delete_eq. by rewrite insert_delete_id.
Qed.

Lemma cnt_update m k v w : m !! k = Some v -> p w = p v -> cnt (<[k := w]> m) = cnt m.
Proof.
  intros Hk Hp. rewrite <-insert_delete_eq, cnt_insert_new, Hp by apply lookup_delete_eq. by rewrite <-(cnt_delete m k v).
Qed.

Lemma cnt_replace m k v w :
  m !! k = Some v -> (cnt (<[k := w]> m) + (if p v then 1 else 0) = cnt m + (if p w then 1 else 0))%nat.
Proof.
  intros Hk. rewrite <-insert_delete_eq, cnt_insert_new, (cnt_delete m k v Hk) by apply lookup_delete_eq. lia.
Qed.

Lemma cnt_zero m : (forall k v, m !! k = Some v -> p v = false) -> cnt m = 0%nat.
Proof.
  intros Hp. unfold cnt. apply map_size_empty_iff, map_empty. intros k. apply map_lookup_filter_None. right. intros v Hk HH. cbn in HH. by rewrite (Hp k v Hk) in HH.
Qed.

(** A positive count names an entry, and a count of one names the only one. *)
Lemma cnt_exists m : (0 < cnt m)%nat -> exists k v, m !! k = Some v /\ p v = true.
Proof.
  intros Hc. destruct (map_choose (filter (fun kv => p kv.2 = true) m)) as (k & v & Hk).
  - intros HE. unfold cnt in Hc. rewrite HE, map_size_empty in Hc. lia.
  - apply map_lookup_filter_Some in Hk as [Hk Hp]. eauto.
Qed.

Lemma cnt_unique m k1 v1 k2 v2 :
  (cnt m <= 1)%nat -> m !! k1 = Some v1 -> p v1 = true -> m !! k2 = Some v2 -> p v2 = true -> k1 = k2.
Proof.
  intros Hc H1 P1 H2 P2. destruct (decide (k1 = k2)) as [->|Hne]; [done|exfalso].
  rewrite (cnt_delete m k1 v1 H1), P1 in Hc.
  assert (delete k1 m !! k2 = Some v2) as HD by (by rewrite lookup_delete_ne).
  rewrite (cnt_delete _ k2 v2 HD), P2 in Hc. lia.
Qed.

Lemma cnt_alter m k f : (forall v, p (f v) = p v) -> cnt (alter f k m) = cnt m.
Proof.
  intros Hf. destruct (m !! k) as [v|] eqn:Hk.
  - assert (alter f k m = <[k := f v]> m) as -> by (apply map_eq; intros j; destruct (decide (j = k)) as [->|]; [by rewrite lookup_alter_eq, lookup_insert_eq, Hk|by rewrite lookup_alter_ne, lookup_insert_ne]).
    by apply (cnt_update m k v).
  - f_equal. apply map_eq. intros j. destruct (decide (j = k)) as [->|]; [by rewrite lookup_alter_eq, Hk|by rewrite lookup_alter_ne].
Qed.

Lemma cnt_pos m k v : m !! k = Some v -> p v = true -> (0 < cnt m)%nat.
Proof. intros Hk Hp. rewrite (cnt_delete m k v Hk), Hp. lia. Qed.
End count.

Lemma size_delete_pos `{Countable K} {A} (m : gmap K A) k v : m !! k = Some v -> size m = S (size (delete k m)).
Proof. intros Hk. rewrite map_size_delete, Hk. cbn. assert (size m <> 0%nat); [|lia]. intros Hz%map_size_empty_inv. subst. by rewrite lookup_empty in Hk. Qed.

(** ** Sums

    The sum of the values whose keys satisfy a test. *)
Section sum.
Context `{Countable K} (p : K -> bool).

Definition sumOn (m : gmap K Z) : Z := map_fold (fun k v acc => if p k then v + acc else acc) 0 m.

Lemma sumOn_insert_new m k v : m !! k = None -> sumOn (<[k := v]> m) = (if p k then v else 0) + sumOn m.
Proof.
  intros Hk. unfold sumOn. rewrite map_fold_insert_L; [by destruct (p k)| |done]. intros j1 j2 z1 z2 y _ _ _. destruct (p j1), (p j2); lia.
Qed.

Lemma sumOn_delete m k v : m !! k = Some v -> sumOn m = (if p k then v else 0) + sumOn (delete k m).
Proof. intros Hk. rewrite <-(sumOn_insert_new (delete k m)) by apply lookup_delete_eq. by rewrite insert_delete_id. Qed.

Lemma sumOn_insert m k v : sumOn (<[k := v]> m) = (if p k then v - default 0 (m !! k) else 0) + sumOn m.
Proof.
  destruct (m !! k) as [w|] eqn:Hk; [|rewrite sumOn_insert_new by done; cbn; destruct (p k); lia].
  rewrite <-insert_delete_eq, sumOn_insert_new, (sumOn_delete m k w Hk) by apply lookup_delete_eq. cbn. destruct (p k); lia.
Qed.

Lemma sumOn_empty : sumOn ∅ = 0.
Proof. apply map_fold_empty. Qed.

Lemma sumOn_nonneg m : (forall k v, m !! k = Some v -> 0 <= v) -> 0 <= sumOn m.
Proof.
  induction m as [|k v m Hk IH] using map_ind; intros Hm; [rewrite sumOn_empty; lia|]. rewrite sumOn_insert_new by done.
  assert (0 <= v) by (apply (Hm k), lookup_insert_eq). assert (0 <= sumOn m); [|destruct (p k); lia]. apply IH. intros j w Hj. apply (Hm j). rewrite lookup_insert_ne; [done|]. intros ->. congruence.
Qed.

(** Entries that the test refuses do not matter. *)
Lemma sumOn_filter (Q : K * Z -> Prop) `{!forall kv, Decision (Q kv)} m : (forall k v, m !! k = Some v -> p k = true -> Q (k, v)) -> sumOn (filter Q m) = sumOn m.
Proof.
  induction m as [|k v m Hk IH] using map_ind; intros Hm; [by rewrite map_filter_empty|].
  assert (forall j w, m !! j = Some w -> p j = true -> Q (j, w)) as Hm' by (intros j w Hj; apply Hm; rewrite lookup_insert_ne; [done|]; intros ->; congruence).
  rewrite sumOn_insert_new by done. destruct (decide (Q (k, v))) as [HQ|HQ].
  - rewrite map_filter_insert_True by done. rewrite sumOn_insert_new, IH; [done|done|]. apply map_lookup_filter_None. by left.
  - rewrite map_filter_insert_False by done. rewrite delete_id, IH by done. destruct (p k) eqn:Hp; [|lia]. exfalso. apply HQ, Hm; [apply lookup_insert_eq|done].
Qed.
End sum.

Lemma sumOn_ext `{Countable K} (p q : K -> bool) (m : gmap K Z) : (forall k v, m !! k = Some v -> p k = q k) -> sumOn p m = sumOn q m.
Proof.
  induction m as [|k v m Hk IH] using map_ind; intros Hm; [done|]. rewrite !sumOn_insert_new, IH by (done || (intros j w Hj; apply (Hm j w); rewrite lookup_insert_ne; [done|]; intros ->; congruence)).
  by rewrite (Hm k v) by apply lookup_insert_eq.
Qed.

Lemma sumOn_split `{Countable K} (p q : K -> bool) (m : gmap K Z) : sumOn p m = sumOn (fun k => p k && q k) m + sumOn (fun k => p k && negb (q k)) m.
Proof.
  induction m as [|k v m Hk IH] using map_ind; [done|]. rewrite !sumOn_insert_new by done. rewrite IH. destruct (p k), (q k); cbn; lia.
Qed.
