(* ===== verification/KeyedLock.v ===== *)
(** * internal/keyedlock: reference-counted locks per key

    Models [src/pkgs/internal/keyedlock/keyedlock.go].  A call of [Acquire] is split at
    the points where other goroutines can run: registering under the mutex, the select
    that either puts the token into the entry's channel or sees the context cancelled,
    the recheck of the context, and the return of the token and of the reference.
    Entries are heap objects, so that a call keeps the entry it has registered with
    even if the map has a new one for the key.  A step that is not enabled (a full
    channel to send to, an empty one to receive from) is [None]. *)

From stdpp Require Import gmap.
From S2P Require Import Prelude MapCount.

Open Scope Z_scope.

Section keyedlock.
Context {K : Type} `{Countable K}.

(** [token chan struct{}] has capacity one: [true] is full. *)
Record lockEntry := MkLockEntry { en_token : bool; en_refs : Z }.

(** Where a call of [Acquire] and of its release function is. *)
Inductive lockPhase :=
  | Waiting (* in the select *)
  | Owning (* has put the token, before [ctx.Err] *)
  | Holding (* has returned the release function *)
  | Returning (* about to take the token back *)
  | Leaving (* about to call [releaseReference] *).

#[global] Instance lockPhase_dec : EqDecision lockPhase.
Proof. solve_decision. Defined.

Record lockCall := MkLockCall { lc_key : K; lc_item : nat; lc_phase : lockPhase }.

(** The map of the locker (a nil map is empty), the entries, and the calls that have
    not finished. *)
Record Locker := MkLocker { lk_entries : gmap K nat; lk_heap : gmap nat lockEntry; lk_calls : gmap nat lockCall }.

Definition newLocker : Locker := MkLocker ∅ ∅ ∅.

Definition setCalls (m : gmap nat lockCall) (s : Locker) : Locker := MkLocker (lk_entries s) (lk_heap s) m.
Definition setHeap (m : gmap nat lockEntry) (s : Locker) : Locker := MkLocker (lk_entries s) m (lk_calls s).

Definition setPhase (c : nat) (p : lockPhase) (s : Locker) : Locker :=
  setCalls (alter (fun cl => MkLockCall (lc_key cl) (lc_item cl) p) c (lk_calls s)) s.
Definition setToken (i : nat) (b : bool) (s : Locker) : Locker :=
  setHeap (alter (fun e => MkLockEntry b (en_refs e)) i (lk_heap s)) s.
Definition addRefs (i : nat) (n : Z) (s : Locker) : Locker :=
  setHeap (alter (fun e => MkLockEntry (en_token e) (en_refs e + n)) i (lk_heap s)) s.

(** The entry of the key, made when there is none. *)
Definition entryFor (key : K) (s : Locker) : Locker * nat :=
  match lk_entries s !! key with
  | Some item => (s, item)
  | None => let item := fresh (dom (lk_heap s)) in
            (MkLocker (<[key := item]> (lk_entries s)) (<[item := MkLockEntry false 0]> (lk_heap s)) (lk_calls s), item)
  end.

(** The part of [Acquire] under the mutex, by the new call [c]. *)
Definition acquireEnter (c : nat) (key : K) (s : Locker) : option Locker :=
  match lk_calls s !! c with
  | Some _ => None
  | None => let '(s, item) := entryFor key s in
            let s := addRefs item 1 s in
            Some (setCalls (<[c := MkLockCall key item Waiting]> (lk_calls s)) s)
  end.

(** What a call in phase [p] does next. *)
Definition atPhase (c : nat) (p : lockPhase) (s : Locker) (f : lockCall -> option Locker) : option Locker :=
  match lk_calls s !! c with
  | Some cl => if decide (lc_phase cl = p) then f cl else None
  | None => None
  end.

Definition tokenOf (i : nat) (s : Locker) : option bool := en_token <$> lk_heap s !! i.

(** [case item.token <- struct{}{}]. *)
Definition acquireSend (c : nat) (s : Locker) : option Locker :=
  atPhase c Waiting s (fun cl =>
    match tokenOf (lc_item cl) s with
    | Some false => Some (setPhase c Owning (setToken (lc_item cl) true s))
    | _ => None
    end).

(** [if err := ctx.Err(); err != nil]; otherwise the release function is returned. *)
Definition acquireRecheck (c : nat) (cancelled : bool) (s : Locker) : option Locker :=
  atPhase c Owning s (fun _ => Some (setPhase c (if cancelled then Returning else Holding) s)).

(** [case <-ctx.Done()]. *)
Definition acquireCancel (c : nat) (s : Locker) : option Locker :=
  atPhase c Waiting s (fun _ => Some (setPhase c Leaving s)).

(** A call of the release function: only the first one does anything. *)
Definition lockRelease (c : nat) (s : Locker) : Locker :=
  default s (atPhase c Holding s (fun _ => Some (setPhase c Returning s))).

(** [<-item.token]. *)
Definition takeToken (c : nat) (s : Locker) : option Locker :=
  atPhase c Returning s (fun cl =>
    match tokenOf (lc_item cl) s with
    | Some true => Some (setPhase c Leaving (setToken (lc_item cl) false s))
    | _ => None
    end).

Definition dropEntry (key : K) (item : nat) (s : Locker) : Locker :=
  match lk_heap s !! item with
  | Some e => if (en_refs e =? 0) && bool_decide (lk_entries s !! key = Some item)
              then MkLocker (delete key (lk_entries s)) (lk_heap s) (lk_calls s) else s
  | None => s
  end.

(** The call ends after it. *)
Definition releaseReference (c : nat) (s : Locker) : option Locker :=
  atPhase c Leaving s (fun cl =>
    let s := dropEntry (lc_key cl) (lc_item cl) (addRefs (lc_item cl) (-1) s) in
    Some (setCalls (delete c (lk_calls s)) s)).

Definition ActiveKeys (s : Locker) : nat := size (lk_entries s).

(** Any goroutine may take the next step. *)
Inductive lockStep : Locker -> Locker -> Prop :=
  | step_enter c key s s' : acquireEnter c key s = Some s' -> lockStep s s'
  | step_send c s s' : acquireSend c s = Some s' -> lockStep s s'
  | step_recheck c b s s' : acquireRecheck c b s = Some s' -> lockStep s s'
  | step_cancel c s s' : acquireCancel c s = Some s' -> lockStep s s'
  | step_release c s : lockStep s (lockRelease c s)
  | step_take c s s' : takeToken c s = Some s' -> lockStep s s'
  | step_leave c s s' : releaseReference c s = Some s' -> lockStep s s'.

Definition lockReachable : Locker -> Prop := rtc lockStep newLocker.

(** ** The invariant *)
Definition ownsPhase (p : lockPhase) : bool :=
  match p with Owning | Holding | Returning => true | _ => false end.
Definition hasToken (cl : lockCall) : bool := ownsPhase (lc_phase cl).

Definition atKey (key : K) (cl : lockCall) : bool := bool_decide (lc_key cl = key).
Definition usersOf (key : K) (s : Locker) : nat := cnt (atKey key) (lk_calls s).
Definition ownersOf (key : K) (s : Locker) : nat := cnt (fun cl => atKey key cl && hasToken cl) (lk_calls s).

(** An entry counts the calls that use its key, and its token says whether one of
    them owns it. *)
Definition entryOk (key : K) (e : lockEntry) (s : Locker) : Prop :=
  en_refs e = Z.of_nat (usersOf key s) /\ ownersOf key s = (if en_token e then 1 else 0)%nat.

Record lockInv (s : Locker) : Prop := {
  li_calls : forall c cl, lk_calls s !! c = Some cl -> lk_entries s !! lc_key cl = Some (lc_item cl);
  li_entries : forall key item, lk_entries s !! key = Some item ->
    (0 < usersOf key s)%nat /\ exists e, lk_heap s !! item = Some e /\ entryOk key e s;
  li_inj : forall k1 k2 item, lk_entries s !! k1 = Some item -> lk_entries s !! k2 = Some item -> k1 = k2;
}.

Lemma usersOf_pos s c cl : lk_calls s !! c = Some cl -> (0 < usersOf (lc_key cl) s)%nat.
Proof. intros Hc. apply (cnt_pos _ _ c cl Hc). unfold atKey. by apply bool_decide_eq_true_2. Qed.

Lemma newLocker_inv : lockInv newLocker.
Proof. split; by intros. Qed.

Lemma call_entry s c cl :
  lockInv s -> lk_calls s !! c = Some cl ->
  lk_entries s !! lc_key cl = Some (lc_item cl) /\ exists e, lk_heap s !! lc_item cl = Some e /\ entryOk (lc_key cl) e s.
Proof. intros HI Hc. pose proof (li_calls s HI c cl Hc) as He. split; [done|]. by apply (li_entries s HI). Qed.

(** A step that changes the phase of a call, and the token of its entry with it. *)
Lemma phase_inv s c cl p heap' e tok :
  lockInv s -> lk_calls s !! c = Some cl -> lk_heap s !! lc_item cl = Some e -> entryOk (lc_key cl) e s ->
  heap' = <[lc_item cl := MkLockEntry tok (en_refs e)]> (lk_heap s) ->
  ((if ownsPhase p then 1 else 0) + (if en_token e then 1 else 0) = (if hasToken cl then 1 else 0) + (if tok then 1 else 0))%nat ->
  lockInv (MkLocker (lk_entries s) heap' (<[c := MkLockCall (lc_key cl) (lc_item cl) p]> (lk_calls s))).
Proof.
  intros HI Hc He [Hr Ho] -> Htok. pose proof (li_calls s HI c cl Hc) as Hent. split; cbn [lk_calls lk_entries lk_heap].
  - intros c' cl'. destruct (decide (c' = c)) as [->|Hne].
    + rewrite lookup_insert_eq. by intros [= <-].
    + rewrite lookup_insert_ne by done. apply (li_calls s HI).
  - intros key item Hk. destruct (li_entries s HI key item Hk) as (Hpos & e' & He' & Hr' & Ho').
    unfold entryOk, usersOf, ownersOf. cbn [lk_calls].
    pose proof (cnt_replace (atKey key) (lk_calls s) c cl (MkLockCall (lc_key cl) (lc_item cl) p) Hc) as C1.
    pose proof (cnt_replace (fun cl => atKey key cl && hasToken cl) (lk_calls s) c cl (MkLockCall (lc_key cl) (lc_item cl) p) Hc) as C2.
    unfold usersOf in Hpos, Hr'. unfold ownersOf in Ho'. cbn beta in C2.
    change (atKey key (MkLockCall (lc_key cl) (lc_item cl) p)) with (atKey key cl) in C1, C2.
    change (hasToken (MkLockCall (lc_key cl) (lc_item cl) p)) with (ownsPhase p) in C2. split; [destruct (atKey key cl); lia|].
    destruct (decide (item = lc_item cl)) as [->|Hni].
    + assert (key = lc_key cl) as -> by (by apply (li_inj s HI) with (lc_item cl)).
      rewrite He in He'. injection He' as <-. exists (MkLockEntry tok (en_refs e)). rewrite lookup_insert_eq. split; [done|]. cbn [en_refs en_token].
      assert (atKey (lc_key cl) cl = true) as EQ by (by apply bool_decide_eq_true_2). rewrite EQ in C1, C2. cbn [andb] in C2. split; lia.
    + exists e'. rewrite lookup_insert_ne by done. split; [done|].
      assert (atKey key cl = false) as EQ by (apply bool_decide_eq_false_2; intros <-; rewrite Hent in Hk; by injection Hk).
      rewrite EQ in C1, C2. cbn [andb] in C2. split; lia.
  - apply (li_inj s HI).
Qed.

Lemma atPhase_Some c p s f s' :
  atPhase c p s f = Some s' -> exists cl, lk_calls s !! c = Some cl /\ lc_phase cl = p /\ f cl = Some s'.
Proof. unfold atPhase. destruct (lk_calls s !! c) as [cl|]; [|done]. destruct (decide _); [|done]. eauto. Qed.

Lemma setPhase_eq c p s cl :
  lk_calls s !! c = Some cl -> setPhase c p s = MkLocker (lk_entries s) (lk_heap s) (<[c := MkLockCall (lc_key cl) (lc_item cl) p]> (lk_calls s)).
Proof.
  intros Hc. unfold setPhase, setCalls. f_equal. apply map_eq. intros j. destruct (decide (j = c)) as [->|].
  - by rewrite lookup_alter_eq, lookup_insert_eq, Hc.
  - by rewrite lookup_alter_ne, lookup_insert_ne.
Qed.

Lemma setToken_eq i b s e :
  lk_heap s !! i = Some e -> setToken i b s = MkLocker (lk_entries s) (<[i := MkLockEntry b (en_refs e)]> (lk_heap s)) (lk_calls s).
Proof.
  intros He. unfold setToken, setHeap. f_equal. apply map_eq. intros j. destruct (decide (j = i)) as [->|].
  - by rewrite lookup_alter_eq, lookup_insert_eq, He.
  - by rewrite lookup_alter_ne, lookup_insert_ne.
Qed.

(** Phase changes that leave the ownership of the token alone, and those that pass it. *)
Lemma keep_inv s c cl p :
  lockInv s -> lk_calls s !! c = Some cl -> ownsPhase p = hasToken cl -> lockInv (setPhase c p s).
Proof.
  intros HI Hc Hp. destruct (call_entry s c cl HI Hc) as (_ & e & He & Hok). rewrite (setPhase_eq c p s cl Hc).
  apply (phase_inv s c cl p _ e (en_token e)); [done..| |rewrite Hp; lia].
  rewrite insert_id; [done|]. by destruct e.
Qed.

Lemma pass_inv s c cl p b :
  lockInv s -> lk_calls s !! c = Some cl -> tokenOf (lc_item cl) s = Some (negb b) -> ownsPhase p = b -> hasToken cl = negb b ->
  lockInv (setPhase c p (setToken (lc_item cl) b s)).
Proof.
  intros HI Hc Ht Hp Hcl. destruct (call_entry s c cl HI Hc) as (_ & e & He & Hok).
  rewrite (setToken_eq _ _ _ e He), (setPhase_eq c p _ cl) by done. cbn [lk_entries lk_heap lk_calls].
  apply (phase_inv s c cl p _ e b); [done..|]. unfold tokenOf in Ht. rewrite He in Ht. cbn in Ht. injection Ht as Ht.
  rewrite Hp, Hcl, Ht. lia.
Qed.

Lemma usersOf_zero key s : lockInv s -> lk_entries s !! key = None -> usersOf key s = 0%nat.
Proof.
  intros HI Hn. apply cnt_zero. intros c cl Hc. apply bool_decide_eq_false_2. intros <-.
  pose proof (li_calls s HI c cl Hc). congruence.
Qed.

Lemma ownersOf_zero key s : usersOf key s = 0%nat -> ownersOf key s = 0%nat.
Proof.
  intros Hu. apply cnt_zero. intros c cl Hc. destruct (atKey key cl) eqn:HK; [exfalso|done].
  pose proof (cnt_pos (atKey key) (lk_calls s) c cl Hc HK). unfold usersOf in Hu. lia.
Qed.

(** Registering a call with the entry of its key. *)
Lemma enter_inv s c key item s' e :
  lk_calls s !! c = None ->
  (forall c cl, lk_calls s !! c = Some cl -> lk_entries s !! lc_key cl = Some (lc_item cl)) ->
  (forall k i, lk_entries s !! k = Some i -> (k = key \/ (0 < usersOf k s)%nat) /\ exists e, lk_heap s !! i = Some e /\ entryOk k e s) ->
  (forall k1 k2 i, lk_entries s !! k1 = Some i -> lk_entries s !! k2 = Some i -> k1 = k2) ->
  lk_entries s !! key = Some item -> lk_heap s !! item = Some e ->
  s' = MkLocker (lk_entries s) (<[item := MkLockEntry (en_token e) (en_refs e + 1)]> (lk_heap s)) (<[c := MkLockCall key item Waiting]> (lk_calls s)) ->
  lockInv s'.
Proof.
  intros Hc HC HE HJ Hkey He ->. split; cbn [lk_calls lk_entries lk_heap]; [| |done].
  - intros c' cl'. destruct (decide (c' = c)) as [->|Hne].
    + rewrite lookup_insert_eq. by intros [= <-].
    + rewrite lookup_insert_ne by done. apply HC.
  - intros k i Hk. destruct (HE k i Hk) as (Hpos & e' & He' & Hr & Ho). unfold entryOk, usersOf, ownersOf in *. cbn [lk_calls].
    rewrite !cnt_insert_new by done. change (hasToken (MkLockCall key item Waiting)) with false. rewrite andb_false_r.
    change (atKey k (MkLockCall key item Waiting)) with (bool_decide (key = k)).
    destruct (decide (i = item)) as [->|Hni].
    + assert (k = key) as -> by (by apply (HJ k key item)). rewrite He in He'. injection He' as <-.
      rewrite bool_decide_eq_true_2 by done. split; [lia|]. eexists. rewrite lookup_insert_eq. split; [done|]. cbn [en_refs en_token]. split; lia.
    + rewrite bool_decide_eq_false_2 by (intros <-; congruence). assert (k <> key) by (intros ->; congruence).
      split; [destruct Hpos; [done|lia]|]. exists e'. rewrite lookup_insert_ne by done. split; [done|]. split; lia.
Qed.

Lemma addRefs_eq i n s e :
  lk_heap s !! i = Some e -> addRefs i n s = MkLocker (lk_entries s) (<[i := MkLockEntry (en_token e) (en_refs e + n)]> (lk_heap s)) (lk_calls s).
Proof.
  intros He. unfold addRefs, setHeap. f_equal. apply map_eq. intros j. destruct (decide (j = i)) as [->|].
  - by rewrite lookup_alter_eq, lookup_insert_eq, He.
  - by rewrite lookup_alter_ne, lookup_insert_ne.
Qed.

Lemma acquireEnter_inv s c key s' : lockInv s -> acquireEnter c key s = Some s' -> lockInv s'.
Proof.
  intros HI. unfold acquireEnter. destruct (lk_calls s !! c) eqn:Hc; [done|]. unfold entryFor.
  destruct (lk_entries s !! key) as [item|] eqn:Hkey.
  - destruct (li_entries s HI key item Hkey) as (_ & e & He & _). rewrite (addRefs_eq _ _ _ e He). intros [= <-].
    eapply (enter_inv s); [done|apply (li_calls s HI)| |apply (li_inj s HI)|done..].
    intros k i Hk. destruct (li_entries s HI k i Hk). auto.
  - set (item := fresh (dom (lk_heap s))).
    assert (lk_heap s !! item = None) as Hfresh by (apply not_elem_of_dom, is_fresh).
    erewrite (addRefs_eq _ _ _ (MkLockEntry false 0)) by (cbn [lk_heap]; apply lookup_insert_eq). intros [= <-].
    unfold setCalls. cbn [lk_calls lk_entries lk_heap].
    apply (enter_inv (MkLocker (<[key := item]> (lk_entries s)) (<[item := MkLockEntry false 0]> (lk_heap s)) (lk_calls s))
      c key item _ (MkLockEntry false 0)); cbn [lk_calls lk_entries lk_heap].
    + done.
    + intros c' cl' Hc'. pose proof (li_calls s HI c' cl' Hc') as HE. rewrite lookup_insert_ne; [done|]. intros EQ. congruence.
    + intros k i. destruct (decide (k = key)) as [->|Hne].
      * rewrite lookup_insert_eq. intros [= <-]. split; [by left|]. eexists. rewrite lookup_insert_eq. split; [done|].
        pose proof (usersOf_zero key s HI Hkey) as Hz. unfold entryOk. change (usersOf key _) with (usersOf key s). change (ownersOf key _) with (ownersOf key s).
        rewrite Hz, (ownersOf_zero key s Hz). done.
      * rewrite lookup_insert_ne by done. intros Hk. destruct (li_entries s HI k i Hk) as (Hp & e & He & Hok). split; [by right|].
        exists e. rewrite lookup_insert_ne by congruence. done.
    + intros k1 k2 i. destruct (decide (k1 = key)) as [->|N1], (decide (k2 = key)) as [->|N2]; rewrite ?lookup_insert_eq, ?lookup_insert_ne by done.
      * done.
      * intros [= <-] Hk. destruct (li_entries s HI k2 item Hk) as (_ & e & He & _). congruence.
      * intros Hk [= <-]. destruct (li_entries s HI k1 item Hk) as (_ & e & He & _). congruence.
      * apply (li_inj s HI).
    + apply lookup_insert_eq.
    + apply lookup_insert_eq.
    + done.
Qed.

Lemma releaseReference_inv s c s' : lockInv s -> releaseReference c s = Some s' -> lockInv s'.
Proof.
  intros HI (cl & Hc & Hp & HS)%atPhase_Some. destruct (call_entry s c cl HI Hc) as (Hent & e & He & Hr & Ho).
  rewrite (addRefs_eq _ _ _ e He) in HS. unfold dropEntry in HS. cbn [lk_heap] in HS. rewrite lookup_insert_eq in HS.
  cbn [en_refs lk_entries lk_calls] in HS. rewrite (bool_decide_eq_true_2 _ Hent), andb_true_r in HS.
  assert (hasToken cl = false) as Hno by (unfold hasToken; by rewrite Hp).
  assert (forall key, usersOf key s = (if bool_decide (lc_key cl = key) then 1 else 0) + cnt (atKey key) (delete c (lk_calls s)))%nat as CU
    by (intros key; by apply (cnt_delete (atKey key))).
  assert (forall key, ownersOf key s = cnt (fun cl => atKey key cl && hasToken cl) (delete c (lk_calls s)))%nat as CO.
  { intros key. unfold ownersOf. rewrite (cnt_delete _ _ c cl Hc). cbn beta. by rewrite Hno, andb_false_r. }
  assert (forall key item, lk_entries s !! key = Some item -> key <> lc_key cl -> item <> lc_item cl) as Hdiff.
  { intros key item Hk Hne ->. by apply Hne, (li_inj s HI) with (lc_item cl). }
  pose proof (CU (lc_key cl)) as CU0. rewrite bool_decide_eq_true_2 in CU0 by done. cbn match in CU0.
  assert (forall key item, lk_entries s !! key = Some item -> key <> lc_key cl ->
    (0 < cnt (atKey key) (delete c (lk_calls s)))%nat /\ exists e', lk_heap s !! item = Some e' /\
    en_refs e' = Z.of_nat (cnt (atKey key) (delete c (lk_calls s))) /\ cnt (fun cl => atKey key cl && hasToken cl) (delete c (lk_calls s)) = (if en_token e' then 1 else 0)%nat) as Hothers.
  { intros key item Hk Hne. destruct (li_entries s HI key item Hk) as (Hpos & e' & He' & Hr' & Ho').
    rewrite CU, bool_decide_eq_false_2 in Hpos, Hr' by (intros EQ; by apply Hne). rewrite CO in Ho'. split; [lia|]. exists e'. split_and!; [done|lia|done]. }
  assert (forall c' cl', delete c (lk_calls s) !! c' = Some cl' -> lk_entries s !! lc_key cl' = Some (lc_item cl')) as Hcalls.
  { intros c' cl' [_ Hc']%lookup_delete_Some. by apply (li_calls s HI c'). }
  destruct (en_refs e + -1 =? 0) eqn:Hz; injection HS as <-; unfold setCalls; cbn [lk_entries lk_heap lk_calls]; split; cbn [lk_entries lk_heap lk_calls].
  - intros c' cl' Hc'. rewrite lookup_delete_ne; [by eauto|]. intros EQ. apply Z.eqb_eq in Hz.
    pose proof (cnt_pos (atKey (lc_key cl)) _ c' cl' Hc' ltac:(apply bool_decide_eq_true_2; done)). lia.
  - intros key item [Hne Hk]%lookup_delete_Some. destruct (Hothers key item Hk (not_eq_sym Hne)) as (Hpos & e' & He' & Hok).
    split; [done|]. exists e'. rewrite lookup_insert_ne by (apply not_eq_sym, (Hdiff key); [done|by apply not_eq_sym]). by split.
  - intros k1 k2 i [_ H1]%lookup_delete_Some [_ H2]%lookup_delete_Some. by apply (li_inj s HI k1 k2 i).
  - done.
  - intros key item Hk. destruct (decide (key = lc_key cl)) as [->|Hne].
    + rewrite Hent in Hk. injection Hk as <-. apply Z.eqb_neq in Hz. unfold usersOf. cbn [lk_calls]. split; [lia|].
      eexists. rewrite lookup_insert_eq. split; [done|]. unfold entryOk, usersOf, ownersOf. cbn [lk_calls en_refs en_token]. split; [lia|]. by rewrite <-CO.
    + destruct (Hothers key item Hk Hne) as (Hpos & e' & He' & Hok). split; [done|]. exists e'. by rewrite lookup_insert_ne by (apply not_eq_sym; eauto).
  - apply (li_inj s HI).
Qed.

Lemma lockStep_inv s s' : lockStep s s' -> lockInv s -> lockInv s'.
Proof.
  intros Hstep HI. destruct Hstep as [c key s s' HS|c s s' HS|c b s s' HS|c s s' HS|c s|c s s' HS|c s s' HS].
  - by eapply acquireEnter_inv.
  - apply atPhase_Some in HS as (cl & Hc & Hp & HS). destruct (tokenOf _ _) as [[]|] eqn:Ht; try done. injection HS as <-.
    apply (pass_inv s c cl Owning true); try done. unfold hasToken. by rewrite Hp.
  - apply atPhase_Some in HS as (cl & Hc & Hp & [= <-]). apply (keep_inv s c cl); try done. unfold hasToken. rewrite Hp. by destruct b.
  - apply atPhase_Some in HS as (cl & Hc & Hp & [= <-]). apply (keep_inv s c cl); try done. unfold hasToken. by rewrite Hp.
  - unfold lockRelease. destruct (atPhase _ _ _ _) as [s'|] eqn:HS; [|done]. cbn.
    apply atPhase_Some in HS as (cl & Hc & Hp & [= <-]). apply (keep_inv s c cl); try done. unfold hasToken. by rewrite Hp.
  - apply atPhase_Some in HS as (cl & Hc & Hp & HS). destruct (tokenOf _ _) as [[]|] eqn:Ht; try done. injection HS as <-.
    apply (pass_inv s c cl Leaving false); try done. unfold hasToken. by rewrite Hp.
  - by eapply releaseReference_inv.
Qed.

Lemma lockReachable_inv s : lockReachable s -> lockInv s.
Proof.
  intros HR. assert (forall s0, rtc lockStep s0 s -> lockInv s0 -> lockInv s) as HG; [|by apply (HG newLocker HR), newLocker_inv].
  intros s0 HR0. induction HR0 as [|x y z HS _ IH]; [done|]. intros HI. by apply IH, (lockStep_inv x).
Qed.

Lemma owner_token s c cl : lockInv s -> lk_calls s !! c = Some cl -> hasToken cl = true -> tokenOf (lc_item cl) s = Some true.
Proof.
  intros HI Hc Ho. destruct (call_entry s c cl HI Hc) as (_ & e & He & _ & Hown). unfold tokenOf. rewrite He. cbn. f_equal.
  assert (0 < ownersOf (lc_key cl) s)%nat as Hpos.
  { apply (cnt_pos _ _ c cl Hc). unfold atKey. by rewrite bool_decide_eq_true_2, Ho. }
  destruct (en_token e); [done|lia].
Qed.

Lemma owners_one s key : lockInv s -> (ownersOf key s <= 1)%nat.
Proof.
  intros HI. destruct (lk_entries s !! key) as [item|] eqn:Hk.
  - destruct (li_entries s HI key item Hk) as (_ & e & _ & _ & ->). destruct (en_token e); lia.
  - rewrite (ownersOf_zero key s); [lia|]. by apply usersOf_zero.
Qed.

Lemma release_idempotent c s : lockRelease c (lockRelease c s) = lockRelease c s.
Proof.
  set (s1 := lockRelease c s). assert (forall cl, lk_calls s1 !! c = Some cl -> lc_phase cl <> Holding) as Hno.
  { intros cl. unfold s1, lockRelease. destruct (atPhase _ _ s _) as [s2|] eqn:HS; cbn [default].
    - apply atPhase_Some in HS as (cl0 & Hc & _ & [= <-]). rewrite (setPhase_eq c _ s cl0 Hc). unfold id. cbn [lk_calls].
      rewrite lookup_insert_eq. by intros [= <-].
    - intros Hc Hp. unfold atPhase in HS. by rewrite Hc, decide_True in HS. }
  unfold lockRelease. destruct (atPhase _ _ s1 _) as [s2|] eqn:HS; [exfalso|done].
  apply atPhase_Some in HS as (cl & Hc & Hp & _). by apply (Hno cl Hc).
Qed.

Lemma active_keys s : lockInv s -> dom (lk_entries s) = list_to_set ((fun p => lc_key p.2) <$> map_to_list (lk_calls s)).
Proof.
  intros HI. apply set_eq. intros key. rewrite elem_of_dom, elem_of_list_to_set, list_elem_of_fmap. split.
  - intros [item Hk]. destruct (li_entries s HI key item Hk) as (Hpos & _). apply cnt_exists in Hpos as (c & cl & Hc & HK).
    apply bool_decide_eq_true in HK as <-. exists (c, cl). split; [done|]. by apply elem_of_map_to_list.
  - intros ([c cl] & -> & Hc%elem_of_map_to_list). eexists. by apply (li_calls s HI c).
Qed.

(** C30: In every interleaving of calls that acquire, cancel and release: at most one call
    holds a key; the release function and a cancelled acquisition never block when they
    return the token, and a second release does nothing; a waiting call is held up only
    by a call of the same key that owns the token, so distinct keys are independent and
    no waiter is stranded; and the locker remembers exactly the keys of unfinished
    calls, so that idle keys leave nothing behind. *)
Theorem Acquire_exclusive s :
  lockReachable s ->
  (forall c1 c2 cl1 cl2, lk_calls s !! c1 = Some cl1 -> lk_calls s !! c2 = Some cl2 ->
    lc_phase cl1 = Holding -> lc_phase cl2 = Holding -> lc_key cl1 = lc_key cl2 -> c1 = c2) /\
  (forall c cl, lk_calls s !! c = Some cl -> lc_phase cl = Returning -> is_Some (takeToken c s)) /\
  (forall c, lockRelease c (lockRelease c s) = lockRelease c s) /\
  (forall c cl, lk_calls s !! c = Some cl -> lc_phase cl = Waiting -> acquireSend c s = None ->
    exists c' cl', lk_calls s !! c' = Some cl' /\ lc_key cl' = lc_key cl /\ lc_phase cl' ∈ [Owning; Holding; Returning]) /\
  dom (lk_entries s) = list_to_set ((fun p => lc_key p.2) <$> map_to_list (lk_calls s)) /\
  (lk_calls s = ∅ -> ActiveKeys s = 0%nat).
Proof.
  intros HI%lockReachable_inv. split_and!.
  - intros c1 c2 cl1 cl2 H1 H2 P1 P2 HK.
    apply (cnt_unique (fun cl => atKey (lc_key cl1) cl && hasToken cl) (lk_calls s) c1 cl1 c2 cl2); [by apply owners_one|done| |done|];
      unfold atKey, hasToken; rewrite ?P1, ?P2, bool_decide_eq_true_2; done.
  - intros c cl Hc Hp. unfold takeToken, atPhase. rewrite Hc, decide_True by done.
    rewrite (owner_token s c cl HI Hc); [done|]. unfold hasToken. by rewrite Hp.
  - intros c. apply release_idempotent.
  - intros c cl Hc Hp HS. destruct (call_entry s c cl HI Hc) as (_ & e & He & _ & Hown).
    unfold acquireSend, atPhase, tokenOf in HS. rewrite Hc, decide_True, He in HS by done. cbn in HS.
    destruct (en_token e); [|done]. destruct (cnt_exists (fun cl' => atKey (lc_key cl) cl' && hasToken cl') (lk_calls s)) as (c' & cl' & Hc' & HK); [unfold ownersOf in Hown; lia|].
    apply andb_true_iff in HK as [HK%bool_decide_eq_true Ht]. exists c', cl'. split_and!; [done..|]. unfold hasToken in Ht. rewrite !elem_of_cons. destruct (lc_phase cl'); try done; auto.
  - by apply active_keys.
  - intros HE. pose proof (active_keys s HI) as HD. rewrite HE, map_to_list_empty in HD. cbn in HD. apply dom_empty_inv_L in HD. unfold ActiveKeys. by rewrite HD.
Qed.
End keyedlock.

(** Two calls for one key and one for another: the first holds, the second waits. *)
Definition exLocker : option (Locker (K := string)) :=
  s ← acquireEnter 0 "a"%string newLocker; s ← acquireEnter 1 "a"%string s; s ← acquireEnter 2 "b"%string s;
  s ← acquireSend 0 s; s ← acquireRecheck 0 false s; s ← acquireSend 2 s; acquireRecheck 2 true s.

Lemma Acquire_exclusive_witness :
  exists s, exLocker = Some s /\ ActiveKeys s = 2%nat /\ acquireSend 1 s = None /\ is_Some (takeToken 2 s).
Proof.
  destruct exLocker as [s|] eqn:HE; [|by vm_compute in HE]. exists s.
  assert (lockReachable s) as HR.
  { unfold exLocker in HE. do 6 (apply bind_Some in HE as (? & ? & HE)). unfold lockReachable.
    eapply rtc_l; [by eapply step_enter|]. eapply rtc_l; [by eapply step_enter|]. eapply rtc_l; [by eapply step_enter|].
    eapply rtc_l; [by eapply step_send|]. eapply rtc_l; [by eapply step_recheck|]. eapply rtc_l; [by eapply step_send|].
    apply rtc_once. by eapply step_recheck. }
  vm_compute in HE. injection HE as <-. split_and!; [done|by vm_compute|by vm_compute|].
  destruct (Acquire_exclusive _ HR) as (_ & Htake & _). by eapply Htake.
Defined.
