(* ===== verification/WriteBudget.v ===== *)
(** * giznet: the shared write budget

    [src/pkgs/giznet/write_budget.go].  Every method runs under the budget's lock, so
    a concurrent execution is a sequence of calls.  A wake channel is the number of
    releases before it was made: it is closed once there has been another one.  Sizes
    are [uint64]. *)

From stdpp Require Import list.
From S2P Require Import Prelude GoBytes.

Open Scope Z_scope.

Record WriteBudget := MkBudget {
  wb_limit : Z;
  wb_used : Z;
  wb_wake : nat
}.

Definition NewWriteBudget (limit : Z) : WriteBudget := MkBudget limit 0 0.

(** The nil budget is [None]. *)
Definition Budget_Limit (b : option WriteBudget) : Z := match b with None => 0 | Some b => wb_limit b end.
Definition Budget_Used (b : option WriteBudget) : Z := match b with None => 0 | Some b => wb_used b end.

Inductive acquireResult :=
  | Acquired
  | Wait (wake : nat)
  | TooLarge.

Definition TryAcquire (size : Z) (b : option WriteBudget) : option WriteBudget * acquireResult :=
  match b with
  | None => (None, Acquired)
  | Some bud =>
      if size =? 0 then (b, Acquired)
      else if wb_limit bud <? size then (b, TooLarge)
      else if wb_used bud <=? wrap 64 (wb_limit bud - size)
      then (Some (MkBudget (wb_limit bud) (wrap 64 (wb_used bud + size)) (wb_wake bud)), Acquired)
      else (b, Wait (wb_wake bud))
  end.

Definition Release (size : Z) (b : option WriteBudget) : option WriteBudget :=
  match b with
  | None => None
  | Some bud =>
      if size =? 0 then b
      else
        let size := if wb_used bud <? size then wb_used bud else size in
        Some (MkBudget (wb_limit bud) (wrap 64 (wb_used bud - size)) (S (wb_wake bud)))
  end.

(** Whether a receive from the channel returns. *)
Definition wakeClosed (wake : nat) (b : WriteBudget) : bool := (wake <? wb_wake b)%nat.

(** ** Reservations

    What the writers do, in the order in which they get the lock: a call of
    [TryAcquire] whose success leaves a reservation, or the release of one of the
    reservations. *)
Inductive budgetCall :=
  | TryAcquireCall (size : Z)
  | ReleaseCall (i : nat).

Definition budgetStep (st : WriteBudget * list Z) (c : budgetCall) : WriteBudget * list Z :=
  let '(b, held) := st in
  match c with
  | TryAcquireCall size =>
      match TryAcquire size (Some b) with
      | (Some b', Acquired) => (b', held ++ [size])
      | _ => st
      end
  | ReleaseCall i =>
      match held !! i with
      | Some size => match Release size (Some b) with Some b' => (b', delete i held) | None => st end
      | None => st
      end
  end.

Definition callSizes (c : budgetCall) : Prop := match c with TryAcquireCall size => uintOk 64 size | ReleaseCall _ => True end.

Definition total (held : list Z) : Z := foldr Z.add 0 held.

Lemma total_app l k : total (l ++ k) = total l + total k.
Proof. unfold total. induction l as [|x l IH]; cbn; [done|]. lia. Qed.

Lemma total_delete held i size : held !! i = Some size -> total (delete i held) = total held - size.
Proof.
  revert i. induction held as [|x held IH]; intros [|i]; [done|done| |].
  - intros [= ->]. cbn. lia.
  - intros Hi. change (delete (S i) (x :: held)) with (x :: delete i held). change (total (x :: ?l)) with (x + total l). rewrite (IH i) by done. lia.
Qed.

Lemma total_nonneg held : Forall (uintOk 64) held -> 0 <= total held.
Proof. unfold total. induction 1 as [|x l Hx _ IH]; cbn; [done|]. unfold uintOk in Hx. lia. Qed.

Lemma total_ge held i size : Forall (uintOk 64) held -> held !! i = Some size -> size <= total held.
Proof.
  intros HF Hi. rewrite <-(take_drop_middle held i size Hi), total_app in *. rewrite Forall_app, Forall_cons in HF. destruct HF as (H1 & H2 & H3).
  pose proof (total_nonneg _ H1). pose proof (total_nonneg _ H3). change (total (size :: drop (S i) held)) with (size + total (drop (S i) held)). lia.
Qed.

(** What holds between calls. *)
Definition budgetInv (limit : Z) (st : WriteBudget * list Z) : Prop :=
  wb_limit st.1 = limit /\ wb_used st.1 = total st.2 /\ wb_used st.1 <= limit /\ Forall (uintOk 64) st.2.

Lemma wrap64 x : 0 <= x < 2 ^ 64 -> wrap 64 x = x.
Proof. apply Z.mod_small. Qed.

Lemma budgetStep_inv limit st c : uintOk 64 limit -> callSizes c -> budgetInv limit st -> budgetInv limit (budgetStep st c).
Proof.
  intros [Hl1 Hl2] Hc (H1 & H2 & H3 & H4). destruct st as [[l used wake] held]. cbn [fst snd wb_limit wb_used] in *. subst l. pose proof (total_nonneg held H4) as H0.
  destruct c as [size|i]; cbn [budgetStep].
  - unfold callSizes, uintOk in Hc. cbn [TryAcquire wb_limit wb_used]. destruct (Z.eqb_spec size 0) as [->|Hne].
    { split_and!; cbn [fst snd wb_limit wb_used]; try done; [rewrite total_app; cbn; lia|apply Forall_app; split; [done|]; constructor; [exact Hc|constructor]]. }
    destruct (Z.ltb_spec limit size); [by split_and!|]. rewrite wrap64 by lia. destruct (Z.leb_spec used (limit - size)); [|by split_and!]. rewrite wrap64 by lia.
    split_and!; cbn [fst snd wb_limit wb_used]; [done|rewrite total_app; cbn; lia|lia|apply Forall_app; split; [done|]; constructor; [exact Hc|constructor]].
  - destruct (held !! i) as [size|] eqn:Hi; [|by split_and!]. pose proof (total_ge held i size H4 Hi) as HG. pose proof (Forall_lookup_1 _ _ _ _ H4 Hi) as Hs. unfold uintOk in Hs.
    cbn [Release wb_limit wb_used wb_wake]. destruct (Z.eqb_spec size 0) as [->|Hne].
    { split_and!; cbn [fst snd wb_limit wb_used]; [done|rewrite (total_delete held i 0) by done; lia|lia|by apply Forall_delete]. }
    rewrite (proj2 (Z.ltb_ge used size)) by lia. rewrite wrap64 by lia.
    split_and!; cbn [fst snd wb_limit wb_used]; [done|rewrite (total_delete held i size) by done; lia|lia|by apply Forall_delete].
Qed.

Lemma budgetRun_inv limit calls st : uintOk 64 limit -> Forall callSizes calls -> budgetInv limit st -> budgetInv limit (foldl budgetStep st calls).
Proof. intros Hl HF. revert st. induction HF as [|c calls Hc HF IH]; intros st HI; [done|]. cbn [foldl]. by apply IH, budgetStep_inv. Qed.

Lemma budgetStep_wake st c : (wb_wake st.1 <= wb_wake (budgetStep st c).1)%nat.
Proof.
  destruct st as [b held]. destruct c as [size|i]; cbn [budgetStep].
  - cbn [TryAcquire]. repeat case_match; simplify_eq; cbn; lia.
  - destruct (held !! i) as [size|]; [|cbn; lia]. cbn [Release]. destruct (size =? 0); cbn; lia.
Qed.

(** The write budget accounts exactly and loses no wake-up.  However the writers'
    calls interleave, the reserved bytes are the sum of the reservations held and never
    exceed the limit; [TryAcquire] reserves when the bytes fit, refuses a size above
    the limit for good, and otherwise returns a channel that is still open and that the
    next release of a nonempty reservation closes, whatever happens in between. *)
Theorem WriteBudget_accounts limit calls b held size :
  uintOk 64 limit -> Forall callSizes calls -> uintOk 64 size -> foldl budgetStep (NewWriteBudget limit, []) calls = (b, held) ->
  wb_used b = total held /\ wb_used b <= limit /\ Budget_Limit (Some b) = limit /\
  match TryAcquire size (Some b) with
  | (Some b', Acquired) => wb_used b' = wb_used b + size /\ wb_used b' <= limit
  | (b', TooLarge) => b' = Some b /\ limit < size
  | (b', Wait wake) => b' = Some b /\ size <= limit /\ limit < wb_used b + size /\ wakeClosed wake b = false /\
      (forall later b1 held1 i n, foldl budgetStep (b, held) later = (b1, held1) -> held1 !! i = Some n -> n <> 0 ->
         wakeClosed wake (budgetStep (b1, held1) (ReleaseCall i)).1 = true)
  | (None, Acquired) => False
  end.
Proof.
  intros Hl HF Hs HR. assert (budgetInv limit (b, held)) as (H1 & H2 & H3 & H4).
  { rewrite <-HR. apply budgetRun_inv; [done|done|]. unfold uintOk in Hl. split_and!; cbn; [done|done|lia|constructor]. }
  cbn [fst snd] in *. split_and!; [done|done|done|]. pose proof (total_nonneg held H4). destruct Hl as [Hl1 Hl2], Hs as [Hs1 Hs2]. cbn [TryAcquire]. rewrite H1.
  destruct (Z.eqb_spec size 0) as [->|Hne]; [lia|]. destruct (Z.ltb_spec limit size); [done|]. rewrite wrap64 by lia. destruct (Z.leb_spec (wb_used b) (limit - size)).
  { rewrite wrap64 by lia. cbn. lia. }
  split_and!; [done|done|lia|unfold wakeClosed; apply Nat.ltb_irrefl|]. intros later b1 held1 i n HL Hi Hn.
  assert (wb_wake b <= wb_wake b1)%nat as HW.
  { clear Hi. change b1 with (b1, held1).1. rewrite <-HL. change b with (b, held).1 at 1. generalize (b, held) as st. clear. induction later as [|c later IH]; intros st; [done|]. cbn [foldl].
    pose proof (budgetStep_wake st c). pose proof (IH (budgetStep st c)). lia. }
  cbn [budgetStep]. rewrite Hi. cbn [Release]. rewrite (proj2 (Z.eqb_neq _ _)) by done. unfold wakeClosed. cbn [fst wb_wake]. apply Nat.ltb_lt. lia.
Qed.

Lemma WriteBudget_accounts_witness :
  exists b, foldl budgetStep (NewWriteBudget 8, []) [TryAcquireCall 6; TryAcquireCall 9; TryAcquireCall 2; ReleaseCall 0] = (b, [2]) /\ wb_used b = 2 /\
    exists b', TryAcquire 6 (Some b) = (Some b', Acquired) /\ wb_used b' = 8.
Proof.
  exists (MkBudget 8 2 1). assert (foldl budgetStep (NewWriteBudget 8, []) [TryAcquireCall 6; TryAcquireCall 9; TryAcquireCall 2; ReleaseCall 0] = (MkBudget 8 2 1, [2])) as HR by (vm_compute; reflexivity).
  assert (Forall callSizes [TryAcquireCall 6; TryAcquireCall 9; TryAcquireCall 2; ReleaseCall 0]) as HF by (repeat constructor; discriminate).
  destruct (WriteBudget_accounts 8 [TryAcquireCall 6; TryAcquireCall 9; TryAcquireCall 2; ReleaseCall 0] (MkBudget 8 2 1) [2] 6 ltac:(split; [discriminate|reflexivity]) HF ltac:(split; [discriminate|reflexivity]) HR)
    as (H1 & _ & _ & H4).
  split; [exact HR|]. split; [exact H1|]. exists (MkBudget 8 8 1). split; [vm_compute; reflexivity|exact (proj1 H4)].
Defined.
