(* ===== verification/Trie.v ===== *)
(** * trie: values under path patterns

    [src/pkgs/trie/trie.go].  A node is an immutable tree; [Set] returns the tree after
    the in-place updates, together with the error.  The values are of any type with a
    zero value.  A path is cut at its slashes by [segments], which is the recursion on
    [strings.Cut] of the code. *)

From Stdlib Require Import String Ascii.
From stdpp Require Import strings list.
From S2P Require Import Prelude GoStrings.

(** [first, subseq, _ = strings.Cut(path, "/")] until the path is empty. *)
Definition segments (path : string) : list string :=
  let l := splitByte "/" path in
  if bool_decide (List.last l "x"%string = EmptyString) then removelast l else l.

Lemma segments_cut path :
  segments path =
    match path with
    | EmptyString => []
    | _ => match cutByte "/" path with
           | None => [path]
           | Some (before, after) => before :: segments after
           end
    end.
Proof.
  unfold segments. destruct path as [|a path]; [done|]. destruct (cutByte "/" (String a path)) as [[before after]|] eqn:E.
  - apply cutByte_Some in E as [-> Hb]. rewrite splitByte_app by done. destruct (splitByte "/" after) as [|s l] eqn:ES; [by apply splitByte_nonempty in ES|].
    change (List.last (before :: s :: l) "x"%string) with (List.last (s :: l) "x"%string). destruct (bool_decide _); done.
  - apply cutByte_None in E. rewrite splitByte_clean by done. cbn [List.last]. by rewrite bool_decide_eq_false_2.
Qed.

Section trie.
Context {T : Type} (zero : T).


Inductive Trie :=
  | Node (children : list (string * Trie)) (matchAny matchAll : option Trie) (set : bool) (value : T).

Definition newTrie : Trie := Node [] None None false zero.

(** [t.children[first]], an update of it, and a new entry; the keys are distinct. *)
Fixpoint childAt (children : list (string * Trie)) (first : string) : option Trie :=
  match children with
  | [] => None
  | (k, ch) :: children => if bool_decide (k = first) then Some ch else childAt children first
  end.
Fixpoint updateChild (children : list (string * Trie)) (first : string) (ch : Trie) : list (string * Trie) :=
  match children with
  | [] => [(first, ch)]
  | (k, c) :: children => if bool_decide (k = first) then (k, ch) :: children else (k, c) :: updateChild children first ch
  end.

Inductive trieError :=
  | ErrInvalidPattern
  | ErrSetFunc (text : string).

(** What the caller's function does to [*ptr], and the error it returns. *)
Definition setFn : Type := T -> bool -> T * option trieError.

Definition setFunc (t : Trie) (fn : setFn) : Trie * option trieError :=
  match t with
  | Node children any all set value =>
      match fn value set with
      | (value', Some err) => (Node children any all set value', Some err)
      | (value', None) => (Node children any all true value', None)
      end
  end.

Fixpoint setPath (t : Trie) (segs : list string) (fn : setFn) : Trie * option trieError :=
  match segs with
  | [] => setFunc t fn
  | first :: subseq =>
      match t with
      | Node children any all set value =>
          match childAt children first with
          | Some ch => let '(ch', err) := setPath ch subseq fn in (Node (updateChild children first ch') any all set value, err)
          | None =>
              if bool_decide (first = "+"%string) then
                let '(n, err) := setPath (default newTrie any) subseq fn in (Node children (Some n) all set value, err)
              else if bool_decide (first = "#"%string) then
                match subseq with
                | _ :: _ => (t, Some ErrInvalidPattern)
                | [] => let '(n, err) := setFunc (default newTrie all) fn in (Node children any (Some n) set value, err)
                end
              else
                let '(ch', err) := setPath newTrie subseq fn in (Node (updateChild children first ch') any all set value, err)
          end
      end
  end.

Definition Trie_Set (t : Trie) (path : string) (fn : setFn) : Trie * option trieError := setPath t (segments path) fn.
Definition SetValue (t : Trie) (path : string) (value : T) : Trie * option trieError := Trie_Set t path (fun _ _ => (value, None)).

(** The route, the pointer to the value (nil is [None]) and [ok]. *)
Fixpoint matchPath (t : Trie) (matched : string) (segs : list string) : string * option T * bool :=
  match t with
  | Node children any all set value =>
      match segs with
      | [] => (matched, Some value, set)
      | first :: subseq =>
          let viaAll :=
            match all with
            | Some (Node _ _ _ set' value') => if set' then (matched +:+ "/#"%string, Some value', true) else (EmptyString, None, false)
            | None => (EmptyString, None, false)
            end in
          let viaAny :=
            match any with
            | Some n => match matchPath n (matched +:+ "/+"%string) subseq with
                        | (route, handlers, true) => (route, handlers, true)
                        | _ => viaAll
                        end
            | None => viaAll
            end in
          match childAt children first with
          | Some ch => match matchPath ch (matched +:+ "/"%string +:+ first) subseq with
                       | (route, handlers, true) => (route, handlers, true)
                       | _ => viaAny
                       end
          | None => viaAny
          end
      end
  end.

Definition Trie_Match (t : Trie) (path : string) : string * option T * bool := matchPath t EmptyString (segments path).
Definition Trie_Get (t : Trie) (path : string) : option T * bool := let '(_, val, ok) := matchPath t EmptyString (segments path) in (val, ok).
Definition GetValue (t : Trie) (path : string) : T * bool :=
  match Trie_Get t path with
  | (Some v, true) => (v, true)
  | (None, true) => (zero, true)
  | (_, false) => (zero, false)
  end.

(** [walkWithPath]: the nodes with their paths, children first.  The order of a Go map
    is not fixed; the functions below do not depend on it. *)
Fixpoint walkWithPath (t : Trie) (path : list string) : list (list string * bool * T) :=
  match t with
  | Node children any all set value =>
      (fix go (children : list (string * Trie)) : list (list string * bool * T) :=
         match children with
         | [] => []
         | (seg, ch) :: children => walkWithPath ch (path ++ [seg]) ++ go children
         end) children ++
      match any with Some n => walkWithPath n (path ++ ["+"%string]) | None => [] end ++
      match all with Some n => walkWithPath n (path ++ ["#"%string]) | None => [] end ++
      [(path, set, value)]
  end.

Definition Walk (t : Trie) : list (string * T * bool) :=
  map (fun x => (joinByte "/" x.1.1, x.2, x.1.2)) (walkWithPath t []).

Definition Trie_String (show : T -> string) (t : Trie) : string :=
  let lines := omap (fun x : list string * bool * T => if x.1.2 then Some (joinByte "/" x.1.1 +:+ ": "%string +:+ show x.2) else None) (walkWithPath t []) in
  joinByte (ascii_of_nat 10) (sortStrings lines).

Definition Trie_Len (t : Trie) : nat := length (filter (fun x : string * T * bool => x.2 = true) (Walk t)).
End trie.
