(* ===== verification/TrieProps.v ===== *)
(** * trie: what is stored and what matches

    [find] reads the value stored under a pattern.  [Set] changes it for its pattern
    only, [Match] finds the most specific of the stored patterns that match a path, and
    [Len] counts the stored patterns. *)

From Stdlib Require Import String Ascii.
From stdpp Require Import strings list.
From S2P Require Import Prelude GoStrings Trie.

(** ** Patterns *)
Definition plus : string := "+".
Definition hash : string := "#".

(** A pattern may use [#] in the last place only. *)
Fixpoint validPattern (segs : list string) : bool :=
  match segs with
  | [] => true
  | s :: rest => (if bool_decide (s = hash) then match rest with [] => true | _ => false end else true) && validPattern rest
  end.

(** A segment matches itself, [+] any one segment, [#] one or more. *)
Fixpoint matches (pat path : list string) : bool :=
  match pat, path with
  | [], [] => true
  | s :: pat, first :: rest =>
      if bool_decide (s = hash) then match pat with [] => true | _ => false end
      else (bool_decide (s = plus) || bool_decide (s = first)) && matches pat rest
  | _, _ => false
  end.

(** The first difference decides: a literal segment is more specific than [+], and [+]
    than [#]. *)
Definition rank (s : string) : nat := if bool_decide (s = plus) then 1 else if bool_decide (s = hash) then 2 else 0.
Fixpoint moreSpecific (p q : list string) : bool :=
  match p, q with
  | [], _ => true
  | s :: p, t :: q => if bool_decide (s = t) then moreSpecific p q else (rank s <? rank t)%nat
  | _ :: _, [] => false
  end.

Section trie.
Context {T : Type} (zero : T).
Local Notation Trie := (@Trie T).

(** The value stored under a pattern. *)
Fixpoint find (t : Trie) (segs : list string) : option T :=
  match t, segs with
  | Node _ _ _ set value, [] => if set then Some value else None
  | Node children any all _ _, first :: rest =>
      if bool_decide (first = plus) then match any with Some n => find n rest | None => None end
      else if bool_decide (first = hash) then
        match rest, all with
        | [], Some (Node _ _ _ set value) => if set then Some value else None
        | _, _ => None
        end
      else match childAt children first with Some ch => find ch rest | None => None end
  end.

(** Children are distinct and none is a wildcard; the node behind [#] is a leaf. *)
Inductive wf : Trie -> Prop :=
  | wf_node children any all set value :
      NoDup (map fst children) ->
      (forall k c, (k, c) ∈ children -> k <> plus /\ k <> hash /\ wf c) ->
      (forall n, any = Some n -> wf n) ->
      (forall n, all = Some n -> exists s v, n = Node [] None None s v) ->
      wf (Node children any all set value).

Lemma wf_new : wf (newTrie zero).
Proof. constructor; [constructor| | |]; try done. intros k c H. by apply not_elem_of_nil in H. Qed.

Implicit Types (children : list (string * Trie)) (c ch : Trie).

Lemma childAt_Some children k c : childAt children k = Some c -> (k, c) ∈ children.
Proof. induction children as [|[k' c'] l IH]; cbn; [done|]. case_bool_decide as E; [intros [= <-]; subst; by left|]. intros H. right. by apply IH. Qed.

Lemma childAt_elem children k c : NoDup (map fst children) -> (k, c) ∈ children -> childAt children k = Some c.
Proof.
  induction children as [|[k' c'] l IH]; cbn; [by intros _ ?%not_elem_of_nil|]. intros [Hn HN]%NoDup_cons [E|H]%elem_of_cons; [injection E as -> ->; by rewrite bool_decide_eq_true_2|].
  rewrite bool_decide_eq_false_2; [by apply IH|]. intros ->. apply Hn. by apply (list_elem_of_fmap_2 fst) in H.
Qed.

Lemma childAt_update children k c k' : childAt (updateChild children k c) k' = if bool_decide (k' = k) then Some c else childAt children k'.
Proof.
  induction children as [|[k0 c0] l IH]; cbn; [repeat case_bool_decide; congruence|].
  destruct (decide (k0 = k)) as [->|E]; [rewrite (bool_decide_eq_true_2 (k = k)) by done|rewrite (bool_decide_eq_false_2 (k0 = k)) by done]; cbn; rewrite ?IH; repeat case_bool_decide; congruence.
Qed.

Lemma update_keys children k c : map fst (updateChild children k c) = if decide (k ∈ map fst children) then map fst children else map fst children ++ [k].
Proof.
  induction children as [|[k0 c0] l IH]; cbn; [by rewrite decide_False by apply not_elem_of_nil|]. case_bool_decide as E; cbn.
  - subst k0. by rewrite decide_True by left.
  - rewrite IH. destruct (decide (k ∈ map fst l)); [by rewrite decide_True by (by right)|]. rewrite decide_False; [done|]. by intros [?|?]%elem_of_cons.
Qed.

Lemma wf_update children any all set value k c :
  wf (Node children any all set value) -> k <> plus -> k <> hash -> wf c -> wf (Node (updateChild children k c) any all set value).
Proof.
  intros Hwf Hp Hh Hc. inversion_clear Hwf as [? ? ? ? ? HN HC HA HL]. assert (NoDup (map fst (updateChild children k c))) as HN'.
  { rewrite update_keys. destruct (decide _); [done|]. apply NoDup_app. split_and!; [done|by intros x Hx ->%list_elem_of_singleton|apply NoDup_singleton]. }
  constructor; [done| |done|done]. intros k' c' H. apply childAt_elem in H; [|done]. rewrite childAt_update in H. case_bool_decide; [by simplify_eq|]. by apply HC, childAt_Some.
Qed.

(** ** Setting a value *)

(** The node of a pattern before and after [fn] ran on it. *)
Definition stored (set : bool) (value : T) : option T := if set then Some value else None.
Definition setResult (fn : setFn) (old : T) (existed : bool) (err : option trieError) (new : option T) : Prop :=
  match fn old existed with
  | (v, None) => err = None /\ new = Some v
  | (v, Some e) => err = Some e /\ new = stored existed v
  end.

Lemma setFunc_spec children any all set value fn :
  exists set' value', (setFunc (Node children any all set value) fn).1 = Node children any all set' value' /\
    setResult fn value set (setFunc (Node children any all set value) fn).2 (stored set' value').
Proof. unfold setResult. cbn. destruct (fn value set) as [v [e|]]; cbn; eexists _, _; (split; [done|]); by cbn. Qed.

Lemma find_new segs : find (newTrie zero) segs = None.
Proof. destruct segs as [|s l]; cbn; [done|]. repeat case_bool_decide; [done| |done]. by destruct l. Qed.

Lemma setPath_spec segs t fn : wf t ->
  let '(t', err) := setPath zero t segs fn in
  wf t' /\ (forall p, p <> segs -> find t' p = find t p) /\
  if validPattern segs then exists old existed, find t segs = stored existed old /\ setResult fn old existed err (find t' segs)
  else err = Some ErrInvalidPattern /\ find t' segs = find t segs.
Proof.
  revert t. induction segs as [|first rest IH]; intros [children any all set value] Hwf; cbn [setPath validPattern].
  - destruct (setFunc_spec children any all set value fn) as (set' & value' & E1 & E2). destruct (setFunc _ fn) as [t' err]. cbn [fst snd] in *. subst t'.
    split_and!; [inversion_clear Hwf; by constructor|intros [|s p] Hp; [done|]; done|]. exists value, set. done.
  - destruct (childAt children first) as [ch|] eqn:Hch.
    + inversion Hwf as [? ? ? ? ? HN HC HA HL]; subst. destruct (HC first ch (childAt_Some _ _ _ Hch)) as (Hp & Hh & Hwc). specialize (IH ch Hwc). destruct (setPath zero ch rest fn) as [ch' err].
      destruct IH as (W & Ho & Hs). rewrite (bool_decide_eq_false_2 (first = hash)) by done. cbn [andb]. split_and!; [by apply wf_update| |].
      * intros [|s p] Hne; cbn [find]; [done|]. repeat case_bool_decide; [done|done|]. rewrite childAt_update. case_bool_decide as E; [|done]. subst s. rewrite Hch. apply Ho. congruence.
      * cbn [find]. rewrite !(bool_decide_eq_false_2 (first = plus)), !(bool_decide_eq_false_2 (first = hash)), childAt_update, bool_decide_eq_true_2, Hch by done. exact Hs.
    + destruct (decide (first = plus)) as [->|Hp]; [|rewrite (bool_decide_eq_false_2 (first = "+"%string)) by done; destruct (decide (first = hash)) as [->|Hh]].
      * rewrite bool_decide_eq_true_2, (bool_decide_eq_false_2 (plus = hash)) by done. cbn [andb]. assert (wf (default (newTrie zero) any)) as Hwa.
        { inversion Hwf as [? ? ? ? ? HN HC HA HL]; subst. destruct any as [n|]; [by apply HA|apply wf_new]. }
        specialize (IH _ Hwa). destruct (setPath zero (default (newTrie zero) any) rest fn) as [n err]. destruct IH as (W & Ho & Hs).
        assert (forall p, find (default (newTrie zero) any) p = match any with Some n => find n p | None => None end) as Hany by (intros p; destruct any; [done|apply find_new]). split_and!.
        -- inversion_clear Hwf as [? ? ? ? ? HN HC HA HL]. constructor; [done|done|by intros ? [= <-]|done].
        -- intros [|s p] Hne; cbn [find]; [done|]. case_bool_decide; [subst s; rewrite <-Hany; apply Ho; congruence|done].
        -- cbn [find]. rewrite !bool_decide_eq_true_2 by done. rewrite <-Hany. exact Hs.
      * rewrite !bool_decide_eq_true_2 by done. destruct rest as [|x rest]; [|by split_and!]. cbn [validPattern andb]. destruct (default (newTrie zero) all) as [c1 a1 l1 s1 v1] eqn:Hall.
        destruct (setFunc_spec c1 a1 l1 s1 v1 fn) as (set' & value' & E1 & E2). destruct (setFunc _ fn) as [n err]. cbn [fst snd] in *. subst n.
        inversion_clear Hwf as [? ? ? ? ? HN HC HA HL]. split_and!.
        -- constructor; [done|done|done|]. intros ? [= <-]. destruct all as [n|]; [destruct (HL n eq_refl) as (s & v & ->)|]; cbn in Hall; injection Hall as <- <- <- <- <-; by eexists _, _.
        -- intros [|s p] Hne; cbn [find]; [done|]. case_bool_decide; [done|]. case_bool_decide; [|done]. subst s. by destruct p.
        -- exists v1, s1. cbn [find]. rewrite (bool_decide_eq_false_2 (hash = plus)), !bool_decide_eq_true_2 by done. split; [|done].
           destruct all as [n|]; cbn in Hall; [subst n|injection Hall as <- <- <- <- <-]; done.
      * rewrite !(bool_decide_eq_false_2 (first = hash)) by done. cbn [andb]. specialize (IH _ wf_new). destruct (setPath zero (newTrie zero) rest fn) as [ch' err]. destruct IH as (W & Ho & Hs).
        split_and!; [by apply wf_update| |].
        -- intros [|s p] Hne; cbn [find]; [done|]. repeat case_bool_decide; [done|done|]. rewrite childAt_update. case_bool_decide as E; [|done]. subst s. rewrite Hch, <-(find_new p). apply Ho. congruence.
        -- cbn [find]. rewrite !(bool_decide_eq_false_2 (first = plus)), !(bool_decide_eq_false_2 (first = hash)), childAt_update, bool_decide_eq_true_2, Hch by done.
           rewrite find_new in Hs. exact Hs.
Qed.

(** [SetValue] stores a value under its pattern and changes nothing else: a pattern
    with [#] before its last segment is refused and leaves the trie as it was to every
    reader; otherwise the pattern now has the value and every other pattern has what it
    had. *)
Theorem SetValue_stores t path v :
  wf t ->
  let '(t', err) := SetValue zero t path v in
  wf t' /\
  (if validPattern (segments path) then err = None /\ find t' (segments path) = Some v else err = Some ErrInvalidPattern /\ find t' (segments path) = find t (segments path)) /\
  forall p, p <> segments path -> find t' p = find t p.
Proof.
  intros Hwf. unfold SetValue, Trie_Set. pose proof (setPath_spec (segments path) t (fun _ _ => (v, None)) Hwf) as HS.
  destruct (setPath zero t (segments path) (fun _ _ => (v, None))) as [t' err]. destruct HS as (W & Ho & HS). split_and!; [done| |done].
  destruct (validPattern (segments path)); [|done]. by destruct HS as (old & existed & _ & HS).
Qed.

(** ** Matching *)
Definition routeOf (matched : string) (pat : list string) : string := foldl (fun r s => r +:+ "/"%string +:+ s) matched pat.

(** The result for a path: the most specific stored pattern that matches, or none does. *)
Definition bestMatch (t : Trie) (matched : string) (segs : list string) (r : string * option T * bool) : Prop :=
  match r with
  | (route, val, true) =>
      exists pat v, route = routeOf matched pat /\ val = Some v /\ find t pat = Some v /\ matches pat segs = true /\
        forall pat', find t pat' <> None -> matches pat' segs = true -> moreSpecific pat pat' = true
  | (_, _, false) => forall pat, matches pat segs = true -> find t pat = None
  end.

Lemma moreSpecific_refl p : moreSpecific p p = true.
Proof. induction p as [|s p IH]; [done|]. cbn. by rewrite bool_decide_eq_true_2. Qed.

(** A matching pattern starts with the segment itself, with [+] or is [#]. *)
Lemma matches_cons pat first rest : matches pat (first :: rest) = true ->
  pat = [hash] \/ exists s pat', pat = s :: pat' /\ s <> hash /\ (s = plus \/ s = first) /\ matches pat' rest = true.
Proof.
  destruct pat as [|s pat]; cbn; [done|]. case_bool_decide as Hh; [subst; destruct pat; [by left|done]|]. intros [[Hp%bool_decide_eq_true|Hf%bool_decide_eq_true]%orb_true_iff HM]%andb_true_iff; right; exists s, pat; auto.
Qed.

Lemma rank_literal s : s <> plus -> s <> hash -> rank s = 0%nat.
Proof. intros Hp Hh. unfold rank. by rewrite !bool_decide_eq_false_2. Qed.

(** A literal first segment is more specific than any other pattern for the same path. *)
Lemma literal_first first pat pat' rest : first <> plus -> first <> hash ->
  matches pat' (first :: rest) = true -> (forall q, pat' = first :: q -> matches q rest = true -> moreSpecific pat q = true) -> moreSpecific (first :: pat) pat' = true.
Proof.
  intros Hp Hh Hm Hq. destruct (matches_cons _ _ _ Hm) as [->|(s & q & -> & Hs & Hor & HMq)]; cbn [moreSpecific].
  - rewrite bool_decide_eq_false_2 by done. by rewrite rank_literal.
  - destruct (decide (first = s)) as [<-|Hne]; [rewrite bool_decide_eq_true_2 by done; by apply Hq|].
    rewrite bool_decide_eq_false_2 by done. destruct Hor as [->|?]; [|done]. by rewrite rank_literal.
Qed.

Section node.
Context (children : list (string * Trie)) (any all : option Trie) (set : bool) (value : T).
Context (matched first : string) (rest : list string).
Let t := Node children any all set value.

(** The last resort of [match], [#]. *)
Definition viaAll : string * option T * bool :=
  match all with
  | Some (Node _ _ _ set' value') => if set' then (matched +:+ "/#"%string, Some value', true) else (EmptyString, None, false)
  | None => (EmptyString, None, false)
  end.

Lemma viaAll_best : (forall pat, matches pat (first :: rest) = true -> find t pat <> None -> pat = [hash]) -> bestMatch t matched (first :: rest) viaAll.
Proof.
  intros Honly. unfold viaAll. assert (find t [hash] = None -> forall pat, matches pat (first :: rest) = true -> find t pat = None) as Hnone.
  { intros HN pat Hm. destruct (find t pat) eqn:E; [|done]. rewrite (Honly pat Hm) in E by congruence. congruence. }
  unfold t in *. destruct all as [[c1 a1 l1 s1 v1]|]; [destruct s1|]; [|exact (Hnone eq_refl)..].
  exists [hash], v1. split_and!; try done. intros pat' Hf Hm. by rewrite (Honly pat' Hm Hf).
Qed.

(** [+], when no literal pattern matches. *)
Definition viaAny : string * option T * bool :=
  match any with
  | Some n => match matchPath n (matched +:+ "/+"%string) rest with (route, handlers, true) => (route, handlers, true) | _ => viaAll end
  | None => viaAll
  end.

Lemma viaAny_best :
  (forall n, any = Some n -> bestMatch n (matched +:+ "/+"%string) rest (matchPath n (matched +:+ "/+"%string) rest)) ->
  (forall q, matches q rest = true -> first <> plus -> first <> hash -> find t (first :: q) = None) -> bestMatch t matched (first :: rest) viaAny.
Proof.
  intros HB Hlit. assert ((forall q, matches q rest = true -> find t (plus :: q) = None) -> bestMatch t matched (first :: rest) viaAll) as Hall.
  { intros Hplus. apply viaAll_best. intros pat Hm Hf. destruct (matches_cons _ _ _ Hm) as [->|(s & q & -> & Hs & Hor & Hq)]; [done|]. exfalso. apply Hf.
    destruct (decide (s = plus)) as [->|Hne]; [by apply Hplus|]. destruct Hor as [?|Hor]; [done|]. subst s. by apply Hlit. }
  unfold viaAny, t in *. destruct any as [n|]; [|by apply Hall]. specialize (HB n eq_refl).
  destruct (matchPath n (matched +:+ "/+"%string) rest) as [[route val] [|]]; cbn in HB; [|by apply Hall].
  destruct HB as (pat & v & -> & -> & Hf & Hm & Hbest). exists (plus :: pat), v. split_and!; [reflexivity|done|exact Hf|cbn; by rewrite Hm|].
  intros pat' Hf' Hm'. destruct (matches_cons _ _ _ Hm') as [->|(s & q & -> & Hs & Hor & Hq)]; [done|]. destruct (decide (s = plus)) as [->|Hne]; [cbn; by apply Hbest|].
  destruct Hor as [?|Hor]; [done|]. subst s. by rewrite (Hlit q Hq Hne Hs) in Hf'.
Qed.
End node.

Lemma matchPath_spec segs t matched : wf t -> bestMatch t matched segs (matchPath t matched segs).
Proof.
  revert t matched. induction segs as [|first rest IH]; intros [children any all set value] matched Hwf; cbn [matchPath].
  - destruct set; cbn; [exists [], value; by split_and!|]. intros [|s p]; done.
  - inversion Hwf as [? ? ? ? ? HN HC HA HL]; subst. fold (viaAll all matched). fold (viaAny any all matched rest). set (t := Node children any all set value).
    assert ((forall q, matches q rest = true -> first <> plus -> first <> hash -> find t (first :: q) = None) -> bestMatch t matched (first :: rest) (viaAny any all matched rest)) as Hany.
    { apply viaAny_best. intros n ->. by apply IH, HA. }
    destruct (childAt children first) as [ch|] eqn:Hch; [|apply Hany; intros q _ Hp Hh; cbn; by rewrite !bool_decide_eq_false_2, Hch].
    destruct (HC first ch (childAt_Some _ _ _ Hch)) as (Hp & Hh & Hwc). pose proof (IH ch (matched +:+ "/"%string +:+ first) Hwc) as HB.
    assert (forall q, find t (first :: q) = find ch q) as Hfind by (intros q; cbn; by rewrite !bool_decide_eq_false_2, Hch).
    destruct (matchPath ch (matched +:+ "/"%string +:+ first) rest) as [[route val] [|]]; cbn in HB; [|apply Hany; intros q Hq _ _; rewrite Hfind; by apply HB].
    destruct HB as (pat & v & -> & -> & Hf & Hm & Hbest). exists (first :: pat), v. split_and!; [done|done|by rewrite Hfind| |].
    + cbn. rewrite (bool_decide_eq_false_2 (first = hash)), (bool_decide_eq_true_2 (first = first)), orb_true_r by done. exact Hm.
    + intros pat' Hf' Hm'. apply (literal_first first pat pat' rest Hp Hh Hm'). intros q -> Hq. apply Hbest; [by rewrite <-Hfind|done].
Qed.

(** C34: [Match] is most-specific pattern matching: it succeeds exactly when some stored
    pattern matches the path, and returns the route and the value of the most specific
    one, where a literal segment goes before [+] and [+] before [#] at the first place
    where two patterns differ; [Get] returns that value, and [GetValue] of a stored path
    without wildcards returns what is stored under it. *)
Theorem Match_most_specific t path :
  wf t ->
  bestMatch t EmptyString (segments path) (Trie_Match t path) /\
  Trie_Get t path = ((Trie_Match t path).1.2, (Trie_Match t path).2) /\
  forall v, find t (segments path) = Some v -> Forall (fun s => s <> plus /\ s <> hash) (segments path) -> GetValue zero t path = (v, true).
Proof.
  intros Hwf. pose proof (matchPath_spec (segments path) t EmptyString Hwf) as HB. split_and!; [exact HB|unfold Trie_Get, Trie_Match; by destruct (matchPath _ _ _) as [[route val] ok]|].
  intros v Hf HF. unfold GetValue, Trie_Get.
  assert (matches (segments path) (segments path) = true) as Hm.
  { clear -HF. induction HF as [|s l [Hp Hh] HF IH]; [done|]. cbn. by rewrite bool_decide_eq_false_2, (bool_decide_eq_true_2 (s = s)), orb_true_r by done. }
  destruct (matchPath t EmptyString (segments path)) as [[route val] [|]]; [|by rewrite (HB _ Hm) in Hf]. destruct HB as (pat & w & _ & -> & Hw & Hmp & Hbest).
  assert (pat = segments path) as ->; [|congruence]. specialize (Hbest (segments path) ltac:(congruence) Hm). clear -HF Hmp Hbest. revert pat Hmp Hbest.
  induction HF as [|s l [Hp Hh] HF IH]; intros [|x pat] Hmp Hbest; try done. destruct (matches_cons _ _ _ Hmp) as [E|(y & q & E & Hy & Hor & Hq)]; [injection E as -> ->|injection E as <- <-]; cbn [moreSpecific] in Hbest.
  - rewrite bool_decide_eq_false_2, (rank_literal s) in Hbest by done. done.
  - destruct (decide (x = s)) as [->|Hne]; [rewrite bool_decide_eq_true_2 in Hbest by done; f_equal; by apply IH|]. rewrite bool_decide_eq_false_2, (rank_literal s) in Hbest by done. by apply Nat.ltb_lt, Nat.nlt_0_r in Hbest.
Qed.

(** ** Walking *)
Lemma Trie_ind' (P : Trie -> Prop) :
  (forall children any all set value, (forall k c, (k, c) ∈ children -> P c) -> (forall n, any = Some n -> P n) -> (forall n, all = Some n -> P n) -> P (Node children any all set value)) ->
  forall t, P t.
Proof.
  intros H. fix IH 1. intros [children any all set value]. apply H.
  - induction children as [|[k' c'] l IHl]; intros k c; [intros Hk; destruct (not_elem_of_nil _ Hk)|]. intros [E|Hin]%elem_of_cons; [injection E as -> ->; apply IH|exact (IHl k c Hin)].
  - intros n. destruct any as [m|]; [intros [= <-]; apply IH|discriminate].
  - intros n. destruct all as [m|]; [intros [= <-]; apply IH|discriminate].
Qed.

Local Notation entry := (list string * bool * T)%type.
Definition pathOf (x : entry) : list string := x.1.1.

Lemma walk_node children any all set value path :
  walkWithPath (Node children any all set value) path =
    concat (map (fun kc => walkWithPath kc.2 (path ++ [kc.1])) children) ++ match any with Some n => walkWithPath n (path ++ [plus]) | None => [] end ++
    match all with Some n => walkWithPath n (path ++ [hash]) | None => [] end ++ [(path, set, value)].
Proof. cbn [walkWithPath]. f_equal. induction children as [|[k c] l IH]; [done|]. cbn [map concat fst snd]. by rewrite <-IH. Qed.

(** The nodes below a path: each has a path of its own, and the set ones are what is
    stored. *)
Definition walked (t : Trie) (path : list string) : Prop :=
  (forall x, x ∈ walkWithPath t path -> exists p, pathOf x = path ++ p) /\
  NoDup (map pathOf (walkWithPath t path)) /\
  forall p v, (path ++ p, true, v) ∈ walkWithPath t path <-> find t p = Some v.

Lemma NoDup_fmap_app {A B} (f : A -> B) l k : NoDup (map f l) -> NoDup (map f k) -> (forall x y, x ∈ l -> y ∈ k -> f x <> f y) -> NoDup (map f (l ++ k)).
Proof.
  intros H1 H2 H. rewrite map_app. apply NoDup_app. split_and!; [done| |done]. intros z (x & -> & Hx)%list_elem_of_fmap (y & E & Hy)%list_elem_of_fmap. by destruct (H x y Hx Hy).
Qed.

Lemma children_walked children path :
  NoDup (map fst children) -> (forall k c, (k, c) ∈ children -> walked c (path ++ [k])) ->
  let l := concat (map (fun kc => walkWithPath kc.2 (path ++ [kc.1])) children) in
  (forall x, x ∈ l <-> exists k c, (k, c) ∈ children /\ x ∈ walkWithPath c (path ++ [k])) /\ NoDup (map pathOf l).
Proof.
  intros HN HW. cbn zeta. assert (forall children x, x ∈ concat (map (fun kc : string * Trie => walkWithPath kc.2 (path ++ [kc.1])) children) <-> exists k c, (k, c) ∈ children /\ x ∈ walkWithPath c (path ++ [k])) as Hin.
  { clear. intros children x. induction children as [|[k c] l IH]; cbn [map concat fst snd].
    - split; [by intros ?%not_elem_of_nil|]. by intros (? & ? & ?%not_elem_of_nil & _).
    - rewrite elem_of_app, IH. split; [intros [Hx|(k' & c' & Hk & Hx)]; [exists k, c; split; [by left|done]|exists k', c'; split; [by right|done]]|].
      intros (k' & c' & [E|Hk]%elem_of_cons & Hx); [injection E as -> ->; by left|right; by exists k', c']. }
  split; [apply Hin|]. induction children as [|[k c] l IH]; [constructor|]. cbn [map concat fst snd]. apply NoDup_cons in HN as [Hk HN].
  apply NoDup_fmap_app; [apply (HW k c); by left|apply IH; [done|]; intros k' c' Hk'; apply HW; by right|].
  intros x y Hx (k' & c' & Hk' & Hy)%Hin E. destruct (HW k c ltac:(by left)) as [Px _], (HW k' c' ltac:(by right)) as [Py _]. destruct (Px x Hx) as [p1 E1], (Py y Hy) as [p2 E2].
  rewrite E1, E2, <-!app_assoc in E. apply app_inv_head in E. injection E as -> _. apply Hk. by apply (list_elem_of_fmap_2 fst) in Hk'.
Qed.

(** The subtree behind the first segment of a pattern. *)
Definition below (t : Trie) (s : string) : option Trie :=
  match t with
  | Node children any all _ _ => if bool_decide (s = plus) then any else if bool_decide (s = hash) then all else childAt children s
  end.

Lemma find_below t s q : wf t -> find t (s :: q) = match below t s with Some n => find n q | None => None end.
Proof.
  intros Hwf. inversion Hwf as [children any all set value HN HC HA HL]; subst. cbn. case_bool_decide; [done|]. case_bool_decide; [|done].
  destruct all as [n|]; [|by destruct q]. destruct (HL n eq_refl) as (s' & v & ->). destruct q as [|x q]; [done|]. cbn. by repeat case_bool_decide; destruct q.
Qed.

Lemma wf_below t s n : wf t -> below t s = Some n -> wf n.
Proof.
  intros Hwf. inversion Hwf as [children any all set value HN HC HA HL]; subst. cbn. case_bool_decide; [apply HA|]. case_bool_decide; [|intros Hc%childAt_Some; by apply HC in Hc as (_ & _ & ?)].
  intros ->. destruct (HL n eq_refl) as (s' & v & ->). constructor; [constructor|by intros ? ? ?%not_elem_of_nil|done|done].
Qed.

(** The nodes are those of the subtrees and the node itself. *)
Lemma walk_elem t path x : wf t -> (forall s n, below t s = Some n -> walked n (path ++ [s])) ->
  (x ∈ walkWithPath t path <-> (exists s n, below t s = Some n /\ x ∈ walkWithPath n (path ++ [s])) \/ match t with Node _ _ _ set value => x = (path, set, value) end) /\
  NoDup (map pathOf (walkWithPath t path)).
Proof.
  intros Hwf HW. inversion Hwf as [children any all set value HN HC HA HL]; subst. rewrite walk_node.
  assert (forall k c, (k, c) ∈ children -> below (Node children any all set value) k = Some c) as Hbelow.
  { intros k c Hk. destruct (HC k c Hk) as (Hp & Hh & _). cbn. rewrite !bool_decide_eq_false_2 by done. by apply childAt_elem. }
  destruct (children_walked children path HN) as [HL1 HL2]; [intros k c Hk; by apply HW, Hbelow|]. set (L := concat _) in *.
  set (A := match any with Some n => walkWithPath n (path ++ [plus]) | None => [] end). set (H := match all with Some n => walkWithPath n (path ++ [hash]) | None => [] end).
  assert (forall s n x, below (Node children any all set value) s = Some n -> x ∈ walkWithPath n (path ++ [s]) -> exists p, pathOf x = path ++ s :: p) as Hfirst.
  { intros s n y Hn Hy. destruct (HW s n Hn) as [HP _]. destruct (HP y Hy) as [p E]. exists p. by rewrite E, <-app_assoc. }
  assert (forall y, y ∈ A <-> exists n, any = Some n /\ y ∈ walkWithPath n (path ++ [plus])) as HAin by (intros y; unfold A; destruct any; set_solver).
  assert (forall y, y ∈ H <-> exists n, all = Some n /\ y ∈ walkWithPath n (path ++ [hash])) as HHin by (intros y; unfold H; destruct all; set_solver).
  split.
  - rewrite !elem_of_app, list_elem_of_singleton, HL1, HAin, HHin. split.
    + intros [(k & c & Hk & Hx)|[(n & Hn & Hx)|[(n & Hn & Hx)|Hx]]]; [left; exists k, c; auto|left; by exists plus, n|left; exists hash, n; split; [by cbn|done]|by right].
    + intros [(s & n & Hn & Hx)|Hx]; [|by right; right; right]. cbn in Hn. case_bool_decide; [subst; right; left; by exists n|]. case_bool_decide; [subst; right; right; left; by exists n|].
      left. exists s, n. by apply childAt_Some in Hn.
  - assert (forall y, y ∈ L -> exists k p, k <> plus /\ k <> hash /\ pathOf y = path ++ k :: p) as FL.
    { intros y (k & c & Hk & Hy)%HL1. destruct (HC k c Hk) as (Hp & Hh & _). destruct (Hfirst k c y (Hbelow k c Hk) Hy) as [p E]. by exists k, p. }
    assert (forall y, y ∈ A -> exists p, pathOf y = path ++ plus :: p) as FA by (intros y (n & Hn & Hy)%HAin; by apply (Hfirst plus n)).
    assert (forall y, y ∈ H -> exists p, pathOf y = path ++ hash :: p) as FH by (intros y (n & Hn & Hy)%HHin; by apply (Hfirst hash n)).
    assert (NoDup (map pathOf A)) as NA by (unfold A; destruct any as [n|]; [apply (HW plus n eq_refl)|constructor]).
    assert (NoDup (map pathOf H)) as NH by (unfold H; destruct all as [n|]; [apply (HW hash n eq_refl)|constructor]).
    assert (forall s p q, path ++ s :: p = path ++ q -> q = s :: p) as Hinj by (intros s p q E; by apply app_inv_head in E).
    assert (forall s p, path ++ s :: p <> path) as Hself by (intros s p E; rewrite <-(app_nil_r path) in E at 2; by apply app_inv_head in E).
    repeat apply NoDup_fmap_app; try done; [apply NoDup_singleton|..].
    + intros y z (p & E1)%FH ->%list_elem_of_singleton. rewrite E1. apply Hself.
    + intros y z (p & E1)%FA [(p2 & E2)%FH| ->%list_elem_of_singleton]%elem_of_app; rewrite E1; [rewrite E2; by intros [=]%Hinj|apply Hself].
    + intros y z (k & p & Hp & Hh & E1)%FL [(p2 & E2)%FA|[(p2 & E2)%FH| ->%list_elem_of_singleton]%elem_of_app]%elem_of_app; rewrite E1; [rewrite E2; intros [=]%Hinj; congruence..|apply Hself].
Qed.

Lemma walk_spec t path : wf t -> walked t path.
Proof.
  revert path. induction t as [children any all set value IHc IHy IHl] using Trie_ind'. intros path Hwf.
  assert (forall s n, below (Node children any all set value) s = Some n -> walked n (path ++ [s])) as HW.
  { intros s n Hn. pose proof (wf_below _ s n Hwf Hn) as Hwn. cbn in Hn. case_bool_decide; [by apply IHy|]. case_bool_decide; [by apply IHl|]. apply childAt_Some in Hn. by apply (IHc s). }
  split_and!; [| |].
  - intros x. rewrite (proj1 (walk_elem _ path x Hwf HW)). intros [(s & n & Hn & Hx)| ->]; [|exists []; by rewrite app_nil_r]. destruct (HW s n Hn) as [HP _]. destruct (HP x Hx) as [p E].
    exists (s :: p). by rewrite E, <-app_assoc.
  - apply (walk_elem _ path (path, set, value) Hwf HW).
  - intros p v. rewrite (proj1 (walk_elem _ path _ Hwf HW)). destruct p as [|s p].
    + rewrite app_nil_r. split.
      * intros [(s & n & Hn & Hx)|E]; [|by injection E as <- <-]. destruct (HW s n Hn) as [HP _]. destruct (HP _ Hx) as [p E]. exfalso. cbn in E. rewrite <-app_assoc in E.
        rewrite <-(app_nil_r path) in E at 1. by apply app_inv_head in E.
      * cbn. intros E. right. by destruct set; simplify_eq.
    + rewrite find_below by done. split.
      * intros [(s' & n & Hn & Hx)|E]; [|exfalso; injection E as E _ _; rewrite <-(app_nil_r path) in E at 2; by apply app_inv_head in E].
        destruct (HW s' n Hn) as (HP & _ & HI). destruct (HP _ Hx) as [p' E]. cbn in E. rewrite <-app_assoc in E. apply app_inv_head in E. injection E as <- <-. rewrite Hn.
        apply HI. by rewrite <-app_assoc.
      * destruct (below (Node children any all set value) s) as [n|] eqn:Hn; [|done]. intros Hf. left. exists s, n. split; [done|]. destruct (HW s n Hn) as (_ & _ & HI).
        apply HI in Hf. by rewrite <-app_assoc in Hf.
Qed.

(** [Len] is the number of patterns that have a value: the patterns it counts are
    distinct, and they are exactly those under which something is stored. *)
Theorem Len_counts t :
  wf t -> exists pats, NoDup pats /\ (forall p, p ∈ pats <-> find t p <> None) /\ Trie_Len t = length pats.
Proof.
  intros Hwf. destruct (walk_spec t [] Hwf) as (_ & HN & HI). exists (map pathOf (filter (fun x : entry => x.1.2 = true) (walkWithPath t []))). split_and!.
  - eapply sublist_NoDup; [exact HN|]. apply fmap_sublist. apply sublist_filter.
  - intros p. split.
    + intros ([[q set] v] & -> & [Hs Hx]%list_elem_of_filter)%list_elem_of_fmap. cbn in Hs. subst set. apply (HI q v) in Hx. cbn. congruence.
    + destruct (find t p) as [v|] eqn:E; [|done]. intros _. apply HI in E. apply list_elem_of_fmap. exists (p, true, v). split; [done|]. by apply list_elem_of_filter.
  - clear HN HI. unfold Trie_Len, Walk. rewrite length_map. induction (walkWithPath t []) as [|[[q set] v] l IH]; [done|]. cbn [map].
    destruct set; [rewrite !filter_cons_True by done; cbn [length]; by rewrite IH|by rewrite !filter_cons_False by done].
Qed.
End trie.

(** ** Examples *)
Definition exTrie : @Trie Z := (SetValue 0%Z (SetValue 0%Z (SetValue 0%Z (newTrie 0%Z) "/a/+/c" 1%Z).1 "/a/#" 2%Z).1 "/a/b/c" 3%Z).1.

Lemma exTrie_wf : wf exTrie.
Proof.
  unfold exTrie, SetValue, Trie_Set. repeat match goal with |- wf (setPath 0%Z ?t ?s ?fn).1 =>
    let H := fresh in assert (wf t -> wf (setPath 0%Z t s fn).1) as H by (intros Hw; pose proof (setPath_spec 0%Z s t fn Hw) as HS; destruct (setPath 0%Z t s fn); exact (proj1 HS)); apply H; clear H end.
  apply wf_new.
Qed.

Lemma SetValue_stores_witness : find (SetValue 0%Z exTrie "/x/+" 4%Z).1 (segments "/x/+") = Some 4%Z /\ find (SetValue 0%Z exTrie "/x/+" 4%Z).1 (segments "/a/#") = Some 2%Z.
Proof.
  pose proof (SetValue_stores 0%Z exTrie "/x/+" 4%Z exTrie_wf) as HS. destruct (SetValue 0%Z exTrie "/x/+" 4%Z) as [t' err]. destruct HS as (_ & [_ H1] & H2).
  split; [exact H1|]. etransitivity; [apply H2; vm_compute; discriminate|vm_compute; reflexivity].
Defined.

Lemma Match_most_specific_witness : Trie_Match exTrie "/a/x/c" = ("//a/+/c"%string, Some 1%Z, true) /\ GetValue 0%Z exTrie "/a/b/c" = (3%Z, true).
Proof.
  split; [vm_compute; reflexivity|]. apply (Match_most_specific 0%Z exTrie "/a/b/c" exTrie_wf); [vm_compute; reflexivity|].
  apply (bool_decide_eq_true (Forall _ _)). vm_compute. reflexivity.
Defined.

Lemma Len_counts_witness : exists pats, NoDup pats /\ length pats = 3%nat /\ forall p, p ∈ pats <-> find exTrie p <> None.
Proof.
  destruct (Len_counts exTrie exTrie_wf) as (pats & H1 & H2 & H3). exists pats. split; [exact H1|]. split; [|exact H2]. rewrite <-H3. vm_compute. reflexivity.
Defined.
