(* ===== verification/TunnelRouter.v ===== *)
(** * giztunnel: the router

    The router of [src/pkgs/giznet/giztunnel/conn.go]: pending and established logical
    sessions over one physical connection, and the leases on its channels.

    Pending sessions and connections are shared objects: [r_pends] and [r_conns] are the
    objects that exist, [r_pending] and [r_sessions] the router's maps to them.  A
    lease that has not been released is an entry of [r_leases].  Every definition below
    is one critical section of [Router.mu] (or one atomic operation); the transport, the
    timers and the channels' own closing decide when the sections run, so an execution
    is any sequence of them ([routerStep]). *)

From stdpp Require Import gmap list strings.
From S2P Require Import Prelude GoBytes GizKeys Tunnel.

Open Scope Z_scope.

(** ** Configuration *)
Record RouterConfig := MkConfig {
  cfg_AcceptSessions : bool;
  cfg_MaxChannelsPerSession : Z;
  cfg_MaxChannels : Z;
  cfg_MaxPendingSessions : Z;
  cfg_ServiceQueueSize : Z;
  cfg_HandshakeTimeout : Z;
  cfg_MaxBufferedBytes : Z;
  cfg_MaxAssociationBufferedBytes : Z
}.

Definition defaultMaxChannelsPerSession : Z := 32.
Definition defaultMaxChannels : Z := 8192.
Definition defaultMaxAssociationBuffer : Z := Z.shiftl 32 20.
Definition maxAssociationBuffer : Z := Z.shiftl 256 20.
Definition defaultMaxPendingSessions : Z := 2048.
Definition defaultServiceQueueSize : Z := 16.
Definition defaultHandshakeTimeout : Z := 10 * 10 ^ 9.

Definition orDefault (unset : bool) (d v : Z) : Z := if unset then d else v.

Definition withDefaults (c : RouterConfig) : RouterConfig :=
  MkConfig (cfg_AcceptSessions c)
    (orDefault (cfg_MaxChannelsPerSession c <=? 0) defaultMaxChannelsPerSession (cfg_MaxChannelsPerSession c))
    (orDefault (cfg_MaxChannels c <=? 0) defaultMaxChannels (cfg_MaxChannels c))
    (orDefault (cfg_MaxPendingSessions c <=? 0) defaultMaxPendingSessions (cfg_MaxPendingSessions c))
    (orDefault (cfg_ServiceQueueSize c <=? 0) defaultServiceQueueSize (cfg_ServiceQueueSize c))
    (orDefault (cfg_HandshakeTimeout c <=? 0) defaultHandshakeTimeout (cfg_HandshakeTimeout c))
    (orDefault (cfg_MaxBufferedBytes c <=? 0) (Z.shiftl 1 20) (cfg_MaxBufferedBytes c))
    (orDefault (cfg_MaxAssociationBufferedBytes c =? 0) defaultMaxAssociationBuffer (cfg_MaxAssociationBufferedBytes c)).

Inductive routerError :=
  | RConnClosed
  | RInvalidFrame
  | RSessionExists
  | RSessionNotFound
  | RBufferLimit
  | RCapacity (scope : string) (active limit : Z)
  | RConfig (text : string).

#[export] Instance routerError_eq_dec : EqDecision routerError.
Proof. solve_decision. Defined.

Definition Config_validate (c : RouterConfig) : Go routerError unit :=
  _ ← check ((cfg_MaxChannelsPerSession c <? 3) || (defaultMaxChannelsPerSession <? cfg_MaxChannelsPerSession c)) (RConfig "max channels per session");
  _ ← check ((cfg_MaxChannels c <? 3) || (defaultMaxChannels <? cfg_MaxChannels c)) (RConfig "max channels");
  _ ← check ((cfg_MaxPendingSessions c <=? 0) || (defaultMaxPendingSessions <? cfg_MaxPendingSessions c)) (RConfig "max pending sessions");
  _ ← check ((cfg_MaxBufferedBytes c <? 64 * 1024) || (16 * 1024 * 1024 <? cfg_MaxBufferedBytes c)) (RConfig "max buffered bytes");
  check ((cfg_MaxAssociationBufferedBytes c <? cfg_MaxBufferedBytes c) || (maxAssociationBuffer <? cfg_MaxAssociationBufferedBytes c)) (RConfig "max association buffered bytes").

(** ** State *)
#[export] Instance SessionDeclaration_eq_dec : EqDecision SessionDeclaration.
Proof. solve_decision. Defined.

(** [control] and [packet] are the leases of the tracked channels. *)
Record pendingSession := MkPending {
  ps_declaration : SessionDeclaration;
  ps_control : option nat;
  ps_packet : option nat;
  ps_controlLease : option nat;
  ps_packetLease : option nat;
  ps_initiated : bool;
  ps_active : Z
}.

Inductive admissionState := admissionPending | admissionAccepted | admissionExpired.

#[export] Instance admissionState_eq_dec : EqDecision admissionState.
Proof. solve_decision. Defined.

Record Conn := MkConn {
  cn_declaration : SessionDeclaration;
  cn_control : option nat;
  cn_packet : option nat;
  cn_initiator : bool;
  cn_active : Z;
  cn_admission : admissionState;
  cn_admissionSlot : bool
}.

(** [r_slotReleases]: admission slots given up by [releaseAdmissionSlot] whose decrement
    under the lock is still to come. *)
Record Router := MkRouter {
  r_cfg : RouterConfig;
  r_sessions : gmap Bytes nat;
  r_pending : gmap Bytes nat;
  r_retired : gset Bytes;
  r_activeChannels : Z;
  r_pendingAdmissions : Z;
  r_closed : bool;
  r_conns : gmap nat Conn;
  r_pends : gmap nat pendingSession;
  r_leases : gmap nat Bytes;
  r_slotReleases : nat;
  r_channelAvailable : nat
}.

Definition emptyRouter (cfg : RouterConfig) : Router := MkRouter cfg ∅ ∅ ∅ 0 0 false ∅ ∅ ∅ 0 0.

(** The transport accepts the label prefix or returns an error. *)
Definition NewRouter (hasTransport : bool) (handled : Go routerError unit) (cfg : RouterConfig) : Go routerError Router :=
  _ ← check (negb hasTransport) RConnClosed;
  let cfg := withDefaults cfg in
  _ ← Config_validate cfg;
  _ ← handled;
  Ret (emptyRouter cfg).

(** *** Updates of single fields *)
Definition setSessions (m : gmap Bytes nat) (r : Router) : Router :=
  MkRouter (r_cfg r) m (r_pending r) (r_retired r) (r_activeChannels r) (r_pendingAdmissions r) (r_closed r) (r_conns r) (r_pends r) (r_leases r) (r_slotReleases r) (r_channelAvailable r).
Definition setPendingMap (m : gmap Bytes nat) (r : Router) : Router :=
  MkRouter (r_cfg r) (r_sessions r) m (r_retired r) (r_activeChannels r) (r_pendingAdmissions r) (r_closed r) (r_conns r) (r_pends r) (r_leases r) (r_slotReleases r) (r_channelAvailable r).
Definition setRetired (s : gset Bytes) (r : Router) : Router :=
  MkRouter (r_cfg r) (r_sessions r) (r_pending r) s (r_activeChannels r) (r_pendingAdmissions r) (r_closed r) (r_conns r) (r_pends r) (r_leases r) (r_slotReleases r) (r_channelAvailable r).
Definition setActive (n : Z) (r : Router) : Router :=
  MkRouter (r_cfg r) (r_sessions r) (r_pending r) (r_retired r) n (r_pendingAdmissions r) (r_closed r) (r_conns r) (r_pends r) (r_leases r) (r_slotReleases r) (r_channelAvailable r).
Definition setAdmissions (n : Z) (r : Router) : Router :=
  MkRouter (r_cfg r) (r_sessions r) (r_pending r) (r_retired r) (r_activeChannels r) n (r_closed r) (r_conns r) (r_pends r) (r_leases r) (r_slotReleases r) (r_channelAvailable r).
Definition setClosed (r : Router) : Router :=
  MkRouter (r_cfg r) (r_sessions r) (r_pending r) (r_retired r) (r_activeChannels r) (r_pendingAdmissions r) true (r_conns r) (r_pends r) (r_leases r) (r_slotReleases r) (r_channelAvailable r).
Definition setConns (m : gmap nat Conn) (r : Router) : Router :=
  MkRouter (r_cfg r) (r_sessions r) (r_pending r) (r_retired r) (r_activeChannels r) (r_pendingAdmissions r) (r_closed r) m (r_pends r) (r_leases r) (r_slotReleases r) (r_channelAvailable r).
Definition setPends (m : gmap nat pendingSession) (r : Router) : Router :=
  MkRouter (r_cfg r) (r_sessions r) (r_pending r) (r_retired r) (r_activeChannels r) (r_pendingAdmissions r) (r_closed r) (r_conns r) m (r_leases r) (r_slotReleases r) (r_channelAvailable r).
Definition setLeases (m : gmap nat Bytes) (r : Router) : Router :=
  MkRouter (r_cfg r) (r_sessions r) (r_pending r) (r_retired r) (r_activeChannels r) (r_pendingAdmissions r) (r_closed r) (r_conns r) (r_pends r) m (r_slotReleases r) (r_channelAvailable r).
Definition setSlotReleases (n : nat) (r : Router) : Router :=
  MkRouter (r_cfg r) (r_sessions r) (r_pending r) (r_retired r) (r_activeChannels r) (r_pendingAdmissions r) (r_closed r) (r_conns r) (r_pends r) (r_leases r) n (r_channelAvailable r).
Definition wakeWaiters (r : Router) : Router :=
  MkRouter (r_cfg r) (r_sessions r) (r_pending r) (r_retired r) (r_activeChannels r) (r_pendingAdmissions r) (r_closed r) (r_conns r) (r_pends r) (r_leases r) (r_slotReleases r) (S (r_channelAvailable r)).

Definition setPsActive (n : Z) (p : pendingSession) : pendingSession :=
  MkPending (ps_declaration p) (ps_control p) (ps_packet p) (ps_controlLease p) (ps_packetLease p) (ps_initiated p) n.
Definition setCnActive (n : Z) (c : Conn) : Conn :=
  MkConn (cn_declaration c) (cn_control c) (cn_packet c) (cn_initiator c) n (cn_admission c) (cn_admissionSlot c).

(** The objects behind the maps. *)
Definition connOf (r : Router) (id : Bytes) : option Conn := ref ← r_sessions r !! id; r_conns r !! ref.
Definition pendOf (r : Router) (id : Bytes) : option pendingSession := ref ← r_pending r !! id; r_pends r !! ref.

(** ** Reservations *)

(** A new pending session is a fresh object. *)
Definition addPending (id : Bytes) (p : pendingSession) (r : Router) : Router :=
  let ref := fresh (dom (r_pends r)) in
  setAdmissions (r_pendingAdmissions r + 1) (setPendingMap (<[id := ref]> (r_pending r)) (setPends (<[ref := p]> (r_pends r)) r)).

Definition updatePending (id : Bytes) (f : pendingSession -> pendingSession) (r : Router) : Router :=
  match r_pending r !! id with
  | Some ref => setPends (alter f ref (r_pends r)) r
  | None => r
  end.

Definition reservePendingLocked (declaration : SessionDeclaration) (initiated : bool) : ST Router routerError unit := fun r =>
  let id := sd_SessionID declaration in
  if r_closed r then (r, Fail RConnClosed)
  else if Session_IsZero id || Key_IsZero (sd_ClientPublicKey declaration) then (r, Fail RInvalidFrame)
  else if bool_decide (id ∈ r_retired r) then (r, Fail RSessionExists)
  else if bool_decide (is_Some (r_sessions r !! id)) then (r, Fail RSessionExists)
  else
    match pendOf r id with
    | Some pending =>
        if Key_IsZero (sd_ClientPublicKey (ps_declaration pending)) && negb (Key_IsZero (sd_ClientPublicKey declaration)) then
          (updatePending id (fun p => MkPending declaration (ps_control p) (ps_packet p) (ps_controlLease p) (ps_packetLease p) initiated (ps_active p)) r, Ret tt)
        else if negb (bool_decide (ps_declaration pending = declaration)) || negb (Bool.eqb (ps_initiated pending) initiated) then (r, Fail RSessionExists)
        else (r, Ret tt)
    | None =>
        if cfg_MaxPendingSessions (r_cfg r) <=? r_pendingAdmissions r then (r, Fail RBufferLimit)
        else (addPending id (MkPending declaration None None None None initiated 0) r, Ret tt)
    end.

(** [incrementActiveChannels] of the connection or the count of the pending session. *)
Definition addActive (id : Bytes) (n : Z) (r : Router) : Router :=
  match r_sessions r !! id with
  | Some ref => setConns (alter (fun c => setCnActive (cn_active c + n) c) ref (r_conns r)) r
  | None => updatePending id (fun p => setPsActive (ps_active p + n) p) r
  end.

(** The lease is a fresh object. *)
Definition reserveChannelLocked (session : Bytes) : ST Router routerError nat := fun r =>
  if r_closed r then (r, Fail RBufferLimit)
  else
    let conn := connOf r session in
    if cfg_MaxChannels (r_cfg r) <=? r_activeChannels r then
      (r, Fail (match conn with Some _ => RCapacity "association" (r_activeChannels r) (cfg_MaxChannels (r_cfg r)) | None => RBufferLimit end))
    else
      match (match conn with Some c => Some (cn_active c) | None => ps_active <$> pendOf r session end) with
      | None => (r, Fail RSessionNotFound)
      | Some active =>
          if cfg_MaxChannelsPerSession (r_cfg r) <=? active then
            (r, Fail (match conn with Some _ => RCapacity "session" active (cfg_MaxChannelsPerSession (r_cfg r)) | None => RBufferLimit end))
          else
            let lease := fresh (dom (r_leases r)) in
            (setLeases (<[lease := session]> (r_leases r)) (addActive session 1 (setActive (r_activeChannels r + 1) r)), Ret lease)
      end.

(** [releaseChannel], run by a lease at most once. *)
Definition releaseChannel (session : Bytes) (r : Router) : Router :=
  let r := if 0 <? r_activeChannels r then setActive (r_activeChannels r - 1) r else r in
  let r :=
    match r_sessions r !! session with
    | Some _ => addActive session (-1) r
    | None => match pendOf r session with
              | Some p => if 0 <? ps_active p then addActive session (-1) r else r
              | None => r
              end
    end in
  wakeWaiters r.

Definition releaseLease (lease : nat) (r : Router) : Router :=
  match r_leases r !! lease with
  | Some session => releaseChannel session (setLeases (delete lease (r_leases r)) r)
  | None => r
  end.

(** ** Dialing *)

(** [pending.controlLease, err = ...]: an error leaves nil in the field. *)
Definition leaseOf {E} (x : Go E nat) : option nat := match x with Ret l => Some l | _ => None end.
Definition setControlLease (l : option nat) (p : pendingSession) : pendingSession :=
  MkPending (ps_declaration p) (ps_control p) (ps_packet p) l (ps_packetLease p) (ps_initiated p) (ps_active p).
Definition setPacketLease (l : option nat) (p : pendingSession) : pendingSession :=
  MkPending (ps_declaration p) (ps_control p) (ps_packet p) (ps_controlLease p) l (ps_initiated p) (ps_active p).

(** The first section of [Dial]. *)
Definition dialReserve (declaration : SessionDeclaration) : ST Router routerError unit := fun r =>
  let id := sd_SessionID declaration in
  match reservePendingLocked declaration true r with
  | (r, Ret _) =>
      let '(r, control) := reserveChannelLocked id r in
      let r := updatePending id (setControlLease (leaseOf control)) r in
      match control with
      | Ret _ =>
          let '(r, packet) := reserveChannelLocked id r in
          let r := updatePending id (setPacketLease (leaseOf packet)) r in
          match packet with Ret _ => (r, Ret tt) | Fail e => (r, Fail e) | Panic => (r, Panic) end
      | Fail e => (r, Fail e)
      | Panic => (r, Panic)
      end
  | (r, Fail e) => (r, Fail e)
  | (r, Panic) => (r, Panic)
  end.

(** The sections after the control and the packet channel were opened, for the pending
    object [ref]. *)
Definition dialOpened (isControl : bool) (id : Bytes) (ref : nat) : ST Router routerError unit := fun r =>
  if bool_decide (r_pending r !! id = Some ref) then
    (setPends (alter (fun p => if isControl then MkPending (ps_declaration p) (ps_controlLease p) (ps_packet p) (ps_controlLease p) (ps_packetLease p) (ps_initiated p) (ps_active p)
                               else MkPending (ps_declaration p) (ps_control p) (ps_packetLease p) (ps_controlLease p) (ps_packetLease p) (ps_initiated p) (ps_active p)) ref (r_pends r)) r, Ret tt)
  else (r, Fail RConnClosed).

(** [newConn]: a fresh object. *)
Definition newConn (declaration : SessionDeclaration) (p : pendingSession) (initiator slot : bool) : Conn :=
  MkConn declaration (ps_control p) (ps_packet p) initiator (ps_active p) (if initiator then admissionAccepted else admissionPending) slot.

Definition addSession (id : Bytes) (c : Conn) (r : Router) : Router :=
  let ref := fresh (dom (r_conns r)) in
  setSessions (<[id := ref]> (r_sessions r)) (setConns (<[ref := c]> (r_conns r)) r).

(** The last section of [Dial]. *)
Definition dialCommit (declaration : SessionDeclaration) (ref : nat) : ST Router routerError unit := fun r =>
  let id := sd_SessionID declaration in
  match r_pending r !! id, r_pends r !! ref with
  | Some ref', Some p =>
      if r_closed r || negb (bool_decide (ref' = ref)) then (r, Fail RConnClosed)
      else (addSession id (newConn declaration p true false) (setAdmissions (r_pendingAdmissions r - 1) (setPendingMap (delete id (r_pending r)) r)), Ret tt)
  | _, _ => (r, Fail RConnClosed)
  end.

(** ** Channels opened by the other side *)

(** The end of both handlers: the lease of the new channel goes into the pending object;
    [true] when the session has both channels. *)
Definition setControl (l : nat) (p : pendingSession) : pendingSession :=
  MkPending (ps_declaration p) (Some l) (ps_packet p) (Some l) (ps_packetLease p) (ps_initiated p) (ps_active p).
Definition setPacket (l : nat) (p : pendingSession) : pendingSession :=
  MkPending (ps_declaration p) (ps_control p) (Some l) (ps_controlLease p) (Some l) (ps_initiated p) (ps_active p).

Definition attach (id : Bytes) (f : nat -> pendingSession -> pendingSession) (other : option nat) (r : Router) : Router * Go routerError bool :=
  match reserveChannelLocked id r with
  | (r, Ret lease) => (updatePending id (f lease) r, Ret (bool_decide (is_Some other)))
  | (r, Fail e) => (r, Fail e)
  | (r, Panic) => (r, Panic)
  end.

(** The section of [handleControlChannel]. *)
Definition handleControl (label : parsedLabel) : ST Router routerError bool := fun r =>
  let id := pl_session label in
  if negb (cfg_AcceptSessions (r_cfg r)) then (r, Fail (RConfig "remote session creation is disabled"))
  else
    match reservePendingLocked (MkDeclaration id (pl_client label) (pl_remote label)) false r with
    | (r, Ret _) =>
        match pendOf r id with
        | Some pending =>
            match ps_control pending with
            | Some _ => (r, Fail (RConfig "duplicate control channel"))
            | None => attach id setControl (ps_packet pending) r
            end
        | None => (r, Panic)
        end
    | (r, Fail e) => (r, Fail e)
    | (r, Panic) => (r, Panic)
    end.

(** The section of [handlePacketChannel]. *)
Definition handlePacket (label : parsedLabel) : ST Router routerError bool := fun r =>
  let id := pl_session label in
  if negb (cfg_AcceptSessions (r_cfg r)) then (r, Fail RConnClosed)
  else
    let ready r :=
      match pendOf r id with
      | Some pending =>
          match ps_packet pending with
          | Some _ => (r, Fail RConnClosed)
          | None => attach id setPacket (ps_control pending) r
          end
      | None => (r, Panic)
      end in
    match pendOf r id with
    | Some _ => ready r
    | None =>
        if bool_decide (is_Some (r_sessions r !! id)) then (r, Fail RConnClosed)
        else if bool_decide (id ∈ r_retired r) || (cfg_MaxPendingSessions (r_cfg r) <=? r_pendingAdmissions r) || r_closed r then (r, Fail RConnClosed)
        else ready (addPending id (MkPending (MkDeclaration id zeroKey EmptyString) None None None None false 0) r)
    end.

(** The section of [handleServiceChannel]. *)
Definition handleService (label : parsedLabel) : ST Router routerError nat := fun r =>
  match connOf r (pl_session label) with
  | Some c => if r_closed r || negb (bool_decide (cn_admission c = admissionAccepted)) then (r, Fail RConnClosed) else reserveChannelLocked (pl_session label) r
  | None => (r, Fail RConnClosed)
  end.

(** A section of [reserveChannelContext], and the channel it waits on. *)
Definition reserveService (session : Bytes) : ST Router routerError (nat * nat) := fun r =>
  if r_closed r then (r, Fail RConnClosed)
  else match reserveChannelLocked session r with
       | (r', Ret lease) => (r', Ret (lease, r_channelAvailable r))
       | (r', Fail e) => (r', Fail e)
       | (r', Panic) => (r', Panic)
       end.

(** ** Admission *)

(** The section of [acceptPending] for the object [ref]. *)
Definition acceptPending (id : Bytes) (ref : nat) : Router -> Router := fun r =>
  match r_pends r !! ref with
  | Some p =>
      if r_closed r || negb (bool_decide (r_pending r !! id = Some ref)) || bool_decide (ps_control p = None) || bool_decide (ps_packet p = None) ||
         Key_IsZero (sd_ClientPublicKey (ps_declaration p)) then r
      else addSession id (newConn (ps_declaration p) p false true) (setPendingMap (delete id (r_pending r)) r)
  | None => r
  end.

Definition setAdmission (s : admissionState) (c : Conn) : Conn :=
  MkConn (cn_declaration c) (cn_control c) (cn_packet c) (cn_initiator c) (cn_active c) s (cn_admissionSlot c).
Definition dropSlot (c : Conn) : Conn :=
  MkConn (cn_declaration c) (cn_control c) (cn_packet c) (cn_initiator c) (cn_active c) (cn_admission c) false.

(** The section of [acceptApplication], for the connection [ref]. *)
Definition acceptApplication (ref : nat) : ST Router routerError bool := fun r =>
  match r_conns r !! ref with
  | None => (r, Ret false)
  | Some c =>
      if r_closed r || negb (bool_decide (r_sessions r !! sd_SessionID (cn_declaration c) = Some ref)) then (r, Ret false)
      else match cn_admission c with
           | admissionPending => (setConns (<[ref := setAdmission admissionAccepted c]> (r_conns r)) r, Ret true)
           | s => (r, Ret (bool_decide (s = admissionAccepted)))
           end
  end.

(** [admission.CompareAndSwap(admissionPending, admissionExpired)], when the timer fires or
    the connection closes. *)
Definition expireAdmission (ref : nat) (r : Router) : Router :=
  match r_conns r !! ref with
  | Some c => if bool_decide (cn_admission c = admissionPending) then setConns (<[ref := setAdmission admissionExpired c]> (r_conns r)) r else r
  | None => r
  end.

(** [releaseAdmissionSlot]: the compare-and-swap, and the decrement. *)
Definition takeSlot (ref : nat) (r : Router) : Router :=
  match r_conns r !! ref with
  | Some c => if cn_admissionSlot c then setSlotReleases (S (r_slotReleases r)) (setConns (<[ref := dropSlot c]> (r_conns r)) r) else r
  | None => r
  end.
Definition giveSlot (r : Router) : Router :=
  match r_slotReleases r with
  | S n => setSlotReleases n (setAdmissions (r_pendingAdmissions r - 1) r)
  | O => r
  end.

(** ** Removal *)
Definition retireSessionLocked (id : Bytes) (r : Router) : Router :=
  if r_closed r then r else setRetired ({[id]} ∪ r_retired r) r.

(** The section of [dropPending]; [expected] is the pending object, or nil. *)
Definition dropPending (id : Bytes) (expected : option nat) (r : Router) : Router :=
  match r_pending r !! id with
  | None => r
  | Some ref =>
      match expected with
      | Some e => if bool_decide (ref = e) then retireSessionLocked id (setAdmissions (r_pendingAdmissions r - 1) (setPendingMap (delete id (r_pending r)) r)) else r
      | None => retireSessionLocked id (setAdmissions (r_pendingAdmissions r - 1) (setPendingMap (delete id (r_pending r)) r))
      end
  end.

(** The leases that [dropPending] then releases: those of the channels, or of channels
    that were never opened. *)
Definition droppedLeases (p : pendingSession) : list nat :=
  option_list (match ps_control p with Some l => Some l | None => ps_controlLease p end) ++ option_list (match ps_packet p with Some l => Some l | None => ps_packetLease p end).

Definition removeSession (id : Bytes) (ref : nat) (r : Router) : Router :=
  if bool_decide (r_sessions r !! id = Some ref) then retireSessionLocked id (setSessions (delete id (r_sessions r)) r) else r.

(** The timer of a retired session. *)
Definition expireRetired (id : Bytes) (r : Router) : Router := setRetired (r_retired r ∖ {[id]}) r.

(** The section of [Close]. *)
Definition closeRouter (r : Router) : Router := setClosed (setRetired ∅ r).

(** ** Executions

    [timely r id]: when the timer of a retired session may fire. *)
Inductive routerStep (timely : Router -> Bytes -> Prop) : Router -> Router -> Prop :=
  | step_dialReserve d r : routerStep timely r (dialReserve d r).1
  | step_dialOpened b id ref r : routerStep timely r (dialOpened b id ref r).1
  | step_dialCommit d ref r : routerStep timely r (dialCommit d ref r).1
  | step_control l r : routerStep timely r (handleControl l r).1
  | step_packet l r : routerStep timely r (handlePacket l r).1
  | step_service l r : routerStep timely r (handleService l r).1
  | step_reserve id r : routerStep timely r (reserveService id r).1
  | step_releaseLease l r : routerStep timely r (releaseLease l r)
  | step_acceptPending id ref r : routerStep timely r (acceptPending id ref r)
  | step_acceptApplication ref r : routerStep timely r (acceptApplication ref r).1
  | step_expireAdmission ref r : routerStep timely r (expireAdmission ref r)
  | step_takeSlot ref r : routerStep timely r (takeSlot ref r)
  | step_giveSlot r : routerStep timely r (giveSlot r)
  | step_dropPending id e r : routerStep timely r (dropPending id e r)
  | step_removeSession id ref r : routerStep timely r (removeSession id ref r)
  | step_expireRetired id r : timely r id -> routerStep timely r (expireRetired id r)
  | step_close r : routerStep timely r (closeRouter r).

Definition routerReachable (timely : Router -> Bytes -> Prop) (cfg : RouterConfig) : Router -> Prop := rtc (routerStep timely) (emptyRouter cfg).
