(* ===== verification/TunnelRouterProps.v ===== *)
(** * giztunnel: the router's accounts

    In every execution of the router's critical sections, whatever their order: the
    channel count is the number of leases not yet released and stays within the limit,
    the admission count is the number of sessions that await admission and stays within
    its limit, and a session identifier belongs to at most one session.  The count per
    session is exact as long as a retired identifier is not reused while one of its old
    channels is still open. *)

From stdpp Require Import gmap list strings.
From S2P Require Import Prelude MapCount GoBytes GizKeys Tunnel TunnelRouter.

Open Scope Z_scope.

(** ** The invariant *)
Definition leasesOf (id : Bytes) (m : gmap nat Bytes) : nat := cnt (fun s => bool_decide (s = id)) m.

(** Who owns an identifier. *)
Definition inUse (r : Router) (id : Bytes) : Prop := is_Some (r_sessions r !! id) \/ is_Some (r_pending r !! id).

Record routerInv (r : Router) : Prop := {
  inv_active : r_activeChannels r = Z.of_nat (size (r_leases r));
  inv_active_max : r_activeChannels r <= Z.max 0 (cfg_MaxChannels (r_cfg r));
  inv_admissions : r_pendingAdmissions r = Z.of_nat (size (r_pending r) + cnt cn_admissionSlot (r_conns r) + r_slotReleases r);
  inv_admissions_max : r_pendingAdmissions r <= Z.max 0 (cfg_MaxPendingSessions (r_cfg r));
  inv_disjoint : forall id, is_Some (r_sessions r !! id) -> r_pending r !! id = None;
  inv_retired : forall id, id ∈ r_retired r -> ~ inUse r id;
  inv_sessions : forall id ref, r_sessions r !! id = Some ref -> exists c, r_conns r !! ref = Some c /\ sd_SessionID (cn_declaration c) = id;
  inv_pending : forall id ref, r_pending r !! id = Some ref -> exists p, r_pends r !! ref = Some p /\ sd_SessionID (ps_declaration p) = id
}.

Lemma inv_empty cfg : routerInv (emptyRouter cfg).
Proof.
  constructor; cbn; try done; try lia; try (intros id ref E; by rewrite lookup_empty in E); try (by intros id [ref E]; rewrite lookup_empty in E).
Qed.

(** An object is referred to under one identifier only. *)
Lemma session_ref_inj r id id' ref : routerInv r -> r_sessions r !! id = Some ref -> r_sessions r !! id' = Some ref -> id = id'.
Proof. intros HI H1 H2. destruct (inv_sessions r HI _ _ H1) as (c & Hc & <-), (inv_sessions r HI _ _ H2) as (c' & Hc' & <-). congruence. Qed.

Lemma pending_ref_inj r id id' ref : routerInv r -> r_pending r !! id = Some ref -> r_pending r !! id' = Some ref -> id = id'.
Proof. intros HI H1 H2. destruct (inv_pending r HI _ _ H1) as (p & Hp & <-), (inv_pending r HI _ _ H2) as (p' & Hp' & <-). congruence. Qed.

(** *** Objects change in place *)
Lemma alter_pends_inv r ref f : routerInv r ->
  (forall p id, r_pends r !! ref = Some p -> r_pending r !! id = Some ref -> sd_SessionID (ps_declaration (f p)) = sd_SessionID (ps_declaration p)) ->
  routerInv (setPends (alter f ref (r_pends r)) r).
Proof.
  intros HI Hf. destruct HI as [H1 H2 H3 H4 H5 H6 H7 H8]. constructor; try done. intros id ref' E. destruct (H8 id ref' E) as (p & Hp & Hid). cbn.
  destruct (decide (ref' = ref)) as [->|Hne]; [|exists p; by rewrite lookup_alter_ne]. exists (f p). rewrite lookup_alter_eq, Hp. split; [done|]. cbn in Hf. by rewrite (Hf p id).
Qed.

Lemma updatePending_inv r id f : routerInv r ->
  (forall p, sd_SessionID (ps_declaration p) = id -> sd_SessionID (ps_declaration (f p)) = id) -> routerInv (updatePending id f r).
Proof.
  intros HI Hf. unfold updatePending. destruct (r_pending r !! id) as [ref|] eqn:E; [|done]. apply alter_pends_inv; [done|]. intros p id' Hp E'.
  destruct (inv_pending r HI _ _ E) as (p' & Hp' & Hid). assert (p' = p) as -> by congruence. by rewrite Hf.
Qed.

Lemma alter_conns_inv r ref f : routerInv r -> (forall c, cn_declaration (f c) = cn_declaration c /\ cn_admissionSlot (f c) = cn_admissionSlot c) ->
  routerInv (setConns (alter f ref (r_conns r)) r).
Proof.
  intros HI Hf. destruct HI as [H1 H2 H3 H4 H5 H6 H7 H8]. constructor; try done; cbn.
  - rewrite cnt_alter; [done|]. intros c. apply Hf.
  - intros id ref' E. destruct (H7 id ref' E) as (c & Hc & Hid). destruct (decide (ref' = ref)) as [->|Hne]; [|exists c; by rewrite lookup_alter_ne].
    exists (f c). rewrite lookup_alter_eq, Hc. split; [done|]. by rewrite (proj1 (Hf c)).
Qed.

Lemma addActive_inv r id n : routerInv r -> routerInv (addActive id n r).
Proof. intros HI. unfold addActive. case_match; [apply alter_conns_inv; [done|by intros c]|by apply updatePending_inv]. Qed.

(** *** Reservations *)
Lemma addPending_inv r id p : routerInv r -> sd_SessionID (ps_declaration p) = id -> ~ inUse r id -> id ∉ r_retired r ->
  r_pendingAdmissions r < cfg_MaxPendingSessions (r_cfg r) -> routerInv (addPending id p r).
Proof.
  intros HI Hid Huse Hret Hmax. destruct HI as [H1 H2 H3 H4 H5 H6 H7 H8]. assert (r_pending r !! id = None) as Hnone by (destruct (r_pending r !! id) eqn:E; [|done]; destruct Huse; right; by eexists).
  constructor; cbn; try done.
  - rewrite map_size_insert_None by done. lia.
  - lia.
  - intros id' Hs. rewrite lookup_insert_ne; [by apply H5|]. intros <-. destruct Huse. by left.
  - intros id' Hr [Hs|Hs]; cbn in Hs; [by apply (H6 id' Hr); left|]. destruct (decide (id' = id)) as [->|]; [done|]. rewrite lookup_insert_ne in Hs by done. apply (H6 id' Hr). by right.
  - intros id' ref. destruct (decide (id' = id)) as [->|Hne].
    + rewrite lookup_insert_eq. intros [= <-]. exists p. by rewrite lookup_insert_eq.
    + rewrite lookup_insert_ne by done. intros E. destruct (H8 id' ref E) as (q & Hq & Hid'). exists q. rewrite lookup_insert_ne; [done|]. intros <-.
      assert (r_pends r !! fresh (dom (r_pends r)) = None) by (apply not_elem_of_dom_1, is_fresh). congruence.
Qed.

Lemma pendOf_Some r id p : pendOf r id = Some p <-> exists ref, r_pending r !! id = Some ref /\ r_pends r !! ref = Some p.
Proof. unfold pendOf. destruct (r_pending r !! id); cbn; naive_solver. Qed.

Lemma pendOf_None r id : routerInv r -> pendOf r id = None -> r_pending r !! id = None.
Proof. intros HI. unfold pendOf. destruct (r_pending r !! id) as [ref|] eqn:E; [|done]. cbn. destruct (inv_pending r HI id ref E) as (p & -> & _). done. Qed.

Lemma reservePending_inv r d b : routerInv r -> routerInv (reservePendingLocked d b r).1.
Proof.
  intros HI. unfold reservePendingLocked. destruct (r_closed r); [done|]. destruct (_ || _); [done|]. case_bool_decide as Hr; [done|]. case_bool_decide as Hs; [done|].
  destruct (pendOf r (sd_SessionID d)) as [p|] eqn:Hp.
  - destruct (_ && _); [by apply updatePending_inv|]. by destruct (_ || _).
  - destruct (Z.leb_spec (cfg_MaxPendingSessions (r_cfg r)) (r_pendingAdmissions r)); [done|]. apply addPending_inv; try done. apply pendOf_None in Hp; [|done].
    intros [?|[ref E]]; [done|congruence].
Qed.

Lemma reserveChannel_inv r id : routerInv r -> routerInv (reserveChannelLocked id r).1.
Proof.
  intros HI. unfold reserveChannelLocked. destruct (r_closed r); [done|]. destruct (Z.leb_spec (cfg_MaxChannels (r_cfg r)) (r_activeChannels r)); [done|].
  destruct (match connOf r id with Some c => Some (cn_active c) | None => ps_active <$> pendOf r id end); [|done]. destruct (_ <=? _); [done|]. cbn [fst].
  set (l := fresh (dom (r_leases r))). assert (r_leases r !! l = None) as Hl by (apply not_elem_of_dom_1, is_fresh).
  assert (routerInv (setLeases (<[l := id]> (r_leases r)) (setActive (r_activeChannels r + 1) r))) as HI'.
  { destruct HI as [H1 H2 H3 H4 H5 H6 H7 H8]. constructor; cbn; try done; [rewrite map_size_insert_None by done; lia|lia]. }
  apply (addActive_inv _ id 1) in HI'. revert HI'. unfold addActive, updatePending. cbn. by destruct (r_sessions r !! id), (r_pending r !! id).
Qed.

Lemma attach_inv r id f o : routerInv r -> (forall l p, sd_SessionID (ps_declaration (f l p)) = sd_SessionID (ps_declaration p)) -> routerInv (attach id f o r).1.
Proof.
  intros HI Hf. unfold attach. pose proof (reserveChannel_inv r id HI) as HR. destruct (reserveChannelLocked id r) as [r' [l|e|]]; [|done..]. cbn. apply updatePending_inv; [done|]. intros p <-. apply Hf.
Qed.

Lemma releaseLease_inv r l : routerInv r -> routerInv (releaseLease l r).
Proof.
  intros HI. unfold releaseLease. destruct (r_leases r !! l) as [id|] eqn:Hl; [|done]. unfold releaseChannel. pose proof (size_delete_pos _ _ _ Hl) as Hsz.
  assert (0 < r_activeChannels r) as Hpos by (rewrite (inv_active r HI); lia). cbn [r_activeChannels setLeases]. rewrite (proj2 (Z.ltb_lt _ _)) by done.
  set (r1 := setActive (r_activeChannels r - 1) (setLeases (delete l (r_leases r)) r)). assert (routerInv r1) as HI1.
  { destruct HI as [H1 H2 H3 H4 H5 H6 H7 H8]. constructor; cbn; try done; lia. }
  assert (forall r', routerInv r' -> routerInv (wakeWaiters r')) as Hw by (intros r' [H1 H2 H3 H4 H5 H6 H7 H8]; by constructor). apply Hw.
  change (setActive (r_activeChannels r - 1) (setLeases (delete l (r_leases r)) r)) with r1. destruct (r_sessions r1 !! id); [by apply addActive_inv|].
  destruct (pendOf r1 id) as [p|]; [|done]. destruct (0 <? ps_active p); [by apply addActive_inv|done].
Qed.

(** *** Sessions come and go *)
Lemma deletePending_inv r id ref : routerInv r -> r_pending r !! id = Some ref ->
  routerInv (setAdmissions (r_pendingAdmissions r - 1) (setPendingMap (delete id (r_pending r)) r)).
Proof.
  intros HI E. pose proof (size_delete_pos _ _ _ E). destruct HI as [H1 H2 H3 H4 H5 H6 H7 H8]. constructor; cbn; try done; try lia.
  - intros id' Hs. destruct (decide (id' = id)) as [->|]; [by rewrite lookup_delete_eq|]. rewrite lookup_delete_ne by done. by apply H5.
  - intros id' Hr [Hs|[ref' Hs]]; cbn in Hs; [by apply (H6 id' Hr); left|]. apply lookup_delete_Some in Hs as [_ Hs]. apply (H6 id' Hr). right. by eexists.
  - intros id' ref' [_ E']%lookup_delete_Some. by apply H8.
Qed.

Lemma addSession_inv r id c : routerInv r -> sd_SessionID (cn_declaration c) = id -> r_pending r !! id = None -> id ∉ r_retired r ->
  cn_admissionSlot c = false \/ r_pendingAdmissions r < Z.max 0 (cfg_MaxPendingSessions (r_cfg r)) ->
  routerInv (setAdmissions (r_pendingAdmissions r + if cn_admissionSlot c then 1 else 0) (addSession id c r)).
Proof.
  intros HI Hid Hp Hr Hor. destruct HI as [H1 H2 H3 H4 H5 H6 H7 H8]. set (ref := fresh (dom (r_conns r))). assert (r_conns r !! ref = None) as Hfresh by (apply not_elem_of_dom_1, is_fresh).
  constructor; cbn; fold ref; try done.
  - rewrite cnt_insert_new by done. destruct (cn_admissionSlot c); lia.
  - destruct (cn_admissionSlot c); [destruct Hor; [done|lia]|lia].
  - intros id' Hs. destruct (decide (id' = id)) as [->|]; [done|]. rewrite lookup_insert_ne in Hs by done. by apply H5.
  - intros id' Hr' [Hs|Hs]; cbn in Hs; [|by apply (H6 id' Hr'); right]. destruct (decide (id' = id)) as [->|]; [done|]. rewrite lookup_insert_ne in Hs by done. apply (H6 id' Hr'). by left.
  - intros id' ref'. destruct (decide (id' = id)) as [->|Hne].
    + rewrite lookup_insert_eq. intros [= <-]. exists c. by rewrite lookup_insert_eq.
    + rewrite lookup_insert_ne by done. intros E. destruct (H7 id' ref' E) as (c' & Hc' & Hid'). exists c'. rewrite lookup_insert_ne; [done|]. intros <-. congruence.
Qed.

(** The pending session [id] becomes a session. *)
Lemma promote_inv r id ref c : routerInv r -> r_pending r !! id = Some ref -> sd_SessionID (cn_declaration c) = id ->
  routerInv (setAdmissions (r_pendingAdmissions r - 1 + if cn_admissionSlot c then 1 else 0) (addSession id c (setPendingMap (delete id (r_pending r)) r))).
Proof.
  intros HI E Hid. apply (addSession_inv (setAdmissions (r_pendingAdmissions r - 1) (setPendingMap (delete id (r_pending r)) r)) id c); cbn; [by eapply deletePending_inv|done|by apply lookup_delete_eq| |].
  - intros Hr. apply (inv_retired r HI id Hr). right. by eexists.
  - right. pose proof (inv_admissions_max r HI). lia.
Qed.

Lemma dialCommit_inv r d ref : routerInv r -> routerInv (dialCommit d ref r).1.
Proof.
  intros HI. unfold dialCommit. destruct (r_pending r !! sd_SessionID d) as [ref'|] eqn:E; [|done]. destruct (r_pends r !! ref) as [p|] eqn:Hp; [|done]. destruct (_ || _); [done|].
  pose proof (promote_inv r (sd_SessionID d) ref' (newConn d p true false) HI E eq_refl) as HP. cbn [newConn cn_admissionSlot] in HP. rewrite Z.add_0_r in HP. exact HP.
Qed.

Lemma setAdmissions_id r : setAdmissions (r_pendingAdmissions r) r = r.
Proof. by destruct r. Qed.

Lemma acceptPending_inv r id ref : routerInv r -> routerInv (acceptPending id ref r).
Proof.
  intros HI. unfold acceptPending. destruct (r_pends r !! ref) as [p|] eqn:Hp; [|done]. destruct (_ || _) eqn:HC; [done|].
  apply orb_false_iff in HC as [[[[_ E%negb_false_iff%bool_decide_eq_true_1]%orb_false_iff _]%orb_false_iff _]%orb_false_iff _].
  destruct (inv_pending r HI _ _ E) as (p' & Hp' & Hid). assert (p' = p) as -> by congruence.
  pose proof (promote_inv r id ref (newConn (ps_declaration p) p false true) HI E Hid) as HP. cbn [newConn cn_admissionSlot] in HP. rewrite Z.sub_add in HP.
  by rewrite (setAdmissions_id (addSession id (newConn (ps_declaration p) p false true) (setPendingMap (delete id (r_pending r)) r)) : setAdmissions (r_pendingAdmissions r) _ = _) in HP.
Qed.

Lemma retire_inv r id : routerInv r -> ~ inUse r id -> routerInv (retireSessionLocked id r).
Proof.
  intros HI Hu. unfold retireSessionLocked. destruct (r_closed r); [done|]. destruct HI as [H1 H2 H3 H4 H5 H6 H7 H8]. constructor; cbn; try done.
  intros id' [->%elem_of_singleton|Hr]%elem_of_union; [done|by apply H6].
Qed.

Lemma dropPending_inv r id e : routerInv r -> routerInv (dropPending id e r).
Proof.
  intros HI. unfold dropPending. destruct (r_pending r !! id) as [ref|] eqn:E; [|done].
  assert (routerInv (retireSessionLocked id (setAdmissions (r_pendingAdmissions r - 1) (setPendingMap (delete id (r_pending r)) r)))) as HD.
  { apply retire_inv; [by eapply deletePending_inv|]. intros [Hs|[? Hs]]; cbn in Hs; [|by rewrite lookup_delete_eq in Hs]. by rewrite (inv_disjoint r HI id Hs) in E. }
  destruct e as [e|]; [by case_bool_decide|done].
Qed.

Lemma removeSession_inv r id ref : routerInv r -> routerInv (removeSession id ref r).
Proof.
  intros HI. unfold removeSession. case_bool_decide as E; [|done]. apply retire_inv.
  - destruct HI as [H1 H2 H3 H4 H5 H6 H7 H8]. constructor; cbn; try done.
    + intros id' [? [_ Hs]%lookup_delete_Some]. apply H5. by eexists.
    + intros id' Hr [[x Hs]|Hs]; cbn in Hs; apply (H6 id' Hr); [|by right]. apply lookup_delete_Some in Hs as [_ Hs]. left. by eexists.
    + intros id' ref' [_ Hs]%lookup_delete_Some. by apply H7.
  - intros [[? Hs]|Hs]; cbn in Hs; [by rewrite lookup_delete_eq in Hs|]. rewrite (inv_disjoint r HI id) in Hs; [by destruct Hs|by eexists].
Qed.

(** *** Admission *)
Lemma insert_conn_inv r ref c c' : routerInv r -> r_conns r !! ref = Some c -> cn_declaration c' = cn_declaration c -> cn_admissionSlot c' = cn_admissionSlot c -> routerInv (setConns (<[ref := c']> (r_conns r)) r).
Proof.
  intros HI Hc Hd Hs. destruct HI as [H1 H2 H3 H4 H5 H6 H7 H8]. constructor; cbn; try done; [by rewrite (cnt_update _ _ _ c c')|].
  intros id ref' E. destruct (H7 id ref' E) as (c0 & Hc0 & Hid). destruct (decide (ref' = ref)) as [->|]; [|exists c0; by rewrite lookup_insert_ne]. exists c'. rewrite lookup_insert_eq. split; [done|]. congruence.
Qed.

Lemma takeSlot_inv r ref : routerInv r -> routerInv (takeSlot ref r).
Proof.
  intros HI. unfold takeSlot. destruct (r_conns r !! ref) as [c|] eqn:Hc; [|done]. destruct (cn_admissionSlot c) eqn:Hs; [|done]. destruct HI as [H1 H2 H3 H4 H5 H6 H7 H8]. constructor; cbn; try done.
  - rewrite <-insert_delete_eq, cnt_insert_new by apply lookup_delete_eq. rewrite (cnt_delete _ _ _ c Hc), Hs in H3. cbn. lia.
  - intros id ref' E. destruct (H7 id ref' E) as (c0 & Hc0 & Hid). destruct (decide (ref' = ref)) as [->|]; [|exists c0; by rewrite lookup_insert_ne]. exists (dropSlot c). rewrite lookup_insert_eq. split; [done|]. cbn. congruence.
Qed.

Lemma giveSlot_inv r : routerInv r -> routerInv (giveSlot r).
Proof. intros HI. unfold giveSlot. destruct (r_slotReleases r) as [|n] eqn:En; [done|]. destruct HI as [H1 H2 H3 H4 H5 H6 H7 H8]. constructor; cbn; try done; lia. Qed.

(** *** The sections composed *)
Lemma dialReserve_inv r d : routerInv r -> routerInv (dialReserve d r).1.
Proof.
  intros HI. unfold dialReserve. pose proof (reservePending_inv r d true HI) as H1. destruct (reservePendingLocked d true r) as [r1 [[]|e|]]; cbn [fst] in H1; [|done..].
  pose proof (reserveChannel_inv r1 (sd_SessionID d) H1) as H2. destruct (reserveChannelLocked (sd_SessionID d) r1) as [r2 control]. cbn [fst] in H2.
  assert (routerInv (updatePending (sd_SessionID d) (setControlLease (leaseOf control)) r2)) as H3 by (by apply updatePending_inv). destruct control as [l|e|]; [|done..].
  pose proof (reserveChannel_inv _ (sd_SessionID d) H3) as H4. destruct (reserveChannelLocked (sd_SessionID d) _) as [r3 packet]. cbn [fst] in H4.
  assert (routerInv (updatePending (sd_SessionID d) (setPacketLease (leaseOf packet)) r3)) as H5 by (by apply updatePending_inv). by destruct packet.
Qed.

Lemma handleControl_inv r l : routerInv r -> routerInv (handleControl l r).1.
Proof.
  intros HI. unfold handleControl. destruct (negb _); [done|]. pose proof (reservePending_inv r (MkDeclaration (pl_session l) (pl_client l) (pl_remote l)) false HI) as H1.
  destruct (reservePendingLocked _ false r) as [r1 [[]|e|]]; cbn [fst] in H1; [|done..]. destruct (pendOf r1 (pl_session l)) as [p|]; [|done]. destruct (ps_control p); [done|]. by apply attach_inv.
Qed.

Lemma handlePacket_inv r l : routerInv r -> routerInv (handlePacket l r).1.
Proof.
  intros HI. unfold handlePacket. destruct (negb _); [done|]. cbv zeta.
  assert (forall r', routerInv r' -> routerInv (match pendOf r' (pl_session l) with
    | Some pending => match ps_packet pending with Some _ => (r', Fail RConnClosed) | None => attach (pl_session l) setPacket (ps_control pending) r' end | None => (r', Panic) end).1) as Hready.
  { intros r' HI'. destruct (pendOf r' (pl_session l)) as [p|]; [|done]. destruct (ps_packet p); [done|]. by apply attach_inv. }
  destruct (pendOf r (pl_session l)) as [p|] eqn:Hp; [by pose proof (Hready r HI) as HR; rewrite Hp in HR|]. case_bool_decide as Hs; [done|]. destruct (_ || _) eqn:HC; [done|].
  apply orb_false_iff in HC as [[Hr%bool_decide_eq_false_1 Hm%Z.leb_gt]%orb_false_iff _]. apply Hready, addPending_inv; try done. apply pendOf_None in Hp; [|done]. intros [?|[ref E]]; [done|congruence].
Qed.

Lemma routerStep_inv timely r r' : routerStep timely r r' -> routerInv r -> routerInv r'.
Proof.
  intros HS HI. destruct HS.
  - by apply dialReserve_inv.
  - unfold dialOpened. case_bool_decide; [|done]. cbn. apply alter_pends_inv; [done|]. intros p id' _ _. by destruct b.
  - by apply dialCommit_inv.
  - by apply handleControl_inv.
  - by apply handlePacket_inv.
  - unfold handleService. destruct (connOf r (pl_session l)); [|done]. destruct (_ || _); [done|by apply reserveChannel_inv].
  - unfold reserveService. destruct (r_closed r); [done|]. pose proof (reserveChannel_inv r id HI) as HR. by destruct (reserveChannelLocked id r) as [r' [|e|]].
  - by apply releaseLease_inv.
  - by apply acceptPending_inv.
  - unfold acceptApplication. destruct (r_conns r !! ref) as [c|] eqn:Hc; [|done]. destruct (_ || _); [done|]. destruct (cn_admission c); [|done..]. cbn. by eapply insert_conn_inv.
  - unfold expireAdmission. destruct (r_conns r !! ref) as [c|] eqn:Hc; [|done]. case_bool_decide; [|done]. by eapply insert_conn_inv.
  - by apply takeSlot_inv.
  - by apply giveSlot_inv.
  - by apply dropPending_inv.
  - by apply removeSession_inv.
  - destruct HI as [H1 H2 H3 H4 H5 H6 H7 H8]. constructor; cbn; try done. intros id' [Hr _]%elem_of_difference. by apply H6.
  - destruct HI as [H1 H2 H3 H4 H5 H6 H7 H8]. constructor; cbn; done.
Qed.

Lemma reachable_inv timely cfg r : routerReachable timely cfg r -> routerInv r.
Proof.
  intros HR. pose proof (inv_empty cfg) as H0. induction HR as [|r1 r2 r3 HS _ IH]; [done|]. apply IH. by eapply routerStep_inv.
Qed.

(** The configuration never changes. *)
Lemma updatePending_cfg id f r : r_cfg (updatePending id f r) = r_cfg r.
Proof. unfold updatePending. by case_match. Qed.
Lemma addActive_cfg id n r : r_cfg (addActive id n r) = r_cfg r.
Proof. unfold addActive. case_match; [done|apply updatePending_cfg]. Qed.
Lemma reservePending_cfg d b r : r_cfg (reservePendingLocked d b r).1 = r_cfg r.
Proof. unfold reservePendingLocked. repeat case_match; cbn; rewrite ?updatePending_cfg; done. Qed.
Lemma reserveChannel_cfg id r : r_cfg (reserveChannelLocked id r).1 = r_cfg r.
Proof. unfold reserveChannelLocked. repeat case_match; cbn; rewrite ?addActive_cfg; done. Qed.
Lemma attach_cfg id f o r : r_cfg (attach id f o r).1 = r_cfg r.
Proof. unfold attach. pose proof (reserveChannel_cfg id r). repeat case_match; simplify_eq/=; by rewrite ?updatePending_cfg. Qed.
Lemma retire_cfg id r : r_cfg (retireSessionLocked id r) = r_cfg r.
Proof. unfold retireSessionLocked. by case_match. Qed.

Lemma step_cfg timely r r' : routerStep timely r r' -> r_cfg r' = r_cfg r.
Proof.
  intros [d r0|b id ref r0|d ref r0|l r0|l r0|l r0|id r0|l r0|id ref r0|ref r0|ref r0|ref r0|r0|id e r0|id ref r0|id r0 _|r0].
  - unfold dialReserve. pose proof (reservePending_cfg d true r0) as H1. destruct (reservePendingLocked d true r0) as [r1 [[]|e|]]; cbn [fst] in *; [|done..].
    pose proof (reserveChannel_cfg (sd_SessionID d) r1) as H2. destruct (reserveChannelLocked (sd_SessionID d) r1) as [r2 control]. cbn [fst] in *.
    destruct control as [x|e|]; cbn [fst]; rewrite ?updatePending_cfg; [|congruence..]. pose proof (reserveChannel_cfg (sd_SessionID d) (updatePending (sd_SessionID d) (setControlLease (leaseOf (E := routerError) (Ret x))) r2)) as H3.
    destruct (reserveChannelLocked (sd_SessionID d) _) as [r3 packet]. cbn [fst] in *. rewrite updatePending_cfg in H3. destruct packet; cbn [fst]; rewrite updatePending_cfg; congruence.
  - unfold dialOpened. by case_bool_decide.
  - unfold dialCommit. by repeat case_match.
  - unfold handleControl. destruct (negb _); [done|]. pose proof (reservePending_cfg (MkDeclaration (pl_session l) (pl_client l) (pl_remote l)) false r0) as H1.
    destruct (reservePendingLocked _ false r0) as [r1 [[]|e|]]; cbn [fst] in *; [|done..]. destruct (pendOf r1 (pl_session l)) as [p|]; [|done]. destruct (ps_control p); [done|]. by rewrite attach_cfg.
  - unfold handlePacket. destruct (negb _); [done|]. cbv zeta. destruct (pendOf r0 (pl_session l)) as [p|]; [destruct (ps_packet p); [done|apply attach_cfg]|]. case_bool_decide; [done|]. destruct (_ || _); [done|].
    destruct (pendOf (addPending _ _ _) _) as [p|]; [|done]. destruct (ps_packet p); [done|]. by rewrite attach_cfg.
  - unfold handleService. repeat case_match; [done|apply reserveChannel_cfg|done].
  - unfold reserveService. pose proof (reserveChannel_cfg id r0). by repeat case_match; simplify_eq/=.
  - unfold releaseLease, releaseChannel. repeat case_match; cbn; rewrite ?addActive_cfg; done.
  - unfold acceptPending. by repeat case_match.
  - unfold acceptApplication. by repeat case_match.
  - unfold expireAdmission. by repeat case_match.
  - unfold takeSlot. by repeat case_match.
  - unfold giveSlot. by repeat case_match.
  - unfold dropPending. repeat case_match; rewrite ?retire_cfg; done.
  - unfold removeSession. case_match; rewrite ?retire_cfg; done.
  - done.
  - done.
Qed.

Lemma reachable_cfg timely cfg r : routerReachable timely cfg r -> r_cfg r = cfg.
Proof.
  intros HR. assert (forall r1 r2, rtc (routerStep timely) r1 r2 -> r_cfg r2 = r_cfg r1) as H; [|by rewrite (H _ _ HR)].
  intros r1 r2. induction 1 as [|x y z HS _ IH]; [done|]. rewrite IH. by eapply step_cfg.
Qed.

Lemma NewRouter_cfg handled cfg r : NewRouter true handled cfg = Ret r -> exists c, r = emptyRouter c /\ 3 <= cfg_MaxChannels c <= 8192 /\ 0 < cfg_MaxPendingSessions c <= 2048 /\ 3 <= cfg_MaxChannelsPerSession c <= 32.
Proof.
  unfold NewRouter, Config_validate, defaultMaxChannels, defaultMaxPendingSessions, defaultMaxChannelsPerSession. cbn [negb check mbind Go_bind]. set (c := withDefaults cfg). intros ([] & HV & HR)%bind_Ret.
  apply bind_Ret in HV as ([] & V1%check_Ret & HV). apply bind_Ret in HV as ([] & V2%check_Ret & HV). apply bind_Ret in HV as ([] & V3%check_Ret & _).
  apply bind_Ret in HR as ([] & _ & [= <-]). exists c. split; [done|]. lia.
Qed.

(** C27: The router's accounts are exact and bounded in every execution.  Starting from
    [NewRouter], in whatever order the critical sections run - dials, channels of the
    other side, admissions, time-outs, releases, closing - the count of active channels
    is the number of leases not yet released and at most [MaxChannels] (at most 8192);
    the admission count is the number of pending sessions and held admission slots and
    at most [MaxPendingSessions] (at most 2048); and a session identifier is pending,
    established or retired, never two of them. *)
Theorem Router_accounts timely handled cfg r0 r :
  NewRouter true handled cfg = Ret r0 -> rtc (routerStep timely) r0 r ->
  r_activeChannels r = Z.of_nat (size (r_leases r)) /\
  r_activeChannels r <= cfg_MaxChannels (r_cfg r) <= 8192 /\
  r_pendingAdmissions r = Z.of_nat (size (r_pending r) + cnt cn_admissionSlot (r_conns r) + r_slotReleases r) /\
  r_pendingAdmissions r <= cfg_MaxPendingSessions (r_cfg r) <= 2048 /\
  forall id, ~ (is_Some (r_sessions r !! id) /\ is_Some (r_pending r !! id)) /\ (id ∈ r_retired r -> r_sessions r !! id = None /\ r_pending r !! id = None).
Proof.
  intros (c & -> & H1 & H2 & _)%NewRouter_cfg HR. pose proof (reachable_inv timely c r HR) as HI. rewrite (reachable_cfg timely c r HR). pose proof (inv_active_max r HI) as HA. pose proof (inv_admissions_max r HI) as HP.
  rewrite (reachable_cfg timely c r HR) in HA, HP. split_and!; [apply HI|lia|lia|apply HI|lia|lia|]. intros id. split.
  - intros [Hs [ref Hp]]. by rewrite (inv_disjoint r HI id Hs) in Hp.
  - intros Hr. pose proof (inv_retired r HI id Hr) as Hu. unfold inUse in Hu. split; apply eq_None_not_Some; tauto.
Qed.

(** ** The count per session *)

(** The count of a session, established or pending. *)
Definition activeOf (r : Router) (id : Bytes) : option Z :=
  match connOf r id with Some c => Some (cn_active c) | None => ps_active <$> pendOf r id end.

(** The timer of a retired identifier fires after its channels have been released. *)
Definition drained (r : Router) (id : Bytes) : Prop := leasesOf id (r_leases r) = 0%nat.

Record exactInv (r : Router) : Prop := {
  ex_active : forall id n, activeOf r id = Some n -> n = Z.of_nat (leasesOf id (r_leases r)) /\ n <= Z.max 0 (cfg_MaxChannelsPerSession (r_cfg r));
  ex_rest : r_closed r = false -> forall id, activeOf r id = None -> id ∉ r_retired r -> leasesOf id (r_leases r) = 0%nat
}.

Lemma exact_ext r r' : exactInv r -> (forall id, activeOf r' id = activeOf r id) -> r_leases r' = r_leases r -> r_closed r' = r_closed r -> r_retired r' = r_retired r -> r_cfg r' = r_cfg r -> exactInv r'.
Proof. intros [H1 H2] HA HL HC HR Hcfg. constructor; [intros id n; rewrite HA, HL, Hcfg; apply H1|rewrite HC, HR; intros Hc id; rewrite HA, HL; by apply H2]. Qed.

Lemma connOf_None r id : routerInv r -> connOf r id = None <-> r_sessions r !! id = None.
Proof.
  intros HI. unfold connOf. destruct (r_sessions r !! id) as [ref|] eqn:E; [|done]. destruct (inv_sessions r HI id ref E) as (c & Hc & _). cbn. by rewrite Hc.
Qed.

(** *** Effects on the counts *)
Lemma activeOf_updatePending r id f id' : routerInv r -> (forall p, ps_active (f p) = ps_active p) -> activeOf (updatePending id f r) id' = activeOf r id'.
Proof.
  intros HI Hf. unfold updatePending. destruct (r_pending r !! id) as [ref|] eqn:E; [|done]. unfold activeOf, connOf, pendOf. cbn. destruct (r_pending r !! id') as [ref'|]; [|done]. cbn.
  destruct (decide (ref' = ref)) as [->|]; [|by rewrite lookup_alter_ne]. rewrite lookup_alter_eq. destruct (r_pends r !! ref); cbn; [by rewrite Hf|done].
Qed.

Lemma updatePending_fields id f r : r_leases (updatePending id f r) = r_leases r /\ r_closed (updatePending id f r) = r_closed r /\ r_retired (updatePending id f r) = r_retired r /\ r_cfg (updatePending id f r) = r_cfg r.
Proof. unfold updatePending. by case_match. Qed.

Lemma exact_updatePending r id f : routerInv r -> (forall p, ps_active (f p) = ps_active p) -> exactInv r -> exactInv (updatePending id f r).
Proof. intros HI Hf HE. destruct (updatePending_fields id f r) as (H1 & H2 & H3 & H4). eapply exact_ext; [done| |done..]. intros id'. by apply activeOf_updatePending. Qed.

Lemma activeOf_addActive r id n id' : routerInv r -> activeOf (addActive id n r) id' = if decide (id' = id) then (fun a => a + n) <$> activeOf r id else activeOf r id'.
Proof.
  intros HI. unfold addActive. destruct (r_sessions r !! id) as [ref|] eqn:E.
  - destruct (inv_sessions r HI id ref E) as (c & Hc & _). unfold activeOf, connOf, pendOf. cbn. destruct (decide (id' = id)) as [->|Hne].
    + rewrite E. cbn. rewrite lookup_alter_eq, Hc. done.
    + destruct (r_sessions r !! id') as [ref'|] eqn:E'; [|done]. cbn. rewrite lookup_alter_ne; [done|]. intros <-. apply Hne. by eapply session_ref_inj.
  - unfold updatePending. destruct (r_pending r !! id) as [ref|] eqn:Ep.
    + destruct (inv_pending r HI id ref Ep) as (p & Hp & _). unfold activeOf, connOf, pendOf. cbn. destruct (decide (id' = id)) as [->|Hne].
      * rewrite E, Ep. cbn. rewrite lookup_alter_eq, Hp. done.
      * destruct (r_pending r !! id') as [ref'|] eqn:E'; [|done]. cbn. rewrite lookup_alter_ne; [done|]. intros <-. apply Hne. by eapply pending_ref_inj.
    + destruct (decide (id' = id)) as [->|]; [|done]. unfold activeOf, connOf, pendOf. by rewrite E, Ep.
Qed.

Lemma addActive_fields id n r : r_leases (addActive id n r) = r_leases r /\ r_closed (addActive id n r) = r_closed r /\ r_retired (addActive id n r) = r_retired r /\ r_cfg (addActive id n r) = r_cfg r.
Proof. unfold addActive. case_match; [done|apply updatePending_fields]. Qed.

Lemma activeOf_addPending r id p id' : routerInv r -> ~ inUse r id -> activeOf (addPending id p r) id' = if decide (id' = id) then Some (ps_active p) else activeOf r id'.
Proof.
  intros HI Hu. unfold activeOf, connOf, pendOf, addPending. cbn. destruct (decide (id' = id)) as [->|Hne].
  - destruct (r_sessions r !! id) eqn:E; [destruct Hu; left; by eexists|]. cbn. rewrite lookup_insert_eq. cbn. by rewrite lookup_insert_eq.
  - rewrite lookup_insert_ne by done. destruct (r_pending r !! id') as [ref|] eqn:E; [|done]. cbn. rewrite lookup_insert_ne; [done|]. intros <-.
    destruct (inv_pending r HI id' _ E) as (q & Hq & _). assert (r_pends r !! fresh (dom (r_pends r)) = None) by (apply not_elem_of_dom_1, is_fresh). congruence.
Qed.

Lemma exact_addPending r id d b : routerInv r -> exactInv r -> ~ inUse r id -> id ∉ r_retired r -> r_closed r = false -> exactInv (addPending id (MkPending d None None None None b 0) r).
Proof.
  intros HI [H1 H2] Hu Hr Hc. assert (activeOf r id = None) as Hnone.
  { unfold activeOf, connOf, pendOf, inUse in *. destruct (r_sessions r !! id); [destruct Hu; left; by eexists|]. destruct (r_pending r !! id); [destruct Hu; right; by eexists|done]. }
  constructor.
  - intros id' n. rewrite activeOf_addPending by done. cbn [addPending setAdmissions setPendingMap setPends r_leases r_cfg ps_active]. destruct (decide (id' = id)) as [->|]; [|apply H1].
    intros [= <-]. rewrite (H2 Hc id Hnone Hr). split; [done|lia].
  - intros _ id'. rewrite activeOf_addPending by done. cbn [addPending setAdmissions setPendingMap setPends r_leases r_retired]. destruct (decide (id' = id)); [done|]. by apply H2.
Qed.

(** *** Leases *)
Lemma leasesOf_insert id l id' m : m !! l = None -> leasesOf id' (<[l := id]> m) = ((if decide (id' = id) then 1 else 0) + leasesOf id' m)%nat.
Proof. intros Hl. unfold leasesOf. rewrite cnt_insert_new by done. destruct (decide (id' = id)) as [->|]; [by rewrite bool_decide_eq_true_2|by rewrite bool_decide_eq_false_2]. Qed.

Lemma leasesOf_delete id l id' m : m !! l = Some id -> leasesOf id' m = ((if decide (id' = id) then 1 else 0) + leasesOf id' (delete l m))%nat.
Proof. intros Hl. unfold leasesOf. rewrite (cnt_delete _ m l id Hl). destruct (decide (id' = id)) as [->|]; [by rewrite bool_decide_eq_true_2|by rewrite bool_decide_eq_false_2]. Qed.

Lemma exact_reserveChannel r id : routerInv r -> exactInv r -> exactInv (reserveChannelLocked id r).1.
Proof.
  intros HI HE. unfold reserveChannelLocked. destruct (r_closed r) eqn:Hc; [done|]. destruct (_ <=? _); [done|]. fold (activeOf r id).
  destruct (activeOf r id) as [n|] eqn:Hn; [|done]. destruct (Z.leb_spec (cfg_MaxChannelsPerSession (r_cfg r)) n) as [|Hlt]; [done|]. cbn [fst]. destruct HE as [H1 H2].
  set (l := fresh (dom (r_leases r))). assert (r_leases r !! l = None) as Hl by (apply not_elem_of_dom_1, is_fresh).
  set (r1 := addActive id 1 (setActive (r_activeChannels r + 1) r)). destruct (addActive_fields id 1 (setActive (r_activeChannels r + 1) r)) as (F1 & F2 & F3 & F4). fold r1 in F1, F2, F3, F4. cbn in F1, F2, F3, F4.
  assert (forall id', activeOf (setLeases (<[l := id]> (r_leases r)) r1) id' = if decide (id' = id) then Some (n + 1) else activeOf r id') as HA.
  { intros id'. change (activeOf (setLeases (<[l := id]> (r_leases r)) r1) id') with (activeOf r1 id'). transitivity (activeOf (addActive id 1 r) id').
    - unfold r1, addActive, updatePending, activeOf, connOf, pendOf. cbn. destruct (r_sessions r !! id); [done|]. by destruct (r_pending r !! id).
    - rewrite activeOf_addActive, Hn by done. done. }
  constructor; cbn [r_leases r_cfg r_closed r_retired setLeases].
  - intros id' m. rewrite HA, leasesOf_insert, F4 by done. destruct (decide (id' = id)) as [->|]; [|cbn; apply H1]. intros [= <-]. destruct (H1 id n Hn). lia.
  - rewrite F3. intros _ id'. rewrite HA, leasesOf_insert by done. destruct (decide (id' = id)); [done|]. by apply H2.
Qed.

Lemma exact_releaseLease r l : routerInv r -> exactInv r -> exactInv (releaseLease l r).
Proof.
  intros HI [H1 H2]. unfold releaseLease. destruct (r_leases r !! l) as [id|] eqn:Hl; [|by constructor]. pose proof (leasesOf_delete id l id _ Hl) as Hcount. rewrite decide_True in Hcount by done.
  unfold releaseChannel. set (r0 := if 0 <? _ then _ else _). assert (r_sessions r0 = r_sessions r /\ pendOf r0 id = pendOf r id) as [E1 E2] by (unfold r0; by case_match). rewrite E1, E2.
  set (r1 := match r_sessions r !! id with Some _ => _ | None => _ end).
  assert (r_leases r1 = delete l (r_leases r) /\ r_closed r1 = r_closed r /\ r_retired r1 = r_retired r /\ r_cfg r1 = r_cfg r) as (F1 & F2 & F3 & F4).
  { destruct (addActive_fields id (-1) r0) as (G1 & G2 & G3 & G4). assert (r_leases r0 = delete l (r_leases r) /\ r_closed r0 = r_closed r /\ r_retired r0 = r_retired r /\ r_cfg r0 = r_cfg r) as (K1 & K2 & K3 & K4) by (unfold r0; by case_match).
    unfold r1. repeat case_match; split_and!; congruence. }
  assert (forall id', activeOf r1 id' = if decide (id' = id) then (fun a => a - 1) <$> activeOf r id else activeOf r id') as HA.
  { assert (forall id', activeOf (addActive id (-1) r0) id' = if decide (id' = id) then (fun a => a - 1) <$> activeOf r id else activeOf r id') as HAdd.
    { intros id'. transitivity (activeOf (addActive id (-1) r) id'); [|by apply activeOf_addActive]. unfold r0, addActive, updatePending, activeOf, connOf, pendOf. destruct (0 <? _); cbn; (destruct (r_sessions r !! id); [done|]; by destruct (r_pending r !! id)). }
    intros id'. unfold r1. destruct (r_sessions r !! id) as [ref|] eqn:Es; [apply HAdd|]. assert (connOf r id = None) as Hcn by (by apply connOf_None).
    assert (forall id', activeOf r0 id' = activeOf r id') as Hr0 by (intros; unfold r0; by case_match).
    destruct (pendOf r id) as [p|] eqn:Ep.
    - assert (activeOf r id = Some (ps_active p)) as Ha by (unfold activeOf; by rewrite Hcn, Ep). destruct (H1 id _ Ha) as [Hp _]. rewrite (proj2 (Z.ltb_lt _ _)) by lia. apply HAdd.
    - rewrite Hr0. destruct (decide (id' = id)) as [->|]; [|done]. unfold activeOf. by rewrite Hcn, Ep. }
  constructor; cbn [wakeWaiters r_leases r_cfg r_closed r_retired].
  - intros id' n. change (activeOf (wakeWaiters r1) id') with (activeOf r1 id'). rewrite HA, F1, F4. pose proof (leasesOf_delete id l id' _ Hl) as Hc'. destruct (decide (id' = id)) as [->|].
    + intros (a & Ha & ->)%fmap_Some. destruct (H1 id a Ha). lia.
    + intros Hn. destruct (H1 id' n Hn). split; [lia|done].
  - rewrite F2, F3, F1. intros Hcl id'. change (activeOf (wakeWaiters r1) id') with (activeOf r1 id'). rewrite HA. pose proof (leasesOf_delete id l id' _ Hl) as Hc'. destruct (decide (id' = id)) as [->|].
    + intros Hnone%fmap_None Hr. specialize (H2 Hcl id Hnone Hr). lia.
    + intros Hn Hr. specialize (H2 Hcl id' Hn Hr). lia.
Qed.

(** *** Sessions come and go *)
Lemma exact_promote r id ref p c k : routerInv r -> exactInv r -> r_pending r !! id = Some ref -> r_pends r !! ref = Some p -> cn_active c = ps_active p ->
  exactInv (setAdmissions k (addSession id c (setPendingMap (delete id (r_pending r)) r))).
Proof.
  intros HI HE Hr Hp Ha. eapply exact_ext; [done| |done..]. intros id'. unfold activeOf, connOf, pendOf, addSession. cbn. destruct (decide (id' = id)) as [->|Hne].
  - rewrite lookup_insert_eq. cbn. rewrite lookup_insert_eq. destruct (r_sessions r !! id) eqn:Es; [by rewrite (inv_disjoint r HI id ltac:(by eexists)) in Hr|]. cbn. rewrite Hr. cbn. by rewrite Hp, Ha.
  - rewrite lookup_insert_ne, lookup_delete_ne by done. destruct (r_sessions r !! id') as [ref'|] eqn:Es; [|done]. cbn. destruct (inv_sessions r HI id' ref' Es) as (c' & Hc' & _).
    rewrite lookup_insert_ne; [done|]. intros <-. assert (r_conns r !! fresh (dom (r_conns r)) = None) by (apply not_elem_of_dom_1, is_fresh). congruence.
Qed.

(** An identifier that leaves the maps is retired, unless the router is closed. *)
Lemma exact_retire r r1 id : exactInv r -> r_leases r1 = r_leases r -> r_closed r1 = r_closed r -> r_retired r1 = r_retired r -> r_cfg r1 = r_cfg r ->
  (forall id', activeOf r1 id' = if decide (id' = id) then None else activeOf r id') -> exactInv (retireSessionLocked id r1).
Proof.
  intros [H1 H2] HL HC HR Hcfg HA. unfold retireSessionLocked. destruct (r_closed r1) eqn:Hc.
  - constructor; [|congruence]. intros id' n. rewrite HA, HL, Hcfg. destruct (decide _); [done|apply H1].
  - constructor; cbn [setRetired r_leases r_cfg r_closed r_retired].
    + intros id' n. change (activeOf (setRetired ?s r1) id') with (activeOf r1 id'). rewrite HA, HL, Hcfg. destruct (decide _); [done|apply H1].
    + intros _ id'. change (activeOf (setRetired ?s r1) id') with (activeOf r1 id'). rewrite HA, HL, HR. destruct (decide (id' = id)) as [->|]; [set_solver|].
      intros Hn Hr. apply H2; [congruence|done|set_solver].
Qed.

Lemma exact_dropPending r id e : routerInv r -> exactInv r -> exactInv (dropPending id e r).
Proof.
  intros HI HE. unfold dropPending. destruct (r_pending r !! id) as [ref|] eqn:E; [|done].
  assert (exactInv (retireSessionLocked id (setAdmissions (r_pendingAdmissions r - 1) (setPendingMap (delete id (r_pending r)) r)))) as HD; [|destruct e as [e|]; [by case_bool_decide|done]].
  eapply exact_retire; [done..|]. intros id'. unfold activeOf, connOf, pendOf. cbn. destruct (decide (id' = id)) as [->|]; [|by rewrite lookup_delete_ne].
  rewrite lookup_delete_eq. destruct (r_sessions r !! id) eqn:Es; [by rewrite (inv_disjoint r HI id ltac:(by eexists)) in E|done].
Qed.

Lemma exact_removeSession r id ref : routerInv r -> exactInv r -> exactInv (removeSession id ref r).
Proof.
  intros HI HE. unfold removeSession. case_bool_decide as E; [|done]. eapply exact_retire; [done..|]. intros id'. unfold activeOf, connOf, pendOf. cbn.
  destruct (decide (id' = id)) as [->|]; [|by rewrite lookup_delete_ne]. rewrite lookup_delete_eq. cbn. by rewrite (inv_disjoint r HI id ltac:(by eexists)).
Qed.

Lemma exact_insert_conn r ref c c' : exactInv r -> r_conns r !! ref = Some c -> cn_active c' = cn_active c -> forall k, exactInv (setSlotReleases k (setConns (<[ref := c']> (r_conns r)) r)).
Proof.
  intros HE Hc Ha k. eapply exact_ext; [done| |done..]. intros id. unfold activeOf, connOf, pendOf. cbn. destruct (r_sessions r !! id) as [ref'|]; [|done]. cbn.
  destruct (decide (ref' = ref)) as [->|]; [rewrite lookup_insert_eq, Hc; by rewrite Ha|by rewrite lookup_insert_ne].
Qed.

(** *** The sections composed *)
Lemma exact_reservePending r d b : routerInv r -> exactInv r -> exactInv (reservePendingLocked d b r).1.
Proof.
  intros HI HE. unfold reservePendingLocked. destruct (r_closed r) eqn:Hc; [done|]. destruct (_ || _); [done|]. case_bool_decide as Hr; [done|]. case_bool_decide as Hs; [done|].
  destruct (pendOf r (sd_SessionID d)) as [p|] eqn:Hp; [destruct (_ && _); [by apply exact_updatePending|by destruct (_ || _)]|]. destruct (_ <=? _); [done|].
  apply exact_addPending; try done. apply pendOf_None in Hp; [|done]. intros [?|[ref E]]; [done|congruence].
Qed.

Lemma exact_attach r id f o : routerInv r -> exactInv r -> (forall l p, ps_active (f l p) = ps_active p) -> exactInv (attach id f o r).1.
Proof.
  intros HI HE Hf. unfold attach. pose proof (exact_reserveChannel r id HI HE) as H1. pose proof (reserveChannel_inv r id HI) as H2. destruct (reserveChannelLocked id r) as [r' [l|e|]]; [|done..]. cbn. by apply exact_updatePending.
Qed.

Lemma exact_dialReserve r d : routerInv r -> exactInv r -> exactInv (dialReserve d r).1.
Proof.
  intros HI HE. unfold dialReserve. pose proof (reservePending_inv r d true HI) as I1. pose proof (exact_reservePending r d true HI HE) as E1. destruct (reservePendingLocked d true r) as [r1 [[]|e|]]; cbn [fst] in *; [|done..].
  pose proof (reserveChannel_inv r1 (sd_SessionID d) I1) as I2. pose proof (exact_reserveChannel r1 (sd_SessionID d) I1 E1) as E2. destruct (reserveChannelLocked (sd_SessionID d) r1) as [r2 control]. cbn [fst] in *.
  assert (routerInv (updatePending (sd_SessionID d) (setControlLease (leaseOf control)) r2)) as I3 by (by apply updatePending_inv).
  assert (exactInv (updatePending (sd_SessionID d) (setControlLease (leaseOf control)) r2)) as E3 by (by apply exact_updatePending). destruct control as [l|e|]; [|done..].
  pose proof (reserveChannel_inv _ (sd_SessionID d) I3) as I4. pose proof (exact_reserveChannel _ (sd_SessionID d) I3 E3) as E4. destruct (reserveChannelLocked (sd_SessionID d) _) as [r3 packet]. cbn [fst] in *.
  assert (exactInv (updatePending (sd_SessionID d) (setPacketLease (leaseOf packet)) r3)) as E5 by (by apply exact_updatePending). by destruct packet.
Qed.

Lemma exact_handlePacket r l : routerInv r -> exactInv r -> exactInv (handlePacket l r).1.
Proof.
  intros HI HE. unfold handlePacket. destruct (negb _); [done|]. cbv zeta.
  destruct (pendOf r (pl_session l)) as [p|] eqn:Hp; [destruct (ps_packet p); [done|by apply exact_attach]|]. case_bool_decide as Hs; [done|]. destruct (_ || _) eqn:HC; [done|].
  apply orb_false_iff in HC as [[Hr%bool_decide_eq_false_1 Hm%Z.leb_gt]%orb_false_iff Hc]. apply pendOf_None in Hp; [|done]. assert (~ inUse r (pl_session l)) as Hu by (intros [?|[ref E]]; [done|congruence]).
  set (p0 := MkPending _ None None None None false 0). assert (routerInv (addPending (pl_session l) p0 r)) as I1 by (by apply addPending_inv). assert (exactInv (addPending (pl_session l) p0 r)) as E1 by (by apply exact_addPending).
  destruct (pendOf (addPending _ _ _) _) as [p|]; [|done]. destruct (ps_packet p); [done|]. by apply exact_attach.
Qed.

Lemma routerStep_exact r r' : routerStep drained r r' -> routerInv r -> exactInv r -> exactInv r'.
Proof.
  intros [d r0|b id ref r0|d ref r0|l r0|l r0|l r0|id r0|l r0|id ref r0|ref r0|ref r0|ref r0|r0|id e r0|id ref r0|id r0 Hd|r0] HI HE.
  - by apply exact_dialReserve.
  - unfold dialOpened. case_bool_decide as E; [|done]. cbn. pose proof (exact_updatePending r0 id (fun p => if b then MkPending (ps_declaration p) (ps_controlLease p) (ps_packet p) (ps_controlLease p) (ps_packetLease p) (ps_initiated p) (ps_active p)
      else MkPending (ps_declaration p) (ps_control p) (ps_packetLease p) (ps_controlLease p) (ps_packetLease p) (ps_initiated p) (ps_active p)) HI ltac:(by destruct b) HE) as HU. unfold updatePending in HU. by rewrite E in HU.
  - unfold dialCommit. destruct (r_pending r0 !! sd_SessionID d) as [ref'|] eqn:E; [|done]. destruct (r_pends r0 !! ref) as [p|] eqn:Hp; [|done]. destruct (_ || _) eqn:HC; [done|].
    apply orb_false_iff in HC as [_ ->%negb_false_iff%bool_decide_eq_true_1]. exact (exact_promote r0 (sd_SessionID d) ref p (newConn d p true false) (r_pendingAdmissions r0 - 1) HI HE E Hp eq_refl).
  - unfold handleControl. destruct (negb _); [done|]. pose proof (reservePending_inv r0 (MkDeclaration (pl_session l) (pl_client l) (pl_remote l)) false HI) as I1.
    pose proof (exact_reservePending r0 (MkDeclaration (pl_session l) (pl_client l) (pl_remote l)) false HI HE) as E1. destruct (reservePendingLocked _ false r0) as [r1 [[]|e|]]; cbn [fst] in *; [|done..].
    destruct (pendOf r1 (pl_session l)) as [p|]; [|done]. destruct (ps_control p); [done|]. by apply exact_attach.
  - by apply exact_handlePacket.
  - unfold handleService. destruct (connOf r0 (pl_session l)); [|done]. destruct (_ || _); [done|by apply exact_reserveChannel].
  - unfold reserveService. destruct (r_closed r0); [done|]. pose proof (exact_reserveChannel r0 id HI HE) as HR. by destruct (reserveChannelLocked id r0) as [r1 [|e|]].
  - by apply exact_releaseLease.
  - unfold acceptPending. destruct (r_pends r0 !! ref) as [p|] eqn:Hp; [|done]. destruct (_ || _) eqn:HC; [done|]. apply orb_false_iff in HC as [[[[_ E%negb_false_iff%bool_decide_eq_true_1]%orb_false_iff _]%orb_false_iff _]%orb_false_iff _].
    pose proof (exact_promote r0 id ref p (newConn (ps_declaration p) p false true) (r_pendingAdmissions r0) HI HE E Hp eq_refl) as HP.
    by rewrite (setAdmissions_id (addSession id (newConn (ps_declaration p) p false true) (setPendingMap (delete id (r_pending r0)) r0)) : setAdmissions (r_pendingAdmissions r0) _ = _) in HP.
  - unfold acceptApplication. destruct (r_conns r0 !! ref) as [c|] eqn:Hc; [|done]. destruct (_ || _); [done|]. destruct (cn_admission c); [|done..]. exact (exact_insert_conn r0 ref c (setAdmission admissionAccepted c) HE Hc eq_refl (r_slotReleases r0)).
  - unfold expireAdmission. destruct (r_conns r0 !! ref) as [c|] eqn:Hc; [|done]. case_bool_decide; [|done]. exact (exact_insert_conn r0 ref c (setAdmission admissionExpired c) HE Hc eq_refl (r_slotReleases r0)).
  - unfold takeSlot. destruct (r_conns r0 !! ref) as [c|] eqn:Hc; [|done]. destruct (cn_admissionSlot c); [|done]. by apply (exact_insert_conn r0 ref c).
  - unfold giveSlot. destruct (r_slotReleases r0); [done|]. by eapply exact_ext.
  - by apply exact_dropPending.
  - by apply exact_removeSession.
  - destruct HE as [H1 H2]. constructor; [exact H1|]. cbn. intros Hc id' Hn Hr. destruct (decide (id' = id)) as [->|]; [exact Hd|]. apply H2; [done|done|set_solver].
  - destruct HE as [H1 H2]. constructor; [exact H1|done].
Qed.

(** No session exceeds its share of channels, provided that the timer of a retired
    identifier fires only after the channels opened under it have been released: then
    in every execution the count of each pending or established session is the number
    of its leases, at most [MaxChannelsPerSession] (at most 32), and an identifier that
    is free for a new session has no leases left. *)
Theorem session_share handled cfg r0 r :
  NewRouter true handled cfg = Ret r0 -> rtc (routerStep drained) r0 r ->
  (forall id n, activeOf r id = Some n -> n = Z.of_nat (leasesOf id (r_leases r)) /\ n <= cfg_MaxChannelsPerSession (r_cfg r) <= 32) /\
  (r_closed r = false -> forall id, activeOf r id = None -> id ∉ r_retired r -> leasesOf id (r_leases r) = 0%nat).
Proof.
  intros (c & -> & _ & _ & Hmax)%NewRouter_cfg HR. assert (routerInv r /\ exactInv r) as [HI HE].
  { pose proof (inv_empty c) as I0. assert (exactInv (emptyRouter c)) as E0 by (constructor; done). induction HR as [|r1 r2 r3 HS _ IH]; [done|].
    apply IH; [by eapply routerStep_inv|by eapply routerStep_exact]. }
  rewrite (reachable_cfg drained c r HR). destruct HE as [H1 H2]. rewrite (reachable_cfg drained c r HR) in H1. split; [|done]. intros id n Hn. destruct (H1 id n Hn). lia.
Qed.

(** ** Examples *)
Definition exConfig : RouterConfig := MkConfig true 4 8 2 0 0 0 0.
Definition exDeclaration : SessionDeclaration := MkDeclaration exSession exKey EmptyString.
Definition exRouter : Router := emptyRouter (withDefaults exConfig).

Lemma exRouter_new : NewRouter true (Ret tt) exConfig = Ret exRouter.
Proof. vm_compute. reflexivity. Qed.

(** A remote session: its packet channel, its control channel, admission. *)
Definition exLabel (kind : labelKind) : parsedLabel := MkLabel kind exSession (if kind is labelControl then exKey else zeroKey) EmptyString 0 0.
Definition exAccepted : Router :=
  giveSlot (takeSlot 0 (acceptApplication 0 (acceptPending exSession 0 (handleControl (exLabel labelControl) (handlePacket (exLabel labelPacket) exRouter).1).1)).1).

Lemma exAccepted_reachable timely : rtc (routerStep timely) exRouter exAccepted.
Proof.
  unfold exAccepted. do 2 (eapply rtc_r; [|first [eapply step_giveSlot|eapply step_takeSlot]]). eapply rtc_r; [|eapply step_acceptApplication].
  eapply rtc_r; [|eapply step_acceptPending]. eapply rtc_r; [|eapply step_control]. eapply rtc_r; [|eapply step_packet]. apply rtc_refl.
Qed.

Lemma Router_accounts_witness :
  r_activeChannels exAccepted = 2 /\ size (r_leases exAccepted) = 2%nat /\ r_pendingAdmissions exAccepted = 0 /\ r_pending exAccepted !! exSession = None.
Proof.
  destruct (Router_accounts (fun _ _ => True) (Ret tt) exConfig exRouter exAccepted exRouter_new (exAccepted_reachable _)) as (H1 & _ & H3 & _ & H5).
  assert (r_activeChannels exAccepted = 2) as HA by (vm_compute; reflexivity). rewrite HA in H1. split; [exact HA|]. split; [lia|]. split; [vm_compute; reflexivity|].
  destruct (r_pending exAccepted !! exSession) eqn:E; [|reflexivity]. exfalso. apply (proj1 (H5 exSession)). split; [vm_compute; eexists; reflexivity|eexists; exact E].
Defined.

Lemma session_share_witness : activeOf exAccepted exSession = Some 2 /\ leasesOf exSession (r_leases exAccepted) = 2%nat.
Proof.
  destruct (session_share (Ret tt) exConfig exRouter exAccepted exRouter_new (exAccepted_reachable _)) as [H1 _].
  assert (activeOf exAccepted exSession = Some 2) as HA by (vm_compute; reflexivity). split; [exact HA|]. destruct (H1 exSession 2 HA) as [H2 _]. lia.
Defined.

(** Two dials with one declaration: the second joins the pending session of the first and
    overwrites its leases, so that giving the session up releases two leases of four and
    two channels stay reserved with no session to release them. *)
Definition exTwice : Router := (dialReserve exDeclaration (dialReserve exDeclaration exRouter).1).1.

Lemma Dial_twice_leaks :
  (dialReserve exDeclaration exRouter).2 = Ret tt /\ (dialReserve exDeclaration (dialReserve exDeclaration exRouter).1).2 = Ret tt /\
  exists p, pendOf exTwice exSession = Some p /\
    let r := foldr releaseLease (dropPending exSession None exTwice) (droppedLeases p) in
    r_activeChannels r = 2 /\ r_pending r = ∅ /\ r_sessions r = ∅.
Proof.
  split; [vm_compute; reflexivity|]. split; [vm_compute; reflexivity|]. eexists. split; [vm_compute; reflexivity|]. cbv zeta. split; [vm_compute; reflexivity|]. split; apply map_eq; intros i; vm_compute; reflexivity.
Qed.
