(* ===== verification/OggPage.v ===== *)
(** * ogg: pages and their checksum

    [src/pkgs/audio/codec/ogg/constants.go], [crc.go] and [page.go]: the physical
    pages of an Ogg stream, their binary form and the table-driven CRC.  A nil
    [*Page] is [None]; errors are kept by their text, without the numbers that are
    formatted into them. *)

From stdpp Require Import list list_numbers.
From S2P Require Import Prelude GoBytes.

Open Scope Z_scope.

Abbreviation oggError := string.

Definition CapturePattern : Bytes := [79; 103; 103; 83].
Definition pageHeaderSize : nat := 27.
Definition maxPageSegments : nat := 255.
Definition maxSegmentSize : Z := 255.
Definition HeaderTypeContinued : Z := 1.
Definition HeaderTypeBOS : Z := 2.
Definition HeaderTypeEOS : Z := 4.
Definition GranulePositionUnknown : Z := 2 ^ 64 - 1.

(** ** The checksum *)
Definition polynomial : Z := 0x04c11db7.
Definition shl32 (x n : Z) : Z := Z.land (Z.shiftl x n) (Z.ones 32).

(** The body of the inner loop of [buildOGGCRCTable]. *)
Definition crcBit (crc : Z) : Z :=
  if negb (Z.land crc (Z.shiftl 1 31) =? 0) then Z.lxor (shl32 crc 1) polynomial else shl32 crc 1.

Definition buildOGGCRCTable : list Z := map (fun i => Nat.iter 8 crcBit (shl32 i 24)) (seqZ 0 256).
Definition oggCRCTable : list Z := Eval vm_compute in buildOGGCRCTable.

(** The body of the loop of [oggCRC]; the index is a byte and the table has 256 entries. *)
Definition crcByte (crc b : Z) : Z :=
  Z.lxor (shl32 crc 8) (nth (Z.to_nat (Z.land (Z.lxor (Z.shiftr crc 24) b) 255)) oggCRCTable 0).
Definition oggCRC (data : Bytes) : Z := foldl crcByte 0 data.

(** ** Pages *)
Record Page := MkPage {
  pg_Version : Z;
  pg_HeaderType : Z;
  pg_GranulePosition : Z;
  pg_BitstreamSerial : Z;
  pg_PageSequence : Z;
  pg_Checksum : Z;
  pg_Segments : Bytes;
  pg_Payload : Bytes
}.

#[export] Instance Page_eq_dec : EqDecision Page.
Proof. solve_decision. Defined.

Definition HasContinuation (p : option Page) : bool :=
  match p with Some p => negb (Z.land (pg_HeaderType p) HeaderTypeContinued =? 0) | None => false end.
Definition HasBOS (p : option Page) : bool :=
  match p with Some p => negb (Z.land (pg_HeaderType p) HeaderTypeBOS =? 0) | None => false end.
Definition HasEOS (p : option Page) : bool :=
  match p with Some p => negb (Z.land (pg_HeaderType p) HeaderTypeEOS =? 0) | None => false end.

Definition Page_Validate (p : option Page) : Go oggError unit :=
  match p with
  | None => Fail "page is nil"%string
  | Some p =>
      _ ← check (negb (pg_Version p =? 0)) "unsupported version"%string;
      _ ← check (negb (Z.ldiff (pg_HeaderType p) (Z.lor (Z.lor HeaderTypeContinued HeaderTypeBOS) HeaderTypeEOS) =? 0)) "unsupported header type bits"%string;
      _ ← check (maxPageSegments <? length (pg_Segments p))%nat "segment count exceeds"%string;
      check (negb (sumBytes (pg_Segments p) =? length (pg_Payload p))%nat) "payload length mismatch"%string
  end.

(** The bytes of a page with the given checksum field; [byte(len(p.Segments))] wraps. *)
Definition pageBytes (p : Page) (checksum : Z) : Bytes :=
  CapturePattern ++ [pg_Version p; pg_HeaderType p] ++ putLE 8 (pg_GranulePosition p) ++ putLE 4 (pg_BitstreamSerial p) ++
  putLE 4 (pg_PageSequence p) ++ putLE 4 checksum ++ [Z.of_nat (length (pg_Segments p)) `mod` 256] ++ pg_Segments p ++ pg_Payload p.

Definition MarshalBinary (p : option Page) : Go oggError Bytes :=
  _ ← Page_Validate p;
  match p with
  | None => Panic
  | Some p => Ret (pageBytes p (oggCRC (pageBytes p 0)))
  end.

(** [checksumInput]: the page with its checksum field zeroed. *)
Definition zeroChecksum (raw : Bytes) : Bytes := take 22 raw ++ [0; 0; 0; 0] ++ drop 26 raw.

Definition parsePagePrefix (raw : Bytes) : Go oggError (Page * nat) :=
  _ ← check (length raw <? pageHeaderSize)%nat "too short header"%string;
  capture ← slice raw 0 4;
  _ ← check (negb (bool_decide (capture = CapturePattern))) "invalid capture pattern"%string;
  version ← index raw 4;
  _ ← check (negb (version =? 0)) "unsupported version"%string;
  count ← index raw 26;
  let headerLen := (pageHeaderSize + Z.to_nat count)%nat in
  _ ← check (length raw <? headerLen)%nat "truncated segment table"%string;
  segments ← slice raw 27 headerLen;
  let totalLen := (headerLen + sumBytes segments)%nat in
  _ ← check (length raw <? totalLen)%nat "truncated payload"%string;
  page ← slice raw 0 totalLen;
  checksumField ← slice page 22 26;
  let wantChecksum := getLE checksumField in
  _ ← check (negb (oggCRC (zeroChecksum page) =? wantChecksum)) "checksum mismatch"%string;
  headerType ← index page 5;
  granule ← slice page 6 14;
  serial ← slice page 14 18;
  sequence ← slice page 18 22;
  segs ← slice page 27 headerLen;
  payload ← slice page headerLen totalLen;
  let p := MkPage version headerType (getLE granule) (getLE serial) (getLE sequence) wantChecksum segs payload in
  _ ← Page_Validate (Some p);
  Ret (p, totalLen).

Definition ParsePage (raw : Bytes) : Go oggError Page :=
  r ← parsePagePrefix raw;
  let '(p, consumed) := r in
  _ ← check (negb (consumed =? length raw)%nat) "trailing data"%string;
  Ret p.

(** The loop of [ParsePages]; every page consumes at least its header, so the length
    of the stream is fuel enough. *)
Fixpoint parsePagesLoop (fuel : nat) (stream : Bytes) (pages : list Page) : option (Go oggError (list Page)) :=
  match stream with
  | [] => Some (Ret pages)
  | _ =>
      match fuel with
      | O => None
      | S fuel =>
          match parsePagePrefix stream with
          | Ret (p, consumed) => parsePagesLoop fuel (drop consumed stream) (pages ++ [p])
          | Fail e => Some (Fail e)
          | Panic => Some Panic
          end
      end
  end.

Definition ParsePages (stream : Bytes) : option (Go oggError (list Page)) := parsePagesLoop (length stream) stream [].

Definition MarshalPages (pages : list (option Page)) : Go oggError Bytes :=
  foldGo (fun out p => _ ← check (bool_decide (p = None)) "page is nil"%string; raw ← MarshalBinary p; Ret (out ++ raw)) [] pages.
