(* ===== verification/OggCRC.v ===== *)
(** * ogg: the page checksum

    The table-driven [oggCRC] is the bit-serial CRC of the Ogg framing: a 32-bit
    register shifted left once per message bit, most significant bit first, with the
    generator polynomial added when the bit shifted out differs from the message bit.
    Every step is a bijection of the register, so changing one byte of a message
    always changes its checksum. *)

From stdpp Require Import list list_numbers.
From S2P Require Import Prelude GoBytes OggPage.

Open Scope Z_scope.

(** ** The reference *)
Definition crcSerial (crc : Z) (bit : bool) : Z := Z.lxor (shl32 crc 1) (if xorb (Z.testbit crc 31) bit then polynomial else 0).
Definition messageBits (data : Bytes) : list bool := b ← data; map (fun i => Z.testbit b i) [7; 6; 5; 4; 3; 2; 1; 0].
Definition crcReference (data : Bytes) : Z := foldl crcSerial 0 (messageBits data).

(** ** Bits of the operations *)
Lemma shl32_spec x n i : 0 <= n -> Z.testbit (shl32 x n) i = (0 <=? i) && (i <? 32) && Z.testbit x (i - n).
Proof.
  intros Hn. unfold shl32. destruct (Z.leb_spec 0 i) as [Hi|Hi]; [|by rewrite Z.testbit_neg_r].
  rewrite Z.land_spec, Z.shiftl_spec, Z.testbit_ones_nonneg by lia. by rewrite andb_comm.
Qed.

Lemma testbit_word x i : 0 <= x < 2 ^ 32 -> 32 <= i -> Z.testbit x i = false.
Proof.
  intros Hx Hi. destruct (Z.eq_dec x 0) as [->|Hx0]; [apply Z.bits_0|]. apply Z.bits_above_log2; [lia|].
  apply Z.log2_lt_pow2; [lia|]. eapply Z.lt_le_trans; [apply Hx|]. apply Z.pow_le_mono_r; lia.
Qed.

Lemma word_bound x : 0 <= x -> (forall i, 32 <= i -> Z.testbit x i = false) -> 0 <= x < 2 ^ 32.
Proof.
  intros H0 Hb. split; [done|]. assert (x = x `mod` 2 ^ 32) as ->; [|by apply Z.mod_pos_bound].
  apply Z.bits_inj'. intros i Hi. destruct (Z.lt_ge_cases i 32); [by rewrite Z.mod_pow2_bits_low|].
  rewrite Z.mod_pow2_bits_high by lia. by apply Hb.
Qed.

Lemma shl32_word x n : 0 <= n -> 0 <= shl32 x n < 2 ^ 32.
Proof.
  intros Hn. apply word_bound; [apply Z.land_nonneg; right; by vm_compute|]. intros i Hi. rewrite shl32_spec by done.
  by rewrite (proj2 (Z.ltb_ge i 32)), andb_false_r by lia.
Qed.

Lemma lxor_word x y : 0 <= x < 2 ^ 32 -> 0 <= y < 2 ^ 32 -> 0 <= Z.lxor x y < 2 ^ 32.
Proof.
  intros Hx Hy. apply word_bound; [apply Z.lxor_nonneg; lia|]. intros i Hi. by rewrite Z.lxor_spec, !testbit_word.
Qed.

Lemma shl32_lxor x y n : 0 <= n -> shl32 (Z.lxor x y) n = Z.lxor (shl32 x n) (shl32 y n).
Proof.
  intros Hn. apply Z.bits_inj'. intros i Hi. rewrite Z.lxor_spec, !shl32_spec, Z.lxor_spec by done.
  destruct ((0 <=? i) && (i <? 32)); [done|by rewrite !andb_false_l].
Qed.

Lemma polynomial_word : 0 <= polynomial < 2 ^ 32.
Proof. by vm_compute. Qed.

Lemma crcBit_eq crc : crcBit crc = Z.lxor (shl32 crc 1) (if Z.testbit crc 31 then polynomial else 0).
Proof.
  unfold crcBit. replace (negb (Z.land crc (Z.shiftl 1 31) =? 0)) with (Z.testbit crc 31); [destruct (Z.testbit crc 31); [done|by rewrite Z.lxor_0_r]|].
  destruct (Z.testbit crc 31) eqn:Hb; symmetry.
  - apply negb_true_iff, Z.eqb_neq. intros E. apply (f_equal (fun x => Z.testbit x 31)) in E. rewrite Z.land_spec, Hb in E. done.
  - apply negb_false_iff, Z.eqb_eq, Z.bits_inj'. intros i Hi. rewrite Z.land_spec, Z.shiftl_1_l, Z.bits_0.
    destruct (Z.eq_dec i 31) as [->|Hne]; [by rewrite Hb|]. by rewrite Z.pow2_bits_false, andb_false_r.
Qed.

Lemma crcBit_word crc : 0 <= crcBit crc < 2 ^ 32.
Proof. rewrite crcBit_eq. apply lxor_word; [by apply shl32_word|]. destruct (Z.testbit crc 31); [apply polynomial_word|done]. Qed.

Lemma crcSerial_word crc b : 0 <= crcSerial crc b < 2 ^ 32.
Proof. unfold crcSerial. apply lxor_word; [by apply shl32_word|]. destruct (xorb _ _); [apply polynomial_word|done]. Qed.

(** ** Linearity *)
Lemma crcBit_lxor x y : crcBit (Z.lxor x y) = Z.lxor (crcBit x) (crcBit y).
Proof.
  rewrite !crcBit_eq, shl32_lxor, Z.lxor_spec by done.
  assert ((if xorb (Z.testbit x 31) (Z.testbit y 31) then polynomial else 0) =
          Z.lxor (if Z.testbit x 31 then polynomial else 0) (if Z.testbit y 31 then polynomial else 0)) as ->.
  { destruct (Z.testbit x 31), (Z.testbit y 31); cbn [xorb]; [by rewrite Z.lxor_nilpotent|by rewrite Z.lxor_0_r|by rewrite Z.lxor_0_l|done]. }
  rewrite !Z.lxor_assoc. f_equal. rewrite <-!Z.lxor_assoc. f_equal. apply Z.lxor_comm.
Qed.

Lemma iter_lxor k x y : Nat.iter k crcBit (Z.lxor x y) = Z.lxor (Nat.iter k crcBit x) (Nat.iter k crcBit y).
Proof. induction k as [|k IH]; [done|]. cbn [Nat.iter nat_rect]. unfold Nat.iter in *. cbn. by rewrite IH, crcBit_lxor. Qed.

(** The register's low bits move up untouched. *)
Lemma iter_low (k : nat) x : 0 <= x < 2 ^ (32 - Z.of_nat k) -> (k <= 32)%nat -> Nat.iter k crcBit x = x * 2 ^ Z.of_nat k.
Proof.
  intros Hx Hk. induction k as [|k IH]; [cbn; lia|]. cbn [Nat.iter nat_rect]. fold (Nat.iter k crcBit x).
  rewrite IH; [|split; [lia|eapply Z.lt_le_trans; [apply Hx|apply Z.pow_le_mono_r; lia]]|lia].
  set (y := x * 2 ^ Z.of_nat k). assert (0 <= y < 2 ^ 31) as Hy.
  { unfold y. split; [lia|]. replace (2 ^ 31) with (2 ^ (32 - Z.of_nat (S k)) * 2 ^ Z.of_nat k); [|rewrite <-Z.pow_add_r by lia; f_equal; lia].
    apply Z.mul_lt_mono_pos_r; [apply Z.pow_pos_nonneg; lia|lia]. }
  rewrite crcBit_eq. replace (Z.testbit y 31) with false.
  2:{ symmetry. destruct (Z.eq_dec y 0) as [->|Hy0]; [done|]. apply Z.bits_above_log2; [lia|]. apply Z.log2_lt_pow2; lia. }
  rewrite Z.lxor_0_r. unfold shl32. rewrite Z.land_ones, Z.shiftl_mul_pow2 by done. rewrite Z.mod_small by (change (2 ^ 1) with 2; lia).
  unfold y. rewrite Nat2Z.inj_succ, Z.pow_succ_r by lia. change (2 ^ 1) with 2. lia.
Qed.

(** ** The table *)
Lemma oggCRCTable_eq : oggCRCTable = buildOGGCRCTable.
Proof. vm_compute. reflexivity. Qed.

Lemma table_entry i : 0 <= i < 256 -> nth (Z.to_nat i) oggCRCTable 0 = Nat.iter 8 crcBit (shl32 i 24).
Proof.
  intros Hi. rewrite oggCRCTable_eq. unfold buildOGGCRCTable. rewrite nth_lookup.
  change (map ?f ?l) with (f <$> l). rewrite list_lookup_fmap, lookup_seqZ_lt by lia. cbn [fmap option_fmap option_map default]. by replace (0 + Z.of_nat (Z.to_nat i)) with i by lia.
Qed.

(** The halves of the register. *)
Lemma split_word crc b : 0 <= crc < 2 ^ 32 -> isByte b ->
  Z.lxor crc (shl32 b 24) = Z.lxor (crc `mod` 2 ^ 24) (shl32 (Z.land (Z.lxor (Z.shiftr crc 24) b) 255) 24).
Proof.
  intros Hc Hb. change 255 with (Z.ones 8). apply Z.bits_inj'. intros i Hi. rewrite !Z.lxor_spec, !shl32_spec by done.
  destruct (Z.lt_ge_cases i 24) as [Hlt|Hge].
  - rewrite Z.mod_pow2_bits_low by done. rewrite !(Z.testbit_neg_r _ (i - 24)) by lia. by rewrite !andb_false_r.
  - rewrite Z.mod_pow2_bits_high by lia. rewrite Z.land_spec, Z.lxor_spec, Z.shiftr_spec, Z.testbit_ones_nonneg by lia.
    replace (i - 24 + 24) with i by lia. destruct (Z.lt_ge_cases i 32) as [H32|H32].
    + rewrite (proj2 (Z.ltb_lt i 32)), (proj2 (Z.ltb_lt (i - 24) 8)), (proj2 (Z.leb_le 0 i)) by lia. cbn [andb]. rewrite andb_true_r. by destruct (Z.testbit crc i), (Z.testbit b (i - 24)).
    + rewrite (proj2 (Z.ltb_ge i 32)), testbit_word by lia. by rewrite !andb_false_r.
Qed.

Lemma index_byte crc b : 0 <= Z.land (Z.lxor (Z.shiftr crc 24) b) 255 < 256.
Proof. change 255 with (Z.ones 8). rewrite Z.land_ones by done. by apply Z.mod_pos_bound. Qed.

(** One byte of the table algorithm is eight steps of the register. *)
Lemma crcByte_iter crc b : 0 <= crc < 2 ^ 32 -> isByte b -> crcByte crc b = Nat.iter 8 crcBit (Z.lxor crc (shl32 b 24)).
Proof.
  intros Hc Hb. unfold crcByte. rewrite table_entry by apply index_byte. rewrite split_word, iter_lxor by done. f_equal.
  rewrite (iter_low 8); [|by apply Z.mod_pos_bound|lia]. unfold shl32. rewrite Z.land_ones, Z.shiftl_mul_pow2 by done.
  change (2 ^ 32) with (2 ^ 24 * 2 ^ 8). rewrite Z.mul_mod_distr_r by done. done.
Qed.

Lemma crcByte_word crc b : 0 <= crc < 2 ^ 32 -> isByte b -> 0 <= crcByte crc b < 2 ^ 32.
Proof. intros Hc Hb. rewrite crcByte_iter by done. apply crcBit_word. Qed.

(** ** Equivalence with the reference *)
Lemma crcBit_serial crc b : 0 <= crc < 2 ^ 32 -> isByte b ->
  crcBit (Z.lxor crc (shl32 b 24)) = Z.lxor (crcSerial crc (Z.testbit b 7)) (shl32 (Z.land (Z.shiftl b 1) 255) 24).
Proof.
  intros Hc Hb. rewrite crcBit_eq, shl32_lxor, Z.lxor_spec, (shl32_spec b) by done. cbn [Z.leb Z.ltb andb Z.sub Z.compare]. unfold crcSerial.
  change (Z.testbit b (31 - 24)) with (Z.testbit b 7). rewrite !Z.lxor_assoc. f_equal. rewrite Z.lxor_comm. f_equal.
  change 255 with (Z.ones 8). apply Z.bits_inj'. intros i Hi. rewrite !shl32_spec by done. destruct (Z.ltb_spec i 32) as [H32|H32]; [|by rewrite !andb_false_r].
  rewrite (proj2 (Z.leb_le 0 i)) by done. cbn [andb]. destruct (Z.lt_ge_cases i 24) as [H24|H24].
  - rewrite (Z.testbit_neg_r _ (i - 24)) by lia.  rewrite (Z.testbit_neg_r _ (i - 1 - 24)) by lia. by rewrite andb_false_r.
  - rewrite Z.land_spec, Z.shiftl_spec, Z.testbit_ones_nonneg by lia. rewrite (proj2 (Z.ltb_lt (i - 24) 8)), andb_true_r by lia.
    rewrite (proj2 (Z.leb_le 0 (i - 1))), (proj2 (Z.ltb_lt (i - 1) 32)) by lia. cbn [andb]. f_equal. lia.
Qed.

Lemma land255_byte x : isByte (Z.land x 255).
Proof. change 255 with (Z.ones 8). unfold isByte. rewrite Z.land_ones by done. by apply Z.mod_pos_bound. Qed.

(** The bits of a byte from the top, and what shifting them out leaves. *)
Definition shl8 (b : Z) : Z := Z.land (Z.shiftl b 1) 255.
Fixpoint topBits (k : nat) (b : Z) : list bool :=
  match k with O => [] | S k => Z.testbit b 7 :: topBits k (shl8 b) end.

Lemma topBits_byte b : isByte b -> topBits 8 b = map (fun i => Z.testbit b i) [7; 6; 5; 4; 3; 2; 1; 0] /\ Nat.iter 8 shl8 b = 0.
Proof.
  intros Hb. assert (forallb (fun b => bool_decide (topBits 8 b = map (fun i => Z.testbit b i) [7; 6; 5; 4; 3; 2; 1; 0] /\ Nat.iter 8 shl8 b = 0)) (seqZ 0 256) = true) as HF
    by (vm_compute; reflexivity).
  rewrite forallb_forall in HF. apply (bool_decide_eq_true (_ /\ _)), HF, list_elem_of_In, elem_of_seqZ. unfold isByte in Hb. lia.
Qed.

Lemma iter_serial k crc b : 0 <= crc < 2 ^ 32 -> isByte b ->
  Nat.iter k crcBit (Z.lxor crc (shl32 b 24)) = Z.lxor (foldl crcSerial crc (topBits k b)) (shl32 (Nat.iter k shl8 b) 24).
Proof.
  revert crc b. induction k as [|k IH]; intros crc b Hc Hb; [done|]. rewrite !Nat.iter_succ_r, crcBit_serial by done.
  cbn [topBits foldl]. apply IH; [apply crcSerial_word|apply land255_byte].
Qed.

Lemma crcByte_serial crc b : 0 <= crc < 2 ^ 32 -> isByte b -> crcByte crc b = foldl crcSerial crc (map (fun i => Z.testbit b i) [7; 6; 5; 4; 3; 2; 1; 0]).
Proof.
  intros Hc Hb. destruct (topBits_byte b Hb) as [<- H0]. rewrite crcByte_iter, iter_serial, H0 by done. change (shl32 0 24) with 0. by rewrite Z.lxor_0_r.
Qed.

Lemma crc_states data crc : 0 <= crc < 2 ^ 32 -> bytesOk data ->
  foldl crcByte crc data = foldl crcSerial crc (messageBits data) /\ 0 <= foldl crcByte crc data < 2 ^ 32.
Proof.
  revert crc. induction data as [|b data IH]; intros crc Hc Hd; [done|]. apply Forall_cons in Hd as [Hb Hd].
  cbn [foldl]. unfold messageBits. rewrite bind_cons, foldl_app. fold (messageBits data). rewrite <-crcByte_serial by done.
  apply IH; [by apply crcByte_word|done].
Qed.

Lemma oggCRC_word data : bytesOk data -> 0 <= oggCRC data < 2 ^ 32.
Proof. intros Hd. by apply crc_states. Qed.

(** The table-driven checksum of the code equals the bit-serial CRC register run
    over the bits of the message, for every byte string. *)
Theorem oggCRC_reference data : bytesOk data -> oggCRC data = crcReference data.
Proof. intros Hd. by apply crc_states. Qed.

Lemma oggCRC_reference_witness : oggCRC [79; 103; 103; 83; 0; 255] = crcReference [79; 103; 103; 83; 0; 255].
Proof. apply oggCRC_reference. repeat constructor; done. Defined.

(** ** Error detection *)
Lemma crcBit_inj x y : 0 <= x < 2 ^ 32 -> 0 <= y < 2 ^ 32 -> crcBit x = crcBit y -> x = y.
Proof.
  intros Hx Hy E. rewrite !crcBit_eq in E.
  assert (Z.testbit x 31 = Z.testbit y 31) as Htop.
  { apply (f_equal (fun z => Z.testbit z 0)) in E. rewrite !Z.lxor_spec, !shl32_spec in E by done. change (0 - 1) with (-1) in E.
    rewrite !Z.testbit_neg_r, !andb_false_r, !xorb_false_l in E by done. by destruct (Z.testbit x 31), (Z.testbit y 31). }
  rewrite Htop in E. apply (f_equal (fun z => Z.lxor z (if Z.testbit y 31 then polynomial else 0))) in E.
  rewrite !Z.lxor_assoc, !Z.lxor_nilpotent, !Z.lxor_0_r in E. apply Z.bits_inj'. intros i Hi.
  destruct (Z.lt_trichotomy i 31) as [Hlt|[->|Hgt]]; [|done|by rewrite !testbit_word by lia].
  apply (f_equal (fun z => Z.testbit z (i + 1))) in E. rewrite !shl32_spec in E by done.
  rewrite (proj2 (Z.leb_le 0 (i + 1))), (proj2 (Z.ltb_lt (i + 1) 32)) in E by lia. by replace (i + 1 - 1) with i in E by lia.
Qed.

Lemma iter_inj k x y : 0 <= x < 2 ^ 32 -> 0 <= y < 2 ^ 32 -> Nat.iter k crcBit x = Nat.iter k crcBit y -> x = y.
Proof.
  revert x y. induction k as [|k IH]; intros x y Hx Hy; [done|]. rewrite !Nat.iter_succ_r. intros E%IH; [|apply crcBit_word..]. by apply crcBit_inj.
Qed.

Lemma crcByte_inj_register x y b : 0 <= x < 2 ^ 32 -> 0 <= y < 2 ^ 32 -> isByte b -> crcByte x b = crcByte y b -> x = y.
Proof.
  intros Hx Hy Hb. rewrite !crcByte_iter by done. intros E%iter_inj; [|apply lxor_word; [done|by apply shl32_word]..].
  apply (f_equal (fun z => Z.lxor z (shl32 b 24))) in E. by rewrite !Z.lxor_assoc, Z.lxor_nilpotent, !Z.lxor_0_r in E.
Qed.

Lemma crcByte_inj_byte x b c : 0 <= x < 2 ^ 32 -> isByte b -> isByte c -> crcByte x b = crcByte x c -> b = c.
Proof.
  intros Hx Hb Hc. rewrite !crcByte_iter by done. intros E%iter_inj; [|apply lxor_word; [done|by apply shl32_word]..].
  apply (f_equal (Z.lxor x)) in E. rewrite <-!Z.lxor_assoc, !Z.lxor_nilpotent, !Z.lxor_0_l in E.
  unfold shl32 in E. rewrite !Z.land_ones, !Z.shiftl_mul_pow2 in E by done. unfold isByte in *. rewrite !Z.mod_small in E by (change (2 ^ 24) with 16777216; change (2 ^ 32) with 4294967296; lia).
  change (2 ^ 24) with 16777216 in E. lia.
Qed.

Lemma crc_tail_inj data x y : 0 <= x < 2 ^ 32 -> 0 <= y < 2 ^ 32 -> bytesOk data -> foldl crcByte x data = foldl crcByte y data -> x = y.
Proof.
  revert x y. induction data as [|b data IH]; intros x y Hx Hy Hd; [done|]. apply Forall_cons in Hd as [Hb Hd]. cbn [foldl].
  intros E%IH; [|by apply crcByte_word..|done]. by eapply crcByte_inj_register.
Qed.

(** Messages that differ in one byte have different checksums. *)
Lemma crc_one_byte pre b c post : bytesOk pre -> isByte b -> isByte c -> bytesOk post -> b <> c -> oggCRC (pre ++ b :: post) <> oggCRC (pre ++ c :: post).
Proof.
  intros Hp Hb Hc Hq Hne E. unfold oggCRC in E. rewrite !foldl_app in E. cbn [foldl] in E. pose proof (oggCRC_word pre Hp) as Hw. unfold oggCRC in Hw.
  apply crc_tail_inj in E; [|by apply crcByte_word..|done]. apply crcByte_inj_byte in E; done.
Qed.
