(* ===== verification/OggPageProps.v ===== *)
(** * ogg: parsing and printing pages

    Parsing accepts exactly the printed pages: [parse_iff] characterizes the parser
    by the printer, and the round trips in both directions, the totality of the
    parsers on arbitrary bytes and the detection of corrupted pages follow. *)

From stdpp Require Import list.
From S2P Require Import Prelude GoBytes OggPage OggCRC.

Open Scope Z_scope.

(** The fields hold what their Go types hold. *)
Definition pageOk (p : Page) : Prop :=
  isByte (pg_Version p) /\ isByte (pg_HeaderType p) /\ uintOk 64 (pg_GranulePosition p) /\ uintOk 32 (pg_BitstreamSerial p) /\
  uintOk 32 (pg_PageSequence p) /\ uintOk 32 (pg_Checksum p) /\ bytesOk (pg_Segments p) /\ bytesOk (pg_Payload p).

(** A page that the parser returns: valid, and carrying its own checksum. *)
Definition sealed (p : Page) : Prop := pageOk p /\ Page_Validate (Some p) = Ret tt /\ pg_Checksum p = oggCRC (pageBytes p 0).

(** The page with its checksum filled in. *)
Definition seal (p : Page) : Page :=
  MkPage (pg_Version p) (pg_HeaderType p) (pg_GranulePosition p) (pg_BitstreamSerial p) (pg_PageSequence p)
    (oggCRC (pageBytes p 0)) (pg_Segments p) (pg_Payload p).

Lemma validate_Ret p : Page_Validate (Some p) = Ret tt <->
  pg_Version p = 0 /\ Z.ldiff (pg_HeaderType p) 7 = 0 /\ (length (pg_Segments p) <= 255)%nat /\ sumBytes (pg_Segments p) = length (pg_Payload p).
Proof.
  unfold Page_Validate. change (Z.lor (Z.lor HeaderTypeContinued HeaderTypeBOS) HeaderTypeEOS) with 7. unfold maxPageSegments. split.
  - intros ([] & H1%check_Ret%negb_false_iff%Z.eqb_eq & HH)%bind_Ret. apply bind_Ret in HH as ([] & H2%check_Ret%negb_false_iff%Z.eqb_eq & HH).
    apply bind_Ret in HH as ([] & H3%check_Ret%Nat.ltb_ge & H4%check_Ret%negb_false_iff%Nat.eqb_eq). done.
  - intros (-> & -> & H3 & ->). rewrite Nat.eqb_refl, (proj2 (Nat.ltb_ge _ _)) by done. done.
Qed.

Lemma validate_not_Panic p : Page_Validate p <> Panic.
Proof.
  destruct p as [p|]; [|done]. unfold Page_Validate, check.
  destruct (negb (pg_Version p =? 0)); [done|]. cbn [mbind Go_bind]. destruct (negb (Z.ldiff _ _ =? 0)); [done|]. cbn [mbind Go_bind].
  destruct (_ <? _)%nat; [done|]. cbn [mbind Go_bind]. by destruct (negb (_ =? _)%nat).
Qed.

Lemma pageBytes_ok p c : pageOk p -> bytesOk (pageBytes p c).
Proof.
  intros (H1 & H2 & _ & _ & _ & _ & H7 & H8). unfold pageBytes, bytesOk in *. rewrite !Forall_app. split_and!; try apply putLE_ok; try done.
  all: repeat (constructor; [first [done | apply Z.mod_pos_bound; lia]|]); constructor.
Qed.

Lemma length_pageBytes p c : length (pageBytes p c) = (27 + length (pg_Segments p) + length (pg_Payload p))%nat.
Proof. unfold pageBytes. rewrite !length_app, !length_putLE. cbn [length CapturePattern]. lia. Qed.

(** ** The parser in normal form *)
Section header.
Context (b0 b1 b2 b3 b4 b5 b6 b7 b8 b9 b10 b11 b12 b13 b14 b15 b16 b17 b18 b19 b20 b21 b22 b23 b24 b25 b26 : Z) (tl : Bytes).

Local Abbreviation header := [b0; b1; b2; b3; b4; b5; b6; b7; b8; b9; b10; b11; b12; b13; b14; b15; b16; b17; b18; b19; b20; b21; b22; b23; b24; b25; b26].
Local Abbreviation segs := (take (Z.to_nat b26) tl).
Local Abbreviation payload := (take (sumBytes segs) (drop (Z.to_nat b26) tl)).

Lemma parse_normal :
  parsePagePrefix (header ++ tl) =
  (_ ← check (negb (bool_decide ([b0; b1; b2; b3] = CapturePattern))) "invalid capture pattern"%string;
   _ ← check (negb (b4 =? 0)) "unsupported version"%string;
   _ ← check (length tl <? Z.to_nat b26)%nat "truncated segment table"%string;
   _ ← check (length tl <? Z.to_nat b26 + sumBytes segs)%nat "truncated payload"%string;
   let p := MkPage b4 b5 (getLE [b6; b7; b8; b9; b10; b11; b12; b13]) (getLE [b14; b15; b16; b17]) (getLE [b18; b19; b20; b21]) (getLE [b22; b23; b24; b25]) segs payload in
   _ ← check (negb (oggCRC ([b0; b1; b2; b3; b4; b5; b6; b7; b8; b9; b10; b11; b12; b13; b14; b15; b16; b17; b18; b19; b20; b21; 0; 0; 0; 0; b26] ++ segs ++ payload) =? pg_Checksum p)) "checksum mismatch"%string;
   _ ← Page_Validate (Some p);
   Ret (p, 27 + Z.to_nat b26 + sumBytes segs)%nat).
Proof.
  unfold parsePagePrefix, pageHeaderSize. set (x := Z.to_nat b26).
  replace (length (header ++ tl) <? 27)%nat with false by (symmetry; apply Nat.ltb_ge; rewrite length_app; cbn [length]; lia). cbn [check mbind Go_bind].
  change (slice (header ++ tl) 0 4) with (Ret (E := oggError) [b0; b1; b2; b3]). cbn [mbind Go_bind].
  destruct (negb (bool_decide _)); [done|]. cbn [check mbind Go_bind].
  change (index (header ++ tl) 4) with (Ret (E := oggError) b4). cbn [mbind Go_bind]. destruct (negb (b4 =? 0)); [done|]. cbn [check mbind Go_bind].
  change (index (header ++ tl) 26) with (Ret (E := oggError) b26). cbn [mbind Go_bind]. fold x.
  assert (forall y, (length (header ++ tl) <? 27 + y)%nat = (length tl <? y)%nat) as HL by done. rewrite HL.
  destruct (Nat.ltb_spec (length tl) x) as [Hlt|Hge]; [done|]. cbn [check mbind Go_bind].
  rewrite slice_ok by (rewrite length_app; cbn [length]; lia). cbn [mbind Go_bind]. replace (27 + x - 27)%nat with x by lia.
  change (drop 27 (header ++ tl)) with tl. rewrite <-Nat.add_assoc, HL. destruct (Nat.ltb_spec (length tl) (x + sumBytes (take x tl))) as [Hlt|Hge2]; [done|]. cbn [check mbind Go_bind].
  set (s := sumBytes (take x tl)) in *. rewrite slice_ok by (rewrite length_app; cbn [length]; lia). cbn [mbind Go_bind]. rewrite Nat.sub_0_r, drop_0.
  assert (take (27 + (x + s)) (header ++ tl) = header ++ take x tl ++ take s (drop x tl)) as ->.
  { rewrite take_app_ge by (cbn [length]; lia). f_equal. change (length header) with 27%nat. replace (27 + (x + s) - 27)%nat with (x + s)%nat by lia.
    rewrite <-(take_drop x tl) at 1. rewrite take_app_ge by (rewrite length_take; lia). f_equal. f_equal. rewrite length_take. lia. }
  set (rest := take x tl ++ take s (drop x tl)). assert (length rest = (x + s)%nat) as Hrest by (unfold rest; rewrite length_app, !length_take, length_drop; lia).
  change (slice (header ++ rest) 22 26) with (Ret (E := oggError) [b22; b23; b24; b25]).
  change (zeroChecksum (header ++ rest)) with ([b0; b1; b2; b3; b4; b5; b6; b7; b8; b9; b10; b11; b12; b13; b14; b15; b16; b17; b18; b19; b20; b21; 0; 0; 0; 0; b26] ++ rest).
  cbn [mbind Go_bind pg_Checksum]. destruct (negb (oggCRC _ =? _)); [done|]. cbn [check mbind Go_bind].
  change (index (header ++ rest) 5) with (Ret (E := oggError) b5). change (slice (header ++ rest) 6 14) with (Ret (E := oggError) [b6; b7; b8; b9; b10; b11; b12; b13]).
  change (slice (header ++ rest) 14 18) with (Ret (E := oggError) [b14; b15; b16; b17]). change (slice (header ++ rest) 18 22) with (Ret (E := oggError) [b18; b19; b20; b21]).
  cbn [mbind Go_bind]. rewrite !slice_ok by (rewrite length_app; cbn [length]; lia). cbn [mbind Go_bind].
  replace (27 + x - 27)%nat with x by lia. change (drop 27 (header ++ rest)) with rest. change (drop (27 + x) (header ++ rest)) with (drop x rest).
  replace (27 + (x + s) - (27 + x))%nat with s by lia. unfold rest. rewrite take_app_le by (rewrite length_take; lia). rewrite take_take, Nat.min_id.
  rewrite drop_app_ge by (rewrite length_take; lia). rewrite length_take. replace (x - x `min` length tl)%nat with 0%nat by lia. rewrite drop_0, take_take, Nat.min_id. done.
Qed.
End header.

(** ** What the parser accepts *)
Lemma short_header raw : (length raw < 27)%nat -> parsePagePrefix raw = Fail "too short header"%string.
Proof. intros H. unfold parsePagePrefix, pageHeaderSize. by rewrite (proj2 (Nat.ltb_lt _ _)). Qed.

Ltac split_header raw H :=
  do 27 (destruct raw as [|? raw]; [exfalso; cbn [length] in H; lia|]).

Lemma getLE_4 a b c d : bytesOk [a; b; c; d] -> putLE 4 (getLE [a; b; c; d]) = [a; b; c; d].
Proof. intros H. exact (putLE_getLE [a; b; c; d] H). Qed.
Lemma getLE_8 a b c d e f g h : bytesOk [a; b; c; d; e; f; g; h] -> putLE 8 (getLE [a; b; c; d; e; f; g; h]) = [a; b; c; d; e; f; g; h].
Proof. intros H. exact (putLE_getLE [a; b; c; d; e; f; g; h] H). Qed.

Section fields.
Context (b4 b5 b6 b7 b8 b9 b10 b11 b12 b13 b14 b15 b16 b17 b18 b19 b20 b21 b22 b23 b24 b25 : Z) (segs payload : Bytes).
Context (Hok : bytesOk ([b4; b5] ++ [b6; b7; b8; b9; b10; b11; b12; b13] ++ [b14; b15; b16; b17] ++ [b18; b19; b20; b21] ++ [b22; b23; b24; b25])).

Local Abbreviation page := (MkPage b4 b5 (getLE [b6; b7; b8; b9; b10; b11; b12; b13]) (getLE [b14; b15; b16; b17]) (getLE [b18; b19; b20; b21]) (getLE [b22; b23; b24; b25]) segs payload).

Lemma fields_ok : bytesOk segs -> bytesOk payload -> pageOk page.
Proof.
  intros Hs Hp. unfold bytesOk in Hok. rewrite !Forall_app in Hok. destruct Hok as (H1 & H2 & H3 & H4 & H5). apply Forall_cons in H1 as [? H1]. apply Forall_cons in H1 as [? _].
  split_and!; cbn [pg_Version pg_HeaderType pg_GranulePosition pg_BitstreamSerial pg_PageSequence pg_Checksum pg_Segments pg_Payload]; try done.
  - apply (getLE_bound [_; _; _; _; _; _; _; _] H2).
  - apply (getLE_bound [_; _; _; _] H3).
  - apply (getLE_bound [_; _; _; _] H4).
  - apply (getLE_bound [_; _; _; _] H5).
Qed.

Lemma fields_bytes c0 c1 c2 c3 c : putLE 4 c = [c0; c1; c2; c3] ->
  pageBytes page c = [79; 103; 103; 83; b4; b5; b6; b7; b8; b9; b10; b11; b12; b13; b14; b15; b16; b17; b18; b19; b20; b21; c0; c1; c2; c3; Z.of_nat (length segs) `mod` 256] ++ segs ++ payload.
Proof.
  intros Hc. unfold bytesOk in Hok. rewrite !Forall_app in Hok. destruct Hok as (H1 & H2 & H3 & H4 & H5). unfold pageBytes.
  cbn [pg_Version pg_HeaderType pg_GranulePosition pg_BitstreamSerial pg_PageSequence pg_Checksum pg_Segments pg_Payload].
  by rewrite Hc, getLE_8, (getLE_4 b14), (getLE_4 b18).
Qed.

Lemma fields_checksum : putLE 4 (getLE [b22; b23; b24; b25]) = [b22; b23; b24; b25].
Proof. unfold bytesOk in Hok. rewrite !Forall_app in Hok. apply getLE_4. apply Hok. Qed.
End fields.

(** A parsed page, printed, is the input it was parsed from. *)
Lemma parse_sound raw p n :
  bytesOk raw -> parsePagePrefix raw = Ret (p, n) ->
  sealed p /\ n = length (pageBytes p (pg_Checksum p)) /\ exists rest, raw = pageBytes p (pg_Checksum p) ++ rest.
Proof.
  intros Hok HP. destruct (Nat.lt_ge_cases (length raw) 27) as [Hs|Hs]; [by rewrite short_header in HP|].
  destruct raw as [|b0 [|b1 [|b2 [|b3 [|b4 [|b5 [|b6 [|b7 [|b8 [|b9 [|b10 [|b11 [|b12 [|b13 [|b14 [|b15 [|b16 [|b17 [|b18 [|b19 [|b20 [|b21 [|b22 [|b23 [|b24 [|b25 [|b26 tl]]]]]]]]]]]]]]]]]]]]]]]]]]];
    try (exfalso; cbn [length] in Hs; lia).
  change (parsePagePrefix ([b0; b1; b2; b3; b4; b5; b6; b7; b8; b9; b10; b11; b12; b13; b14; b15; b16; b17; b18; b19; b20; b21; b22; b23; b24; b25; b26] ++ tl) = Ret (p, n)) in HP.
  rewrite parse_normal in HP. apply bind_Ret in HP as ([] & [= -> -> -> ->]%check_Ret%negb_false_iff%bool_decide_eq_true & HP).
  apply bind_Ret in HP as ([] & ->%check_Ret%negb_false_iff%Z.eqb_eq & HP). apply bind_Ret in HP as ([] & Hseg%check_Ret%Nat.ltb_ge & HP).
  apply bind_Ret in HP as ([] & Hpay%check_Ret%Nat.ltb_ge & HP). cbn zeta in HP. apply bind_Ret in HP as ([] & Hcrc%check_Ret%negb_false_iff%Z.eqb_eq & HP).
  apply bind_Ret in HP as ([] & Hv & [= <- <-]). cbn [pg_Checksum] in *.
  set (segs := take (Z.to_nat b26) tl) in *. set (payload := take (sumBytes segs) (drop (Z.to_nat b26) tl)) in *.
  assert (bytesOk ([0; b5] ++ [b6; b7; b8; b9; b10; b11; b12; b13] ++ [b14; b15; b16; b17] ++ [b18; b19; b20; b21] ++ [b22; b23; b24; b25]) /\ isByte b26 /\ bytesOk tl) as (Hf & Hcnt & Htl).
  { unfold bytesOk in *. repeat (apply Forall_cons in Hok as [?Hb Hok]). split_and!; [|done|done]. cbn [app].
    repeat (apply Forall_cons; split; [assumption|]). constructor. }
  unfold isByte in Hcnt. assert (length segs = Z.to_nat b26) as HLs by (unfold segs; rewrite length_take; lia).
  assert (length payload = sumBytes segs) as HLp by (unfold payload; rewrite length_take, length_drop; lia).
  assert (Z.of_nat (length segs) `mod` 256 = b26) as Hmod by (rewrite HLs, Z2Nat.id, Z.mod_small; lia).
  pose proof (fields_bytes _ _ _ _ _ _ _ _ _ _ _ _ _ _ _ _ _ _ _ _ _ _ segs payload Hf b22 b23 b24 b25 _ (fields_checksum _ _ _ _ _ _ _ _ _ _ _ _ _ _ _ _ _ _ _ _ _ _ Hf)) as HB.
  pose proof (fields_bytes _ _ _ _ _ _ _ _ _ _ _ _ _ _ _ _ _ _ _ _ _ _ segs payload Hf 0 0 0 0 0 eq_refl) as H0. rewrite Hmod in HB, H0.
  split_and!.
  - split; [apply fields_ok; [done|by apply bytesOk_take|by apply bytesOk_take, bytesOk_drop]|]. split; [done|].
    refine (eq_trans (eq_sym Hcrc) _). f_equal. symmetry. exact H0.
  - rewrite length_pageBytes. cbn [pg_Segments pg_Payload]. lia.
  - exists (drop (Z.to_nat b26 + sumBytes segs) tl). refine (eq_trans _ (f_equal (fun x => x ++ _) (eq_sym HB))). rewrite <-app_assoc. cbn [app]. do 27 f_equal.
    rewrite <-app_assoc. unfold payload. rewrite <-drop_drop, take_drop. unfold segs. by rewrite take_drop.
Qed.

Lemma getLE_small n w v : uintOk w v -> w = 8 * Z.of_nat n -> getLE (putLE n v) = v.
Proof. intros Hv ->. rewrite getLE_putLE. apply Z.mod_small. unfold uintOk in Hv. rewrite Z.pow_mul_r in Hv by lia. exact Hv. Qed.

(** A sealed page, printed, parses back whatever follows it. *)
Lemma parse_complete p rest :
  sealed p -> parsePagePrefix (pageBytes p (pg_Checksum p) ++ rest) = Ret (p, length (pageBytes p (pg_Checksum p))).
Proof.
  intros (Hok & Hv & Hc). rewrite length_pageBytes. pose proof (proj1 (validate_Ret p) Hv) as (Hver & Hht & Hlen & Hsum). destruct p as [ver ht g se sq ck segs payload].
  cbn [pg_Version pg_HeaderType pg_GranulePosition pg_BitstreamSerial pg_PageSequence pg_Checksum pg_Segments pg_Payload] in *. subst ver.
  destruct Hok as (_ & _ & Hg & Hse & Hsq & Hck & _ & _). cbn [pg_GranulePosition pg_BitstreamSerial pg_PageSequence pg_Checksum] in *.
  pose proof (getLE_small 8 64 g Hg eq_refl) as Eg. pose proof (getLE_small 4 32 se Hse eq_refl) as Ese.
  pose proof (getLE_small 4 32 sq Hsq eq_refl) as Esq. pose proof (getLE_small 4 32 ck Hck eq_refl) as Eck.
  assert (exists a0 a1 a2 a3 a4 a5 a6 a7, putLE 8 g = [a0; a1; a2; a3; a4; a5; a6; a7]) as (a0 & a1 & a2 & a3 & a4 & a5 & a6 & a7 & Pg) by (do 8 eexists; reflexivity).
  assert (exists c0 c1 c2 c3, putLE 4 se = [c0; c1; c2; c3]) as (c0 & c1 & c2 & c3 & Pse) by (do 4 eexists; reflexivity).
  assert (exists d0 d1 d2 d3, putLE 4 sq = [d0; d1; d2; d3]) as (d0 & d1 & d2 & d3 & Psq) by (do 4 eexists; reflexivity).
  assert (exists e0 e1 e2 e3, putLE 4 ck = [e0; e1; e2; e3]) as (e0 & e1 & e2 & e3 & Pck) by (do 4 eexists; reflexivity).
  unfold pageBytes in Hc |- *. cbn [pg_Version pg_HeaderType pg_GranulePosition pg_BitstreamSerial pg_PageSequence pg_Checksum pg_Segments pg_Payload] in *.
  rewrite Pg, Pse, Psq in Hc |- *. rewrite Pck. rewrite Pg in Eg. rewrite Pse in Ese. rewrite Psq in Esq. rewrite Pck in Eck. rewrite <-!app_assoc.
  rewrite Z.mod_small in Hc |- * by lia. set (tl := segs ++ payload ++ rest). change (putLE 4 0) with [0; 0; 0; 0] in Hc.
  refine (eq_trans (parse_normal 79 103 103 83 0 ht a0 a1 a2 a3 a4 a5 a6 a7 c0 c1 c2 c3 d0 d1 d2 d3 e0 e1 e2 e3 (Z.of_nat (length segs)) tl) _).
  rewrite Nat2Z.id. assert (take (length segs) tl = segs) as -> by (unfold tl; by rewrite take_app_length).
  assert (take (sumBytes segs) (drop (length segs) tl) = payload) as -> by (unfold tl; rewrite drop_app_length, Hsum; by rewrite take_app_length).
  rewrite Eg, Ese, Esq, Eck. cbn [pg_Checksum]. rewrite bool_decide_eq_true_2 by done. cbn [negb check mbind Go_bind Z.eqb].
  rewrite (proj2 (Nat.ltb_ge _ _)) by (unfold tl; rewrite !length_app; lia). cbn [check mbind Go_bind].
  rewrite (proj2 (Nat.ltb_ge _ _)) by (unfold tl; rewrite !length_app; lia). cbn [check mbind Go_bind].
  rewrite Hc, Z.eqb_refl. cbn [negb check mbind Go_bind]. rewrite <-Hc. rewrite Hv. cbn [mbind Go_bind]. do 2 f_equal. lia.
Qed.

Lemma pageBytes_seal p c : pageBytes (seal p) c = pageBytes p c.
Proof. done. Qed.

Lemma seal_sealed p : pageOk p -> Page_Validate (Some p) = Ret tt -> sealed (seal p).
Proof.
  intros Hok Hv. pose proof (oggCRC_word _ (pageBytes_ok p 0 Hok)) as Hc. destruct Hok as (? & ? & ? & ? & ? & _ & ? & ?).
  split; [by split_and!|done].
Qed.

Lemma Marshal_Ret p raw : MarshalBinary (Some p) = Ret raw <-> Page_Validate (Some p) = Ret tt /\ raw = pageBytes p (pg_Checksum (seal p)).
Proof.
  unfold MarshalBinary. split; [intros ([] & ? & [= <-])%bind_Ret; done|]. by intros [-> ->].
Qed.

Lemma ParsePage_iff raw p : bytesOk raw -> ParsePage raw = Ret p <-> sealed p /\ raw = pageBytes p (pg_Checksum p).
Proof.
  intros Hok. unfold ParsePage. split.
  - intros ([q n] & HP & HH)%bind_Ret. apply bind_Ret in HH as ([] & Hn%check_Ret%negb_false_iff%Nat.eqb_eq & [= <-]).
    apply parse_sound in HP as (Hs & -> & rest & ->); [|done]. split; [done|]. rewrite length_app in Hn.
    destruct rest as [|x rest]; [by rewrite app_nil_r|cbn in Hn; lia].
  - intros [Hs ->]. rewrite <-(app_nil_r (pageBytes _ _)) at 1. rewrite parse_complete by done. cbn [mbind Go_bind]. by rewrite Nat.eqb_refl.
Qed.

(** Printing and parsing a page are inverse to each other: a page that
    [MarshalBinary] accepts parses back to itself with its checksum filled in, and
    bytes that [ParsePage] accepts are exactly what [MarshalBinary] prints for the
    page it returned. *)
Theorem Page_roundtrip p raw :
  (pageOk p -> MarshalBinary (Some p) = Ret raw -> ParsePage raw = Ret (seal p)) /\
  (bytesOk raw -> ParsePage raw = Ret p -> MarshalBinary (Some p) = Ret raw).
Proof.
  split.
  - intros Hok [Hv ->]%Marshal_Ret. apply ParsePage_iff; [by apply pageBytes_ok|]. split; [by apply seal_sealed|done].
  - intros Hok ((_ & Hv & Hc) & Hraw)%ParsePage_iff; [|done]. apply Marshal_Ret. split; [done|]. rewrite Hraw, Hc. done.
Qed.

Lemma parse_not_Panic raw : parsePagePrefix raw <> Panic.
Proof.
  destruct (Nat.lt_ge_cases (length raw) 27) as [Hs|Hs]; [by rewrite short_header|].
  destruct raw as [|b0 [|b1 [|b2 [|b3 [|b4 [|b5 [|b6 [|b7 [|b8 [|b9 [|b10 [|b11 [|b12 [|b13 [|b14 [|b15 [|b16 [|b17 [|b18 [|b19 [|b20 [|b21 [|b22 [|b23 [|b24 [|b25 [|b26 tl]]]]]]]]]]]]]]]]]]]]]]]]]]];
    try (exfalso; cbn [length] in Hs; lia).
  intros HP. pose proof (parse_normal b0 b1 b2 b3 b4 b5 b6 b7 b8 b9 b10 b11 b12 b13 b14 b15 b16 b17 b18 b19 b20 b21 b22 b23 b24 b25 b26 tl) as HN.
  revert HP. refine (eq_rect_r (fun x => x = Panic -> False) _ HN). do 4 apply check_not_Panic. cbn zeta. apply check_not_Panic.
  destruct (Page_Validate _) as [[]|e|] eqn:Hv; [done|done|by apply validate_not_Panic in Hv].
Qed.

(** C35: The page parser is safe on any input: it never indexes or slices out of range,
    and what it returns has the types of the fields, is valid, and consumes at least
    a header and no more than the input. *)
Theorem parsePagePrefix_typed raw :
  parsePagePrefix raw <> Panic /\
  forall p n, bytesOk raw -> parsePagePrefix raw = Ret (p, n) -> pageOk p /\ Page_Validate (Some p) = Ret tt /\ (27 <= n <= length raw)%nat.
Proof.
  split; [apply parse_not_Panic|]. intros p n Hok HP. destruct (parse_sound raw p n Hok HP) as ((H1 & H2 & _) & -> & rest & Hr).
  split_and!; [done|done|rewrite length_pageBytes; lia|]. rewrite Hr, length_app. lia.
Qed.

(** ** Corrupted pages *)
Lemma sealed_checksum p : sealed p ->
  let raw := pageBytes p (pg_Checksum p) in oggCRC (zeroChecksum raw) = getLE (take 4 (drop 22 raw)) /\ (27 <= length raw)%nat.
Proof.
  intros (Hok & Hv & Hc). split; [|rewrite length_pageBytes; lia]. destruct Hok as (_ & _ & _ & _ & _ & Hck & _).
  assert (forall c, zeroChecksum (pageBytes p c) = pageBytes p 0) as -> by done.
  assert (take 4 (drop 22 (pageBytes p (pg_Checksum p))) = putLE 4 (pg_Checksum p)) as -> by done.
  rewrite (getLE_small 4 32) by done. done.
Qed.

Lemma lookup_zeroChecksum raw j : (26 <= length raw)%nat ->
  zeroChecksum raw !! j = if decide (22 <= j < 26)%nat then Some 0 else raw !! j.
Proof.
  intros HL. unfold zeroChecksum. destruct (Nat.lt_ge_cases j 22) as [Hlt|Hge].
  - rewrite lookup_app_l, lookup_take_lt by (rewrite ?length_take; lia). rewrite decide_False by lia. done.
  - rewrite lookup_app_r by (rewrite length_take; lia). rewrite length_take, Nat.min_l by lia.
    destruct (decide (22 <= j < 26)%nat) as [Hin|Hout].
    + rewrite lookup_app_l by (cbn; lia). assert (j = 22 \/ j = 23 \/ j = 24 \/ j = 25)%nat as [->|[->|[->| ->]]] by lia; done.
    + rewrite lookup_app_r by (cbn; lia). cbn [length]. rewrite lookup_drop. f_equal. lia.
Qed.

Lemma zeroChecksum_insert raw i b : (26 <= length raw)%nat -> (22 <= i < 26)%nat -> zeroChecksum (<[i := b]> raw) = zeroChecksum raw.
Proof.
  intros HL Hi. apply list_eq. intros j. rewrite !lookup_zeroChecksum by (rewrite ?length_insert; done). destruct (decide _); [done|]. by rewrite list_lookup_insert_ne by lia.
Qed.

Lemma zeroChecksum_split raw i x b : (26 <= length raw)%nat -> raw !! i = Some x -> ~ (22 <= i < 26)%nat ->
  exists pre post, zeroChecksum raw = pre ++ x :: post /\ zeroChecksum (<[i := b]> raw) = pre ++ b :: post.
Proof.
  intros HL Hx Hi. set (z := zeroChecksum raw). assert (z !! i = Some x) as Hz by (unfold z; rewrite lookup_zeroChecksum by done; by rewrite decide_False).
  exists (take i z), (drop (S i) z). split; [by rewrite take_drop_middle|].
  rewrite <-insert_take_drop by (apply lookup_lt_is_Some_1; by exists x). apply list_eq. intros j. rewrite lookup_zeroChecksum by (by rewrite length_insert).
  assert (i < length z)%nat by (apply lookup_lt_is_Some_1; by exists x). assert (i < length raw)%nat by (apply lookup_lt_is_Some_1; by exists x).
  destruct (decide (j = i)) as [->|Hne]; [by rewrite decide_False, !list_lookup_insert_eq by done|].
  rewrite !list_lookup_insert_ne by done. unfold z. by rewrite lookup_zeroChecksum.
Qed.

(** C40: Any single corrupted byte of a page, wherever it is, makes [ParsePage] fail: no
    page is returned for a page's bytes with exactly one of them changed. *)
Theorem corrupt_byte_rejected raw p i b :
  bytesOk raw -> ParsePage raw = Ret p -> (i < length raw)%nat -> isByte b -> raw !! i <> Some b -> exists e, ParsePage (<[i := b]> raw) = Fail e.
Proof.
  intros Hok HP Hi Hb Hne. apply ParsePage_iff in HP as [Hs Hraw]; [|done]. pose proof (sealed_checksum p Hs) as [Hcrc Hlen]. cbn zeta in *. rewrite <-Hraw in *.
  assert (bytesOk (<[i := b]> raw)) as Hok' by (by apply Forall_insert).
  destruct (ParsePage (<[i := b]> raw)) as [p'|e|] eqn:HP'; [|by eexists|].
  - exfalso. apply ParsePage_iff in HP' as [Hs' Hraw']; [|done]. pose proof (sealed_checksum p' Hs') as [Hcrc' _]. cbn zeta in *. rewrite <-Hraw' in *.
    destruct (lookup_lt_is_Some_2 raw i Hi) as [x Hx]. assert (isByte x) as Hbx by exact (Forall_lookup_1 _ _ _ _ Hok Hx).
    destruct (decide (22 <= i < 26)%nat) as [Hin|Hout].
    + rewrite zeroChecksum_insert, Hcrc in Hcrc' by lia. apply getLE_inj in Hcrc'; [|by apply bytesOk_take, bytesOk_drop..|rewrite !length_take, !length_drop, length_insert; done].
      apply Hne. apply (f_equal (fun l => l !! (i - 22)%nat)) in Hcrc'. rewrite !lookup_take_lt, !lookup_drop in Hcrc' by lia.
      replace (22 + (i - 22))%nat with i in Hcrc' by lia. rewrite list_lookup_insert_eq in Hcrc' by done. done.
    + destruct (zeroChecksum_split raw i x b) as (pre & post & E1 & E2); [lia|done|done|].
      assert (getLE (take 4 (drop 22 (<[i := b]> raw))) = getLE (take 4 (drop 22 raw))) as Esame.
      { f_equal. destruct (Nat.lt_ge_cases i 22); [by rewrite drop_insert_lt|]. rewrite drop_insert_ge by lia. by rewrite take_insert_ge by lia. }
      rewrite E2, Esame, <-Hcrc, E1 in Hcrc'.
      assert (bytesOk (zeroChecksum raw)) as Hz.
      { unfold zeroChecksum. apply Forall_app. split; [by apply bytesOk_take|]. apply Forall_app. split; [|by apply bytesOk_drop]. repeat (apply Forall_cons; split; [by split|]). constructor. }
      rewrite E1 in Hz. unfold bytesOk in Hz. apply Forall_app in Hz as [Hpre [_ Hpost]%Forall_cons].
      revert Hcrc'. apply crc_one_byte; [done..|]. intros ->. done.
  - exfalso. unfold ParsePage in HP'. destruct (parsePagePrefix (<[i := b]> raw)) as [[q n]|e|] eqn:HE; cbn in HP'; [|done|by apply parse_not_Panic in HE].
    by destruct (negb (n =? _)%nat).
Qed.

(** ** Streams of pages *)
Definition pageRaw (p : Page) : Bytes := pageBytes p (pg_Checksum p).
Definition streamOf (pages : list Page) : Bytes := concat (map pageRaw pages).

Lemma pageRaw_ok p : sealed p -> bytesOk (pageRaw p).
Proof. intros (Hok & _). by apply pageBytes_ok. Qed.

Lemma length_pageRaw p : (27 <= length (pageRaw p))%nat.
Proof. unfold pageRaw. rewrite length_pageBytes. lia. Qed.

Lemma streamOf_ok pages : Forall sealed pages -> bytesOk (streamOf pages).
Proof. induction 1 as [|p pages Hp _ IH]; [constructor|]. apply Forall_app. split; [by apply pageRaw_ok|done]. Qed.

Lemma length_streamOf pages : (27 * length pages <= length (streamOf pages))%nat.
Proof. induction pages as [|p pages IH]; [done|]. unfold streamOf in *. cbn [map concat length]. rewrite length_app. pose proof (length_pageRaw p). lia. Qed.

Lemma parseLoop_complete pages fuel acc : Forall sealed pages -> (length (streamOf pages) <= fuel)%nat ->
  parsePagesLoop fuel (streamOf pages) acc = Some (Ret (acc ++ pages)).
Proof.
  intros HS. revert fuel acc. induction HS as [|p pages Hp HS IH]; intros fuel acc Hf; [rewrite app_nil_r; by destruct fuel|].
  unfold streamOf in Hf |- *. cbn [map concat] in Hf |- *. fold (streamOf pages) in Hf |- *. rewrite length_app in Hf. pose proof (length_pageRaw p) as HL.
  destruct fuel as [|fuel]; [lia|]. cbn [parsePagesLoop]. destruct (pageRaw p ++ streamOf pages) as [|x raw] eqn:Hraw.
  { apply (f_equal length) in Hraw. rewrite length_app in Hraw. cbn in Hraw. lia. }
  rewrite <-Hraw. unfold pageRaw at 1. rewrite parse_complete by done. fold (pageRaw p). rewrite drop_app_length, IH by lia. by rewrite <-app_assoc.
Qed.

Lemma parseLoop_sound fuel stream acc : bytesOk stream -> (length stream <= fuel)%nat ->
  match parsePagesLoop fuel stream acc with
  | Some (Ret pages) => exists more, pages = acc ++ more /\ Forall sealed more /\ stream = streamOf more
  | Some (Fail _) => True
  | _ => False
  end.
Proof.
  revert stream acc. induction fuel as [|fuel IH]; intros stream acc Hok Hf.
  { destruct stream; [|cbn in Hf; lia]. cbn. exists []. by rewrite app_nil_r. }
  destruct stream as [|x stream]; [cbn; exists []; by rewrite app_nil_r|]. cbn [parsePagesLoop]. set (raw := x :: stream) in *.
  destruct (parsePagePrefix raw) as [[p n]|e|] eqn:HP; [|done|by apply parse_not_Panic in HP].
  destruct (parse_sound raw p n Hok HP) as (Hs & -> & rest & Hr). fold (pageRaw p) in *. rewrite Hr in *. rewrite drop_app_length.
  apply Forall_app in Hok as [_ Hok]. pose proof (length_pageRaw p). rewrite length_app in Hf. specialize (IH rest (acc ++ [p]) Hok ltac:(lia)).
  destruct (parsePagesLoop fuel rest (acc ++ [p])) as [[pages|e|]|]; try done. destruct IH as (more & -> & HS & ->).
  exists (p :: more). split_and!; [by rewrite <-app_assoc|by constructor|done].
Qed.

Lemma ParsePages_iff stream pages : bytesOk stream -> ParsePages stream = Some (Ret pages) <-> Forall sealed pages /\ stream = streamOf pages.
Proof.
  intros Hok. unfold ParsePages. split.
  - intros HP. pose proof (parseLoop_sound (length stream) stream [] Hok (le_n _)) as HS. rewrite HP in HS. by destruct HS as (more & -> & ? & ->).
  - intros [HS ->]. by apply (parseLoop_complete pages _ []).
Qed.

(** [ParsePages] terminates on every byte string without a panic: it returns the
    pages whose printed forms make up exactly the input, or an error when there are
    none. *)
Theorem ParsePages_total stream :
  bytesOk stream ->
  (exists pages, ParsePages stream = Some (Ret pages) /\ Forall sealed pages /\ stream = streamOf pages) \/
  (exists e, ParsePages stream = Some (Fail e) /\ ~ exists pages, Forall sealed pages /\ stream = streamOf pages).
Proof.
  intros Hok. destruct (ParsePages stream) as [[pages|e|]|] eqn:HP.
  - left. exists pages. split; [done|]. by apply ParsePages_iff.
  - right. exists e. split; [done|]. intros (pages & HH%ParsePages_iff); [|done]. by rewrite HP in HH.
  - exfalso. pose proof (parseLoop_sound (length stream) stream [] Hok (le_n _)) as HS. unfold ParsePages in HP. by rewrite HP in HS.
  - exfalso. pose proof (parseLoop_sound (length stream) stream [] Hok (le_n _)) as HS. unfold ParsePages in HP. by rewrite HP in HS.
Qed.

Lemma MarshalPages_spec pages stream : MarshalPages (map Some pages) = Ret stream -> Forall (fun p => Page_Validate (Some p) = Ret tt) pages /\ stream = streamOf (map seal pages).
Proof.
  unfold MarshalPages. assert (forall acc, foldGo (fun out p => _ ← check (bool_decide (p = None)) "page is nil"%string; raw ← MarshalBinary p; Ret (out ++ raw)) acc (map Some pages) = Ret stream ->
    Forall (fun p => Page_Validate (Some p) = Ret tt) pages /\ stream = acc ++ streamOf (map seal pages)) as HG; [|apply (HG [])].
  induction pages as [|p pages IH]; intros acc; cbn [map foldGo]; [intros [= <-]; by rewrite app_nil_r|].
  intros (out & HO & HR)%bind_Ret. apply bind_Ret in HO as ([] & _ & HO). apply bind_Ret in HO as (raw & [Hv ->]%Marshal_Ret & [= <-]).
  apply IH in HR as [HF ->]. split; [by constructor|]. unfold streamOf. cbn [map concat]. by rewrite <-app_assoc.
Qed.

(** ** Examples *)
Definition exPage : Page := MkPage 0 2 (2 ^ 64 - 1) 305419896 7 0 [3; 255] ([1; 2; 3] ++ repeat 9 255).

Lemma exPage_ok : pageOk exPage.
Proof.
  unfold exPage, pageOk, uintOk, bytesOk. cbn [pg_Version pg_HeaderType pg_GranulePosition pg_BitstreamSerial pg_PageSequence pg_Checksum pg_Segments pg_Payload].
  split_and!; first [by vm_compute | apply (bool_decide_eq_true (Forall _ _)); vm_compute; reflexivity].
Qed.

Lemma Page_roundtrip_witness :
  exists raw, MarshalBinary (Some exPage) = Ret raw /\ length raw = 287%nat /\ ParsePage raw = Ret (seal exPage).
Proof.
  assert (exists raw, MarshalBinary (Some exPage) = Ret raw /\ length raw = 287%nat) as (raw & HM & HL) by (eexists; split; [vm_compute; reflexivity|reflexivity]).
  exists raw. split; [exact HM|]. split; [exact HL|]. exact (proj1 (Page_roundtrip exPage raw) exPage_ok HM).
Defined.

Definition exRaw : Bytes := pageRaw (seal exPage).

Lemma exRaw_ok : bytesOk exRaw.
Proof. apply pageRaw_ok, seal_sealed; [apply exPage_ok|reflexivity]. Qed.

Lemma exRaw_parses : ParsePage exRaw = Ret (seal exPage).
Proof. vm_compute. reflexivity. Qed.

Lemma parsePagePrefix_typed_witness : exists p n, parsePagePrefix (exRaw ++ [1; 2]) = Ret (p, n) /\ pageOk p /\ n = 287%nat.
Proof.
  exists (seal exPage), 287%nat. assert (parsePagePrefix (exRaw ++ [1; 2]) = Ret (seal exPage, 287%nat)) as HP by (vm_compute; reflexivity).
  split; [exact HP|]. split; [|reflexivity]. apply (proj2 (parsePagePrefix_typed (exRaw ++ [1; 2])) (seal exPage) 287%nat); [|exact HP].
  apply Forall_app. split; [exact exRaw_ok|]. repeat (apply Forall_cons; split; [split; [discriminate|reflexivity]|]). constructor.
Defined.

Lemma corrupt_byte_rejected_witness : exists e, ParsePage (<[100%nat := 8]> exRaw) = Fail e.
Proof.
  apply (corrupt_byte_rejected exRaw (seal exPage)); [exact exRaw_ok|exact exRaw_parses|vm_compute; lia|split; [discriminate|reflexivity]|vm_compute; discriminate].
Defined.

Lemma ParsePages_total_witness : exists pages, ParsePages (exRaw ++ exRaw) = Some (Ret pages) /\ length pages = 2%nat.
Proof.
  destruct (ParsePages_total (exRaw ++ exRaw)) as [(pages & HP & _)|(e & HP & _)].
  - apply Forall_app. split; exact exRaw_ok.
  - exists pages. split; [exact HP|]. assert (match ParsePages (exRaw ++ exRaw) with Some (Ret l) => length l | _ => 0%nat end = 2%nat) as HL by (vm_compute; reflexivity).
    rewrite HP in HL. exact HL.
  - assert (match ParsePages (exRaw ++ exRaw) with Some (Fail _) => false | _ => true end = true) as HF by (vm_compute; reflexivity). rewrite HP in HF. discriminate HF.
Defined.
