(* ===== verification/OggPacket.v ===== *)
(** * ogg: logical packets

    [src/pkgs/audio/codec/ogg/packet.go] and [packet_decoder.go]: cutting a packet
    into segments and pages, rebuilding packets from a list of pages, and the
    decoder that rebuilds them from arbitrarily chunked bytes. *)

From stdpp Require Import list.
From S2P Require Import Prelude GoBytes OggPage.

Open Scope Z_scope.

Record Packet := MkPacket {
  pk_Data : Bytes;
  pk_GranulePosition : Z;
  pk_BOS : bool;
  pk_EOS : bool
}.

#[export] Instance Packet_eq_dec : EqDecision Packet.
Proof. solve_decision. Defined.

(** ** Building pages *)

(** [for remain >= maxSegmentSize { ... }]; a packet has a length, so the guard
    against a negative one is not reachable from the callers. *)
Fixpoint lacingLoop (fuel remain : nat) : Bytes :=
  match fuel with
  | O => [Z.of_nat remain]
  | S fuel => if (255 <=? remain)%nat then 255 :: lacingLoop fuel (remain - 255) else [Z.of_nat remain]
  end.
Definition packetLacing (packetLen : Z) : Go oggError Bytes :=
  _ ← check (packetLen <? 0) "negative packet length"%string;
  Ret (lacingLoop (Z.to_nat packetLen) (Z.to_nat packetLen)).

Section build.
Context (serial sequence granulePos : Z) (packet : Bytes) (bos eos : bool).

(** The body of the loop of [BuildPacketPages]: the page of one chunk of segments. *)
Definition chunkPage (idx : nat) (chunkSegs : Bytes) (isLast : bool) (payload : Bytes) : Page :=
  let headerType := if (0 <? idx)%nat then HeaderTypeContinued else 0 in
  let headerType := if (idx =? 0)%nat && bos then Z.lor headerType HeaderTypeBOS else headerType in
  let headerType := if isLast && eos then Z.lor headerType HeaderTypeEOS else headerType in
  MkPage 0 headerType (if isLast then granulePos else GranulePositionUnknown) serial (wrap 32 (sequence + wrap 32 (Z.of_nat idx))) 0 chunkSegs payload.

(** The loop over the segments, from the chunk [idx] on; [segs] are the segments not
    yet placed.  Each round places 255 of them or all, so their number is fuel enough. *)
Fixpoint buildLoop (fuel idx payloadOffset : nat) (segs : Bytes) (pages : list Page) : option (Go oggError (list Page * nat)) :=
  match segs with
  | [] => Some (Ret (pages, payloadOffset))
  | _ =>
      match fuel with
      | O => None
      | S fuel =>
          let chunkSegs := take maxPageSegments segs in
          let chunkPayloadLen := sumBytes chunkSegs in
          if (length packet <? payloadOffset + chunkPayloadLen)%nat then Some (Fail "payload overflow"%string)
          else
            match slice packet payloadOffset (payloadOffset + chunkPayloadLen) with
            | Ret payload =>
                let isLast := (length segs <=? maxPageSegments)%nat in
                let p := chunkPage idx chunkSegs isLast payload in
                match Page_Validate (Some p) with
                | Ret _ => buildLoop fuel (S idx) (payloadOffset + chunkPayloadLen) (drop maxPageSegments segs) (pages ++ [p])
                | Fail e => Some (Fail e)
                | Panic => Some Panic
                end
            | Fail e => Some (Fail e)
            | Panic => Some Panic
            end
      end
  end.

Definition BuildPacketPages : option (Go oggError (list Page)) :=
  match packetLacing (Z.of_nat (length packet)) with
  | Ret segs =>
      let pageCount := (Z.of_nat (length segs) + 255 - 1) / 255 in
      if pageCount <=? 0 then Some (Fail "internal invalid page count"%string)
      else if 2 ^ 32 - 1 <? wrap 64 (sequence + pageCount - 1) then Some (Fail "page sequence overflow"%string)
      else
        match buildLoop (length segs) 0 0 segs [] with
        | None => None
        | Some (Ret (pages, consumed)) =>
            if negb (consumed =? length packet)%nat then Some (Fail "payload not fully consumed"%string) else Some (Ret pages)
        | Some (Fail e) => Some (Fail e)
        | Some Panic => Some Panic
        end
  | Fail e => Some (Fail e)
  | Panic => Some Panic
  end.
End build.

(** ** Rebuilding packets

    [ExtractPackets], [PacketDecoder.consumePage] and [StreamReader.Packets] run the
    same loop over the segments of a page, on local variables or on the fields of
    the decoder. *)
Record assembly := MkAssembly {
  as_buf : Bytes;
  as_expecting : bool;
  as_BOS : bool
}.
Definition noAssembly : assembly := MkAssembly [] false false.

(** One round of the loop over the segments. *)
Definition segmentStep (page : Page) (st : assembly * list Packet * nat) (iseg : nat * Z) : Go oggError (assembly * list Packet * nat) :=
  let '(a, packets, payloadOffset) := st in
  let '(segIdx, seg) := iseg in
  let bos := if negb (as_expecting a) && (length (as_buf a) =? 0)%nat then HasBOS (Some page) && (segIdx =? 0)%nat else as_BOS a in
  let chunkLen := Z.to_nat seg in
  _ ← check (length (pg_Payload page) <? payloadOffset + chunkLen)%nat "segment overflows payload"%string;
  buf ← (if (0 <? chunkLen)%nat then chunk ← slice (pg_Payload page) payloadOffset (payloadOffset + chunkLen); Ret (as_buf a ++ chunk) else Ret (as_buf a));
  if seg <? maxSegmentSize then
    let pkt := MkPacket buf (pg_GranulePosition page) bos (HasEOS (Some page) && (segIdx =? length (pg_Segments page) - 1)%nat) in
    Ret (MkAssembly [] false false, packets ++ [pkt], (payloadOffset + chunkLen)%nat)
  else Ret (MkAssembly buf true bos, packets, (payloadOffset + chunkLen)%nat).

(** The continuation checks and the loop over the segments of one page. *)
Definition assemblePage (a : assembly) (page : Page) : Go oggError (assembly * list Packet) :=
  _ ← (if HasContinuation (Some page) then check (negb (as_expecting a)) "unexpected continuation"%string
       else check (as_expecting a) "missing continuation"%string);
  st ← foldGo (segmentStep page) (a, [], 0%nat) (imap pair (pg_Segments page));
  let '(a', packets, payloadOffset) := st in
  _ ← check (negb (payloadOffset =? length (pg_Payload page))%nat) "trailing payload"%string;
  Ret (a', packets).

(** The body of the loop of [ExtractPackets]. *)
Definition extractPage (st : assembly * list Packet) (page : option Page) : Go oggError (assembly * list Packet) :=
  let '(a, packets) := st in
  match page with
  | None => Fail "page is nil"%string
  | Some p =>
      _ ← Page_Validate (Some p);
      r ← assemblePage a p;
      Ret (r.1, packets ++ r.2)
  end.

Definition ExtractPackets (pages : list (option Page)) : Go oggError (list Packet) :=
  st ← foldGo extractPage (noAssembly, []) pages;
  _ ← check (as_expecting st.1) "stream ended with unterminated packet"%string;
  Ret st.2.

(** ** The incremental decoder *)
Record PacketDecoder := MkDecoder {
  pd_pending : Bytes;
  pd_assembly : assembly
}.
Definition NewPacketDecoder : PacketDecoder := MkDecoder [] noAssembly.

(** [nextPage]: no page yet, or the page and the bytes after it. *)
Definition nextPage (pending : Bytes) : Go oggError (option (Page * Bytes)) :=
  if (length pending =? 0)%nat then Ret None
  else if (length pending <? pageHeaderSize)%nat then
    _ ← check ((length pending <? 4)%nat && negb (bool_decide (take (length pending) CapturePattern = pending))) "invalid capture pattern prefix"%string;
    _ ← check ((4 <=? length pending)%nat && negb (bool_decide (take 4 pending = CapturePattern))) "invalid capture pattern prefix"%string;
    Ret None
  else
    capture ← slice pending 0 4;
    _ ← check (negb (bool_decide (capture = CapturePattern))) "invalid capture pattern"%string;
    count ← index pending 26;
    let headerLen := (pageHeaderSize + Z.to_nat count)%nat in
    if (length pending <? headerLen)%nat then Ret None
    else
      segments ← slice pending pageHeaderSize headerLen;
      let pageLen := (headerLen + sumBytes segments)%nat in
      if (length pending <? pageLen)%nat then Ret None
      else
        raw ← slice pending 0 pageLen;
        page ← ParsePage raw;
        Ret (Some (page, drop pageLen pending)).

Definition consumePage (a : assembly) (page : option Page) : Go oggError (assembly * list Packet) :=
  match page with None => Fail "page is nil"%string | Some page => assemblePage a page end.

(** The loop of [Write].  A failing call has already consumed the pages before; the
    state it leaves is returned with the error.  A page that [ParsePage] accepted can
    only be refused by the continuation checks, before anything is assembled
    ([assemblePage_Fail]), so a refused page leaves the assembly as it was.  Every
    page consumes at least its header, so the number of pending bytes is fuel enough. *)
Fixpoint decoderWriteLoop (fuel : nat) (d : PacketDecoder) (packets : list Packet) : option (PacketDecoder * Go oggError (list Packet)) :=
  match nextPage (pd_pending d) with
  | Ret None => Some (d, Ret packets)
  | Fail e => Some (d, Fail e)
  | Panic => Some (d, Panic)
  | Ret (Some (page, rest)) =>
      match fuel with
      | O => None
      | S fuel =>
          match consumePage (pd_assembly d) (Some page) with
          | Ret (a, more) => decoderWriteLoop fuel (MkDecoder rest a) (packets ++ more)
          | Fail e => Some (MkDecoder rest (pd_assembly d), Fail e)
          | Panic => Some (MkDecoder rest (pd_assembly d), Panic)
          end
      end
  end.

(** A nil decoder is [None]. *)
Definition Decoder_Write (d : option PacketDecoder) (data : Bytes) : option (option PacketDecoder * Go oggError (list Packet)) :=
  match d with
  | None => Some (None, Fail "packet decoder is nil"%string)
  | Some d =>
      if (length data =? 0)%nat then Some (Some d, Ret [])
      else
        let pending := pd_pending d ++ data in
        match decoderWriteLoop (length pending) (MkDecoder pending (pd_assembly d)) [] with
        | Some (d', r) => Some (Some d', r)
        | None => None
        end
  end.

Definition Decoder_Close (d : option PacketDecoder) : Go oggError unit :=
  match d with
  | None => Ret tt
  | Some d =>
      _ ← check (negb (length (pd_pending d) =? 0)%nat) "truncated page"%string;
      check (as_expecting (pd_assembly d) || negb (length (as_buf (pd_assembly d)) =? 0)%nat) "stream ended with unterminated packet"%string
  end.
