(* ===== verification/OggPacketProps.v ===== *)
(** * ogg: packets survive the trip

    A packet cut into pages by [BuildPacketPages] is put together again from them,
    and the incremental decoder, fed the bytes of a stream in any chunks, returns the
    same packets as parsing the whole stream at once. *)

From stdpp Require Import list.
From S2P Require Import Prelude GoBytes OggPage OggCRC OggPageProps OggPacket.

Open Scope Z_scope.

(** ** Lacing *)
Lemma lacingLoop_eq fuel n : (n <= fuel)%nat -> lacingLoop fuel n = repeat 255 (n / 255) ++ [Z.of_nat (n mod 255)].
Proof.
  revert n. induction fuel as [|fuel IH]; intros n Hn; [by replace n with 0%nat by lia|]. cbn [lacingLoop]. destruct (Nat.leb_spec 255 n) as [Hge|Hlt].
  - rewrite IH by lia. pose proof (Nat.div_mod (n - 255) 255 ltac:(lia)). pose proof (Nat.mod_upper_bound (n - 255) 255 ltac:(lia)).
    assert (n / 255 = S ((n - 255) / 255))%nat as -> by (symmetry; apply (Nat.div_unique n 255 _ ((n - 255) mod 255)); lia).
    assert (n mod 255 = (n - 255) mod 255)%nat as -> by (symmetry; apply (Nat.mod_unique n 255 (S ((n - 255) / 255))); lia). done.
  - by rewrite Nat.div_small, Nat.mod_small.
Qed.

Lemma packetLacing_eq n : packetLacing (Z.of_nat n) = Ret (repeat 255 (n / 255) ++ [Z.of_nat (n mod 255)]).
Proof. unfold packetLacing. rewrite (proj2 (Z.ltb_ge _ _)) by lia. cbn. by rewrite Nat2Z.id, lacingLoop_eq. Qed.

Lemma sumBytes_repeat k : sumBytes (repeat 255 k) = (255 * k)%nat.
Proof. induction k as [|k IH]; [done|]. cbn [repeat]. rewrite sumBytes_cons, IH. change (Z.to_nat 255) with 255%nat. lia. Qed.

(** ** Assembling pages *)

(** The pages of a stream, one after the other. *)
Definition assembleAll (a : assembly) (pages : list Page) : Go oggError (assembly * list Packet) :=
  foldGo (fun st p => r ← assemblePage st.1 p; Ret (r.1, st.2 ++ r.2)) (a, []) pages.

Lemma assemble_acc a acc pages :
  foldGo (fun st p => r ← assemblePage st.1 p; Ret (r.1, st.2 ++ r.2)) (a, acc) pages =
  (r ← assembleAll a pages; Ret (r.1, acc ++ r.2)).
Proof.
  unfold assembleAll. revert a acc. induction pages as [|p pages IH]; intros a acc; cbn [foldGo]; [cbn; by rewrite app_nil_r|]. cbn [fst snd].
  destruct (assemblePage a p) as [[a' pk]|e|]; cbn [mbind Go_bind fst snd]; [|done..]. rewrite IH, (IH a' ([] ++ pk)).
  destruct (foldGo _ (a', []) pages) as [[a'' pk']|e|]; cbn; [|done..]. by rewrite app_assoc.
Qed.

Lemma assembleAll_cons a p pages :
  assembleAll a (p :: pages) = (r ← assemblePage a p; s ← assembleAll r.1 pages; Ret (s.1, r.2 ++ s.2)).
Proof.
  unfold assembleAll at 1. cbn [foldGo fst snd]. destruct (assemblePage a p) as [[a' pk]|e|]; cbn [mbind Go_bind fst snd]; [|done..]. by rewrite assemble_acc.
Qed.

Lemma assembleAll_app a l k :
  assembleAll a (l ++ k) = (r ← assembleAll a l; s ← assembleAll r.1 k; Ret (s.1, r.2 ++ s.2)).
Proof.
  revert a. induction l as [|p l IH]; intros a; cbn [app].
  - cbn. destruct (assembleAll a k) as [[a' pk]|e|]; done.
  - rewrite !assembleAll_cons. destruct (assemblePage a p) as [[a' pk]|e|]; cbn [mbind Go_bind fst snd]; [|done..]. rewrite IH.
    destruct (assembleAll a' l) as [[a1 pk1]|e|]; cbn [mbind Go_bind fst snd]; [|done..].
    destruct (assembleAll a1 k) as [[a2 pk2]|e|]; cbn [mbind Go_bind fst snd]; [|done..]. by rewrite app_assoc.
Qed.

(** [ExtractPackets] of valid pages. *)
Lemma extract_assemble pages a acc : Forall (fun p => Page_Validate (Some p) = Ret tt) pages ->
  foldGo extractPage (a, acc) (map Some pages) = (r ← assembleAll a pages; Ret (r.1, acc ++ r.2)).
Proof.
  intros HF. revert a acc. induction HF as [|p pages Hv HF IH]; intros a acc; cbn [map foldGo]; [cbn; by rewrite app_nil_r|].
  cbn [extractPage]. rewrite Hv. cbn [mbind Go_bind]. rewrite assembleAll_cons. destruct (assemblePage a p) as [[a' pk]|e|]; cbn [mbind Go_bind fst snd]; [|done..].
  rewrite IH. destruct (assembleAll a' pages) as [[a2 pk2]|e|]; cbn; [|done..]. by rewrite app_assoc.
Qed.

(** ** One page of a packet *)
Section page.
Context (page : Page).

Lemma step_full a packets off i : (off + 255 <= length (pg_Payload page))%nat ->
  segmentStep page (a, packets, off) (i, 255) =
  Ret (MkAssembly (as_buf a ++ take 255 (drop off (pg_Payload page))) true
         (if negb (as_expecting a) && (length (as_buf a) =? 0)%nat then HasBOS (Some page) && (i =? 0)%nat else as_BOS a), packets, (off + 255)%nat).
Proof.
  intros HL. unfold segmentStep. change (Z.to_nat 255) with 255%nat. rewrite (proj2 (Nat.ltb_ge (length (pg_Payload page)) (off + 255))) by lia. cbn [check mbind Go_bind Nat.ltb Nat.leb].
  rewrite slice_ok by lia. cbn [mbind Go_bind]. by replace (off + 255 - off)%nat with 255%nat by lia.
Qed.

Lemma step_last a packets off i r : 0 <= r < 255 -> (off + Z.to_nat r <= length (pg_Payload page))%nat ->
  segmentStep page (a, packets, off) (i, r) =
  Ret (noAssembly, packets ++ [MkPacket (as_buf a ++ take (Z.to_nat r) (drop off (pg_Payload page))) (pg_GranulePosition page)
         (if negb (as_expecting a) && (length (as_buf a) =? 0)%nat then HasBOS (Some page) && (i =? 0)%nat else as_BOS a)
         (HasEOS (Some page) && (i =? length (pg_Segments page) - 1)%nat)], (off + Z.to_nat r)%nat).
Proof.
  intros Hr HL. unfold segmentStep. rewrite (proj2 (Nat.ltb_ge (length (pg_Payload page)) (off + Z.to_nat r))) by lia. cbn [check mbind Go_bind].
  assert ((if (0 <? Z.to_nat r)%nat then chunk ← slice (pg_Payload page) off (off + Z.to_nat r); Ret (as_buf a ++ chunk) else Ret (as_buf a)) =
          Ret (E := oggError) (as_buf a ++ take (Z.to_nat r) (drop off (pg_Payload page)))) as ->.
  { destruct (Nat.ltb_spec 0 (Z.to_nat r)) as [Hpos|Hz]; [|replace (Z.to_nat r) with 0%nat by lia; by rewrite app_nil_r].
    rewrite slice_ok by lia. cbn. by replace (off + Z.to_nat r - off)%nat with (Z.to_nat r) by lia. }
  cbn [mbind Go_bind]. unfold maxSegmentSize. by rewrite (proj2 (Z.ltb_lt _ _)) by lia.
Qed.

(** Whether the packet under assembly begins the stream, after its first segment. *)
Definition startsBOS (a : assembly) (i : nat) : bool :=
  if negb (as_expecting a) && (length (as_buf a) =? 0)%nat then HasBOS (Some page) && (i =? 0)%nat else as_BOS a.

(** A run of full segments moves their bytes to the assembly. *)
Lemma fold_full k a packets off i rest : (off + 255 * k <= length (pg_Payload page))%nat ->
  foldGo (segmentStep page) (a, packets, off) (imap (fun j s => (i + j, s)%nat) (repeat 255 k ++ rest)) =
  foldGo (segmentStep page)
    (match k with O => a | S _ => MkAssembly (as_buf a ++ take (255 * k) (drop off (pg_Payload page))) true (startsBOS a i) end, packets, (off + 255 * k)%nat)
    (imap (fun j s => (i + k + j, s)%nat) rest).
Proof.
  revert a off i. induction k as [|k IH]; intros a off i HL.
  { cbn [repeat app]. replace (off + 255 * 0)%nat with off by lia. f_equal. apply imap_ext. intros j x _. f_equal. lia. }
  cbn [repeat app imap foldGo]. rewrite Nat.add_0_r, step_full by lia. cbn [mbind Go_bind]. fold (startsBOS a i).
  transitivity (foldGo (segmentStep page) (MkAssembly (as_buf a ++ take 255 (drop off (pg_Payload page))) true (startsBOS a i), packets, (off + 255)%nat)
    (imap (fun j s => (S i + j, s)%nat) (repeat 255 k ++ rest))).
  { f_equal. apply imap_ext. intros j x _. cbn. f_equal. lia. }
  rewrite IH by lia. f_equal.
  - f_equal; [f_equal|lia]. destruct k as [|k].
    + by replace (255 * 1)%nat with 255%nat by lia.
    + unfold startsBOS at 1. cbn [as_expecting as_buf as_BOS negb andb]. f_equal. rewrite <-app_assoc. f_equal.
      rewrite <-(take_drop 255 (take (255 * S (S k)) _)). rewrite take_take, Nat.min_l by lia. f_equal. rewrite skipn_firstn_comm, drop_drop. by replace (255 * S (S k) - 255)%nat with (255 * S k)%nat by lia.
  - apply imap_ext. intros j x _. f_equal. lia.
Qed.

Lemma imap_pair (l : Bytes) : imap pair l = imap (fun j s => (0 + j, s)%nat) l.
Proof. apply imap_ext. intros j x _. done. Qed.

(** A page of full segments only extends the packet. *)
Lemma assemble_full k a :
  (0 < k)%nat -> pg_Segments page = repeat 255 k -> length (pg_Payload page) = (255 * k)%nat -> HasContinuation (Some page) = as_expecting a ->
  assemblePage a page = Ret (MkAssembly (as_buf a ++ pg_Payload page) true (startsBOS a 0), []).
Proof.
  intros Hk Hs HL Hc. unfold assemblePage. rewrite Hc.
  assert ((if as_expecting a then check (negb (as_expecting a)) "unexpected continuation"%string else check (as_expecting a) "missing continuation"%string) = Ret (E := oggError) tt) as ->
    by (by destruct (as_expecting a)).
  cbn [mbind Go_bind]. rewrite imap_pair, Hs, <-(app_nil_r (repeat 255 k)), fold_full by lia. cbn [imap foldGo mbind Go_bind]. destruct k as [|k]; [lia|].
  replace (0 + 255 * S k)%nat with (length (pg_Payload page)) by lia. rewrite Nat.eqb_refl, drop_0, take_ge by lia. done.
Qed.

(** A page that ends with a short segment completes it. *)
Lemma assemble_last k r a :
  0 <= r < 255 -> pg_Segments page = repeat 255 k ++ [r] -> length (pg_Payload page) = (255 * k + Z.to_nat r)%nat ->
  HasContinuation (Some page) = as_expecting a ->
  assemblePage a page = Ret (noAssembly, [MkPacket (as_buf a ++ pg_Payload page) (pg_GranulePosition page) (startsBOS a 0) (HasEOS (Some page))]).
Proof.
  intros Hr Hs HL Hc. unfold assemblePage. rewrite Hc.
  assert ((if as_expecting a then check (negb (as_expecting a)) "unexpected continuation"%string else check (as_expecting a) "missing continuation"%string) = Ret (E := oggError) tt) as ->
    by (by destruct (as_expecting a)).
  cbn [mbind Go_bind]. rewrite imap_pair, Hs, fold_full by lia. cbn [imap foldGo]. rewrite step_last by lia. cbn [mbind Go_bind].
  replace (0 + 255 * k + Z.to_nat r)%nat with (length (pg_Payload page)) by lia. rewrite Nat.eqb_refl. cbn [negb check mbind Go_bind app].
  match goal with |- Ret (_, [MkPacket ?d _ ?bos ?eos]) = _ =>
    assert (d = as_buf a ++ pg_Payload page) as ->; [|assert (bos = startsBOS a 0) as ->; [|assert (eos = HasEOS (Some page)) as ->; [|done]]] end.
  - destruct k as [|k]; cbn [as_buf]; [replace (0 + 255 * 0)%nat with 0%nat by lia; rewrite drop_0, take_ge by lia; done|]. rewrite <-app_assoc. f_equal. rewrite drop_0.
    rewrite <-(take_drop (255 * S k) (pg_Payload page)) at 3. f_equal. rewrite take_ge; [done|]. rewrite length_drop. lia.
  - by destruct k as [|k].
  - rewrite Hs, length_app, repeat_length. cbn [length]. replace (0 + k + 0 =? k + 1 - 1)%nat with true by (symmetry; apply Nat.eqb_eq; lia). apply andb_true_r.
Qed.
End page.

(** ** Building pages *)
Section build.
Context (serial sequence granulePos : Z) (packet : Bytes) (bos eos : bool).
Context (Hserial : uintOk 32 serial) (Hgran : uintOk 64 granulePos) (Hpacket : bytesOk packet).

Local Notation chunkPage := (chunkPage serial sequence granulePos bos eos).
Local Notation buildLoop := (buildLoop serial sequence granulePos packet bos eos).

Lemma chunk_flags idx segs isLast payload :
  let p := chunkPage idx segs isLast payload in
  HasContinuation (Some p) = (0 <? idx)%nat /\ HasBOS (Some p) = (idx =? 0)%nat && bos /\ HasEOS (Some p) = isLast && eos /\
  Z.ldiff (pg_HeaderType p) 7 = 0 /\ isByte (pg_HeaderType p).
Proof. cbn zeta. destruct idx as [|idx], bos, eos, isLast; by vm_compute. Qed.

Lemma chunk_ok idx segs isLast payload :
  bytesOk segs -> bytesOk payload -> (length segs <= 255)%nat -> sumBytes segs = length payload ->
  pageOk (chunkPage idx segs isLast payload) /\ Page_Validate (Some (chunkPage idx segs isLast payload)) = Ret tt.
Proof.
  intros Hs Hp HL HS. destruct (chunk_flags idx segs isLast payload) as (_ & _ & _ & H4 & H5). split.
  - split_and!; cbn [chunkPage OggPacket.chunkPage pg_Version pg_GranulePosition pg_BitstreamSerial pg_PageSequence pg_Checksum pg_Segments pg_Payload]; try done.
    + by destruct isLast.
    + unfold uintOk, wrap. by apply Z.mod_pos_bound.
  - apply validate_Ret. split_and!; done.
Qed.

(** The assembly before the chunk [idx] at [off]. *)
Definition midway (idx off : nat) : assembly := if (idx =? 0)%nat then noAssembly else MkAssembly (take off packet) true bos.

(** What the pages of a packet are. *)
Definition goodPages (idx : nat) (pages : list Page) : Prop :=
  Forall (fun p => pageOk p /\ Page_Validate (Some p) = Ret tt) pages /\
  forall i p, pages !! i = Some p -> pg_BitstreamSerial p = serial /\ pg_PageSequence p = wrap 32 (sequence + Z.of_nat (idx + i)).

Lemma repeat_app_take k m (l : Bytes) : (k <= m)%nat -> take k (repeat 255 m ++ l) = repeat 255 k /\ drop k (repeat 255 m ++ l) = repeat 255 (m - k) ++ l.
Proof.
  intros Hk. replace m with (k + (m - k))%nat at 1 2 by lia. rewrite repeat_app, <-app_assoc. split.
  - rewrite take_app_le by (by rewrite repeat_length). by rewrite take_ge by (by rewrite repeat_length).
  - rewrite drop_app_ge by (by rewrite repeat_length). rewrite repeat_length, Nat.sub_diag. done.
Qed.

Lemma wrap_sequence idx : wrap 32 (sequence + wrap 32 (Z.of_nat idx)) = wrap 32 (sequence + Z.of_nat idx).
Proof. unfold wrap. by rewrite Zplus_mod_idemp_r. Qed.

Lemma bytesOk_repeat k : bytesOk (repeat 255 k).
Proof. induction k as [|k IH]; constructor; [by split|done]. Qed.

Lemma build_spec fuel idx off m r acc :
  (m < fuel)%nat -> 0 <= r < 255 -> (off + 255 * m + Z.to_nat r)%nat = length packet -> (idx = 0 -> off = 0)%nat ->
  exists pages, buildLoop fuel idx off (repeat 255 m ++ [r]) acc = Some (Ret (acc ++ pages, length packet)) /\
    assembleAll (midway idx off) pages = Ret (noAssembly, [MkPacket packet granulePos bos eos]) /\ goodPages idx pages /\ length pages = (m / 255 + 1)%nat.
Proof.
  revert idx off m acc. induction fuel as [|fuel IH]; intros idx off m acc Hf Hr Hsum H0; [lia|].
  cbn [OggPacket.buildLoop]. set (segs := repeat 255 m ++ [r]). assert (forall A (x y : A), match segs with [] => x | _ :: _ => y end = y) as Hm by (intros; unfold segs; by destruct m). rewrite Hm.
  assert (length segs = S m) as HLs by (unfold segs; rewrite length_app, repeat_length; cbn; lia).
  assert (as_expecting (midway idx off) = (0 <? idx)%nat) as Hexp by (unfold midway; by destruct idx).
  assert (forall p, HasBOS (Some p) = (idx =? 0)%nat && bos -> startsBOS p (midway idx off) 0 = bos) as Hbos.
  { intros p Hp. unfold startsBOS, midway. destruct idx as [|idx]; cbn [Nat.eqb noAssembly as_expecting as_buf negb length andb as_BOS]; [|done]. rewrite Hp. cbn. apply andb_true_r. }
  assert (as_buf (midway idx off) = take off packet) as Hbuf by (unfold midway; destruct idx; [by rewrite H0|done]).
  destruct (Nat.le_gt_cases (S m) 255) as [Hle|Hgt].
  - rewrite (take_ge segs maxPageSegments) by (unfold maxPageSegments; lia). rewrite (drop_ge segs maxPageSegments) by (unfold maxPageSegments; lia).
    assert (sumBytes segs = (255 * m + Z.to_nat r)%nat) as HS by (unfold segs; rewrite sumBytes_app, sumBytes_repeat, sumBytes_cons; cbn; lia).
    rewrite HS, (proj2 (Nat.ltb_ge (length packet) _)), slice_ok by lia. replace (off + (255 * m + Z.to_nat r) - off)%nat with (255 * m + Z.to_nat r)%nat by lia.
    set (payload := take _ (drop off packet)). assert (length payload = (255 * m + Z.to_nat r)%nat) as HLp by (unfold payload; rewrite length_take, length_drop; lia).
    replace (length segs <=? maxPageSegments)%nat with true by (symmetry; apply Nat.leb_le; unfold maxPageSegments; lia).
    set (p := OggPacket.chunkPage _ _ _ _ _ _ _ _ _). destruct (chunk_flags idx segs true payload) as (F1 & F2 & F3 & _). fold p in F1, F2, F3.
    destruct (chunk_ok idx segs true payload) as [Hok Hv]; [unfold segs; apply Forall_app; split; [apply bytesOk_repeat|apply Forall_cons; split; [unfold isByte; lia|constructor]]|unfold payload; auto with gizclaw|lia|lia|]. fold p in Hok, Hv.
    exists [p]. rewrite Hv. split_and!.
    + replace (off + (255 * m + Z.to_nat r))%nat with (length packet) by lia. by destruct fuel.
    + rewrite assembleAll_cons. rewrite (assemble_last p m r) by (done || by rewrite F1, Hexp). cbn [mbind Go_bind fst snd]. rewrite Hbos, F3, Hbuf by done.
      change (assembleAll noAssembly []) with (Ret (E := oggError) (noAssembly, @nil Packet)). cbn [mbind Go_bind fst snd app andb]. do 4 f_equal.
      transitivity (take off packet ++ drop off packet); [|apply take_drop]. f_equal. apply take_ge. rewrite length_drop. lia.
    + split; [constructor; [done|constructor]|].
      intros i q Hq. destruct i as [|i]; [|done]. injection Hq as <-. cbn. split; [done|]. rewrite wrap_sequence. do 3 f_equal. lia.
    + by rewrite Nat.div_small by lia.
  - destruct (repeat_app_take 255 m [r]) as [HT HD]; [lia|]. fold segs in HT, HD. unfold maxPageSegments. rewrite HT, HD.
    rewrite sumBytes_repeat, (proj2 (Nat.ltb_ge (length packet) _)), slice_ok by lia. replace (off + 255 * 255 - off)%nat with (255 * 255)%nat by lia.
    set (payload := take _ (drop off packet)). assert (length payload = (255 * 255)%nat) as HLp by (unfold payload; rewrite length_take, length_drop; lia).
    replace (length segs <=? 255)%nat with false by (symmetry; apply Nat.leb_gt; lia).
    set (p := OggPacket.chunkPage _ _ _ _ _ _ _ _ _). destruct (chunk_flags idx (repeat 255 255) false payload) as (F1 & F2 & F3 & _). fold p in F1, F2, F3.
    destruct (chunk_ok idx (repeat 255 255) false payload) as [Hok Hv]; [apply bytesOk_repeat|unfold payload; auto with gizclaw|by rewrite repeat_length|by rewrite sumBytes_repeat|]. fold p in Hok, Hv.
    destruct (IH (S idx) (off + 255 * 255)%nat (m - 255)%nat (acc ++ [p])) as (pages & HB & HA & [HG1 HG2] & HL); [lia|done|lia|done|].
    exists (p :: pages). rewrite Hv. split_and!.
    + rewrite HB. by rewrite <-app_assoc.
    + rewrite assembleAll_cons. rewrite (assemble_full p 255); [|lia|done|exact HLp|by rewrite F1, Hexp]. cbn [mbind Go_bind fst snd].
      assert (MkAssembly (as_buf (midway idx off) ++ pg_Payload p) true (startsBOS p (midway idx off) 0) = midway (S idx) (off + 255 * 255)) as ->.
      { unfold midway at 3. cbn [Nat.eqb]. rewrite Hbos, Hbuf by done. f_equal. change (pg_Payload p) with payload. unfold payload.
        rewrite <-(take_drop off (take (off + 255 * 255) packet)). rewrite take_take, Nat.min_l by lia. f_equal. rewrite skipn_firstn_comm. f_equal. lia. }
      rewrite HA. done.
    + split; [by constructor|].
      intros i q Hq. destruct i as [|i]; [injection Hq as <-; cbn; split; [done|]; rewrite wrap_sequence; do 3 f_equal; lia|].
      destruct (HG2 i q Hq) as [-> ->]. split; [done|]. do 3 f_equal. lia.
    + cbn [length]. rewrite HL. replace m with (m - 255 + 1 * 255)%nat at 2 by lia. rewrite Nat.div_add by lia. lia.
Qed.

(** The number of pages of a packet. *)
Definition packetPages : nat := (length packet / 255 / 255 + 1)%nat.

Lemma Build_lemma :
  uintOk 32 sequence -> Z.of_nat (length packet) < 2 ^ 63 ->
  if decide (sequence + Z.of_nat packetPages <= 2 ^ 32) then
    exists pages, BuildPacketPages serial sequence granulePos packet bos eos = Some (Ret pages) /\
      assembleAll noAssembly pages = Ret (noAssembly, [MkPacket packet granulePos bos eos]) /\ goodPages 0 pages /\ length pages = packetPages
  else BuildPacketPages serial sequence granulePos packet bos eos = Some (Fail "page sequence overflow"%string).
Proof.
  intros Hseq Hlen. unfold BuildPacketPages. rewrite packetLacing_eq. set (m := (length packet / 255)%nat). set (r := Z.of_nat (length packet mod 255)).
  pose proof (Nat.div_mod (length packet) 255 ltac:(lia)) as Hdm. pose proof (Nat.mod_upper_bound (length packet) 255 ltac:(lia)) as Hmod.
  assert (length (repeat 255 m ++ [r]) = S m) as HL by (rewrite length_app, repeat_length; cbn; lia). rewrite HL.
  assert ((Z.of_nat (S m) + 255 - 1) / 255 = Z.of_nat packetPages) as Hcount.
  { unfold packetPages. fold m. rewrite Nat2Z.inj_add, Nat2Z.inj_div. replace (Z.of_nat (S m) + 255 - 1) with (Z.of_nat m + 1 * 255) by lia. rewrite Z.div_add by lia. done. }
  rewrite Hcount, (proj2 (Z.leb_gt _ _)) by (unfold packetPages; lia).
  assert (Z.of_nat packetPages <= Z.of_nat (length packet) + 1) as Hbound.
  { unfold packetPages. fold m. pose proof (Nat.div_le_upper_bound m 255 m ltac:(lia) ltac:(lia)). unfold m in *. lia. }
  assert (1 <= Z.of_nat packetPages) by (unfold packetPages; lia). unfold uintOk in Hseq.
  assert (wrap 64 (sequence + Z.of_nat packetPages - 1) = sequence + Z.of_nat packetPages - 1) as Hw.
  { unfold wrap. apply Z.mod_small. change (2 ^ 64) with (2 ^ 63 + 2 ^ 63). change (2 ^ 32) with 4294967296 in Hseq. change (2 ^ 63) with 9223372036854775808 in *. lia. }
  rewrite Hw. destruct (decide (sequence + Z.of_nat packetPages <= 2 ^ 32)) as [Hfit|Hover].
  - rewrite (proj2 (Z.ltb_ge _ _)) by lia.
    destruct (build_spec (S m) 0 0 m r []) as (pages & HB & HA & HG & HLp); [lia|lia|lia|done|]. rewrite HB. cbn [app]. rewrite Nat.eqb_refl. cbn [negb].
    exists pages. split_and!; [done|exact HA|exact HG|done].
  - rewrite (proj2 (Z.ltb_lt _ _)) by lia. done.
Qed.

(** C36: [BuildPacketPages] terminates and loses nothing: unless the page numbers would
    exceed 32 bits, which is reported, it returns valid pages of one stream with
    consecutive numbers, and [ExtractPackets] puts them together to exactly the
    packet, with its granule position and its begin and end marks. *)
Theorem BuildPacketPages_roundtrip :
  uintOk 32 sequence -> Z.of_nat (length packet) < 2 ^ 63 ->
  (2 ^ 32 < sequence + Z.of_nat packetPages /\ BuildPacketPages serial sequence granulePos packet bos eos = Some (Fail "page sequence overflow"%string)) \/
  (exists pages, BuildPacketPages serial sequence granulePos packet bos eos = Some (Ret pages) /\ length pages = packetPages /\
     ExtractPackets (map Some pages) = Ret [MkPacket packet granulePos bos eos] /\
     forall i p, pages !! i = Some p -> pageOk p /\ Page_Validate (Some p) = Ret tt /\ pg_BitstreamSerial p = serial /\ pg_PageSequence p = sequence + Z.of_nat i).
Proof.
  intros Hseq Hlen. pose proof (Build_lemma Hseq Hlen) as HB. destruct (decide _) as [Hfit|Hover]; [right|left; split; [lia|done]].
  destruct HB as (pages & HB & HA & [HG1 HG2] & HL). exists pages. split_and!; [done|done| |].
  - unfold ExtractPackets. rewrite extract_assemble by (eapply Forall_impl; [exact HG1|by intros ? []]). rewrite HA. done.
  - intros i p Hp. destruct (HG2 i p Hp) as [Hs Hq]. destruct (Forall_lookup_1 _ _ _ _ HG1 Hp) as [Hok Hv]. split_and!; [done..|]. rewrite Hq. unfold wrap.
    apply lookup_lt_Some in Hp. rewrite Z.mod_small; [done|]. unfold uintOk in Hseq. lia.
Qed.
End build.

(** ** The incremental decoder *)

(** A page at the front of the pending bytes is returned; a beginning of one waits. *)
Lemma nextPage_page p rest : sealed p -> nextPage (pageRaw p ++ rest) = Ret (Some (p, rest)).
Proof.
  intros Hs. pose proof Hs as (_ & Hv & _). apply validate_Ret in Hv as (_ & _ & Hseg & Hsum). unfold nextPage. set (pending := pageRaw p ++ rest).
  assert (length pending = (27 + length (pg_Segments p) + length (pg_Payload p) + length rest)%nat) as HL by (unfold pending, pageRaw; rewrite length_app, length_pageBytes; done).
  rewrite (proj2 (Nat.eqb_neq _ _)), (proj2 (Nat.ltb_ge (length pending) pageHeaderSize)) by (unfold pageHeaderSize; lia).
  change (slice pending 0 4) with (Ret (E := oggError) CapturePattern). cbn [mbind Go_bind]. rewrite bool_decide_eq_true_2 by done. cbn [negb check mbind Go_bind].
  change (index pending 26) with (Ret (E := oggError) (Z.of_nat (length (pg_Segments p)) `mod` 256)). cbn [mbind Go_bind]. rewrite Z.mod_small, Nat2Z.id by lia.
  rewrite (proj2 (Nat.ltb_ge (length pending) (pageHeaderSize + _))) by (unfold pageHeaderSize; lia).
  assert (drop 27 pending = pg_Segments p ++ pg_Payload p ++ rest) as HD.
  { unfold pending, pageRaw, pageBytes. rewrite <-!app_assoc. cbn [app CapturePattern]. done. }
  rewrite slice_ok by (unfold pageHeaderSize; lia). cbn [mbind Go_bind]. unfold pageHeaderSize. rewrite HD. replace (27 + length (pg_Segments p) - 27)%nat with (length (pg_Segments p)) by lia.
  rewrite take_app_length, Hsum, (proj2 (Nat.ltb_ge (length pending) _)) by lia. rewrite slice_ok by lia. cbn [mbind Go_bind]. rewrite Nat.sub_0_r, drop_0.
  assert ((27 + length (pg_Segments p) + length (pg_Payload p))%nat = length (pageRaw p)) as -> by (unfold pageRaw; by rewrite length_pageBytes).
  unfold pending. rewrite take_app_length, drop_app_length. rewrite (proj2 (ParsePage_iff _ p (pageRaw_ok p Hs))) by done. done.
Qed.

Lemma nextPage_prefix p pending rest : sealed p -> pageRaw p = pending ++ rest -> rest <> [] -> nextPage pending = Ret None.
Proof.
  intros Hs HR Hne. pose proof Hs as (_ & Hv & _). apply validate_Ret in Hv as (_ & _ & Hseg & Hsum).
  assert (length pending + length rest = 27 + length (pg_Segments p) + length (pg_Payload p))%nat as HL.
  { unfold pageRaw in HR. rewrite <-length_app, <-HR. apply length_pageBytes. }
  assert (0 < length rest)%nat by (destruct rest; [done|cbn; lia]). unfold nextPage. destruct (Nat.eqb_spec (length pending) 0) as [Hz|Hz]; [done|].
  assert (pending = take (length pending) (pageRaw p)) as HP by (rewrite HR; by rewrite take_app_length).
  assert (forall k, (k <= length pending)%nat -> take k pending = take k (pageRaw p)) as Htake by (intros k Hk; rewrite HP, take_take; f_equal; lia).
  assert (take 4 (pageRaw p) = CapturePattern) as Hcap by done.
  destruct (Nat.ltb_spec (length pending) pageHeaderSize) as [Hsh|Hsh]; unfold pageHeaderSize in *.
  - destruct (Nat.ltb_spec (length pending) 4) as [H4|H4].
    + rewrite (proj2 (Nat.leb_gt 4 _)) by done. rewrite (bool_decide_eq_true_2 (take (length pending) CapturePattern = pending)); [done|].
      rewrite <-Hcap, take_take, Nat.min_l by lia. done.
    + rewrite (proj2 (Nat.leb_le 4 _)) by done. rewrite (Htake 4%nat), Hcap by lia. rewrite (bool_decide_eq_true_2 (CapturePattern = _)) by done. done.
  - rewrite slice_ok by lia. cbn [mbind Go_bind]. rewrite drop_0. change (4 - 0)%nat with 4%nat. rewrite Htake, Hcap, bool_decide_eq_true_2 by (done || lia). cbn [negb check mbind Go_bind].
    assert (index (E := oggError) pending 26 = Ret (Z.of_nat (length (pg_Segments p)))) as ->.
    { unfold index. rewrite HP, lookup_take_lt by lia. change (pageRaw p !! 26%nat) with (Some (Z.of_nat (length (pg_Segments p)) `mod` 256)). by rewrite Z.mod_small by lia. }
    cbn [mbind Go_bind]. rewrite Nat2Z.id. destruct (Nat.ltb_spec (length pending) (27 + length (pg_Segments p))) as [Hs1|Hs1]; [done|].
    rewrite slice_ok by lia. cbn [mbind Go_bind]. replace (27 + length (pg_Segments p) - 27)%nat with (length (pg_Segments p)) by lia.
    assert (take (length (pg_Segments p)) (drop 27 pending) = pg_Segments p) as ->.
    { rewrite HP, skipn_firstn_comm, take_take, Nat.min_l by lia. change (drop 27 (pageRaw p)) with (pg_Segments p ++ pg_Payload p). apply take_app_length. }
    rewrite (proj2 (Nat.ltb_lt _ _)) by lia. done.
Qed.

Lemma slice_not_Panic {E} l lo hi : (lo <= hi <= length l)%nat -> slice (E := E) l lo hi <> Panic.
Proof. intros H. by rewrite slice_ok. Qed.

Lemma nextPage_sound pending p rest : bytesOk pending -> nextPage pending = Ret (Some (p, rest)) -> sealed p /\ pending = pageRaw p ++ rest.
Proof.
  intros Hok. unfold nextPage. destruct (length pending =? 0)%nat; [done|]. destruct (_ <? pageHeaderSize)%nat.
  { intros ([] & _ & HH)%bind_Ret. by apply bind_Ret in HH as ([] & _ & HH). }
  intros (capture & _ & HH)%bind_Ret. apply bind_Ret in HH as ([] & _ & HH). apply bind_Ret in HH as (count & _ & HH). cbn zeta in HH.
  destruct (_ <? _)%nat; [done|]. apply bind_Ret in HH as (segs & _ & HH). destruct (_ <? _)%nat; [done|].
  apply bind_Ret in HH as (raw & [Hle ->]%slice_Ret & HH). apply bind_Ret in HH as (page & HP & [= -> <-]). rewrite drop_0, Nat.sub_0_r in HP.
  apply ParsePage_iff in HP as [Hs HP]; [|by apply bytesOk_take]. split; [done|]. unfold pageRaw. by rewrite <-HP, take_drop.
Qed.

Lemma ParsePage_not_Panic raw : ParsePage raw <> Panic.
Proof.
  unfold ParsePage. destruct (parsePagePrefix raw) as [[p n]|e|] eqn:HP; cbn; [|done|by apply parse_not_Panic in HP]. by destruct (negb _).
Qed.

Lemma nextPage_not_Panic pending : nextPage pending <> Panic.
Proof.
  unfold nextPage. destruct (Nat.eqb_spec (length pending) 0); [done|]. destruct (Nat.ltb_spec (length pending) pageHeaderSize) as [Hs|Hs].
  { by do 2 apply check_not_Panic. }
  unfold pageHeaderSize in *. rewrite slice_ok by lia. cbn [mbind Go_bind]. destruct (negb _); [done|]. cbn [check mbind Go_bind].
  destruct (index_ok (E := oggError) pending 26 ltac:(lia)) as (c & -> & _). cbn [mbind Go_bind]. destruct (Nat.ltb_spec (length pending) (27 + Z.to_nat c)); [done|].
  rewrite slice_ok by lia. cbn [mbind Go_bind]. destruct (Nat.ltb_spec (length pending) (27 + Z.to_nat c + sumBytes (take (27 + Z.to_nat c - 27) (drop 27 pending)))); [done|].
  rewrite slice_ok by lia. cbn [mbind Go_bind]. destruct (ParsePage _) as [p|e|] eqn:HP; [done|done|by apply ParsePage_not_Panic in HP].
Qed.

(** The segments of a valid page are all consumed. *)
Lemma fold_segments page segs a packets off i : bytesOk segs -> (off + sumBytes segs <= length (pg_Payload page))%nat ->
  exists a' packets', foldGo (segmentStep page) (a, packets, off) (imap (fun j s => (i + j, s)%nat) segs) = Ret (a', packets', (off + sumBytes segs)%nat).
Proof.
  intros Hok. revert a packets off i. induction Hok as [|s segs Hs Hok IH]; intros a packets off i HL.
  { cbn. rewrite Nat.add_0_r. eauto. }
  rewrite sumBytes_cons in *. cbn [imap foldGo]. unfold isByte in Hs.
  destruct (decide (s = 255)) as [->|Hne]; [rewrite step_full by (change (Z.to_nat 255) with 255%nat in HL; lia)|rewrite step_last by lia]; cbn [mbind Go_bind].
  - destruct (IH (MkAssembly (as_buf a ++ take 255 (drop off (pg_Payload page))) true
      (if negb (as_expecting a) && (length (as_buf a) =? 0)%nat then HasBOS (Some page) && (i + 0 =? 0)%nat else as_BOS a)) packets (off + 255)%nat (S i)) as (a' & pk & HE); [change (Z.to_nat 255) with 255%nat in HL; lia|].
    exists a', pk. rewrite Nat.add_assoc. change (Z.to_nat 255) with 255%nat. rewrite <-HE. f_equal. apply imap_ext. intros j x _. cbn. f_equal. lia.
  - match goal with |- context [packets ++ ?l] => destruct (IH noAssembly (packets ++ l) (off + Z.to_nat s)%nat (S i)) as (a' & pk & HE); [lia|] end.
    exists a', pk. rewrite Nat.add_assoc, <-HE. f_equal. apply imap_ext. intros j x _. cbn. f_equal. lia.
Qed.

(** A valid page is refused by the continuation checks only, before anything is assembled. *)
Lemma assemblePage_Fail a page : bytesOk (pg_Segments page) -> Page_Validate (Some page) = Ret tt ->
  (HasContinuation (Some page) = as_expecting a /\ exists a' pk, assemblePage a page = Ret (a', pk)) \/
  (HasContinuation (Some page) <> as_expecting a /\ exists e, assemblePage a page = Fail e).
Proof.
  intros Hb (_ & _ & _ & Hsum)%validate_Ret. unfold assemblePage. destruct (HasContinuation (Some page)), (as_expecting a) eqn:Ha; cbn [negb check mbind Go_bind];
    [left; split; [done|]|right; split; [done|]; by eexists|right; split; [done|]; by eexists|left; split; [done|]];
    rewrite imap_pair; destruct (fold_segments page (pg_Segments page) a [] 0 0 Hb ltac:(lia)) as (a' & pk & ->); cbn [mbind Go_bind];
    rewrite Nat.add_0_l, Hsum, Nat.eqb_refl; by exists a', pk.
Qed.

Lemma sealed_parts p : sealed p -> bytesOk (pg_Segments p) /\ Page_Validate (Some p) = Ret tt.
Proof. intros ((_ & _ & _ & _ & _ & _ & ? & _) & ? & _). done. Qed.

Lemma writeLoop_complete pages fuel a q acc a' ps :
  Forall sealed pages -> (length pages <= fuel)%nat -> nextPage q = Ret None -> assembleAll a pages = Ret (a', ps) ->
  decoderWriteLoop fuel (MkDecoder (streamOf pages ++ q) a) acc = Some (MkDecoder q a', Ret (acc ++ ps)).
Proof.
  intros HS. revert fuel a acc ps. induction HS as [|p pages Hp HS IH]; intros fuel a acc ps Hf Hq HA.
  { injection HA as <- <-. rewrite app_nil_r. destruct fuel; cbn [decoderWriteLoop pd_pending streamOf map concat app]; by rewrite Hq. }
  destruct fuel as [|fuel]; [cbn in Hf; lia|]. cbn [decoderWriteLoop pd_pending]. unfold streamOf. cbn [map concat]. rewrite <-app_assoc, nextPage_page by done.
  rewrite assembleAll_cons in HA. apply bind_Ret in HA as ([a1 pk] & HA & HR). apply bind_Ret in HR as ([a2 pk2] & HR & [= <- <-]). cbn [fst snd] in *.
  cbn [consumePage pd_assembly]. rewrite HA. fold (streamOf pages). rewrite (IH fuel a1 (acc ++ pk) pk2); [by rewrite <-app_assoc|cbn in Hf; lia|done|done].
Qed.

Lemma writeLoop_sound fuel pending a acc : bytesOk pending -> (length pending <= fuel)%nat ->
  exists d r, decoderWriteLoop fuel (MkDecoder pending a) acc = Some (d, r) /\
    match r with
    | Ret ps => exists pages more, Forall sealed pages /\ pending = streamOf pages ++ pd_pending d /\ nextPage (pd_pending d) = Ret None /\
                  assembleAll a pages = Ret (pd_assembly d, more) /\ ps = acc ++ more
    | Fail _ => True
    | Panic => False
    end.
Proof.
  revert pending a acc. induction fuel as [|fuel IH]; intros pending a acc Hok Hf.
  { destruct pending; [|cbn in Hf; lia]. exists (MkDecoder [] a), (Ret acc). split; [done|]. exists [], []. split_and!; [constructor|done|done|done|by rewrite app_nil_r]. }
  cbn [decoderWriteLoop pd_pending pd_assembly]. destruct (nextPage pending) as [[[page rest]|]|e|] eqn:HN; [|..|by apply nextPage_not_Panic in HN].
  - destruct (nextPage_sound _ _ _ Hok HN) as [Hs ->]. destruct (sealed_parts page Hs) as [Hb Hv]. cbn [consumePage].
    destruct (assemblePage_Fail a page Hb Hv) as [[_ (a1 & pk & HA)]|[_ [e HA]]]; rewrite HA; [|by eexists _, _].
    apply Forall_app in Hok as [_ Hok]. rewrite length_app in Hf. pose proof (length_pageRaw page).
    destruct (IH rest a1 (acc ++ pk) Hok ltac:(lia)) as (d & r & HW & HR). exists d, r. split; [done|]. destruct r as [ps|e|]; try done.
    destruct HR as (pages & more & H1 & -> & H3 & H4 & ->). exists (page :: pages), (pk ++ more). split_and!; [by constructor|unfold streamOf; cbn [map concat]; by rewrite <-app_assoc|done| |by rewrite app_assoc].
    rewrite assembleAll_cons, HA. cbn [mbind Go_bind fst snd]. rewrite H4. done.
  - exists (MkDecoder pending a), (Ret acc). split; [done|]. exists [], []. split_and!; [constructor|done|done|done|by rewrite app_nil_r].
  - by eexists _, _.
Qed.

(** A beginning of a stream is whole pages and a beginning of the next. *)
Lemma streamOf_split pages l k : l ++ k = streamOf pages ->
  exists before after q, pages = before ++ after /\ l = streamOf before ++ q /\ q ++ k = streamOf after /\
    (q = [] \/ exists p after' r, after = p :: after' /\ pageRaw p = q ++ r /\ r <> []).
Proof.
  revert l. induction pages as [|p pages IH]; intros l HL.
  { apply app_eq_nil in HL as [-> ->]. exists [], [], []. split_and!; try done. by left. }
  unfold streamOf in HL. cbn [map concat] in HL. fold (streamOf pages) in HL. destruct (Nat.le_gt_cases (length (pageRaw p)) (length l)) as [Hge|Hlt].
  - assert (l = pageRaw p ++ drop (length (pageRaw p)) l) as Hl.
    { rewrite <-(take_drop (length (pageRaw p)) l) at 1. f_equal. apply (f_equal (take (length (pageRaw p)))) in HL. rewrite (take_app_length (pageRaw p)), (take_app_le l) in HL by lia. done. }
    rewrite Hl, <-app_assoc in HL. apply app_inv_head in HL. destruct (IH _ HL) as (before & after & q & -> & Hq & Hk & Hor).
    exists (p :: before), after, q. split_and!; [done|rewrite Hl, Hq; unfold streamOf; cbn [map concat]; by rewrite <-app_assoc|done|done].
  - exists [], (p :: pages), l. split_and!; [done|done|done|]. right. exists p, pages, (drop (length l) (pageRaw p)). split_and!; [done| |].
    + apply (f_equal (take (length l))) in HL. rewrite (take_app_length l), (take_app_le (pageRaw p)) in HL by lia. rewrite HL at 1. by rewrite take_drop.
    + intros E. apply (f_equal length) in E. rewrite length_drop in E. cbn [length] in E. lia.
Qed.

(** ** Chunks *)

(** A decoder fed a list of chunks: the packets of all the calls, or the first error. *)
Fixpoint feed (d : PacketDecoder) (chunks : list Bytes) (acc : list Packet) : option (PacketDecoder * Go oggError (list Packet)) :=
  match chunks with
  | [] => Some (d, Ret acc)
  | c :: chunks =>
      match Decoder_Write (Some d) c with
      | Some (Some d', Ret ps) => feed d' chunks (acc ++ ps)
      | Some (Some d', Fail e) => Some (d', Fail e)
      | Some (Some d', Panic) => Some (d', Panic)
      | _ => None
      end
  end.

(** The whole stream at once. *)
Definition decodeWhole (stream : Bytes) : option (Go oggError (list Packet)) :=
  match ParsePages stream with
  | Some (Ret pages) => Some (ExtractPackets (map Some pages))
  | Some (Fail e) => Some (Fail e)
  | Some Panic => Some Panic
  | None => None
  end.

Lemma assembly_empty pages a a' ps : (as_expecting a = false -> as_buf a = []) -> Forall sealed pages -> assembleAll a pages = Ret (a', ps) ->
  as_expecting a' = false -> as_buf a' = [].
Proof.
  intros Ha HS. revert a ps Ha. induction HS as [|p pages Hp HS IH]; intros a ps Ha HA; [by injection HA as <- <-|].
  rewrite assembleAll_cons in HA. apply bind_Ret in HA as ([a1 pk] & HA & HR). apply bind_Ret in HR as ([a2 pk2] & HR & [= <- <-]). cbn [fst snd] in *.
  apply (IH a1 pk2); [|done]. unfold assemblePage in HA. apply bind_Ret in HA as ([] & _ & HA). apply bind_Ret in HA as ([[a3 pk3] off] & HF & HA).
  apply bind_Ret in HA as ([] & _ & [= -> ->]). revert HF. generalize (imap pair (pg_Segments p)) as segs. intros segs.
  apply (foldGo_inv (fun st => as_expecting st.1.1 = false -> as_buf st.1.1 = []) (segmentStep p) (a, [], 0%nat) segs (a1, pk, off)); [|done].
  intros [[b pk4] o] [i s] b' _ _ HX. unfold segmentStep in HX. apply bind_Ret in HX as ([] & _ & HX). apply bind_Ret in HX as (buf & _ & HX).
  destruct (s <? maxSegmentSize); injection HX as <-; done.
Qed.

Lemma feed_complete chunks d pages a ps acc :
  nextPage (pd_pending d) = Ret None -> Forall sealed pages -> pd_pending d ++ concat chunks = streamOf pages ->
  assembleAll (pd_assembly d) pages = Ret (a, ps) -> feed d chunks acc = Some (MkDecoder [] a, Ret (acc ++ ps)).
Proof.
  revert d pages ps acc. induction chunks as [|c chunks IH]; intros d pages ps acc Hn HS HP HA; cbn [feed].
  - cbn in HP. rewrite app_nil_r in HP. destruct pages as [|p pages].
    + cbn in HP, HA. injection HA as <- <-. destruct d as [pe ?]. cbn in *. subst pe. by rewrite app_nil_r.
    + exfalso. unfold streamOf in HP. cbn [map concat] in HP. apply Forall_cons in HS as [Hp _]. rewrite HP, nextPage_page in Hn; done.
  - cbn [concat] in HP. destruct (Nat.eqb_spec (length c) 0) as [Hz|Hz].
    { apply nil_length_inv in Hz as ->. cbn [Decoder_Write length Nat.eqb]. rewrite app_nil_r. by apply (IH d pages). }
    cbn [Decoder_Write]. rewrite (proj2 (Nat.eqb_neq _ _)) by done. rewrite app_assoc in HP.
    destruct (streamOf_split _ _ _ HP) as (before & after & q & -> & HQ & Hk & Hor). apply Forall_app in HS as [HSb HSa].
    rewrite assembleAll_app in HA. apply bind_Ret in HA as ([a1 pk1] & HA1 & HA). apply bind_Ret in HA as ([a2 pk2] & HA2 & [= <- <-]). cbn [fst snd] in *.
    assert (nextPage q = Ret None) as Hq.
    { destruct Hor as [->|(p & after' & r & -> & HR & Hne)]; [done|]. apply Forall_cons in HSa as [Hp _]. by eapply nextPage_prefix. }
    rewrite HQ, (writeLoop_complete before _ _ q [] a1 pk1); [|done| |done|done].
    2:{ rewrite length_app. pose proof (length_streamOf before). lia. }
    change ([] ++ pk1) with pk1. rewrite (IH (MkDecoder q a1) after pk2 (acc ++ pk1)); [by rewrite <-app_assoc|done..].
Qed.

Lemma feed_sound chunks d acc : Forall bytesOk chunks -> bytesOk (pd_pending d) -> nextPage (pd_pending d) = Ret None ->
  exists d' r, feed d chunks acc = Some (d', r) /\
    match r with
    | Ret ps => exists pages more, Forall sealed pages /\ pd_pending d ++ concat chunks = streamOf pages ++ pd_pending d' /\
                  assembleAll (pd_assembly d) pages = Ret (pd_assembly d', more) /\ ps = acc ++ more
    | Fail _ => True
    | Panic => False
    end.
Proof.
  intros HC. revert d acc. induction HC as [|c chunks Hc HC IH]; intros d acc Hok Hn; cbn [feed].
  { exists d, (Ret acc). split; [done|]. exists [], []. cbn. by rewrite !app_nil_r. }
  cbn [Decoder_Write]. destruct (Nat.eqb_spec (length c) 0) as [Hz|Hz].
  { apply nil_length_inv in Hz as ->. rewrite app_nil_r. by apply IH. }
  assert (bytesOk (pd_pending d ++ c)) as Hok' by (by apply Forall_app).
  destruct (writeLoop_sound (length (pd_pending d ++ c)) (pd_pending d ++ c) (pd_assembly d) [] Hok' (le_n _)) as (d1 & r1 & -> & HR).
  destruct r1 as [ps|e|]; [|by eexists _, _|done]. destruct HR as (pages & more & HS & HP & Hn1 & HA & ->). cbn [app].
  assert (bytesOk (pd_pending d1)) as Hok1 by (rewrite HP in Hok'; by apply Forall_app in Hok' as [_ ?]).
  destruct (IH d1 (acc ++ more) Hok1 Hn1) as (d' & r & -> & HR). exists d', r. split; [done|]. destruct r as [ps|e|]; try done.
  destruct HR as (pages2 & more2 & HS2 & HP2 & HA2 & ->). exists (pages ++ pages2), (more ++ more2). split_and!; [by apply Forall_app| | |by rewrite app_assoc].
  - cbn [concat]. rewrite app_assoc, HP, <-app_assoc, HP2. unfold streamOf. by rewrite map_app, concat_app, <-app_assoc.
  - rewrite assembleAll_app, HA. cbn [mbind Go_bind fst snd]. rewrite HA2. done.
Qed.

(** C31: The incremental decoder agrees with decoding the whole stream: for every way of
    cutting a byte stream into chunks, feeding them one by one succeeds with a clean
    [Close] exactly when [ParsePages] and [ExtractPackets] succeed on the whole
    stream, and then returns the same packets; it terminates without a panic on any
    chunks. *)
Theorem PacketDecoder_chunks chunks :
  Forall bytesOk chunks ->
  (exists d r, feed NewPacketDecoder chunks [] = Some (d, r) /\ r <> Panic) /\
  forall ps, (exists d, feed NewPacketDecoder chunks [] = Some (d, Ret ps) /\ Decoder_Close (Some d) = Ret tt) <->
             decodeWhole (concat chunks) = Some (Ret ps).
Proof.
  intros HC. assert (bytesOk (concat chunks)) as Hok by (apply Forall_concat; exact HC).
  destruct (feed_sound chunks NewPacketDecoder [] HC) as (d & r & HF & HR); [constructor|done|].
  split; [exists d, r; split; [done|by intros ->]|]. intros ps. unfold decodeWhole. split.
  - intros (d' & HF' & HCl). rewrite HF in HF'. injection HF' as <- ->. destruct HR as (pages & more & HS & HP & HA & ->). cbn [app] in *.
    unfold Decoder_Close in HCl. apply bind_Ret in HCl as ([] & Hz%check_Ret%negb_false_iff%Nat.eqb_eq & [He _]%check_Ret%orb_false_iff).
    apply nil_length_inv in Hz. rewrite Hz, app_nil_r in HP. cbn [NewPacketDecoder pd_pending pd_assembly app] in HP, HA.
    rewrite (proj2 (ParsePages_iff _ pages Hok)) by done. unfold ExtractPackets.
    rewrite extract_assemble by (eapply Forall_impl; [exact HS|by intros p [_ ?]%sealed_parts]). rewrite HA. cbn [mbind Go_bind fst snd]. by rewrite He.
  - destruct (ParsePages (concat chunks)) as [[pages|e|]|] eqn:HP; [|done..]. apply ParsePages_iff in HP as [HS HP]; [|done]. intros [= HE].
    unfold ExtractPackets in HE. rewrite extract_assemble in HE by (eapply Forall_impl; [exact HS|by intros p [_ ?]%sealed_parts]).
    destruct (assembleAll noAssembly pages) as [[a pk]|e|] eqn:HA; [|done..]. cbn [mbind Go_bind fst snd app] in HE. apply bind_Ret in HE as ([] & He%check_Ret & [= <-]).
    exists (MkDecoder [] a). rewrite (feed_complete chunks NewPacketDecoder pages a pk []) by done. split; [done|]. unfold Decoder_Close. cbn [pd_pending pd_assembly length Nat.eqb negb check mbind Go_bind].
    rewrite He, (assembly_empty pages noAssembly a pk) by done. done.
Qed.
