(* ===== verification/OggStream.v ===== *)
(** * ogg: streams

    [src/pkgs/audio/codec/ogg/stream_reader.go] and [stream_writer.go].  An
    [io.Writer] is a parameter: its [Write] returns
    how many bytes it took and an error. *)

From stdpp Require Import list.
From S2P Require Import Prelude GoBytes OggPage OggCRC OggPageProps OggPacket OggPacketProps.

Open Scope Z_scope.

(** ** Reading *)

(** [io.EOF] itself, [fmt.Errorf("<context>: %w", err)], or a text. *)
Inductive streamError :=
  | StreamEOF
  | StreamWrap (context : string) (e : ioError)
  | StreamText (text : string).

#[export] Instance streamError_eq_dec : EqDecision streamError.
Proof. solve_decision. Defined.

(** [errors.Is(err, io.EOF)]. *)
Definition isEOF (e : streamError) : bool :=
  match e with StreamEOF => true | StreamWrap _ IoEOF => true | _ => false end.

(** [ReadFull] with an error reported as truncation or as a failure. *)
Definition readPart (truncated failed : string) (n : nat) : ST Reader streamError Bytes :=
  mapErrST (fun e => match e with IoOther _ => StreamWrap failed e | _ => StreamWrap truncated e end) (readFull n).

(** A nil reader is [None]. *)
Definition NextPage_ : ST Reader streamError Page :=
  header ← mapErrST (fun e => match e with
                              | IoEOF => StreamEOF
                              | IoUnexpectedEOF => StreamWrap "ogg: read page: truncated header" e
                              | IoOther _ => StreamWrap "ogg: read page: read header failed" e
                              end) (readFull pageHeaderSize);
  count ← lift (index header 26);
  segments ← readPart "ogg: read page: truncated segment table" "ogg: read page: read segment table failed" (Z.to_nat count);
  payload ← readPart "ogg: read page: truncated payload" "ogg: read page: read payload failed" (sumBytes segments);
  match ParsePage (header ++ segments ++ payload) with
  | Ret page => mret page
  | Fail e => failST (StreamText e)
  | Panic => lift Panic
  end.

Definition StreamReader_NextPage (r : option Reader) : option Reader * Go streamError Page :=
  match r with
  | None => (None, Fail (StreamText "ogg: read page: reader is nil"))
  | Some r => let '(r', x) := NextPage_ r in (Some r', x)
  end.

(** The loop of [ReadAllPages]; each page consumes at least its header. *)
Fixpoint readPagesLoop (fuel : nat) (r : Reader) (pages : list Page) : option (Reader * Go streamError (list Page)) :=
  match fuel with
  | O => None
  | S fuel =>
      match NextPage_ r with
      | (r', Ret p) => readPagesLoop fuel r' (pages ++ [p])
      | (r', Fail e) => if isEOF e then Some (r', Ret pages) else Some (r', Fail e)
      | (r', Panic) => Some (r', Panic)
      end
  end.

Definition ReadAllPages (r : Reader) : option (Reader * Go streamError (list Page)) := readPagesLoop (S (length (rd_data r))) r [].

Definition ReadAllPackets (r : Reader) : option (Go streamError (list Packet)) :=
  match ReadAllPages r with
  | None => None
  | Some (_, Ret pages) =>
      Some (match ExtractPackets (map Some pages) with Ret l => Ret l | Fail e => Fail (StreamText e) | Panic => Panic end)
  | Some (_, Fail e) => Some (Fail e)
  | Some (_, Panic) => Some Panic
  end.

(** *** The packet sequence

    [Packets] yields packets and at most one error, the last item; a consumer that
    stops early sees a beginning of the items. *)
Definition item : Type := Packet + streamError.

(** The loop over the segments of a page: a packet is yielded as soon as it is
    complete.  [inl] continues with the assembly, [inr] has returned. *)
Fixpoint yieldSegments (page : Page) (a : assembly) (payloadOffset : nat) (segs : list (nat * Z)) (out : list item) : (assembly * nat + unit) * list item :=
  match segs with
  | [] => (inl (a, payloadOffset), out)
  | s :: segs =>
      match segmentStep page (a, [], payloadOffset) s with
      | Ret (a', pkts, off) => yieldSegments page a' off segs (out ++ map inl pkts)
      | Fail e => (inr tt, out ++ [inr (StreamText e)])
      | Panic => (inr tt, out)
      end
  end.

Fixpoint packetsLoop (fuel : nat) (r : Reader) (a : assembly) (out : list item) : option (list item) :=
  match fuel with
  | O => None
  | S fuel =>
      match NextPage_ r with
      | (_, Fail e) =>
          if isEOF e then Some (if as_expecting a then out ++ [inr (StreamText "stream ended with unterminated packet")] else out)
          else Some (out ++ [inr e])
      | (_, Panic) => Some out
      | (r', Ret page) =>
          if HasContinuation (Some page) && negb (as_expecting a) then Some (out ++ [inr (StreamText "unexpected continuation")])
          else if negb (HasContinuation (Some page)) && as_expecting a then Some (out ++ [inr (StreamText "missing continuation")])
          else
            match yieldSegments page a 0 (imap pair (pg_Segments page)) out with
            | (inr _, out) => Some out
            | (inl (a', payloadOffset), out) =>
                if negb (payloadOffset =? length (pg_Payload page))%nat then Some (out ++ [inr (StreamText "trailing payload")])
                else packetsLoop fuel r' a' out
            end
      end
  end.

Definition StreamReader_Packets (r : option Reader) : option (list item) :=
  match r with
  | None => Some [inr (StreamText "reader is nil")]
  | Some r => packetsLoop (S (length (rd_data r))) r noAssembly []
  end.

(** ** Writing *)
Record StreamWriter := MkStreamWriter {
  sw_serial : Z;
  sw_nextSequence : Z;
  sw_started : bool;
  sw_ended : bool;
  sw_broken : bool
}.

(** The writer handed in may be nil. *)
Definition NewStreamWriter (hasWriter : bool) (serial : Z) : Go oggError StreamWriter :=
  _ ← check (negb hasWriter) "writer is nil"%string;
  Ret (MkStreamWriter serial 0 false false false).

Definition NextSequence (sw : option StreamWriter) : Z :=
  match sw with None => 0 | Some sw => sw_nextSequence sw end.

Section writer.
Context {W : Type} (write : Bytes -> W -> W * (nat * option string)).

(** The page was taken whole. *)
Definition pageWritten (sw : StreamWriter) : StreamWriter :=
  MkStreamWriter (sw_serial sw) (wrap 32 (sw_nextSequence sw + 1)) true (sw_ended sw) (sw_broken sw).
Definition breakStream (sw : StreamWriter) : StreamWriter :=
  MkStreamWriter (sw_serial sw) (sw_nextSequence sw) (sw_started sw) (sw_ended sw) true.
Definition endStream (sw : StreamWriter) : StreamWriter :=
  MkStreamWriter (sw_serial sw) (sw_nextSequence sw) (sw_started sw) true (sw_broken sw).

(** The loop over the pages of a packet: the number of bytes written, and the error. *)
Fixpoint writePages (idx : nat) (pages : list Page) (written : nat) (sw : StreamWriter) (w : W) : StreamWriter * W * (nat * Go oggError unit) :=
  match pages with
  | [] => (sw, w, (written, Ret tt))
  | p :: pages =>
      match MarshalBinary (Some p) with
      | Fail e => (sw, w, (written, Fail e))
      | Panic => (sw, w, (written, Panic))
      | Ret raw =>
          let '(w, (n, werr)) := write raw w in
          let written := (written + n)%nat in
          let sw := if (n =? length raw)%nat then pageWritten sw else sw in
          match werr with
          | Some e => (if (0 <? n)%nat || (0 <? idx)%nat then breakStream sw else sw, w, (written, Fail "write page failed"%string))
          | None =>
              if negb (n =? length raw)%nat then (breakStream sw, w, (written, Fail "short write"%string))
              else writePages (S idx) pages written sw w
          end
      end
  end.

Definition WritePacket (sw : option StreamWriter) (packet : Bytes) (granulePos : Z) (eos : bool) (w : W) :
    option (option StreamWriter * W * (nat * Go oggError unit)) :=
  match sw with
  | None => Some (None, w, (0%nat, Fail "writer is nil"%string))
  | Some sw =>
      if sw_broken sw then Some (Some sw, w, (0%nat, Fail "stream is broken after previous partial write failure"%string))
      else if sw_ended sw then Some (Some sw, w, (0%nat, Fail "stream already ended"%string))
      else
        match BuildPacketPages (sw_serial sw) (sw_nextSequence sw) granulePos packet (negb (sw_started sw)) eos with
        | None => None
        | Some (Fail e) => Some (Some sw, w, (0%nat, Fail e))
        | Some Panic => Some (Some sw, w, (0%nat, Panic))
        | Some (Ret pages) =>
            let '(sw, w, (written, r)) := writePages 0 pages 0 sw w in
            Some (Some (match r with Ret _ => if eos then endStream sw else sw | _ => sw end), w, (written, r))
        end
  end.
End writer.

(** * ogg: streams read and written

    What a reader makes of the bytes of an [io.Reader], also when they stop early;
    and what a writer leaves on an [io.Writer] that fails or writes short: as long as
    the stream is not marked broken, its bytes read back as exactly the packets whose
    writes succeeded. *)

(** ** Reading pages *)
Lemma pageRaw_parts p : sealed p ->
  exists header, length header = 27%nat /\ pageRaw p = header ++ pg_Segments p ++ pg_Payload p /\ header !! 26%nat = Some (Z.of_nat (length (pg_Segments p))).
Proof.
  intros (_ & (_ & _ & Hlen & _)%validate_Ret & _). exists (take 27 (pageRaw p)). split_and!; [done|done|]. cbn. by rewrite Z.mod_small by lia.
Qed.

#[local] Opaque pageRaw.

(** A page at the front of the reader's bytes is read and nothing else. *)
Lemma NextPage_page p rest e : sealed p -> NextPage_ (MkReader (pageRaw p ++ rest) e) = (MkReader rest e, Ret p).
Proof.
  intros Hs. destruct (pageRaw_parts p Hs) as (header & HL & HR & H26). pose proof (sealed_parts p Hs) as [_ (_ & _ & _ & Hsum)%validate_Ret].
  pose proof (proj2 (ParsePage_iff (pageRaw p) p (pageRaw_ok p Hs)) (conj Hs eq_refl)) as HP. rewrite HR in HP |- *. rewrite <-!app_assoc.
  unfold NextPage_, readPart, mbind, ST_bind, mapErrST, lift. change pageHeaderSize with 27%nat. rewrite <-HL, readFull_app. unfold index. rewrite H26, Nat2Z.id, readFull_app.
  rewrite Hsum, readFull_app, HP. done.
Qed.

(** A page is only returned for its own bytes. *)
Lemma NextPage_sound r r' p : bytesOk (rd_data r) -> NextPage_ r = (r', Ret p) -> sealed p /\ rd_data r = pageRaw p ++ rd_data r' /\ rd_end r' = rd_end r.
Proof.
  intros Hok. unfold NextPage_, readPart, mbind, ST_bind, mapErrST, lift. destruct (readFull pageHeaderSize r) as [r1 [header|e|]] eqn:E1; [|done..].
  destruct (index header 26) as [count|e|]; [|done..]. destruct (readFull (Z.to_nat count) r1) as [r2 [segs|e|]] eqn:E2; [|done..].
  destruct (readFull (sumBytes segs) r2) as [r3 [payload|e|]] eqn:E3; [|done..].
  destruct (ParsePage (header ++ segs ++ payload)) as [q|e|] eqn:HP; [|done..]. intros [= <- <-].
  apply readFull_sound in E1 as (H1 & _ & X1), E2 as (H2 & _ & X2), E3 as (H3 & _ & X3). rewrite H2, H3 in H1.
  apply ParsePage_iff in HP as [Hs HP]; [|rewrite H1 in Hok; rewrite !app_assoc in Hok; apply Forall_app in Hok as [Hok _]; by rewrite <-!app_assoc in Hok].
  split_and!; [done|rewrite H1; change (pageRaw q) with (pageBytes q (pg_Checksum q)); by rewrite <-HP, <-!app_assoc|congruence].
Qed.

Lemma NextPage_not_Panic r r' : NextPage_ r <> (r', Panic).
Proof.
  unfold NextPage_, readPart, mbind, ST_bind, mapErrST, lift, failST. destruct (readFull pageHeaderSize r) as [r1 [header|e|]] eqn:E1; [|done|].
  2:{ unfold readFull in E1. by repeat case_match. }
  apply readFull_sound in E1 as (_ & HL & _). destruct (index_ok (E := streamError) header 26 ltac:(rewrite HL; unfold pageHeaderSize; lia)) as (c & -> & _).
  destruct (readFull (Z.to_nat c) r1) as [r2 [segs|e|]] eqn:E2; [|done|unfold readFull in E2; by repeat case_match].
  destruct (readFull (sumBytes segs) r2) as [r3 [payload|e|]] eqn:E3; [|done|unfold readFull in E3; by repeat case_match].
  destruct (ParsePage _) as [q|e|] eqn:HP; [done|done|]. by apply ParsePage_not_Panic in HP.
Qed.

(** ** Where a stream may stop *)

(** After a whole header that announces segments, or after a whole segment table that
    announces a payload, the end of the input is taken for the end of the stream. *)
Definition silentTail (tail : Bytes) : Prop :=
  tail = [] \/
  exists c, tail !! 26%nat = Some c /\ 0 < c /\
    (length tail = 27%nat \/ (length tail = (27 + Z.to_nat c)%nat /\ (0 < sumBytes (drop 27 tail))%nat)).

Lemma NextPage_spec data r' e :
  bytesOk data -> NextPage_ (MkReader data IoEOF) = (r', Fail e) -> isEOF e = true <-> silentTail data.
Proof.
  intros Hok. unfold NextPage_, readPart, mbind, ST_bind, mapErrST, lift. unfold readFull at 1. change pageHeaderSize with 27%nat. cbn [Nat.eqb rd_data rd_end].
  destruct (Nat.leb_spec 27 (length data)) as [H27|H27].
  2:{ rewrite bool_decide_eq_true_2 by done. cbn [andb]. destruct (Nat.eqb_spec (length data) 0) as [Hz|Hz]; cbn [negb]; intros [= <- <-]; cbn [isEOF].
      - split; [|done]. intros _. left. by apply nil_length_inv.
      - split; [done|]. intros [->|(c & Hc & _ & Hlen)]; [done|]. apply lookup_lt_Some in Hc. lia. }
  destruct (lookup_lt_is_Some_2 data 26 ltac:(lia)) as [c Hc]. assert (isByte c) as Hb by exact (Forall_lookup_1 _ _ _ _ Hok Hc). unfold isByte in Hb.
  unfold index at 1. rewrite lookup_take_lt, Hc by lia. unfold readFull at 1. cbn [rd_data rd_end].
  assert (length (drop 27 data) = length data - 27)%nat as HLd by apply length_drop.
  destruct (Nat.eqb_spec (Z.to_nat c) 0) as [Hc0|Hc0].
  { cbn [sumBytes foldl]. unfold readFull. cbn [Nat.eqb]. rewrite !app_nil_r. destruct (ParsePage _) as [q|x|]; [done| |done]. intros [= <- <-]. cbn [isEOF].
    split; [done|]. intros [->|(c' & Hc' & Hpos & _)]; [done|]. rewrite Hc in Hc'. injection Hc' as <-. lia. }
  destruct (Nat.leb_spec (Z.to_nat c) (length (drop 27 data))) as [Hseg|Hseg].
  2:{ rewrite bool_decide_eq_true_2 by done. cbn [andb]. destruct (Nat.eqb_spec (length (drop 27 data)) 0) as [Hz|Hz]; cbn [negb]; intros [= <- <-]; cbn [isEOF].
      - split; [|done]. intros _. right. exists c. split_and!; [done|lia|]. left. lia.
      - split; [done|]. intros [->|(c' & Hc' & _ & [HL|[HL _]])]; [done|lia|]. rewrite Hc in Hc'. injection Hc' as <-. lia. }
  set (segs := take (Z.to_nat c) (drop 27 data)). assert (length (drop (Z.to_nat c) (drop 27 data)) = length data - 27 - Z.to_nat c)%nat as HLp by (rewrite length_drop; lia).
  assert (length data = (27 + Z.to_nat c)%nat -> segs = drop 27 data) as Hall by (intros HL; unfold segs; apply take_ge; lia).
  unfold readFull at 1. cbn [rd_data rd_end]. destruct (Nat.eqb_spec (sumBytes segs) 0) as [Hs0|Hs0].
  { destruct (ParsePage _) as [q|x|]; [done| |done]. intros [= <- <-]. cbn [isEOF]. split; [done|]. intros [->|(c' & Hc' & _ & [HL|[HL HS]])]; [done|lia|].
    rewrite Hc in Hc'. injection Hc' as <-. rewrite <-(Hall HL) in HS. lia. }
  destruct (Nat.leb_spec (sumBytes segs) (length (drop (Z.to_nat c) (drop 27 data)))) as [Hpay|Hpay].
  - destruct (ParsePage _) as [q|x|]; [done| |done]. intros [= <- <-]. cbn [isEOF]. split; [done|]. intros [->|(c' & Hc' & _ & [HL|[HL HS]])]; [done|lia|].
    rewrite Hc in Hc'. injection Hc' as <-. lia.
  - rewrite bool_decide_eq_true_2 by done. cbn [andb]. destruct (Nat.eqb_spec (length (drop (Z.to_nat c) (drop 27 data))) 0) as [Hz|Hz]; cbn [negb]; intros [= <- <-]; cbn [isEOF].
    + split; [|done]. intros _. right. exists c. split_and!; [done|lia|]. right. split; [lia|]. rewrite <-Hall by lia. lia.
    + split; [done|]. intros [->|(c' & Hc' & _ & [HL|[HL HS]])]; [done|lia|]. rewrite Hc in Hc'. injection Hc' as <-. lia.
Qed.

(** No page begins with such a tail. *)
Lemma silentTail_not_page p rest : sealed p -> silentTail (pageRaw p ++ rest) -> False.
Proof.
  intros Hs HT. destruct (pageRaw_parts p Hs) as (header & HL & HR & H26). pose proof (sealed_parts p Hs) as [_ (_ & _ & _ & Hsum)%validate_Ret].
  pose proof (length_pageRaw p) as H27. destruct HT as [E|(c & Hc & Hpos & HT)]; [apply (f_equal length) in E; rewrite length_app in E; cbn [length] in E; lia|].
  rewrite HR, <-!app_assoc in Hc, HT. rewrite lookup_app_l, H26 in Hc by lia. injection Hc as <-. rewrite !length_app in HT. rewrite Nat2Z.id in HT.
  destruct HT as [HT|[HT HS]]; [lia|]. rewrite drop_app_ge in HS by lia. rewrite HL, Nat.sub_diag, drop_0 in HS.
  rewrite !sumBytes_app, Hsum in HS. assert (pg_Payload p = [] /\ rest = []) as [E1 E2] by (split; apply nil_length_inv; lia). rewrite E1, E2 in HS. cbn in HS. lia.
Qed.

Lemma readLoop_complete pages fuel tail acc : Forall sealed pages -> bytesOk tail -> silentTail tail -> (length pages < fuel)%nat ->
  exists r, readPagesLoop fuel (MkReader (streamOf pages ++ tail) IoEOF) acc = Some (r, Ret (acc ++ pages)).
Proof.
  intros HS Ht HT. revert fuel acc. induction HS as [|p pages Hp HS IH]; intros fuel acc Hf; (destruct fuel as [|fuel]; [cbn in Hf; lia|]); cbn [readPagesLoop].
  - change (streamOf [] ++ tail) with tail. rewrite app_nil_r. destruct (NextPage_ (MkReader tail IoEOF)) as [r1 [q|e|]] eqn:E.
    + exfalso. destruct (NextPage_sound (MkReader tail IoEOF) _ _ Ht E) as (Hq & HD & _). cbn [rd_data] in HD. rewrite HD in HT. exact (silentTail_not_page q _ Hq HT).
    + rewrite (proj2 (NextPage_spec tail r1 e Ht E) HT). by exists r1.
    + by apply NextPage_not_Panic in E.
  - unfold streamOf. cbn [map concat]. rewrite <-app_assoc, NextPage_page by done. destruct (IH fuel (acc ++ [p])) as [r Hr]; [cbn in Hf; lia|].
    exists r. fold (streamOf pages). rewrite Hr. by rewrite <-app_assoc.
Qed.

Lemma readLoop_sound fuel data acc : bytesOk data -> (length data < fuel)%nat ->
  exists r x, readPagesLoop fuel (MkReader data IoEOF) acc = Some (r, x) /\
    match x with
    | Ret pages => exists more tail, pages = acc ++ more /\ Forall sealed more /\ data = streamOf more ++ tail /\ silentTail tail
    | Fail _ => True
    | Panic => False
    end.
Proof.
  revert data acc. induction fuel as [|fuel IH]; intros data acc Hok Hf; [lia|]. cbn [readPagesLoop].
  destruct (NextPage_ (MkReader data IoEOF)) as [r1 [p|e|]] eqn:E; [| |by apply NextPage_not_Panic in E].
  - destruct (NextPage_sound (MkReader data IoEOF) _ _ Hok E) as (Hp & HD & HE). cbn in HD, HE. destruct r1 as [rest e]. cbn in HD, HE. subst e.
    rewrite HD in Hok, Hf. apply Forall_app in Hok as [_ Hok]. rewrite length_app in Hf. pose proof (length_pageRaw p).
    destruct (IH rest (acc ++ [p]) Hok ltac:(lia)) as (r & x & -> & HX). exists r, x. split; [done|]. destruct x as [pages|x|]; try done.
    destruct HX as (more & tail & -> & HS & -> & HT). exists (p :: more), tail. split_and!; [by rewrite <-app_assoc|by constructor|rewrite HD; unfold streamOf; cbn [map concat]; by rewrite <-app_assoc|done].
  - destruct (isEOF e) eqn:He; [|by eexists _, _]. exists r1, (Ret acc). split; [done|]. exists [], data. split_and!; [by rewrite app_nil_r|constructor|done|].
    by apply (NextPage_spec data r1 e Hok E).
Qed.

(** [ReadAllPages] terminates without a panic, and says exactly what it accepts:
    it returns [pages] for the printed pages followed by a tail that is empty - or
    that is cut right behind a page header or a segment table, whose missing rest it
    does not notice. *)
Theorem ReadAllPages_accepts data :
  bytesOk data ->
  (exists r x, ReadAllPages (MkReader data IoEOF) = Some (r, x) /\ x <> Panic) /\
  forall pages, (exists r, ReadAllPages (MkReader data IoEOF) = Some (r, Ret pages)) <->
                Forall sealed pages /\ exists tail, data = streamOf pages ++ tail /\ silentTail tail.
Proof.
  intros Hok. unfold ReadAllPages. cbn [rd_data]. destruct (readLoop_sound (S (length data)) data [] Hok ltac:(lia)) as (r & x & HR & HX).
  split; [exists r, x; split; [done|by intros ->]|]. intros pages. split.
  - intros [r' HR']. rewrite HR in HR'. injection HR' as <- ->. destruct HX as (more & tail & -> & HS & HD & HT). cbn [app]. split; [done|by exists tail].
  - intros [HS (tail & -> & HT)]. apply (readLoop_complete pages (S (length (streamOf pages ++ tail))) tail []); [done|by apply Forall_app in Hok as [_ ?]|done|].
    rewrite length_app. pose proof (length_streamOf pages). lia.
Qed.

(** A stream cut in the middle of a page is reported as complete when the cut falls
    right behind a page header that announces segments: [ReadAllPages] returns the
    pages before it and no error. *)
Theorem ReadAllPages_misses_truncation pages p :
  Forall sealed pages -> sealed p -> pg_Segments p <> [] ->
  exists r, ReadAllPages (MkReader (streamOf pages ++ take 27 (pageRaw p)) IoEOF) = Some (r, Ret pages).
Proof.
  intros HS Hp Hne. destruct (pageRaw_parts p Hp) as (header & HL & HR & H26).
  assert (take 27 (pageRaw p) = header) as -> by (rewrite HR, <-HL; apply take_app_length).
  assert (bytesOk header) as Hh by (pose proof (pageRaw_ok p Hp) as Hok; rewrite HR in Hok; by apply Forall_app in Hok as [? _]).
  apply (readLoop_complete pages _ header []); [done|done| |cbn [rd_data]; rewrite length_app; pose proof (length_streamOf pages); lia].
  right. exists (Z.of_nat (length (pg_Segments p))). split_and!; [done|destruct (pg_Segments p); [done|cbn; lia]|by left].
Qed.
