(* ===== verification/OggWriterProps.v ===== *)
(** * ogg: the packet sequence and the stream writer

    The packets that [StreamReader.Packets] yields one by one are those of
    [ReadAllPackets].  A [StreamWriter] on an [io.Writer] that fails or writes short at
    any moment: as long as the stream is not marked broken, its bytes read back as
    exactly the packets whose writes succeeded. *)

From stdpp Require Import list.
From S2P Require Import Prelude GoBytes OggPage OggCRC OggPageProps OggPacket OggPacketProps OggStream.

Open Scope Z_scope.

#[local] Opaque pageRaw.

(** ** The packet sequence *)
Lemma segmentStep_acc page a packets off s :
  segmentStep page (a, packets, off) s = (st ← segmentStep page (a, [], off) s; let '(a', pk, off') := st in Ret (a', packets ++ pk, off')).
Proof.
  destruct s as [i s]. unfold segmentStep. destruct (check _ _) as [[]|e|]; cbn [mbind Go_bind]; [|done..].
  match goal with |- context [if (0 <? Z.to_nat s)%nat then ?m else _] => destruct (if (0 <? Z.to_nat s)%nat then m else Ret (as_buf a)) as [buf|e|]; cbn [mbind Go_bind]; [|done..] end.
  destruct (s <? maxSegmentSize); cbn; [done|by rewrite app_nil_r].
Qed.

Lemma yieldSegments_fold page segs a packets off a' packets' off' out :
  foldGo (segmentStep page) (a, packets, off) segs = Ret (a', packets', off') ->
  exists more, packets' = packets ++ more /\ yieldSegments page a off segs out = (inl (a', off'), out ++ map inl more).
Proof.
  revert a packets off out. induction segs as [|s segs IH]; intros a packets off out; cbn [foldGo yieldSegments].
  { intros [= -> -> ->]. exists []. by rewrite !app_nil_r. }
  rewrite segmentStep_acc. destruct (segmentStep page (a, [], off) s) as [[[a1 pk] off1]|e|]; cbn [mbind Go_bind]; [|done..]. intros HF.
  destruct (IH a1 (packets ++ pk) off1 (out ++ map inl pk) HF) as (more & -> & ->). exists (pk ++ more). by rewrite map_app, !app_assoc.
Qed.

(** A page of the stream yields its packets, or is refused with one error. *)
Lemma packetsLoop_page fuel r r' a page out : sealed page -> NextPage_ r = (r', Ret page) ->
  match assemblePage a page with
  | Ret (a', pk) => packetsLoop (S fuel) r a out = packetsLoop fuel r' a' (out ++ map inl pk)
  | _ => exists e, packetsLoop (S fuel) r a out = Some (out ++ [inr e])
  end.
Proof.
  intros Hs HN. destruct (sealed_parts page Hs) as [Hb Hv]. cbn [packetsLoop]. rewrite HN.
  destruct (assemblePage_Fail a page Hb Hv) as [[Hc (a' & pk & HA)]|[Hc [e HA]]]; rewrite HA.
  - rewrite Hc. replace (as_expecting a && negb (as_expecting a)) with false by (by destruct (as_expecting a)).
    replace (negb (as_expecting a) && as_expecting a) with false by (by destruct (as_expecting a)). unfold assemblePage in HA.
    apply bind_Ret in HA as ([] & _ & HA). apply bind_Ret in HA as ([[a1 pk1] off] & HF & HA). apply bind_Ret in HA as ([] & Hoff%check_Ret & [= -> ->]).
    destruct (yieldSegments_fold _ _ _ _ _ _ _ _ out HF) as (more & -> & ->). cbn [app]. by rewrite Hoff.
  - destruct (HasContinuation (Some page)), (as_expecting a); try done; by eexists.
Qed.

(** Packets and then an error. *)
Definition cutShort (items : list item) : Prop := exists ps e, items = map inl ps ++ [inr e].

Lemma cutShort_app pk items : cutShort items -> cutShort (map inl pk ++ items).
Proof. intros (ps & e & ->). exists (pk ++ ps), e. by rewrite map_app, app_assoc. Qed.

(** The items that go with the pages [more] read from the assembly [a] on. *)
Definition itemsOf (a : assembly) (more : list Page) (items : list item) : Prop :=
  match assembleAll a more with
  | Ret (a', ps) => items = map inl ps ++ (if as_expecting a' then [inr (StreamText "stream ended with unterminated packet")] else [])
  | _ => cutShort items
  end.

Lemma itemsOf_cons a p more a1 pk items : assemblePage a p = Ret (a1, pk) -> itemsOf a1 more items -> itemsOf a (p :: more) (map inl pk ++ items).
Proof.
  intros HA. unfold itemsOf. rewrite assembleAll_cons, HA. cbn [mbind Go_bind fst snd].
  destruct (assembleAll a1 more) as [[a2 ps]|e|]; cbn [mbind Go_bind fst snd]; [by intros ->; rewrite map_app, app_assoc|apply cutShort_app..].
Qed.

Lemma itemsOf_refused a p more e : (forall a' ps, assemblePage a p <> Ret (a', ps)) -> itemsOf a (p :: more) [inr e].
Proof.
  intros HA. unfold itemsOf. rewrite assembleAll_cons. destruct (assemblePage a p) as [[a' ps]|x|]; cbn [mbind Go_bind]; [by destruct (HA a' ps)|by exists [], e..].
Qed.

(** What reading page by page and reading packet by packet have in common. *)
Lemma packetsLoop_spec fuel r a acc out : bytesOk (rd_data r) -> (length (rd_data r) < fuel)%nat ->
  exists r' x items, readPagesLoop fuel r acc = Some (r', x) /\ packetsLoop fuel r a out = Some (out ++ items) /\
    match x with
    | Ret pages => exists more, pages = acc ++ more /\ Forall sealed more /\ itemsOf a more items
    | Fail _ => cutShort items
    | Panic => False
    end.
Proof.
  revert r a acc out. induction fuel as [|fuel IH]; intros r a acc out Hok Hf; [lia|].
  destruct (NextPage_ r) as [r1 [p|e|]] eqn:HN; [| |by apply NextPage_not_Panic in HN].
  - destruct (NextPage_sound r r1 p Hok HN) as (Hp & HD & _). rewrite HD in Hok, Hf. apply Forall_app in Hok as [_ Hok]. rewrite length_app in Hf. pose proof (length_pageRaw p).
    pose proof (packetsLoop_page fuel r r1 a p out Hp HN) as HP. cbn [readPagesLoop]. rewrite HN. destruct (assemblePage a p) as [[a1 pk]|e|] eqn:HA.
    + rewrite HP. destruct (IH r1 a1 (acc ++ [p]) (out ++ map inl pk) Hok ltac:(lia)) as (r' & x & items & HR & -> & HX).
      exists r', x, (map inl pk ++ items). split_and!; [done|by rewrite app_assoc|]. destruct x as [pages|e|]; [|by apply cutShort_app|done].
      destruct HX as (more & -> & HS & HX). exists (p :: more). split_and!; [by rewrite <-app_assoc|by constructor|by eapply itemsOf_cons].
    + destruct HP as [e' ->]. destruct (IH r1 a (acc ++ [p]) out Hok ltac:(lia)) as (r' & x & items & HR & _ & HX). exists r', x, [inr e']. split_and!; [done|done|].
      destruct x as [pages|x|]; [|by exists [], e'|done]. destruct HX as (more & -> & HS & _). exists (p :: more).
      split_and!; [by rewrite <-app_assoc|by constructor|apply itemsOf_refused; by rewrite HA].
    + exfalso. destruct (sealed_parts p Hp) as [Hb Hv]. destruct (assemblePage_Fail a p Hb Hv) as [[_ (a' & pk & HA')]|[_ [e HA']]]; congruence.
  - cbn [readPagesLoop packetsLoop]. rewrite HN. destruct (isEOF e) eqn:He.
    + exists r1, (Ret acc), (if as_expecting a then [inr (StreamText "stream ended with unterminated packet")] else []). split_and!; [done|by destruct (as_expecting a); rewrite ?app_nil_r|].
      exists []. rewrite app_nil_r. split_and!; [done|constructor|done].
    + exists r1, (Fail e), [inr e]. split_and!; [done|done|]. by exists [], e.
Qed.

Lemma items_no_error (ps ps' : list Packet) (e : streamError) : map inl ps = map inl ps' ++ [inr e] -> False.
Proof. revert ps'. induction ps as [|p ps IH]; intros [|p' ps']; cbn; try done. intros [= _ HE]. by eapply IH. Qed.

(** [StreamReader.Packets] terminates on every stream, yields packets and at most one
    error behind them, and agrees with [ReadAllPackets]: it yields the packets [ps] and
    no error exactly when [ReadAllPackets] returns [ps]. *)
Theorem Packets_agrees r :
  bytesOk (rd_data r) ->
  exists items, StreamReader_Packets (Some r) = Some items /\
    (exists ps err, items = map inl ps ++ match err with Some e => [inr e] | None => [] end) /\
    forall ps, items = map inl ps <-> ReadAllPackets r = Some (Ret ps).
Proof.
  intros Hok. destruct (packetsLoop_spec (S (length (rd_data r))) r noAssembly [] [] Hok ltac:(lia)) as (r' & x & items & HR & HP & HX).
  exists items. split; [exact HP|]. unfold ReadAllPackets, ReadAllPages. rewrite HR. destruct x as [pages|e|]; [|destruct HX as (ps' & e' & ->)|done].
  2:{ split; [by exists ps', (Some e')|]. intros ps. split; [by intros ?%eq_sym%items_no_error|done]. }
  destruct HX as (more & -> & HS & HX). cbn [app]. unfold itemsOf in HX. unfold ExtractPackets. rewrite extract_assemble by (eapply Forall_impl; [exact HS|by intros p [_ ?]%sealed_parts]).
  destruct (assembleAll noAssembly more) as [[a ps']|e|]; cbn [mbind Go_bind fst snd app]; [destruct (as_expecting a)|..].
  all: try (destruct HX as (ps' & e' & HX)); rewrite ?HX; cbn [check mbind Go_bind].
  2:{ rewrite app_nil_r. split; [by exists ps', None; rewrite app_nil_r|]. intros ps. split; [by intros ->%(inj (map inl))|by intros [= ->]]. }
  all: split; [by eexists _, (Some _)|]; intros ps; split; [by intros ?%eq_sym%items_no_error|done].
Qed.

(** ** The stream writer *)

(** One call of [WritePacket]. *)
Record call := MkCall {
  c_packet : Bytes;
  c_granulePos : Z;
  c_eos : bool
}.
Definition callOk (c : call) : Prop := bytesOk (c_packet c) /\ Z.of_nat (length (c_packet c)) < 2 ^ 63 /\ uintOk 64 (c_granulePos c).

(** The packets that the accepted calls stand for: the first one begins the stream. *)
Definition packetsOf (acc : list call) : list Packet :=
  imap (fun i c => MkPacket (c_packet c) (c_granulePos c) (i =? 0)%nat (c_eos c)) acc.

Lemma packetsOf_snoc acc c : packetsOf (acc ++ [c]) = packetsOf acc ++ [MkPacket (c_packet c) (c_granulePos c) (length acc =? 0)%nat (c_eos c)].
Proof. unfold packetsOf. rewrite imap_app. cbn. by rewrite Nat.add_0_r. Qed.

(** Pages differ from their printed form in the checksum only. *)
Lemma assembleAll_seal a pages : assembleAll a (map seal pages) = assembleAll a pages.
Proof.
  revert a. induction pages as [|p pages IH]; intros a; [done|]. cbn [map]. rewrite !assembleAll_cons. change (assemblePage a (seal p)) with (assemblePage a p).
  destruct (assemblePage a p) as [[a' pk]|e|]; cbn [mbind Go_bind fst snd]; [by rewrite IH|done..].
Qed.

Lemma streamOf_app l k : streamOf (l ++ k) = streamOf l ++ streamOf k.
Proof. unfold streamOf. by rewrite map_app, concat_app. Qed.

Section writer.
Context {W : Type} (write : Bytes -> W -> W * (nat * option string)) (written : W -> Bytes).

(** What [io.Writer] promises: the count is within the slice, and that many bytes of it
    have been taken. *)
Hypothesis write_law : forall raw w, let '(w', (n, _)) := write raw w in (n <= length raw)%nat /\ written w' = written w ++ take n raw.

(** The state after [n] whole pages. *)
Definition afterPages (n : nat) (sw : StreamWriter) : StreamWriter :=
  if (n =? 0)%nat then sw else MkStreamWriter (sw_serial sw) (wrap 32 (sw_nextSequence sw + Z.of_nat n)) true (sw_ended sw) (sw_broken sw).

Lemma afterPages_S n sw : afterPages n (pageWritten sw) = afterPages (S n) sw.
Proof.
  unfold afterPages, pageWritten. destruct n as [|n]; [done|]. cbn [Nat.eqb sw_serial sw_nextSequence sw_ended sw_broken]. f_equal. unfold wrap.
  rewrite Zplus_mod_idemp_l. f_equal. lia.
Qed.

(** The pages are on the writer, or the stream is broken, or nothing has happened. *)
Lemma writePages_spec idx pages count sw w :
  Forall (fun p => pageOk p /\ Page_Validate (Some p) = Ret tt) pages ->
  let '(sw', w', (_, r)) := writePages write idx pages count sw w in
  match r with
  | Ret _ => written w' = written w ++ streamOf (map seal pages) /\ sw' = afterPages (length pages) sw
  | Fail _ => (sw_broken sw' = true /\ sw_serial sw' = sw_serial sw /\ sw_ended sw' = sw_ended sw /\ (uintOk 32 (sw_nextSequence sw) -> uintOk 32 (sw_nextSequence sw')) /\
               exists tail, written w' = written w ++ tail) \/
              (idx = 0%nat /\ sw' = sw /\ written w' = written w)
  | Panic => False
  end.
Proof.
  intros HF. revert idx count sw w. induction HF as [|p pages [Hok Hv] HF IH]; intros idx count sw w; cbn [writePages].
  { unfold streamOf. cbn. by rewrite app_nil_r. }
  assert (MarshalBinary (Some p) = Ret (pageRaw (seal p))) as -> by (apply Marshal_Ret; done).
  pose proof (write_law (pageRaw (seal p)) w) as HW. destruct (write (pageRaw (seal p)) w) as [w1 [n werr]]. destruct HW as [Hn HW].
  pose proof (length_pageRaw (seal p)) as H27. destruct (Nat.eqb_spec n (length (pageRaw (seal p)))) as [Hfull|Hpart]; cbn [negb].
  - assert (written w1 = written w ++ pageRaw (seal p)) as HW1 by (by rewrite HW, take_ge by lia). destruct werr as [e|].
    + replace ((0 <? n)%nat || (0 <? idx)%nat) with true by (symmetry; apply orb_true_iff; left; apply Nat.ltb_lt; lia). left.
      split_and!; [done..|intros _; by apply Z.mod_pos_bound|by eexists].
    + specialize (IH (S idx) (count + n)%nat (pageWritten sw) w1). destruct (writePages write (S idx) pages (count + n) (pageWritten sw) w1) as [[sw' w'] [m r]].
      destruct r as [u|e|]; [|left; destruct IH as [(H1 & H2 & H3 & H4 & tail & H5)|[? _]]; [|lia]|done].
      * destruct IH as [-> ->]. split; [rewrite HW1; unfold streamOf; cbn [map concat]; by rewrite <-app_assoc|apply afterPages_S].
      * split_and!; [done|done|done|intros _; apply H4; by apply Z.mod_pos_bound|]. exists (pageRaw (seal p) ++ tail). by rewrite H5, HW1, <-app_assoc.
  - destruct werr as [e|]; [|left; split_and!; [done..|by eexists]].
    destruct (Nat.ltb_spec 0 n) as [Hpos|Hz]; cbn [orb]; [left; split_and!; [done..|by eexists]|].
    destruct (Nat.ltb_spec 0 idx) as [Hi|Hi]; [left; split_and!; [done..|by eexists]|]. right. split_and!; [lia|done|]. rewrite HW. replace n with 0%nat by lia. by rewrite app_nil_r.
Qed.

(** What holds between calls: [acc] are the accepted calls, [base] the bytes the writer
    had before. *)
Definition writerInv (serial : Z) (base : Bytes) (sw : StreamWriter) (w : W) (acc : list call) : Prop :=
  sw_serial sw = serial /\ uintOk 32 (sw_nextSequence sw) /\ sw_ended sw = existsb c_eos acc /\
  exists pages tail, written w = base ++ streamOf pages ++ tail /\ Forall sealed pages /\ assembleAll noAssembly pages = Ret (noAssembly, packetsOf acc) /\
    (sw_broken sw = false -> tail = [] /\ sw_started sw = negb (length acc =? 0)%nat).

Lemma WritePacket_step serial base sw w acc c :
  uintOk 32 serial -> callOk c -> writerInv serial base sw w acc ->
  exists sw' w' n r, WritePacket write (Some sw) (c_packet c) (c_granulePos c) (c_eos c) w = Some (Some sw', w', (n, r)) /\
    match r with
    | Ret _ => sw_broken sw = false /\ sw_ended sw = false /\ writerInv serial base sw' w' (acc ++ [c])
    | Fail _ => writerInv serial base sw' w' acc /\
                ((sw' = sw /\ written w' = written w) \/ (sw_broken sw = false /\ sw_ended sw = false /\ sw_broken sw' = true))
    | Panic => False
    end.
Proof.
  intros Hser (Hp & HL & Hg) HI. unfold WritePacket. destruct (sw_broken sw) eqn:Hbr; [eexists sw, w, _, _; split; [done|]; cbn; auto|].
  destruct (sw_ended sw) eqn:Hen; [eexists sw, w, _, _; split; [done|]; cbn; auto|].
  pose proof HI as (Hs & Hq & He & pages & tail & HW & HS & HA & HB). specialize (HB Hbr) as [-> Hst]. rewrite Hs. rewrite Hen in He.
  pose proof (Build_lemma serial (sw_nextSequence sw) (c_granulePos c) (c_packet c) (negb (sw_started sw)) (c_eos c) Hser Hg Hp Hq HL) as HBuild.
  destruct (decide _) as [Hfit|Hover]; [|rewrite HBuild; eexists sw, w, _, _; split; [done|]; cbn; auto].
  destruct HBuild as (more & -> & HAm & [HG _] & HLm). pose proof (writePages_spec 0 more 0 sw w HG) as HWP.
  destruct (writePages write 0 more 0 sw w) as [[sw1 w1] [n r]]. eexists _, w1, n, r. split; [reflexivity|]. destruct r as [u|e|]; [|split|done].
  - destruct HWP as [HW1 ->]. split_and!; [done|done|]. assert ((length more =? 0)%nat = false) as Hne by (rewrite HLm; unfold packetPages; apply Nat.eqb_neq; lia).
    unfold afterPages. rewrite Hne. split_and!; [by destruct (c_eos c)|destruct (c_eos c); by apply Z.mod_pos_bound|rewrite existsb_app, <-He; cbn; rewrite Hen; by destruct (c_eos c)|].
    exists (pages ++ map seal more), []. split_and!.
    + by rewrite HW1, HW, !app_nil_r, streamOf_app, <-!app_assoc.
    + apply Forall_app. split; [done|]. apply Forall_map. eapply Forall_impl; [exact HG|]. intros q [Hq1 Hq2]. by apply seal_sealed.
    + rewrite assembleAll_app, HA. cbn [mbind Go_bind fst snd]. rewrite assembleAll_seal, HAm. cbn [mbind Go_bind fst snd]. by rewrite packetsOf_snoc, Hst, negb_involutive.
    + intros _. split; [done|]. rewrite length_app. replace (length acc + length [c] =? 0)%nat with false by (symmetry; apply Nat.eqb_neq; cbn; lia). by destruct (c_eos c).
  - destruct HWP as [(H1 & H2 & H3 & H4 & tail & H5)|(_ & -> & HW1)].
    + split_and!; [congruence|by apply H4|congruence|]. exists pages, tail. split_and!; [by rewrite H5, HW, app_nil_r, <-app_assoc|done|done|congruence].
    + split_and!; [done|done|congruence|]. exists pages, []. split_and!; [congruence|done|done|done].
  - destruct HWP as [(H1 & _)|(_ & -> & HW1)]; auto.
Qed.

(** Calls one after the other, and those of them that returned no error. *)
Fixpoint session (sw : option StreamWriter) (calls : list call) (w : W) : option (option StreamWriter * W * list call) :=
  match calls with
  | [] => Some (sw, w, [])
  | c :: calls =>
      match WritePacket write sw (c_packet c) (c_granulePos c) (c_eos c) w with
      | Some (sw', w', (_, r)) =>
          match session sw' calls w' with
          | Some (sw'', w'', acc) => Some (sw'', w'', match r with Ret _ => c :: acc | _ => acc end)
          | None => None
          end
      | None => None
      end
  end.

Lemma session_spec serial base calls sw w acc :
  uintOk 32 serial -> Forall callOk calls -> writerInv serial base sw w acc ->
  exists sw' w' more, session (Some sw) calls w = Some (Some sw', w', more) /\ writerInv serial base sw' w' (acc ++ more) /\ sublist more calls /\
    (sw_broken sw = true \/ sw_ended sw = true -> sw' = sw /\ written w' = written w /\ more = []).
Proof.
  intros Hser HC. revert sw w acc. induction HC as [|c calls Hc HC IH]; intros sw w acc HI; cbn [session].
  { exists sw, w, []. rewrite app_nil_r. split_and!; [done|done|constructor|done]. }
  destruct (WritePacket_step serial base sw w acc c Hser Hc HI) as (sw1 & w1 & n & r & -> & HR). destruct r as [u|e|]; [| |done].
  - destruct HR as (Hb & He & HI1). destruct (IH sw1 w1 _ HI1) as (sw2 & w2 & more & -> & HI2 & Hsub & _). exists sw2, w2, (c :: more).
    split_and!; [done|by rewrite <-app_assoc in HI2|by constructor|]. rewrite Hb, He. by intros [?|?].
  - destruct HR as (HI1 & Hor). destruct (IH sw1 w1 _ HI1) as (sw2 & w2 & more & -> & HI2 & Hsub & Hdead). exists sw2, w2, more.
    split_and!; [done|done|by constructor|]. intros Hd. destruct Hor as [[-> Hw]|(Hb & He & _)]; [|by destruct Hd; congruence].
    destruct (Hdead Hd) as (-> & Hw2 & ->). split_and!; [done|congruence|done].
Qed.

(** C37: A [StreamWriter] tells the truth about an unreliable [io.Writer].  After any
    sequence of [WritePacket] calls on a new writer, whatever the [io.Writer] refused
    or took in part: the output begins with the pages of exactly the packets whose
    calls returned no error, in order, the first one marked as the beginning of the
    stream; and as long as the stream is not broken, nothing else was written and
    [ReadAllPackets] returns exactly these packets.  Once it is broken, or a packet
    with [eos] was accepted, every further call is refused and writes nothing. *)
Theorem StreamWriter_session serial sw calls later w :
  uintOk 32 serial -> Forall callOk calls -> Forall callOk later -> written w = [] -> NewStreamWriter true serial = Ret sw ->
  exists sw' w' acc, session (Some sw) calls w = Some (Some sw', w', acc) /\ sublist acc calls /\
    (exists pages tail, written w' = streamOf pages ++ tail /\ ExtractPackets (map Some pages) = Ret (packetsOf acc)) /\
    (sw_broken sw' = false -> ReadAllPackets (MkReader (written w') IoEOF) = Some (Ret (packetsOf acc))) /\
    (sw_broken sw' = true \/ existsb c_eos acc = true ->
     exists w'', session (Some sw') later w' = Some (Some sw', w'', []) /\ written w'' = written w').
Proof.
  intros Hser HC HL Hw [= <-]. assert (writerInv serial [] (MkStreamWriter serial 0 false false false) w []) as HI.
  { split_and!; [done|done|done|]. exists [], []. split_and!; [done|constructor|done|done]. }
  destruct (session_spec serial [] calls _ w [] Hser HC HI) as (sw' & w' & acc & HS & HI' & Hsub & _). cbn [app] in HI'.
  exists sw', w', acc. pose proof HI' as (_ & _ & He & pages & tail & HW & HP & HA & HB). cbn [app] in HW.
  assert (ExtractPackets (map Some pages) = Ret (packetsOf acc)) as HE.
  { unfold ExtractPackets. rewrite extract_assemble by (eapply Forall_impl; [exact HP|by intros p [_ ?]%sealed_parts]). by rewrite HA. }
  split_and!; [done|done|by exists pages, tail| |].
  - intros Hb. destruct (HB Hb) as [-> _]. unfold ReadAllPackets, ReadAllPages. rewrite HW.
    destruct (readLoop_complete pages (S (length (streamOf pages ++ []))) [] []) as [r Hr]; [done|constructor|by left|rewrite app_nil_r; pose proof (length_streamOf pages); lia|].
    cbn [rd_data]. rewrite Hr. cbn [app]. by rewrite HE.
  - rewrite <-He. intros Hd. destruct (session_spec serial [] later sw' w' acc Hser HL HI') as (sw2 & w2 & more & HS2 & _ & _ & Hdead).
    destruct (Hdead Hd) as (-> & Hw2 & ->). by exists w2.
Qed.
End writer.

(** * ogg: the theorems at work

    Each theorem about packets and streams applied to a concrete stream: a packet of
    two pages, cut at odd places, truncated, and written to a writer that refuses one
    write and then takes a part of another. *)

(** Decides [bytesOk] of a concrete list. *)
Ltac bytes_ok := unfold bytesOk; apply (bool_decide_eq_true (Forall _ _)); vm_compute; reflexivity.

(** 66,000 bytes make 259 segments: two pages. *)
Definition exPacket : Bytes := repeat 7 (Z.to_nat 66000).
Definition okOr {E A} (a : A) (x : option (Go E A)) : A := match x with Some (Ret b) => b | _ => a end.
Definition exPages : list Page := map seal (okOr [] (BuildPacketPages 5 0 960 [1; 2; 3] true false) ++ okOr [] (BuildPacketPages 5 1 1920 [] false true)).
Definition exStream : Bytes := streamOf exPages.
Definition exPackets : list Packet := [MkPacket [1; 2; 3] 960 true false; MkPacket [] 1920 false true].

Lemma exStream_ok : bytesOk exStream.
Proof. bytes_ok. Qed.

Lemma exPacket_ok : bytesOk exPacket.
Proof. bytes_ok. Qed.

Lemma BuildPacketPages_roundtrip_witness :
  exists pages, BuildPacketPages 5 7 960 exPacket true true = Some (Ret pages) /\ length pages = 2%nat /\
    ExtractPackets (map Some pages) = Ret [MkPacket exPacket 960 true true].
Proof.
  assert (Z.of_nat (length exPacket) = 66000) as HL by (vm_compute; reflexivity).
  destruct (BuildPacketPages_roundtrip 5 7 960 exPacket true true) as [[H _]|(pages & HB & HP & HE & _)].
  - split; [discriminate|reflexivity].
  - split; [discriminate|reflexivity].
  - exact exPacket_ok.
  - split; [discriminate|reflexivity].
  - rewrite HL. reflexivity.
  - exfalso. revert H. vm_compute. discriminate.
  - exists pages. split; [exact HB|]. split; [|exact HE]. rewrite HP. vm_compute. reflexivity.
Defined.

Definition exChunks : list Bytes := [take 10 exStream; []; take 25 (drop 10 exStream); drop 35 exStream].

Lemma exChunks_ok : Forall bytesOk exChunks.
Proof. bytes_ok. Qed.

Lemma PacketDecoder_chunks_witness : exists d, feed NewPacketDecoder exChunks [] = Some (d, Ret exPackets) /\ Decoder_Close (Some d) = Ret tt.
Proof. apply (proj2 (PacketDecoder_chunks exChunks exChunks_ok) exPackets). vm_compute. reflexivity. Defined.

Lemma exPages_sealed : Forall sealed exPages.
Proof. apply (ParsePages_iff exStream exPages exStream_ok). vm_compute. reflexivity. Qed.

Lemma ReadAllPages_accepts_witness :
  exists r, ReadAllPages (MkReader exStream IoEOF) = Some (r, Ret exPages).
Proof.
  apply (proj2 (ReadAllPages_accepts exStream exStream_ok) exPages). split; [exact exPages_sealed|].
  exists []. split; [symmetry; apply app_nil_r|left; reflexivity].
Defined.

Lemma ReadAllPages_misses_truncation_witness :
  exists r, ReadAllPages (MkReader (streamOf exPages ++ take 27 exRaw) IoEOF) = Some (r, Ret exPages).
Proof.
  apply (ReadAllPages_misses_truncation exPages (seal exPage)); [exact exPages_sealed| |discriminate].
  apply seal_sealed; [exact exPage_ok|reflexivity].
Defined.

Lemma Packets_agrees_witness :
  StreamReader_Packets (Some (MkReader exStream IoEOF)) = Some (map inl exPackets).
Proof.
  destruct (Packets_agrees (MkReader exStream IoEOF) exStream_ok) as (items & HI & _ & HP).
  transitivity (Some items); [exact HI|]. f_equal. apply HP. vm_compute. reflexivity.
Defined.

(** A writer with a script: it takes as many bytes of each write as the script says,
    with an error when these are not all; without a script it takes everything. *)
Definition exWrite (raw : Bytes) (w : Bytes * list nat) : (Bytes * list nat) * (nat * option string) :=
  match w with
  | (out, []) => ((out ++ raw, []), (length raw, None))
  | (out, n :: script) =>
      ((out ++ take n raw, script), (Nat.min n (length raw), if (n <? length raw)%nat then Some "disk full"%string else None))
  end.

Lemma exWrite_law raw w : let '(w', (n, _)) := exWrite raw w in (n <= length raw)%nat /\ w'.1 = w.1 ++ take n raw.
Proof.
  destruct w as [out [|n script]]; cbn; [by rewrite firstn_all|]. split; [lia|]. f_equal.
  destruct (Nat.le_gt_cases n (length raw)); [by rewrite Nat.min_l|]. by rewrite Nat.min_r, !take_ge by lia.
Qed.

Definition exCalls : list call := [MkCall [1; 2; 3] 960 false; MkCall [4] 1920 false; MkCall [5; 6] 2880 false].

#[local] Instance callOk_dec c : Decision (callOk c).
Proof. unfold callOk, bytesOk, uintOk. apply _. Defined.

Lemma exCalls_ok : Forall callOk exCalls.
Proof. apply (bool_decide_eq_true (Forall _ _)). vm_compute. reflexivity. Qed.

(** The second write is refused, the fourth one stops after five bytes. *)
Lemma StreamWriter_session_witness :
  exists sw w, session exWrite (Some (MkStreamWriter 5 0 false false false)) exCalls ([], [1000; 0; 1000; 5]%nat) =
      Some (Some sw, w, [MkCall [1; 2; 3] 960 false; MkCall [5; 6] 2880 false]) /\
    ReadAllPackets (MkReader w.1 IoEOF) = Some (Ret [MkPacket [1; 2; 3] 960 true false; MkPacket [5; 6] 2880 false false]).
Proof.
  destruct (StreamWriter_session exWrite fst exWrite_law 5 (MkStreamWriter 5 0 false false false) exCalls exCalls ([], [1000; 0; 1000; 5]%nat))
    as (sw & w & acc & HS & _ & _ & HR & _).
  - split; [discriminate|reflexivity].
  - exact exCalls_ok.
  - exact exCalls_ok.
  - reflexivity.
  - reflexivity.
  - assert (acc = [MkCall [1; 2; 3] 960 false; MkCall [5; 6] 2880 false] /\ sw_broken sw = false) as [-> Hb].
    { assert (option_map (fun x => (x.2, option_map sw_broken x.1.1)) (session exWrite (Some (MkStreamWriter 5 0 false false false)) exCalls ([], [1000; 0; 1000; 5]%nat)) =
        Some ([MkCall [1; 2; 3] 960 false; MkCall [5; 6] 2880 false], Some false)) as HV by (vm_compute; reflexivity).
      rewrite HS in HV. cbn in HV. injection HV as -> ->. split; reflexivity. }
    exists sw, w. split; [exact HS|exact (HR Hb)].
Defined.
