(* ===== verification/SfuReorder.v ===== *)
(** * sfu: restoring the order of RTP packets

    Models [src/pkgs/gizclaw/services/ai/workflow/agents/sfu/reorder.go].  Sequence
    numbers are [uint16] and timestamps [uint32], kept in range by [u16] and [u32]; the
    order of sequence numbers is the one of the signed 16-bit difference.  The order in
    which Go ranges over the map of waiting packets is the parameter [rangeMap]. *)

From stdpp Require Import gmap list sorting.
From S2P Require Import Prelude.

Open Scope Z_scope.

(** ** Sequence numbers *)
Definition u16 (z : Z) : Z := z mod 65536.
Definition u32 (z : Z) : Z := z mod 4294967296.
Definition int16 (z : Z) : Z := if z <? 32768 then z else z - 65536.

Definition seqBefore (a b : Z) : bool := int16 (u16 (a - b)) <? 0.

(** A packet of the RTP library; the fields the buffer does not look at are [pk_Body]. *)
Record RtpPacket := MkRtpPacket {
  pk_SequenceNumber : Z;
  pk_Timestamp : Z;
  pk_Body : string
}.

Definition defaultReorderDepth : Z := 5.
Definition defaultReorderSpan : Z := 48000 / 10.

Record reorderBuffer := MkReorderBuffer {
  rb_maxDepth : Z;
  rb_maxSpan : Z;
  rb_started : bool;
  rb_next : Z;
  rb_pending : gmap Z RtpPacket
}.

Definition newReorderBuffer (maxDepth maxSpan : Z) : reorderBuffer :=
  let maxDepth := if maxDepth <=? 0 then defaultReorderDepth else maxDepth in
  let maxSpan := if maxSpan =? 0 then defaultReorderSpan else maxSpan in
  MkReorderBuffer maxDepth maxSpan false 0 ∅.

Definition setNext (b : reorderBuffer) (next : Z) : reorderBuffer :=
  MkReorderBuffer (rb_maxDepth b) (rb_maxSpan b) (rb_started b) next (rb_pending b).
Definition setPending (b : reorderBuffer) (pending : gmap Z RtpPacket) : reorderBuffer :=
  MkReorderBuffer (rb_maxDepth b) (rb_maxSpan b) (rb_started b) (rb_next b) pending.
Definition start (b : reorderBuffer) (seq : Z) : reorderBuffer :=
  if rb_started b then b else MkReorderBuffer (rb_maxDepth b) (rb_maxSpan b) true seq (rb_pending b).

(** [Len]. *)
Definition reorderLen (b : reorderBuffer) : Z := Z.of_nat (size (rb_pending b)).

(** [drain]: every iteration takes one packet out, so [size pending] iterations are
    enough ([drain_step]). *)
Fixpoint drainLoop (fuel : nat) (b : reorderBuffer) (out : list RtpPacket) : reorderBuffer * list RtpPacket :=
  match rb_pending b !! rb_next b, fuel with
  | Some packet, S fuel =>
      drainLoop fuel (MkReorderBuffer (rb_maxDepth b) (rb_maxSpan b) (rb_started b) (u16 (rb_next b + 1)) (delete (rb_next b) (rb_pending b))) (out ++ [packet])
  | _, _ => (b, out)
  end.

Definition drain (b : reorderBuffer) (out : list RtpPacket) : reorderBuffer * list RtpPacket := drainLoop (size (rb_pending b)) b out.

(** [sort.Slice(seqs, ...)] with [seqBefore] as the order. *)
Fixpoint insertSeq (x : Z) (seqs : list Z) : list Z :=
  match seqs with
  | [] => [x]
  | y :: rest => if seqBefore x y then x :: seqs else y :: insertSeq x rest
  end.
Definition sortSeqs (seqs : list Z) : list Z := foldl (fun sorted x => insertSeq x sorted) [] seqs.

Section range.
Context (rangeMap : gmap Z RtpPacket -> list (Z * RtpPacket)).

(** [seqs[0]] panics when nothing waits. *)
Definition skipToOldest (b : reorderBuffer) : Go Empty_set reorderBuffer :=
  match sortSeqs (rangeMap (rb_pending b)).*1 with
  | [] => Panic
  | seq :: _ => Ret (setNext b seq)
  end.

Definition pickOldest (oldest : option RtpPacket) (packet : RtpPacket) : option RtpPacket :=
  match oldest with
  | Some o => if seqBefore (pk_SequenceNumber packet) (pk_SequenceNumber o) then Some packet else Some o
  | None => Some packet
  end.
Definition pickNewest (newest : option RtpPacket) (packet : RtpPacket) : option RtpPacket :=
  match newest with
  | Some n => if seqBefore (pk_SequenceNumber n) (pk_SequenceNumber packet) then Some packet else Some n
  | None => Some packet
  end.

Definition spanExceeded (b : reorderBuffer) : bool :=
  let packets := (rangeMap (rb_pending b)).*2 in
  match foldl pickOldest None packets, foldl pickNewest None packets with
  | Some oldest, Some newest => rb_maxSpan b <? u32 (pk_Timestamp newest - pk_Timestamp oldest)
  | _, _ => false
  end.

(** The loop of [Push]; every iteration delivers the oldest packet. *)
Definition overdue (b : reorderBuffer) : bool :=
  (0 <? reorderLen b) && ((rb_maxDepth b <? reorderLen b) || spanExceeded b).

Fixpoint skipLoop (fuel : nat) (more : reorderBuffer -> bool) (b : reorderBuffer) (out : list RtpPacket) : Go Empty_set (reorderBuffer * list RtpPacket) :=
  match more b, fuel with
  | true, S fuel => b ← skipToOldest b; let '(b, out) := drain b out in skipLoop fuel more b out
  | _, _ => Ret (b, out)
  end.

(** A nil packet is [None]. *)
Definition Reorder_Push (packet : option RtpPacket) (b : reorderBuffer) : Go Empty_set (reorderBuffer * list RtpPacket) :=
  match packet with
  | None => Ret (b, [])
  | Some packet =>
      let seq := pk_SequenceNumber packet in
      let b := start b seq in
      if seqBefore seq (rb_next b) then Ret (b, [])
      else if bool_decide (is_Some (rb_pending b !! seq)) then Ret (b, [])
      else
        let b := setPending b (<[seq := packet]> (rb_pending b)) in
        let '(b, out) := drain b [] in
        skipLoop (size (rb_pending b)) overdue b out
  end.

Definition Reorder_Flush (b : reorderBuffer) : Go Empty_set (reorderBuffer * list RtpPacket) :=
  skipLoop (size (rb_pending b)) (fun b => 0 <? reorderLen b) b [].
End range.
