(* ===== verification/SfuReorderProps.v ===== *)
(** * sfu: the reordered stream

    Packets leave the buffer in sequence order across the wraparound, every accepted
    packet leaves exactly once, the packets that wait stay within the depth and the
    span, and a stream whose packets arrive at most [maxDepth] places late leaves
    complete and in order.  None of this depends on the order in which maps are
    ranged over. *)

From stdpp Require Import gmap list sorting.
From S2P Require Import Prelude SfuReorder.

Open Scope Z_scope.

(** ** Distances on the circle of sequence numbers *)
Definition dist (n k : Z) : Z := u16 (k - n).

Ltac u16_lia := unfold dist, seqBefore, int16, u16, u32 in *; repeat match goal with |- context [if ?b then _ else _] => destruct b eqn:? end; Z.to_euclidean_division_equations; lia.

Lemma dist_bound n k : 0 <= dist n k < 65536.
Proof. u16_lia. Qed.

Lemma seqBefore_next k n : seqBefore k n = false <-> dist n k < 32768.
Proof. u16_lia. Qed.

Lemma seqBefore_dist n a b : dist n a < 32768 -> dist n b < 32768 -> seqBefore a b = true <-> dist n a < dist n b.
Proof. u16_lia. Qed.

Lemma seqBefore_cases n a b : dist n a < 32768 -> dist n b < 32768 -> if seqBefore a b then dist n a < dist n b else dist n b <= dist n a.
Proof.
  intros Ha Hb. pose proof (seqBefore_dist n a b Ha Hb) as HB. destruct (seqBefore a b); [by apply HB|]. apply Znot_gt_le. intros Hgt.
  assert (false = true) by (apply HB; lia). done.
Qed.

Lemma dist_0 n k : 0 <= n < 65536 -> 0 <= k < 65536 -> dist n k = 0 <-> k = n.
Proof. u16_lia. Qed.

Lemma dist_inj n a b : 0 <= a < 65536 -> 0 <= b < 65536 -> dist n a = dist n b -> a = b.
Proof. u16_lia. Qed.

(** Moving the origin to a nearer number. *)
Lemma dist_shift n k a : dist n k <= dist n a -> dist k a = dist n a - dist n k.
Proof. u16_lia. Qed.

Lemma dist_succ n a : 0 < dist n a -> dist (u16 (n + 1)) a = dist n a - 1.
Proof. u16_lia. Qed.

Lemma u16_range z : 0 <= u16 z < 65536.
Proof. u16_lia. Qed.

(** ** Sorting and ranging inside half the circle *)
Definition inWindow (n : Z) (k : Z) : Prop := 0 <= k < 65536 /\ dist n k < 32768.

Lemma insertSeq_perm x l : insertSeq x l ≡ₚ x :: l.
Proof. induction l as [|y l IH]; [done|]. cbn. destruct (seqBefore x y); [done|]. rewrite IH. apply Permutation_swap. Qed.

Lemma insertSeq_sorted n x l :
  inWindow n x -> Forall (inWindow n) l -> StronglySorted (fun a b => dist n a <= dist n b) l ->
  StronglySorted (fun a b => dist n a <= dist n b) (insertSeq x l).
Proof.
  intros Hx. induction l as [|y l IH]; intros HF HS; [by repeat constructor|]. cbn.
  apply Forall_cons in HF as [Hy HF]. apply StronglySorted_inv in HS as [HS Hyl].
  destruct (seqBefore x y) eqn:Hb.
  - apply (seqBefore_dist n) in Hb; [|by apply Hx|by apply Hy]. constructor; [by constructor|]. constructor; [lia|].
    eapply Forall_impl; [exact Hyl|]. cbn. lia.
  - assert (dist n y <= dist n x) as Hle.
    { pose proof (seqBefore_cases n x y (proj2 Hx) (proj2 Hy)) as HC. by rewrite Hb in HC. }
    constructor; [by apply IH|]. apply Forall_forall. intros z. rewrite insertSeq_perm, elem_of_cons. intros [->|Hz]; [done|].
    rewrite Forall_forall in Hyl. by apply Hyl.
Qed.

Lemma sortSeqs_spec n l : Forall (inWindow n) l -> sortSeqs l ≡ₚ l /\ StronglySorted (fun a b => dist n a <= dist n b) (sortSeqs l).
Proof.
  intros HF. unfold sortSeqs. assert (forall acc, Forall (inWindow n) acc -> StronglySorted (fun a b => dist n a <= dist n b) acc ->
    foldl (fun sorted x => insertSeq x sorted) acc l ≡ₚ l ++ acc /\ StronglySorted (fun a b => dist n a <= dist n b) (foldl (fun sorted x => insertSeq x sorted) acc l)) as HH.
  { induction HF as [|x l Hx HF IH]; intros acc Ha HS; [done|]. cbn. destruct (IH (insertSeq x acc)) as [HP HS'].
    - rewrite insertSeq_perm. by constructor.
    - by apply insertSeq_sorted.
    - split; [|done]. rewrite HP, insertSeq_perm. by rewrite Permutation_middle. }
  destruct (HH []) as [HP HS]; [constructor|constructor|]. by rewrite app_nil_r in HP.
Qed.

(** The packet a ranging loop ends with, when every step keeps one that is not worse. *)
Lemma pick_spec (pick : option RtpPacket -> RtpPacket -> option RtpPacket) (f : Z -> Z) n l :
  (forall o p, inWindow n (pk_SequenceNumber o) -> inWindow n (pk_SequenceNumber p) ->
     exists q, pick (Some o) p = Some q /\ (q = o \/ q = p) /\ f (dist n (pk_SequenceNumber q)) <= f (dist n (pk_SequenceNumber o)) /\ f (dist n (pk_SequenceNumber q)) <= f (dist n (pk_SequenceNumber p))) ->
  (forall p, pick None p = Some p) -> Forall (fun p => inWindow n (pk_SequenceNumber p)) l -> l <> [] ->
  exists q, foldl pick None l = Some q /\ q ∈ l /\ Forall (fun p => f (dist n (pk_SequenceNumber q)) <= f (dist n (pk_SequenceNumber p))) l.
Proof.
  intros Hstep H0 HF Hne. destruct l as [|p l]; [done|]. cbn. rewrite H0. apply Forall_cons in HF as [Hp HF]. clear Hne.
  revert p Hp. induction HF as [|p' l Hp' HF IH]; intros p Hp; cbn; [exists p; split_and!; [done|by left|by repeat constructor]|].
  destruct (Hstep p p' Hp Hp') as (q & -> & Hq & H1 & H2). assert (inWindow n (pk_SequenceNumber q)) as Hqw by (by destruct Hq; subst).
  destruct (IH q Hqw) as (r & -> & Hr & Hmin). exists r. apply Forall_cons in Hmin as [Hrq Hmin]. split_and!; [done| |].
  - destruct Hq; subst; rewrite !elem_of_cons in *; naive_solver.
  - constructor; [lia|]. constructor; [lia|done].
Qed.

Lemma pickOldest_spec n l : Forall (fun p => inWindow n (pk_SequenceNumber p)) l -> l <> [] ->
  exists q, foldl pickOldest None l = Some q /\ q ∈ l /\ Forall (fun p => dist n (pk_SequenceNumber q) <= dist n (pk_SequenceNumber p)) l.
Proof.
  intros HF Hne. apply (pick_spec pickOldest (fun z => z) n); try done. intros o p [_ Ho] [_ Hp]. cbn.
  pose proof (seqBefore_cases n (pk_SequenceNumber p) (pk_SequenceNumber o) Hp Ho) as HB.
  destruct (seqBefore _ _); [exists p|exists o]; (split_and!; [done|by auto|lia|lia]).
Qed.

Lemma pickNewest_spec n l : Forall (fun p => inWindow n (pk_SequenceNumber p)) l -> l <> [] ->
  exists q, foldl pickNewest None l = Some q /\ q ∈ l /\ Forall (fun p => dist n (pk_SequenceNumber p) <= dist n (pk_SequenceNumber q)) l.
Proof.
  intros HF Hne. destruct (pick_spec pickNewest Z.opp n l) as (q & HE & Hq & Hmin); try done.
  - intros o p [_ Ho] [_ Hp]. cbn. pose proof (seqBefore_cases n (pk_SequenceNumber o) (pk_SequenceNumber p) Ho Hp) as HB.
    destruct (seqBefore _ _); [exists p|exists o]; (split_and!; [done|by auto|lia|lia]).
  - exists q. split_and!; [done..|]. eapply Forall_impl; [exact Hmin|]. cbn. lia.
Qed.

(** ** The invariant and deliveries *)
Definition packetOk (p : RtpPacket) : Prop := 0 <= pk_SequenceNumber p < 65536.

Record RInv (b : reorderBuffer) : Prop := {
  ri_next : 0 <= rb_next b < 65536;
  ri_key k p : rb_pending b !! k = Some p -> pk_SequenceNumber p = k /\ inWindow (rb_next b) k;
  ri_depth : 0 < rb_maxDepth b;
  ri_idle : rb_started b = false -> rb_pending b = ∅
}.

Definition waiting (b : reorderBuffer) : list RtpPacket := (map_to_list (rb_pending b)).*2.

(** The packets [ps] move the position of the reader from [n] to [n']: none of them is
    behind the position the previous one left. *)
Fixpoint chain (n : Z) (ps : list RtpPacket) (n' : Z) : Prop :=
  match ps with
  | [] => n' = n
  | p :: ps => dist n (pk_SequenceNumber p) < 32768 /\ chain (u16 (pk_SequenceNumber p + 1)) ps n'
  end.

Record delivers (b : reorderBuffer) (ps : list RtpPacket) (b' : reorderBuffer) : Prop := {
  dl_inv : RInv b';
  dl_chain : chain (rb_next b) ps (rb_next b');
  dl_perm : waiting b ≡ₚ ps ++ waiting b';
  dl_conf : rb_maxDepth b' = rb_maxDepth b /\ rb_maxSpan b' = rb_maxSpan b /\ rb_started b' = rb_started b
}.

Lemma chain_app n ps n1 qs n2 : chain n ps n1 -> chain n1 qs n2 -> chain n (ps ++ qs) n2.
Proof. revert n. induction ps as [|p ps IH]; intros n; cbn; [by intros ->|]. intros [? ?] ?. split; [done|]. by apply IH. Qed.

Lemma delivers_refl b : RInv b -> delivers b [] b.
Proof. by split. Qed.

Lemma delivers_trans b ps b1 qs b2 : delivers b ps b1 -> delivers b1 qs b2 -> delivers b (ps ++ qs) b2.
Proof.
  intros [_ C1 P1 (? & ? & ?)] [I2 C2 P2 (? & ? & ?)]. split; [done|by eapply chain_app| |].
  - by rewrite P1, P2, app_assoc.
  - split_and!; congruence.
Qed.

Lemma waiting_delete b k p : rb_pending b !! k = Some p -> waiting b ≡ₚ p :: (map_to_list (delete k (rb_pending b))).*2.
Proof.
  intros Hk. unfold waiting. rewrite <-(insert_delete_id (rb_pending b) k p Hk) at 1. rewrite map_to_list_insert by apply lookup_delete_eq. done.
Qed.

Lemma length_waiting b : length (waiting b) = size (rb_pending b).
Proof. unfold waiting. rewrite length_fmap. apply length_map_to_list. Qed.

(** ** [drain] *)
Lemma take_next b p : RInv b -> rb_pending b !! rb_next b = Some p ->
  delivers b [p] (MkReorderBuffer (rb_maxDepth b) (rb_maxSpan b) (rb_started b) (u16 (rb_next b + 1)) (delete (rb_next b) (rb_pending b))).
Proof.
  intros [H1 H2 H3 H4] Hp. destruct (H2 _ _ Hp) as [HS [_ HW]]. split; cbn.
  - split; cbn; [apply u16_range| |done|].
    + intros k q [Hne Hq]%lookup_delete_Some. destruct (H2 k q Hq) as [? [Hr Hd]]. split; [done|]. split; [done|].
      rewrite dist_succ; [lia|]. pose proof (dist_bound (rb_next b) k). destruct (decide (dist (rb_next b) k = 0)) as [Hz|]; [|lia].
      pose proof (proj1 (dist_0 (rb_next b) k H1 Hr) Hz). congruence.
    + intros Hs. apply H4 in Hs. rewrite Hs. apply delete_empty.
  - by rewrite HS.
  - by apply waiting_delete.
  - done.
Qed.

Lemma drainLoop_spec fuel b out : RInv b -> (size (rb_pending b) <= fuel)%nat ->
  exists ps b', drainLoop fuel b out = (b', out ++ ps) /\ delivers b ps b' /\ rb_pending b' !! rb_next b' = None /\
    (forall p, rb_pending b !! rb_next b = Some p -> exists qs, ps = p :: qs).
Proof.
  revert b out. induction fuel as [|fuel IH]; intros b out HI Hf; cbn [drainLoop].
  - assert (rb_pending b = ∅) as HE by (apply map_size_empty_iff; lia). rewrite HE, lookup_empty.
    exists [], b. rewrite app_nil_r. split_and!; [done|by apply delivers_refl|by rewrite HE|done].
  - destruct (rb_pending b !! rb_next b) as [p|] eqn:Hp.
    + pose proof (take_next b p HI Hp) as HD. set (b1 := MkReorderBuffer _ _ _ _ _) in *.
      destruct (IH b1 (out ++ [p])) as (ps & b' & -> & HD' & Hn & _); [apply HD| |].
      { unfold b1. cbn. rewrite map_size_delete_Some by eauto. lia. }
      exists (p :: ps), b'. rewrite <-app_assoc. split_and!; [done|by apply (delivers_trans b [p] b1)|done|]. intros q [= ->]. eauto.
    + exists [], b. rewrite app_nil_r. split_and!; [done|by apply delivers_refl|done|done].
Qed.

Lemma drain_spec b out : RInv b ->
  exists ps b', drain b out = (b', out ++ ps) /\ delivers b ps b' /\ rb_pending b' !! rb_next b' = None /\
    (forall p, rb_pending b !! rb_next b = Some p -> exists qs, ps = p :: qs).
Proof. intros HI. by apply drainLoop_spec. Qed.

Section range.
Context (rangeMap : gmap Z RtpPacket -> list (Z * RtpPacket)) (Hrange : forall m, rangeMap m ≡ₚ map_to_list m).

Lemma range_keys b : RInv b -> Forall (inWindow (rb_next b)) (rangeMap (rb_pending b)).*1.
Proof.
  intros HI. apply Forall_forall. intros k ([k' p] & -> & Hk)%list_elem_of_fmap. rewrite Hrange in Hk. apply elem_of_map_to_list in Hk.
  by destruct (ri_key b HI k' p Hk).
Qed.

Lemma range_packets b : RInv b -> Forall (fun p => inWindow (rb_next b) (pk_SequenceNumber p)) (rangeMap (rb_pending b)).*2.
Proof.
  intros HI. apply Forall_forall. intros q ([k' p] & -> & Hk)%list_elem_of_fmap. rewrite Hrange in Hk. apply elem_of_map_to_list in Hk.
  cbn. by destruct (ri_key b HI k' p Hk) as [-> ?].
Qed.

Lemma elem_of_range b p : p ∈ (rangeMap (rb_pending b)).*2 <-> exists k, rb_pending b !! k = Some p.
Proof.
  rewrite Hrange, list_elem_of_fmap. split.
  - intros ([k q] & -> & Hk%elem_of_map_to_list). eauto.
  - intros [k Hk]. exists (k, p). split; [done|]. by apply elem_of_map_to_list.
Qed.

(** ** [skipToOldest] *)
Lemma skip_spec b : RInv b -> rb_pending b <> ∅ ->
  exists k p, skipToOldest rangeMap b = Ret (setNext b k) /\ RInv (setNext b k) /\ rb_pending b !! k = Some p /\
    forall k', is_Some (rb_pending b !! k') -> dist (rb_next b) k <= dist (rb_next b) k'.
Proof.
  intros HI Hne. destruct (sortSeqs_spec (rb_next b) _ (range_keys b HI)) as [HP HS]. unfold skipToOldest.
  assert (forall k, k ∈ sortSeqs (rangeMap (rb_pending b)).*1 <-> is_Some (rb_pending b !! k)) as Hin.
  { intros k. rewrite HP, Hrange, list_elem_of_fmap. split; [intros ([k' p] & -> & Hk%elem_of_map_to_list); by eauto|].
    intros [p Hk]. exists (k, p). split; [done|]. by apply elem_of_map_to_list. }
  destruct (sortSeqs _) as [|k l].
  { destruct Hne. apply map_empty. intros k. apply eq_None_not_Some. intros Hk. apply Hin in Hk. by apply elem_of_nil in Hk. }
  destruct (proj1 (Hin k)) as [p Hk]; [by left|]. apply StronglySorted_inv in HS as [_ HF]. rewrite Forall_forall in HF.
  assert (forall k', is_Some (rb_pending b !! k') -> dist (rb_next b) k <= dist (rb_next b) k') as Hmin.
  { intros k' Hk'. apply Hin, elem_of_cons in Hk' as [->|Hk']; [done|]. by apply HF. }
  exists k, p. split_and!; [done| |done|done]. destruct (ri_key b HI k p Hk) as [_ [Hr Hd]].
  split; cbn; [done| |apply HI|apply HI]. intros k' q Hq. destruct (ri_key b HI k' q Hq) as [? [Hr' Hd']]. split; [done|]. split; [done|].
  rewrite (dist_shift (rb_next b)) by (apply Hmin; by eauto). pose proof (dist_bound (rb_next b) k). lia.
Qed.

(** Skipping the gap before the oldest packet and draining delivers at least that packet. *)
Lemma skip_drain b out : RInv b -> rb_pending b <> ∅ ->
  exists b1 ps b', skipToOldest rangeMap b = Ret b1 /\ drain b1 out = (b', out ++ ps) /\ delivers b ps b' /\
    rb_pending b' !! rb_next b' = None /\ (size (rb_pending b') < size (rb_pending b))%nat.
Proof.
  intros HI Hne. destruct (skip_spec b HI Hne) as (k & p & HE & HI1 & Hk & _). destruct (drain_spec (setNext b k) out HI1) as (ps & b' & HD & Hdel & Hn & Hhd).
  destruct (Hhd p Hk) as [qs ->]. exists (setNext b k), (p :: qs), b'. split_and!; [done|done| |done|].
  - destruct Hdel as [I C P F]. split; [done| |done|done]. destruct C as [_ C]. destruct (ri_key b HI k p Hk) as [HS [_ Hd]].
    split; [by rewrite HS|done].
  - pose proof (dl_perm _ _ _ Hdel) as HP. apply Permutation_length in HP. rewrite length_app, !length_waiting in HP. cbn in HP. lia.
Qed.

Lemma skipLoop_spec more fuel b out : RInv b -> rb_pending b !! rb_next b = None ->
  (forall b, more b = true -> rb_pending b <> ∅) -> (size (rb_pending b) <= fuel)%nat ->
  exists ps b', skipLoop rangeMap fuel more b out = Ret (b', out ++ ps) /\ delivers b ps b' /\ more b' = false /\ rb_pending b' !! rb_next b' = None.
Proof.
  intros HI Hn Hmore. revert b out HI Hn. induction fuel as [|fuel IH]; intros b out HI Hn Hf; cbn [skipLoop].
  - destruct (more b) eqn:Hm; [exfalso; apply Hmore in Hm; apply Hm, map_size_empty_iff; lia|].
    exists [], b. rewrite app_nil_r. split_and!; [done|by apply delivers_refl|done|done].
  - destruct (more b) eqn:Hm.
    + destruct (skip_drain b out HI (Hmore b Hm)) as (b1 & ps & b' & -> & HD & Hdel & Hn' & Hsz). cbn. rewrite HD.
      destruct (IH b' (out ++ ps)) as (qs & b2 & -> & Hdel2 & Hm2 & Hn2); [apply Hdel|done|lia|].
      exists (ps ++ qs), b2. rewrite app_assoc. split_and!; [done|by eapply delivers_trans|done|done].
    + exists [], b. rewrite app_nil_r. split_and!; [done|by apply delivers_refl|done|done].
Qed.

Lemma overdue_nonempty b : overdue rangeMap b = true -> rb_pending b <> ∅.
Proof.
  unfold overdue, reorderLen. intros [HL _]%andb_true_iff HE. rewrite HE in HL. done.
Qed.

(** ** [Push] and [Flush] *)

(** The packet is neither late nor already waiting. *)
Definition fresh (b : reorderBuffer) (p : RtpPacket) : bool :=
  negb (seqBefore (pk_SequenceNumber p) (rb_next (start b (pk_SequenceNumber p)))) && bool_decide (rb_pending b !! pk_SequenceNumber p = None).

Lemma start_inv b p : RInv b -> packetOk p -> RInv (start b (pk_SequenceNumber p)) /\ rb_pending (start b (pk_SequenceNumber p)) = rb_pending b.
Proof.
  intros HI Hp. unfold start. destruct (rb_started b) eqn:Hs; [done|]. split; [|done]. pose proof (ri_idle b HI Hs) as HE.
  split; cbn; [done| |apply HI|done]. intros k q. by rewrite HE, lookup_empty.
Qed.

Lemma insert_inv b p : RInv b -> packetOk p -> seqBefore (pk_SequenceNumber p) (rb_next b) = false -> rb_started b = true -> RInv (setPending b (<[pk_SequenceNumber p := p]> (rb_pending b))).
Proof.
  intros HI Hp Hb Hs. split; cbn; [apply HI| |apply HI|congruence].
  intros k q [[<- <-]|[_ Hq]]%lookup_insert_Some; [|by apply (ri_key b HI)]. split; [done|]. split; [done|]. by apply seqBefore_next.
Qed.

Lemma Push_delivers b p : RInv b -> packetOk p -> rb_pending b !! rb_next b = None ->
  exists ps b', Reorder_Push rangeMap (Some p) b = Ret (b', ps) /\
    if fresh b p
    then delivers (setPending (start b (pk_SequenceNumber p)) (<[pk_SequenceNumber p := p]> (rb_pending b))) ps b' /\ overdue rangeMap b' = false /\ rb_pending b' !! rb_next b' = None
    else ps = [] /\ b' = start b (pk_SequenceNumber p) /\ rb_started b = true.
Proof.
  intros HI Hp Hn. destruct (start_inv b p HI Hp) as [HI1 HE]. unfold Reorder_Push, fresh. rewrite <-HE.
  assert (Hstarted : seqBefore (pk_SequenceNumber p) (rb_next (start b (pk_SequenceNumber p))) = true \/ is_Some (rb_pending b !! pk_SequenceNumber p) -> rb_started b = true).
  { intros Hor. destruct (rb_started b) eqn:Hs; [done|]. exfalso. unfold start in Hor. rewrite Hs in Hor. cbn in Hor.
    rewrite (ri_idle b HI Hs), lookup_empty in Hor. destruct Hor as [Hor|[? [=]]]. apply not_false_iff_true in Hor. destruct Hor. apply seqBefore_next.
    rewrite (proj2 (dist_0 _ _ Hp Hp)); lia. }
  destruct (seqBefore _ _) eqn:Hb; cbn [negb andb]; [exists [], (start b (pk_SequenceNumber p)); split_and!; by auto|].
  case_bool_decide as Hd; [rewrite bool_decide_eq_false_2 by (by destruct Hd as [? ->])|rewrite bool_decide_eq_true_2 by (by apply eq_None_not_Some)].
  { exists [], (start b (pk_SequenceNumber p)). rewrite HE in Hd. split_and!; by auto. }
  set (b1 := setPending _ _). assert (RInv b1) as HI2. { apply insert_inv; [done..|]. unfold start. by destruct (rb_started b) eqn:?. }
  destruct (drain_spec b1 [] HI2) as (ps & b2 & -> & HD & Hn2 & _). cbn [app].
  destruct (skipLoop_spec (overdue rangeMap) (size (rb_pending b2)) b2 ps) as (qs & b3 & -> & HD2 & Hm & Hn3); [apply HD|done|apply overdue_nonempty|done|].
  exists (ps ++ qs), b3. split; [done|]. split_and!; [by eapply delivers_trans|done|done].
Qed.

Lemma Flush_delivers b : RInv b -> rb_pending b !! rb_next b = None ->
  exists ps b', Reorder_Flush rangeMap b = Ret (b', ps) /\ delivers b ps b' /\ rb_pending b' = ∅.
Proof.
  intros HI Hn. destruct (skipLoop_spec (fun b => 0 <? reorderLen b) (size (rb_pending b)) b [] HI Hn) as (ps & b' & HE & HD & Hm & _); [|done|].
  { intros b0 HL%Z.ltb_lt HE. unfold reorderLen in HL. rewrite HE, map_size_empty in HL. lia. }
  exists ps, b'. split_and!; [exact HE|done|]. apply Z.ltb_ge in Hm. unfold reorderLen in Hm. apply map_size_empty_iff. lia.
Qed.

(** ** Streams *)
Inductive reorderOp := RPush (p : option RtpPacket) | RFlush.

Definition reorderOk (op : reorderOp) : Prop := match op with RPush (Some p) => packetOk p | _ => True end.

Definition stepReorder (op : reorderOp) (b : reorderBuffer) : Go Empty_set (reorderBuffer * list RtpPacket) :=
  match op with RPush p => Reorder_Push rangeMap p b | RFlush => Reorder_Flush rangeMap b end.

Fixpoint runReorder (ops : list reorderOp) (b : reorderBuffer) : Go Empty_set (reorderBuffer * list RtpPacket) :=
  match ops with
  | [] => Ret (b, [])
  | op :: ops => '(b, out) ← stepReorder op b; '(b, rest) ← runReorder ops b; Ret (b, out ++ rest)
  end.

(** The packets that were neither late nor duplicates when they were pushed. *)
Definition admits (op : reorderOp) (b : reorderBuffer) : list RtpPacket :=
  match op with RPush (Some p) => if fresh b p then [p] else [] | _ => [] end.

Fixpoint accepted (ops : list reorderOp) (b : reorderBuffer) : list RtpPacket :=
  match ops with
  | [] => []
  | op :: ops => admits op b ++ match stepReorder op b with Ret (b, _) => accepted ops b | _ => [] end
  end.

(** Few packets wait, and their timestamps are close. *)
Definition bounded (b : reorderBuffer) : Prop :=
  reorderLen b <= rb_maxDepth b /\
  forall o n, o ∈ waiting b -> n ∈ waiting b ->
    (forall p, p ∈ waiting b -> dist (rb_next b) (pk_SequenceNumber o) <= dist (rb_next b) (pk_SequenceNumber p) <= dist (rb_next b) (pk_SequenceNumber n)) ->
    u32 (pk_Timestamp n - pk_Timestamp o) <= rb_maxSpan b.

Lemma elem_of_waiting b p : p ∈ waiting b <-> exists k, rb_pending b !! k = Some p.
Proof. rewrite <-elem_of_range. unfold waiting. by rewrite Hrange. Qed.

Lemma bounded_empty b : RInv b -> rb_pending b = ∅ -> bounded b.
Proof.
  intros HI HE. unfold bounded, reorderLen, waiting. rewrite HE, map_size_empty, map_to_list_empty. split; [pose proof (ri_depth b HI); lia|].
  intros o n Ho. by apply elem_of_nil in Ho.
Qed.

Lemma same_packet b p q : RInv b -> p ∈ waiting b -> q ∈ waiting b -> dist (rb_next b) (pk_SequenceNumber p) = dist (rb_next b) (pk_SequenceNumber q) -> p = q.
Proof.
  intros HI [k Hk]%elem_of_waiting [k' Hk']%elem_of_waiting HD. destruct (ri_key b HI k p Hk) as [HS [Hr _]], (ri_key b HI k' q Hk') as [HS' [Hr' _]].
  rewrite HS, HS' in HD. apply dist_inj in HD; [|done..]. congruence.
Qed.

Lemma bounded_overdue b : RInv b -> overdue rangeMap b = false -> bounded b.
Proof.
  intros HI Hov. destruct (decide (rb_pending b = ∅)) as [HE|Hne]; [by apply bounded_empty|].
  assert (0 < reorderLen b) as Hlen. { unfold reorderLen. destruct (size (rb_pending b)) eqn:Hz; [by apply map_size_empty_iff in Hz|lia]. }
  unfold overdue in Hov. rewrite (proj2 (Z.ltb_lt _ _) Hlen) in Hov. cbn [andb] in Hov. apply orb_false_iff in Hov as [HL%Z.ltb_ge HS]. split; [done|].
  intros o n Ho Hn Hext. unfold spanExceeded in HS.
  assert ((rangeMap (rb_pending b)).*2 <> []) as Hnil. { intros HE. rewrite elem_of_waiting in Ho. apply elem_of_range in Ho. rewrite HE in Ho. by apply elem_of_nil in Ho. }
  destruct (pickOldest_spec (rb_next b) _ (range_packets b HI) Hnil) as (o' & HO & Ho' & Hmin).
  destruct (pickNewest_spec (rb_next b) _ (range_packets b HI) Hnil) as (n' & HN & Hn' & Hmax).
  rewrite HO, HN in HS. apply Z.ltb_ge in HS. rewrite elem_of_range, <-elem_of_waiting in Ho', Hn'. rewrite Forall_forall in Hmin, Hmax.
  setoid_rewrite elem_of_range in Hmin. setoid_rewrite elem_of_range in Hmax. setoid_rewrite <-elem_of_waiting in Hmin. setoid_rewrite <-elem_of_waiting in Hmax.
  assert (o' = o) as ->. { apply (same_packet b); [done..|]. specialize (Hmin o Ho). pose proof (Hext o' Ho'). lia. }
  assert (n' = n) as ->. { apply (same_packet b); [done..|]. specialize (Hmax n Hn). pose proof (Hext n' Hn'). lia. }
  done.
Qed.

(** A state between two operations. *)
Definition idle (b : reorderBuffer) : Prop := RInv b /\ rb_pending b !! rb_next b = None /\ bounded b.

Lemma new_idle maxDepth maxSpan : idle (newReorderBuffer maxDepth maxSpan).
Proof.
  assert (RInv (newReorderBuffer maxDepth maxSpan)) as HI.
  { split; cbn; [lia|intros k p; by rewrite lookup_empty| |done]. destruct (Z.leb_spec maxDepth 0); [done|lia]. }
  split_and!; [done|apply lookup_empty|by apply bounded_empty].
Qed.

Lemma step_spec op b : reorderOk op -> idle b ->
  exists b' ps, stepReorder op b = Ret (b', ps) /\ idle b' /\ rb_maxDepth b' = rb_maxDepth b /\ rb_maxSpan b' = rb_maxSpan b /\
    admits op b ++ waiting b ≡ₚ ps ++ waiting b' /\
    (exists n, chain n ps (rb_next b') /\ (rb_started b = true -> n = rb_next b)) /\ (rb_started b = true \/ ps <> [] -> rb_started b' = true) /\
    (op = RFlush -> rb_pending b' = ∅).
Proof.
  intros Hop (HI & Hn & HB). destruct op as [[p|]|]; cbn [stepReorder admits].
  - destruct (Push_delivers b p HI Hop Hn) as (ps & b' & -> & HF). exists b', ps. split; [done|]. destruct (fresh b p) eqn:Hf.
    + destruct HF as (HD & Ho & Hn'). destruct HD as [HI' HC HP (H1 & H2 & H3)]. cbn in HC, HP, H1, H2, H3.
      assert (rb_maxDepth (start b (pk_SequenceNumber p)) = rb_maxDepth b /\ rb_maxSpan (start b (pk_SequenceNumber p)) = rb_maxSpan b) as [E1 E2] by (unfold start; by destruct (rb_started b)).
      split_and!; [by split_and!; [..|apply bounded_overdue]|congruence|congruence| | | |done].
      * rewrite <-HP. unfold waiting at 2. cbn. unfold fresh in Hf. apply andb_true_iff in Hf as [_ Hf%bool_decide_eq_true]. by rewrite map_to_list_insert.
      * exists (rb_next (start b (pk_SequenceNumber p))). split; [done|]. intros Hs. unfold start. by rewrite Hs.
      * intros _. rewrite H3. unfold start. by destruct (rb_started b) eqn:?.
    + destruct HF as (-> & -> & Hs). assert (start b (pk_SequenceNumber p) = b) as -> by (unfold start; by rewrite Hs).
      split_and!; [by split_and!|done..| |done|done]. exists (rb_next b). done.
  - exists b, []. cbn. split_and!; [done|by split_and!|done..| |by intros [|]|done]. exists (rb_next b). done.
  - destruct (Flush_delivers b HI Hn) as (ps & b' & -> & HD & HE). exists b', ps. destruct HD as [HI' HC HP (H1 & H2 & H3)].
    split_and!; [done|split_and!; [done|by rewrite HE|by apply bounded_empty]|done|done|done| | |done].
    + exists (rb_next b). done.
    + intros [Hs|Hps]; [congruence|]. rewrite H3. destruct (rb_started b) eqn:Hs; [done|]. exfalso. apply Hps. pose proof (ri_idle b HI Hs) as HE0.
      unfold waiting in HP. rewrite HE0, map_to_list_empty in HP. apply Permutation_nil_l in HP. symmetry in HP. by apply app_eq_nil in HP as [-> _].
Qed.

Lemma run_spec ops b : Forall reorderOk ops -> idle b ->
  exists b' out, runReorder ops b = Ret (b', out) /\ idle b' /\ rb_maxDepth b' = rb_maxDepth b /\ rb_maxSpan b' = rb_maxSpan b /\
    accepted ops b ++ waiting b ≡ₚ out ++ waiting b' /\ (rb_started b = true \/ out <> [] -> rb_started b' = true) /\
    exists n, chain n out (rb_next b') /\ (rb_started b = true -> n = rb_next b).
Proof.
  intros HF. revert b. induction HF as [|op ops Hop HF IH]; intros b Hb; cbn [runReorder accepted].
  - exists b, []. cbn. split_and!; [done..|by intros [|]|]. by exists (rb_next b).
  - destruct (step_spec op b Hop Hb) as (b1 & ps & -> & Hb1 & D1 & S1 & HP1 & (n1 & HC1 & Hn1) & Hst1 & _). cbn [mbind Go_bind].
    destruct (IH b1 Hb1) as (b2 & out & -> & Hb2 & D2 & S2 & HP2 & Hst2 & n2 & HC2 & Hn2). cbn [mbind Go_bind].
    exists b2, (ps ++ out). split_and!; [done..|congruence|congruence| | |].
    + rewrite <-app_assoc, (Permutation_app_comm (accepted ops b1)), app_assoc, HP1, <-!app_assoc. f_equiv.
      by rewrite <-HP2, Permutation_app_comm.
    + intros [Hs|Hne]; [by auto|]. destruct ps as [|p ps]; [by auto|]. apply Hst2. left. apply Hst1. by right.
    + destruct (decide (rb_started b1 = true)) as [Hs|Hs].
      * rewrite (Hn2 Hs) in HC2. exists n1. split; [by eapply chain_app|done].
      * assert (ps = []) as -> by (destruct ps; [done|]; destruct Hs; auto). exists n2. split; [done|]. intros Hb0. destruct Hs. auto.
Qed.

Lemma chain_sorted n ps n' : chain n ps n' -> Forall packetOk ps -> Sorted (fun p q => seqBefore (pk_SequenceNumber p) (pk_SequenceNumber q) = true) ps.
Proof.
  revert n. induction ps as [|p ps IH]; intros n HC HF; [constructor|]. apply Forall_cons in HF as [Hp HF]. destruct HC as [_ HC]. constructor; [by eapply IH|].
  destruct ps as [|q ps]; constructor. apply Forall_cons in HF as [Hq _]. destruct HC as [HC _]. unfold packetOk in *. u16_lia.
Qed.

Lemma accepted_ok ops b : Forall reorderOk ops -> Forall packetOk (accepted ops b).
Proof.
  intros HF. revert b. induction HF as [|op ops Hop HF IH]; intros b; cbn; [constructor|]. apply Forall_app. split.
  - destruct op as [[p|]|]; cbn; [|constructor..]. destruct (fresh b p); [by apply Forall_singleton|constructor].
  - destruct (stepReorder op b) as [[b2 ?]| |]; [apply IH|constructor..].
Qed.

(** C29: a buffer restores the order of whatever packets are pushed into it: no call
    panics, the packets that came out so far are in sequence order across the
    wraparound, together with those that still wait they are exactly the packets that
    were neither late nor duplicates, each once; and the packets that wait are within
    the depth and, in time, within the span. *)
Theorem reorder_stream (maxDepth maxSpan : Z) (ops : list reorderOp) :
  Forall reorderOk ops ->
  let b0 := newReorderBuffer maxDepth maxSpan in
  exists b out, runReorder ops b0 = Ret (b, out) /\
    accepted ops b0 ≡ₚ out ++ waiting b /\
    Sorted (fun p q => seqBefore (pk_SequenceNumber p) (pk_SequenceNumber q) = true) out /\
    reorderLen b <= rb_maxDepth b0 /\
    (forall o n, o ∈ waiting b -> n ∈ waiting b ->
       (forall p, p ∈ waiting b -> seqBefore (pk_SequenceNumber p) (pk_SequenceNumber o) = false /\ seqBefore (pk_SequenceNumber n) (pk_SequenceNumber p) = false) ->
       u32 (pk_Timestamp n - pk_Timestamp o) <= rb_maxSpan b0).
Proof.
  intros HF b0. destruct (run_spec ops b0 HF (new_idle maxDepth maxSpan)) as (b & out & HE & (HI & _ & HB) & HD & HS & HP & _ & n & HC & _).
  unfold waiting in HP at 1. cbn in HP. rewrite map_to_list_empty, app_nil_r in HP.
  assert (Forall packetOk out) as Hout.
  { pose proof (accepted_ok ops b0 HF) as HA.
    rewrite HP in HA. by apply Forall_app in HA as [? _]. }
  exists b, out. split_and!; [done|done|by eapply chain_sorted| |]; [rewrite <-HD; apply HB|].
  intros o nw Ho Hnw Hext. rewrite <-HS. apply HB; [done..|]. intros p Hp. destruct (Hext p Hp) as [H1 H2].
  assert (forall q, q ∈ waiting b -> dist (rb_next b) (pk_SequenceNumber q) < 32768) as Hwin.
  { intros q [k Hk]%elem_of_waiting. destruct (ri_key b HI k q Hk) as [-> [_ ?]]. done. }
  pose proof (seqBefore_cases (rb_next b) _ _ (Hwin p Hp) (Hwin o Ho)) as C1. rewrite H1 in C1.
  pose proof (seqBefore_cases (rb_next b) _ _ (Hwin nw Hnw) (Hwin p Hp)) as C2. rewrite H2 in C2. lia.
Qed.

(** ** Streams without losses *)
Section lossless.
Context (s0 : Z) (pkt : nat -> RtpPacket) (Hseq : forall i, pk_SequenceNumber (pkt i) = u16 (s0 + Z.of_nat i)).

Local Notation num i := (u16 (s0 + Z.of_nat i)).

(** The packets [l] have arrived and those before [m] have left. *)
Record tracks (l : list nat) (m : nat) (b : reorderBuffer) (out : list RtpPacket) : Prop := {
  tk_inv : RInv b;
  tk_next : rb_next b = num m;
  tk_before i : (i < m)%nat -> i ∈ l;
  tk_window i : i ∈ l -> Z.of_nat i - Z.of_nat m < 32768;
  tk_pending k p : rb_pending b !! k = Some p <-> exists i, i ∈ l /\ (m <= i)%nat /\ k = num i /\ p = pkt i;
  tk_size : (m + size (rb_pending b) = length l)%nat;
  tk_out : out = pkt <$> seq 0 m
}.

Lemma num_dist m i : (m <= i)%nat -> Z.of_nat i - Z.of_nat m < 65536 -> dist (num m) (num i) = Z.of_nat i - Z.of_nat m.
Proof. intros. u16_lia. Qed.

Lemma num_inj m i : (m <= i)%nat -> Z.of_nat i - Z.of_nat m < 65536 -> num m = num i -> i = m.
Proof. intros. u16_lia. Qed.

Lemma tracks_next l m b out p : tracks l m b out -> rb_pending b !! rb_next b = Some p <-> m ∈ l /\ p = pkt m.
Proof.
  intros HT. rewrite (tk_pending l m b out HT). split; [|intros [? ->]; exists m; by rewrite (tk_next l m b out HT)].
  intros (i & Hi & Hm & HN & ->). rewrite (tk_next l m b out HT) in HN.
  assert (i = m) as ->; [|done]. pose proof (tk_window l m b out HT i Hi) as HW. apply num_inj; [done|lia|done].
Qed.

Lemma tracks_take l m b out : tracks l m b out -> m ∈ l ->
  tracks l (S m) (MkReorderBuffer (rb_maxDepth b) (rb_maxSpan b) (rb_started b) (u16 (rb_next b + 1)) (delete (rb_next b) (rb_pending b))) (out ++ [pkt m]).
Proof.
  intros HT Hm. pose proof (proj2 (tracks_next l m b out (pkt m) HT) (conj Hm eq_refl)) as Hp.
  split; cbn [rb_next rb_pending].
  - apply (take_next b (pkt m)); [by apply (tk_inv l m b out)|done].
  - rewrite (tk_next l m b out HT). clear. u16_lia.
  - intros i Hi. destruct (decide (i = m)) as [->|]; [done|]. apply (tk_before l m b out HT). lia.
  - intros i Hi. pose proof (tk_window l m b out HT i Hi). lia.
  - intros k p. rewrite lookup_delete_Some, (tk_pending l m b out HT), (tk_next l m b out HT). split.
    + intros (Hne & i & Hi & Hle & -> & ->). exists i. split_and!; try done. destruct (decide (i = m)) as [->|]; [done|lia].
    + intros (i & Hi & Hle & -> & ->). split; [|exists i; split_and!; try done; lia]. intros HN.
      pose proof (tk_window l m b out HT i Hi) as HW. apply num_inj in HN; lia.
  - pose proof (tk_size l m b out HT) as HS. rewrite map_size_delete_Some by eauto.
    assert (size (rb_pending b) <> 0)%nat by (intros Hz; apply map_size_empty_iff in Hz; by rewrite Hz, lookup_empty in Hp). lia.
  - rewrite (tk_out l m b out HT), seq_S, fmap_app. done.
Qed.

Lemma drain_tracks l fuel : forall m b out, tracks l m b out -> (size (rb_pending b) <= fuel)%nat ->
  exists m' b', drainLoop fuel b out = (b', pkt <$> seq 0 m') /\ tracks l m' b' (pkt <$> seq 0 m') /\ m' ∉ l /\
    rb_maxDepth b' = rb_maxDepth b /\ rb_maxSpan b' = rb_maxSpan b /\ rb_started b' = rb_started b.
Proof.
  induction fuel as [|fuel IH]; intros m b out HT Hf; cbn [drainLoop].
  - assert (rb_pending b = ∅) as HE by (apply map_size_empty_iff; lia). rewrite HE, lookup_empty. exists m, b. rewrite <-(tk_out l m b out HT).
    split_and!; [done|done| |done|done|done]. intros Hm. pose proof (proj2 (tracks_next l m b out (pkt m) HT) (conj Hm eq_refl)) as Hp. by rewrite HE, lookup_empty in Hp.
  - destruct (rb_pending b !! rb_next b) as [p|] eqn:Hp.
    + apply (tracks_next l m b out p HT) in Hp as [Hm ->]. pose proof (tracks_take l m b out HT Hm) as HT'.
      destruct (IH _ _ _ HT') as (m' & b' & HE & HH); [|by exists m', b'].
      cbn. rewrite map_size_delete_Some by (exists (pkt m); by apply (tracks_next l m b out)). lia.
    + exists m, b. rewrite <-(tk_out l m b out HT). split_and!; [done|done| |done|done|done]. intros Hm.
      pose proof (proj2 (tracks_next l m b out (pkt m) HT) (conj Hm eq_refl)). congruence.
Qed.

Lemma tracks_push l m b out i : tracks l m b out -> m ∉ l -> i ∉ l -> (m <= i)%nat -> Z.of_nat i - Z.of_nat m < 32768 -> rb_started b = true ->
  fresh b (pkt i) = true /\ tracks (l ++ [i]) m (setPending (start b (num i)) (<[num i := pkt i]> (rb_pending b))) out.
Proof.
  intros HT Hm Hi Hle Hw Hs. unfold start. rewrite Hs.
  assert (forall j, j ∈ l -> (m <= j)%nat -> num j <> num i) as Hne.
  { intros j Hj Hmj HN. pose proof (tk_window l m b out HT j Hj). assert (j = i); [|by subst]. clear -HN Hmj Hle Hw H. u16_lia. }
  assert (rb_pending b !! num i = None) as Hno.
  { apply eq_None_not_Some. intros [p (j & Hj & Hmj & HN & _)%(tk_pending l m b out HT)]. by apply (Hne j Hj Hmj). }
  assert (seqBefore (num i) (rb_next b) = false) as Hb. { apply seqBefore_next. rewrite (tk_next l m b out HT), num_dist; lia. }
  split; [unfold fresh, start; rewrite Hseq, Hs, Hb; by apply bool_decide_eq_true_2|].
  split; cbn [setPending rb_next rb_pending].
  - rewrite <-(Hseq i). apply insert_inv; [apply (tk_inv l m b out HT)|unfold packetOk; rewrite Hseq; apply u16_range|by rewrite Hseq|done].
  - by apply (tk_next l m b out HT).
  - intros j Hj. apply elem_of_app. left. by apply (tk_before l m b out HT).
  - intros j [Hj|Hj%list_elem_of_singleton]%elem_of_app; [by apply (tk_window l m b out HT)|by subst].
  - intros k p. rewrite lookup_insert_Some, (tk_pending l m b out HT). setoid_rewrite elem_of_app. setoid_rewrite list_elem_of_singleton. split.
    + intros [[<- <-]|[_ (j & Hj & HH)]]; [exists i; by auto|exists j; by auto].
    + intros (j & [Hj| ->] & Hmj & -> & ->); [right|by left]. split; [intros HN; by apply (Hne j Hj Hmj)|by eauto].
  - rewrite map_size_insert_None, length_app by done. pose proof (tk_size l m b out HT). cbn. lia.
  - apply (tk_out l m b out HT).
Qed.

(** Nothing is overdue while the packets that wait are few and close in time. *)
Lemma tracks_not_overdue l m b out : tracks l m b out -> m ∉ l -> Z.of_nat (length l) - Z.of_nat m <= rb_maxDepth b ->
  (forall i j, i ∈ l -> j ∈ l -> (m < i <= j)%nat -> u32 (pk_Timestamp (pkt j) - pk_Timestamp (pkt i)) <= rb_maxSpan b) ->
  overdue rangeMap b = false.
Proof.
  intros HT Hm Hlen Hts. unfold overdue. apply andb_false_iff. right. apply orb_false_iff. split.
  { apply Z.ltb_ge. unfold reorderLen. pose proof (tk_size l m b out HT). lia. }
  unfold spanExceeded. pose proof (tk_inv l m b out HT) as HI.
  destruct (decide ((rangeMap (rb_pending b)).*2 = [])) as [HE|Hnil]; [by rewrite HE|].
  destruct (pickOldest_spec (rb_next b) _ (range_packets b HI) Hnil) as (o & -> & Ho & Hmin).
  destruct (pickNewest_spec (rb_next b) _ (range_packets b HI) Hnil) as (n & -> & Hn & _).
  rewrite Forall_forall in Hmin. specialize (Hmin n Hn). apply elem_of_range in Ho as [k1 (i & Hi & Hmi & _ & ->)%(tk_pending l m b out HT)].
  apply elem_of_range in Hn as [k2 (j & Hj & Hmj & _ & ->)%(tk_pending l m b out HT)]. apply Z.ltb_ge.
  pose proof (tk_window l m b out HT i Hi). pose proof (tk_window l m b out HT j Hj).
  rewrite (tk_next l m b out HT), !Hseq, !num_dist in Hmin by lia. apply Hts; [done..|].
  assert (i <> m) by (by intros ->). lia.
Qed.

Lemma drainLoop_out fuel b pre out : drainLoop fuel b (pre ++ out) = ((drainLoop fuel b out).1, pre ++ (drainLoop fuel b out).2).
Proof.
  revert b out. induction fuel as [|fuel IH]; intros b out; cbn; [by destruct (_ !! _)|]. destruct (_ !! _); [|done]. rewrite <-app_assoc. apply IH.
Qed.

Lemma Push_fresh b p : fresh b p = true -> 
  Reorder_Push rangeMap (Some p) b =
    let '(b, out) := drain (setPending (start b (pk_SequenceNumber p)) (<[pk_SequenceNumber p := p]> (rb_pending b))) [] in
    skipLoop rangeMap (size (rb_pending b)) (overdue rangeMap) b out.
Proof.
  unfold fresh, Reorder_Push. intros [Hb%negb_true_iff Hn%bool_decide_eq_true]%andb_true_iff. rewrite Hb.
  assert (rb_pending (start b (pk_SequenceNumber p)) = rb_pending b) as -> by (unfold start; by destruct (rb_started b)).
  rewrite Hn, bool_decide_eq_false_2 by (by intros []). done.
Qed.

Context (arrivals : list nat) (n : nat) (depth span : Z).

(** Every packet arrives at most [depth] places late, and not half the circle early;
    packets that have to wait together are close in time. *)
Record mildlyReordered : Prop := {
  mr_perm : arrivals ≡ₚ seq 0 n;
  mr_first : arrivals !! 0%nat = Some 0%nat;
  mr_late t i : arrivals !! t = Some i -> Z.of_nat t <= Z.of_nat i + depth;
  mr_early t i : arrivals !! t = Some i -> Z.of_nat i + depth < Z.of_nat t + 32768;
  mr_span t m i j : m ∉ take t arrivals -> i ∈ take t arrivals -> j ∈ take t arrivals -> (m < i <= j)%nat ->
     u32 (pk_Timestamp (pkt j) - pk_Timestamp (pkt i)) <= span
}.
Context (HM : mildlyReordered).

Lemma missing_soon l rest m : arrivals = l ++ rest -> m ∉ l -> (m < n)%nat -> Z.of_nat (length l) <= Z.of_nat m + depth.
Proof.
  intros HA Hm Hn. assert (m ∈ arrivals) as Hin by (rewrite (mr_perm HM); apply elem_of_seq; lia).
  rewrite HA, elem_of_app in Hin. destruct Hin as [?|[t Ht]%list_elem_of_lookup]; [done|].
  assert (arrivals !! (length l + t)%nat = Some m) as Hat by (rewrite HA, lookup_app_r by lia; by replace (length l + t - length l)%nat with t by lia).
  pose proof (mr_late HM _ _ Hat). lia.
Qed.

Lemma lossless_run rest : forall l m b, arrivals = l ++ rest -> tracks l m b (pkt <$> seq 0 m) -> m ∉ l -> rb_started b = true ->
  rb_maxDepth b = depth -> rb_maxSpan b = span ->
  exists b' m' ps, runReorder (RPush ∘ Some ∘ pkt <$> rest) b = Ret (b', ps) /\ (pkt <$> seq 0 m) ++ ps = pkt <$> seq 0 m' /\
    tracks arrivals m' b' (pkt <$> seq 0 m') /\ m' ∉ arrivals.
Proof.
  induction rest as [|i rest IH]; intros l m b HA HT Hm Hs HD HSp.
  { rewrite app_nil_r in HA. subst l. exists b, m, []. by rewrite app_nil_r. }
  assert (NoDup arrivals) as Hnd by (rewrite (mr_perm HM); apply NoDup_seq).
  assert (i ∉ l) as Hi. { rewrite HA in Hnd. apply NoDup_app in Hnd as (_ & Hnd & _). intros Hi. apply (Hnd i Hi). by left. }
  assert (i < n)%nat as Hin. { assert (i ∈ arrivals) as HI by (rewrite HA; set_solver). rewrite (mr_perm HM) in HI. apply elem_of_seq in HI. lia. }
  assert (m <= i)%nat as Hle. { apply Nat.nlt_ge. intros Hlt. apply Hi. by apply (tk_before _ _ _ _ HT). }
  assert (arrivals !! length l = Some i) as Hat by (rewrite HA; apply list_lookup_middle; done).
  pose proof (missing_soon l (i :: rest) m HA Hm ltac:(lia)) as Hsoon. pose proof (mr_early HM _ _ Hat) as Hearly.
  destruct (tracks_push l m b _ i HT Hm Hi Hle ltac:(lia) Hs) as [Hf HT1].
  cbn [fmap list_fmap runReorder]. change (stepReorder _ b) with (Reorder_Push rangeMap (Some (pkt i)) b). rewrite (Push_fresh b (pkt i) Hf), Hseq.
  set (b1 := setPending _ _) in *. unfold drain. destruct (drain_tracks (l ++ [i]) (size (rb_pending b1)) m b1 _ HT1) as (m1 & b2 & HE & HT2 & Hm1 & HD2 & HS2 & Hst); [done|].
  rewrite <-(app_nil_r (pkt <$> seq 0 m)), drainLoop_out in HE. destruct (drainLoop _ b1 []) as [b2' ps]. cbn [fst snd] in HE. injection HE as -> HO.
  assert (rb_maxDepth b2 = depth /\ rb_maxSpan b2 = span) as [HD3 HS3] by (rewrite HD2, HS2; unfold b1, start; by rewrite Hs).
  assert (arrivals = (l ++ [i]) ++ rest) as HA1 by (by rewrite HA, <-app_assoc).
  assert (overdue rangeMap b2 = false) as Hov.
  { apply (tracks_not_overdue (l ++ [i]) m1 b2 _ HT2 Hm1).
    - rewrite HD3. destruct (decide (m1 < n)%nat) as [Hlt|]; [pose proof (missing_soon (l ++ [i]) rest m1 HA1 Hm1 Hlt); lia|].
      assert (length arrivals = n) as HL by (rewrite (mr_perm HM); apply length_seq). rewrite HA1, length_app in HL.
      pose proof (ri_depth b (tk_inv _ _ _ _ HT)). lia.
    - rewrite HS3. intros x y Hx Hy Hxy. apply (mr_span HM (length (l ++ [i])) m1); [..|done]; by rewrite HA1, take_app_length. }
  assert (skipLoop rangeMap (size (rb_pending b2)) (overdue rangeMap) b2 ps = Ret (b2, ps)) as -> by (destruct (size _); cbn; by rewrite Hov).
  destruct (IH (l ++ [i]) m1 b2 HA1 HT2 Hm1) as (b' & m' & qs & HR & HO' & HT' & Hm'); [rewrite Hst; unfold b1, start; by rewrite Hs|done|done|].
  exists b', m', (ps ++ qs). cbn [mbind Go_bind]. rewrite HR. cbn [mbind Go_bind]. split_and!; [done|by rewrite app_assoc, HO|done|done].
Qed.
End lossless.

Lemma first_push b p ops : runReorder (RPush (Some p) :: ops) b = runReorder (RPush (Some p) :: ops) (start b (pk_SequenceNumber p)).
Proof.
  cbn. assert (start (start b (pk_SequenceNumber p)) (pk_SequenceNumber p) = start b (pk_SequenceNumber p)) as HS.
  { unfold start. by destruct (rb_started b) eqn:Hs; [rewrite Hs|]. }
  unfold Reorder_Push. by rewrite HS.
Qed.

(** C28: a stream of consecutive packets, of any length and across any number of
    wraparounds, whose packets arrive at most [maxDepth] places late, less than half
    the circle early and close in time to those they wait with, leaves the buffer
    complete and in order, with nothing left to wait. *)
Theorem reorder_lossless (maxDepth maxSpan s0 : Z) (pkt : nat -> RtpPacket) (arrivals : list nat) (n : nat) :
  let b0 := newReorderBuffer maxDepth maxSpan in
  (forall i, pk_SequenceNumber (pkt i) = u16 (s0 + Z.of_nat i)) ->
  mildlyReordered pkt arrivals n (rb_maxDepth b0) (rb_maxSpan b0) ->
  exists b, runReorder (RPush ∘ Some ∘ pkt <$> arrivals) b0 = Ret (b, pkt <$> seq 0 n) /\ rb_pending b = ∅.
Proof.
  intros b0 Hseq HM. destruct arrivals as [|i0 rest]; [by pose proof (mr_first _ _ _ _ _ HM)|].
  assert (i0 = 0%nat) as -> by (pose proof (mr_first _ _ _ _ _ HM); cbn in *; congruence).
  rewrite fmap_cons. cbn [compose]. rewrite first_push. set (b1 := start b0 _).
  assert (tracks s0 pkt [] 0 b1 []) as HT.
  { split; cbn; [|by rewrite Hseq| |by intros i Hi%elem_of_nil| | |done]; [|lia| |by rewrite map_size_empty].
    - split; cbn; [rewrite Hseq; apply u16_range|intros k p; by rewrite lookup_empty|apply (new_idle maxDepth maxSpan)|done].
    - intros k p. rewrite lookup_empty. split; [done|]. by intros (i & Hi%elem_of_nil & _). }
  destruct (lossless_run s0 pkt Hseq (0%nat :: rest) n (rb_maxDepth b0) (rb_maxSpan b0) HM (0%nat :: rest) [] 0 b1) as (b & m & ps & HR & HO & HT' & Hm);
    [done|exact HT|by intros ?%elem_of_nil|done|done|done|].
  assert (m = n) as ->.
  { rewrite (mr_perm _ _ _ _ _ HM), elem_of_seq in Hm. pose proof (fun i Hi => proj1 (elem_of_seq 0 n i) ltac:(rewrite <-(mr_perm _ _ _ _ _ HM); exact (tk_before _ _ _ _ _ _ HT' i Hi))) as Hall.
    destruct (decide (m = n)) as [|Hne]; [done|]. assert (n < m)%nat by lia. specialize (Hall n ltac:(lia)). lia. }
  exists b. rewrite fmap_cons in HR. cbn [compose] in HR. rewrite HR, <-HO. split; [done|].
  apply map_empty. intros k. apply eq_None_not_Some. intros [p (i & Hi & Hle & _)%(tk_pending _ _ _ _ _ _ HT')].
  rewrite (mr_perm _ _ _ _ _ HM) in Hi. apply elem_of_seq in Hi. lia.
Qed.
End range.

(** ** Examples *)
Definition rtpExample (i : nat) : RtpPacket := MkRtpPacket (u16 (65534 + Z.of_nat i)) (u32 (960 * Z.of_nat i)) EmptyString.

(** Packets that swap across the wraparound, one that is lost, a late and a duplicate one. *)
Definition reorderExample : list reorderOp := (fun i => RPush (Some (rtpExample i))) <$> [0; 2; 1; 3; 5; 1; 6; 7; 8; 9; 10; 5; 4]%nat.

Lemma reorder_stream_witness :
  runReorder map_to_list reorderExample (newReorderBuffer 0 0) = Ret (MkReorderBuffer 5 4800 true 9 ∅, rtpExample <$> [0; 1; 2; 3; 5; 6; 7; 8; 9; 10]%nat) /\
  exists b out, runReorder map_to_list reorderExample (newReorderBuffer 0 0) = Ret (b, out) /\
    Sorted (fun p q => seqBefore (pk_SequenceNumber p) (pk_SequenceNumber q) = true) out.
Proof.
  split; [vm_compute; reflexivity|].
  destruct (reorder_stream map_to_list (fun m => Permutation_refl _) 0 0 reorderExample) as (b & out & HE & _ & HS & _); [|exists b, out; exact (conj HE HS)].
  unfold reorderExample. repeat constructor; vm_compute; discriminate.
Defined.

Definition exArrivals : list nat := [0; 2; 1; 4; 5; 3]%nat.

Lemma exArrivals_mild : mildlyReordered rtpExample exArrivals 6 5 4800.
Proof.
  split.
  - apply NoDup_Permutation; [apply (bool_decide_unpack _); by vm_compute|apply NoDup_seq|]. intros i. rewrite elem_of_seq. unfold exArrivals.
    rewrite !elem_of_cons, elem_of_nil. lia.
  - done.
  - intros t i. unfold exArrivals. do 6 (destruct t as [|t]; [intros [= <-]; lia|]). done.
  - intros t i. unfold exArrivals. do 6 (destruct t as [|t]; [intros [= <-]; lia|]). done.
  - intros t m i j _ Hi Hj Hij. assert (j <= 5)%nat as Hb.
    { assert (j ∈ exArrivals) as Ha by (by eapply elem_of_submseteq, sublist_submseteq, sublist_take). unfold exArrivals in Ha.
      rewrite !elem_of_cons, elem_of_nil in Ha. lia. }
    unfold rtpExample. cbn. clear Hi Hj. unfold u32. Z.to_euclidean_division_equations. lia.
Qed.

Lemma reorder_lossless_witness :
  exists b, runReorder map_to_list (RPush ∘ Some ∘ rtpExample <$> exArrivals) (newReorderBuffer 0 0) = Ret (b, rtpExample <$> seq 0 6) /\ rb_pending b = ∅.
Proof.
  apply (reorder_lossless map_to_list (fun m => Permutation_refl _) 0 0 65534 rtpExample exArrivals 6); [done|]. exact exArrivals_mild.
Defined.
