(* ===== verification/SocialKeys.v ===== *)
(** * socialutil: store keys of the social services

    The key builders, list parameters, pages and orderings of
    [src/pkgs/gizclaw/internal/socialutil/util.go], with the query escaping of
    [net/url] that makes any identifier a key segment: identifiers share a segment exactly when
    they are equal up to surrounding white space. *)

From stdpp Require Import strings list.
From S2P Require Import Prelude GoStrings GoText KVKey.

Open Scope Z_scope.

(** ** [url.QueryEscape] and [url.QueryUnescape] *)
Definition querySafe (a : ascii) : bool :=
  between 65 90 a || between 97 122 a || between 48 57 a ||
  existsb (fun b => bool_decide (a = b)) ["-"; "_"; "."; "~"]%char.

Fixpoint queryEscape (s : string) : string :=
  match s with
  | EmptyString => EmptyString
  | String a s =>
      (if bool_decide (a = " "%char) then String "+" EmptyString
       else if querySafe a then String a EmptyString else String "%" (hexByte upperHex a)) +:+ queryEscape s
  end.

Definition queryByte (a : ascii) : ascii := if bool_decide (a = "+"%char) then " "%char else a.

Fixpoint queryUnescape (s : string) : option string :=
  match s with
  | EmptyString => Some EmptyString
  | String a s1 =>
      if bool_decide (a = "%"%char) then
        match s1 with
        | String b (String c s3) => x ← unhex2 b c; t ← queryUnescape s3; Some (String x t)
        | _ => None
        end
      else t ← queryUnescape s1; Some (String (queryByte a) t)
  end.

Definition Social_EscapeStoreSegment (value : string) : string := queryEscape (trimSpace value).
Definition Social_UnescapeStoreSegment (value : string) : string := default value (queryUnescape value).

(** ** Keys *)
Definition ContactsRoot : Key := ["contacts"%string].
Definition ContactNamesRoot : Key := ["contact-names"%string].
Definition ContactIDsRoot : Key := ["contact-ids"%string].
Definition FriendsRoot : Key := ["friends"%string].
Definition FriendInviteTokensRoot : Key := ["friend-invite-tokens"%string].
Definition GroupsRoot : Key := ["friend-groups"%string].
Definition GroupInviteTokensRoot : Key := ["friend-group-invite-tokens"%string].
Definition GroupMembersRoot : Key := ["friend-group-members"%string].
Definition GroupBelongsRoot : Key := ["friend-group-belongs"%string].
Definition GroupNamesRoot : Key := ["friend-group-names"%string].

Definition OwnerPrefix (root : Key) (owner : string) : Key := root ++ [Social_EscapeStoreSegment (trimSpace owner)].
Definition ContactKey (owner id : string) : Key := OwnerPrefix ContactsRoot owner ++ [Social_EscapeStoreSegment id].
Definition ContactNameKey (owner name : string) : Key := OwnerPrefix ContactNamesRoot owner ++ [Social_EscapeStoreSegment name].
Definition ContactIDKey (id : string) : Key := ContactIDsRoot ++ [Social_EscapeStoreSegment id].
Definition FriendKey (owner id : string) : Key := OwnerPrefix FriendsRoot owner ++ [Social_EscapeStoreSegment id].
Definition FriendInviteTokenKey (peerPublicKey : string) : Key := FriendInviteTokensRoot ++ [Social_EscapeStoreSegment peerPublicKey].
Definition GroupKey (id : string) : Key := GroupsRoot ++ [Social_EscapeStoreSegment id].
Definition GroupInviteTokenKey (friendGroupID : string) : Key := GroupInviteTokensRoot ++ [Social_EscapeStoreSegment friendGroupID].
Definition GroupMemberKey (friendGroupID peerID : string) : Key := GroupMembersRoot ++ [Social_EscapeStoreSegment friendGroupID; Social_EscapeStoreSegment peerID].
Definition GroupBelongKey (peerID friendGroupID : string) : Key := GroupBelongsRoot ++ [Social_EscapeStoreSegment peerID; Social_EscapeStoreSegment friendGroupID].
Definition GroupNameKey (peerID name : string) : Key := GroupNamesRoot ++ [Social_EscapeStoreSegment peerID; Social_EscapeStoreSegment name].

(** [RelationID] of two peers does not depend on their order. *)
Definition RelationID (a b : string) : string :=
  match sortStrings [trimSpace a; trimSpace b] with
  | [x; y] => x +:+ ":" +:+ y
  | _ => EmptyString
  end.

(** ** List parameters and pages *)
Definition DefaultListLimit : Z := 50.
Definition MaxListLimit : Z := 200.

Definition NormalizeListParams (cursor : string) (limit : Z) : string * Z :=
  let normalizedLimit := if 0 <? limit then limit else DefaultListLimit in
  (Social_EscapeStoreSegment (trimSpace cursor), if MaxListLimit <? normalizedLimit then MaxListLimit else normalizedLimit).

Record ItemPage (T : Type) := MkItemPage { ip_Items : list T; ip_HasNext : bool; ip_NextCursor : option string }.
Arguments MkItemPage {T}.
Arguments ip_Items {T}.
Arguments ip_HasNext {T}.
Arguments ip_NextCursor {T}.

(** The position after the first item with the cursor's identity; 0 when there is none. *)
Fixpoint afterCursor {T} (id : T -> string) (cursor : string) (i : nat) (items : list T) : nat :=
  match items with
  | [] => 0%nat
  | item :: items => if bool_decide (id item = cursor) then S i else afterCursor id cursor (S i) items
  end.

Definition PageItems {T} (items : list T) (cursor : string) (limit : Z) (id : T -> string) : ItemPage T :=
  let cursor := trimSpace cursor in
  let limit := (NormalizeListParams EmptyString limit).2 in
  let start := if bool_decide (cursor = EmptyString) then 0%nat else afterCursor id cursor 0 items in
  let start := Nat.min start (length items) in
  let end_ := Z.of_nat start + limit in
  let hasNext := end_ <? Z.of_nat (length items) in
  let stop := Z.to_nat (Z.min end_ (Z.of_nat (length items))) in
  MkItemPage (take (stop - start) (drop start items)) hasNext
    (if hasNext && (Z.of_nat start <? Z.of_nat stop) then id <$> items !! (stop - 1)%nat else None).

(** ** Invitation lifetimes (nanoseconds) *)
Definition DefaultInviteTokenTTL : Z := 5 * 60 * 1000000000.
Definition MinInviteTokenTTL : Z := 60 * 1000000000.
Definition MaxInviteTokenTTL : Z := 7 * 24 * 3600 * 1000000000.

Definition ErrInvalidInviteTokenTTL : string := "social: invite token ttl is out of range".
Definition ValidateInviteTokenTTL (ttl : Z) : Go string unit :=
  check ((ttl <? MinInviteTokenTTL) || (MaxInviteTokenTTL <? ttl)) ErrInvalidInviteTokenTTL.

Definition RequireOwner (owner : string) : Go string unit :=
  check (bool_decide (trimSpace owner = EmptyString)) "social: owner is required"%string.

(** ** Orderings *)
Definition CompareByCreatedAtAsc (aTime : Time) (aID : string) (bTime : Time) (bID : string) : bool :=
  if aTime =? bTime then ltStr aID bID else aTime <? bTime.
Definition CompareByCreatedAtDesc (aTime : Time) (aID : string) (bTime : Time) (bID : string) : bool :=
  if aTime =? bTime then ltStr bID aID else bTime <? aTime.

(** [NormalizePhone] keeps the decimal digits. *)
Fixpoint NormalizePhone (phone : string) : string :=
  match phone with
  | EmptyString => EmptyString
  | String a phone => if between 48 57 a then String a (NormalizePhone phone) else NormalizePhone phone
  end.

(** ** Laws *)
Lemma queryUnescape_queryEscape s : queryUnescape (queryEscape s) = Some s.
Proof.
  induction s as [|a s IH]; [done|]. cbn [queryEscape]. case_bool_decide as Hsp; [|destruct (querySafe a) eqn:Ha].
  - subst a. rewrite app_cons_str, app_empty_str. cbn [queryUnescape]. rewrite bool_decide_eq_false_2 by done. by rewrite IH.
  - rewrite app_cons_str, app_empty_str. cbn [queryUnescape]. rewrite bool_decide_eq_false_2 by (intros ->; by vm_compute in Ha). rewrite IH. cbn.
    unfold queryByte. by rewrite bool_decide_eq_false_2 by (intros ->; by vm_compute in Ha).
  - destruct (unhex2_hexByte upperHex a) as (x & y & -> & HE); [by right|]. rewrite !app_cons_str, app_empty_str.
    cbn [queryUnescape]. rewrite bool_decide_eq_true_2 by done. cbn. rewrite HE. cbn. by rewrite IH.
Qed.

Lemma queryEscape_inj s t : queryEscape s = queryEscape t -> s = t.
Proof. intros HE. pose proof (queryUnescape_queryEscape s) as HS. rewrite HE, queryUnescape_queryEscape in HS. congruence. Qed.

Lemma queryEscape_clean s : containsByte ":" (queryEscape s) = false.
Proof.
  induction s as [|a s IH]; [done|]. cbn [queryEscape]. rewrite containsByte_app, IH, orb_false_r.
  clear. byte_cases a.
Qed.

Lemma queryEscape_ascii s : asciiOnly (queryEscape s) = true.
Proof.
  unfold asciiOnly. induction s as [|a s IH]; [done|]. cbn [queryEscape]. rewrite allBytes_app, IH, andb_true_r. clear. byte_cases a.
Qed.

Lemma Social_EscapeStoreSegment_inj s t : Social_EscapeStoreSegment s = Social_EscapeStoreSegment t <-> trimSpace s = trimSpace t.
Proof. unfold Social_EscapeStoreSegment. split; [apply queryEscape_inj|by intros ->]. Qed.
