(* ===== verification/InviteToken.v ===== *)
(** * socialutil: invitation tokens

    [InviteTokenIndexKey], [WriteInviteToken], [DeleteInviteToken] and
    [ReadInviteToken] of [src/pkgs/gizclaw/internal/socialutil/util.go].  An invitation
    is a record under [root ++ [resource]]; the index of its token, under the hash of
    the token, holds the key of the record.  Hashing and JSON are the class
    [InviteCodec]: [decodeInvite] reads the fields [invite_token] and [expires_at] of a
    record, [decodeToken] the first of them only. *)

From stdpp Require Import gmap strings list.
From S2P Require Import Prelude GoStrings GoText KVKey KVMemory KVIface.

Open Scope Z_scope.

Inductive inviteError :=
  | InviteStore (e : kvError)
  | InviteNotFound
  | InviteText (msg : string).

Class InviteCodec := {
  tokenDigest : string -> string;
  decodeInvite : string -> option (string * Time);
  decodeToken : string -> option string;
  encodeLocator : Key -> option string;
  decodeLocator : string -> option Key
}.

Section invites.
Context {W : Type} {KO : KVOps W} {IC : InviteCodec}.

Definition InviteTokenIndexKey (root : Key) (token : string) : Key := root ++ ["by-token"%string; hexEncode (tokenDigest token)].

Definition kvI {A} (m : ST W kvError A) : ST W inviteError A := mapErrST InviteStore m.

(** A read in which [kv.ErrNotFound] is no error. *)
Definition getRecord (key : Key) : ST W inviteError (option string) :=
  r ← tryST (kvI (kvGet key));
  match r with
  | inr v => mret (Some v)
  | inl (InviteStore ErrNotFound) => mret None
  | inl e => failST e
  end.

(** The fields of a record that must decode. *)
Definition inviteFields (data : string) : ST W inviteError (string * Time) :=
  match decodeInvite data with Some r => mret r | None => failST (InviteText "json") end.

Definition tokenField (data : string) : ST W inviteError string :=
  match decodeToken data with Some t => mret t | None => failST (InviteText "json") end.

Definition keyRoot (key : Key) : Key := take (length key - 1) key.

Definition writeMutation (key : Key) (data token : string) (expiresAt : Time) (locator : string)
    (old indexed : option string) (previous : string) : Mutation :=
  let index := InviteTokenIndexKey (keyRoot key) token in
  MkMutation [MkCondition key old; MkCondition index indexed]
    [MkEntry key data expiresAt; MkEntry index locator expiresAt]
    (if bool_decide (previous <> EmptyString) && bool_decide (previous <> token) then [InviteTokenIndexKey (keyRoot key) previous] else [])
    [] [] [] [].

(** One iteration: [true] when the mutation was applied. *)
Definition writeAttempt (key : Key) (data token : string) (expiresAt : Time) (locator : string) : ST W inviteError bool :=
  old ← getRecord key;
  previous ← match old with
             | Some old => tokenField old
             | None => mret EmptyString
             end;
  indexed ← getRecord (InviteTokenIndexKey (keyRoot key) token);
  _ ← checkST (match indexed with Some l => negb (bool_decide (l = locator)) | None => false end)
        (InviteText "social: invite token already belongs to another resource");
  kvI (kvApply (writeMutation key data token expiresAt locator old indexed previous)).

(** [for range n] until an attempt succeeds. *)
Fixpoint retryLoop (n : nat) (attempt : ST W inviteError bool) : ST W inviteError unit :=
  match n with
  | O => failST (InviteText "social: invite token changed concurrently")
  | S n => ok ← attempt; if ok : bool then mret tt else retryLoop n attempt
  end.

(** [value] is the JSON text of the invitation, [None] when it cannot be encoded. *)
Definition WriteInviteToken (key : Key) (value : option string) : ST W inviteError unit :=
  match value with
  | None => failST (InviteText "json")
  | Some data =>
      next ← inviteFields data;
      _ ← checkST (bool_decide (trimSpace next.1 = EmptyString) || (length key <? 2)%nat) (InviteText "social: invalid invite token");
      match encodeLocator key with
      | None => failST (InviteText "json")
      | Some locator => retryLoop 16 (writeAttempt key data next.1 next.2 locator)
      end
  end.

Definition deleteMutation (key : Key) (data token : string) : Mutation :=
  MkMutation [MkCondition key (Some data)] []
    (key :: if bool_decide (token <> EmptyString) then [InviteTokenIndexKey (keyRoot key) token] else []) [] [] [] [].

(** [key[:len(key)-1]] panics for the empty key. *)
Definition needKey (key : Key) (token : string) : ST W inviteError unit :=
  lift (if bool_decide (key = []) && bool_decide (token <> EmptyString) then Panic else Ret tt).

(** An absent invitation is deleted already. *)
Definition deleteAttempt (key : Key) : ST W inviteError bool :=
  old ← getRecord key;
  match old with
  | None => mret true
  | Some data => token ← tokenField data; _ ← needKey key token; kvI (kvApply (deleteMutation key data token))
  end.

Definition DeleteInviteToken (key : Key) : ST W inviteError unit := retryLoop 16 (deleteAttempt key).

(** [store.Get], whose error is returned as it is. *)
Definition needRecord (key : Key) : ST W inviteError string :=
  r ← getRecord key;
  match r with Some v => mret v | None => failST InviteNotFound end.

Definition ReadInviteToken (root : Key) (token : string) : ST W inviteError string :=
  locator ← needRecord (InviteTokenIndexKey root token);
  match decodeLocator locator with
  | None => failST (InviteText "json")
  | Some key =>
      _ ← checkST (negb (length key =? length root + 1)%nat) (InviteText "social: invalid invite token locator");
      _ ← checkST (negb (bool_decide (take (length root) key = root))) (InviteText "social: invite token locator domain mismatch");
      data ← needRecord key;
      current ← tokenField data;
      _ ← checkST (negb (bool_decide (current = token))) InviteNotFound;
      mret data
  end.
End invites.
