(* ===== verification/InviteTokenProps.v ===== *)
(** * socialutil: invitation tokens under interference

    Any number of clients write, delete and read invitations of one root.  Between two
    store calls of an operation the others ([env]) may write and remove invitations
    ([inviteStep]); the expiry of an invitation with its index is such a removal.
    Theorem: every operation takes effect at one instant: a write replaces the invitation
    of its resource when no other resource has the token, a delete removes it, a failing call changes nothing, and a
    read answers with an invitation that has the token, or that there was a moment when
    none had it.  Tokens are compared by their hashes, so the tokens in use ([T]) are
    assumed to have different ones. *)

From stdpp Require Import gmap strings list.
From S2P Require Import Prelude GoStrings GoText KVKey KVMemory KVSpec KVProps KVIface KVSets PDCodec SocialKeys InviteToken.

Open Scope Z_scope.

Class InviteCodecLaws `{InviteCodec} := {
  decode_fields d t e : decodeInvite d = Some (t, e) -> decodeToken d = Some t;
  locator_roundtrip k l : encodeLocator k = Some l -> Forall (fun s => validUTF8 s = true) k -> decodeLocator l = Some k
}.

(** ** Invitations

    The record of each resource; no two resources have the same token. *)
Definition holds `{InviteCodec} (s : gmap string string) (seg token : string) : Prop := exists d, s !! seg = Some d /\ decodeToken d = Some token.

Inductive inviteStep `{InviteCodec} (s : gmap string string) : gmap string string -> Prop :=
  | step_write seg data token : decodeToken data = Some token -> (forall seg', holds s seg' token -> seg' = seg) -> inviteStep s (<[seg := data]> s)
  | step_delete seg : inviteStep s (delete seg s).

Definition unique `{InviteCodec} (s : gmap string string) : Prop := forall a b token, holds s a token -> holds s b token -> a = b.

Section steps.
Context {IC : InviteCodec}.
Implicit Types (s : gmap string string).

Lemma step_unique s s' : inviteStep s s' -> unique s -> unique s'.
Proof.
  intros HS HU. destruct HS as [seg data t Ht Hno|seg].
  - intros a b t' (d & Ha & Hd) (d' & Hb & Hd').
    apply lookup_insert_Some in Ha as [[<- <-]|[Hna Ha]], Hb as [[<- <-]|[Hnb Hb]]; [done| | |by eapply HU; eexists].
    + assert (t' = t) as -> by congruence. destruct Hnb. symmetry. apply Hno. by eexists.
    + assert (t' = t) as -> by congruence. destruct Hna. symmetry. apply Hno. by eexists.
  - intros a b t' (d & [_ Ha]%lookup_delete_Some & Hd) (d' & [_ Hb]%lookup_delete_Some & Hd'). by eapply HU; eexists.
Qed.

(** A token leaves a resource only through a moment when no resource has it. *)
Lemma token_moves (step : relation (gmap string string)) s s' seg token :
  (forall x y, step x y -> inviteStep x y) -> rtc step s s' -> unique s -> holds s seg token -> ~ holds s' seg token ->
  exists s1, rtc step s s1 /\ rtc step s1 s' /\ forall a, ~ holds s1 a token.
Proof.
  intros Hsub HR. induction HR as [s|s s1 s' HS0 HR IH]; intros HU Hh Hno; [done|]. pose proof (Hsub s s1 HS0) as HS. pose proof (step_unique s s1 HS HU) as HU1.
  assert (holds s1 seg token \/ forall a, ~ holds s1 a token) as [Hh1|Hgone].
  { destruct HS as [seg' data t Ht Hfree|seg'].
    - destruct (decide (seg' = seg)) as [->|Hne].
      + destruct (decide (t = token)) as [->|Hnt]; [left; exists data; by rewrite lookup_insert_eq|]. right. intros a (d & Ha & Hd).
        apply lookup_insert_Some in Ha as [[<- <-]|[Hna Ha]]; [congruence|]. destruct Hna. eapply HU; [exact Hh|by eexists].
      + left. destruct Hh as (d & Hd & Ht'). exists d. by rewrite lookup_insert_ne.
    - destruct (decide (seg' = seg)) as [->|Hne].
      + right. intros a (d & [Hna Ha]%lookup_delete_Some & Hd). destruct Hna. eapply HU; [exact Hh|by eexists].
      + left. destruct Hh as (d & Hd & Ht'). exists d. by rewrite lookup_delete_ne. }
  - destruct (IH HU1 Hh1 Hno) as (s2 & H1 & H2 & H3). exists s2. split_and!; [by eapply rtc_l|done|done].
  - exists s1. split_and!; [by apply rtc_once|done|done].
Qed.
End steps.

Section store.
Context {W : Type} {KO : KVOps W} {KL : KVLaws W} {SO : KVSetOps W} {SL : KVSetLaws W} {IC : InviteCodec} {ICL : InviteCodecLaws}.
Context (Hsep : sep kv_opts = ":"%char).
Context (root : Key) (Hroot : Forall (fun seg => containsByte ":" seg = false /\ validUTF8 seg = true) root).
Context (T : string -> Prop) (Hdigest : forall a b, T a -> T b -> tokenDigest a = tokenDigest b -> a = b).
Implicit Types (M : gmap string aval) (s : gmap string string).

Local Notation E := (encK kv_opts).
Local Notation recK seg := (root ++ [seg]).
Local Notation idxK token := (InviteTokenIndexKey root token).

Definition segOk (seg : string) : Prop := containsByte ":" seg = false /\ validUTF8 seg = true.

(** The resources of the social services are escaped identifiers. *)
Lemma segOk_escape v : segOk (Social_EscapeStoreSegment v).
Proof. split; [apply queryEscape_clean|apply asciiOnly_valid, queryEscape_ascii]. Qed.

Lemma hexEncode_clean (x : string) : containsByte ":" (hexEncode x) = false.
Proof. apply (containsByte_allBytes _ hexLower); [done|apply hexEncode_alphabet]. Qed.

Lemma root_clean : cleanKey kv_opts root.
Proof. unfold cleanKey. rewrite Hsep. eapply Forall_impl; [exact Hroot|]. by intros ? [? _]. Qed.

Lemma rec_clean seg : segOk seg -> cleanKey kv_opts (recK seg).
Proof. intros [Hs _]. unfold cleanKey. rewrite Hsep. apply Forall_app. split; [rewrite <-Hsep; apply root_clean|by apply Forall_singleton]. Qed.

Lemma idx_clean token : cleanKey kv_opts (idxK token).
Proof.
  unfold cleanKey, InviteTokenIndexKey. rewrite Hsep. apply Forall_app. split; [rewrite <-Hsep; apply root_clean|].
  constructor; [done|]. apply Forall_singleton, hexEncode_clean.
Qed.

Lemma rec_inj a b : segOk a -> segOk b -> E (recK a) = E (recK b) -> a = b.
Proof.
  intros Ha Hb HE. apply encK_inj in HE; [|by apply rec_clean|by apply rec_clean|by destruct root..]. by apply app_inv_head in HE as [= ->].
Qed.

Lemma idx_inj a b : T a -> T b -> E (idxK a) = E (idxK b) -> a = b.
Proof.
  intros Ha Hb HE. apply encK_inj in HE; [|apply idx_clean|apply idx_clean|by destruct root..]. apply app_inv_head in HE as [= HX].
  apply Hdigest; [done..|]. pose proof (hexDecode_hexEncode (tokenDigest a)) as HD. rewrite HX, hexDecode_hexEncode in HD. congruence.
Qed.

Lemma rec_idx seg token : segOk seg -> E (recK seg) <> E (idxK token).
Proof.
  intros Hs HE. apply encK_inj in HE; [|by apply rec_clean|apply idx_clean|by destruct root..]. apply (f_equal length) in HE.
  unfold InviteTokenIndexKey in HE. rewrite !length_app in HE. cbn in HE. lia.
Qed.

Lemma keyRoot_rec seg : keyRoot (recK seg) = root.
Proof. unfold keyRoot. rewrite length_app. cbn. rewrite Nat.add_sub. apply take_app_length. Qed.

(** ** The store and the invitations *)
Definition valOf (a : option aval) : option string := match a with Some (ARec v _) => Some v | _ => None end.
Definition isRecord (a : option aval) : Prop := match a with Some (ASet _ _) => False | _ => True end.

Record storesInvites M s : Prop := {
  rp_rec seg : segOk seg -> isRecord (M !! E (recK seg)) /\ valOf (M !! E (recK seg)) = s !! seg;
  rp_data seg d : s !! seg = Some d -> segOk seg /\ exists token, decodeToken d = Some token /\ T token /\ token <> EmptyString;
  rp_idx token : T token -> isRecord (M !! E (idxK token)) /\
    forall l, valOf (M !! E (idxK token)) = Some l <-> exists seg, holds s seg token /\ encodeLocator (recK seg) = Some l;
  rp_loc seg d : s !! seg = Some d -> is_Some (encodeLocator (recK seg))
}.

Lemma locator_inj a b l : segOk a -> segOk b -> encodeLocator (recK a) = Some l -> encodeLocator (recK b) = Some l -> a = b.
Proof.
  intros [_ Ha] [_ Hb] H1 H2.
  assert (forall c, validUTF8 c = true -> Forall (fun x => validUTF8 x = true) (recK c)) as HU.
  { intros c Hc. apply Forall_app. split; [eapply Forall_impl; [exact Hroot|]; by intros ? [_ ?]|by apply Forall_singleton]. }
  apply locator_roundtrip in H1; [|by apply HU]. apply locator_roundtrip in H2; [|by apply HU]. rewrite H1 in H2. injection H2 as H2.
  by apply app_inv_head in H2 as [= ->].
Qed.

Lemma reps_unique M s : storesInvites M s -> unique s.
Proof.
  intros HR a b t Ha Hb. pose proof Ha as (d & Hd & Ht). pose proof Hb as (d' & Hd' & _).
  destruct (rp_data M s HR a d Hd) as [Hsa (t' & Ht' & HT & _)]. assert (t' = t) as -> by congruence.
  destruct (rp_data M s HR b d' Hd') as [Hsb _].
  destruct (rp_loc M s HR a d Hd) as [l Hl], (rp_loc M s HR b d' Hd') as [l' Hl']. destruct (rp_idx M s HR t HT) as [_ Hix].
  assert (l = l') as ->. { assert (valOf (M !! E (idxK t)) = Some l) by (apply Hix; eauto). assert (valOf (M !! E (idxK t)) = Some l') by (apply Hix; eauto). congruence. }
  by eapply locator_inj.
Qed.

Lemma holds_insert s seg data token a t : decodeToken data = Some token -> holds (<[seg := data]> s) a t <-> (a = seg /\ t = token) \/ (a <> seg /\ holds s a t).
Proof.
  intros Ht. unfold holds. split.
  - intros (d & [[<- <-]|[Hne Hd]]%lookup_insert_Some & Hdt); [left; split; congruence|right; split; [congruence|eauto]].
  - intros [[-> ->]|[Hne (d & Hd & Hdt)]]; [exists data; by rewrite lookup_insert_eq|exists d; by rewrite lookup_insert_ne].
Qed.

Lemma holds_delete s seg a t : holds (delete seg s) a t <-> a <> seg /\ holds s a t.
Proof. unfold holds. setoid_rewrite lookup_delete_Some. naive_solver. Qed.

Lemma valOf_Some (a : option aval) v : valOf a = Some v <-> exists dl, a = Some (ARec v dl).
Proof. destruct a as [[]|]; cbn; naive_solver. Qed.

Lemma valOf_None M s seg : storesInvites M s -> segOk seg -> s !! seg = None -> M !! E (recK seg) = None.
Proof. intros HR Hs Hn. destruct (rp_rec M s HR seg Hs) as [HI HV]. rewrite Hn in HV. by destruct (M !! E (recK seg)) as [[]|]. Qed.

(** The token a resource has, empty when it has no invitation. *)
Definition previousOf (old : option string) (previous : string) : Prop :=
  match old with Some o => decodeToken o = Some previous | None => previous = EmptyString end.

Lemma write_effect M seg data token e l old indexed previous k :
  segOk seg ->
  specMutation kv_opts (writeMutation (recK seg) data token e l old indexed previous) M !! k =
    if bool_decide (previous <> EmptyString /\ previous <> token /\ k = E (idxK previous)) then None
    else if bool_decide (k = E (idxK token)) then Some (ARec l e)
    else if bool_decide (k = E (recK seg)) then Some (ARec data e) else M !! k.
Proof.
  intros Hs. unfold specMutation, writeMutation, phases. rewrite keyRoot_rec.
  cbn [mut_Entries mut_DeleteKeys mut_AddMembers mut_RemoveMembers mut_AddOrderedMembers mut_RemoveOrderedMembers fmap list_fmap app foldl entry_Key entry_Value entry_Deadline].
  rewrite deletes_lookup.
  assert (bool_decide (k ∈ E <$> (if bool_decide (previous <> EmptyString) && bool_decide (previous <> token) then [idxK previous] else [])) =
    bool_decide (previous <> EmptyString /\ previous <> token /\ k = E (idxK previous))) as ->.
  { apply bool_decide_ext. do 2 case_bool_decide; cbn; rewrite ?list_elem_of_singleton, ?elem_of_nil; naive_solver. }
  case_bool_decide; [done|]. case_bool_decide as H1; [subst; apply lookup_insert_eq|rewrite lookup_insert_ne by done].
  case_bool_decide as H2; [subst; apply lookup_insert_eq|by rewrite lookup_insert_ne].
Qed.

(** What the guards of a write ensure. *)
Lemma write_guards M s seg data token e l old indexed previous :
  storesInvites M s -> segOk seg -> T token -> encodeLocator (recK seg) = Some l -> (indexed = None \/ indexed = Some l) ->
  Forall (specCondition kv_opts M) (mut_Conditions (writeMutation (recK seg) data token e l old indexed previous)) ->
  s !! seg = old /\ forall a, holds s a token -> a = seg.
Proof.
  intros HR Hs HT Hl Hix HC. cbn [writeMutation mut_Conditions] in HC. rewrite keyRoot_rec, Forall_cons, Forall_singleton in HC. destruct HC as [C1 C2].
  unfold specCondition in C1, C2. cbn [cond_Expected cond_Key] in C1, C2. destruct (rp_rec M s HR seg Hs) as [_ HV]. split.
  { rewrite <-HV. destruct old as [o|]; [destruct C1 as [dl ->]|rewrite C1]; done. }
  intros a Ha. pose proof Ha as (d & Hd & _). destruct (rp_data M s HR a d Hd) as [Hsa _]. destruct (rp_loc M s HR a d Hd) as [l' Hl'].
  assert (valOf (M !! E (idxK token)) = Some l') as HI by (apply (rp_idx M s HR token HT); eauto).
  destruct indexed as [i|]; [|by rewrite C2 in HI]. destruct C2 as [dl C2]. rewrite C2 in HI. cbn in HI.
  destruct Hix as [?|[= ->]]; [done|]. injection HI as ->. by eapply locator_inj.
Qed.

Lemma write_reps M s seg data token e l old indexed previous :
  storesInvites M s -> segOk seg -> decodeInvite data = Some (token, e) -> T token -> token <> EmptyString -> encodeLocator (recK seg) = Some l ->
  (indexed = None \/ indexed = Some l) -> previousOf old previous ->
  Forall (specCondition kv_opts M) (mut_Conditions (writeMutation (recK seg) data token e l old indexed previous)) ->
  storesInvites (specMutation kv_opts (writeMutation (recK seg) data token e l old indexed previous) M) (<[seg := data]> s) /\ forall a, holds s a token -> a = seg.
Proof.
  intros HR Hs Hdec HT Hne Hl Hix Hp HC. destruct (write_guards M s seg data token e l old indexed previous HR Hs HT Hl Hix HC) as [Hold Hfree]. split; [|done].
  pose proof (decode_fields _ _ _ Hdec) as Htok.
  assert (previous <> EmptyString -> T previous /\ holds s seg previous) as Hprev.
  { intros Hpe. destruct old as [o|]; [|done]. cbn in Hp. destruct (rp_data M s HR seg o Hold) as [_ (t & Ht & HTt & _)]. split; [|by exists o]. congruence. }
  assert (forall x, holds s seg x -> x = previous) as Honly. { intros x (d & Hd & Hx). rewrite Hold in Hd. rewrite Hd in Hp. cbn in Hp. congruence. }
  split.
  - intros a Ha. rewrite write_effect by done. rewrite bool_decide_eq_false_2 by (intros (_ & _ & HE); by apply rec_idx in HE).
    rewrite bool_decide_eq_false_2 by (intros HE; by apply rec_idx in HE). case_bool_decide as HE.
    + apply rec_inj in HE as ->; [|done..]. by rewrite lookup_insert_eq.
    + rewrite lookup_insert_ne by (by intros ->). by apply HR.
  - intros a d [[<- <-]|[_ Hd]]%lookup_insert_Some; [|by apply (rp_data M s HR)]. split; [done|]. by exists token.
  - intros x Hx. rewrite write_effect by done. setoid_rewrite (holds_insert s seg data token _ _ Htok). case_bool_decide as H1.
    + destruct H1 as (Hpe & Hpt & HE). destruct (Hprev Hpe) as [HTp Hhp]. apply idx_inj in HE as ->; [|done..]. split; [done|]. cbn. intros l'. split; [done|].
      intros (a & [[_ ?]|[Hna Ha]] & _); [done|]. destruct Hna. by eapply reps_unique.
    + case_bool_decide as H2.
      * apply idx_inj in H2 as ->; [|done..]. split; [done|]. cbn. intros l'. split; [intros [= <-]; by eauto|].
        intros (a & [[-> _]|[Hna Ha]] & Hl'); [congruence|]. by apply Hfree in Ha.
      * rewrite bool_decide_eq_false_2 by (intros HE; symmetry in HE; by apply rec_idx in HE). destruct (rp_idx M s HR x Hx) as [HI HV]. split; [done|].
        intros l'. rewrite HV. split; intros (a & Ha & Hl'); exists a; (split; [|done]).
        -- right. split; [|done]. intros ->. pose proof (Honly x Ha) as ->. destruct Ha as (d & Hd & Hdt).
           destruct (rp_data M s HR seg d Hd) as [_ (t & Ht & _ & Hte)]. apply H1. split_and!; [congruence| |done]. intros ->. by apply H2.
        -- destruct Ha as [[_ ->]|[_ Ha]]; [done|done].
  - intros a d [[<- <-]|[_ Hd]]%lookup_insert_Some; [by eauto|by apply (rp_loc M s HR) in Hd].
Qed.

Lemma delete_effect M seg data token k :
  specMutation kv_opts (deleteMutation (recK seg) data token) M !! k =
    if bool_decide (k = E (recK seg) \/ token <> EmptyString /\ k = E (idxK token)) then None else M !! k.
Proof.
  unfold specMutation, deleteMutation, phases. rewrite keyRoot_rec.
  cbn [mut_Entries mut_DeleteKeys mut_AddMembers mut_RemoveMembers mut_AddOrderedMembers mut_RemoveOrderedMembers fmap list_fmap app].
  change (foldl (specGroup kv_opts) ?x []) with x. rewrite deletes_lookup. cbn [foldl].
  apply (f_equal (fun b : bool => if b then None else M !! k)), bool_decide_ext.
  case_bool_decide; cbn [fmap list_fmap]; rewrite elem_of_cons, ?list_elem_of_singleton, ?elem_of_nil; naive_solver.
Qed.

Lemma delete_reps M s seg data token :
  storesInvites M s -> segOk seg -> s !! seg = Some data -> decodeToken data = Some token ->
  storesInvites (specMutation kv_opts (deleteMutation (recK seg) data token) M) (delete seg s).
Proof.
  intros HR Hs Hd Ht. destruct (rp_data M s HR seg data Hd) as [_ (t & Ht' & HT & Hne)]. assert (t = token) as -> by congruence.
  assert (holds s seg token) as Hh by (by exists data). split.
  - intros a Ha. rewrite delete_effect. case_bool_decide as H1.
    + destruct H1 as [HE|[_ HE]]; [|by apply rec_idx in HE]. apply rec_inj in HE as ->; [|done..]. by rewrite lookup_delete_eq.
    + rewrite lookup_delete_ne by (intros ->; by apply H1; left). by apply HR.
  - intros a d [_ Ha]%lookup_delete_Some. by apply (rp_data M s HR).
  - intros x Hx. rewrite delete_effect. setoid_rewrite holds_delete. case_bool_decide as H1.
    + destruct H1 as [HE|[_ HE]]; [symmetry in HE; by apply rec_idx in HE|]. apply idx_inj in HE as ->; [|done..]. split; [done|]. cbn. intros l. split; [done|].
      intros (a & [Hna Ha] & _). destruct Hna. by eapply reps_unique.
    + destruct (rp_idx M s HR x Hx) as [HI HV]. split; [done|]. intros l. rewrite HV. split; [|naive_solver]. intros (a & Ha & Hl). exists a. split; [|done].
      split; [|done]. intros ->. apply H1. right. split; [done|]. destruct Ha as (d & Hd' & Hdt). congruence.
  - intros a d [_ Ha]%lookup_delete_Some. by apply (rp_loc M s HR a d).
Qed.

(** ** Interference

    [env n] is what the others do before the [n]-th store call: a sequence of steps,
    each of which writes or removes one invitation. *)
Section shared.
Context (env : nat -> W -> W) (others : relation (gmap string string)) (Hothers : forall s s', others s s' -> inviteStep s s').
Local Notation rely := (rtc others).
Context (Henv : forall n w s, kv_ok w -> storesInvites (kv_db w) s -> kv_ok (env n w) /\ exists s', rely s s' /\ storesInvites (kv_db (env n w)) s').

#[local] Instance envOps : KVOps (W * nat) := sharedOps env.

(** What a call does to the invitations, others included. *)
Definition act {A} (P : gmap string string -> Prop) (m : ST (W * nat) inviteError A) (R : gmap string string -> gmap string string -> Go inviteError A -> Prop) : Prop :=
  forall w w' r s, kv_ok w.1 -> storesInvites (kv_db w.1) s -> P s -> m w = (w', r) -> kv_ok w'.1 /\ exists s', storesInvites (kv_db w'.1) s' /\ R s s' r.

(** A call that itself changes nothing, with an answer that is right at its end. *)
Definition observes {A} (P : gmap string string -> Prop) (m : ST (W * nat) inviteError A) (R : gmap string string -> Go inviteError A -> Prop) : Prop :=
  act P m (fun s s' r => rely s s' /\ R s' r).

Lemma act_bind {A B} P (m : ST (W * nat) inviteError A) (f : A -> ST (W * nat) inviteError B) R1 R :
  observes P m R1 ->
  (forall a s0, P s0 -> act (fun s1 => rely s0 s1 /\ R1 s1 (Ret a)) (f a) (fun _ s' r => R s0 s' r)) ->
  (forall s s' e, P s -> rely s s' -> R1 s' (Fail e) -> R s s' (Fail e)) -> (forall s s', P s -> rely s s' -> R1 s' Panic -> R s s' Panic) ->
  act P (m ≫= f) R.
Proof.
  intros Hm Hf HF HPa w w' r s Hok HR HP. unfold mbind, ST_bind. destruct (m w) as [w1 r1] eqn:E1.
  destruct (Hm w w1 r1 s Hok HR HP E1) as (Hok1 & s1 & HR1 & Hrel & H1). destruct r1 as [a|e|].
  - intros E2. by apply (Hf a s HP w1 w' r s1).
  - intros [= <- <-]. split; [done|]. exists s1. auto.
  - intros [= <- <-]. split; [done|]. exists s1. auto.
Qed.

Lemma act_lift {A} P (g : Go inviteError A) R : (forall s, P s -> R s s g) -> act P (lift g) R.
Proof. intros Hg w w' r s Hok HR HP [= <- <-]. split; [done|]. exists s. auto. Qed.

Lemma act_fact {A} (P : gmap string string -> Prop) (F : Prop) (m : ST (W * nat) inviteError A) R :
  (forall M s, P s -> storesInvites M s -> F) -> (F -> act P m R) -> act P m R.
Proof. intros HF Hm w w' r s Hok HR HP. apply Hm; [by eapply HF|done|done|done]. Qed.

Lemma act_weaken {A} (P P' : gmap string string -> Prop) (m : ST (W * nat) inviteError A) R R' :
  act P' m R' -> (forall s, P s -> P' s) -> (forall s s' r, P s -> R' s s' r -> R s s' r) -> act P m R.
Proof. intros Hm HP HQ w w' r s Hok HR HPs EQ. destruct (Hm w w' r s Hok HR (HP s HPs) EQ) as (H1 & s' & H2 & H3). eauto. Qed.

(** ** Store calls *)
Lemma get_observes P key (R : gmap string string -> option string -> Prop) :
  cleanKey kv_opts key -> (forall M s, storesInvites M s -> isRecord (M !! E key) /\ R s (valOf (M !! E key))) ->
  observes P (getRecord key) (fun s r => match r with Ret v => R s v | Fail e => exists e', e = InviteStore e' | Panic => False end).
Proof.
  intros Hc HV [w n] w' r s Hok HR HP. destruct (Henv n w s Hok HR) as (Hok1 & s1 & Hrel & HR1).
  unfold getRecord, tryST, kvI, mapErrST, mbind, ST_bind. cbn. unfold sharedCall. cbn. destruct (kvGet key (env n w)) as [w2 r2] eqn:E1.
  destruct (kvGet_law (env n w) key w2 r2 Hok1 E1) as (Hok2 & Hdb & HG). destruct (HV _ _ HR1) as [HI HRv].
  assert (forall r', (match r' with Ret v => R s1 v | Fail e => exists e', e = InviteStore e' | Panic => False end) ->
    kv_ok (w2, S n).1 /\ exists s', storesInvites (kv_db (w2, S n).1) s' /\ rely s s' /\ match r' with Ret v => R s' v | Fail e => exists e', e = InviteStore e' | Panic => False end) as Hdone.
  { intros r' Hr'. split; [done|]. exists s1. cbn. rewrite Hdb. auto. }
  destruct r2 as [v|e|].
  - intros [= <- <-]. apply (Hdone (Ret (Some v))). destruct HG as [dl HG]. by rewrite HG in HRv.
  - destruct e; intros [= <- <-]; first [apply (Hdone (Ret None)); by rewrite HG in HRv | eapply (Hdone (Fail _)); by eexists].
  - done.
Qed.

Lemma rec_observes P seg : segOk seg ->
  observes P (getRecord (recK seg)) (fun s r => match r with Ret v => s !! seg = v | Fail e => exists e', e = InviteStore e' | Panic => False end).
Proof.
  intros Hs. apply (get_observes P (recK seg) (fun s v => s !! seg = v)); [by apply rec_clean|]. intros M s HR. by destruct (rp_rec M s HR seg Hs) as [? ->].
Qed.

Definition indexAnswer (s : gmap string string) (token : string) (v : option string) : Prop :=
  match v with
  | Some l => exists seg, holds s seg token /\ segOk seg /\ encodeLocator (recK seg) = Some l
  | None => forall seg, ~ holds s seg token
  end.

Lemma idx_observes P token : T token ->
  observes P (getRecord (idxK token)) (fun s r => match r with Ret v => indexAnswer s token v | Fail e => exists e', e = InviteStore e' | Panic => False end).
Proof.
  intros HT. apply (get_observes P (idxK token) (fun s v => indexAnswer s token v)); [apply idx_clean|]. intros M s HR.
  destruct (rp_idx M s HR token HT) as [HI HV]. split; [done|]. destruct (valOf _) as [l|] eqn:Hv; cbn.
  - destruct (proj1 (HV l) eq_refl) as (seg & Hh & Hl). exists seg. split_and!; [done| |done]. destruct Hh as (d & Hd & _). by apply (rp_data M s HR) in Hd as [? _].
  - intros seg Hh. pose proof Hh as (d & Hd & _). destruct (rp_loc M s HR seg d Hd) as [l Hl]. assert (None = Some l) by (apply HV; eauto). done.
Qed.

(** A mutation whose conditions guard its effect [G]. *)
Lemma apply_acts (P : gmap string string -> Prop) mu (G : relation (gmap string string)) :
  Forall (cleanKey kv_opts) (namedKeys mu) ->
  (forall M s1, storesInvites M s1 -> Forall (specCondition kv_opts M) (mut_Conditions mu) -> exists s2, storesInvites (specMutation kv_opts mu M) s2 /\ G s1 s2) ->
  act P (kvI (kvApply mu)) (fun s s' r =>
    match r with Ret true => exists s1, rely s s1 /\ G s1 s' | Ret false => rely s s' | Fail e => rely s s' /\ exists e', e = InviteStore e' | Panic => False end).
Proof.
  intros Hc HG [w n] w' r s Hok HR HP. destruct (Henv n w s Hok HR) as (Hok1 & s1 & Hrel & HR1).
  unfold kvI, mapErrST. cbn. unfold sharedCall. cbn. destruct (kvApply mu (env n w)) as [w2 r2] eqn:E1.
  destruct (kvApply_law (env n w) mu w2 r2 Hok1 E1) as (Hok2 & HA). destruct (kvApply_limit (env n w) mu w2 r2 Hok1 E1) as (_ & _ & Hp).
  destruct r2 as [[]|e|]; [| | |by destruct (Hp eq_refl)]; intros [= <- <-]; (split; [done|]); cbn.
  - destruct HA as (HC & _ & ->). destruct (HG _ _ HR1 HC) as (s2 & HR2 & HG2). exists s2. eauto.
  - destruct HA as (_ & ->). eauto.
  - rewrite HA. exists s1. eauto.
Qed.

(** Attempts repeated until one succeeds: a failed attempt has no effect of its own. *)
Lemma retry_acts n attempt (Q : gmap string string -> gmap string string -> Go inviteError unit -> Prop) :
  act (fun _ => True) attempt (fun s s' r => match r with Ret true => Q s s' (Ret tt) | Ret false => rely s s' | Fail e => Q s s' (Fail e) | Panic => False end) ->
  (forall s s1 s' r, rely s s1 -> Q s1 s' r -> Q s s' r) -> (forall s, Q s s (Fail (InviteText "social: invite token changed concurrently"))) ->
  act (fun _ => True) (retryLoop n attempt) Q.
Proof.
  intros HA Hrely Hlast. induction n as [|n IH]; cbn [retryLoop]; [by apply act_lift|].
  intros w w' r s Hok HR _. unfold mbind, ST_bind. destruct (attempt w) as [w1 r1] eqn:E1. destruct (HA w w1 r1 s Hok HR I E1) as (Hok1 & s1 & HR1 & HQ).
  destruct r1 as [[]|e|]; [intros [= <- <-]; by eauto| |intros [= <- <-]; by eauto|done].
  intros E2. destruct (IH w1 w' r s1 Hok1 HR1 I E2) as (Hok2 & s2 & HR2 & HQ2). eauto.
Qed.

(** ** Writing *)

(** The outcome of a write of [data] with [token] for [seg]. *)
Definition writeOutcome (seg data token : string) (s s' : gmap string string) (r : Go inviteError unit) : Prop :=
  match r with
  | Ret _ => exists s1, rely s s1 /\ (forall a, holds s1 a token -> a = seg) /\ s' = <[seg := data]> s1
  | Fail e =>
      rely s s' /\ ((exists e', e = InviteStore e') \/ e = InviteText "social: invite token changed concurrently" \/
       e = InviteText "social: invite token already belongs to another resource" /\ exists s1 a, rely s s1 /\ rely s1 s' /\ a <> seg /\ holds s1 a token)
  | Panic => False
  end.

Lemma writeOutcome_rely seg data token s s1 s' r : rely s s1 -> writeOutcome seg data token s1 s' r -> writeOutcome seg data token s s' r.
Proof.
  intros Hr. destruct r as [[]|e|]; cbn; [| |done].
  - intros (s2 & H2 & ?). exists s2. split; [by etrans|done].
  - intros [H1 H2]. split; [by etrans|]. destruct H2 as [?|[?|[? (s2 & a & ? & ?)]]]; [by auto..|]. right; right. split; [done|]. exists s2, a. split; [by etrans|done].
Qed.

Lemma old_token s seg o M : storesInvites M s -> s !! seg = Some o -> exists token, decodeToken o = Some token.
Proof. intros HR Ho. destruct (rp_data M s HR seg o Ho) as [_ (t & Ht & _)]. by eauto. Qed.

Lemma previous_observes P seg old :
  (forall s, P s -> s !! seg = old) ->
  observes P (match old with Some old => tokenField old | None => mret EmptyString end)
    (fun s r => P s /\ match r with Ret p => previousOf old p | _ => False end).
Proof.
  intros HP. destruct old as [o|]; [|by apply act_lift].
  apply (act_fact P (exists t, decodeToken o = Some t)); [intros M s Hs HR; eapply old_token; [exact HR|by apply HP]|].
  intros (t & Hd). unfold tokenField. rewrite Hd. apply act_lift. by intros s Hs.
Qed.

Lemma act_check {B} P bad e (k : ST (W * nat) inviteError B) R :
  (forall s, P s -> bad = true -> R s s (Fail e)) -> (bad = false -> act P k R) -> act P (_ ← checkST bad e; k) R.
Proof.
  intros Hb Hk. destruct bad; intros w w' r s Hok HR HP; [intros [= <- <-]; by eauto|]. by apply Hk.
Qed.

Lemma write_named seg data token e l old indexed previous :
  segOk seg -> Forall (cleanKey kv_opts) (namedKeys (writeMutation (recK seg) data token e l old indexed previous)).
Proof.
  intros Hs. unfold namedKeys, writeMutation, phases. rewrite keyRoot_rec. cbn. repeat constructor; try apply idx_clean; try by apply rec_clean.
  destruct (_ && _); cbn; repeat constructor. apply idx_clean.
Qed.

Lemma attempt_acts seg data token e l :
  segOk seg -> decodeInvite data = Some (token, e) -> T token -> token <> EmptyString -> encodeLocator (recK seg) = Some l ->
  act (fun _ => True) (writeAttempt (recK seg) data token e l) (fun s s' r =>
    match r with Ret true => writeOutcome seg data token s s' (Ret tt) | Ret false => rely s s' | Fail e => writeOutcome seg data token s s' (Fail e) | Panic => False end).
Proof.
  intros Hs Hd HT Hne Hl. unfold writeAttempt. rewrite keyRoot_rec. eapply act_bind; [by apply rec_observes| |cbn; eauto|done].
  intros old s0 _. eapply act_bind; [apply (previous_observes _ seg old); naive_solver| |naive_solver..].
  intros previous s1 [Hr1 _]. eapply act_bind; [by apply idx_observes| | |done].
  2:{ cbn. intros s2 s3 e2 [Hr2 _] Hr3 He. split; [|by left]. repeat (etrans; [eassumption|]). done. }
  intros indexed s2 [Hr2 [_ Hp]]. apply act_check.
  - intros s3 [Hr3 Hix] Hbad. destruct indexed as [i|]; [|done]. destruct Hix as (a & Ha & _ & Hla). apply negb_true_iff, bool_decide_eq_false in Hbad.
    assert (rely s0 s3) by (repeat (etrans; [eassumption|]); done). split; [done|]. right; right. split; [done|]. exists s3, a. split_and!; [done|done| |done]. congruence.
  - intros Hgood. assert (indexed = None \/ indexed = Some l) as Hil. { destruct indexed as [i|]; [|by left]. apply negb_false_iff, bool_decide_eq_true in Hgood as ->. by right. }
    eapply act_weaken; [apply (apply_acts (fun s3 => rely s2 s3) _ (fun x y => (forall a, holds x a token -> a = seg) /\ y = <[seg := data]> x)); [by apply write_named|]|naive_solver|].
    + intros M x HR HC. eexists. split; [by eapply write_reps|]. split; [|done]. by eapply write_guards.
    + intros s3 s4 r [Hr3 _]. assert (forall x, rely s3 x -> rely s0 x) as Hto by (intros x ?; repeat (etrans; [eassumption|]); done).
      destruct r as [[]|e2|]; cbn; naive_solver.
Qed.

Lemma write_acts seg data token e : root <> [] ->
  segOk seg -> decodeInvite data = Some (token, e) -> T token -> trimSpace token <> EmptyString -> is_Some (encodeLocator (recK seg)) ->
  act (fun _ => True) (WriteInviteToken (recK seg) (Some data)) (writeOutcome seg data token).
Proof.
  intros Hrt Hs Hd HT Hne [l Hl]. unfold WriteInviteToken, inviteFields. rewrite Hd. apply act_check.
  { intros s _ Hbad. exfalso. rewrite orb_true_iff, bool_decide_eq_true, Nat.ltb_lt, length_app in Hbad. cbn in Hbad. destruct Hbad as [?|Hb]; [done|]. destruct root; cbn in Hb; [done|lia]. }
  intros _. cbn [fst snd]. rewrite Hl. apply retry_acts; [|by apply writeOutcome_rely|].
  - apply attempt_acts; try done. by intros ->.
  - intros s. split; [done|]. by right; left.
Qed.
(** ** Deleting *)
Definition deleteOutcome (seg : string) (s s' : gmap string string) (r : Go inviteError unit) : Prop :=
  match r with
  | Ret _ => exists s1, rely s s1 /\ s' = delete seg s1
  | Fail e => rely s s' /\ ((exists e', e = InviteStore e') \/ e = InviteText "social: invite token changed concurrently")
  | Panic => False
  end.

Lemma deleteOutcome_rely seg s s1 s' r : rely s s1 -> deleteOutcome seg s1 s' r -> deleteOutcome seg s s' r.
Proof.
  intros Hr. destruct r as [[]|e|]; cbn; [| |done].
  - intros (s2 & H2 & ?). exists s2. split; [by etrans|done].
  - intros [H1 H2]. split; [by etrans|done].
Qed.

Lemma delete_named seg data token : segOk seg -> Forall (cleanKey kv_opts) (namedKeys (deleteMutation (recK seg) data token)).
Proof.
  intros Hs. unfold namedKeys, deleteMutation, phases. rewrite keyRoot_rec. cbn. repeat constructor; try by apply rec_clean.
  case_bool_decide; cbn; repeat constructor. apply idx_clean.
Qed.

Lemma delete_guards M s seg data token : storesInvites M s -> segOk seg ->
  Forall (specCondition kv_opts M) (mut_Conditions (deleteMutation (recK seg) data token)) -> s !! seg = Some data.
Proof.
  intros HR Hs HC. cbn [deleteMutation mut_Conditions] in HC. rewrite Forall_singleton in HC. destruct HC as [dl HC]. cbn [cond_Key] in HC.
  destruct (rp_rec M s HR seg Hs) as [_ HV]. by rewrite HC in HV.
Qed.

Lemma deleteAttempt_acts seg : segOk seg ->
  act (fun _ => True) (deleteAttempt (recK seg)) (fun s s' r =>
    match r with Ret true => deleteOutcome seg s s' (Ret tt) | Ret false => rely s s' | Fail e => deleteOutcome seg s s' (Fail e) | Panic => False end).
Proof.
  intros Hs. unfold deleteAttempt. eapply act_bind; [by apply rec_observes| |cbn; eauto|done]. intros old s0 _. cbn. destruct old as [o|].
  - apply (act_fact _ (exists t, decodeToken o = Some t)); [intros M s [_ Ho] HR; by eapply old_token|].
    intros (t & Hd). unfold tokenField, needKey. rewrite Hd. rewrite (bool_decide_eq_false_2 (recK seg = [])) by (by destruct root). cbn [andb].
    eapply act_weaken; [apply (apply_acts (fun s1 => rely s0 s1) (deleteMutation (recK seg) o t) (fun x y => y = delete seg x)); [by apply delete_named|]|naive_solver|].
    + intros M x HR HC. eexists. split; [|done]. eapply delete_reps; [done..|by eapply delete_guards|done].
    + intros s1 s2 r [Hr1 _]. assert (forall x, rely s1 x -> rely s0 x) as Hto by (intros x ?; by etrans). destruct r as [[]|e2|]; cbn; naive_solver.
  - apply act_lift. intros s [Hr Hn]. exists s. split; [done|]. by rewrite delete_id.
Qed.

Lemma delete_acts seg : segOk seg -> act (fun _ => True) (DeleteInviteToken (recK seg)) (deleteOutcome seg).
Proof.
  intros Hs. apply retry_acts; [by apply deleteAttempt_acts|by apply deleteOutcome_rely|]. intros s. split; [done|]. by right.
Qed.

(** ** Reading *)
Definition readOutcome (token : string) (s s' : gmap string string) (r : Go inviteError string) : Prop :=
  rely s s' /\
  match r with
  | Ret d => decodeToken d = Some token /\ exists seg, s' !! seg = Some d
  | Fail InviteNotFound => exists s1, rely s s1 /\ rely s1 s' /\ forall a, ~ holds s1 a token
  | Fail e => exists e', e = InviteStore e'
  | Panic => False
  end.

Lemma act_unique {A} P (m : ST (W * nat) inviteError A) R : act (fun s => P s /\ unique s) m R -> act P m R.
Proof. intros Hm w w' r s Hok HR HP. apply Hm; [done..|]. split; [done|]. by eapply reps_unique. Qed.

Lemma need_observes P key (R : gmap string string -> option string -> Prop) :
  observes P (getRecord key) (fun s r => match r with Ret v => R s v | Fail e => exists e', e = InviteStore e' | Panic => False end) ->
  observes P (needRecord key) (fun s r => match r with Ret v => R s (Some v) | Fail InviteNotFound => R s None | Fail e => exists e', e = InviteStore e' | Panic => False end).
Proof.
  intros HG. unfold needRecord. eapply act_bind; [exact HG| |intros s s' e _ Hr [e' ->]; split; [done|by eexists]|done].
  intros [v|] s0 _; apply act_lift; naive_solver.
Qed.

(** The record a locator names. *)
Lemma read_tail seg token s0 : segOk seg ->
  act (fun s => (rely s0 s /\ holds s seg token) /\ unique s)
    (data ← needRecord (recK seg); current ← tokenField data; _ ← checkST (negb (bool_decide (current = token))) InviteNotFound; mret data)
    (fun _ s' r => readOutcome token s0 s' r).
Proof.
  intros Hs.
  assert (forall s s' : gmap string string, (rely s0 s /\ holds s seg token) /\ unique s -> rely s s' -> ~ holds s' seg token -> readOutcome token s0 s' (Fail InviteNotFound)) as Hgone.
  { intros s s' [[Hr0 Hh] HU] Hr Hno. split; [by etrans|]. destruct (token_moves others s s' seg token Hothers Hr HU Hh Hno) as (s1 & H1 & H2 & H3).
    exists s1. split_and!; [by etrans|done|done]. }
  eapply act_bind; [apply (need_observes _ (recK seg) (fun s v => s !! seg = v)); by apply rec_observes| | |done].
  - intros d s1 HP1. apply (act_fact _ (exists t, decodeToken d = Some t)); [intros M s [_ Ho] HR; by eapply old_token|].
    intros (t & Hd). unfold tokenField. rewrite Hd. apply act_check.
    + intros s [Hr Hd'] Hbad%negb_true_iff%bool_decide_eq_false. cbn in Hbad. apply (Hgone s1 s); [done..|]. intros (d' & Hd2 & Ht). rewrite Hd' in Hd2. injection Hd2 as <-. congruence.
    + intros Hgood%negb_false_iff%bool_decide_eq_true. cbn in Hgood. subst t. apply act_lift. intros s [Hr Hd']. split; [etrans; [apply HP1|done]|eauto].
  - intros s s' e HP Hr He. destruct e as [e| |msg]; [split; [etrans; [apply HP|done]|by eexists]| |by destruct He].
    apply (Hgone s s'); [done..|]. intros (d & Hd & _). congruence.
Qed.

Lemma read_acts token : T token -> act (fun _ => True) (ReadInviteToken root token) (readOutcome token).
Proof.
  intros HT. unfold ReadInviteToken. eapply act_bind; [apply (need_observes _ (idxK token) (fun s v => indexAnswer s token v)); by apply idx_observes| | |done].
  - intros l s0 _. cbn [indexAnswer]. intros w w' r s Hok HR [Hr (seg & Hh & Hs & Hl)]. revert w w' r s Hok HR Hr Hh.
    assert (decodeLocator l = Some (recK seg)) as ->.
    { apply locator_roundtrip; [done|]. apply Forall_app. split; [eapply Forall_impl; [exact Hroot|]; by intros ? [_ ?]|by apply Forall_singleton; destruct Hs]. }
    intros w w' r s Hok HR Hr Hh. rewrite length_app, take_app_length. cbn [length]. rewrite Nat.eqb_refl, bool_decide_eq_true_2 by done. cbn [negb].
    apply (read_tail seg token s0 Hs w w' r s Hok HR). split; [done|]. by eapply reps_unique.
  - intros s s' e _ Hr He. split; [done|]. destruct e; [done| |done]. exists s'. split_and!; [done|done|exact He].
Qed.

(** C6: each call of [WriteInviteToken], [DeleteInviteToken] and [ReadInviteToken] takes
    effect at one instant, whatever other clients do to the invitations between its store
    calls.  A successful write replaces the invitation of its resource at a moment when no
    other resource has the token; it fails, without effect, for a store error, after losing
    sixteen races, or when another resource had the token during the call.  A successful
    delete removes the invitation.  A read answers with an invitation that has the token,
    and with "not found" only if during the call there was a moment when none had it.  The
    index always has exactly the tokens of the invitations, and no call panics. *)
Theorem invites_linearizable : root <> [] ->
  forall w w' s, kv_ok w.1 -> storesInvites (kv_db w.1) s ->
  (forall seg data token e r, segOk seg -> decodeInvite data = Some (token, e) -> T token -> trimSpace token <> EmptyString -> is_Some (encodeLocator (recK seg)) ->
     WriteInviteToken (recK seg) (Some data) w = (w', r) -> kv_ok w'.1 /\ exists s', storesInvites (kv_db w'.1) s' /\ writeOutcome seg data token s s' r) /\
  (forall seg r, segOk seg -> DeleteInviteToken (recK seg) w = (w', r) -> kv_ok w'.1 /\ exists s', storesInvites (kv_db w'.1) s' /\ deleteOutcome seg s s' r) /\
  (forall token r, T token -> ReadInviteToken root token w = (w', r) -> kv_ok w'.1 /\ exists s', storesInvites (kv_db w'.1) s' /\ readOutcome token s s' r).
Proof.
  intros Hrt w w' s Hok HR. split_and!.
  - intros seg data token e r Hs Hd HT Hne Hl HE. by apply (write_acts seg data token e Hrt Hs Hd HT Hne Hl w w' r s).
  - intros seg r Hs HE. by apply (delete_acts seg Hs w w' r s).
  - intros token r HT HE. by apply (read_acts token HT w w' r s).
Qed.
End shared.
End store.

(** * socialutil: invitation tokens on the in-memory store

    Two clients on one [Memory]: between the reads and the mutation of a write of the
    first, the second writes another invitation for the same resource.  The first
    notices, tries again and succeeds. *)

(** ** The instances *)
Definition packInvite (token : string) (expires : Time) : string := pack [token; text expires].
Definition unpackInvite (s : string) : option (string * Time) :=
  match unpack s with Some [a; b] => b ← untext b; Some (a, b) | _ => None end.

#[export] Instance packInvites : InviteCodec := {|
  tokenDigest t := t; decodeInvite := unpackInvite; decodeToken s := fst <$> unpackInvite s;
  encodeLocator k := match k with [] => None | _ => Some (pack k) end; decodeLocator := unpack
|}.
#[export] Instance packInvitesLaws : InviteCodecLaws.
Proof. constructor; [by intros d t e; cbn; intros ->|]. intros [|x k] l; [done|]. intros [= <-] _. by apply unpack_pack. Qed.

Definition invContexts : nat -> nat -> option kvError := fun _ _ => None.
#[export] Instance invOps : KVOps (Memory * nat) := memoryOps 1 invContexts.
#[export] Instance invLaws : KVLaws (Memory * nat) := memoryLaws 1 invContexts None (fun _ _ => ltac:(discriminate)).
#[export] Instance invSetOps : KVSetOps (Memory * nat) := memorySetOps 1 invContexts.
#[export] Instance invSetLaws : KVSetLaws (Memory * nat) := memorySetLaws 1 invContexts None (fun _ _ => ltac:(discriminate)) (fun _ _ => ltac:(discriminate)).

Lemma invSep : sep (kv_opts (W := Memory * nat)) = ":"%char.
Proof. reflexivity. Qed.

Lemma invRoot_ok : Forall (fun seg => containsByte ":" seg = false /\ validUTF8 seg = true) FriendInviteTokensRoot.
Proof. repeat constructor. Qed.

(** ** The clients *)
Definition invAlone : nat -> Memory * nat -> Memory * nat := fun _ w => w.
Definition invPeer : string := "peer 1".
Definition invSeg : string := Social_EscapeStoreSegment invPeer.
Definition invData1 : string := packInvite "token-1" 0.
Definition invData2 : string := packInvite "token-2" 0.

(** Before the third store call of the first client the second one writes. *)
Definition invOther (n : nat) (w : Memory * nat) : Memory * nat :=
  if (n =? 2)%nat then (WriteInviteToken (KO := sharedOps invAlone) (FriendInviteTokenKey invPeer) (Some invData2) (w, 0%nat)).1.1 else w.

Definition invTokens (t : string) : Prop := True.
Definition invReps : gmap string aval -> gmap string string -> Prop := storesInvites FriendInviteTokensRoot invTokens.

Lemma invDigest a b : invTokens a -> invTokens b -> tokenDigest a = tokenDigest b -> a = b.
Proof. done. Qed.

Lemma invOther_steps n w s : kv_ok w -> invReps (kv_db w) s ->
  kv_ok (invOther n w) /\ exists s', rtc inviteStep s s' /\ invReps (kv_db (invOther n w)) s'.
Proof.
  intros Hok HR. unfold invOther. destruct (n =? 2)%nat; [|eauto using rtc_refl].
  destruct (WriteInviteToken (KO := sharedOps invAlone) (FriendInviteTokenKey invPeer) (Some invData2) (w, 0%nat)) as [w' r] eqn:HE. cbn [fst].
  destruct (write_acts invSep FriendInviteTokensRoot invRoot_ok invTokens invDigest invAlone (fun _ _ => False)
    (fun n w s H1 H2 => conj H1 (ex_intro _ s (conj (rtc_refl _ s) H2))) invSeg invData2 "token-2" 0 ltac:(done) ltac:(done) eq_refl I ltac:(done) ltac:(by eexists)
    (w, 0%nat) w' r s Hok HR I HE) as (H1 & s' & H2 & H3). split; [done|]. exists s'. split; [|done].
  assert (forall a b : gmap string string, rtc (fun _ _ => False) a b -> rtc inviteStep a b) as Hrtc by (intros a b [x|x y z []]; apply rtc_refl).
  destruct r as [[]|e|]; cbn in H3; [| |done].
  - destruct H3 as (s1 & Hr & Hfree & ->). etrans; [by apply Hrtc|]. apply rtc_once. by apply (step_write s1 invSeg invData2 "token-2").
  - by apply Hrtc, H3.
Qed.

Lemma invEmpty_reps : invReps (kv_db (NewMemory None, 0%nat)) ∅.
Proof.
  assert (kv_db (NewMemory None, 0%nat) = ∅) as -> by (vm_compute; reflexivity). split.
  - intros seg _. by rewrite !lookup_empty.
  - by intros seg d ?.
  - intros token _. rewrite lookup_empty. split; [done|]. cbn. intros l. split; [done|]. by intros (seg & (d & ? & _) & _).
  - by intros seg d ?.
Qed.

Definition invWorld : Memory * nat * nat := (NewMemory None, 0%nat, 0%nat).
Definition invWritten : (Memory * nat * nat) * Go inviteError unit :=
  WriteInviteToken (KO := sharedOps invOther) (FriendInviteTokenKey invPeer) (Some invData1) invWorld.

(** The write succeeds with its second attempt: the sixth store call of the first client. *)
Lemma invites_linearizable_witness :
  invWritten.2 = Ret tt /\ invWritten.1.2 = 6%nat /\
  (ReadInviteToken (KO := sharedOps invOther) FriendInviteTokensRoot "token-1" invWritten.1).2 = Ret invData1 /\
  (ReadInviteToken (KO := sharedOps invOther) FriendInviteTokensRoot "token-2" invWritten.1).2 = Fail InviteNotFound /\
  exists s', invReps (kv_db invWritten.1.1) s' /\ writeOutcome inviteStep invSeg invData1 "token-1" ∅ s' invWritten.2.
Proof.
  split_and!; [vm_compute; reflexivity..|].
  assert (kv_ok invWorld.1) as Hok by (split; [apply NewMemory_wf|done]).
  refine (proj2 (proj1 (invites_linearizable invSep FriendInviteTokensRoot invRoot_ok invTokens invDigest invOther inviteStep (fun _ _ H => H)
    invOther_steps ltac:(discriminate) invWorld invWritten.1 ∅ Hok invEmpty_reps) invSeg invData1 "token-1" 0 invWritten.2 _ eq_refl I _ _ _));
    [by split; vm_compute|vm_compute; discriminate|by eexists|apply surjective_pairing].
Defined.
