(* ===== verification/RecoveryIndex.v ===== *)
(** * socialutil: the recovery index

    [src/pkgs/gizclaw/internal/socialutil/recovery_index.go] and
    [recovery_index_repair.go].  Outstanding work is a record under [Root]; 256 sets,
    one per first byte of the hash of its identity, name the identities, and a
    directory names the sets.  [IDs] lists the work, [Reconcile] repairs the index and
    attempts every piece of work.

    An iterator is a function of its consumer: [yieldT A] is a loop body with the
    variables [A] of the loop, whose [false] ends the loop.  The contexts are the class
    [CtxOps]: [ctxErr] is [ctx.Err()] of the caller's context, [attemptErr] that of the
    context of one attempt, which has a deadline of its own. *)

From stdpp Require Import gmap strings list.
From S2P Require Import Prelude GoStrings GoText KVKey KVMemory KVIface KVSets SocialKeys.

Open Scope Z_scope.

Inductive recError :=
  | RecStore (e : kvError)
  | RecText (msg : string)
  | RecJoin (first : option recError) (e : recError)
  | RecFailed (failures : Z) (first : recError).

Class CtxOps (W : Type) := {
  ctxErr : ST W recError (option kvError);
  attemptErr : ST W recError (option kvError)
}.

Record RecoveryIndex := MkRecoveryIndex { ri_Root : Key }.

Section recovery.
Context {W : Type} {KO : KVOps W} {SO : KVSetOps W} {CO : CtxOps W} (sha256 : string -> string) (index : RecoveryIndex).

Definition kvR {A} (m : ST W kvError A) : ST W recError A := mapErrST RecStore m.

(** [defer func() { if recover() != nil { err = e } }()]. *)
Definition recoverST {A} (e : recError) (m : ST W recError A) : ST W recError A := fun w =>
  match m w with (w', Panic) => (w', Fail e) | r => r end.

Definition recoveryBucket (id : string) : string := hexEncode (String.substring 0 1 (sha256 id)).

Definition directory : Key := ["social-recovery-index"%string] ++ ri_Root index ++ ["buckets"%string].
Definition recBucket (name : string) : Key := ["social-recovery-index"%string] ++ ri_Root index ++ ["members"%string; name].

Definition exactly (key : Key) (members : list string) : SetMembers := MkSetMembers key members 0.

Definition Recovery_Add (id : string) : list SetMembers :=
  let bucket := recoveryBucket id in [exactly directory [bucket]; exactly (recBucket bucket) [id]].
Definition Recovery_Remove (id : string) : list SetMembers := [exactly (recBucket (recoveryBucket id)) [id]].

Definition recoveryMembers (key : Key) : ST W recError (list string) := kvR (kvMembers key).
Definition recoveryMutation (mu : Mutation) : ST W recError bool := kvR (kvApply mu).

(** ** Loops over an iterator *)
Definition yieldT (A : Type) : Type := A -> string -> option recError -> ST W recError (A * bool).

Fixpoint forEach {A X} (body : A -> X -> ST W recError (A * bool)) (a : A) (xs : list X) : ST W recError (A * bool) :=
  match xs with
  | [] => mret (a, true)
  | x :: xs => '(a, ok) ← body a x; if ok : bool then forEach body a xs else mret (a, false)
  end.

Definition canonicalRecoveryBucket (bucket : string) : bool :=
  match hexDecode bucket with
  | Some decoded => (String.length decoded =? 1)%nat && bool_decide (hexEncode decoded = bucket)
  | None => false
  end.

(** ** [IDs] *)
Definition idsMember {A} (yield : yieldT A) (bucket : string) (a : A) (id : string) : ST W recError (A * bool) :=
  if bool_decide (id = EmptyString) || negb (bool_decide (recoveryBucket id = bucket))
  then yield a EmptyString (Some (RecText "social: invalid recovery member"))
  else yield a id None.

Definition idsBucket {A} (yield : yieldT A) (a : A) (bucket : string) : ST W recError (A * bool) :=
  c ← ctxErr;
  match c with
  | Some e => '(a, _) ← yield a EmptyString (Some (RecStore e)); mret (a, false)
  | None =>
      if negb (canonicalRecoveryBucket bucket) then yield a EmptyString (Some (RecText "social: invalid recovery bucket"))
      else
        r ← tryST (recoveryMembers (recBucket bucket));
        match r with
        | inl e => yield a EmptyString (Some e)
        | inr ids => forEach (idsMember yield bucket) a (sortStrings ids)
        end
  end.

Definition Recovery_IDs {A} (yield : yieldT A) (a : A) : ST W recError A :=
  r ← tryST (recoveryMembers directory);
  match r with
  | inl e => '(a, _) ← yield a EmptyString (Some e); mret a
  | inr buckets =>
      if (256 <? length buckets)%nat then '(a, _) ← yield a EmptyString (Some (RecText "social: invalid recovery bucket count")); mret a
      else '(a, _) ← forEach (idsBucket yield) a (sortStrings buckets); mret a
  end.

(** ** Repairs *)
Definition recoveryRecordKey (id : string) : Key := ri_Root index ++ [Social_EscapeStoreSegment id].

Definition memberMutation (conditions : list Condition) (add remove : list SetMembers) : Mutation :=
  MkMutation conditions [] [] add remove [] [].

(** [true] when the work of the member is to be attempted. *)
Definition repairMember (bucket member : string) : ST W recError bool :=
  recoverST (RecText "social: invalid recovery member key")
    (let removal := exactly (recBucket bucket) [member] in
     let id := trimSpace member in
     if bool_decide (id = EmptyString) then
       _ ← kvR (kvApply (memberMutation [] [] [removal])); mret false
     else
       let key := recoveryRecordKey id in
       r ← tryST (kvR (kvGet key));
       match r with
       | inl (RecStore ErrNotFound) => _ ← kvR (kvApply (memberMutation [MkCondition key None] [] [removal])); mret false
       | inl e => failST e
       | inr value =>
           if bool_decide (member = id) && bool_decide (recoveryBucket id = bucket) then mret true
           else _ ← kvR (kvApply (memberMutation [MkCondition key (Some value)] (Recovery_Add id) [removal])); mret false
       end).

Definition repairOne {A} (yield : yieldT A) (bucket : string) (a : A) (member : string) : ST W recError (A * bool) :=
  r ← tryST (repairMember bucket member);
  match r with
  | inl e => yield a EmptyString (Some e)
  | inr true => yield a member None
  | inr false => mret (a, true)
  end.

(** A bucket with members that the directory does not know is entered there. *)
Definition enterBucket {A} (yield : yieldT A) (a : A) (bucket : string) (known : gmap string bool) : ST W recError (A * gmap string bool * bool) :=
  r ← tryST (recoveryMutation (memberMutation [] [exactly directory [bucket]] []));
  match r with
  | inl e => '(a, ok) ← yield a EmptyString (Some e); mret (a, if ok : bool then <[bucket := false]> known else known, ok)
  | inr _ => mret (a, <[bucket := true]> known, true)
  end.

Definition repairBucket {A} (bucket : string) (canonical : bool) (known : gmap string bool) (yield : yieldT A) (a : A) : ST W recError (A * gmap string bool * bool) :=
  c ← ctxErr;
  match c with
  | Some e => '(a, _) ← yield a EmptyString (Some (RecStore e)); mret (a, known, false)
  | None =>
      r ← tryST (recoveryMembers (recBucket bucket));
      match r with
      | inl e => '(a, ok) ← yield a EmptyString (Some e); mret (a, known, ok)
      | inr ids =>
          '(a, known, go) ← (if canonical && negb (bool_decide (ids = [])) && negb (default false (known !! bucket))
                             then enterBucket yield a bucket known else mret (a, known, true));
          if go : bool then '(a, ok) ← forEach (repairOne yield bucket) a (sortStrings ids); mret (a, known, ok)
          else mret (a, known, false)
      end
  end.

(** The consumer of [repairInvalidBucket]: the first error. *)
Definition firstError : yieldT (option recError) := fun first _ err =>
  c ← ctxErr; mret (match first with None => err | Some _ => first end, bool_decide (c = None)).

Definition repairInvalidBucket (bucket : string) : ST W recError unit :=
  recoverST (RecText "social: invalid recovery bucket key")
    ('(first, _, keepGoing) ← repairBucket bucket false ∅ firstError None;
     match first with
     | Some e => failST e
     | None =>
         if keepGoing : bool then
           _ ← recoveryMutation (memberMutation [MkCondition (recBucket bucket) None] [] [exactly directory [bucket]]); mret tt
         else c ← ctxErr; match c with Some e => failST (RecStore e) | None => mret tt end
     end).

Definition listDirectory : ST W recError unit := _ ← kvR (kvMembers directory); mret tt.

Definition repairDirectoryType : ST W recError unit :=
  r ← tryST (kvR (kvGet directory));
  match r with
  | inl (RecStore ErrNotFound) | inl (RecStore ErrWrongType) => listDirectory
  | inl e => failST e
  | inr value =>
      r ← tryST (kvR (kvApply (MkMutation [MkCondition directory (Some value)] [] [directory] [] [] [] [])));
      match r with
      | inr true => mret tt
      | inr false | inl (RecStore ErrWrongType) => listDirectory
      | inl e => failST e
      end
  end.

(** The members of the directory: the canonical ones are known buckets, at most 256 of
    the others are repaired. *)
Fixpoint scanDirectory {A} (yield : yieldT A) (a : A) (known : gmap string bool) (invalid : nat) (buckets : list string) : ST W recError (A * gmap string bool * bool) :=
  match buckets with
  | [] => mret (a, known, true)
  | bucket :: buckets =>
      if canonicalRecoveryBucket bucket then scanDirectory yield a (<[bucket := true]> known) invalid buckets
      else if (invalid =? 256)%nat then
        '(a, ok) ← yield a EmptyString (Some (RecText "social: excessive invalid recovery buckets")); mret (a, known, ok)
      else
        r ← tryST (repairInvalidBucket bucket);
        match r with
        | inl e => '(a, ok) ← yield a EmptyString (Some e); if ok : bool then scanDirectory yield a known (S invalid) buckets else mret (a, known, false)
        | inr _ => scanDirectory yield a known (S invalid) buckets
        end
  end.

Definition bucketNames : list string := (fun n => hexEncode (String (ascii_of_nat n) EmptyString)) <$> seq 0 256.

Definition repairNumbered {A} (yield : yieldT A) (s : A * gmap string bool) (bucket : string) : ST W recError ((A * gmap string bool) * bool) :=
  '(a, known, ok) ← repairBucket bucket true s.2 yield s.1; mret ((a, known), ok).

(** The passes over the directory and over the 256 buckets. *)
Definition repairAll {A} (yield : yieldT A) (a : A) (buckets : list string) : ST W recError A :=
  '(a, known, ok) ← scanDirectory yield a ∅ 0 buckets;
  if ok : bool then '(s, _) ← forEach (repairNumbered yield) (a, known) bucketNames; mret s.1 else mret a.

Definition repairIDs {A} (yield : yieldT A) (a : A) : ST W recError A :=
  r ← tryST (recoveryMembers directory);
  match r with
  | inr buckets => repairAll yield a buckets
  | inl (RecStore ErrWrongType) =>
      r ← tryST repairDirectoryType;
      match r with
      | inl e => '(a, ok) ← yield a EmptyString (Some e); if ok : bool then repairAll yield a [] else mret a
      | inr _ => repairAll yield a []
      end
  | inl e => '(a, _) ← yield a EmptyString (Some e); mret a
  end.

(** ** [Reconcile] *)

(** The variables of the loop, and the value returned from inside it. *)
Record reconcileVars := MkReconcileVars { rv_firstErr : option recError; rv_failures : Z; rv_return : option recError }.

Definition recordFailure (v : reconcileVars) (err : option recError) : reconcileVars :=
  match err with
  | None => v
  | Some e => MkReconcileVars (Some (default e (rv_firstErr v))) (rv_failures v + 1) (rv_return v)
  end.

(** A loop body that is called after the loop has ended panics. *)
Definition reconcileBody (reconcile : string -> ST W recError unit) : yieldT reconcileVars := fun v id err =>
  match rv_return v with
  | Some _ => lift Panic
  | None =>
      c ← ctxErr;
      match c with
      | Some e => mret (MkReconcileVars (rv_firstErr v) (rv_failures v) (Some (RecJoin (rv_firstErr v) (RecStore e))), false)
      | None =>
          err ← match err with
                | Some e => mret (Some e)
                | None =>
                    r ← tryST (reconcile id);
                    match r with
                    | inl e => mret (Some e)
                    | inr _ => c ← attemptErr; mret (RecStore <$> c)
                    end
                end;
          mret (recordFailure v err, true)
      end
  end.

Definition Reconcile (reconcile : string -> ST W recError unit) : ST W recError unit :=
  v ← repairIDs (reconcileBody reconcile) (MkReconcileVars None 0 None);
  match rv_return v, rv_firstErr v with
  | Some e, _ => failST e
  | None, Some e => failST (RecFailed (rv_failures v) e)
  | None, None => c ← ctxErr; match c with Some e => failST (RecStore e) | None => mret tt end
  end.
End recovery.
