(* ===== verification/RecoverySafe.v ===== *)
(** * socialutil: the steps of a reconciliation among other servers

    What each store call of a pass does, whoever else writes, and what no interference
    can break. *)

From stdpp Require Import gmap strings list.
From S2P Require Import Prelude GoStrings GoText KVKey KVMemory KVSpec KVProps KVIface Triple KVSets SocialKeys RecoveryIndex.

Open Scope Z_scope.

(** * socialutil: what the mutations of the recovery index do

    The contents of the store as an index: the members of each bucket, the directory,
    and the identities that have a work record.  Work is [found] when a bucket that a
    pass over the index visits has a member for it.  Every mutation of the repairs is
    described here by its effect on the index; all of them keep the work that has a
    record findable. *)

(** Members of one bucket only. *)
Definition only (b : string) (ms : gset string) : string -> gset string := fun b' => if bool_decide (b' = b) then ms else ∅.

Lemma elem_of_only (b : string) (ms : gset string) (b' m : string) : m ∈ only b ms b' <-> b' = b /\ m ∈ ms.
Proof. unfold only. case_bool_decide; set_solver. Qed.

Lemma member_effect opts (M : gmap string aval) conditions add remove k :
  setOf (specMutation opts (memberMutation conditions add remove) M) k =
    setOf (foldl (specGroup opts) (foldl (specGroup opts) M (pair 0%nat <$> add)) (pair 1%nat <$> remove)) k.
Proof. unfold specMutation, memberMutation, phases. cbn [mut_Entries mut_DeleteKeys mut_AddMembers mut_RemoveMembers mut_AddOrderedMembers mut_RemoveOrderedMembers foldl fmap list_fmap]. by rewrite app_nil_r, foldl_app. Qed.

(** The members of a collection after the groups of a mutation. *)
Ltac index_effect :=
  rewrite member_effect; unfold Recovery_Add; cbn [fmap list_fmap foldl]; rewrite !setOf_specGroup; cbn [fst snd sm_Key sm_Members exactly list_to_set foldr];
  change (phaseAdds 0) with true; change (phaseAdds 1) with false; cbn iota.

Section index.
Context {W : Type} {KO : KVOps W} {KL : KVLaws W} (sha256 : string -> string) (Hsha : forall s, String.length (sha256 s) = 32%nat).
Context (Hsep : sep kv_opts = ":"%char).
Context (index : RecoveryIndex) (Hroot : Forall (fun seg => containsByte ":" seg = false) (ri_Root index)).
Implicit Types (M : gmap string aval) (b m id : string).

Local Notation E := (encK kv_opts).
Local Notation dirK := (directory index).
Local Notation bucketK := (recBucket index).
Local Notation recK := (recoveryRecordKey index).
Local Notation rb := (recoveryBucket sha256).

(** ** Keys *)
Definition cleanSeg (s : string) : Prop := containsByte ":" s = false.

Lemma hex_cleanSeg s : cleanSeg (hexEncode s).
Proof. apply (containsByte_allBytes _ hexLower); [done|apply hexEncode_alphabet]. Qed.

Lemma cleanKey_Forall k : cleanKey kv_opts k <-> Forall cleanSeg k.
Proof. unfold cleanKey. by rewrite Hsep. Qed.

Lemma dir_clean : cleanKey kv_opts dirK.
Proof. apply cleanKey_Forall. constructor; [done|]. apply Forall_app. split; [exact Hroot|by repeat constructor]. Qed.

Lemma bucket_clean b : cleanKey kv_opts (bucketK b) <-> cleanSeg b.
Proof.
  rewrite cleanKey_Forall. unfold recBucket. rewrite !Forall_app, !Forall_cons. split; [tauto|].
  intros Hb. split_and!; [done|constructor|exact Hroot|done|done|constructor].
Qed.

Lemma work_clean id : cleanKey kv_opts (recK id).
Proof. apply cleanKey_Forall, Forall_app. split; [exact Hroot|]. apply Forall_singleton, queryEscape_clean. Qed.

Lemma keys_length k k' : cleanKey kv_opts k -> cleanKey kv_opts k' -> k <> [] -> k' <> [] -> length k <> length k' -> E k <> E k'.
Proof. intros ???? HL HE. apply HL. f_equal. by apply (encK_inj (opts := kv_opts)). Qed.

Lemma dir_bucket b : cleanSeg b -> E dirK <> E (bucketK b).
Proof. intros Hb. apply keys_length; [apply dir_clean|by apply bucket_clean|done|done|]. unfold directory, recBucket. rewrite !length_app. cbn. lia. Qed.

Lemma work_dir id : E (recK id) <> E dirK.
Proof.
  apply keys_length; [apply work_clean|apply dir_clean|by unfold recoveryRecordKey; destruct (ri_Root index)|done|]. unfold directory, recoveryRecordKey. rewrite !length_app. cbn. lia.
Qed.

Lemma work_bucket id b : cleanSeg b -> E (recK id) <> E (bucketK b).
Proof.
  intros Hb. apply keys_length; [apply work_clean|by apply bucket_clean|by unfold recoveryRecordKey; destruct (ri_Root index)|done|].
  unfold recBucket, recoveryRecordKey. rewrite !length_app. cbn. lia.
Qed.

Lemma bucket_key_inj a b : cleanSeg a -> cleanSeg b -> E (bucketK a) = E (bucketK b) <-> a = b.
Proof.
  intros Ha Hb. split; [|by intros ->]. intros HE. apply encK_inj in HE; [|by apply bucket_clean|by apply bucket_clean|done|done].
  unfold recBucket in HE. injection HE as HE. apply app_inv_head in HE. by injection HE.
Qed.

Lemma work_key_inj a b : trimSpace a = a -> trimSpace b = b -> E (recK a) = E (recK b) -> a = b.
Proof.
  intros Ha Hb HE. apply encK_inj in HE; [|apply work_clean|apply work_clean|by unfold recoveryRecordKey; destruct (ri_Root index)..].
  unfold recoveryRecordKey in HE. apply app_inv_head in HE. injection HE as HE. apply Social_EscapeStoreSegment_inj in HE. congruence.
Qed.

(** ** The index *)
Definition bucketOf M b : gset string := setOf M (E (bucketK b)).
Definition dirOf M : gset string := setOf M (E dirK).
Definition hasWork M id : Prop := is_Some (M !! E (recK id)).

Definition validID (id : string) : Prop := trimSpace id = id /\ id <> EmptyString.
(** The member [m] of bucket [b] is in its place. *)
Definition inPlace b m : Prop := validID m /\ rb m = b.

Definition reached M b : Prop := cleanSeg b /\ (canonicalRecoveryBucket b = true \/ b ∈ dirOf M).
Definition found M id : Prop := exists b m, reached M b /\ m ∈ bucketOf M b /\ trimSpace m = id.

(** Work of [P] with a record is found. *)
Definition completeFor (P : string -> Prop) M : Prop := forall id, P id -> validID id -> hasWork M id -> found M id.

Lemma rb_canonical id : canonicalRecoveryBucket (rb id) = true.
Proof.
  unfold canonicalRecoveryBucket, recoveryBucket. rewrite hexDecode_hexEncode. rewrite bool_decide_eq_true_2 by done. rewrite andb_true_r, Nat.eqb_eq.
  specialize (Hsha id). destruct (sha256 id) as [|a s]; [done|]. by destruct s.
Qed.

Lemma rb_clean id : cleanSeg (rb id).
Proof. apply hex_cleanSeg. Qed.

Lemma canonical_names b : canonicalRecoveryBucket b = true <-> b ∈ bucketNames.
Proof.
  unfold canonicalRecoveryBucket, bucketNames. rewrite list_elem_of_fmap. split.
  - destruct (hexDecode b) as [d|]; [|done]. rewrite andb_true_iff, Nat.eqb_eq, bool_decide_eq_true. intros [Hl <-].
    destruct d as [|a [|? ?]]; [done| |done]. exists (nat_of_ascii a). rewrite ascii_nat_embedding. split; [done|].
    apply elem_of_seq. pose proof (nat_ascii_bounded a). lia.
  - intros (n & -> & _). rewrite hexDecode_hexEncode. by rewrite bool_decide_eq_true_2.
Qed.

Lemma canonical_clean b : canonicalRecoveryBucket b = true -> cleanSeg b.
Proof. rewrite canonical_names. intros (n & -> & _)%list_elem_of_fmap. apply hex_cleanSeg. Qed.

Lemma bucketNames_NoDup : NoDup bucketNames.
Proof. apply (bool_decide_eq_true_1 (NoDup bucketNames)). by vm_compute. Qed.

(** ** Effects *)

Definition onIndex (g : SetMembers) : Prop := sm_Key g = dirK \/ exists b, cleanSeg b /\ sm_Key g = bucketK b.

Lemma member_work M conditions add remove id :
  Forall onIndex add -> Forall onIndex remove -> specMutation kv_opts (memberMutation conditions add remove) M !! E (recK id) = M !! E (recK id).
Proof.
  intros Ha Hr. unfold specMutation, memberMutation, phases. cbn [mut_Entries mut_DeleteKeys mut_AddMembers mut_RemoveMembers mut_AddOrderedMembers mut_RemoveOrderedMembers foldl fmap list_fmap].
  apply groups_other. intros pg Hpg. rewrite app_nil_r, elem_of_app, !list_elem_of_fmap in Hpg. rewrite Forall_forall in Ha, Hr.
  assert (onIndex pg.2) as [->|(b & Hb & ->)] by (destruct Hpg as [(g & -> & Hg)|(g & -> & Hg)]; by auto); [apply work_dir|by apply work_bucket].
Qed.

(** [M'] is [M] with other members: [add b] and [remove b] of bucket [b], and likewise
    of the directory; the work records stay. *)
Record indexChange M M' (addB removeB : string -> gset string) (addD removeD : gset string) : Prop := {
  ic_bucket b : cleanSeg b -> bucketOf M' b = (addB b ∪ bucketOf M b) ∖ removeB b;
  ic_dir : dirOf M' = (addD ∪ dirOf M) ∖ removeD;
  ic_work id : hasWork M' id <-> hasWork M id
}.

Lemma remove_change M conditions b m : cleanSeg b ->
  indexChange M (specMutation kv_opts (memberMutation conditions [] [exactly (bucketK b) [m]]) M) (only b ∅) (only b {[m]}) ∅ ∅.
Proof.
  intros Hb. split.
  - intros b' Hb'. unfold bucketOf. index_effect. unfold only.
    rewrite (bool_decide_ext _ (b' = b)) by (by apply bucket_key_inj). case_bool_decide; set_solver.
  - unfold dirOf. index_effect. rewrite bool_decide_eq_false_2 by (by apply dir_bucket). set_solver.
  - intros id. unfold hasWork. rewrite member_work; [done|by constructor|]. apply Forall_singleton. right. by exists b.
Qed.

Lemma move_change M conditions b m id : cleanSeg b ->
  indexChange M (specMutation kv_opts (memberMutation conditions (Recovery_Add sha256 index id) [exactly (bucketK b) [m]]) M) (only (rb id) {[id]}) (only b {[m]}) {[rb id]} ∅.
Proof.
  intros Hb. assert (cleanSeg (rb id)) as Hr by apply rb_clean. split.
  - intros b' Hb'. unfold bucketOf. index_effect. unfold only.
    rewrite (bool_decide_ext _ (b' = b)) by (by apply bucket_key_inj). rewrite (bool_decide_ext (E (bucketK b') = _) (b' = rb id)) by (by apply bucket_key_inj).
    rewrite (bool_decide_eq_false_2 (E (bucketK b') = E dirK)) by (by apply not_eq_sym, dir_bucket). do 2 case_bool_decide; set_solver.
  - unfold dirOf. index_effect. rewrite (bool_decide_eq_false_2 (E dirK = E (bucketK b))) by (by apply dir_bucket).
    rewrite (bool_decide_eq_false_2 (E dirK = E (bucketK (rb id)))) by (by apply dir_bucket). rewrite bool_decide_eq_true_2 by done. set_solver.
  - intros id'. unfold hasWork. rewrite member_work; [done| |apply Forall_singleton; right; by exists b].
    unfold Recovery_Add. constructor; [by left|]. apply Forall_singleton. right. by exists (rb id).
Qed.

Lemma enter_change M b : indexChange M (specMutation kv_opts (memberMutation [] [exactly dirK [b]] []) M) (only b ∅) (only b ∅) {[b]} ∅.
Proof.
  split.
  - intros b' Hb'. unfold bucketOf. index_effect. rewrite bool_decide_eq_false_2 by (by apply not_eq_sym, dir_bucket).
    unfold only. case_bool_decide; set_solver.
  - unfold dirOf. index_effect. rewrite bool_decide_eq_true_2 by done. set_solver.
  - intros id. unfold hasWork. rewrite member_work; [done| |by constructor]. apply Forall_singleton. by left.
Qed.

Lemma leave_change M conditions b : indexChange M (specMutation kv_opts (memberMutation conditions [] [exactly dirK [b]]) M) (only b ∅) (only b ∅) ∅ {[b]}.
Proof.
  split.
  - intros b' Hb'. unfold bucketOf. index_effect. rewrite bool_decide_eq_false_2 by (by apply not_eq_sym, dir_bucket).
    unfold only. case_bool_decide; set_solver.
  - unfold dirOf. index_effect. rewrite bool_decide_eq_true_2 by done. set_solver.
  - intros id. unfold hasWork. rewrite member_work; [done|by constructor|]. apply Forall_singleton. by left.
Qed.

(** A directory that is a record is an empty one, and stays empty without it. *)
Lemma drop_change M v d :
  M !! E dirK = Some (ARec v d) ->
  indexChange M (specMutation kv_opts (MkMutation [MkCondition dirK (Some v)] [] [dirK] [] [] [] []) M) (only EmptyString ∅) (only EmptyString ∅) ∅ ∅.
Proof.
  intros HM. change (specMutation _ _ M) with (delete (E dirK) M). split.
  - intros b Hb. unfold bucketOf, setOf. rewrite lookup_delete_ne by (by apply dir_bucket). unfold only. case_bool_decide; set_solver.
  - unfold dirOf, setOf. rewrite lookup_delete_eq, HM. set_solver.
  - intros id. unfold hasWork. rewrite lookup_delete_ne; [done|]. apply not_eq_sym, work_dir.
Qed.

(** ** No work is lost *)
Lemma in_change M M' addB removeB addD removeD b m :
  indexChange M M' addB removeB addD removeD -> cleanSeg b -> m ∈ bucketOf M' b <-> (m ∈ addB b \/ m ∈ bucketOf M b) /\ m ∉ removeB b.
Proof. intros HC Hb. rewrite (ic_bucket _ _ _ _ _ _ HC b Hb). set_solver. Qed.

Lemma dir_change M M' addB removeB addD removeD b :
  indexChange M M' addB removeB addD removeD -> b ∈ dirOf M' <-> (b ∈ addD \/ b ∈ dirOf M) /\ b ∉ removeD.
Proof. intros HC. rewrite (ic_dir _ _ _ _ _ _ HC). set_solver. Qed.

(** The membership that finds a piece of work stays, or another one finds it. *)
Lemma keep_found P M M' addB removeB addD removeD :
  indexChange M M' addB removeB addD removeD -> completeFor P M ->
  (forall b m, reached M b -> m ∈ bucketOf M b -> validID (trimSpace m) -> hasWork M (trimSpace m) ->
     (m ∉ removeB b /\ (canonicalRecoveryBucket b = true \/ b ∉ removeD)) \/ found M' (trimSpace m)) ->
  completeFor P M'.
Proof.
  intros HC Hcomp Hk id HP Hv Hw. apply (ic_work _ _ _ _ _ _ HC) in Hw. destruct (Hcomp id HP Hv Hw) as (b & m & Hvis & Hm & Ht).
  rewrite <-Ht in Hv, Hw. destruct (Hk b m Hvis Hm Hv Hw) as [[Hr Hd]|Hf]; [|by rewrite Ht in Hf]. exists b, m. destruct Hvis as [Hc Hv'].
  split_and!; [split; [done|]|by apply (in_change _ _ _ _ _ _ _ _ HC); auto|done].
  rewrite (dir_change _ _ _ _ _ _ _ HC). tauto.
Qed.

Lemma keep_remove P M M' b m :
  indexChange M M' (only b ∅) (only b {[m]}) ∅ ∅ -> trimSpace m = EmptyString \/ ~ hasWork M (trimSpace m) -> completeFor P M -> completeFor P M'.
Proof.
  intros HC Hm Hcomp. eapply keep_found; [exact HC|done|]. intros b' m' _ _ [_ Hne] Hw. left. split; [|right; set_solver].
  rewrite elem_of_only, elem_of_singleton. intros [-> ->]. by destruct Hm.
Qed.

Lemma keep_move P M M' b m :
  indexChange M M' (only (rb (trimSpace m)) {[trimSpace m]}) (only b {[m]}) {[rb (trimSpace m)]} ∅ ->
  ~ (m = trimSpace m /\ rb (trimSpace m) = b) -> completeFor P M -> completeFor P M'.
Proof.
  intros HC Hm Hcomp. eapply keep_found; [exact HC|done|]. intros b' m' _ _ [Ht _] Hw.
  destruct (decide (b' = b /\ m' = m)) as [[-> ->]|Hne].
  - right. exists (rb (trimSpace m)), (trimSpace m). split_and!; [|apply (in_change _ _ _ _ _ _ _ _ HC); [apply rb_clean|]|done].
    + split; [apply rb_clean|left; apply rb_canonical].
    + rewrite !elem_of_only, !elem_of_singleton. split; [by left|]. intros [HR HM]. by apply Hm.
  - left. split; [|right; set_solver]. rewrite elem_of_only, elem_of_singleton. naive_solver.
Qed.

Lemma keep_enter P M M' b : indexChange M M' (only b ∅) (only b ∅) {[b]} ∅ -> completeFor P M -> completeFor P M'.
Proof.
  intros HC Hcomp. eapply keep_found; [exact HC|done|]. intros b' m' _ _ _ _. left. split; [|right; set_solver]. rewrite elem_of_only. set_solver.
Qed.

Lemma keep_leave P M M' b : indexChange M M' (only b ∅) (only b ∅) ∅ {[b]} -> bucketOf M b = ∅ -> completeFor P M -> completeFor P M'.
Proof.
  intros HC Hb Hcomp. eapply keep_found; [exact HC|done|]. intros b' m' _ Hm _ _. left. split; [rewrite elem_of_only; set_solver|right; set_solver].
Qed.

Lemma keep_drop P M M' : indexChange M M' (only EmptyString ∅) (only EmptyString ∅) ∅ ∅ -> completeFor P M -> completeFor P M'.
Proof.
  intros HC Hcomp. eapply keep_found; [exact HC|done|]. intros b' m' _ _ _ _. left. split; [rewrite elem_of_only; set_solver|right; set_solver].
Qed.
End index.

(** * socialutil: reconciliation beside other clients

    [Reconcile] runs while other servers publish, complete and repair work.  Theorem:
    work with a record stays findable through the index, no piece of work is attempted
    twice in one pass, and nothing that the index contains makes the pass panic. *)

Class CtxLaws (W : Type) `{KVLaws W} `{!CtxOps W} := {
  ctxErr_law w w' r : kv_ok w -> ctxErr w = (w', r) -> kv_ok w' /\ kv_db w' = kv_db w /\ exists o, r = Ret o;
  attemptErr_law w w' r : kv_ok w -> attemptErr w = (w', r) -> kv_ok w' /\ kv_db w' = kv_db w /\ exists o, r = Ret o
}.

#[export] Instance sharedCtxOps {W} (env : nat -> W -> W) `{CtxOps W} : CtxOps (W * nat) := {|
  ctxErr := sharedCall env ctxErr; attemptErr := sharedCall env attemptErr
|}.
#[export] Instance logCtxOps {W} `{CtxOps W} : CtxOps (W * list string) := {|
  ctxErr := logCall ctxErr; attemptErr := logCall attemptErr
|}.

Section safe.
Context {W : Type} {KO : KVOps W} {KL : KVLaws W} {SO : KVSetOps W} {SL : KVSetLaws W} {CO : CtxOps W} {CL : CtxLaws W}.
Context (sha256 : string -> string) (Hsha : forall s, String.length (sha256 s) = 32%nat).
Context (Hsep : sep kv_opts = ":"%char).
Context (index : RecoveryIndex) (Hroot : Forall (fun seg => containsByte ":" seg = false) (ri_Root index)).
Implicit Types (M : gmap string aval) (b m id : string) (L l : list string).

Local Notation E := (encK kv_opts).
Local Notation rb := (recoveryBucket sha256).

(** Every piece of work with a record is found. *)
Definition complete M : Prop := completeFor index (fun _ => True) M.
Definition goodStore (w : W) : Prop := kv_ok w /\ complete (kv_db w).

Context (env : nat -> W -> W) (Henv : forall n w, goodStore w -> goodStore (env n w)).

Local Notation world := (W * nat * list string)%type.
#[local] Instance worldOps : KVOps world := logOps (H := sharedOps env).
#[local] Instance worldSetOps : KVSetOps world := logSetOps (H := sharedSetOps env).
#[local] Instance worldCtxOps : CtxOps world := logCtxOps (H := sharedCtxOps env).

(** From a good store and log [L], [m] keeps the store good and ends as [Q] says. *)
Definition logs {A} L (m : ST world recError A) (Q : list string -> Go recError A -> Prop) : Prop := runs (fun x : world => goodStore x.1.1) snd L m Q.

Lemma logs_recover {A} L e (m : ST world recError A) Q : logs L m Q -> logs L (recoverST e m) (fun l r => r <> Panic /\ ((exists r', Q l r' /\ r' = Panic /\ r = Fail e) \/ Q l r)).
Proof.
  intros Hm x x' r Hg HL. unfold recoverST. destruct (m x) as [x1 r1] eqn:E1. destruct (Hm x x1 r1 Hg HL E1). destruct r1; intros [= <- <-]; (split; [done|]); eauto 10.
Qed.

(** ** Store calls *)

(** The log is untouched. *)
Definition quiet {A} (m : ST world recError A) (R : Go recError A -> Prop) : Prop := forall L, logs L m (fun l r => l = L /\ R r).

Lemma members_quiet key : quiet (recoveryMembers key) (fun r => match r with Ret ids => NoDup ids | Fail _ => True | Panic => ~ cleanKey kv_opts key end).
Proof.
  intros L [[w n] l] x' r Hg HL. unfold recoveryMembers, kvR, mapErrST. cbn. unfold logCall, sharedCall. cbn. destruct (Henv n w Hg) as [Hok Hc].
  destruct (kvMembers key (env n w)) as [w1 r1] eqn:E1. destruct (kvMembers_law _ _ _ _ Hok E1) as (H1 & H2 & H3).
  destruct r1; intros [= <- <-]; cbn; (split; [split; [done|by rewrite H2]|]); (split; [done|]); [apply H3|done|done].
Qed.

Lemma get_quiet key : quiet (kvR (kvGet key)) (fun r => r = Panic -> ~ cleanKey kv_opts key).
Proof.
  intros L [[w n] l] x' r Hg HL. unfold kvR, mapErrST. cbn. unfold logCall, sharedCall. cbn. destruct (Henv n w Hg) as [Hok Hc].
  destruct (kvGet key (env n w)) as [w1 r1] eqn:E1. destruct (kvGet_law _ _ _ _ Hok E1) as (H1 & H2 & H3).
  destruct r1; intros [= <- <-]; cbn; (split; [split; [done|by rewrite H2]|]); done.
Qed.

Lemma apply_quiet mu :
  (forall M, complete M -> Forall (cleanKey kv_opts) (namedKeys mu) -> Forall (specCondition kv_opts M) (mut_Conditions mu) -> complete (specMutation kv_opts mu M)) ->
  quiet (kvR (kvApply mu)) (fun r => r = Panic -> ~ Forall (cleanKey kv_opts) (namedKeys mu)).
Proof.
  intros Hmu L [[w n] l] x' r Hg HL. unfold kvR, mapErrST. cbn. unfold logCall, sharedCall. cbn. destruct (Henv n w Hg) as [Hok Hc].
  destruct (kvApply mu (env n w)) as [w1 r1] eqn:E1. destruct (kvApply_law _ _ _ _ Hok E1) as (H1 & H2). destruct (kvApply_limit _ _ _ _ Hok E1) as (_ & _ & H3).
  assert (goodStore w1) as Hg1.
  { split; [done|]. destruct r1 as [[]|e|]; [destruct H2 as (HC & HN & ->); by apply Hmu|by destruct H2 as [_ ->]|by rewrite H2..]. }
  destruct r1; intros [= <- <-]; cbn; (split; [done|]); (split; [done|]); [done|done|by intros _; apply H3].
Qed.

Lemma ctx_quiet : quiet ctxErr (fun r => exists o, r = Ret o).
Proof.
  intros L [[w n] l] x' r Hg HL. cbn. unfold logCall, sharedCall. cbn. destruct (Henv n w Hg) as [Hok Hc].
  destruct (ctxErr (env n w)) as [w1 r1] eqn:E1. destruct (ctxErr_law _ _ _ Hok E1) as (H1 & H2 & H3). intros [= <- <-]. cbn. split; [split; [done|by rewrite H2]|done].
Qed.

Lemma attempt_quiet : quiet attemptErr (fun r => exists o, r = Ret o).
Proof.
  intros L [[w n] l] x' r Hg HL. cbn. unfold logCall, sharedCall. cbn. destruct (Henv n w Hg) as [Hok Hc].
  destruct (attemptErr (env n w)) as [w1 r1] eqn:E1. destruct (attemptErr_law _ _ _ Hok E1) as (H1 & H2 & H3). intros [= <- <-]. cbn. split; [split; [done|by rewrite H2]|done].
Qed.

Lemma quiet_bind {A B} (m : ST world recError A) (f : A -> ST world recError B) R1 R :
  quiet m R1 -> (forall a, R1 (Ret a) -> quiet (f a) R) -> (forall e, R1 (Fail e) -> R (Fail e)) -> (R1 Panic -> R Panic) -> quiet (m ≫= f) R.
Proof. intros Hm Hf HF HP L. eapply runs_bind; [apply Hm| |naive_solver..]. intros a l [-> Ha]. by apply Hf. Qed.

Lemma quiet_lift {A} (g : Go recError A) (R : Go recError A -> Prop) : R g -> quiet (lift g) R.
Proof. intros HR L. by apply runs_lift. Qed.

Lemma quiet_weaken {A} (m : ST world recError A) (R R' : Go recError A -> Prop) : quiet m R' -> (forall r, R' r -> R r) -> quiet m R.
Proof. intros Hm HR L. eapply runs_weaken; [apply Hm|]. naive_solver. Qed.

Lemma quiet_try {A} (m : ST world recError A) R : quiet m R -> quiet (tryST m) (fun r => match r with Ret (inr a) => R (Ret a) | Ret (inl e) => R (Fail e) | Fail _ => False | Panic => R Panic end).
Proof. intros Hm L. eapply runs_weaken; [apply runs_try, Hm|]. intros l [[]|e|]; naive_solver. Qed.

Lemma quiet_recover {A} e (m : ST world recError A) R : quiet m R -> quiet (recoverST e m) (fun r => r <> Panic /\ (r = Fail e \/ R r)).
Proof. intros Hm L. eapply runs_weaken; [apply logs_recover, Hm|]. cbn. naive_solver. Qed.

(** ** Repairs *)
Lemma named_remove conditions add b m : Forall (cleanKey kv_opts) (namedKeys (memberMutation conditions add [exactly (recBucket index b) [m]])) -> cleanSeg b.
Proof.
  intros Hn. apply (bucket_clean Hsep index Hroot). rewrite Forall_forall in Hn. apply Hn. unfold namedKeys, memberMutation, phases. cbn. rewrite elem_of_app. right.
  rewrite map_app, elem_of_app. right. by left.
Qed.

Lemma absent_condition M k add remove : Forall (specCondition kv_opts M) (mut_Conditions (memberMutation [MkCondition k None] add remove)) -> M !! E k = None.
Proof. intros HC. cbn [memberMutation mut_Conditions] in HC. by rewrite Forall_singleton in HC. Qed.

Lemma repairMember_quiet b m : quiet (repairMember sha256 index b m) (fun r => r <> Panic /\ (r = Ret true -> inPlace sha256 b m)).
Proof.
  eapply quiet_weaken; [apply (quiet_recover _ _ (fun r => r = Ret true -> inPlace sha256 b m))|naive_solver].
  cbv zeta. case_bool_decide as Hid.
  { eapply quiet_bind; [apply apply_quiet|intros a _; by apply quiet_lift|done|done]. intros M HC HN _. pose proof (named_remove _ _ _ _ HN) as Hb.
    eapply (keep_remove sha256 Hsha Hsep index Hroot); [by apply (remove_change sha256 Hsha Hsep index Hroot)|by left|done]. }
  eapply quiet_bind; [apply quiet_try, get_quiet| |done|done]. intros [e|value] _.
  - assert (quiet (lift (Fail e) : ST world recError bool) (fun r => r = Ret true -> inPlace sha256 b m)) as Hfail by (by apply quiet_lift).
    destruct e as [[]| | |]; try exact Hfail.
    eapply quiet_bind; [apply apply_quiet|intros a _; by apply quiet_lift|done|done]. intros M HC HN HCond. pose proof (named_remove _ _ _ _ HN) as Hb.
    eapply (keep_remove sha256 Hsha Hsep index Hroot); [by apply (remove_change sha256 Hsha Hsep index Hroot)| |done]. right. apply absent_condition in HCond.
    unfold hasWork. rewrite HCond. by intros [? ?].
  - destruct (bool_decide (m = trimSpace m) && bool_decide (rb (trimSpace m) = b)) eqn:Hin.
    + apply quiet_lift. intros _. rewrite andb_true_iff, !bool_decide_eq_true in Hin. destruct Hin as [Hm Hrb]. rewrite <-Hm in *. by split.
    + eapply quiet_bind; [apply apply_quiet|intros a _; by apply quiet_lift|done|done]. intros M HC HN _. pose proof (named_remove _ _ _ _ HN) as Hb.
      eapply (keep_move sha256 Hsha Hsep index Hroot); [by apply (move_change sha256 Hsha Hsep index Hroot)| |done]. rewrite andb_false_iff, !bool_decide_eq_false in Hin. tauto.
Qed.

(** ** Consumers

    A consumer logs at most the identity it is called with, and only when [loud]; it
    ends the loop or keeps its variables [okA]. *)
Definition consumer {A} (loud : Prop) (okA : A -> Prop) (yield : yieldT (W := world) A) : Prop :=
  forall a L id err, okA a -> logs L (yield a id err) (fun l r =>
    (l = L \/ loud /\ err = None /\ l = L ++ [id]) /\ exists a' go, r = Ret (a', go) /\ (go = true -> okA a')).

Definition goesOn {A} (okA : A -> Prop) (r : Go recError (A * bool)) : Prop := exists a go, r = Ret (a, go) /\ (go = true -> okA a).
Definition goesOnK {A} (okA : A -> Prop) (r : Go recError (A * gmap string bool * bool)) : Prop := exists a known go, r = Ret (a, known, go) /\ (go = true -> okA a).

Section consumer.
Context {A : Type} (loud : Prop) (okA : A -> Prop) (yield : yieldT (W := world) A) (Hyield : consumer loud okA yield).

(** A reported error is not logged. *)
Lemma report_quiet a id e : okA a -> quiet (yield a id (Some e)) (goesOn okA).
Proof. intros Ha L. eapply runs_weaken; [by apply Hyield|]. intros l r [[->|(_ & ? & _)] HR]; [|done]. by split. Qed.

Lemma forEach_logs {A' X} (okA' : A' -> Prop) (body : A' -> X -> ST world recError (A' * bool)) (J : list X -> list string -> Prop) :
  (forall a x done l, okA' a -> J done l -> logs l (body a x) (fun l' r => J (done ++ [x]) l' /\ goesOn okA' r)) ->
  forall xs done a l, okA' a -> J done l -> logs l (forEach body a xs) (fun l' r => (exists done', done' `prefix_of` xs /\ J (done ++ done') l') /\ goesOn okA' r).
Proof.
  intros Hbody xs. induction xs as [|x xs IH]; intros done a l Ha HJ; cbn [forEach].
  - apply runs_lift. split; [exists []; by rewrite app_nil_r|]. by exists a, true.
  - eapply runs_bind; [by apply Hbody| |by intros ? ? [_ (? & ? & ? & _)]|by intros ? [_ (? & ? & ? & _)]].
    intros [a1 go] l1 [HJ1 (a2 & go2 & [= <- <-] & Hgo)]. destruct go.
    + eapply runs_weaken; [apply (IH (done ++ [x])); auto|]. intros l2 r [(done' & Hp & HJ2) HR]. split; [|done]. exists (x :: done'). split; [by apply prefix_cons|]. by rewrite <-app_assoc in HJ2.
    + apply runs_lift. split; [|by exists a1, false]. exists [x]. split; [by apply prefix_cons, prefix_nil|done].
Qed.

Definition bucketLog b L (done : list string) l : Prop :=
  exists new, l = L ++ new /\ new `sublist_of` done /\ Forall (inPlace sha256 b) new /\ (new <> [] -> loud).

Lemma repairOne_logs b a m L done l : okA a -> bucketLog b L done l -> logs l (repairOne sha256 index yield b a m) (fun l' r => bucketLog b L (done ++ [m]) l' /\ goesOn okA r).
Proof.
  intros Ha (new & -> & Hsub & Hin & Hl). assert (bucketLog b L (done ++ [m]) (L ++ new)) as Hsame by (exists new; split_and!; [done|by apply sublist_inserts_r|done|done]).
  eapply runs_bind; [apply quiet_try, repairMember_quiet| |by intros ? ? [_ ?]|by intros ? [_ [? _]]]. intros [e|[]] l1 [-> Hr].
  - eapply runs_weaken; [by apply report_quiet|]. by intros l r [-> HR].
  - destruct Hr as [_ Hr]. eapply runs_weaken; [by apply Hyield|]. intros l r [Hl' HR]. split; [|done]. destruct Hl' as [->|(Hloud & _ & ->)]; [done|].
    exists (new ++ [m]). split_and!; [by rewrite app_assoc|by apply sublist_app|apply Forall_app; split; [done|by apply Forall_singleton, Hr]|done].
  - apply runs_lift. split; [done|]. by exists a, true.
Qed.

Lemma enterBucket_quiet a b known : okA a -> quiet (enterBucket index yield a b known) (goesOnK okA).
Proof.
  intros Ha. eapply quiet_bind; [apply quiet_try, apply_quiet| |done|].
  - intros M HC _ _. eapply (keep_enter sha256 Hsha Hsep index Hroot); [by apply (enter_change sha256 Hsha Hsep index Hroot)|done].
  - intros [e|ok] _; [|apply quiet_lift; by exists a, (<[b := true]> known), true].
    eapply quiet_bind; [by apply report_quiet| |by intros ? (? & ? & ? & _)|by intros (? & ? & ? & _)]. intros [a1 go] (a2 & go2 & [= <- <-] & Hgo). apply quiet_lift. by eexists _, _, _.
  - intros HP. exfalso. apply HP; [done|]. apply Forall_singleton, (dir_clean Hsep index Hroot).
Qed.

(** The ids a bucket adds to the log. *)
Definition bucketLogs b L l : Prop := exists new, l = L ++ new /\ NoDup new /\ Forall (inPlace sha256 b) new /\ (new <> [] -> loud).

Lemma bucketLogs_same b L : bucketLogs b L L.
Proof. exists []. rewrite app_nil_r. split_and!; [done|constructor|constructor|done]. Qed.

Lemma repairBucket_logs b canonical known a L : okA a ->
  logs L (repairBucket sha256 index b canonical known yield a) (fun l r => (r = Panic /\ ~ cleanSeg b /\ bucketLogs b L l) \/ bucketLogs b L l /\ goesOnK okA r).
Proof.
  intros Ha. eapply runs_bind; [apply ctx_quiet| |by intros ? ? [_ [? ?]]|by intros ? [_ [? ?]]]. intros [e|] l [-> _].
  { eapply runs_bind; [by apply report_quiet| |by intros ? ? [_ (? & ? & ? & _)]|by intros ? [_ (? & ? & ? & _)]]. intros [a1 go] l [-> _].
    apply runs_lift. right. split; [apply bucketLogs_same|]. by eexists _, _, false. }
  eapply runs_bind; [apply quiet_try, members_quiet| |by intros ? ? [_ ?]|].
  2:{ cbn. intros l [-> HP]. left. split; [done|]. split; [|apply bucketLogs_same]. intros Hc. by apply HP, (bucket_clean Hsep index Hroot). }
  intros [e|ids] l [-> Hids].
  { eapply runs_bind; [by apply report_quiet| |by intros ? ? [_ (? & ? & ? & _)]|by intros ? [_ (? & ? & ? & _)]]. intros [a1 go] l [-> (a2 & go2 & [= <- <-] & Hgo)].
    apply runs_lift. right. split; [apply bucketLogs_same|]. by eexists _, _, _. }
  eapply (runs_bind _ _ _ _ _ (fun l r => l = L /\ goesOnK okA r)); [|  |by intros ? ? [_ (? & ? & ? & ? & _)]|by intros ? [_ (? & ? & ? & ? & _)]].
  { destruct (_ && _ && _); [by apply enterBucket_quiet|]. apply runs_lift. split; [done|]. by exists a, known, true. }
  intros [[a1 known1] go] l [-> (a2 & known2 & go2 & [= <- <- <-] & Hgo)]. destruct go; [|apply runs_lift; right; split; [apply bucketLogs_same|by eexists _, _, false]].
  eapply runs_bind; [apply (forEach_logs okA (repairOne sha256 index yield b) (bucketLog b L) (fun a x done l Ha HJ => repairOne_logs b a x L done l Ha HJ) _ []); [auto|]|
    |by intros ? ? [_ (? & ? & ? & _)]|by intros ? [_ (? & ? & ? & _)]].
  { exists []. rewrite app_nil_r. by split_and!. }
  intros [a3 go] l [(done & Hp & new & -> & Hsub & Hin & Hl) (a4 & go4 & [= <- <-] & Hgo3)]. apply runs_lift. right. split; [|by eexists _, _, _].
  exists new. split_and!; [done| |done|done]. assert (NoDup (sortStrings ids)) as HN by (rewrite sortStrings_perm; apply Hids). destruct Hp as [rest Hp]. rewrite Hp in HN.
  eapply sublist_NoDup; [exact HN|]. by apply sublist_inserts_r.
Qed.
End consumer.

Lemma firstError_consumer : consumer False (fun _ => True) firstError.
Proof.
  intros a L id err _. eapply runs_bind; [apply ctx_quiet| |by intros ? ? [_ [? ?]]|by intros ? [_ [? ?]]]. intros o l [-> _]. apply runs_lift. split; [by left|]. by eexists _, _.
Qed.

Lemma repairInvalidBucket_quiet b : quiet (repairInvalidBucket sha256 index b) (fun r => r <> Panic).
Proof.
  eapply quiet_weaken; [apply (quiet_recover _ _ (fun _ => True))|naive_solver]. intros L.
  assert (forall l, bucketLogs False b L l -> l = L) as Hsame. { intros l (new & -> & _ & _ & Hn). destruct new; [by rewrite app_nil_r|by destruct Hn]. }
  eapply runs_bind; [apply (repairBucket_logs False (fun _ => True) firstError firstError_consumer b false ∅ None L I)| | |].
  - intros [[first known] go] l [(? & _)|[Hl _]]; [done|]. apply Hsame in Hl as ->. destruct first as [e|]; [by apply runs_lift|]. destruct go.
    + eapply runs_bind; [apply apply_quiet|intros a l [-> _]; by apply runs_lift|naive_solver..]. intros M HC _ HCond.
      eapply (keep_leave sha256 Hsha Hsep index Hroot); [by apply (leave_change sha256 Hsha Hsep index Hroot)| |done].
      apply absent_condition in HCond. unfold bucketOf, setOf. by rewrite HCond.
    + eapply runs_bind; [apply ctx_quiet| |naive_solver..]. intros [e|] l [-> _]; by apply runs_lift.
  - intros l e [(? & _)|[Hl _]]; [done|]. by apply Hsame in Hl as ->.
  - intros l [(_ & _ & Hl)|[Hl _]]; by apply Hsame in Hl as ->.
Qed.

Lemma listDirectory_quiet : quiet (listDirectory index) (fun r => r <> Panic).
Proof.
  eapply quiet_bind; [apply (members_quiet (directory index))|intros ids _; by apply quiet_lift|done|]. intros HP. by destruct HP; apply (dir_clean Hsep index Hroot).
Qed.

Lemma repairDirectoryType_quiet : quiet (repairDirectoryType index) (fun r => r <> Panic).
Proof.
  eapply quiet_bind; [apply quiet_try, get_quiet| |done|intros HP; by destruct HP; [done|apply (dir_clean Hsep index Hroot)]]. intros [e|value] _.
  - assert (quiet (lift (Fail e) : ST world recError unit) (fun r => r <> Panic)) as Hfail by (by apply quiet_lift).
    destruct e as [[]| | |]; first [exact Hfail | apply listDirectory_quiet].
  - eapply quiet_bind; [apply quiet_try, apply_quiet| |done|].
    + intros M HC _ HCond. cbn in HCond. rewrite Forall_singleton in HCond. destruct HCond as [d HCond].
      eapply (keep_drop sha256 Hsha Hsep index Hroot); [by eapply (drop_change sha256 Hsha Hsep index Hroot)|done].
    + intros [e|[]] _; [|by apply quiet_lift|apply listDirectory_quiet].
      assert (quiet (lift (Fail e) : ST world recError unit) (fun r => r <> Panic)) as Hfail by (by apply quiet_lift).
      destruct e as [[]| | |]; first [exact Hfail | apply listDirectory_quiet].
    + intros HP. exfalso. apply HP; [done|]. constructor; [|apply Forall_singleton]; apply (dir_clean Hsep index Hroot).
Qed.

(** ** A pass *)
Section pass.
Context {A : Type} (okA : A -> Prop) (yield : yieldT (W := world) A) (Hyield : consumer True okA yield).

Lemma scanDirectory_quiet buckets a known invalid : okA a -> quiet (scanDirectory sha256 index yield a known invalid buckets) (goesOnK okA).
Proof.
  revert a known invalid. induction buckets as [|b buckets IH]; intros a known invalid Ha; cbn [scanDirectory]; [apply quiet_lift; by eexists _, _, true|].
  destruct (canonicalRecoveryBucket b); [by apply IH|]. destruct (invalid =? 256)%nat.
  - eapply quiet_bind; [by apply (report_quiet True okA)| |by intros ? (? & ? & ? & _)|by intros (? & ? & ? & _)]. intros [a1 go] (a2 & go2 & [= <- <-] & Hgo). apply quiet_lift. by eexists _, _, _.
  - eapply quiet_bind; [apply quiet_try, repairInvalidBucket_quiet| |done|done]. intros [e|[]] _; [|by apply IH].
    eapply quiet_bind; [by apply (report_quiet True okA)| |by intros ? (? & ? & ? & _)|by intros (? & ? & ? & _)]. intros [a1 go] (a2 & go2 & [= <- <-] & Hgo).
    destruct go; [apply IH; auto|]. apply quiet_lift. by eexists _, _, false.
Qed.

(** The log after some buckets. *)
Definition passLog L (done : list string) l : Prop := exists new, l = L ++ new /\ NoDup new /\ Forall (fun id => validID id /\ rb id ∈ done) new.

Lemma numbered_logs L s b done l :
  b ∈ bucketNames -> b ∉ done -> okA s.1 -> passLog L done l -> logs l (repairNumbered sha256 index yield s b) (fun l' r => passLog L (done ++ [b]) l' /\ goesOn (fun s => okA s.1) r).
Proof.
  intros Hb Hnew Ha (new & -> & HN & HF). eapply runs_bind; [by apply (repairBucket_logs True okA yield Hyield)| | |].
  - intros [[a1 known1] go] l [(? & _)|[(new' & -> & HN' & HF' & _) (a2 & known2 & go2 & [= <- <- <-] & Hgo)]]; [done|]. apply runs_lift. split; [|by eexists _, _].
    exists (new ++ new'). split_and!; [by rewrite app_assoc| |].
    + apply NoDup_app. split_and!; [done| |done]. intros id H1 H2. rewrite Forall_forall in HF, HF'. destruct (HF id H1) as [_ Hd], (HF' id H2) as [_ Hr]. by rewrite Hr in Hd.
    + apply Forall_app. split; [eapply Forall_impl; [exact HF|]; intros id [? ?]; split; [done|]; set_solver|].
      eapply Forall_impl; [exact HF'|]. intros id [? ->]. split; [done|]. set_solver.
  - by intros l e [(? & _)|[_ (? & ? & ? & ? & _)]].
  - intros l [(_ & Hc & _)|[_ (? & ? & ? & ? & _)]]; [|done]. destruct Hc. by apply canonical_clean, canonical_names.
Qed.

Lemma numbers_logs bs L : NoDup bs -> (forall b, b ∈ bs -> b ∈ bucketNames) ->
  forall done s l, (forall b, b ∈ bs -> b ∉ done) -> okA s.1 -> passLog L done l ->
  logs l (forEach (repairNumbered sha256 index yield) s bs) (fun l' r => (exists done', passLog L done' l') /\ goesOn (fun s => okA s.1) r).
Proof.
  intros HN Hnames. induction HN as [|b bs Hb HN IH]; intros done s l Hd Ha HJ; cbn [forEach].
  - apply runs_lift. split; [by exists done|]. by exists s, true.
  - eapply runs_bind; [apply (numbered_logs L s b done l); [apply Hnames; by left|apply Hd; by left|done|done]| |by intros ? ? [_ (? & ? & ? & _)]|by intros ? [_ (? & ? & ? & _)]].
    intros [s1 go] l1 [HJ1 (s2 & go2 & [= <- <-] & Hgo)]. destruct go.
    + apply (IH ltac:(intros; apply Hnames; by right) (done ++ [b])); [|by apply Hgo|done]. intros b' Hb'. rewrite elem_of_app, list_elem_of_singleton. intros [?| ->]; [|done].
      by apply (Hd b'); [right|].
    + apply runs_lift. split; [by eexists|]. by exists s1, false.
Qed.

Lemma repairIDs_logs a L : okA a -> logs L (repairIDs sha256 index yield a) (fun l r => (exists done, passLog L done l) /\ exists a', r = Ret a').
Proof.
  intros Ha. assert (passLog L [] L) as H0 by (exists []; rewrite app_nil_r; split_and!; [done|constructor|constructor]).
  assert (forall a buckets, okA a -> logs L (repairAll sha256 index yield a buckets) (fun l r => (exists done, passLog L done l) /\ exists a', r = Ret a')) as Hall.
  { intros a1 buckets Ha1. eapply runs_bind; [by apply scanDirectory_quiet| |by intros ? ? [_ (? & ? & ? & ? & _)]|by intros ? [_ (? & ? & ? & ? & _)]].
    intros [[a2 known] go] l [-> (a3 & known3 & go3 & [= <- <- <-] & Hgo)]. destruct go; [|apply runs_lift; eauto].
    eapply runs_bind; [apply (numbers_logs bucketNames L bucketNames_NoDup (fun b H => H) []); [set_solver|by apply Hgo|done]| |by intros ? ? [_ (? & ? & ? & _)]|by intros ? [_ (? & ? & ? & _)]].
    intros [s go] l [Hl _]. apply runs_lift. eauto. }
  assert (forall e, logs L ('(a, _) ← yield a EmptyString (Some e); mret a) (fun l r => (exists done, passLog L done l) /\ exists a', r = Ret a')) as Hreport.
  { intros e. eapply runs_bind; [by apply (report_quiet True okA)| |by intros ? ? [_ (? & ? & ? & _)]|by intros ? [_ (? & ? & ? & _)]]. intros [a1 go] l [-> _]. apply runs_lift. eauto. }
  eapply runs_bind; [apply quiet_try, members_quiet| |by intros ? ? [_ ?]|intros l [_ HP]; by destruct HP; apply (dir_clean Hsep index Hroot)].
  intros [e|buckets] l [-> _]; [|by apply Hall]. destruct e as [[]| | |]; try apply Hreport.
  eapply runs_bind; [apply quiet_try, repairDirectoryType_quiet| |by intros ? ? [_ ?]|by intros ? [_ ?]]. intros [e|[]] l [-> _]; [|by apply Hall].
  eapply runs_bind; [by apply (report_quiet True okA)| |by intros ? ? [_ (? & ? & ? & _)]|by intros ? [_ (? & ? & ? & _)]].
  intros [a1 go] l [-> (a2 & go2 & [= <- <-] & Hgo)]. destruct go; [by apply Hall, Hgo|]. apply runs_lift. eauto.
Qed.
End pass.

(** ** [Reconcile] *)
Context (work : string -> ST (W * nat) recError unit).
Context (Hwork : forall id w w' r, goodStore w.1 -> work id w = (w', r) -> goodStore w'.1 /\ r <> Panic).

Lemma work_logs id L : logs L (logged work id) (fun l r => l = L ++ [id] /\ r <> Panic).
Proof.
  intros [w l] x' r Hg ->. unfold logged. cbn. destruct (work id w) as [w1 r1] eqn:E1. destruct (Hwork id w w1 r1 Hg E1). intros [= <- <-]. by split.
Qed.

Lemma reconcileBody_consumer : consumer True (fun v => rv_return v = None) (reconcileBody (logged work)).
Proof.
  intros v L id err Hv. unfold reconcileBody. rewrite Hv. eapply runs_bind; [apply ctx_quiet| |by intros ? ? [_ [? ?]]|by intros ? [_ [? ?]]].
  intros [e|] l [-> _]; [apply runs_lift; split; [by left|]; by eexists _, false|].
  eapply (runs_bind _ _ _ _ _ (fun l r => (l = L \/ True /\ err = None /\ l = L ++ [id]) /\ exists o, r = Ret o)); [| |by intros ? ? [_ [? ?]]|by intros ? [_ [? ?]]].
  - destruct err as [e|]; [apply runs_lift; split; [by left|by eexists]|].
    eapply runs_bind; [apply runs_try, work_logs| |done|by intros ? [_ ?]]. intros [e|[]] l [-> _]; [apply runs_lift; split; [by right|by eexists]|].
    eapply runs_bind; [apply attempt_quiet| |by intros ? ? [_ [? ?]]|by intros ? [_ [? ?]]]. intros o l [-> _]. apply runs_lift. split; [by right|by eexists].
  - intros o l [Hl _]. apply runs_lift. split; [done|]. eexists _, true. split; [done|]. intros _. by destruct o.
Qed.

(** C8: while other servers publish, complete and repair work, a [Reconcile] pass keeps
    every piece of work that has a record findable through the index: between its store
    calls the others may do anything that keeps it so.  No work is attempted twice in the
    pass, every attempted identity is a canonical one, and no contents of the index, such
    as names with key separators, make the pass panic. *)
Theorem Reconcile_safe w w' log r :
  goodStore w.1 -> Reconcile sha256 index (logged work) (w, []) = ((w', log), r) ->
  goodStore w'.1 /\ NoDup log /\ Forall validID log /\ r <> Panic.
Proof.
  intros Hg HE. assert (logs [] (Reconcile sha256 index (logged work)) (fun l r => (exists done, passLog [] done l) /\ r <> Panic)) as HL.
  { eapply runs_bind; [by apply (repairIDs_logs _ _ reconcileBody_consumer)| |by intros ? ? [_ [? ?]]|by intros ? [_ [? ?]]]. intros v l [Hl _].
    destruct (rv_return v), (rv_firstErr v); [by apply runs_lift..|]. eapply runs_bind; [apply ctx_quiet| |by intros ? ? [_ [? ?]]|by intros ? [_ [? ?]]].
    intros [e|] l' [-> _]; by apply runs_lift. }
  destruct (HL (w, []) (w', log) r Hg eq_refl HE) as (Hg' & (done & new & Hnew & HN & HF) & Hr). cbn in Hnew, Hg'. subst log.
  split_and!; [done|done| |done]. eapply Forall_impl; [exact HF|]. by intros id [? _].
Qed.
End safe.
