(* ===== verification/RecoveryPass.v ===== *)
(** * socialutil: the progress of a reconciliation pass

    What holds of the index in the middle of a pass that no other client disturbs:
    [todo] gives for each bucket that was read the members still to be looked at.  Each
    repair and each attempt takes one member off the list. *)

From stdpp Require Import gmap strings list.
From S2P Require Import Prelude GoStrings GoText KVKey KVMemory KVSpec KVProps KVIface KVSets SocialKeys RecoveryIndex RecoverySafe.

Open Scope Z_scope.

Section pass.
Context {W : Type} {KO : KVOps W} {KL : KVLaws W} (sha256 : string -> string) (Hsha : forall s, String.length (sha256 s) = 32%nat).
Context (Hsep : sep kv_opts = ":"%char).
Context (index : RecoveryIndex) (Hroot : Forall (fun seg => containsByte ":" seg = false) (ri_Root index)).
Implicit Types (M : gmap string aval) (b m id : string) (log : list string) (todo : gmap string (list string)).

Local Notation rb := (recoveryBucket sha256).
Local Notation bucketOf := (bucketOf index).
Local Notation dirOf := (dirOf index).
Local Notation hasWork := (hasWork index).
Local Notation reached := (reached index).
Local Notation found := (found index).
Local Notation completeFor := (completeFor index).
Local Notation inPlace := (inPlace sha256).
Local Notation indexChange := (indexChange index).

Record passInv M0 todo M log : Prop := {
  pi_complete : completeFor (found M0) M;
  pi_sound b m : reached M b -> m ∈ bucketOf M b -> found M0 (trimSpace m);
  pi_clean b : is_Some (todo !! b) -> cleanSeg b;
  pi_done b rest m : todo !! b = Some rest -> m ∈ bucketOf M b -> m ∈ rest \/ inPlace b m /\ hasWork M m;
  pi_entered b : canonicalRecoveryBucket b = true -> is_Some (todo !! b) -> bucketOf M b <> ∅ -> b ∈ dirOf M;
  pi_names b : b ∈ dirOf M -> canonicalRecoveryBucket b = false -> b ∈ dirOf M0;
  pi_kept b : b ∈ dirOf M0 -> canonicalRecoveryBucket b = true -> b ∈ dirOf M;
  pi_others b : cleanSeg b -> canonicalRecoveryBucket b = false -> bucketOf M b ⊆ bucketOf M0 b;
  pi_found b rest m : todo !! b = Some rest -> m ∈ rest -> found M0 (trimSpace m);
  pi_attempt id : validID id -> id ∈ bucketOf M0 (rb id) -> hasWork M0 id ->
    id ∈ log \/ id ∈ bucketOf M (rb id) /\ hasWork M id /\ forall rest, todo !! rb id = Some rest -> id ∈ rest
}.

Lemma passInv_start M0 : passInv M0 ∅ M0 [].
Proof.
  split.
  - by intros id Hf.
  - intros b m Hv Hm. by exists b, m.
  - intros b [? Hb]. by rewrite lookup_empty in Hb.
  - intros b rest m Hb. by rewrite lookup_empty in Hb.
  - intros b _ [? Hb]. by rewrite lookup_empty in Hb.
  - done.
  - done.
  - done.
  - intros b rest m Hb. by rewrite lookup_empty in Hb.
  - intros id _ Hb Hw. right. split_and!; [done|done|]. intros rest Hr. by rewrite lookup_empty in Hr.
Qed.

(** A bucket is read. *)
Lemma passInv_read M0 todo M log b ids :
  passInv M0 todo M log -> cleanSeg b -> (forall m, m ∈ bucketOf M b -> m ∈ ids) -> (forall m, m ∈ ids -> found M0 (trimSpace m)) -> (canonicalRecoveryBucket b = true -> bucketOf M b <> ∅ -> b ∈ dirOf M) ->
  passInv M0 (<[b := ids]> todo) M log.
Proof.
  intros HI Hb Hids Hfound Hd. destruct HI. split; try done.
  - intros b' [rest [[<- _]|[_ Hr]]%lookup_insert_Some]; [done|]. by apply pi_clean0.
  - intros b' rest m [[<- <-]|[_ Hr]]%lookup_insert_Some Hm; [left; by apply Hids|by eapply pi_done0].
  - intros b' Hc [rest [[<- _]|[_ Hr]]%lookup_insert_Some]; [by auto|]. by apply pi_entered0.
  - intros b' rest m [[<- <-]|[_ Hr]]%lookup_insert_Some Hm; [by apply Hfound|by eapply pi_found0].
  - intros id Hv Hm Hw. destruct (pi_attempt0 id Hv Hm Hw) as [?|(H1 & H2 & H3)]; [by left|]. right. split_and!; [done|done|].
    intros rest [[Hrb <-]|[_ Hr]]%lookup_insert_Some; [|by apply H3]. rewrite <-Hrb in H1. by apply Hids.
Qed.

(** What a step of the pass may do to the index. *)
Record passStep M0 todo todo' M (addB removeB : string -> gset string) (addD removeD : gset string) : Prop := {
  ps_add b m : m ∈ addB b -> found M0 (trimSpace m) /\ inPlace b m /\ hasWork M m /\ b ∈ addD;
  ps_enter b : b ∈ addD -> canonicalRecoveryBucket b = true;
  ps_leave b : b ∈ removeD -> canonicalRecoveryBucket b = false;
  ps_todo b rest' : todo' !! b = Some rest' -> exists rest, todo !! b = Some rest /\ (forall m, m ∈ rest' -> m ∈ rest) /\ forall m, m ∈ rest -> m ∈ rest' \/ m ∈ removeB b;
  ps_remove id : validID id -> id ∈ removeB (rb id) -> ~ hasWork M id
}.

Lemma passInv_step M0 todo todo' M M' log addB removeB addD removeD :
  passInv M0 todo M log -> indexChange M M' addB removeB addD removeD -> completeFor (found M0) M' -> passStep M0 todo todo' M addB removeB addD removeD ->
  passInv M0 todo' M' log.
Proof.
  intros HI HC Hcomp [Hadd Henter Hleave Htodo Hrem]. destruct HI.
  assert (forall b, is_Some (todo' !! b) -> is_Some (todo !! b)) as Hsome by (intros b [rest' Hr]; destruct (Htodo b rest' Hr) as (rest & ? & _); by eexists).
  pose proof (fun b m Hb => in_change sha256 Hsha Hsep index Hroot M M' addB removeB addD removeD b m HC Hb) as Hin.
  pose proof (fun b => dir_change sha256 Hsha Hsep index Hroot M M' addB removeB addD removeD b HC) as Hdir.
  pose proof (ic_work _ _ _ _ _ _ _ HC) as Hwk.
  split; [done|..].
  - intros b m [Hb Hv] Hm. apply (Hin b m Hb) in Hm as [[Hm|Hm] _]; [by apply Hadd in Hm as [? _]|]. apply (pi_sound0 b m); [|done]. split; [done|].
    destruct Hv as [?|Hd]; [by left|]. apply Hdir in Hd as [[Hd|Hd] _]; [left; by apply Henter|by right].
  - intros b Hs. by apply pi_clean0, Hsome.
  - intros b rest' m Hr Hm. assert (cleanSeg b) as Hb by (apply pi_clean0, Hsome; by eexists). destruct (Htodo b rest' Hr) as (rest & Hrest & Hback & Hsub).
    apply (Hin b m Hb) in Hm as [[Hm|Hm] Hnr]; [right; apply Hadd in Hm as (_ & ? & ? & _); by rewrite Hwk|].
    destruct (pi_done0 b rest m Hrest Hm) as [Hmr|[? ?]]; [|right; by rewrite Hwk]. by destruct (Hsub m Hmr); [left|].
  - intros b Hc Hs Hne. apply Hdir. assert (cleanSeg b) as Hb by (by apply pi_clean0, Hsome). split.
    + apply set_choose_L in Hne as [m Hm]. apply (Hin b m Hb) in Hm as [[Hm|Hm] _]; [left; by apply Hadd in Hm as (_ & _ & _ & ?)|right]. apply pi_entered0; [done|by apply Hsome|set_solver].
    + intros Hl. apply Hleave in Hl. congruence.
  - intros b [[Hd|Hd] _]%Hdir Hc; [apply Henter in Hd; congruence|by apply pi_names0].
  - intros b Hd Hc. apply Hdir. split; [right; by apply pi_kept0|]. intros Hl%Hleave. congruence.
  - intros b Hb Hc m [[Hm|Hm] _]%(Hin b m Hb); [|by apply pi_others0]. apply Hadd in Hm as (_ & _ & _ & Hm%Henter). congruence.
  - intros b rest' m Hr Hm. destruct (Htodo b rest' Hr) as (rest & Hrest & Hback & _). eapply pi_found0; [exact Hrest|by apply Hback].
  - intros id Hv Hm Hw. destruct (pi_attempt0 id Hv Hm Hw) as [?|(H1 & H2 & H3)]; [by left|]. right.
    assert (id ∉ removeB (rb id)) as Hnr by (intros Hr; by apply (Hrem id Hv Hr)).
    split_and!; [apply Hin; [apply rb_clean|auto]|by apply Hwk|]. intros rest' Hr. destruct (Htodo _ rest' Hr) as (rest & Hrest & Hback & Hsub). by destruct (Hsub id (H3 rest Hrest)).
Qed.

(** The list of a bucket loses its first member. *)
Lemma todo_next todo b m rest : todo !! b = Some (m :: rest) ->
  forall b' rest', <[b := rest]> todo !! b' = Some rest' -> exists rest0, todo !! b' = Some rest0 /\ (forall x, x ∈ rest' -> x ∈ rest0) /\ forall x, x ∈ rest0 -> x ∈ rest' \/ x ∈ only b {[m]} b'.
Proof.
  intros Hb b' rest' [[<- <-]|[Hne Hr]]%lookup_insert_Some.
  - exists (m :: rest). split_and!; [done|set_solver|]. intros x [->|Hx]%elem_of_cons; [right; apply elem_of_only; set_solver|by left].
  - exists rest'. split_and!; [done|done|]. by left.
Qed.

Lemma passInv_remove M0 todo M M' log b m rest :
  passInv M0 todo M log -> todo !! b = Some (m :: rest) -> indexChange M M' (only b ∅) (only b {[m]}) ∅ ∅ -> trimSpace m = EmptyString \/ ~ hasWork M (trimSpace m) ->
  passInv M0 (<[b := rest]> todo) M' log.
Proof.
  intros HI Hb HC Hm. eapply passInv_step; [exact HI|exact HC| |].
  - eapply (keep_remove sha256 Hsha Hsep index Hroot); [exact HC|done|apply HI].
  - split; [|set_solver|set_solver|by apply todo_next|].
    + intros b' m' H'. apply elem_of_only in H'. set_solver.
    + intros id [Ht Hne] [_ ->%elem_of_singleton]%elem_of_only. rewrite Ht in Hm. naive_solver.
Qed.

Lemma passInv_move M0 todo M M' log b m rest :
  passInv M0 todo M log -> todo !! b = Some (m :: rest) ->
  indexChange M M' (only (rb (trimSpace m)) {[trimSpace m]}) (only b {[m]}) {[rb (trimSpace m)]} ∅ ->
  validID (trimSpace m) -> hasWork M (trimSpace m) -> ~ (m = trimSpace m /\ rb (trimSpace m) = b) ->
  passInv M0 (<[b := rest]> todo) M' log.
Proof.
  intros HI Hb HC Hv Hw Hm. eapply passInv_step; [exact HI|exact HC| |].
  - eapply (keep_move sha256 Hsha Hsep index Hroot); [exact HC|done|apply HI].
  - split; [| |set_solver|by apply todo_next|].
    + intros b' m' [-> ->%elem_of_singleton]%elem_of_only. split_and!; [|by split|done|set_solver]. destruct Hv as [-> _]. eapply pi_found; [exact HI|exact Hb|by left].
    + intros b' ->%elem_of_singleton. by apply rb_canonical.
    + intros id [Ht _] [Hb' ->%elem_of_singleton]%elem_of_only. destruct Hm. by rewrite Ht.
Qed.

Lemma todo_same todo b rest' (removeB : string -> gset string) : todo !! b = Some rest' -> exists rest, todo !! b = Some rest /\ (forall m, m ∈ rest' -> m ∈ rest) /\ forall m, m ∈ rest -> m ∈ rest' \/ m ∈ removeB b.
Proof. intros Hb. exists rest'. split_and!; [done|done|]. by left. Qed.

Lemma passInv_enter M0 todo M M' log b :
  passInv M0 todo M log -> canonicalRecoveryBucket b = true -> indexChange M M' (only b ∅) (only b ∅) {[b]} ∅ -> passInv M0 todo M' log.
Proof.
  intros HI Hc HC. eapply passInv_step; [exact HI|exact HC| |].
  - eapply (keep_enter sha256 Hsha Hsep index Hroot); [exact HC|apply HI].
  - split; [|set_solver|set_solver|intros; by apply todo_same|]; intros ? *; rewrite ?elem_of_only; set_solver.
Qed.

Lemma passInv_leave M0 todo M M' log b :
  passInv M0 todo M log -> canonicalRecoveryBucket b = false -> bucketOf M b = ∅ -> indexChange M M' (only b ∅) (only b ∅) ∅ {[b]} -> passInv M0 todo M' log.
Proof.
  intros HI Hc Hb HC. eapply passInv_step; [exact HI|exact HC| |].
  - eapply (keep_leave sha256 Hsha Hsep index Hroot); [exact HC|done|apply HI].
  - split; [|set_solver|set_solver|intros; by apply todo_same|]; intros ? *; rewrite ?elem_of_only; set_solver.
Qed.

Lemma passInv_drop M0 todo M M' log :
  passInv M0 todo M log -> indexChange M M' (only EmptyString ∅) (only EmptyString ∅) ∅ ∅ -> passInv M0 todo M' log.
Proof.
  intros HI HC. eapply passInv_step; [exact HI|exact HC| |].
  - eapply (keep_drop sha256 Hsha Hsep index Hroot); [exact HC|apply HI].
  - split; [|set_solver|set_solver|intros; by apply todo_same|]; intros ? *; rewrite ?elem_of_only; set_solver.
Qed.

(** ** Attempts *)

(** The mutation of a caller that completes the work [id]. *)
Definition completion (conditions : list Condition) id : Mutation :=
  MkMutation conditions [] [recoveryRecordKey index id] [] (Recovery_Remove sha256 index id) [] [].

Record finished M M' id : Prop := {
  fi_bucket b : cleanSeg b -> bucketOf M' b = bucketOf M b ∖ only (rb id) {[id]} b;
  fi_dir : dirOf M' = dirOf M;
  fi_work id' : validID id' -> hasWork M' id' <-> hasWork M id' /\ id' <> id
}.

Lemma completion_finished M conditions id : validID id -> finished M (specMutation kv_opts (completion conditions id) M) id.
Proof.
  intros [Hid _]. unfold specMutation, completion, phases, Recovery_Remove.
  cbn [mut_Entries mut_DeleteKeys mut_AddMembers mut_RemoveMembers mut_AddOrderedMembers mut_RemoveOrderedMembers foldl fmap list_fmap app].
  assert (cleanSeg (rb id)) as Hr by apply rb_clean. split.
  - intros b Hb. unfold RecoverySafe.bucketOf. rewrite setOf_specGroup. cbn [fst snd sm_Key sm_Members exactly list_to_set foldr]. change (phaseAdds 1) with false. cbn iota.
    unfold only. rewrite (bool_decide_ext _ (b = rb id)) by (by apply (bucket_key_inj Hsep index Hroot)).
    unfold setOf. rewrite lookup_delete_ne by (by apply (work_bucket Hsep index Hroot)). case_bool_decide; set_solver.
  - unfold RecoverySafe.dirOf. rewrite setOf_specGroup. cbn [fst snd sm_Key exactly]. rewrite bool_decide_eq_false_2 by (by apply (dir_bucket Hsep index Hroot)).
    unfold setOf. by rewrite lookup_delete_ne by (by apply (work_dir Hsep index Hroot)).
  - intros id' [Hid' _]. unfold RecoverySafe.hasWork. rewrite specGroup_other by (by apply (work_bucket Hsep index Hroot)). destruct (decide (id' = id)) as [->|Hne].
    + rewrite lookup_delete_eq. split; [by intros [? ?]|by intros [_ ?]].
    + rewrite lookup_delete_ne; [tauto|]. intros HE. destruct Hne. symmetry. by apply (work_key_inj Hsep index Hroot).
Qed.

Lemma passInv_skip M0 todo M log b m rest :
  passInv M0 todo M log -> todo !! b = Some (m :: rest) -> inPlace b m -> hasWork M m -> passInv M0 (<[b := rest]> todo) M (log ++ [m]).
Proof.
  intros HI Hb Hin Hw. destruct HI. split; try done.
  - intros b' [r [[<- _]|[_ Hr]]%lookup_insert_Some]; [|by apply pi_clean0]. apply pi_clean0. by eexists.
  - intros b' r x [[<- <-]|[_ Hr]]%lookup_insert_Some Hx; [|by eapply pi_done0]. destruct (pi_done0 b (m :: rest) x Hb Hx) as [[->|?]%elem_of_cons|?]; auto.
  - intros b' Hc [r [[<- _]|[_ Hr]]%lookup_insert_Some]; [|by apply pi_entered0]. apply pi_entered0; [done|by eexists].
  - intros b' r x [[<- <-]|[_ Hr]]%lookup_insert_Some Hx; [|by eapply pi_found0]. eapply pi_found0; [exact Hb|by right].
  - intros id Hv Hm Hw0. destruct (pi_attempt0 id Hv Hm Hw0) as [?|(H1 & H2 & H3)]; [left; set_solver|].
    destruct (decide (id = m)) as [->|Hne]; [left; set_solver|]. right. split_and!; [done|done|].
    intros r [[Hrb <-]|[_ Hr]]%lookup_insert_Some; [|by apply H3]. rewrite <-Hrb in H3. specialize (H3 _ Hb). set_solver.
Qed.

Lemma passInv_finish M0 todo M M' log b m rest :
  passInv M0 todo M log -> todo !! b = Some (m :: rest) -> inPlace b m -> hasWork M m -> finished M M' m -> passInv M0 (<[b := rest]> todo) M' (log ++ [m]).
Proof.
  intros HI Hb Hin Hw HF. destruct (passInv_skip M0 todo M log b m rest HI Hb Hin Hw) as [Hcomp Hsound Hclean Hdone Hent Hnam Hkept Hoth Hfnd Hatt].
  destruct Hin as [Hvm Hrb]. assert (forall b' x, cleanSeg b' -> x ∈ bucketOf M' b' <-> x ∈ bucketOf M b' /\ ~ (b' = b /\ x = m)) as HinB.
  { intros b' x Hc. rewrite (fi_bucket _ _ _ HF b' Hc). rewrite elem_of_difference, elem_of_only, elem_of_singleton, Hrb. done. }
  assert (forall b', reached M' b' <-> reached M b') as Hvis by (intros b'; unfold RecoverySafe.reached; by rewrite (fi_dir _ _ _ HF)). split; try done.
  - intros id Hf Hv Hw'. apply (fi_work _ _ _ HF id Hv) in Hw' as [Hw' Hne]. destruct (Hcomp id Hf Hv Hw') as (b' & x & Hvb & Hx & Ht). exists b', x.
    split_and!; [by apply Hvis|apply HinB; [apply Hvb|]|done]. split; [done|]. intros [-> ->]. destruct Hvm as [Hvm _]. congruence.
  - intros b' x Hvb Hx. apply Hvis in Hvb. apply (Hsound b' x Hvb). by apply HinB in Hx as [? _]; [|apply Hvb].
  - intros b' r x Hr Hx. assert (cleanSeg b') as Hc by (apply Hclean; by eexists). apply HinB in Hx as [Hx Hnx]; [|done].
    destruct (Hdone b' r x Hr Hx) as [?|[[Hvx Hrx] Hwx]]; [by left|]. right. split; [by split|]. apply (fi_work _ _ _ HF x Hvx). split; [done|]. intros ->. destruct Hnx. split; [congruence|done].
  - intros b' Hc Hs Hne. rewrite (fi_dir _ _ _ HF). apply Hent; [done|done|]. apply set_choose_L in Hne as [x Hx]. apply HinB in Hx as [Hx _]; [set_solver|by apply Hclean].
  - intros b'. rewrite (fi_dir _ _ _ HF). apply Hnam.
  - intros b'. rewrite (fi_dir _ _ _ HF). apply Hkept.
  - intros b' Hc Hn x [Hx _]%HinB; [|done]. by apply Hoth.
  - intros id Hv Hm Hw0. destruct (Hatt id Hv Hm Hw0) as [?|(H1 & H2 & H3)]; [by left|]. destruct (decide (id = m)) as [->|Hne]; [left; set_solver|]. right.
    split_and!; [apply HinB; [apply rb_clean|]; naive_solver|apply (fi_work _ _ _ HF id Hv); naive_solver|done].
Qed.

(** ** Callers

    Publishing and completing work keeps all work findable. *)
Definition publication (conditions : list Condition) id (value : string) (deadline : Time) : Mutation :=
  MkMutation conditions [MkEntry (recoveryRecordKey index id) value deadline] [] (Recovery_Add sha256 index id) [] [] [].

Lemma publication_complete P M conditions id value deadline : validID id -> completeFor P M -> completeFor P (specMutation kv_opts (publication conditions id value deadline) M).
Proof.
  intros [Hid _] Hcomp. set (M' := specMutation _ _ M). set (M1 := <[encK kv_opts (recoveryRecordKey index id) := ARec value deadline]> M).
  assert (M' = specMutation kv_opts (memberMutation [] (Recovery_Add sha256 index id) []) M1) as HM' by done.
  assert (forall k, k <> encK kv_opts (recoveryRecordKey index id) -> setOf M1 k = setOf M k) as Hset by (intros k Hk; unfold setOf, M1; by rewrite lookup_insert_ne by done).
  assert (cleanSeg (rb id)) as Hr by apply rb_clean.
  assert (forall b, cleanSeg b -> bucketOf M' b = only (rb id) {[id]} b ∪ bucketOf M b) as HB.
  { intros b Hb. rewrite HM'. unfold RecoverySafe.bucketOf. index_effect. unfold only. rewrite (bool_decide_ext (_ = encK kv_opts (recBucket index (rb id))) (b = rb id)) by (by apply (bucket_key_inj Hsep index Hroot)).
    rewrite (bool_decide_eq_false_2 (_ = encK kv_opts (directory index))) by (by apply not_eq_sym, (dir_bucket Hsep index Hroot)).
    rewrite Hset by (by apply not_eq_sym, (work_bucket Hsep index Hroot)). case_bool_decide; set_solver. }
  assert (forall b, b ∈ dirOf M -> b ∈ dirOf M') as HD.
  { intros b Hb. rewrite HM'. unfold RecoverySafe.dirOf. index_effect. rewrite (bool_decide_eq_false_2 (_ = encK kv_opts (recBucket index (rb id)))) by (by apply (dir_bucket Hsep index Hroot)).
    rewrite bool_decide_eq_true_2 by done. rewrite Hset by (by apply not_eq_sym, (work_dir Hsep index Hroot)). set_solver. }
  intros id' HP Hv Hw. destruct (decide (id' = id)) as [->|Hne].
  - exists (rb id), id. split_and!; [split; [done|left; by apply rb_canonical]|rewrite HB by done; unfold only; rewrite bool_decide_eq_true_2 by done; set_solver|done].
  - assert (hasWork M id') as Hw'.
    { revert Hw. rewrite HM'. unfold RecoverySafe.hasWork. rewrite (member_work Hsep index Hroot); [|constructor; [by left|apply Forall_singleton; right; by exists (rb id)]|by constructor].
      unfold M1. rewrite lookup_insert_ne; [done|]. intros HE. destruct Hne. symmetry. apply (work_key_inj Hsep index Hroot); [done|apply Hv|done]. }
    destruct (Hcomp id' HP Hv Hw') as (b & m & [Hb Hrc] & Hm & Ht). exists b, m. split_and!; [split; [done|]|rewrite HB by done; set_solver|done]. destruct Hrc; [by left|right; by apply HD].
Qed.

Lemma completion_complete P M conditions id : validID id -> completeFor P M -> completeFor P (specMutation kv_opts (completion conditions id) M).
Proof.
  intros Hid Hcomp. pose proof (completion_finished M conditions id Hid) as HF. set (M' := specMutation _ _ M) in *. intros id' HP Hv Hw.
  apply (fi_work _ _ _ HF id' Hv) in Hw as [Hw Hne]. destruct (Hcomp id' HP Hv Hw) as (b & m & [Hb Hrc] & Hm & Ht). exists b, m.
  split_and!; [split; [done|by rewrite (fi_dir _ _ _ HF)]| |done]. rewrite (fi_bucket _ _ _ HF b Hb), elem_of_difference, elem_of_only, elem_of_singleton. split; [done|].
  intros [_ ->]. destruct Hid as [Hid _]. congruence.
Qed.
End pass.
