(* ===== verification/RecoveryExact.v ===== *)
(** * socialutil: what a reconciliation pass achieves

    A [Reconcile] that no other client disturbs and that reports no error.  Theorem: it
    leaves an exact index, in which every bucket contains the work of its own that has a
    record and nothing else, and every piece of work that was in its place is attempted. *)

From stdpp Require Import gmap strings list.
From S2P Require Import Prelude GoStrings GoText KVKey KVMemory KVSpec KVProps KVIface Triple KVSets SocialKeys RecoveryIndex RecoverySafe RecoveryPass.

Open Scope Z_scope.

Section exact.
Context {W : Type} {KO : KVOps W} {KL : KVLaws W} {SO : KVSetOps W} {SL : KVSetLaws W} {TL : KVTypeLaws W} {CO : CtxOps W} {CL : CtxLaws W}.
Context (Hctx : forall w w' o, ctxErr w = (w', Ret o) -> o = None).
Context (sha256 : string -> string) (Hsha : forall s, String.length (sha256 s) = 32%nat).
Context (Hsep : sep kv_opts = ":"%char).
Context (index : RecoveryIndex) (Hroot : Forall (fun seg => containsByte ":" seg = false) (ri_Root index)).
Context (work : string -> ST W recError unit).
Context (Hwork : forall id w w' r, kv_ok w -> work id w = (w', r) ->
  kv_ok w' /\ r <> Panic /\ (kv_db w' = kv_db w \/ exists conditions, kv_db w' = specMutation kv_opts (completion sha256 index conditions id) (kv_db w))).
Context (M0 : gmap string aval).
Implicit Types (M : gmap string aval) (b m id : string) (L l : list string) (todo : gmap string (list string)).

Local Notation E := (encK kv_opts).
Local Notation rb := (recoveryBucket sha256).
Local Notation bucketOf := (bucketOf index).
Local Notation dirOf := (dirOf index).
Local Notation hasWork := (hasWork index).
Local Notation found := (found index).
Local Notation inPlace := (inPlace sha256).
Local Notation indexChange := (indexChange index).
Local Notation passInv := (passInv sha256 index M0).

Local Notation world := (W * list string)%type.
Local Notation contents := (gmap string aval * list string)%type.
#[local] Instance aloneOps : KVOps world := logOps.
#[local] Instance aloneSetOps : KVSetOps world := logSetOps.

Definition aloneOk (x : world) : Prop := kv_ok x.1.
Definition aloneDb (x : world) : contents := (kv_db x.1, x.2).
Local Notation runs := (runs aloneOk aloneDb).

(** ** Store calls *)
Lemma members_runs key M L : runs (M, L) (recoveryMembers key) (fun d r => d = (M, L) /\
  match r with
  | Ret ids => list_to_set ids = setOf M (E key) /\ (M !! E key = None \/ exists s, M !! E key = Some (ASet false s))
  | Fail (RecStore ErrWrongType) => forall s, M !! E key <> Some (ASet false s)
  | Fail _ => True
  | Panic => ~ cleanKey kv_opts key
  end).
Proof.
  intros [w l] x' r Hok [= -> ->]. unfold recoveryMembers, kvR, mapErrST. cbn. unfold logCall. cbn. destruct (kvMembers key w) as [w1 r1] eqn:E1.
  destruct (kvMembers_law _ _ _ _ Hok E1) as (H1 & H2 & H3). pose proof (kvMembers_type _ _ _ _ Hok E1) as H4.
  destruct r1 as [ids|e|]; intros [= <- <-]; unfold aloneOk, aloneDb; cbn; rewrite H2; (split; [done|]); (split; [done|]); [split; [apply H3|done]|by destruct e|done].
Qed.

Lemma get_runs key M L : runs (M, L) (kvR (kvGet key)) (fun d r => d = (M, L) /\
  match r with
  | Ret v => exists dl, M !! E key = Some (ARec v dl)
  | Fail (RecStore ErrNotFound) => M !! E key = None
  | Fail _ => True
  | Panic => ~ cleanKey kv_opts key
  end).
Proof.
  intros [w l] x' r Hok [= -> ->]. unfold kvR, mapErrST. cbn. unfold logCall. cbn. destruct (kvGet key w) as [w1 r1] eqn:E1.
  destruct (kvGet_law _ _ _ _ Hok E1) as (H1 & H2 & H3).
  destruct r1 as [v|e|]; intros [= <- <-]; unfold aloneOk, aloneDb; cbn; rewrite H2; (split; [done|]); (split; [done|]); [done|by destruct e|done].
Qed.

Lemma apply_runs mu M L : runs (M, L) (kvR (kvApply mu)) (fun d r =>
  match r with
  | Ret true => d = (specMutation kv_opts mu M, L) /\ Forall (specCondition kv_opts M) (mut_Conditions mu) /\ Forall (cleanKey kv_opts) (namedKeys mu)
  | Ret false => d = (M, L) /\ ~ Forall (specCondition kv_opts M) (mut_Conditions mu)
  | Fail _ => d = (M, L)
  | Panic => d = (M, L) /\ ~ Forall (cleanKey kv_opts) (namedKeys mu)
  end).
Proof.
  intros [w l] x' r Hok [= -> ->]. unfold kvR, mapErrST. cbn. unfold logCall. cbn. destruct (kvApply mu w) as [w1 r1] eqn:E1.
  destruct (kvApply_law _ _ _ _ Hok E1) as (H1 & H2). destruct (kvApply_limit _ _ _ _ Hok E1) as (_ & _ & H3).
  destruct r1 as [[]|e|]; intros [= <- <-]; unfold aloneOk, aloneDb; cbn; (split; [done|]).
  - by destruct H2 as (? & ? & ->).
  - by destruct H2 as (? & ->).
  - by rewrite H2.
  - rewrite H2. split; [done|by apply H3].
Qed.

Lemma ctx_runs M L : runs (M, L) ctxErr (fun d r => d = (M, L) /\ r = Ret None).
Proof.
  intros [w l] x' r Hok [= -> ->]. cbn. unfold logCall. cbn. destruct (ctxErr w) as [w1 r1] eqn:E1. destruct (ctxErr_law _ _ _ Hok E1) as (H1 & H2 & o & ->).
  apply Hctx in E1 as ->. intros [= <- <-]. unfold aloneOk, aloneDb. cbn. by rewrite H2.
Qed.

Lemma attempt_runs M L : runs (M, L) attemptErr (fun d r => d = (M, L) /\ exists o, r = Ret o).
Proof.
  intros [w l] x' r Hok [= -> ->]. cbn. unfold logCall. cbn. destruct (attemptErr w) as [w1 r1] eqn:E1. destruct (attemptErr_law _ _ _ Hok E1) as (H1 & H2 & o & ->).
  intros [= <- <-]. unfold aloneOk, aloneDb. cbn. rewrite H2. eauto.
Qed.

Lemma work_runs id M L : runs (M, L) (logged work id) (fun d r => r <> Panic /\ d.2 = L ++ [id] /\ (d.1 = M \/ exists conditions, d.1 = specMutation kv_opts (completion sha256 index conditions id) M)).
Proof.
  intros [w l] x' r Hok [= -> ->]. unfold logged. cbn. destruct (work id w) as [w1 r1] eqn:E1. destruct (Hwork id w w1 r1 Hok E1) as (H1 & H2 & H3).
  intros [= <- <-]. unfold aloneOk, aloneDb. cbn. auto.
Qed.

Lemma runs_all {A T} (t : T) d (m : ST world recError A) (Q : T -> contents -> Go recError A -> Prop) :
  (forall t, runs d m (Q t)) -> runs d m (fun d' r => forall t, Q t d' r).
Proof. intros Hm w w' r Hok Hd HE. split; [by eapply (Hm t)|]. intros t'. by eapply (Hm t'). Qed.

Lemma runs_recover {A} d e (m : ST world recError A) (Q : contents -> Go recError A -> Prop) :
  runs d m Q -> runs d (recoverST e m) (fun d' r => r <> Panic /\ (Q d' r \/ r = Fail e /\ Q d' Panic)).
Proof.
  intros Hm w w' r Hok Hd. unfold recoverST. destruct (m w) as [w1 r1] eqn:E1. destruct (Hm w w1 r1 Hok Hd E1). destruct r1; intros [= <- <-]; auto.
Qed.

(** ** One member *)
Definition memberDone b m M M' (r : Go recError bool) : Prop :=
  match r with
  | Ret true => M' = M /\ inPlace b m /\ hasWork M m
  | Ret false => cleanSeg b /\
      (indexChange M M' (only b ∅) (only b {[m]}) ∅ ∅ /\ (trimSpace m = EmptyString \/ ~ hasWork M (trimSpace m)) \/
       indexChange M M' (only (rb (trimSpace m)) {[trimSpace m]}) (only b {[m]}) {[rb (trimSpace m)]} ∅ /\
         validID (trimSpace m) /\ hasWork M (trimSpace m) /\ ~ (m = trimSpace m /\ rb (trimSpace m) = b))
  | _ => True
  end.

Lemma repairMember_runs b m M L : runs (M, L) (repairMember sha256 index b m) (fun d r => r <> Panic /\ d.2 = L /\ memberDone b m M d.1 r).
Proof.
  eapply runs_weaken; [apply (runs_recover _ _ _ (fun d r => d.2 = L /\ memberDone b m M d.1 r))|intros d r [Hp [[? ?]|[-> [? _]]]]; by split].
  cbv zeta. case_bool_decide as Hid.
  { eapply runs_bind; [apply apply_runs| |by intros ? ? ->|by intros ? [-> _]]. intros [] d Hd; [|by destruct Hd as [_ []]; constructor].
    destruct Hd as (-> & _ & HN). apply runs_lift. split; [done|]. split; [by eapply named_remove|]. left. split; [|by left].
    apply (remove_change sha256 Hsha Hsep index Hroot). by eapply named_remove. }
  eapply runs_bind; [apply runs_try, get_runs| |done|by intros ? [-> _]]. intros [e|value] d [-> He].
  - assert (runs (M, L) (lift (Fail e)) (fun d r => d.2 = L /\ memberDone b m M d.1 r)) as Hfail by (by apply runs_lift).
    destruct e as [[]| | |]; try exact Hfail.
    eapply runs_bind; [apply apply_runs| |by intros ? ? ->|by intros ? [-> _]]. intros [] d Hd; [|by destruct Hd as [_ []]; apply Forall_singleton].
    destruct Hd as (-> & _ & HN). apply runs_lift. split; [done|]. split; [by eapply named_remove|]. left. split; [apply (remove_change sha256 Hsha Hsep index Hroot); by eapply named_remove|right].
    unfold RecoverySafe.hasWork. rewrite He. by intros [? ?].
  - assert (hasWork M (trimSpace m)) as Hw by (destruct He as [dl He]; by eexists).
    destruct (bool_decide (m = trimSpace m) && bool_decide (rb (trimSpace m) = b)) eqn:Hin.
    + apply runs_lift. rewrite andb_true_iff, !bool_decide_eq_true in Hin. destruct Hin as [Hm Hrb]. rewrite <-Hm in *. split; [done|]. cbn. split_and!; [done|by split|done].
    + eapply runs_bind; [apply apply_runs| |by intros ? ? ->|by intros ? [-> _]]. intros [] d Hd; [|by destruct Hd as [_ []]; apply Forall_singleton].
      destruct Hd as (-> & _ & HN). apply runs_lift. split; [done|]. split; [by eapply named_remove|]. right.
      split; [apply (move_change sha256 Hsha Hsep index Hroot); by eapply named_remove|]. rewrite andb_false_iff, !bool_decide_eq_false in Hin. split_and!; [by split; [apply trimSpace_idem|]|done|tauto].
Qed.

(** ** Consumers

    [fine]: no error was reported so far.  The context is not cancelled, so that a
    consumer never ends the loop. *)
Record steady {A} (okA fine : A -> Prop) (att : string -> contents -> contents -> Prop) (yield : yieldT (W := world) A) : Prop := {
  st_report a id e d : okA a -> runs d (yield a id (Some e)) (fun _ r => exists a', r = Ret (a', true) /\ okA a' /\ ~ fine a');
  st_attempt a id d : okA a -> runs d (yield a id None) (fun d' r => exists a', r = Ret (a', true) /\ okA a' /\ (fine a' -> fine a /\ att id d d'))
}.

Section steady.
Context {A : Type} (okA fine : A -> Prop) (att : string -> contents -> contents -> Prop) (yield : yieldT (W := world) A) (Hyield : steady okA fine att yield).

Lemma forEach_fine {A' X} (okX : X -> Prop) (okA' fine' : A' -> Prop) (I : list X -> A' -> contents -> Prop) (body : A' -> X -> ST world recError (A' * bool)) :
  (forall a x xs d, okX x -> okA' a -> runs d (body a x) (fun d' r => exists a', r = Ret (a', true) /\ okA' a' /\ (fine' a' -> fine' a /\ (I (x :: xs) a d -> I xs a' d')))) ->
  forall xs a d, Forall okX xs -> okA' a -> runs d (forEach body a xs) (fun d' r => exists a', r = Ret (a', true) /\ okA' a' /\ (fine' a' -> fine' a /\ (I xs a d -> I [] a' d'))).
Proof.
  intros Hbody xs. induction xs as [|x xs IH]; intros a d HX Ha; cbn [forEach]; [apply runs_lift; eauto|]. apply Forall_cons in HX as [Hx HX].
  eapply runs_bind; [by apply (Hbody a x xs)| |by intros ? ? (? & ? & _)|by intros ? (? & ? & _)]. intros [a1 go] d1 (a2 & [= <- ->] & Ha1 & H1).
  eapply runs_weaken; [by apply (IH a1)|]. intros d2 r (a3 & -> & Ha3 & H3). exists a3. split_and!; [done|done|]. intros Hf. destruct (H3 Hf) as [Hf1 H3']. destruct (H1 Hf1) as [Hf0 H1']. auto.
Qed.

Lemma repairOne_runs b a m rest todo M L : okA a ->
  (forall d', att m (M, L) d' -> inPlace b m -> hasWork M m -> passInv (<[b := m :: rest]> todo) M L -> passInv (<[b := rest]> todo) d'.1 d'.2) ->
  runs (M, L) (repairOne sha256 index yield b a m) (fun d r => exists a', r = Ret (a', true) /\ okA a' /\
    (fine a' -> fine a /\ cleanSeg b /\ (passInv (<[b := m :: rest]> todo) M L -> passInv (<[b := rest]> todo) d.1 d.2))).
Proof.
  intros Ha Hatt. eapply runs_bind; [apply runs_try, repairMember_runs| |by intros ? ? ?|by intros ? [? _]]. intros [e|[]] [M' L'] (_ & HL & Hd); cbn in HL; subst L'; cbn in Hd.
  - eapply runs_weaken; [by apply Hyield|]. intros d r (a' & -> & Ha' & Hn). exists a'. split_and!; [done|done|]. by intros ?.
  - destruct Hd as (-> & Hin & Hw). eapply runs_weaken; [by apply Hyield|]. intros d r (a' & -> & Ha' & Hf). exists a'. split_and!; [done|done|]. intros Hfa. destruct (Hf Hfa) as [Hfa0 Hat].
    split_and!; [done|destruct Hin as [_ <-]; apply rb_clean|]. by apply Hatt.
  - destruct Hd as (Hb & Hd). apply runs_lift. exists a. split_and!; [done|done|]. intros Hf. split_and!; [done|done|]. intros HI.
    rewrite <-(insert_insert_eq todo b rest (m :: rest)). destruct Hd as [[HC Hm]|(HC & Hv & Hw & Hm)]; cbn.
    + eapply (passInv_remove sha256 Hsha Hsep index Hroot); [exact HI|by rewrite lookup_insert_eq|exact HC|done].
    + eapply (passInv_move sha256 Hsha Hsep index Hroot); [exact HI|by rewrite lookup_insert_eq|exact HC|done..].
Qed.

Lemma enterBucket_runs a b known M L : okA a -> canonicalRecoveryBucket b = true ->
  runs (M, L) (enterBucket index yield a b known) (fun d r => exists a' known', r = Ret (a', known', true) /\ okA a' /\ (forall b', b' <> b -> known' !! b' = known !! b') /\
    (fine a' -> fine a /\ d.2 = L /\ indexChange M d.1 (only b ∅) (only b ∅) {[b]} ∅)).
Proof.
  intros Ha Hc. eapply runs_bind; [apply runs_try, apply_runs| |done|].
  - intros [e|[]] d Hd.
    + cbn in Hd. subst d. eapply runs_bind; [by apply Hyield| |by intros ? ? (? & ? & _)|by intros ? (? & ? & _)]. intros [a1 go] d1 (a2 & [= <- ->] & Ha1 & Hn). apply runs_lift.
      eexists a1, _. split_and!; [done|done|intros; by rewrite lookup_insert_ne|by intros ?].
    + destruct Hd as (-> & _). apply runs_lift. eexists a, _. split_and!; [done|done|intros; by rewrite lookup_insert_ne|]. intros Hf. split_and!; [done|done|].
      apply (enter_change sha256 Hsha Hsep index Hroot).
    + by destruct Hd as [_ []]; constructor.
  - intros d [_ Hd]. destruct Hd. apply Forall_singleton, (dir_clean Hsep index Hroot).
Qed.

(** When a bucket may be read, and that its attempts keep the pass invariant. *)
Definition readable b (canonical : bool) (known : gmap string bool) : Prop :=
  if canonical then known !! b = Some true -> b ∈ dirOf M0 else b ∈ dirOf M0.

Definition attempts b : Prop :=
  forall m rest todo M L d', att m (M, L) d' -> inPlace b m -> hasWork M m -> passInv (<[b := m :: rest]> todo) M L -> passInv (<[b := rest]> todo) d'.1 d'.2.

Lemma members_found b canonical known todo M L m : passInv todo M L -> cleanSeg b -> canonicalRecoveryBucket b = canonical -> readable b canonical known -> m ∈ bucketOf M b -> found M0 (trimSpace m).
Proof.
  intros HI Hb Hc Hr Hm. destruct canonical.
  - eapply (pi_sound _ _ _ _ _ _ HI b); [|done]. split; [done|by left].
  - exists b, m. split_and!; [split; [done|by right]| |done]. by apply (pi_others _ _ _ _ _ _ HI b).
Qed.

(** The members of a bucket that was read. *)
Lemma repairList_runs b a ids todo M L : okA a -> attempts b ->
  runs (M, L) (forEach (repairOne sha256 index yield b) a ids) (fun d r => exists a', r = Ret (a', true) /\ okA a' /\
    (fine a' -> fine a /\ (ids <> [] -> cleanSeg b) /\ (ids = [] -> d = (M, L)) /\ (passInv (<[b := ids]> todo) M L -> passInv (<[b := []]> todo) d.1 d.2))).
Proof.
  intros Ha Hatt. destruct ids as [|x ids]; [apply runs_lift; exists a; by split_and!|].
  assert (forall a y ys d, okA a -> runs d (repairOne sha256 index yield b a y) (fun d' r => exists a', r = Ret (a', true) /\ okA a' /\
    (fine a' -> fine a /\ (passInv (<[b := y :: ys]> todo) d.1 d.2 -> cleanSeg b /\ passInv (<[b := ys]> todo) d'.1 d'.2)))) as Hbody.
  { intros a1 y ys [M1 L1] Ha1. eapply runs_weaken; [apply (repairOne_runs b a1 y ys todo); [done|intros; by eapply Hatt]|]. intros d r (a' & -> & Ha' & Hf). exists a'. split_and!; [done|done|naive_solver]. }
  cbn [forEach]. eapply runs_bind; [apply (repairOne_runs b a x ids todo); [done|intros; by eapply Hatt]| |by intros ? ? (? & ? & _)|by intros ? (? & ? & _)].
  intros [a1 go] d1 (a2 & [= <- ->] & Ha1 & H1). eapply runs_weaken.
  - apply (forEach_fine (fun _ => True) okA fine (fun rest _ d => passInv (<[b := rest]> todo) d.1 d.2)); [|by apply Forall_true|exact Ha1]. intros a3 y ys d3 _ Ha3. eapply runs_weaken; [by apply (Hbody a3 y ys)|]. naive_solver.
  - intros d r (a' & -> & Ha' & Hf). exists a'. split_and!; [done|done|]. intros Hfa. destruct (Hf Hfa) as [Hf1 H2]. destruct (H1 Hf1) as (Hf0 & Hcl & H3). split_and!; [done|done|done|auto].
Qed.

(** Reading a bucket, and entering it into the directory when it is not there. *)
Lemma enterIfNew_runs b canonical known a ids todo M L : okA a -> canonicalRecoveryBucket b = canonical -> list_to_set ids = bucketOf M b ->
  runs (M, L) (if canonical && negb (bool_decide (ids = [])) && negb (default false (known !! b)) then enterBucket index yield a b known else mret (a, known, true))
    (fun d r => exists a' known', r = Ret (a', known', true) /\ okA a' /\ (forall b', b' <> b -> known' !! b' = known !! b') /\
      (fine a' -> fine a /\ (cleanSeg b \/ d = (M, L)) /\ (readable b canonical known -> cleanSeg b -> passInv todo M L -> passInv (<[b := sortStrings ids]> todo) d.1 d.2))).
Proof.
  intros Ha Hc Hids. assert (forall m, m ∈ sortStrings ids <-> m ∈ bucketOf M b) as Hel by (intros m; rewrite sortStrings_perm; rewrite <-Hids, elem_of_list_to_set; done).
  destruct (canonical && _ && _) eqn:Hent.
  - rewrite !andb_true_iff in Hent. destruct Hent as [[-> _] _]. eapply runs_weaken; [by apply enterBucket_runs|]. intros [M1 L1] r (a' & known' & -> & Ha' & Hk & Hf).
    exists a', known'. split_and!; [done|done|done|]. intros Hfa. destruct (Hf Hfa) as (Hf0 & HL & HC). cbn in HL, HC. subst L1.
    split_and!; [done|left; by apply canonical_clean|]. intros Hr Hb HI. cbn. pose proof (passInv_enter sha256 Hsha Hsep index Hroot M0 todo M M1 L b HI Hc HC) as HI1.
    assert (bucketOf M1 b = bucketOf M b) as Hsame. { rewrite (ic_bucket _ _ _ _ _ _ _ HC b Hb). unfold only. case_bool_decide; set_solver. }
    apply passInv_read; [done|done|intros m; by rewrite Hsame, Hel|intros m Hm%Hel; exact (members_found b true known todo M L m HI Hb Hc Hr Hm)|]. intros _ _. rewrite (ic_dir _ _ _ _ _ _ _ HC). set_solver.
  - apply runs_lift. exists a, known. split_and!; [done|done|done|]. intros Hfa. split_and!; [done|by right|]. intros Hr Hb HI. cbn.
    apply passInv_read; [done|done|intros m; by rewrite Hel|intros m Hm%Hel; exact (members_found b canonical known todo M L m HI Hb Hc Hr Hm)|]. intros Hcb Hne. rewrite Hcb in Hc. subst canonical.
    destruct (decide (ids = [])) as [->|Hn]; [by destruct Hne; rewrite <-Hids|]. rewrite (bool_decide_eq_false_2 (ids = [])) in Hent by done. cbn in Hent. apply negb_false_iff in Hent.
    apply (pi_kept _ _ _ _ _ _ HI); [|done]. apply Hr. by destruct (known !! b) as [[]|].
Qed.

Lemma repairBucket_runs b canonical known a todo M L : okA a -> attempts b -> canonicalRecoveryBucket b = canonical ->
  runs (M, L) (repairBucket sha256 index b canonical known yield a) (fun d r => (r = Panic /\ ~ cleanSeg b) \/ exists a' known', r = Ret (a', known', true) /\ okA a' /\
    (forall b', b' <> b -> known' !! b' = known !! b') /\
    (fine a' -> fine a /\ (cleanSeg b \/ d = (M, L)) /\ (readable b canonical known -> cleanSeg b -> passInv todo M L -> passInv (<[b := []]> todo) d.1 d.2))).
Proof.
  intros Ha Hatt Hc. eapply runs_bind; [apply ctx_runs| |by intros ? ? [_ ?]|by intros ? [_ ?]]. intros o d [-> [= ->]].
  eapply runs_bind; [apply runs_try, members_runs| |done|]. 2:{ intros d [_ HP]. left. split; [done|]. intros Hb. by apply HP, (bucket_clean Hsep index Hroot). }
  intros [e|ids] d [-> Hids].
  { eapply runs_bind; [by apply Hyield| |by intros ? ? (? & ? & _)|by intros ? (? & ? & _)]. intros [a1 go] d1 (a2 & [= <- ->] & Ha1 & Hn). apply runs_lift. right.
    exists a1, known. split_and!; [done|done|done|by intros ?]. }
  destruct Hids as [Hids _]. fold (bucketOf M b) in Hids.
  eapply runs_bind; [by apply (enterIfNew_runs b canonical known a ids todo)| |by intros ? ? (? & ? & ? & _)|by intros ? (? & ? & ? & _)].
  intros [[a1 known1] go] [M1 L1] (a2 & known2 & [= <- <- ->] & Ha1 & Hk & H1). cbn [fst snd] in H1.
  eapply runs_bind; [by apply (repairList_runs b a1 (sortStrings ids) todo)| |by intros ? ? (? & ? & _)|by intros ? (? & ? & _)].
  intros [a3 go3] d3 (a4 & [= <- ->] & Ha3 & H3). apply runs_lift. right. exists a3, known1. split_and!; [done|done|done|].
  intros Hfa. destruct (H3 Hfa) as (Hf1 & Hcl & Hnil & H4). destruct (H1 Hf1) as (Hf0 & Hd & H5). split_and!; [done| |auto].
  destruct (sortStrings ids) as [|x xs]; [rewrite Hnil by done; exact Hd|left; by apply Hcl].
Qed.
End steady.

(** ** The directory *)
Lemma firstError_steady : steady (fun _ => True) (fun first => first = None) (fun _ _ _ => True) firstError.
Proof.
  split.
  - intros a id e [M L] _. eapply runs_bind; [apply ctx_runs| |by intros ? ? [_ ?]|by intros ? [_ ?]]. intros o d [-> [= ->]]. apply runs_lift. eexists. split_and!; [done|done|]. by destruct a.
  - intros a id [M L] _. eapply runs_bind; [apply ctx_runs| |by intros ? ? [_ ?]|by intros ? [_ ?]]. intros o d [-> [= ->]]. apply runs_lift. eexists. split_and!; [done|done|]. by destruct a.
Qed.

Lemma repairInvalidBucket_runs b M L : canonicalRecoveryBucket b = false ->
  runs (M, L) (repairInvalidBucket sha256 index b) (fun d r => r <> Panic /\
    (r = Ret tt -> (cleanSeg b \/ d = (M, L)) /\ forall todo, b ∈ dirOf M0 -> cleanSeg b -> passInv todo M L -> passInv (<[b := []]> todo) d.1 d.2)).
Proof.
  intros Hc. assert (attempts (fun _ _ _ => True) b) as Hatt.
  { intros m rest todo M1 L1 d' _ [_ <-]. by rewrite rb_canonical in Hc. }
  eapply runs_weaken; [apply (runs_recover _ _ _ (fun d r => r = Ret tt -> (cleanSeg b \/ d = (M, L)) /\ forall todo, b ∈ dirOf M0 -> cleanSeg b -> passInv todo M L -> passInv (<[b := []]> todo) d.1 d.2))|naive_solver].
  pose proof (fun todo => repairBucket_runs (fun _ => True) (fun first => first = None) (fun _ _ _ => True) firstError firstError_steady b false ∅ None todo M L I Hatt Hc) as HB.
  eapply runs_bind; [exact (runs_all ∅ _ _ _ HB)| | |done].
  2:{ intros d e Hd. done. }
  intros [[first known] go] [M1 L1] Hd. destruct (Hd ∅) as [[? _]|(a' & known' & [= <- <- ->] & _ & _ & _)]; [done|]. destruct first as [e|]; [by apply runs_lift|].
  assert ((cleanSeg b \/ (M1, L1) = (M, L)) /\ forall todo, b ∈ dirOf M0 -> cleanSeg b -> passInv todo M L -> passInv (<[b := []]> todo) M1 L1) as [Hcl HI1].
  { split.
    - destruct (Hd ∅) as [[? _]|(a' & known' & [= <- <-] & _ & _ & Hf)]; [done|]. by destruct (Hf eq_refl) as (_ & ? & _).
    - intros todo Hdir Hb HI. destruct (Hd todo) as [[? _]|(a' & known' & [= <- <-] & _ & _ & Hf)]; [done|]. destruct (Hf eq_refl) as (_ & _ & H3). by apply H3. }
  eapply runs_bind; [apply apply_runs| |done|done]. intros [] d Hd1.
  - destruct Hd1 as (-> & HC & HN). apply runs_lift. intros _. assert (cleanSeg b) as Hb.
    { apply (bucket_clean Hsep index Hroot). by apply Forall_inv in HN. }
    split; [by left|]. intros todo Hdir _ HI. cbn [fst snd]. apply absent_condition in HC.
    eapply (passInv_leave sha256 Hsha Hsep index Hroot); [by apply HI1|done|unfold RecoverySafe.bucketOf, setOf; by rewrite HC|apply (leave_change sha256 Hsha Hsep index Hroot)].
  - destruct Hd1 as [-> _]. by apply runs_lift.
Qed.

Lemma listDirectory_runs M L : runs (M, L) (listDirectory index) (fun d r => d = (M, L) /\ r <> Panic /\
  (r = Ret tt -> M !! E (directory index) = None \/ exists s, M !! E (directory index) = Some (ASet false s))).
Proof.
  eapply runs_bind; [apply (members_runs (directory index))| | |].
  - intros ids d [-> [_ Ht]]. by apply runs_lift.
  - by intros d e [-> _].
  - intros d [-> HP]. destruct HP. apply (dir_clean Hsep index Hroot).
Qed.

Lemma repairDirectoryType_runs M L : (forall s, M !! E (directory index) <> Some (ASet false s)) ->
  runs (M, L) (repairDirectoryType index) (fun d r => r <> Panic /\ (r = Ret tt -> dirOf M = ∅ /\ forall todo, passInv todo M L -> passInv todo d.1 d.2)).
Proof.
  intros Ht. assert (runs (M, L) (listDirectory index) (fun d r => r <> Panic /\ (r = Ret tt -> dirOf M = ∅ /\ forall todo, passInv todo M L -> passInv todo d.1 d.2))) as Hlist.
  { eapply runs_weaken; [apply listDirectory_runs|]. intros d r (-> & Hp & Hr). split; [done|]. intros Hret. split; [|done].
    destruct (Hr Hret) as [Hn|[s Hs]]; [unfold RecoverySafe.dirOf, setOf; by rewrite Hn|by destruct (Ht s)]. }
  eapply runs_bind; [apply runs_try, get_runs| |done|intros d [_ HP]; by destruct HP; apply (dir_clean Hsep index Hroot)]. intros [e|value] d [-> Hv].
  - assert (runs (M, L) (lift (Fail e)) (fun d r => r <> Panic /\ (r = Ret tt -> dirOf M = ∅ /\ forall todo, passInv todo M L -> passInv todo d.1 d.2))) as Hfail by (by apply runs_lift).
    destruct e as [[]| | |]; first [exact Hlist | exact Hfail].
  - destruct Hv as [dl Hv]. eapply runs_bind; [apply runs_try, apply_runs| |done|].
    + intros [e|[]] d Hd.
      * cbn in Hd. subst d. assert (runs (M, L) (lift (Fail e)) (fun d r => r <> Panic /\ (r = Ret tt -> dirOf M = ∅ /\ forall todo, passInv todo M L -> passInv todo d.1 d.2))) as Hfail by (by apply runs_lift).
        destruct e as [[]| | |]; first [exact Hlist | exact Hfail].
      * destruct Hd as (-> & _). apply runs_lift. split; [done|]. intros _. split; [unfold RecoverySafe.dirOf, setOf; by rewrite Hv|].
        intros todo HI. cbn [fst snd]. eapply (passInv_drop sha256 Hsha Hsep index Hroot); [exact HI|]. by eapply (drop_change sha256 Hsha Hsep index Hroot).
      * destruct Hd as (-> & _). exact Hlist.
    + intros d [_ HP]. destruct HP. constructor; [|apply Forall_singleton]; apply (dir_clean Hsep index Hroot).
Qed.

(** ** The pass *)
Section pass.
Context {A : Type} (okA fine : A -> Prop) (att : string -> contents -> contents -> Prop) (yield : yieldT (W := world) A) (Hyield : steady okA fine att yield).
Context (Hatt : forall b, attempts att b).

Definition emptied todo todo' (bs : list string) : Prop :=
  (forall b, b ∈ bs -> cleanSeg b -> canonicalRecoveryBucket b = false -> todo' !! b = Some []) /\ (forall b, todo !! b = Some [] -> todo' !! b = Some []).

Lemma scanDirectory_runs buckets a known invalid M L : okA a ->
  runs (M, L) (scanDirectory sha256 index yield a known invalid buckets) (fun d r => exists a' known', r = Ret (a', known', true) /\ okA a' /\
    (fine a' -> fine a /\ (forall b, known' !! b = Some true -> known !! b = Some true \/ b ∈ buckets) /\
      forall todo, passInv todo M L -> (forall b, b ∈ buckets -> b ∈ dirOf M0) -> exists todo', passInv todo' d.1 d.2 /\ emptied todo todo' buckets)).
Proof.
  revert a known invalid M L. induction buckets as [|b buckets IH]; intros a known invalid M L Ha; cbn [scanDirectory].
  { apply runs_lift. exists a, known. split_and!; [done|done|]. intros Hf. split_and!; [done|by left|]. intros todo HI _. exists todo. split; [done|]. split; [set_solver|done]. }
  destruct (canonicalRecoveryBucket b) eqn:Hc.
  { eapply runs_weaken; [by apply IH|]. intros d r (a' & known' & -> & Ha' & Hf). exists a', known'. split_and!; [done|done|]. intros Hfa. destruct (Hf Hfa) as (Hf0 & Hk & HT). split_and!; [done| |].
    - intros b' Hb'. destruct (Hk b' Hb') as [Hb2|?]; [|right; by right]. apply lookup_insert_Some in Hb2 as [[<- _]|[_ ?]]; [right; by left|by left].
    - intros todo HI Hdir. destruct (HT todo HI) as (todo' & HI' & He1 & He2); [intros; apply Hdir; by right|]. exists todo'. split; [done|]. split; [|done].
      intros b' [->|?]%elem_of_cons ? ?; [congruence|by apply He1]. }
  assert (forall e, runs (M, L) (yield a EmptyString (Some e)) (fun _ r => exists a', r = Ret (a', true) /\ okA a' /\ ~ fine a')) as Hrep by (intros e; by apply Hyield).
  destruct (invalid =? 256)%nat.
  { eapply runs_bind; [apply Hrep| |by intros ? ? (? & ? & _)|by intros ? (? & ? & _)]. intros [a1 go] d1 (a2 & [= <- ->] & Ha1 & Hn). apply runs_lift. exists a1, known. split_and!; [done|done|by intros ?]. }
  eapply runs_bind; [apply runs_try, (repairInvalidBucket_runs b M L Hc)| |done|by intros ? [? _]]. intros [e|[]] [M1 L1] [_ Hd].
  - eapply runs_bind; [by apply Hyield| |by intros ? ? (? & ? & _)|by intros ? (? & ? & _)]. intros [a1 go] [M2 L2] (a2 & [= <- ->] & Ha1 & Hn).
    eapply runs_weaken; [by apply (IH a1 known (S invalid) M2 L2)|]. intros d r (a' & known' & -> & Ha' & Hf). exists a', known'. split_and!; [done|done|]. intros Hfa. by destruct (Hf Hfa).
  - destruct (Hd eq_refl) as [Hcl HI1]. eapply runs_weaken; [by apply (IH a known (S invalid) M1 L1)|]. intros d r (a' & known' & -> & Ha' & Hf). exists a', known'. split_and!; [done|done|].
    intros Hfa. destruct (Hf Hfa) as (Hf0 & Hk & HT). split_and!; [done|intros b' Hb'; destruct (Hk b' Hb'); [by left|right; by right]|].
    intros todo HI Hdir. assert (b ∈ dirOf M0) as Hbd by (apply Hdir; by left). assert (forall b', b' ∈ buckets -> b' ∈ dirOf M0) as Hdir' by (intros; apply Hdir; by right).
    destruct (decide (cleanSeg b)) as [Hb|Hb].
    + destruct (HT (<[b := []]> todo) (HI1 todo Hbd Hb HI) Hdir') as (todo' & HI' & He1 & He2). exists todo'. split; [done|].
      split; [|intros b' Hb'; apply He2; destruct (decide (b' = b)) as [->|]; [by rewrite lookup_insert_eq|by rewrite lookup_insert_ne]].
      intros b' [->|?]%elem_of_cons ? ?; [apply He2; by rewrite lookup_insert_eq|by apply He1].
    + destruct Hcl as [?|[= -> ->]]; [done|]. destruct (HT todo HI Hdir') as (todo' & HI' & He1 & He2). exists todo'. split; [done|]. split; [|done].
      intros b' [->|?]%elem_of_cons ? ?; [done|by apply He1].
Qed.

(** The buckets still to be visited, in order. *)
Definition numbersInv (rest : list string) (s : A * gmap string bool) (d : contents) : Prop :=
  NoDup rest /\ (forall b, b ∈ rest -> canonicalRecoveryBucket b = true) /\ (forall b, b ∈ rest -> s.2 !! b = Some true -> b ∈ dirOf M0) /\
  exists todo, passInv todo d.1 d.2 /\ (forall b, b ∈ dirOf M0 -> cleanSeg b -> canonicalRecoveryBucket b = false -> todo !! b = Some []) /\
    forall b, b ∈ bucketNames -> b ∈ rest \/ todo !! b = Some [].

Lemma numbered_runs s b rest d : canonicalRecoveryBucket b = true -> okA s.1 ->
  runs d (repairNumbered sha256 index yield s b) (fun d' r => exists s', r = Ret (s', true) /\ okA s'.1 /\ (fine s'.1 -> fine s.1 /\ (numbersInv (b :: rest) s d -> numbersInv rest s' d'))).
Proof.
  intros Hc Ha. destruct d as [M L], s as [a known]. cbn [fst snd] in *.
  pose proof (fun todo => repairBucket_runs okA fine att yield Hyield b true known a todo M L Ha (Hatt b) Hc) as HB. eapply runs_bind; [exact (runs_all ∅ _ _ _ HB)| | |].
  - intros [[a1 known1] go] [M1 L1] Hd. destruct (Hd ∅) as [[? _]|(a2 & known2 & [= <- <- ->] & Ha1 & Hk & Hf)]; [done|]. apply runs_lift. exists (a1, known1). split_and!; [done|done|]. cbn [fst].
    intros Hfa. destruct (Hf Hfa) as (Hf0 & _ & _). split; [done|]. intros (HN & Hcan & Hkn & todo & HI & Hoth & Hdone). cbn [fst snd] in *. apply NoDup_cons in HN as [Hb HN].
    split_and!; [done|intros; apply Hcan; by right|intros b' Hb' Hkb; apply Hkn; [by right|]; cbn in Hkb; by rewrite Hk in Hkb by (by intros ->)|].
    destruct (Hd todo) as [[? _]|(a3 & known3 & [= <- <-] & _ & _ & Hf3)]; [done|]. destruct (Hf3 Hfa) as (_ & _ & H3).
    exists (<[b := []]> todo). split_and!; [apply H3; [intros Hkb; apply Hkn; [by left|done]|by apply canonical_clean|done]| |].
    + intros b' Hb' Hcl' Hc'. rewrite lookup_insert_ne by (intros ->; congruence). by apply Hoth.
    + intros b' Hb'. destruct (decide (b' = b)) as [->|Hne]; [right; by rewrite lookup_insert_eq|]. rewrite lookup_insert_ne by done. destruct (Hdone b' Hb') as [[->|?]%elem_of_cons|?]; [done|by left|by right].
  - intros d e Hd. by destruct (Hd ∅) as [[? _]|(? & ? & ? & _)].
  - intros d Hd. destruct (Hd ∅) as [[_ Hb]|(? & ? & ? & _)]; [|done]. destruct Hb. by apply canonical_clean.
Qed.

Definition passDone (d : contents) : Prop :=
  exists todo, passInv todo d.1 d.2 /\ (forall b, b ∈ dirOf M0 -> cleanSeg b -> canonicalRecoveryBucket b = false -> todo !! b = Some []) /\
    forall b, canonicalRecoveryBucket b = true -> todo !! b = Some [].

(** A pass with the members of the directory as they were. *)
Lemma repairAll_runs a buckets M L : okA a -> (forall b, b ∈ buckets -> b ∈ dirOf M0) ->
  runs (M, L) (repairAll sha256 index yield a buckets) (fun d r => exists a', r = Ret a' /\ okA a' /\ (fine a' -> fine a /\ ((forall b, b ∈ dirOf M0 -> b ∈ buckets) -> passInv ∅ M L -> passDone d))).
Proof.
  intros Ha Hsub. eapply runs_bind; [by apply scanDirectory_runs| |by intros ? ? (? & ? & ? & _)|by intros ? (? & ? & ? & _)].
  intros [[a1 known] go] [M1 L1] (a2 & known2 & [= <- <- ->] & Ha1 & H1).
  eapply runs_bind; [apply (forEach_fine (fun b => canonicalRecoveryBucket b = true) (fun s => okA s.1) (fun s => fine s.1) numbersInv); [intros; by apply numbered_runs| |done]
    | |by intros ? ? (? & ? & _)|by intros ? (? & ? & _)].
  { apply Forall_forall. intros b. apply canonical_names. }
  intros [s go] d (s2 & [= <- ->] & Hs & H2). apply runs_lift. exists s.1. split_and!; [done|done|]. intros Hf. destruct (H2 Hf) as [Hf1 H2']. destruct (H1 Hf1) as (Hf0 & Hk & HT).
  split; [done|]. intros Hsup HI. destruct (HT ∅ HI Hsub) as (todo & HI1 & He & _).
  destruct H2' as (_ & _ & _ & todo' & HI' & Ho & Hd).
  - split_and!; [apply bucketNames_NoDup|intros b; apply canonical_names| |].
    + intros b _ Hb. destruct (Hk b Hb) as [Hb'|?]; [by rewrite lookup_empty in Hb'|by apply Hsub].
    + exists todo. split_and!; [done|intros b Hb Hcl Hc; apply He; auto|by left].
  - exists todo'. split_and!; [done|done|]. intros b Hb%canonical_names. destruct (Hd b Hb) as [?%elem_of_nil|?]; done.
Qed.

Lemma repairIDs_runs a : okA a -> runs (M0, []) (repairIDs sha256 index yield a) (fun d r => exists a', r = Ret a' /\ okA a' /\ (fine a' -> passDone d)).
Proof.
  intros Ha. assert (forall e, runs (M0, []) ('(a, _) ← yield a EmptyString (Some e); mret a) (fun d r => exists a', r = Ret a' /\ okA a' /\ (fine a' -> passDone d))) as Hreport.
  { intros e. eapply runs_bind; [by apply Hyield| |by intros ? ? (? & ? & _)|by intros ? (? & ? & _)]. intros [a1 go] d (a2 & [= <- ->] & Ha1 & Hn). apply runs_lift. exists a1. by split_and!. }
  pose proof (passInv_start sha256 index M0) as HI0.
  eapply runs_bind; [apply runs_try, members_runs| |done|intros d [_ HP]; by destruct HP; apply (dir_clean Hsep index Hroot)].
  intros [e|buckets] d [-> Hd].
  - destruct e as [[]| | |]; try apply Hreport.
    eapply runs_bind; [apply runs_try, (repairDirectoryType_runs M0 [] Hd)| |done|by intros ? [? _]]. intros [e|[]] [M1 L1] [_ Hd1].
    + eapply runs_bind; [by apply Hyield| |by intros ? ? (? & ? & _)|by intros ? (? & ? & _)]. intros [a1 go] [M2 L2] (a2 & [= <- ->] & Ha1 & Hn).
      eapply runs_weaken; [apply (repairAll_runs a1 [] M2 L2 Ha1); set_solver|]. intros d r (a' & -> & Ha' & Hf). exists a'. split_and!; [done|done|]. intros Hfa. by destruct (Hf Hfa).
    + destruct (Hd1 eq_refl) as [Hempty HI1]. eapply runs_weaken; [apply (repairAll_runs a [] M1 L1 Ha); set_solver|]. intros d r (a' & -> & Ha' & Hf). exists a'. split_and!; [done|done|].
      intros Hfa. destruct (Hf Hfa) as [_ HD]. apply HD; [rewrite Hempty; set_solver|by apply (HI1 ∅)].
  - destruct Hd as [Hset _]. fold (dirOf M0) in Hset. assert (forall b, b ∈ buckets <-> b ∈ dirOf M0) as Heq by (intros b; by rewrite <-Hset, elem_of_list_to_set).
    eapply runs_weaken; [apply (repairAll_runs a buckets M0 [] Ha); apply Heq|]. intros d r (a' & -> & Ha' & Hf). exists a'. split_and!; [done|done|]. intros Hfa. destruct (Hf Hfa) as [_ HD]. apply HD; [apply Heq|done].
Qed.
End pass.

(** ** [Reconcile] *)
Definition attemptedWork id (d d' : contents) : Prop :=
  d'.2 = d.2 ++ [id] /\ (d'.1 = d.1 \/ exists conditions, d'.1 = specMutation kv_opts (completion sha256 index conditions id) d.1).

Lemma attempted_attempts b : attempts attemptedWork b.
Proof.
  intros m rest todo M L [M' L'] [HL HM] Hin Hw HI. cbn [fst snd] in HL, HM |- *. subst L'. rewrite <-(insert_insert_eq todo b rest (m :: rest)).
  destruct HM as [->|[conditions ->]]; [by eapply (passInv_skip sha256 Hsha Hsep index Hroot); [exact HI|by rewrite lookup_insert_eq|..]|].
  eapply (passInv_finish sha256 Hsha Hsep index Hroot); [exact HI|by rewrite lookup_insert_eq|done|done|]. apply completion_finished; [done..|apply Hin].
Qed.

Lemma reconcileBody_steady : steady (fun v => rv_return v = None) (fun v => rv_firstErr v = None) attemptedWork (reconcileBody (logged work)).
Proof.
  split.
  - intros v id e [M L] Hv. unfold reconcileBody. rewrite Hv. eapply runs_bind; [apply ctx_runs| |by intros ? ? [_ ?]|by intros ? [_ ?]]. intros o d [-> [= ->]]. apply runs_lift. eexists. by split_and!.
  - intros v id [M L] Hv. unfold reconcileBody. rewrite Hv. eapply runs_bind; [apply ctx_runs| |by intros ? ? [_ ?]|by intros ? [_ ?]]. intros o d [-> [= ->]].
    eapply (runs_bind _ _ _ _ _ (fun d r => attemptedWork id (M, L) d /\ exists o, r = Ret o)); [| |by intros ? ? [_ [? ?]]|by intros ? [_ [? ?]]].
    + eapply runs_bind; [apply runs_try, work_runs| |done|by intros ? [? _]]. intros [e|[]] [M1 L1] (_ & Hd); [apply runs_lift; split; [done|by eexists]|].
      eapply runs_bind; [apply attempt_runs| |by intros ? ? [_ [? ?]]|by intros ? [_ [? ?]]]. intros o d [-> _]. apply runs_lift. split; [done|by eexists].
    + intros o d [Hd _]. apply runs_lift. eexists. split_and!; [done|by destruct o|]. destruct o as [e|]; [by destruct (rv_firstErr v)|]. cbn. auto.
Qed.

(** What is left after a pass. *)
Lemma passDone_exact d : passDone d ->
  (forall b m, canonicalRecoveryBucket b = true -> m ∈ bucketOf d.1 b <-> inPlace b m /\ hasWork d.1 m /\ found M0 m) /\
  (forall b, canonicalRecoveryBucket b = true -> bucketOf d.1 b <> ∅ -> b ∈ dirOf d.1) /\
  (forall id, validID id -> id ∈ bucketOf M0 (rb id) -> hasWork M0 id -> id ∈ d.2).
Proof.
  intros (todo & HI & Ho & Hd). split_and!.
  - intros b m Hc. split.
    + intros Hm. destruct (pi_done _ _ _ _ _ _ HI b [] m (Hd b Hc) Hm) as [?%elem_of_nil|[Hin Hw]]; [done|]. split_and!; [done|done|]. destruct Hin as [[Ht _] _]. rewrite <-Ht.
      eapply (pi_sound _ _ _ _ _ _ HI b); [|done]. split; [by apply canonical_clean|by left].
    + intros ([Hv Hrb] & Hw & Hf). destruct (pi_complete _ _ _ _ _ _ HI m Hf Hv Hw) as (b' & m' & [Hcl Hr] & Hm' & Ht).
      assert (todo !! b' = Some []) as Hb'.
      { destruct (canonicalRecoveryBucket b') eqn:Hc'; [by apply Hd|]. apply Ho; [|done|done]. destruct Hr as [?|Hr]; [congruence|]. by apply (pi_names _ _ _ _ _ _ HI). }
      destruct (pi_done _ _ _ _ _ _ HI b' [] m' Hb' Hm') as [?%elem_of_nil|[[[Ht' _] Hrb'] _]]; [done|]. rewrite Ht' in Ht. subst m'. by rewrite <-Hrb, Hrb'.
  - intros b Hc. apply (pi_entered _ _ _ _ _ _ HI b Hc). rewrite (Hd b Hc). by eexists.
  - intros id Hv Hm Hw. destruct (pi_attempt _ _ _ _ _ _ HI id Hv Hm Hw) as [?|(_ & _ & Hrest)]; [done|].
    specialize (Hrest [] (Hd _ (rb_canonical sha256 Hsha id))). by apply elem_of_nil in Hrest.
Qed.
End exact.

(** C7: a [Reconcile] pass that no other client disturbs and that returns without error
    repairs the index.  Afterwards each of the 256 buckets contains exactly the work of
    that bucket that has a record and could be found before, every bucket with members is
    in the directory, and all work that was in its bucket at the start has been attempted.
    The attempts may complete their work. *)
Theorem Reconcile_repairs {W : Type} {KO : KVOps W} {KL : KVLaws W} {SO : KVSetOps W} {SL : KVSetLaws W} {TL : KVTypeLaws W} {CO : CtxOps W} {CL : CtxLaws W}
    (Hctx : forall w w' o, ctxErr w = (w', Ret o) -> o = None)
    (sha256 : string -> string) (Hsha : forall s, String.length (sha256 s) = 32%nat) (Hsep : sep kv_opts = ":"%char)
    (index : RecoveryIndex) (Hroot : Forall (fun seg => containsByte ":" seg = false) (ri_Root index)) (work : string -> ST W recError unit)
    (Hwork : forall id w w' r, kv_ok w -> work id w = (w', r) ->
      kv_ok w' /\ r <> Panic /\ (kv_db w' = kv_db w \/ exists conditions, kv_db w' = specMutation kv_opts (completion sha256 index conditions id) (kv_db w)))
    w w' log :
  kv_ok w -> Reconcile (KO := logOps) (SO := logSetOps) sha256 index (logged work) (w, []) = ((w', log), Ret tt) ->
  (forall b m, canonicalRecoveryBucket b = true -> m ∈ bucketOf index (kv_db w') b <-> inPlace sha256 b m /\ hasWork index (kv_db w') m /\ found index (kv_db w) m) /\
  (forall b, canonicalRecoveryBucket b = true -> bucketOf index (kv_db w') b <> ∅ -> b ∈ dirOf index (kv_db w')) /\
  (forall id, validID id -> id ∈ bucketOf index (kv_db w) (recoveryBucket sha256 id) -> hasWork index (kv_db w) id -> id ∈ log).
Proof.
  intros Hok HE.
  assert (runs aloneOk aloneDb (kv_db w, []) (Reconcile (KO := logOps) (SO := logSetOps) sha256 index (logged work)) (fun d r => r = Ret tt -> passDone sha256 index (kv_db w) d)) as HR.
  { eapply runs_bind; [by apply (repairIDs_runs Hctx sha256 Hsha Hsep index Hroot work Hwork (kv_db w) _ _ _ _ (reconcileBody_steady Hctx sha256 index work Hwork) (attempted_attempts sha256 Hsha Hsep index Hroot (kv_db w)))| |done|done].
    intros v d (v' & [= <-] & Hv & Hf). rewrite Hv. destruct (rv_firstErr v) as [e|]; [by apply runs_lift|]. destruct d as [M L].
    eapply runs_bind; [by apply ctx_runs| |done|done]. intros o d [-> [= ->]]. apply runs_lift. auto. }
  destruct (HR (w, []) (w', log) (Ret tt) Hok eq_refl HE) as [_ HD]. by apply (passDone_exact sha256 Hsha index (kv_db w) (kv_db w', log)), HD.
Qed.

(** * socialutil: reconciliation on the in-memory store

    An index on [Memory] with work in its place, work in the wrong bucket, a bucket that
    is none and a member without a record.  One run is alone; in the other run a server
    publishes work during the pass. *)

(** ** The instances *)
Definition rxContexts : nat -> nat -> option kvError := fun _ _ => None.
#[export] Instance rxOps : KVOps (Memory * nat) := memoryOps 1 rxContexts.
#[export] Instance rxLaws : KVLaws (Memory * nat) := memoryLaws 1 rxContexts None (fun _ _ => ltac:(discriminate)).
#[export] Instance rxSetOps : KVSetOps (Memory * nat) := memorySetOps 1 rxContexts.
#[export] Instance rxSetLaws : KVSetLaws (Memory * nat) := memorySetLaws 1 rxContexts None (fun _ _ => ltac:(discriminate)) (fun _ _ => ltac:(discriminate)).
#[export] Instance rxTypeLaws : KVTypeLaws (Memory * nat) := memoryTypeLaws 1 rxContexts None (fun _ _ => ltac:(discriminate)) (fun _ _ => ltac:(discriminate)).
#[export] Instance rxCtxOps : CtxOps (Memory * nat) := {| ctxErr w := (w, Ret None); attemptErr w := (w, Ret None) |}.
#[export] Instance rxCtxLaws : CtxLaws (Memory * nat).
Proof. constructor; intros w w' r Hok [= <- <-]; by split_and!; [| |eexists]. Qed.

Lemma rxSep : sep (kv_opts (W := Memory * nat)) = ":"%char.
Proof. reflexivity. Qed.

(** A digest of 32 bytes. *)
Definition rxSha (s : string) : string := String (default "0"%char (String.get 0 s)) "1234567890123456789012345678901".
Lemma rxSha_length s : String.length (rxSha s) = 32%nat.
Proof. reflexivity. Qed.

Definition rxIndex : RecoveryIndex := MkRecoveryIndex ["retire"%string].
Lemma rxRoot : Forall (fun seg => containsByte ":" seg = false) (ri_Root rxIndex).
Proof. repeat constructor. Qed.

(** ** The index *)
Definition rxApply (mu : Mutation) (w : Memory * nat) : Memory * nat := (kvApply mu w).1.
Definition rxEmpty : Memory * nat := (NewMemory None, 0%nat).

(** [a] is published; [b] has a record but is in a bucket with a name that is none, with a
    member that has no record. *)
Definition rxStart : Memory * nat :=
  rxApply (MkMutation [] [MkEntry (recoveryRecordKey rxIndex "b") "work" 0] []
             [exactly (recBucket rxIndex "nowhere") [" b"%string; "dead"%string]; exactly (directory rxIndex) ["nowhere"%string]] [] [] [])
    (rxApply (publication rxSha rxIndex [] "a" "work" 0) rxEmpty).

Lemma rxEmpty_ok : kv_ok rxEmpty.
Proof. split; [apply NewMemory_wf|done]. Qed.

Lemma rxApply_ok mu w : kv_ok w -> kv_ok (rxApply mu w).
Proof. intros Hok. unfold rxApply. destruct (kvApply mu w) as [w' r] eqn:HE. by destruct (kvApply_law _ _ _ _ Hok HE). Qed.

Lemma rxStart_ok : kv_ok rxStart.
Proof. apply rxApply_ok, rxApply_ok, rxEmpty_ok. Qed.

Definition rxWork (id : string) : ST (Memory * nat) recError unit := fun w => ((kvApply (completion rxSha rxIndex [] id) w).1, Ret tt).

Lemma rxWork_completes id (w w' : Memory * nat) r : kv_ok w -> rxWork id w = (w', r) ->
  kv_ok w' /\ r <> Panic /\ (kv_db w' = kv_db w \/ exists conditions, kv_db w' = specMutation kv_opts (completion rxSha rxIndex conditions id) (kv_db w)).
Proof.
  intros Hok. unfold rxWork. destruct (kvApply _ w) as [w1 r1] eqn:HE. intros [= <- <-]. cbn [fst]. destruct (kvApply_law _ _ _ _ Hok HE) as (H1 & H2).
  split_and!; [done|done|]. destruct r1 as [[]|e|]; [right; exists []; by destruct H2 as (_ & _ & ?)|left; by destruct H2|left; exact H2..].
Qed.

(** ** A pass alone *)
Definition rxAlone : (Memory * nat * list string) * Go recError unit :=
  Reconcile (KO := logOps) (SO := logSetOps) rxSha rxIndex (logged rxWork) (rxStart, []).

(** [a] is attempted and [b], whose bucket comes later, in the same pass. *)
Lemma Reconcile_repairs_witness :
  rxAlone.1.2 = ["a"%string; "b"%string] /\
  (forall b m, canonicalRecoveryBucket b = true -> m ∈ bucketOf rxIndex (kv_db rxAlone.1.1) b <-> inPlace rxSha b m /\ hasWork rxIndex (kv_db rxAlone.1.1) m /\ found rxIndex (kv_db rxStart) m).
Proof.
  split; [vm_compute; reflexivity|].
  refine (proj1 (Reconcile_repairs _ rxSha rxSha_length rxSep rxIndex rxRoot rxWork rxWork_completes rxStart rxAlone.1.1 rxAlone.1.2 rxStart_ok _)).
  - by intros w w' o [= <- <-].
  - assert (rxAlone.2 = Ret tt) as HR by (vm_compute; reflexivity). unfold rxAlone in *. destruct (Reconcile _ _ _ _) as [[w' log] r]. cbn in HR |- *. by subst r.
Defined.

(** ** A pass beside another server *)

(** Before the sixth store call another server publishes [c]. *)
Definition rxOther (n : nat) (w : Memory * nat) : Memory * nat :=
  if (n =? 5)%nat then rxApply (publication rxSha rxIndex [] "c" "work" 0) w else w.

Lemma rxOther_good n w : goodStore rxIndex w -> goodStore rxIndex (rxOther n w).
Proof.
  intros [Hok Hc]. unfold rxOther. destruct (n =? 5)%nat; [|done]. unfold rxApply. destruct (kvApply _ w) as [w' r] eqn:HE.
  destruct (kvApply_law _ _ _ _ Hok HE) as (H1 & H2). split; [done|]. cbn [fst]. destruct r as [[]|e|]; [|by destruct H2 as [_ ->]|by rewrite H2..].
  destruct H2 as (_ & _ & ->). by apply (publication_complete rxSha rxSha_length rxSep rxIndex rxRoot).
Qed.

Definition rxSharedWork (id : string) : ST (Memory * nat * nat) recError unit := fun w => ((w.1, w.2), Fail (RecText "busy")).

Lemma rxStart_good : goodStore rxIndex rxStart.
Proof.
  split; [apply rxStart_ok|]. intros id _ Hv Hw.
  assert (kv_db rxStart = specMutation kv_opts (MkMutation [] [MkEntry (recoveryRecordKey rxIndex "b") "work" 0] []
             [exactly (recBucket rxIndex "nowhere") [" b"%string; "dead"%string]; exactly (directory rxIndex) ["nowhere"%string]] [] [] [])
            (specMutation kv_opts (publication rxSha rxIndex [] "a" "work" 0) ∅)) as HM by (vm_compute; reflexivity).
  assert (id = "a"%string \/ id = "b"%string) as Hid.
  { revert Hw. rewrite HM. unfold RecoverySafe.hasWork. destruct (decide (id = "b"%string)) as [->|Hb]; [by right|]. destruct (decide (id = "a"%string)) as [->|Ha]; [by left|]. intros Hw. exfalso. revert Hw.
    unfold specMutation, publication, phases, Recovery_Add. cbn [mut_Entries mut_DeleteKeys mut_AddMembers mut_RemoveMembers mut_AddOrderedMembers mut_RemoveOrderedMembers foldl fmap list_fmap app].
    rewrite !specGroup_other by first [apply (work_dir rxSep rxIndex rxRoot) | by apply (work_bucket rxSep rxIndex rxRoot)]. cbn [entry_Key entry_Value entry_Deadline].
    assert (forall x, trimSpace x = x -> id <> x -> encK kv_opts (recoveryRecordKey rxIndex x) <> encK kv_opts (recoveryRecordKey rxIndex id)) as Hne.
    { intros x Hx Hn HE. apply (work_key_inj rxSep rxIndex rxRoot) in HE; [by destruct Hn|done|apply Hv]. }
    rewrite lookup_insert_ne by (by apply Hne; [vm_compute|]). rewrite !specGroup_other by first [apply (work_dir rxSep rxIndex rxRoot) | by apply (work_bucket rxSep rxIndex rxRoot)].
    rewrite lookup_insert_ne by (by apply Hne; [vm_compute|]). rewrite lookup_empty. by intros [? ?]. }
  destruct Hid as [-> | ->].
  - exists "61"%string, "a"%string. split_and!; [split; [done|by left]|by vm_compute|by vm_compute].
  - exists "nowhere"%string, " b"%string. split_and!; [split; [done|right; by vm_compute]|by vm_compute|by vm_compute].
Qed.

Definition rxShared : (Memory * nat * nat * list string) * Go recError unit :=
  Reconcile (KO := logOps (H := sharedOps rxOther)) (SO := logSetOps (H := sharedSetOps rxOther)) (CO := logCtxOps (H := sharedCtxOps rxOther))
    rxSha rxIndex (logged rxSharedWork) (rxStart, 0%nat, []).

(** All three are attempted; the attempts fail, and the work stays in the index. *)
Lemma Reconcile_safe_witness :
  rxShared.1.2 = ["a"%string; "b"%string; "c"%string] /\ rxShared.2 = Fail (RecFailed 3 (RecText "busy")) /\ goodStore rxIndex rxShared.1.1.1 /\ NoDup rxShared.1.2.
Proof.
  split; [vm_compute; reflexivity|]. split; [vm_compute; reflexivity|].
  assert (forall id w w' r, goodStore rxIndex w.1 -> rxSharedWork id w = (w', r) -> goodStore rxIndex w'.1 /\ r <> Panic) as Hwork by (intros id w w' r Hg [= <- <-]; by split).
  destruct (Reconcile_safe rxSha rxSha_length rxSep rxIndex rxRoot rxOther rxOther_good rxSharedWork Hwork (rxStart, 0%nat) rxShared.1.1 rxShared.1.2 rxShared.2 rxStart_good) as (H1 & H2 & _).
  - unfold rxShared. by destruct (Reconcile _ _ _ _) as [[w' log] r].
  - split; [exact H1|exact H2].
Defined.
