(* ===== verification/KVClient.v ===== *)
(** * kv: batched reads and conditional writes as clients see them

    [BatchGet], [CreateIfAbsent] of one key and [CompareAndMutate] of one key: an
    interface with laws for each, and [Memory] keeps them. *)

From stdpp Require Import gmap strings list.
From S2P Require Import Prelude GoStrings KVKey KVMemory KVSpec KVProps KVIface.

Open Scope Z_scope.

(** * kv: reading many keys at once, as clients see it

    [Store.BatchGet] answers every key in its place.  A key that holds a collection is
    reported as not found.  [Memory] keeps the promise whatever the order in which its
    workers read. *)

Class KVBatchOps (W : Type) := { kvBatchGet : list Key -> ST W kvError (list GetResult) }.

Definition batchAnswer (opts : option Options) (M : gmap string aval) (k : Key) (g : GetResult) : Prop :=
  match gr_Err g with
  | None => exists d, M !! encK opts k = Some (ARec (gr_Value g) d)
  | Some ErrNotFound => forall v d, M !! encK opts k <> Some (ARec v d)
  | Some _ => True
  end.

Class KVBatchLaws (W : Type) `{KVLaws W, !KVBatchOps W} := {
  kvBatchGet_law w ks w' r :
    kv_ok w -> Forall (cleanKey kv_opts) ks -> kvBatchGet ks w = (w', r) ->
    kv_ok w' /\ kv_db w' = kv_db w /\ exists l, r = Ret l /\ Forall2 (batchAnswer kv_opts (kv_db w)) ks l
}.

(** ** The in-memory store *)
Section memory.
Context (at_ : Time) (ctxs : nat -> nat -> option kvError) (opts : option Options) (schedule : nat -> nat -> list nat).

Definition memoryBatchOps : KVBatchOps (Memory * nat) := {|
  kvBatchGet ks := fun w =>
    let '(m', l) := Memory_BatchGet (ctxs w.2) (fun _ => callEnv at_ ctxs w.2) (schedule w.2 (length ks)) ks w.1 in ((m', S w.2), Ret l)
|}.

Context (Hctx : forall n i, ctxs n i <> Some ErrNotFound) (Htype : forall n i, ctxs n i <> Some ErrWrongType) (Hschedule : forall n k, schedule n k ≡ₚ seq 0 k).

Lemma BatchGet_state n ks idx m results :
  let m' := (foldl (batchGetStep Memory_Get (ctxs n) (fun _ => callEnv at_ ctxs n) ks) (m, results) idx).1 in
  wfMemory m -> wfMemory m' /\ mem_opts m' = mem_opts m /\ view at_ (mem_data m') = view at_ (mem_data m).
Proof using Hctx.
  cbv zeta. revert m results. induction idx as [|i idx IH]; intros m results Hwf; [done|]. cbn [foldl].
  assert (exists m1 results1, batchGetStep Memory_Get (ctxs n) (fun _ => callEnv at_ ctxs n) ks (m, results) i = (m1, results1) /\ wfMemory m1 /\ mem_opts m1 = mem_opts m /\ view at_ (mem_data m1) = view at_ (mem_data m)) as (m1 & r1 & -> & H1 & H2 & H3); [|rewrite <-H2, <-H3; by apply IH].
  unfold batchGetStep. destruct (ks !! i) as [k|]; [|by eexists _, _]. destruct (ctxs n i); [by eexists _, _|]. destruct (Memory_Get _ _ _) as [m1 r] eqn:E.
  destruct (Get_db at_ ctxs n k m m1 r Hwf (Hctx n) E) as (H1 & H2 & H3 & _). by eexists _, _.
Qed.

Lemma batchResult_answer n k m i :
  wfMemory m -> cleanKey (mem_opts m) k ->
  batchAnswer (mem_opts m) (view at_ (mem_data m)) k (batchResult (ctxs n) (Memory_Get (callEnv at_ ctxs n) k m).2 i).
Proof using Hctx Htype.
  intros Hwf Hk. unfold batchResult. destruct (ctxs n i) as [e|] eqn:Ec; [unfold batchAnswer; cbn; destruct e; try done; by destruct (Hctx n i)|].
  destruct (Memory_Get _ _ _) as [m1 r] eqn:E. destruct (Get_db at_ ctxs n k m m1 r Hwf (Hctx n) E) as (_ & _ & _ & Hr). cbn [snd].
  destruct r as [v|e|]; [done| |done]. unfold batchAnswer. destruct e; try done; cbn.
  - intros v d. by rewrite Hr.
  - intros v d. revert E. rewrite Get_eq. unfold checkCtx. cbn. destruct (ctxs n 0%nat) as [e|] eqn:E0; [intros [= _ ->]; by destruct (Htype n 0%nat)|].
    destruct (encodeKey (mem_opts m) k) as [key|err|] eqn:Ek; [|by apply encodeKey_not_Fail in Ek|done]. apply encodeKey_Ret in Ek as [_ ->]. fold (encK (mem_opts m) k). rewrite lookup_view.
    destruct (mem_data m !! encK (mem_opts m) k) as [entry|]; [|done]. destruct (expired entry at_); [done|]. unfold absEntry. by destruct (me_members entry).
Qed.

Definition memoryBatchLaws : @KVBatchLaws (Memory * nat) (memoryOps at_ ctxs) (memoryLaws at_ ctxs opts Hctx) memoryBatchOps.
Proof using Htype Hschedule.
  refine (@Build_KVBatchLaws _ _ _ _ _). intros [m n] ks w' r [Hwf Ho] Hks E. cbn [fst snd] in *. cbn in E, Ho. unfold Memory_BatchGet in E.
  destruct (batchGet _ _ _ _ _ _) as [m1 l] eqn:E1. injection E as <- <-.
  destruct (BatchGet_state n ks (schedule n (length ks)) m (replicate (length ks) (MkGetResult EmptyString None)) Hwf) as (H1 & H2 & H3).
  change (foldl _ _ _) with (batchGet Memory_Get (ctxs n) (fun _ => callEnv at_ ctxs n) (schedule n (length ks)) ks m) in H1, H2, H3. rewrite E1 in H1, H2, H3.
  split; [split; [done|cbn in *; congruence]|]. split; [done|]. exists l. split; [done|].
  destruct (BatchGet_schedule_independent (ctxs n) (fun _ => callEnv at_ ctxs n) (schedule n (length ks)) ks m) as [HL HR].
  - cbn in Hks. by rewrite Ho.
  - done.
  - clear. generalize (schedule n (length ks)). intros sc. induction sc as [|x sc IH]; constructor; [done|]. apply Forall_forall. cbn. lia.
  - unfold Memory_BatchGet in HL, HR. rewrite E1 in HL, HR. cbn in HL, HR. apply Forall2_same_length_lookup. split; [done|]. intros i k g Hk Hg.
    specialize (HR i k Hk). rewrite Hg in HR. injection HR as ->. cbn. rewrite <-Ho. apply batchResult_answer; [done|]. rewrite Ho. by eapply Forall_lookup_1.
Defined.
End memory.

(** * kv: conditional creation and replacement as clients see them

    [kv.CreateIfAbsent] of one key and [kv.CompareAndMutate] of one key, atomic on the
    store's contents.  [Memory] keeps both promises. *)

(** [kvCreateIfAbsent] answers with the existing value and whether it created the key. *)
Class KVCasOps (W : Type) := {
  kvCreateIfAbsent : Entry -> ST W kvError (string * bool);
  kvCompareAndMutate : Key -> string -> list Entry -> ST W kvError bool
}.

(** The bytes that a conditional operation finds. *)
Definition bytesAt (a : aval) : string := match a with ARec v _ => v | ASet _ _ => EmptyString end.

Definition setEntries (opts : option Options) (entries : list Entry) (M : gmap string aval) : gmap string aval :=
  foldl (fun M en => <[encK opts (entry_Key en) := ARec (entry_Value en) (entry_Deadline en)]> M) M entries.

Class KVCasLaws (W : Type) `{KVLaws W, !KVCasOps W} := {
  kvCreateIfAbsent_law w guard w' r :
    kv_ok w -> kvCreateIfAbsent guard w = (w', r) ->
    kv_ok w' /\
    match r with
    | Ret (_, true) => kv_db w !! encK kv_opts (entry_Key guard) = None /\ kv_db w' = setEntries kv_opts [guard] (kv_db w)
    | Ret (v, false) => (exists a, kv_db w !! encK kv_opts (entry_Key guard) = Some a /\ v = bytesAt a) /\ kv_db w' = kv_db w
    | Fail _ => kv_db w' = kv_db w
    | Panic => ~ cleanKey kv_opts (entry_Key guard)
    end;
  kvCompareAndMutate_law w guard expected entries w' r :
    kv_ok w -> kvCompareAndMutate guard expected entries w = (w', r) ->
    kv_ok w' /\
    let matches := exists a, kv_db w !! encK kv_opts guard = Some a /\ bytesAt a = expected in
    match r with
    | Ret true => matches /\ kv_db w' = setEntries kv_opts entries (kv_db w)
    | Ret false => ~ matches /\ kv_db w' = kv_db w
    | Fail _ => kv_db w' = kv_db w
    | Panic => ~ Forall (cleanKey kv_opts) (guard :: map entry_Key entries)
    end
}.

(** ** The in-memory store *)
Section memory.
Context (at_ : Time) (ctxs : nat -> nat -> option kvError) (opts : option Options).

Definition memoryCasOps : KVCasOps (Memory * nat) := {|
  kvCreateIfAbsent guard := call at_ ctxs (fun e => Memory_CreateIfAbsent e guard []);
  kvCompareAndMutate guard expected entries := call at_ ctxs (fun e => Memory_CompareAndMutate e guard expected entries [])
|}.

(** ** No panics on clean keys *)
Lemma bind_no_panic {A B} (m : ST Memory kvError A) (f : A -> ST Memory kvError B) s :
  (m s).2 <> Panic -> (forall s' a, m s = (s', Ret a) -> (f a s').2 <> Panic) -> ((m ≫= f) s).2 <> Panic.
Proof. unfold mbind, ST_bind. destruct (m s) as [s' [a|e|]]; cbn; [intros _ Hf; by apply (Hf s' a)|done|done]. Qed.

Lemma lift_no_panic {A} (g : Go kvError A) (s : Memory) : g <> Panic -> (lift g s).2 <> Panic.
Proof. done. Qed.

Lemma go_no_panic {A B} (g : Go kvError A) (f : A -> Go kvError B) : g <> Panic -> (forall a, f a <> Panic) -> (g ≫= f) <> Panic.
Proof. destruct g; cbn; auto. Qed.

Lemma encode_no_panic o k : cleanKey o k -> encodeKey o k <> Panic.
Proof. intros Hk. by rewrite encodeKey_clean. Qed.

Lemma check_no_panic bad (e : kvError) : check bad e <> Panic.
Proof. unfold check. by destruct bad. Qed.

Lemma mapGo_no_panic {A B} (f : A -> Go kvError B) xs : (forall x, x ∈ xs -> f x <> Panic) -> mapGo f xs <> Panic.
Proof.
  induction xs as [|x xs IH]; intros Hf; cbn; [done|]. apply go_no_panic; [apply Hf; by left|]. intros y. apply go_no_panic; [apply IH; intros z Hz; apply Hf; by right|done].
Qed.

Lemma CreateIfAbsent_panic e guard m : cleanKey (mem_opts m) (entry_Key guard) -> (Memory_CreateIfAbsent e guard [] m).2 <> Panic.
Proof.
  intros Hc. unfold Memory_CreateIfAbsent. apply bind_no_panic; [|done]. unfold Memory_CreateIfAllAbsent.
  apply bind_no_panic; [apply lift_no_panic, checkCtx_not_Panic|]. intros s1 a1 [= <- _]. apply bind_no_panic; [apply check_no_panic|]. intros s2 a2 [= <- _].
  apply bind_no_panic; [done|]. intros s3 m0 [= <- <-]. apply bind_no_panic; [apply lift_no_panic, checkCtx_not_Panic|]. intros s4 a4 [= <- _].
  apply bind_no_panic; [apply lift_no_panic; cbn; apply go_no_panic; [by apply encode_no_panic|]; intros k; by destruct (mem_data m !! k) as [en|]; [destruct (expired en _)|]|].
  intros s5 [c|] [= <- _]; [done|]. apply bind_no_panic; [apply lift_no_panic, mapGo_no_panic|done].
  cbn. intros x ->%list_elem_of_singleton. apply go_no_panic; [apply check_no_panic|]. intros _. by apply go_no_panic; [apply encode_no_panic|].
Qed.

Lemma CompareAndMutate_panic e guard expected entries m : Forall (cleanKey (mem_opts m)) (guard :: map entry_Key entries) -> (Memory_CompareAndMutate e guard expected entries [] m).2 <> Panic.
Proof.
  intros [Hg Hes]%Forall_cons. rewrite Forall_map, Forall_forall in Hes. unfold Memory_CompareAndMutate.
  apply bind_no_panic; [apply lift_no_panic, checkCtx_not_Panic|]. intros s1 a1 [= <- _]. apply bind_no_panic; [done|]. intros s3 m0 [= <- <-].
  apply bind_no_panic; [apply lift_no_panic, mapGo_no_panic; intros x Hx; by apply go_no_panic; [apply encode_no_panic, Hes|]|]. intros s4 prepared [= <- _].
  apply bind_no_panic; [done|]. intros s5 dels [= <- _]. apply bind_no_panic; [by apply lift_no_panic, encode_no_panic|]. intros s6 gk [= <- _].
  apply bind_no_panic; [apply lift_no_panic, checkCtx_not_Panic|]. intros s7 a7 [= <- _].
  destruct (mem_data m !! gk) as [cur|]; [|done]. destruct (expired cur _ || _); [done|]. apply bind_no_panic; [|done].
  apply lift_no_panic. unfold each. induction prepared as [|p ps IH]; cbn; [done|]. apply go_no_panic; [apply check_no_panic|done].
Qed.

(** The options of a store never change. *)
Lemma CreateIfAllAbsent_opts e gs es m : mem_opts (Memory_CreateIfAllAbsent e gs es m).1 = mem_opts m.
Proof. unfold Memory_CreateIfAllAbsent, checkST, mbind, ST_bind, getST, lift, putST, mret, ST_ret. cbn. call_cases; by simplify_eq. Qed.
Lemma CompareAndMutate_opts e g x es ks m : mem_opts (Memory_CompareAndMutate e g x es ks m).1 = mem_opts m.
Proof. unfold Memory_CompareAndMutate, mbind, ST_bind, getST, lift, putST, mret, ST_ret. cbn. call_cases; by simplify_eq. Qed.

Definition memoryCasLaws (Hctx : forall n i, ctxs n i <> Some ErrNotFound) : @KVCasLaws (Memory * nat) (memoryOps at_ ctxs) (memoryLaws at_ ctxs opts Hctx) memoryCasOps.
Proof.
  refine (@Build_KVCasLaws _ _ _ _ _ _).
  - intros [m n] guard w' r [Hwf Ho] E. cbn in E, Hwf, Ho. unfold call in E. cbn in E. destruct (Memory_CreateIfAbsent (callEnv at_ ctxs n) guard [] m) as [m1 r1] eqn:E1. injection E as <- <-.
    pose proof (CreateIfAbsent_panic (callEnv at_ ctxs n) guard m) as HP. unfold Memory_CreateIfAbsent, mbind, ST_bind in E1, HP.
    pose proof (CreateIfAllAbsent_correct (callEnv at_ ctxs n) [guard] [] m Hwf) as HC. pose proof (CreateIfAllAbsent_wf (callEnv at_ ctxs n) [guard] [] m Hwf) as Hwf'. pose proof (CreateIfAllAbsent_opts (callEnv at_ ctxs n) [guard] [] m) as Ho'.
    destruct (Memory_CreateIfAllAbsent _ _ _ m) as [m2 [[[k v]|[]]|e|]] eqn:E2; injection E1 as <- <-; cbn in HC, HP, Hwf', Ho'; rewrite Ho in *.
    + destruct HC as (-> & pre & g & post & a & Hl & -> & _ & Ha & ->). assert (g = guard) as -> by (destruct pre as [|? [|]]; naive_solver). split; [by split|]. cbn. split; [|done]. by exists a.
    + destruct HC as (_ & [Ha _]%Forall_cons & HV). split; [by split|]. done.
    + subst m2. by split.
    + subst m2. split; [by split|]. intros Hc. by apply HP.
  - intros [m n] guard expected entries w' r [Hwf Ho] E. cbn in E, Hwf, Ho. unfold call in E. cbn in E. destruct (Memory_CompareAndMutate (callEnv at_ ctxs n) guard expected entries [] m) as [m1 r1] eqn:E1. injection E as <- <-.
    pose proof (CompareAndMutate_panic (callEnv at_ ctxs n) guard expected entries m) as HP.
    pose proof (CompareAndMutate_correct (callEnv at_ ctxs n) guard expected entries [] m Hwf) as HC. pose proof (CompareAndMutate_wf (callEnv at_ ctxs n) guard expected entries [] m Hwf) as Hwf'. pose proof (CompareAndMutate_opts (callEnv at_ ctxs n) guard expected entries [] m) as Ho'.
    rewrite E1 in HC, HP, Hwf', Ho'. cbn in HC, HP, Hwf', Ho'. rewrite Ho in *. split; [by split|]. cbn.
    assert (match view at_ (mem_data m) !! encK opts guard with Some (ARec v _) => v = expected | Some (ASet _ _) => expected = EmptyString | None => False end <->
      exists a, view at_ (mem_data m) !! encK opts guard = Some a /\ bytesAt a = expected) as Hiff.
    { destruct (view at_ (mem_data m) !! encK opts guard) as [[v d|o S]|]; cbn; split; try naive_solver; intros H; eexists; split; try done. }
    destruct r1 as [[]|e|].
    + rewrite <-Hiff. done.
    + rewrite <-Hiff. destruct HC as [? ->]. done.
    + by subst m1.
    + intros Hc. by apply HP.
Defined.
End memory.
