(* ===== verification/Presence.v ===== *)
(** * peerpresence: connection presence shared through the Peer store

    [src/pkgs/gizclaw/services/runtime/peerpresence/presence.go] and [transitions.go].
    A server writes the presence of its connections into a store that all servers share.
    Each accepted connection has a token; the record of the peer's owner decides whose
    transitions count.

    A [Service] is its two constants [server] and [generation]; a [Publisher] its peer and
    token; the mutable part of both that the writer of a peer uses is [writerState].  The
    way of a mutation through the queue of [applyTransition] is the class [TransitionOps];
    [commitTransitions] is what the other end of the queue does with a batch.  JSON is the
    class [PresenceCodec].  Deadlines of contexts enter as the errors of the calls made
    under them, or as arguments. *)

From stdpp Require Import gmap strings list.
From S2P Require Import Prelude GoStrings GoText KVKey KVMemory KVIface.

Open Scope Z_scope.

Definition leaseDuration : Z := 30 * 1000000000.

Record presenceSnapshot := MkSnapshot { sn_Online : bool; sn_LastSeenAt : Time; sn_WorkspaceName : string }.
Record presenceRecord := MkPresence { pr_Snapshot : presenceSnapshot; pr_Server : string; pr_Generation : string }.
Record serverLease := MkLease { le_Generation : string; le_ExpiresAt : Time }.

#[export] Instance presenceSnapshot_eq_dec : EqDecision presenceSnapshot.
Proof. solve_decision. Defined.

Inductive presError := PresStore (e : kvError) | PresCtx | PresText (msg : string) | PresRunning.

Class PresenceCodec := {
  encodePresence : presenceRecord -> string;
  decodePresence : string -> option presenceRecord;
  encodeLease : serverLease -> string;
  decodeLease : string -> option serverLease
}.

Record ownership := MkOwnership { ow_expected : option string; ow_initialized : bool; ow_claimed : bool; ow_fenced : bool }.
Definition freshOwnership : ownership := MkOwnership None false false false.

Record presenceService := MkService { ps_server : string; ps_generation : string }.
Record presencePublisher := MkPublisher { pp_peer : string; pp_token : string }.

Definition generationKey (server : string) : Key := ["servers"%string; server; "generation"%string].
Definition leaseKey (server : string) : Key := ["servers"%string; server; "lease"%string].
Definition presencePeerKey (peer : string) : Key := ["peers"%string; peer].
Definition presenceOwnerKey (peer : string) : Key := ["owners"%string; peer].

Definition plainMutation (conditions : list Condition) (entries : list Entry) (deletes : list Key) : Mutation :=
  MkMutation conditions entries deletes [] [] [] [].

Class TransitionOps (W : Type) := { applyTransition : Mutation -> ST W presError bool }.

(** ** The server's lease *)
Section service.
Context {W : Type} {KO : KVOps W} {PC : PresenceCodec} (s : presenceService).

Definition kvP {A} (m : ST W kvError A) : ST W presError A := mapErrST PresStore m.

Definition generationGuard : Condition := MkCondition (generationKey (ps_server s)) (Some (ps_generation s)).

Definition leaseEntry (now readDelay : Z) : Entry :=
  let expires := now + (leaseDuration + readDelay) in
  MkEntry (leaseKey (ps_server s)) (encodeLease (MkLease (ps_generation s) expires)) expires.

(** The storage write of [Start]: [BatchSet] stores its entries at once. *)
Definition startWrite (now readDelay : Z) : ST W presError unit :=
  _ ← kvP (kvApply (plainMutation [] [MkEntry (generationKey (ps_server s)) (ps_generation s) 0; leaseEntry now readDelay] [])); mret tt.

(** [renewLease] with the commit slot ([false]: the context ended first). *)
Definition renewLease (slot : bool) (now readDelay : Z) : ST W presError bool :=
  if slot then kvP (kvApply (plainMutation [generationGuard] [leaseEntry now readDelay] [])) else failST PresCtx.

(** One tick of [renew]: whether it stops the service. *)
Definition renewTick (slot : bool) (now readDelay : Z) : ST W presError bool :=
  r ← tryST (renewLease slot now readDelay); mret (match r with inr false => true | _ => false end).

(** The storage write of [Close]. *)
Definition closeWrite : ST W presError unit :=
  _ ← kvP (kvApply (plainMutation [generationGuard] [] [leaseKey (ps_server s)])); mret tt.
End service.

(** ** One transition *)
Record writerState (W : Type) := MkWriter { wr_store : W; wr_own : ownership; wr_cancelled : bool }.
Arguments MkWriter {W}.
Arguments wr_store {W}.
Arguments wr_own {W}.
Arguments wr_cancelled {W}.

Section writer.
Context {W : Type} {KO : KVOps W} {TO : TransitionOps W} {PC : PresenceCodec} (s : presenceService) (publisher : presencePublisher).

Definition onStore {A} (m : ST W presError A) : ST (writerState W) presError A := fun x =>
  let '(w, r) := m (wr_store x) in (MkWriter w (wr_own x) (wr_cancelled x), r).
Definition getOwn : ST (writerState W) presError ownership := fun x => (x, Ret (wr_own x)).
Definition setOwn (own : ownership) : ST (writerState W) presError unit := fun x => (MkWriter (wr_store x) own (wr_cancelled x), Ret tt).
(** [s.cancel()]. *)
Definition cancelService : ST (writerState W) presError unit := fun x => (MkWriter (wr_store x) (wr_own x) true, Ret tt).

Definition ownerToken : string := ps_generation s +:+ "/" +:+ pp_token publisher.

Definition readOwner : ST W presError (option string) :=
  r ← tryST (kvP (kvGet (presenceOwnerKey (pp_peer publisher))));
  match r with
  | inr value => mret (Some value)
  | inl (PresStore ErrNotFound) => mret None
  | inl e => failST e
  end.

(** [bytes.Equal] with a slice that may be nil. *)
Definition isToken (current : option string) : bool := bool_decide (default EmptyString current = ownerToken).

Definition claimOwn (own : ownership) : ownership := MkOwnership (Some ownerToken) (ow_initialized own) true (ow_fenced own).

Definition transitionMutation (own : ownership) (value : string) : Mutation :=
  plainMutation [generationGuard s; MkCondition (presenceOwnerKey (pp_peer publisher)) (ow_expected own)]
    (MkEntry (presencePeerKey (pp_peer publisher)) value 0 ::
     if ow_claimed own then [] else [MkEntry (presenceOwnerKey (pp_peer publisher)) ownerToken 0]) [].

(** After a mutation that did not match: the server was replaced, or the connection, or
    an earlier attempt has been committed and [retry] goes on with the token. *)
Definition afterMismatch (own : ownership) (retry : ST (writerState W) presError unit) : ST (writerState W) presError unit :=
  r ← tryST (onStore (kvP (kvGet (generationKey (ps_server s)))));
  match r with
  | inl (PresStore ErrNotFound) => cancelService
  | inl e => failST e
  | inr generation =>
      if negb (bool_decide (generation = ps_generation s)) then cancelService
      else
        current ← onStore readOwner;
        if negb (isToken current) then setOwn (MkOwnership (ow_expected own) (ow_initialized own) (ow_claimed own) true)
        else _ ← setOwn (claimOwn own); retry
  end.

(** The loop of [writeTransition]; [PresRunning] after [n] rounds. *)
Fixpoint transitionLoop (n : nat) (value : string) : ST (writerState W) presError unit :=
  match n with
  | O => failST PresRunning
  | S n =>
      own ← getOwn;
      matched ← onStore (applyTransition (transitionMutation own value));
      if matched : bool then setOwn (claimOwn own) else afterMismatch own (transitionLoop n value)
  end.

(** Whether the transition is to be written; a disconnect of a connection that never
    claimed the peer is not. *)
Definition prepareDisconnect (snapshot : presenceSnapshot) : ST (writerState W) presError bool :=
  own ← getOwn;
  if sn_Online snapshot || ow_claimed own then mret true
  else if negb (ow_initialized own) then mret false
  else
    current ← onStore readOwner;
    if negb (isToken current) then mret false else _ ← setOwn (claimOwn own); mret true.

Definition prepareClaim : ST (writerState W) presError unit :=
  own ← getOwn;
  if ow_initialized own then mret tt
  else expected ← onStore readOwner; setOwn (MkOwnership expected true (ow_claimed own) (ow_fenced own)).

Definition writeTransition (n : nat) (snapshot : presenceSnapshot) : ST (writerState W) presError unit :=
  own ← getOwn;
  if ow_fenced own then mret tt
  else
    go ← prepareDisconnect snapshot;
    if negb go then mret tt
    else
      _ ← prepareClaim;
      transitionLoop n (encodePresence (MkPresence snapshot (ps_server s) (ps_generation s))).
End writer.
