(* ===== verification/PresenceFence.v ===== *)
(** * peerpresence: a replaced connection never writes again

    The writer of one connection among others.  The arena is the store together with two
    records of what happened: [ar_hist], the owners the peer has had, and [ar_fly], the
    mutations of this writer whose outcome it did not learn, which may still be committed
    at any later moment.  Others ([outside]) may take the peer over with tokens of their
    own, replace the server's generation and change anything else; a token is only ever
    written by its own connection.

    Theorem: in every run each connection owns the peer at most once, without
    interruption; a transition that reports success was written while the connection
    owned the peer, or the connection is fenced, its server replaced, or it never had the
    peer; and two rounds of the loop are enough. *)

From stdpp Require Import gmap strings list.
From S2P Require Import Prelude Triple GoStrings GoText KVKey KVMemory KVSpec KVProps KVIface KVSets Presence.

Open Scope Z_scope.

Lemma NoDup_snoc {A} (l : list A) x : NoDup (l ++ [x]) <-> NoDup l /\ x ∉ l.
Proof. rewrite NoDup_app. split; [intros (H1 & H2 & _); split; [done|]; intros Hx; apply (H2 x Hx); by left|]. intros [H1 H2]. split_and!; [done|intros y Hy ->%list_elem_of_singleton; done|apply NoDup_singleton]. Qed.

(** [b] comes right after [a]. *)
Definition follows {A} (a b : A) (l : list A) : Prop := exists l1 l2, l = l1 ++ a :: b :: l2.

Lemma follows_app {A} (a b : A) l l' : follows a b l -> follows a b (l ++ l').
Proof. intros (l1 & l2 & ->). exists l1, (l2 ++ l'). by rewrite <-app_assoc. Qed.

Lemma follows_snoc {A} (a b : A) l : last l = Some a -> follows a b (l ++ [b]).
Proof. intros [l1 ->]%last_Some. exists l1, []. by rewrite <-app_assoc. Qed.

Lemma follows_not_last {A} (a b : A) l : NoDup l -> follows a b l -> last l <> Some a.
Proof.
  intros HN (l1 & l2 & ->) HL. rewrite last_app, !last_cons in HL. apply NoDup_app in HN as (_ & _ & HN). apply NoDup_cons in HN as [Ha HN].
  assert (a ∈ b :: l2) as Hin; [|done]. destruct (last l2) as [y|] eqn:Hl; injection HL as ->; [right; by apply last_Some_elem_of|by left].
Qed.

Section fence.
Context {W : Type} {KO : KVOps W} {KL : KVLaws W} {SO : KVSetOps W} {SL : KVSetLaws W} {PC : PresenceCodec}.
Context (Hsep : sep kv_opts = ":"%char) (s : presenceService) (publisher : presencePublisher).
Context (Hserver : containsByte ":" (ps_server s) = false) (Hpeer : containsByte ":" (pp_peer publisher) = false).
Implicit Types (M : gmap string aval) (h : list (option string)) (own : ownership) (fly : list Mutation) (mu : Mutation).

Local Notation E := (encK kv_opts).
Local Notation T := (ownerToken s publisher).
Local Notation genK := (generationKey (ps_server s)).
Local Notation peerK := (presencePeerKey (pp_peer publisher)).
Local Notation ownK := (presenceOwnerKey (pp_peer publisher)).

(** ** Keys *)
Lemma keys_clean : cleanKey kv_opts genK /\ cleanKey kv_opts peerK /\ cleanKey kv_opts ownK.
Proof. unfold cleanKey. rewrite Hsep. by repeat constructor. Qed.

Lemma keys_differ : E ownK <> E genK /\ E ownK <> E peerK /\ E peerK <> E genK.
Proof.
  destruct keys_clean as (H1 & H2 & H3). split_and!; intros HE; by apply (encK_inj (opts := kv_opts)) in HE.
Qed.

(** ** The arena *)
Definition ownerOf M : option string := match M !! E ownK with Some (ARec v _) => Some v | _ => None end.
Definition ownerTyped M : Prop := match M !! E ownK with Some (ASet _ _) => False | _ => True end.
Definition isCurrent M : Prop := exists d, M !! E genK = Some (ARec (ps_generation s) d).
Definition histNext h (o : option string) : list (option string) := if bool_decide (last h = Some o) then h else h ++ [o].

Inductive outside fly : gmap string aval * list (option string) -> gmap string aval * list (option string) -> Prop :=
  | out_keep M h M' : ownerTyped M' -> ownerOf M' = ownerOf M -> (isCurrent M' -> isCurrent M) -> outside fly (M, h) (M', h)
  | out_claim M h M' q : ownerTyped M' -> ownerOf M' = Some q -> Some q ∉ h -> q <> T -> (isCurrent M' -> isCurrent M) -> outside fly (M, h) (M', h ++ [Some q])
  | out_late M h mu : mu ∈ fly -> Forall (specCondition kv_opts M) (mut_Conditions mu) ->
      outside fly (M, h) (specMutation kv_opts mu M, histNext h (ownerOf (specMutation kv_opts mu M))).

Record arena := MkArena { ar_store : W; ar_hist : list (option string); ar_fly : list Mutation; ar_calls : nat }.

(** [env] is what happens outside before a call; [lost] whether the answer to a mutation
    is lost, with the error the writer sees instead. *)
Context (env : nat -> arena -> W * list (option string)) (lost : nat -> option presError) (Hlost : forall n, lost n <> Some PresRunning).

Definition outsideFirst (x : arena) : arena := let '(w, h) := env (ar_calls x) x in MkArena w h (ar_fly x) (S (ar_calls x)).

Definition arenaCall {A} (m : ST W kvError A) : ST arena kvError A := fun x =>
  let x := outsideFirst x in let '(w, r) := m (ar_store x) in (MkArena w (ar_hist x) (ar_fly x) (ar_calls x), r).

Definition arenaApply (mu : Mutation) : ST arena presError bool := fun x =>
  let x := outsideFirst x in
  let unknown w e := (MkArena w (ar_hist x) (ar_fly x ++ [mu]) (ar_calls x), Fail e) in
  match lost (ar_calls x) with
  | Some e => unknown (ar_store x) e
  | None =>
      match kvApply mu (ar_store x) with
      | (w, Ret b) => (MkArena w (if b then histNext (ar_hist x) (ownerOf (kv_db w)) else ar_hist x) (ar_fly x) (ar_calls x), Ret b)
      | (w, Fail e) => unknown w (PresStore e)
      | (w, Panic) => (MkArena w (ar_hist x) (ar_fly x) (ar_calls x), Panic)
      end
  end.

#[local] Instance arenaOps : KVOps arena := {| kvGet k := arenaCall (kvGet k); kvApply mu := arenaCall (kvApply mu); kvRange k q := arenaCall (kvRange k q) |}.
#[local] Instance arenaTransitions : TransitionOps arena := {| applyTransition := arenaApply |}.

Definition storeOk (w : W) h : Prop := kv_ok w /\ ownerTyped (kv_db w) /\ last h = Some (ownerOf (kv_db w)) /\ NoDup h.
Context (Henv : forall n x, storeOk (ar_store x) (ar_hist x) ->
  kv_ok (env n x).1 /\ rtc (outside (ar_fly x)) (kv_db (ar_store x), ar_hist x) (kv_db (env n x).1, (env n x).2)).

(** ** What the writer knows

    [E0] is the owner that the writer found when it started. *)
Definition claimMu (e : option string) (value : string) : Mutation :=
  plainMutation [generationGuard s; MkCondition ownK e] [MkEntry peerK value 0; MkEntry ownK T 0] [].
Definition writeMu (value : string) : Mutation :=
  plainMutation [generationGuard s; MkCondition ownK (Some T)] [MkEntry peerK value 0] [].

Record history (E0 : option string) h fly : Prop := {
  hi_start : E0 ∈ h;
  hi_claim : Some T ∈ h -> follows E0 (Some T) h;
  hi_fly mu : mu ∈ fly -> (exists v, mu = claimMu E0 v) \/ (exists v, mu = writeMu v) /\ Some T ∈ h
}.

(** The connection is not the owner and never will be. *)
Definition replaced (E0 : option string) h : Prop := last h <> Some (Some T) /\ (Some T ∉ h -> last h <> Some E0).

Definition knows (E0 : option string) own h fly : Prop :=
  history E0 h fly /\
  (ow_initialized own = false -> ow_claimed own = false /\ Some T ∉ h /\ fly = []) /\
  (ow_initialized own = true -> ow_claimed own = false -> ow_expected own = E0) /\
  (ow_claimed own = true -> ow_expected own = Some T /\ Some T ∈ h) /\
  (ow_fenced own = true -> replaced E0 h).

Lemma claimMu_effect e v M :
  let M' := specMutation kv_opts (claimMu e v) M in
  ownerOf M' = Some T /\ ownerTyped M' /\ M' !! E peerK = Some (ARec v 0) /\ M' !! E genK = M !! E genK.
Proof.
  destruct keys_differ as (H1 & H2 & H3). change (specMutation kv_opts (claimMu e v) M) with (<[E ownK := ARec T 0]> (<[E peerK := ARec v 0]> M)). cbv zeta. unfold ownerOf, ownerTyped.
  rewrite !lookup_insert_eq. split_and!; [done|done|rewrite lookup_insert_ne by done; apply lookup_insert_eq|by rewrite !lookup_insert_ne].
Qed.

Lemma writeMu_effect v M :
  let M' := specMutation kv_opts (writeMu v) M in
  M' !! E ownK = M !! E ownK /\ M' !! E peerK = Some (ARec v 0) /\ M' !! E genK = M !! E genK.
Proof.
  destruct keys_differ as (H1 & H2 & H3). change (specMutation kv_opts (writeMu v) M) with (<[E peerK := ARec v 0]> M). cbv zeta.
  split_and!; [by rewrite lookup_insert_ne|apply lookup_insert_eq|by rewrite lookup_insert_ne].
Qed.

Lemma owner_condition M e : specCondition kv_opts M (MkCondition ownK e) -> ownerOf M = e.
Proof. unfold specCondition, ownerOf. cbn [cond_Expected cond_Key]. destruct e; [intros [d ->]|intros ->]; done. Qed.

Lemma owner_condition_iff M e : ownerTyped M -> ownerOf M = e -> specCondition kv_opts M (MkCondition ownK e).
Proof.
  unfold ownerTyped, specCondition, ownerOf. cbn [cond_Expected cond_Key]. destruct (M !! E ownK) as [[v d|]|]; [|done|]; intros _ <-; [by exists d|done].
Qed.

(** How the history can go on. *)
Record later (E0 : option string) fly h h' : Prop := {
  la_history : history E0 h' fly;
  la_prefix : h `prefix_of` h';
  la_none : fly = [] -> Some T ∉ h -> Some T ∉ h';
  la_gone : replaced E0 h -> replaced E0 h'
}.

Definition placed M h : Prop := ownerTyped M /\ last h = Some (ownerOf M) /\ NoDup h.

Lemma history_more E0 h fly q : history E0 h fly -> q <> Some T -> history E0 (h ++ [q]) fly.
Proof using Type.
  intros [H1 H2 H3] Hq. split; [apply elem_of_app; by left| |].
  - rewrite elem_of_app, list_elem_of_singleton. intros [?|?]; [by apply follows_app, H2|congruence].
  - intros mu [?|[? ?]]%H3; [by left|right; split; [done|apply elem_of_app; by left]].
Qed.

(** The claim of this connection. *)
Lemma claim_later E0 h fly : NoDup h -> history E0 h fly -> last h = Some E0 -> Some T ∉ h -> NoDup (h ++ [Some T]) /\ history E0 (h ++ [Some T]) fly /\ ~ replaced E0 h.
Proof using Type.
  intros HN [H1 H2 H3] HL HT. split_and!; [by apply NoDup_snoc|split; [apply elem_of_app; by left|intros _; by apply follows_snoc|intros mu [?|[? ?]]%H3; [by left|right; split; [done|apply elem_of_app; by left]]]|].
  intros [_ Hg]. by apply Hg.
Qed.

Lemma claim_fresh E0 h fly : NoDup h -> history E0 h fly -> last h = Some E0 -> Some T ∉ h.
Proof. intros HN HH HL HT. by apply (follows_not_last E0 (Some T) h HN (hi_claim _ _ _ HH HT)). Qed.

Lemma outside_step E0 fly M h M' h' : outside fly (M, h) (M', h') -> placed M h -> history E0 h fly -> placed M' h' /\ later E0 fly h h' /\ (isCurrent M' -> isCurrent M).
Proof.
  intros HO (Hty & HL & HN) HH. inversion HO as [M1 h1 M1' Ht Ho Hc|M1 h1 M1' q Ht Ho Hq HqT Hc|M1 h1 mu Hmu HC]; subst.
  - split_and!; [split_and!; [done|by rewrite Ho|done]|by split|done].
  - assert (Some q <> Some T) as HqT' by congruence. split_and!; [split_and!; [done|by rewrite last_snoc, Ho|by apply NoDup_snoc]| |done].
    split; [by apply history_more|by apply prefix_app_r|intros _ HT; by rewrite elem_of_app, list_elem_of_singleton; intros [?|?]|]. intros [Hg1 Hg2]. split; rewrite last_snoc; [congruence|]. intros HT [= HE]. apply Hq. rewrite HE. apply HH.
  - destruct (hi_fly _ _ _ HH mu Hmu) as [[v ->]|[[v ->] HT]].
    + destruct (claimMu_effect E0 v M) as (Ho & Ht & _ & Hg). cbn [plainMutation claimMu mut_Conditions] in HC. rewrite Forall_cons, Forall_singleton in HC. destruct HC as [_ HC%owner_condition].
      rewrite HC in HL. pose proof (claim_fresh E0 h fly HN HH HL) as HT. destruct (claim_later E0 h fly HN HH HL HT) as (HN' & HH' & Hng).
      rewrite Ho. unfold histNext. rewrite bool_decide_eq_false_2 by (intros HE; apply HT; by apply last_Some_elem_of).
      split_and!; [split_and!; [done|by rewrite last_snoc, Ho|done]|split; [done|by apply prefix_app_r|intros ->; by apply elem_of_nil in Hmu|by intros ?]|].
      unfold isCurrent. by rewrite Hg.
    + destruct (writeMu_effect v M) as (Ho & _ & Hg). assert (ownerOf (specMutation kv_opts (writeMu v) M) = ownerOf M) as Ho' by (unfold ownerOf; by rewrite Ho).
      rewrite Ho'. unfold histNext. rewrite bool_decide_eq_true_2 by done. split_and!; [split_and!; [by unfold ownerTyped; rewrite Ho|by rewrite Ho'|done]|by split|]. unfold isCurrent. by rewrite Hg.
Qed.

Lemma outside_steps E0 fly M h M' h' : rtc (outside fly) (M, h) (M', h') -> placed M h -> history E0 h fly -> placed M' h' /\ later E0 fly h h' /\ (isCurrent M' -> isCurrent M).
Proof.
  remember (M, h) as a eqn:Ha. remember (M', h') as b eqn:Hb. intros HR. revert M h Ha. induction HR as [a|a [M1 h1] b HS HR IH]; intros M h -> HP HH; subst; [injection Hb as <- <-; split_and!; [done|by split|done]|].
  destruct (outside_step E0 fly M h M1 h1 HS HP HH) as (HP1 & HL1 & HC1). destruct (IH eq_refl M1 h1 eq_refl HP1 (la_history _ _ _ _ HL1)) as (HP2 & HL2 & HC2).
  split_and!; [done| |auto]. destruct HL1, HL2. split; [done|by etrans|auto..].
Qed.

Lemma knows_later E0 own h h' fly : knows E0 own h fly -> later E0 fly h h' -> knows E0 own h' fly.
Proof.
  intros (HH & Hu & Hi & Hc & Hf) [H1 H2 H3 H4]. split_and!; [done|intros Ho; destruct (Hu Ho) as (? & ? & ->); auto|done|intros Ho; destruct (Hc Ho); split; [done|by eapply elem_of_prefix]|auto].
Qed.

(** ** Runs of the writer *)
Record facts := MkFacts { fa_db : gmap string aval; fa_hist : list (option string); fa_fly : list Mutation; fa_own : ownership; fa_cancelled : bool }.
Definition factsOf (x : writerState arena) : facts :=
  MkFacts (kv_db (ar_store (wr_store x))) (ar_hist (wr_store x)) (ar_fly (wr_store x)) (wr_own x) (wr_cancelled x).
Definition writerOk (x : writerState arena) : Prop := kv_ok (ar_store (wr_store x)).
Local Notation runs := (runs writerOk factsOf).
Implicit Types (d : facts).

Definition inv E0 d : Prop := placed (fa_db d) (fa_hist d) /\ knows E0 (fa_own d) (fa_hist d) (fa_fly d).

(** What happens outside, as the writer finds it later. *)
Record since E0 d d' : Prop := {
  si_own : fa_own d' = fa_own d;
  si_fly : fa_fly d' = fa_fly d;
  si_cancelled : fa_cancelled d' = fa_cancelled d;
  si_inv : inv E0 d';
  si_later : later E0 (fa_fly d) (fa_hist d) (fa_hist d');
  si_current : isCurrent (fa_db d') -> isCurrent (fa_db d)
}.

Lemma outside_since E0 d M h : inv E0 d -> rtc (outside (fa_fly d)) (fa_db d, fa_hist d) (M, h) -> since E0 d (MkFacts M h (fa_fly d) (fa_own d) (fa_cancelled d)).
Proof.
  intros [HP HK] HR. destruct (outside_steps E0 _ _ _ _ _ HR HP (proj1 HK)) as (HP' & HL & HC). split; [done..| |done|done]. split; [done|by eapply knows_later].
Qed.

Lemma first_since E0 x : writerOk x -> inv E0 (factsOf x) ->
  let y := outsideFirst (wr_store x) in kv_ok (ar_store y) /\ ar_fly y = ar_fly (wr_store x) /\ since E0 (factsOf x) (factsOf (MkWriter y (wr_own x) (wr_cancelled x))).
Proof.
  intros Hok HI. cbv zeta. unfold outsideFirst. destruct (Henv (ar_calls (wr_store x)) (wr_store x)) as [Hok' HR].
  { destruct HI as [(? & ? & ?) _]. by split_and!. }
  destruct (env _ _) as [w h]. split_and!; [done|done|]. by apply (outside_since E0 (factsOf x)).
Qed.

(** ** Reading *)
Definition getResult (k : Key) d (r : Go presError string) : Prop :=
  match r with
  | Ret v => exists t, fa_db d !! E k = Some (ARec v t)
  | Fail (PresStore ErrNotFound) => fa_db d !! E k = None
  | Fail e => e <> PresRunning
  | Panic => False
  end.

Lemma get_run E0 d k : inv E0 d -> cleanKey kv_opts k -> runs d (onStore (kvP (kvGet k))) (fun d' r => since E0 d d' /\ getResult k d' r).
Proof.
  intros HI Hk x x' r Hok -> HE. destruct (first_since E0 x Hok HI) as (Hok1 & Hfly & HS). unfold onStore, kvP, mapErrST in HE. cbn [kvGet arenaOps] in HE. unfold arenaCall in HE.
  set (y := outsideFirst (wr_store x)) in *. destruct (kvGet k (ar_store y)) as [w r1] eqn:HG. destruct (kvGet_law _ _ _ _ Hok1 HG) as (Hok2 & Hdb & Hr).
  assert (factsOf (MkWriter (MkArena w (ar_hist y) (ar_fly y) (ar_calls y)) (wr_own x) (wr_cancelled x)) = factsOf (MkWriter y (wr_own x) (wr_cancelled x))) as HF by (unfold factsOf; cbn; by rewrite Hdb).
  destruct r1 as [v|e|]; injection HE as <- <-; (split; [done|]; rewrite HF; split; [done|]); [done| |done]. by destruct e.
Qed.

Lemma token_nonempty : T <> EmptyString.
Proof. unfold ownerToken. by destruct (ps_generation s). Qed.

Lemma token_read M (current : option string) : ownerOf M = current -> isToken s publisher current = bool_decide (ownerOf M = Some T).
Proof.
  intros ->. unfold isToken. apply bool_decide_ext. destruct current as [v|]; cbn; [split; congruence|]. split; [|done]. intros HE. by destruct token_nonempty.
Qed.

Lemma owner_run E0 d : inv E0 d ->
  runs d (onStore (readOwner publisher)) (fun d' r => since E0 d d' /\ match r with Ret current => ownerOf (fa_db d') = current | Fail e => e <> PresRunning | Panic => False end).
Proof.
  intros HI x x' r Hok Hd HE. unfold onStore, readOwner, mbind, ST_bind, tryST in HE. pose proof (get_run E0 d ownK HI (proj2 (proj2 keys_clean)) x) as HG.
  unfold onStore in HG. destruct (kvP _ _) as [w r1]. specialize (HG _ r1 Hok Hd eq_refl) as (Hok1 & HS & Hr). cbn [getResult] in Hr.
  destruct r1 as [v|e|]; [| |done].
  - injection HE as <- <-. split_and!; [done|done|]. destruct Hr as [t Ht]. unfold ownerOf. by rewrite Ht.
  - assert (e <> PresRunning \/ e = PresStore ErrNotFound) as He by (destruct e as [[]| | |]; auto).
    assert ((x', r) = (MkWriter w (wr_own x) (wr_cancelled x), match e with PresStore ErrNotFound => Ret None | _ => Fail e end)) as [= -> ->] by (destruct e as [[]| | |]; by injection HE as <- <-).
    split_and!; [done|done|]. destruct e as [[]| | |]; try done. unfold ownerOf. by rewrite Hr.
Qed.

(** ** Writing *)
Definition mine E0 h mu : Prop := (exists v, mu = claimMu E0 v) \/ (exists v, mu = writeMu v) /\ Some T ∈ h.
Definition committed mu d : facts :=
  let M := specMutation kv_opts mu (fa_db d) in MkFacts M (histNext (fa_hist d) (ownerOf M)) (fa_fly d) (fa_own d) (fa_cancelled d).
Definition inFlight mu d : facts := MkFacts (fa_db d) (fa_hist d) (fa_fly d ++ [mu]) (fa_own d) (fa_cancelled d).
Definition conditions mu d : Prop := Forall (specCondition kv_opts (fa_db d)) (mut_Conditions mu).

Lemma mine_clean E0 h mu : mine E0 h mu -> Forall (cleanKey kv_opts) (namedKeys mu).
Proof. destruct keys_clean as (H1 & H2 & H3). intros [[v ->]|[[v ->] _]]; unfold namedKeys; cbn; repeat first [assumption|apply Forall_nil_2|apply Forall_cons_2]. Qed.

Lemma mine_others E0 h mu M k : mine E0 h mu -> k <> E ownK -> k <> E peerK -> specMutation kv_opts mu M !! k = M !! k.
Proof.
  intros [[v ->]|[[v ->] _]] H1 H2.
  - change (specMutation kv_opts (claimMu E0 v) M) with (<[E ownK := ARec T 0]> (<[E peerK := ARec v 0]> M)). by rewrite !lookup_insert_ne.
  - change (specMutation kv_opts (writeMu v) M) with (<[E peerK := ARec v 0]> M). by rewrite lookup_insert_ne.
Qed.

Lemma apply_run E0 d mu : inv E0 d -> mine E0 (fa_hist d) mu ->
  runs d (onStore (applyTransition mu)) (fun d' r =>
    match r with
    | Ret true => exists d1, since E0 d d1 /\ conditions mu d1 /\ d' = committed mu d1
    | Ret false => since E0 d d' /\ ~ conditions mu d'
    | Fail e => e <> PresRunning /\ exists d1, since E0 d d1 /\ d' = inFlight mu d1
    | Panic => False
    end).
Proof.
  intros HI Hm x x' r Hok -> HE. destruct (first_since E0 x Hok HI) as (Hok1 & Hfly & HS). unfold onStore in HE. cbn [applyTransition arenaTransitions] in HE. unfold arenaApply in HE.
  set (y := outsideFirst (wr_store x)) in *. destruct (lost (ar_calls y)) as [e|] eqn:Hl.
  { injection HE as <- <-. split; [done|]. split; [intros ->; by apply (Hlost _ Hl)|]. by eexists. }
  destruct (kvApply mu (ar_store y)) as [w r1] eqn:HA. destruct (kvApply_law _ _ _ _ Hok1 HA) as (Hok2 & Hr). destruct r1 as [[]|e|]; injection HE as <- <-; (split; [done|]).
  - destruct Hr as (HC & _ & Hdb). exists (factsOf (MkWriter y (wr_own x) (wr_cancelled x))). split_and!; [done|done|]. unfold committed, factsOf. cbn. by rewrite Hdb.
  - destruct Hr as [HC Hdb]. assert (forall z, factsOf (MkWriter (MkArena w (ar_hist y) (ar_fly y) (ar_calls y)) (wr_own x) z) = factsOf (MkWriter y (wr_own x) z)) as -> by (intros z; unfold factsOf; cbn; by rewrite Hdb). done.
  - split; [done|]. eexists. split; [exact HS|]. unfold inFlight, factsOf. cbn. by rewrite Hr.
  - destruct (kvApply_limit _ _ _ _ Hok1 HA) as (_ & _ & HP). by destruct (HP eq_refl (mine_clean _ _ _ Hm)).
Qed.

Lemma mine_later E0 d d1 mu : since E0 d d1 -> mine E0 (fa_hist d) mu -> mine E0 (fa_hist d1) mu.
Proof. intros HS [?|[? HT]]; [by left|right]. split; [done|]. by eapply elem_of_prefix, la_prefix, si_later. Qed.


Definition valueOf mu : string := match mut_Entries mu with en :: _ => entry_Value en | [] => EmptyString end.
Definition written v d : Prop := ownerOf (fa_db d) = Some T /\ fa_db d !! E peerK = Some (ARec v 0) /\ isCurrent (fa_db d).

Lemma generation_condition M : specCondition kv_opts M (generationGuard s) <-> isCurrent M.
Proof. done. Qed.

Lemma histNext_same h o : last h = Some o -> histNext h o = h.
Proof. intros HL. unfold histNext. by rewrite bool_decide_eq_true_2. Qed.

Lemma committed_written E0 d mu : inv E0 d -> mine E0 (fa_hist d) mu -> conditions mu d ->
  let d' := committed mu d in
  written (valueOf mu) d' /\ placed (fa_db d') (fa_hist d') /\ history E0 (fa_hist d') (fa_fly d) /\ Some T ∈ fa_hist d' /\ fa_hist d `prefix_of` fa_hist d' /\ ~ replaced E0 (fa_hist d).
Proof using Hsep Hserver Hpeer.
  intros [(Hty & HL & HN) [HH _]] [[v ->]|[[v ->] HT]]; unfold conditions, claimMu, writeMu; cbn [mut_Conditions plainMutation]; rewrite Forall_cons, Forall_singleton, generation_condition; intros [HG HC%owner_condition]; cbv zeta.
  - destruct (claimMu_effect E0 v (fa_db d)) as (Ho & Ht & Hp & Hg). rewrite HC in HL. pose proof (claim_fresh E0 _ _ HN HH HL) as HT. destruct (claim_later E0 _ _ HN HH HL HT) as (HN' & HH' & Hng).
    assert (fa_hist (committed (claimMu E0 v) d) = fa_hist d ++ [Some T]) as Hh.
    { cbn [committed fa_hist]. rewrite Ho. unfold histNext. by rewrite bool_decide_eq_false_2 by (intros HE; apply HT; by apply last_Some_elem_of). }
    change (plainMutation _ _ _) with (claimMu E0 v). rewrite Hh. unfold written, isCurrent. cbn [committed fa_db]. rewrite Hg.
    split_and!; [done|done|done|split_and!; [done|by rewrite last_snoc, Ho|done]|done|apply elem_of_app; right; by left|by apply prefix_app_r|done].
  - destruct (writeMu_effect v (fa_db d)) as (Ho & Hp & Hg). assert (ownerOf (specMutation kv_opts (writeMu v) (fa_db d)) = ownerOf (fa_db d)) as Ho' by (unfold ownerOf; by rewrite Ho).
    assert (fa_hist (committed (writeMu v) d) = fa_hist d) as Hh by (cbn [committed fa_hist]; rewrite Ho'; by apply histNext_same).
    change (plainMutation _ _ _) with (writeMu v). rewrite Hh. unfold written, isCurrent. cbn [committed fa_db]. rewrite Hg, Ho'.
    split_and!; [done|done|done|split_and!; [by unfold ownerTyped; rewrite Ho|by rewrite Ho'|done]|done|done|done|].
    intros [Hg1 _]. apply Hg1. congruence.
Qed.

(** The mutation of the loop is one of this writer's. *)
Lemma transition_mine E0 d v : inv E0 d -> ow_initialized (fa_own d) = true -> mine E0 (fa_hist d) (transitionMutation s publisher (fa_own d) v) /\ valueOf (transitionMutation s publisher (fa_own d) v) = v.
Proof.
  intros [_ (_ & _ & Hi & Hc & _)] Ho. unfold transitionMutation. destruct (ow_claimed (fa_own d)) eqn:Ecl.
  - destruct (Hc eq_refl) as [-> HT]. split; [right; split; [by exists v|done]|done].
  - rewrite (Hi Ho eq_refl). split; [left; by exists v|done].
Qed.

(** ** The loop *)
Definition withOwn own d : facts := MkFacts (fa_db d) (fa_hist d) (fa_fly d) own (fa_cancelled d).
Definition fence own : ownership := MkOwnership (ow_expected own) (ow_initialized own) (ow_claimed own) true.

Lemma getOwn_run d : runs d getOwn (fun d' r => d' = d /\ r = Ret (fa_own d)).
Proof. intros x x' r Hok -> [= <- <-]. done. Qed.

Lemma setOwn_run d own Q : Q (withOwn own d) (Ret tt) -> runs d (setOwn own) Q.
Proof. intros HQ x x' r Hok -> [= <- <-]. done. Qed.

Lemma cancel_run d Q : Q (MkFacts (fa_db d) (fa_hist d) (fa_fly d) (fa_own d) true) (Ret tt) -> runs d cancelService Q.
Proof. intros HQ x x' r Hok -> [= <- <-]. done. Qed.

Lemma inv_claimed E0 d : inv E0 d -> Some T ∈ fa_hist d -> ow_initialized (fa_own d) = true -> inv E0 (withOwn (claimOwn s publisher (fa_own d)) d).
Proof. intros [HP (HH & _ & Hi & Hc & Hf)] HT Ho. split; [done|]. split_and!; [done|cbn; congruence|done|done|done]. Qed.

Lemma inv_fenced E0 d : inv E0 d -> replaced E0 (fa_hist d) -> inv E0 (withOwn (fence (fa_own d)) d).
Proof. intros [HP (HH & Hu & Hi & Hc & Hf)] Hg. split; [done|]. by split_and!. Qed.

Lemma inv_fly E0 d mu : inv E0 d -> mine E0 (fa_hist d) mu -> ow_initialized (fa_own d) = true -> inv E0 (inFlight mu d).
Proof.
  intros [HP (HH & _ & Hi & Hc & Hf)] Hm Ho. split; [done|]. split_and!; [|cbn; congruence|done|done|done]. destruct HH as [H1 H2 H3]. split; [done|done|].
  cbn. intros mu'. rewrite elem_of_app, list_elem_of_singleton. intros [?| ->]; [auto|done].
Qed.

Lemma gone_owner E0 d : inv E0 d -> replaced E0 (fa_hist d) -> ownerOf (fa_db d) <> Some T.
Proof. intros [(_ & HL & _) _] [Hg _] HE. apply Hg. congruence. Qed.

Lemma owner_hist E0 d o : inv E0 d -> ownerOf (fa_db d) = o -> o ∈ fa_hist d.
Proof. intros [(_ & HL & _) _] <-. by apply last_Some_elem_of. Qed.

(** A mutation that did not match while the generation was current met another owner. *)
Lemma mismatch_owner E0 d v : inv E0 d -> ~ conditions (transitionMutation s publisher (fa_own d) v) d -> isCurrent (fa_db d) -> ownerOf (fa_db d) <> ow_expected (fa_own d).
Proof.
  intros [(Hty & _ & _) _] HC Hcur HE. apply HC. unfold conditions, transitionMutation. cbn [mut_Conditions plainMutation]. rewrite Forall_cons, Forall_singleton, generation_condition. split; [done|by apply owner_condition_iff].
Qed.

Lemma mismatch_gone E0 d d' : inv E0 d -> ow_initialized (fa_own d) = true -> ownerOf (fa_db d) <> ow_expected (fa_own d) -> later E0 (fa_fly d) (fa_hist d) (fa_hist d') ->
  ow_claimed (fa_own d) = true \/ inv E0 d' /\ ownerOf (fa_db d') <> Some T -> replaced E0 (fa_hist d').
Proof.
  intros [(_ & HL & HN) (HH & _ & Hi & Hc & _)] Ho Hne HLa Hor. destruct (ow_claimed (fa_own d)) eqn:Ecl.
  { destruct (Hc eq_refl) as [He HT]. apply (la_gone _ _ _ _ HLa). split; [congruence|done]. }
  destruct Hor as [?|[[(_ & HL' & _) _] Hno]]; [done|]. pose proof (Hi Ho eq_refl) as He. split; [congruence|]. intros HT.
  assert (Some T ∉ fa_hist d) as HT1 by (intros Hin; by apply HT; eapply elem_of_prefix, la_prefix).
  apply (la_gone _ _ _ _ HLa); [|done]. split; [intros HE; by apply HT1, last_Some_elem_of|congruence].
Qed.

Definition loopPost E0 v d d' (r : Go presError unit) : Prop :=
  inv E0 d' /\ fa_hist d `prefix_of` fa_hist d' /\ ow_initialized (fa_own d') = true /\
  match r with
  | Ret _ => written v d' /\ ow_claimed (fa_own d') = true \/ ow_fenced (fa_own d') = true \/ fa_cancelled d' = true /\ ~ isCurrent (fa_db d')
  | Fail e => e <> PresRunning
  | Panic => False
  end.

Lemma since_trans E0 d d1 d2 : since E0 d d1 -> since E0 d1 d2 -> since E0 d d2.
Proof.
  intros [H1 H2 H3 H4 H5 H6] [G1 G2 G3 G4 G5 G6]. split; [congruence..|done| |auto]. rewrite H2 in G5. destruct H5, G5. split; [done|by etrans|auto..].
Qed.

(** A server that is not current any more stops. *)
Lemma stop_run E0 d d' v : since E0 d d' -> ow_initialized (fa_own d) = true -> ~ isCurrent (fa_db d') -> runs d' cancelService (loopPost E0 v d).
Proof. intros HS Ho Hn. apply cancel_run. split_and!; [apply HS|apply HS|cbn; by rewrite (si_own _ _ _ HS)|by right; right]. Qed.

Lemma loopPost_mono E0 v d d1 d2 r : fa_hist d `prefix_of` fa_hist d1 -> loopPost E0 v d1 d2 r -> loopPost E0 v d d2 r.
Proof. intros Hp (H1 & H2 & H3). split_and!; [done|by etrans|apply H3..]. Qed.

Lemma current_read d : isCurrent (fa_db d) <-> getResult genK d (Ret (ps_generation s)).
Proof. done. Qed.

Lemma mismatch_run E0 v d d1 retry : ow_initialized (fa_own d) = true -> since E0 d d1 -> ~ conditions (transitionMutation s publisher (fa_own d) v) d1 ->
  (forall d', inv E0 d' -> ow_initialized (fa_own d') = true -> ow_claimed (fa_own d') = true -> ow_claimed (fa_own d) = false -> runs d' retry (loopPost E0 v d')) ->
  runs d1 (afterMismatch s publisher (fa_own d) retry) (loopPost E0 v d).
Proof.
  intros Ho HS1 HC Hnext. eapply runs_bind; [apply runs_try, (get_run E0); [apply HS1|apply keys_clean]| |done|naive_solver]. intros r d2 HR.
  assert (exists r', getResult genK d2 r' /\ r = match r' with Ret v => inr v | Fail e => inl e | Panic => r end /\ since E0 d d2 /\ since E0 d1 d2) as (r' & Hg & Hr & HS & HS2).
  { destruct r as [e|g]; destruct HR as [HS2 Hg]; [exists (Fail e)|exists (Ret g)]; split_and!; try done; by eapply since_trans. }
  assert (~ isCurrent (fa_db d2) -> runs d2 cancelService (loopPost E0 v d)) as Hstop by by apply stop_run.
  destruct r' as [g|e|]; [| |done]; subst r.
  2: { assert (e <> PresStore ErrNotFound -> runs d2 (failST e) (loopPost E0 v d)) as Hfail.
       { intros He. apply runs_lift. split_and!; [apply HS|apply HS|by rewrite (si_own _ _ _ HS)|]. by destruct e as [[]| | |]. }
       destruct e as [[]| | |]; try (by apply Hfail). apply Hstop. intros [t Ht]. unfold getResult in Hg. congruence. }
  case_bool_decide as Hgen; cbn [negb].
  2: { apply Hstop. intros [t Ht]. destruct Hg as [t' Ht']. congruence. }
  subst g. apply current_read in Hg. pose proof (si_own _ _ _ HS1) as Ho1.
  assert (ownerOf (fa_db d1) <> ow_expected (fa_own d1)) as Hne by (eapply (mismatch_owner E0 d1 v); [apply HS1|by rewrite Ho1|by apply HS2]).
  assert (ow_initialized (fa_own d1) = true) as Hi1 by congruence.
  eapply runs_bind; [apply owner_run, HS2| |intros d3 e [HS3 He]|by intros d3 [_ ?]].
  2: { pose proof (since_trans _ _ _ _ HS HS3) as HS'. split_and!; [apply HS3|apply HS'|by rewrite (si_own _ _ _ HS')|done]. }
  intros current d3 [HS3 Hcur]. pose proof (since_trans _ _ _ _ HS HS3) as HS'. pose proof (si_later _ _ _ (since_trans _ _ _ _ HS2 HS3)) as HLa.
  rewrite (token_read _ _ Hcur). rewrite <-(si_own _ _ _ HS'). case_bool_decide as Htok; cbn [negb].
  + eapply runs_bind; [apply (setOwn_run _ _ (fun d' r => d' = withOwn (claimOwn s publisher (fa_own d3)) d3 /\ r = Ret tt)); done| |naive_solver..]. intros [] ? [-> _].
    assert (ow_claimed (fa_own d) = false) as Hcl.
    { destruct (ow_claimed (fa_own d)) eqn:Hcl; [|done]. destruct (gone_owner E0 d3 (si_inv _ _ _ HS3)); [|done]. apply (mismatch_gone E0 d1 d3 (si_inv _ _ _ HS1) Hi1 Hne HLa). left. congruence. }
    eapply runs_weaken; [apply Hnext; [|cbn; by rewrite (si_own _ _ _ HS')|done|done]|].
    * apply inv_claimed; [apply HS3|by eapply owner_hist; [apply HS3|]|by rewrite (si_own _ _ _ HS')].
    * intros d4 r. apply loopPost_mono. apply HS'.
  + apply setOwn_run. split_and!; [apply inv_fenced; [apply HS3|]|apply HS'|cbn; by rewrite (si_own _ _ _ HS')|by right; left].
    apply (mismatch_gone E0 d1 d3 (si_inv _ _ _ HS1) Hi1 Hne HLa). right. split; [apply HS3|done].
Qed.

Lemma round_run E0 n v d : inv E0 d -> ow_initialized (fa_own d) = true ->
  (forall d', inv E0 d' -> ow_initialized (fa_own d') = true -> ow_claimed (fa_own d') = true -> ow_claimed (fa_own d) = false -> runs d' (transitionLoop s publisher n v) (loopPost E0 v d')) ->
  runs d (transitionLoop s publisher (S n) v) (loopPost E0 v d).
Proof.
  intros HI Ho Hnext. destruct (transition_mine E0 d v HI Ho) as [Hm Hv]. cbn [transitionLoop].
  eapply runs_bind; [apply getOwn_run| |naive_solver..]. intros own ? [-> [= ->]].
  eapply runs_bind; [by apply apply_run| | |done].
  2: { intros d2 e (He & d1 & HS & ->). split_and!; [apply inv_fly; [apply HS|by eapply mine_later|by rewrite (si_own _ _ _ HS)]|apply HS|cbn; by rewrite (si_own _ _ _ HS)|done]. }
  intros [] d1.
  - intros (d0 & HS & HC & ->). destruct (committed_written E0 d0 _ (si_inv _ _ _ HS) (mine_later _ _ _ _ HS Hm) HC) as (HW & HP & HH & HT & Hpre & Hng). rewrite Hv in HW.
    apply setOwn_run. destruct HS as [Hown Hfly Hcan HI0 HLa Hcur]. split_and!; [split; [exact HP|]|etrans; [apply HLa|exact Hpre]|cbn; congruence|by left].
    split_and!; [exact HH|cbn; congruence|done|done|]. cbn. intros Hf. destruct Hng. destruct HI0 as [_ (_ & _ & _ & _ & Hf0)]. apply Hf0. by rewrite Hown.
  - intros [HS1 HC]. by apply mismatch_run.
Qed.

Lemma loop_run E0 n v d : inv E0 d -> ow_initialized (fa_own d) = true -> (2 <= n)%nat -> runs d (transitionLoop s publisher n v) (loopPost E0 v d).
Proof.
  intros HI Ho Hn. destruct n as [|[|n]]; [lia..|]. apply round_run; [done|done|]. intros d' HI' Ho' Hcl _. apply round_run; [done|done|]. intros; congruence.
Qed.

(** ** One transition *)
Definition good d : Prop := exists E0, inv E0 d.

Lemma inv_unclaimed E0 d : inv E0 d -> ow_initialized (fa_own d) = false -> ownerOf (fa_db d) <> Some T /\ Some T ∉ fa_hist d.
Proof.
  intros HI Ho. assert (Some T ∉ fa_hist d) as HT by apply HI, Ho. split; [|done]. intros HE. by apply HT, (owner_hist E0 d).
Qed.

Lemma disconnect_run E0 d snapshot : inv E0 d -> ow_fenced (fa_own d) = false ->
  runs d (prepareDisconnect s publisher snapshot) (fun d' r =>
    inv E0 d' /\ fa_hist d `prefix_of` fa_hist d' /\ ow_fenced (fa_own d') = false /\
    match r with
    | Ret true => ow_initialized (fa_own d') = false -> sn_Online snapshot = true
    | Ret false => sn_Online snapshot = false /\ ownerOf (fa_db d') <> Some T
    | Fail e => e <> PresRunning
    | Panic => False
    end).
Proof.
  intros HI Hf. unfold prepareDisconnect. eapply runs_bind; [apply getOwn_run| |naive_solver..]. intros own ? [-> [= ->]].
  destruct (sn_Online snapshot) eqn:Hon; cbn [orb].
  { apply runs_lift. by split_and!. }
  destruct (ow_claimed (fa_own d)) eqn:Hcl.
  { apply runs_lift. split_and!; [done|done|done|]. intros Hi. destruct HI as [_ (_ & Hu & _)]. destruct (Hu Hi). congruence. }
  destruct (ow_initialized (fa_own d)) eqn:Hi; cbn [negb].
  2: { apply runs_lift. split_and!; [done|done|done|done|by apply (inv_unclaimed E0)]. }
  eapply runs_bind; [by apply owner_run| |intros d1 e [HS He]|by intros d1 [_ ?]].
  2: { split_and!; [apply HS|apply HS|by rewrite (si_own _ _ _ HS)|done]. }
  intros current d1 [HS Hcur]. rewrite (token_read _ _ Hcur). rewrite <-(si_own _ _ _ HS) in Hi |- *. case_bool_decide as Htok; cbn [negb].
  - eapply runs_bind; [apply (setOwn_run _ _ (fun d' r => d' = withOwn (claimOwn s publisher (fa_own d1)) d1 /\ r = Ret tt)); done| |naive_solver..]. intros [] ? [-> _].
    apply runs_lift. split_and!; [apply inv_claimed; [apply HS|by eapply owner_hist; [apply HS|]|done]|apply HS|cbn; by rewrite (si_own _ _ _ HS)|cbn; congruence].
  - apply runs_lift. split_and!; [apply HS|apply HS|by rewrite (si_own _ _ _ HS)|done|done].
Qed.

(** The owner that the first read finds is the one to replace. *)
Lemma inv_initialized E0 d : inv E0 d -> ow_initialized (fa_own d) = false -> ow_fenced (fa_own d) = false ->
  inv (ownerOf (fa_db d)) (withOwn (MkOwnership (ownerOf (fa_db d)) true (ow_claimed (fa_own d)) (ow_fenced (fa_own d))) d).
Proof.
  intros HI Ho Hf. destruct (inv_unclaimed E0 d HI Ho) as [_ HT]. pose proof (owner_hist E0 d _ HI eq_refl) as Hin. destruct HI as [HP (_ & Hu & _ & Hc & _)]. destruct (Hu Ho) as (Hcl & _ & Hfly).
  split; [done|]. cbn. rewrite Hcl, Hf. split_and!; [|done|done|done|done]. split; [done|done|]. rewrite Hfly. by intros mu ?%elem_of_nil.
Qed.

Lemma claim_run E0 d : inv E0 d -> ow_fenced (fa_own d) = false ->
  runs d (prepareClaim publisher) (fun d' r =>
    good d' /\ fa_hist d `prefix_of` fa_hist d' /\ match r with Ret _ => ow_initialized (fa_own d') = true | Fail e => e <> PresRunning | Panic => False end).
Proof.
  intros HI Hf. unfold prepareClaim. eapply runs_bind; [apply getOwn_run| |naive_solver..]. intros own ? [-> [= ->]].
  destruct (ow_initialized (fa_own d)) eqn:Hi.
  { apply runs_lift. split_and!; [by exists E0|done|done]. }
  eapply runs_bind; [by apply owner_run| |intros d1 e [HS He]|by intros d1 [_ ?]].
  2: { split_and!; [exists E0; apply HS|apply HS|done]. }
  intros current d1 [HS <-]. apply setOwn_run. split_and!; [|apply HS|done]. exists (ownerOf (fa_db d1)). rewrite <-(si_own _ _ _ HS).
  apply (inv_initialized E0); [apply HS|by rewrite (si_own _ _ _ HS)..].
Qed.

(** What a transition reports: it was written while the connection owned the peer, the
    connection is fenced, its server was replaced, or it disconnects without the peer. *)
Definition outcome snapshot (r : Go presError unit) d : Prop :=
  match r with
  | Ret _ => written (encodePresence (MkPresence snapshot (ps_server s) (ps_generation s))) d \/ ow_fenced (fa_own d) = true \/
             fa_cancelled d = true /\ ~ isCurrent (fa_db d) \/ sn_Online snapshot = false /\ ownerOf (fa_db d) <> Some T
  | Fail e => e <> PresRunning
  | Panic => False
  end.

Definition transitionPost snapshot d d' (r : Go presError unit) : Prop := good d' /\ fa_hist d `prefix_of` fa_hist d' /\ outcome snapshot r d'.

Lemma transition_run n snapshot d : good d -> (2 <= n)%nat -> runs d (writeTransition s publisher n snapshot) (transitionPost snapshot d).
Proof.
  intros [E0 HI] Hn. unfold writeTransition. eapply runs_bind; [apply getOwn_run| |naive_solver..]. intros own ? [-> [= ->]].
  destruct (ow_fenced (fa_own d)) eqn:Hf.
  { apply runs_lift. split_and!; [by exists E0|done|by right; left]. }
  eapply runs_bind; [by apply (disconnect_run E0)| |intros d1 e (HI1 & Hp & _ & He)|by intros d1 (_ & _ & _ & ?)].
  2: { split_and!; [by exists E0|done|done]. }
  intros [] d1 (HI1 & Hp & Hf1 & Hgo); cbn [negb].
  2: { apply runs_lift. split_and!; [by exists E0|done|by right; right; right]. }
  eapply runs_bind; [by apply (claim_run E0)| |intros d2 e (HG & Hp2 & He)|by intros d2 (_ & _ & ?)].
  2: { split_and!; [done|by etrans|done]. }
  intros [] d2 ([E1 HI2] & Hp2 & Ho). eapply runs_weaken; [by apply (loop_run E1)|]. intros d3 r (HI3 & Hp3 & _ & Hr).
  split_and!; [by exists E1|do 2 (etrans; [done|]); done|]. destruct r as [u|e|]; [|done|done]. destruct Hr as [[? _]|[?|?]]; [by left|by right; left|by right; right; left].
Qed.

(** ** All transitions of a connection *)
Fixpoint transitions (n : nat) (snapshots : list presenceSnapshot) (x : writerState arena) : list (presenceSnapshot * Go presError unit * writerState arena) :=
  match snapshots with
  | [] => []
  | snapshot :: rest => let '(y, r) := writeTransition s publisher n snapshot x in (snapshot, r, y) :: transitions n rest y
  end.

(** A new connection: its token is new. *)
Definition connected (x : writerState arena) : Prop :=
  let a := wr_store x in storeOk (ar_store a) (ar_hist a) /\ Some T ∉ ar_hist a /\ ar_fly a = [] /\ wr_own x = freshOwnership.

Lemma connected_good x : connected x -> writerOk x /\ good (factsOf x).
Proof.
  intros ((Hok & Hty & HL & HN) & HT & Hfly & Hown). split; [done|]. exists (ownerOf (kv_db (ar_store (wr_store x)))). split; [by split_and!|]. unfold factsOf, knows. cbn. rewrite Hown, Hfly.
  split_and!; [|done|done|done|done]. split; [by apply last_Some_elem_of|done|by intros mu ?%elem_of_nil].
Qed.

(** However the others and the late mutations go on, the peer is not this connection's. *)
Definition neverAgain d : Prop := forall M h, rtc (outside (fa_fly d)) (fa_db d, fa_hist d) (M, h) -> ownerOf M <> Some T.

Lemma fenced_forever d : good d -> ow_fenced (fa_own d) = true -> neverAgain d.
Proof.
  intros [E0 HI] Hf M h HR. pose proof (outside_since E0 d M h HI HR) as HS. apply (gone_owner E0 _ (si_inv _ _ _ HS)), (la_gone _ _ _ _ (si_later _ _ _ HS)). by apply HI.
Qed.

Lemma transitions_good n snapshots x : (2 <= n)%nat -> writerOk x -> good (factsOf x) ->
  Forall (fun '(snapshot, r, y) => writerOk y /\ good (factsOf y) /\ ar_hist (wr_store x) `prefix_of` ar_hist (wr_store y) /\ outcome snapshot r (factsOf y)) (transitions n snapshots x).
Proof.
  intros Hn. revert x. induction snapshots as [|sn rest IH]; intros x Hok HG; cbn [transitions]; [constructor|]. destruct (writeTransition s publisher n sn x) as [y r] eqn:HE.
  destruct (transition_run n sn (factsOf x) HG Hn x y r Hok eq_refl HE) as (Hok' & HG' & Hp & Hr). constructor; [by split_and!|].
  eapply Forall_impl; [by apply IH|]. intros [[sn' r'] z] (? & ? & Hz & ?). split_and!; [done|done|by etrans|done].
Qed.

(** C9: A connection writes the presence of its peer while other connections and servers
    act on the store before each of its calls, and while its own mutations whose answers
    were lost are committed at any later moment or never.  Then after every transition
    the owners of the peer so far are all different, so each connection has owned the
    peer once and without interruption.  A transition that succeeds has written its
    record in a store where the connection owned the peer and its server was current, or
    the connection is fenced, or its server was replaced and stops, or it is a disconnect
    that found the peer with somebody else.  A fenced connection will never own the peer
    again, whatever happens later.  Two rounds of the loop are enough. *)
Theorem presence_fencing n snapshots x : (2 <= n)%nat -> connected x ->
  Forall (fun '(snapshot, r, y) =>
    storeOk (ar_store (wr_store y)) (ar_hist (wr_store y)) /\ ar_hist (wr_store x) `prefix_of` ar_hist (wr_store y) /\
    outcome snapshot r (factsOf y) /\ (ow_fenced (wr_own y) = true -> neverAgain (factsOf y))) (transitions n snapshots x).
Proof.
  intros Hn HC. destruct (connected_good x HC) as [Hok HG]. eapply Forall_impl; [by apply transitions_good|]. intros [[sn r] y] (Hy & Hgood & Hp & Ho).
  split_and!; [|done|done|by apply (fenced_forever (factsOf y))]. destruct Hgood as [E0 [(? & ? & ?) _]]. by split_and!.
Qed.
End fence.

(** What a connection commits is, for every other connection of the peer, one of the
    things that may happen outside: the assumption on the others and the promise to them
    are the same. *)
Lemma commit_outside `{KVLaws W} `{PresenceCodec} (Hsep : sep kv_opts = ":"%char) s publisher s2 publisher2 E0 fly d mu :
  containsByte ":" (ps_server s) = false -> containsByte ":" (ps_server s2) = false -> containsByte ":" (pp_peer publisher) = false -> pp_peer publisher2 = pp_peer publisher -> ownerToken s publisher <> ownerToken s2 publisher2 ->
  inv s publisher E0 d -> mine s publisher E0 (fa_hist d) mu -> conditions mu d ->
  outside s2 publisher2 fly (fa_db d, fa_hist d) (fa_db (committed publisher mu d), fa_hist (committed publisher mu d)).
Proof.
  intros Hsv Hsv2 Hpe Hsame Htok HI Hm HC. destruct publisher2 as [peer2 tok2]. cbn in Hsame. subst peer2.
  destruct (committed_written Hsep s publisher Hsv Hpe E0 d mu HI Hm HC) as ((Ho & _) & (Hty & _) & _ & _ & _ & Hng).
  destruct (keys_differ Hsep s2 publisher Hsv2 Hpe) as (K1 & _ & K3). destruct HI as [(Hty0 & HL & HN) [HH _]].
  assert (isCurrent s2 (fa_db (committed publisher mu d)) -> isCurrent s2 (fa_db d)) as Hcur.
  { unfold isCurrent, committed. cbn [fa_db]. by rewrite (mine_others s publisher E0 _ mu (fa_db d) _ Hm (not_eq_sym K1) (not_eq_sym K3)). }
  assert (ownerOf publisher (fa_db d) = Some (ownerToken s publisher) -> fa_hist (committed publisher mu d) = fa_hist d) as Hkeep.
  { intros HE. unfold committed. cbn [fa_hist]. apply histNext_same. unfold committed in Ho. cbn [fa_db] in Ho. congruence. }
  destruct (decide (ownerOf publisher (fa_db d) = Some (ownerToken s publisher))) as [HE|HE].
  - rewrite (Hkeep HE). apply out_keep; [exact Hty| |exact Hcur]. by transitivity (Some (ownerToken s publisher)).
  - assert (fa_hist (committed publisher mu d) = fa_hist d ++ [Some (ownerToken s publisher)]) as ->.
    { unfold committed in *. cbn [fa_hist fa_db] in *. rewrite Ho. unfold histNext. rewrite bool_decide_eq_false_2; [done|]. congruence. }
    apply out_claim; [exact Hty|exact Ho| |done|exact Hcur]. intros HT. apply Hng. split; [congruence|done].
Qed.
