(* ===== verification/PresenceBatch.v ===== *)
(** * peerpresence: many peers at once

    The commit of transitions of many peers and the read of their presence. *)

From stdpp Require Import gmap strings list.
From S2P Require Import Prelude GoStrings GoText KVKey KVMemory KVSpec KVProps KVIface Triple KVSets GoBytes Encoding EncodingProps GizKeys KVClient Presence.

Open Scope Z_scope.

(** * peerpresence: transitions of many peers in one commit

    [src/pkgs/gizclaw/services/runtime/peerpresence/transitions.go].  The writers queue
    their mutations; a worker takes those that wait, up to [transitionBatchSize], and
    commits them in one mutation under the server's generation.  When the store rejects
    the batch, the worker reads the conditions again and retries with the transitions
    whose conditions still hold.

    Theorem: left alone by others, a batch does and answers what its mutations would do
    one after the other, after two rounds at most. *)

Definition transitionBatchSize : nat := 128.
Definition writeTimeout : Z := 2 * 1000000000.

Definition transitionResult : Type := bool * option presError.

(** A request: the number stands for its result channel; the error of its context when
    the worker looks, and the deadline of the context. *)
Record transitionRequest := MkRequest { rq_result : nat; rq_ctx : option presError; rq_deadline : option Time; rq_mutation : Mutation }.

(** Results sent, in their order. *)
Definition sent : Type := list (nat * transitionResult).

Definition completeTransitions (batch : list transitionRequest) (matched : bool) (err : option presError) : sent :=
  map (fun request => (rq_result request, (matched, err))) batch.

(** [applyTransition] at the writer: whether the request could be queued and which answer
    arrived before its context ended with the error [err]. *)
Definition awaitTransition (queued : bool) (answer : option transitionResult) (err : presError) : Go presError bool :=
  if negb queued then Fail err
  else match answer with
       | None | Some (_, Some _) => Fail (match answer with Some (_, Some e) => e | _ => err end)
       | Some (matched, None) => Ret matched
       end.

(** How the worker got on with the commit slot. *)
Inductive slotOutcome := SlotTaken | SlotExpired (e : presError) | SlotTimer.

(** The loop that empties the queue, with what is left in it; [stop] tells when it sees
    the end of the service and gives up. *)
Fixpoint collect (room : nat) (stop : nat -> bool) (batch queue : list transitionRequest) : option (list transitionRequest) * list transitionRequest :=
  match room with
  | O => (Some batch, queue)
  | S room =>
      if stop room then (None, queue)
      else match queue with
           | [] => (Some batch, [])
           | request :: queue => collect room stop (batch ++ [request]) queue
           end
  end.

(** Requests whose contexts have ended are answered with the error. *)
Definition splitActive (batch : list transitionRequest) : sent * list transitionRequest :=
  foldl (fun acc request =>
    match rq_ctx request with
    | Some err => (acc.1 ++ [(rq_result request, (false, Some err))], acc.2)
    | None => (acc.1, acc.2 ++ [request])
    end) ([], []) batch.

Definition batchDeadline (now : Time) (active : list transitionRequest) : Time :=
  foldl (fun deadline request =>
    match rq_deadline request with Some limit => if limit <? deadline then limit else deadline | None => deadline end) (now + writeTimeout) active.

Section commit.
Context {W : Type} {KO : KVOps W} {BO : KVBatchOps W} (s : presenceService).

(** [request.mutation.Conditions[1]]. *)
Definition ownerCondition (request : transitionRequest) : Go presError Condition :=
  match mut_Conditions (rq_mutation request) !! 1%nat with Some c => Ret c | None => Panic end.

Definition batchMutation (batch : list transitionRequest) : Go presError Mutation :=
  foldGo (fun mu request =>
    c ← ownerCondition request;
    Ret (plainMutation (mut_Conditions mu ++ [c]) (mut_Entries mu ++ mut_Entries (rq_mutation request)) []))
    (plainMutation [generationGuard s] [] []) batch.

Definition batchOwnerKeys (batch : list transitionRequest) : Go presError (list Key) :=
  foldGo (fun keys request => c ← ownerCondition request; Ret (keys ++ [cond_Key c])) [generationKey (ps_server s)] batch.

(** One request after the read of the conditions. *)
Definition judge (values : list GetResult) (acc : sent * list transitionRequest) (ir : nat * transitionRequest) : Go presError (sent * list transitionRequest) :=
  let '(i, request) := ir in
  match values !! S i with
  | None => Panic
  | Some value =>
      c ← ownerCondition request;
      let absent := bool_decide (gr_Err value = Some ErrNotFound) in
      match gr_Err value with
      | Some e =>
          if absent then
            Ret (match cond_Expected c with None => (acc.1, acc.2 ++ [request]) | Some _ => (acc.1 ++ [(rq_result request, (false, None))], acc.2) end)
          else Ret (acc.1 ++ [(rq_result request, (false, Some (PresStore e)))], acc.2)
      | None =>
          Ret (match cond_Expected c with
               | Some expected => if bool_decide (gr_Value value = expected) then (acc.1, acc.2 ++ [request]) else (acc.1 ++ [(rq_result request, (false, None))], acc.2)
               | None => (acc.1 ++ [(rq_result request, (false, None))], acc.2)
               end)
      end
  end.

(** After a rejected attempt: one read of all conditions, and [again] with the requests
    whose conditions hold. *)
Definition afterRejected (batch : list transitionRequest) (again : list transitionRequest -> ST W presError sent) : ST W presError sent :=
  keys ← lift (batchOwnerKeys batch);
  values ← kvP (kvBatchGet keys);
  match values !! 0%nat with
  | None => lift Panic
  | Some generation =>
      match gr_Err generation with
      | Some ErrNotFound => mret (completeTransitions batch false None)
      | Some err => mret (completeTransitions batch false (Some (PresStore err)))
      | None =>
          if negb (bool_decide (gr_Value generation = ps_generation s)) then mret (completeTransitions batch false None)
          else
            split ← lift (foldGo (judge values) ([], []) (zip (seq 0 (length batch)) batch));
            later ← again split.2;
            mret (split.1 ++ later)
      end
  end.

(** The loop of [commitTransitions]; [ctx] is the error of the context before each
    attempt, [PresRunning] is reported after [n] attempts. *)
Fixpoint commitTransitions (n : nat) (ctx : nat -> option presError) (batch : list transitionRequest) : ST W presError sent :=
  match batch, n with
  | [], _ => mret []
  | _, O => failST PresRunning
  | _, S n =>
      match ctx n with
      | Some err => mret (completeTransitions batch false (Some err))
      | None =>
          mutation ← lift (batchMutation batch);
          r ← tryST (kvP (kvApply mutation));
          match r with
          | inl err => mret (completeTransitions batch false (Some err))
          | inr matched =>
              if matched || (length batch =? 1)%nat then mret (completeTransitions batch matched None)
              else afterRejected batch (commitTransitions n ctx)
          end
      end
  end.

(** [writeBatch]: the results sent and what is left in the queue. *)
Definition writeBatch (slot : slotOutcome) (stop : nat -> bool) (n : nat) (ctx : nat -> option presError) (first : transitionRequest) (queue : list transitionRequest) :
    ST W presError (sent * list transitionRequest) :=
  match slot with
  | SlotExpired e => mret ([(rq_result first, (false, Some e))], queue)
  | _ =>
      match collect (transitionBatchSize - 1) stop [first] queue with
      | (None, queue) => mret ([], queue)
      | (Some batch, queue) =>
          let '(expired, active) := splitActive batch in
          later ← commitTransitions n ctx active; mret (expired ++ later, queue)
      end
  end.
End commit.

(** ** One after the other *)
Section spec.
Context {W : Type} {KO : KVOps W} {KL : KVLaws W} {SO : KVSetOps W} {SL : KVSetLaws W} {BO : KVBatchOps W} {BL : KVBatchLaws W}.
Context (Hsep : sep kv_opts = ":"%char) (s : presenceService) (Hserver : containsByte ":" (ps_server s) = false).
Implicit Types (M : gmap string aval) (request : transitionRequest) (batch : list transitionRequest).
Local Notation E := (encK kv_opts).

Definition holdsIn M request : Prop := Forall (specCondition kv_opts M) (mut_Conditions (rq_mutation request)).

(** Each mutation by itself: applied, refused by its conditions, or lost to an error. *)
Inductive oneByOne : gmap string aval -> list transitionRequest -> gmap string aval -> sent -> Prop :=
  | one_done M : oneByOne M [] M []
  | one_match M request batch M' out : holdsIn M request -> oneByOne (specMutation kv_opts (rq_mutation request) M) batch M' out -> oneByOne M (request :: batch) M' ((rq_result request, (true, None)) :: out)
  | one_refuse M request batch M' out : ~ holdsIn M request -> oneByOne M batch M' out -> oneByOne M (request :: batch) M' ((rq_result request, (false, None)) :: out)
  | one_error M request batch M' out e : oneByOne M batch M' out -> oneByOne M (request :: batch) M' ((rq_result request, (false, Some e)) :: out).

(** The mutation of a writer of [peer]. *)
Definition forPeer (request : transitionRequest) (peer : string) : Prop :=
  exists expected entries, rq_mutation request = plainMutation [generationGuard s; MkCondition (presenceOwnerKey peer) expected] entries [] /\
    Forall (fun en => entry_Key en = presencePeerKey peer \/ entry_Key en = presenceOwnerKey peer) entries.

Definition cleanPeer (peer : string) : Prop := containsByte ":" peer = false.

Definition peersOf batch (peers : list string) : Prop := Forall2 forPeer batch peers /\ NoDup peers /\ Forall cleanPeer peers.

Lemma plain_effect conditions entries M :
  specMutation kv_opts (plainMutation conditions entries []) M = foldl (fun M en => <[E (entry_Key en) := ARec (entry_Value en) (entry_Deadline en)]> M) M entries.
Proof. done. Qed.

(** ** Keys *)
Lemma key_clean a b : containsByte ":" a = false -> containsByte ":" b = false -> cleanKey kv_opts [a; b].
Proof using Hsep. intros. unfold cleanKey. rewrite Hsep. by repeat constructor. Qed.

Lemma generation_clean : cleanKey kv_opts (generationKey (ps_server s)).
Proof using Hsep Hserver. unfold cleanKey. rewrite Hsep. by repeat constructor. Qed.

Lemma other_keys p q k : cleanPeer p -> cleanPeer q -> p <> q -> k = presencePeerKey p \/ k = presenceOwnerKey p ->
  E k <> E (presenceOwnerKey q) /\ E k <> E (generationKey (ps_server s)).
Proof using Hsep Hserver.
  intros Hp Hq Hne Hk. assert (cleanKey kv_opts k /\ k <> []) as [Hc Hnil] by (destruct Hk as [-> | ->]; (split; [by apply key_clean|done])).
  split; intros HE; apply (encK_inj (opts := kv_opts)) in HE; try done; try (by apply key_clean); try apply generation_clean; destruct Hk as [-> | ->]; unfold presencePeerKey, presenceOwnerKey, generationKey in HE; congruence.
Qed.

(** The mutation of one peer leaves the conditions of another alone. *)
Lemma holds_other M r1 p r2 q : forPeer r1 p -> forPeer r2 q -> cleanPeer p -> cleanPeer q -> p <> q ->
  holdsIn (specMutation kv_opts (rq_mutation r1) M) r2 <-> holdsIn M r2.
Proof using Hsep Hserver.
  intros (e1 & l1 & -> & H1) (e2 & l2 & HE2 & _) Hp Hq Hne. unfold holdsIn. rewrite HE2. cbn [mut_Conditions plainMutation]. rewrite !Forall_cons, plain_effect, !Forall_nil.
  assert (forall k, (k = E (presenceOwnerKey q) \/ k = E (generationKey (ps_server s))) -> foldl (fun M en => <[E (entry_Key en) := ARec (entry_Value en) (entry_Deadline en)]> M) M l1 !! k = M !! k) as Hk.
  { intros k Hk. apply entries_other. rewrite Forall_forall in H1. intros en Hen. destruct (other_keys p q (entry_Key en) Hp Hq Hne (H1 en Hen)) as [K1 K2]. destruct Hk as [-> | ->]; by apply not_eq_sym. }
  unfold specCondition. cbn [cond_Expected cond_Key generationGuard]. rewrite !Hk by auto. done.
Qed.

(** ** The mutation of a batch *)
Definition ownC request : Condition := default (generationGuard s) (mut_Conditions (rq_mutation request) !! 1%nat).
Definition entriesOf batch : list Entry := concat (map (fun request => mut_Entries (rq_mutation request)) batch).
Definition merged batch : Mutation := plainMutation (generationGuard s :: map ownC batch) (entriesOf batch) [].

Lemma forPeer_owner request peer : forPeer request peer -> ownerCondition request = Ret (ownC request) /\ cond_Key (ownC request) = presenceOwnerKey peer.
Proof. intros (e & l & HE & _). unfold ownerCondition, ownC. by rewrite HE. Qed.

Lemma forPeer_holds M request peer : forPeer request peer -> holdsIn M request <-> specCondition kv_opts M (generationGuard s) /\ specCondition kv_opts M (ownC request).
Proof. intros (e & l & HE & _). unfold holdsIn, ownC. rewrite HE. cbn [mut_Conditions plainMutation]. by rewrite Forall_cons, Forall_singleton. Qed.

Lemma batchMutation_eq batch peers : Forall2 forPeer batch peers -> batchMutation s batch = Ret (merged batch).
Proof.
  unfold batchMutation, merged. intros HF. change (plainMutation [generationGuard s] [] []) with (plainMutation ([generationGuard s] ++ []) ([] ++ []) []).
  enough (forall cs es, foldGo (fun mu request => c ← ownerCondition request; Ret (plainMutation (mut_Conditions mu ++ [c]) (mut_Entries mu ++ mut_Entries (rq_mutation request)) [])) (plainMutation cs es []) batch
    = Ret (plainMutation (cs ++ map ownC batch) (es ++ entriesOf batch) [])) as Hen by apply (Hen ([generationGuard s] ++ []) ([] ++ [])).
  induction HF as [|request peer batch peers H1 HF IH]; intros cs es; cbn; [by rewrite !app_nil_r|]. rewrite (proj1 (forPeer_owner _ _ H1)). cbn. rewrite IH. unfold entriesOf. cbn. by rewrite <-!app_assoc.
Qed.

Lemma batchOwnerKeys_eq batch peers : Forall2 forPeer batch peers -> batchOwnerKeys s batch = Ret (generationKey (ps_server s) :: map presenceOwnerKey peers).
Proof.
  unfold batchOwnerKeys. intros HF. enough (forall ks, foldGo (fun keys request => c ← ownerCondition request; Ret (keys ++ [cond_Key c])) ks batch = (Ret (ks ++ map presenceOwnerKey peers) : Go presError (list Key))) as Hen by apply (Hen [_]).
  induction HF as [|request peer batch peers H1 HF IH]; intros ks; cbn; [by rewrite app_nil_r|]. destruct (forPeer_owner _ _ H1) as [-> Hk]. cbn. rewrite IH, Hk, <-app_assoc. done.
Qed.

Lemma merged_conditions M batch peers : batch <> [] -> Forall2 forPeer batch peers -> Forall (specCondition kv_opts M) (mut_Conditions (merged batch)) <-> Forall (holdsIn M) batch.
Proof.
  intros Hne HF. cbn [merged mut_Conditions plainMutation]. rewrite Forall_cons, Forall_map. split.
  - intros [HG HC]. rewrite Forall_forall in HC |- *. intros request Hr. apply list_elem_of_lookup in Hr as [i Hi]. destruct (Forall2_lookup_l _ _ _ _ _ HF Hi) as (peer & _ & Hp).
    apply (forPeer_holds M request peer Hp). split; [done|]. apply HC. by apply list_elem_of_lookup; exists i.
  - intros HA. destruct HF as [|request peer batch peers H1 HF]; [done|]. split; [by apply Forall_cons in HA as [[? _]%(forPeer_holds M request peer H1) _]|].
    assert (Forall2 forPeer (request :: batch) (peer :: peers)) as HF' by by constructor. rewrite Forall_forall in HA |- *. intros r Hr. pose proof (HA r Hr) as Hh.
    apply list_elem_of_lookup in Hr as [i Hi]. destruct (Forall2_lookup_l _ _ _ _ _ HF' Hi) as (p & _ & Hp). by apply (forPeer_holds M r p Hp).
Qed.

Lemma merged_effect M batch peers : Forall2 forPeer batch peers -> specMutation kv_opts (merged batch) M = foldl (fun M request => specMutation kv_opts (rq_mutation request) M) M batch.
Proof.
  intros HF. unfold merged. rewrite plain_effect. revert M. induction HF as [|request peer batch peers (e & l & HE & _) HF IH]; intros M; [done|].
  unfold entriesOf. cbn [map concat foldl]. rewrite foldl_app. rewrite HE. cbn [mut_Entries plainMutation]. rewrite plain_effect. apply IH.
Qed.

Lemma merged_clean batch peers : Forall2 forPeer batch peers -> Forall cleanPeer peers -> Forall (cleanKey kv_opts) (namedKeys (merged batch)).
Proof using Hsep Hserver.
  intros HF HC. unfold namedKeys, merged. cbn [plainMutation mut_Conditions mut_Entries mut_DeleteKeys phases map app]. rewrite app_nil_r. constructor; [apply generation_clean|].
  assert (forall r p, forPeer r p -> cleanPeer p -> cleanKey kv_opts (cond_Key (ownC r)) /\ Forall (fun en => cleanKey kv_opts (entry_Key en)) (mut_Entries (rq_mutation r))) as Hone.
  { intros r p Hp Hc. split; [rewrite (proj2 (forPeer_owner r p Hp)); by apply key_clean|]. destruct Hp as (e & l & -> & Hl). eapply Forall_impl; [exact Hl|]. intros en [-> | ->]; by apply key_clean. }
  apply Forall_app. split.
  - rewrite !Forall_map. induction HF as [|r p batch peers H1 HF IH]; [constructor|]. apply Forall_cons in HC as [Hc HC]. constructor; [by apply (Hone r p)|by apply IH].
  - unfold entriesOf. rewrite Forall_map. induction HF as [|r p batch peers H1 HF IH]; [constructor|]. apply Forall_cons in HC as [Hc HC]. cbn. apply Forall_app. split; [by apply (Hone r p)|by apply IH].
Qed.

(** ** Batches as sequences *)
Lemma peersOf_cons request batch p peers : peersOf (request :: batch) (p :: peers) -> forPeer request p /\ cleanPeer p /\ peersOf batch peers /\ forall r q, (r, q) ∈ zip batch peers -> forPeer r q /\ cleanPeer q /\ p <> q.
Proof.
  intros (HF & HN & HC). apply Forall2_cons in HF as [H1 HF]. apply NoDup_cons in HN as [Hp HN]. apply Forall_cons in HC as [Hc HC]. split_and!; [done|done|done|].
  intros r q Hz. apply list_elem_of_lookup in Hz as [i Hi]. apply lookup_zip_with_Some in Hi as (r' & q' & [= -> ->] & Hr & Hq). split_and!; [by eapply Forall2_lookup_lr|by eapply Forall_lookup_1|]. intros ->. apply Hp. by apply list_elem_of_lookup; exists i.
Qed.

Lemma holds_after M request batch p peers r : peersOf (request :: batch) (p :: peers) -> r ∈ batch -> holdsIn (specMutation kv_opts (rq_mutation request) M) r <-> holdsIn M r.
Proof using Hsep Hserver.
  intros HP Hr. destruct (peersOf_cons _ _ _ _ HP) as (H1 & Hc & (HF & _) & Hz). apply list_elem_of_lookup in Hr as [i Hi]. destruct (Forall2_lookup_l _ _ _ _ _ HF Hi) as (q & Hq & _).
  destruct (Hz r q) as (H2 & Hc2 & Hne); [apply list_elem_of_lookup; exists i; apply lookup_zip_with_Some; by eexists _, _|]. by apply (holds_other M request p r q).
Qed.

Lemma all_match M batch peers : peersOf batch peers -> Forall (holdsIn M) batch ->
  oneByOne M batch (foldl (fun M request => specMutation kv_opts (rq_mutation request) M) M batch) (completeTransitions batch true None).
Proof using Hsep Hserver.
  revert M peers. induction batch as [|r batch IH]; intros M peers HP HA; [constructor|]. destruct peers as [|p peers]; [by destruct HP as (HF%Forall2_length & _)|]. apply Forall_cons in HA as [H1 HA].
  cbn. constructor; [done|]. apply (IH _ peers); [by apply (peersOf_cons r batch p peers)|]. rewrite Forall_forall in HA |- *. intros r' Hr'. apply (holds_after M r batch p peers r' HP Hr'). auto.
Qed.

Lemma none_match M batch : Forall (fun request => ~ holdsIn M request) batch -> oneByOne M batch M (completeTransitions batch false None).
Proof. induction 1; cbn; by constructor. Qed.

Lemma all_errors M batch e : oneByOne M batch M (completeTransitions batch false (Some e)).
Proof. induction batch; cbn; by constructor. Qed.

(** What the read of the conditions decides. *)
Inductive judged M : list transitionRequest -> sent -> list transitionRequest -> Prop :=
  | judged_nil : judged M [] [] []
  | judged_keep r batch out active : judged M batch out active -> judged M (r :: batch) out (r :: active)
  | judged_refuse r batch out active : ~ holdsIn M r -> judged M batch out active -> judged M (r :: batch) ((rq_result r, (false, None)) :: out) active
  | judged_error r batch out active e : judged M batch out active -> judged M (r :: batch) ((rq_result r, (false, Some e)) :: out) active.

Lemma judged_merge M M1 batch out active peers M' ans :
  judged M batch out active -> peersOf batch peers -> (forall r, r ∈ batch -> holdsIn M1 r <-> holdsIn M r) -> oneByOne M1 active M' ans ->
  exists ans', oneByOne M1 batch M' ans' /\ ans' ≡ₚ out ++ ans.
Proof using Hsep Hserver.
  intros HJ. revert M1 peers ans. induction HJ as [|r batch out active HJ IH|r batch out active Hno HJ IH|r batch out active e HJ IH]; intros M1 peers ans HP Heq HO; [by exists ans| | |];
    (destruct peers as [|p peers]; [by destruct HP as (HF%Forall2_length & _)|]); destruct (peersOf_cons _ _ _ _ HP) as (_ & _ & HP' & _);
    assert (forall r', r' ∈ batch -> holdsIn M1 r' <-> holdsIn M r') as Heq' by (intros r' Hr'; apply Heq; by right).
  - inversion HO as [|? ? ? ? out1 Hh HO1|? ? ? ? out1 Hn HO1|? ? ? ? out1 e HO1]; subst.
    + destruct (IH (specMutation kv_opts (rq_mutation r) M1) peers out1 HP') as (ans' & H1 & H2); [|done|]. { intros r' Hr'. rewrite (holds_after M1 r batch p peers r' HP Hr'). auto. }
      eexists. split; [by apply one_match|]. by rewrite H2, Permutation_middle.
    + destruct (IH _ peers out1 HP' Heq' HO1) as (ans' & H1 & H2). eexists. split; [by apply one_refuse|]. by rewrite H2, Permutation_middle.
    + destruct (IH _ peers out1 HP' Heq' HO1) as (ans' & H1 & H2). eexists. split; [by apply one_error|]. by rewrite H2, Permutation_middle.
  - destruct (IH _ peers ans HP' Heq' HO) as (ans' & H1 & H2). exists ((rq_result r, (false, None)) :: ans'). split; [apply one_refuse; [|done]|cbn; by rewrite H2]. rewrite Heq; [done|by left].
  - destruct (IH _ peers ans HP' Heq' HO) as (ans' & H1 & H2). exists ((rq_result r, (false, Some e)) :: ans'). split; [by apply one_error|cbn; by rewrite H2].
Qed.

Lemma judged_sub M batch out active peers : judged M batch out active -> peersOf batch peers -> exists peers', peersOf active peers' /\ peers' ⊆ peers.
Proof.
  intros HJ. revert peers. induction HJ as [|r batch out active HJ IH|r batch out active Hno HJ IH|r batch out active e HJ IH]; intros peers HP; [by exists peers|..];
    (destruct peers as [|p peers]; [by destruct HP as (HF%Forall2_length & _)|]); destruct (peersOf_cons _ _ _ _ HP) as (H1 & Hc & HP' & _); destruct (IH peers HP') as (peers' & HA & Hsub).
  - exists (p :: peers'). split; [|set_solver]. destruct HA as (HF & HN & HC). split_and!; [by constructor| |by constructor]. constructor; [|done]. destruct HP as (_ & [Hp _]%NoDup_cons & _). auto.
  - exists peers'. split; [done|set_solver].
  - exists peers'. split; [done|set_solver].
Qed.

(** Owner keys hold no collections. *)
Definition ownersTyped M (peers : list string) : Prop := forall peer o S, peer ∈ peers -> M !! E (presenceOwnerKey peer) <> Some (ASet o S).

Lemma judge_one M values i request peer acc g :
  forPeer request peer -> specCondition kv_opts M (generationGuard s) -> ownersTyped M [peer] -> values !! S i = Some g -> batchAnswer kv_opts M (presenceOwnerKey peer) g ->
  holdsIn M request /\ judge values acc (i, request) = Ret (acc.1, acc.2 ++ [request]) \/
  ~ holdsIn M request /\ judge values acc (i, request) = Ret (acc.1 ++ [(rq_result request, (false, None))], acc.2) \/
  exists e, judge values acc (i, request) = Ret (acc.1 ++ [(rq_result request, (false, Some e))], acc.2).
Proof.
  intros Hp HG Hty Hg Hans. rewrite (forPeer_holds M request peer Hp). destruct (forPeer_owner request peer Hp) as [Ho Hk]. unfold judge. rewrite Hg, Ho. cbn [mbind Go_bind].
  assert (specCondition kv_opts M (ownC request) <-> match cond_Expected (ownC request) with None => M !! E (presenceOwnerKey peer) = None | Some v => exists d, M !! E (presenceOwnerKey peer) = Some (ARec v d) end) as Hc by (unfold specCondition; by rewrite Hk).
  rewrite Hc. unfold batchAnswer in Hans. destruct (gr_Err g) as [e|] eqn:Hge.
  - case_bool_decide as He; [injection He as ->|by right; right; eexists].
    assert (M !! E (presenceOwnerKey peer) = None) as HN. { destruct (M !! E (presenceOwnerKey peer)) as [[v d|o S]|] eqn:HM; [by destruct (Hans v d)|by destruct (Hty peer o S); [left|]|done]. }
    destruct (cond_Expected (ownC request)) as [v|]; [right; left|by left]. split; [|done]. intros [_ [d Hd]]. congruence.
  - destruct Hans as [d Hd]. destruct (cond_Expected (ownC request)) as [v|]; [|right; left; split; [|done]; intros [_ ?]; congruence].
    case_bool_decide as Hv; [left; subst v; split; [|done]; split; [done|by exists d]|right; left; split; [|done]; intros [_ [d' ?]]; congruence].
Qed.

Lemma judge_all M values batch peers i vs acc :
  Forall2 forPeer batch peers -> specCondition kv_opts M (generationGuard s) -> ownersTyped M peers ->
  (forall j, values !! S (i + j) = vs !! j) -> Forall2 (batchAnswer kv_opts M) (map presenceOwnerKey peers) vs ->
  exists out active, foldGo (judge values) acc (zip (seq i (length batch)) batch) = Ret (acc.1 ++ out, acc.2 ++ active) /\ judged M batch out active /\ Forall (holdsIn M) active.
Proof.
  intros HF HG. revert i vs acc. induction HF as [|r p batch peers H1 HF IH]; intros i vs acc Hty Hvs HA.
  { exists [], []. rewrite !app_nil_r. destruct acc. split_and!; [done|constructor|constructor]. }
  destruct vs as [|g vs]; [by inversion HA|]. cbn [map] in HA. apply Forall2_cons in HA as [Hg HA].
  assert (values !! S i = Some g) as Hi by (rewrite <-(Nat.add_0_r i); apply Hvs). cbn [length seq zip zip_with foldGo].
  assert (ownersTyped M peers) as Hty' by (intros q o S Hq; apply Hty; by right). assert (forall j, values !! S (S i + j) = vs !! j) as Hvs' by (intros j; replace (S i + j)%nat with (i + S j)%nat by lia; apply (Hvs (S j))).
  assert (ownersTyped M [p]) as Hty1 by (intros q o S ->%list_elem_of_singleton; apply Hty; by left).
  destruct (judge_one M values i r p acc g H1 HG Hty1 Hi Hg) as [[Hh ->]|[[Hn ->]|[e ->]]]; cbn [mbind Go_bind];
    [destruct (IH (S i) vs (acc.1, acc.2 ++ [r]) Hty' Hvs' HA) as (out & active & -> & HJ & HH)
    |destruct (IH (S i) vs (acc.1 ++ [(rq_result r, (false, None))], acc.2) Hty' Hvs' HA) as (out & active & -> & HJ & HH)
    |destruct (IH (S i) vs (acc.1 ++ [(rq_result r, (false, Some e))], acc.2) Hty' Hvs' HA) as (out & active & -> & HJ & HH)].
  - exists out, (r :: active). cbn. rewrite <-app_assoc. split_and!; [done|by constructor|by constructor].
  - exists ((rq_result r, (false, None)) :: out), active. cbn. rewrite <-app_assoc. split_and!; [done|by constructor|done].
  - exists ((rq_result r, (false, Some e)) :: out), active. cbn. rewrite <-app_assoc. split_and!; [done|by constructor|done].
Qed.

Definition asSequence batch M M' (r : Go presError sent) : Prop := exists out ans, r = Ret out /\ oneByOne M batch M' ans /\ out ≡ₚ ans.

Local Notation runs := (runs kv_ok kv_db).

Lemma apply_merged M batch peers : peersOf batch peers ->
  runs M (tryST (kvP (kvApply (merged batch)))) (fun M' r =>
    match r with
    | Ret (inr true) => Forall (specCondition kv_opts M) (mut_Conditions (merged batch)) /\ M' = foldl (fun M request => specMutation kv_opts (rq_mutation request) M) M batch
    | Ret (inr false) => ~ Forall (specCondition kv_opts M) (mut_Conditions (merged batch)) /\ M' = M
    | Ret (inl _) => M' = M
    | _ => False
    end).
Proof using Hsep Hserver SL.
  intros (HF & HN & HC) w w' r Hok -> HE. unfold tryST, kvP, mapErrST in HE. destruct (kvApply (merged batch) w) as [w1 r1] eqn:HA. destruct (kvApply_law _ _ _ _ Hok HA) as [Hok' Hr].
  destruct r1 as [[]|e|]; injection HE as <- <-; (split; [done|]).
  - destruct Hr as (? & _ & ->). by rewrite (merged_effect _ _ _ HF).
  - done.
  - done.
  - destruct (kvApply_limit _ _ _ _ Hok HA) as (_ & _ & HP). by apply HP, (merged_clean batch peers).
Qed.

Lemma read_owners M batch peers : peersOf batch peers ->
  runs M (kvP (kvBatchGet (generationKey (ps_server s) :: map presenceOwnerKey peers))) (fun M' r => M' = M /\ exists g vs, r = Ret (g :: vs) /\ batchAnswer kv_opts M (generationKey (ps_server s)) g /\ Forall2 (batchAnswer kv_opts M) (map presenceOwnerKey peers) vs).
Proof using Hsep Hserver BL.
  intros (HF & HN & HC) w w' r Hok -> HE. unfold kvP, mapErrST in HE. destruct (kvBatchGet _ w) as [w1 r1] eqn:HA.
  assert (Forall (cleanKey kv_opts) (generationKey (ps_server s) :: map presenceOwnerKey peers)) as Hks.
  { constructor; [apply generation_clean|]. rewrite Forall_map. eapply Forall_impl; [exact HC|]. intros p Hp. by apply key_clean. }
  destruct (kvBatchGet_law _ _ _ _ Hok Hks HA) as (Hok' & Hdb & l & -> & HL).
  injection HE as <- <-. split; [done|]. rewrite Hdb. split; [done|]. apply Forall2_cons_inv_l in HL as (g & vs & Hg & Hvs & ->). by exists g, vs.
Qed.

Lemma sequence_ret M batch M' out : oneByOne M batch M' out -> runs M' (mret out : ST W presError sent) (asSequence batch M).
Proof. intros HO. apply runs_lift. by exists out, out. Qed.

(** After a rejected attempt. *)
Lemma rejected_run M batch peers again : peersOf batch peers -> ownersTyped M peers ->
  (forall active peers', peersOf active peers' -> peers' ⊆ peers -> Forall (holdsIn M) active -> runs M (again active) (asSequence active M)) ->
  runs M (afterRejected s batch again) (asSequence batch M).
Proof using Hsep Hserver BL SL.
  intros HP Hty Hnext. unfold afterRejected. eapply (runs_bind _ _ _ _ _ (fun M' r => M' = M /\ r = Ret (generationKey (ps_server s) :: map presenceOwnerKey peers))); [apply runs_lift; split; [done|apply batchOwnerKeys_eq, HP]| |naive_solver..]. intros keys ? [-> [= ->]].
  eapply runs_bind; [by apply (read_owners M batch)| |naive_solver..]. intros values ? [-> (g & vs & [= ->] & Hg & Hvs)]. cbn [lookup list_lookup].
  assert (~ specCondition kv_opts M (generationGuard s) -> runs M (mret (completeTransitions batch false None) : ST W presError sent) (asSequence batch M)) as Hstop.
  { intros HN. apply sequence_ret, none_match. destruct HP as (HF & _). rewrite Forall_forall. intros r Hr. apply list_elem_of_lookup in Hr as [i Hi]. destruct (Forall2_lookup_l _ _ _ _ _ HF Hi) as (p & _ & Hp). rewrite (forPeer_holds M r p Hp). tauto. }
  unfold batchAnswer in Hg. destruct (gr_Err g) as [e|].
  { assert (e <> ErrNotFound -> runs M (mret (completeTransitions batch false (Some (PresStore e))) : ST W presError sent) (asSequence batch M)) as Herr by (intros _; apply sequence_ret, all_errors).
    destruct e; try (by apply Herr). apply Hstop. intros [d Hd]. by destruct (Hg (ps_generation s) d). }
  case_bool_decide as Hgen; cbn [negb]. 2: { apply Hstop. intros [d Hd]. destruct Hg as [d' Hd']. cbn [cond_Key generationGuard] in Hd. congruence. }
  assert (specCondition kv_opts M (generationGuard s)) as HG by (rewrite Hgen in Hg; exact Hg).
  destruct (judge_all M (g :: vs) batch peers 0 vs ([], []) (proj1 HP) HG Hty (fun j => eq_refl) Hvs) as (out & active & HE & HJ & HH).
  eapply (runs_bind _ _ _ _ _ (fun M' r => M' = M /\ r = Ret (out, active))); [apply runs_lift; split; [done|exact HE]| |naive_solver..]. intros split ? [-> [= ->]].
  destruct (judged_sub M batch out active peers HJ HP) as (peers' & HP' & Hsub).
  eapply runs_bind; [by apply (Hnext active peers')| |by intros ? ? (? & ? & ? & _)|by intros ? (? & ? & ? & _)]. intros later M' (l & ans & [= ->] & HO & Hl).
  apply runs_lift. destruct (judged_merge M M batch out active peers M' ans HJ HP (fun r _ => iff_refl _) HO) as (ans' & HO' & Hans). exists (out ++ l), ans'. split_and!; [done|done|]. by rewrite Hans, Hl.
Qed.

Lemma attempt_run n ctx M batch peers : peersOf batch peers -> ownersTyped M peers ->
  (~ Forall (holdsIn M) batch -> forall active peers', peersOf active peers' -> peers' ⊆ peers -> Forall (holdsIn M) active -> runs M (commitTransitions s n ctx active) (asSequence active M)) ->
  runs M (commitTransitions s (S n) ctx batch) (asSequence batch M).
Proof using Hsep Hserver SL BL.
  intros HP Hty Hnext. destruct batch as [|r0 batch0] eqn:Hb; [apply sequence_ret; constructor|]. rewrite <-Hb in *. assert (batch <> []) as Hne by by subst.
  replace (commitTransitions s (S n) ctx batch) with (match ctx n with
      | Some err => mret (completeTransitions batch false (Some err))
      | None =>
          mutation ← lift (batchMutation s batch); r ← tryST (kvP (kvApply mutation));
          match r with
          | inl err => mret (completeTransitions batch false (Some err))
          | inr matched => if matched || (length batch =? 1)%nat then mret (completeTransitions batch matched None) else afterRejected s batch (commitTransitions s n ctx)
          end
      end : ST W presError sent) by by rewrite Hb.
  destruct (ctx n); [apply sequence_ret, all_errors|].
  eapply (runs_bind _ _ _ _ _ (fun M' r => M' = M /\ r = Ret (merged batch))); [apply runs_lift; split; [done|by eapply batchMutation_eq, HP]| |naive_solver..]. intros mu ? [-> [= ->]].
  eapply runs_bind; [by apply (apply_merged M batch peers)| |done..]. intros [e|[]] M1; cbn [orb].
  - intros ->. apply sequence_ret, all_errors.
  - intros [HC ->]. apply sequence_ret, (all_match M batch peers HP). by apply (merged_conditions M batch peers Hne (proj1 HP)).
  - intros [HC ->]. assert (~ Forall (holdsIn M) batch) as HN by (intros HA; by apply HC, (merged_conditions M batch peers Hne (proj1 HP))).
    destruct (length batch =? 1)%nat eqn:Hl; [|apply (rejected_run M batch peers); [done|done|intros active peers' HP'; by apply Hnext]]. apply sequence_ret, none_match. apply Nat.eqb_eq in Hl. destruct batch as [|r1 [|r2 l]]; [done| |done].
    constructor; [|constructor]. intros Hh. apply HN. by constructor.
Qed.

Lemma commit_run n ctx M batch peers : (2 <= n)%nat -> peersOf batch peers -> ownersTyped M peers -> runs M (commitTransitions s n ctx batch) (asSequence batch M).
Proof using Hsep Hserver SL BL.
  intros Hn HP Hty. destruct n as [|[|n]]; [lia..|]. apply (attempt_run (S n) ctx M batch peers HP Hty). intros _ active peers' HP' Hsub HA.
  apply (attempt_run n ctx M active peers' HP'); [|done]. intros q o S Hq. apply Hty. by apply Hsub.
Qed.

(** C10: [commitTransitions] does to the store, and answers to the writers, what their
    mutations would do and be answered one after the other: each request is answered
    once, a matched one is applied in its turn, a refused one did not hold in its turn
    and changes nothing, and two attempts are enough.  The requests are for different
    peers, as there is one writer per peer, and nobody else writes meanwhile. *)
Theorem commitTransitions_sequential n ctx batch peers w w' r :
  (2 <= n)%nat -> kv_ok w -> peersOf batch peers -> ownersTyped (kv_db w) peers ->
  commitTransitions s n ctx batch w = (w', r) ->
  kv_ok w' /\ exists out answers, r = Ret out /\ oneByOne (kv_db w) batch (kv_db w') answers /\ out ≡ₚ answers /\ map fst answers = map rq_result batch.
Proof using Hsep Hserver SL BL.
  intros Hn Hok HP Hty HE. destruct (commit_run n ctx (kv_db w) batch peers Hn HP Hty w w' r Hok eq_refl HE) as (Hok' & out & ans & -> & HO & Hp). split; [done|]. exists out, ans. split_and!; [done|done|done|].
  clear -HO. induction HO; cbn; congruence.
Qed.
End spec.

(** * peerpresence: reading the presence of many peers

    [ReadBatch] of [src/pkgs/gizclaw/services/runtime/peerpresence/presence.go]: the records of
    all peers in one read, then the lease of each server that they name in a second one.

    Theorem: the answer for every peer is that of reading its record and the lease of its
    server by themselves, the records as they were at the first read and the leases as at
    the second, or it is an error of the store. *)

Record readResult := MkRead { rr_Snapshot : presenceSnapshot; rr_Err : option presError }.

Definition zeroSnapshot : presenceSnapshot := MkSnapshot false 0 EmptyString.
Definition zeroPresence : presenceRecord := MkPresence zeroSnapshot EmptyString EmptyString.
Definition zeroLease : serverLease := MkLease EmptyString 0.

Definition decodePeerError : presError := PresText "peerpresence: decode Peer".
Definition invalidPeerError : presError := PresText "peerpresence: invalid Peer record".
Definition decodeLeaseError : presError := PresText "peerpresence: decode Server lease".

(** The server of a record is the text of a key that is not zero. *)
Definition validPresence (record : presenceRecord) : bool :=
  match Key_UnmarshalText (Some zeroKey) (pr_Server record) with
  | Ret server => negb (Key_IsZero server) && bool_decide (GizKey_String server = pr_Server record) && negb (bool_decide (pr_Generation record = EmptyString))
  | _ => false
  end.

Definition offline (snapshot : presenceSnapshot) : presenceSnapshot := MkSnapshot false (sn_LastSeenAt snapshot) EmptyString.
Definition withoutWorkspace (snapshot : presenceSnapshot) : presenceSnapshot := MkSnapshot (sn_Online snapshot) (sn_LastSeenAt snapshot) EmptyString.

(** The first loop: the results, the records, and the servers with the places of their leases. *)
Record readState := MkReadState { rs_results : list readResult; rs_records : list presenceRecord; rs_indices : gmap string nat; rs_leaseKeys : list Key }.

Definition addRead (st : readState) (result : readResult) (record : presenceRecord) : readState :=
  MkReadState (rs_results st ++ [result]) (rs_records st ++ [record]) (rs_indices st) (rs_leaseKeys st).

Definition addLease (st : readState) (server : string) : readState :=
  match rs_indices st !! server with
  | Some _ => st
  | None => MkReadState (rs_results st) (rs_records st) (<[server := length (rs_leaseKeys st)]> (rs_indices st)) (rs_leaseKeys st ++ [leaseKey server])
  end.

Section read.
Context {W : Type} {BO : KVBatchOps W} {PC : PresenceCodec}.

Definition readRecord (st : readState) (value : GetResult) : readState :=
  match gr_Err value with
  | Some ErrNotFound => addRead st (MkRead zeroSnapshot None) zeroPresence
  | Some e => addRead st (MkRead zeroSnapshot (Some (PresStore e))) zeroPresence
  | None =>
      match decodePresence (gr_Value value) with
      | None => addRead st (MkRead zeroSnapshot (Some decodePeerError)) zeroPresence
      | Some record =>
          if negb (validPresence record) then addRead st (MkRead zeroSnapshot (Some invalidPeerError)) record
          else if negb (sn_Online (pr_Snapshot record)) then
            let record := MkPresence (withoutWorkspace (pr_Snapshot record)) (pr_Server record) (pr_Generation record) in
            addRead st (MkRead (pr_Snapshot record) None) record
          else addRead (addLease st (pr_Server record)) (MkRead (pr_Snapshot record) None) record
      end
  end.

Definition decodeLeaseValue (value : GetResult) : option presError * serverLease :=
  match gr_Err value with
  | Some e => (Some (PresStore e), zeroLease)
  | None => match decodeLease (gr_Value value) with Some l => (None, l) | None => (Some decodeLeaseError, zeroLease) end
  end.

(** The lease is not that of the connection's server process any more, or has expired. *)
Definition stale (now : Time) (lease : serverLease) (record : presenceRecord) : bool :=
  negb (bool_decide (le_Generation lease = pr_Generation record)) || negb (now <? le_ExpiresAt lease).

(** The last loop. *)
Definition finishRead (now : Time) (indices : gmap string nat) (leases : list (option presError * serverLease)) (rr : readResult * presenceRecord) : Go presError readResult :=
  let '(result, record) := rr in
  if bool_decide (is_Some (rr_Err result)) || negb (sn_Online (pr_Snapshot record)) then Ret result
  else
    match leases !! default 0%nat (indices !! pr_Server record) with
    | None => Panic
    | Some (err, lease) =>
        let live := Ret (if stale now lease record then MkRead (offline (rr_Snapshot result)) None else result) in
        match err with
        | None | Some (PresStore ErrNotFound) => live
        | Some e => Ret (MkRead zeroSnapshot (Some e))
        end
    end.

Definition ReadBatch (now : Time) (peers : list string) : ST W presError (list readResult) :=
  values ← kvP (kvBatchGet (map presencePeerKey peers));
  let st := foldl readRecord (MkReadState [] [] ∅ []) values in
  leases ← kvP (kvBatchGet (rs_leaseKeys st));
  lift (mapGo (finishRead now (rs_indices st) (map decodeLeaseValue leases)) (zip (rs_results st) (rs_records st))).

Definition Presence_Read (now : Time) (peer : string) : ST W presError (presenceSnapshot * option presError) :=
  results ← ReadBatch now [peer];
  match results !! 0%nat with Some result => mret (rr_Snapshot result, rr_Err result) | None => lift Panic end.
End read.

(** ** One peer by itself *)
Section one.
Context {W : Type} {KO : KVOps W} {KL : KVLaws W} {BO : KVBatchOps W} {BL : KVBatchLaws W} {PC : PresenceCodec}.
Implicit Types (M : gmap string aval).
Local Notation E := (encK kv_opts).

Definition readOne M1 M2 (now : Time) (peer : string) : readResult :=
  match M1 !! E (presencePeerKey peer) with
  | Some (ARec v _) =>
      match decodePresence v with
      | None => MkRead zeroSnapshot (Some decodePeerError)
      | Some record =>
          if negb (validPresence record) then MkRead zeroSnapshot (Some invalidPeerError)
          else if negb (sn_Online (pr_Snapshot record)) then MkRead (withoutWorkspace (pr_Snapshot record)) None
          else
            match M2 !! E (leaseKey (pr_Server record)) with
            | Some (ARec l _) =>
                match decodeLease l with
                | None => MkRead zeroSnapshot (Some decodeLeaseError)
                | Some lease =>
                    if bool_decide (le_Generation lease = pr_Generation record) && (now <? le_ExpiresAt lease) then MkRead (pr_Snapshot record) None
                    else MkRead (offline (pr_Snapshot record)) None
                end
            | _ => MkRead (offline (pr_Snapshot record)) None
            end
      end
  | _ => MkRead zeroSnapshot None
  end.

Definition storeFailure (result : readResult) : Prop := exists e, e <> ErrNotFound /\ result = MkRead zeroSnapshot (Some (PresStore e)).

(** What a value gives by itself. *)
Definition resultOf (value : GetResult) : readResult * presenceRecord :=
  match gr_Err value with
  | Some ErrNotFound => (MkRead zeroSnapshot None, zeroPresence)
  | Some e => (MkRead zeroSnapshot (Some (PresStore e)), zeroPresence)
  | None =>
      match decodePresence (gr_Value value) with
      | None => (MkRead zeroSnapshot (Some decodePeerError), zeroPresence)
      | Some record =>
          if negb (validPresence record) then (MkRead zeroSnapshot (Some invalidPeerError), record)
          else if negb (sn_Online (pr_Snapshot record)) then
            (MkRead (withoutWorkspace (pr_Snapshot record)) None, MkPresence (withoutWorkspace (pr_Snapshot record)) (pr_Server record) (pr_Generation record))
          else (MkRead (pr_Snapshot record) None, record)
      end
  end.

(** Whether the lease of a server is needed. *)
Definition needsLease (rr : readResult * presenceRecord) (server : string) : Prop :=
  rr_Err rr.1 = None /\ sn_Online (pr_Snapshot rr.2) = true /\ pr_Server rr.2 = server.

Record leasesIndexed (st : readState) : Prop := {
  ix_results : length (rs_results st) = length (rs_records st);
  ix_place server i : rs_indices st !! server = Some i -> rs_leaseKeys st !! i = Some (leaseKey server);
  ix_keys k : k ∈ rs_leaseKeys st -> exists server, k = leaseKey server /\ containsByte ":" server = false;
  ix_distinct : NoDup (rs_leaseKeys st);
  ix_known server : leaseKey server ∈ rs_leaseKeys st -> is_Some (rs_indices st !! server);
  ix_needed rr server : rr ∈ zip (rs_results st) (rs_records st) -> needsLease rr server -> is_Some (rs_indices st !! server)
}.

Lemma validPresence_clean record : validPresence record = true -> containsByte ":" (pr_Server record) = false.
Proof.
  unfold validPresence, Key_UnmarshalText. destruct (decodeKeyText (pr_Server record)) as [k|e|] eqn:HD; [|done..]. apply decodeKeyText_inv in HD as [[Hok _] _].
  intros [[_ Hs%bool_decide_eq_true]%andb_true_iff _]%andb_true_iff. rewrite <-Hs. apply (containsByte_allBytes _ (fun a => containsByte a btcAlphabet)); [done|]. apply base58_alphabet, Hok.
Qed.

Lemma addRead_indexed st result record : leasesIndexed st -> (forall server, needsLease (result, record) server -> is_Some (rs_indices st !! server)) -> leasesIndexed (addRead st result record).
Proof.
  intros [H1 H2 H3 H4 H5 H6] Hn. split; cbn; [by rewrite !length_app, H1|done..|]. intros rr server. rewrite zip_with_app by done. rewrite elem_of_app. intros [?|Hin]; [by eapply H6|]. cbn in Hin. apply list_elem_of_singleton in Hin as ->. apply Hn.
Qed.

Lemma addLease_indexed st server : leasesIndexed st -> containsByte ":" server = false -> leasesIndexed (addLease st server) /\ is_Some (rs_indices (addLease st server) !! server).
Proof.
  intros HI Hc. pose proof HI as [H1 H2 H3 H4 H5 H6]. unfold addLease. destruct (rs_indices st !! server) as [i|] eqn:Hi; [split; [done|by exists i]|]. cbn. split; [|by rewrite lookup_insert_eq].
  split; cbn; [done| | | | |].
  - intros x i. rewrite lookup_insert_Some. intros [[<- <-]|[_ Hx]]; [by rewrite lookup_app_r, Nat.sub_diag by lia|]. apply lookup_app_l_Some, H2, Hx.
  - intros k. rewrite elem_of_app, list_elem_of_singleton. intros [?| ->]; [auto|by exists server].
  - apply NoDup_app. split_and!; [done| |apply NoDup_singleton]. intros k Hk ->%list_elem_of_singleton. destruct (H5 server Hk). congruence.
  - intros x. rewrite elem_of_app, list_elem_of_singleton. intros [[i Hx]%H5|[= ->]]; [|by rewrite lookup_insert_eq]. rewrite lookup_insert_is_Some'. right. by exists i.
  - intros rr x Hin Hn. destruct (H6 rr x Hin Hn) as [i Hx]. rewrite lookup_insert_is_Some'. right. by exists i.
Qed.

Lemma addLease_results st server : rs_results (addLease st server) = rs_results st /\ rs_records (addLease st server) = rs_records st.
Proof. unfold addLease. by destruct (rs_indices st !! server). Qed.

Lemma readRecord_indexed st value : leasesIndexed st ->
  leasesIndexed (readRecord st value) /\ rs_results (readRecord st value) = rs_results st ++ [(resultOf value).1] /\ rs_records (readRecord st value) = rs_records st ++ [(resultOf value).2].
Proof.
  intros HI. unfold readRecord, resultOf.
  assert (forall result record, rr_Err result <> None \/ sn_Online (pr_Snapshot record) = false -> leasesIndexed (addRead st result record)) as Hquiet.
  { intros result record Hq. apply addRead_indexed; [done|]. intros server (H1 & H2 & _). cbn in H1, H2. destruct Hq; congruence. }
  destruct (gr_Err value) as [e|].
  { assert (e = ErrNotFound \/ e <> ErrNotFound) as [->|He] by (destruct e; auto).
    - split; [apply Hquiet; by right|done].
    - destruct e; try done; (split; [apply Hquiet; by left|done]). }
  destruct (decodePresence (gr_Value value)) as [record|]; [|split; [apply Hquiet; by left|done]].
  destruct (validPresence record) eqn:Hv; cbn [negb]; [|split; [apply Hquiet; by left|done]].
  destruct (sn_Online (pr_Snapshot record)) eqn:Hon; cbn [negb]; [|split; [apply Hquiet; by right|done]].
  destruct (addLease_indexed st (pr_Server record) HI (validPresence_clean _ Hv)) as [HI' Hs]. destruct (addLease_results st (pr_Server record)) as [Hr1 Hr2].
  split; [|cbn; by rewrite Hr1, Hr2]. apply addRead_indexed; [done|]. by intros server (_ & _ & <-).
Qed.

Lemma readRecords_indexed values st : leasesIndexed st ->
  let st' := foldl readRecord st values in
  leasesIndexed st' /\ rs_results st' = rs_results st ++ map (fun v => (resultOf v).1) values /\ rs_records st' = rs_records st ++ map (fun v => (resultOf v).2) values.
Proof.
  cbv zeta. revert st. induction values as [|v values IH]; intros st HI; cbn [foldl map]; [by rewrite !app_nil_r|]. destruct (readRecord_indexed st v HI) as (HI' & H1 & H2).
  destruct (IH _ HI') as (? & -> & ->). by rewrite H1, H2, <-!app_assoc.
Qed.

Lemma start_indexed : leasesIndexed (MkReadState [] [] ∅ []).
Proof. split; cbn; [done|by intros ?? ?%lookup_empty_Some|by intros k ?%elem_of_nil|constructor|by intros ? ?%elem_of_nil|by intros ?? ?%elem_of_nil]. Qed.

Lemma zip_maps {A B C} (f : A -> B) (g : A -> C) l : zip (map f l) (map g l) = map (fun x => (f x, g x)) l.
Proof. induction l as [|x l IH]; [done|]. cbn. by rewrite IH. Qed.

Definition answers M1 M2 now peer (result : readResult) : Prop := result = readOne M1 M2 now peer \/ storeFailure result.

(** The lease of one online peer. *)
Lemma finish_online M1 M2 now indices leases peer v d record i g :
  M1 !! E (presencePeerKey peer) = Some (ARec v d) -> decodePresence v = Some record -> validPresence record = true -> sn_Online (pr_Snapshot record) = true ->
  indices !! pr_Server record = Some i -> leases !! i = Some g -> batchAnswer kv_opts M2 (leaseKey (pr_Server record)) g ->
  exists result, finishRead now indices (map decodeLeaseValue leases) (MkRead (pr_Snapshot record) None, record) = Ret result /\ answers M1 M2 now peer result.
Proof.
  intros HM Hd Hv Hon Hi Hl Hg. unfold finishRead, answers, readOne. cbn [rr_Err rr_Snapshot]. rewrite HM, Hd, Hv, Hon, Hi. cbn [negb default]. rewrite bool_decide_eq_false_2 by by intros [? ?]. cbn [orb].
  change (id i) with i. assert (map decodeLeaseValue leases !! i = Some (decodeLeaseValue g)) as -> by (change (map decodeLeaseValue leases) with (decodeLeaseValue <$> leases); by rewrite list_lookup_fmap, Hl). unfold decodeLeaseValue, batchAnswer in *. destruct (gr_Err g) as [e|].
  - assert (e = ErrNotFound \/ e <> ErrNotFound) as [->|He] by (destruct e; auto).
    + eexists. split; [done|]. left. assert (stale now zeroLease record = true) as ->.
      { unfold stale. cbn. apply orb_true_iff. left. apply negb_true_iff, bool_decide_eq_false. intros HG. cbn in HG. unfold validPresence in Hv. destruct (Key_UnmarshalText _ _); [|done..].
        rewrite (bool_decide_eq_true_2 (pr_Generation record = EmptyString)), andb_false_r in Hv by done. done. }
      destruct (M2 !! E (leaseKey (pr_Server record))) as [[l d'|]|] eqn:HM2; [|done..]. by destruct (Hg l d').
    + exists (MkRead zeroSnapshot (Some (PresStore e))). split; [by destruct e|right; by exists e].
  - destruct Hg as [d' ->]. destruct (decodeLease (gr_Value g)) as [lease|]; [|eexists; split; [done|by left]]. eexists. split; [done|]. left. unfold stale.
    destruct (bool_decide _), (now <? _); done.
Qed.

Lemma finish_one M1 M2 now st leases peer value :
  leasesIndexed st -> Forall2 (batchAnswer kv_opts M2) (rs_leaseKeys st) leases -> batchAnswer kv_opts M1 (presencePeerKey peer) value -> resultOf value ∈ zip (rs_results st) (rs_records st) ->
  exists result, finishRead now (rs_indices st) (map decodeLeaseValue leases) (resultOf value) = Ret result /\ answers M1 M2 now peer result.
Proof.
  intros HI HL Hv Hin. pose proof (ix_needed st HI (resultOf value)) as Hneed.
  assert (forall result record, rr_Err result <> None \/ sn_Online (pr_Snapshot record) = false -> finishRead now (rs_indices st) (map decodeLeaseValue leases) (result, record) = Ret result) as Hquiet.
  { intros result record Hq. unfold finishRead. destruct Hq as [Hq| ->]; [|by rewrite orb_true_r]. by rewrite bool_decide_eq_true_2 by by apply not_eq_None_Some. }
  unfold batchAnswer in Hv. unfold resultOf, answers, readOne in *. destruct (gr_Err value) as [e|] eqn:He.
  { assert (e = ErrNotFound \/ e <> ErrNotFound) as [->|Hne] by (destruct e; auto).
    - exists (MkRead zeroSnapshot None). split; [apply Hquiet; by right|]. left. destruct (M1 !! E (presencePeerKey peer)) as [[v d|]|] eqn:HM; [by destruct (Hv v d)|done..].
    - exists (MkRead zeroSnapshot (Some (PresStore e))). split; [destruct e; try done; apply Hquiet; by left|right; by exists e]. }
  destruct Hv as [d HM]. rewrite HM. destruct (decodePresence (gr_Value value)) as [record|] eqn:Hd; [|eexists; split; [apply Hquiet; by left|by left]].
  destruct (validPresence record) eqn:Hval; cbn [negb] in *; [|eexists; split; [apply Hquiet; by left|by left]].
  destruct (sn_Online (pr_Snapshot record)) eqn:Hon; cbn [negb] in *; [|eexists; split; [apply Hquiet; by right|by left]].
  destruct (Hneed (pr_Server record) Hin) as [i Hi]; [by split_and!|]. pose proof (ix_place st HI _ _ Hi) as Hk. destruct (Forall2_lookup_l _ _ _ _ _ HL Hk) as (g & Hg & Hans).
  destruct (finish_online M1 M2 now (rs_indices st) leases peer (gr_Value value) d record i g HM Hd Hval Hon Hi Hg Hans) as (result & HE & HA). exists result. split; [done|].
  unfold answers, readOne in HA. by rewrite HM, Hd, Hval, Hon in HA.
Qed.

Lemma finish_all M1 M2 now st leases peers values :
  leasesIndexed st -> Forall2 (batchAnswer kv_opts M2) (rs_leaseKeys st) leases -> Forall2 (batchAnswer kv_opts M1) (map presencePeerKey peers) values ->
  (forall value, value ∈ values -> resultOf value ∈ zip (rs_results st) (rs_records st)) ->
  exists results, mapGo (finishRead now (rs_indices st) (map decodeLeaseValue leases)) (map resultOf values) = Ret results /\ Forall2 (answers M1 M2 now) peers results.
Proof.
  intros HI HL. revert peers. induction values as [|v values IH]; intros peers HF Hin; destruct peers as [|peer peers]; cbn [map] in HF; try by inversion HF.
  { by exists []. }
  apply Forall2_cons in HF as [Hv HF]. destruct (finish_one M1 M2 now st leases peer v HI HL Hv) as (result & HE & HA); [apply Hin; by left|].
  destruct (IH peers HF) as (results & HE2 & HA2); [intros value Hval; apply Hin; by right|]. exists (result :: results). cbn [map mapGo]. rewrite HE. cbn [mbind Go_bind]. rewrite HE2. cbn. split; [done|by constructor].
Qed.
End one.

(** ** Among others

    [env] is what others do to the store before each read. *)
Section read_batch.
Context {W : Type} {KO : KVOps W} {KL : KVLaws W} {BO : KVBatchOps W} {BL : KVBatchLaws W} {PC : PresenceCodec}.
Context (Hsep : sep kv_opts = ":"%char) (env : nat -> W -> W) (Henv : forall n w, kv_ok w -> kv_ok (env n w)).

#[local] Instance sharedBatchOps : KVBatchOps (W * nat) := {| kvBatchGet ks := sharedCall env (kvBatchGet ks) |}.

Lemma shared_read ks w n x r : kv_ok w -> Forall (cleanKey kv_opts) ks -> kvP (kvBatchGet ks) (w, n) = (x, r) ->
  exists w', x = (w', S n) /\ kv_ok w' /\ kv_db w' = kv_db (env n w) /\ exists l, r = Ret l /\ Forall2 (batchAnswer kv_opts (kv_db (env n w))) ks l.
Proof.
  intros Hok Hks. unfold kvP, mapErrST. cbn. unfold sharedCall. cbn. destruct (kvBatchGet ks (env n w)) as [w' r'] eqn:HE. destruct (kvBatchGet_law _ _ _ _ (Henv n w Hok) Hks HE) as (? & ? & l & -> & HF).
  intros [= <- <-]. exists w'. split_and!; [done|done|done|by exists l].
Qed.

(** C12: [ReadBatch] answers for every peer, in the order of the peers, what reading the
    peer's record and its server's lease by themselves gives: nothing known is offline,
    a broken record or lease is an error of this peer only, and an online peer is shown
    online exactly if the lease in the store is of the same generation and has not
    expired; the workspace of an offline peer is not shown.  The records are those of the
    first read and the leases those of the second, whatever others write in between; an
    error of the store for a key is reported for the peers that need it. *)
Theorem ReadBatch_each now peers w n x r :
  kv_ok w -> Forall (fun peer => containsByte ":" peer = false) peers -> ReadBatch now peers (w, n) = (x, r) ->
  exists w1 results, kv_db w1 = kv_db (env n w) /\ x.2 = S (S n) /\ kv_ok x.1 /\ kv_db x.1 = kv_db (env (S n) w1) /\
    r = Ret results /\ Forall2 (answers (kv_db (env n w)) (kv_db x.1) now) peers results.
Proof.
  intros Hok Hpeers HE. unfold ReadBatch, mbind, ST_bind in HE. destruct (kvP _ _) as [x1 r1] eqn:H1.
  destruct (shared_read (map presencePeerKey peers) w n x1 r1 Hok) as (w1 & -> & Hok1 & Hdb1 & values & -> & HV); [|done|].
  { rewrite Forall_map. eapply Forall_impl; [exact Hpeers|]. intros p Hp. unfold cleanKey. rewrite Hsep. by repeat constructor. }
  cbv beta iota in HE. set (st := foldl readRecord _ values) in HE. destruct (readRecords_indexed values _ start_indexed) as (HI & Hres & Hrec). fold st in HI, Hres, Hrec. cbn [rs_results rs_records app] in Hres, Hrec.
  destruct (kvP _ (w1, S n)) as [x2 r2] eqn:H2. destruct (shared_read (rs_leaseKeys st) w1 (S n) x2 r2 Hok1) as (w2 & -> & Hok2 & Hdb2 & leases & -> & HL); [|done|].
  { rewrite Forall_forall. intros k (server & -> & Hc)%(ix_keys st HI). unfold cleanKey. rewrite Hsep. by repeat constructor. }
  cbv beta iota in HE. assert (zip (rs_results st) (rs_records st) = map resultOf values) as Hzip.
  { rewrite Hres, Hrec, zip_maps. apply map_ext. intros v. by destruct (resultOf v). }
  rewrite <-Hdb2 in HL. destruct (finish_all (kv_db (env n w)) (kv_db w2) now st leases peers values HI HL HV) as (results & HM & HA).
  { intros v Hv. rewrite Hzip. apply list_elem_of_In, in_map, list_elem_of_In, Hv. }
  rewrite Hzip, HM in HE. injection HE as <- <-. exists w1, results. by split_and!.
Qed.
End read_batch.
