(* ===== verification/PresenceQueue.v ===== *)
(** * peerpresence: one writer per peer, and the latest transition wins

    [Start], [Publish], [write] and [Close] of [presence.go] as steps of a state machine: the
    critical sections under [mu], the ends of writes, timers and the end of the context.
    A [pending] is an object that the map and its worker share.

    Theorem: in every interleaving a peer has at most one worker, and as long as the
    service runs either a worker is at work for the peer or the last transition
    published for it is the last one written. *)

From stdpp Require Import gmap strings list.
From S2P Require Import Prelude GoStrings Presence.

Open Scope Z_scope.

Definition publisherId : Type := nat.

Record pendingEntry := MkPending { pe_publisher : publisherId; pe_snapshot : presenceSnapshot; pe_revision : Z; pe_running : bool }.

(** Where a worker is: before the check of the context, before the lock, in
    [writeTransition], waiting after an error, before the lock after a success. *)
Inductive workerPhase :=
  | WHead | WLoad
  | WWriting (publisher : publisherId) (snapshot : presenceSnapshot) (revision : Z)
  | WWaiting
  | WCheck (publisher : publisherId) (snapshot : presenceSnapshot) (revision : Z)
  | WDone.

Record writeWorker := MkWorker { wk_peer : string; wk_entry : nat; wk_phase : workerPhase }.

(** [qs_last] and [qs_written] record what was accepted and what was written for a peer,
    [qs_published] the number of calls of [Publish]. *)
Record queueState := MkQueue {
  qs_started : bool; qs_starting : bool; qs_closed : bool; qs_cancelled : bool;
  qs_pending : gmap string nat; qs_heap : gmap nat pendingEntry; qs_workers : list writeWorker;
  qs_last : gmap string (publisherId * presenceSnapshot); qs_written : gmap string (publisherId * presenceSnapshot); qs_published : nat
}.

(** [New]: the heap address of the next object is the number of objects. *)
Definition newQueue : queueState := MkQueue false false false false ∅ ∅ [] ∅ ∅ 0.

Definition uint64 (n : Z) : Z := n mod 2 ^ 64.

Inductive queueEvent :=
  | EvStart (ok : bool) | EvStarted
  | EvPublish (peer : option string) (publisher : publisherId) (snapshot : presenceSnapshot)
  | EvHead (w : nat) | EvLoad (w : nat) | EvWrote (w : nat) (ok : bool) | EvTimer (w : nat) | EvStop (w : nat) | EvCheck (w : nat)
  | EvCancel | EvClose.

Definition setPhaseW (q : queueState) (w : nat) (phase : workerPhase) : queueState :=
  MkQueue (qs_started q) (qs_starting q) (qs_closed q) (qs_cancelled q) (qs_pending q) (qs_heap q)
    (alter (fun k => MkWorker (wk_peer k) (wk_entry k) phase) w (qs_workers q)) (qs_last q) (qs_written q) (qs_published q).

(** The object of a new entry, or that of the map. *)
Definition freshEntry (q : queueState) : nat := fresh (dom (qs_heap q) : gset nat).

Definition normalizeSnapshot (snapshot : presenceSnapshot) : presenceSnapshot :=
  if sn_Online snapshot then snapshot else MkSnapshot false (sn_LastSeenAt snapshot) EmptyString.

(** The part of [Publish] that stores the transition in the entry and starts a worker. *)
Definition storeTransition (q : queueState) (peer : string) (p : nat) (entry : pendingEntry) (publisher : publisherId) (snapshot : presenceSnapshot) : queueState :=
  MkQueue (qs_started q) (qs_starting q) (qs_closed q) (qs_cancelled q) (<[peer := p]> (qs_pending q))
    (<[p := MkPending publisher snapshot (uint64 (pe_revision entry + 1)) true]> (qs_heap q))
    (if pe_running entry then qs_workers q else qs_workers q ++ [MkWorker peer p WHead])
    (<[peer := (publisher, snapshot)]> (qs_last q)) (qs_written q) (qs_published q).

Definition countPublish (q : queueState) : queueState :=
  MkQueue (qs_started q) (qs_starting q) (qs_closed q) (qs_cancelled q) (qs_pending q) (qs_heap q) (qs_workers q) (qs_last q) (qs_written q) (S (qs_published q)).

Definition emptyPending (publisher : publisherId) (snapshot : presenceSnapshot) : pendingEntry := MkPending publisher snapshot 0 false.

(** [Publish]; [None] is the zero key. *)
Definition Publish (peer : option string) (publisher : publisherId) (snapshot : presenceSnapshot) (q : queueState) : queueState :=
  let q := countPublish q in
  match peer with
  | None => q
  | Some peer =>
      let snapshot := normalizeSnapshot snapshot in
      if negb (qs_started q) || qs_closed q || qs_cancelled q then q
      else
        match p ← qs_pending q !! peer; entry ← qs_heap q !! p; Some (p, entry) with
        | None => storeTransition q peer (freshEntry q) (emptyPending publisher snapshot) publisher snapshot
        | Some (p, entry) =>
            if bool_decide (pe_publisher entry = publisher) && bool_decide (pe_snapshot entry = snapshot) then q
            else storeTransition q peer p entry publisher snapshot
        end
  end.

(** The critical section after a successful write. *)
Definition finishWrite (q : queueState) (w : nat) (worker : writeWorker) (snapshot : presenceSnapshot) (revision : Z) : option queueState :=
  entry ← qs_heap q !! wk_entry worker;
  Some (if revision =? pe_revision entry then
          setPhaseW (MkQueue (qs_started q) (qs_starting q) (qs_closed q) (qs_cancelled q)
            (if sn_Online snapshot then qs_pending q else delete (wk_peer worker) (qs_pending q))
            (<[wk_entry worker := MkPending (pe_publisher entry) (pe_snapshot entry) (pe_revision entry) false]> (qs_heap q))
            (qs_workers q) (qs_last q) (qs_written q) (qs_published q)) w WDone
        else setPhaseW q w WHead).

Definition setFlags (started starting closed cancelled : bool) (q : queueState) : queueState :=
  MkQueue started starting closed cancelled (qs_pending q) (qs_heap q) (qs_workers q) (qs_last q) (qs_written q) (qs_published q).

Definition recordWritten (q : queueState) (peer : string) (t : publisherId * presenceSnapshot) : queueState :=
  MkQueue (qs_started q) (qs_starting q) (qs_closed q) (qs_cancelled q) (qs_pending q) (qs_heap q) (qs_workers q) (qs_last q) (<[peer := t]> (qs_written q)) (qs_published q).

(** [Start] up to its storage write, refused when the service was started or closed. *)
Definition startBegin (ok : bool) (q : queueState) : option queueState :=
  if qs_closed q || qs_started q || qs_starting q then None else Some (setFlags (qs_started q) true (qs_closed q) (negb ok) q).

(** [Start] after its storage write. *)
Definition startEnd (q : queueState) : option queueState :=
  if negb (qs_starting q) || qs_started q || qs_closed q then None else Some (setFlags true (qs_starting q) (qs_closed q) (qs_cancelled q) q).

(** One step of a worker in its phase. *)
Definition workerStep (ev : queueEvent) (q : queueState) (w : nat) : option queueState :=
  worker ← qs_workers q !! w;
  match ev, wk_phase worker with
  | EvHead _, WHead => Some (setPhaseW q w (if qs_cancelled q then WDone else WLoad))
  | EvLoad _, WLoad => entry ← qs_heap q !! wk_entry worker; Some (setPhaseW q w (WWriting (pe_publisher entry) (pe_snapshot entry) (pe_revision entry)))
  | EvWrote _ true, WWriting publisher snapshot revision => Some (setPhaseW (recordWritten q (wk_peer worker) (publisher, snapshot)) w (WCheck publisher snapshot revision))
  | EvWrote _ false, WWriting _ _ _ => Some (setPhaseW q w WWaiting)
  | EvTimer _, WWaiting => Some (setPhaseW q w WHead)
  | EvStop _, WWaiting => if qs_cancelled q then Some (setPhaseW q w WDone) else None
  | EvCheck _, WCheck publisher snapshot revision => finishWrite q w worker snapshot revision
  | _, _ => None
  end.

(** What happens; [None] when it cannot. *)
Definition queueStep (ev : queueEvent) (q : queueState) : option queueState :=
  match ev with
  | EvStart ok => startBegin ok q
  | EvStarted => startEnd q
  | EvPublish peer publisher snapshot => Some (Publish peer publisher snapshot q)
  | EvHead w | EvLoad w | EvWrote w _ | EvTimer w | EvStop w | EvCheck w => workerStep ev q w
  | EvCancel => Some (setFlags (qs_started q) (qs_starting q) (qs_closed q) true q)
  | EvClose => Some (setFlags (qs_started q) (qs_starting q) true true q)
  end.

Fixpoint queueRun (evs : list queueEvent) (q : queueState) : option queueState :=
  match evs with [] => Some q | ev :: evs => q' ← queueStep ev q; queueRun evs q' end.

(** ** The invariant *)
Definition liveW (k : writeWorker) : Prop := wk_phase k <> WDone.

Definition phaseOk (written : option (publisherId * presenceSnapshot)) (entry : pendingEntry) (phase : workerPhase) : Prop :=
  match phase with
  | WWriting publisher snapshot revision => revision <= pe_revision entry /\ (revision = pe_revision entry -> publisher = pe_publisher entry /\ snapshot = pe_snapshot entry)
  | WCheck publisher snapshot revision => revision <= pe_revision entry /\ (revision = pe_revision entry -> publisher = pe_publisher entry /\ snapshot = pe_snapshot entry) /\ written = Some (publisher, snapshot)
  | _ => True
  end.

Definition atWork (q : queueState) (peer : string) : Prop := exists w k, qs_workers q !! w = Some k /\ liveW k /\ wk_peer k = peer.

Definition pendingOk (q : queueState) (peer : string) (entry : pendingEntry) : Prop :=
  qs_last q !! peer = Some (pe_publisher entry, pe_snapshot entry) /\
  (pe_running entry = false -> qs_written q !! peer = qs_last q !! peer) /\ (pe_running entry = true -> qs_cancelled q = false -> atWork q peer).

Record QInv (q : queueState) : Prop := {
  qi_entry peer p : qs_pending q !! peer = Some p -> exists entry, qs_heap q !! p = Some entry /\ pendingOk q peer entry;
  qi_inj a b p : qs_pending q !! a = Some p -> qs_pending q !! b = Some p -> a = b;
  qi_none peer : qs_pending q !! peer = None -> qs_written q !! peer = qs_last q !! peer;
  qi_worker w k : qs_workers q !! w = Some k -> liveW k -> qs_pending q !! wk_peer k = Some (wk_entry k) /\
    exists entry, qs_heap q !! wk_entry k = Some entry /\ pe_running entry = true /\ phaseOk (qs_written q !! wk_peer k) entry (wk_phase k);
  qi_unique w1 w2 k1 k2 : qs_workers q !! w1 = Some k1 -> qs_workers q !! w2 = Some k2 -> liveW k1 -> liveW k2 -> wk_peer k1 = wk_peer k2 -> w1 = w2;
  qi_revision p entry : qs_heap q !! p = Some entry -> 0 <= pe_revision entry <= Z.of_nat (qs_published q);
  qi_idle : qs_started q = false -> qs_pending q = ∅ /\ qs_workers q = []
}.

Lemma new_inv : QInv newQueue.
Proof. by split; cbn. Qed.

Lemma lookup_setPhase q w phase i k' : qs_workers (setPhaseW q w phase) !! i = Some k' ->
  i <> w /\ qs_workers q !! i = Some k' \/ i = w /\ exists k, qs_workers q !! w = Some k /\ k' = MkWorker (wk_peer k) (wk_entry k) phase.
Proof.
  cbn. destruct (decide (i = w)) as [->|Hne]; [rewrite list_lookup_alter_eq|rewrite list_lookup_alter_ne by done; auto].
  destruct (qs_workers q !! w) as [k|]; [|done]. intros [= <-]. right. split; [done|by exists k].
Qed.

(** Everybody else stays at work. *)
Lemma atWork_setPhase q w k phase peer : qs_workers q !! w = Some k -> phase <> WDone \/ wk_peer k <> peer -> atWork q peer -> atWork (setPhaseW q w phase) peer.
Proof.
  intros Hw Hor (w' & k' & Hk & Hl & Hp). destruct (decide (w' = w)) as [->|Hne].
  - destruct Hor as [Hph|Hno]; [|congruence]. exists w, (MkWorker (wk_peer k) (wk_entry k) phase). cbn. rewrite list_lookup_alter_eq, Hw. split_and!; [done|done|cbn; congruence].
  - exists w', k'. cbn. by rewrite list_lookup_alter_ne.
Qed.

(** A worker in a new phase. *)
Lemma setPhase_inv q w k entry phase : QInv q -> qs_workers q !! w = Some k -> liveW k -> qs_heap q !! wk_entry k = Some entry -> phaseOk (qs_written q !! wk_peer k) entry phase ->
  phase <> WDone \/ qs_cancelled q = true -> QInv (setPhaseW q w phase).
Proof.
  intros HI Hw Hl He Hph Hdone. pose proof HI as [H1 H2 H3 H4 H5 H6 H7]. split; [| |exact H3| | |exact H6|].
  - intros peer p Hp. destruct (H1 peer p Hp) as (e & Hh & Ha & Hb & Hc). exists e. split; [done|]. split_and!; [done|done|]. intros Hr Hcan. cbn in Hcan. destruct Hdone as [Hd|Hd]; [|congruence].
    eapply atWork_setPhase; [done|by left|by apply Hc].
  - exact H2.
  - intros i k' Hk' Hl'. apply lookup_setPhase in Hk' as [[_ Hk']|[-> (k0 & Hk0 & ->)]]; [by apply (H4 i)|]. assert (k0 = k) as -> by congruence. cbn.
    destruct (H4 w k Hw Hl) as (Hp & e & He' & Hr & _). split; [done|]. exists e. assert (e = entry) as -> by congruence. by split_and!.
  - intros i j k1 k2 Hk1 Hk2 Hl1 Hl2 Heq. apply lookup_setPhase in Hk1 as [[_ Hk1]|[-> (k0 & Hk0 & ->)]], Hk2 as [[_ Hk2]|[-> (k0' & Hk0' & ->)]]; [by eapply H5| | |done].
    + assert (k0' = k) as -> by congruence. by apply (H5 i w k1 k).
    + assert (k0 = k) as -> by congruence. by apply (H5 w j k k2).
  - intros Hs. destruct (H7 Hs) as [_ HW]. by rewrite HW in Hw.
Qed.

(** The flags of the service. *)
Lemma setFlags_inv q started starting closed cancelled : QInv q -> (qs_started q = true -> started = true) -> (started = false \/ qs_cancelled q = true -> cancelled = true \/ qs_pending q = ∅) -> QInv (setFlags started starting closed cancelled q).
Proof.
  intros [H1 H2 H3 H4 H5 H6 H7] Hs Hc. split; [|exact H2|exact H3|exact H4|exact H5|exact H6|].
  - intros peer p Hp. destruct (H1 peer p Hp) as (e & Hh & Ha & Hb & Hw). exists e. split; [done|]. split_and!; [done|done|]. cbn. intros Hr Hcan. apply Hw; [done|].
    destruct (qs_cancelled q) eqn:Hq; [|done]. destruct (Hc (or_intror eq_refl)) as [?|HE]; [congruence|]. cbn in Hp. by rewrite HE in Hp.
  - cbn. intros Hst. destruct (qs_started q) eqn:Hq; [by rewrite Hs in Hst|]. by apply H7.
Qed.

Lemma phaseOk_later written e phase pub sn : phaseOk written e phase -> phaseOk written (MkPending pub sn (pe_revision e + 1) true) phase.
Proof. destruct phase; cbn; try done; intros (? & ?); (split; [lia|]); [intros; lia|]. split; [intros; lia|naive_solver]. Qed.

(** ** Publish *)
Lemma count_inv q : QInv q -> QInv (countPublish q).
Proof. intros [H1 H2 H3 H4 H5 H6 H7]. split; [exact H1|exact H2|exact H3|exact H4|exact H5| |exact H7]. intros p e He. specialize (H6 p e He). cbn. lia. Qed.

(** The entry of a peer, or a new one. *)
Definition placeOf (q : queueState) (peer : string) (p : nat) (entry : pendingEntry) : Prop :=
  qs_pending q !! peer = Some p /\ qs_heap q !! p = Some entry \/
  qs_pending q !! peer = None /\ qs_heap q !! p = None /\ pe_running entry = false /\ pe_revision entry = 0.

Lemma place_other q peer p entry a i : QInv q -> placeOf q peer p entry -> qs_pending q !! a = Some i -> a <> peer -> i <> p.
Proof.
  intros HI HP Ha Hne ->. destruct HP as [[Hp _]|(_ & Hh & _)]; [by apply Hne, (qi_inj q HI a peer p)|]. destruct (qi_entry q HI a p Ha) as (e & He & _). congruence.
Qed.

Lemma place_worker q peer p entry w k : QInv q -> placeOf q peer p entry -> qs_workers q !! w = Some k -> liveW k -> wk_peer k = peer ->
  wk_entry k = p /\ pe_running entry = true /\ phaseOk (qs_written q !! peer) entry (wk_phase k).
Proof.
  intros HI HP Hw Hl <-. destruct (qi_worker q HI w k Hw Hl) as (Hp & e & He & Hr & Hph). destruct HP as [[Hp' Hh]|[Hn _]]; [|congruence].
  assert (wk_entry k = p) as <- by congruence. assert (e = entry) as -> by congruence. done.
Qed.

Lemma store_inv q peer p entry publisher snapshot :
  QInv q -> placeOf q peer p entry -> pe_revision entry + 1 <= Z.of_nat (qs_published q) < 2 ^ 64 -> 0 <= pe_revision entry -> qs_started q = true -> qs_cancelled q = false ->
  QInv (storeTransition q peer p entry publisher snapshot).
Proof.
  intros HI HP Hrev Hpos Hst Hcan. pose proof HI as [H1 H2 H3 H4 H5 H6 H7]. assert (uint64 (pe_revision entry + 1) = pe_revision entry + 1) as Hu by (apply Z.mod_small; lia).
  assert (forall a, atWork q a -> atWork (storeTransition q peer p entry publisher snapshot) a) as Hkeep.
  { intros a (w & k & Hw & ? & ?). exists w, k. split; [|done]. cbn. destruct (pe_running entry); [done|by apply lookup_app_l_Some]. }
  assert (forall w k, qs_workers (storeTransition q peer p entry publisher snapshot) !! w = Some k -> liveW k ->
    qs_workers q !! w = Some k \/ pe_running entry = false /\ w = length (qs_workers q) /\ k = MkWorker peer p WHead) as Hwk.
  { intros w k. cbn. destruct (pe_running entry); [by left|]. rewrite lookup_app_Some. intros [?|[? Hk]]; [by left|]. apply list_lookup_singleton_Some in Hk as [? <-]. right. split_and!; [done|lia|done]. }
  split.
  - intros a i. cbn. rewrite lookup_insert_Some. intros [[<- <-]|[Hne Ha]].
    + eexists. rewrite lookup_insert_eq. split; [done|]. split_and!; [cbn; by rewrite lookup_insert_eq|done|]. intros _ _. destruct (pe_running entry) eqn:Hr.
      * destruct HP as [[Hp Hh]|(_ & _ & ? & _)]; [|congruence]. destruct (H1 peer p Hp) as (e & He & _ & _ & Hw). assert (e = entry) as -> by congruence. by apply Hkeep, Hw.
      * exists (length (qs_workers q)), (MkWorker peer p WHead). cbn. rewrite Hr, lookup_app_r, Nat.sub_diag by lia. done.
    + destruct (H1 a i Ha) as (e & He & Hla & Hwr & Hw). exists e. rewrite lookup_insert_ne by (apply not_eq_sym; by eapply place_other). split; [done|].
      split_and!; cbn; [by rewrite lookup_insert_ne|by rewrite lookup_insert_ne|]. intros Hr _. by apply Hkeep, Hw.
  - intros a b i. cbn. rewrite !lookup_insert_Some. intros [[<- <-]|[Hna Ha]] [[<- Hb]|[Hnb Hb]]; [done| | |by eapply H2].
    + by destruct (place_other q peer p entry b p HI HP Hb).
    + subst i. by destruct (place_other q peer p entry a p HI HP Ha).
  - intros a. cbn. rewrite lookup_insert_None. intros [Ha Hne]. rewrite lookup_insert_ne by done. by apply H3.
  - intros w k Hk Hl. destruct (Hwk w k Hk Hl) as [Hk'|(Hr & -> & ->)]; cbn.
    + destruct (decide (wk_peer k = peer)) as [He|Hne].
      * destruct (place_worker q peer p entry w k HI HP Hk' Hl He) as (-> & Hr & Hph). rewrite He, !lookup_insert_eq. split; [done|]. eexists. split_and!; [done|done|]. rewrite Hu. by apply phaseOk_later.
      * destruct (H4 w k Hk' Hl) as (Hp & e & He & Hr & Hph). rewrite !lookup_insert_ne; [by split; [|exists e]|apply not_eq_sym; by eapply place_other|done].
    + rewrite !lookup_insert_eq. split; [done|]. by eexists.
  - intros w1 w2 k1 k2 Hk1 Hk2 Hl1 Hl2 Heq. destruct (Hwk w1 k1 Hk1 Hl1) as [Hk1'|(Hr & -> & ->)], (Hwk w2 k2 Hk2 Hl2) as [Hk2'|(Hr' & -> & ->)]; [by eapply H5| | |done].
    + destruct (place_worker q peer p entry w1 k1 HI HP Hk1' Hl1 Heq) as (_ & ? & _). congruence.
    + destruct (place_worker q peer p entry w2 k2 HI HP Hk2' Hl2 (eq_sym Heq)) as (_ & ? & _). congruence.
  - intros i e. cbn. rewrite lookup_insert_Some. intros [[<- <-]|[_ He]]; [cbn; rewrite Hu; lia|by apply (H6 i)].
  - cbn. congruence.
Qed.

Lemma Publish_inv peer publisher snapshot q : QInv q -> Z.of_nat (S (qs_published q)) < 2 ^ 64 -> QInv (Publish peer publisher snapshot q).
Proof.
  intros HI Hb. pose proof (count_inv q HI) as HC. unfold Publish. destruct peer as [peer|]; [|done].
  destruct (negb (qs_started (countPublish q)) || qs_closed (countPublish q) || qs_cancelled (countPublish q)) eqn:Hrun; [done|].
  apply orb_false_iff in Hrun as [[Hst _]%orb_false_iff Hcan]. apply negb_false_iff in Hst.
  destruct (qs_pending (countPublish q) !! peer) as [p|] eqn:Hp; cbn [mbind option_bind].
  - destruct (qi_entry _ HC peer p Hp) as (e & He & _). rewrite He. cbn [mbind option_bind]. destruct (bool_decide (pe_publisher e = publisher) && bool_decide (pe_snapshot e = normalizeSnapshot snapshot)); [done|]. pose proof (qi_revision _ HI p e He). apply store_inv; [done|by left|cbn in *; lia|lia|done|done].
  - apply store_inv; [done| |cbn in *; lia|cbn; lia|done|done]. right. split_and!; [done| |done|done]. apply (not_elem_of_dom (D := gset nat)). unfold freshEntry. apply is_fresh.
Qed.

(** ** The end of a write *)
Lemma written_inv q w k publisher snapshot revision : QInv q -> qs_workers q !! w = Some k -> wk_phase k = WWriting publisher snapshot revision ->
  QInv (setPhaseW (recordWritten q (wk_peer k) (publisher, snapshot)) w (WCheck publisher snapshot revision)).
Proof.
  intros HI Hw Hk. pose proof HI as [H1 H2 H3 H4 H5 H6 H7]. assert (liveW k) as Hl by (unfold liveW; by rewrite Hk). destruct (H4 w k Hw Hl) as (Hp & e & He & Hr & Hph). rewrite Hk in Hph. cbn in Hph.
  split.
  - intros a p Ha. cbn in Ha. destruct (H1 a p Ha) as (e' & He' & Hla & Hwr & Hwo). exists e'. split; [done|]. split_and!; [done| |].
    + cbn. intros Hr'. destruct (decide (a = wk_peer k)) as [->|Hne]; [|rewrite lookup_insert_ne by done; auto]. assert (p = wk_entry k) as -> by congruence. congruence.
    + intros Hr' Hcan. eapply (atWork_setPhase _ w k); [done|by left|by apply Hwo].
  - exact H2.
  - intros a Ha. cbn in *. rewrite lookup_insert_ne; [by apply H3|]. intros <-. congruence.
  - intros i k' Hk' Hl'. apply lookup_setPhase in Hk' as [[Hne Hk']|[-> (k0 & Hk0 & ->)]]; cbn in *.
    + rewrite lookup_insert_ne; [by apply (H4 i)|]. intros Heq. by apply Hne, (H5 i w k' k).
    + assert (k0 = k) as -> by congruence. rewrite lookup_insert_eq. split; [done|]. exists e. split_and!; [done|done|tauto..].
  - intros i j k1 k2 Hk1 Hk2 Hl1 Hl2 Heq. apply lookup_setPhase in Hk1 as [[_ Hk1]|[-> (k0 & Hk0 & ->)]], Hk2 as [[_ Hk2]|[-> (k0' & Hk0' & ->)]]; cbn in *; [by eapply H5| | |done].
    + assert (k0' = k) as -> by congruence. by apply (H5 i w k1 k).
    + assert (k0 = k) as -> by congruence. by apply (H5 w j k k2).
  - exact H6.
  - intros Hs. destruct (H7 Hs) as [_ HW]. by rewrite HW in Hw.
Qed.

Lemma finish_inv q w k publisher snapshot revision q' : QInv q -> qs_workers q !! w = Some k -> wk_phase k = WCheck publisher snapshot revision ->
  finishWrite q w k snapshot revision = Some q' -> QInv q'.
Proof.
  intros HI Hw Hk. pose proof HI as [H1 H2 H3 H4 H5 H6 H7]. assert (liveW k) as Hl by (unfold liveW; by rewrite Hk). destruct (H4 w k Hw Hl) as (Hp & e & He & Hr & Hph). rewrite Hk in Hph.
  unfold finishWrite. rewrite He. intros [= <-]. destruct (Z.eqb_spec revision (pe_revision e)) as [->|Hne]; [|by eapply setPhase_inv; [..|left]].
  destruct Hph as (_ & Heq & Hwr). destruct (Heq eq_refl) as [-> ->]. destruct (H1 _ _ Hp) as (e' & He' & Hla & _). assert (e' = e) as -> by congruence.
  assert (forall a i, a <> wk_peer k -> qs_pending q !! a = Some i -> i <> wk_entry k) as Hother by (intros a i Hna Ha ->; by apply Hna, (H2 a (wk_peer k) (wk_entry k))).
  set (pend := if sn_Online (pe_snapshot e) then qs_pending q else delete (wk_peer k) (qs_pending q)).
  assert (forall a i, pend !! a = Some i -> qs_pending q !! a = Some i) as Hsub. { intros a i. unfold pend. destruct (sn_Online _); [done|]. by intros [_ ?]%lookup_delete_Some. }
  assert (forall a, a <> wk_peer k -> pend !! a = qs_pending q !! a) as Hsame by (intros a Hna; unfold pend; destruct (sn_Online _); [done|by rewrite lookup_delete_ne]).
  split; cbn.
  - fold pend. intros a i Ha. pose proof (Hsub a i Ha) as Ha'. destruct (decide (a = wk_peer k)) as [->|Hna].
    + assert (i = wk_entry k) as -> by congruence. rewrite lookup_insert_eq. eexists. split; [done|]. split_and!; cbn; [done|congruence|done].
    + destruct (H1 a i Ha') as (e2 & He2 & Hla2 & Hwr2 & Hwo). exists e2. rewrite lookup_insert_ne by (apply not_eq_sym; by eapply Hother). split; [done|]. split_and!; [done|done|]. intros Hr2 Hcan.
      destruct (Hwo Hr2 Hcan) as (i' & k' & Hk' & Hl' & Hp'). exists i', k'. cbn. rewrite list_lookup_alter_ne; [done|]. intros ->. congruence.
  - fold pend. intros a b i Ha Hb. by apply (H2 a b i); apply Hsub.
  - fold pend. intros a Ha. destruct (decide (a = wk_peer k)) as [->|Hna]; [congruence|]. apply H3. by rewrite <-Hsame.
  - fold pend. intros i k' Hk' Hl'. change (alter _ w (qs_workers q)) with (qs_workers (setPhaseW q w WDone)) in Hk'. apply lookup_setPhase in Hk' as [[Hni Hk']|[-> (k0 & Hk0 & ->)]]; [|done].
    destruct (H4 i k' Hk' Hl') as (Hp' & e2 & He2 & Hr2 & Hph2). assert (wk_peer k' <> wk_peer k) as Hnp by (intros Hpe; by apply Hni, (H5 i w k' k)). rewrite Hsame by done. split; [done|]. exists e2.
    by rewrite lookup_insert_ne by (apply not_eq_sym; by eapply Hother).
  - intros i j k1 k2 Hk1 Hk2 Hl1 Hl2 Hpe. change (alter _ w (qs_workers q)) with (qs_workers (setPhaseW q w WDone)) in Hk1, Hk2.
    apply lookup_setPhase in Hk1 as [[_ Hk1]|[-> (k0 & Hk0 & ->)]], Hk2 as [[_ Hk2]|[-> (k0' & Hk0' & ->)]]; [by eapply H5|done..].
  - intros i e2. rewrite lookup_insert_Some. intros [[<- <-]|[_ ?]]; [cbn; by apply (H6 (wk_entry k) e)|by apply (H6 i)].
  - intros Hs. destruct (H7 Hs) as [_ HW]. by rewrite HW in Hw.
Qed.

Lemma workerStep_inv ev q w q' : QInv q -> workerStep ev q w = Some q' -> QInv q'.
Proof.
  intros HI. unfold workerStep. destruct (qs_workers q !! w) as [k|] eqn:Hw; [|done]. cbn [mbind option_bind].
  assert (wk_phase k <> WDone -> exists e, qs_heap q !! wk_entry k = Some e) as Hentry by (intros Hl; destruct (qi_worker q HI w k Hw Hl) as (_ & e & ? & _); by exists e).
  destruct ev as [o| |a b c|w'|w'|w' [|]|w'|w'|w'| |], (wk_phase k) as [ | |publisher snapshot revision| |publisher snapshot revision| ] eqn:Hk; try done; destruct Hentry as [e He]; try done.
  - intros [= <-]. eapply (setPhase_inv q w k); [done|done|unfold liveW; by rewrite Hk|done|by destruct (qs_cancelled q)|]. destruct (qs_cancelled q); [by right|by left].
  - rewrite He. intros [= <-]. eapply (setPhase_inv q w k); [done|done|unfold liveW; by rewrite Hk|done|done|by left].
  - intros [= <-]. by apply written_inv.
  - intros [= <-]. eapply (setPhase_inv q w k); [done|done|unfold liveW; by rewrite Hk|done|done|by left].
  - intros [= <-]. eapply (setPhase_inv q w k); [done|done|unfold liveW; by rewrite Hk|done|done|by left].
  - destruct (qs_cancelled q) eqn:Hcan; [|done]. intros [= <-]. eapply (setPhase_inv q w k); [done|done|unfold liveW; by rewrite Hk|done|done|by right].
  - by eapply finish_inv.
Qed.

Definition isPublish (ev : queueEvent) : bool := match ev with EvPublish _ _ _ => true | _ => false end.

Lemma queueStep_inv ev q q' : QInv q -> (isPublish ev = true -> Z.of_nat (S (qs_published q)) < 2 ^ 64) -> queueStep ev q = Some q' -> QInv q'.
Proof.
  intros HI Hb. destruct ev; cbn [queueStep]; try by apply workerStep_inv.
  - unfold startBegin. destruct (qs_closed q || qs_started q || qs_starting q) eqn:Hs; [done|]. intros [= <-]. apply orb_false_iff in Hs as [[_ Hs]%orb_false_iff _]. apply setFlags_inv; [done|done|]. intros _. right. by apply qi_idle.
  - unfold startEnd. destruct (_ || _) eqn:Hs; [done|]. intros [= <-]. apply setFlags_inv; [done|done|]. intros [?|Hc]; [done|by left].
  - intros [= <-]. apply Publish_inv; auto.
  - intros [= <-]. apply setFlags_inv; [done|done|by left].
  - intros [= <-]. apply setFlags_inv; [done|done|by left].
Qed.

Lemma workerStep_published ev q w q' : workerStep ev q w = Some q' -> qs_published q' = qs_published q.
Proof.
  unfold workerStep. destruct (qs_workers q !! w) as [k|]; [|done]. cbn [mbind option_bind].
  destruct ev as [o| |a b c|w'|w'|w' [|]|w'|w'|w'| |], (wk_phase k); try done; try (by intros [= <-]).
  - by intros (e & _ & [= <-])%bind_Some.
  - by destruct (qs_cancelled q); [intros [= <-]|].
  - unfold finishWrite. intros (e & _ & [= <-])%bind_Some. by destruct (_ =? _).
Qed.

Lemma Publish_published peer publisher snapshot q : qs_published (Publish peer publisher snapshot q) = S (qs_published q).
Proof.
  unfold Publish. destruct peer; [|done]. destruct (_ || _); [done|]. destruct (_ ≫= _) as [[p e]|]; [|done]. by destruct (_ && _).
Qed.

Lemma published_step ev q q' : queueStep ev q = Some q' -> qs_published q' = (qs_published q + if isPublish ev then 1 else 0)%nat.
Proof.
  destruct ev; cbn [queueStep isPublish]; rewrite ?Nat.add_0_r; try by apply workerStep_published.
  - unfold startBegin. destruct (_ || _); [done|]. by intros [= <-].
  - unfold startEnd. destruct (_ || _); [done|]. by intros [= <-].
  - intros [= <-]. rewrite Publish_published. lia.
  - by intros [= <-].
  - by intros [= <-].
Qed.

Lemma queueRun_inv evs q q' : QInv q -> Z.of_nat (qs_published q + length (filter isPublish evs)) < 2 ^ 64 -> queueRun evs q = Some q' -> QInv q'.
Proof.
  revert q. induction evs as [|ev evs IH]; intros q HI Hb HE; cbn in HE; [by injection HE as <-|]. apply bind_Some in HE as (q1 & H1 & HE). pose proof (published_step _ _ _ H1) as Hp.
  rewrite filter_cons in Hb. destruct (isPublish ev) eqn:Hev.
  - rewrite decide_True in Hb by done. cbn in Hb. apply (IH q1); [apply (queueStep_inv ev q q1); [done|lia|done]|lia|done].
  - rewrite decide_False in Hb by (intros []). apply (IH q1); [apply (queueStep_inv ev q q1); [done|congruence|done]|lia|done].
Qed.

(** ** A worker left alone *)
(** The worker's way to the end, in at most [n] steps. *)
Definition reaches (n : nat) (q : queueState) (peer : string) : Prop :=
  exists evs q', (length evs <= n)%nat /\ queueRun evs q = Some q' /\ qs_last q' = qs_last q /\ qs_written q' !! peer = qs_last q !! peer.

Lemma reaches_step ev q q1 n peer : queueStep ev q = Some q1 -> qs_last q1 = qs_last q -> reaches n q1 peer -> reaches (S n) q peer.
Proof.
  intros Hst Hla (evs & q' & Hn & HE & Hl & Hw). exists (ev :: evs), q'. cbn [queueRun]. rewrite Hst. cbn. split_and!; [lia|done|congruence|congruence].
Qed.

Lemma setPhase_self q w k phase : qs_workers q !! w = Some k -> qs_workers (setPhaseW q w phase) !! w = Some (MkWorker (wk_peer k) (wk_entry k) phase).
Proof. intros Hw. cbn. by rewrite list_lookup_alter_eq, Hw. Qed.

Lemma reaches_load q w k : QInv q -> qs_workers q !! w = Some k -> wk_phase k = WLoad -> reaches 3 q (wk_peer k).
Proof.
  intros HI Hw Hk. destruct (qi_worker q HI w k Hw) as (Hp & e & He & _); [unfold liveW; by rewrite Hk|]. destruct (qi_entry q HI _ _ Hp) as (e' & He' & Hla & _). assert (e' = e) as -> by congruence.
  set (t := (pe_publisher e, pe_snapshot e)) in *.
  eapply (reaches_step (EvLoad w) _ (setPhaseW q w (WWriting (pe_publisher e) (pe_snapshot e) (pe_revision e)))); [|done|].
  { cbn. unfold workerStep. rewrite Hw. cbn. by rewrite Hk, He. }
  set (q1 := setPhaseW q w _). assert (qs_workers q1 !! w = Some (MkWorker (wk_peer k) (wk_entry k) (WWriting (pe_publisher e) (pe_snapshot e) (pe_revision e)))) as Hw1 by by apply setPhase_self.
  eapply (reaches_step (EvWrote w true) _ (setPhaseW (recordWritten q1 (wk_peer k) t) w (WCheck (pe_publisher e) (pe_snapshot e) (pe_revision e)))); [|done|].
  { cbn [queueStep]. unfold workerStep. by rewrite Hw1. }
  set (q2 := setPhaseW (recordWritten q1 (wk_peer k) t) w _). assert (qs_workers q2 !! w = Some (MkWorker (wk_peer k) (wk_entry k) (WCheck (pe_publisher e) (pe_snapshot e) (pe_revision e)))) as Hw2.
  { unfold q2. by erewrite setPhase_self by exact Hw1. }
  assert (exists q3, queueStep (EvCheck w) q2 = Some q3 /\ qs_last q3 = qs_last q /\ qs_written q3 !! wk_peer k = Some t) as (q3 & HE & H1 & H2).
  { cbn [queueStep]. unfold workerStep. rewrite Hw2. cbn [mbind option_bind wk_phase]. unfold finishWrite. cbn [wk_entry]. change (qs_heap q2) with (qs_heap q). rewrite He. cbn [mbind option_bind]. rewrite Z.eqb_refl.
    eexists. split; [done|]. cbn. split; [done|]. by rewrite lookup_insert_eq. }
  exists [EvCheck w], q3. split; [done|]. cbn [queueRun]. rewrite HE. cbn [mbind option_bind]. split_and!; [done|done|]. rewrite H2. done.
Qed.

Lemma reaches_head q w k : QInv q -> qs_workers q !! w = Some k -> wk_phase k = WHead -> qs_cancelled q = false -> reaches 4 q (wk_peer k).
Proof.
  intros HI Hw Hk Hcan. assert (queueStep (EvHead w) q = Some (setPhaseW q w WLoad)) as HE by (cbn; unfold workerStep; rewrite Hw; cbn; by rewrite Hk, Hcan).
  eapply reaches_step; [exact HE|done|]. eapply (reaches_load _ w (MkWorker (wk_peer k) (wk_entry k) WLoad)); [by eapply workerStep_inv|by apply setPhase_self|done].
Qed.

Lemma reaches_waiting q w k : QInv q -> qs_workers q !! w = Some k -> wk_phase k = WWaiting -> qs_cancelled q = false -> reaches 5 q (wk_peer k).
Proof.
  intros HI Hw Hk Hcan. assert (queueStep (EvTimer w) q = Some (setPhaseW q w WHead)) as HE by (cbn; unfold workerStep; rewrite Hw; cbn; by rewrite Hk).
  eapply reaches_step; [exact HE|done|]. eapply (reaches_head _ w (MkWorker (wk_peer k) (wk_entry k) WHead)); [by eapply workerStep_inv|by apply setPhase_self|done|done].
Qed.

Lemma reaches_writing q w k publisher snapshot revision : QInv q -> qs_workers q !! w = Some k -> wk_phase k = WWriting publisher snapshot revision -> qs_cancelled q = false -> reaches 6 q (wk_peer k).
Proof.
  intros HI Hw Hk Hcan. assert (queueStep (EvWrote w false) q = Some (setPhaseW q w WWaiting)) as HE by (cbn; unfold workerStep; rewrite Hw; cbn; by rewrite Hk).
  eapply reaches_step; [exact HE|done|]. eapply (reaches_waiting _ w (MkWorker (wk_peer k) (wk_entry k) WWaiting)); [by eapply workerStep_inv|by apply setPhase_self|done|done].
Qed.

Lemma reaches_live q w k : QInv q -> qs_workers q !! w = Some k -> liveW k -> qs_cancelled q = false -> reaches 6 q (wk_peer k).
Proof.
  intros HI Hw Hl Hcan. destruct (qi_worker q HI w k Hw Hl) as (Hp & e & He & Hr & Hph).
  assert (forall n, (n <= 6)%nat -> reaches n q (wk_peer k) -> reaches 6 q (wk_peer k)) as Hle by (intros n Hn (evs & q' & ? & ?); exists evs, q'; split; [lia|done]).
  destruct (wk_phase k) as [ | |pub sn rev| |pub sn rev| ] eqn:Hk.
  - by apply (Hle 4%nat); [lia|eapply reaches_head].
  - by apply (Hle 3%nat); [lia|eapply reaches_load].
  - by apply (Hle 6%nat); [lia|eapply reaches_writing].
  - by apply (Hle 5%nat); [lia|eapply reaches_waiting].
  - assert (queueStep (EvCheck w) q = finishWrite q w k sn rev) as HE by (cbn; unfold workerStep; rewrite Hw; cbn; by rewrite Hk).
    unfold finishWrite in HE. rewrite He in HE. cbn [mbind option_bind] in HE. destruct (Z.eqb_spec rev (pe_revision e)) as [->|Hne].
    + apply (Hle 1%nat); [lia|]. eexists [EvCheck w], _. split; [done|]. cbn [queueRun]. rewrite HE. cbn [mbind option_bind]. split; [done|]. cbn. split; [done|].
      destruct Hph as (_ & Heq & ->). destruct (Heq eq_refl) as [-> ->]. destruct (qi_entry q HI _ _ Hp) as (e' & He' & -> & _). congruence.
    + apply (Hle 5%nat); [lia|]. eapply reaches_step; [exact HE|done|]. eapply (reaches_head _ w (MkWorker (wk_peer k) (wk_entry k) WHead)); [by eapply workerStep_inv|by apply setPhase_self|done|done].
  - by destruct Hl.
Qed.

(** C11: In every interleaving of transitions published, workers, timers and the end of the
    service, with fewer than 2^64 transitions published, no peer has two workers, so
    the ownership of a connection and the writes of a peer are never touched by two at
    once.  While the service runs, either the last transition accepted for a peer is
    the last one written for it, or a worker is at work for the peer, and that worker
    gets there in at most six steps of its own. *)
Theorem publish_latest_wins evs q :
  Z.of_nat (length (filter isPublish evs)) < 2 ^ 64 -> queueRun evs newQueue = Some q ->
  (forall w1 w2 k1 k2, qs_workers q !! w1 = Some k1 -> qs_workers q !! w2 = Some k2 -> liveW k1 -> liveW k2 -> wk_peer k1 = wk_peer k2 -> w1 = w2) /\
  (qs_cancelled q = false -> forall peer, qs_written q !! peer = qs_last q !! peer \/ atWork q peer /\ reaches 6 q peer).
Proof.
  intros Hb HE. assert (QInv q) as HI by (eapply queueRun_inv; [exact new_inv|exact Hb|exact HE]). split; [apply HI|]. intros Hcan peer.
  destruct (qs_pending q !! peer) as [p|] eqn:Hp; [|left; by apply HI]. destruct (qi_entry q HI peer p Hp) as (e & He & _ & Hwr & Hwo).
  destruct (pe_running e); [|left; auto]. right. pose proof (Hwo eq_refl Hcan) as Hat. split; [done|]. destruct Hat as (w & k & Hw & Hl & <-). by eapply reaches_live.
Qed.

Definition exOnline : presenceSnapshot := MkSnapshot true 5 "work".
Definition exOffline : presenceSnapshot := MkSnapshot false 9 "".

(** A disconnect that arrives during the write of the connect. *)
Definition exQueue : list queueEvent :=
  [EvStart true; EvStarted; EvPublish (Some "p") 1%nat exOnline; EvHead 0; EvLoad 0; EvPublish (Some "p") 1%nat exOffline; EvWrote 0 true; EvCheck 0].

Lemma publish_latest_wins_witness : exists q, queueRun exQueue newQueue = Some q /\ qs_written q !! "p" = Some (1%nat, exOnline) /\ qs_last q !! "p" = Some (1%nat, exOffline) /\ atWork q "p".
Proof.
  destruct (queueRun exQueue newQueue) as [q|] eqn:HE; [|by vm_compute in HE]. exists q. split; [done|].
  assert (qs_written q !! "p" = Some (1%nat, exOnline) /\ qs_last q !! "p" = Some (1%nat, exOffline) /\ qs_cancelled q = false) as (Hw & Hl & Hc) by (revert HE; vm_compute; by intros [= <-]).
  split_and!; [done|done|]. destruct (publish_latest_wins exQueue q ltac:(vm_compute; done) HE) as [_ HP]. destruct (HP Hc "p") as [Heq|[? _]]; [|done].
  pose proof (eq_trans (eq_sym Hw) (eq_trans Heq Hl)) as HX. done.
Defined.
