(* ===== verification/PresenceWitness.v ===== *)
(** * peerpresence on the in-memory store

    Concrete runs: a connection whose first commit is reported late and which another
    connection then replaces; a batch with a stale transition; a read of peers whose
    servers are gone. *)

From stdpp Require Import gmap strings list.
From S2P Require Import Prelude Triple GoStrings GoText KVKey KVMemory KVSpec KVProps KVIface KVSets KVClient GizKeys PDCodec Presence PresenceFence PresenceBatch.

Open Scope Z_scope.

(** ** The instances *)
Definition packPresence (r : presenceRecord) : string :=
  pack [if sn_Online (pr_Snapshot r) then "1" else "0"; text (sn_LastSeenAt (pr_Snapshot r)); sn_WorkspaceName (pr_Snapshot r); pr_Server r; pr_Generation r]%string.
Definition unpackPresence (s : string) : option presenceRecord :=
  match unpack s with
  | Some [o; t; w; server; generation] => t ← untext t; Some (MkPresence (MkSnapshot (bool_decide (o = "1"%string)) t w) server generation)
  | _ => None
  end.
Definition packLease (l : serverLease) : string := pack [le_Generation l; text (le_ExpiresAt l)].
Definition unpackLease (s : string) : option serverLease :=
  match unpack s with Some [g; t] => t ← untext t; Some (MkLease g t) | _ => None end.

#[export] Instance packPresences : PresenceCodec := {|
  encodePresence := packPresence; decodePresence := unpackPresence; encodeLease := packLease; decodeLease := unpackLease
|}.

Definition preContexts : nat -> nat -> option kvError := fun _ _ => None.
#[export] Instance preOps : KVOps (Memory * nat) := memoryOps 1 preContexts.
#[export] Instance preLaws : KVLaws (Memory * nat) := memoryLaws 1 preContexts None (fun _ _ => ltac:(discriminate)).
#[export] Instance preSetOps : KVSetOps (Memory * nat) := memorySetOps 1 preContexts.
#[export] Instance preSetLaws : KVSetLaws (Memory * nat) := memorySetLaws 1 preContexts None (fun _ _ => ltac:(discriminate)) (fun _ _ => ltac:(discriminate)).
#[export] Instance preBatchOps : KVBatchOps (Memory * nat) := memoryBatchOps 1 preContexts (fun _ k => seq 0 k).
#[export] Instance preBatchLaws : KVBatchLaws (Memory * nat) :=
  memoryBatchLaws 1 preContexts None (fun _ k => seq 0 k) (fun _ _ => ltac:(discriminate)) (fun _ _ => ltac:(discriminate)) (fun _ k => reflexivity _).

Lemma preSep : sep (kv_opts (W := Memory * nat)) = ":"%char.
Proof. reflexivity. Qed.

(** ** A connection among others *)
Definition preService : presenceService := MkService "s" "g1".
Definition prePublisher : presencePublisher := MkPublisher "p" "t1".
Definition preOther : string := "g2/t2".
Definition preArena : Type := arena (W := Memory * nat).

Definition preMemory : Memory := MkMemory {["servers:s:generation" := recordEntry "g1" 0]} None.

Definition lateCommit (mu : Mutation) (x : preArena) : Memory * nat * list (option string) :=
  match kvApply mu (ar_store x) with
  | (w, Ret true) => (w, histNext (ar_hist x) (ownerOf prePublisher (kv_db w)))
  | (w, _) => (w, ar_hist x)
  end.

Definition takeOver (x : preArena) : Memory * nat * list (option string) :=
  if decide (Some preOther ∈ ar_hist x) then (ar_store x, ar_hist x)
  else match kvApply (plainMutation [] [MkEntry (presenceOwnerKey "p") preOther 0] []) (ar_store x) with
       | (w, Ret true) => (w, ar_hist x ++ [Some preOther])
       | (w, _) => (w, ar_hist x)
       end.

(** The first claim is committed before the third call; another connection takes the
    peer before the seventh. *)
Definition preEnv (n : nat) (x : preArena) : Memory * nat * list (option string) :=
  if (n =? 2)%nat then match ar_fly x with mu :: _ => lateCommit mu x | [] => (ar_store x, ar_hist x) end
  else if (n =? 6)%nat then takeOver x
  else (ar_store x, ar_hist x).

(** The answer to the second call is lost. *)
Definition preLost (n : nat) : option presError := if (n =? 2)%nat then Some PresCtx else None.

Lemma preLost_ok n : preLost n <> Some PresRunning.
Proof. unfold preLost. by destruct (n =? 2)%nat. Qed.

Lemma lateCommit_outside mu x : storeOk prePublisher (ar_store x) (ar_hist x) -> mu ∈ ar_fly x ->
  kv_ok (lateCommit mu x).1 /\ rtc (outside preService prePublisher (ar_fly x)) (kv_db (ar_store x), ar_hist x) (kv_db (lateCommit mu x).1, (lateCommit mu x).2).
Proof.
  intros [Hok _] Hmu. unfold lateCommit. destruct (kvApply mu (ar_store x)) as [w r] eqn:HE. destruct (kvApply_law _ _ _ _ Hok HE) as [Hok' Hr].
  destruct r as [[]|e|]; cbn [fst snd]; (split; [done|]).
  - destruct Hr as (HC & _ & ->). apply rtc_once. by apply out_late.
  - destruct Hr as [_ ->]. apply rtc_refl.
  - rewrite Hr. apply rtc_refl.
  - rewrite Hr. apply rtc_refl.
Qed.

Lemma takeOver_outside x : storeOk prePublisher (ar_store x) (ar_hist x) ->
  kv_ok (takeOver x).1 /\ rtc (outside preService prePublisher (ar_fly x)) (kv_db (ar_store x), ar_hist x) (kv_db (takeOver x).1, (takeOver x).2).
Proof.
  intros [Hok _]. unfold takeOver. destruct (decide _) as [|Hno]; [split; [done|apply rtc_refl]|]. destruct (kvApply _ (ar_store x)) as [w r] eqn:HE. destruct (kvApply_law _ _ _ _ Hok HE) as [Hok' Hr].
  destruct r as [[]|e|]; cbn [fst snd]; (split; [done|]).
  - destruct Hr as (_ & _ & ->). rewrite plain_effect. cbn [foldl entry_Key entry_Value entry_Deadline]. apply rtc_once. apply (out_claim preService prePublisher (ar_fly x) _ _ _ preOther); [| |done|done|].
    + unfold ownerTyped. cbn [pp_peer prePublisher]. by rewrite lookup_insert_eq.
    + unfold ownerOf. cbn [pp_peer prePublisher]. by rewrite lookup_insert_eq.
    + unfold isCurrent. by rewrite lookup_insert_ne.
  - destruct Hr as [_ ->]. apply rtc_refl.
  - rewrite Hr. apply rtc_refl.
  - rewrite Hr. apply rtc_refl.
Qed.

Lemma preEnv_ok n x : storeOk prePublisher (ar_store x) (ar_hist x) ->
  kv_ok (preEnv n x).1 /\ rtc (outside preService prePublisher (ar_fly x)) (kv_db (ar_store x), ar_hist x) (kv_db (preEnv n x).1, (preEnv n x).2).
Proof.
  intros Hst. unfold preEnv. destruct (n =? 2)%nat; [|destruct (n =? 6)%nat; [by apply takeOver_outside|split; [apply Hst|apply rtc_refl]]].
  destruct (ar_fly x) as [|mu fly] eqn:Hf; [split; [apply Hst|apply rtc_refl]|]. rewrite <-Hf. apply lateCommit_outside; [done|]. rewrite Hf. by left.
Qed.

Definition preStart : writerState preArena := MkWriter (MkArena (preMemory, 0%nat) [None] [] 0) freshOwnership false.
Definition connect : presenceSnapshot := MkSnapshot true 5 "work".
Definition disconnect : presenceSnapshot := MkSnapshot false 9 "".

Definition preRun : list (presenceSnapshot * Go presError unit * writerState preArena) :=
  transitions preService prePublisher preEnv preLost 2 [connect; connect; disconnect] preStart.

(** A memory of well-formed entries. *)
Lemma memory_ok d : wfData d -> kv_ok (MkMemory d None, 0%nat).
Proof. intros Hd. change (wfMemory (MkMemory d None) /\ mem_opts (MkMemory d None) = None). by split. Qed.

Lemma preStart_connected : connected preService prePublisher preStart.
Proof.
  unfold connected, storeOk, ownerTyped, ownerOf. cbn [preStart wr_store wr_own ar_store ar_hist ar_fly].
  assert (kv_db (preMemory, 0%nat) = {["servers:s:generation" := ARec "g1" 0]}) as -> by (vm_compute; reflexivity).
  assert (@encK None (presenceOwnerKey "p") = "owners:p") as HK by reflexivity. change (encK kv_opts (presenceOwnerKey (pp_peer prePublisher))) with (encK None (presenceOwnerKey "p")). rewrite HK.
  rewrite lookup_singleton_ne by done. split_and!; [by apply memory_ok, map_Forall_singleton|done|done|apply NoDup_singleton|by intros ?%list_elem_of_singleton|done|done].
Qed.

(** The connect is reported as failed, committed late and found again; the disconnect
    finds the peer with another connection, for good. *)
Lemma presence_fencing_witness :
  map (fun '(sn, r, y) => (r, ar_hist (wr_store y), ow_fenced (wr_own y))) preRun =
    [(Fail PresCtx, [None], false); (Ret tt, [None; Some "g1/t1"], false); (Ret tt, [None; Some "g1/t1"; Some preOther], true)] /\
  Forall (fun '(sn, r, y) => ow_fenced (wr_own y) = true -> neverAgain preService prePublisher (factsOf y)) preRun.
Proof.
  split; [vm_compute; reflexivity|].
  eapply Forall_impl; [exact (presence_fencing preSep preService prePublisher eq_refl eq_refl preEnv preLost preLost_ok preEnv_ok 2 [connect; connect; disconnect] preStart ltac:(lia) preStart_connected)|].
  intros [[sn r] y] (_ & _ & _ & H). exact H.
Defined.

(** ** A batch with a stale transition *)
Definition claimOf (peer token : string) : Mutation :=
  plainMutation [generationGuard preService; MkCondition (presenceOwnerKey peer) None] [MkEntry (presencePeerKey peer) "online" 0; MkEntry (presenceOwnerKey peer) token 0] [].
Definition preBatch : list transitionRequest := [MkRequest 1 None None (claimOf "a" "g1/ta"); MkRequest 2 None None (claimOf "b" "g1/tb")].
Definition batchMemory : Memory := MkMemory {["servers:s:generation" := recordEntry "g1" 0; "owners:b" := recordEntry "g0/tb" 0]} None.

Lemma claimOf_peer n peer token : forPeer preService (MkRequest n None None (claimOf peer token)) peer.
Proof. eexists None, _. split; [reflexivity|]. constructor; [by left|]. constructor; [by right|constructor]. Qed.

Lemma preBatch_peers : peersOf preService preBatch ["a"; "b"]%string.
Proof.
  split_and!; [|apply (bool_decide_unpack _); vm_compute; done|by repeat constructor]. constructor; [apply claimOf_peer|]. constructor; [apply claimOf_peer|constructor].
Qed.

Definition onlyRecord (v : aval) : bool := match v with ARec _ _ => true | ASet _ _ => false end.

Lemma records_untyped (M : gmap string aval) k o S : map_Forall (fun _ v => onlyRecord v = true) M -> M !! k <> Some (ASet o S).
Proof. intros HM Hk. by specialize (HM k _ Hk). Qed.

Lemma commitTransitions_sequential_witness :
  exists w' answers, commitTransitions preService 2 (fun _ => None) preBatch (batchMemory, 0%nat) = (w', Ret [(2%nat, (false, None)); (1%nat, (true, None))]) /\
    oneByOne (kv_db (batchMemory, 0%nat)) preBatch (kv_db w') answers /\ answers ≡ₚ [(2%nat, (false, None)); (1%nat, (true, None))].
Proof.
  destruct (commitTransitions preService 2 (fun _ => None) preBatch (batchMemory, 0%nat)) as [w' r] eqn:HE.
  assert (r = Ret [(2%nat, (false, None)); (1%nat, (true, None))]) as Hr by (revert HE; vm_compute; by intros [= _ <-]).
  destruct (commitTransitions_sequential preSep preService eq_refl 2 (fun _ => None) preBatch ["a"; "b"]%string (batchMemory, 0%nat) w' r) as (_ & out & answers & Hout & HO & Hp & _); [lia| |apply preBatch_peers| |exact HE|].
  - apply memory_ok. apply map_Forall_lookup_2. intros k e. by rewrite lookup_insert_Some, lookup_singleton_Some; intros [[_ <-]|[_ [_ <-]]].
  - intros peer o S _. apply records_untyped. apply (bool_decide_unpack _). vm_compute. done.
  - subst r. injection Hout as <-. exists w', answers. split_and!; [done|done|done].
Defined.

(** ** A read of three peers *)
Definition exServer : string := GizKey_String exKey.
Definition onlineRecord : string := packPresence (MkPresence connect exServer "g1").
Definition staleRecord : string := packPresence (MkPresence connect exServer "g0").
Definition readMemory : Memory :=
  MkMemory {["peers:a" := recordEntry onlineRecord 0; "peers:b" := recordEntry staleRecord 0; encK None (leaseKey exServer) := recordEntry (packLease (MkLease "g1" 50)) 0]} None.
Definition preQuiet : nat -> Memory * nat -> Memory * nat := fun _ w => w.

Lemma ReadBatch_each_witness :
  exists x, ReadBatch (BO := sharedBatchOps preQuiet) 20 ["a"; "b"; "c"]%string ((readMemory, 0%nat), 0%nat) =
    (x, Ret [MkRead connect None; MkRead (offline connect) None; MkRead zeroSnapshot None]) /\
  Forall2 (answers (kv_db (readMemory, 0%nat)) (kv_db x.1) 20) ["a"; "b"; "c"]%string [MkRead connect None; MkRead (offline connect) None; MkRead zeroSnapshot None].
Proof.
  destruct (ReadBatch (BO := sharedBatchOps preQuiet) 20 ["a"; "b"; "c"]%string ((readMemory, 0%nat), 0%nat)) as [x r] eqn:HE.
  assert (r = Ret [MkRead connect None; MkRead (offline connect) None; MkRead zeroSnapshot None]) as -> by (revert HE; vm_compute; by intros [= _ <-]).
  exists x. split; [done|]. assert (kv_ok (readMemory, 0%nat)) as Hok by (apply memory_ok, (bool_decide_unpack _); vm_compute; done).
  destruct (ReadBatch_each preSep preQuiet (fun _ _ H => H) 20 ["a"; "b"; "c"]%string (readMemory, 0%nat) 0 x _ Hok ltac:(by repeat constructor) HE) as (w1 & results & _ & _ & _ & _ & [= <-] & HF). exact HF.
Defined.
