(* ===== verification/PeerRoute.v ===== *)
(** * peerroute: the server that a peer is assigned to

    [src/pkgs/gizclaw/services/runtime/peerroute/server.go].  The first server that assigns an
    active client peer to itself keeps it: [Assign] claims an absent assignment or
    refreshes the endpoint and role of its own, and retries when another call was
    faster.  JSON is the class [RouteCodec], the peer service the outcomes of its two
    calls, the clock a function of the call. *)

From stdpp Require Import gmap strings list.
From S2P Require Import Prelude GoStrings GoText GoBytes GizKeys KVKey KVMemory KVIface KVClient.

Open Scope Z_scope.

Inductive routeError :=
  | ErrAssignmentNotFound | ErrInvalidPublicKey | ErrPeerStoreNil | ErrStoreNil | ErrMissingRoute | ErrVersionConflict | ErrPeerInactive | ErrPeerNotAssignable
  | RtStore (e : kvError) | RtText (msg : string) | RtRunning.

Record peerAssignment := MkAssignment {
  as_PeerPublicKey : string; as_ServerPublicKey : string; as_ServerEndpoint : string; as_Role : string; as_Version : Z; as_UpdatedAt : Time
}.

(** The fields of a peer that matter here. *)
Record routePeer := MkRoutePeer { rp_Status : string; rp_Role : string }.

Definition PeerRegistrationStatusActive : string := "active".
Definition PeerRoleClient : string := "client".

Class RouteCodec := { marshalAssignment : peerAssignment -> option string; unmarshalAssignment : string -> option peerAssignment }.

(** The server: its store and peer service may be nil. *)
Record routeServer := MkRouteServer { rt_store : bool; rt_peers : bool; rt_ServerPublicKey : Bytes; rt_ServerEndpoint : string }.

Definition int64 (n : Z) : Z := (n + 2 ^ 63) mod 2 ^ 64 - 2 ^ 63.

Definition assignmentKey (publicKey : string) : Key := ["by-peer"%string; publicKey].

Section route.
Context {W : Type} {KO : KVOps W} {CO : KVCasOps W} {RC : RouteCodec}.

Definition kvT {A} (m : ST W kvError A) : ST W routeError A := mapErrST RtStore m.

Definition validateAssignablePeer (peer : routePeer) : Go routeError unit :=
  _ ← check (negb (bool_decide (rp_Status peer = PeerRegistrationStatusActive))) ErrPeerInactive;
  check (negb (bool_decide (rp_Role peer = PeerRoleClient))) ErrPeerNotAssignable.

Definition validateRoute (s : option routeServer) : Go routeError routeServer :=
  match s with
  | None => Fail ErrMissingRoute
  | Some s => _ ← check (Key_IsZero (rt_ServerPublicKey s) || bool_decide (trimSpace (rt_ServerEndpoint s) = EmptyString)) ErrMissingRoute; Ret s
  end.

Definition routeStore (s : option routeServer) : Go routeError unit :=
  match s with Some s => check (negb (rt_store s)) ErrStoreNil | None => Fail ErrStoreNil end.

Definition encodeAssignment (a : peerAssignment) : Go routeError string :=
  match marshalAssignment a with Some data => Ret data | None => Fail (RtText "peerroute: encode") end.
Definition decodeAssignment (data : string) : Go routeError peerAssignment :=
  match unmarshalAssignment data with Some a => Ret a | None => Fail (RtText "peerroute: decode") end.

Definition assignmentCurrent (s : routeServer) (a : peerAssignment) (peer : routePeer) : bool :=
  bool_decide (as_ServerPublicKey a = GizKey_String (rt_ServerPublicKey s)) && bool_decide (as_ServerEndpoint a = trimSpace (rt_ServerEndpoint s)) && bool_decide (as_Role a = rp_Role peer).

Definition Route_get (s : option routeServer) (publicKey : Bytes) : ST W routeError peerAssignment :=
  _ ← lift (routeStore s);
  r ← tryST (kvT (kvGet (assignmentKey (GizKey_String publicKey))));
  match r with
  | inr data => lift (decodeAssignment data)
  | inl (RtStore ErrNotFound) => failST ErrAssignmentNotFound
  | inl e => failST e
  end.

Definition Route_Lookup (s : option routeServer) (publicKey : Bytes) : ST W routeError peerAssignment :=
  _ ← checkST (Key_IsZero publicKey) ErrInvalidPublicKey; Route_get s publicKey.

(** [ensure] and [load] are the answers of the peer service. *)
Definition checkPeer (s : option routeServer) (publicKey : Bytes) (ensure : Go routeError unit) (load : Go routeError routePeer) : Go routeError (routeServer * routePeer) :=
  _ ← check (Key_IsZero publicKey) ErrInvalidPublicKey;
  server ← validateRoute s;
  _ ← check (negb (rt_peers server)) ErrPeerStoreNil;
  _ ← ensure;
  peer ← load;
  _ ← validateAssignablePeer peer;
  Ret (server, peer).

Definition Route_Resolve (s : option routeServer) (target : Bytes) (ensure : Go routeError unit) (load : Go routeError routePeer) : ST W routeError peerAssignment :=
  _ ← lift (checkPeer s target ensure load); Route_get s target.

Definition firstAssignment (s : routeServer) (publicKey : Bytes) (peer : routePeer) (now : Time) : peerAssignment :=
  MkAssignment (GizKey_String publicKey) (GizKey_String (rt_ServerPublicKey s)) (trimSpace (rt_ServerEndpoint s)) (rp_Role peer) 1 now.

Definition nextAssignment (s : routeServer) (peer : routePeer) (now : Time) (a : peerAssignment) : peerAssignment :=
  MkAssignment (as_PeerPublicKey a) (as_ServerPublicKey a) (trimSpace (rt_ServerEndpoint s)) (rp_Role peer) (int64 (as_Version a + 1)) now.

(** The loop of [Assign], [n] rounds of it: [RtRunning] when it still runs. *)
Fixpoint assignLoop (n : nat) (s : routeServer) (key : Key) (peer : routePeer) (expectedVersion : option Z) (now : nat -> Time) (existing : string) : ST W routeError peerAssignment :=
  match n with
  | O => failST RtRunning
  | S n =>
      current ← lift (decodeAssignment existing);
      if negb (bool_decide (as_ServerPublicKey current = GizKey_String (rt_ServerPublicKey s))) then failST ErrVersionConflict
      else if match expectedVersion with Some v => negb (as_Version current =? v) | None => false end then failST ErrVersionConflict
      else if assignmentCurrent s current peer then mret current
      else
        let next := nextAssignment s peer (now n) current in
        nextEncoded ← lift (encodeAssignment next);
        matched ← kvT (kvCompareAndMutate key existing [MkEntry key nextEncoded 0]);
        if matched : bool then mret next
        else
          r ← tryST (kvT (kvGet key));
          match r with
          | inr existing => assignLoop n s key peer expectedVersion now existing
          | inl (RtStore ErrNotFound) => failST ErrAssignmentNotFound
          | inl e => failST e
          end
  end.

(** The value to start from, or the assignment that was created. *)
Definition assignStart (key : Key) (assignment : peerAssignment) (encoded : string) (expectedVersion : option Z) : ST W routeError (peerAssignment + string) :=
  match expectedVersion with
  | Some _ =>
      r ← tryST (kvT (kvGet key));
      match r with
      | inr existing => mret (inr existing)
      | inl (RtStore ErrNotFound) => failST ErrVersionConflict
      | inl e => failST e
      end
  | None =>
      r ← kvT (kvCreateIfAbsent (MkEntry key encoded 0));
      let '(existing, created) := r : string * bool in mret (if created then inl assignment else inr existing)
  end.

Definition Assign (n : nat) (s : option routeServer) (publicKey : Bytes) (ensure : Go routeError unit) (load : Go routeError routePeer) (now : nat -> Time) (expectedVersion : option Z) : ST W routeError peerAssignment :=
  sp ← lift (checkPeer s publicKey ensure load);
  let key := assignmentKey (GizKey_String publicKey) in
  let assignment := firstAssignment sp.1 publicKey sp.2 (now n) in
  encoded ← lift (encodeAssignment assignment);
  _ ← lift (routeStore s);
  start ← assignStart key assignment encoded expectedVersion;
  match start with
  | inl created => mret created
  | inr existing => assignLoop n sp.1 key sp.2 expectedVersion now existing
  end.

Definition ParsePublicKey (value : string) : Go routeError Bytes :=
  match Key_UnmarshalText (Some zeroKey) (trimSpace value) with
  | Ret key => _ ← check (Key_IsZero key) ErrInvalidPublicKey; Ret key
  | Fail _ => Fail ErrInvalidPublicKey
  | Panic => Panic
  end.

(** [put], which only tests use. *)
Definition Route_put (s : option routeServer) (set : Key -> string -> ST W kvError unit) (updatedIsZero : bool) (a : peerAssignment) : ST W routeError unit :=
  publicKey ← lift (ParsePublicKey (as_PeerPublicKey a));
  _ ← checkST (bool_decide (as_ServerPublicKey a = EmptyString) || bool_decide (as_ServerEndpoint a = EmptyString) || (as_Version a <=? 0) || updatedIsZero || negb (bool_decide (as_Role a = PeerRoleClient)))
        (RtText "peerroute: invalid assignment");
  data ← lift (encodeAssignment a);
  _ ← lift (routeStore s);
  kvT (set (assignmentKey (GizKey_String publicKey)) data).
End route.
