(* ===== verification/PeerRouteProps.v ===== *)
(** * peerroute: an assignment never moves

    Any number of servers assign the same peer on one store.  Between two store calls of
    an [Assign] the others ([env]) may claim the assignment or refresh their own
    ([routeStep]).

    Theorem: every [Assign] takes effect at one instant, it claims the absent
    assignment, refreshes its own or leaves it as it is; a conflict was true at an
    instant; and the server of a peer, once assigned, stays.  A call that is still
    running after [n] rounds has seen the assignment change [n] times. *)

From stdpp Require Import gmap strings list.
From S2P Require Import Prelude GoStrings GoText KVKey KVMemory KVSpec KVProps KVIface Triple KVSets PDCodec GoBytes Encoding EncodingProps GizKeys KVClient PeerRoute.

Open Scope Z_scope.

(** JSON: an empty value is no document. *)
Class RouteCodecLaws `{RouteCodec} := {
  assignment_roundtrip a data : marshalAssignment a = Some data -> unmarshalAssignment data = Some a;
  assignment_empty : unmarshalAssignment EmptyString = None
}.

Section assign.
Context {W : Type} {KO : KVOps W} {KL : KVLaws W} {CO : KVCasOps W} {CL : KVCasLaws W} {RC : RouteCodec} {RCL : RouteCodecLaws}.
Context (Hsep : sep kv_opts = ":"%char) (publicKey : Bytes) (Hkey : keyOk publicKey).
Implicit Types (M : gmap string aval) (a : peerAssignment).
Local Notation E := (encK kv_opts).
Local Notation key := (assignmentKey (GizKey_String publicKey)).

Definition assigned M : option peerAssignment := match M !! E key with Some (ARec v _) => unmarshalAssignment v | _ => None end.

Inductive routeStep M M' : Prop :=
  | route_other : M' !! E key = M !! E key -> routeStep M M'
  | route_claim a : M !! E key = None -> assigned M' = Some a -> as_Version a = 1 -> routeStep M M'
  | route_refresh a a' : assigned M = Some a -> assigned M' = Some a' -> as_ServerPublicKey a' = as_ServerPublicKey a -> as_Version a' = int64 (as_Version a + 1) -> routeStep M M'.

Lemma fixed_server M M' a : rtc routeStep M M' -> assigned M = Some a -> exists a', assigned M' = Some a' /\ as_ServerPublicKey a' = as_ServerPublicKey a.
Proof.
  intros HR. revert a. induction HR as [M|M M1 M' HS HR IH]; intros a Ha; [by exists a|].
  assert (exists a1, assigned M1 = Some a1 /\ as_ServerPublicKey a1 = as_ServerPublicKey a) as (a1 & Ha1 & Hs1).
  { destruct HS as [HE|a0 HN _ _|a0 a1 H0 H1 Hs _].
    - exists a. split; [|done]. unfold assigned in *. by rewrite HE.
    - unfold assigned in Ha. by rewrite HN in Ha.
    - exists a1. split; [done|]. congruence. }
  destruct (IH a1 Ha1) as (a' & Ha' & Hs'). exists a'. split; [done|congruence].
Qed.

(** The store with the others. *)
Context (env : nat -> W -> W) (Henv : forall n w, kv_ok w -> kv_ok (env n w) /\ rtc routeStep (kv_db w) (kv_db (env n w))).

#[local] Instance routeOps : KVOps (W * nat) := sharedOps env.
#[local] Instance routeCasOps : KVCasOps (W * nat) := {|
  kvCreateIfAbsent guard := sharedCall env (kvCreateIfAbsent guard);
  kvCompareAndMutate guard expected entries := sharedCall env (kvCompareAndMutate guard expected entries)
|}.

Local Notation runs := (runs (fun x : W * nat => kv_ok x.1) (fun x : W * nat => kv_db x.1)).

Lemma key_clean_route : cleanKey kv_opts key.
Proof.
  unfold cleanKey. rewrite Hsep. constructor; [done|]. constructor; [|constructor]. apply (containsByte_allBytes _ (fun c => containsByte c btcAlphabet)); [done|]. apply base58_alphabet, Hkey.
Qed.

(** What a reader finds. *)
Definition bytesIn M (v : string) : Prop := exists b, M !! E key = Some b /\ bytesAt b = v.

Lemma get_run_route M : runs M (kvT (kvGet key)) (fun M' r => rtc routeStep M M' /\
  match r with Ret v => bytesIn M' v | Fail (RtStore ErrNotFound) => M' !! E key = None | Fail (RtStore _) => True | _ => False end).
Proof using Hsep Hkey Henv.
  intros [w n] x' r Hok -> HE. unfold kvT, mapErrST in HE. cbn in HE. unfold sharedCall in HE. cbn in HE, Hok |- *. destruct (Henv n w Hok) as [Hok1 HR].
  destruct (kvGet key (env n w)) as [w1 r1] eqn:HG. destruct (kvGet_law _ _ _ _ Hok1 HG) as (Hok2 & Hdb & Hr).
  destruct r1 as [v|e|]; injection HE as <- <-; cbn; (split; [done|]); rewrite Hdb; (split; [done|]).
  - destruct Hr as [d Hd]. by exists (ARec v d).
  - by destruct e.
  - by apply Hr, key_clean_route.
Qed.

Lemma create_run_route M encoded : runs M (kvT (kvCreateIfAbsent (MkEntry key encoded 0))) (fun M' r =>
  exists M0, rtc routeStep M M0 /\
  match r with Ret (v, false) => M' = M0 /\ bytesIn M0 v | Ret (_, true) => M0 !! E key = None /\ M' = <[E key := ARec encoded 0]> M0 | Fail (RtStore _) => M' = M0 | _ => False end).
Proof using Hsep Hkey Henv CL.
  intros [w n] x' r Hok -> HE. unfold kvT, mapErrST in HE. cbn in HE. unfold sharedCall in HE. cbn in HE, Hok |- *. destruct (Henv n w Hok) as [Hok1 HR].
  destruct (kvCreateIfAbsent _ (env n w)) as [w1 r1] eqn:HG. destruct (kvCreateIfAbsent_law _ _ _ _ Hok1 HG) as (Hok2 & Hr).
  destruct r1 as [[v []]|e|]; injection HE as <- <-; cbn in *; (split; [done|]); exists (kv_db (env n w)); (split; [done|]).
  - by destruct Hr as [HN ->].
  - destruct Hr as [Hb ->]. split; [done|]. destruct Hb as (b & ? & ->). by exists b.
  - done.
  - by apply Hr, key_clean_route.
Qed.

Lemma replace_run_route M expected encoded : runs M (kvT (kvCompareAndMutate key expected [MkEntry key encoded 0])) (fun M' r =>
  exists M0, rtc routeStep M M0 /\
  match r with Ret true => bytesIn M0 expected /\ M' = <[E key := ARec encoded 0]> M0 | Ret false => M' = M0 /\ ~ bytesIn M0 expected | Fail (RtStore _) => M' = M0 | _ => False end).
Proof using Hsep Hkey Henv CL.
  intros [w n] x' r Hok -> HE. unfold kvT, mapErrST in HE. cbn in HE. unfold sharedCall in HE. cbn in HE, Hok |- *. destruct (Henv n w Hok) as [Hok1 HR].
  destruct (kvCompareAndMutate _ _ _ (env n w)) as [w1 r1] eqn:HG. destruct (kvCompareAndMutate_law _ _ _ _ _ _ Hok1 HG) as (Hok2 & Hr).
  destruct r1 as [[]|e|]; injection HE as <- <-; cbn in *; (split; [done|]); exists (kv_db (env n w)); (split; [done|]).
  - by destruct Hr as [Hm ->].
  - destruct Hr as [Hm ->]. by split.
  - done.
  - apply Hr. constructor; [apply key_clean_route|]. constructor; [apply key_clean_route|constructor].
Qed.

Lemma bytesIn_assigned M v a : bytesIn M v -> unmarshalAssignment v = Some a -> assigned M = Some a.
Proof using RCL. intros (b & Hb & <-) Ha. unfold assigned. rewrite Hb. destruct b as [v d|o S]; [done|]. cbn in Ha. by rewrite assignment_empty in Ha. Qed.

Lemma assigned_insert M encoded a : unmarshalAssignment encoded = Some a -> assigned (<[E key := ARec encoded 0]> M) = Some a.
Proof. intros Ha. unfold assigned. by rewrite lookup_insert_eq. Qed.

(** ** One instant *)
Section outcome.
Context (server : routeServer) (peer : routePeer) (expected : option Z).

Definition ownedHere a : Prop := as_ServerPublicKey a = GizKey_String (rt_ServerPublicKey server).
Definition versionOk a : Prop := forall v, expected = Some v -> as_Version a = v.

(** What [Assign] does at its instant. *)
Inductive assigns M : Go routeError peerAssignment -> gmap string aval -> Prop :=
  | assigns_claim now data : expected = None -> M !! E key = None -> marshalAssignment (firstAssignment server publicKey peer now) = Some data ->
      assigns M (Ret (firstAssignment server publicKey peer now)) (<[E key := ARec data 0]> M)
  | assigns_current a : assigned M = Some a -> ownedHere a -> versionOk a -> assignmentCurrent server a peer = true -> assigns M (Ret a) M
  | assigns_refresh a now data : assigned M = Some a -> ownedHere a -> versionOk a -> assignmentCurrent server a peer = false -> marshalAssignment (nextAssignment server peer now a) = Some data ->
      assigns M (Ret (nextAssignment server peer now a)) (<[E key := ARec data 0]> M)
  | assigns_conflict a : assigned M = Some a -> ~ ownedHere a \/ ~ versionOk a -> assigns M (Fail ErrVersionConflict) M
  | assigns_absent : expected <> None -> M !! E key = None -> assigns M (Fail ErrVersionConflict) M
  | assigns_error e : e <> ErrVersionConflict -> e <> RtRunning -> assigns M (Fail e) M.

Lemma assigns_step M r M' : assigns M r M' -> routeStep M M'.
Proof using RCL.
  destruct 1 as [now data _ HN Hm|a _ _ _ _|a now data Ha Ho _ _ Hm|a _ _|_ _|e _ _]; try by apply route_other.
  - eapply route_claim; [done|by apply assigned_insert, assignment_roundtrip|done].
  - eapply route_refresh; [done|by apply assigned_insert, assignment_roundtrip|done|done].
Qed.

(** The assignment has changed [n] times. *)
Fixpoint changedTimes (n : nat) M M' : Prop :=
  match n with
  | O => rtc routeStep M M'
  | S n => exists M1 M2, rtc routeStep M M1 /\ rtc routeStep M1 M2 /\ M1 !! E key <> M2 !! E key /\ changedTimes n M2 M'
  end.

Definition settled n Ms M' (r : Go routeError peerAssignment) : Prop :=
  (exists M0 M1, rtc routeStep Ms M0 /\ assigns M0 r M1 /\ rtc routeStep M1 M') \/ r = Fail RtRunning /\ changedTimes n Ms M'.

Lemma finish_at n Ms M0 M1 r M' : rtc routeStep Ms M0 -> assigns M0 r M1 -> rtc routeStep M1 M' -> settled n Ms M' r.
Proof. intros ???. left. by exists M0, M1. Qed.

Lemma changedTimes_pre n Ms M M' : rtc routeStep Ms M -> changedTimes n M M' -> changedTimes n Ms M'.
Proof. destruct n; cbn; [by etrans|]. intros HR (M1 & M2 & H1 & H2). exists M1, M2. split; [by etrans|done]. Qed.

(** The loop, from a value that was read at [Mr]. *)
Lemma assignLoop_run n now existing Ms Mr M : rtc routeStep Ms Mr -> rtc routeStep Mr M -> bytesIn Mr existing ->
  runs M (assignLoop n server key peer expected now existing) (fun M' r => (exists M0 M1, rtc routeStep Ms M0 /\ assigns M0 r M1 /\ rtc routeStep M1 M') \/ r = Fail RtRunning /\ changedTimes n Mr M').
Proof using Hsep Hkey Henv CL RCL.
  revert existing Mr M. induction n as [|n IH]; intros existing Mr M HRs HR Hb; cbn [assignLoop]; [apply runs_lift; by right|].
  assert (forall r, assigns Mr r Mr -> (exists M0 M1, rtc routeStep Ms M0 /\ assigns M0 r M1 /\ rtc routeStep M1 M)) as Hat by (intros r Hr; by exists Mr, Mr).
  unfold decodeAssignment. destruct (unmarshalAssignment existing) as [a|] eqn:Hd; [|apply runs_lift; left; by apply Hat, assigns_error].
  pose proof (bytesIn_assigned Mr existing a Hb Hd) as Ha.
  eapply (runs_bind _ _ _ _ _ (fun M' r => M' = M /\ r = Ret a)); [by apply runs_lift| |naive_solver..]. intros current ? [-> [= ->]].
  case_bool_decide as Hown; cbn [negb]; [|apply runs_lift; left; apply Hat; eapply assigns_conflict; [done|by left]].
  destruct (match expected with Some v => negb (as_Version a =? v) | None => false end) eqn:Hv.
  { apply runs_lift. left. apply Hat. eapply assigns_conflict; [done|right]. intros Hok. destruct expected as [v|] eqn:He; [|done]. apply negb_true_iff, Z.eqb_neq in Hv. by apply Hv, (Hok v). }
  assert (versionOk a) as Hvok. { intros v Hev. rewrite Hev in Hv. by apply negb_false_iff, Z.eqb_eq in Hv. }
  destruct (assignmentCurrent server a peer) eqn:Hcur; [apply runs_lift; left; by apply Hat, assigns_current|].
  unfold encodeAssignment. destruct (marshalAssignment (nextAssignment server peer (now n) a)) as [data|] eqn:Hm; [|apply runs_lift; left; by apply Hat, assigns_error].
  eapply (runs_bind _ _ _ _ _ (fun M' r => M' = M /\ r = Ret data)); [by apply runs_lift| |naive_solver..]. intros nextEncoded ? [-> [= ->]].
  eapply runs_bind; [apply replace_run_route| | |by intros ? (? & _ & ?)].
  2: { intros M' [| | | | | | | |e|msg|] (M0 & HR0 & HM); try done. subst M'. left. exists M0, M0. split; [do 2 (etrans; [done|]); done|]. split; [by apply assigns_error|done]. }
  intros [] M1 (M0 & HR0 & HM).
  - destruct HM as [Hb0 ->]. apply runs_lift. left. eexists M0, _. split; [do 2 (etrans; [done|]); done|]. split; [|done]. eapply assigns_refresh; [by eapply bytesIn_assigned|done..].
  - destruct HM as [-> Hno]. assert (rtc routeStep Ms M0) as HR1 by (do 2 (etrans; [done|]); done).
    eapply runs_bind; [apply runs_try, get_run_route| |by intros ? ? ?|by intros ? [_ ?]]. intros [e|v] M2 [HR2 Hr].
    + assert (forall e', e' <> ErrVersionConflict -> e' <> RtRunning -> runs M2 (failST e' : ST (W * nat) routeError peerAssignment)
        (fun M' r => (exists M0 M1, rtc routeStep Ms M0 /\ assigns M0 r M1 /\ rtc routeStep M1 M') \/ r = Fail RtRunning /\ changedTimes (S n) Mr M')) as Hfail.
      { intros e' H1 H2. apply runs_lift. left. exists M2, M2. split; [by etrans|]. split; [by apply assigns_error|done]. }
      destruct e as [| | | | | | | |[]|msg|]; try done; by apply Hfail.
    + eapply runs_weaken; [apply (IH v M2 M2); [by etrans|done|done]|]. intros M' r [Hl|[-> Hc]]; [by left|]. right. split; [done|]. exists Mr, M0. split; [done|]. split; [by etrans|].
      split; [|by eapply changedTimes_pre]. intros HE. apply Hno. destruct Hb as (b & Hb & <-). exists b. by rewrite <-HE.
Qed.

Lemma assignStart_run now data M : marshalAssignment (firstAssignment server publicKey peer now) = Some data ->
  runs M (assignStart key (firstAssignment server publicKey peer now) data expected) (fun M' r =>
    match r with
    | Ret (inl a) => exists M0, rtc routeStep M M0 /\ assigns M0 (Ret a) M'
    | Ret (inr v) => rtc routeStep M M' /\ bytesIn M' v
    | Fail e => exists M0, rtc routeStep M M0 /\ assigns M0 (Fail e) M'
    | Panic => False
    end).
Proof using Hsep Hkey Henv CL RCL.
  intros Hm. unfold assignStart. destruct expected as [v0|] eqn:He.
  - eapply runs_bind; [apply runs_try, get_run_route| |by intros ? ? ?|by intros ? [_ ?]]. intros [e|v] M2 [HR2 Hr]; [|by apply runs_lift].
    destruct e as [| | | | | | | |[]|msg|]; try done; apply runs_lift; exists M2; (split; [done|]); try (by apply assigns_error). apply assigns_absent; [by rewrite He|done].
  - eapply runs_bind; [apply create_run_route| | |by intros ? (? & _ & ?)].
    2: { intros M' e (M0 & HR & Hr). destruct e; try done. subst M'. exists M0. split; [done|by apply assigns_error]. }
    intros [v []] M' (M0 & HR & Hr); apply runs_lift.
    + destruct Hr as [HN ->]. exists M0. split; [done|]. by apply assigns_claim.
    + by destruct Hr as [-> Hb].
Qed.
End outcome.

Lemma changedTimes_steps k M M' : changedTimes k M M' -> rtc routeStep M M'.
Proof. revert M. induction k as [|k IH]; cbn; [done|]. intros M (M1 & M2 & H1 & H2 & _ & H3). etrans; [exact H1|]. etrans; [exact H2|by apply IH]. Qed.

Lemma settled_steps server peer expected k M M' r : settled server peer expected k M M' r -> rtc routeStep M M'.
Proof using RCL.
  intros [(M0 & M1 & H1 & H2 & H3)|[_ H]]; [|by eapply changedTimes_steps]. etrans; [exact H1|]. etrans; [|exact H3]. by eapply rtc_once, assigns_step.
Qed.

Lemma Assign_run k s server peer ensure load now expected M : checkPeer s publicKey ensure load = Ret (server, peer) ->
  runs M (Assign k s publicKey ensure load now expected) (fun M' r => settled server peer expected k M M' r).
Proof using Hsep Hkey Henv CL RCL.
  intros Hcheck. unfold Assign. rewrite Hcheck. assert (forall e, e <> ErrVersionConflict -> e <> RtRunning -> settled server peer expected k M M (Fail e)) as Herr.
  { intros e H1 H2. by apply (finish_at _ _ _ _ M M M); [|apply assigns_error|]. }
  eapply (runs_bind _ _ _ _ _ (fun M' r => M' = M /\ r = Ret (server, peer))); [by apply runs_lift| |naive_solver..]. intros sp ? [-> [= ->]]. cbn [fst snd].
  unfold encodeAssignment. destruct (marshalAssignment (firstAssignment server publicKey peer (now k))) as [data|] eqn:Hm; [|apply runs_lift; by apply Herr].
  eapply (runs_bind _ _ _ _ _ (fun M' r => M' = M /\ r = Ret data)); [by apply runs_lift| |naive_solver..]. intros encoded ? [-> [= ->]].
  eapply (runs_bind _ _ _ _ _ (fun M' r => M' = M /\ (r = Ret tt \/ r = Fail ErrStoreNil))); [apply runs_lift; split; [done|]; unfold routeStore, check; destruct s as [s'|]; [destruct (negb _); auto|auto]| | |by intros ? [_ [?|?]]].
  2: { intros ? e [-> [?|[= ->]]]; [done|by apply Herr]. }
  intros [] ? [-> _]. eapply runs_bind; [by apply assignStart_run| | |done].
  2: { intros M' e (M0 & HR & HA). by apply (finish_at _ _ _ _ M M0 M'). }
  intros [a|v] M1 Hr.
  - destruct Hr as (M0 & HR & HA). apply runs_lift. by apply (finish_at _ _ _ _ M M0 M1).
  - destruct Hr as [HR Hb]. eapply runs_weaken; [by apply (assignLoop_run server peer expected k now v M M1 M1)|]. intros M' r [(M0 & M2 & H1 & H2 & H3)|[-> Hc]]; [left; by exists M0, M2|]. right. split; [done|]. by eapply changedTimes_pre.
Qed.

End assign.

(** * peerroute on the in-memory store

    Two calls of the same server with different endpoints: the second refreshes the
    assignment between the read and the replacement of the first, which notices and
    refreshes it again. *)

Definition packAssignment (a : peerAssignment) : string :=
  pack [as_PeerPublicKey a; as_ServerPublicKey a; as_ServerEndpoint a; as_Role a; text (as_Version a); text (as_UpdatedAt a)].
Definition unpackAssignment (s : string) : option peerAssignment :=
  match unpack s with
  | Some [p; k; e; r; v; t] => v ← untext v; t ← untext t; Some (MkAssignment p k e r v t)
  | _ => None
  end.

#[export] Instance packRoutes : RouteCodec := {| marshalAssignment a := Some (packAssignment a); unmarshalAssignment := unpackAssignment |}.
#[export] Instance packRoutesLaws : RouteCodecLaws.
Proof.
  constructor; [|by vm_compute]. intros a data [= <-]. change (unpackAssignment (packAssignment a) = Some a). unfold unpackAssignment, packAssignment. rewrite unpack_pack by done. rewrite !untext_text. by destruct a.
Qed.

Definition rouContexts : nat -> nat -> option kvError := fun _ _ => None.
#[export] Instance rouOps : KVOps (Memory * nat) := memoryOps 1 rouContexts.
#[export] Instance rouLaws : KVLaws (Memory * nat) := memoryLaws 1 rouContexts None (fun _ _ => ltac:(discriminate)).
#[export] Instance rouCasOps : KVCasOps (Memory * nat) := memoryCasOps 1 rouContexts.
#[export] Instance rouCasLaws : KVCasLaws (Memory * nat) := memoryCasLaws 1 rouContexts None (fun _ _ => ltac:(discriminate)).

Lemma rouSep : sep (kv_opts (W := Memory * nat)) = ":"%char.
Proof. reflexivity. Qed.

Definition rouServer (endpoint : string) : routeServer := MkRouteServer true true exKey endpoint.
Definition rouPeer : routePeer := MkRoutePeer PeerRegistrationStatusActive PeerRoleClient.
Definition rouIdle : nat -> Memory * nat -> Memory * nat := fun _ w => w.

Lemma rouIdle_ok n w : kv_ok w -> kv_ok (rouIdle n w) /\ rtc (routeStep exKey) (kv_db w) (kv_db (rouIdle n w)).
Proof. intros Hok. by split. Qed.

Definition rouAssign (env : nat -> Memory * nat -> Memory * nat) (endpoint : string) (now : Time) (x : Memory * nat * nat) : (Memory * nat * nat) * Go routeError peerAssignment :=
  Assign (KO := routeOps env) (CO := routeCasOps env) 3 (Some (rouServer endpoint)) exKey (Ret tt) (Ret rouPeer) (fun _ => now) None x.

(** Before the second call of the first server the other call runs. *)
Definition rouOther (n : nat) (w : Memory * nat) : Memory * nat :=
  if (n =? 1)%nat then (rouAssign rouIdle "other" 7 (w, 0%nat)).1.1 else w.

Lemma rouChecked endpoint : trimSpace endpoint <> EmptyString -> checkPeer (Some (rouServer endpoint)) exKey (Ret tt) (Ret rouPeer) = Ret (rouServer endpoint, rouPeer).
Proof.
  intros He. unfold checkPeer, validateRoute, check. assert (Key_IsZero exKey = false) as -> by (vm_compute; reflexivity). cbn [rt_ServerPublicKey rt_ServerEndpoint rouServer].
  assert (Key_IsZero exKey = false) as -> by (vm_compute; reflexivity). by rewrite bool_decide_eq_false_2.
Qed.

Lemma rouOther_ok n w : kv_ok w -> kv_ok (rouOther n w) /\ rtc (routeStep exKey) (kv_db w) (kv_db (rouOther n w)).
Proof.
  intros Hok. unfold rouOther. destruct (n =? 1)%nat; [|by split]. destruct (rouAssign rouIdle "other" 7 (w, 0%nat)) as [x r] eqn:HE. cbn [fst].
  destruct (Assign_run rouSep exKey exKey_ok rouIdle rouIdle_ok 3 (Some (rouServer "other")) (rouServer "other") rouPeer (Ret tt) (Ret rouPeer) (fun _ => 7) None (kv_db w) (rouChecked "other" ltac:(done)) (w, 0%nat) x r Hok eq_refl HE) as [H1 H2].
  split; [exact H1|by eapply settled_steps].
Qed.

Definition rouStored (endpoint : string) (version now : Z) : peerAssignment :=
  MkAssignment (GizKey_String exKey) (GizKey_String exKey) endpoint PeerRoleClient version now.
Definition rouMemory : Memory := MkMemory {[encK None (assignmentKey (GizKey_String exKey)) := recordEntry (packAssignment (rouStored "old" 4 3)) 0]} None.

