(* ===== verification/PeerQuota.v ===== *)
(** * peerquota: decisions of an external quota service and the calls they allow

    [src/pkgs/gizclaw/services/runtime/peerquota/service.go] and [errors.go].  For every
    identity and policy an actor keeps the last decision; [Authorize] asks the actor and
    returns a context that is cancelled when the decision expires.

    The model is a state machine over the objects of the package: actors ([entry]),
    grants, granted calls, and the callers of [Authorize].  Steps are what other
    goroutines can see: critical sections under [mu], communications, the propagation of
    cancellations from one context to another, the top of the actor's loop and what
    follows a receive in it.  A cancellation that arrives in the middle of [respond] has
    the effect of one that arrives after it.  The clock advances between steps, and
    between two readings of one step by an argument.

    Left out: log lines and their rate ([lastWarning]), the HTTP client; a fetch is the
    function [fetch] of what the reporter and the endpoint answer. *)

From stdpp Require Import gmap strings list.
From S2P Require Import Prelude GoStrings KVKey GoBytes GizKeys MapCount.

Open Scope Z_scope.

(** ** Errors *)
Inductive quotaErr :=
  | ErrDenied | ErrUnavailable | ErrQuotaClosed
  | CtxErr (text : string).

#[export] Instance quotaErr_eq_dec : EqDecision quotaErr.
Proof. solve_decision. Defined.

Definition ctxCanceled : quotaErr := CtxErr "context canceled".

Definition exhausted (err : quotaErr) : bool := bool_decide (err = ErrDenied).

(** Code, message and whether to retry. *)
Definition PublicError (err : quotaErr) : string * string * bool :=
  if exhausted err then ("QUOTA_EXHAUSTED", "Quota exhausted.", false)%string
  else ("QUOTA_UNAVAILABLE", "Quota unavailable.", true)%string.

(** [isErr] is [errors.Is] of the error. *)
Definition ErrorDetails (isErr : quotaErr -> bool) : option (string * string * bool) :=
  if isErr ErrDenied then Some (PublicError ErrDenied)
  else if isErr ErrUnavailable || isErr ErrQuotaClosed then Some (PublicError ErrUnavailable)
  else None.

(** ** Durations *)
Definition millisecond : Z := 1000000.
Definition fetchRetryDelay : Z := 1000 * millisecond.
Definition idleLifetime : Z := 5 * 60 * 1000 * millisecond.

(** [Time.Sub] saturates. *)
Definition timeSub (t u : Time) : Z := Z.max (- 2 ^ 63) (Z.min (2 ^ 63 - 1) (t - u)).

(** ** Objects *)
Record quotaPolicy := MkPolicy { qp_Type : string; qp_Endpoint : string; qp_ApiKey : string }.

Record entryKey := MkEntryKey { ek_peer : Bytes; ek_policy : quotaPolicy }.

#[export] Instance quotaPolicy_eq_dec : EqDecision quotaPolicy.
Proof. solve_decision. Defined.
#[export] Instance entryKey_eq_dec : EqDecision entryKey.
Proof. solve_decision. Defined.
#[export] Instance quotaPolicy_countable : Countable quotaPolicy.
Proof. refine (inj_countable' (fun p => (qp_Type p, qp_Endpoint p, qp_ApiKey p)) (fun '(a, b, c) => MkPolicy a b c) _). by intros []. Defined.
#[export] Instance entryKey_countable : Countable entryKey.
Proof. refine (inj_countable' (fun k => (ek_peer k, ek_policy k)) (fun '(a, b) => MkEntryKey a b) _). by intros []. Defined.

Record quotaResponse := MkResponse { qr_ValidUntil : Time; qr_ExpiresAt : option Time }.

(** The child that fetches: none, at work, or with a result in [results]. *)
Inductive fetchState := FetchIdle | FetchRunning | FetchDone (result : option quotaResponse).

(** Where [run] is: before its first statement, at the top of the loop, in [select] with a timer for the given time,
    and in the deferred functions: before [stopGrant], before [<-fetchDone], before the
    lock, before [close(e.done)], before [wg.Done], ended. *)
Inductive actorPhase :=
  | AStart | ATop | ASelect (fire : Time)
  | AExit | AJoin | AUnregister | ACloseDone | AWgDone | AEnded.

(** [e_tokens] is the number of elements of the channel [release]. *)
Record quotaEntry := MkQuotaEntry {
  e_key : entryKey; e_cancelled : bool; e_tokens : nat; e_client : bool; e_phase : actorPhase;
  e_decision : option quotaResponse; e_grant : option nat; e_active : Z; e_lastUsed : Time; e_refreshAt : Time; e_fetch : fetchState
}.

(** [e.done] is closed. *)
Definition doneClosed (phase : actorPhase) : bool := match phase with AWgDone | AEnded => true | _ => false end.

(** [gr_cause] is the cause of the context, [None] while it is not done. *)
Record grantState := MkGrant { gr_entry : nat; gr_cause : option quotaErr }.

(** The [once] of a release: not used, used and before the [select], and the two ways
    through it. *)
Inductive releaseState := NotReleased | Releasing | ReleaseSent | ReleaseDropped.

#[export] Instance releaseState_eq_dec : EqDecision releaseState.
Proof. solve_decision. Defined.

(** [c_delivered] records that [Authorize] has returned the call. *)
Record quotaCall := MkCall {
  c_entry : nat; c_grant : nat; c_request : nat; c_caller : nat;
  c_cause : option quotaErr; c_release : releaseState; c_delivered : bool
}.

Inductive acquired := AcquiredErr (err : quotaErr) | AcquiredCall (c : nat).

(** Where [Authorize] is: before the lock, offering its request, with its request
    accepted and answered, returned. *)
Inductive callerPhase := CLookup | COffer (e : nat) | CWait (e : nat) (reply : acquired) | CReturned (result : acquired).

Record quotaCaller := MkCaller { k_key : entryKey; k_request : nat; k_phase : callerPhase }.

(** [sv_requests] are the contexts of callers that are done, with error and cause. *)
Record quotaService := MkService {
  sv_now : Time; sv_closed : bool; sv_joined : bool; sv_wg : nat;
  sv_entries : gmap entryKey nat; sv_heap : gmap nat quotaEntry; sv_grants : gmap nat grantState; sv_calls : gmap nat quotaCall;
  sv_callers : gmap nat quotaCaller; sv_requests : gmap nat (quotaErr * quotaErr)
}.

Definition NewService (now : Time) : quotaService := MkService now false false 0 ∅ ∅ ∅ ∅ ∅ ∅.

(** ** Updates *)
Definition withPhase (phase : actorPhase) (x : quotaEntry) : quotaEntry :=
  MkQuotaEntry (e_key x) (e_cancelled x) (e_tokens x) (e_client x) phase (e_decision x) (e_grant x) (e_active x) (e_lastUsed x) (e_refreshAt x) (e_fetch x).
Definition withCancelled (x : quotaEntry) : quotaEntry :=
  MkQuotaEntry (e_key x) true (e_tokens x) (e_client x) (e_phase x) (e_decision x) (e_grant x) (e_active x) (e_lastUsed x) (e_refreshAt x) (e_fetch x).
Definition withTokens (tokens : nat) (x : quotaEntry) : quotaEntry :=
  MkQuotaEntry (e_key x) (e_cancelled x) tokens (e_client x) (e_phase x) (e_decision x) (e_grant x) (e_active x) (e_lastUsed x) (e_refreshAt x) (e_fetch x).
Definition withDecision (decision : option quotaResponse) (x : quotaEntry) : quotaEntry :=
  MkQuotaEntry (e_key x) (e_cancelled x) (e_tokens x) (e_client x) (e_phase x) decision (e_grant x) (e_active x) (e_lastUsed x) (e_refreshAt x) (e_fetch x).
Definition withGrant (grant : option nat) (x : quotaEntry) : quotaEntry :=
  MkQuotaEntry (e_key x) (e_cancelled x) (e_tokens x) (e_client x) (e_phase x) (e_decision x) grant (e_active x) (e_lastUsed x) (e_refreshAt x) (e_fetch x).
Definition withActive (active : Z) (x : quotaEntry) : quotaEntry :=
  MkQuotaEntry (e_key x) (e_cancelled x) (e_tokens x) (e_client x) (e_phase x) (e_decision x) (e_grant x) active (e_lastUsed x) (e_refreshAt x) (e_fetch x).
Definition withLastUsed (lastUsed : Time) (x : quotaEntry) : quotaEntry :=
  MkQuotaEntry (e_key x) (e_cancelled x) (e_tokens x) (e_client x) (e_phase x) (e_decision x) (e_grant x) (e_active x) lastUsed (e_refreshAt x) (e_fetch x).
Definition withRefreshAt (refreshAt : Time) (x : quotaEntry) : quotaEntry :=
  MkQuotaEntry (e_key x) (e_cancelled x) (e_tokens x) (e_client x) (e_phase x) (e_decision x) (e_grant x) (e_active x) (e_lastUsed x) refreshAt (e_fetch x).
Definition withFetch (fetch : fetchState) (client : bool) (x : quotaEntry) : quotaEntry :=
  MkQuotaEntry (e_key x) (e_cancelled x) (e_tokens x) client (e_phase x) (e_decision x) (e_grant x) (e_active x) (e_lastUsed x) (e_refreshAt x) fetch.

Definition setObjects (heap : gmap nat quotaEntry) (grants : gmap nat grantState) (sv : quotaService) : quotaService :=
  MkService (sv_now sv) (sv_closed sv) (sv_joined sv) (sv_wg sv) (sv_entries sv) heap grants (sv_calls sv) (sv_callers sv) (sv_requests sv).
Definition setNow (now : Time) (sv : quotaService) : quotaService :=
  MkService now (sv_closed sv) (sv_joined sv) (sv_wg sv) (sv_entries sv) (sv_heap sv) (sv_grants sv) (sv_calls sv) (sv_callers sv) (sv_requests sv).
Definition setFinal (closed joined : bool) (sv : quotaService) : quotaService :=
  MkService (sv_now sv) closed joined (sv_wg sv) (sv_entries sv) (sv_heap sv) (sv_grants sv) (sv_calls sv) (sv_callers sv) (sv_requests sv).
Definition setServiceCalls (calls : gmap nat quotaCall) (sv : quotaService) : quotaService :=
  MkService (sv_now sv) (sv_closed sv) (sv_joined sv) (sv_wg sv) (sv_entries sv) (sv_heap sv) (sv_grants sv) calls (sv_callers sv) (sv_requests sv).
Definition setCallers (callers : gmap nat quotaCaller) (sv : quotaService) : quotaService :=
  MkService (sv_now sv) (sv_closed sv) (sv_joined sv) (sv_wg sv) (sv_entries sv) (sv_heap sv) (sv_grants sv) (sv_calls sv) callers (sv_requests sv).
Definition setRequests (requests : gmap nat (quotaErr * quotaErr)) (sv : quotaService) : quotaService :=
  MkService (sv_now sv) (sv_closed sv) (sv_joined sv) (sv_wg sv) (sv_entries sv) (sv_heap sv) (sv_grants sv) (sv_calls sv) (sv_callers sv) requests.
Definition setActors (wg : nat) (entries : gmap entryKey nat) (heap : gmap nat quotaEntry) (sv : quotaService) : quotaService :=
  MkService (sv_now sv) (sv_closed sv) (sv_joined sv) wg entries heap (sv_grants sv) (sv_calls sv) (sv_callers sv) (sv_requests sv).

Definition putEntry (e : nat) (x : quotaEntry) (sv : quotaService) : quotaService := setObjects (<[e := x]> (sv_heap sv)) (sv_grants sv) sv.
Definition putCall (c : nat) (call : quotaCall) (sv : quotaService) : quotaService := setServiceCalls (<[c := call]> (sv_calls sv)) sv.
Definition putCaller (t : nat) (key : entryKey) (request : nat) (phase : callerPhase) (sv : quotaService) : quotaService :=
  setCallers (<[t := MkCaller key request phase]> (sv_callers sv)) sv.

Definition freshId {A} (m : gmap nat A) : nat := fresh (dom m : gset nat).

(** ** Contexts

    The first cancellation counts. *)
Definition cancelGrant (reason : quotaErr) (gr : grantState) : grantState :=
  MkGrant (gr_entry gr) (Some (default reason (gr_cause gr))).

Definition cancelCall (reason : quotaErr) (call : quotaCall) : quotaCall :=
  MkCall (c_entry call) (c_grant call) (c_request call) (c_caller call) (Some (default reason (c_cause call))) (c_release call) (c_delivered call).

Definition withRelease (release : releaseState) (call : quotaCall) : quotaCall :=
  MkCall (c_entry call) (c_grant call) (c_request call) (c_caller call) (c_cause call) release (c_delivered call).

Definition deliver (call : quotaCall) : quotaCall :=
  MkCall (c_entry call) (c_grant call) (c_request call) (c_caller call) (c_cause call) (c_release call) true.

(** [newGrant]: a child of a context that is done is done. *)
Definition newGrant (e : nat) (cancelled : bool) : grantState := MkGrant e (if cancelled then Some ctxCanceled else None).

(** ** The actor *)
Definition actorState : Type := quotaEntry * gmap nat grantState.

Definition stopGrant (reason : quotaErr) (st : actorState) : actorState :=
  match e_grant st.1 with
  | Some g => (withGrant None st.1, alter (cancelGrant reason) g st.2)
  | None => st
  end.

(** [d.ExpiresAt != nil && !d.ExpiresAt.After(now)]. *)
Definition decisionExpired (decision : option quotaResponse) (now : Time) : bool :=
  match decision with
  | Some d => match qr_ExpiresAt d with Some at_ => negb (now <? at_) | None => false end
  | None => false
  end.

Definition checkExpiry (now : Time) (st : actorState) : actorState :=
  if decisionExpired (e_decision st.1) now then stopGrant ErrDenied st else st.

(** [startFetch]. *)
Definition startFetch (x : quotaEntry) : quotaEntry :=
  match e_fetch x with FetchIdle => withFetch FetchRunning (e_client x) x | _ => x end.

(** The wake-up of the loop, without the time of expiry. *)
Definition idleWake (now : Time) (x : quotaEntry) : Time :=
  if e_active x =? 0 then e_lastUsed x + idleLifetime else now + idleLifetime.

(** The part of the loop that starts a fetch or waits for the time of the next one. *)
Definition refreshPart (now : Time) (x : quotaEntry) : quotaEntry * Time :=
  let wake := idleWake now x in
  match e_fetch x with
  | FetchIdle =>
      if negb (now <? e_refreshAt x) then (startFetch x, wake)
      else if e_refreshAt x <? wake then (x, e_refreshAt x) else (x, wake)
  | _ => (x, wake)
  end.

Definition expiryWake (x : quotaEntry) (wake : Time) : Time :=
  match e_grant x, e_decision x with
  | Some _, Some d => match qr_ExpiresAt d with Some at_ => if at_ <? wake then at_ else wake | None => wake end
  | _, _ => wake
  end.

(** From the top of the loop to [select]; [later] is the reading of [time.Until]. *)
Definition actorTop (now later : Time) (st : actorState) : actorState :=
  let '(x, grants) := checkExpiry now st in
  if (e_active x =? 0) && negb (now <? e_lastUsed x + idleLifetime) then (withPhase AExit x, grants)
  else
    let '(x, wake) := refreshPart now x in
    (withPhase (ASelect (later + Z.max millisecond (expiryWake x wake - later))) x, grants).

(** The case of [results]; [g] is the address of a new grant. *)
Definition actorResult (e g : nat) (now : Time) (result : option quotaResponse) (st : actorState) : actorState :=
  let '(x, grants) := (withFetch FetchIdle (e_client st.1) st.1, st.2) in
  match result with
  | None => (withRefreshAt (now + fetchRetryDelay) x, grants)
  | Some d =>
      let x := withRefreshAt (now + Z.quot (timeSub (qr_ValidUntil d) now) 2) (withDecision (Some d) x) in
      if negb (decisionExpired (Some d) now) then
        match e_grant x with
        | None => (withGrant (Some g) x, <[g := newGrant e (e_cancelled x)]> grants)
        | Some _ => (x, grants)
        end
      else stopGrant ErrDenied (x, grants)
  end.

(** [respond]: the answer, and the call that it grants. *)
Definition respond (e c t request : nat) (done : option (quotaErr * quotaErr)) (now : Time) (st : actorState) (calls : gmap nat quotaCall) :
    actorState * gmap nat quotaCall * acquired :=
  let '(x, grants) := checkExpiry now st in
  match done with
  | Some (err, _) => (x, grants, calls, AcquiredErr err)
  | None =>
      match e_grant x with
      | None => (x, grants, calls, AcquiredErr ErrDenied)
      | Some g => (withActive (e_active x + 1) x, grants, <[c := MkCall e g request t None NotReleased false]> calls, AcquiredCall c)
      end
  end.

(** The entry of [Authorize], and what [run] sets up; [g] is the address of the grant. *)
Definition newEntry (key : entryKey) : quotaEntry := MkQuotaEntry key false 0 false AStart None None 0 0 0 FetchIdle.

Definition actorStart (e g : nat) (now : Time) (st : actorState) : actorState :=
  let x := st.1 in
  (withPhase ATop (withRefreshAt now (withLastUsed now (withGrant (Some g) x))), <[g := newGrant e (e_cancelled x)]> st.2).

(** ** The fetch

    What the world answers: the reporter is configured, its report succeeds, the client
    is constructed, and the status and decoded body of the response, [None] for a
    request that failed. *)
Record parsedURL := MkURL { u_Host : string; u_Scheme : string; u_User : bool; u_Fragment : string }.

Class URLParser := { parseURL : string -> option parsedURL }.

Record fetchWorld := MkFetchWorld {
  fw_reporter : bool; fw_report : bool; fw_newClient : bool; fw_response : option (Z * option quotaResponse)
}.

Inductive fetchError :=
  | ReporterMissing | ReportUnreadable | EndpointInvalid | ClientFailed | RequestFailed
  | HTTPStatus (status : Z) | ValidUntilPast.

Definition endpointOk (u : option parsedURL) : bool :=
  match u with
  | None => false
  | Some u => negb (bool_decide (u_Host u = ""%string) || (negb (bool_decide (u_Scheme u = "http"%string)) && negb (bool_decide (u_Scheme u = "https"%string)))
                    || u_User u || negb (bool_decide (u_Fragment u = ""%string)))
  end.

(** Whether the actor has its client afterwards, and the result. *)
Definition fetch `{URLParser} (policy : quotaPolicy) (client : bool) (now : Time) (w : fetchWorld) : bool * Go fetchError quotaResponse :=
  if negb (fw_reporter w) then (client, Fail ReporterMissing)
  else if negb (fw_report w) then (client, Fail ReportUnreadable)
  else if negb client && negb (endpointOk (parseURL (qp_Endpoint policy))) then (client, Fail EndpointInvalid)
  else if negb client && negb (fw_newClient w) then (client, Fail ClientFailed)
  else
    (true,
     match fw_response w with
     | None => Fail RequestFailed
     | Some (status, Some body) =>
         if negb (status =? 200) then Fail (HTTPStatus status)
         else if now <? qr_ValidUntil body then Ret body else Fail ValidUntilPast
     | Some (status, None) => Fail (HTTPStatus status)
     end).

Definition fetched (r : Go fetchError quotaResponse) : option quotaResponse := match r with Ret d => Some d | _ => None end.

(** ** Steps *)
Inductive quotaEvent :=
  | QTick (d : Z) | QRequestDone (r : nat) (err cause : quotaErr)
  | QAuthorize (t : nat) (key : entryKey) (r : nat) | QLookup (t : nat) | QAcquire (t : nat) (d : Z) | QReply (t : nat) | QRetry (t : nat)
  | QCallerDone (t : nat) | QWaitClosed (t : nat)
  | QClose | QJoined
  | QEntryCtx (e : nat) | QGrantCtx (g : nat) | QGrantStops (c : nat) | QRequestStops (c : nat)
  | QRelease (c : nat) | QSendRelease (c : nat) | QDropRelease (c : nat)
  | QStart (e : nat) | QTop (e : nat) (d : Z) | QTimer (e : nat) | QReleased (e : nat) | QResult (e : nat) | QCtxDone (e : nat)
  | QFetched (e : nat) (w : fetchWorld)
  | QStopGrant (e : nat) | QJoinFetch (e : nat) | QUnregister (e : nat) | QCloseDone (e : nat) | QWgDone (e : nat).

Definition requestDone (sv : quotaService) (r : nat) : option (quotaErr * quotaErr) := sv_requests sv !! r.

(** The beginning of [Authorize]. *)
Definition Authorize (t : nat) (key : entryKey) (r : nat) (sv : quotaService) : quotaService :=
  let policy := ek_policy key in
  let bad := negb (bool_decide (qp_Type policy = "custom"%string)) || Key_IsZero (ek_peer key) || bool_decide (qp_Endpoint policy = ""%string) || bool_decide (qp_ApiKey policy = ""%string) in
  putCaller t key r (if bad then CReturned (AcquiredErr ErrUnavailable) else CLookup) sv.

(** Its critical section. *)
Definition lookupEntry (t : nat) (caller : quotaCaller) (sv : quotaService) : quotaService :=
  if sv_closed sv then putCaller t (k_key caller) (k_request caller) (CReturned (AcquiredErr ErrQuotaClosed)) sv
  else
    match sv_entries sv !! k_key caller with
    | Some e => putCaller t (k_key caller) (k_request caller) (COffer e) sv
    | None =>
        let e := freshId (sv_heap sv) in
        putCaller t (k_key caller) (k_request caller) (COffer e)
          (setActors (S (sv_wg sv)) (<[k_key caller := e]> (sv_entries sv)) (<[e := newEntry (k_key caller)]> (sv_heap sv)) sv)
    end.

(** [e.acquire <- request] meets [request := <-e.acquire]. *)
Definition acceptRequest (t : nat) (caller : quotaCaller) (e : nat) (x : quotaEntry) (d : Z) (sv : quotaService) : quotaService :=
  let '(x', grants, calls, reply) :=
    respond e (freshId (sv_calls sv)) t (k_request caller) (requestDone sv (k_request caller)) (sv_now sv + d) (withLastUsed (sv_now sv) x, sv_grants sv) (sv_calls sv) in
  putCaller t (k_key caller) (k_request caller) (CWait e reply)
    (setServiceCalls calls (setNow (sv_now sv + d) (setObjects (<[e := withPhase ATop x']> (sv_heap sv)) grants sv))).

(** The answer reaches the caller of [Authorize]. *)
Definition deliverReply (t : nat) (caller : quotaCaller) (reply : acquired) (sv : quotaService) : quotaService :=
  let sv := putCaller t (k_key caller) (k_request caller) (CReturned reply) sv in
  match reply with
  | AcquiredCall c => setServiceCalls (alter deliver c (sv_calls sv)) sv
  | AcquiredErr _ => sv
  end.

(** The steps of a caller. *)
Definition callerStep (ev : quotaEvent) (t : nat) (sv : quotaService) : option quotaService :=
  caller ← sv_callers sv !! t;
  let return_ reply := putCaller t (k_key caller) (k_request caller) (CReturned reply) sv in
  match ev, k_phase caller with
  | QLookup _, CLookup => Some (lookupEntry t caller sv)
  | QAcquire _ d, COffer e =>
      x ← sv_heap sv !! e;
      match e_phase x with ASelect _ => if 0 <=? d then Some (acceptRequest t caller e x d sv) else None | _ => None end
  | QRetry _, COffer e => x ← sv_heap sv !! e; if doneClosed (e_phase x) then Some (putCaller t (k_key caller) (k_request caller) CLookup sv) else None
  | QReply _, CWait _ reply => Some (deliverReply t caller reply sv)
  | QCallerDone _, COffer _ | QCallerDone _, CWait _ _ => done ← requestDone sv (k_request caller); Some (return_ (AcquiredErr done.1))
  | QWaitClosed _, CWait e _ => x ← sv_heap sv !! e; if doneClosed (e_phase x) then Some (return_ (AcquiredErr ErrQuotaClosed)) else None
  | _, _ => None
  end.

(** [Service.Close] up to its [select], and the goroutine that waits for the actors. *)
Definition Close (sv : quotaService) : quotaService := setFinal true (sv_joined sv) sv.
Definition joinActors (sv : quotaService) : option quotaService :=
  if sv_closed sv && (sv_wg sv =? 0)%nat then Some (setFinal (sv_closed sv) true sv) else None.

(** What happens to a granted call: its context, and [release], which its holder calls
    or the end of the context. *)
Definition callStep (ev : quotaEvent) (c : nat) (sv : quotaService) : option quotaService :=
  call ← sv_calls sv !! c;
  x ← sv_heap sv !! c_entry call;
  match ev, c_release call with
  | QGrantStops _, _ => gr ← sv_grants sv !! c_grant call; cause ← gr_cause gr; Some (putCall c (cancelCall cause call) sv)
  | QRequestStops _, _ => done ← requestDone sv (c_request call); Some (putCall c (cancelCall done.2 call) sv)
  | QRelease _, NotReleased =>
      if c_delivered call || bool_decide (is_Some (c_cause call)) then Some (putCall c (withRelease Releasing (cancelCall ctxCanceled call)) sv) else None
  | QSendRelease _, Releasing =>
      if (e_tokens x <? 128)%nat then Some (putCall c (withRelease ReleaseSent call) (putEntry (c_entry call) (withTokens (S (e_tokens x)) x) sv)) else None
  | QDropRelease _, Releasing => if e_cancelled x then Some (putCall c (withRelease ReleaseDropped call) sv) else None
  | _, _ => None
  end.

Definition putActor (e : nat) (st : actorState) (sv : quotaService) : quotaService := setObjects (<[e := st.1]> (sv_heap sv)) st.2 sv.

(** The deferred functions of [run]. *)
Definition unregister (e : nat) (x : quotaEntry) (sv : quotaService) : quotaService :=
  setActors (sv_wg sv) (if bool_decide (sv_entries sv !! e_key x = Some e) then delete (e_key x) (sv_entries sv) else sv_entries sv)
    (<[e := withPhase ACloseDone x]> (sv_heap sv)) sv.

Definition exitStep (ev : quotaEvent) (e : nat) (x : quotaEntry) (sv : quotaService) : option quotaService :=
  match ev, e_phase x with
  | QStopGrant _, AExit =>
      let st := stopGrant ErrQuotaClosed (x, sv_grants sv) in
      Some (putActor e (withPhase AJoin (withCancelled st.1), st.2) sv)
  | QJoinFetch _, AJoin => match e_fetch x with FetchRunning => None | _ => Some (putEntry e (withPhase AUnregister x) sv) end
  | QUnregister _, AUnregister => Some (unregister e x sv)
  | QCloseDone _, ACloseDone => Some (putEntry e (withPhase AWgDone x) sv)
  | QWgDone _, AWgDone => Some (setActors (pred (sv_wg sv)) (sv_entries sv) (<[e := withPhase AEnded x]> (sv_heap sv)) sv)
  | _, _ => None
  end.

(** The steps of an actor and of its fetch. *)
Definition actorStep `{URLParser} (ev : quotaEvent) (e : nat) (sv : quotaService) : option quotaService :=
  x ← sv_heap sv !! e;
  let now := sv_now sv in
  match ev, e_phase x with
  | QStart _, AStart => Some (putActor e (actorStart e (freshId (sv_grants sv)) now (x, sv_grants sv)) sv)
  | QTop _ d, ATop => if 0 <=? d then Some (setNow (now + d) (putActor e (actorTop now (now + d) (x, sv_grants sv)) sv)) else None
  | QTimer _, ASelect fire => if fire <=? now then Some (putEntry e (withPhase ATop x) sv) else None
  | QCtxDone _, ASelect _ => if e_cancelled x then Some (putEntry e (withPhase AExit x) sv) else None
  | QReleased _, ASelect _ =>
      match e_tokens x with
      | O => None
      | S tokens => Some (putEntry e (withPhase ATop (withLastUsed now (withActive (e_active x - 1) (withTokens tokens x)))) sv)
      end
  | QResult _, ASelect _ =>
      match e_fetch x with
      | FetchDone result =>
          let st := actorResult e (freshId (sv_grants sv)) now result (x, sv_grants sv) in
          Some (putActor e (withPhase ATop st.1, st.2) sv)
      | _ => None
      end
  | QFetched _ w, _ =>
      match e_fetch x with
      | FetchRunning =>
          let '(client, result) := fetch (ek_policy (e_key x)) (e_client x) now w in
          Some (putEntry e (withFetch (FetchDone (fetched result)) client x) sv)
      | _ => None
      end
  | _, _ => exitStep ev e x sv
  end.

(** Cancellation of [s.ctx] reaches an actor, and that of an actor its grants. *)
Definition entryCtx (e : nat) (sv : quotaService) : option quotaService :=
  x ← sv_heap sv !! e; if sv_closed sv then Some (putEntry e (withCancelled x) sv) else None.
Definition grantCtx (g : nat) (sv : quotaService) : option quotaService :=
  gr ← sv_grants sv !! g; x ← sv_heap sv !! gr_entry gr;
  if e_cancelled x then Some (setObjects (sv_heap sv) (<[g := cancelGrant ctxCanceled gr]> (sv_grants sv)) sv) else None.

(** What happens; [None] when it cannot. *)
Definition quotaStep `{URLParser} (ev : quotaEvent) (sv : quotaService) : option quotaService :=
  match ev with
  | QTick d => if 0 <=? d then Some (setNow (sv_now sv + d) sv) else None
  | QRequestDone r err cause => if sv_requests sv !! r then None else Some (setRequests (<[r := (err, cause)]> (sv_requests sv)) sv)
  | QAuthorize t key r => if sv_callers sv !! t then None else Some (Authorize t key r sv)
  | QLookup t | QAcquire t _ | QReply t | QRetry t | QCallerDone t | QWaitClosed t => callerStep ev t sv
  | QClose => Some (Close sv)
  | QJoined => joinActors sv
  | QEntryCtx e => entryCtx e sv
  | QGrantCtx g => grantCtx g sv
  | QGrantStops c | QRequestStops c | QRelease c | QSendRelease c | QDropRelease c => callStep ev c sv
  | QStart e | QTop e _ | QTimer e | QReleased e | QResult e | QCtxDone e | QFetched e _
  | QStopGrant e | QJoinFetch e | QUnregister e | QCloseDone e | QWgDone e => actorStep ev e sv
  end.

Fixpoint quotaRun `{URLParser} (evs : list quotaEvent) (sv : quotaService) : option quotaService :=
  match evs with [] => Some sv | ev :: evs => sv' ← quotaStep ev sv; quotaRun evs sv' end.
