(* ===== verification/PeerQuotaInv.v ===== *)
(** * peerquota: what holds in every reachable state

    The invariant of [PeerQuota] in four parts: actors and their registration
    ([CoreInv]), grants ([GrantInv]), the number of calls that an actor counts
    ([AcctInv]), granted calls and their callers ([CallInv]). *)

From stdpp Require Import gmap strings list.
From S2P Require Import Prelude GoStrings KVKey GoBytes GizKeys MapCount PeerQuota.

Open Scope Z_scope.

Definition inLoop (phase : actorPhase) : bool := match phase with AStart | ATop | ASelect _ => true | _ => false end.
Definition isRegistered (phase : actorPhase) : bool := match phase with ACloseDone | AWgDone | AEnded => false | _ => true end.
Definition stopped (phase : actorPhase) : bool := match phase with AJoin | AUnregister | ACloseDone | AWgDone | AEnded => true | _ => false end.
Definition joinedFetch (phase : actorPhase) : bool := match phase with AUnregister | ACloseDone | AWgDone | AEnded => true | _ => false end.
Definition deciding (phase : actorPhase) : bool := match phase with ATop | ASelect _ => true | _ => false end.
Definition running (x : quotaEntry) : bool := match e_phase x with AEnded => false | _ => true end.

(** The timer of a waiting actor is due one millisecond from now, unless the next fetch
    and the expiry of the decision are later. *)
Definition timerOk (now : Time) (x : quotaEntry) : Prop :=
  forall fire, e_phase x = ASelect fire ->
    (e_fetch x = FetchIdle -> fire <= Z.max (e_refreshAt x) (now + millisecond)) /\
    (forall d at_, is_Some (e_grant x) -> e_decision x = Some d -> qr_ExpiresAt d = Some at_ -> fire <= Z.max at_ (now + millisecond)).

(** An actor by itself. *)
Record actorOk (now : Time) (closed : bool) (x : quotaEntry) : Prop := {
  eo_cancelled : e_cancelled x = true -> closed = true \/ stopped (e_phase x) = true;
  eo_stopped : stopped (e_phase x) = true -> e_cancelled x = true /\ e_grant x = None;
  eo_exit : inLoop (e_phase x) = false -> closed = true \/ e_active x = 0;
  eo_fetch : joinedFetch (e_phase x) = true -> e_fetch x <> FetchRunning;
  eo_denied : deciding (e_phase x) = true -> e_grant x = None -> decisionExpired (e_decision x) now = true;
  eo_start : e_phase x = AStart -> e_grant x = None /\ e_decision x = None;
  eo_timer : timerOk now x
}.

Record CoreInv (now : Time) (closed joined : bool) (wg : nat) (entries : gmap entryKey nat) (heap : gmap nat quotaEntry) : Prop := {
  ci_entry e x : heap !! e = Some x -> actorOk now closed x;
  ci_reg k e : entries !! k = Some e <-> exists x, heap !! e = Some x /\ e_key x = k /\ isRegistered (e_phase x) = true;
  ci_wg : wg = cnt running heap;
  ci_joined : joined = true -> closed = true /\ wg = 0%nat
}.

Definition causeOk (x : quotaEntry) (cause : quotaErr) : Prop := cause = ErrDenied \/ e_cancelled x = true /\ (cause = ErrQuotaClosed \/ cause = ctxCanceled).

Record GrantInv (heap : gmap nat quotaEntry) (grants : gmap nat grantState) : Prop := {
  gi_current e x g : heap !! e = Some x -> e_grant x = Some g -> exists gr, grants !! g = Some gr /\ gr_entry gr = e /\ (gr_cause gr = None \/ e_cancelled x = true);
  gi_live g gr : grants !! g = Some gr -> exists x, heap !! gr_entry gr = Some x /\ (gr_cause gr = None -> e_grant x = Some g) /\ (forall cause, gr_cause gr = Some cause -> causeOk x cause)
}.

(** A call of the actor that it still counts, beside the tokens. *)
Definition uncounted (e : nat) (call : quotaCall) : bool :=
  bool_decide (c_entry call = e) && negb (bool_decide (c_release call = ReleaseSent)).

Record AcctInv (heap : gmap nat quotaEntry) (calls : gmap nat quotaCall) : Prop := {
  ai_active e x : heap !! e = Some x -> (e_tokens x <= 128)%nat /\ e_active x = Z.of_nat (e_tokens x + cnt (uncounted e) calls);
  ai_entry c call : calls !! c = Some call -> is_Some (heap !! c_entry call)
}.

Definition callReason (requests : gmap nat (quotaErr * quotaErr)) (gr : grantState) (call : quotaCall) (cause : quotaErr) : Prop :=
  cause = ctxCanceled /\ c_release call <> NotReleased \/ (exists done, requests !! c_request call = Some done /\ cause = done.2) \/ gr_cause gr = Some cause.

Definition awaitsReply (callers : gmap nat quotaCaller) (c : nat) (call : quotaCall) : Prop :=
  exists k, callers !! c_caller call = Some k /\ k_phase k = CWait (c_entry call) (AcquiredCall c).

(** A call whose caller has returned without it is being stopped. *)
Definition heldBy (callers : gmap nat quotaCaller) (requests : gmap nat (quotaErr * quotaErr)) (gr : grantState) (c : nat) (call : quotaCall) : Prop :=
  c_delivered call = true \/ awaitsReply callers c call \/ is_Some (requests !! c_request call) \/ is_Some (gr_cause gr).

Record leaseOk (grants : gmap nat grantState) (callers : gmap nat quotaCaller) (requests : gmap nat (quotaErr * quotaErr)) (c : nat) (call : quotaCall) (gr : grantState) : Prop := {
  co_grant : grants !! c_grant call = Some gr;
  co_entry : gr_entry gr = c_entry call;
  co_reason cause : c_cause call = Some cause -> callReason requests gr call cause;
  co_held : heldBy callers requests gr c call;
  co_free : c_cause call = None -> c_release call = NotReleased;
  co_caller : exists k, callers !! c_caller call = Some k /\ k_request k = c_request call
}.

Definition replyOk (calls : gmap nat quotaCall) (t : nat) (delivered : bool) (reply : acquired) : Prop :=
  forall c, reply = AcquiredCall c -> exists call, calls !! c = Some call /\ c_caller call = t /\ c_delivered call = delivered.

Definition callerOk (heap : gmap nat quotaEntry) (calls : gmap nat quotaCall) (t : nat) (k : quotaCaller) : Prop :=
  match k_phase k with
  | CLookup => True
  | COffer e => is_Some (heap !! e)
  | CWait e reply => is_Some (heap !! e) /\ replyOk calls t false reply /\ forall c call, reply = AcquiredCall c -> calls !! c = Some call -> c_entry call = e
  | CReturned reply => replyOk calls t true reply
  end.

Record CallInv (heap : gmap nat quotaEntry) (grants : gmap nat grantState) (calls : gmap nat quotaCall) (callers : gmap nat quotaCaller) (requests : gmap nat (quotaErr * quotaErr)) : Prop := {
  li_call c call : calls !! c = Some call -> exists gr, leaseOk grants callers requests c call gr;
  li_caller t k : callers !! t = Some k -> callerOk heap calls t k
}.

Record QuotaInv (sv : quotaService) : Prop := {
  qv_core : CoreInv (sv_now sv) (sv_closed sv) (sv_joined sv) (sv_wg sv) (sv_entries sv) (sv_heap sv);
  qv_grant : GrantInv (sv_heap sv) (sv_grants sv);
  qv_acct : AcctInv (sv_heap sv) (sv_calls sv);
  qv_call : CallInv (sv_heap sv) (sv_grants sv) (sv_calls sv) (sv_callers sv) (sv_requests sv)
}.

Lemma new_quota_inv now : QuotaInv (NewService now).
Proof.
  split; split; cbn; try done; try (intros; by simplify_map_eq).
  - intros k e. split; [by intros ?%lookup_empty_Some|]. by intros (x & ?%lookup_empty_Some & _).
Qed.

Lemma freshId_None {A} (m : gmap nat A) : m !! freshId m = None.
Proof. apply (not_elem_of_dom (D := gset nat)), is_fresh. Qed.

(** ** Actors *)
Lemma expired_later decision now now' : now <= now' -> decisionExpired decision now = true -> decisionExpired decision now' = true.
Proof.
  intros Hle. unfold decisionExpired. destruct decision as [[v [at_|]]|]; cbn; [|done..]. rewrite !negb_true_iff, !Z.ltb_ge. lia.
Qed.

Lemma entryOk_mono now now' closed closed' x : now <= now' -> (closed = true -> closed' = true) -> actorOk now closed x -> actorOk now' closed' x.
Proof.
  intros Hn Hc [H1 H2 H3 H4 H5 H6 H7]. split; [naive_solver|done|naive_solver|done| |done|].
  - intros Hd Hg. eapply expired_later; [done|]. by apply H5.
  - intros fire Hf. destruct (H7 fire Hf) as [Ha Hb]. split; [intros Hi; specialize (Ha Hi); lia|]. intros d at_ Hg Hd Hat. specialize (Hb d at_ Hg Hd Hat). lia.
Qed.

Lemma core_mono now now' closed closed' joined wg entries heap : now <= now' -> (closed = true -> closed' = true) ->
  CoreInv now closed joined wg entries heap -> CoreInv now' closed' joined wg entries heap.
Proof. intros Hn Hc [H1 H2 H3 H4]. split; [|done|done|naive_solver]. intros e x Hx. by eapply entryOk_mono, H1. Qed.

(** A step of one actor that stays where it is registered. *)
Lemma core_put now closed joined wg entries heap e x x' : CoreInv now closed joined wg entries heap -> heap !! e = Some x ->
  e_key x' = e_key x -> isRegistered (e_phase x') = isRegistered (e_phase x) -> running x' = running x -> actorOk now closed x' ->
  CoreInv now closed joined wg entries (<[e := x']> heap).
Proof.
  intros [H1 H2 H3 H4] Hx Hk Hr He Hok. split.
  - intros e2 x2. rewrite lookup_insert_Some. intros [[<- <-]|[_ ?]]; [done|by eapply H1].
  - intros k e2. rewrite H2. destruct (decide (e2 = e)) as [->|Hne]; [|by rewrite lookup_insert_ne]. rewrite lookup_insert_eq. split.
    + intros (y & Hy & ? & ?). simplify_eq. exists x'. by rewrite Hr, Hk.
    + intros (y & [= <-] & ? & ?). exists x. by rewrite <-Hk, <-Hr.
  - by rewrite (cnt_update _ _ _ x).
  - done.
Qed.

Lemma core_new now closed joined wg entries heap key : CoreInv now closed joined wg entries heap -> closed = false -> entries !! key = None ->
  CoreInv now closed joined (S wg) (<[key := freshId heap]> entries) (<[freshId heap := newEntry key]> heap).
Proof.
  intros [H1 H2 H3 H4] Hc Hk. set (e := freshId heap). pose proof (freshId_None heap) as Hf. fold e in Hf. split.
  - intros e2 x2. rewrite lookup_insert_Some. intros [[<- <-]|[_ ?]]; [by split|by eapply H1].
  - intros k e2. rewrite lookup_insert_Some, H2. split.
    + intros [[<- <-]|[Hne (x & Hx & ? & ?)]]; [exists (newEntry key); by rewrite lookup_insert_eq|].
      exists x. rewrite lookup_insert_ne by congruence. done.
    + intros (x & Hx & Hkx & Hr). apply lookup_insert_Some in Hx as [[<- <-]|[Hne Hx]]; [by left|]. right. split; [|by exists x].
      intros ->. assert (entries !! k = Some e2) by (apply H2; by exists x). congruence.
  - rewrite cnt_insert_new by done. by rewrite H3.
  - intros Hj. destruct (H4 Hj). congruence.
Qed.

(** ** Grants *)
Definition grantsLe (grants grants' : gmap nat grantState) : Prop :=
  forall g gr, grants !! g = Some gr -> exists gr', grants' !! g = Some gr' /\ gr_entry gr' = gr_entry gr /\ forall cause, gr_cause gr = Some cause -> gr_cause gr' = Some cause.

#[export] Instance grantsLe_refl : Reflexive grantsLe.
Proof. intros grants g gr Hg. by exists gr. Qed.
#[export] Instance grantsLe_trans : Transitive grantsLe.
Proof. intros a b c Hab Hbc g gr Hg. destruct (Hab g gr Hg) as (g1 & Hg1 & He1 & Hc1). destruct (Hbc g g1 Hg1) as (g2 & Hg2 & He2 & Hc2). exists g2. split_and!; [done|congruence|auto]. Qed.

Lemma cancel_le grants reason g : grantsLe grants (alter (cancelGrant reason) g grants).
Proof.
  intros g' gr Hg. destruct (decide (g' = g)) as [->|Hne]; [|exists gr; by rewrite lookup_alter_ne]. exists (cancelGrant reason gr). rewrite lookup_alter_eq, Hg.
  split_and!; [done|done|]. intros cause Hc. cbn. by rewrite Hc.
Qed.

Lemma newGrant_le grants gr : grantsLe grants (<[freshId grants := gr]> grants).
Proof.
  intros g' gr' Hg. exists gr'. rewrite lookup_insert_ne; [done|]. intros <-. pose proof (freshId_None grants). congruence.
Qed.

(** An actor with the same grant. *)
Lemma grant_put heap grants e x x' : GrantInv heap grants -> heap !! e = Some x -> e_grant x' = e_grant x -> (e_cancelled x = true -> e_cancelled x' = true) -> GrantInv (<[e := x']> heap) grants.
Proof.
  intros [H1 H2] Hx Hg Hc. split.
  - intros e2 x2 g. rewrite lookup_insert_Some. intros [[<- <-]|[_ Hx2]] Hg2; [|by eapply H1]. rewrite Hg in Hg2. destruct (H1 e x g Hx Hg2) as (gr & ? & ? & ?). exists gr. naive_solver.
  - intros g gr Hgr. destruct (H2 g gr Hgr) as (x2 & Hx2 & Ha & Hb). destruct (decide (gr_entry gr = e)) as [<-|Hne]; [|exists x2; by rewrite lookup_insert_ne].
    assert (x2 = x) as -> by congruence. exists x'. rewrite lookup_insert_eq. split_and!; [done|rewrite Hg; done|]. intros cause Hca. destruct (Hb cause Hca) as [?|[? ?]]; [by left|right; auto].
Qed.

(** [stopGrant] with a cause that the actor may give. *)
Lemma grant_stop heap grants e x reason x' : GrantInv heap grants -> heap !! e = Some x ->
  let st := stopGrant reason (x, grants) in
  e_grant x' = e_grant st.1 -> (e_cancelled x = true -> e_cancelled x' = true) -> causeOk x' reason -> GrantInv (<[e := x']> heap) st.2.
Proof.
  intros HG Hx st Hg Hc Hr. unfold st, stopGrant in *. cbn [fst snd] in *. destruct (e_grant x) as [g|] eqn:Hgx; cbn in *; [|by apply (grant_put _ _ _ x); [..|congruence|]].
  destruct HG as [H1 H2]. destruct (H1 e x g Hx Hgx) as (gr & Hgr & He & Hor). split.
  - intros e2 x2 g2. rewrite lookup_insert_Some. intros [[<- <-]|[Hne Hx2]] Hg2; [congruence|]. destruct (H1 e2 x2 g2 Hx2 Hg2) as (gr2 & Hgr2 & ? & ?).
    exists gr2. rewrite lookup_alter_ne; [done|]. intros ->. congruence.
  - intros g2 gr2. destruct (decide (g2 = g)) as [->|Hng].
    + rewrite lookup_alter_eq, Hgr. intros [= <-]. cbn [gr_entry gr_cause cancelGrant]. rewrite He, lookup_insert_eq. exists x'. split_and!; [done|done|].
      intros cause [= <-]. destruct (H2 g gr Hgr) as (x2 & Hx2 & _ & Hb). rewrite He in Hx2. assert (x2 = x) as -> by congruence. destruct (gr_cause gr) as [c0|] eqn:Hcg; cbn; [|done].
      destruct (Hb c0 eq_refl) as [?|[? ?]]; [by left|right; auto].
    + rewrite lookup_alter_ne by done. intros Hgr2. destruct (H2 g2 gr2 Hgr2) as (x2 & Hx2 & Ha & Hb). destruct (decide (gr_entry gr2 = e)) as [He2|Hne]; [|exists x2; by rewrite lookup_insert_ne].
      rewrite He2 in *. assert (x2 = x) as -> by congruence. exists x'. rewrite lookup_insert_eq. split_and!; [done|intros Hn; specialize (Ha Hn); congruence|]. intros cause Hca. destruct (Hb cause Hca) as [?|[? ?]]; [by left|right; auto].
Qed.

(** A new grant for an actor without one. *)
Lemma grant_new heap grants e x x' : GrantInv heap grants -> heap !! e = Some x -> e_grant x = None ->
  e_grant x' = Some (freshId grants) -> e_cancelled x' = e_cancelled x -> GrantInv (<[e := x']> heap) (<[freshId grants := newGrant e (e_cancelled x)]> grants).
Proof.
  intros [H1 H2] Hx Hn Hg Hc. pose proof (freshId_None grants) as Hf. split.
  - intros e2 x2 g. rewrite lookup_insert_Some. intros [[<- <-]|[Hne Hx2]] Hg2.
    + rewrite Hg in Hg2. injection Hg2 as <-. exists (newGrant e (e_cancelled x)). rewrite lookup_insert_eq. split_and!; [done|done|]. rewrite Hc. cbn. destruct (e_cancelled x); auto.
    + destruct (H1 e2 x2 g Hx2 Hg2) as (gr & Hgr & ? & ?). exists gr. rewrite lookup_insert_ne by congruence. done.
  - intros g gr. rewrite lookup_insert_Some. intros [[<- <-]|[Hne Hgr]].
    + cbn. rewrite lookup_insert_eq. exists x'. split_and!; [done|done|]. intros cause. destruct (e_cancelled x); [|done]. intros [= <-]. right. rewrite Hc. auto.
    + destruct (H2 g gr Hgr) as (x2 & Hx2 & Ha & Hb). destruct (decide (gr_entry gr = e)) as [He2|Hne2]; [|exists x2; by rewrite lookup_insert_ne].
      rewrite He2 in *. assert (x2 = x) as -> by congruence. exists x'. rewrite lookup_insert_eq. split_and!; [done|intros Hnn; specialize (Ha Hnn); congruence|]. unfold causeOk. by rewrite Hc.
Qed.

(** ** What an actor counts *)
Lemma acct_put heap calls e x x' : AcctInv heap calls -> heap !! e = Some x -> e_tokens x' = e_tokens x -> e_active x' = e_active x -> AcctInv (<[e := x']> heap) calls.
Proof.
  intros [H1 H2] Hx Ht Ha. split; [|intros c call Hc; rewrite lookup_insert_is_Some; destruct (decide (e = c_entry call)); [by left|right; split; [done|by eapply H2]]].
  intros e2 x2. rewrite lookup_insert_Some. intros [[<- <-]|[_ Hx2]]; [rewrite Ht, Ha|]; by apply H1.
Qed.

Lemma acct_new heap calls key : AcctInv heap calls -> AcctInv (<[freshId heap := newEntry key]> heap) calls.
Proof.
  intros [H1 H2]. split; [|intros c call Hc; rewrite lookup_insert_is_Some'; right; by eapply H2].
  intros e2 x2. rewrite lookup_insert_Some. intros [[<- <-]|[_ Hx2]]; [|by apply H1]. cbn. split; [lia|]. rewrite cnt_zero; [done|].
  intros c call Hc. unfold uncounted. rewrite bool_decide_eq_false_2; [done|]. intros He. destruct (H2 c call Hc) as [x Hx]. rewrite He, freshId_None in Hx. done.
Qed.

(** A call that is counted as before. *)
Lemma acct_call heap calls c call call' : AcctInv heap calls -> calls !! c = Some call -> c_entry call' = c_entry call ->
  (c_release call' = ReleaseSent <-> c_release call = ReleaseSent) -> AcctInv heap (<[c := call']> calls).
Proof.
  intros [H1 H2] Hc He Hr. split.
  - intros e x Hx. rewrite (cnt_update _ _ _ call); [by apply H1|done|]. unfold uncounted. rewrite He. f_equal. f_equal. by apply bool_decide_ext.
  - intros c2 call2. rewrite lookup_insert_Some. intros [[<- <-]|[_ ?]]; [rewrite He|]; by eapply H2.
Qed.

Lemma acct_send heap calls c call x : AcctInv heap calls -> calls !! c = Some call -> c_release call <> ReleaseSent -> heap !! c_entry call = Some x -> (e_tokens x < 128)%nat ->
  AcctInv (<[c_entry call := withTokens (S (e_tokens x)) x]> heap) (<[c := withRelease ReleaseSent call]> calls).
Proof.
  intros [H1 H2] Hc Hr Hx Ht. assert (forall e, cnt (uncounted e) (<[c := withRelease ReleaseSent call]> calls) + (if bool_decide (c_entry call = e) then 1 else 0) = cnt (uncounted e) calls)%nat as HC.
  { intros e. pose proof (cnt_replace (uncounted e) calls c call (withRelease ReleaseSent call) Hc) as HR. unfold uncounted at 2 4 in HR. cbn [c_release withRelease c_entry] in HR.
    rewrite (bool_decide_eq_false_2 _ Hr), (bool_decide_eq_true_2 (ReleaseSent = ReleaseSent) eq_refl), andb_true_r, andb_false_r in HR. lia. }
  split.
  - intros e x2. rewrite lookup_insert_Some. intros [[<- <-]|[Hne Hx2]].
    + destruct (H1 _ _ Hx) as [? HA]. specialize (HC (c_entry call)). rewrite bool_decide_eq_true_2 in HC by done. cbn. split; lia.
    + destruct (H1 _ _ Hx2) as [? HA]. specialize (HC e). rewrite bool_decide_eq_false_2 in HC by done. split; lia.
  - intros c2 call2. rewrite lookup_insert_Some, lookup_insert_is_Some'. intros [[<- <-]|[_ ?]]; [by left|right; by eapply H2].
Qed.

Lemma acct_received heap calls e x tokens x' : AcctInv heap calls -> heap !! e = Some x -> e_tokens x = S tokens -> e_tokens x' = tokens -> e_active x' = e_active x - 1 ->
  AcctInv (<[e := x']> heap) calls.
Proof.
  intros [H1 H2] Hx Ht Ht' Ha. split; [|intros c call Hc; rewrite lookup_insert_is_Some'; right; by eapply H2].
  intros e2 x2. rewrite lookup_insert_Some. intros [[<- <-]|[_ Hx2]]; [|by apply H1]. destruct (H1 _ _ Hx). split; lia.
Qed.

Lemma acct_granted heap calls e x x' call : AcctInv heap calls -> heap !! e = Some x -> c_entry call = e -> c_release call = NotReleased -> e_tokens x' = e_tokens x -> e_active x' = e_active x + 1 ->
  AcctInv (<[e := x']> heap) (<[freshId calls := call]> calls).
Proof.
  intros [H1 H2] Hx He Hr Ht Ha. split.
  - intros e2 x2 Hx2. rewrite cnt_insert_new by apply freshId_None. unfold uncounted at 1. rewrite Hr, He. cbn [negb bool_decide]. rewrite (bool_decide_eq_false_2 (NotReleased = ReleaseSent)), andb_true_r by done.
    revert Hx2. rewrite lookup_insert_Some. intros [[<- <-]|[Hne Hx2]].
    + rewrite bool_decide_eq_true_2 by done. destruct (H1 _ _ Hx). split; lia.
    + rewrite bool_decide_eq_false_2 by done. by apply H1.
  - intros c2 call2. rewrite lookup_insert_Some, lookup_insert_is_Some'. intros [[<- <-]|[_ ?]]; [left; done|right; by eapply H2].
Qed.

(** ** Calls and callers *)
Lemma callOk_grants grants grants' callers requests c call gr : grantsLe grants grants' -> leaseOk grants callers requests c call gr -> exists gr', leaseOk grants' callers requests c call gr'.
Proof.
  intros Hle [H1 H2 H3 H4 H5 H6]. destruct (Hle _ _ H1) as (gr' & Hg & He & Hc). exists gr'. split; [done|congruence| | |done|done].
  - intros cause Hca. destruct (H3 cause Hca) as [?|[?|?]]; [by left|by right; left|right; right; auto].
  - destruct H4 as [?|[?|[?|[c0 ?]]]]; [by left|by right; left|by right; right; left|right; right; right; eauto].
Qed.

Lemma call_grants heap heap' grants grants' calls callers requests : (forall e, is_Some (heap !! e) -> is_Some (heap' !! e)) -> grantsLe grants grants' ->
  CallInv heap grants calls callers requests -> CallInv heap' grants' calls callers requests.
Proof.
  intros Hh Hle [H1 H2]. split.
  - intros c call Hc. destruct (H1 c call Hc) as [gr Hok]. by eapply callOk_grants.
  - intros t k Hk. specialize (H2 t k Hk). unfold callerOk in *. destruct (k_phase k); naive_solver.
Qed.

Lemma call_heap heap e x' grants calls callers requests : CallInv heap grants calls callers requests -> CallInv (<[e := x']> heap) grants calls callers requests.
Proof. intros HI. eapply call_grants; [|reflexivity|exact HI]. intros e2 ?. rewrite lookup_insert_is_Some'. by right. Qed.

Lemma call_request heap grants calls callers requests r done : requests !! r = None -> CallInv heap grants calls callers requests -> CallInv heap grants calls callers (<[r := done]> requests).
Proof.
  intros Hr [H1 H2]. split; [|done]. intros c call Hc. destruct (H1 c call Hc) as [gr [G1 G2 G3 G4 G5 G6]]. exists gr. split; [done|done| | |done|done].
  - intros cause Hca. destruct (G3 cause Hca) as [?|[(d & Hd & ->)|?]]; [by left| |by right; right]. right; left. exists d. rewrite lookup_insert_ne by congruence. done.
  - destruct G4 as [?|[?|[?|?]]]; [by left|by right; left| |by right; right; right]. right; right; left. rewrite lookup_insert_is_Some'. by right.
Qed.

(** A call in a new state. *)
Lemma call_update heap grants calls callers requests c call call' :
  CallInv heap grants calls callers requests -> calls !! c = Some call -> c_entry call' = c_entry call -> c_caller call' = c_caller call -> c_delivered call' = c_delivered call ->
  (forall gr, leaseOk grants callers requests c call gr -> leaseOk grants callers requests c call' gr) -> CallInv heap grants (<[c := call']> calls) callers requests.
Proof.
  intros [H1 H2] Hc He Ht Hd Hok. split.
  - intros c2 call2. rewrite lookup_insert_Some. intros [[<- <-]|[_ Hc2]]; [|by apply H1]. destruct (H1 c call Hc) as [gr ?]. exists gr. auto.
  - assert (forall t d reply, replyOk calls t d reply -> replyOk (<[c := call']> calls) t d reply) as HR.
    { intros t d reply Hr c2 ->. destruct (Hr c2 eq_refl) as (call2 & Hc2 & Ht2 & Hd2). destruct (decide (c2 = c)) as [->|Hne]; [|exists call2; by rewrite lookup_insert_ne].
      exists call'. rewrite lookup_insert_eq. assert (call2 = call) as -> by congruence. split_and!; congruence. }
    intros t k Hk. specialize (H2 t k Hk). unfold callerOk in *. destruct (k_phase k) as [|e|e reply|reply]; [done|done| |auto].
    destruct H2 as (Ha & Hb & Hcc). split_and!; [done|auto|]. intros c2 call2 Hr. rewrite lookup_insert_Some. intros [[<- <-]|[_ Hc2]]; [rewrite He|]; by eapply Hcc.
Qed.

Lemma cancel_ok grants callers requests c call gr cause : leaseOk grants callers requests c call gr -> callReason requests gr call cause -> leaseOk grants callers requests c (cancelCall cause call) gr.
Proof.
  intros [G1 G2 G3 G4 G5 G6] Hr. split; [done|done| |done|done|done]. cbn. intros c0 [= <-]. destruct (c_cause call) as [c1|] eqn:Hc; cbn; [by apply G3|done].
Qed.

Lemma release_ok grants callers requests c call gr : leaseOk grants callers requests c call gr -> leaseOk grants callers requests c (withRelease Releasing (cancelCall ctxCanceled call)) gr.
Proof.
  intros [G1 G2 G3 G4 G5 G6]. split; [done|done| |done|done|done]. cbn. intros c0 [= <-]. destruct (c_cause call) as [c1|] eqn:Hc; cbn; [|by left].
  destruct (G3 c1 eq_refl) as [[-> _]|[?|?]]; [by left|by right; left|by right; right].
Qed.

Lemma released_ok grants callers requests c call gr release : c_release call = Releasing -> leaseOk grants callers requests c call gr -> release <> NotReleased -> leaseOk grants callers requests c (withRelease release call) gr.
Proof.
  intros Hr [G1 G2 G3 G4 G5 G6] Hn. split; [done|done| |done| |done].
  - intros cause Hc. destruct (G3 cause Hc) as [[-> _]|[?|?]]; [by left|by right; left|by right; right].
  - intros Hc. specialize (G5 Hc). congruence.
Qed.

(** A caller in a new phase: it still has its request, and a call it waited for stays
    held. *)
Lemma call_caller heap grants calls callers requests t k phase :
  CallInv heap grants calls callers requests -> (callers !! t = Some k \/ callers !! t = None) -> callerOk heap calls t (MkCaller (k_key k) (k_request k) phase) ->
  (forall c call gr, calls !! c = Some call -> callers !! t = Some k -> c_caller call = t -> leaseOk grants callers requests c call gr -> k_phase k = CWait (c_entry call) (AcquiredCall c) ->
    phase = k_phase k \/ c_delivered call = true \/ is_Some (requests !! k_request k) \/ is_Some (gr_cause gr)) ->
  CallInv heap grants calls (<[t := MkCaller (k_key k) (k_request k) phase]> callers) requests.
Proof.
  intros [H1 H2] Hk Hok Hph. split.
  - intros c call Hc. destruct (H1 c call Hc) as [gr HG]. exists gr. pose proof HG as [G1 G2 G3 G4 G5 (k0 & Hk0 & Hr0)].
    destruct (decide (c_caller call = t)) as [Ht|Hne].
    + destruct Hk as [Hk|Hk]; [|congruence]. assert (k0 = k) as -> by congruence. split; [done|done|done| |done|]; [|exists (MkCaller (k_key k) (k_request k) phase); by rewrite Ht, lookup_insert_eq].
      destruct G4 as [?|[(k2 & Hk2 & Hw)|[?|?]]]; [by left| |by right; right; left|by right; right; right]. assert (k2 = k) as -> by congruence.
      destruct (Hph c call gr Hc Hk Ht HG Hw) as [->|[?|[?|?]]]; [|by left|right; right; left; by rewrite <-Hr0|by right; right; right].
      right; left. eexists. by rewrite Ht, lookup_insert_eq.
    + split; [done|done|done| |done|exists k0; by rewrite lookup_insert_ne]. destruct G4 as [?|[(k2 & Hk2 & Hw)|[?|?]]]; [by left| |by right; right; left|by right; right; right].
      right; left. exists k2. by rewrite lookup_insert_ne.
  - intros t2 k2. rewrite lookup_insert_Some. intros [[<- <-]|[_ ?]]; [done|by apply H2].
Qed.

(** An accepted request that is granted. *)
Lemma call_granted heap grants calls callers requests t k e g gr : CallInv heap grants calls callers requests -> callers !! t = Some k -> k_phase k = COffer e -> is_Some (heap !! e) ->
  grants !! g = Some gr -> gr_entry gr = e ->
  CallInv heap grants (<[freshId calls := MkCall e g (k_request k) t None NotReleased false]> calls) (<[t := MkCaller (k_key k) (k_request k) (CWait e (AcquiredCall (freshId calls)))]> callers) requests.
Proof.
  intros [H1 H2] Hk Hph Hh Hg He. set (c := freshId calls). pose proof (freshId_None calls) as Hf. fold c in Hf.
  set (k' := MkCaller (k_key k) (k_request k) (CWait e (AcquiredCall c))).
  assert (forall t2 d reply, replyOk calls t2 d reply -> replyOk (<[c := MkCall e g (k_request k) t None NotReleased false]> calls) t2 d reply) as HR.
  { intros t2 d reply Hr c2 ->. destruct (Hr c2 eq_refl) as (call2 & Hc2 & ? & ?). exists call2. rewrite lookup_insert_ne by congruence. done. }
  split.
  - intros c2 call2. rewrite lookup_insert_Some. intros [[<- <-]|[_ Hc2]].
    + exists gr. split; [done|done|done| |done|exists k'; by rewrite lookup_insert_eq]. right; left. exists k'. cbn. by rewrite lookup_insert_eq.
    + destruct (H1 c2 call2 Hc2) as [gr2 [G1 G2 G3 G4 G5 (k0 & Hk0 & Hr0)]]. exists gr2. split; [done|done|done| |done|].
      * destruct G4 as [?|[(k2 & Hk2 & Hw)|[?|?]]]; [by left| |by right; right; left|by right; right; right]. right; left. exists k2. rewrite lookup_insert_ne; [done|]. congruence.
      * destruct (decide (c_caller call2 = t)) as [Ht0|Hne]; [|exists k0; by rewrite lookup_insert_ne]. exists k'. rewrite Ht0, lookup_insert_eq. split; [done|]. cbn. congruence.
  - intros t2 k2. rewrite lookup_insert_Some. intros [[<- <-]|[_ Hk2]].
    + cbn. split_and!; [done| |].
      * intros c2 [= <-]. eexists. by rewrite lookup_insert_eq.
      * intros c2 call2 [= <-]. rewrite lookup_insert_eq. by intros [= <-].
    + specialize (H2 t2 k2 Hk2). unfold callerOk in *. destruct (k_phase k2) as [|e2|e2 reply|reply]; [done|done| |auto]. destruct H2 as (Ha & Hb & Hc). split_and!; [done|auto|].
      intros c2 call2 Hr. destruct (Hb c2 Hr) as (call3 & Hc3 & _). rewrite lookup_insert_ne by congruence. by apply Hc.
Qed.

Lemma call_delivered heap grants calls callers requests t k e c : CallInv heap grants calls callers requests -> callers !! t = Some k -> k_phase k = CWait e (AcquiredCall c) ->
  CallInv heap grants (alter deliver c calls) (<[t := MkCaller (k_key k) (k_request k) (CReturned (AcquiredCall c))]> callers) requests.
Proof.
  intros [H1 H2] Hk Hph. pose proof (H2 t k Hk) as HK. unfold callerOk in HK. rewrite Hph in HK. destruct HK as (_ & HR & HE). destruct (HR c eq_refl) as (call & Hc & Ht & Hd). specialize (HE c call eq_refl Hc).
  set (k' := MkCaller (k_key k) (k_request k) (CReturned (AcquiredCall c))).
  split.
  - intros c2 call2 Hc2.
    assert (exists call0, calls !! c2 = Some call0 /\ (c2 <> c /\ call2 = call0 \/ c2 = c /\ call2 = deliver call0)) as (call0 & Hc0 & Hor).
    { destruct (decide (c2 = c)) as [->|Hne]; [rewrite lookup_alter_eq, Hc in Hc2; injection Hc2 as <-; eauto|]. rewrite lookup_alter_ne in Hc2 by done. eauto. }
    destruct (H1 c2 call0 Hc0) as [gr [G1 G2 G3 G4 G5 (k0 & Hk0 & Hr0)]]. exists gr.
    assert (exists k2, <[t := k']> callers !! c_caller call0 = Some k2 /\ k_request k2 = c_request call0) as HC.
    { destruct (decide (c_caller call0 = t)) as [Ht0|Hne]; [|exists k0; by rewrite lookup_insert_ne]. exists k'. rewrite Ht0, lookup_insert_eq. split; [done|]. cbn. congruence. }
    destruct Hor as [[Hne ->]|[-> ->]].
    + split; [done|done|done| |done|done]. destruct G4 as [?|[(k2 & Hk2 & Hw)|[?|?]]]; [by left| |by right; right; left|by right; right; right].
      right; left. exists k2. rewrite lookup_insert_ne; [done|]. intros Heq. assert (k2 = k) as -> by congruence. rewrite Hph in Hw. congruence.
    + split; [done|done|done|by left|done|done].
  - assert (forall t2 d reply, replyOk calls t2 d reply -> t2 <> t \/ d = true /\ reply = AcquiredErr ErrDenied -> replyOk (alter deliver c calls) t2 d reply) as HRR.
    { intros t2 d reply Hr Hor c2 ->. destruct Hor as [Hne|[_ ?]]; [|done]. destruct (Hr c2 eq_refl) as (call2 & Hc2 & ? & ?). exists call2. rewrite lookup_alter_ne; [done|]. intros ->. congruence. }
    intros t2 k2. rewrite lookup_insert_Some. intros [[<- <-]|[Hne Hk2]].
    + cbn. intros c2 [= <-]. exists (deliver call). rewrite lookup_alter_eq, Hc. done.
    + specialize (H2 t2 k2 Hk2). unfold callerOk in *. destruct (k_phase k2) as [|e2|e2 reply|reply]; [done|done| |apply HRR; auto]. destruct H2 as (Ha & Hb & Hcc). split_and!; [done|apply HRR; auto|].
      intros c2 call2 Hr. destruct (Hb c2 Hr) as (call3 & Hc3 & ? & ?). rewrite lookup_alter_ne by (intros ->; congruence). by apply Hcc.
Qed.

(** ** The actor's loop *)
Lemma stopGrant_entry reason x grants : (stopGrant reason (x, grants)).1 = withGrant None x.
Proof. unfold stopGrant. cbn. destruct (e_grant x) eqn:Hg; [done|]. destruct x. cbn in *. by subst. Qed.

Lemma stopGrant_le reason st : grantsLe st.2 (stopGrant reason st).2.
Proof. unfold stopGrant. destruct (e_grant st.1); [apply cancel_le|done]. Qed.

(** What [checkExpiry] leaves. *)
Definition checkedEntry (now : Time) (x : quotaEntry) : quotaEntry := if decisionExpired (e_decision x) now then withGrant None x else x.

Lemma checkExpiry_entry now x grants : (checkExpiry now (x, grants)).1 = checkedEntry now x.
Proof. unfold checkExpiry, checkedEntry. cbn. destruct (decisionExpired _ _); [apply stopGrant_entry|done]. Qed.

Lemma checkExpiry_le now st : grantsLe st.2 (checkExpiry now st).2.
Proof. unfold checkExpiry. destruct (decisionExpired _ _); [apply stopGrant_le|done]. Qed.

(** The fields that [checkExpiry] keeps. *)
Lemma checked_fields now x : let y := checkedEntry now x in
  e_key y = e_key x /\ e_cancelled y = e_cancelled x /\ e_tokens y = e_tokens x /\ e_phase y = e_phase x /\ e_active y = e_active x /\ e_fetch y = e_fetch x /\ e_decision y = e_decision x /\
  e_refreshAt y = e_refreshAt x /\ e_lastUsed y = e_lastUsed x /\ (e_grant y = e_grant x /\ decisionExpired (e_decision x) now = false \/ e_grant y = None /\ decisionExpired (e_decision x) now = true).
Proof. unfold checkedEntry. destruct (decisionExpired _ _); cbn; split_and!; auto. Qed.

Lemma grant_check heap grants e x x0 now x' : GrantInv heap grants -> heap !! e = Some x0 -> e_grant x0 = e_grant x -> e_cancelled x0 = e_cancelled x ->
  e_grant x' = e_grant (checkedEntry now x) -> e_cancelled x' = e_cancelled x -> GrantInv (<[e := x']> heap) (checkExpiry now (x, grants)).2.
Proof.
  intros HG Hx0 Hg0 Hc0 Hg Hc. unfold checkExpiry, checkedEntry in *. cbn [fst snd] in *. destruct (decisionExpired (e_decision x) now).
  - assert (stopGrant ErrDenied (x, grants) = (withGrant None x, (stopGrant ErrDenied (x0, grants)).2)) as ->. { rewrite (surjective_pairing (stopGrant ErrDenied (x, grants))), stopGrant_entry. f_equal. unfold stopGrant. cbn. rewrite Hg0. by destruct (e_grant x). }
    apply grant_stop; [done|done| |congruence|by left]. rewrite stopGrant_entry. by rewrite Hg.
  - cbn. apply (grant_put _ _ _ x0); congruence.
Qed.

Lemma refreshPart_spec now x : let '(y, wake) := refreshPart now x in
  (y = x \/ y = withFetch FetchRunning (e_client x) x) /\ (e_fetch y = FetchIdle -> wake <= e_refreshAt y).
Proof.
  unfold refreshPart, startFetch. destruct (e_fetch x) eqn:Hf; [|by split; [left|rewrite Hf]..]. destruct (negb (now <? e_refreshAt x)); [by split; [right|]|].
  destruct (Z.ltb_spec (e_refreshAt x) (idleWake now x)); (split; [by left|lia]).
Qed.

Lemma expiryWake_le x wake : expiryWake x wake <= wake.
Proof. unfold expiryWake. destruct (e_grant x), (e_decision x) as [[v [at_|]]|]; cbn; try lia. destruct (Z.ltb_spec at_ wake); lia. Qed.

Lemma expiryWake_expires x wake d at_ : is_Some (e_grant x) -> e_decision x = Some d -> qr_ExpiresAt d = Some at_ -> expiryWake x wake <= at_.
Proof. intros [g Hg] Hd Ha. unfold expiryWake. rewrite Hg, Hd, Ha. destruct (Z.ltb_spec at_ wake); lia. Qed.

(** The top of the loop: it leaves the loop, or waits. *)
Lemma actorTop_entry now later x grants : let x1 := checkedEntry now x in let st := actorTop now later (x, grants) in
  st.2 = (checkExpiry now (x, grants)).2 /\
  (e_active x = 0 /\ st.1 = withPhase AExit x1 \/
   exists y fire, (y = x1 \/ y = withFetch FetchRunning (e_client x1) x1) /\ st.1 = withPhase (ASelect fire) y /\
     (e_fetch y = FetchIdle -> fire <= Z.max (e_refreshAt y) (later + millisecond)) /\
     (forall d at_, is_Some (e_grant y) -> e_decision y = Some d -> qr_ExpiresAt d = Some at_ -> fire <= Z.max at_ (later + millisecond))).
Proof.
  cbn zeta. unfold actorTop. rewrite (surjective_pairing (checkExpiry now (x, grants))), checkExpiry_entry. set (x1 := checkedEntry now x).
  destruct ((e_active x1 =? 0) && negb (now <? e_lastUsed x1 + idleLifetime)) eqn:HA; cbn [fst snd].
  - split; [done|]. left. apply andb_true_iff in HA as [HA _]. apply Z.eqb_eq in HA. destruct (checked_fields now x) as (_ & _ & _ & _ & Ha & _). fold x1 in Ha. split; [lia|done].
  - pose proof (refreshPart_spec now x1) as HR. destruct (refreshPart now x1) as [y wake]. destruct HR as [Hy Hw]. cbn [fst snd]. split; [done|]. right. eexists y, _. split_and!; [done|done| |].
    + intros Hf. specialize (Hw Hf). pose proof (expiryWake_le y wake). lia.
    + intros d at_ Hg Hd Ha. pose proof (expiryWake_expires y wake d at_ Hg Hd Ha). lia.
Qed.

(** ** Steps *)
Lemma actor_inv sv e x x' grants' : QuotaInv sv -> sv_heap sv !! e = Some x ->
  e_key x' = e_key x -> isRegistered (e_phase x') = isRegistered (e_phase x) -> running x' = running x -> actorOk (sv_now sv) (sv_closed sv) x' ->
  GrantInv (<[e := x']> (sv_heap sv)) grants' -> grantsLe (sv_grants sv) grants' -> AcctInv (<[e := x']> (sv_heap sv)) (sv_calls sv) -> QuotaInv (putActor e (x', grants') sv).
Proof.
  intros [H1 H2 H3 H4] Hx Hk Hr He Hok HG HL HA. split; cbn; [by eapply core_put|done|done|]. eapply call_grants; [|done|exact H4]. intros e2 ?. rewrite lookup_insert_is_Some'. by right.
Qed.

(** A step that neither stops the grant nor counts. *)
Lemma entry_inv sv e x x' : QuotaInv sv -> sv_heap sv !! e = Some x ->
  e_key x' = e_key x -> isRegistered (e_phase x') = isRegistered (e_phase x) -> running x' = running x -> actorOk (sv_now sv) (sv_closed sv) x' ->
  e_grant x' = e_grant x -> (e_cancelled x = true -> e_cancelled x' = true) -> e_tokens x' = e_tokens x -> e_active x' = e_active x -> QuotaInv (putEntry e x' sv).
Proof.
  intros HI Hx Hk Hr He Hok Hg Hc Ht Ha. apply (actor_inv sv e x x' (sv_grants sv)); [done..| |done|]; [eapply grant_put|eapply acct_put]; try done; apply HI.
Qed.

Lemma later_inv sv d : 0 <= d -> QuotaInv sv -> QuotaInv (setNow (sv_now sv + d) sv).
Proof. intros Hd [H1 H2 H3 H4]. split; cbn; [eapply core_mono; [|done|exact H1]; lia|done..]. Qed.

Lemma entry_ok sv e x : QuotaInv sv -> sv_heap sv !! e = Some x -> actorOk (sv_now sv) (sv_closed sv) x.
Proof. intros HI. apply (ci_entry _ _ _ _ _ _ (qv_core _ HI)). Qed.

Lemma phase_ok now closed x phase : actorOk now closed x -> stopped phase = stopped (e_phase x) \/ e_cancelled x = false ->
  (stopped phase = true -> e_cancelled x = true /\ e_grant x = None) -> (inLoop phase = false -> closed = true \/ e_active x = 0) -> (joinedFetch phase = true -> e_fetch x <> FetchRunning) ->
  (deciding phase = true -> deciding (e_phase x) = true) -> (phase <> AStart) -> (forall fire, phase <> ASelect fire) -> actorOk now closed (withPhase phase x).
Proof.
  intros [H1 H2 H3 H4 H5 H6 H7] Hs Hst He Hf Hd Hn Hsel. split; cbn; try done.
  - intros Hc. destruct Hs as [->|?]; [auto|congruence].
  - auto.
  - intros fire Hfire. cbn in Hfire. by destruct (Hsel fire).
Qed.

(** Where the phase, the grant and the decision stay, only the counts change. *)
Lemma same_ok now closed x x' : actorOk now closed x -> e_phase x' = e_phase x -> e_grant x' = e_grant x -> e_decision x' = e_decision x -> e_refreshAt x' = e_refreshAt x ->
  (e_fetch x' = e_fetch x \/ exists r, e_fetch x' = FetchDone r) -> (e_cancelled x = true -> e_cancelled x' = true) -> (e_cancelled x' = true -> e_cancelled x = true \/ closed = true) ->
  e_active x' = e_active x -> actorOk now closed x'.
Proof.
  intros [H1 H2 H3 H4 H5 H6 H7] Hp Hg Hd Hr Hf Hc Hc' Ha. split; rewrite ?Hp, ?Hg, ?Hd, ?Ha; try done.
  - intros HC. destruct (Hc' HC); auto.
  - naive_solver.
  - intros HJ. destruct Hf as [->|[r ->]]; [auto|done].
  - intros fire HF. rewrite Hp in HF. destruct (H7 fire HF) as [T1 T2]. rewrite Hg, Hd, Hr. split; [|done]. destruct Hf as [->|[r ->]]; [done|done].
Qed.

Lemma actorStart_inv sv e x : QuotaInv sv -> sv_heap sv !! e = Some x -> e_phase x = AStart -> QuotaInv (putActor e (actorStart e (freshId (sv_grants sv)) (sv_now sv) (x, sv_grants sv)) sv).
Proof.
  intros HI Hx Hp. pose proof (entry_ok _ _ _ HI Hx) as [H1 H2 H3 H4 H5 H6 H7]. destruct (H6 Hp) as [Hg Hd]. eapply actor_inv; [done|done|done|by rewrite Hp|by unfold running; rewrite Hp| | | |].
  - split; cbn; try done. rewrite Hp in H1. auto.
  - cbn. eapply grant_new; [apply HI|done..].
  - apply newGrant_le.
  - eapply acct_put; [apply HI|done..].
Qed.

Lemma top_inv sv e x d : QuotaInv sv -> sv_heap sv !! e = Some x -> e_phase x = ATop -> 0 <= d ->
  QuotaInv (setNow (sv_now sv + d) (putActor e (actorTop (sv_now sv) (sv_now sv + d) (x, sv_grants sv)) sv)).
Proof.
  intros HI0 Hx Hp Hd. pose proof (later_inv _ _ Hd HI0) as HI. set (sv1 := setNow (sv_now sv + d) sv) in *.
  pose proof (entry_ok sv1 e x HI Hx) as [H1 H2 H3 H4 H5 H6 H7]. destruct (checked_fields (sv_now sv) x) as (Fk & Fc & Ft & Fp & Fa & Ff & Fd & Fr & Fl & Fg).
  destruct (actorTop_entry (sv_now sv) (sv_now sv + d) x (sv_grants sv)) as [Hgr Hor]. rewrite (surjective_pairing (actorTop _ _ _)), Hgr.
  change (setNow (sv_now sv + d) (putActor e ?st sv)) with (putActor e st sv1).
  set (x1 := checkedEntry (sv_now sv) x) in *. assert (e_grant x1 = None -> decisionExpired (e_decision x) (sv_now sv + d) = true) as Hden.
  { intros Hg. destruct Fg as [[Fg _]|[_ Fg]]; [apply H5; [by rewrite Hp|congruence]|eapply expired_later; [|exact Fg]; lia]. }
  assert (forall x', e_key x' = e_key x1 -> e_cancelled x' = e_cancelled x1 -> e_tokens x' = e_tokens x1 -> e_active x' = e_active x1 -> e_grant x' = e_grant x1 -> isRegistered (e_phase x') = true -> running x' = true ->
    actorOk (sv_now sv1) (sv_closed sv1) x' -> QuotaInv (putActor e (x', (checkExpiry (sv_now sv) (x, sv_grants sv)).2) sv1)) as HP.
  { intros x' Ek Ec Et Ea Eg Er Erun Eok. eapply actor_inv; [done|done|congruence|by rewrite Hp|unfold running at 2; by rewrite Hp|done| |apply (checkExpiry_le _ (x, sv_grants sv))|].
    - eapply (grant_check _ _ _ x x); [apply HI|done|done|done|done|congruence].
    - eapply acct_put; [apply HI|done|congruence|congruence]. }
  destruct Hor as [[Ha Ht]|(y & fire & Hy & Ht & Hf1 & Hf2)]; rewrite Ht.
  - apply HP; try done. split; cbn; try done; [rewrite Fc, Hp in *; auto|right; congruence].
  - assert (e_key y = e_key x1 /\ e_cancelled y = e_cancelled x1 /\ e_tokens y = e_tokens x1 /\ e_active y = e_active x1 /\ e_grant y = e_grant x1 /\ e_decision y = e_decision x1) as (Y1 & Y2 & Y3 & Y4 & Y5 & Y6) by (destruct Hy as [->| ->]; done).
    apply HP; try done. split; cbn; try done.
    + rewrite Y2, Fc. rewrite Hp in H1. auto.
    + intros _. rewrite Y5, Y6, Fd. done.
    + intros fire' [= <-]. cbn. auto.
Qed.

Lemma result_inv sv e x fire result : QuotaInv sv -> sv_heap sv !! e = Some x -> e_phase x = ASelect fire ->
  let st := actorResult e (freshId (sv_grants sv)) (sv_now sv) result (x, sv_grants sv) in QuotaInv (putActor e (withPhase ATop st.1, st.2) sv).
Proof.
  intros HI Hx Hp st. pose proof (entry_ok _ _ _ HI Hx) as [H1 H2 H3 H4 H5 H6 H7]. rewrite Hp in H1, H5.
  assert (forall x' grants', e_key x' = e_key x -> e_tokens x' = e_tokens x -> e_active x' = e_active x -> e_cancelled x' = e_cancelled x -> (e_grant x' = None -> decisionExpired (e_decision x') (sv_now sv) = true) ->
    GrantInv (<[e := withPhase ATop x']> (sv_heap sv)) grants' -> grantsLe (sv_grants sv) grants' -> QuotaInv (putActor e (withPhase ATop x', grants') sv)) as HP.
  { intros x' grants' Ek Et Ea Ec Eg EG EL. eapply actor_inv; [done|done|done|by rewrite Hp|unfold running at 2; by rewrite Hp| |done|done|eapply acct_put; [apply HI|done..]]. split; cbn; try done. rewrite Ec. auto. }
  subst st. unfold actorResult. cbn [fst snd]. destruct result as [dec|].
  - destruct (decisionExpired (Some dec) (sv_now sv)) eqn:HE; cbn [negb].
    + rewrite (surjective_pairing (stopGrant _ _)), stopGrant_entry. cbn [fst snd]. apply HP; try done; [|apply (stopGrant_le ErrDenied (_, sv_grants sv))].
      match goal with |- GrantInv _ (stopGrant _ (?y, _)).2 => assert ((stopGrant ErrDenied (y, sv_grants sv)).2 = (stopGrant ErrDenied (x, sv_grants sv)).2) as -> by (unfold stopGrant; cbn; by destruct (e_grant x)) end.
      apply grant_stop; [apply HI|done|by rewrite stopGrant_entry|done|by left].
    + cbn. destruct (e_grant x) as [g|] eqn:Hg; cbn [fst snd].
      * apply HP; cbn; try done; [by rewrite Hg|]. eapply grant_put; [apply HI|done|done|done].
      * apply HP; try done; [|apply newGrant_le]. eapply grant_new; [apply HI|done..].
  - apply HP; cbn; try done; [auto|]. eapply grant_put; [apply HI|done|done|done].
Qed.

Lemma released_inv sv e x fire tokens : QuotaInv sv -> sv_heap sv !! e = Some x -> e_phase x = ASelect fire -> e_tokens x = S tokens ->
  QuotaInv (putEntry e (withPhase ATop (withLastUsed (sv_now sv) (withActive (e_active x - 1) (withTokens tokens x)))) sv).
Proof.
  intros HI Hx Hp Ht. pose proof (entry_ok _ _ _ HI Hx) as [H1 H2 H3 H4 H5 H6 H7]. rewrite Hp in H1, H5. eapply (actor_inv sv e x _ (sv_grants sv)); [done|done|done|by rewrite Hp|unfold running at 2; by rewrite Hp| | |done|].
  - split; cbn; done || auto.
  - eapply grant_put; [apply HI|done..].
  - eapply acct_received; [apply HI|done|done|done|done].
Qed.

Lemma exit_inv sv ev e x sv' : QuotaInv sv -> sv_heap sv !! e = Some x -> exitStep ev e x sv = Some sv' -> QuotaInv sv'.
Proof.
  intros HI Hx. pose proof (entry_ok _ _ _ HI Hx) as HE. pose proof HE as [H1 H2 H3 H4 H5 H6 H7]. unfold exitStep. destruct ev; try done; destruct (e_phase x) eqn:Hp; try done; cbn zeta.
  - intros [= <-]. rewrite stopGrant_entry. eapply actor_inv; [done|done|done|by rewrite Hp|unfold running at 2; by rewrite Hp| | |apply (stopGrant_le ErrQuotaClosed (_, sv_grants sv))|eapply acct_put; [apply HI|done..]].
    + split; cbn; first [done|by right|auto].
    + apply grant_stop; [apply HI|done|by rewrite stopGrant_entry|done|right; auto].
  - intros Hs. assert (e_fetch x <> FetchRunning /\ sv' = putEntry e (withPhase AUnregister x) sv) as [Hf ->] by (destruct (e_fetch x); naive_solver).
    eapply entry_inv; [done|done|done|by rewrite Hp|unfold running at 2; by rewrite Hp| |done..]. apply phase_ok; rewrite ?Hp; try done; [by left|auto..].
  - intros [= <-]. destruct HI as [HC HG HA HL]. pose proof HC as [C1 C2 C3 C4].
    assert (sv_entries sv !! e_key x = Some e) as Hr by (apply C2; exists x; by rewrite Hp). unfold unregister. rewrite bool_decide_eq_true_2 by done.
    split; cbn; [|by eapply grant_put|by eapply acct_put|by apply call_heap]. split.
    + intros e2 x2. rewrite lookup_insert_Some. intros [[<- <-]|[_ ?]]; [|by eapply C1]. apply phase_ok; rewrite ?Hp; try done; [by left|auto..].
    + intros k e2. rewrite lookup_delete_Some, C2. split.
      * intros [Hne (y & Hy & ? & ?)]. exists y. rewrite lookup_insert_ne; [done|]. intros <-. congruence.
      * intros (y & Hy & Hk & Hreg). apply lookup_insert_Some in Hy as [[<- <-]|[Hne Hy]]; [done|]. split; [|by exists y]. intros Heq.
        assert (sv_entries sv !! k = Some e2) by (apply C2; by exists y). congruence.
    + rewrite (cnt_update _ _ _ x); [done|done|]. unfold running. by rewrite Hp.
    + done.
  - intros [= <-]. eapply entry_inv; [done|done|done|by rewrite Hp|unfold running at 2; by rewrite Hp| |done..]. apply phase_ok; rewrite ?Hp; try done; [by left|auto..].
  - intros [= <-]. destruct HI as [HC HG HA HL]. pose proof HC as [C1 C2 C3 C4].
    split; cbn; [|by eapply grant_put|by eapply acct_put|by apply call_heap]. split.
    + intros e2 x2. rewrite lookup_insert_Some. intros [[<- <-]|[_ ?]]; [|by eapply C1]. apply phase_ok; rewrite ?Hp; try done; [by left|auto..].
    + intros k e2. rewrite C2. destruct (decide (e2 = e)) as [->|Hne]; [|by rewrite lookup_insert_ne]. rewrite lookup_insert_eq. split; intros (y & Hy & Hk & Hreg); simplify_eq; by rewrite ?Hp in *.
    + pose proof (cnt_replace running (sv_heap sv) e x (withPhase AEnded x) Hx) as HR. unfold running at 2 4 in HR. rewrite Hp in HR. cbn in HR. lia.
    + intros Hj. destruct (C4 Hj). split; [done|lia].
Qed.

Lemma actorStep_inv `{URLParser} sv ev e sv' : QuotaInv sv -> actorStep ev e sv = Some sv' -> QuotaInv sv'.
Proof.
  intros HI. unfold actorStep. destruct (sv_heap sv !! e) as [x|] eqn:Hx; [|done]. cbn [mbind option_bind]. pose proof (entry_ok _ _ _ HI Hx) as HE.
  assert (exitStep ev e x sv = Some sv' -> QuotaInv sv') as Hexit by by eapply exit_inv.
  assert (forall w, match e_fetch x with FetchRunning => let '(client, result) := fetch (ek_policy (e_key x)) (e_client x) (sv_now sv) w in Some (putEntry e (withFetch (FetchDone (fetched result)) client x) sv) | _ => None end = Some sv' -> QuotaInv sv') as Hfetch.
  { intros w. destruct (e_fetch x) eqn:Hf; try done. destruct (fetch _ _ _ _) as [client result]. intros [= <-]. eapply entry_inv; [done..| |done|done|done|done]. eapply same_ok; [exact HE|done|done|done|done|by right; eexists|done|by left|done]. }
  assert (forall fire phase, e_phase x = ASelect fire -> phase = ATop \/ phase = AExit /\ e_cancelled x = true -> Some (putEntry e (withPhase phase x) sv) = Some sv' -> QuotaInv sv') as Hleave.
  { intros fire phase Hp Hor [= <-]. pose proof HE as [H1 H2 H3 H4 H5 H6 H7]. rewrite Hp in H1, H5. assert (e_cancelled x = true -> sv_closed sv = true) as Hcl by (intros HC; by destruct (H1 HC)).
    destruct Hor as [->|[-> HC]]; (eapply entry_inv; [done|done|done|by rewrite Hp|unfold running at 2; by rewrite Hp| |done..]); split; cbn; done || auto. }
  destruct ev; try done; try (by apply Hfetch); destruct (e_phase x) eqn:Hp; try (by apply Hexit).
  - intros [= <-]. by apply (actorStart_inv sv e x).
  - destruct (Z.leb_spec 0 d); [|done]. intros [= <-]. by apply (top_inv sv e x).
  - destruct (fire <=? sv_now sv); [|done]. eapply Hleave; [done|by left].
  - destruct (e_tokens x) as [|tokens] eqn:Ht; [done|]. intros [= <-]. by eapply released_inv.
  - destruct (e_fetch x) as [| |result] eqn:Hf; try done. intros [= <-]. by eapply result_inv.
  - destruct (e_cancelled x) eqn:HC; [|done]. eapply Hleave; [done|by right].
Qed.

(** The steps of granted calls. *)
Lemma callStep_inv sv ev c sv' : QuotaInv sv -> callStep ev c sv = Some sv' -> QuotaInv sv'.
Proof.
  intros HI. pose proof HI as [HC HG HA HL]. unfold callStep. destruct (sv_calls sv !! c) as [call|] eqn:Hc; [|done]. cbn [mbind option_bind].
  destruct (sv_heap sv !! c_entry call) as [x|] eqn:Hx; [|done]. cbn [mbind option_bind].
  assert (forall call', c_entry call' = c_entry call -> c_caller call' = c_caller call -> c_delivered call' = c_delivered call -> (c_release call' = ReleaseSent <-> c_release call = ReleaseSent) ->
    (forall gr, leaseOk (sv_grants sv) (sv_callers sv) (sv_requests sv) c call gr -> leaseOk (sv_grants sv) (sv_callers sv) (sv_requests sv) c call' gr) -> QuotaInv (putCall c call' sv)) as HP.
  { intros call' E1 E2 E3 E4 Hok. split; cbn; [done|done|by eapply acct_call|by eapply call_update]. }
  destruct ev; try done.
  - assert (forall r, (gr ← sv_grants sv !! c_grant call; cause ← gr_cause gr; Some (putCall c (cancelCall cause call) sv)) = Some r -> QuotaInv r) as Hs; [|by destruct (c_release call); apply Hs].
    intros r. destruct (sv_grants sv !! c_grant call) as [gr|] eqn:Hg; [|done]. cbn. destruct (gr_cause gr) as [cause|] eqn:Hcause; [|done]. cbn. intros [= <-]. apply HP; try done.
    intros gr2 HOk. apply cancel_ok; [done|]. right; right. pose proof (co_grant _ _ _ _ _ _ HOk). congruence.
  - assert (forall r, (done ← requestDone sv (c_request call); Some (putCall c (cancelCall done.2 call) sv)) = Some r -> QuotaInv r) as Hs; [|by destruct (c_release call); apply Hs].
    intros r. unfold requestDone. destruct (sv_requests sv !! c_request call) as [dn|] eqn:Hd; [|done]. cbn. intros [= <-]. apply HP; try done. intros gr2 HOk. apply cancel_ok; [done|]. right; left. by exists dn.
  - destruct (c_release call) eqn:Hr; try done. case_match; [|done]. intros [= <-]. apply HP; [done..|]. intros gr2. apply release_ok.
  - destruct (c_release call) eqn:Hr; try done. destruct (Nat.ltb_spec (e_tokens x) 128); [|done]. intros [= <-].
    assert (c_release call <> ReleaseSent) by congruence. split; cbn.
    + eapply core_put; [done..|]. eapply same_ok; [by eapply entry_ok|done..| | | |]; auto.
    + by eapply grant_put.
    + by apply acct_send.
    + apply call_heap. eapply call_update; [done..|]. intros gr2 Hok. by eapply released_ok.
  - destruct (c_release call) eqn:Hr; try done. destruct (e_cancelled x); [|done]. intros [= <-]. apply HP; [done..|]. intros gr2 Hok. by eapply released_ok.
Qed.

(** The steps of callers. *)
Lemma caller_inv sv t k phase : QuotaInv sv -> sv_callers sv !! t = Some k -> callerOk (sv_heap sv) (sv_calls sv) t (MkCaller (k_key k) (k_request k) phase) ->
  (forall c call gr, sv_calls sv !! c = Some call -> leaseOk (sv_grants sv) (sv_callers sv) (sv_requests sv) c call gr -> k_phase k = CWait (c_entry call) (AcquiredCall c) ->
    is_Some (sv_requests sv !! k_request k) \/ is_Some (gr_cause gr)) -> QuotaInv (putCaller t (k_key k) (k_request k) phase sv).
Proof.
  intros [HC HG HA HL] Hk Hok Hph. split; cbn; [done..|]. eapply call_caller; [done|by left|done|]. intros c call gr Hc _ _ Hcok Hw. destruct (Hph c call gr Hc Hcok Hw); auto.
Qed.

Lemma lookup_inv sv t k : QuotaInv sv -> sv_callers sv !! t = Some k -> k_phase k = CLookup -> QuotaInv (lookupEntry t k sv).
Proof.
  intros HI Hk Hph. unfold lookupEntry. destruct (sv_closed sv) eqn:Hcl; [apply caller_inv; [done|done|by intros c|congruence]|]. destruct (sv_entries sv !! k_key k) as [e|] eqn:He.
  - pose proof HI as [HC _ _ _]. apply (ci_reg _ _ _ _ _ _ HC) in He as (x & Hx & _). apply caller_inv; [done|done| |congruence]. by exists x.
  - pose proof HI as [HC HG HA HL]. pose proof (freshId_None (sv_heap sv)) as Hf.
    assert (QuotaInv (setActors (S (sv_wg sv)) (<[k_key k := freshId (sv_heap sv)]> (sv_entries sv)) (<[freshId (sv_heap sv) := newEntry (k_key k)]> (sv_heap sv)) sv)) as HI'.
    { split; cbn; [by apply core_new| |by apply acct_new|by apply call_heap]. destruct HG as [G1 G2]. split.
      - intros e2 x2 g. rewrite lookup_insert_Some. intros [[<- <-]|[_ ?]]; [done|by apply G1].
      - intros g gr Hg. destruct (G2 g gr Hg) as (x & Hx & ? & ?). exists x. rewrite lookup_insert_ne by congruence. done. }
    apply (caller_inv _ t k _ HI'); [done| |congruence]. cbn. by rewrite lookup_insert_eq.
Qed.

(** A request is accepted: the actor checks the expiry, then answers. *)
Lemma accept_inv sv t k e x fire d : QuotaInv sv -> sv_callers sv !! t = Some k -> k_phase k = COffer e -> sv_heap sv !! e = Some x -> e_phase x = ASelect fire -> 0 <= d -> QuotaInv (acceptRequest t k e x d sv).
Proof.
  intros HI0 Hk Hph Hx Hp Hd. pose proof (later_inv _ _ Hd HI0) as HI. set (sv1 := setNow (sv_now sv + d) sv) in *. pose proof (entry_ok sv1 e x HI Hx) as [H1 H2 H3 H4 H5 H6 H7]. rewrite Hp in H1, H5.
  set (x0 := withLastUsed (sv_now sv) x). set (x1 := checkedEntry (sv_now sv + d) x0). destruct (checked_fields (sv_now sv + d) x0) as (Fk & Fc & Ft & Fp & Fa & Ff & Fd & Fr & Fl & Fg). fold x1 in Fk, Fc, Ft, Fp, Fa, Ff, Fd, Fr, Fl, Fg.
  set (gs := (checkExpiry (sv_now sv + d) (x0, sv_grants sv)).2).
  assert (grantsLe (sv_grants sv) gs) as HLe by apply (checkExpiry_le _ (x0, sv_grants sv)).
  assert (forall x', e_phase x' = ATop -> e_grant x' = e_grant x1 -> e_cancelled x' = e_cancelled x1 -> e_decision x' = e_decision x1 -> actorOk (sv_now sv1) (sv_closed sv1) x') as Hok.
  { intros x' Ep Eg Ec Ed. split; rewrite ?Ep; try done; [rewrite Ec, Fc; auto| |by intros fire' HH; rewrite Ep in HH]. intros _. rewrite Eg, Ed, Fd. intros Hg. destruct Fg as [[Fg _]|[_ Fg]]; [apply H5; [done|by rewrite <-Hg, Fg]|done]. }
  assert (forall x', e_grant x' = e_grant x1 -> e_cancelled x' = e_cancelled x1 -> GrantInv (<[e := x']> (sv_heap sv)) gs) as Hgi by (intros x' Eg Ec; eapply (grant_check _ _ _ x0 x); [apply HI0|done|done|done|done|congruence]).
  unfold acceptRequest, respond. rewrite (surjective_pairing (checkExpiry _ _)), checkExpiry_entry. fold x0 x1 gs.
  assert (forall err, QuotaInv (putCaller t (k_key k) (k_request k) (CWait e (AcquiredErr err)) (putActor e (withPhase ATop x1, gs) sv1))) as Herr.
  { intros err. assert (QuotaInv (putActor e (withPhase ATop x1, gs) sv1)) as HI1.
    { eapply actor_inv; [done|done|done|by rewrite Hp|unfold running at 2; by rewrite Hp|by apply Hok|by apply Hgi|done|eapply acct_put; [apply HI|done..]]. }
    apply (caller_inv _ t k _ HI1); [done| |congruence]. cbn. rewrite lookup_insert_eq. by split_and!. }
  destruct (requestDone sv (k_request k)) as [[err cause]|]; [exact (Herr err)|]. destruct (e_grant x1) as [g|] eqn:Hg1; [|exact (Herr ErrDenied)].
  pose proof HI as [HC HG HA HL]. set (x' := withPhase ATop (withActive (e_active x1 + 1) x1)).
  destruct (Hgi x') as [G1 G2]; [done|done|]. destruct (G1 e x' g) as (gr & Hgr & Hge & _); [by rewrite lookup_insert_eq|done|].
  split; cbn.
  - eapply core_put; [exact HC|done|done|by rewrite Hp|unfold running at 2; by rewrite Hp|by apply Hok].
  - by apply Hgi.
  - eapply (acct_granted _ _ _ x); [exact HA|done|done|done|exact Ft|change (e_active x1 + 1 = e_active x0 + 1); by rewrite Fa].
  - eapply call_granted; [|done|done|by rewrite lookup_insert_eq|done|done]. eapply call_grants; [|exact HLe|apply HI0]. intros e2 ?. rewrite lookup_insert_is_Some'. by right.
Qed.

Lemma callerStep_inv sv ev t sv' : QuotaInv sv -> callerStep ev t sv = Some sv' -> QuotaInv sv'.
Proof.
  intros HI. unfold callerStep. destruct (sv_callers sv !! t) as [k|] eqn:Hk; [|done]. cbn [mbind option_bind].
  pose proof (li_caller _ _ _ _ _ (qv_call _ HI) t k Hk) as HK. unfold callerOk in HK.
  assert (forall err, (exists dn, requestDone sv (k_request k) = Some dn) -> QuotaInv (putCaller t (k_key k) (k_request k) (CReturned (AcquiredErr err)) sv)) as Hgone.
  { intros err [dn Hd]. apply caller_inv; [done|done|by intros c|]. intros c call gr _ _ _. left. by exists dn. }
  destruct ev; try done; destruct (k_phase k) as [|e|e reply|reply] eqn:Hph; try done.
  - intros [= <-]. by apply lookup_inv.
  - destruct (sv_heap sv !! e) as [x|] eqn:Hx; [|done]. cbn [mbind option_bind]. destruct (e_phase x) eqn:Hp; try done. destruct (Z.leb_spec 0 d); [|done]. intros [= <-]. by eapply accept_inv.
  - intros [= <-]. destruct HK as (He & Hr & Hc). unfold deliverReply. destruct reply as [err|c].
    + apply caller_inv; [done|done|by intros c|]. intros c call gr Hcc Hok Hw. congruence.
    + pose proof HI as [HC HG HA HL]. pose proof (Hr c eq_refl) as (call & Hcc & Ht & Hd). split; cbn; [done|done| |by eapply call_delivered].
      assert (alter deliver c (sv_calls sv) = <[c := deliver call]> (sv_calls sv)) as ->. { apply map_eq. intros i. destruct (decide (i = c)) as [->|]; [by rewrite lookup_alter_eq, lookup_insert_eq, Hcc|by rewrite lookup_alter_ne, lookup_insert_ne]. }
      by eapply acct_call.
  - destruct (sv_heap sv !! e) as [x|] eqn:Hx; [|done]. cbn [mbind option_bind]. destruct (doneClosed (e_phase x)); [|done]. intros [= <-]. apply caller_inv; [done|done|done|]. intros c call gr _ _ Hw. congruence.
  - destruct (requestDone sv (k_request k)) as [dn|] eqn:Hd; [|done]. intros [= <-]. apply Hgone. by eexists.
  - destruct (requestDone sv (k_request k)) as [dn|] eqn:Hd; [|done]. intros [= <-]. apply Hgone. by eexists.
  - destruct (sv_heap sv !! e) as [x|] eqn:Hx; [|done]. cbn [mbind option_bind]. destruct (doneClosed (e_phase x)) eqn:Hdone; [|done]. intros [= <-]. apply caller_inv; [done|done|by intros c|].
    intros c call gr Hcc Hok Hw. right. destruct (gr_cause gr) as [cause|] eqn:Hg; [by eexists|exfalso]. rewrite Hph in Hw. injection Hw as -> _.
    destruct (gi_live _ _ (qv_grant _ HI) _ _ (co_grant _ _ _ _ _ _ Hok)) as (x2 & Hx2 & Hlive & _). rewrite (co_entry _ _ _ _ _ _ Hok) in Hx2. assert (x2 = x) as -> by congruence.
    destruct (eo_stopped _ _ _ (entry_ok _ _ _ HI Hx)) as [_ Hn]; [by destruct (e_phase x)|]. specialize (Hlive Hg). congruence.
Qed.

Lemma ctx_inv sv e x : QuotaInv sv -> sv_heap sv !! e = Some x -> sv_closed sv = true -> QuotaInv (putEntry e (withCancelled x) sv).
Proof.
  intros HI Hx Hc. eapply entry_inv; [done..| |done|done|done|done]. eapply same_ok; [by eapply entry_ok|done|done|done|done|by left|done|by right|done].
Qed.

Lemma grantCtx_inv sv g gr x : QuotaInv sv -> sv_grants sv !! g = Some gr -> sv_heap sv !! gr_entry gr = Some x -> e_cancelled x = true -> QuotaInv (setObjects (sv_heap sv) (<[g := cancelGrant ctxCanceled gr]> (sv_grants sv)) sv).
Proof.
  intros [HC HG HA HL] Hg Hx Hc. split; cbn; [done| |done|].
  - destruct HG as [G1 G2]. split.
    + intros e x2 g2 Hx2 Hg2. destruct (G1 e x2 g2 Hx2 Hg2) as (gr2 & Hgr2 & He & Hor). destruct (decide (g2 = g)) as [->|Hne]; [|exists gr2; by rewrite lookup_insert_ne].
      rewrite lookup_insert_eq. eexists. split; [done|]. assert (gr2 = gr) as -> by congruence. split; [done|]. right. congruence.
    + intros g2 gr2. rewrite lookup_insert_Some. intros [[<- <-]|[_ ?]]; [|by apply G2]. exists x. split_and!; [done|done|]. cbn. intros cause [= <-].
      destruct (G2 g gr Hg) as (x2 & Hx2 & _ & Hb). assert (x2 = x) as -> by congruence. destruct (gr_cause gr) as [c0|]; cbn; [by apply Hb|]. right. auto.
  - eapply call_grants; [done| |exact HL]. assert (<[g := cancelGrant ctxCanceled gr]> (sv_grants sv) = alter (cancelGrant ctxCanceled) g (sv_grants sv)) as ->; [|apply cancel_le].
    apply map_eq. intros i. destruct (decide (i = g)) as [->|]; [by rewrite lookup_alter_eq, lookup_insert_eq, Hg|by rewrite lookup_alter_ne, lookup_insert_ne].
Qed.

Lemma quotaStep_inv `{URLParser} sv ev sv' : QuotaInv sv -> quotaStep ev sv = Some sv' -> QuotaInv sv'.
Proof.
  intros HI. pose proof HI as [HC HG HA HL]. destruct ev; cbn [quotaStep]; try (by apply callerStep_inv); try (by apply callStep_inv); try (by apply actorStep_inv).
  - destruct (Z.leb_spec 0 d); [|done]. intros [= <-]. by apply later_inv.
  - destruct (sv_requests sv !! r) eqn:Hr; [done|]. intros [= <-]. split; cbn; [done..|]. by apply call_request.
  - destruct (sv_callers sv !! t) eqn:Ht; [done|]. intros [= <-]. unfold Authorize. split; cbn; [done..|].
    match goal with |- CallInv _ _ _ (<[_ := MkCaller _ _ ?p]> _) _ => set (phase := p) end. apply (call_caller _ _ _ _ _ t (MkCaller key r phase)); [done|by right| |intros; congruence]. unfold phase, callerOk. cbn [k_phase]. match goal with |- context [if ?b then _ else _] => destruct b end; [by intros c|done].
  - intros [= <-]. split; cbn; [|done..]. destruct (sv_closed sv) eqn:Hc; [done|]. eapply core_mono; [| |exact HC]; done.
  - unfold joinActors. destruct (sv_closed sv) eqn:Hc; [|done]. cbn. destruct (Nat.eqb_spec (sv_wg sv) 0) as [Hw|]; [|done]. intros [= <-]. split; cbn; [|done..]. destruct HC as [C1 C2 C3 C4]. by split.
  - unfold entryCtx. destruct (sv_heap sv !! e) as [x|] eqn:Hx; [|done]. cbn. destruct (sv_closed sv) eqn:Hc; [|done]. intros [= <-]. by apply ctx_inv.
  - unfold grantCtx. destruct (sv_grants sv !! g) as [gr|] eqn:Hg; [|done]. cbn. destruct (sv_heap sv !! gr_entry gr) as [x|] eqn:Hx; [|done]. cbn. destruct (e_cancelled x) eqn:Hc; [|done]. intros [= <-]. by eapply grantCtx_inv.
Qed.

Lemma quotaRun_inv `{URLParser} evs sv sv' : QuotaInv sv -> quotaRun evs sv = Some sv' -> QuotaInv sv'.
Proof.
  revert sv. induction evs as [|ev evs IH]; intros sv HI; cbn; [by intros [= <-]|]. destruct (quotaStep ev sv) as [sv1|] eqn:Hs; [|done]. cbn. apply IH. by eapply quotaStep_inv.
Qed.

Lemma quotaReach_inv `{URLParser} evs now sv : quotaRun evs (NewService now) = Some sv -> QuotaInv sv.
Proof. apply quotaRun_inv, new_quota_inv. Qed.
