(* ===== verification/PeerQuotaProps.v ===== *)
(** * peerquota: calls run on a valid decision, and Close ends everything

    For every interleaving of callers, actors, fetches and cancellations.  Theorems: an
    acquisition is denied exactly when the last decision has expired, and a grant is
    denied only then; every granted call is counted by a registered actor until it is
    released, and is stopped only for a reason; the expiry of a decision stops its calls
    by a timer alone; [Close] can always end, and then nothing runs or starts. *)

From stdpp Require Import gmap strings list.
From S2P Require Import Prelude GoStrings KVKey GoBytes GizKeys MapCount PeerQuota PeerQuotaInv.

Open Scope Z_scope.

Section props.
Context `{URLParser}.

Lemma quotaRun_app evs1 evs2 sv sv1 : quotaRun evs1 sv = Some sv1 -> quotaRun (evs1 ++ evs2) sv = quotaRun evs2 sv1.
Proof. revert sv. induction evs1 as [|ev evs1 IH]; intros sv; cbn; [by intros [= ->]|]. destruct (quotaStep ev sv); [apply IH|done]. Qed.

(** ** Leases *)

(** C14: Every granted call is accounted for until it is released, in every reachable
    state.  Its actor counts it; unless the service was closed, the actor is registered
    under the key of the call and in its loop, so an actor never retires below a call;
    the call's grant is the current grant of the actor, or was denied, or the service
    was closed; and the call is in the hands of its caller, on its way there, or its
    context or grant is done.  A call's context ends only by its release, by the
    caller's context, or with the cause of the grant.  An actor's count is exactly the
    releases that wait in its channel and the calls that have not sent theirs. *)
Theorem quota_leases evs now0 sv :
  quotaRun evs (NewService now0) = Some sv ->
  (forall c call, sv_calls sv !! c = Some call -> exists x gr,
     sv_heap sv !! c_entry call = Some x /\ sv_grants sv !! c_grant call = Some gr /\ gr_entry gr = c_entry call /\
     (forall cause, c_cause call = Some cause -> callReason (sv_requests sv) gr call cause) /\
     (c_release call = NotReleased ->
        0 < e_active x /\
        (sv_closed sv = true \/ sv_entries sv !! e_key x = Some (c_entry call) /\ inLoop (e_phase x) = true) /\
        (gr_cause gr = None /\ e_grant x = Some (c_grant call) \/ gr_cause gr = Some ErrDenied \/ sv_closed sv = true) /\
        heldBy (sv_callers sv) (sv_requests sv) gr c call)) /\
  (forall e x, sv_heap sv !! e = Some x -> (e_tokens x <= 128)%nat /\ e_active x = Z.of_nat (e_tokens x + cnt (uncounted e) (sv_calls sv))).
Proof.
  intros HR. pose proof (quotaReach_inv _ _ _ HR) as HI. pose proof HI as [HC HG HA HL]. split; [|apply HA].
  intros c call Hc. destruct (li_call _ _ _ _ _ HL c call Hc) as [gr [G1 G2 G3 G4 G5 G6]]. destruct (ai_entry _ _ HA c call Hc) as [x Hx]. exists x, gr. split_and!; [done..|].
  intros Hr. destruct (ai_active _ _ HA _ _ Hx) as [_ Ha]. assert (0 < cnt (uncounted (c_entry call)) (sv_calls sv))%nat as Hpos.
  { eapply cnt_pos; [done|]. unfold uncounted. by rewrite Hr, bool_decide_eq_true_2. }
  pose proof (entry_ok _ _ _ HI Hx) as HE. assert (sv_closed sv = true \/ inLoop (e_phase x) = true) as Hor by (destruct (inLoop (e_phase x)) eqn:Hl; [by right|left]; destruct (eo_exit _ _ _ HE Hl); [done|lia]).
  split_and!; [lia| | |done].
  - destruct Hor as [?|Hl]; [by left|right]. split; [|done]. apply (ci_reg _ _ _ _ _ _ HC). exists x. split_and!; [done|done|by destruct (e_phase x)].
  - destruct (gi_live _ _ HG _ _ G1) as (x2 & Hx2 & Hlive & Hca). rewrite G2 in Hx2. assert (x2 = x) as -> by congruence. destruct (gr_cause gr) as [cause|]; [|left; auto].
    right. destruct (Hca cause eq_refl) as [->|[Hcan _]]; [by left|right]. destruct (eo_cancelled _ _ _ HE Hcan) as [?|Hs]; [done|]. destruct Hor as [?|Hl]; [done|by destruct (e_phase x)].
Qed.

(** ** Decisions *)
Lemma checkExpiry_denies now x grants g gr gr' : grants !! g = Some gr -> gr_cause gr = None -> (checkExpiry now (x, grants)).2 !! g = Some gr' -> gr_cause gr' <> None ->
  decisionExpired (e_decision x) now = true.
Proof. intros Hg Hn. unfold checkExpiry. cbn. destruct (decisionExpired (e_decision x) now); [done|]. cbn. congruence. Qed.

(** The steps that can stop a grant for want of quota, and what they know. *)
Definition deniedIn (sv' : quotaService) (e : nat) : Prop := exists x', sv_heap sv' !! e = Some x' /\ decisionExpired (e_decision x') (sv_now sv') = true.

Lemma stopGrant_current reason x grants g gr gr' : grants !! g = Some gr -> gr_cause gr = None -> (stopGrant reason (x, grants)).2 !! g = Some gr' ->
  gr_cause gr' = None \/ e_grant x = Some g /\ gr_cause gr' = Some reason.
Proof.
  intros Hg Hn. unfold stopGrant. cbn. destruct (e_grant x) as [g0|]; cbn; [|rewrite Hg; intros [= <-]; by left].
  destruct (decide (g = g0)) as [->|Hne]; [|rewrite lookup_alter_ne, Hg by done; intros [= <-]; by left]. rewrite lookup_alter_eq, Hg. intros [= <-]. right. cbn. by rewrite Hn.
Qed.

Lemma top_denies sv e x d sv' g gr gr' : QuotaInv sv -> sv_heap sv !! e = Some x -> sv_grants sv !! g = Some gr -> gr_cause gr = None -> sv_grants sv' !! g = Some gr' -> gr_cause gr' = Some ErrDenied -> 0 <= d ->
  sv' = setNow (sv_now sv + d) (putActor e (actorTop (sv_now sv) (sv_now sv + d) (x, sv_grants sv)) sv) -> deniedIn sv' (gr_entry gr).
Proof.
  intros HI Hx Hg Hn Hg' Hc Hd ->. destruct (actorTop_entry (sv_now sv) (sv_now sv + d) x (sv_grants sv)) as [Hgr Hor]. cbn in Hg'. rewrite Hgr in Hg'.
  assert (decisionExpired (e_decision x) (sv_now sv) = true) as HD by (eapply checkExpiry_denies; [exact Hg|exact Hn|exact Hg'|congruence]).
  destruct (checked_fields (sv_now sv) x) as (_ & _ & _ & _ & _ & _ & Fd & _). unfold checkExpiry in Hg'. cbn in Hg'. rewrite HD in Hg'.
  destruct (stopGrant_current _ _ _ _ _ _ Hg Hn Hg') as [?|[Hcur _]]; [congruence|]. destruct (gi_current _ _ (qv_grant _ HI) e x g Hx Hcur) as (gr2 & Hgr2 & He & _). assert (gr2 = gr) as -> by congruence. rewrite He.
  eexists. cbn. rewrite lookup_insert_eq. split; [done|]. eapply (expired_later _ (sv_now sv)); [lia|]. destruct Hor as [[_ ->]|(y & fire & Hy & -> & _)]; cbn; [by rewrite Fd|destruct Hy as [->| ->]; cbn; by rewrite Fd].
Qed.

Lemma accept_denies sv t k e x fire d g gr gr' : QuotaInv sv -> sv_heap sv !! e = Some x -> e_phase x = ASelect fire -> sv_grants sv !! g = Some gr -> gr_cause gr = None ->
  let sv' := acceptRequest t k e x d sv in sv_grants sv' !! g = Some gr' -> gr_cause gr' = Some ErrDenied -> deniedIn sv' (gr_entry gr).
Proof.
  intros HI Hx Hp Hg Hn. cbn zeta. unfold acceptRequest, respond. rewrite (surjective_pairing (checkExpiry _ _)), checkExpiry_entry. set (x0 := withLastUsed (sv_now sv) x). set (gs := (checkExpiry _ _).2).
  assert (gs !! g = Some gr' -> gr_cause gr' = Some ErrDenied -> gr_entry gr = e /\ decisionExpired (e_decision (checkedEntry (sv_now sv + d) x0)) (sv_now sv + d) = true) as HD.
  { intros Hg' Hc. assert (decisionExpired (e_decision x0) (sv_now sv + d) = true) as HE by (eapply checkExpiry_denies; [exact Hg|exact Hn|exact Hg'|congruence]).
    destruct (checked_fields (sv_now sv + d) x0) as (_ & _ & _ & _ & _ & _ & Fd & _). rewrite Fd. split; [|done]. unfold gs, checkExpiry in Hg'. cbn [fst snd] in Hg'. rewrite HE in Hg'.
    destruct (stopGrant_current _ _ _ _ _ _ Hg Hn Hg') as [?|[Hcur _]]; [congruence|]. destruct (gi_current _ _ (qv_grant _ HI) e x g Hx Hcur) as (gr2 & Hgr2 & He & _). congruence. }
  destruct (requestDone sv (k_request k)) as [[err cause]|]; [|destruct (e_grant (checkedEntry (sv_now sv + d) x0))]; cbn; intros Hg' Hc; destruct (HD Hg' Hc) as [-> HE]; (eexists; cbn; rewrite lookup_insert_eq; split; [done|exact HE]).
Qed.

Lemma result_denies sv e x result g gr gr' : QuotaInv sv -> sv_heap sv !! e = Some x -> sv_grants sv !! g = Some gr -> gr_cause gr = None ->
  let st := actorResult e (freshId (sv_grants sv)) (sv_now sv) result (x, sv_grants sv) in let sv' := putActor e (withPhase ATop st.1, st.2) sv in
  sv_grants sv' !! g = Some gr' -> gr_cause gr' = Some ErrDenied -> deniedIn sv' (gr_entry gr).
Proof.
  intros HI Hx Hg Hn. cbn zeta. unfold actorResult. cbn [fst snd]. destruct result as [dec|]; [|cbn; congruence]. destruct (decisionExpired (Some dec) (sv_now sv)) eqn:HE; cbn [negb].
  - intros Hg' Hc. cbn [putActor sv_grants setObjects snd] in Hg'. destruct (stopGrant_current _ _ _ _ _ _ Hg Hn Hg') as [?|[Hcur _]]; [congruence|].
    destruct (gi_current _ _ (qv_grant _ HI) e x g Hx Hcur) as (gr2 & Hgr2 & He & _). assert (gr2 = gr) as -> by congruence. rewrite He. eexists. cbn [putActor sv_heap setObjects fst]. rewrite lookup_insert_eq, stopGrant_entry. split; [done|exact HE].
  - cbn. destruct (e_grant x); cbn; [congruence|]. intros Hg' Hc. rewrite lookup_insert_ne in Hg'; [congruence|]. intros <-. pose proof (freshId_None (sv_grants sv)). congruence.
Qed.

Lemma step_denies sv ev sv' g gr gr' : QuotaInv sv -> quotaStep ev sv = Some sv' -> sv_grants sv !! g = Some gr -> gr_cause gr = None -> sv_grants sv' !! g = Some gr' -> gr_cause gr' = Some ErrDenied -> deniedIn sv' (gr_entry gr).
Proof.
  intros HI Hs Hg Hn Hg' Hc. assert (sv_grants sv' = sv_grants sv -> deniedIn sv' (gr_entry gr)) as Hsame by congruence.
  destruct ev; cbn [quotaStep] in Hs; unfold callerStep, callStep, actorStep, exitStep, entryCtx, grantCtx, joinActors, mbind, option_bind in Hs; cbn [negb] in Hs; repeat (case_match; try discriminate Hs); simplify_eq/=; try (by apply Hsame).
  all: try (unfold lookupEntry, deliverReply in *; repeat case_match; by apply Hsame).
  - by eapply accept_denies.
  - revert Hg'. cbn. rewrite lookup_insert_Some. intros [[<- <-]|[_ ?]]; [|congruence]. cbn in Hc. assert (g1 = gr) as -> by congruence. rewrite Hn in Hc. done.
  - revert Hg'. cbn. rewrite lookup_insert_Some. intros [[<- <-]|[_ ?]]; [|congruence]. pose proof (freshId_None (sv_grants sv)). congruence.
  - eapply top_denies; [done|done|exact Hg|done|exact Hg'|done| |done]. by apply Z.leb_le.
  - by eapply result_denies.
  - cbn in Hg'. destruct (stopGrant_current _ _ _ _ _ _ Hg Hn Hg') as [?|[_ ?]]; congruence.
Qed.

(** C15: The last decision decides.  In every reachable state the actor that accepts a
    request answers with the error of the request's context when that is done, denies
    it exactly when the last decision fetched has an expiry that is over at that moment,
    and otherwise grants it: without a decision, with one that was not refreshed in time
    or without an expiry, use is allowed.  And no step stops a grant as denied unless
    the decision of its actor is over at that moment. *)
Theorem quota_decides evs now0 sv :
  quotaRun evs (NewService now0) = Some sv ->
  (forall t k e x d sv', sv_callers sv !! t = Some k -> k_phase k = COffer e -> sv_heap sv !! e = Some x -> quotaStep (QAcquire t d) sv = Some sv' ->
     k_phase <$> sv_callers sv' !! t = Some (CWait e (match requestDone sv (k_request k) with
       | Some done => AcquiredErr done.1
       | None => if decisionExpired (e_decision x) (sv_now sv') then AcquiredErr ErrDenied else AcquiredCall (freshId (sv_calls sv))
       end))) /\
  (forall ev sv' g gr gr', quotaStep ev sv = Some sv' -> sv_grants sv !! g = Some gr -> gr_cause gr = None -> sv_grants sv' !! g = Some gr' -> gr_cause gr' = Some ErrDenied ->
     exists x', sv_heap sv' !! gr_entry gr = Some x' /\ decisionExpired (e_decision x') (sv_now sv') = true).
Proof.
  intros HR. pose proof (quotaReach_inv _ _ _ HR) as HI. split; [|intros; by eapply step_denies].
  intros t k e x d sv' Hk Hph Hx. cbn [quotaStep]. unfold callerStep. rewrite Hk. cbn [mbind option_bind]. rewrite Hph, Hx. cbn [mbind option_bind].
  destruct (e_phase x) eqn:Hp; try done. destruct (Z.leb_spec 0 d) as [Hd|]; [|done]. intros [= <-].
  pose proof (eo_denied _ _ _ (entry_ok _ _ _ HI Hx)) as HD. rewrite Hp in HD. specialize (HD eq_refl).
  unfold acceptRequest, respond. rewrite (surjective_pairing (checkExpiry _ _)), checkExpiry_entry. set (x0 := withLastUsed (sv_now sv) x). cbn zeta.
  destruct (requestDone sv (k_request k)) as [[err cause]|]; [cbn; by rewrite lookup_insert_eq|].
  destruct (checked_fields (sv_now sv + d) x0) as (_ & _ & _ & _ & _ & _ & _ & _ & _ & Fg). cbn [e_decision e_grant x0 withLastUsed] in Fg.
  destruct Fg as [[-> HE]|[-> HE]]; [|cbn; by rewrite lookup_insert_eq, HE]. change (e_grant x0) with (e_grant x).
  destruct (e_grant x) as [g|] eqn:Hg; cbn; rewrite lookup_insert_eq, HE; [done|]. exfalso. apply (expired_later _ _ (sv_now sv + d)) in HD; [congruence|lia|done].
Qed.

(** ** Expiry *)

(** C16: An expiry stops the calls it covers by the clock alone.  When an actor waits
    with a grant and a decision that expires, its timer is due when the expiry and one
    millisecond from now are both past; at the top of the loop that follows the grant
    is stopped, whatever the quota service does, and then every call of the actor can
    be stopped. *)
Theorem expiry_stops_calls evs now0 sv e x fire dec at_ :
  quotaRun evs (NewService now0) = Some sv -> sv_heap sv !! e = Some x -> e_phase x = ASelect fire -> is_Some (e_grant x) ->
  e_decision x = Some dec -> qr_ExpiresAt dec = Some at_ ->
  exists sv' x', quotaRun [QTick (Z.max at_ (sv_now sv + millisecond) - sv_now sv); QTimer e; QTop e 0] sv = Some sv' /\
    sv_heap sv' !! e = Some x' /\ e_grant x' = None /\
    forall c call, sv_calls sv' !! c = Some call -> c_entry call = e ->
      exists sv2 call2, quotaStep (QGrantStops c) sv' = Some sv2 /\ sv_calls sv2 !! c = Some call2 /\ is_Some (c_cause call2).
Proof.
  intros HR Hx Hp Hg Hd Hat. pose proof (quotaReach_inv _ _ _ HR) as HI. destruct (eo_timer _ _ _ (entry_ok _ _ _ HI Hx) fire Hp) as [_ Hfire]. specialize (Hfire dec at_ Hg Hd Hat).
  set (w := Z.max at_ (sv_now sv + millisecond)) in *. assert (0 <= w - sv_now sv) as Hw by (unfold w, millisecond; lia). assert (sv_now sv + (w - sv_now sv) = w) as Hnow by lia.
  set (sv1 := setNow w sv). set (x1 := withPhase ATop x). set (sv2 := putEntry e x1 sv1). set (sv3 := setNow (w + 0) (putActor e (actorTop w (w + 0) (x1, sv_grants sv2)) sv2)).
  assert (quotaRun [QTick (w - sv_now sv); QTimer e; QTop e 0] sv = Some sv3) as Hrun.
  { assert (actorStep (QTimer e) e sv1 = Some sv2) as HT.
    { unfold actorStep. change (sv_heap sv1) with (sv_heap sv). rewrite Hx. cbn [mbind option_bind]. rewrite Hp. change (sv_now sv1) with w. by rewrite (proj2 (Z.leb_le fire w)). }
    assert (actorStep (QTop e 0) e sv2 = Some sv3) as HP.
    { unfold actorStep. change (sv_heap sv2) with (<[e := x1]> (sv_heap sv)). rewrite lookup_insert_eq. done. }
    cbn [quotaRun quotaStep]. rewrite (proj2 (Z.leb_le 0 _) Hw), Hnow. cbn [mbind option_bind]. fold sv1. rewrite HT. cbn [mbind option_bind]. rewrite HP. done. }
  pose proof (quotaRun_inv _ _ _ HI Hrun) as HI3. exists sv3. set (x3 := (actorTop w (w + 0) (x1, sv_grants sv2)).1). assert (sv_heap sv3 !! e = Some x3) as Hx3 by apply lookup_insert_eq.
  assert (e_grant x3 = None) as Hnone.
  { destruct (actorTop_entry w (w + 0) x1 (sv_grants sv2)) as [_ Hor]. assert (e_grant (checkedEntry w x1) = None) as HN.
    { destruct (checked_fields w x1) as (_ & _ & _ & _ & _ & _ & _ & _ & _ & [[_ HE]|[HE _]]); [|done]. cbn in HE. rewrite Hd in HE. unfold decisionExpired in HE. rewrite Hat, negb_false_iff, Z.ltb_lt in HE. lia. }
    unfold x3. destruct Hor as [[_ ->]|(y & fire' & Hy & -> & _)]; cbn; [done|]. by destruct Hy as [->| ->]. }
  exists x3. split_and!; [done..|]. intros c call Hc He. destruct (li_call _ _ _ _ _ (qv_call _ HI3) c call Hc) as [gr [G1 G2 _ _ _ _]].
  destruct (gi_live _ _ (qv_grant _ HI3) _ _ G1) as (y & Hy & Hlive & _). rewrite G2, He, Hx3 in Hy. injection Hy as <-. destruct (gr_cause gr) as [cause|] eqn:Hcause; [|specialize (Hlive eq_refl); congruence].
  exists (putCall c (cancelCall cause call) sv3), (cancelCall cause call). split_and!; [|apply lookup_insert_eq|by eexists].
  cbn [quotaStep]. unfold callStep. rewrite Hc. cbn [mbind option_bind]. rewrite He, Hx3. cbn [mbind option_bind]. rewrite G1. cbn [mbind option_bind]. rewrite Hcause. by destruct (c_release call).
Qed.
(** ** Close *)

(** The steps of the goroutines that the service owns; a fetch ends by its timeout at
    the latest. *)
Definition ownStep (ev : quotaEvent) : bool :=
  match ev with
  | QEntryCtx _ | QStart _ | QTop _ _ | QCtxDone _ | QFetched _ _ | QStopGrant _ | QJoinFetch _ | QUnregister _ | QCloseDone _ | QWgDone _ | QJoined => true
  | _ => false
  end.

Definition fetchFails : fetchWorld := MkFetchWorld true true true None.

(** An actor can get from one phase to its end, and nothing else changes among the
    actors. *)
Definition ends (sv : quotaService) (e : nat) : Prop :=
  exists evs sv' x', Forall (fun ev => ownStep ev = true) evs /\ quotaRun evs sv = Some sv' /\ sv_heap sv' = <[e := x']> (sv_heap sv) /\
    e_phase x' = AEnded /\ sv_closed sv' = true.

Lemma ends_now sv e x : sv_heap sv !! e = Some x -> e_phase x = AEnded -> sv_closed sv = true -> ends sv e.
Proof. intros Hx Hp Hc. exists [], sv, x. split_and!; [constructor|done|by rewrite insert_id|done|done]. Qed.

Lemma ends_step sv ev sv1 e x1 : ownStep ev = true -> quotaStep ev sv = Some sv1 -> sv_heap sv1 = <[e := x1]> (sv_heap sv) -> ends sv1 e -> ends sv e.
Proof.
  intros Ho Hs Hh (evs & sv' & x' & HF & HR & Hh' & Hp & Hc). exists (ev :: evs), sv', x'. split_and!; [by constructor|cbn; by rewrite Hs|by rewrite Hh', Hh, insert_insert_eq|done|done].
Qed.

(** One step of the actor, to a phase from which it ends. *)
Lemma ends_actor sv ev e x sv1 x1 : ownStep ev = true -> (forall sv, quotaStep ev sv = actorStep ev e sv) -> sv_heap sv !! e = Some x ->
  actorStep ev e sv = Some sv1 -> sv_heap sv1 = <[e := x1]> (sv_heap sv) -> (sv_heap sv1 !! e = Some x1 -> ends sv1 e) -> ends sv e.
Proof. intros Ho He Hx Hs Hh Hnext. eapply (ends_step sv ev sv1 e x1); [done|by rewrite He|done|]. apply Hnext. by rewrite Hh, lookup_insert_eq. Qed.

Local Ltac actor_step ev := eapply (ends_actor _ ev); [done|done|eassumption|unfold actorStep, exitStep; match goal with HH : sv_heap _ !! _ = Some _ |- _ => rewrite HH end; cbn [mbind option_bind]|..].

Lemma ends_exit sv e x : sv_closed sv = true -> sv_heap sv !! e = Some x -> inLoop (e_phase x) = false -> ends sv e.
Proof.
  assert (forall sv x, sv_closed sv = true -> sv_heap sv !! e = Some x -> e_phase x = AWgDone -> ends sv e) as H1.
  { intros s y Hc Hx Hp. actor_step (QWgDone e); [by rewrite Hp|done|]. intros Hy. by eapply ends_now. }
  assert (forall sv x, sv_closed sv = true -> sv_heap sv !! e = Some x -> e_phase x = ACloseDone -> ends sv e) as H2.
  { intros s y Hc Hx Hp. actor_step (QCloseDone e); [by rewrite Hp|done|]. intros Hy. by eapply H1. }
  assert (forall sv x, sv_closed sv = true -> sv_heap sv !! e = Some x -> e_phase x = AUnregister -> ends sv e) as H3.
  { intros s y Hc Hx Hp. actor_step (QUnregister e); [by rewrite Hp|done|]. intros Hy. by eapply H2. }
  assert (forall sv x, sv_closed sv = true -> sv_heap sv !! e = Some x -> e_phase x = AJoin -> e_fetch x <> FetchRunning -> ends sv e) as H4.
  { intros s y Hc Hx Hp Hf. actor_step (QJoinFetch e); [rewrite Hp; by destruct (e_fetch y)|done|]. intros Hy. by eapply H3. }
  assert (forall sv x, sv_closed sv = true -> sv_heap sv !! e = Some x -> e_phase x = AJoin -> ends sv e) as H5.
  { intros s y Hc Hx Hp. assert (e_fetch y = FetchRunning \/ e_fetch y <> FetchRunning) as [Hf|] by (destruct (e_fetch y); auto); [|by eapply H4]. destruct (fetch (ek_policy (e_key y)) (e_client y) (sv_now s) fetchFails) as [client result] eqn:HF.
    actor_step (QFetched e fetchFails); [rewrite Hf, HF; by destruct (e_phase y)|done|]. intros Hy. by eapply H4. }
  intros Hc Hx Hl. destruct (e_phase x) eqn:Hp; try done; [|by eapply H5|by eapply H3|by eapply H2|by eapply H1|by eapply ends_now].
  actor_step (QStopGrant e); [by rewrite Hp|done|]. intros Hy. by eapply H5.
Qed.

Lemma ends_any sv e x : sv_closed sv = true -> sv_heap sv !! e = Some x -> ends sv e.
Proof.
  assert (forall sv x fire, sv_closed sv = true -> sv_heap sv !! e = Some x -> e_phase x = ASelect fire -> e_cancelled x = true -> ends sv e) as H1.
  { intros s y fire Hc Hx Hp Hcan. actor_step (QCtxDone e); [by rewrite Hp, Hcan|done|]. intros Hy. by eapply ends_exit. }
  assert (forall sv x fire, sv_closed sv = true -> sv_heap sv !! e = Some x -> e_phase x = ASelect fire -> ends sv e) as H2.
  { intros s y fire Hc Hx Hp. eapply (ends_step s (QEntryCtx e) _ e (withCancelled y)); [done|cbn [quotaStep]; unfold entryCtx; rewrite Hx; cbn [mbind option_bind]; by rewrite Hc|done|].
    eapply (H1 _ (withCancelled y)); [done|apply lookup_insert_eq|exact Hp|done]. }
  assert (forall sv x, sv_closed sv = true -> sv_heap sv !! e = Some x -> e_phase x = ATop -> ends sv e) as H3.
  { intros s y Hc Hx Hp. actor_step (QTop e 0); [by rewrite Hp|done|]. intros Hy. destruct (actorTop_entry (sv_now s) (sv_now s + 0) y (sv_grants s)) as [_ [[_ HT]|(z & fire & _ & HT & _)]].
    - eapply ends_exit; [done|exact Hy|by rewrite HT].
    - eapply H2; [done|exact Hy|by rewrite HT]. }
  intros Hc Hx. destruct (e_phase x) eqn:Hp; try (eapply ends_exit; [done|done|by rewrite Hp]); [|by eapply H3|by eapply H2].
  actor_step (QStart e); [by rewrite Hp|done|]. intros Hy. by eapply H3.
Qed.

(** A closed service gets no new actor and stays joined. *)
Lemma closed_dom evs sv sv' : QuotaInv sv -> quotaRun evs sv = Some sv' -> sv_closed sv = true -> sv_closed sv' = true /\ dom (sv_heap sv') = dom (sv_heap sv) /\ (sv_joined sv = true -> sv_joined sv' = true).
Proof.
  intros HI. revert sv HI. induction evs as [|ev evs IH]; intros sv HI; cbn; [by intros [= <-]|]. destruct (quotaStep ev sv) as [sv1|] eqn:Hs; [|done]. cbn. intros HR Hc.
  assert (sv_closed sv1 = true /\ dom (sv_heap sv1) = dom (sv_heap sv) /\ (sv_joined sv = true -> sv_joined sv1 = true)) as (H1 & H2 & H3).
  { clear IH HR. destruct ev; cbn [quotaStep] in Hs; unfold callerStep, callStep, actorStep, exitStep, entryCtx, grantCtx, joinActors, mbind, option_bind in Hs; cbn [negb] in Hs; repeat (case_match; try discriminate Hs); simplify_eq/=;
      try (split_and!; [done|reflexivity|done]).
    all: try (unfold lookupEntry, deliverReply, acceptRequest in *; rewrite ?Hc; repeat case_match; simplify_eq/=).
    all: split_and!; try done.
    all: try (apply dom_insert_lookup_L; by eexists). }
  destruct (IH sv1 ltac:(by eapply quotaStep_inv) HR H1) as (? & HD & ?). split_and!; [done|congruence|auto].
Qed.

Lemma drainActors n sv : QuotaInv sv -> sv_closed sv = true -> sv_wg sv = n -> exists evs sv', Forall (fun ev => ownStep ev = true) evs /\ quotaRun evs sv = Some sv' /\ sv_joined sv' = true.
Proof.
  revert sv. induction n as [|n IH]; intros sv HI Hc Hw.
  - exists [QJoined], (setFinal (sv_closed sv) true sv). split_and!; [by repeat constructor| |done]. cbn. unfold joinActors. by rewrite Hc, Hw.
  - pose proof (ci_wg _ _ _ _ _ _ (qv_core _ HI)) as HC. destruct (cnt_exists running (sv_heap sv)) as (e & x & Hx & Hr); [lia|].
    destruct (ends_any sv e x Hc Hx) as (evs & sv1 & x1 & HF & HR & Hh & Hp & Hc1). pose proof (quotaRun_inv _ _ _ HI HR) as HI1.
    destruct (IH sv1 HI1 Hc1) as (evs2 & sv2 & HF2 & HR2 & Hj).
    { rewrite (ci_wg _ _ _ _ _ _ (qv_core _ HI1)), Hh. pose proof (cnt_replace running (sv_heap sv) e x x1 Hx) as HX. assert (running x1 = false) as Hx1 by (unfold running; by rewrite Hp). rewrite Hr, Hx1 in HX. lia. }
    exists (evs ++ evs2), sv2. split_and!; [by apply Forall_app|by rewrite (quotaRun_app _ _ _ _ HR)|done].
Qed.

(** C17: [Close] ends everything.  In every reachable state in which the service is
    closed, the steps of its own goroutines can bring it to the point where [Close]
    returns nil; and when it may return nil, every actor has ended, no fetch is under
    way, no key is registered, every grant is done, and from then on no actor is ever
    started. *)
Theorem close_joins evs now0 sv :
  quotaRun evs (NewService now0) = Some sv -> sv_closed sv = true ->
  (exists evs' sv', Forall (fun ev => ownStep ev = true) evs' /\ quotaRun evs' sv = Some sv' /\ sv_joined sv' = true) /\
  (sv_joined sv = true ->
     (forall e x, sv_heap sv !! e = Some x -> e_phase x = AEnded /\ e_fetch x <> FetchRunning) /\ sv_entries sv = ∅ /\ (forall g gr, sv_grants sv !! g = Some gr -> is_Some (gr_cause gr)) /\
     forall evs' sv', quotaRun evs' sv = Some sv' -> dom (sv_heap sv') = dom (sv_heap sv) /\ sv_joined sv' = true).
Proof.
  intros HR Hc. pose proof (quotaReach_inv _ _ _ HR) as HI. split; [by eapply drainActors|]. intros Hj. pose proof HI as [HC HG _ _]. destruct (ci_joined _ _ _ _ _ _ HC Hj) as [_ Hw].
  assert (forall e x, sv_heap sv !! e = Some x -> e_phase x = AEnded) as Hend.
  { intros e x Hx. destruct (running x) eqn:Hr; [|unfold running in Hr; by destruct (e_phase x)]. pose proof (cnt_pos running _ _ _ Hx Hr). rewrite <-(ci_wg _ _ _ _ _ _ HC) in *. lia. }
  split_and!.
  - intros e x Hx. pose proof (Hend e x Hx) as Hp. split; [done|]. apply (eo_fetch _ _ _ (entry_ok _ _ _ HI Hx)). by rewrite Hp.
  - apply map_empty. intros k. apply eq_None_not_Some. intros [e He]. apply (ci_reg _ _ _ _ _ _ HC) in He as (x & Hx & _ & Hr). by rewrite (Hend e x Hx) in Hr.
  - intros g gr Hg. destruct (gr_cause gr) as [cause|] eqn:Hca; [by eexists|]. destruct (gi_live _ _ HG g gr Hg) as (x & Hx & Hlive & _).
    destruct (eo_stopped _ _ _ (entry_ok _ _ _ HI Hx)) as [_ Hn]; [by rewrite (Hend _ _ Hx)|]. specialize (Hlive Hca). congruence.
  - intros evs' sv' HR'. destruct (closed_dom _ _ _ HI HR' Hc) as (_ & HD & HJ). auto.
Qed.
End props.

(** * peerquota: a run

    A call is granted before any decision is known; the decision that arrives allows
    one more second; a second caller arrives and is denied after it. *)
Section run.
#[local] Instance exURL : URLParser := {|
  parseURL s := if String.prefix "https://"%string s then Some (MkURL "quota.example" "https" false "") else None
|}.

Definition exQuotaNow : Time := 1000 * fetchRetryDelay.
Definition exQuotaKey : entryKey := MkEntryKey (repeat 7 32) (MkPolicy "custom" "https://quota.example/check" "secret").
Definition exDecision : quotaResponse := MkResponse (exQuotaNow + 10 * fetchRetryDelay) (Some (exQuotaNow + fetchRetryDelay)).

Definition exGranted : list quotaEvent :=
  [QAuthorize 0 exQuotaKey 0; QLookup 0; QStart 0; QTop 0 0; QAcquire 0 3; QReply 0; QTop 0 0;
   QFetched 0 (MkFetchWorld true true true (Some (200, Some exDecision))); QResult 0; QTop 0 2].

Definition exSecond : list quotaEvent := exGranted ++ [QAuthorize 1 exQuotaKey 1; QLookup 1; QTick fetchRetryDelay].

Definition exClosed : list quotaEvent := exGranted ++ [QClose].

Definition exQuota (evs : list quotaEvent) : quotaService := default (NewService exQuotaNow) (quotaRun evs (NewService exQuotaNow)).

(** That a run is possible is computed, its state is not. *)
Definition possible {A} (o : option A) : bool := match o with Some _ => true | None => false end.

Lemma exQuota_run evs : possible (quotaRun evs (NewService exQuotaNow)) = true -> quotaRun evs (NewService exQuotaNow) = Some (exQuota evs).
Proof. unfold exQuota. by destruct (quotaRun evs (NewService exQuotaNow)). Qed.

Definition exDenied : quotaService := default (NewService exQuotaNow) (quotaStep (QAcquire 1 0) (exQuota exSecond)).
Lemma exDenied_step : possible (quotaStep (QAcquire 1 0) (exQuota exSecond)) = true -> quotaStep (QAcquire 1 0) (exQuota exSecond) = Some exDenied.
Proof. unfold exDenied. by destruct (quotaStep (QAcquire 1 0) (exQuota exSecond)). Qed.

Lemma quota_leases_witness :
  c_release <$> sv_calls (exQuota exGranted) !! 0%nat = Some NotReleased /\
  forall e x, sv_heap (exQuota exGranted) !! e = Some x -> (e_tokens x <= 128)%nat /\ e_active x = Z.of_nat (e_tokens x + cnt (uncounted e) (sv_calls (exQuota exGranted))).
Proof.
  split; [vm_compute; reflexivity|]. assert (quotaRun exGranted (NewService exQuotaNow) = Some (exQuota exGranted)) as HR by (apply exQuota_run; vm_compute; reflexivity).
  exact (proj2 (quota_leases exGranted exQuotaNow (exQuota exGranted) HR)).
Defined.

(** The second caller is denied. *)
Lemma quota_decides_witness : k_phase <$> sv_callers exDenied !! 1%nat = Some (CWait 0 (AcquiredErr ErrDenied)).
Proof.
  assert (quotaRun exSecond (NewService exQuotaNow) = Some (exQuota exSecond)) as HR by (apply exQuota_run; vm_compute; reflexivity).
  assert (quotaStep (QAcquire 1 0) (exQuota exSecond) = Some exDenied) as HS by (apply exDenied_step; vm_compute; reflexivity).
  assert (sv_callers (exQuota exSecond) !! 1%nat = Some (MkCaller exQuotaKey 1 (COffer 0))) as Hk by (vm_compute; reflexivity).
  assert (sv_heap (exQuota exSecond) !! 0%nat = Some (default (newEntry exQuotaKey) (sv_heap (exQuota exSecond) !! 0%nat))) as Hx by (vm_compute; reflexivity).
  pose proof (proj1 (quota_decides exSecond exQuotaNow (exQuota exSecond) HR) _ _ _ _ _ _ Hk eq_refl Hx HS) as HA.
  etransitivity; [exact HA|vm_compute; reflexivity].
Defined.

Lemma expiry_stops_calls_witness :
  exists sv' x', quotaRun [QTick (fetchRetryDelay - 5); QTimer 0; QTop 0 0] (exQuota exGranted) = Some sv' /\ sv_heap sv' !! 0%nat = Some x' /\ e_grant x' = None.
Proof.
  assert (quotaRun exGranted (NewService exQuotaNow) = Some (exQuota exGranted)) as HR by (apply exQuota_run; vm_compute; reflexivity).
  assert (sv_heap (exQuota exGranted) !! 0%nat = Some (default (newEntry exQuotaKey) (sv_heap (exQuota exGranted) !! 0%nat))) as Hx by (vm_compute; reflexivity).
  destruct (expiry_stops_calls exGranted exQuotaNow (exQuota exGranted) 0 _ (exQuotaNow + fetchRetryDelay) exDecision (exQuotaNow + fetchRetryDelay) HR Hx) as (sv' & y & HS & Hy & Hg & _).
  - vm_compute. reflexivity.
  - vm_compute. by eexists.
  - vm_compute. reflexivity.
  - vm_compute. reflexivity.
  - assert (Z.max (exQuotaNow + fetchRetryDelay) (sv_now (exQuota exGranted) + millisecond) - sv_now (exQuota exGranted) = fetchRetryDelay - 5) as HE by (vm_compute; reflexivity).
    rewrite HE in HS. exists sv', y. split; [exact HS|]. split; [exact Hy|exact Hg].
Defined.

Lemma close_joins_witness :
  exists evs' sv', Forall (fun ev => ownStep ev = true) evs' /\ quotaRun evs' (exQuota exClosed) = Some sv' /\ sv_joined sv' = true.
Proof.
  assert (quotaRun exClosed (NewService exQuotaNow) = Some (exQuota exClosed)) as HR by (apply exQuota_run; vm_compute; reflexivity).
  assert (sv_closed (exQuota exClosed) = true) as HC by (vm_compute; reflexivity).
  exact (proj1 (close_joins exClosed exQuotaNow (exQuota exClosed) HR HC)).
Defined.

(** After [Close] a call learns [context.Canceled] and not [ErrClosed]: the grant is a
    child of the context that [Close] cancels, so it is done before the actor comes to
    [stopGrant(ErrClosed)]. *)
Example close_cause :
  c_cause <$> (quotaRun (exClosed ++ [QEntryCtx 0; QGrantCtx 0; QCtxDone 0; QStopGrant 0; QGrantStops 0]) (NewService exQuotaNow) ≫= fun sv => sv_calls sv !! 0%nat) = Some (Some ctxCanceled).
Proof. vm_compute. reflexivity. Qed.
End run.
