(* ===== verification/PeerUsage.v ===== *)
(** * peerusage: hourly quantities of providers, recorded and stored

    [src/pkgs/gizclaw/services/runtime/peerusage/recorder.go] and [store.go].  A
    [Recorder] adds up quantities in memory and writes cumulative snapshots into an SQL
    table, one row for every writer epoch; a write can be repeated, and its outcome can
    be lost.

    The table is the map from the primary key to the quantity, with the statements of
    [Write], [Maintain] (the SQLite dialect) and [Query] as functions on it; a
    transaction commits as a whole or not at all.  [Flush] is split where it releases the
    lock: the snapshots, the write, the acknowledgement.  The order in which a map is
    ranged over, and readings of the clock before a lock is taken, are arguments. *)

From stdpp Require Import gmap strings list sorting.
From S2P Require Import Prelude GoStrings GoText KVKey GoBytes GizKeys MapCount Tunnel.

Open Scope Z_scope.

Definition usageError := string.

Definition hourLength : Z := 3600 * 1000000000.
Definition usageRetention : Z := 90 * 24 * hourLength.
Definition maxInt64 : Z := 2 ^ 63 - 1.

(** [Truncate(time.Hour)]. *)
Definition truncateHour (t : Time) : Time := t - t mod hourLength.
Definition usageCutoff (now : Time) : Time := truncateHour now - usageRetention.

(** ** The table *)

(** [UnixNano] and [SQLUnixNano]. *)
Definition unixEpoch : Time := 62135596800 * 1000000000.
Definition unixNano (t : Time) : Z := (t - unixEpoch + 2 ^ 63) mod 2 ^ 64 - 2 ^ 63.
Definition SQLUnixNano (t : Time) : Go usageError Z :=
  if unixEpoch + unixNano t =? t then Ret (unixNano t) else Fail "time is outside signed nanosecond range"%string.

(** The primary key: text of the peer, model, hour, writer. *)
Abbreviation usageRow := (string * string * Z * string)%type.
Abbreviation usageTable := (gmap usageRow Z).

Record usageSnapshot := MkUsageSnapshot { us_Peer : Bytes; us_ModelID : string; us_Hour : Time; us_WriterID : string; us_Quantity : Z }.

Definition rowKey (peer : Bytes) (model : string) (hour : Time) (writer : string) : usageRow := (GizKey_String peer, model, unixNano hour, writer).
Definition snapshotRow (item : usageSnapshot) : usageRow := rowKey (us_Peer item) (us_ModelID item) (us_Hour item) (us_WriterID item).

Definition validateSnapshot (now : Time) (item : usageSnapshot) : Go usageError unit :=
  _ ← check (Key_IsZero (us_Peer item) || bool_decide (trimSpace (us_ModelID item) = ""%string) || (256 <? String.length (us_ModelID item))%nat
             || bool_decide (trimSpace (us_WriterID item) = ""%string) || (128 <? String.length (us_WriterID item))%nat || (us_Quantity item <? 0))
        "peerusage: invalid hourly snapshot"%string;
  _ ← check (negb (us_Hour item =? truncateHour (us_Hour item))) "peerusage: snapshot hour must be an exact UTC hour"%string;
  _ ← check (us_Hour item <? usageCutoff now) "peerusage: snapshot is outside retention"%string;
  _ ← check (truncateHour now <? us_Hour item) "peerusage: snapshot hour is in the future"%string;
  _ ← SQLUnixNano (us_Hour item);
  Ret tt.

(** [DELETE ... WHERE hour_unix_nano < cutoff]. *)
Definition maintainTable (cutoff : Z) (table : usageTable) : usageTable := filter (fun row => negb (row.1.1.2 <? cutoff) = true) table.

(** [INSERT ... ON CONFLICT ... DO UPDATE SET quantity=excluded.quantity WHERE quantity < excluded.quantity]. *)
Definition upsertRow (table : usageTable) (row : usageRow) (quantity : Z) : usageTable :=
  match table !! row with
  | Some stored => if stored <? quantity then <[row := quantity]> table else table
  | None => <[row := quantity]> table
  end.

Definition upsertSnapshot (table : usageTable) (item : usageSnapshot) : usageTable := upsertRow table (snapshotRow item) (us_Quantity item).

(** What becomes of a transaction: committed, committed with its answer lost, rolled
    back. *)
Inductive commitOutcome := CommitOk | CommitLost | CommitFailed.

Definition commitTx (outcome : commitOutcome) (table table' : usageTable) : usageTable * Go usageError unit :=
  match outcome with
  | CommitOk => (table', Ret tt)
  | CommitLost => (table', Fail "peerusage: database"%string)
  | CommitFailed => (table, Fail "peerusage: database"%string)
  end.

(** [Store.Maintain] and [Store.Write]. *)
Definition Maintain (now : Time) (outcome : commitOutcome) (table : usageTable) : usageTable * Go usageError unit :=
  match SQLUnixNano (usageCutoff now) with
  | Ret cutoff => commitTx outcome table (maintainTable cutoff table)
  | Fail e => (table, Fail e)
  | Panic => (table, Panic)
  end.

Definition UsageWrite (now : Time) (items : list usageSnapshot) (outcome : commitOutcome) (table : usageTable) : usageTable * Go usageError unit :=
  match items with
  | [] => (table, Ret tt)
  | _ =>
      match each (validateSnapshot now) items with
      | Ret _ =>
          match SQLUnixNano (usageCutoff now) with
          | Ret cutoff => commitTx outcome table (foldl upsertSnapshot (maintainTable cutoff table) items)
          | Fail e => (table, Fail e)
          | Panic => (table, Panic)
          end
      | Fail e => (table, Fail e)
      | Panic => (table, Panic)
      end
  end.

(** ** Queries *)
Record hourlyUsage := MkHourly { hu_ModelID : string; hu_Hour : Time; hu_Quantity : Z }.

(** The rows that a query selects. *)
Definition selectedRow (peer : Bytes) (model : string) (lower upper : Z) (row : usageRow) : bool :=
  let '(p, m, h, _) := row in
  bool_decide (p = GizKey_String peer) && (lower <=? h) && (h <? upper) && (bool_decide (model = ""%string) || bool_decide (m = model)).

Definition rowGroup (row : usageRow) : Z * string := (row.1.2, row.1.1.2).

(** [GROUP BY model_id, hour_unix_nano ORDER BY hour_unix_nano, model_id]. *)
Definition groupLe (a b : Z * string) : Prop := a.1 < b.1 \/ a.1 = b.1 /\ String.le a.2 b.2.
#[export] Instance groupLe_dec : RelDecision groupLe.
Proof. intros a b. unfold groupLe. solve_decision. Defined.

Definition groupsOf (selected : usageRow -> bool) (table : usageTable) : list (Z * string) :=
  merge_sort groupLe (remove_dups (rowGroup <$> filter (fun row => selected row = true) (map_to_list table).*1)).

Definition groupSum (selected : usageRow -> bool) (table : usageTable) (g : Z * string) : Z :=
  sumOn (fun row => selected row && bool_decide (rowGroup row = g)) table.

(** A sum that is no [int64] is an error of the database or of [Scan]. *)
Definition scanGroup (selected : usageRow -> bool) (table : usageTable) (g : Z * string) : Go usageError hourlyUsage :=
  let sum := groupSum selected table g in
  if sum <=? maxInt64 then Ret (MkHourly g.2 (unixEpoch + g.1) sum) else Fail "peerusage: database"%string.

Definition maxTime (a b : Time) : Time := if a <? b then b else a.

(** [Store.Query] of a query that the database answers. *)
Definition UsageQuery (now : Time) (peer : Bytes) (model : string) (start end_ : Time) (table : usageTable) : Go usageError (list hourlyUsage) :=
  if Key_IsZero peer || negb (start <? end_) then Fail "peerusage: invalid hourly query"%string
  else
    let start := maxTime start (usageCutoff now) in
    if negb (start <? end_) then Ret []
    else
      lower ← SQLUnixNano start;
      upper ← SQLUnixNano end_;
      let selected := selectedRow peer model lower upper in
      mapGo (scanGroup selected table) (groupsOf selected table).

(** ** The recorder *)
Record bucketKey := MkBucketKey { bk_peer : Bytes; bk_model : string; bk_hour : Time }.

#[export] Instance bucketKey_eq_dec : EqDecision bucketKey.
Proof. solve_decision. Defined.
#[export] Instance bucketKey_countable : Countable bucketKey.
Proof. refine (inj_countable' (fun k => (bk_peer k, bk_model k, bk_hour k)) (fun '(a, b, c) => MkBucketKey a b c) _). by intros []. Defined.

Record bucketCounter := MkCounter { bc_writer : string; bc_quantity : Z; bc_acknowledged : Z }.

#[export] Instance bucketCounter_eq_dec : EqDecision bucketCounter.
Proof. solve_decision. Defined.

(** [rc_identity] is the random text of [newRecorder]. *)
Record usageRecorder := MkRecorder {
  rc_identity : string; rc_buckets : gmap bucketKey bucketCounter; rc_sequence : Z; rc_closed : bool; rc_started : bool; rc_rejected : Z
}.

Definition newRecorder (identity : string) : usageRecorder := MkRecorder identity ∅ 0 false false 0.

Definition withBuckets (buckets : gmap bucketKey bucketCounter) (r : usageRecorder) : usageRecorder :=
  MkRecorder (rc_identity r) buckets (rc_sequence r) (rc_closed r) (rc_started r) (rc_rejected r).
Definition withSequence (sequence : Z) (r : usageRecorder) : usageRecorder :=
  MkRecorder (rc_identity r) (rc_buckets r) sequence (rc_closed r) (rc_started r) (rc_rejected r).
Definition withFlags (closed started : bool) (r : usageRecorder) : usageRecorder :=
  MkRecorder (rc_identity r) (rc_buckets r) (rc_sequence r) closed started (rc_rejected r).
Definition withRejected (rejected : Z) (r : usageRecorder) : usageRecorder :=
  MkRecorder (rc_identity r) (rc_buckets r) (rc_sequence r) (rc_closed r) (rc_started r) rejected.

(** [fmt.Sprintf("%s-%d", identity, sequence)]. *)
Definition writerID (identity : string) (sequence : Z) : string := (identity ++ "-" ++ FormatUint sequence)%string.

(** The input, cached input and output of a provider's record. *)
Definition usageCounts : Type := Z * Z * Z.

Definition addCount (total count : Z) : Go usageError Z :=
  _ ← check ((count <? 0) || (maxInt64 - total <? count)) "peerusage: invalid or overflowing provider quantity"%string;
  Ret (total + count).

Definition usageTotal (counts : usageCounts) : Go usageError Z :=
  let '(input, cached, output) := counts in foldGo addCount 0 [input; cached; output].

(** The critical section of [Record]. *)
Definition addTotal (key : bucketKey) (total : Z) : ST usageRecorder usageError unit :=
  r ← getST;
  _ ← checkST (rc_closed r) "peerusage: recorder is closed"%string;
  counter ←
    match rc_buckets r !! key with
    | Some counter => mret counter
    | None =>
        let sequence := wrap 64 (rc_sequence r + 1) in
        let counter := MkCounter (writerID (rc_identity r) sequence) 0 0 in
        _ ← putST (withSequence sequence (withBuckets (<[key := counter]> (rc_buckets r)) r));
        mret counter
    end;
  _ ← checkST (maxInt64 - bc_quantity counter <? total) "peerusage: hourly quantity overflow"%string;
  r ← getST;
  putST (withBuckets (<[key := MkCounter (bc_writer counter) (bc_quantity counter + total) (bc_acknowledged counter)]> (rc_buckets r)) r).

(** [Record]; [now] is its reading of the clock, before the lock. *)
Definition RecordUsage (peer : Bytes) (modelID : string) (counts : usageCounts) (now : Time) : ST usageRecorder usageError unit :=
  _ ← checkST (Key_IsZero peer || bool_decide (modelID = ""%string) || (256 <? String.length modelID)%nat) "peerusage: invalid recorder identity"%string;
  total ← lift (usageTotal counts);
  if total =? 0 then mret tt else addTotal (MkBucketKey peer modelID (truncateHour now)) total.

(** [Handler] counts what [Record] refuses. *)
Definition handleUsage (peer : Bytes) (modelID : string) (counts : usageCounts) (now : Time) (r : usageRecorder) : usageRecorder :=
  match RecordUsage peer modelID counts now r with
  | (r', Ret _) => r'
  | (r', _) => withRejected (wrap 64 (rc_rejected r' + 1)) r'
  end.

(** [Start] up to its goroutine, and the beginning of [Close]. *)
Definition startRecorder (r : usageRecorder) : usageRecorder := if rc_started r || rc_closed r then r else withFlags (rc_closed r) true r.
Definition closeRecorder (r : usageRecorder) : usageRecorder := withFlags true (rc_started r) r.

(** The first critical section of [Flush], for one bucket. *)
Definition visitBucket (cutoff : Time) (st : gmap bucketKey bucketCounter * list usageSnapshot) (key : bucketKey) : gmap bucketKey bucketCounter * list usageSnapshot :=
  match st.1 !! key with
  | None => st
  | Some counter =>
      if bk_hour key <? cutoff then (delete key st.1, st.2)
      else if bc_quantity counter =? bc_acknowledged counter then st
      else (st.1, st.2 ++ [MkUsageSnapshot (bk_peer key) (bk_model key) (bk_hour key) (bc_writer counter) (bc_quantity counter)])
  end.

Definition takeSnapshots (order : list bucketKey) (now : Time) (r : usageRecorder) : usageRecorder * list usageSnapshot :=
  let st := foldl (visitBucket (usageCutoff now)) (rc_buckets r, []) order in (withBuckets st.1 r, st.2).

(** Its second one. *)
Definition itemKey (item : usageSnapshot) : bucketKey := MkBucketKey (us_Peer item) (us_ModelID item) (us_Hour item).

Definition acknowledge (buckets : gmap bucketKey bucketCounter) (item : usageSnapshot) : gmap bucketKey bucketCounter :=
  match buckets !! itemKey item with
  | Some counter =>
      if bool_decide (bc_writer counter = us_WriterID item)
      then <[itemKey item := MkCounter (bc_writer counter) (bc_quantity counter) (Z.max (bc_acknowledged counter) (us_Quantity item))]> buckets
      else buckets
  | None => buckets
  end.

Definition finishedBucket (now : Time) (entry : bucketKey * bucketCounter) : bool :=
  (bk_hour entry.1 <? truncateHour now) && (bc_quantity entry.2 =? bc_acknowledged entry.2).

Definition acknowledgeAll (items : list usageSnapshot) (now : Time) (r : usageRecorder) : usageRecorder :=
  withBuckets (filter (fun entry => finishedBucket now entry = false) (foldl acknowledge (rc_buckets r) items)) r.

(** ** Executions *)

(** Where the [Flush] that holds the gate is.  What was accepted before its snapshots is
    kept beside them. *)
Inductive flushPhase :=
  | NoFlush
  | Writing (items : list usageSnapshot) (before : gmap bucketKey Z)
  | Acknowledging (items : list usageSnapshot) (before : gmap bucketKey Z).

(** [ut_accepted] is the sum of the quantities of the records that were accepted,
    [ut_durable] what it was before the snapshots of the last [Flush] that returned nil. *)
Record usageState := MkUsage {
  ut_now : Time; ut_recorder : usageRecorder; ut_flush : flushPhase; ut_table : usageTable;
  ut_accepted : gmap bucketKey Z; ut_durable : gmap bucketKey Z
}.

Definition newUsage (identity : string) (now : Time) (table : usageTable) : usageState := MkUsage now (newRecorder identity) NoFlush table ∅ ∅.

(** [at_] is a reading of the clock before a lock, [order] the order of a range. *)
Inductive usageEvent :=
  | UTick (d : Z)
  | URecord (peer : Bytes) (model : string) (counts : usageCounts) (at_ : Time)
  | UStart | UClose
  | USnapshots (order : list bucketKey) (at_ : Time) | UWrite (outcome : commitOutcome) | UAcknowledge (at_ : Time)
  | UMaintain (outcome : commitOutcome)
  | UOther (row : usageRow) (quantity : Z).

Definition ownPrefix (identity : string) : string := (identity ++ "-")%string.

Definition setUsage (recorder : usageRecorder) (flush : flushPhase) (table : usageTable) (st : usageState) : usageState :=
  MkUsage (ut_now st) recorder flush table (ut_accepted st) (ut_durable st).

Definition accept (key : bucketKey) (total : Z) (st : usageState) : usageState :=
  MkUsage (ut_now st) (ut_recorder st) (ut_flush st) (ut_table st) (<[key := default 0 (ut_accepted st !! key) + total]> (ut_accepted st)) (ut_durable st).

Definition flushed (before : gmap bucketKey Z) (st : usageState) : usageState :=
  MkUsage (ut_now st) (ut_recorder st) NoFlush (ut_table st) (ut_accepted st) before.

Definition recordStep (peer : Bytes) (model : string) (counts : usageCounts) (at_ : Time) (st : usageState) : usageState :=
  let st' := setUsage (handleUsage peer model counts at_ (ut_recorder st)) (ut_flush st) (ut_table st) st in
  match RecordUsage peer model counts at_ (ut_recorder st), usageTotal counts with
  | (_, Ret _), Ret total => accept (MkBucketKey peer model (truncateHour at_)) total st'
  | _, _ => st'
  end.

Definition snapshotStep (order : list bucketKey) (at_ : Time) (st : usageState) : usageState :=
  let '(r, items) := takeSnapshots order at_ (ut_recorder st) in
  match items with
  | [] => flushed (ut_accepted st) (setUsage r NoFlush (ut_table st) st)
  | _ => setUsage r (Writing items (ut_accepted st)) (ut_table st) st
  end.

Definition writeStep (items : list usageSnapshot) (before : gmap bucketKey Z) (outcome : commitOutcome) (st : usageState) : usageState :=
  match UsageWrite (ut_now st) items outcome (ut_table st) with
  | (table, Ret _) => setUsage (ut_recorder st) (Acknowledging items before) table st
  | (table, _) => setUsage (ut_recorder st) NoFlush table st
  end.

(** A public key is 32 bytes. *)
Definition keyOkb (k : Bytes) : bool := (length k =? KeySize)%nat && forallb (fun b => (0 <=? b) && (b <? 256)) k.

(** Other recorders have other identities. *)
Definition usageStep (ev : usageEvent) (st : usageState) : option usageState :=
  match ev with
  | UTick d => if 0 <=? d then Some (MkUsage (ut_now st + d) (ut_recorder st) (ut_flush st) (ut_table st) (ut_accepted st) (ut_durable st)) else None
  | URecord peer model counts at_ => if keyOkb peer && (0 <=? at_) && (at_ <=? ut_now st) then Some (recordStep peer model counts at_ st) else None
  | UStart => Some (setUsage (startRecorder (ut_recorder st)) (ut_flush st) (ut_table st) st)
  | UClose => Some (setUsage (closeRecorder (ut_recorder st)) (ut_flush st) (ut_table st) st)
  | USnapshots order at_ =>
      match ut_flush st with
      | NoFlush => if bool_decide (NoDup order /\ list_to_set order = dom (rc_buckets (ut_recorder st))) && (at_ <=? ut_now st) then Some (snapshotStep order at_ st) else None
      | _ => None
      end
  | UWrite outcome => match ut_flush st with Writing items before => Some (writeStep items before outcome st) | _ => None end
  | UAcknowledge at_ =>
      match ut_flush st with
      | Acknowledging items before => if at_ <=? ut_now st then Some (flushed before (setUsage (acknowledgeAll items at_ (ut_recorder st)) NoFlush (ut_table st) st)) else None
      | _ => None
      end
  | UMaintain outcome => Some (setUsage (ut_recorder st) (ut_flush st) (Maintain (ut_now st) outcome (ut_table st)).1 st)
  | UOther row quantity =>
      if negb (String.prefix (ownPrefix (rc_identity (ut_recorder st))) row.2) && (0 <=? quantity) then Some (setUsage (ut_recorder st) (ut_flush st) (upsertRow (ut_table st) row quantity) st) else None
  end.

Fixpoint usageRun (evs : list usageEvent) (st : usageState) : option usageState :=
  match evs with [] => Some st | ev :: evs => st' ← usageStep ev st; usageRun evs st' end.

(** [Hourly], after its [Flush]. *)
Definition Hourly (now : Time) (peer : Bytes) (table : usageTable) : Go usageError (list hourlyUsage) :=
  let now' := truncateHour now in UsageQuery now peer "" (now' - usageRetention) (now' + hourLength) table.
