(* ===== verification/PeerUsageProps.v ===== *)
(** * peerusage: no quantity is lost or counted twice

    A recorder and its table, in every interleaving of records, flushes, maintenance and
    other writers, with commits that fail or whose answer is lost.  Theorems, for hours
    within retention: what the table holds of the recorder is what was accepted, less
    what is still pending, and at least what was accepted before the last [Flush] that
    returned nil; an undisturbed [Flush] stores everything; [Hourly] shows what is
    stored. *)

From stdpp Require Import gmap strings list sorting.
From S2P Require Import Prelude GoStrings GoText KVKey GoBytes Encoding EncodingProps GizKeys MapCount Tunnel PeerUsage.

Open Scope Z_scope.

(** ** Keys *)
Lemma keyOkb_spec k : keyOkb k = true <-> keyOk k.
Proof.
  unfold keyOkb, keyOk, bytesOk. rewrite andb_true_iff, Nat.eqb_eq, forallb_forall, Forall_forall. unfold isByte.
  split; [intros [? HF]; split; [|done]; intros x Hx; apply list_elem_of_In in Hx; specialize (HF x Hx); lia|]. intros [HF ?]. split; [done|]. intros x Hx. apply list_elem_of_In in Hx. specialize (HF x Hx). lia.
Qed.

Lemma GizKey_String_inj k1 k2 : keyOk k1 -> keyOk k2 -> GizKey_String k1 = GizKey_String k2 -> k1 = k2.
Proof. intros H1 H2 HE. apply decodeKeyText_String in H1, H2. rewrite HE in H1. congruence. Qed.

Definition unixOk (t : Time) : Prop := unixEpoch + unixNano t = t.

Record goodBucketKey (key : bucketKey) : Prop := { gk_peer : keyOk (bk_peer key); gk_hour : unixOk (bk_hour key) }.

Definition liveKey (now : Time) (key : bucketKey) : Prop := usageCutoff now <= bk_hour key.

Lemma SQLUnixNano_Ret t n : SQLUnixNano t = Ret n <-> unixOk t /\ n = unixNano t.
Proof. unfold SQLUnixNano, unixOk. destruct (Z.eqb_spec (unixEpoch + unixNano t) t); split; [intros [= <-]; done|by intros [_ ->]|done|tauto]. Qed.

Lemma unixNano_inj t u : unixOk t -> unixOk u -> unixNano t = unixNano u -> t = u.
Proof. unfold unixOk. lia. Qed.

Lemma truncateHour_mono t u : t <= u -> truncateHour t <= truncateHour u.
Proof.
  intros Hle. unfold truncateHour. pose proof (Z.div_le_mono t u hourLength ltac:(unfold hourLength; lia) Hle).
  rewrite (Z.mod_eq t), (Z.mod_eq u) by (unfold hourLength; lia). assert (hourLength * (t / hourLength) <= hourLength * (u / hourLength)) by (apply Z.mul_le_mono_nonneg_l; [unfold hourLength; lia|done]). lia.
Qed.

Lemma truncateHour_idem t : truncateHour (truncateHour t) = truncateHour t.
Proof.
  unfold truncateHour. assert (t - t mod hourLength = hourLength * (t / hourLength)) as -> by (rewrite Z.mod_eq by (unfold hourLength; lia); lia).
  rewrite (Z.mul_comm hourLength), Z.mod_mul by (unfold hourLength; lia). lia.
Qed.

Lemma live_later now now' key : now <= now' -> liveKey now' key -> liveKey now key.
Proof. intros Hle Hl. pose proof (truncateHour_mono _ _ Hle). unfold liveKey, usageCutoff in *. lia. Qed.

(** ** Rows *)
Definition rowOf (key : bucketKey) (writer : string) : usageRow := rowKey (bk_peer key) (bk_model key) (bk_hour key) writer.

Lemma rowOf_inj k1 w1 k2 w2 : goodBucketKey k1 -> goodBucketKey k2 -> rowOf k1 w1 = rowOf k2 w2 -> k1 = k2 /\ w1 = w2.
Proof.
  intros [Hp1 Hh1] [Hp2 Hh2]. unfold rowOf, rowKey. intros [= HP HM HH HW]. apply GizKey_String_inj in HP; [|done..]. apply unixNano_inj in HH; [|done..]. destruct k1, k2. cbn in *. by subst.
Qed.

Lemma snapshotRow_item item : snapshotRow item = rowOf (itemKey item) (us_WriterID item).
Proof. done. Qed.

Lemma prefix_app s t : String.prefix s (s ++ t)%string = true.
Proof. 
  induction s as [|a s IH]; [by destruct t|]. change (String a s ++ t)%string with (String a (s ++ t)%string).
  change ((if Ascii.ascii_dec a a then String.prefix s (s ++ t)%string else false) = true). by destruct (Ascii.ascii_dec a a) as [_|Hne].
Qed.

Lemma append_inj (s t u : string) : (s ++ t = s ++ u -> t = u)%string.
Proof. induction s as [|a s IH]; cbn; [done|]. intros [= HE]. auto. Qed.

Lemma writerID_prefix id n : String.prefix (ownPrefix id) (writerID id n) = true.
Proof.
  unfold ownPrefix, writerID. assert ((id ++ "-" ++ FormatUint n) = (id ++ "-") ++ FormatUint n)%string as ->; [|apply prefix_app]. induction id as [|a id IH]; [done|]. exact (f_equal (String a) IH).
Qed.

Lemma writerID_inj id n m : uintOk 64 n -> uintOk 64 m -> writerID id n = writerID id m -> n = m.
Proof.
  intros Hn Hm HE. unfold writerID in HE. apply append_inj in HE. injection HE as HE. change (FormatUint n = FormatUint m) in HE. destruct (FormatUint_spec n Hn) as [H1 _], (FormatUint_spec m Hm) as [H2 _]. rewrite HE in H1. congruence.
Qed.

(** The rows of a key that this recorder has written. *)
Definition ownRow (id : string) (key : bucketKey) (row : usageRow) : bool :=
  bool_decide (row.1 = (rowOf key "").1) && String.prefix (ownPrefix id) row.2.

Definition storedQuantity (id : string) (key : bucketKey) (table : usageTable) : Z := sumOn (ownRow id key) table.
Definition rowQuantity (key : bucketKey) (writer : string) (table : usageTable) : Z := default 0 (table !! rowOf key writer).

Lemma ownRow_rowOf id key key' w : goodBucketKey key -> goodBucketKey key' -> ownRow id key (rowOf key' w) = bool_decide (key = key') && String.prefix (ownPrefix id) w.
Proof.
  intros Hk Hk'. unfold ownRow. f_equal. apply bool_decide_ext. split; [|by intros ->]. intros HE. symmetry. apply (rowOf_inj key' "" key ""); [done..|]. unfold rowOf, rowKey in *. cbn in *. congruence.
Qed.

Lemma upsert_lookup table row q row' : 0 <= q -> default 0 (upsertRow table row q !! row') = if bool_decide (row = row') then Z.max (default 0 (table !! row)) q else default 0 (table !! row').
Proof.
  intros Hq. unfold upsertRow. destruct (decide (row = row')) as [<-|Hne].
  - rewrite bool_decide_eq_true_2 by done. destruct (table !! row) as [s|] eqn:Hs; [destruct (Z.ltb_spec s q)|]; rewrite ?lookup_insert_eq, ?Hs; cbn [from_option id]; unfold id; lia.
  - rewrite bool_decide_eq_false_2 by done. destruct (table !! row) as [s|]; [destruct (s <? q)|]; by rewrite ?lookup_insert_ne.
Qed.

Lemma upsert_stored id key table row q : 0 <= q -> storedQuantity id key (upsertRow table row q) = storedQuantity id key table + (if ownRow id key row then Z.max (default 0 (table !! row)) q - default 0 (table !! row) else 0).
Proof.
  intros Hq. unfold upsertRow, storedQuantity. destruct (table !! row) as [s|] eqn:Hs; [destruct (Z.ltb_spec s q)|]; rewrite ?sumOn_insert, ?Hs; cbn; destruct (ownRow id key row); lia.
Qed.

Lemma maintain_live now c key : SQLUnixNano (usageCutoff now) = Ret c -> goodBucketKey key -> liveKey now key -> negb (unixNano (bk_hour key) <? c) = true.
Proof. intros [HC ->]%SQLUnixNano_Ret [_ HH] HL. unfold unixOk, liveKey in *. apply negb_true_iff, Z.ltb_ge. lia. Qed.

Lemma maintain_stored id now c key table : SQLUnixNano (usageCutoff now) = Ret c -> goodBucketKey key -> liveKey now key -> storedQuantity id key (maintainTable c table) = storedQuantity id key table.
Proof.
  intros HC HG HL. apply sumOn_filter. intros row q _ HO. unfold ownRow in HO. apply andb_true_iff in HO as [HO%bool_decide_eq_true_1 _]. cbn. rewrite HO. cbn. by eapply maintain_live.
Qed.

Lemma maintain_row now c key w table : SQLUnixNano (usageCutoff now) = Ret c -> goodBucketKey key -> liveKey now key -> rowQuantity key w (maintainTable c table) = rowQuantity key w table.
Proof.
  intros HC HG HL. unfold rowQuantity, maintainTable. f_equal. destruct (table !! rowOf key w) as [q|] eqn:Hq.
  - apply map_lookup_filter_Some. split; [done|]. cbn. by eapply maintain_live.
  - apply map_lookup_filter_None. by left.
Qed.

(** The upserts of one write, for one key whose items all come from one writer. *)
Definition usageItemsOf (key : bucketKey) (w : string) (bound : Z) (items : list usageSnapshot) : Prop :=
  Forall (fun item => goodBucketKey (itemKey item) /\ 0 <= us_Quantity item /\ (itemKey item = key -> us_WriterID item = w /\ us_Quantity item <= bound)) items.

Lemma upserts_spec id key w bound items table : goodBucketKey key -> String.prefix (ownPrefix id) w = true -> usageItemsOf key w bound items ->
  let table' := foldl upsertSnapshot table items in
  storedQuantity id key table' - rowQuantity key w table' = storedQuantity id key table - rowQuantity key w table /\
  rowQuantity key w table <= rowQuantity key w table' <= Z.max (rowQuantity key w table) bound /\
  (forall item, item ∈ items -> itemKey item = key -> us_Quantity item <= rowQuantity key w table').
Proof.
  intros HG Hw. revert table. induction items as [|item items IH]; intros table HF; cbn [foldl].
  - split_and!; [done|lia|lia|]. intros item Hi. by apply not_elem_of_nil in Hi.
  - apply Forall_cons in HF as [(Hg & Hq & Hk) HF]. destruct (IH (upsertSnapshot table item) HF) as (I1 & I2 & I3).
    assert (storedQuantity id key (upsertSnapshot table item) - rowQuantity key w (upsertSnapshot table item) = storedQuantity id key table - rowQuantity key w table /\
      rowQuantity key w table <= rowQuantity key w (upsertSnapshot table item) <= Z.max (rowQuantity key w table) bound /\ (itemKey item = key -> us_Quantity item <= rowQuantity key w (upsertSnapshot table item))) as (J1 & J2 & J3).
    { pose proof (upsert_lookup table (snapshotRow item) (us_Quantity item) (rowOf key w) Hq) as HR. pose proof (upsert_stored id key table (snapshotRow item) (us_Quantity item) Hq) as HS.
      fold (upsertSnapshot table item) in HR, HS. fold (rowQuantity key w (upsertSnapshot table item)) in HR. rewrite HR, HS, snapshotRow_item, ownRow_rowOf by done. clear HR HS. destruct (decide (key = itemKey item)) as [->|Hne].
      - destruct (Hk eq_refl) as [-> Hb]. rewrite !bool_decide_eq_true_2, Hw by done. cbn [andb]. unfold rowQuantity. split_and!; intros; lia.
      - rewrite (bool_decide_eq_false_2 (key = _)), bool_decide_eq_false_2 by (done || (intros HE; apply rowOf_inj in HE as [? _]; congruence)). cbn [andb]. unfold rowQuantity. split_and!; [lia|lia|lia|congruence]. }
    split_and!; [lia|lia|lia|]. intros item' [->|Hi]%elem_of_cons He; [specialize (J3 He); lia|by apply I3].
Qed.

(** ** The invariant *)
Definition identityOf (st : usageState) : string := rc_identity (ut_recorder st).
Definition bucketsOf (st : usageState) : gmap bucketKey bucketCounter := rc_buckets (ut_recorder st).
Definition sequenceOf (st : usageState) : Z := rc_sequence (ut_recorder st).
Definition acceptedOf (st : usageState) (key : bucketKey) : Z := default 0 (ut_accepted st !! key).
Definition storedOf (st : usageState) (key : bucketKey) : Z := storedQuantity (identityOf st) key (ut_table st).
Definition rowIn (st : usageState) (key : bucketKey) (w : string) : Z := rowQuantity key w (ut_table st).

Definition issuedWriter (id : string) (sequence : Z) (w : string) : Prop := exists n, 1 <= n <= sequence /\ w = writerID id n.

Record bucketOk (now : Time) (id : string) (sequence : Z) (key : bucketKey) (c : bucketCounter) : Prop := {
  bo_peer : keyOk (bk_peer key) /\ Key_IsZero (bk_peer key) = false /\ (String.length (bk_model key) <= 256)%nat;
  bo_hour : bk_hour key = truncateHour (bk_hour key) /\ bk_hour key <= truncateHour now;
  bo_counts : 0 <= bc_acknowledged c <= bc_quantity c /\ bc_quantity c <= maxInt64;
  bo_writer : issuedWriter id sequence (bc_writer c)
}.

(** What is accepted of a key is stored or pending. *)
Definition accountOk (st : usageState) (key : bucketKey) : Prop :=
  match bucketsOf st !! key with
  | Some c => bc_acknowledged c <= rowIn st key (bc_writer c) <= bc_quantity c /\ acceptedOf st key = storedOf st key - rowIn st key (bc_writer c) + bc_quantity c
  | None => acceptedOf st key = storedOf st key
  end.

(** The snapshots of the [Flush] under way. *)
Definition itemOk (buckets : gmap bucketKey bucketCounter) (item : usageSnapshot) : Prop :=
  exists c, buckets !! itemKey item = Some c /\ bc_writer c = us_WriterID item /\ 0 <= us_Quantity item <= bc_quantity c.

Definition relevant (st : usageState) (key : bucketKey) : Prop := goodBucketKey key /\ liveKey (ut_now st) key.

Definition flushOk (st : usageState) : Prop :=
  match ut_flush st with
  | NoFlush => True
  | Writing items before =>
      Forall (itemOk (bucketsOf st)) items /\
      forall key, relevant st key -> default 0 (before !! key) <= storedOf st key \/
        exists item, item ∈ items /\ itemKey item = key /\ default 0 (before !! key) <= storedOf st key - rowIn st key (us_WriterID item) + us_Quantity item
  | Acknowledging items before =>
      Forall (itemOk (bucketsOf st)) items /\
      (forall item, item ∈ items -> relevant st (itemKey item) -> us_Quantity item <= rowIn st (itemKey item) (us_WriterID item)) /\
      forall key, relevant st key -> default 0 (before !! key) <= storedOf st key
  end.

Record UsageInv (st : usageState) : Prop := {
  ui_bucket key c : bucketsOf st !! key = Some c -> bucketOk (ut_now st) (identityOf st) (sequenceOf st) key c;
  ui_rows row q : ut_table st !! row = Some q -> 0 <= q /\ (String.prefix (ownPrefix (identityOf st)) row.2 = true -> issuedWriter (identityOf st) (sequenceOf st) row.2);
  ui_account key : relevant st key -> accountOk st key;
  ui_flush : flushOk st;
  ui_durable key : relevant st key -> default 0 (ut_durable st !! key) <= storedOf st key;
  ui_sequence : 0 <= sequenceOf st
}.

(** A table to start with: nothing has this recorder's identity. *)
Definition freshTable (id : string) (table : usageTable) : Prop := forall row q, table !! row = Some q -> 0 <= q /\ String.prefix (ownPrefix id) row.2 = false.

Lemma new_usage_inv id now table : freshTable id table -> UsageInv (newUsage id now table).
Proof.
  intros HF. assert (forall key, storedQuantity id key table = 0) as HS.
  { intros key. unfold storedQuantity. rewrite (sumOn_ext _ (fun _ => false) table).
    - clear HF. induction table as [|row q table Hr IH] using map_ind; [done|]. by rewrite sumOn_insert_new.
    - intros row q Hr. unfold ownRow. destruct (HF row q Hr) as [_ ->]. apply andb_false_r. }
  split; cbn; try done.
  - intros row q Hr. destruct (HF row q Hr) as [? HP]. split; [done|]. cbn. congruence.
  - intros key _. unfold accountOk, acceptedOf, storedOf. cbn. by rewrite HS.
  - intros key _. unfold storedOf. cbn. rewrite HS. done.
Qed.

(** The invariant under a later clock. *)
Lemma relevant_later st d key : 0 <= d -> liveKey (ut_now st + d) key -> liveKey (ut_now st) key.
Proof. intros Hd. apply live_later. lia. Qed.

Lemma tick_usage_inv st d : 0 <= d -> UsageInv st -> UsageInv (MkUsage (ut_now st + d) (ut_recorder st) (ut_flush st) (ut_table st) (ut_accepted st) (ut_durable st)).
Proof.
  intros Hd [H1 H2 H3 H4 H5 H6]. set (st' := MkUsage _ _ _ _ _ _). assert (forall key, relevant st' key -> relevant st key) as HR by (intros key [? ?]; split; [done|by apply (relevant_later st d)]).
  split; [|exact H2|intros key Hk; by apply (H3 key), HR| |intros key Hk; by apply (H5 key), HR|done].
  - intros key c Hc. destruct (H1 key c Hc) as [B1 [B2 B3] B4 B5]. split; [done| |done|done]. split; [done|]. pose proof (truncateHour_mono (ut_now st) (ut_now st + d) ltac:(lia)). cbn. lia.
  - unfold flushOk in *. cbn. destruct (ut_flush st) as [|items before|items before]; [done| |].
    + destruct H4 as [H4 H4']. split; [done|]. intros key Hk. by apply (H4' key), HR.
    + destruct H4 as (H4 & H4' & H4''). split_and!; [done|intros item Hi Hr; by apply (H4' item Hi), HR|intros key Hk; by apply (H4'' key), HR].
Qed.

(** A table that keeps the rows of relevant keys, and no new row of this recorder. *)
Lemma table_usage_inv st table : UsageInv st ->
  (forall row q, table !! row = Some q -> 0 <= q /\ (String.prefix (ownPrefix (identityOf st)) row.2 = true -> issuedWriter (identityOf st) (sequenceOf st) row.2)) ->
  (forall key, relevant st key -> storedQuantity (identityOf st) key table = storedOf st key) ->
  (forall key w, relevant st key -> String.prefix (ownPrefix (identityOf st)) w = true -> rowQuantity key w table = rowIn st key w) ->
  UsageInv (setUsage (ut_recorder st) (ut_flush st) table st).
Proof.
  intros [H1 H2 H3 H4 H5 H6] HT HS HW. set (st' := setUsage _ _ _ _).
  assert (forall key c, bucketsOf st !! key = Some c -> String.prefix (ownPrefix (identityOf st)) (bc_writer c) = true) as Hpre.
  { intros key c Hc. destruct (bo_writer _ _ _ _ _ (H1 key c Hc)) as (n & _ & ->). apply writerID_prefix. }
  assert (forall item, itemOk (bucketsOf st) item -> String.prefix (ownPrefix (identityOf st)) (us_WriterID item) = true) as Hitem by (intros item (c & Hc & <- & _); by eapply Hpre).
  split; [exact H1|exact HT| | | |done].
  - intros key Hk. specialize (H3 key Hk). unfold accountOk in *. change (bucketsOf st') with (bucketsOf st). change (acceptedOf st' key) with (acceptedOf st key). change (storedOf st' key) with (storedQuantity (identityOf st) key table). rewrite (HS key Hk).
    destruct (bucketsOf st !! key) as [c|] eqn:Hc; [|done]. change (rowIn st' key (bc_writer c)) with (rowQuantity key (bc_writer c) table). rewrite HW; [done|done|by eapply Hpre].
  - unfold flushOk in *. cbn. destruct (ut_flush st) as [|items before|items before]; [done| |].
    + destruct H4 as [H4 H4']. split; [done|]. intros key Hk. change (storedOf st' key) with (storedQuantity (identityOf st) key table). rewrite (HS key Hk). destruct (H4' key Hk) as [?|(item & Hi & He & Hb)]; [by left|right].
      exists item. split_and!; [done|done|]. change (rowIn st' key (us_WriterID item)) with (rowQuantity key (us_WriterID item) table). rewrite HW; [done|done|]. apply Hitem. rewrite Forall_forall in H4. auto.
    + destruct H4 as (H4 & H4' & H4''). split_and!; [done| |].
      * intros item Hi Hr. change (rowIn st' (itemKey item) (us_WriterID item)) with (rowQuantity (itemKey item) (us_WriterID item) table). rewrite HW; [by apply H4'|done|]. apply Hitem. rewrite Forall_forall in H4. auto.
      * intros key Hk. change (storedOf st' key) with (storedQuantity (identityOf st) key table). rewrite (HS key Hk). by apply H4''.
  - intros key Hk. change (storedOf st' key) with (storedQuantity (identityOf st) key table). rewrite (HS key Hk). by apply H5.
Qed.

Lemma Maintain_cases now outcome table : (Maintain now outcome table).1 = table \/ exists c, SQLUnixNano (usageCutoff now) = Ret c /\ (Maintain now outcome table).1 = maintainTable c table.
Proof. unfold Maintain. destruct (SQLUnixNano (usageCutoff now)) as [c|e|]; [|by left..]. destruct outcome; cbn; [right|right|by left]; by exists c. Qed.

Lemma maintain_usage_inv st outcome : UsageInv st -> UsageInv (setUsage (ut_recorder st) (ut_flush st) (Maintain (ut_now st) outcome (ut_table st)).1 st).
Proof.
  intros HI. destruct (Maintain_cases (ut_now st) outcome (ut_table st)) as [->|(c & HC & ->)]; [by destruct st|]. apply table_usage_inv; [done| | |].
  - intros row q [Hr _]%map_lookup_filter_Some. by apply (ui_rows st HI).
  - intros key [Hg Hl]. by eapply maintain_stored.
  - intros key w [Hg Hl] _. by eapply maintain_row.
Qed.

Lemma other_usage_inv st row q : UsageInv st -> String.prefix (ownPrefix (identityOf st)) row.2 = false -> 0 <= q -> UsageInv (setUsage (ut_recorder st) (ut_flush st) (upsertRow (ut_table st) row q) st).
Proof.
  intros HI Hp Hq. apply table_usage_inv; [done| | |].
  - intros row' q' Hr. assert (0 <= q' /\ (row' = row \/ exists q0, ut_table st !! row' = Some q0)) as [H0 Hor].
    { unfold upsertRow in Hr. destruct (ut_table st !! row) as [s|] eqn:Hs; [destruct (s <? q)|]; try (apply lookup_insert_Some in Hr as [[<- <-]|[_ Hr]]; [auto|]); (split; [by eapply (ui_rows st HI)|right; eauto]). }
    split; [done|]. intros Hpre. destruct Hor as [->|[q0 H0']]; [congruence|]. by apply (proj2 (ui_rows st HI _ _ H0')).
  - intros key _. rewrite upsert_stored by done. unfold ownRow. rewrite Hp, andb_false_r. unfold storedOf. lia.
  - intros key w _ Hw. unfold rowQuantity. rewrite upsert_lookup by done. rewrite bool_decide_eq_false_2; [done|]. intros ->. cbn in Hp. congruence.
Qed.

(** Flags do not matter. *)
Lemma recorder_usage_inv st r : UsageInv st -> rc_identity r = identityOf st -> rc_buckets r = bucketsOf st -> rc_sequence r = sequenceOf st -> UsageInv (setUsage r (ut_flush st) (ut_table st) st).
Proof.
  intros [H1 H2 H3 H4 H5 H6] Hi Hb Hs. set (st' := setUsage _ _ _ _). assert (identityOf st' = identityOf st) as Ei by done. assert (bucketsOf st' = bucketsOf st) as Eb by done. assert (sequenceOf st' = sequenceOf st) as Es by done.
  assert (forall key, storedOf st' key = storedOf st key) as ES by (intros key; unfold storedOf; by rewrite Ei).
  split; rewrite ?Ei, ?Es; [|exact H2| | | |done].
  - intros key c Hc. rewrite Eb in Hc. by apply H1.
  - intros key Hk. specialize (H3 key Hk). unfold accountOk in *. rewrite Eb, ES. exact H3.
  - unfold flushOk in *. cbn. destruct (ut_flush st) as [|items before|items before]; [done| |]; fold st'; rewrite ?Eb.
    + destruct H4 as [H4 H4']. split; [done|]. intros key Hk. rewrite ES. by apply H4'.
    + destruct H4 as (H4 & H4' & H4''). split_and!; [done|done|]. intros key Hk. rewrite ES. by apply H4''.
  - intros key Hk. rewrite ES. by apply H5.
Qed.

(** ** Record *)

(** What an accepted record does to its bucket. *)
Lemma usageTotal_Ret counts total : usageTotal counts = Ret total -> 0 <= total <= maxInt64.
Proof.
  destruct counts as [[a b] c]. unfold usageTotal. intros HF. apply (foldGo_inv (fun t => 0 <= t <= maxInt64)) in HF; [done| |unfold maxInt64; lia].
  intros t x t' _ Ht. unfold addCount. intros ([] & HC%check_Ret & [= <-])%bind_Ret. apply orb_false_iff in HC as [Ha%Z.ltb_ge Hb%Z.ltb_ge]. lia.
Qed.

(** The counter of a key, or a new one. *)
Definition counterFor (r : usageRecorder) (key : bucketKey) : usageRecorder * bucketCounter :=
  match rc_buckets r !! key with
  | Some c => (r, c)
  | None =>
      let c := MkCounter (writerID (rc_identity r) (wrap 64 (rc_sequence r + 1))) 0 0 in
      (withSequence (wrap 64 (rc_sequence r + 1)) (withBuckets (<[key := c]> (rc_buckets r)) r), c)
  end.

Definition addToCounter (total : Z) (c : bucketCounter) : bucketCounter := MkCounter (bc_writer c) (bc_quantity c + total) (bc_acknowledged c).

Lemma addTotal_eq key total r : addTotal key total r =
  if rc_closed r then (r, Fail "peerusage: recorder is closed"%string)
  else let '(r1, c) := counterFor r key in
    if maxInt64 - bc_quantity c <? total then (r1, Fail "peerusage: hourly quantity overflow"%string)
    else (withBuckets (<[key := addToCounter total c]> (rc_buckets r1)) r1, Ret tt).
Proof.
  unfold addTotal, counterFor, checkST, check, lift, getST, putST, mbind, ST_bind, mret, ST_ret. destruct (rc_closed r); [done|]. destruct (rc_buckets r !! key) as [c|]; cbn; by destruct (_ <? _).
Qed.

(** A recorder whose only change is in one bucket. *)
Lemma bucket_usage_inv st key c r : UsageInv st ->
  rc_identity r = identityOf st -> sequenceOf st <= rc_sequence r -> rc_buckets r = <[key := c]> (bucketsOf st) ->
  bucketOk (ut_now st) (identityOf st) (rc_sequence r) key c ->
  (forall c0, bucketsOf st !! key = Some c0 -> bc_writer c = bc_writer c0 /\ bc_quantity c0 <= bc_quantity c /\ bc_acknowledged c = bc_acknowledged c0) ->
  (bucketsOf st !! key = None -> bc_acknowledged c = 0 /\ ut_table st !! rowOf key (bc_writer c) = None) ->
  forall extra, extra = bc_quantity c - from_option bc_quantity 0 (bucketsOf st !! key) -> UsageInv (accept key extra (setUsage r (ut_flush st) (ut_table st) st)).
Proof.
  intros [H1 H2 H3 H4 H5 H6] Hi Hs Hb Hok Hsome Hnone extra ->. set (st' := accept _ _ _).
  assert (identityOf st' = identityOf st) as Ei by done. assert (bucketsOf st' = <[key := c]> (bucketsOf st)) as Eb by done. assert (sequenceOf st' = rc_sequence r) as Es by done.
  assert (forall k, storedOf st' k = storedOf st k) as ES by (intros k; unfold storedOf; by rewrite Ei).
  assert (forall item, itemOk (bucketsOf st) item -> itemOk (bucketsOf st') item) as Hitem.
  { intros item (c0 & Hc0 & Hw & Hq). rewrite Eb. destruct (decide (itemKey item = key)) as [Hk|Hne]; [|exists c0; by rewrite lookup_insert_ne]. exists c. rewrite Hk, lookup_insert_eq. rewrite Hk in Hc0. destruct (Hsome c0 Hc0) as (-> & ? & _). split_and!; [done|done|lia|lia]. }
  split; rewrite ?Ei, ?Es.
  - intros k c0. rewrite Eb, lookup_insert_Some. intros [[<- <-]|[_ Hc0]]; [done|]. destruct (H1 k c0 Hc0) as [B1 B2 B3 (n & Hn & Hw)]. split; [done|done|done|]. exists n. split; [lia|done].
  - intros row q Hr. destruct (H2 row q Hr) as [? HP]. split; [done|]. intros Hp. destruct (HP Hp) as (n & Hn & Hw). exists n. split; [lia|done].
  - intros k Hk. specialize (H3 k Hk). unfold accountOk in *. rewrite Eb, ES. unfold acceptedOf. cbn. destruct (decide (k = key)) as [->|Hne].
    + rewrite !lookup_insert_eq. cbn. change (rowIn st' key) with (rowIn st key). destruct (bucketsOf st !! key) as [c0|] eqn:Hc0; cbn.
      * destruct (Hsome c0 eq_refl) as (-> & Hq & ->). destruct H3 as [? HA]. unfold acceptedOf in HA. split; [lia|]. fold (acceptedOf st key) in *. lia.
      * destruct (Hnone eq_refl) as [Ha Hrow]. unfold acceptedOf in H3. unfold rowIn, rowQuantity. rewrite Hrow. cbn. destruct (bo_counts _ _ _ _ _ Hok). split; lia.
    + rewrite !lookup_insert_ne by done. exact H3.
  - unfold flushOk in *. cbn. destruct (ut_flush st) as [|items before|items before]; [done| |]; fold st'.
    + destruct H4 as [H4 H4']. split; [eapply Forall_impl; [exact H4|exact Hitem]|]. intros k Hk. rewrite ES. by apply H4'.
    + destruct H4 as (H4 & H4' & H4''). split_and!; [eapply Forall_impl; [exact H4|exact Hitem]|done|]. intros k Hk. rewrite ES. by apply H4''.
  - intros k Hk. rewrite ES. by apply H5.
  - lia.
Qed.

Lemma accept_zero st key : UsageInv st -> UsageInv (accept key 0 st).
Proof.
  intros [H1 H2 H3 H4 H5 H6]. split; [exact H1|exact H2| |exact H4|exact H5|exact H6]. intros k Hk. specialize (H3 k Hk). unfold accountOk in *. assert (acceptedOf (accept key 0 st) k = acceptedOf st k) as HA; [|change (bucketsOf (accept key 0 st)) with (bucketsOf st); rewrite HA; exact H3].
  unfold acceptedOf, accept. cbn. destruct (decide (k = key)) as [->|Hne]; [rewrite lookup_insert_eq; cbn; lia|by rewrite lookup_insert_ne].
Qed.

Lemma record_usage_inv st peer model counts at_ : UsageInv st -> sequenceOf st < 2 ^ 64 - 1 -> keyOk peer -> at_ <= ut_now st ->
  UsageInv (recordStep peer model counts at_ st) /\ sequenceOf (recordStep peer model counts at_ st) <= sequenceOf st + 1 /\ identityOf (recordStep peer model counts at_ st) = identityOf st.
Proof.
  intros HI Hseq Hp Hat. pose proof HI as [H1 H2 H3 H4 H5 H6].
  assert (forall r, rc_identity r = identityOf st -> rc_buckets r = bucketsOf st -> rc_sequence r = sequenceOf st -> UsageInv (setUsage r (ut_flush st) (ut_table st) st)) as Hsame by (intros; by apply recorder_usage_inv).
  unfold recordStep, handleUsage, RecordUsage, checkST, lift, check, mbind, ST_bind, mret, ST_ret. destruct (Key_IsZero peer || bool_decide (model = ""%string) || (256 <? String.length model)%nat) eqn:Hid.
  { split_and!; [by apply Hsame|change (sequenceOf st <= sequenceOf st + 1); lia|done]. }
  apply orb_false_iff in Hid as [[Hz _]%orb_false_iff Hlen%Nat.ltb_ge]. destruct (usageTotal counts) as [total|e|] eqn:HT.
  2-3: split_and!; [by apply Hsame|change (sequenceOf st <= sequenceOf st + 1); lia|done].
  destruct (usageTotal_Ret _ _ HT) as [HT0 HT1]. destruct (Z.eqb_spec total 0) as [->|Hne].
  { split_and!; [apply accept_zero; by apply Hsame|change (sequenceOf st <= sequenceOf st + 1); lia|done]. }
  set (key := MkBucketKey peer model (truncateHour at_)). rewrite addTotal_eq. set (r := ut_recorder st) in *. destruct (rc_closed r).
  { split_and!; [by apply Hsame|change (sequenceOf st <= sequenceOf st + 1); lia|done]. }
  assert (bk_hour key = truncateHour (bk_hour key) /\ bk_hour key <= truncateHour (ut_now st)) as Hhour by (split; [symmetry; apply truncateHour_idem|by apply truncateHour_mono]).
  unfold counterFor. destruct (rc_buckets r !! key) as [c|] eqn:Hc.
  - pose proof (H1 key c Hc) as [B1 B2 [B3 B4] B5]. destruct (Z.ltb_spec (maxInt64 - bc_quantity c) total) as [|Hle]; [split_and!; [by apply Hsame|change (sequenceOf st <= sequenceOf st + 1); lia|done]|].
    split_and!; [|change (sequenceOf st <= sequenceOf st + 1); lia|done]. apply (bucket_usage_inv st key (addToCounter total c)); [done|done|done|done| | | |].
    + split; [done|done| |done]. cbn. lia.
    + intros c0 Hc0. change (bucketsOf st) with (rc_buckets r) in Hc0. assert (c0 = c) as -> by congruence. cbn. split_and!; [done|lia|done].
    + change (bucketsOf st) with (rc_buckets r). congruence.
    + change (bucketsOf st) with (rc_buckets r). rewrite Hc. cbn. lia.
  - assert (wrap 64 (rc_sequence r + 1) = rc_sequence r + 1) as -> by (apply Z.mod_small; unfold sequenceOf in *; fold r in H6, Hseq; lia). cbn [bc_quantity]. rewrite (proj2 (Z.ltb_ge (maxInt64 - 0) total)) by lia.
    split_and!; [|change (sequenceOf st + 1 <= sequenceOf st + 1); lia|done]. eapply (bucket_usage_inv st key (addToCounter total (MkCounter (writerID (rc_identity r) (rc_sequence r + 1)) 0 0))); [done|done|change (sequenceOf st <= sequenceOf st + 1); lia|cbn; by rewrite insert_insert_eq| | | |].
    + split; [done|done| |]; cbn; [lia|]. exists (rc_sequence r + 1). split; [unfold sequenceOf in H6; fold r in H6; lia|done].
    + intros c0 Hc0. change (bucketsOf st) with (rc_buckets r) in Hc0. congruence.
    + intros _. cbn. split; [done|]. destruct (ut_table st !! rowOf key (writerID (rc_identity r) (rc_sequence r + 1))) as [q|] eqn:Hq; [exfalso|done].
      destruct (H2 _ _ Hq) as [_ HP]. destruct (HP (writerID_prefix _ _)) as (n & Hn & Hw). cbn in Hw. apply writerID_inj in Hw; [unfold sequenceOf in Hn; fold r in Hn; lia|split; unfold sequenceOf in *; fold r in H6, Hseq; lia|split; unfold sequenceOf in *; fold r in Hn, H6, Hseq; lia].
    + change (bucketsOf st) with (rc_buckets r). rewrite Hc. cbn. lia.
Qed.

(** ** The snapshots *)
Definition snapshotOf (key : bucketKey) (c : bucketCounter) : usageSnapshot := MkUsageSnapshot (bk_peer key) (bk_model key) (bk_hour key) (bc_writer c) (bc_quantity c).

Lemma itemKey_snapshotOf key c : itemKey (snapshotOf key c) = key.
Proof. by destruct key. Qed.

Lemma visit_spec cutoff order buckets items : let st := foldl (visitBucket cutoff) (buckets, items) order in
  (forall key, st.1 !! key = if bool_decide (key ∈ order /\ bk_hour key < cutoff) then None else buckets !! key) /\
  (forall item, item ∈ st.2 -> item ∈ items \/ exists key c, item = snapshotOf key c /\ buckets !! key = Some c /\ cutoff <= bk_hour key) /\
  (forall key c, key ∈ order -> buckets !! key = Some c -> cutoff <= bk_hour key -> bc_quantity c <> bc_acknowledged c -> snapshotOf key c ∈ st.2) /\
  (forall item, item ∈ items -> item ∈ st.2).
Proof.
  revert buckets items. induction order as [|k order IH]; intros buckets items; cbn [foldl].
  - split_and!; [|by left| |done].
    + intros key. rewrite bool_decide_eq_false_2; [done|]. intros [HH _]. by apply not_elem_of_nil in HH.
    + intros key c HH. by apply not_elem_of_nil in HH.
  - set (v := visitBucket cutoff (buckets, items) k). rewrite (surjective_pairing v). destruct (IH v.1 v.2) as (I1 & I2 & I3 & I4).
    assert (forall key, v.1 !! key = if bool_decide (key = k /\ bk_hour key < cutoff) then None else buckets !! key) as V1.
    { intros key. unfold v, visitBucket. cbn. destruct (buckets !! k) as [c|] eqn:Hc; [|case_bool_decide as HH; [destruct HH as [-> _]; done|done]]. destruct (Z.ltb_spec (bk_hour k) cutoff) as [Hlt|Hge]; cbn.
      - destruct (decide (key = k)) as [->|Hne]; [rewrite lookup_delete_eq, bool_decide_eq_true_2 by done; done|rewrite lookup_delete_ne, bool_decide_eq_false_2 by naive_solver; done].
      - rewrite bool_decide_eq_false_2 by (intros [-> ?]; lia). by destruct (_ =? _). }
    split_and!.
    + intros key. rewrite I1, V1. repeat case_bool_decide; try done; set_solver.
    + intros item Hi. destruct (I2 item Hi) as [Hv|(key & c & -> & Hc & Hh)].
      * unfold v, visitBucket in Hv. cbn in Hv. destruct (buckets !! k) as [c|] eqn:Hc; [|by left]. destruct (Z.ltb_spec (bk_hour k) cutoff); [by left|]. destruct (_ =? _); [by left|]. cbn in Hv.
        apply elem_of_app in Hv as [?|Hv]; [by left|]. apply list_elem_of_singleton in Hv. right. exists k, c. done.
      * right. exists key, c. split_and!; [done| |done]. rewrite V1 in Hc. by case_bool_decide.
    + intros key c Hk Hc Hh Hq. apply elem_of_cons in Hk as [->|Hk].
      * apply I4. unfold v, visitBucket. cbn. rewrite Hc. destruct (Z.ltb_spec (bk_hour k) cutoff); [lia|]. destruct (Z.eqb_spec (bc_quantity c) (bc_acknowledged c)); [done|]. cbn. apply elem_of_app. right. by apply list_elem_of_singleton.
      * apply I3; [done| |done|done]. rewrite V1, bool_decide_eq_false_2; [done|]. intros [_ ?]. lia.
    + intros item Hi. apply I4. unfold v, visitBucket. cbn. destruct (buckets !! k); [|done]. destruct (_ <? _); [done|]. destruct (_ =? _); [done|]. cbn. apply elem_of_app. by left.
Qed.

Lemma usageCutoff_mono t u : t <= u -> usageCutoff t <= usageCutoff u.
Proof. intros Hle. pose proof (truncateHour_mono t u Hle). unfold usageCutoff. lia. Qed.

Lemma snapshot_usage_inv st order at_ : UsageInv st -> ut_flush st = NoFlush -> list_to_set order = dom (bucketsOf st) -> at_ <= ut_now st ->
  UsageInv (snapshotStep order at_ st) /\ sequenceOf (snapshotStep order at_ st) = sequenceOf st /\ identityOf (snapshotStep order at_ st) = identityOf st.
Proof.
  intros [H1 H2 H3 H4 H5 H6] Hf Hord Hat. unfold snapshotStep, takeSnapshots. destruct (visit_spec (usageCutoff at_) order (bucketsOf st) []) as (V1 & V2 & V3 & _). fold (bucketsOf st). set (v := foldl _ _ _) in *. cbn zeta.
  assert (forall key c, v.1 !! key = Some c -> bucketsOf st !! key = Some c) as Hsub by (intros key c; rewrite V1; by case_bool_decide).
  assert (forall key, liveKey (ut_now st) key -> usageCutoff at_ <= bk_hour key) as Hlive by (intros key Hk; pose proof (usageCutoff_mono _ _ Hat); unfold liveKey in Hk; lia).
  assert (forall key, liveKey (ut_now st) key -> v.1 !! key = bucketsOf st !! key) as Hkeep by (intros key Hk; rewrite V1, bool_decide_eq_false_2; [done|]; intros [_ ?]; specialize (Hlive key Hk); lia).
  assert (forall item, item ∈ v.2 -> exists key c, item = snapshotOf key c /\ bucketsOf st !! key = Some c /\ usageCutoff at_ <= bk_hour key) as Hit by (intros item Hi; destruct (V2 item Hi) as [HH|?]; [by apply not_elem_of_nil in HH|done]).
  assert (forall key, relevant st key -> default 0 (ut_accepted st !! key) <= storedOf st key \/
    exists item, item ∈ v.2 /\ itemKey item = key /\ default 0 (ut_accepted st !! key) <= storedOf st key - rowIn st key (us_WriterID item) + us_Quantity item) as Hcov.
  { intros key Hk. pose proof (H3 key Hk) as HA. unfold accountOk in HA. fold (acceptedOf st key). destruct (bucketsOf st !! key) as [c|] eqn:Hc; [|left; lia]. destruct HA as [Hr HA]. destruct (Z.eq_dec (bc_quantity c) (bc_acknowledged c)) as [He|Hne]; [left; lia|right].
    exists (snapshotOf key c). split_and!; [apply V3; [|done|by apply Hlive, Hk|done]|apply itemKey_snapshotOf|cbn; lia]. assert (key ∈ (list_to_set order : gset bucketKey)) as Hin by (rewrite Hord; by apply elem_of_dom_2 in Hc). by apply elem_of_list_to_set in Hin. }
  assert (forall flush durable, (forall key, relevant st key -> default 0 (durable !! key) <= storedOf st key) ->
    flushOk (MkUsage (ut_now st) (withBuckets v.1 (ut_recorder st)) flush (ut_table st) (ut_accepted st) durable) ->
    UsageInv (MkUsage (ut_now st) (withBuckets v.1 (ut_recorder st)) flush (ut_table st) (ut_accepted st) durable)) as Hinv.
  { intros flush durable HD HF. split; [|exact H2| |exact HF|exact HD|exact H6].
    - intros key c Hc. by apply H1, Hsub.
    - intros key Hk. specialize (H3 key Hk). unfold accountOk in *. cbn. rewrite Hkeep by apply Hk. exact H3. }
  destruct v as [b items]. cbn [fst snd] in *. destruct items as [|item items].
  - split_and!; [|done|done]. apply (Hinv NoFlush); [|done]. intros key Hk. destruct (Hcov key Hk) as [?|(i & Hi & _)]; [done|]. by apply not_elem_of_nil in Hi.
  - split_and!; [|done|done]. apply Hinv; [exact H5|]. cbn. split; [|exact Hcov]. apply Forall_forall. intros i Hi. destruct (Hit i Hi) as (key & c & -> & Hc & Hh). exists c. rewrite itemKey_snapshotOf.
    destruct (H1 key c Hc) as [_ _ [B3 B4] _]. cbn. split_and!; [|done|lia|lia]. rewrite V1, bool_decide_eq_false_2; [done|]. intros [_ ?]. lia.
Qed.

(** ** The write *)
Lemma validateSnapshot_Ret now item : validateSnapshot now item = Ret tt -> unixOk (us_Hour item) /\ 0 <= us_Quantity item.
Proof.
  unfold validateSnapshot. intros ([] & HC%check_Ret & ([] & _ & ([] & _ & ([] & _ & (n & HN%SQLUnixNano_Ret & _)%bind_Ret)%bind_Ret)%bind_Ret)%bind_Ret)%bind_Ret. split; [by destruct HN|].
  apply orb_false_iff in HC as [_ HQ%Z.ltb_ge]. done.
Qed.

Lemma UsageWrite_cases now items outcome table table' res : UsageWrite now items outcome table = (table', res) -> items <> [] ->
  table' = table /\ res <> Ret tt \/
  exists c, SQLUnixNano (usageCutoff now) = Ret c /\ Forall (fun item => validateSnapshot now item = Ret tt) items /\ table' = foldl upsertSnapshot (maintainTable c table) items.
Proof.
  unfold UsageWrite. destruct items as [|i its]; [done|]. intros HW _. destruct (each (validateSnapshot now) (i :: its)) as [[]|e|] eqn:HE; [|left; by simplify_eq..]. apply each_Ret in HE.
  destruct (SQLUnixNano (usageCutoff now)) as [c|e|] eqn:HC; [|left; by simplify_eq..]. destruct outcome; cbn [commitTx] in HW; [right|right|left]; simplify_eq; [by exists c|by exists c|done].
Qed.

Lemma upserts_rows items table row q : foldl upsertSnapshot table items !! row = Some q -> table !! row = Some q \/ exists item, item ∈ items /\ row = snapshotRow item /\ q = us_Quantity item.
Proof.
  revert table. induction items as [|item items IH]; intros table; cbn [foldl]; [by left|]. intros Hr. destruct (IH _ Hr) as [Ht|(i & Hi & ? & ?)]; [|right; exists i; split; [by right|done]].
  unfold upsertSnapshot, upsertRow in Ht. assert (<[snapshotRow item := us_Quantity item]> table !! row = Some q -> table !! row = Some q \/ exists i, i ∈ item :: items /\ row = snapshotRow i /\ q = us_Quantity i) as HI.
  { rewrite lookup_insert_Some. intros [[<- <-]|[_ ?]]; [right; exists item; split; [by left|done]|by left]. }
  destruct (table !! snapshotRow item) as [s|]; [destruct (s <? _)|]; auto.
Qed.

Lemma write_usage_inv st items before outcome : UsageInv st -> ut_flush st = Writing items before -> items <> [] -> sequenceOf st < 2 ^ 64 ->
  UsageInv (writeStep items before outcome st) /\ sequenceOf (writeStep items before outcome st) = sequenceOf st /\ identityOf (writeStep items before outcome st) = identityOf st.
Proof.
  intros HI Hf Hne Hseq. unfold writeStep. destruct (UsageWrite (ut_now st) items outcome (ut_table st)) as [table' res] eqn:HW. destruct (UsageWrite_cases _ _ _ _ _ _ HW Hne) as [[-> Hres]|(c & HC & HV & ->)].
  { assert (UsageInv (setUsage (ut_recorder st) NoFlush (ut_table st) st)) as HN by (destruct HI; by split). destruct res as [[]|e|]; [done|by split_and!..]. }
  pose proof HI as [H1 H2 H3 H4 H5 H6]. unfold flushOk in H4. rewrite Hf in H4. destruct H4 as [Hitems Hcov].
  set (t1 := maintainTable c (ut_table st)). set (t2 := foldl upsertSnapshot t1 items).
  assert (forall key w bound, (forall item, item ∈ items -> itemKey item = key -> us_WriterID item = w /\ us_Quantity item <= bound) -> usageItemsOf key w bound items) as Hof.
  { intros key w bound Hb. apply Forall_forall. intros item Hi. rewrite Forall_forall in Hitems, HV. destruct (Hitems item Hi) as (cc & Hcc & _). destruct (validateSnapshot_Ret _ _ (HV item Hi)) as [Hu Hq]. split_and!; [|done|auto]. split; [by destruct (H1 _ _ Hcc) as [[? _] _ _ _]|done]. }
  assert (forall key cc, relevant st key -> bucketsOf st !! key = Some cc ->
    storedQuantity (identityOf st) key t2 - rowQuantity key (bc_writer cc) t2 = storedOf st key - rowIn st key (bc_writer cc) /\ rowIn st key (bc_writer cc) <= rowQuantity key (bc_writer cc) t2 <= Z.max (rowIn st key (bc_writer cc)) (bc_quantity cc) /\
    (forall item, item ∈ items -> itemKey item = key -> us_Quantity item <= rowQuantity key (bc_writer cc) t2)) as Hsome.
  { intros key cc [Hg Hl] Hcc. destruct (bo_writer _ _ _ _ _ (H1 key cc Hcc)) as (n & _ & Hw). destruct (upserts_spec (identityOf st) key (bc_writer cc) (bc_quantity cc) items t1) as (U1 & U2 & U3); [done|rewrite Hw; apply writerID_prefix| |].
    { apply Hof. intros item Hi He. rewrite Forall_forall in Hitems. destruct (Hitems item Hi) as (c0 & Hc0 & Hw0 & Hq0). rewrite He in Hc0. assert (c0 = cc) as -> by congruence. split; [done|lia]. }
    fold t2 in U1, U2, U3. unfold t1 in U1, U2. rewrite (maintain_stored _ (ut_now st)), (maintain_row (ut_now st)) in U1 by done. rewrite (maintain_row (ut_now st)) in U2 by done. done. }
  assert (forall key, relevant st key -> bucketsOf st !! key = None -> storedQuantity (identityOf st) key t2 = storedOf st key) as Hnone.
  { intros key [Hg Hl] Hcc. destruct (upserts_spec (identityOf st) key (writerID (identityOf st) 0) 0 items t1) as (U1 & U2 & U3); [done|apply writerID_prefix| |].
    { apply Hof. intros item Hi He. rewrite Forall_forall in Hitems. destruct (Hitems item Hi) as (c0 & Hc0 & _). rewrite He in Hc0. congruence. }
    fold t2 in U1, U2, U3. unfold t1 in U1, U2. rewrite (maintain_stored _ (ut_now st)), (maintain_row (ut_now st)) in U1 by done. rewrite (maintain_row (ut_now st)) in U2 by done.
    assert (rowQuantity key (writerID (identityOf st) 0) (ut_table st) = 0) as HZ; [|unfold storedOf; lia]. unfold rowQuantity. destruct (ut_table st !! _) as [q|] eqn:Hq; [exfalso|done].
    destruct (H2 _ _ Hq) as [_ HP]. destruct (HP (writerID_prefix _ _)) as (n & Hn & Hw). cbn in Hw. apply writerID_inj in Hw; [lia|split; lia|split; lia]. }
  assert (UsageInv (setUsage (ut_recorder st) (Acknowledging items before) t2 st) /\ UsageInv (setUsage (ut_recorder st) NoFlush t2 st)) as [HA HN].
  { assert (forall flush, flushOk (setUsage (ut_recorder st) flush t2 st) -> UsageInv (setUsage (ut_recorder st) flush t2 st)) as Hinv.
    { intros flush HF. split; [exact H1| | |exact HF| |exact H6].
      - intros row q Hr. destruct (upserts_rows _ _ _ _ Hr) as [[Hr1 _]%map_lookup_filter_Some|(item & Hi & -> & ->)]; [by apply H2|]. rewrite Forall_forall in Hitems, HV. destruct (validateSnapshot_Ret _ _ (HV item Hi)) as [_ Hq]. split; [done|]. intros _.
        destruct (Hitems item Hi) as (c0 & Hc0 & Hw0 & _). cbn. rewrite <-Hw0. apply (bo_writer _ _ _ _ _ (H1 _ _ Hc0)).
      - intros key Hk. pose proof (H3 key Hk) as HA. unfold accountOk in *. cbn. change (bucketsOf (setUsage (ut_recorder st) flush t2 st)) with (bucketsOf st). destruct (bucketsOf st !! key) as [cc|] eqn:Hcc.
        + destruct (Hsome key cc Hk Hcc) as (U1 & U2 & _). unfold storedOf, rowIn, acceptedOf in *. cbn. change (identityOf (setUsage _ _ _ _)) with (identityOf st). lia.
        + pose proof (Hnone key Hk Hcc) as HN. unfold storedOf, acceptedOf in *. cbn. change (identityOf (setUsage _ _ _ _)) with (identityOf st). lia.
      - intros key Hk. pose proof (H5 key Hk) as HD. unfold storedOf in *. cbn. change (identityOf (setUsage _ _ _ _)) with (identityOf st). destruct (bucketsOf st !! key) as [cc|] eqn:Hcc.
        + destruct (Hsome key cc Hk Hcc) as (U1 & U2 & _). lia.
        + pose proof (Hnone key Hk Hcc). lia. }
    split; apply Hinv; [|done]. cbn. split_and!; [done| |].
    - intros item Hi Hr. rewrite Forall_forall in Hitems. destruct (Hitems item Hi) as (cc & Hcc & Hw & _). destruct (Hsome _ cc Hr Hcc) as (_ & _ & U3). unfold rowIn. cbn. rewrite <-Hw. by apply U3.
    - intros key Hk. unfold storedOf. cbn. change (identityOf (setUsage _ _ _ _)) with (identityOf st). destruct (bucketsOf st !! key) as [cc|] eqn:Hcc.
      + destruct (Hsome key cc Hk Hcc) as (U1 & U2 & U3). destruct (Hcov key Hk) as [?|(item & Hi & He & Hb)]; [lia|]. specialize (U3 item Hi He). rewrite Forall_forall in Hitems. destruct (Hitems item Hi) as (c0 & Hc0 & Hw0 & _). rewrite He in Hc0. assert (c0 = cc) as -> by congruence. rewrite <-Hw0 in Hb. lia.
      + rewrite (Hnone key Hk Hcc). destruct (Hcov key Hk) as [?|(item & Hi & He & _)]; [done|]. rewrite Forall_forall in Hitems. destruct (Hitems item Hi) as (c0 & Hc0 & _). rewrite He in Hc0. congruence. }
  destruct res as [[]|e|]; by split_and!.
Qed.

Lemma write_none_inv st before outcome : UsageInv st -> ut_flush st = Writing [] before -> UsageInv (writeStep [] before outcome st).
Proof.
  intros HI Hf. pose proof HI as [H1 H2 H3 H4 H5 H6]. unfold flushOk in H4. rewrite Hf in H4. destruct H4 as [_ Hcov]. split; [exact H1|exact H2|exact H3| |exact H5|exact H6]. cbn. split_and!; [constructor|intros item HH; by apply not_elem_of_nil in HH|].
  intros key Hk. destruct (Hcov key Hk) as [?|(i & Hi & _)]; [done|by apply not_elem_of_nil in Hi].
Qed.

(** ** The acknowledgement *)
Definition acknowledged (items : list usageSnapshot) (key : bucketKey) (c c' : bucketCounter) : Prop :=
  bc_writer c' = bc_writer c /\ bc_quantity c' = bc_quantity c /\ bc_acknowledged c <= bc_acknowledged c' /\
  (bc_acknowledged c' = bc_acknowledged c \/ exists item, item ∈ items /\ itemKey item = key /\ us_WriterID item = bc_writer c /\ bc_acknowledged c' = us_Quantity item) /\
  forall item, item ∈ items -> itemKey item = key -> us_WriterID item = bc_writer c -> us_Quantity item <= bc_acknowledged c'.

Lemma acknowledge_spec items buckets key :
  match buckets !! key with
  | Some c => exists c', foldl acknowledge buckets items !! key = Some c' /\ acknowledged items key c c'
  | None => foldl acknowledge buckets items !! key = None
  end.
Proof.
  revert buckets. induction items as [|item items IH]; intros buckets; cbn [foldl].
  - destruct (buckets !! key) as [c|]; [|done]. exists c. split; [done|]. split_and!; [done|done|done|by left|]. intros i HH. by apply not_elem_of_nil in HH.
  - specialize (IH (acknowledge buckets item)). assert (match buckets !! key with Some c => exists c', acknowledge buckets item !! key = Some c' /\ acknowledged [item] key c c' | None => acknowledge buckets item !! key = None end) as HS.
    { unfold acknowledge. destruct (decide (itemKey item = key)) as [<-|Hne].
      - destruct (buckets !! itemKey item) as [c|] eqn:Hc; [|done]. case_bool_decide as Hw.
        + eexists. rewrite lookup_insert_eq. split; [done|]. split_and!; cbn; [done|done|lia| |].
          * destruct (Z.max_spec (bc_acknowledged c) (us_Quantity item)) as [[_ ->]|[_ ->]]; [right|by left]. exists item. split_and!; [by apply list_elem_of_singleton|done|done|done].
          * intros i ->%list_elem_of_singleton _ _. lia.
        + exists c. split; [done|]. split_and!; [done|done|done|by left|]. intros i ->%list_elem_of_singleton _ Hi. congruence.
      - assert (match buckets !! itemKey item with Some counter => if bool_decide (bc_writer counter = us_WriterID item) then <[itemKey item := MkCounter (bc_writer counter) (bc_quantity counter) (Z.max (bc_acknowledged counter) (us_Quantity item))]> buckets else buckets | None => buckets end !! key = buckets !! key) as ->
          by (destruct (buckets !! itemKey item); [case_bool_decide; [by rewrite lookup_insert_ne|done]|done]).
        destruct (buckets !! key) as [c|]; [|done]. exists c. split; [done|]. split_and!; [done|done|done|by left|]. intros i ->%list_elem_of_singleton ? _. congruence. }
    destruct (buckets !! key) as [c|]; [|by rewrite HS in IH]. destruct HS as (c1 & Hc1 & A1 & A2 & A3 & A4 & A5). rewrite Hc1 in IH. destruct IH as (c2 & Hc2 & B1 & B2 & B3 & B4 & B5). exists c2. split; [done|].
    split_and!; [congruence|congruence|lia| |].
    + destruct B4 as [->|(i & Hi & ? & ? & ?)]; [|right; exists i; split_and!; [by right|done|congruence|done]]. destruct A4 as [?|(i & Hi & ? & ? & ?)]; [by left|right; exists i; split_and!; [|done..]]. apply list_elem_of_singleton in Hi as ->. by left.
    + intros i [->|Hi]%elem_of_cons Hk Hw; [|apply B5; [done|done|congruence]]. specialize (A5 item ltac:(by apply list_elem_of_singleton) Hk Hw). lia.
Qed.

Lemma acknowledge_usage_inv st items before at_ : UsageInv st -> ut_flush st = Acknowledging items before -> at_ <= ut_now st ->
  UsageInv (flushed before (setUsage (acknowledgeAll items at_ (ut_recorder st)) NoFlush (ut_table st) st)).
Proof.
  intros [H1 H2 H3 H4 H5 H6] Hf Hat. unfold flushOk in H4. rewrite Hf in H4. destruct H4 as (Hitems & Hrows & Hbefore). rewrite Forall_forall in Hitems.
  set (b := foldl acknowledge (bucketsOf st) items). set (st' := flushed _ _). assert (bucketsOf st' = filter (fun entry => finishedBucket at_ entry = false) b) as Eb by done.
  assert (forall key c', b !! key = Some c' -> exists c, bucketsOf st !! key = Some c /\ acknowledged items key c c') as Hback.
  { intros key c' Hc'. pose proof (acknowledge_spec items (bucketsOf st) key) as HS. fold b in HS. destruct (bucketsOf st !! key) as [c|]; [|congruence]. destruct HS as (c2 & Hc2 & ?). exists c. split; [done|]. by assert (c2 = c') as -> by congruence. }
  assert (forall key c c', relevant st key -> bucketsOf st !! key = Some c -> acknowledged items key c c' -> bc_acknowledged c' <= rowIn st key (bc_writer c)) as Hack.
  { intros key c c' Hk Hc (_ & _ & _ & A4 & _). pose proof (H3 key Hk) as HA. unfold accountOk in HA. rewrite Hc in HA. destruct A4 as [->|(i & Hi & He & Hw & ->)]; [lia|]. subst key. rewrite <-Hw. by apply Hrows. }
  split; [|exact H2| |done|exact Hbefore|exact H6].
  - intros key c' Hc'. rewrite Eb in Hc'. apply map_lookup_filter_Some in Hc' as [Hc' _]. destruct (Hback key c' Hc') as (c & Hc & A1 & A2 & A3 & A4 & _). destruct (H1 key c Hc) as [B1 B2 [B3 B4] B5]. split; [done|done| |by rewrite A1].
    rewrite A2. destruct A4 as [->|(i & Hi & He & Hw & Hq)]; [done|]. destruct (Hitems i Hi) as (c0 & Hc0 & _ & Hq0). rewrite He in Hc0. assert (c0 = c) as -> by congruence. lia.
  - intros key Hk. pose proof (H3 key Hk) as HA. unfold accountOk in *. rewrite Eb. change (acceptedOf st' key) with (acceptedOf st key). change (storedOf st' key) with (storedOf st key). pose proof (acknowledge_spec items (bucketsOf st) key) as HS. fold b in HS.
    destruct (bucketsOf st !! key) as [c|] eqn:Hc.
    + destruct HS as (c' & Hc' & HAck). pose proof (Hack key c c' Hk Hc HAck) as Hle. destruct HAck as (A1 & A2 & A3 & _). destruct HA as [HA1 HA2]. destruct (finishedBucket at_ (key, c')) eqn:Hfin.
      * assert (filter (fun entry => finishedBucket at_ entry = false) b !! key = None) as -> by (apply map_lookup_filter_None; right; intros y Hy; assert (y = c') as -> by congruence; congruence).
        apply andb_true_iff in Hfin as [_ He%Z.eqb_eq]. cbn in He. lia.
      * assert (filter (fun entry => finishedBucket at_ entry = false) b !! key = Some c') as -> by (by apply map_lookup_filter_Some). change (rowIn st' key (bc_writer c')) with (rowIn st key (bc_writer c')). rewrite A1, A2. split; lia.
    + assert (filter (fun entry => finishedBucket at_ entry = false) b !! key = None) as -> by (apply map_lookup_filter_None; by left). done.
Qed.

(** ** Executions *)
Lemma usageStep_inv ev st st' : UsageInv st -> sequenceOf st < 2 ^ 64 - 1 -> usageStep ev st = Some st' -> UsageInv st' /\ sequenceOf st' <= sequenceOf st + 1 /\ identityOf st' = identityOf st.
Proof.
  intros HI Hseq. assert (forall s, sequenceOf s = sequenceOf st -> identityOf s = identityOf st -> UsageInv s -> UsageInv s /\ sequenceOf s <= sequenceOf st + 1 /\ identityOf s = identityOf st) as Hsame by (intros s -> ? ?; split_and!; [done|lia|done]).
  destruct ev; cbn [usageStep].
  - destruct (Z.leb_spec 0 d); [|done]. intros [= <-]. apply Hsame; [done|done|by apply tick_usage_inv].
  - destruct (keyOkb peer && (0 <=? at_) && (at_ <=? ut_now st)) eqn:HG; [|done]. intros [= <-]. apply andb_true_iff in HG as [[HG _]%andb_true_iff Hat%Z.leb_le]. apply record_usage_inv; [done|done|by apply keyOkb_spec|done].
  - intros [= <-]. unfold startRecorder. apply Hsame; [by destruct (_ || _)|by destruct (_ || _)|]. destruct (_ || _); by apply recorder_usage_inv.
  - intros [= <-]. apply Hsame; [done|done|by apply recorder_usage_inv].
  - destruct (ut_flush st) eqn:Hf; try done. destruct (bool_decide _ && (at_ <=? ut_now st)) eqn:HG; [|done]. intros [= <-]. apply andb_true_iff in HG as [[_ HD]%bool_decide_eq_true_1 Hat%Z.leb_le].
    destruct (snapshot_usage_inv st order at_ HI Hf HD Hat) as (? & ? & ?). by apply Hsame.
  - destruct (ut_flush st) as [|items before|] eqn:Hf; try done. intros [= <-]. destruct items as [|i its]; [apply Hsame; [done|done|by apply write_none_inv]|].
    destruct (write_usage_inv st (i :: its) before outcome HI Hf ltac:(done) ltac:(lia)) as (? & ? & ?). by apply Hsame.
  - destruct (ut_flush st) as [| |items before] eqn:Hf; try done. destruct (Z.leb_spec at_ (ut_now st)); [|done]. intros [= <-]. apply Hsame; [done|done|by apply acknowledge_usage_inv].
  - intros [= <-]. apply Hsame; [done|done|by apply maintain_usage_inv].
  - destruct (negb _ && (0 <=? quantity)) eqn:HG; [|done]. intros [= <-]. apply andb_true_iff in HG as [HP%negb_true_iff HQ%Z.leb_le]. apply Hsame; [done|done|by apply other_usage_inv].
Qed.

Lemma usageRun_inv evs st st' : UsageInv st -> sequenceOf st + Z.of_nat (length evs) < 2 ^ 64 -> usageRun evs st = Some st' -> UsageInv st' /\ sequenceOf st' <= sequenceOf st + Z.of_nat (length evs) /\ identityOf st' = identityOf st.
Proof.
  revert st. induction evs as [|ev evs IH]; intros st HI Hlen; cbn [usageRun]; [intros [= <-]; split_and!; [done|lia|done]|]. destruct (usageStep ev st) as [st1|] eqn:Hs; [|done]. cbn [mbind option_bind]. intros HR. cbn [length] in Hlen.
  destruct (usageStep_inv ev st st1 HI ltac:(lia) Hs) as (HI1 & Hq1 & Hid). destruct (IH st1 HI1 ltac:(lia) HR) as (? & ? & ?). split_and!; [done|cbn [length]; lia|congruence].
Qed.

Section theorems.
Context (id : string) (now0 : Time) (table0 : usageTable) (evs : list usageEvent) (st : usageState).
Context (Hfresh : freshTable id table0) (Hlen : Z.of_nat (length evs) < 2 ^ 64) (Hrun : usageRun evs (newUsage id now0 table0) = Some st).

Lemma reach_usage_inv : UsageInv st /\ sequenceOf st <= Z.of_nat (length evs) /\ identityOf st = id.
Proof.
  destruct (usageRun_inv evs (newUsage id now0 table0) st) as (HI & HS & HE); [by apply new_usage_inv|cbn; unfold sequenceOf; cbn; lia|done|]. split_and!; [done|cbn in HS; unfold sequenceOf in *; cbn in HS; lia|done].
Qed.

(** C18: Nothing is lost and nothing is counted twice, for every hour within retention.
    Whatever commits fail or succeed without an answer, what the table holds from this
    recorder for a peer, model and hour is what the accepted records add up to, less
    what its bucket has still to write; it covers all that was accepted before the last
    [Flush] that returned nil took its snapshots.  Counters stay in 63 bits and never
    acknowledge more than they have. *)
Theorem usage_accounts :
  (forall key, keyOk (bk_peer key) -> unixOk (bk_hour key) -> usageCutoff (ut_now st) <= bk_hour key ->
     default 0 (ut_durable st !! key) <= storedOf st key <= acceptedOf st key /\
     acceptedOf st key = storedOf st key + match bucketsOf st !! key with Some c => bc_quantity c - rowIn st key (bc_writer c) | None => 0 end) /\
  (forall key c, bucketsOf st !! key = Some c -> 0 <= bc_acknowledged c <= bc_quantity c /\ bc_quantity c <= maxInt64).
Proof.
  destruct reach_usage_inv as (HI & _ & _). split; [|intros key c Hc; apply (bo_counts _ _ _ _ _ (ui_bucket st HI key c Hc))].
  intros key Hp Hu Hl. assert (relevant st key) as Hk by by split. pose proof (ui_account st HI key Hk) as HA. pose proof (ui_durable st HI key Hk) as HD. unfold accountOk in HA. destruct (bucketsOf st !! key) as [c|]; lia.
Qed.

(** What the table can take: the texts and times that [Record] does not check. *)
Definition storable : Prop := unixOk (usageCutoff (ut_now st)) /\ forall key c, bucketsOf st !! key = Some c -> liveKey (ut_now st) key ->
  trimSpace (bk_model key) <> ""%string /\ unixOk (bk_hour key) /\ trimSpace (bc_writer c) <> ""%string /\ (String.length (bc_writer c) <= 128)%nat.

Lemma valid_items items : UsageInv st -> storable -> (forall item, item ∈ items -> exists key c, item = snapshotOf key c /\ bucketsOf st !! key = Some c /\ liveKey (ut_now st) key) ->
  Forall (fun item => validateSnapshot (ut_now st) item = Ret tt) items.
Proof.
  intros HI [_ HS] Hit. apply Forall_forall. intros item Hi. destruct (Hit item Hi) as (key & c & -> & Hc & Hl). destruct (HS key c Hc Hl) as (Hm & Hu & Hw & Hlw). destruct (ui_bucket st HI key c Hc) as [(B1 & B2 & B3) [B4 B5] [B6 B7] _].
  unfold validateSnapshot. cbn [snapshotOf us_Peer us_ModelID us_WriterID us_Quantity us_Hour]. rewrite B2, (bool_decide_eq_false_2 _ Hm), (bool_decide_eq_false_2 _ Hw), (proj2 (Nat.ltb_ge 256 _) B3), (proj2 (Nat.ltb_ge 128 _) Hlw), (proj2 (Z.ltb_ge (bc_quantity c) 0)) by lia.
  cbn [orb check mbind Go_bind]. rewrite (proj2 (Z.eqb_eq _ _) B4). cbn [negb]. rewrite (proj2 (Z.ltb_ge (bk_hour key) _)) by exact Hl. rewrite (proj2 (Z.ltb_ge (truncateHour (ut_now st)) _)) by done. rewrite (proj2 (SQLUnixNano_Ret _ _) (conj Hu eq_refl)). done.
Qed.


(** ** Queries *)

(** All that is stored for a peer, model and hour, by whatever writer. *)
Definition totalOf (key : bucketKey) (table : usageTable) : Z := sumOn (fun row => bool_decide (row.1 = (rowOf key "").1)) table.

Lemma sumOn_positive (p : usageRow -> bool) (table : usageTable) : 0 < sumOn p table -> exists row q, table !! row = Some q /\ p row = true.
Proof.
  induction table as [|row q table Hr IH] using map_ind; [rewrite sumOn_empty; lia|]. rewrite sumOn_insert_new by done. destruct (p row) eqn:Hp; intros Hpos.
  - exists row, q. by rewrite lookup_insert_eq.
  - destruct (IH ltac:(lia)) as (r & q' & Hq & ?). exists r, q'. rewrite lookup_insert_ne; [done|]. intros ->. congruence.
Qed.

Lemma stored_total key table : (forall row q, table !! row = Some q -> 0 <= q) -> storedQuantity id key table <= totalOf key table.
Proof.
  intros Hq. unfold storedQuantity, totalOf. rewrite (sumOn_split (fun row => bool_decide (row.1 = (rowOf key "").1)) (fun row => String.prefix (ownPrefix id) row.2)).
  pose proof (sumOn_nonneg (fun row => bool_decide (row.1 = (rowOf key "").1) && negb (String.prefix (ownPrefix id) row.2)) table Hq). unfold ownRow. lia.
Qed.

(** C20: [Hourly] shows what is stored.  In every reachable state, an answer for a peer
    has an item for each model and hour within retention for which something was
    accepted before the last [Flush] that returned nil took its snapshots; the item
    has the sum over all writers, which is at least that much. *)
Theorem Hourly_visible peer out model hour :
  let key := MkBucketKey peer model hour in
  Hourly (ut_now st) peer (ut_table st) = Ret out -> keyOk peer -> unixOk hour -> usageCutoff (ut_now st) <= hour <= truncateHour (ut_now st) -> 0 < default 0 (ut_durable st !! key) ->
  exists item, item ∈ out /\ hu_ModelID item = model /\ hu_Hour item = hour /\ hu_Quantity item = totalOf key (ut_table st) /\ default 0 (ut_durable st !! key) <= hu_Quantity item.
Proof.
  intros key HH Hp Hu [Hl Hh] Hpos. destruct reach_usage_inv as (HI & _ & Hid). assert (relevant st key) as Hk by (split; [by split|done]). pose proof (ui_durable st HI key Hk) as HD.
  assert (storedOf st key <= totalOf key (ut_table st)) as Hst by (unfold storedOf; rewrite Hid; apply stored_total; intros row q Hq; by apply (ui_rows st HI row q)).
  assert (maxTime (truncateHour (ut_now st) - usageRetention) (usageCutoff (ut_now st)) = usageCutoff (ut_now st)) as HM by (unfold maxTime, usageCutoff; destruct (Z.ltb_spec (truncateHour (ut_now st) - usageRetention) (truncateHour (ut_now st) - usageRetention)); done).
  unfold Hourly, UsageQuery in HH. rewrite HM, (proj2 (Z.ltb_lt (usageCutoff (ut_now st)) _)) in HH by (unfold usageCutoff, usageRetention, hourLength; lia). destruct (Key_IsZero peer || _); [done|].
  rewrite (proj2 (Z.ltb_lt (usageCutoff (ut_now st)) _)) in HH by (unfold usageCutoff, usageRetention, hourLength; lia). cbn [negb] in HH.
  apply bind_Ret in HH as (lower & [Hlo ->]%SQLUnixNano_Ret & HH). apply bind_Ret in HH as (upper & [Hup ->]%SQLUnixNano_Ret & HH).
  set (sel := selectedRow peer "" _ _) in *. set (g := (unixNano hour, model) : Z * string).
  assert (forall row, row.1 = (rowOf key "").1 -> sel row = true /\ rowGroup row = g) as Hsel.
  { intros [[[a b] h] w] [= -> -> ->]. split; [|done]. unfold sel, selectedRow. rewrite (bool_decide_eq_true_2 (GizKey_String peer = _)) by done. rewrite (bool_decide_eq_true_2 (""%string = _)) by done. unfold unixOk, hourLength in *. rewrite !andb_true_iff. split_and!; [done|lia|lia|done]. }
  assert (forall row, sel row = true -> rowGroup row = g -> row.1 = (rowOf key "").1) as Hback.
  { intros [[[a b] h] w] HS [= -> ->]. unfold sel, selectedRow in HS. apply andb_true_iff in HS as [[[->%bool_decide_eq_true_1 _]%andb_true_iff _]%andb_true_iff _]. done. }
  assert (groupSum sel (ut_table st) g = totalOf key (ut_table st)) as HG.
  { unfold groupSum, totalOf. apply sumOn_ext. intros row q _. destruct (decide (row.1 = (rowOf key "").1)) as [He|Hne].
    - destruct (Hsel row He) as [-> ->]. by rewrite !bool_decide_eq_true_2.
    - rewrite (bool_decide_eq_false_2 _ Hne). destruct (sel row) eqn:HS; [|done]. cbn. apply bool_decide_eq_false_2. intros He. by apply Hne, Hback. }
  destruct (sumOn_positive (ownRow id key) (ut_table st)) as (row & q & Hrow & Hown); [unfold storedOf, storedQuantity in HD; rewrite Hid in HD; lia|]. unfold ownRow in Hown. apply andb_true_iff in Hown as [He%bool_decide_eq_true_1 _]. destruct (Hsel row He) as [HS Hg].
  assert (g ∈ groupsOf sel (ut_table st)) as Hin.
  { unfold groupsOf. rewrite merge_sort_Permutation, elem_of_remove_dups, <-Hg. apply list_elem_of_fmap_2, list_elem_of_filter. split; [done|]. apply (list_elem_of_fmap_2 fst _ (row, q)). by apply elem_of_map_to_list. }
  destruct (mapGo_elem _ _ _ HH) as (_ & Hall & _). pose proof (proj1 (proj2 (mapGo_elem _ _ _ HH))) as Hev.
  assert (exists item, scanGroup sel (ut_table st) g = Ret item) as [item Hitem].
  { clear -HH Hin. revert out HH. induction (groupsOf sel (ut_table st)) as [|x xs IH]; intros out HH; [by apply not_elem_of_nil in Hin|]. cbn [mapGo] in HH. apply bind_Ret in HH as (y & Hy & (ys & Hys & _)%bind_Ret). apply elem_of_cons in Hin as [->|Hin]; [by exists y|by eapply IH]. }
  exists item. split; [by eapply Hev|]. unfold scanGroup in Hitem. destruct (groupSum sel (ut_table st) g <=? maxInt64); [|done]. injection Hitem as <-. cbn. rewrite HG. split_and!; [done|exact Hu|done|lia].
Qed.
End theorems.

(** * peerusage: a run

    A first flush commits but its answer is lost; the second one repeats the snapshot;
    then more is recorded. *)
Definition exUsageNow : Time := unixEpoch + 490000 * hourLength + 1800 * 1000000000.
Definition exUsagePeer : Bytes := repeat 7 32.
Definition exUsageKey : bucketKey := MkBucketKey exUsagePeer "voice-1" (truncateHour exUsageNow).

Definition exUsageEvents : list usageEvent :=
  [URecord exUsagePeer "voice-1" (10, 2, 30) exUsageNow; USnapshots [exUsageKey] exUsageNow; UWrite CommitLost;
   USnapshots [exUsageKey] exUsageNow; UWrite CommitOk; UAcknowledge exUsageNow; UTick hourLength; URecord exUsagePeer "voice-1" (5, 0, 0) exUsageNow].

Definition exUsage (evs : list usageEvent) : usageState := default (newUsage "ab" exUsageNow ∅) (usageRun evs (newUsage "ab" exUsageNow ∅)).

Definition someState {A} (o : option A) : bool := match o with Some _ => true | None => false end.

Lemma exUsage_run evs : someState (usageRun evs (newUsage "ab" exUsageNow ∅)) = true -> usageRun evs (newUsage "ab" exUsageNow ∅) = Some (exUsage evs).
Proof. unfold exUsage. by destruct (usageRun evs (newUsage "ab" exUsageNow ∅)). Qed.

Lemma usage_accounts_witness :
  storedOf (exUsage exUsageEvents) exUsageKey = 42 /\ acceptedOf (exUsage exUsageEvents) exUsageKey = 47 /\
  acceptedOf (exUsage exUsageEvents) exUsageKey = storedOf (exUsage exUsageEvents) exUsageKey + match bucketsOf (exUsage exUsageEvents) !! exUsageKey with Some c => bc_quantity c - rowIn (exUsage exUsageEvents) exUsageKey (bc_writer c) | None => 0 end.
Proof.
  split; [vm_compute; reflexivity|]. split; [vm_compute; reflexivity|].
  assert (freshTable "ab" ∅) as HF by (intros row q Hr; rewrite lookup_empty in Hr; discriminate).
  assert (usageRun exUsageEvents (newUsage "ab" exUsageNow ∅) = Some (exUsage exUsageEvents)) as HR by (apply exUsage_run; vm_compute; reflexivity).
  assert (Z.of_nat (length exUsageEvents) < 2 ^ 64) as HL by (vm_compute; reflexivity).
  assert (keyOk (bk_peer exUsageKey)) as HK by (apply keyOkb_spec; vm_compute; reflexivity).
  assert (unixOk (bk_hour exUsageKey)) as HU by (vm_compute; reflexivity).
  assert (usageCutoff (ut_now (exUsage exUsageEvents)) <= bk_hour exUsageKey) as HC by (vm_compute; discriminate).
  exact (proj2 (proj1 (usage_accounts "ab" exUsageNow ∅ exUsageEvents (exUsage exUsageEvents) HF HL HR) exUsageKey HK HU HC)).
Defined.


Definition exHourly : list hourlyUsage := [MkHourly "voice-1" (truncateHour exUsageNow) 42].

Lemma Hourly_visible_witness :
  exists item, item ∈ exHourly /\ hu_ModelID item = "voice-1"%string /\ 42 <= hu_Quantity item.
Proof.
  assert (freshTable "ab" ∅) as HF by (intros row q Hr; rewrite lookup_empty in Hr; discriminate).
  assert (usageRun exUsageEvents (newUsage "ab" exUsageNow ∅) = Some (exUsage exUsageEvents)) as HR by (apply exUsage_run; vm_compute; reflexivity).
  assert (Z.of_nat (length exUsageEvents) < 2 ^ 64) as HL by (vm_compute; reflexivity).
  assert (Hourly (ut_now (exUsage exUsageEvents)) exUsagePeer (ut_table (exUsage exUsageEvents)) = Ret exHourly) as HH by (vm_compute; reflexivity).
  assert (keyOk exUsagePeer) as HK by (apply keyOkb_spec; vm_compute; reflexivity).
  assert (default 0 (ut_durable (exUsage exUsageEvents) !! exUsageKey) = 42) as HD by (vm_compute; reflexivity).
  destruct (Hourly_visible "ab" exUsageNow ∅ exUsageEvents (exUsage exUsageEvents) HF HL HR exUsagePeer exHourly "voice-1" (truncateHour exUsageNow) HH HK) as (item & Hi & Hm & _ & _ & Hq);
    [vm_compute; reflexivity|split; vm_compute; discriminate|unfold exUsageKey in HD; rewrite HD; lia|].
  exists item. split; [exact Hi|]. split; [exact Hm|]. unfold exUsageKey in HD. rewrite HD in Hq. exact Hq.
Defined.

(** [Record] accepts a model of blanks, [Write] refuses it and with it the whole batch:
    as long as its hour is within retention no [Flush] stores anything. *)
Definition exBlankKey : bucketKey := MkBucketKey exUsagePeer " " (truncateHour exUsageNow).
Definition exBlankEvents : list usageEvent :=
  [URecord exUsagePeer "voice-1" (10, 2, 30) exUsageNow; URecord exUsagePeer " " (1, 0, 0) exUsageNow; USnapshots [exUsageKey; exBlankKey] exUsageNow].

Example blank_model_blocks :
  acceptedOf (exUsage exBlankEvents) exBlankKey = 1 /\
  forall outcome, match ut_flush (exUsage exBlankEvents) with
    | Writing items _ => length items = 2%nat /\ UsageWrite (ut_now (exUsage exBlankEvents)) items outcome (ut_table (exUsage exBlankEvents)) = (∅, Fail "peerusage: invalid hourly snapshot"%string)
    | _ => False
    end.
Proof. split; [vm_compute; reflexivity|]. intros []; vm_compute; split; reflexivity. Qed.
